(* ===== verification/_CoqProject ===== *)
-Q . S2P
Prelude.v
PackedKeys.v
Crc32c.v
Types.v
WalDevice.v
Wal.v
WalFrames.v
WalTail.v
WalScan.v
WalRecovery.v
WalSystem.v
Pivot.v
Locks.v
Epoch.v
StdMap.v
RangeIndex.v
PointIndex.v
DataItem.v
TxSet.v
StdAlgo.v
LogReplay.v
Checkpoint.v
Recovery.v
ImageRecovery.v
Startup.v
Durability.v
Switch.v
Transaction.v
TxFrame.v
TxScan.v
TxOps.v
TxTotal.v
TxDemo.v
Typed.v
Silo.v
SiloSerial.v
SiloNwr.v
SiloNwrSerial.v
Stateless.v
StatelessLogic.v
StatelessCommit.v
StatelessPool.v
StatelessDemo.v
MasstreeIndex.v
PaxCodec.v
PaxGroup.v
PaxCells.v
PaxBuffer.v
PaxView.v
PaxDemo.v
Statistics.v
TwoPhaseLocking.v
ConcurrentQueue.v
ThreadPool.v
Callbacks.v
Fence.v
HashIndex.v
ThreadKeyStorage.v
