(* ===== verification/Prelude.v ===== *)
(** * LineairDB: a verification library

    LineairDB (src/src, src/include) is an embedded transactional key-value
    store.  Threads run transactions against tables of rows and secondary
    indexes; an epoch framework groups commits; a write-ahead log and
    checkpoint images make them durable; startup rebuilds the tables from
    both.  A second interface serves clients that keep their own read and
    write sets and hand them in to be validated and committed.

    The library translates the code into executable definitions, keeps the
    names of the source, and proves what each component promises.  Concurrent
    code is split at its atomic accesses and interleaved in any order by a
    step relation; code under a lock is a function on the locked state; code
    that throws or stops the process returns a value that says so.

    ** The parts, and where they are modelled

    Data.
    - PackedKeys.v: the packed, sorted primary-key list of a secondary-index
      entry (types/packed_primary_keys.hpp), with varints at byte level.
    - Types.v: transaction ids, packed ids, log records
      (types/transaction_id.hpp, definitions.h, recovery/log_record.h,
      stateless/packed_transaction_id.hpp).
    - DataItem.v: row buffers, data items, snapshots and the deltas of a
      posting list (types/data_buffer.hpp, data_item.hpp, snapshot.hpp).

    The log.
    - Crc32c.v: both implementations of the checksum (recovery/crc32c.cpp).
    - WalDevice.v, Wal.v: the file with an oracle of system-call outcomes, and
      the log object on it (recovery/wal.h, wal.cpp).  WalFrames.v, WalTail.v,
      WalScan.v and WalRecovery.v hold the lemmas on frames, on the tail of
      the file and on ScanAndRepair and AppendGroup; WalSystem.v composes
      starts, scans, appends, kills and power failures.

    Concurrency.
    - Locks.v: the spin locks (lock/impl).  Epoch.v: the epoch framework
      (util/epoch_framework.hpp).  ThreadKeyStorage.v: the per-thread storage
      it and others walk (util/thread_key_storage.h).
    - StdMap.v, RangeIndex.v: std::map and the precision-locking range index.
      PointIndex.v: the lock-free hash table with its rehashing thread
      (index/precision_locking_index).  HashIndex.v: the index made of both
      (index.hpp, index/impl/pl_index.hpp).  MasstreeIndex.v: the wrapper of
      the Masstree with its node versions (index/impl/masstree_index.cpp).
    - Silo.v, SiloSerial.v: the Silo commit protocol
      (concurrency_control/impl/silo_nwr.hpp) and its serializability.
      Pivot.v: the versioned sets and pivot objects of NWR
      (util/32bit_set.hpp, concurrency_control/pivot_object.hpp).  SiloNwr.v,
      SiloNwrSerial.v: the protocol that omits writes by them, as a
      refinement of Silo.
    - TwoPhaseLocking.v: concurrency_control/impl/two_phase_locking.hpp.
    - ConcurrentQueue.v, ThreadPool.v, Callbacks.v: the queues, the pool of
      workers and the commit callbacks (thread_pool, callback/impl).  Fence.v:
      their composition with the epoch framework by the database.

    Transactions.
    - TxSet.v, StdAlgo.v, Transaction.v: the read and write sets and every
      operation of Transaction::Impl (transaction_impl.cpp) over interfaces of
      the indexes, the protocol and the catalogue.  TxFrame.v, TxScan.v,
      TxOps.v and TxTotal.v prove what sequences of operations do; TxDemo.v
      instantiates the interfaces.  Typed.v: the templates of
      include/lineairdb/transaction.h over them.
    - Statistics.v: the index statistics of database_impl.h.

    Durability and recovery.
    - LogReplay.v: Enqueue and BuildRecoverySet (recovery/logger.cpp,
      recovery/impl/thread_local_logger.cpp).  Checkpoint.v: capture,
      publication and loading of images (recovery/epoch_scan_checkpoint.cpp).
    - Recovery.v: Database::Impl::Recovery (database_impl.h, table).
      ImageRecovery.v: Logger::Recover.  Startup.v: the configuration and the
      constructor of the database.  Durability.v: commits, flusher, durable
      epoch, log and crashes as one transition system; Switch.v: a change of
      the durability policy in it.

    PAX storage (src/src/pax, include/lineairdb/pax_store.h).
    - PaxCodec.v: typed cells.  PaxGroup.v, PaxCells.v: row groups over
      addressed memory, and the lemmas on their layout.  PaxBuffer.v: slots,
      the version store and buffers in PAX mode.  PaxView.v: columnar read
      views beside commits.  PaxDemo.v: a concrete table.

    The stateless interface.
    - Stateless.v: Read, BatchRead, RangeScan, SecondaryRangeScan and Commit
      (stateless/read.cpp, commit.cpp), the Masstree wrapper they run on
      (index/impl/masstree_index.cpp) and the reaper (index/reaper.cpp), as
      programs over single accesses to shared memory.
    - StatelessLogic.v: the semantics of an access, pools of threads, and a
      program logic; StatelessCommit.v: the specification of Commit and Reap;
      StatelessPool.v: the theorems; StatelessDemo.v: a concrete tree and
      schedules.

    This file: machine integers, byte strings, lists, and the tactics and hint
    databases the others share.

    ** What the theorems show

    - Isolation: SiloSerial.v (serializability), TwoPhaseLocking.v (the same
      for transactions that write no row twice, with one table per key),
      SiloNwrSerial.v (SiloNWR is serializable when the omitted writes are
      left out), RangeIndex.v and MasstreeIndex.v (no phantoms, under the
      conditions they state and show to be needed), PointIndex.v
      (linearizability), HashIndex.v (a scan finds the item of every key),
      Locks.v (exclusion), StatelessPool.v (locks, versions, validation and
      installation of stateless commits), PaxView.v (a view is a snapshot).
    - What a transaction sees of itself: TxOps.v, TxScan.v, Typed.v.
    - Durability: WalSystem.v and Durability.v (an acknowledged commit
      survives every crash and is recovered), Switch.v (a switch to
      synchronous commits confirms the earlier ones), Recovery.v,
      ImageRecovery.v and Startup.v (a start rebuilds what the log says, with
      or without an image), Checkpoint.v (publication is atomic, a published
      image loads).
    - Threads: ThreadPool.v and Callbacks.v (every job and every callback once),
      Fence.v (what every worker has finished when Fence returns),
      ThreadKeyStorage.v (what a walk visits).
    - Representation: PackedKeys.v (a packed list is a sorted set), DataItem.v
      (deltas replay the operations), Crc32c.v (both checksums agree),
      PaxCells.v and PaxBuffer.v (rows of the form the cells give back come
      back, accesses stay in bounds under a well-formed schema),
      Statistics.v (the counts are exact).
    - What goes wrong: SiloNwrSerial.v exhibits an execution of SiloNWR that no
      serial order explains, StatelessDemo.v two stateless commits that
      exclude each other and both succeed, TwoPhaseLocking.v a skew between
      rows of two tables with the same key, a second write that is lost and a
      lock that is never released, Fence.v a submitted transaction that Fence
      does not wait for, HashIndex.v insertions that fail an assertion,
      MasstreeIndex.v backward scans that count a key outside their range and
      a phantom that commits, RangeIndex.v a forced insertion into a scanned
      range and a wait that does not end, Startup.v a default configuration
      that is refused, TxOps.v a read that leaves no trace.

    ** Bounds, fuel and parameters

    Integers keep the width of their C++ type: results are reduced by [u8],
    [u16], [u32] and [u64].  Loops that spin on shared memory are steps of a
    transition system, or take a bound [fuel] in Stateless.v, where reaching
    it is the value [Spinning], never a result.  The loops of WalDevice.v
    recurse on the bytes left, those of Wal.v on the file's length.

    The tid of a transaction id is 32 bits wide and the code adds to it without
    a check.  A publication in Silo.v and SiloNwr.v is a step only if the tid
    does not wrap ([tid w + 1 < 2 ^ 32]), and an access in StatelessLogic.v
    only if no item is left at the last tid ([no_wrap]); the epoch of
    StatelessLogic.v stays below 2^32.  Their theorems are about the
    executions in which no version is exhausted within its epoch.

    The crash theorems of WalSystem.v and Durability.v are about starts that
    scan the whole log ([min_epoch] 0); Logger::Recover with the cut of an
    image is ImageRecovery.v.

    Third-party code is a parameter with laws: msgpack ([MsgPackLaws]), the
    SSE4.2 instructions ([Crc32Instructions]), Masstree ([BasicTableLaws],
    [LeafVersionsLaws]), the queues of the threads ([ConcurrentQueueLaws]),
    and the order in which a hash map is walked.  Every theorem that assumes
    such laws is applied to a concrete instance in a witness.

    ** Not modelled

    - Masstree itself, which is a submodule, and its reclamation of memory; a
      backward scan of it without an end.
    - In the protocols: the order of locking, which only prevents deadlocks,
      and the registration of purges; the bytes behind the pointer that
      ReadDirect of two-phase locking returns, which are freed by then.
    - Relaxed memory: atomic accesses interleave sequentially consistently,
      also those the code marks relaxed (the loads of PointIndex.v among
      them); the reclamation of the hash table's old arrays.
    - The loop in which a columnar reader reads the strips, looks at the
      version store and reads again: readers are clients, and PaxView.v
      takes the strips and the entries of a slot at one moment.
    - In the stateless interface: rows in PAX groups, so that a masked read is
      a plain one, and PaxRowRefScan.
    - In the database: the reuse of transaction objects, the threads that
      schedule captures of images, and the order of destruction.
    - The older checkpoint manager (recovery/checkpoint_manager.hpp), which
      startup refuses to enable.
    - Forwarding wrappers (database.cpp, index/concurrent_table.cpp), logging,
      tracing (recovery/flush_trace.h), test synchronisation points, benchmarks
      and examples. *)

From Stdlib Require Export ZArith Lia Sorted.
From stdpp Require Export base numbers list list_numbers option sets gmap.

#[global] Open Scope Z_scope.

(** ** Machine integers

    A value of an unsigned C++ type of width [w] is a [Z] in [[0, 2^w)]; an
    arithmetic result is reduced by the function of its type. *)

Definition u8 (z : Z) : Z := z mod 2 ^ 8.
Definition u16 (z : Z) : Z := z mod 2 ^ 16.
Definition u32 (z : Z) : Z := z mod 2 ^ 32.
Definition u64 (z : Z) : Z := z mod 2 ^ 64.

(** [std::numeric_limits<...>::max()] of the types the code names. *)
Definition UINT32_MAX : Z := 2 ^ 32 - 1.
Definition OFF_T_MAX : Z := 2 ^ 63 - 1.

Definition is_u8 (z : Z) : Prop := 0 <= z < 2 ^ 8.
Definition is_u32 (z : Z) : Prop := 0 <= z < 2 ^ 32.
Definition is_u64 (z : Z) : Prop := 0 <= z < 2 ^ 64.

(** ** Byte strings

    A [std::string], [std::string_view] or byte buffer is a list of bytes. *)

Abbreviation bytestring := (list Z).

(** The length of a buffer, as the [size_t] the code computes with. *)
Definition zlen {A} (l : list A) : Z := Z.of_nat (length l).

(** The bytes of [[from, from + len)] of a buffer. *)
Definition slice {A} (from len : Z) (l : list A) : list A :=
  take (Z.to_nat len) (drop (Z.to_nat from) l).

Definition bytes_ok (l : bytestring) : Prop := Forall is_u8 l.

(** A byte string no longer than [std::string::max_size()]. *)
Definition string_ok (l : bytestring) : Prop := bytes_ok l ∧ zlen l < 2 ^ 63.

(** [operator<] on strings: [char_traits<char>] compares as unsigned char. *)
Fixpoint str_ltb (a b : bytestring) : bool :=
  match a, b with
  | _, [] => false
  | [], _ :: _ => true
  | x :: a', y :: b' =>
      if x <? y then true else if y <? x then false else str_ltb a' b'
  end.

(** [operator==] on strings. *)
Fixpoint str_eqb (a b : bytestring) : bool :=
  match a, b with
  | [], [] => true
  | x :: a', y :: b' => (x =? y) && str_eqb a' b'
  | _, _ => false
  end.

Definition str_lt (a b : bytestring) : Prop := str_ltb a b = true.

(** ** Automation of the library

    [wrap] discharges the reductions of [u8] ... [u64] on arguments in range;
    [zl] turns buffer lengths into linear arithmetic. *)

Create HintDb lineair discriminated.

Lemma u32_small z : is_u32 z -> u32 z = z.
Proof. apply Z.mod_small. Qed.

Lemma u64_small z : is_u64 z -> u64 z = z.
Proof. apply Z.mod_small. Qed.

Lemma u8_is_u8 z : is_u8 (u8 z).
Proof. unfold is_u8, u8. apply Z.mod_pos_bound. lia. Qed.

Lemma u32_is_u32 z : is_u32 (u32 z).
Proof. unfold is_u32, u32. apply Z.mod_pos_bound. lia. Qed.

Lemma u64_is_u64 z : is_u64 (u64 z).
Proof. unfold is_u64, u64. apply Z.mod_pos_bound. lia. Qed.

#[export] Hint Resolve u8_is_u8 u32_is_u32 u64_is_u64 : lineair.

Lemma zlen_nonneg {A} (l : list A) : 0 <= zlen l.
Proof. unfold zlen. lia. Qed.

Lemma zlen_nil {A} : zlen (@nil A) = 0.
Proof. reflexivity. Qed.

Lemma zlen_cons {A} (x : A) l : zlen (x :: l) = 1 + zlen l.
Proof. unfold zlen. simpl length. lia. Qed.

Lemma zlen_app {A} (l k : list A) : zlen (l ++ k) = zlen l + zlen k.
Proof. unfold zlen. rewrite length_app. lia. Qed.

Lemma zlen_replicate {A} n (x : A) : zlen (replicate n x) = Z.of_nat n.
Proof. unfold zlen. by rewrite length_replicate. Qed.

Lemma to_nat_zlen {A} (l : list A) : Z.to_nat (zlen l) = length l.
Proof. unfold zlen. lia. Qed.

Create Rewrite HintDb zlen.

#[export] Hint Rewrite @zlen_nil @zlen_cons @zlen_app @zlen_replicate : zlen.

Ltac zl :=
  autorewrite with zlen in *;
  repeat match goal with
    | |- context [zlen ?l] =>
        lazymatch goal with
        | H : 0 <= zlen l |- _ => fail
        | _ => pose proof (zlen_nonneg l)
        end
    | _ : context [zlen ?l] |- _ =>
        lazymatch goal with
        | H : 0 <= zlen l |- _ => fail
        | _ => pose proof (zlen_nonneg l)
        end
    end; try lia.

(** ** Slices of a buffer *)

Section slices.
Context {A : Type}.
Implicit Types l k : list A.

Lemma zlen_slice from len l :
  0 <= from -> 0 <= len -> from + len <= zlen l -> zlen (slice from len l) = len.
Proof.
  unfold zlen, slice. intros. rewrite length_take, length_drop. lia.
Qed.

Lemma slice_app_l from len l k :
  0 <= from -> 0 <= len -> from + len <= zlen l ->
  slice from len (l ++ k) = slice from len l.
Proof.
  unfold slice, zlen. intros.
  rewrite drop_app_le by lia. rewrite take_app_le; [done|].
  rewrite length_drop. lia.
Qed.

Lemma slice_app_r from len l k :
  zlen l <= from -> slice from len (l ++ k) = slice (from - zlen l) len k.
Proof.
  unfold slice, zlen. intros. rewrite drop_app_ge by lia.
  do 2 f_equal. lia.
Qed.

Lemma slice_mid l k m : slice (zlen l) (zlen k) (l ++ k ++ m) = k.
Proof.
  rewrite slice_app_r by lia. unfold slice.
  rewrite Z.sub_diag, to_nat_zlen. simpl. by rewrite drop_0, take_app_length.
Qed.

Lemma slice_0_all l : slice 0 (zlen l) l = l.
Proof. unfold slice. rewrite to_nat_zlen. simpl. by rewrite drop_0, take_ge. Qed.

Lemma slice_nil_len from l : slice from 0 l = [].
Proof. reflexivity. Qed.
End slices.

(** ** The order on strings *)

Lemma str_eqb_eq a b : str_eqb a b = true <-> a = b.
Proof.
  revert b. induction a as [|x a IH]; intros [|y b]; simpl; try naive_solver.
  rewrite andb_true_iff, Z.eqb_eq, IH. naive_solver.
Qed.

Lemma str_eqb_neq a b : str_eqb a b = false <-> a <> b.
Proof. rewrite <- str_eqb_eq. destruct (str_eqb a b); naive_solver. Qed.

Lemma str_eqb_refl a : str_eqb a a = true.
Proof. by apply str_eqb_eq. Qed.

Lemma str_ltb_irrefl a : str_ltb a a = false.
Proof. induction a; simpl; [done|]. by rewrite Z.ltb_irrefl. Qed.

Lemma str_lt_trans a b c : str_lt a b -> str_lt b c -> str_lt a c.
Proof.
  unfold str_lt. revert b c.
  induction a as [|x a IH]; intros [|y b] [|z c]; simpl; try done.
  repeat case_match; try done; try lia; intros; eauto.
Qed.

#[global] Instance str_lt_strict : StrictOrder str_lt.
Proof.
  split.
  - intros a H. unfold str_lt in H. by rewrite str_ltb_irrefl in H.
  - intros a b c. apply str_lt_trans.
Qed.

Lemma str_ltb_total a b : str_ltb a b = false -> a <> b -> str_lt b a.
Proof.
  unfold str_lt. revert b.
  induction a as [|x a IH]; intros [|y b]; simpl; try done.
  repeat case_match; try done; try lia; intros Hf Hne.
  apply IH; [done|]. intros ->. apply Hne. f_equal. lia.
Qed.

Lemma str_lt_asym a b : str_lt a b -> str_ltb b a = false.
Proof.
  intros H. destruct (str_ltb b a) eqn:E; [|done].
  exfalso. exact (irreflexivity str_lt a (str_lt_trans _ _ _ H E)).
Qed.

Lemma str_lt_ne a b : str_lt a b -> a <> b.
Proof. intros H ->. exact (irreflexivity str_lt b H). Qed.

(** ** Bit fields

    Or-ing disjoint fields is adding them. *)

Lemma lor_shiftl_add a b n :
  0 <= n -> 0 <= a < 2 ^ n -> Z.lor a (Z.shiftl b n) = a + b * 2 ^ n.
Proof.
  intros Hn Ha. rewrite <- Z.shiftl_mul_pow2 by done.
  assert (Z.land a (Z.shiftl b n) = 0) as Hland.
  { apply Z.bits_inj_0. intros i. rewrite Z.land_spec.
    destruct (Z_lt_dec i 0); [by rewrite Z.testbit_neg_r|].
    destruct (Z_lt_dec i n).
    - by rewrite (Z.shiftl_spec_low _ _ _ l), andb_false_r.
    - destruct (Z.eq_dec a 0) as [->|]; [by rewrite Z.bits_0|].
      rewrite (Z.bits_above_log2 a i); [done|lia|].
      apply Z.log2_lt_pow2; [lia|].
      apply Z.lt_le_trans with (2 ^ n); [lia|]. apply Z.pow_le_mono_r; lia. }
  rewrite <- Z.lxor_lor by done. symmetry. by apply Z.add_nocarry_lxor.
Qed.

Lemma lor_mul_add a b n :
  0 <= n -> 0 <= a < 2 ^ n -> Z.lor a (b * 2 ^ n) = a + b * 2 ^ n.
Proof. intros. rewrite <- Z.shiftl_mul_pow2 at 1 by done. by apply lor_shiftl_add. Qed.

(** A boolean test splits a goal into its two cases with the arithmetic fact. *)
Ltac zcase :=
  repeat match goal with
    | |- context [Z.leb ?a ?b] => destruct (Z.leb_spec a b)
    | |- context [Z.ltb ?a ?b] => destruct (Z.ltb_spec a b)
    | |- context [Z.eqb ?a ?b] => destruct (Z.eqb_spec a b)
    end; try lia.

(** ** Little-endian words *)

(** The value of the bytes of a word, least significant first. *)
Fixpoint le_value (l : bytestring) : Z :=
  match l with
  | [] => 0
  | b :: l' => b + 256 * le_value l'
  end.

(** The [n] low bytes of a word. *)
Fixpoint le_bytes (n : nat) (w : Z) : bytestring :=
  match n with
  | O => []
  | S n' => w mod 256 :: le_bytes n' (w / 256)
  end.

Lemma le_bytes_ok n w : bytes_ok (le_bytes n w).
Proof.
  revert w. induction n as [|n IH]; intros w; simpl; constructor; [|apply IH].
  unfold is_u8. apply Z.mod_pos_bound. lia.
Qed.

Lemma length_le_bytes n w : length (le_bytes n w) = n.
Proof. revert w. induction n as [|n IH]; intros w; simpl; [done|]. by rewrite IH. Qed.

Lemma le_value_bytes n w : 0 <= w < 256 ^ Z.of_nat n -> le_value (le_bytes n w) = w.
Proof.
  revert w. induction n as [|n IH]; intros w Hw; [simpl in *; lia|]. simpl.
  replace (Z.of_nat (S n)) with (1 + Z.of_nat n) in Hw by lia.
  rewrite Z.pow_add_r in Hw by lia. pose proof (Z.div_mod w 256).
  rewrite IH; [lia|]. split; [apply Z.div_pos; lia|]. apply Z.div_lt_upper_bound; lia.
Qed.

Lemma le_bytes_value l : bytes_ok l -> le_bytes (length l) (le_value l) = l.
Proof.
  induction 1 as [|b l Hb Hl IH]; simpl; [done|]. unfold is_u8 in Hb.
  rewrite (Z.mul_comm 256), Z.mod_add, Z.div_add, Z.mod_small, Z.div_small by lia.
  by rewrite Z.add_0_l, IH.
Qed.

Lemma le_value_inj l k :
  bytes_ok l -> bytes_ok k -> length l = length k -> le_value l = le_value k -> l = k.
Proof.
  intros Hl Hk Hlen Heq. rewrite <- (le_bytes_value l), <- (le_bytes_value k) by done.
  by rewrite Hlen, Heq.
Qed.

Lemma le_value_bound l : bytes_ok l -> 0 <= le_value l < 256 ^ zlen l.
Proof.
  induction 1 as [|b l Hb Hl IH]; [done|]. unfold is_u8 in Hb. simpl le_value.
  rewrite zlen_cons, Z.pow_add_r by zl. lia.
Qed.

#[export] Hint Resolve le_bytes_ok : lineair.

(** A closed buffer is checked by evaluation. *)
Definition bytes_okb (l : bytestring) : bool := forallb (fun b => (0 <=? b) && (b <? 256)) l.

Lemma bytes_okb_ok l : bytes_okb l = true -> bytes_ok l.
Proof.
  unfold bytes_okb. rewrite forallb_forall. intros H. apply Forall_forall.
  intros b Hb%list_elem_of_In%H. unfold is_u8. lia.
Qed.

Ltac bytes_eval := apply bytes_okb_ok; vm_compute; reflexivity.
