(* ===== verification/PackedKeys.v ===== *)
(** * Packed primary-key lists (src/src/types/packed_primary_keys.hpp)

    [PackedPrimaryKeys] is the immutable, sorted, duplicate-free list of
    primary keys a secondary-index entry points at, kept as varint-prefixed
    records in one buffer.  [PackedPrimaryKeys.t] is that buffer; pointers into
    it are offsets from [Records()].  [PackedPrimaryKeysView] is the zero-copy
    iterator view.  The theorems show that the two are a faithful
    implementation of a sorted set of byte strings: every operation refines
    the operation on the list of keys ([represents]), errors included. *)

From stdpp Require Import strings.
From S2P Require Import Prelude.

(** A C++ computation that may throw [std::length_error(field)]. *)
Inductive outcome (A : Type) : Type :=
| Returns (a : A)
| Throws_length_error (field : string).
Arguments Returns {A} a.
Arguments Throws_length_error {A} field.

Definition obind {A B} (m : outcome A) (k : A -> outcome B) : outcome B :=
  match m with
  | Returns a => k a
  | Throws_length_error f => Throws_length_error f
  end.
Notation "'do?' x <- m ; k" := (obind m (fun x => k))
  (at level 10, x name, m at level 100, k at level 200).

Module PackedPrimaryKeys.

Record t := mk { count : Z; bytes : Z; records : bytestring }.

(** [std::shared_ptr<const PackedPrimaryKeys>]: [None] is the null pointer. *)
Abbreviation Ptr := (option t).

(** What [Insert] and [Erase] return: the argument's own pointer, or a pointer
    to a newly allocated list. *)
Inductive PtrUpdate : Type :=
| SamePtr
| FreshPtr (keys : t).

Record Record_ := mkRecord { start : Z; value : Z; next : Z; length_ : Z }.

Definition CheckFitsUint32 (v : Z) (field : string) : outcome Z :=
  if UINT32_MAX <? v then Throws_length_error field else Returns (u32 v).

(** [while (value >= 0x80)]: 64-bit values leave it within nine rounds. *)
Fixpoint VarintSize_loop (fuel : nat) (v size : Z) : Z :=
  match fuel with
  | O => size
  | S f => if 0x80 <=? v then VarintSize_loop f (Z.shiftr v 7) (u64 (size + 1)) else size
  end.

Definition VarintSize (v : Z) : Z := VarintSize_loop 10 v 1.

Definition EncodedRecordSize (key : bytestring) : Z :=
  u64 (VarintSize (zlen key) + zlen key).

(** The bytes [WriteVarint] stores from [out] on. *)
Fixpoint WriteVarint_loop (fuel : nat) (v : Z) : bytestring :=
  match fuel with
  | O => []
  | S f =>
      if 0x80 <=? v
      then u8 (Z.lor (Z.land v 0x7f) 0x80) :: WriteVarint_loop f (Z.shiftr v 7)
      else [u8 v]
  end.

Definition WriteVarint (v : Z) : bytestring := WriteVarint_loop 10 v.

Definition WriteRecord (key : bytestring) : bytestring := WriteVarint (zlen key) ++ key.

(** [DecodeRecord(start, limit)].  [rest] is what lies between [cursor] and
    [limit].  The asserts of the source are not executed here; the theorems
    show that they hold on every list the operations build. *)
Fixpoint DecodeRecord_loop (rest : bytestring) (start cursor limit len shift : Z) : Record_ :=
  match rest with
  | [] => mkRecord start limit limit 0
  | byte :: rest' =>
      let cursor := cursor + 1 in
      let len := Z.lor len (u64 (Z.shiftl (Z.land byte 0x7f) shift)) in
      if Z.land byte 0x80 =? 0
      then mkRecord start cursor (cursor + len) len
      else DecodeRecord_loop rest' start cursor limit len (shift + 7)
  end.

Definition DecodeRecord (recs : bytestring) (start limit : Z) : Record_ :=
  DecodeRecord_loop (slice start (limit - start) recs) start start limit 0 0.

(** The [std::string_view(record.value, record.length)] of a record. *)
Definition RecordValue (recs : bytestring) (r : Record_) : bytestring :=
  slice (value r) (length_ r) recs.

Fixpoint PayloadBytes (keys : list bytestring) (payload_bytes : Z) : outcome Z :=
  match keys with
  | [] => Returns payload_bytes
  | key :: rest =>
      let payload_bytes := u64 (payload_bytes + EncodedRecordSize key) in
      do? _ <- CheckFitsUint32 payload_bytes "packed primary-key list bytes";
      PayloadBytes rest payload_bytes
  end.

Definition FromSortedDeduped (keys : list bytestring) : outcome t :=
  do? payload_bytes <- PayloadBytes keys 0;
  do? record_count <- CheckFitsUint32 (zlen keys) "packed primary-key list count";
  Returns (mk record_count (u32 payload_bytes) (concat (map WriteRecord keys))).

Definition FromOne (key : bytestring) : outcome t :=
  do? payload_bytes <- CheckFitsUint32 (EncodedRecordSize key) "packed primary-key list bytes";
  Returns (mk 1 payload_bytes (WriteRecord key)).

(** The search loop of [Insert]: [None] when the key is present, otherwise
    the position the record goes to. *)
Fixpoint Insert_loop (fuel : nat) (recs : bytestring) (cursor src_end : Z)
    (key : bytestring) : option Z :=
  match fuel with
  | O => Some src_end
  | S f =>
      if cursor =? src_end then Some src_end else
      let record := DecodeRecord recs cursor src_end in
      let v := RecordValue recs record in
      if str_eqb v key then None
      else if negb (str_ltb v key) then Some (start record)
      else Insert_loop f recs (next record) src_end key
  end.

Definition Insert (keys : Ptr) (key : bytestring) : outcome PtrUpdate :=
  match keys with
  | None => do? p <- FromOne key; Returns (FreshPtr p)
  | Some p =>
      match Insert_loop (S (length (records p))) (records p) 0 (bytes p) key with
      | None => Returns SamePtr
      | Some insert_pos =>
          let added_bytes := EncodedRecordSize key in
          let new_bytes := u64 (bytes p + added_bytes) in
          do? c <- CheckFitsUint32 (u64 (count p + 1)) "packed primary-key list count";
          do? b <- CheckFitsUint32 new_bytes "packed primary-key list bytes";
          Returns (FreshPtr (mk c b
            (slice 0 insert_pos (records p) ++ WriteRecord key ++
             slice insert_pos (bytes p - insert_pos) (records p))))
      end
  end.

(** The search loop of [Erase]: the record that holds the key, if any. *)
Fixpoint Erase_loop (fuel : nat) (recs : bytestring) (cursor src_end : Z)
    (key : bytestring) : option Record_ :=
  match fuel with
  | O => None
  | S f =>
      if cursor =? src_end then None else
      let record := DecodeRecord recs cursor src_end in
      let v := RecordValue recs record in
      if str_eqb v key then Some record
      else if negb (str_ltb v key) then None
      else Erase_loop f recs (next record) src_end key
  end.

Definition Erase (keys : Ptr) (key : bytestring) : outcome PtrUpdate :=
  match keys with
  | None => Returns SamePtr
  | Some p =>
      if count p =? 0 then Returns SamePtr else
      match Erase_loop (S (length (records p))) (records p) 0 (bytes p) key with
      | None => Returns SamePtr
      | Some record =>
          let removed_bytes := next record - start record in
          let new_bytes := u64 (bytes p - removed_bytes) in
          do? c <- CheckFitsUint32 (u64 (count p - 1)) "packed primary-key list count";
          Returns (FreshPtr (mk c (u32 new_bytes)
            (slice 0 (start record) (records p) ++
             slice (next record) (bytes p - next record) (records p))))
      end
  end.

End PackedPrimaryKeys.
Import PackedPrimaryKeys.

Module PackedPrimaryKeysView.

Record iterator := mkIter { cursor_ : Z; limit_ : Z; remaining_ : Z }.

(** The default-constructed iterator holds null pointers. *)
Definition iterator_default : iterator := mkIter 0 0 0.

Definition view_records (keys : Ptr) : bytestring :=
  match keys with None => [] | Some p => records p end.

Definition deref (recs : bytestring) (it : iterator) : bytestring :=
  RecordValue recs (DecodeRecord recs (cursor_ it) (limit_ it)).

Definition incr (recs : bytestring) (it : iterator) : iterator :=
  let record := DecodeRecord recs (cursor_ it) (limit_ it) in
  mkIter (next record) (limit_ it) (u32 (remaining_ it - 1)).

Definition iterator_eqb (lhs rhs : iterator) : bool :=
  (cursor_ lhs =? cursor_ rhs) && (remaining_ lhs =? remaining_ rhs).

Definition size (keys : Ptr) : Z :=
  match keys with None => 0 | Some p => count p end.

Definition empty (keys : Ptr) : bool := size keys =? 0.

Definition begin_ (keys : Ptr) : iterator :=
  match keys with
  | None => iterator_default
  | Some p => mkIter 0 (bytes p) (count p)
  end.

Definition end_ (keys : Ptr) : iterator :=
  match keys with
  | None => iterator_default
  | Some p => mkIter (bytes p) (bytes p) 0
  end.

Fixpoint lower_bound_loop (fuel : nat) (keys : Ptr) (it : iterator)
    (key : bytestring) : iterator :=
  match fuel with
  | O => end_ keys
  | S f =>
      if iterator_eqb it (end_ keys) then end_ keys
      else if negb (str_ltb (deref (view_records keys) it) key) then it
      else lower_bound_loop f keys (incr (view_records keys) it) key
  end.

Definition lower_bound (keys : Ptr) (key : bytestring) : iterator :=
  lower_bound_loop (S (length (view_records keys))) keys (begin_ keys) key.

Definition contains (keys : Ptr) (key : bytestring) : bool :=
  let it := lower_bound keys key in
  negb (iterator_eqb it (end_ keys)) && str_eqb (deref (view_records keys) it) key.

Fixpoint equals_loop (fuel : nat) (lhs rhs : Ptr) (lhs_it rhs_it : iterator) : bool :=
  match fuel with
  | O => true
  | S f =>
      if iterator_eqb lhs_it (end_ lhs) then true
      else if negb (str_eqb (deref (view_records lhs) lhs_it)
                            (deref (view_records rhs) rhs_it)) then false
      else equals_loop f lhs rhs (incr (view_records lhs) lhs_it)
                                 (incr (view_records rhs) rhs_it)
  end.

Definition equals (lhs rhs : Ptr) : bool :=
  if negb (size lhs =? size rhs) then false
  else equals_loop (S (length (view_records lhs))) lhs rhs (begin_ lhs) (begin_ rhs).

(** [for (std::string_view key : view) keys.emplace_back(...)], the loop of
    [DataItem::primary_keys_vector]. *)
Fixpoint collect (fuel : nat) (keys : Ptr) (it : iterator) : list bytestring :=
  match fuel with
  | O => []
  | S f =>
      if iterator_eqb it (end_ keys) then []
      else deref (view_records keys) it :: collect f keys (incr (view_records keys) it)
  end.

Definition primary_keys_vector (keys : Ptr) : list bytestring :=
  collect (S (length (view_records keys))) keys (begin_ keys).

End PackedPrimaryKeysView.
Import PackedPrimaryKeysView.


(** ** Varints *)

Section varint.

Lemma varint_split v : 0 <= v -> v = v mod 128 + 128 * Z.shiftr v 7.
Proof.
  intros. rewrite Z.shiftr_div_pow2 by lia. change (2 ^ 7) with 128.
  pose proof (Z.div_mod v 128). lia.
Qed.

Lemma continuation_byte v :
  u8 (Z.lor (Z.land v 0x7f) 0x80) = v mod 128 + 128.
Proof.
  change 0x7f with (Z.ones 7). rewrite Z.land_ones by lia. change (2 ^ 7) with 128.
  pose proof (Z.mod_pos_bound v 128).
  change (Z.lor (v mod 128) 128) with (Z.lor (v mod 128) (Z.shiftl 1 7)).
  rewrite lor_shiftl_add by lia. unfold u8. rewrite Z.mod_small; lia.
Qed.

Lemma low_bits_continuation v : 0 <= v < 128 -> Z.land (v + 128) 0x7f = v.
Proof.
  intros. change 0x7f with (Z.ones 7). rewrite Z.land_ones by lia.
  change (2 ^ 7) with 128. rewrite Z.add_mod, Z.mod_same, Z.add_0_r by lia.
  by rewrite Z.mod_mod, Z.mod_small by lia.
Qed.

Lemma high_bit_test v : 0 <= v < 256 -> (Z.land v 0x80 =? 0) = (v <? 128).
Proof.
  intros Hv.
  assert (forallb (fun v => Bool.eqb (Z.land v 0x80 =? 0) (v <? 128)) (seqZ 0 256) = true)
    as Hall by (vm_compute; reflexivity).
  rewrite forallb_forall in Hall. apply eqb_prop, Hall.
  apply list_elem_of_In, elem_of_seqZ. lia.
Qed.

Lemma WriteVarint_loop_length fuel v size :
  0 <= v < 2 ^ (7 * Z.of_nat fuel) -> fuel <> O ->
  0 <= size -> size + Z.of_nat fuel < 2 ^ 64 ->
  VarintSize_loop fuel v size = size + zlen (WriteVarint_loop fuel v) - 1.
Proof.
  revert v size. induction fuel as [|f IH]; intros v size Hv Hf Hs Hov; [done|].
  simpl. zcase; zl.
  destruct f as [|f]; [change (2 ^ (7 * Z.of_nat 1)) with 128 in Hv; lia|].
  rewrite IH; try done.
  - unfold u64. rewrite Z.mod_small by lia. lia.
  - rewrite Z.shiftr_div_pow2 by lia. split; [apply Z.div_pos; lia|].
    apply Z.div_lt_upper_bound; [lia|]. rewrite <- Z.pow_add_r by lia.
    replace (7 + 7 * Z.of_nat (S f)) with (7 * Z.of_nat (S (S f))) by lia. lia.
  - unfold u64. rewrite Z.mod_small by lia. lia.
  - unfold u64. rewrite Z.mod_small by lia. lia.
Qed.

Lemma WriteVarint_loop_bound fuel v :
  zlen (WriteVarint_loop fuel v) <= Z.of_nat fuel.
Proof.
  revert v. induction fuel as [|f IH]; intros v; simpl; [done|].
  zcase; zl. specialize (IH (Z.shiftr v 7)). lia.
Qed.

Lemma WriteVarint_loop_pos f v : 1 <= zlen (WriteVarint_loop (S f) v).
Proof. simpl. zcase; zl. Qed.

Lemma WriteVarint_pos v : 1 <= zlen (WriteVarint v).
Proof. apply WriteVarint_loop_pos. Qed.

(** Decoding what [WriteVarint] wrote gives the value back. *)
Lemma DecodeRecord_loop_varint fuel v rest st cur limit len shift :
  0 <= v < 2 ^ (7 * Z.of_nat fuel) -> fuel <> O ->
  0 <= shift -> 0 <= len < 2 ^ shift -> len + v * 2 ^ shift < 2 ^ 64 ->
  DecodeRecord_loop (WriteVarint_loop fuel v ++ rest) st cur limit len shift =
    mkRecord st (cur + zlen (WriteVarint_loop fuel v))
      (cur + zlen (WriteVarint_loop fuel v) + (len + v * 2 ^ shift)) (len + v * 2 ^ shift).
Proof.
  revert v cur len shift.
  induction fuel as [|f IH]; intros v cur len shift Hv Hf Hsh Hlen Hov; [done|].
  assert (0 < 2 ^ shift) by (apply Z.pow_pos_nonneg; lia).
  simpl. destruct (Z.leb_spec 0x80 v) as [Hge|Hlt]; simpl app; simpl DecodeRecord_loop.
  - rewrite continuation_byte. pose proof (Z.mod_pos_bound v 128).
    rewrite low_bits_continuation, high_bit_test by lia.
    destruct (Z.ltb_spec (v mod 128 + 128) 128); [lia|].
    destruct f as [|f]; [change (2 ^ (7 * Z.of_nat 1)) with 128 in Hv; lia|].
    pose proof (varint_split v). rewrite Z.shiftr_div_pow2 in * by lia.
    change (2 ^ 7) with 128 in *.
    assert (v mod 128 * 2 ^ shift < 2 ^ 64) by nia.
    rewrite Z.shiftl_mul_pow2, u64_small by (unfold is_u64; nia).
    rewrite lor_mul_add by lia.
    rewrite IH; try done.
    + rewrite Z.pow_add_r by lia. change (2 ^ 7) with 128. zl. f_equal; nia.
    + split; [apply Z.div_pos; lia|]. apply Z.div_lt_upper_bound; [lia|].
      change 128 with (2 ^ 7). rewrite <- Z.pow_add_r by lia.
      replace (7 + 7 * Z.of_nat (S f)) with (7 * Z.of_nat (S (S f))) by lia. lia.
    + lia.
    + rewrite Z.pow_add_r by lia. change (2 ^ 7) with 128. nia.
    + rewrite Z.pow_add_r by lia. change (2 ^ 7) with 128. nia.
  - unfold u8. rewrite (Z.mod_small v) by lia.
    rewrite high_bit_test by lia. destruct (Z.ltb_spec v 128); [|lia].
    change 0x7f with (Z.ones 7). rewrite Z.land_ones by lia.
    change (2 ^ 7) with 128. rewrite (Z.mod_small v 128) by lia.
    rewrite Z.shiftl_mul_pow2, u64_small by (unfold is_u64; nia).
    rewrite lor_mul_add by lia. zl. f_equal; lia.
Qed.

(** The form the buffer lemmas use: a whole 64-bit varint from offset [cur]. *)
Lemma DecodeRecord_varint v rest st limit :
  0 <= v < 2 ^ 64 ->
  DecodeRecord_loop (WriteVarint v ++ rest) st st limit 0 0 =
    mkRecord st (st + zlen (WriteVarint v)) (st + zlen (WriteVarint v) + v) v.
Proof.
  intros Hv. unfold WriteVarint.
  rewrite DecodeRecord_loop_varint by (done || lia). by rewrite Z.mul_1_r, Z.add_0_l.
Qed.

Lemma VarintSize_eq v : 0 <= v < 2 ^ 64 -> VarintSize v = zlen (WriteVarint v).
Proof.
  intros Hv. unfold VarintSize, WriteVarint.
  rewrite WriteVarint_loop_length by (done || lia). lia.
Qed.

Lemma WriteVarint_bound v : 1 <= zlen (WriteVarint v) <= 10.
Proof.
  split; [apply WriteVarint_pos|]. apply (WriteVarint_loop_bound 10).
Qed.

End varint.

Opaque WriteVarint VarintSize.

(** ** Records and buffers *)

(** The buffer that holds the keys one after the other. *)
Definition enc (ks : list bytestring) : bytestring := concat (map WriteRecord ks).

(** [p] is the packed form of the strictly increasing list [ks]. *)
Definition represents (p : t) (ks : list bytestring) : Prop :=
  records p = enc ks ∧ count p = zlen ks ∧ bytes p = zlen (enc ks) ∧
  bytes p <= UINT32_MAX ∧ Forall string_ok ks ∧ StronglySorted str_lt ks.

(** A shared pointer represents a list when it is null and the list empty, or
    when what it points at represents the list. *)
Definition ptr_represents (keys : Ptr) (ks : list bytestring) : Prop :=
  match keys with None => ks = [] | Some p => represents p ks end.

(** The pointer a caller of [Insert] or [Erase] ends up with. *)
Definition update_ptr (keys : Ptr) (u : PtrUpdate) : Ptr :=
  match u with SamePtr => keys | FreshPtr p => Some p end.

Section buffers.
Implicit Types (ks pre post : list bytestring) (k key : bytestring).

Lemma string_ok_u64 k : string_ok k -> 0 <= zlen k < 2 ^ 64.
Proof. intros [_ H]. zl. Qed.

Lemma EncodedRecordSize_eq k :
  string_ok k -> EncodedRecordSize k = zlen (WriteRecord k).
Proof.
  intros Hk. pose proof (string_ok_u64 k Hk). destruct Hk as [_ Hk].
  pose proof (WriteVarint_bound (zlen k)).
  unfold EncodedRecordSize, WriteRecord. rewrite VarintSize_eq by done.
  rewrite u64_small; zl. unfold is_u64. zl.
Qed.

Lemma WriteRecord_bound k :
  string_ok k -> 1 <= zlen (WriteRecord k) < 2 ^ 63 + 10.
Proof.
  intros [_ Hk]. unfold WriteRecord. zl.
  pose proof (WriteVarint_bound (zlen k)). lia.
Qed.

Lemma enc_cons k ks : enc (k :: ks) = WriteRecord k ++ enc ks.
Proof. done. Qed.

Lemma enc_app pre post : enc (pre ++ post) = enc pre ++ enc post.
Proof. unfold enc. by rewrite map_app, concat_app. Qed.

Lemma enc_length ks : Forall string_ok ks -> zlen ks <= zlen (enc ks).
Proof.
  induction 1 as [|k ks Hk _ IH]; [done|]. rewrite enc_cons. zl.
  pose proof (WriteRecord_bound k Hk). lia.
Qed.

Lemma enc_length_nat ks : Forall string_ok ks -> (length ks <= length (enc ks))%nat.
Proof. intros H%enc_length. unfold zlen in H. lia. Qed.

(** Decoding at a record boundary gives the key and the next boundary. *)
Lemma DecodeRecord_boundary pre k post :
  string_ok k ->
  DecodeRecord (enc (pre ++ k :: post)) (zlen (enc pre)) (zlen (enc (pre ++ k :: post))) =
    mkRecord (zlen (enc pre)) (zlen (enc pre) + zlen (WriteVarint (zlen k)))
      (zlen (enc (pre ++ [k]))) (zlen k).
Proof.
  intros Hk%string_ok_u64.
  unfold DecodeRecord. rewrite !enc_app, !enc_cons, zlen_app, Z.add_simpl_l.
  rewrite slice_app_r, Z.sub_diag, slice_0_all by lia.
  unfold WriteRecord. rewrite <- (app_assoc _ k), DecodeRecord_varint by done.
  f_equal. zl.
Qed.

Lemma RecordValue_boundary pre k post nxt :
  RecordValue (enc (pre ++ k :: post))
    (mkRecord (zlen (enc pre)) (zlen (enc pre) + zlen (WriteVarint (zlen k))) nxt (zlen k)) = k.
Proof.
  unfold RecordValue. simpl. rewrite enc_app, enc_cons. unfold WriteRecord.
  rewrite <- zlen_app, <- app_assoc, (app_assoc (enc pre)). apply slice_mid.
Qed.

Lemma enc_boundary_ne pre k post :
  string_ok k -> zlen (enc pre) <> zlen (enc (pre ++ k :: post)).
Proof.
  intros Hk. rewrite enc_app, enc_cons. pose proof (WriteRecord_bound k Hk). zl.
Qed.

End buffers.

(** ** The search loops *)

Section loops.
Implicit Types (ks pre post : list bytestring) (k key : bytestring).

(** One round of a search at the boundary before [k]. *)
Lemma decode_round pre k post :
  string_ok k ->
  let recs := enc (pre ++ k :: post) in
  let r := DecodeRecord recs (zlen (enc pre)) (zlen recs) in
  RecordValue recs r = k ∧ start r = zlen (enc pre) ∧ next r = zlen (enc (pre ++ [k])).
Proof.
  intros Hk recs r. unfold r, recs. rewrite DecodeRecord_boundary by done.
  split; [apply RecordValue_boundary|done].
Qed.

Lemma Insert_loop_spec key post : forall pre fuel,
  Forall string_ok post -> StronglySorted str_lt post -> (length post < fuel)%nat ->
  let recs := enc (pre ++ post) in
  let res := Insert_loop fuel recs (zlen (enc pre)) (zlen recs) key in
  (key ∈ post ∧ res = None) ∨
  ∃ lo hi, post = lo ++ hi ∧ Forall (fun x => str_lt x key) lo ∧
    Forall (str_lt key) hi ∧ res = Some (zlen (enc (pre ++ lo))).
Proof.
  induction post as [|k post IH]; intros pre [|fuel] Hok Hsort Hfuel recs res;
    simpl in Hfuel; try lia; unfold res, recs; simpl Insert_loop.
  { right. exists [], []. rewrite !app_nil_r, Z.eqb_refl. eauto. }
  inversion_clear Hok as [|?? Hk Hok']. inversion_clear Hsort as [|?? Hsort' Hlt].
  destruct (Z.eqb_spec (zlen (enc pre)) (zlen (enc (pre ++ k :: post)))) as [E|_].
  { by apply enc_boundary_ne in E. }
  destruct (decode_round pre k post Hk) as (-> & -> & ->).
  destruct (str_eqb k key) eqn:Heq.
  { apply str_eqb_eq in Heq as ->. left. split; [left|done]. }
  apply str_eqb_neq in Heq. destruct (str_ltb k key) eqn:Hcmp; simpl negb; cbv iota.
  - destruct (IH (pre ++ [k]) fuel Hok' Hsort') as [[Hin Hr]|(lo & hi & -> & Hlo & Hhi & Hr)];
      [lia| |]; rewrite <- app_assoc in Hr; simpl app in Hr.
    + left. split; [by right|done].
    + right. exists (k :: lo), hi. rewrite <- app_assoc in Hr.
      repeat split; try done. by constructor.
  - right. exists [], (k :: post). rewrite !app_nil_r.
    pose proof (str_ltb_total k key Hcmp Heq) as Hgt.
    repeat split; try done. constructor; [done|].
    eapply Forall_impl; [exact Hlt|]. intros x Hx. by transitivity k.
Qed.

Lemma Erase_loop_spec key post : forall pre fuel,
  Forall string_ok post -> StronglySorted str_lt post -> (length post < fuel)%nat ->
  let recs := enc (pre ++ post) in
  let res := Erase_loop fuel recs (zlen (enc pre)) (zlen recs) key in
  (key ∉ post ∧ res = None) ∨
  ∃ lo hi r, post = lo ++ key :: hi ∧ res = Some r ∧
    start r = zlen (enc (pre ++ lo)) ∧ next r = zlen (enc (pre ++ lo ++ [key])).
Proof.
  induction post as [|k post IH]; intros pre [|fuel] Hok Hsort Hfuel recs res;
    simpl in Hfuel; try lia; unfold res, recs; simpl Erase_loop.
  { left. rewrite app_nil_r, Z.eqb_refl. split; [apply not_elem_of_nil|done]. }
  inversion_clear Hok as [|?? Hk Hok']. inversion_clear Hsort as [|?? Hsort' Hlt].
  destruct (Z.eqb_spec (zlen (enc pre)) (zlen (enc (pre ++ k :: post)))) as [E|_].
  { by apply enc_boundary_ne in E. }
  pose proof (decode_round pre k post Hk) as (-> & Hst & ->).
  destruct (str_eqb k key) eqn:Heq.
  { apply str_eqb_eq in Heq as ->. right. exists [], post.
    eexists. rewrite app_nil_r. repeat split; [done|].
    by destruct (decode_round pre key post Hk) as (_ & _ & ->). }
  apply str_eqb_neq in Heq. destruct (str_ltb k key) eqn:Hcmp; simpl negb; cbv iota.
  - destruct (IH (pre ++ [k]) fuel Hok' Hsort') as [[Hin Hr]|(lo & hi & r & -> & Hr & Hs & Hn)];
      [lia| |]; rewrite <- app_assoc in Hr; simpl app in Hr.
    + left. split; [|done]. rewrite not_elem_of_cons. naive_solver.
    + right. exists (k :: lo), hi, r. rewrite <- app_assoc in Hs, Hn.
      repeat split; try done.
  - left. split; [|done]. rewrite not_elem_of_cons. split; [naive_solver|].
    intros Hin. pose proof (str_ltb_total k key Hcmp Heq) as Hgt.
    rewrite Forall_forall in Hlt. specialize (Hlt key Hin).
    apply (irreflexivity str_lt key). by transitivity k.
Qed.

End loops.

(** ** Sorted lists under insertion and removal of one element *)

Section sorted_lists.
Implicit Types (lo hi ks : list bytestring) (key : bytestring).

Lemma sorted_insert_mid lo hi key :
  StronglySorted str_lt (lo ++ hi) -> Forall (fun x => str_lt x key) lo ->
  Forall (str_lt key) hi -> StronglySorted str_lt (lo ++ key :: hi).
Proof.
  induction lo as [|x lo IH]; simpl; intros Hs Hlo Hhi; [by constructor|].
  inversion_clear Hs as [|?? Hs' Hx]. inversion_clear Hlo as [|?? Hxk Hlo'].
  constructor; [by apply IH|]. apply Forall_app in Hx as [Hx1 Hx2].
  apply Forall_app. split; [done|]. by constructor.
Qed.

Lemma sorted_remove_mid lo hi key :
  StronglySorted str_lt (lo ++ key :: hi) ->
  StronglySorted str_lt (lo ++ hi) ∧ key ∉ lo ++ hi.
Proof.
  induction lo as [|x lo IH]; simpl; intros Hs; inversion_clear Hs as [|?? Hs' Hx].
  - split; [done|]. intros Hin. rewrite Forall_forall in Hx.
    by apply (irreflexivity str_lt key), Hx.
  - destruct (IH Hs') as [IHs IHn]. apply Forall_app in Hx as [Hx1 Hx2].
    inversion_clear Hx2 as [|?? Hxk Hx2']. split.
    + constructor; [done|]. by apply Forall_app.
    + rewrite not_elem_of_cons. split; [|done]. intros ->.
      by apply (irreflexivity str_lt x).
Qed.

Lemma not_elem_of_between lo hi key :
  Forall (fun x => str_lt x key) lo -> Forall (str_lt key) hi -> key ∉ lo ++ hi.
Proof.
  rewrite !Forall_forall, elem_of_app. intros Hlo Hhi [Hin|Hin].
  - by apply (irreflexivity str_lt key), Hlo.
  - by apply (irreflexivity str_lt key), Hhi.
Qed.

End sorted_lists.

Lemma represents_intro ks :
  zlen (enc ks) <= UINT32_MAX -> Forall string_ok ks -> StronglySorted str_lt ks ->
  represents (mk (zlen ks) (zlen (enc ks)) (enc ks)) ks.
Proof. intros. by repeat split. Qed.

Lemma CheckFitsUint32_ok v field :
  0 <= v <= UINT32_MAX -> CheckFitsUint32 v field = Returns v.
Proof.
  intros [Hp H]. unfold CheckFitsUint32. zcase. rewrite u32_small; [done|].
  unfold is_u32, UINT32_MAX in *. lia.
Qed.

Lemma CheckFitsUint32_throws v field :
  UINT32_MAX < v -> CheckFitsUint32 v field = Throws_length_error field.
Proof. intros H. unfold CheckFitsUint32. zcase. done. Qed.

Section operations.
Implicit Types (ks : list bytestring) (key : bytestring) (p : t).

Lemma represents_bounds p ks :
  represents p ks -> 0 <= count p <= bytes p ∧ 0 <= bytes p <= UINT32_MAX.
Proof.
  intros (_ & -> & -> & H & Hok & _). pose proof (enc_length ks Hok). zl.
Qed.

(** What [Insert] builds once the position between [lo] and [hi] is found. *)
Lemma Insert_build p lo hi key :
  represents p (lo ++ hi) -> string_ok key ->
  Forall (fun x => str_lt x key) lo -> Forall (str_lt key) hi ->
  Insert_loop (S (length (records p))) (records p) 0 (bytes p) key = Some (zlen (enc lo)) ->
  if bytes p + EncodedRecordSize key <=? UINT32_MAX
  then ∃ q, Insert (Some p) key = Returns (FreshPtr q) ∧ represents q (lo ++ key :: hi)
  else ∃ f, Insert (Some p) key = Throws_length_error f.
Proof.
  intros Hrep Hkey Hlo Hhi Hloop. pose proof (represents_bounds _ _ Hrep) as [Hc Hb].
  destruct Hrep as (Hrec & Hcount & Hbytes & Hfit & Hok & Hsort).
  pose proof (WriteRecord_bound key Hkey).
  unfold Insert. rewrite Hloop, EncodedRecordSize_eq by done. unfold UINT32_MAX in *.
  rewrite !u64_small by (unfold is_u64; lia).
  destruct (Z.leb_spec (bytes p + zlen (WriteRecord key)) (2 ^ 32 - 1)) as [Hle|Hgt].
  - rewrite !CheckFitsUint32_ok by (unfold UINT32_MAX; lia). simpl. eexists. split; [done|].
    rewrite enc_app in *. apply Forall_app in Hok as [Hok1 Hok2].
    replace (bytes p - zlen (enc lo)) with (zlen (enc hi)) by (rewrite Hbytes; zl).
    rewrite Hrec. rewrite slice_app_l, slice_0_all by zl.
    rewrite slice_app_r, Z.sub_diag, slice_0_all by lia.
    repeat split; simpl; rewrite ?enc_app, ?enc_cons; unfold UINT32_MAX; zl; try done.
    + apply Forall_app. split; [done|by constructor].
    + by apply sorted_insert_mid.
  - destruct (Z.le_gt_cases (count p + 1) UINT32_MAX).
    + rewrite CheckFitsUint32_ok by lia. simpl.
      rewrite CheckFitsUint32_throws by (unfold UINT32_MAX; lia). by eexists.
    + rewrite CheckFitsUint32_throws by lia. by eexists.
Qed.

(** The behaviour of [Insert] on every branch. *)
Lemma Insert_spec keys ks key :
  ptr_represents keys ks -> string_ok key ->
  (key ∈ ks ∧ Insert keys key = Returns SamePtr) ∨
  (key ∉ ks ∧ zlen (enc ks) + EncodedRecordSize key <= UINT32_MAX ∧
     ∃ p ks', Insert keys key = Returns (FreshPtr p) ∧ represents p ks' ∧
       ∀ x, x ∈ ks' <-> x = key ∨ x ∈ ks) ∨
  (key ∉ ks ∧ UINT32_MAX < zlen (enc ks) + EncodedRecordSize key ∧
     ∃ field, Insert keys key = Throws_length_error field).
Proof.
  intros Hrep Hkey. destruct keys as [p|]; simpl in Hrep.
  - destruct Hrep as (Hrec & Hcount & Hbytes & Hfit & Hok & Hsort).
    destruct (Insert_loop_spec key ks [] (S (length (enc ks))) Hok Hsort)
      as [[Hin Hr]|(lo & hi & -> & Hlo & Hhi & Hr)];
      [pose proof (enc_length_nat ks Hok); lia| |]; simpl app in Hr;
      change (zlen (enc [])) with 0 in Hr.
    + left. split; [done|]. unfold Insert. rewrite Hrec, Hbytes. by rewrite Hr.
    + right. pose proof (not_elem_of_between _ _ _ Hlo Hhi).
      assert (represents p (lo ++ hi)) as Hrep by done.
      rewrite <- Hbytes in Hr |- *. rewrite <- Hrec in Hr.
      pose proof (Insert_build p lo hi key Hrep Hkey Hlo Hhi Hr) as Hb.
      destruct (Z.leb_spec (bytes p + EncodedRecordSize key) UINT32_MAX);
        [left|right; done]. destruct Hb as (q & Hq & Hrq).
      repeat split; try done. exists q, (lo ++ key :: hi).
      split; [done|]. split; [done|]. intros x. rewrite !elem_of_app, elem_of_cons. tauto.
  - subst ks. right. pose proof (WriteRecord_bound key Hkey).
    unfold Insert, FromOne. rewrite EncodedRecordSize_eq by done.
    change (zlen (enc [])) with 0. rewrite Z.add_0_l.
    destruct (Z.le_gt_cases (zlen (WriteRecord key)) UINT32_MAX); [left|right].
    + rewrite CheckFitsUint32_ok by lia. repeat split; [apply not_elem_of_nil|done|].
      eexists _, [key]. split; [done|]. split; [|set_solver].
      replace (WriteRecord key) with (enc [key]) by apply app_nil_r.
      apply (represents_intro [key]); [rewrite enc_cons; zl|by constructor|].
      by repeat constructor.
    + rewrite CheckFitsUint32_throws by lia. repeat split; [apply not_elem_of_nil|lia|].
      by eexists.
Qed.

(** C32. Insert on a packed list implements insertion into a sorted set: a
    present key returns the same pointer, an absent one a fresh packed list of
    the set with the key, and it throws length_error exactly when the encoding
    no longer fits 32 bits. *)
Theorem Insert_refines keys ks key :
  ptr_represents keys ks -> string_ok key ->
  (key ∈ ks ∧ Insert keys key = Returns SamePtr) ∨
  (key ∉ ks ∧ zlen (enc ks) + EncodedRecordSize key <= UINT32_MAX ∧
     ∃ p ks', Insert keys key = Returns (FreshPtr p) ∧ represents p ks' ∧
       ∀ x, x ∈ ks' <-> x = key ∨ x ∈ ks) ∨
  (key ∉ ks ∧ UINT32_MAX < zlen (enc ks) + EncodedRecordSize key ∧
     ∃ field, Insert keys key = Throws_length_error field).
Proof. apply Insert_spec. Qed.

Lemma Erase_build p lo hi key r :
  represents p (lo ++ key :: hi) ->
  Erase_loop (S (length (records p))) (records p) 0 (bytes p) key = Some r ->
  start r = zlen (enc lo) -> next r = zlen (enc (lo ++ [key])) ->
  ∃ q, Erase (Some p) key = Returns (FreshPtr q) ∧ represents q (lo ++ hi).
Proof.
  intros Hrep Hloop Hst Hnx. pose proof (represents_bounds _ _ Hrep) as [Hc Hb].
  destruct Hrep as (Hrec & Hcount & Hbytes & Hfit & Hok & Hsort).
  unfold Erase. rewrite Hloop, Hst, Hnx. rewrite enc_app, enc_cons in *.
  change (enc []) with (@nil Z). rewrite app_nil_r in *. unfold UINT32_MAX in *.
  zl. rewrite (proj2 (Z.eqb_neq (count p) 0)) by lia.
  rewrite !u64_small by (unfold is_u64; lia).
  rewrite CheckFitsUint32_ok by (unfold UINT32_MAX; lia). simpl.
  eexists. split; [done|]. rewrite Hrec.
  replace (bytes p - (zlen (enc lo) + zlen (WriteRecord key))) with (zlen (enc hi)) by lia.
  rewrite slice_app_l, slice_0_all, app_assoc, slice_app_r by zl.
  rewrite zlen_app, Z.sub_diag, slice_0_all.
  apply Forall_app in Hok as [Hok1 Hok2]. apply Forall_cons in Hok2 as [_ Hok2].
  repeat split; simpl; rewrite ?enc_app; unfold UINT32_MAX; zl; try done.
  - rewrite u32_small; unfold is_u32; lia.
  - rewrite u32_small; unfold is_u32; lia.
  - by apply Forall_app.
  - by apply sorted_remove_mid in Hsort as [? _].
Qed.

(** The behaviour of [Erase] on every branch. *)
Lemma Erase_spec keys ks key :
  ptr_represents keys ks ->
  (key ∉ ks ∧ Erase keys key = Returns SamePtr) ∨
  (key ∈ ks ∧ ∃ p ks', Erase keys key = Returns (FreshPtr p) ∧ represents p ks' ∧
     ∀ x, x ∈ ks' <-> x <> key ∧ x ∈ ks).
Proof.
  intros Hrep. destruct keys as [p|]; simpl in Hrep;
    [|subst; left; split; [apply not_elem_of_nil|done]].
  pose proof Hrep as (Hrec & Hcount & Hbytes & Hfit & Hok & Hsort).
  destruct (Erase_loop_spec key ks [] (S (length (enc ks))) Hok Hsort)
    as [[Hin Hr]|(lo & hi & r & -> & Hr & Hs & Hn)];
    [pose proof (enc_length_nat ks Hok); lia| |]; simpl app in *;
    change (zlen (enc [])) with 0 in Hr; rewrite <- Hbytes, <- Hrec in Hr.
  - left. split; [done|]. unfold Erase. rewrite Hr. by destruct (count p =? 0).
  - right. split; [set_solver|].
    destruct (Erase_build p lo hi key r Hrep Hr Hs Hn) as (q & Hq & Hrq).
    exists q, (lo ++ hi). split; [done|]. split; [done|].
    apply sorted_remove_mid in Hsort as [_ Hni]. intros x.
    rewrite !elem_of_app, elem_of_cons in *. naive_solver.
Qed.

(** Erase on a packed list implements removal from a sorted set: an
    absent key returns the same pointer and a present one a fresh packed list
    of the set without the key, and it never throws. *)
Theorem Erase_refines keys ks key :
  ptr_represents keys ks ->
  (key ∉ ks ∧ Erase keys key = Returns SamePtr) ∨
  (key ∈ ks ∧ ∃ p ks', Erase keys key = Returns (FreshPtr p) ∧ represents p ks' ∧
     ∀ x, x ∈ ks' <-> x <> key ∧ x ∈ ks).
Proof. apply Erase_spec. Qed.

End operations.

(** ** Views *)

Section views.
Implicit Types (ks pre post : list bytestring) (key : bytestring) (p : t).

(** The iterator that stands before the keys [post] of a list [pre ++ post]. *)
Definition iter_at pre post : iterator :=
  mkIter (zlen (enc pre)) (zlen (enc (pre ++ post))) (zlen post).

Lemma iter_at_end pre post p :
  represents p (pre ++ post) -> Forall string_ok post ->
  iterator_eqb (iter_at pre post) (end_ (Some p)) = bool_decide (post = []).
Proof.
  intros (_ & _ & Hb & _) Hok. unfold iterator_eqb, iter_at, end_. simpl.
  destruct post as [|k post]; rewrite ?app_nil_r in *.
  - by rewrite Hb, Z.eqb_refl.
  - rewrite andb_false_intro2; [done|]. apply Z.eqb_neq. zl.
Qed.

Lemma iter_at_round pre k post :
  string_ok k -> zlen post < UINT32_MAX ->
  let recs := enc (pre ++ k :: post) in
  deref recs (iter_at pre (k :: post)) = k ∧
  incr recs (iter_at pre (k :: post)) = iter_at (pre ++ [k]) post.
Proof.
  intros Hk Hlen recs. unfold deref, incr, iter_at. simpl.
  destruct (decode_round pre k post Hk) as (Hv & _ & Hn). fold recs in Hv, Hn.
  split; [done|]. fold recs. rewrite Hn, <- app_assoc. simpl app. f_equal.
  rewrite zlen_cons, u32_small; [lia|]. unfold is_u32, UINT32_MAX in *. zl.
Qed.

Lemma begin_iter_at p ks : represents p ks -> begin_ (Some p) = iter_at [] ks.
Proof. intros (_ & Hc & Hb & _). unfold begin_, iter_at. by rewrite Hc, Hb. Qed.

Lemma represents_split p pre k post :
  represents p (pre ++ k :: post) ->
  string_ok k ∧ Forall string_ok (k :: post) ∧ records p = enc (pre ++ k :: post) ∧
  zlen post < UINT32_MAX.
Proof.
  intros Hr. pose proof (represents_bounds _ _ Hr).
  destruct Hr as (Hrec & Hc & _ & _ & Hok & _). apply Forall_app in Hok as [_ Hok].
  split; [by inversion Hok|]. split; [done|]. split; [done|]. zl.
Qed.

Lemma collect_spec p post : forall pre fuel,
  represents p (pre ++ post) -> (length post < fuel)%nat ->
  collect fuel (Some p) (iter_at pre post) = post.
Proof.
  induction post as [|k post IH]; intros pre [|fuel] Hrep Hf; simpl in Hf; try lia;
    cbn [collect view_records].
  - by rewrite iter_at_end.
  - pose proof (represents_split _ _ _ _ Hrep) as (Hk & Hok & Hrec & Hlen).
    rewrite iter_at_end, bool_decide_eq_false_2 by done. rewrite Hrec.
    destruct (iter_at_round pre k post Hk Hlen) as [-> ->]. f_equal.
    apply IH; [by rewrite <- app_assoc|lia].
Qed.

Lemma represents_fuel p ks :
  represents p ks -> (length ks < S (length (view_records (Some p))))%nat.
Proof.
  intros (Hrec & _ & _ & _ & Hok & _). simpl. rewrite Hrec.
  pose proof (enc_length_nat ks Hok). lia.
Qed.

Lemma primary_keys_vector_spec keys ks :
  ptr_represents keys ks -> primary_keys_vector keys = ks.
Proof.
  destruct keys as [p|]; simpl; intros Hrep; [|by subst].
  unfold primary_keys_vector. rewrite (begin_iter_at p ks Hrep).
  apply collect_spec; [done|by apply represents_fuel].
Qed.

Lemma PayloadBytes_spec ks : forall acc,
  Forall string_ok ks -> 0 <= acc <= UINT32_MAX ->
  if acc + zlen (enc ks) <=? UINT32_MAX
  then PayloadBytes ks acc = Returns (acc + zlen (enc ks))
  else ∃ field, PayloadBytes ks acc = Throws_length_error field.
Proof.
  induction ks as [|k ks IH]; intros acc Hok Hacc; simpl.
  { rewrite Z.add_0_r. zcase. done. }
  inversion_clear Hok as [|?? Hk Hok']. pose proof (WriteRecord_bound k Hk).
  rewrite EncodedRecordSize_eq by done. unfold UINT32_MAX in *.
  rewrite u64_small by (unfold is_u64; lia). rewrite enc_cons. zl.
  destruct (Z.le_gt_cases (acc + zlen (WriteRecord k)) (2 ^ 32 - 1)) as [Hle|Hgt].
  - rewrite CheckFitsUint32_ok by (unfold UINT32_MAX; lia). simpl.
    specialize (IH (acc + zlen (WriteRecord k)) Hok'). rewrite Z.add_assoc. apply IH. lia.
  - rewrite CheckFitsUint32_throws by (unfold UINT32_MAX; lia). zcase. by eexists.
Qed.

Lemma FromSortedDeduped_spec ks :
  Forall string_ok ks -> StronglySorted str_lt ks ->
  if zlen (enc ks) <=? UINT32_MAX
  then ∃ p, FromSortedDeduped ks = Returns p ∧ represents p ks ∧
            primary_keys_vector (Some p) = ks
  else ∃ field, FromSortedDeduped ks = Throws_length_error field.
Proof.
  intros Hok Hsort. unfold FromSortedDeduped.
  pose proof (PayloadBytes_spec ks 0 Hok ltac:(done)) as Hp. rewrite Z.add_0_l in Hp.
  pose proof (enc_length ks Hok).
  destruct (Z.leb_spec (zlen (enc ks)) UINT32_MAX) as [Hle|Hgt].
  - rewrite Hp. simpl. rewrite CheckFitsUint32_ok by zl. simpl. eexists. split; [done|].
    rewrite u32_small by (unfold is_u32, UINT32_MAX in *; zl).
    assert (represents (mk (zlen ks) (zlen (enc ks)) (enc ks)) ks) as Hr
      by by apply represents_intro.
    split; [done|]. by apply (primary_keys_vector_spec (Some _)).
  - destruct Hp as [f ->]. by exists f.
Qed.

(** Packing a sorted list of distinct keys and reading it back through
    primary_keys_vector returns the list, and packing throws length_error
    exactly when the encoding does not fit 32 bits. *)
Theorem FromSortedDeduped_roundtrip ks :
  Forall string_ok ks -> StronglySorted str_lt ks ->
  if zlen (enc ks) <=? UINT32_MAX
  then ∃ p, FromSortedDeduped ks = Returns p ∧ represents p ks ∧
            primary_keys_vector (Some p) = ks
  else ∃ field, FromSortedDeduped ks = Throws_length_error field.
Proof. apply FromSortedDeduped_spec. Qed.

Lemma end_iter_at p ks : represents p ks -> end_ (Some p) = iter_at ks [].
Proof. intros (_ & _ & Hb & _). unfold end_, iter_at. by rewrite app_nil_r, Hb. Qed.

Lemma lower_bound_loop_spec p key post : forall pre fuel,
  represents p (pre ++ post) -> (length post < fuel)%nat ->
  ∃ lo hi, post = lo ++ hi ∧ Forall (fun x => str_lt x key) lo ∧
    (∀ x, head hi = Some x -> str_ltb x key = false) ∧
    lower_bound_loop fuel (Some p) (iter_at pre post) key = iter_at (pre ++ lo) hi.
Proof.
  induction post as [|k post IH]; intros pre [|fuel] Hrep Hf; simpl in Hf; try lia;
    cbn [lower_bound_loop view_records].
  - exists [], []. rewrite iter_at_end, bool_decide_eq_true_2 by done.
    rewrite !app_nil_r in *.
    repeat split; try done. by rewrite (end_iter_at p pre).
  - pose proof (represents_split _ _ _ _ Hrep) as (Hk & Hok & Hrec & Hlen).
    rewrite iter_at_end, bool_decide_eq_false_2 by done. rewrite Hrec.
    destruct (iter_at_round pre k post Hk Hlen) as [-> ->].
    destruct (str_ltb k key) eqn:E; cbn [negb].
    + destruct (IH (pre ++ [k]) fuel) as (lo & hi & -> & Hlo & Hhi & Hr);
        [by rewrite <- app_assoc|lia|].
      exists (k :: lo), hi. rewrite <- app_assoc in Hr.
      repeat split; try done. by constructor.
    + exists [], (k :: post). rewrite app_nil_r. repeat split; try done.
      intros x [= ->]. done.
Qed.

Lemma lower_bound_spec p ks key :
  represents p ks ->
  ∃ lo hi, ks = lo ++ hi ∧ Forall (fun x => str_lt x key) lo ∧
    (∀ x, head hi = Some x -> str_ltb x key = false) ∧
    lower_bound (Some p) key = iter_at lo hi.
Proof.
  intros Hrep. unfold lower_bound. rewrite (begin_iter_at p ks Hrep).
  apply (lower_bound_loop_spec p key ks []); [done|by apply represents_fuel].
Qed.

(** contains, a lower_bound walk over the encoded records, decides
    membership in the set the packed list represents. *)
Theorem contains_spec keys ks key :
  ptr_represents keys ks -> contains keys key = bool_decide (key ∈ ks).
Proof.
  destruct keys as [p|]; simpl; intros Hrep;
    [|subst; symmetry; by apply bool_decide_eq_false_2, not_elem_of_nil].
  destruct (lower_bound_spec p ks key Hrep) as (lo & hi & -> & Hlo & Hhi & Hr).
  pose proof Hrep as (_ & _ & _ & _ & Hok & Hsort). apply Forall_app in Hok as [_ Hok].
  assert (key ∉ lo) as Hnlo.
  { intros Hin. rewrite Forall_forall in Hlo. by apply (irreflexivity str_lt key), Hlo. }
  unfold contains. rewrite Hr, iter_at_end by done. cbn [view_records].
  destruct hi as [|k hi]; simpl.
  - symmetry. apply bool_decide_eq_false_2. by rewrite app_nil_r.
  - pose proof (represents_split _ _ _ _ Hrep) as (Hk & _ & -> & Hlen).
    destruct (iter_at_round lo k hi Hk Hlen) as [-> _].
    destruct (str_eqb k key) eqn:E.
    + apply str_eqb_eq in E as ->. symmetry. apply bool_decide_eq_true_2. set_solver.
    + apply str_eqb_neq in E. symmetry. apply bool_decide_eq_false_2.
      rewrite elem_of_app, elem_of_cons. intros [Hin|[->|Hin]]; try done.
      pose proof (str_ltb_total k key (Hhi k eq_refl) E) as Hlt.
      assert (StronglySorted str_lt (k :: hi)) as Hs.
      { clear -Hsort. induction lo; simpl in Hsort; [done|].
        inversion_clear Hsort. auto. }
      inversion_clear Hs as [|?? _ Hall]. rewrite Forall_forall in Hall.
      apply (irreflexivity str_lt key). transitivity k; [done|]. by apply Hall.
Qed.

Lemma equals_loop_spec p q post : forall pre post' pre' fuel,
  represents p (pre ++ post) -> represents q (pre' ++ post') ->
  length post = length post' -> (length post < fuel)%nat ->
  equals_loop fuel (Some p) (Some q) (iter_at pre post) (iter_at pre' post') =
    bool_decide (post = post').
Proof.
  induction post as [|k post IH]; intros pre [|k' post'] pre' [|fuel] Hp Hq Hlen Hf;
    simpl in Hf, Hlen; try lia; cbn [equals_loop view_records].
  - by rewrite iter_at_end.
  - pose proof (represents_split _ _ _ _ Hp) as (Hk & Hok & Hrec & Hl).
    pose proof (represents_split _ _ _ _ Hq) as (Hk' & Hok' & Hrec' & Hl').
    rewrite iter_at_end, bool_decide_eq_false_2 by done. rewrite Hrec, Hrec'.
    destruct (iter_at_round pre k post Hk Hl) as [-> ->].
    destruct (iter_at_round pre' k' post' Hk' Hl') as [-> ->].
    destruct (str_eqb k k') eqn:E; cbn [negb].
    + apply str_eqb_eq in E as ->.
      rewrite IH by (rewrite <- ?app_assoc; done || lia).
      apply bool_decide_ext. naive_solver.
    + apply str_eqb_neq in E. symmetry. apply bool_decide_eq_false_2. naive_solver.
Qed.

Lemma size_spec keys ks : ptr_represents keys ks -> size keys = zlen ks.
Proof. destruct keys; simpl; [by intros (_ & -> & _)|by intros ->]. Qed.

(** equals, a simultaneous walk over two packed lists, decides equality
    of the lists they represent, null pointers counting as empty. *)
Theorem equals_spec a b ka kb :
  ptr_represents a ka -> ptr_represents b kb -> equals a b = bool_decide (ka = kb).
Proof.
  intros Ha Hb. unfold equals. rewrite (size_spec a ka), (size_spec b kb) by done.
  destruct (Z.eqb_spec (zlen ka) (zlen kb)) as [E|E]; cbn [negb].
  2: { symmetry. apply bool_decide_eq_false_2. by intros ->. }
  unfold zlen in E.
  destruct a as [p|], b as [q|]; simpl in Ha, Hb; subst; simpl in E.
  - rewrite (begin_iter_at p ka Ha), (begin_iter_at q kb Hb).
    apply (equals_loop_spec p q ka [] kb []); try done; [lia|by apply represents_fuel].
  - destruct ka; [|simpl in E; lia]. rewrite (begin_iter_at p [] Ha).
    cbn [equals_loop]. by rewrite iter_at_end.
  - destruct kb; [|simpl in E; lia]. done.
  - done.
Qed.

End views.

(** ** The theorems at work on a concrete list *)

Module Demo.

(** The list of the keys [[1; 2]] and [[3]]. *)
Definition keys : list bytestring := [[1; 2]; [3]].
Definition packed : t := mk 2 5 [2; 1; 2; 1; 3].

Lemma keys_ok : Forall string_ok keys ∧ StronglySorted str_lt keys.
Proof.
  split.
  - apply Forall_cons. split; [split; [bytes_eval|reflexivity]|].
    apply Forall_cons. split; [split; [bytes_eval|reflexivity]|apply Forall_nil_2].
  - apply SSorted_cons; [apply SSorted_cons; [apply SSorted_nil|apply Forall_nil_2]|].
    apply Forall_cons. split; [reflexivity|apply Forall_nil_2].
Defined.

Lemma packed_represents : ptr_represents (Some packed) keys.
Proof.
  destruct keys_ok as [H1 H2]. split; [reflexivity|]. split; [reflexivity|].
  split; [reflexivity|]. split; [vm_compute; discriminate|]. split; [exact H1|exact H2].
Defined.

Lemma two_ok : string_ok [2].
Proof. split; [bytes_eval|reflexivity]. Defined.

Lemma Insert_refines_witness :
  ∃ p ks', Insert (Some packed) [2] = Returns (FreshPtr p) ∧ represents p ks' ∧
    ∀ x, x ∈ ks' <-> x = [2] ∨ x ∈ keys.
Proof.
  destruct (Insert_refines (Some packed) keys [2] packed_represents two_ok)
    as [[H _]|[(_ & _ & H)|(_ & H & _)]].
  - exfalso. revert H. apply (bool_decide_unpack ([2] ∉ keys)). reflexivity.
  - exact H.
  - vm_compute in H. discriminate H.
Defined.

Lemma Erase_refines_witness :
  ∃ p ks', Erase (Some packed) [3] = Returns (FreshPtr p) ∧ represents p ks' ∧
    ∀ x, x ∈ ks' <-> x <> [3] ∧ x ∈ keys.
Proof.
  destruct (Erase_refines (Some packed) keys [3] packed_represents) as [[H _]|[_ H]].
  - exfalso. apply H. apply (bool_decide_unpack ([3] ∈ keys)). reflexivity.
  - exact H.
Defined.

Lemma FromSortedDeduped_roundtrip_witness :
  ∃ p, FromSortedDeduped keys = Returns p ∧ represents p keys ∧
       primary_keys_vector (Some p) = keys.
Proof. exact (FromSortedDeduped_roundtrip keys (proj1 keys_ok) (proj2 keys_ok)). Defined.

Lemma contains_spec_witness :
  contains (Some packed) [3] = true ∧ contains (Some packed) [2] = false.
Proof.
  split; rewrite (contains_spec (Some packed) keys _ packed_represents); reflexivity.
Defined.

Lemma equals_spec_witness : equals (Some packed) (Some packed) = true.
Proof.
  rewrite (equals_spec (Some packed) (Some packed) keys keys packed_represents packed_represents).
  reflexivity.
Defined.

End Demo.
