(* ===== verification/Crc32c.v ===== *)
(** * CRC-32C (src/src/recovery/crc32c.cpp, crc32c.h)

    The checksum of the write-ahead log, in its two implementations: the
    256-entry table and the SSE4.2 instructions.  The x86 intrinsics are not
    part of the repository; they are parameters of [UpdateWithSse42], with
    Intel's documented behaviour as hypotheses ([Crc32Instructions]).

    The theorems: both implementations compute polynomial division by the
    reflected Castagnoli polynomial, whatever the sizes [Update] is called
    with; and two buffers that differ only inside a window of four bytes never
    have the same checksum. *)

From S2P Require Import Prelude.

Definition kReflectedPolynomial : Z := 0x82f63b78.

(** One round of the inner loop of [MakeTable]. *)
Definition entry_step (entry : Z) : Z :=
  Z.lxor (Z.shiftr entry 1) (if Z.land entry 1 =? 0 then 0 else kReflectedPolynomial).

Definition table_entry (i : Z) : Z := Nat.iter 8 entry_step i.

Definition MakeTable : list Z := map table_entry (seqZ 0 256).

Definition kTable : list Z := MakeTable.

Fixpoint UpdateWithTable (state : Z) (data : bytestring) : Z :=
  match data with
  | [] => state
  | b :: data' =>
      UpdateWithTable
        (Z.lxor (nth (Z.to_nat (Z.land (Z.lxor state b) 0xff)) kTable 0) (Z.shiftr state 8))
        data'
  end.

Section sse42.
(** [_mm_crc32_u8], [_mm_crc32_u64] and [__builtin_cpu_supports("sse4.2")]. *)
Variable mm_crc32_u8 : Z -> Z -> Z.
Variable mm_crc32_u64 : Z -> Z -> Z.
Variable HasSse42 : bool.

Fixpoint Sse42_bytes (crc : Z) (data : bytestring) : Z :=
  match data with
  | [] => crc
  | b :: data' => Sse42_bytes (mm_crc32_u8 (u32 crc) b) data'
  end.

Fixpoint Sse42_chunks (crc : Z) (data : bytestring) : Z :=
  match data with
  | b0 :: b1 :: b2 :: b3 :: b4 :: b5 :: b6 :: b7 :: data' =>
      Sse42_chunks (mm_crc32_u64 crc (le_value [b0; b1; b2; b3; b4; b5; b6; b7])) data'
  | _ => Sse42_bytes crc data
  end.

Definition UpdateWithSse42 (state : Z) (data : bytestring) : Z :=
  u32 (Sse42_chunks state data).

(** [Crc32c::Update]. *)
Definition Update (state : Z) (data : bytestring) : Z :=
  if HasSse42 then UpdateWithSse42 state data else UpdateWithTable state data.

(** The member initialiser of [state_] and [Crc32c::Finish]. *)
Definition initial_state : Z := 0xffffffff.
Definition Finish (state : Z) : Z := Z.lxor state 0xffffffff.

Definition ComputeCrc32c (data : bytestring) : Z := Finish (Update initial_state data).

End sse42.

(** ** Reference: division by the polynomial, one message bit at a time *)

(** A message byte is folded into the low end of the register, which then
    shifts out eight bits. *)
Definition crc_byte (state b : Z) : Z := Nat.iter 8 entry_step (Z.lxor state b).

Definition crc_register (state : Z) (data : bytestring) : Z := fold_left crc_byte data state.

(** Intel's definition of the two instructions: [CRC32 r32, r/m8] folds one
    byte, [CRC32 r64, r/m64] folds eight bytes, least significant first, and
    clears the upper half of the destination. *)
Class Crc32Instructions (mm_crc32_u8 mm_crc32_u64 : Z -> Z -> Z) : Prop := {
  crc32_u8_spec crc b : is_u32 crc -> is_u8 b -> mm_crc32_u8 crc b = crc_byte crc b;
  crc32_u64_spec crc l : is_u32 crc -> bytes_ok l -> length l = 8%nat ->
    mm_crc32_u64 crc (le_value l) = crc_register crc l
}.

(** A software rendering of the two instructions. *)
Definition soft_crc32_u8 (crc b : Z) : Z := crc_byte crc b.
Definition soft_crc32_u64 (crc w : Z) : Z :=
  crc_register crc (le_bytes 8 w).

(** ** Linearity of the register *)

Lemma land_lxor_distr a b c : Z.land (Z.lxor a b) c = Z.lxor (Z.land a c) (Z.land b c).
Proof. apply Z.bits_inj'. intros. rewrite !Z.land_spec, !Z.lxor_spec, !Z.land_spec.
  destruct (Z.testbit a n), (Z.testbit b n), (Z.testbit c n); done. Qed.

Lemma land_1 x : Z.land x 1 = if Z.odd x then 1 else 0.
Proof. change 1 with (Z.ones 1) at 1. rewrite Z.land_ones by lia. apply Zmod_odd. Qed.

Lemma entry_step_eq x :
  entry_step x = Z.lxor (Z.shiftr x 1) (if Z.odd x then kReflectedPolynomial else 0).
Proof. unfold entry_step. rewrite land_1. by destruct (Z.odd x). Qed.

Opaque entry_step.

Lemma entry_step_lxor x y : entry_step (Z.lxor x y) = Z.lxor (entry_step x) (entry_step y).
Proof.
  rewrite !entry_step_eq, Z.shiftr_lxor.
  rewrite <- !Z.bit0_odd, Z.lxor_spec.
  destruct (Z.testbit x 0), (Z.testbit y 0); simpl xorb; cbv iota;
    rewrite ?Z.lxor_0_r, ?Z.lxor_assoc; try done.
  - rewrite (Z.lxor_comm kReflectedPolynomial), !Z.lxor_assoc, Z.lxor_nilpotent.
    by rewrite Z.lxor_0_r.
  - f_equal. apply Z.lxor_comm.
Qed.

Lemma iter_step_lxor n x y :
  Nat.iter n entry_step (Z.lxor x y) = Z.lxor (Nat.iter n entry_step x) (Nat.iter n entry_step y).
Proof. induction n as [|n IH]; simpl; [done|]. by rewrite IH, entry_step_lxor. Qed.

(** Bits that are shifted in from above reach the low end unchanged. *)
Lemma iter_step_high n x :
  Nat.iter n entry_step (Z.shiftl x (Z.of_nat n)) = x.
Proof.
  revert x. induction n as [|n IH]; intros x; [by rewrite Z.shiftl_0_r|].
  replace (Z.of_nat (S n)) with (1 + Z.of_nat n) by lia.
  rewrite <- Z.shiftl_shiftl by lia. change (Nat.iter (S n) entry_step) with
    (fun z => entry_step (Nat.iter n entry_step z)). cbv beta.
  rewrite IH, entry_step_eq. rewrite <- Z.bit0_odd, Z.shiftl_spec_low by lia.
  rewrite Z.lxor_0_r, Z.shiftr_shiftl_l by lia. by rewrite Z.shiftl_0_r.
Qed.

(** Splitting the low byte off: the rest is what the table lookup adds. *)
Lemma split_low_byte x : 0 <= x ->
  x = Z.lxor (Z.land x 0xff) (Z.shiftl (Z.shiftr x 8) 8).
Proof.
  intros Hx. apply Z.bits_inj'. intros n Hn.
  rewrite Z.lxor_spec, Z.land_spec, Z.shiftl_spec by lia.
  change 0xff with (Z.ones 8).
  destruct (Z_lt_dec n 8).
  - rewrite Z.ones_spec_low, andb_true_r, (Z.testbit_neg_r _ (n - 8)), xorb_false_r by lia.
    done.
  - rewrite Z.ones_spec_high, andb_false_r, Z.shiftr_spec by lia.
    replace (n - 8 + 8) with n by lia. done.
Qed.

Lemma iter8_split x : 0 <= x ->
  Nat.iter 8 entry_step x = Z.lxor (table_entry (Z.land x 0xff)) (Z.shiftr x 8).
Proof.
  intros Hx. rewrite (split_low_byte x Hx) at 1. rewrite iter_step_lxor.
  pose proof (iter_step_high 8 (Z.shiftr x 8)) as Hh.
  change (Z.of_nat 8) with 8 in Hh. rewrite Hh. reflexivity.
Qed.

(** ** The register stays in 32 bits, and loses nothing *)

Lemma lxor_bound a b n :
  0 <= n -> 0 <= a < 2 ^ n -> 0 <= b < 2 ^ n -> 0 <= Z.lxor a b < 2 ^ n.
Proof.
  intros Hn Ha Hb. assert (0 <= Z.lxor a b) as Hp by (apply Z.lxor_nonneg; lia).
  split; [done|]. rewrite <- (Z.mod_small a (2 ^ n)), <- (Z.mod_small b (2 ^ n)) by done.
  rewrite <- !Z.land_ones, <- land_lxor_distr, Z.land_ones by done.
  apply Z.mod_pos_bound. lia.
Qed.

Lemma entry_step_u32 x : is_u32 x -> is_u32 (entry_step x).
Proof.
  unfold is_u32. intros Hx. rewrite entry_step_eq. apply lxor_bound; [lia| |].
  - rewrite Z.shiftr_div_pow2 by lia. change (2 ^ 1) with 2. split.
    + apply Z.div_pos; lia.
    + apply Z.div_lt_upper_bound; lia.
  - unfold kReflectedPolynomial. destruct (Z.odd x); lia.
Qed.

Lemma iter_step_u32 n x : is_u32 x -> is_u32 (Nat.iter n entry_step x).
Proof. intros Hx. induction n; simpl; auto using entry_step_u32. Qed.

Lemma entry_step_0 x : is_u32 x -> entry_step x = 0 -> x = 0.
Proof.
  unfold is_u32. intros Hx. rewrite entry_step_eq. intros H.
  apply Z.lxor_eq in H. rewrite Z.shiftr_div_pow2 in H by lia. change (2 ^ 1) with 2 in H.
  pose proof (Z.div_lt_upper_bound x 2 (2 ^ 31)).
  pose proof (Zdiv2_odd_eqn x). rewrite Z.div2_div in *.
  unfold kReflectedPolynomial in H. destruct (Z.odd x); lia.
Qed.

Lemma iter_step_0 n x : is_u32 x -> Nat.iter n entry_step x = 0 -> x = 0.
Proof.
  intros Hx. induction n as [|n IH]; simpl; [done|]. intros H%entry_step_0; [auto|].
  by apply iter_step_u32.
Qed.

Lemma lxor_cancel a b : Z.lxor a b = 0 -> a = b.
Proof. apply Z.lxor_eq. Qed.

Lemma iter_step_inj n x y :
  is_u32 x -> is_u32 y -> Nat.iter n entry_step x = Nat.iter n entry_step y -> x = y.
Proof.
  intros Hx Hy H. apply lxor_cancel, (iter_step_0 n).
  - unfold is_u32 in *. apply lxor_bound; lia.
  - by rewrite iter_step_lxor, H, Z.lxor_nilpotent.
Qed.

(** ** The register after a buffer, in closed form *)

Lemma crc_register_app s l k : crc_register s (l ++ k) = crc_register (crc_register s l) k.
Proof. unfold crc_register. apply fold_left_app. Qed.

Lemma crc_byte_eq s b : crc_byte s b = Nat.iter 8 entry_step (Z.lxor s b).
Proof. reflexivity. Qed.

Lemma crc_byte_u32 s b : is_u32 s -> is_u8 b -> is_u32 (crc_byte s b).
Proof.
  intros Hs Hb. rewrite crc_byte_eq. apply iter_step_u32.
  unfold is_u32, is_u8 in *. apply lxor_bound; lia.
Qed.

Lemma crc_register_cons s b l : crc_register s (b :: l) = crc_register (crc_byte s b) l.
Proof. reflexivity. Qed.

Opaque crc_byte crc_register.

Lemma lxor_le_value s b l :
  is_u8 b -> bytes_ok l ->
  Z.lxor s (le_value (b :: l)) = Z.lxor (Z.lxor s b) (Z.shiftl (le_value l) 8).
Proof.
  unfold is_u8. intros Hb Hl. rewrite Z.lxor_assoc. f_equal. simpl le_value.
  replace (256 * le_value l) with (le_value l * 2 ^ 8) by lia.
  rewrite <- lor_mul_add, <- Z.shiftl_mul_pow2 by lia. symmetry. apply Z.lxor_lor.
  apply Z.bits_inj_0. intros n. rewrite Z.land_spec.
  destruct (Z_lt_dec n 0); [by rewrite Z.testbit_neg_r|].
  destruct (Z_lt_dec n 8).
  - rewrite (Z.shiftl_spec_low (le_value l)) by lia. apply andb_false_r.
  - rewrite <- (Z.mod_small b (2 ^ 8)) by done. by rewrite Z.mod_pow2_bits_high by lia.
Qed.

Lemma crc_register_closed l : forall s,
  bytes_ok l ->
  crc_register s l = Nat.iter (8 * length l) entry_step (Z.lxor s (le_value l)).
Proof.
  induction l as [|b l IH]; intros s Hl; [simpl; rewrite Z.lxor_0_r; reflexivity|].
  inversion_clear Hl as [|?? Hb Hl']. rewrite crc_register_cons.
  rewrite (IH _ Hl'), lxor_le_value, crc_byte_eq by done. simpl length.
  replace (8 * S (length l))%nat with (8 * length l + 8)%nat by lia.
  rewrite Nat.iter_add. f_equal. rewrite (iter_step_lxor 8 (Z.lxor s b)). f_equal.
  pose proof (iter_step_high 8 (le_value l)) as Hh. change (Z.of_nat 8) with 8 in Hh.
  rewrite Hh. reflexivity.
Qed.

Lemma crc_register_u32 l s : is_u32 s -> bytes_ok l -> is_u32 (crc_register s l).
Proof.
  intros Hs Hl. revert s Hs.
  induction Hl as [|b l Hb Hl IH]; intros s Hs; [exact Hs|].
  rewrite crc_register_cons. auto using crc_byte_u32.
Qed.

Lemma crc_register_inj l s s' :
  is_u32 s -> is_u32 s' -> bytes_ok l -> crc_register s l = crc_register s' l -> s = s'.
Proof.
  intros Hs Hs' Hl. rewrite !crc_register_closed, !iter_step_lxor by done. intros H.
  apply (iter_step_inj (8 * length l)); [done..|].
  apply (f_equal (fun z => Z.lxor z (Nat.iter (8 * length l) entry_step (le_value l)))) in H.
  by rewrite !Z.lxor_assoc, Z.lxor_nilpotent, !Z.lxor_0_r in H.
Qed.


(** Two buffers that differ inside one window of at most four bytes leave the
    register in different states. *)
Lemma crc_register_burst pre w w' post s :
  is_u32 s -> bytes_ok (pre ++ w ++ post) -> bytes_ok w' ->
  length w = length w' -> (length w <= 4)%nat ->
  crc_register s (pre ++ w ++ post) = crc_register s (pre ++ w' ++ post) -> w = w'.
Proof.
  intros Hs Hok Hw' Hlen H4. apply Forall_app in Hok as [Hpre Hok].
  apply Forall_app in Hok as [Hw Hpost]. rewrite !crc_register_app. intros H.
  pose proof (crc_register_u32 pre s Hs Hpre) as Hs'. set (s' := crc_register s pre) in *.
  apply crc_register_inj in H; auto using crc_register_u32.
  rewrite !crc_register_closed, <- Hlen in H by done.
  assert (forall l, bytes_ok l -> length l = length w -> is_u32 (le_value l)) as Hle.
  { intros l Hl Hll. pose proof (le_value_bound l Hl). unfold is_u32, zlen in *.
    assert (256 ^ Z.of_nat (length l) <= 256 ^ 4) by (apply Z.pow_le_mono_r; lia). lia. }
  apply iter_step_inj in H.
  - apply le_value_inj; try done. apply lxor_cancel.
    rewrite <- (Z.lxor_0_l (Z.lxor _ _)), <- (Z.lxor_nilpotent s').
    rewrite Z.lxor_assoc, <- (Z.lxor_assoc s' (le_value w)), H.
    by rewrite Z.lxor_assoc, Z.lxor_nilpotent, Z.lxor_0_r, Z.lxor_nilpotent.
  - pose proof (Hle w Hw eq_refl). unfold is_u32 in *. by apply lxor_bound.
  - pose proof (Hle w' Hw' (eq_sym Hlen)). unfold is_u32 in *. by apply lxor_bound.
Qed.

(** ** Both implementations compute the register *)

Lemma kTable_lookup i : 0 <= i < 256 -> nth (Z.to_nat i) kTable 0 = table_entry i.
Proof.
  intros Hi. unfold kTable, MakeTable.
  rewrite (nth_indep _ 0 (table_entry 0)) by (rewrite length_map, length_seqZ; lia).
  rewrite map_nth. f_equal. apply nth_lookup_Some.
  rewrite lookup_seqZ. lia.
Qed.

Lemma shiftr_lxor_byte s b : 0 <= s -> is_u8 b -> Z.shiftr (Z.lxor s b) 8 = Z.shiftr s 8.
Proof.
  unfold is_u8. intros Hs Hb. rewrite Z.shiftr_lxor, (Z.shiftr_div_pow2 b) by lia.
  by rewrite Z.div_small, Z.lxor_0_r by lia.
Qed.

Lemma UpdateWithTable_register data : forall s,
  is_u32 s -> bytes_ok data -> UpdateWithTable s data = crc_register s data.
Proof.
  induction data as [|b data IH]; intros s Hs Hd; [reflexivity|].
  inversion_clear Hd as [|?? Hb Hd']. rewrite crc_register_cons.
  rewrite <- IH by auto using crc_byte_u32. cbn [UpdateWithTable]. f_equal.
  assert (0 <= Z.lxor s b) by (unfold is_u32, is_u8 in *; apply Z.lxor_nonneg; lia).
  rewrite crc_byte_eq, iter8_split by done. rewrite kTable_lookup.
  - by rewrite shiftr_lxor_byte by (unfold is_u32 in Hs; done || lia).
  - change 0xff with (Z.ones 8). rewrite Z.land_ones by lia. apply Z.mod_pos_bound. lia.
Qed.

Section both.
Context (mm_crc32_u8 mm_crc32_u64 : Z -> Z -> Z) `{!Crc32Instructions mm_crc32_u8 mm_crc32_u64}.

Lemma Sse42_bytes_register data : forall s,
  is_u32 s -> bytes_ok data -> Sse42_bytes mm_crc32_u8 s data = crc_register s data.
Proof.
  induction data as [|b data IH]; intros s Hs Hd; [reflexivity|].
  inversion_clear Hd as [|?? Hb Hd']. rewrite crc_register_cons. cbn [Sse42_bytes].
  rewrite u32_small, crc32_u8_spec by done. auto using crc_byte_u32.
Qed.

Lemma Sse42_chunks_register n : forall data s,
  (length data <= n)%nat -> is_u32 s -> bytes_ok data ->
  Sse42_chunks mm_crc32_u8 mm_crc32_u64 s data = crc_register s data.
Proof.
  induction n as [|n IH]; intros data s Hn Hs Hd.
  { destruct data; [reflexivity|simpl in Hn; lia]. }
  do 8 (destruct data as [|? data]; [by apply Sse42_bytes_register|]).
  cbn [Sse42_chunks]. rename data into rest.
  match goal with
  | |- _ = crc_register s (?a :: ?b :: ?c :: ?d :: ?e :: ?f :: ?g :: ?h :: rest) =>
      change (a :: b :: c :: d :: e :: f :: g :: h :: rest)
        with ([a; b; c; d; e; f; g; h] ++ rest) in *;
      set (w := [a; b; c; d; e; f; g; h]) in *
  end.
  apply Forall_app in Hd as [Hw Hrest]. rewrite crc_register_app.
  rewrite crc32_u64_spec by done. apply IH; auto using crc_register_u32.
  rewrite length_app in Hn. unfold w in Hn. simpl in Hn. lia.
Qed.

Lemma Update_register has_sse42 s data :
  is_u32 s -> bytes_ok data ->
  Update mm_crc32_u8 mm_crc32_u64 has_sse42 s data = crc_register s data.
Proof.
  intros Hs Hd. unfold Update. destruct has_sse42.
  - unfold UpdateWithSse42. rewrite (Sse42_chunks_register (length data)) by done.
    by apply u32_small, crc_register_u32.
  - by apply UpdateWithTable_register.
Qed.

End both.

Lemma initial_state_u32 : is_u32 initial_state.
Proof. unfold is_u32, initial_state. lia. Qed.

#[export] Hint Resolve initial_state_u32 crc_byte_u32 crc_register_u32 : lineair.

(** On every CPU, Crc32c::Update leaves the register of the polynomial
    division by the reflected Castagnoli polynomial, and cutting the data into
    several Update calls changes nothing: the table and the SSE4.2 path are
    interchangeable, also in the middle of a buffer. *)
Theorem Update_paths_agree u8i u64i (HI : Crc32Instructions u8i u64i) sse1 sse2 a b :
  bytes_ok (a ++ b) ->
  Update u8i u64i sse2 (Update u8i u64i sse1 initial_state a) b =
    UpdateWithTable initial_state (a ++ b) ∧
  UpdateWithTable initial_state (a ++ b) = crc_register initial_state (a ++ b).
Proof.
  intros Hab. rewrite UpdateWithTable_register by auto with lineair.
  apply Forall_app in Hab as [Ha Hb].
  rewrite (Update_register _ _ sse1), Update_register by auto with lineair.
  by rewrite crc_register_app.
Qed.

(** The checksum detects every burst error of up to 32 bits that starts
    on a byte boundary: two buffers of the same length that differ only inside
    a window of at most four bytes have different CRC-32C values. *)
Theorem burst_detected u8i u64i (HI : Crc32Instructions u8i u64i) sse1 sse2 pre w w' post :
  bytes_ok (pre ++ w ++ post) -> bytes_ok w' -> length w = length w' ->
  (length w <= 4)%nat -> w <> w' ->
  ComputeCrc32c u8i u64i sse1 (pre ++ w ++ post) <>
  ComputeCrc32c u8i u64i sse2 (pre ++ w' ++ post).
Proof.
  intros Hok Hw' Hlen H4 Hne Heq. apply Hne. unfold ComputeCrc32c, Finish in Heq.
  assert (bytes_ok (pre ++ w' ++ post)) as Hok'.
  { apply Forall_app in Hok as [? Hok]. apply Forall_app in Hok as [_ ?].
    by repeat (apply Forall_app; split). }
  rewrite !Update_register in Heq by auto with lineair.
  apply (f_equal (fun z => Z.lxor z 0xffffffff)) in Heq.
  rewrite !Z.lxor_assoc, Z.lxor_nilpotent, !Z.lxor_0_r in Heq.
  by apply crc_register_burst in Heq; auto with lineair.
Qed.

(** The software rendering satisfies the instruction set's definition. *)
#[export] Instance soft_instructions : Crc32Instructions soft_crc32_u8 soft_crc32_u64.
Proof.
  split; [reflexivity|]. intros crc l _ Hl Hlen. unfold soft_crc32_u64.
  by rewrite <- Hlen, le_bytes_value.
Qed.

(** The check value of the header's comment, on both paths. *)
Example check_value :
  let data := [0x31; 0x32; 0x33; 0x34; 0x35; 0x36; 0x37; 0x38; 0x39] in
  ComputeCrc32c soft_crc32_u8 soft_crc32_u64 true data = 0xE3069283 ∧
  ComputeCrc32c soft_crc32_u8 soft_crc32_u64 false data = 0xE3069283.
Proof. by vm_compute. Qed.

Lemma Update_paths_agree_witness :
  Update soft_crc32_u8 soft_crc32_u64 false
    (Update soft_crc32_u8 soft_crc32_u64 true initial_state [1; 2; 3]) [4; 5] =
    UpdateWithTable initial_state [1; 2; 3; 4; 5].
Proof.
  apply (Update_paths_agree soft_crc32_u8 soft_crc32_u64 soft_instructions
           true false [1; 2; 3] [4; 5]).
  bytes_eval.
Defined.

Lemma burst_detected_witness :
  ComputeCrc32c soft_crc32_u8 soft_crc32_u64 true [1; 2; 3; 4; 5; 6; 7] <>
  ComputeCrc32c soft_crc32_u8 soft_crc32_u64 false [1; 9; 3; 4; 8; 6; 7].
Proof.
  apply (burst_detected soft_crc32_u8 soft_crc32_u64 soft_instructions
           true false [1] [2; 3; 4; 5] [9; 3; 4; 8] [6; 7]);
    [bytes_eval|bytes_eval|reflexivity|simpl; lia|discriminate].
Defined.
