(* ===== verification/Types.v ===== *)
(** * Shared data types (src/src/types/transaction_id.hpp, definitions.h,
    src/src/stateless/packed_transaction_id.hpp, src/src/recovery/log_record.h)

    Transaction identifiers with their packed 64-bit form, and the log records
    the recovery code persists.  The theorem shows that packing keeps the
    order of identifiers and loses nothing. *)

From S2P Require Import Prelude.

(** [enum class SecondaryIndexOp]. *)
Inductive SecondaryIndexOp : Type := OpNone | OpAdd | OpRemove | OpFull.

Module TransactionId.

Record t := mk { epoch : Z; tid : Z }.

(** [TransactionId()], and [TransactionId(uint64_t n)]: [n & ~1llu >> 32]
    parses as [n & (~1llu >> 32)]. *)
Definition zero : t := mk 0 0.
Definition of_uint64 (n : Z) : t :=
  mk (u32 (Z.shiftr n 32)) (u32 (Z.land n (Z.shiftr (2 ^ 64 - 1 - 1) 32))).

Definition eqb (a b : t) : bool := (epoch a =? epoch b) && (tid a =? tid b).
Definition neqb (a b : t) : bool := negb (eqb a b).
Definition ltb (a b : t) : bool :=
  if epoch a =? epoch b then tid a <? tid b else epoch a <? epoch b.
Definition IsEmpty (a : t) : bool := (epoch a =? 0) && (tid a =? 0).

Definition PackTransactionId (a : t) : Z :=
  Z.lor (u64 (Z.shiftl (epoch a) 32)) (tid a).
Definition UnpackTransactionId (packed : Z) : t :=
  mk (u32 (Z.shiftr packed 32)) (u32 (Z.land packed 0xffffffff)).

Definition ok (a : t) : Prop := is_u32 (epoch a) ∧ is_u32 (tid a).

#[global] Instance eq_dec : EqDecision t.
Proof. solve_decision. Defined.

#[global] Instance countable : Countable t.
Proof.
  refine (inj_countable' (fun a => (epoch a, tid a)) (fun p => mk p.1 p.2) _).
  by intros [].
Defined.

End TransactionId.

Module LogRecord.

Record KeyValuePair := mkKVP {
  key : bytestring;
  buffer : bytestring;
  tid : TransactionId.t;
  table_name : bytestring;
  index_name : bytestring;
  index_type : Z;
  primary_keys : list bytestring;
  secondary_op : Z;
  secondary_primary_key : bytestring
}.

Record t := mk { epoch : Z; key_value_pairs : list KeyValuePair }.

(** Every field holds a value of its C++ type. *)
Definition kvp_ok (p : KeyValuePair) : Prop :=
  bytes_ok (key p) ∧ bytes_ok (buffer p) ∧ TransactionId.ok (tid p) ∧
  bytes_ok (table_name p) ∧ bytes_ok (index_name p) ∧ is_u32 (index_type p) ∧
  Forall bytes_ok (primary_keys p) ∧ is_u8 (secondary_op p) ∧
  bytes_ok (secondary_primary_key p).

Definition ok (r : t) : Prop := is_u32 (epoch r) ∧ Forall kvp_ok (key_value_pairs r).

#[global] Instance kvp_eq_dec : EqDecision KeyValuePair.
Proof. solve_decision. Defined.

#[global] Instance eq_dec : EqDecision t.
Proof. solve_decision. Defined.

#[global] Instance kvp_countable : Countable KeyValuePair.
Proof.
  refine (inj_countable'
    (fun p => (key p, buffer p, tid p, table_name p, index_name p, index_type p,
               primary_keys p, secondary_op p, secondary_primary_key p))
    (fun '(a, b, c, d, e, f, g, h, i) => mkKVP a b c d e f g h i) _).
  by intros [].
Defined.

#[global] Instance countable : Countable t.
Proof.
  refine (inj_countable' (fun r => (epoch r, key_value_pairs r)) (fun p => mk p.1 p.2) _).
  by intros [].
Defined.

End LogRecord.

Abbreviation LogRecords := (list LogRecord.t).

(** ** Identifiers and their packed form *)

Import TransactionId.

Lemma Pack_value a : ok a -> PackTransactionId a = tid a + epoch a * 2 ^ 32.
Proof.
  unfold ok, is_u32. intros [He Ht]. unfold PackTransactionId.
  rewrite Z.lor_comm, Z.shiftl_mul_pow2 by lia.
  rewrite u64_small by (unfold is_u64; lia). apply lor_mul_add; lia.
Qed.

Lemma Unpack_value n :
  is_u64 n -> UnpackTransactionId n = mk (n / 2 ^ 32) (n mod 2 ^ 32).
Proof.
  unfold is_u64, UnpackTransactionId. intros Hn. rewrite Z.shiftr_div_pow2 by lia.
  change 0xffffffff with (Z.ones 32). rewrite Z.land_ones by lia.
  rewrite !u32_small; [done|..]; unfold is_u32.
  - apply Z.mod_pos_bound. lia.
  - split; [apply Z.div_pos; lia|apply Z.div_lt_upper_bound; lia].
Qed.

(** A transaction identifier survives the trip through its packed 64-bit
    token, the TransactionId(uint64_t) constructor agrees with the unpacking
    of the stateless API, and tokens compare as integers the way identifiers
    compare by epoch and then by sequence number. *)
Theorem PackTransactionId_roundtrip a b :
  ok a -> ok b ->
  is_u64 (PackTransactionId a) ∧
  UnpackTransactionId (PackTransactionId a) = a ∧
  of_uint64 (PackTransactionId a) = a ∧
  ltb a b = (PackTransactionId a <? PackTransactionId b) ∧
  (eqb a b = true <-> PackTransactionId a = PackTransactionId b).
Proof.
  intros Ha Hb. rewrite !Pack_value by done.
  destruct a as [ea ta], b as [eb tb]. unfold ok, is_u32 in *. cbn in *.
  assert (is_u64 (ta + ea * 2 ^ 32)) as Hu by (unfold is_u64; lia).
  assert (UnpackTransactionId (ta + ea * 2 ^ 32) = mk ea ta) as HU.
  { rewrite Unpack_value by done.
    rewrite Z.div_add, Z.mod_add, Z.div_small, Z.mod_small by lia. done. }
  split; [done|]. split; [done|]. split; [exact HU|]. split.
  - unfold ltb. cbn. zcase; done.
  - unfold eqb. cbn. rewrite andb_true_iff, !Z.eqb_eq. split; [lia|]. intros.
    assert (ea = eb) by lia. lia.
Qed.

Lemma PackTransactionId_roundtrip_witness :
  UnpackTransactionId (PackTransactionId (mk 7 42)) = mk 7 42.
Proof.
  apply (PackTransactionId_roundtrip (mk 7 42) (mk 7 44));
    unfold ok, is_u32; cbn; lia.
Defined.
