(* ===== verification/WalDevice.v ===== *)
(** * The file under the write-ahead log and the I/O loops of [Wal]
    (src/src/recovery/wal.cpp)

    The file is the list of its bytes.  The operating system is an oracle: a
    list of outcomes, one consumed by every system call, so that short reads
    and writes, interruptions and errors happen wherever a scenario puts them;
    once the list is exhausted every call succeeds in full.  The theorems
    quantify over the oracle.  [durable] is the file as the last successful
    [fsync] or [fdatasync] left it.

    Modelled: [Wal::WriteAllAt], [Wal::PreadAll], [Wal::WriteZeroesAndSync],
    [FsyncRetryingOnInterrupt] and the [fdatasync] loop of [AppendGroup].  The
    theorems show that the loops transfer exactly the bytes they were asked
    for or report an error. *)

From S2P Require Import Prelude.

(** The [errno] values the code names (Linux). *)
Definition EINTR : Z := 4.
Definition EIO : Z := 5.
Definition EINVAL : Z := 22.
Definition EFBIG : Z := 27.
Definition EOVERFLOW : Z := 75.

Definition SSIZE_MAX : Z := 2 ^ 63 - 1.

(** [constexpr size_t kChunkSize = 1ull << 20]. *)
Definition kChunkSize : Z := 2 ^ 20.

(** The outcome of one system call: it moved up to [n] bytes ([fsync] calls
    ignore the count), or it returned -1 with [errno]. *)
Inductive io_outcome : Type :=
| IoMoved (n : Z)
| IoFailed (errno : Z).

Record Device := mkDevice {
  content : bytestring;
  durable : bytestring;
  oracle : list io_outcome
}.

Definition zeroes (n : Z) : bytestring := replicate (Z.to_nat n) 0.

(** POSIX [pwrite]: a write past the end of the file extends it, the gap reads
    as zeroes. *)
Definition write_at (c : bytestring) (off : Z) (data : bytestring) : bytestring :=
  let c' := c ++ zeroes (off - zlen c) in
  take (Z.to_nat off) c' ++ data ++ drop (Z.to_nat off + length data) c'.

(** How many of [size] bytes a call that moved [n] transferred. *)
Definition moved (n size : Z) : Z := Z.max 0 (Z.min n size).

(** [*error] as an option: [None] is [true], [Some e] is [false] with [*error = e]. *)
Abbreviation ioerror := (option Z).

(** [Wal::WriteAllAt]. *)
Fixpoint WriteAllAt_loop (orc : list io_outcome) (c data : bytestring) (offset : Z)
    : ioerror * bytestring * list io_outcome :=
  match data with
  | [] => (None, c, orc)
  | _ :: _ =>
      match orc with
      | [] => (None, write_at c offset data, [])
      | IoMoved n :: orc' =>
          let written := moved n (Z.min (zlen data) SSIZE_MAX) in
          if 0 <? written
          then WriteAllAt_loop orc' (write_at c offset (take (Z.to_nat written) data))
                 (drop (Z.to_nat written) data) (offset + written)
          else (Some EIO, c, orc')
      | IoFailed e :: orc' =>
          if e =? EINTR then WriteAllAt_loop orc' c data offset else (Some e, c, orc')
      end
  end.

Definition WriteAllAt (d : Device) (data : bytestring) (offset : Z) : ioerror * Device :=
  let '(e, c, orc) := WriteAllAt_loop (oracle d) (content d) data offset in
  (e, mkDevice c (durable d) orc).

(** [Wal::PreadAll]: the bytes read, or the error. *)
Fixpoint PreadAll_loop (orc : list io_outcome) (c : bytestring) (size offset : Z)
    (out : bytestring) : (bytestring + Z) * list io_outcome :=
  if size =? 0 then (inl out, orc) else
  match orc with
  | [] =>
      let got := moved (zlen c - offset) size in
      if got =? size then (inl (out ++ slice offset size c), []) else (inr EIO, [])
  | IoMoved n :: orc' =>
      let got := moved n (moved (zlen c - offset) size) in
      if 0 <? got
      then PreadAll_loop orc' c (size - got) (offset + got) (out ++ slice offset got c)
      else (inr EIO, orc')
  | IoFailed e :: orc' =>
      if e =? EINTR then PreadAll_loop orc' c size offset out else (inr e, orc')
  end.

Definition PreadAll (d : Device) (size offset : Z) : (bytestring + Z) * Device :=
  let '(r, orc) := PreadAll_loop (oracle d) (content d) size offset [] in
  (r, mkDevice (content d) (durable d) orc).

(** [FsyncRetryingOnInterrupt] and the [do ... while] around [fdatasync]. *)
Fixpoint Sync_loop (orc : list io_outcome) : ioerror * list io_outcome :=
  match orc with
  | [] => (None, [])
  | IoMoved _ :: orc' => (None, orc')
  | IoFailed e :: orc' => if e =? EINTR then Sync_loop orc' else (Some e, orc')
  end.

Definition Fsync (d : Device) : ioerror * Device :=
  let '(e, orc) := Sync_loop (oracle d) in
  (e, mkDevice (content d) (match e with None => content d | Some _ => durable d end) orc).

(** The inner [while (remaining != 0)] of [WriteZeroesAndSync]; it is
    [WriteAllAt] without the [SSIZE_MAX] clamp, which a chunk never reaches. *)
Fixpoint WriteZeroes_chunks (fuel : nat) (d : Device) (offset to : Z) : ioerror * Device :=
  match fuel with
  | O => (None, d)
  | S f =>
      if offset <? to then
        let size := Z.min kChunkSize (to - offset) in
        match WriteAllAt d (zeroes size) offset with
        | (Some e, d) => (Some e, d)
        | (None, d) => WriteZeroes_chunks f d (offset + size) to
        end
      else (None, d)
  end.

(** [Wal::WriteZeroesAndSync]: one chunk per round, so the rounds are bounded
    by the number of chunks of the region. *)
Definition WriteZeroesAndSync (d : Device) (from to : Z) : ioerror * Device :=
  if to <=? from then (None, d) else
  match WriteZeroes_chunks (S (Z.to_nat ((to - from) / kChunkSize))) d from to with
  | (Some e, d) => (Some e, d)
  | (None, d) => Fsync d
  end.

(** Calls that make progress or are interrupted. *)
Definition benign (orc : list io_outcome) : Prop :=
  Forall (fun o => match o with IoMoved n => 0 < n | IoFailed e => e = EINTR end) orc.

(** [d'] is [d] after calls that changed nothing on disk. *)
Definition same_file (d d' : Device) : Prop :=
  content d' = content d ∧ durable d' = durable d ∧
  (benign (oracle d) -> benign (oracle d')).

(** ** The bytes of the file after a write *)

Lemma zlen_zeroes n : 0 <= n -> zlen (zeroes n) = n.
Proof. intros. unfold zeroes. rewrite zlen_replicate. lia. Qed.

Lemma zeroes_app n m : 0 <= n -> 0 <= m -> zeroes n ++ zeroes m = zeroes (n + m).
Proof.
  intros. unfold zeroes. rewrite <- replicate_add. f_equal. lia.
Qed.

Lemma zeroes_nonpos n : n <= 0 -> zeroes n = [].
Proof. intros. unfold zeroes. by replace (Z.to_nat n) with O by lia. Qed.

Lemma bytes_ok_zeroes n : bytes_ok (zeroes n).
Proof. apply Forall_replicate. unfold is_u8. lia. Qed.

#[export] Hint Resolve bytes_ok_zeroes : lineair.

(** Writing from the end of a prefix on replaces what follows the prefix. *)
Lemma write_at_split p r data :
  write_at (p ++ r) (zlen p) data = p ++ data ++ drop (length data) r.
Proof.
  unfold write_at. rewrite zeroes_nonpos, app_nil_r by zl.
  rewrite to_nat_zlen, take_app_length. do 2 f_equal.
  rewrite drop_app_ge by lia. f_equal. lia.
Qed.

(** ** Outcomes an I/O loop recovers from *)

Lemma benign_cons o orc : benign (o :: orc) -> benign orc.
Proof. by inversion 1. Qed.

#[export] Hint Resolve benign_cons : lineair.

(** ** The loops *)

Section io_loops.
Implicit Types (p r c data : bytestring) (orc : list io_outcome) (d : Device).

(** Whatever the system does, [WriteAllAt] changes the file by writing a prefix
    of the data in place, all of it when it reports success. *)
Lemma WriteAllAt_loop_spec orc : forall p r data,
  let '(e, c, orc') := WriteAllAt_loop orc (p ++ r) data (zlen p) in
  (∃ k, (k <= length data)%nat ∧ c = p ++ take k data ++ drop k r ∧
        (e = None -> k = length data)) ∧
  (benign orc -> e = None ∧ benign orc').
Proof.
  induction orc as [|o orc IH]; intros p r [|b data]; cbn [WriteAllAt_loop].
  - split; [exists O; by rewrite app_nil_l, drop_0|done].
  - rewrite write_at_split. split; [|done].
    exists (length (b :: data)). by rewrite take_ge by done.
  - split; [exists O; by rewrite app_nil_l, drop_0|eauto with lineair].
  - set (l := b :: data) in *. destruct o as [n|e].
    + assert (0 < zlen l) by (unfold l; zl).
      set (k := moved n (Z.min (zlen l) SSIZE_MAX)).
      assert (k <= zlen l) by (unfold k, moved, SSIZE_MAX; lia).
      destruct (Z.ltb_spec 0 k) as [Hk|Hk].
      * rewrite write_at_split. assert (length (take (Z.to_nat k) l) = Z.to_nat k) as Hlk
          by (rewrite length_take; unfold zlen in *; lia).
        rewrite Hlk, app_assoc.
        specialize (IH (p ++ take (Z.to_nat k) l) (drop (Z.to_nat k) r) (drop (Z.to_nat k) l)).
        replace (zlen (p ++ take (Z.to_nat k) l)) with (zlen p + k) in IH
          by (rewrite zlen_app; unfold zlen; lia).
        destruct (WriteAllAt_loop orc _ _ _) as [[e c] orc'].
        destruct IH as [(m & Hm & -> & He) Hb]. split; [|eauto with lineair].
        rewrite length_drop in Hm, He. unfold zlen in *.
        exists (Z.to_nat k + m)%nat. split; [lia|]. split.
        -- rewrite <- app_assoc. f_equal. rewrite drop_drop, app_assoc. f_equal.
           by rewrite take_take_drop.
        -- intros H'. specialize (He H'). lia.
      * split; [exists O; rewrite app_nil_l, drop_0; split; [lia|done]|].
        intros Hb. inversion_clear Hb. unfold k, moved, SSIZE_MAX in Hk. lia.
    + destruct (Z.eqb_spec e EINTR) as [->|Hne].
      * specialize (IH p r l). destruct (WriteAllAt_loop orc _ _ _) as [[e c] orc'].
        destruct IH as [Hex Hb]. eauto with lineair.
      * split; [exists O; rewrite app_nil_l, drop_0; split; [lia|done]|].
        intros Hb. by inversion_clear Hb.
Qed.

Lemma WriteAllAt_spec d p r data :
  content d = p ++ r ->
  let '(e, d') := WriteAllAt d data (zlen p) in
  (∃ k, (k <= length data)%nat ∧ content d' = p ++ take k data ++ drop k r ∧
        (e = None -> k = length data)) ∧
  durable d' = durable d ∧ (benign (oracle d) -> e = None ∧ benign (oracle d')).
Proof.
  intros Hc. unfold WriteAllAt. rewrite Hc.
  pose proof (WriteAllAt_loop_spec (oracle d) p r data) as H.
  destruct (WriteAllAt_loop _ _ _ _) as [[e c] orc']. naive_solver.
Qed.

Lemma slice_split off n m c :
  0 <= off -> 0 <= n -> 0 <= m ->
  slice off n c ++ slice (off + n) m c = slice off (n + m) c.
Proof.
  intros. unfold slice. rewrite !Z2Nat.inj_add by lia.
  rewrite <- drop_drop. apply take_take_drop.
Qed.

(** [PreadAll] either fails or delivers the bytes of the file. *)
Lemma PreadAll_loop_spec orc : forall c size offset out,
  0 <= offset -> 0 <= size -> offset + size <= zlen c ->
  let '(res, orc') := PreadAll_loop orc c size offset out in
  (∀ l, res = inl l -> l = out ++ slice offset size c) ∧
  (benign orc -> res = inl (out ++ slice offset size c) ∧ benign orc').
Proof.
  induction orc as [|o orc IH]; intros c size offset out Ho Hs Hle; cbn [PreadAll_loop];
    destruct (Z.eqb_spec size 0) as [->|Hz]; try (rewrite slice_nil_len, app_nil_r; naive_solver).
  - replace (moved (zlen c - offset) size) with size by (unfold moved; lia).
    rewrite Z.eqb_refl. naive_solver.
  - destruct o as [n|e].
    + replace (moved (zlen c - offset) size) with size by (unfold moved; lia).
      destruct (Z.ltb_spec 0 (moved n size)) as [Hk|Hk].
      * assert (moved n size <= size) by (unfold moved; lia).
        specialize (IH c (size - moved n size) (offset + moved n size)
                      (out ++ slice offset (moved n size) c)).
        destruct (PreadAll_loop orc _ _ _ _) as [res orc'].
        rewrite <- app_assoc, slice_split in IH by lia.
        replace (moved n size + (size - moved n size)) with size in IH by lia.
        destruct IH as [H1 H2]; try lia. eauto with lineair.
      * split; [done|]. intros Hb. inversion_clear Hb. unfold moved in Hk. lia.
    + destruct (Z.eqb_spec e EINTR) as [->|Hne].
      * specialize (IH c size offset out). destruct (PreadAll_loop orc _ _ _ _) as [res orc'].
        destruct IH as [H1 H2]; try done. eauto with lineair.
      * split; [done|]. intros Hb. by inversion_clear Hb.
Qed.

Lemma PreadAll_spec d size offset :
  0 <= offset -> 0 <= size -> offset + size <= zlen (content d) ->
  let '(res, d') := PreadAll d size offset in
  content d' = content d ∧ durable d' = durable d ∧
  (∀ l, res = inl l -> l = slice offset size (content d)) ∧
  (benign (oracle d) -> res = inl (slice offset size (content d)) ∧ benign (oracle d')).
Proof.
  intros Ho Hs Hle. unfold PreadAll.
  pose proof (PreadAll_loop_spec (oracle d) (content d) size offset [] Ho Hs Hle) as H.
  destruct (PreadAll_loop _ _ _ _ _) as [res orc']. naive_solver.
Qed.

Lemma Sync_loop_benign orc :
  benign orc -> ∃ orc', Sync_loop orc = (None, orc') ∧ benign orc'.
Proof.
  induction orc as [|[n|e] orc IH]; cbn; intros H; [by exists []|..];
    inversion_clear H; [by exists orc|]. subst. rewrite Z.eqb_refl. auto.
Qed.

Lemma Fsync_spec d :
  let '(e, d') := Fsync d in
  content d' = content d ∧ (e = None -> durable d' = content d) ∧
  (e <> None -> durable d' = durable d) ∧
  (benign (oracle d) -> e = None ∧ benign (oracle d')).
Proof.
  unfold Fsync. pose proof (Sync_loop_benign (oracle d)) as H.
  destruct (Sync_loop (oracle d)) as [[e|] orc']; cbn; naive_solver.
Qed.

Lemma replicate_drop_app n m (r : bytestring) :
  replicate n 0 ++ replicate m 0 ++ drop m (drop n r) = replicate (n + m) 0 ++ drop (n + m) r.
Proof. by rewrite app_assoc, <- replicate_add, drop_drop. Qed.

Lemma WriteZeroes_chunks_spec fuel : forall d p r to,
  content d = p ++ r -> to - zlen p <= Z.of_nat fuel * kChunkSize ->
  let '(e, d') := WriteZeroes_chunks fuel d (zlen p) to in
  (∃ k, Z.of_nat k <= Z.max 0 (to - zlen p) ∧ content d' = p ++ replicate k 0 ++ drop k r ∧
     (e = None -> Z.of_nat k = Z.max 0 (to - zlen p))) ∧
  durable d' = durable d ∧ (benign (oracle d) -> e = None ∧ benign (oracle d')).
Proof.
  induction fuel as [|fuel IH]; intros d p r to Hc Hf; cbn [WriteZeroes_chunks].
  { split; [|done]. exists O. cbn. rewrite drop_0. split; [lia|]. split; [done|].
    lia. }
  destruct (Z.ltb_spec (zlen p) to) as [Hlt|Hge].
  2: { split; [|done]. exists O. cbn. rewrite drop_0. repeat split; try done; lia. }
  set (size := Z.min kChunkSize (to - zlen p)).
  assert (0 < size <= to - zlen p) as Hsize by (unfold size, kChunkSize; lia).
  pose proof (WriteAllAt_spec d p r (zeroes size) Hc) as HW.
  destruct (WriteAllAt d (zeroes size) (zlen p)) as [[e|] d1];
    destruct HW as ((k & Hk & Hc1 & He) & Hd1 & Hb1);
    unfold zeroes in Hk, Hc1, He; rewrite length_replicate in Hk, He.
  { split; [|split; [done|naive_solver]]. exists k. rewrite take_replicate in Hc1.
    replace (_ `min` _)%nat with k in Hc1 by lia.
    split; [lia|]. split; [by rewrite Hc1|done]. }
  specialize (He eq_refl). subst k. rewrite take_replicate, Nat.min_id in Hc1.
  rewrite app_assoc in Hc1.
  specialize (IH d1 (p ++ replicate (Z.to_nat size) 0) (drop (Z.to_nat size) r) to Hc1).
  rewrite zlen_app, zlen_replicate, Z2Nat.id in IH by lia.
  destruct (WriteZeroes_chunks fuel d1 (zlen p + size) to) as [e d2].
  destruct IH as ((k & Hk' & Hc2 & He) & Hd2 & Hb2).
  { unfold size, kChunkSize in *. lia. }
  split; [|split; [congruence|naive_solver]].
  exists (Z.to_nat size + k)%nat. rewrite Hc2, <- app_assoc, replicate_drop_app.
  split; [lia|]. split; [done|]. intros H. specialize (He H). lia.
Qed.

(** [WriteZeroesAndSync] zeroes a region in place; success means that all of
    it is zero and that the file is durable. *)
Lemma WriteZeroesAndSync_spec d p r to :
  content d = p ++ r -> zlen p < to ->
  let '(e, d') := WriteZeroesAndSync d (zlen p) to in
  (∃ k, Z.of_nat k <= to - zlen p ∧ content d' = p ++ replicate k 0 ++ drop k r ∧
     (e = None -> Z.of_nat k = to - zlen p)) ∧
  (e = None -> durable d' = content d') ∧ durable d' ∈ [durable d; content d'] ∧
  (benign (oracle d) -> e = None ∧ benign (oracle d')).
Proof.
  intros Hc Hlt. unfold WriteZeroesAndSync. destruct (Z.leb_spec to (zlen p)); [lia|].
  pose proof (WriteZeroes_chunks_spec (S (Z.to_nat ((to - zlen p) / kChunkSize))) d p r to Hc) as H1.
  destruct (WriteZeroes_chunks _ d (zlen p) to) as [[e|] d1].
  - destruct H1 as ((k & Hk & Hc1 & He) & Hd & Hb).
    { unfold kChunkSize. Z.div_mod_to_equations. lia. }
    split; [exists k; split; [lia|]; by split|]. split; [done|]. split; [set_solver|naive_solver].
  - destruct H1 as ((k & Hk & Hc1 & He) & Hd & Hb).
    { unfold kChunkSize. Z.div_mod_to_equations. lia. }
    pose proof (Fsync_spec d1) as HF. destruct (Fsync d1) as [e2 d2].
    destruct HF as (Hc2 & Hdur & Hdur' & Hb2).
    split; [exists k; rewrite Hc2; split; [lia|]; split; [done|]; intros _; specialize (He eq_refl); lia|].
    split; [intros ->; rewrite Hc2; by apply Hdur|].
    split; [destruct e2; rewrite ?Hdur', ?Hc2, ?Hdur by done; set_solver|]. intros Hbn. apply Hb2, Hb, Hbn.
Qed.

(** ** Reads leave the file alone *)

#[global] Instance same_file_preorder : PreOrder same_file.
Proof. unfold same_file. split; [intros d; auto|]. intros d1 d2 d3. naive_solver congruence. Qed.

Lemma PreadAll_cases d size offset :
  0 <= offset -> 0 <= size -> offset + size <= zlen (content d) ->
  ∃ d', same_file d d' ∧
    (PreadAll d size offset = (inl (slice offset size (content d)), d') ∨
     (¬ benign (oracle d) ∧ ∃ e, PreadAll d size offset = (inr e, d'))).
Proof.
  intros Ho Hs Hle. pose proof (PreadAll_spec d size offset Ho Hs Hle) as H.
  destruct (PreadAll d size offset) as [[l|e] d']; destruct H as (Hc & Hd & Hr & Hb);
    exists d'; (split; [unfold same_file; naive_solver|]).
  - left. by rewrite (Hr l eq_refl).
  - right. split; [naive_solver|eauto].
Qed.

End io_loops.
