(* ===== verification/Wal.v ===== *)
(** * The write-ahead log (src/src/recovery/wal.h, wal.cpp)

    One file of epoch frames, written in place into a region of zeroes by one
    flusher.  [Wal] is the state of the class; its methods pass the state and
    the device explicitly.  [msgpack] is a third-party library: [MsgPack] is
    its interface, [MsgPackLaws] what the log relies on.

    Not modelled: the constructor's file-system calls (directory creation,
    [open], [flock]), tracing and log lines. *)

From stdpp Require Import strings.
From S2P Require Import Prelude Crc32c Types WalDevice.

(** [msgpack::pack] into an [sbuffer]; [msgpack::unpack] followed by
    [convert], with the bytes consumed ([None]: one of them threw). *)
Class MsgPack := {
  pack : LogRecords -> bytestring;
  unpack : bytestring -> option (LogRecords * Z)
}.

Definition kMagic : Z := 0x4c57414c.
Definition kVersion : Z := 1.
Definition kFlags : Z := 0.
Definition kHeaderSize : Z := 20.
Definition kMaxPayloadSize : Z := 256 * 1024 * 1024.
Definition kDefaultCapacityBytes : Z := 64 * 1024 * 1024.
Definition kNoPreallocation : Z := 0.
Definition kProbeBudget : Z := 1024 * 1024 * 1024.

(** ** Little-endian fields *)

Definition PutLe16 (v : Z) : bytestring := [Z.land v 0xff; Z.land (Z.shiftr v 8) 0xff].

Definition PutLe32 (v : Z) : bytestring :=
  [Z.land v 0xff; Z.land (Z.shiftr v 8) 0xff; Z.land (Z.shiftr v 16) 0xff;
   Z.land (Z.shiftr v 24) 0xff].

(** The argument is the buffer from the pointer on. *)
Definition GetLe16 (l : bytestring) : Z :=
  Z.lor (nth 0 l 0) (u16 (Z.shiftl (nth 1 l 0) 8)).

Definition GetLe32 (l : bytestring) : Z :=
  Z.lor (Z.lor (Z.lor (nth 0 l 0) (u32 (Z.shiftl (nth 1 l 0) 8)))
               (u32 (Z.shiftl (nth 2 l 0) 16)))
        (u32 (Z.shiftl (nth 3 l 0) 24)).

(** The fields of a header. *)
Definition hdr_magic (h : bytestring) : Z := GetLe32 h.
Definition hdr_version (h : bytestring) : Z := GetLe16 (drop 4 h).
Definition hdr_flags (h : bytestring) : Z := GetLe16 (drop 6 h).
Definition hdr_payload_size (h : bytestring) : Z := GetLe32 (drop 8 h).
Definition hdr_epoch (h : bytestring) : Z := GetLe32 (drop 12 h).
Definition hdr_crc (h : bytestring) : Z := GetLe32 (drop 16 h).

Fixpoint matched_bytes (header expected : bytestring) : Z :=
  match header, expected with
  | h :: header', e :: expected' => if h =? e then 1 + matched_bytes header' expected' else 0
  | _, _ => 0
  end.

Definition HeaderIsTornPrefix (header : bytestring) : bool :=
  let expected := PutLe32 kMagic ++ PutLe16 kVersion ++ PutLe16 kFlags in
  let matched := matched_bytes header expected in
  if matched =? zlen expected then false
  else forallb (fun b => b =? 0) (slice matched (kHeaderSize - matched) header).

(** [Crc32c crc; crc.Update(header, 16); crc.Update(payload); crc.Finish()]. *)
Definition frame_crc (header payload : bytestring) : Z :=
  Finish (UpdateWithTable (UpdateWithTable initial_state (take 16 header)) payload).

(** ** State *)

Inductive State : Type := Unscanned | Ready | Failed.

Record Wal := mkWal {
  initial_capacity_bytes_ : Z;
  state_ : State;
  write_offset_ : Z;
  frontier_ : Z;
  initialised_size_ : Z;
  extension_count_ : Z
}.

Definition set_state (w : Wal) (s : State) : Wal :=
  mkWal (initial_capacity_bytes_ w) s (write_offset_ w) (frontier_ w)
        (initialised_size_ w) (extension_count_ w).
Definition set_initialised (w : Wal) (n : Z) : Wal :=
  mkWal (initial_capacity_bytes_ w) (state_ w) (write_offset_ w) (frontier_ w) n
        (extension_count_ w).

(** The state the constructor leaves: the file's size stands in for how far an
    earlier incarnation initialised it. *)
Definition Wal_open (initial_capacity_bytes : Z) (d : Device) : Wal :=
  mkWal initial_capacity_bytes Unscanned 0 0 (zlen (content d)) 0.

Inductive Status : Type := Ok | Corrupt_ | IoError_.

(** The messages of [WalScanResult::detail] and of the local [anomaly]. *)
Inductive Anomaly : Type :=
| EndsInHeader | MagicMismatch | UnsupportedVersion | UnknownFlags | PayloadTooLarge
| EndsInPayload | ChecksumMismatch.

Inductive Detail : Type :=
| NoDetail
| HeaderAnomaly (a : Anomaly)
| EpochRegressed | EpochZero | TrailingBytes | DoesNotDecode | NoRecord
| RecordEpochDisagrees
| DataBeyondFrame (a : Anomaly) (offset : Z)
| FrameBeyond (a : Anomaly) (offset : Z)
| TailUndecidable (a : Anomaly) (offset : Z)
| IoOperation (operation : string).

Record WalScanResult := mkScan {
  status : Status;
  frontier : Z;
  records : LogRecords;
  tail_truncated : bool;
  error_number : Z;
  detail : Detail;
  frames_skipped : Z;
  bytes_skipped : Z
}.

Definition Corrupt (w : Wal) (why : Detail) : WalScanResult * Wal :=
  (mkScan Corrupt_ 0 [] false 0 why 0 0, set_state w Failed).

Definition IoFailure (w : Wal) (operation : string) (error : Z) : WalScanResult * Wal :=
  (mkScan IoError_ 0 [] false error (IoOperation operation) 0 0, set_state w Failed).

(** ** Looking for a frame *)

Inductive Probe : Type := NoFrame | Frame | ProbeIoError (error : Z) | Undecidable.

(** The payload loop of [ProbeFrameAt]: one chunk per round. *)
Fixpoint ProbePayload (fuel : nat) (d : Device) (at_ remaining chunk crc budget : Z)
    : (Probe + Z) * Z * Device :=
  match fuel with
  | O => (inr crc, budget, d)
  | S f =>
      if remaining =? 0 then (inr crc, budget, d) else
      let size := Z.min chunk remaining in
      if kProbeBudget <? budget + size then (inl Undecidable, budget, d) else
      match PreadAll d size at_ with
      | (inr e, d) => (inl (ProbeIoError e), budget, d)
      | (inl bytes, d) =>
          ProbePayload f d (at_ + size) (remaining - size) chunk
            (UpdateWithTable crc bytes) (budget + size)
      end
  end.

Definition ProbeFrameAt (d : Device) (offset file_size io_budget : Z) : Probe * Z * Device :=
  if file_size - offset <? kHeaderSize then (NoFrame, io_budget, d) else
  if kProbeBudget <? io_budget + kHeaderSize then (Undecidable, io_budget, d) else
  match PreadAll d kHeaderSize offset with
  | (inr e, d) => (ProbeIoError e, io_budget, d)
  | (inl header, d) =>
      let io_budget := io_budget + kHeaderSize in
      if negb (hdr_magic header =? kMagic) then (NoFrame, io_budget, d) else
      if negb (hdr_version header =? kVersion) then (NoFrame, io_budget, d) else
      if negb (hdr_flags header =? kFlags) then (NoFrame, io_budget, d) else
      if hdr_epoch header =? 0 then (NoFrame, io_budget, d) else
      let payload_size := hdr_payload_size header in
      if (payload_size =? 0) || (kMaxPayloadSize <? payload_size) then (NoFrame, io_budget, d) else
      let frame_end := offset + kHeaderSize + payload_size in
      if file_size <? frame_end then (NoFrame, io_budget, d) else
      let crc := UpdateWithTable initial_state (take 16 header) in
      let chunk := Z.min kChunkSize payload_size in
      match ProbePayload (S (Z.to_nat (payload_size / chunk))) d (offset + kHeaderSize)
              payload_size chunk crc io_budget with
      | (inl p, budget, d) => (p, budget, d)
      | (inr crc, budget, d) =>
          (if Finish crc =? hdr_crc header then Frame else NoFrame, budget, d)
      end
  end.

Definition kOverlap : Z := 3.

(** The inner [for] of [SearchForFrameAfter]: [l] is the chunk from index [i]
    on, [pos] is [at + i]. *)
Fixpoint SearchChunk (d : Device) (l : bytestring) (pos file_size budget : Z)
    : Probe * Z * Device :=
  match l with
  | _ :: ((_ :: _ :: _ :: _) as l') =>
      if negb (GetLe32 l =? kMagic) then SearchChunk d l' (pos + 1) file_size budget
      else match ProbeFrameAt d pos file_size budget with
           | (NoFrame, budget, d) => SearchChunk d l' (pos + 1) file_size budget
           | other => other
           end
  | _ => (NoFrame, budget, d)
  end.

Fixpoint SearchChunks (fuel : nat) (d : Device) (at_ search_end file_size budget : Z)
    : Probe * Device :=
  match fuel with
  | O => (NoFrame, d)
  | S f =>
      if negb (at_ <? search_end) then (NoFrame, d) else
      let size := Z.min kChunkSize (search_end - at_) in
      if kProbeBudget <? budget + size then (Undecidable, d) else
      match PreadAll d size at_ with
      | (inr e, d) => (ProbeIoError e, d)
      | (inl chunk, d) =>
          let budget := budget + size in
          match SearchChunk d chunk at_ file_size budget with
          | (NoFrame, budget, d) =>
              if size <=? kOverlap then (NoFrame, d)
              else SearchChunks f d (at_ + (size - kOverlap)) search_end file_size budget
          | (probe, _, d) => (probe, d)
          end
      end
  end.

(** A round advances by at least one byte. *)
Definition SearchForFrameAfter (d : Device) (offset search_end file_size : Z)
    : Probe * Device :=
  SearchChunks (S (Z.to_nat (search_end - offset))) d (offset + 1) search_end file_size 0.

(** The last index of a non-zero byte of a chunk. *)
Fixpoint last_non_zero_index (l : bytestring) (i : Z) : option Z :=
  match l with
  | [] => None
  | b :: l' =>
      match last_non_zero_index l' (i + 1) with
      | Some j => Some j
      | None => if b =? 0 then None else Some i
      end
  end.

Fixpoint FindLastNonZero_chunks (fuel : nat) (d : Device) (at_ to last_non_zero : Z)
    : (Z + Z) * Device :=
  match fuel with
  | O => (inl last_non_zero, d)
  | S f =>
      if negb (at_ <? to) then (inl last_non_zero, d) else
      let size := Z.min kChunkSize (to - at_) in
      match PreadAll d size at_ with
      | (inr e, d) => (inr e, d)
      | (inl chunk, d) =>
          FindLastNonZero_chunks f d (at_ + kChunkSize) to
            (match last_non_zero_index chunk at_ with Some j => j | None => last_non_zero end)
      end
  end.

(** [inl]: the offset reported; [inr]: the error. *)
Definition FindLastNonZero (d : Device) (from to : Z) : (Z + Z) * Device :=
  FindLastNonZero_chunks (S (Z.to_nat ((to - from) / kChunkSize))) d from to (from - 1).

(** ** Capacity *)

Definition EnsureCapacityFor (w : Wal) (d : Device) (end_of_log group_size : Z)
    : ioerror * Wal * Device :=
  let limit := OFF_T_MAX in
  if u64 (limit - end_of_log) <? group_size then (Some EFBIG, w, d) else
  if initial_capacity_bytes_ w =? kNoPreallocation then (None, w, d) else
  let needed := u64 (end_of_log + group_size) in
  if (needed <=? initialised_size_ w) && (initial_capacity_bytes_ w <=? initialised_size_ w)
  then (None, w, d) else
  let units := Z.max 1 (needed / initial_capacity_bytes_ w +
                        (if negb (needed mod initial_capacity_bytes_ w =? 0) then 1 else 0)) in
  if limit / initial_capacity_bytes_ w <? units then (Some EFBIG, w, d) else
  let target := u64 (units * initial_capacity_bytes_ w) in
  if target <=? initialised_size_ w then (None, w, d) else
  match WriteZeroesAndSync d (initialised_size_ w) target with
  | (Some e, d) => (Some e, w, d)
  | (None, d) => (None, set_initialised w target, d)
  end.

Definition FinishScan (w : Wal) (d : Device) (result : WalScanResult) (end_of_log : Z)
    : WalScanResult * Wal * Device :=
  match EnsureCapacityFor w d end_of_log 0 with
  | (Some e, w, d) => (IoFailure w "initialise the capacity" e, d)
  | (None, w, d) =>
      (result, mkWal (initial_capacity_bytes_ w) Ready end_of_log (frontier result)
                 (initialised_size_ w) (extension_count_ w), d)
  end.

(** ** Hopping over covered frames *)

Record Hop := mkHop {
  hop_offset : Z;
  hop_frontier : Z;
  hop_have_frame : bool;
  hop_frames_skipped : Z;
  hop_bytes_skipped : Z;
  (** [guard_offset], [guard_payload_size] and [guard_header] once
      [guard_pending] is set *)
  hop_guard : option (Z * Z * bytestring)
}.

(** [inr e]: [HopCoveredFrames] returned false with [*error = e]. *)
Fixpoint Hop_loop (fuel : nat) (d : Device) (min_epoch file_size : Z) (h : Hop)
    : (Hop + Z) * Device :=
  match fuel with
  | O => (inl h, d)
  | S f =>
      let at_ := hop_offset h in
      if negb (at_ <? file_size) then (inl h, d) else
      if file_size - at_ <? kHeaderSize then (inr 0, d) else
      match PreadAll d kHeaderSize at_ with
      | (inr e, d) => (inr e, d)
      | (inl header, d) =>
          let payload_size := hdr_payload_size header in
          let epoch := hdr_epoch header in
          if negb (hdr_magic header =? kMagic) || negb (hdr_version header =? kVersion) ||
             negb (hdr_flags header =? kFlags) || (kMaxPayloadSize <? payload_size)
          then if HeaderIsTornPrefix header then (inl h, d) else (inr 0, d)
          else
          let frame_end := at_ + kHeaderSize + payload_size in
          if file_size <? frame_end then (inr 0, d) else
          if hop_have_frame h && (epoch <? hop_frontier h) then (inr 0, d) else
          if epoch =? 0 then (inr 0, d) else
          if min_epoch <? epoch then (inl h, d) else
          Hop_loop f d min_epoch file_size
            (mkHop frame_end epoch true (hop_frames_skipped h + 1)
               (hop_bytes_skipped h + (kHeaderSize + payload_size))
               (Some (at_, payload_size, header)))
      end
  end.

(** A frame is at least a header long, which bounds the rounds. *)
Definition frame_fuel (file_size : Z) : nat := S (Z.to_nat (file_size / kHeaderSize)).

Definition HopCoveredFrames (d : Device) (min_epoch file_size : Z) : (Hop + Z) * Device :=
  Hop_loop (frame_fuel file_size) d min_epoch file_size (mkHop 0 0 false 0 0 None).

(** ** Scanning *)

Record Scan := mkScanLocals {
  sc_records : LogRecords;
  sc_frontier : Z;
  sc_have_frame : bool;
  sc_frames_skipped : Z;
  sc_bytes_skipped : Z;
  sc_offset : Z
}.

Definition scan_start : Scan := mkScanLocals [] 0 false 0 0 0.

(** How the main loop ends: with a [return], or by leaving the loop with
    [anomaly] and [checksum_broken_frame_end]. *)
Inductive ScanExit : Type :=
| ScanReturns (r : WalScanResult * Wal)
| ScanLeaves (s : Scan) (anomaly : option Anomaly) (checksum_broken_frame_end : Z).

Definition header_anomaly (header : bytestring) : option Anomaly :=
  if negb (hdr_magic header =? kMagic) then Some MagicMismatch
  else if negb (hdr_version header =? kVersion) then Some UnsupportedVersion
  else if negb (hdr_flags header =? kFlags) then Some UnknownFlags
  else if kMaxPayloadSize <? hdr_payload_size header then Some PayloadTooLarge
  else None.

(** [::fstat]: it has no interrupted outcome. *)
Definition fstat (d : Device) : (Z + Z) * Device :=
  match oracle d with
  | IoFailed e :: orc =>
      (if e =? EINTR then inl (zlen (content d)) else inr e,
       mkDevice (content d) (durable d) orc)
  | _ :: orc => (inl (zlen (content d)), mkDevice (content d) (durable d) orc)
  | [] => (inl (zlen (content d)), d)
  end.

Section operations.
Context {MP : MsgPack}.

(** What the scan makes of a checksummed payload above [min_epoch]. *)
Definition DecodePayload (epoch : Z) (payload : bytestring) : LogRecords + Detail :=
  match unpack payload with
  | None => inr DoesNotDecode
  | Some (decoded, consumed) =>
      if negb (consumed =? zlen payload) then inr TrailingBytes
      else match decoded with
           | [] => inr NoRecord
           | _ :: _ =>
               if forallb (fun r => LogRecord.epoch r =? epoch) decoded
               then inl decoded else inr RecordEpochDisagrees
           end
  end.

Fixpoint Scan_loop (fuel : nat) (w : Wal) (d : Device) (min_epoch file_size : Z) (s : Scan)
    : ScanExit * Device :=
  match fuel with
  | O => (ScanLeaves s None (-1), d)
  | S f =>
      let offset := sc_offset s in
      if negb (offset <? file_size) then (ScanLeaves s None (-1), d) else
      if file_size - offset <? kHeaderSize then (ScanLeaves s (Some EndsInHeader) (-1), d) else
      match PreadAll d kHeaderSize offset with
      | (inr e, d) => (ScanReturns (IoFailure w "pread header" e), d)
      | (inl header, d) =>
          let payload_size := hdr_payload_size header in
          let epoch := hdr_epoch header in
          let stored_crc := hdr_crc header in
          match header_anomaly header with
          | Some a =>
              if HeaderIsTornPrefix header then (ScanLeaves s (Some a) (-1), d)
              else (ScanReturns (Corrupt w (HeaderAnomaly a)), d)
          | None =>
              let frame_end := offset + kHeaderSize + payload_size in
              if file_size <? frame_end then (ScanLeaves s (Some EndsInPayload) (-1), d) else
              match PreadAll d payload_size (offset + kHeaderSize) with
              | (inr e, d) => (ScanReturns (IoFailure w "pread payload" e), d)
              | (inl payload, d) =>
                  if negb (frame_crc header payload =? stored_crc)
                  then (ScanLeaves s (Some ChecksumMismatch) frame_end, d)
                  else if sc_have_frame s && (epoch <? sc_frontier s)
                  then (ScanReturns (Corrupt w EpochRegressed), d)
                  else if epoch =? 0 then (ScanReturns (Corrupt w EpochZero), d)
                  else if epoch <=? min_epoch
                  then Scan_loop f w d min_epoch file_size
                         (mkScanLocals (sc_records s) epoch true (sc_frames_skipped s + 1)
                            (sc_bytes_skipped s + (kHeaderSize + payload_size)) frame_end)
                  else match DecodePayload epoch payload with
                       | inr why => (ScanReturns (Corrupt w why), d)
                       | inl decoded =>
                           Scan_loop f w d min_epoch file_size
                             (mkScanLocals (sc_records s ++ decoded) epoch true
                                (sc_frames_skipped s) (sc_bytes_skipped s) frame_end)
                       end
              end
          end
      end
  end.

(** The hop that precedes the loop when [min_epoch != 0], with its fallback to
    a full scan from offset 0. *)
Definition ScanStart (w : Wal) (d : Device) (min_epoch file_size : Z)
    : (Scan + WalScanResult * Wal) * Device :=
  if min_epoch =? 0 then (inl scan_start, d) else
  match HopCoveredFrames d min_epoch file_size with
  | (inr e, d) =>
      if negb (e =? 0) then (inr (IoFailure w "pread header" e), d) else (inl scan_start, d)
  | (inl h, d) =>
      let hopped := mkScanLocals [] (hop_frontier h) (hop_have_frame h)
                      (hop_frames_skipped h) (hop_bytes_skipped h) (hop_offset h) in
      match hop_guard h with
      | None => (inl hopped, d)
      | Some (guard_offset, guard_payload_size, guard_header) =>
          match PreadAll d guard_payload_size (guard_offset + kHeaderSize) with
          | (inr e, d) => (inr (IoFailure w "pread payload" e), d)
          | (inl payload, d) =>
              if negb (frame_crc guard_header payload =? hdr_crc guard_header)
              then (inl scan_start, d) else (inl hopped, d)
          end
      end
  end.

(** What follows the main loop: settling whether the bytes at [offset] end the
    log, and zeroing them when they do. *)
Definition RepairTail (w : Wal) (d : Device) (file_size : Z) (s : Scan)
    (anomaly : option Anomaly) (checksum_broken_frame_end : Z) : WalScanResult * Wal * Device :=
  let offset := sc_offset s in
  let result truncated :=
    mkScan Ok (sc_frontier s) (sc_records s) truncated 0 NoDetail
      (sc_frames_skipped s) (sc_bytes_skipped s) in
  match anomaly with
  | None => FinishScan w d (result false) offset
  | Some a =>
      match FindLastNonZero d offset file_size with
      | (inr e, d) => (IoFailure w "pread the tail" e, d)
      | (inl last_non_zero, d) =>
          if last_non_zero <? offset then FinishScan w d (result false) offset else
          if (0 <=? checksum_broken_frame_end) && (checksum_broken_frame_end <=? last_non_zero)
          then (Corrupt w (DataBeyondFrame a offset), d) else
          match SearchForFrameAfter d offset (last_non_zero + 1) file_size with
          | (Frame, d) => (Corrupt w (FrameBeyond a offset), d)
          | (Undecidable, d) => (Corrupt w (TailUndecidable a offset), d)
          | (ProbeIoError e, d) => (IoFailure w "pread past the tail" e, d)
          | (NoFrame, d) =>
              match WriteZeroesAndSync d offset (last_non_zero + 1) with
              | (Some e, d) => (IoFailure w "zero the tail" e, d)
              | (None, d) => FinishScan w d (result true) offset
              end
          end
      end
  end.

Definition ScanAndRepair (w : Wal) (d : Device) (min_epoch : Z) : WalScanResult * Wal * Device :=
  match state_ w with
  | Failed => (IoFailure w "scan after a failure" EIO, d)
  | _ =>
      match fstat d with
      | (inr e, d) => (IoFailure w "fstat" e, d)
      | (inl file_size, d) =>
          let w := set_initialised w (Z.max (initialised_size_ w) file_size) in
          match ScanStart w d min_epoch file_size with
          | (inr r, d) => (r, d)
          | (inl s, d) =>
              match Scan_loop (frame_fuel file_size) w d min_epoch file_size s with
              | (ScanReturns r, d) => (r, d)
              | (ScanLeaves s anomaly broken_end, d) =>
                  RepairTail w d file_size s anomaly broken_end
              end
          end
      end
  end.

(** ** Appending *)

(** One frame as [AppendGroup] lays it out. *)
Definition EncodeFrame (epoch : Z) (payload : bytestring) : bytestring :=
  let header := PutLe32 kMagic ++ PutLe16 kVersion ++ PutLe16 kFlags ++
                PutLe32 (u32 (zlen payload)) ++ PutLe32 epoch in
  header ++ PutLe32 (frame_crc header payload) ++ payload.

(** The loop over the buckets, a [std::map] iterated in key order. *)
Fixpoint EncodeGroup (frontier target : Z) (buckets : list (Z * LogRecords))
    (group : bytestring) (last_encoded : Z) : (bytestring * Z) + Z :=
  match buckets with
  | [] => inl (group, last_encoded)
  | (epoch, records) :: rest =>
      if target <? epoch then inl (group, last_encoded) else
      if (match records with [] => true | _ => false end) || (epoch =? 0) then inr EINVAL else
      if epoch <? frontier then inr EINVAL else
      if negb (forallb (fun r => LogRecord.epoch r =? epoch) records) then inr EINVAL else
      let payload := pack records in
      if (kMaxPayloadSize <? zlen payload) || (UINT32_MAX <? zlen payload) then inr EOVERFLOW else
      EncodeGroup frontier target rest (group ++ EncodeFrame epoch payload) epoch
  end.

(** [WalAppendResult]: [None] is [{true, 0}], [Some e] is [{false, e}]. *)
Definition WriteGroup (w : Wal) (d : Device) (group : bytestring) (last_encoded : Z)
    : ioerror * Wal * Device :=
  let initialised_before := initialised_size_ w in
  match EnsureCapacityFor w d (write_offset_ w) (zlen group) with
  | (Some e, w, d) => (Some e, set_state w Failed, d)
  | (None, w, d) =>
      let extension_count :=
        if initialised_size_ w =? initialised_before then extension_count_ w
        else extension_count_ w + 1 in
      let w := mkWal (initial_capacity_bytes_ w) (state_ w) (write_offset_ w)
                 (frontier_ w) (initialised_size_ w) extension_count in
      match WriteAllAt d group (write_offset_ w) with
      | (Some e, d) => (Some e, set_state w Failed, d)
      | (None, d) =>
          match Fsync d with
          | (Some e, d) => (Some e, set_state w Failed, d)
          | (None, d) =>
              let write_offset := write_offset_ w + zlen group in
              (None, mkWal (initial_capacity_bytes_ w) (state_ w) write_offset
                       last_encoded (Z.max (initialised_size_ w) write_offset)
                       (extension_count_ w), d)
          end
      end
  end.

(** The outer option is [None] when the process aborts. *)
Definition AppendGroup (w : Wal) (d : Device) (buckets : list (Z * LogRecords)) (target : Z)
    : option (ioerror * Wal * Device) :=
  match state_ w with
  | Ready => Some (
      match EncodeGroup (frontier_ w) target buckets [] (frontier_ w) with
      | inr e => (Some e, w, d)
      | inl ([], _) => (None, w, d)
      | inl (group, last_encoded) => WriteGroup w d group last_encoded
      end)
  | _ => None
  end.

End operations.
