(* ===== verification/WalFrames.v ===== *)
(** * Frames of the write-ahead log: layout and parsing

    Lemmas on [EncodeFrame] and on the header fields the scan reads back, and
    the abstract view of a log: a list of frames, each an epoch with its
    records ([log_bytes], [log_records], [log_frontier]). *)

From S2P Require Import Prelude Crc32c Types WalDevice Wal.

(** What the log relies on in [msgpack]: packing yields at least the array
    header, and unpacking what was packed gives the records back and consumes
    every byte. *)
Class MsgPackLaws {MP : MsgPack} : Prop := {
  pack_bytes_ok rs : Forall LogRecord.ok rs -> bytes_ok (pack rs);
  pack_nonempty rs : 0 < zlen (pack rs);
  unpack_pack rs : Forall LogRecord.ok rs -> unpack (pack rs) = Some (rs, zlen (pack rs))
}.

(** An encoding with these laws, one byte per bit of the records' code. *)
Fixpoint bits_of (p : positive) : bytestring :=
  match p with
  | xH => [2]
  | xO p' => 0 :: bits_of p'
  | xI p' => 1 :: bits_of p'
  end.

Fixpoint of_bits (l : bytestring) : option positive :=
  match l with
  | [] => None
  | b :: l' =>
      if b =? 0 then xO <$> of_bits l'
      else if b =? 1 then xI <$> of_bits l'
      else match l' with [] => Some xH | _ :: _ => None end
  end.

Definition bits_msgpack : MsgPack := {|
  pack rs := bits_of (encode rs);
  unpack l := p ← of_bits l; rs ← decode p; Some (rs, zlen l)
|}.

Lemma of_bits_bits p : of_bits (bits_of p) = Some p.
Proof. induction p as [p IH|p IH|]; cbn; [by rewrite IH..|done]. Qed.

Lemma bits_of_ok p : bytes_ok (bits_of p) ∧ 0 < zlen (bits_of p).
Proof.
  induction p as [p [IH1 IH2]|p [IH1 IH2]|]; cbn [bits_of]; rewrite ?zlen_cons;
    (split; [|zl]); constructor; try done; unfold is_u8; lia.
Qed.

Lemma bits_msgpack_laws : @MsgPackLaws bits_msgpack.
Proof.
  split; cbn.
  - intros rs _. apply bits_of_ok.
  - intros rs. apply bits_of_ok.
  - intros rs _. rewrite of_bits_bits. cbn. by rewrite decode_encode.
Qed.

(** ** Fields *)

Lemma land_ff v : Z.land v 0xff = v mod 256.
Proof. change 0xff with (Z.ones 8). by rewrite Z.land_ones. Qed.

Lemma PutLe16_bytes v : 0 <= v -> PutLe16 v = le_bytes 2 v.
Proof.
  intros. unfold PutLe16. cbn [le_bytes]. rewrite !land_ff, Z.shiftr_div_pow2 by lia. done.
Qed.

Lemma PutLe32_bytes v : 0 <= v -> PutLe32 v = le_bytes 4 v.
Proof.
  intros. unfold PutLe32. cbn [le_bytes]. rewrite !land_ff, !Z.shiftr_div_pow2 by lia.
  rewrite !Z.div_div by lia. done.
Qed.

Lemma GetLe16_value a b l :
  is_u8 a -> is_u8 b -> GetLe16 (a :: b :: l) = le_value [a; b].
Proof.
  unfold is_u8, GetLe16. intros Ha Hb. cbn [nth le_value].
  rewrite Z.shiftl_mul_pow2 by lia. unfold u16. rewrite Z.mod_small by lia.
  rewrite lor_mul_add by lia. lia.
Qed.

Lemma GetLe32_value a b c e l :
  is_u8 a -> is_u8 b -> is_u8 c -> is_u8 e ->
  GetLe32 (a :: b :: c :: e :: l) = le_value [a; b; c; e].
Proof.
  unfold is_u8, GetLe32. intros Ha Hb Hc He. cbn [nth le_value].
  rewrite !Z.shiftl_mul_pow2, !u32_small by (unfold is_u32; lia).
  rewrite (lor_mul_add a), (lor_mul_add (a + _)), (lor_mul_add (a + _ + _)) by lia. lia.
Qed.

Lemma GetLe16_Put v l : 0 <= v < 2 ^ 16 -> GetLe16 (PutLe16 v ++ l) = v.
Proof.
  intros Hv. rewrite PutLe16_bytes by lia. rewrite <- (le_value_bytes 2 v) at 2 by (cbn; lia).
  pose proof (le_bytes_ok 2 v) as Hok. cbn [le_bytes app] in *.
  inversion_clear Hok as [|?? ? Hok']. inversion_clear Hok'. by apply GetLe16_value.
Qed.

Lemma GetLe32_Put v l : is_u32 v -> GetLe32 (PutLe32 v ++ l) = v.
Proof.
  unfold is_u32. intros Hv. rewrite PutLe32_bytes by lia.
  rewrite <- (le_value_bytes 4 v) at 2 by (cbn; lia).
  pose proof (le_bytes_ok 4 v) as Hok. cbn [le_bytes app] in *.
  unfold bytes_ok in Hok. rewrite !Forall_cons in Hok. destruct Hok as (? & ? & ? & ? & _).
  by apply GetLe32_value.
Qed.

Lemma zlen_PutLe16 v : zlen (PutLe16 v) = 2.
Proof. done. Qed.
Lemma zlen_PutLe32 v : zlen (PutLe32 v) = 4.
Proof. done. Qed.
#[export] Hint Rewrite zlen_PutLe16 zlen_PutLe32 : zlen.

Lemma PutLe32_ok v : 0 <= v -> bytes_ok (PutLe32 v).
Proof. intros. rewrite PutLe32_bytes by done. apply le_bytes_ok. Qed.
Lemma PutLe16_ok v : 0 <= v -> bytes_ok (PutLe16 v).
Proof. intros. rewrite PutLe16_bytes by done. apply le_bytes_ok. Qed.

(** ** Checksums of frames *)

Lemma frame_crc_u32 header payload :
  bytes_ok header -> bytes_ok payload -> is_u32 (frame_crc header payload).
Proof.
  intros Hh Hp. unfold frame_crc, Finish.
  assert (bytes_ok (take 16 header)) by by apply Forall_take.
  assert (is_u32 (UpdateWithTable initial_state (take 16 header))) as Hs.
  { rewrite UpdateWithTable_register; auto with lineair. }
  rewrite (UpdateWithTable_register payload) by done.
  pose proof (crc_register_u32 payload _ Hs Hp). unfold is_u32 in *. apply lxor_bound; lia.
Qed.

Lemma frame_crc_eq header payload :
  Finish (UpdateWithTable (UpdateWithTable initial_state (take 16 header)) payload) =
  frame_crc header payload.
Proof. reflexivity. Qed.

(** The checksum looks at the first sixteen bytes only. *)
Lemma frame_crc_prefix header rest payload :
  zlen header = 16 -> frame_crc (header ++ rest) payload = frame_crc header payload.
Proof.
  intros Hl. unfold frame_crc. unfold zlen in Hl.
  rewrite take_app_le, !take_ge by lia. done.
Qed.

(** ** The header of a frame *)

(** The sixteen bytes the checksum covers. *)
Definition header16 (epoch : Z) (payload : bytestring) : bytestring :=
  PutLe32 kMagic ++ PutLe16 kVersion ++ PutLe16 kFlags ++
  PutLe32 (u32 (zlen payload)) ++ PutLe32 epoch.

(** The whole header. *)
Definition header20 (epoch : Z) (payload : bytestring) : bytestring :=
  header16 epoch payload ++ PutLe32 (frame_crc (header16 epoch payload) payload).

Lemma EncodeFrame_split epoch payload :
  EncodeFrame epoch payload = header20 epoch payload ++ payload.
Proof. unfold EncodeFrame, header20. by rewrite <- app_assoc. Qed.

Lemma zlen_header20 epoch payload : zlen (header20 epoch payload) = kHeaderSize.
Proof. done. Qed.

Lemma zlen_EncodeFrame epoch payload :
  zlen (EncodeFrame epoch payload) = kHeaderSize + zlen payload.
Proof. rewrite EncodeFrame_split, zlen_app, zlen_header20. done. Qed.

(** Reading the two parts of a frame. *)
Lemma frame_slices epoch payload pre post :
  slice (zlen pre) kHeaderSize (pre ++ EncodeFrame epoch payload ++ post) =
    header20 epoch payload ∧
  slice (zlen pre + kHeaderSize) (zlen payload) (pre ++ EncodeFrame epoch payload ++ post) =
    payload.
Proof.
  rewrite EncodeFrame_split, <- app_assoc. split.
  - rewrite <- (zlen_header20 epoch payload). apply slice_mid.
  - rewrite <- (zlen_header20 epoch payload), <- zlen_app, app_assoc. apply slice_mid.
Qed.

Lemma GetLe32_nonneg l : bytes_ok l -> 0 <= GetLe32 l.
Proof.
  intros Hl. assert (∀ i, 0 <= nth i l 0) as Hn.
  { intros i. destruct (nth_in_or_default i l 0) as [Hi|Hi]; [|rewrite Hi; lia].
    apply list_elem_of_In in Hi. unfold bytes_ok in Hl. rewrite Forall_forall in Hl.
    destruct (Hl _ Hi). done. }
  unfold GetLe32, u32. rewrite !Z.lor_nonneg. repeat split; try apply Hn;
    apply Z.mod_pos_bound; lia.
Qed.

Lemma hdr_payload_size_nonneg h : bytes_ok h -> 0 <= hdr_payload_size h.
Proof. intros Hh. apply GetLe32_nonneg. by apply Forall_drop. Qed.

Lemma bytes_ok_slice from len l : bytes_ok l -> bytes_ok (slice from len l).
Proof. intros Hl. by apply Forall_take, Forall_drop. Qed.
#[export] Hint Resolve hdr_payload_size_nonneg bytes_ok_slice : lineair.

Section header_fields.
Context (epoch : Z) (payload : bytestring).
Context (Hepoch : is_u32 epoch) (Hsize : zlen payload <= kMaxPayloadSize)
  (Hok : bytes_ok payload).

Lemma header16_ok : bytes_ok (header16 epoch payload).
Proof.
  unfold header16. pose proof (u32_is_u32 (zlen payload)). unfold is_u32 in *.
  repeat (apply Forall_app; split);
    (apply PutLe32_ok || apply PutLe16_ok); unfold kMagic, kVersion, kFlags; lia.
Qed.

Lemma stored_crc_u32 : is_u32 (frame_crc (header16 epoch payload) payload).
Proof. apply frame_crc_u32; [apply header16_ok|done]. Qed.

Lemma EncodeFrame_ok : bytes_ok (EncodeFrame epoch payload).
Proof.
  rewrite EncodeFrame_split. unfold header20.
  apply Forall_app. split; [|done].
  apply Forall_app. split; [apply header16_ok|apply PutLe32_ok, stored_crc_u32].
Qed.

Lemma hdr_fields :
  let h := header20 epoch payload in
  hdr_magic h = kMagic ∧ hdr_version h = kVersion ∧ hdr_flags h = kFlags ∧
  hdr_payload_size h = zlen payload ∧ hdr_epoch h = epoch ∧
  hdr_crc h = frame_crc h payload.
Proof.
  assert (u32 (zlen payload) = zlen payload) as Hu.
  { apply u32_small. unfold is_u32, kMaxPayloadSize in *. zl. }
  pose proof stored_crc_u32 as Hcrc.
  assert (is_u32 (zlen payload)) as Hz by (rewrite <- Hu; apply u32_is_u32).
  intros h. assert (frame_crc h payload = frame_crc (header16 epoch payload) payload) as ->
    by by apply frame_crc_prefix.
  unfold h, header20. set (crc := frame_crc _ _) in *. clearbody crc.
  unfold header16. rewrite Hu, <- !app_assoc.
  split; [|split; [|split; [|split; [|split]]]].
  - by apply GetLe32_Put.
  - by apply (GetLe16_Put kVersion).
  - by apply (GetLe16_Put kFlags).
  - by apply (GetLe32_Put (zlen payload)).
  - by apply (GetLe32_Put epoch).
  - by apply (GetLe32_Put crc []).
Qed.

Lemma header_anomaly_none : header_anomaly (header20 epoch payload) = None.
Proof.
  unfold header_anomaly. destruct hdr_fields as (H1 & H2 & H3 & H4 & _). rewrite H1, H2, H3, H4.
  rewrite !Z.eqb_refl. simpl. zcase. done.
Qed.

End header_fields.

(** ** Accepted bytes are encoded frames *)

Lemma PutLe32_Get l : bytes_ok l -> (4 <= length l)%nat -> PutLe32 (GetLe32 l) = take 4 l.
Proof.
  intros Hl Hn. rewrite PutLe32_bytes by by apply GetLe32_nonneg.
  destruct l as [|a [|b [|c [|e l]]]]; cbn in Hn; try lia.
  pose proof (Forall_take is_u8 4 _ Hl) as Hab. change (bytes_ok [a; b; c; e]) in Hab.
  unfold bytes_ok in Hl. rewrite !Forall_cons in Hl. destruct Hl as (? & ? & ? & ? & _).
  rewrite GetLe32_value by done. by apply (le_bytes_value [a; b; c; e]).
Qed.

Lemma GetLe32_u32 l : bytes_ok l -> (4 <= length l)%nat -> is_u32 (GetLe32 l).
Proof.
  intros Hl Hn. destruct l as [|a [|b [|c [|e l]]]]; cbn in Hn; try lia.
  pose proof (Forall_take is_u8 4 _ Hl) as Hab. change (bytes_ok [a; b; c; e]) in Hab.
  unfold bytes_ok in Hl. rewrite !Forall_cons in Hl. destruct Hl as (? & ? & ? & ? & _).
  rewrite GetLe32_value by done. exact (le_value_bound _ Hab).
Qed.

Lemma PutLe16_Get l : bytes_ok l -> (2 <= length l)%nat -> PutLe16 (GetLe16 l) = take 2 l.
Proof.
  intros Hl Hn. destruct l as [|a [|b l]]; cbn in Hn; try lia.
  pose proof (Forall_take is_u8 2 _ Hl) as Hab. change (bytes_ok [a; b]) in Hab.
  unfold bytes_ok in Hl. rewrite !Forall_cons in Hl. destruct Hl as (? & ? & _).
  rewrite GetLe16_value by done. rewrite PutLe16_bytes by apply (le_value_bound _ Hab).
  by apply (le_bytes_value [a; b]).
Qed.

(** A header and a payload that pass the scan's checks are what [AppendGroup]
    would have written for that epoch and payload. *)
Lemma accepted_is_encoded header payload :
  bytes_ok header -> zlen header = kHeaderSize -> header_anomaly header = None ->
  hdr_payload_size header = zlen payload -> frame_crc header payload = hdr_crc header ->
  header ++ payload = EncodeFrame (hdr_epoch header) payload.
Proof.
  intros Hok Hlen Han Hsz Hcrc. unfold zlen, kHeaderSize in Hlen.
  assert (hdr_magic header = kMagic ∧ hdr_version header = kVersion ∧ hdr_flags header = kFlags)
    as (Hm & Hv & Hf).
  { unfold header_anomaly in Han.
    destruct (Z.eqb_spec (hdr_magic header) kMagic); [|done].
    destruct (Z.eqb_spec (hdr_version header) kVersion); [|done].
    by destruct (Z.eqb_spec (hdr_flags header) kFlags). }
  assert (u32 (zlen payload) = zlen payload) as Hu.
  { apply u32_small. unfold header_anomaly in Han. rewrite Hm, Hv, Hf, !Z.eqb_refl, Hsz in Han.
    cbn in Han. revert Han. zcase; [done|]. unfold is_u32, kMaxPayloadSize in *. zl. }
  assert (∀ k, bytes_ok (drop k header)) as Hd by (intros k; by apply Forall_drop).
  assert (header16 (hdr_epoch header) payload = take 16 header) as H16.
  { unfold header16. rewrite Hu, <- Hm, <- Hv, <- Hf, <- Hsz.
    unfold hdr_magic, hdr_version, hdr_flags, hdr_payload_size, hdr_epoch.
    rewrite !PutLe32_Get, !PutLe16_Get by (done || rewrite ?length_drop; lia).
    do 20 (destruct header as [|? header]; [done|]). done. }
  rewrite EncodeFrame_split. unfold header20. rewrite H16. f_equal.
  rewrite <- (frame_crc_prefix (take 16 header) (drop 16 header)), take_drop
    by (unfold zlen; rewrite length_take; lia).
  rewrite Hcrc. unfold hdr_crc. rewrite PutLe32_Get by (done || rewrite length_drop; lia).
  rewrite (take_ge (drop 16 header)) by (rewrite length_drop; lia). by rewrite take_drop.
Qed.
