(* ===== verification/WalTail.v ===== *)
(** * The tail of the log: capacity, trailing zeroes and the search for a frame

    Lemmas on [EnsureCapacityFor], [FindLastNonZero], [ProbeFrameAt] and
    [SearchForFrameAfter]: the file grows by zeroes only, the last non-zero
    byte is found, and a search that reports no frame has looked at every
    position of its range. *)

From S2P Require Import Prelude Crc32c Types WalDevice Wal WalFrames.

#[local] Opaque frame_crc.

(** ** Capacity *)

(** The size [EnsureCapacityFor] initialises the file to: a multiple of the
    capacity that holds [needed] bytes. *)
Definition capacity_target (capacity needed : Z) : Z :=
  Z.max 1 (needed / capacity + (if negb (needed mod capacity =? 0) then 1 else 0)) * capacity.

Lemma capacity_target_bounds capacity needed :
  0 < capacity -> 0 <= needed ->
  needed <= capacity_target capacity needed ∧ capacity <= capacity_target capacity needed ∧
  capacity_target capacity needed <= needed + capacity.
Proof.
  intros Hc Hn. unfold capacity_target.
  pose proof (Z.div_mod needed capacity) as Hdm. pose proof (Z.mod_pos_bound needed capacity Hc).
  set (q := needed / capacity) in *. set (m := needed mod capacity) in *.
  assert (0 <= q) by (apply Z.div_pos; lia).
  destruct (Z.eqb_spec m 0) as [Hm|Hm]; cbn [negb].
  - destruct (Z.max_spec 1 (q + 0)) as [[? ->]|[? ->]]; nia.
  - rewrite Z.max_r by lia. nia.
Qed.

(** The outcome of [EnsureCapacityFor] for [needed] bytes on a file as long as
    the log believes: it appends zeroes, enough of them when it reports
    success, and then the file is durable. *)
Definition capacity_ensured (w : Wal) (d : Device) (needed : Z)
    (r : ioerror * Wal * Device) : Prop :=
  let '(e, w', d') := r in
  (∃ n, 0 <= n ∧ content d' = content d ++ zeroes n ∧
        zlen (content d') <= Z.max (zlen (content d)) OFF_T_MAX) ∧
  durable d' ∈ [durable d; content d'] ∧
  match e with
  | None => w' = set_initialised w (zlen (content d')) ∧ needed <= OFF_T_MAX ∧
            (0 < initial_capacity_bytes_ w -> needed <= zlen (content d')) ∧
            (benign (oracle d) -> benign (oracle d'))
  | Some _ => w' = w ∧
      (benign (oracle d) -> OFF_T_MAX < needed + initial_capacity_bytes_ w)
  end.

Section capacity.
Context (w : Wal) (d : Device).
Context (Hinit : initialised_size_ w = zlen (content d)).

Lemma capacity_unchanged needed :
  needed <= OFF_T_MAX -> (0 < initial_capacity_bytes_ w -> needed <= zlen (content d)) ->
  capacity_ensured w d needed (None, w, d).
Proof.
  intros H1 H2. split; [exists 0; split; [lia|]; rewrite app_nil_r; split; [done|lia]|]. split; [set_solver|].
  split; [rewrite <- Hinit; by destruct w|auto].
Qed.

Lemma capacity_refused needed e :
  OFF_T_MAX < needed + initial_capacity_bytes_ w ->
  capacity_ensured w d needed (Some e, w, d).
Proof.
  intros H. split; [exists 0; split; [lia|]; rewrite app_nil_r; split; [done|lia]|]. split; [set_solver|]. auto.
Qed.

(** The extension itself. *)
Lemma capacity_extended needed target :
  needed <= target <= OFF_T_MAX -> zlen (content d) < target ->
  capacity_ensured w d needed
    (match WriteZeroesAndSync d (initialised_size_ w) target with
     | (Some e, d) => (Some e, w, d)
     | (None, d) => (None, set_initialised w target, d)
     end).
Proof.
  intros Hn Ht. pose proof (WriteZeroesAndSync_spec d (content d) [] target) as HW.
  rewrite app_nil_r in HW. specialize (HW eq_refl Ht). rewrite Hinit.
  destruct (WriteZeroesAndSync d (zlen (content d)) target) as [e d'].
  destruct HW as ((k & Hk & Hc' & Hek) & _ & Hdur & Hb). rewrite drop_nil, app_nil_r in Hc'.
  assert (zlen (content d') = zlen (content d) + Z.of_nat k) as Hlen
    by (rewrite Hc', zlen_app, zlen_replicate; lia).
  assert (∃ n, 0 <= n ∧ content d' = content d ++ zeroes n ∧
    zlen (content d') <= Z.max (zlen (content d)) OFF_T_MAX) as Hgrow.
  { exists (Z.of_nat k). split; [lia|]. split; [|lia]. unfold zeroes. by rewrite Nat2Z.id. }
  destruct e as [e|]; (split; [done|]); (split; [auto|]); [split; [done|]; naive_solver|].
  specialize (Hek eq_refl).
  assert (zlen (content d') = target) as -> by lia.
  split; [done|]. split; [lia|]. split; [lia|]. naive_solver.
Qed.

Lemma EnsureCapacityFor_spec end_of_log group_size :
  0 <= initial_capacity_bytes_ w <= OFF_T_MAX ->
  0 <= end_of_log <= OFF_T_MAX -> 0 <= group_size ->
  capacity_ensured w d (end_of_log + group_size) (EnsureCapacityFor w d end_of_log group_size).
Proof.
  intros Hcap He Hg. unfold EnsureCapacityFor.
  rewrite (u64_small (OFF_T_MAX - end_of_log)) by (unfold is_u64, OFF_T_MAX in *; lia).
  destruct (Z.ltb_spec (OFF_T_MAX - end_of_log) group_size); [apply capacity_refused; lia|].
  destruct (Z.eqb_spec (initial_capacity_bytes_ w) kNoPreallocation) as [H0|H0];
    unfold kNoPreallocation in H0; [apply capacity_unchanged; lia|].
  rewrite (u64_small (end_of_log + group_size)) by (unfold is_u64, OFF_T_MAX in *; lia).
  set (needed := end_of_log + group_size). set (cap := initial_capacity_bytes_ w) in *.
  destruct ((needed <=? initialised_size_ w) && (cap <=? initialised_size_ w)) eqn:Hhave.
  { apply andb_true_iff in Hhave as [H1%Z.leb_le H2%Z.leb_le]. apply capacity_unchanged; lia. }
  destruct (capacity_target_bounds cap needed) as (Ht1 & Ht2 & Ht3); [lia|lia|].
  unfold capacity_target in *. set (units := Z.max 1 _) in *.
  destruct (Z.ltb_spec (OFF_T_MAX / cap) units) as [Hu|Hu].
  { apply capacity_refused. fold cap. apply Z.nle_gt. intros Hb.
    assert (units <= OFF_T_MAX / cap) by (apply Z.div_le_lower_bound; lia). lia. }
  assert (units * cap <= OFF_T_MAX) as Hmax.
  { pose proof (Z.mul_div_le OFF_T_MAX cap). nia. }
  rewrite u64_small by (unfold is_u64, OFF_T_MAX in *; lia).
  destruct (Z.leb_spec (units * cap) (initialised_size_ w)); [apply capacity_unchanged; lia|].
  apply capacity_extended; lia.
Qed.

End capacity.

(** ** The last byte that is not zero *)

(** The byte at an offset of the file. *)
Definition byte_at (c : bytestring) (i : Z) : Z := nth (Z.to_nat i) c 0.

Lemma byte_at_slice c from len i :
  0 <= from -> 0 <= i < len -> byte_at (slice from len c) i = byte_at c (from + i).
Proof.
  intros Hf Hi. unfold byte_at, slice. rewrite !nth_lookup, lookup_take_lt, lookup_drop by lia.
  do 2 f_equal. lia.
Qed.

Lemma byte_at_app_r c k i : zlen c <= i -> byte_at (c ++ k) i = byte_at k (i - zlen c).
Proof.
  unfold byte_at, zlen. intros H. rewrite app_nth2 by lia. f_equal. lia.
Qed.

Lemma byte_at_zeroes n i : byte_at (zeroes n) i = 0.
Proof.
  unfold byte_at, zeroes. rewrite nth_lookup.
  destruct (replicate (Z.to_nat n) 0 !! Z.to_nat i) eqn:E; [|done].
  by apply lookup_replicate in E as [-> _].
Qed.

Lemma byte_at_cons b l i : 0 < i -> byte_at (b :: l) i = byte_at l (i - 1).
Proof. intros H. unfold byte_at. by replace (Z.to_nat i) with (S (Z.to_nat (i - 1))) by lia. Qed.

(** [j] is the last offset of [[from, to)] that holds a non-zero byte, or
    [from - 1]. *)
Definition last_non_zero_of (c : bytestring) (from to j : Z) : Prop :=
  from - 1 <= j < Z.max from to ∧ (from <= j -> byte_at c j <> 0) ∧
  ∀ i, j < i < to -> byte_at c i = 0.

Lemma last_non_zero_index_spec l : forall i,
  match last_non_zero_index l i with
  | None => ∀ k, 0 <= k < zlen l -> byte_at l k = 0
  | Some j => i <= j < i + zlen l ∧ byte_at l (j - i) <> 0 ∧
      ∀ k, j - i < k < zlen l -> byte_at l k = 0
  end.
Proof.
  induction l as [|b l IH]; intros i; cbn [last_non_zero_index]; [intros k; zl|].
  specialize (IH (i + 1)). destruct (last_non_zero_index l (i + 1)) as [j|].
  - destruct IH as (Hj & Hb & Hz). split; [zl|].
    split; [rewrite byte_at_cons by lia; by replace (j - i - 1) with (j - (i + 1)) by lia|].
    intros k Hk. rewrite byte_at_cons by lia. apply Hz. zl.
  - assert (∀ k, 0 < k < zlen (b :: l) -> byte_at (b :: l) k = 0) as Hz.
    { intros k Hk. rewrite byte_at_cons by lia. apply IH. zl. }
    destruct (Z.eqb_spec b 0) as [->|Hb].
    + intros k Hk. destruct (Z.eq_dec k 0) as [->|]; [done|]. apply Hz. lia.
    + split; [zl|]. rewrite Z.sub_diag. split; [done|]. intros k Hk. apply Hz. lia.
Qed.

(** One more chunk. *)
Lemma last_non_zero_chunk c from at_ size j :
  0 <= from <= at_ -> 0 < size -> at_ + size <= zlen c ->
  last_non_zero_of c from at_ j -> j < at_ ->
  let j' := match last_non_zero_index (slice at_ size c) at_ with Some k => k | None => j end in
  last_non_zero_of c from (at_ + size) j' ∧ j' < at_ + size.
Proof.
  intros Hat Hsize Hle (Hr1 & Hnz & Hz) Hj. set (chunk := slice at_ size c).
  assert (zlen chunk = size) as Hlen by (apply zlen_slice; lia).
  pose proof (last_non_zero_index_spec chunk at_) as HL. rewrite Hlen in HL.
  assert (∀ i, at_ <= i < at_ + size -> byte_at chunk (i - at_) = byte_at c i) as Hch.
  { intros i Hi. unfold chunk. rewrite byte_at_slice by lia. f_equal. lia. }
  destruct (last_non_zero_index chunk at_) as [j1|].
  - destruct HL as (Hr2 & Hnz2 & Hz2). rewrite Hch in Hnz2 by lia.
    split; [|lia]. split; [lia|]. split; [done|]. intros i Hi.
    rewrite <- Hch by lia. apply Hz2. lia.
  - split; [|lia]. split; [lia|]. split; [done|]. intros i Hi.
    destruct (Z_lt_dec i at_); [apply Hz; lia|]. rewrite <- Hch by lia. apply HL. lia.
Qed.

Lemma FindLastNonZero_chunks_spec from to fuel : forall d at_ j,
  0 <= from <= at_ -> to <= zlen (content d) -> to - at_ < Z.of_nat fuel * kChunkSize ->
  last_non_zero_of (content d) from (Z.min at_ to) j -> j < at_ ->
  let '(r, d') := FindLastNonZero_chunks fuel d at_ to j in
  same_file d d' ∧
  match r with
  | inl res => last_non_zero_of (content d) from to res
  | inr _ => ¬ benign (oracle d)
  end.
Proof.
  induction fuel as [|fuel IH]; intros d at_ j Hat Hto Hf Hj Hja; cbn [FindLastNonZero_chunks].
  { split; [done|]. by replace (Z.min at_ to) with to in Hj by lia. }
  destruct (Z.ltb_spec at_ to) as [Hlt|Hge]; cbn [negb].
  2: { split; [done|]. by replace (Z.min at_ to) with to in Hj by lia. }
  set (size := Z.min kChunkSize (to - at_)).
  assert (0 < size) by (unfold size, kChunkSize; lia).
  destruct (PreadAll_cases d size at_) as (d1 & Hs1 & [Hr|(Hb & e & Hr)]); [lia..| |];
    rewrite Hr; [|done].
  destruct Hs1 as (Hc1 & Hd1 & Hb1). replace (Z.min at_ to) with at_ in Hj by lia.
  destruct (last_non_zero_chunk (content d) from at_ size j) as [Hj' Hlt']; [lia|lia|lia|done|done|].
  set (j' := match last_non_zero_index _ _ with Some j => j | None => _ end) in *.
  replace (at_ + size) with (Z.min (at_ + kChunkSize) to) in Hj' by lia.
  rewrite <- Hc1 in Hj', Hto.
  specialize (IH d1 (at_ + kChunkSize) j'). rewrite Hc1 in *.
  destruct (FindLastNonZero_chunks fuel d1 (at_ + kChunkSize) to j') as [r d2].
  destruct IH as [Hs2 Hr2]; try done; [unfold kChunkSize in *; lia..|].
  split; [etransitivity; [|done]; by repeat split|]. destruct r; [done|]. naive_solver.
Qed.

Lemma FindLastNonZero_spec d from to :
  0 <= from -> to <= zlen (content d) ->
  let '(r, d') := FindLastNonZero d from to in
  same_file d d' ∧
  match r with
  | inl j => last_non_zero_of (content d) from to j
  | inr _ => ¬ benign (oracle d)
  end.
Proof.
  intros Hf Ht. apply FindLastNonZero_chunks_spec; [lia|done| | |lia].
  - unfold kChunkSize. Z.div_mod_to_equations. lia.
  - split; [lia|]. split; lia.
Qed.

(** ** Probing and searching for a frame *)

(** An intact frame at offset [p]. *)
Definition frame_at (c : bytestring) (p : Z) : Prop :=
  ∃ epoch payload pre post,
    c = pre ++ EncodeFrame epoch payload ++ post ∧ zlen pre = p ∧
    0 < epoch < 2 ^ 32 ∧ 0 < zlen payload <= kMaxPayloadSize ∧ bytes_ok payload.

Lemma UpdateWithTable_app l k : forall s,
  UpdateWithTable s (l ++ k) = UpdateWithTable (UpdateWithTable s l) k.
Proof. induction l as [|b l IH]; intros s; [done|]. apply IH. Qed.

(** A payload loop that ends normally has folded the whole payload into the
    checksum. *)
Lemma ProbePayload_spec chunk fuel : forall d at_ remaining crc budget,
  0 < chunk -> 0 <= at_ -> 0 <= remaining -> at_ + remaining <= zlen (content d) ->
  remaining <= Z.of_nat fuel * chunk ->
  let '(r, _, d') := ProbePayload fuel d at_ remaining chunk crc budget in
  same_file d d' ∧
  match r with
  | inl p => p <> NoFrame ∧ p <> Frame
  | inr crc' => crc' = UpdateWithTable crc (slice at_ remaining (content d))
  end.
Proof.
  induction fuel as [|fuel IH]; intros d at_ remaining crc budget Hch Hat Hrem Hle Hf;
    cbn [ProbePayload].
  { replace remaining with 0 by lia. split; [done|]. by rewrite slice_nil_len. }
  destruct (Z.eqb_spec remaining 0) as [->|Hnz].
  { split; [done|]. by rewrite slice_nil_len. }
  destruct (_ <? _); [done|].
  destruct (PreadAll_cases d (Z.min chunk remaining) at_) as (d1 & Hs1 & [Hr|(Hb & e & Hr)]);
    [lia..| |]; rewrite Hr; [|done].
  destruct Hs1 as (Hc1 & Hd1 & Hb1).
  specialize (IH d1 (at_ + Z.min chunk remaining) (remaining - Z.min chunk remaining)
    (UpdateWithTable crc (slice at_ (Z.min chunk remaining) (content d)))
    (budget + Z.min chunk remaining)).
  destruct (ProbePayload fuel d1 _ _ _ _ _) as [[r b] d2]. rewrite Hc1 in IH.
  destruct IH as [Hs2 Hr2]; [lia..|]. split; [etransitivity; [|done]; by repeat split|].
  destruct r; [done|]. rewrite <- UpdateWithTable_app, slice_split in Hr2 by lia.
  by replace (Z.min chunk remaining + (remaining - Z.min chunk remaining)) with remaining in Hr2
    by lia.
Qed.

(** What a reader sees of an intact frame. *)
Lemma frame_at_header c p :
  frame_at c p ->
  let header := slice p kHeaderSize c in
  let size := hdr_payload_size header in
  hdr_magic header = kMagic ∧ hdr_version header = kVersion ∧ hdr_flags header = kFlags ∧
  0 < hdr_epoch header ∧ 0 < size <= kMaxPayloadSize ∧ 0 <= p ∧
  p + kHeaderSize + size <= zlen c ∧
  hdr_crc header = frame_crc header (slice (p + kHeaderSize) size c).
Proof.
  intros (e & pl & pre & post & Hc & <- & He & Hpl & Hok).
  destruct (frame_slices e pl pre post) as [H1 H2]. rewrite <- Hc in H1, H2. cbn zeta.
  destruct (hdr_fields e pl) as (F1 & F2 & F3 & F4 & F5 & F6); [unfold is_u32; lia|lia|done|].
  rewrite H1, F1, F2, F3, F4, F5, F6, H2.
  split; [done|]. split; [done|]. split; [done|]. split; [lia|]. split; [lia|].
  split; [apply zlen_nonneg|]. split; [|done]. rewrite Hc, !zlen_app, zlen_EncodeFrame. zl.
Qed.

Lemma GetLe32_slice c pos n m :
  0 <= pos -> 4 <= n -> 4 <= m -> GetLe32 (slice pos n c) = GetLe32 (slice pos m c).
Proof.
  intros Hp Hn Hm. assert (∀ i, (i < 4)%nat ->
    nth i (slice pos n c) 0 = nth i (slice pos m c) 0) as H.
  { intros i Hi. pose proof (byte_at_slice c pos n (Z.of_nat i) Hp ltac:(lia)) as H1.
    pose proof (byte_at_slice c pos m (Z.of_nat i) Hp ltac:(lia)) as H2.
    unfold byte_at in H1, H2. rewrite Nat2Z.id in H1, H2. congruence. }
  unfold GetLe32. by rewrite !H by lia.
Qed.

(** The magic of a frame has no zero byte. *)
Lemma frame_at_magic c p : frame_at c p -> byte_at c (p + 3) <> 0.
Proof.
  intros (e & pl & pre & post & -> & <- & _). rewrite byte_at_app_r by lia.
  replace (zlen pre + 3 - zlen pre) with 3 by lia. done.
Qed.

Section search.
Context (d0 : Device) (Hbytes : bytes_ok (content d0)).

Abbreviation file_size := (zlen (content d0)).

Lemma PreadAll_same d size offset :
  same_file d0 d -> 0 <= offset -> 0 <= size -> offset + size <= file_size ->
  ∃ d', same_file d0 d' ∧
    (PreadAll d size offset = (inl (slice offset size (content d0)), d') ∨
     ¬ benign (oracle d0) ∧ ∃ e, PreadAll d size offset = (inr e, d')).
Proof.
  intros (Hc & Hd & Hb) Ho Hs Hle. rewrite <- Hc in Hle |- *.
  destruct (PreadAll_cases d size offset Ho Hs Hle) as (d' & Hsame & Hr).
  exists d'. split; [etransitivity; [|done]; by repeat split|].
  destruct Hr as [Hr|(Hnb & Hr)]; [by left|]. right. naive_solver.
Qed.

(** A probe reads the file without changing it, and does not miss a frame. *)
Lemma ProbeFrameAt_spec d offset budget :
  same_file d0 d -> 0 <= offset ->
  let '(p, _, d') := ProbeFrameAt d offset file_size budget in
  same_file d0 d' ∧ (frame_at (content d0) offset -> p <> NoFrame).
Proof.
  intros Hd Ho. pose proof (frame_at_header (content d0) offset) as Hfr. cbn zeta in Hfr.
  unfold ProbeFrameAt.
  destruct (Z.ltb_spec (file_size - offset) kHeaderSize) as [Hsm|Hsm].
  { split; [done|]. intros H%Hfr. lia. }
  destruct (_ <? _); [done|].
  destruct (PreadAll_same d kHeaderSize offset) as (d1 & Hd1 & [Hr|(Hb & e & Hr)]);
    [done..|lia| |]; rewrite Hr; [|done].
  set (header := slice offset kHeaderSize (content d0)) in *.
  assert (0 <= hdr_payload_size header) as Hnn by (unfold header; auto with lineair).
  clearbody header.
  destruct (Z.eqb_spec (hdr_magic header) kMagic); cbn [negb]; [|naive_solver].
  destruct (Z.eqb_spec (hdr_version header) kVersion); cbn [negb]; [|naive_solver].
  destruct (Z.eqb_spec (hdr_flags header) kFlags); cbn [negb]; [|naive_solver].
  destruct (Z.eqb_spec (hdr_epoch header) 0); [split; [done|]; intros H%Hfr; lia|].
  set (size := hdr_payload_size header) in *.
  destruct ((size =? 0) || (kMaxPayloadSize <? size)) eqn:Hsz.
  { split; [done|]. intros H%Hfr. apply orb_true_iff in Hsz. lia. }
  apply orb_false_iff in Hsz as [Hsz1%Z.eqb_neq Hsz2%Z.ltb_ge].
  destruct (Z.ltb_spec file_size (offset + kHeaderSize + size)).
  { split; [done|]. intros H'%Hfr. lia. }
  set (chunk := Z.min kChunkSize size).
  assert (0 < chunk) by (unfold chunk, kChunkSize; lia).
  pose proof (ProbePayload_spec chunk (S (Z.to_nat (size / chunk))) d1 (offset + kHeaderSize)
    size (UpdateWithTable initial_state (take 16 header)) (budget + kHeaderSize)) as HP.
  destruct (ProbePayload _ _ _ _ _ _ _) as [[r b] d2]. rewrite (proj1 Hd1) in HP.
  destruct HP as [Hs2 Hr2]; [unfold kHeaderSize in *; lia..| |].
  { pose proof (Z.mul_succ_div_gt size chunk). nia. }
  destruct r as [p|crc]; (split; [by etransitivity|]); intros Hf%Hfr; [naive_solver|].
  destruct Hf as (_ & _ & _ & _ & _ & _ & _ & Hcrc). rewrite Hr2, Hcrc.
  by rewrite frame_crc_eq, Z.eqb_refl.
Qed.
(** A chunk in which the inner loop finds nothing holds no frame whose magic
    lies in it. *)
Lemma SearchChunk_spec l : forall d pos budget,
  same_file d0 d -> 0 <= pos -> pos + zlen l <= file_size ->
  l = slice pos (zlen l) (content d0) ->
  let '(p, _, d') := SearchChunk d l pos file_size budget in
  same_file d0 d' ∧
  (p = NoFrame -> ∀ q, pos <= q -> q + 4 <= pos + zlen l -> ¬ frame_at (content d0) q).
Proof.
  induction l as [|b0 l IH]; intros d pos budget Hd Hpos Hle Hl.
  { split; [done|]. intros _ q H1 H2. zl. }
  assert (l = slice (pos + 1) (zlen l) (content d0)) as Hl'.
  { rewrite zlen_cons, <- slice_split in Hl by zl. 
    assert (zlen (slice pos 1 (content d0)) = 1) as H1 by (apply zlen_slice; zl).
    destruct (slice pos 1 (content d0)) as [|x [|y k]]; [zl| |zl].
    by injection Hl. }
  destruct l as [|b1 [|b2 [|b3 l]]].
  1-3: (split; [done|]; intros _ q H1 H2; zl).
  set (tl := b1 :: b2 :: b3 :: l) in *. cbn [SearchChunk]. fold tl.
  assert (∀ d budget, same_file d0 d -> ¬ frame_at (content d0) pos ->
    let '(p, _, d') := SearchChunk d tl (pos + 1) file_size budget in
    same_file d0 d' ∧
    (p = NoFrame -> ∀ q, pos <= q -> q + 4 <= pos + zlen (b0 :: tl) ->
       ¬ frame_at (content d0) q)) as Hnext.
  { intros d1 budget1 Hd1 Hno. specialize (IH d1 (pos + 1) budget1 Hd1).
    rewrite zlen_cons in *. destruct (SearchChunk d1 tl _ _ _) as [[p b] d2].
    destruct IH as [Hs Hn]; [lia|lia|done|]. split; [done|]. intros Hp q H1 H2.
    destruct (Z.eq_dec q pos) as [->|]; [done|]. apply Hn; [done|lia|lia]. }
  destruct (Z.eqb_spec (GetLe32 (b0 :: tl)) kMagic) as [Hm|Hm]; cbn [negb].
  - pose proof (ProbeFrameAt_spec d pos budget Hd Hpos) as HP.
    destruct (ProbeFrameAt d pos file_size budget) as [[p b] d1]. destruct HP as [Hd1 Hp].
    destruct p; try by (split; [done|]). apply Hnext; [done|]. naive_solver.
  - apply Hnext; [done|]. intros Hf%frame_at_header. apply Hm. destruct Hf as [Hf _].
    unfold hdr_magic in Hf. rewrite <- Hf, Hl. apply GetLe32_slice; [done| |done].
    unfold tl. zl.
Qed.

(** The search as a whole. *)
Lemma SearchChunks_spec search_end fuel : forall d at_ budget,
  same_file d0 d -> 0 <= at_ -> search_end <= file_size -> search_end - at_ < Z.of_nat fuel ->
  let '(p, d') := SearchChunks fuel d at_ search_end file_size budget in
  same_file d0 d' ∧
  (p = NoFrame -> ∀ q, at_ <= q -> q + 4 <= search_end -> ¬ frame_at (content d0) q).
Proof.
  induction fuel as [|fuel IH]; intros d at_ budget Hd Hat Hend Hf; cbn [SearchChunks].
  { split; [done|]. intros _ q. lia. }
  destruct (Z.ltb_spec at_ search_end) as [Hlt|Hge]; cbn [negb].
  2: { split; [done|]. intros _ q. lia. }
  set (size := Z.min kChunkSize (search_end - at_)).
  assert (0 < size) by (unfold size, kChunkSize; lia).
  destruct (_ <? _); [done|].
  destruct (PreadAll_same d size at_) as (d1 & Hd1 & [Hr|(Hb & e & Hr)]);
    [done|lia..| |]; rewrite Hr; [|done].
  set (chunk := slice at_ size (content d0)).
  assert (zlen chunk = size) as Hlen by (apply zlen_slice; lia).
  pose proof (SearchChunk_spec chunk d1 at_ (budget + size) Hd1 Hat) as HC. rewrite Hlen in HC.
  destruct (SearchChunk d1 chunk at_ file_size (budget + size)) as [[p b] d2].
  destruct HC as [Hd2 Hn]; [lia|done|]. destruct p; [|done..].
  destruct (Z.leb_spec size kOverlap) as [Hsm|Hsm]; unfold kOverlap, kChunkSize in *.
  { split; [done|]. intros _ q H1 H2. apply Hn; [done|lia|lia]. }
  specialize (IH d2 (at_ + (size - 3)) b Hd2).
  destruct (SearchChunks fuel d2 _ _ _ _) as [p d3]. destruct IH as [Hd3 Hn3]; [lia..|].
  split; [done|]. intros Hp q H1 H2.
  destruct (Z_le_dec (q + 4) (at_ + size)); [apply Hn; [done|lia..]|apply Hn3; [done|lia..]].
Qed.

(** A search that finds nothing proves that no frame starts beyond [offset]
    before [search_end]. *)
Lemma SearchForFrameAfter_spec d offset search_end :
  same_file d0 d -> 0 <= offset -> search_end <= file_size ->
  let '(p, d') := SearchForFrameAfter d offset search_end file_size in
  same_file d0 d' ∧
  (p = NoFrame -> ∀ q, offset < q -> q + 4 <= search_end -> ¬ frame_at (content d0) q).
Proof.
  intros Hd Ho He. unfold SearchForFrameAfter.
  pose proof (SearchChunks_spec search_end (S (Z.to_nat (search_end - offset))) d (offset + 1) 0 Hd)
    as H. destruct (SearchChunks _ _ _ _ _ _) as [p d']. destruct H as [H1 H2]; [lia..|].
  split; [done|]. intros Hp q Hq Hq'. apply H2; [done|lia..].
Qed.

End search.

(** ** Settling the end of the log *)

Lemma zeroes_of_bytes l :
  (∀ i, 0 <= i < zlen l -> byte_at l i = 0) -> l = zeroes (zlen l).
Proof.
  induction l as [|b l IH]; intros H; [done|].
  assert (b = 0) as -> by (apply (H 0); zl). rewrite IH at 1.
  - rewrite zlen_cons, <- zeroes_app by zl. done.
  - intros i Hi. specialize (H (i + 1)). rewrite byte_at_cons in H by lia.
    replace (i + 1 - 1) with i in H by lia. apply H. zl.
Qed.

(** The log is ready at [offset]: the bytes before it are those of [c0], the
    rest of the file is zero, and the log knows the file's size. *)
Definition ready_at (c0 : bytestring) (w : Wal) (offset frontier : Z) (w' : Wal) (d' : Device)
    : Prop :=
  w' = mkWal (initial_capacity_bytes_ w) Ready offset frontier (zlen (content d'))
         (extension_count_ w) ∧ zlen (content d') <= OFF_T_MAX ∧
  ∃ n, 0 <= n ∧ content d' = take (Z.to_nat offset) c0 ++ zeroes n.

(** The log failed, without touching the bytes before [offset]. *)
Definition failed_at (c0 : bytestring) (offset : Z) (r : WalScanResult) (w' : Wal) (d' : Device)
    : Prop :=
  status r <> Ok ∧ state_ w' = Failed ∧ take (Z.to_nat offset) (content d') = take (Z.to_nat offset) c0.

(** The result a scan with the locals [s] returns. *)
Definition scan_result (s : Scan) (truncated : bool) : WalScanResult :=
  mkScan Ok (sc_frontier s) (sc_records s) truncated 0 NoDetail
    (sc_frames_skipped s) (sc_bytes_skipped s).

Lemma FinishScan_spec w d pre n result :
  initialised_size_ w = zlen (content d) -> 0 <= initial_capacity_bytes_ w <= OFF_T_MAX ->
  zlen (content d) <= OFF_T_MAX -> 0 <= n -> content d = pre ++ zeroes n ->
  status result = Ok ->
  let '(r, w', d') := FinishScan w d result (zlen pre) in
  (r = result ∧ ready_at pre w (zlen pre) (frontier result) w' d' ∨
   failed_at pre (zlen pre) r w' d') ∧
  (benign (oracle d) -> zlen pre + initial_capacity_bytes_ w <= OFF_T_MAX ->
   r = result ∧ benign (oracle d')).
Proof.
  intros Hi Hcap Hp Hn Hc Hres. unfold FinishScan.
  assert (zlen pre <= OFF_T_MAX) by (rewrite Hc in Hp; zl).
  pose proof (EnsureCapacityFor_spec w d Hi (zlen pre) 0 Hcap) as HE.
  destruct (EnsureCapacityFor w d (zlen pre) 0) as [[[e|] w'] d'];
    (destruct HE as ((m & Hm & Hc' & Hm') & _ & HE); [zl|lia|]); rewrite Hc, <- app_assoc in Hc'.
  - destruct HE as [-> Hb]. split; [right|intros Hb'; specialize (Hb Hb'); lia].
    split; [done|]. split; [done|]. by rewrite Hc', to_nat_zlen, take_app_length, take_ge.
  - destruct HE as (-> & _ & _ & Hb). split; [left|auto]. split; [done|]. split; [done|].
    split; [lia|]. exists (n + m). split; [lia|]. rewrite Hc', zeroes_app by done. by rewrite to_nat_zlen, take_ge.
Qed.

(** The offsets a search covers: a frame past the last non-zero byte would have
    a zero in its magic. *)
Lemma no_frame_beyond c from to last_nz q :
  last_non_zero_of c from to last_nz -> to = zlen c -> from <= q -> frame_at c q ->
  q + 4 <= last_nz + 1.
Proof.
  intros (Hr & _ & Hz) Hto Hq Hf. pose proof (frame_at_magic c q Hf) as Hm.
  apply frame_at_header in Hf. unfold kHeaderSize in *.
  destruct (Z_le_dec (q + 4) (last_nz + 1)); [done|]. destruct Hm. apply Hz. lia.
Qed.

(** From the byte after the last non-zero one on, the file is zero. *)
Lemma drop_zeroes c pre tail last_nz :
  c = pre ++ tail -> last_non_zero_of c (zlen pre) (zlen c) last_nz ->
  let k := Z.to_nat (last_nz + 1 - zlen pre) in
  drop k tail = zeroes (zlen tail - (last_nz + 1 - zlen pre)).
Proof.
  intros -> (Hr & _ & Hz) k. rewrite zlen_app in *.
  assert (zlen (drop k tail) = zlen tail - (last_nz + 1 - zlen pre)) as Hl.
  { unfold zlen in *. rewrite length_drop. lia. }
  rewrite (zeroes_of_bytes (drop k tail)), Hl; [done|]. intros i Hi.
  specialize (Hz (last_nz + 1 + i)). rewrite byte_at_app_r in Hz by lia.
  unfold byte_at in *. rewrite nth_lookup, lookup_drop, <- nth_lookup.
  replace (k + Z.to_nat i)%nat with (Z.to_nat (last_nz + 1 + i - zlen pre)) by lia.
  apply Hz. lia.
Qed.

Section repair.
Context (w : Wal) (d0 : Device) (pre tail : bytestring) (s : Scan).
Context (Hbytes : bytes_ok (content d0)) (Hsplit : content d0 = pre ++ tail)
  (Hoff : sc_offset s = zlen pre).
Context (Hinit : initialised_size_ w = zlen (content d0))
  (Hcap : 0 <= initial_capacity_bytes_ w <= OFF_T_MAX) (Hmax : zlen (content d0) <= OFF_T_MAX).

(** The three ways a repair ends well agree on the outcome. *)
Definition repaired (r : WalScanResult) (w' : Wal) (d' : Device) : Prop :=
  (∃ truncated, r = scan_result s truncated) ∧
  ready_at pre w (sc_offset s) (sc_frontier s) w' d' ∧
  ∀ q, sc_offset s < q -> ¬ frame_at (content d0) q.

Lemma finish_repaired d n truncated :
  zlen (content d) = zlen (content d0) -> 0 <= n -> content d = pre ++ zeroes n ->
  (∀ q, sc_offset s < q -> ¬ frame_at (content d0) q) ->
  let '(r, w', d') := FinishScan w d (scan_result s truncated) (sc_offset s) in
  repaired r w' d' ∨ failed_at pre (sc_offset s) r w' d'.
Proof.
  intros Hl Hn Hc Hno. rewrite Hoff.
  pose proof (FinishScan_spec w d pre n (scan_result s truncated)) as HF.
  destruct (FinishScan _ _ _ _) as [[r w'] d']. rewrite Hl in HF.
  destruct HF as [[[Hr Hrd]|Hf] _]; [done|done|done|done|done|done| |by right].
  left. split; [eauto|]. rewrite Hoff. split; [done|]. by rewrite <- Hoff.
Qed.

Lemma RepairTail_spec d anomaly broken_end :
  same_file d0 d -> (anomaly = None -> zlen (content d0) <= sc_offset s) ->
  let '(r, w', d') := RepairTail w d (zlen (content d0)) s anomaly broken_end in
  repaired r w' d' ∨ failed_at pre (sc_offset s) r w' d'.
Proof.
  intros Hd Hnone. assert (zlen (content d0) = zlen pre + zlen tail) as Hz by (rewrite Hsplit; zl).
  assert (∀ d r, same_file d0 d -> status r.1 <> Ok -> state_ r.2 = Failed ->
    let '(r, w', d') := (r, d) in repaired r w' d' ∨ failed_at pre (sc_offset s) r w' d') as Hfail.
  { intros d1 [r w1] Hs H1 H2. right. split; [done|]. split; [done|].
    rewrite (proj1 Hs), Hsplit, Hoff, to_nat_zlen, take_app_length. by rewrite take_ge. }
  unfold RepairTail. fold (scan_result s false) (scan_result s true).
  destruct anomaly as [a|].
  2: { specialize (Hnone eq_refl). assert (tail = []) as Ht by (apply length_zero_iff_nil; unfold zlen in *; lia).
       apply (finish_repaired d 0); [by rewrite (proj1 Hd)|done|by rewrite (proj1 Hd), Hsplit, Ht|].
       intros q Hq Hf%frame_at_header. unfold kHeaderSize in *. lia. }
  pose proof (FindLastNonZero_spec d (sc_offset s) (zlen (content d0))) as HL.
  destruct (FindLastNonZero d _ _) as [[j|e] d1]; rewrite (proj1 Hd), Hoff in HL;
    (destruct HL as [Hs1 HL]; [zl|done|]); pose proof (transitivity Hd Hs1) as Hd1;
    [|by apply Hfail].
  pose proof (drop_zeroes _ _ _ _ Hsplit HL) as Hdz. cbn zeta in Hdz.
  rewrite <- Hoff in HL, Hdz. pose proof HL as [Hrange _].
  destruct (Z.ltb_spec j (sc_offset s)) as [Hj|Hj].
  { replace j with (sc_offset s - 1) in * by lia.
    apply (finish_repaired d1 (zlen tail)); [by rewrite (proj1 Hd1)|zl| |].
    - rewrite (proj1 Hd1), Hsplit. f_equal.
      replace (sc_offset s - 1 + 1 - sc_offset s) with 0 in Hdz by lia.
      by rewrite Z.sub_0_r in Hdz.
    - intros q Hq Hf. eapply no_frame_beyond in Hf; [|done..|lia]. lia. }
  destruct (_ && _); [by apply Hfail|].
  pose proof (SearchForFrameAfter_spec d0 Hbytes d1 (sc_offset s) (j + 1) Hd1) as HS.
  destruct (SearchForFrameAfter d1 _ _ _) as [p d2].
  destruct HS as [Hd2 Hno]; [zl|lia|]. destruct p; try by apply Hfail.
  pose proof (WriteZeroesAndSync_spec d2 pre tail (j + 1)) as HW. rewrite <- Hoff in HW.
  destruct (WriteZeroesAndSync d2 (sc_offset s) (j + 1)) as [e d3].
  destruct HW as ((k & Hk & Hc3 & Hek) & _); [by rewrite (proj1 Hd2)|lia|]. destruct e as [e|].
  { right. split; [done|]. split; [done|].
    by rewrite Hc3, Hoff, to_nat_zlen, take_app_length, take_ge. }
  specialize (Hek eq_refl). replace (Z.to_nat _) with k in Hdz by lia. rewrite Hdz in Hc3.
  assert (content d3 = pre ++ zeroes (zlen tail)) as Hc3'.
  { rewrite Hc3. f_equal. replace (replicate k 0) with (zeroes (j + 1 - sc_offset s))
      by (unfold zeroes; f_equal; lia). rewrite zeroes_app by lia. f_equal. lia. }
  apply (finish_repaired d3 (zlen tail)); [|zl|done|].
  - by rewrite Hc3', zlen_app, zlen_zeroes, Hz by zl.
  - intros q Hq Hf. apply (Hno eq_refl q Hq); [|done]. eapply no_frame_beyond in Hf; [|done..|lia]. lia.
Qed.

End repair.

(** ** What stays on disk *)

(** Both the file and its durable image start with [l]. *)
Definition holds (l : bytestring) (d : Device) : Prop :=
  (∃ r, content d = l ++ r) ∧ (∃ r, durable d = l ++ r).

Lemma holds_same l d d' : same_file d d' -> holds l d -> holds l d'.
Proof. intros (Hc & Hd & _) [H1 H2]. split; [by rewrite Hc|by rewrite Hd]. Qed.

Lemma holds_step l d d' r :
  holds l d -> content d' = l ++ r -> durable d' ∈ [durable d; content d'] -> holds l d'.
Proof.
  intros [_ H2] Hc Hd. split; [eauto|]. set_unfold in Hd.
  destruct Hd as [->|[->|[]]]; [done|]. eauto.
Qed.

Lemma FinishScan_holds l w d result end_of_log :
  holds l d -> initialised_size_ w = zlen (content d) ->
  0 <= initial_capacity_bytes_ w <= OFF_T_MAX -> 0 <= end_of_log <= OFF_T_MAX ->
  holds l (FinishScan w d result end_of_log).2.
Proof.
  intros Hl Hi Hcap He. unfold FinishScan.
  pose proof (EnsureCapacityFor_spec w d Hi end_of_log 0 Hcap He) as HE.
  pose proof Hl as [[r Hr] _].
  destruct (EnsureCapacityFor w d end_of_log 0) as [[[e|] w'] d'];
    (destruct HE as ((m & Hm & Hc' & _) & Hd & _); [lia|]); cbn;
    rewrite Hr, <- app_assoc in Hc'; by eapply holds_step.
Qed.

Section repair_holds.
Context (w : Wal) (d0 : Device) (l tail : bytestring) (s : Scan).
Context (Hbytes : bytes_ok (content d0)) (Hhold : holds l d0)
  (Hoff : zlen l <= sc_offset s <= zlen (content d0)).
Context (Hinit : initialised_size_ w = zlen (content d0))
  (Hcap : 0 <= initial_capacity_bytes_ w <= OFF_T_MAX) (Hmax : zlen (content d0) <= OFF_T_MAX).

Lemma RepairTail_holds d anomaly broken_end :
  same_file d0 d ->
  holds l (RepairTail w d (zlen (content d0)) s anomaly broken_end).2.
Proof.
  intros Hd. assert (0 <= zlen l) by zl.
  assert (∀ d result, holds l d -> zlen (content d) = zlen (content d0) ->
    holds l (FinishScan w d result (sc_offset s)).2) as Hfin.
  { intros d1 result H1 H2. apply FinishScan_holds; [done|by rewrite H2|done|lia]. }
  assert (∀ d1, same_file d0 d1 -> holds l d1) as Hsame by (intros d1 H1; by eapply holds_same).
  unfold RepairTail. destruct anomaly as [a|]; [|apply Hfin; [auto|by rewrite (proj1 Hd)]].
  pose proof (FindLastNonZero_spec d (sc_offset s) (zlen (content d0))) as HL.
  destruct (FindLastNonZero d _ _) as [[j|e] d1]; rewrite (proj1 Hd) in HL;
    (destruct HL as [Hs1 HL]; [lia|done|]); pose proof (transitivity Hd Hs1) as Hd1;
    [|by apply Hsame].
  destruct (Z.ltb_spec j (sc_offset s)); [apply Hfin; [auto|by rewrite (proj1 Hd1)]|].
  destruct (_ && _); [by apply Hsame|]. pose proof HL as [Hrange _].
  pose proof (SearchForFrameAfter_spec d0 Hbytes d1 (sc_offset s) (j + 1) Hd1) as HS.
  destruct (SearchForFrameAfter d1 _ _ _) as [p d2].
  destruct HS as [Hd2 _]; [lia|lia|]. destruct p; try by apply Hsame.
  pose proof (WriteZeroesAndSync_spec d2 (take (Z.to_nat (sc_offset s)) (content d0))
    (drop (Z.to_nat (sc_offset s)) (content d0)) (j + 1)) as HW.
  replace (zlen (take (Z.to_nat (sc_offset s)) (content d0))) with (sc_offset s) in HW
    by (unfold zlen in *; rewrite length_take; lia).
  destruct (WriteZeroesAndSync d2 (sc_offset s) (j + 1)) as [e d3].
  destruct HW as ((k & Hk & Hc3 & _) & _ & Hdur & _);
    [by rewrite take_drop, (proj1 Hd2)|lia|].
  assert (holds l d3) as H3.
  { destruct Hhold as [[r Hr] _].
    rewrite Hr, take_app_ge, <- app_assoc in Hc3 by (unfold zlen in *; lia).
    eapply holds_step; [|exact Hc3|done]. auto. }
  destruct e as [e|]; [done|]. apply Hfin; [done|]. rewrite Hc3. unfold zlen in *.
  rewrite !length_app, length_replicate, length_drop, length_take, length_drop. lia.
Qed.

End repair_holds.
