(* ===== verification/WalScan.v ===== *)
(** * What a scan of the log recovers

    Lemmas on [ScanAndRepair]: whatever bytes follow the acknowledged frames
    and whatever the system calls do, a scan that succeeds returns every
    acknowledged record and keeps the frames on disk; a clean log is scanned
    exactly; a repair never discards an intact frame. *)

From stdpp Require Import strings.
From S2P Require Import Prelude Crc32c Types WalDevice Wal WalFrames WalTail.

#[local] Opaque frame_crc.

(** ** The log as a list of frames *)

(** A frame: its epoch and its payload. *)
Abbreviation frame := (Z * bytestring)%type.

Section log.
Context {MP : MsgPack}.

Definition frame_bytes (f : frame) : bytestring := EncodeFrame f.1 f.2.

(** The records a frame carries. *)
Definition frame_records (f : frame) : LogRecords :=
  match DecodePayload f.1 f.2 with inl rs => rs | inr _ => [] end.

(** A frame the scan accepts. *)
Definition frame_ok (f : frame) : Prop :=
  0 < f.1 < 2 ^ 32 ∧ zlen f.2 <= kMaxPayloadSize ∧ bytes_ok f.2 ∧
  ∃ rs, DecodePayload f.1 f.2 = inl rs.

Definition log_bytes (fs : list frame) : bytestring := concat (map frame_bytes fs).

(** Epochs do not decrease along the log, starting at [e]. *)
Fixpoint epochs_from {A} (e : Z) (fs : list (Z * A)) : Prop :=
  match fs with
  | [] => True
  | f :: fs' => e <= f.1 ∧ epochs_from f.1 fs'
  end.

Definition log_ok (fs : list frame) : Prop := Forall frame_ok fs ∧ epochs_from 0 fs.

(** The epoch of the last frame, [e] for none. *)
Fixpoint log_frontier {A} (e : Z) (fs : list (Z * A)) : Z :=
  match fs with
  | [] => e
  | f :: fs' => log_frontier f.1 fs'
  end.

(** The records of the frames above [min_epoch], in log order. *)
Definition log_records (min_epoch : Z) (fs : list frame) : LogRecords :=
  concat (map frame_records (filter (fun f : frame => min_epoch < f.1) fs)).

(** The locals of the scan after one more frame. *)
Definition scan_frame (min_epoch : Z) (s : Scan) (f : frame) : Scan :=
  if f.1 <=? min_epoch
  then mkScanLocals (sc_records s) f.1 true (sc_frames_skipped s + 1)
         (sc_bytes_skipped s + zlen (frame_bytes f)) (sc_offset s + zlen (frame_bytes f))
  else mkScanLocals (sc_records s ++ frame_records f) f.1 true (sc_frames_skipped s)
         (sc_bytes_skipped s) (sc_offset s + zlen (frame_bytes f)).

Definition scan_log (min_epoch : Z) (s : Scan) (fs : list frame) : Scan :=
  fold_left (scan_frame min_epoch) fs s.

(** What a scan keeps as it goes on: the records found and the frontier. *)
Definition scan_extends (s s' : Scan) : Prop :=
  (∃ extra, sc_records s' = sc_records s ++ extra) ∧ sc_offset s <= sc_offset s' ∧
  (sc_have_frame s = true -> sc_have_frame s' = true ∧ sc_frontier s <= sc_frontier s').

#[local] Instance scan_extends_preorder : PreOrder scan_extends.
Proof.
  split.
  - intros s. split; [exists []; by rewrite app_nil_r|]. split; [lia|]. done.
  - intros s1 s2 s3 ((x & Hx) & Ho1 & Hf1) ((y & Hy) & Ho2 & Hf2).
    split; [exists (x ++ y); by rewrite Hy, Hx, app_assoc|]. split; [lia|].
    intros H. destruct (Hf1 H) as [H1 ?]. destruct (Hf2 H1). split; [done|lia].
Qed.

(** ** The scan loop on intact frames *)

Lemma zlen_frame_bytes f : zlen (frame_bytes f) = kHeaderSize + zlen f.2.
Proof. exact (zlen_EncodeFrame f.1 f.2). Qed.

Lemma log_bytes_cons f fs : log_bytes (f :: fs) = frame_bytes f ++ log_bytes fs.
Proof. done. Qed.

Lemma log_bytes_app fs gs : log_bytes (fs ++ gs) = log_bytes fs ++ log_bytes gs.
Proof. unfold log_bytes. by rewrite map_app, concat_app. Qed.

Lemma DecodePayload_ok f : frame_ok f -> DecodePayload f.1 f.2 = inl (frame_records f).
Proof. unfold frame_records. intros (_ & _ & _ & rs & ->). done. Qed.

Section intact.
Context (w : Wal) (min_epoch : Z).

(** One round of the loop on an intact frame. *)
Lemma Scan_loop_frame fuel d s f pre post :
  frame_ok f -> content d = pre ++ frame_bytes f ++ post -> sc_offset s = zlen pre ->
  (sc_have_frame s = true -> sc_frontier s <= f.1) ->
  ∃ d', same_file d d' ∧
    (Scan_loop (S fuel) w d min_epoch (zlen (content d)) s =
       Scan_loop fuel w d' min_epoch (zlen (content d)) (scan_frame min_epoch s f) ∨
     ¬ benign (oracle d) ∧ ∃ op e,
       Scan_loop (S fuel) w d min_epoch (zlen (content d)) s =
         (ScanReturns (IoFailure w op e), d')).
Proof.
  intros Hok Hc Hoff Hmono. pose proof (DecodePayload_ok f Hok) as Hdec.
  destruct Hok as ([He0 He] & Hsz & Hpok & _).
  assert (is_u32 f.1) as Heu by (unfold is_u32; lia).
  destruct (frame_slices f.1 f.2 pre post) as [Hs1 Hs2].
  change (EncodeFrame f.1 f.2) with (frame_bytes f) in Hs1, Hs2.
  rewrite <- Hc in Hs1, Hs2.
  destruct (hdr_fields f.1 f.2 Heu Hsz Hpok) as (_ & _ & _ & Hps & Hepo & Hcrc).
  pose proof (header_anomaly_none f.1 f.2 Heu Hsz Hpok) as Han.
  pose proof (zlen_frame_bytes f) as Hlen.
  assert (zlen (content d) = zlen pre + zlen (frame_bytes f) + zlen post) as Hfs
    by (rewrite Hc; zl).
  cbn [Scan_loop]. rewrite Hoff.
  destruct (Z.ltb_spec (zlen pre) (zlen (content d))); [|unfold kHeaderSize in *; zl].
  destruct (Z.ltb_spec (zlen (content d) - zlen pre) kHeaderSize); [zl|]. cbn [negb].
  destruct (PreadAll_cases d kHeaderSize (zlen pre)) as (d1 & Hsame1 & [Hr1|(Hb & e & Hr1)]);
    [zl|done|zl|rewrite Hr1|].
  2: { exists d1. split; [done|]. right. rewrite Hr1. eauto. }
  rewrite Hs1, Han, Hps, Hepo, Hcrc.
  destruct (Z.ltb_spec (zlen (content d)) (zlen pre + kHeaderSize + zlen f.2)); [zl|].
  destruct Hsame1 as (Hc1 & Hd1 & Hb1).
  destruct (PreadAll_cases d1 (zlen f.2) (zlen pre + kHeaderSize))
    as (d2 & Hsame2 & [Hr2|(Hb & e & Hr2)]); [unfold kHeaderSize in *; zl|zl|rewrite Hc1; zl| |].
  2: { exists d2. split; [etransitivity; [|done]; by repeat split|]. right.
       split; [naive_solver|]. rewrite Hr2. eauto. }
  rewrite Hr2, Hc1, Hs2, Z.eqb_refl. cbn [negb].
  replace (sc_have_frame s && (f.1 <? sc_frontier s)) with false.
  2: { destruct (sc_have_frame s); [|done]. specialize (Hmono eq_refl). cbn. by zcase. }
  destruct (Z.eqb_spec f.1 0); [lia|].
  exists d2. split; [etransitivity; [|done]; by repeat split|]. left.
  unfold scan_frame. rewrite Hlen, Hoff, <- !Z.add_assoc.
  destruct (Z.leb_spec f.1 min_epoch); [done|]. by rewrite Hdec.
Qed.

(** The loop on a run of intact frames. *)
Lemma Scan_loop_log fs : forall k d s pre post,
  Forall frame_ok fs -> content d = pre ++ log_bytes fs ++ post -> sc_offset s = zlen pre ->
  epochs_from (if sc_have_frame s then sc_frontier s else 0) fs ->
  ∃ d', same_file d d' ∧
    (Scan_loop (length fs + k) w d min_epoch (zlen (content d)) s =
       Scan_loop k w d' min_epoch (zlen (content d)) (scan_log min_epoch s fs) ∨
     ¬ benign (oracle d) ∧ ∃ op e,
       Scan_loop (length fs + k) w d min_epoch (zlen (content d)) s =
         (ScanReturns (IoFailure w op e), d')).
Proof.
  induction fs as [|f fs IH]; intros k d s pre post Hok Hc Hoff Hmono.
  { exists d. split; [done|]. by left. }
  inversion_clear Hok as [|?? Hf Hfs]. destruct Hmono as [Hle Hmono].
  rewrite log_bytes_cons, <- app_assoc in Hc. cbn [length Nat.add].
  destruct (Scan_loop_frame (length fs + k) d s f pre (log_bytes fs ++ post))
    as (d1 & Hs1 & [Hr|(Hb & Hr)]); [done..|intros Hh; rewrite Hh in Hle; lia| |].
  2: { exists d1. split; [done|]. by right. }
  rewrite Hr. destruct Hs1 as (Hc1 & Hd1 & Hb1).
  destruct (IH k d1 (scan_frame min_epoch s f) (pre ++ frame_bytes f) post)
    as (d2 & Hs2 & Hr2); [done|by rewrite Hc1, Hc, <- app_assoc|..].
  - unfold scan_frame. rewrite Hoff, zlen_app. by destruct (f.1 <=? min_epoch).
  - unfold scan_frame. by destruct (f.1 <=? min_epoch).
  - exists d2. split; [etransitivity; [|done]; by repeat split|].
    rewrite Hc1 in Hr2. destruct Hr2 as [Hr2|[Hb Hr2]]; [by left|]. right. naive_solver.
Qed.

End intact.
(** What the locals are after a run of frames. *)
Lemma scan_log_offset min_epoch fs : forall s,
  sc_offset (scan_log min_epoch s fs) = sc_offset s + zlen (log_bytes fs).
Proof.
  induction fs as [|f fs IH]; intros s; [cbn; zl|]. unfold scan_log in *. cbn [fold_left].
  rewrite IH, log_bytes_cons, zlen_app. unfold scan_frame.
  destruct (f.1 <=? min_epoch); cbn; lia.
Qed.

Lemma scan_log_records min_epoch fs : forall s,
  sc_records (scan_log min_epoch s fs) = sc_records s ++ log_records min_epoch fs.
Proof.
  induction fs as [|f fs IH]; intros s; [cbn; by rewrite app_nil_r|].
  unfold scan_log in *. cbn [fold_left]. rewrite IH. unfold scan_frame, log_records.
  rewrite filter_cons. destruct (Z.leb_spec f.1 min_epoch); case_decide; try lia; [done|].
  cbn. by rewrite <- app_assoc.
Qed.

Lemma scan_log_frontier min_epoch fs : forall s,
  sc_frontier (scan_log min_epoch s fs) = log_frontier (sc_frontier s) fs ∧
  sc_have_frame (scan_log min_epoch s fs) =
    match fs with [] => sc_have_frame s | _ => true end.
Proof.
  induction fs as [|f fs IH]; intros s; [done|]. unfold scan_log in *. cbn [fold_left log_frontier].
  destruct (IH (scan_frame min_epoch s f)) as [-> ->]. unfold scan_frame.
  split; [by destruct (f.1 <=? min_epoch)|]. by destruct fs, (f.1 <=? min_epoch).
Qed.

Lemma scan_log_skipped min_epoch fs : forall s,
  let covered := filter (fun f : frame => f.1 <= min_epoch) fs in
  sc_frames_skipped (scan_log min_epoch s fs) = sc_frames_skipped s + zlen covered ∧
  sc_bytes_skipped (scan_log min_epoch s fs) = sc_bytes_skipped s + zlen (log_bytes covered).
Proof.
  induction fs as [|f fs IH]; intros s; [cbn; by rewrite !Z.add_0_r|]. unfold scan_log in *. cbn [fold_left].
  destruct (IH (scan_frame min_epoch s f)) as [-> ->]. unfold scan_frame. rewrite filter_cons.
  destruct (Z.leb_spec f.1 min_epoch); case_decide; try lia; [|done].
  rewrite log_bytes_cons, zlen_app, zlen_cons. cbn. lia.
Qed.

Lemma log_length fs : kHeaderSize * zlen fs <= zlen (log_bytes fs).
Proof.
  induction fs as [|f fs IH]; [done|]. rewrite log_bytes_cons, zlen_app, zlen_frame_bytes. zl.
Qed.

Lemma epochs_from_app {A} e (fs gs : list (Z * A)) :
  epochs_from e (fs ++ gs) <-> epochs_from e fs ∧ epochs_from (log_frontier e fs) gs.
Proof. revert e. induction fs as [|f fs IH]; intros e; cbn; [tauto|]. rewrite IH. tauto. Qed.

Lemma log_frontier_app {A} e (fs gs : list (Z * A)) : log_frontier e (fs ++ gs) = log_frontier (log_frontier e fs) gs.
Proof. revert e. induction fs as [|f fs IH]; intros e; cbn; auto. Qed.

Lemma log_records_app m fs gs : log_records m (fs ++ gs) = log_records m fs ++ log_records m gs.
Proof. unfold log_records. by rewrite filter_app, map_app, concat_app. Qed.

(** ** The loop on any bytes *)

Section any_content.
Context (w : Wal) (min_epoch : Z) (d0 : Device) (Hbytes : bytes_ok (content d0)).

Abbreviation file_size := (zlen (content d0)).

(** Whatever the file holds: the loop changes nothing on disk, it fails the log
    or leaves with at least what it started with, at a place where no intact
    frame begins. *)
Definition loop_outcome (s : Scan) (enough : Prop) (x : ScanExit) : Prop :=
  match x with
  | ScanReturns (r, w') => status r <> Ok ∧ w' = set_state w Failed
  | ScanLeaves s' anomaly _ =>
      scan_extends s s' ∧ sc_offset s' <= Z.max (sc_offset s) file_size ∧
      (enough -> (anomaly = None -> file_size <= sc_offset s') ∧
                 ¬ frame_at (content d0) (sc_offset s'))
  end.

Lemma loop_outcome_trans s s1 (P Q : Prop) x :
  scan_extends s s1 -> sc_offset s1 <= file_size -> (P -> Q) ->
  loop_outcome s1 Q x -> loop_outcome s P x.
Proof.
  intros H1 H2 HPQ. destruct x as [[r w']|s' a b]; cbn; [done|]. intros (H3 & H4 & H5).
  split; [by etransitivity|]. split; [lia|]. auto.
Qed.

Lemma leaves_here s P a broken_end :
  ¬ frame_at (content d0) (sc_offset s) -> loop_outcome s P (ScanLeaves s (Some a) broken_end).
Proof. intros H. split; [done|]. split; [lia|]. intros _. done. Qed.

(** An anomalous header is not the header of an intact frame. *)
Lemma no_frame_anomaly s a :
  header_anomaly (slice (sc_offset s) kHeaderSize (content d0)) = Some a ->
  ¬ frame_at (content d0) (sc_offset s).
Proof.
  intros Han Hf%frame_at_header. destruct Hf as (F1 & F2 & F3 & F4 & F5 & _).
  unfold header_anomaly in Han. rewrite F1, F2, F3, !Z.eqb_refl in Han. cbn in Han.
  revert Han. by zcase.
Qed.

Lemma Scan_loop_any fuel : forall d s,
  same_file d0 d -> 0 <= sc_offset s ->
  let '(x, d') := Scan_loop fuel w d min_epoch file_size s in
  same_file d0 d' ∧
  loop_outcome s (file_size - sc_offset s < Z.of_nat fuel * kHeaderSize) x.
Proof.
  induction fuel as [|fuel IH]; intros d s Hd Ho; cbn [Scan_loop].
  all: pose proof (frame_at_header (content d0) (sc_offset s)) as Hfr; cbn zeta in Hfr.
  { split; [done|]. split; [done|]. split; [lia|]. intros Hen. cbn in Hen.
    split; [lia|]. intros Hf%Hfr. unfold kHeaderSize in *. lia. }
  destruct (Z.ltb_spec (sc_offset s) file_size) as [Hlt|Hge]; cbn [negb].
  2: { split; [done|]. split; [done|]. split; [lia|]. intros _. split; [done|].
       intros Hf%Hfr. unfold kHeaderSize in *. lia. }
  destruct (Z.ltb_spec (file_size - sc_offset s) kHeaderSize) as [Hsm|Hsm].
  { split; [done|]. apply leaves_here. intros Hf%Hfr. lia. }
  destruct (PreadAll_same d0 d kHeaderSize (sc_offset s)) as (d1 & Hd1 & [Hr|(Hb & e & Hr)]);
    [done..|lia| |]; rewrite Hr; [|done].
  pose proof (no_frame_anomaly s) as Hna.
  set (header := slice (sc_offset s) kHeaderSize (content d0)) in *.
  assert (0 <= hdr_payload_size header) as Hnn by (unfold header; auto with lineair).
  clearbody header. destruct (header_anomaly header) as [a|].
  { destruct (HeaderIsTornPrefix header); (split; [done|]); [|done]. by apply leaves_here, (Hna a). }
  destruct (Z.ltb_spec file_size (sc_offset s + kHeaderSize + hdr_payload_size header)) as [He|He].
  { split; [done|]. apply leaves_here. intros Hf%Hfr. lia. }
  destruct (PreadAll_same d0 d1 (hdr_payload_size header) (sc_offset s + kHeaderSize))
    as (d2 & Hd2 & [Hr2|(Hb & e & Hr2)]); [done|unfold kHeaderSize; lia|lia|lia| |];
    rewrite Hr2; [|done].
  set (payload := slice _ _ _) in *.
  destruct (Z.eqb_spec (frame_crc header payload) (hdr_crc header)) as [Hcrc|Hcrc]; cbn [negb].
  2: { split; [done|]. apply leaves_here. intros Hf%Hfr. apply Hcrc.
       by destruct Hf as (_ & _ & _ & _ & _ & _ & _ & ->). }
  destruct (sc_have_frame s && (hdr_epoch header <? sc_frontier s)) eqn:Hreg; [done|].
  destruct (hdr_epoch header =? 0); [done|].
  assert (∀ s1, (∃ extra, sc_records s1 = sc_records s ++ extra) ->
     sc_offset s1 = sc_offset s + kHeaderSize + hdr_payload_size header ->
     sc_have_frame s1 = true -> sc_frontier s1 = hdr_epoch header ->
     let '(x, d') := Scan_loop fuel w d2 min_epoch file_size s1 in same_file d0 d' ∧
     loop_outcome s (file_size - sc_offset s < Z.of_nat (S fuel) * kHeaderSize) x) as Hnext.
  { intros s1 Hrec Hoff Hhave Hfro. specialize (IH d2 s1 Hd2).
    destruct (Scan_loop fuel w d2 min_epoch file_size s1) as [x d'].
    destruct IH as [Hs Hx]; [unfold kHeaderSize in *; lia|]. split; [done|].
    eapply (loop_outcome_trans s s1); [| | |exact Hx]; [|lia|unfold kHeaderSize in *; lia].
    split; [done|]. split; [unfold kHeaderSize in *; lia|]. intros Hh. rewrite Hh in Hreg.
    apply Z.ltb_ge in Hreg. split; [done|lia]. }
  destruct (hdr_epoch header <=? min_epoch).
  { apply Hnext; try done. exists []. by rewrite app_nil_r. }
  destruct (DecodePayload _ _); [|done]. apply Hnext; try done. by eexists.
Qed.

(** The bytes at an offset whose header and payload pass the checks of a full
    scan are those of a valid frame. *)
Lemma accepted_frame pre post header payload rs :
  content d0 = pre ++ post ->
  header = slice (zlen pre) kHeaderSize (content d0) ->
  payload = slice (zlen pre + kHeaderSize) (hdr_payload_size header) (content d0) ->
  zlen pre + kHeaderSize + hdr_payload_size header <= file_size ->
  header_anomaly header = None -> frame_crc header payload = hdr_crc header ->
  hdr_epoch header <> 0 -> DecodePayload (hdr_epoch header) payload = inl rs ->
  frame_ok (hdr_epoch header, payload) ∧
  zlen (frame_bytes (hdr_epoch header, payload)) = kHeaderSize + hdr_payload_size header ∧
  ∃ post', post = frame_bytes (hdr_epoch header, payload) ++ post'.
Proof.
  intros Hc Hh Hp Hle Han Hcrc He Hdec.
  assert (bytes_ok header) as Hhok by (rewrite Hh; auto with lineair).
  assert (0 <= hdr_payload_size header) as Hnn by auto with lineair.
  assert (zlen header = kHeaderSize) as Hhl.
  { rewrite Hh. apply zlen_slice; unfold kHeaderSize in *; zl. }
  assert (zlen payload = hdr_payload_size header) as Hpl.
  { rewrite Hp. apply zlen_slice; unfold kHeaderSize in *; zl. }
  assert (is_u32 (hdr_epoch header)) as Hu.
  { apply GetLe32_u32; [by apply Forall_drop|]. unfold zlen, kHeaderSize in Hhl.
    rewrite length_drop. lia. }
  assert (frame_bytes (hdr_epoch header, payload) = header ++ payload) as Hfb
    by (symmetry; by apply accepted_is_encoded).
  split; [|split].
  - split; [unfold is_u32 in Hu; cbn; lia|]. split; [|split; [|eauto]].
    + cbn. unfold header_anomaly in Han. revert Han. by zcase.
    + cbn. rewrite Hp. auto with lineair.
  - rewrite Hfb, zlen_app. lia.
  - exists (drop (length (header ++ payload)) post). rewrite Hfb.
    rewrite <- (take_drop (length (header ++ payload)) post) at 1. f_equal.
    rewrite Hp, Hh at 2. rewrite slice_split by (unfold kHeaderSize in *; zl).
    rewrite Hc. unfold slice. rewrite to_nat_zlen, drop_app_length. f_equal.
    unfold zlen in Hhl, Hpl. rewrite length_app. lia.
Qed.

(** One round of a full scan: it stops, or it consumes a valid frame. *)
Lemma Scan_loop_round fuel d s pre post :
  same_file d0 d -> content d0 = pre ++ post -> sc_offset s = zlen pre ->
  (∃ r d', Scan_loop (S fuel) w d 0 file_size s = (ScanReturns r, d')) ∨
  (∃ a b d', Scan_loop (S fuel) w d 0 file_size s = (ScanLeaves s a b, d')) ∨
  ∃ f post' d', same_file d0 d' ∧ frame_ok f ∧ post = frame_bytes f ++ post' ∧
    (if sc_have_frame s then sc_frontier s else 0) <= f.1 ∧
    Scan_loop (S fuel) w d 0 file_size s = Scan_loop fuel w d' 0 file_size (scan_frame 0 s f).
Proof.
  intros Hd Hc Hoff. cbn [Scan_loop]. rewrite Hoff.
  destruct (Z.ltb_spec (zlen pre) file_size) as [Hlt|Hge]; cbn [negb]; [|by eauto 6].
  destruct (Z.ltb_spec (file_size - zlen pre) kHeaderSize) as [Hsm|Hsm]; [by eauto 6|].
  destruct (PreadAll_same d0 d kHeaderSize (zlen pre)) as (d1 & Hd1 & [Hr|(Hb & e & Hr)]);
    [done|zl|done|lia| |]; rewrite Hr; [|by eauto 6].
  pose proof (accepted_frame pre post (slice (zlen pre) kHeaderSize (content d0))) as Hacc.
  set (header := slice (zlen pre) kHeaderSize (content d0)) in *.
  assert (0 <= hdr_payload_size header) as Hnn by (unfold header; auto with lineair).
  destruct (header_anomaly header) as [a|] eqn:Han;
    [destruct (HeaderIsTornPrefix header); by eauto 6|].
  destruct (Z.ltb_spec file_size (zlen pre + kHeaderSize + hdr_payload_size header)) as [He|He];
    [by eauto 6|].
  destruct (PreadAll_same d0 d1 (hdr_payload_size header) (zlen pre + kHeaderSize))
    as (d2 & Hd2 & [Hr2|(Hb & e & Hr2)]); [done|unfold kHeaderSize; zl|lia|lia| |];
    rewrite Hr2; [|by eauto 6].
  set (payload := slice (zlen pre + kHeaderSize) _ _) in *.
  destruct (Z.eqb_spec (frame_crc header payload) (hdr_crc header)) as [Hcrc|Hcrc]; cbn [negb];
    [|by eauto 6].
  destruct (sc_have_frame s && (hdr_epoch header <? sc_frontier s)) eqn:Hreg; [by eauto 6|].
  destruct (Z.eqb_spec (hdr_epoch header) 0) as [Hz|Hz]; [by eauto 6|].
  assert (0 <= hdr_epoch header) as Hep
    by (apply GetLe32_nonneg, Forall_drop; unfold header; by apply bytes_ok_slice).
  destruct (Z.leb_spec (hdr_epoch header) 0); [lia|].
  destruct (DecodePayload (hdr_epoch header) payload) as [rs|] eqn:Hdec; [|by eauto 6].
  destruct (Hacc payload rs) as (Hok & Hlen & post' & Hpost); [done..|].
  right; right. exists (hdr_epoch header, payload), post', d2. split; [done|]. split; [done|].
  split; [done|]. split; [cbn; destruct (sc_have_frame s); [by apply Z.ltb_ge in Hreg|lia]|].
  unfold scan_frame, frame_records. cbn [fst snd]. rewrite Hdec, Hlen, Hoff, <- !Z.add_assoc.
  replace (hdr_epoch header <=? 0) with false by (symmetry; by apply Z.leb_gt). done.
Qed.

(** A full scan consumes a run of valid frames and nothing else. *)
Lemma Scan_loop_accepts fuel : forall d s pre post,
  same_file d0 d -> content d0 = pre ++ post -> sc_offset s = zlen pre ->
  match (Scan_loop fuel w d 0 file_size s).1 with
  | ScanReturns _ => True
  | ScanLeaves s' _ _ => ∃ gs post', post = log_bytes gs ++ post' ∧ Forall frame_ok gs ∧
      epochs_from (if sc_have_frame s then sc_frontier s else 0) gs ∧ s' = scan_log 0 s gs
  end.
Proof.
  induction fuel as [|fuel IH]; intros d s pre post Hd Hc Hoff; [by exists [], post|].
  destruct (Scan_loop_round fuel d s pre post Hd Hc Hoff) as [(r & d' & ->)|[(a & b & d' & ->)|Hn]];
    [done|by exists [], post|].
  destruct Hn as (f & post' & d' & Hd' & Hok & -> & Hle & ->).
  specialize (IH d' (scan_frame 0 s f) (pre ++ frame_bytes f) post' Hd').
  assert (sc_have_frame (scan_frame 0 s f) = true ∧ sc_frontier (scan_frame 0 s f) = f.1 ∧
    sc_offset (scan_frame 0 s f) = zlen (pre ++ frame_bytes f)) as (Hh & Hf & Ho).
  { unfold scan_frame. rewrite zlen_app, Hoff. by destruct (f.1 <=? 0). }
  rewrite Hh, Hf in IH. specialize (IH ltac:(by rewrite <- app_assoc) Ho).
  destruct (Scan_loop fuel w d' 0 file_size (scan_frame 0 s f)) as [[r|s' a b] d2]; [done|].
  destruct IH as (gs & post2 & -> & Hoks & Hep & ->). exists (f :: gs), post2.
  rewrite log_bytes_cons, <- app_assoc. split; [done|]. split; [by constructor|]. done.
Qed.

End any_content.
(** ** Hopping *)

(** The scan's locals after a hop. *)
Definition hop_scan (h : Hop) : Scan :=
  mkScanLocals [] (hop_frontier h) (hop_have_frame h) (hop_frames_skipped h)
    (hop_bytes_skipped h) (hop_offset h).

(** The guard lies within the file. *)
Definition guard_in (c : bytestring) (h : Hop) : Prop :=
  match hop_guard h with
  | None => True
  | Some (at_, size, _) => 0 <= at_ ∧ 0 <= size ∧ at_ + kHeaderSize + size <= zlen c
  end.

(** The guard's payload matches its checksum. *)
Definition guard_intact (c : bytestring) (h : Hop) : Prop :=
  match hop_guard h with
  | None => True
  | Some (at_, size, header) =>
      frame_crc header (slice (at_ + kHeaderSize) size c) = hdr_crc header
  end.

Section hop.
Context (min_epoch : Z) (d0 : Device) (Hbytes : bytes_ok (content d0)).

Abbreviation file_size := (zlen (content d0)).

(** On any bytes a hop moves forward and stays in the file. *)
Lemma Hop_loop_any fuel : forall d h,
  same_file d0 d -> 0 <= hop_offset h <= file_size -> guard_in (content d0) h ->
  let '(r, d') := Hop_loop fuel d min_epoch file_size h in
  same_file d0 d' ∧
  match r with
  | inl h' => scan_extends (hop_scan h) (hop_scan h') ∧ hop_offset h' <= file_size ∧
              guard_in (content d0) h'
  | inr _ => True
  end.
Proof.
  induction fuel as [|fuel IH]; intros d h Hd [Ho1 Ho2] Hg; cbn [Hop_loop]; [done|].
  destruct (Z.ltb_spec (hop_offset h) file_size) as [Hlt|Hge]; cbn [negb]; [|done].
  destruct (Z.ltb_spec (file_size - hop_offset h) kHeaderSize) as [Hsm|Hsm]; [done|].
  destruct (PreadAll_same d0 d kHeaderSize (hop_offset h)) as (d1 & Hd1 & [Hr|(Hb & e & Hr)]);
    [done|lia|done|lia| |]; rewrite Hr; [|done].
  set (header := slice (hop_offset h) kHeaderSize (content d0)).
  assert (0 <= hdr_payload_size header) as Hnn by (unfold header; auto with lineair).
  clearbody header. destruct (_ || _); [by destruct (HeaderIsTornPrefix header)|].
  destruct (Z.ltb_spec file_size (hop_offset h + kHeaderSize + hdr_payload_size header)); [done|].
  destruct (hop_have_frame h && (hdr_epoch header <? hop_frontier h)) eqn:Hreg; [done|].
  destruct (hdr_epoch header =? 0); [done|]. destruct (min_epoch <? hdr_epoch header); [done|].
  set (h1 := mkHop _ _ _ _ _ _). specialize (IH d1 h1 Hd1).
  destruct (Hop_loop fuel d1 min_epoch file_size h1) as [r d2].
  destruct IH as [Hs Hr']; [cbn; unfold kHeaderSize in *; lia|cbn; lia|]. split; [done|].
  destruct r as [h'|]; [|done]. destruct Hr' as (He & Hr'). split; [|done].
  etransitivity; [|exact He]. split; [by exists []|].
  split; [cbn; unfold kHeaderSize in *; lia|].
  cbn. intros Hh. rewrite Hh in Hreg. split; [done|]. by apply Z.ltb_ge in Hreg.
Qed.

(** A header the hop accepts. *)
Lemma hop_header_ok header :
  header_anomaly header = None ->
  negb (hdr_magic header =? kMagic) || negb (hdr_version header =? kVersion) ||
  negb (hdr_flags header =? kFlags) || (kMaxPayloadSize <? hdr_payload_size header) = false.
Proof.
  unfold header_anomaly. destruct (hdr_magic header =? kMagic), (hdr_version header =? kVersion),
    (hdr_flags header =? kFlags), (kMaxPayloadSize <? hdr_payload_size header); done.
Qed.

(** A header of zeroes is what a torn header of length zero looks like. *)
Lemma zero_header pre n :
  kHeaderSize <= n ->
  let header := slice (zlen pre) kHeaderSize (pre ++ zeroes n) in
  header_anomaly header = Some MagicMismatch ∧ HeaderIsTornPrefix header = true.
Proof.
  intros Hn. replace (zeroes n) with (zeroes kHeaderSize ++ zeroes (n - kHeaderSize))
    by (rewrite zeroes_app by (unfold kHeaderSize in *; lia); f_equal; lia).
  change kHeaderSize with (zlen (zeroes kHeaderSize)) at 1. rewrite slice_mid. done.
Qed.

(** The hop over trailing zeroes. *)
Lemma Hop_loop_zeroes fuel d h pre n :
  same_file d0 d -> content d0 = pre ++ zeroes n -> hop_offset h = zlen pre -> 0 <= n ->
  benign (oracle d0) ->
  (Hop_loop (S fuel) d min_epoch file_size h).1 ∈ [inl h; inr 0].
Proof.
  intros Hd Hc Hoff Hn Hb. cbn [Hop_loop]. rewrite Hoff.
  assert (file_size = zlen pre + n) as Hfs by (rewrite Hc, zlen_app, zlen_zeroes; lia).
  destruct (Z.ltb_spec (zlen pre) file_size); cbn [negb]; [|by left].
  destruct (Z.ltb_spec (file_size - zlen pre) kHeaderSize); [by right; left|].
  destruct (PreadAll_same d0 d kHeaderSize (zlen pre)) as (d1 & Hd1 & [Hr|(Hnb & _)]);
    [done|zl|done|lia| |done]. rewrite Hr, Hc.
  destruct (zero_header pre n) as [Ha Ht]; [lia|]. rewrite Ht.
  destruct (_ || _) eqn:E; [by left|].
  unfold header_anomaly in Ha. rewrite !orb_false_iff in E. destruct E as [[[E1 E2] E3] E4].
  by rewrite E1, E2, E3, E4 in Ha.
Qed.

(** One round of the hop on an intact frame. *)
Lemma Hop_loop_frame fuel d h f pre post :
  same_file d0 d -> frame_ok f -> content d0 = pre ++ frame_bytes f ++ post ->
  hop_offset h = zlen pre -> (hop_have_frame h = true -> hop_frontier h <= f.1) ->
  let h' := mkHop (zlen pre + zlen (frame_bytes f)) f.1 true (hop_frames_skipped h + 1)
    (hop_bytes_skipped h + zlen (frame_bytes f))
    (Some (zlen pre, zlen f.2, header20 f.1 f.2)) in
  ∃ d', same_file d0 d' ∧
    (Hop_loop (S fuel) d min_epoch file_size h =
       (if min_epoch <? f.1 then (inl h, d') else Hop_loop fuel d' min_epoch file_size h') ∨
     ¬ benign (oracle d0) ∧ ∃ e, Hop_loop (S fuel) d min_epoch file_size h = (inr e, d')).
Proof.
  intros Hd ([He0 He] & Hsz & Hpok & _) Hc Hoff Hmono.
  assert (is_u32 f.1) as Heu by (unfold is_u32; lia).
  destruct (frame_slices f.1 f.2 pre post) as [Hs1 _].
  change (EncodeFrame f.1 f.2) with (frame_bytes f) in Hs1. rewrite <- Hc in Hs1.
  destruct (hdr_fields f.1 f.2 Heu Hsz Hpok) as (_ & _ & _ & Hps & Hepo & _).
  pose proof (zlen_frame_bytes f) as Hlen.
  assert (file_size = zlen pre + zlen (frame_bytes f) + zlen post) as Hfs by (rewrite Hc; zl).
  cbn [Hop_loop]. rewrite Hoff.
  destruct (Z.ltb_spec (zlen pre) file_size); [|unfold kHeaderSize in *; zl]. cbn [negb].
  destruct (Z.ltb_spec (file_size - zlen pre) kHeaderSize); [zl|].
  destruct (PreadAll_same d0 d kHeaderSize (zlen pre)) as (d1 & Hd1 & [Hr|(Hb & e & Hr)]);
    [done|zl|done|zl| |]; rewrite Hr; exists d1; (split; [done|]); [left|right; eauto].
  rewrite Hs1, (hop_header_ok _ (header_anomaly_none f.1 f.2 Heu Hsz Hpok)), Hps, Hepo.
  destruct (Z.ltb_spec file_size (zlen pre + kHeaderSize + zlen f.2)); [zl|].
  replace (hop_have_frame h && (f.1 <? hop_frontier h)) with false.
  2: { destruct (hop_have_frame h); [|done]. specialize (Hmono eq_refl). cbn. by zcase. }
  destruct (Z.eqb_spec f.1 0); [lia|]. by rewrite Hlen, <- !Z.add_assoc.
Qed.

(** The hop on a run of intact frames that are all covered. *)
Lemma Hop_loop_covered fs : forall k d h pre post,
  same_file d0 d -> Forall frame_ok fs -> Forall (fun f => f.1 <= min_epoch) fs ->
  content d0 = pre ++ log_bytes fs ++ post -> hop_offset h = zlen pre ->
  epochs_from (if hop_have_frame h then hop_frontier h else 0) fs ->
  guard_in (content d0) h -> guard_intact (content d0) h ->
  ∃ d', same_file d0 d' ∧
    ((∃ h', Hop_loop (length fs + k) d min_epoch file_size h =
              Hop_loop k d' min_epoch file_size h' ∧
            hop_scan h' = scan_log min_epoch (hop_scan h) fs ∧
            guard_in (content d0) h' ∧ guard_intact (content d0) h') ∨
     ¬ benign (oracle d0) ∧ ∃ e,
       Hop_loop (length fs + k) d min_epoch file_size h = (inr e, d')).
Proof.
  induction fs as [|f fs IH]; intros k d h pre post Hd Hok Hcov Hc Hoff Hmono Hgi Hgk.
  { exists d. split; [done|]. left. by exists h. }
  inversion_clear Hok as [|?? Hf Hfs]. inversion_clear Hcov as [|?? Hcf Hcfs].
  destruct Hmono as [Hle Hmono].
  rewrite log_bytes_cons, <- app_assoc in Hc. cbn [length Nat.add].
  destruct (Hop_loop_frame (length fs + k) d h f pre (log_bytes fs ++ post))
    as (d1 & Hd1 & [Hr|(Hb & Hr)]); [done..|intros Hh; rewrite Hh in Hle; lia| |].
  2: { exists d1. split; [done|]. by right. }
  rewrite Hr. replace (min_epoch <? f.1) with false by (by zcase).
  set (h1 := mkHop _ _ _ _ _ _).
  destruct (IH k d1 h1 (pre ++ frame_bytes f) post) as (d2 & Hs2 & Hr2);
    [done..|by rewrite Hc, <- app_assoc|by rewrite zlen_app|done| | |].
  - cbn. pose proof (zlen_frame_bytes f). split; [zl|]. split; [zl|]. rewrite Hc. zl.
  - cbn. destruct Hf as (He & Hsz & Hpok & _).
    destruct (frame_slices f.1 f.2 pre (log_bytes fs ++ post)) as [_ Hs].
    change (EncodeFrame f.1 f.2) with (frame_bytes f) in Hs. rewrite <- Hc in Hs.
    rewrite Hs. destruct (hdr_fields f.1 f.2) as (_ & _ & _ & _ & _ & Hcrc);
      [unfold is_u32; lia|done|done|done].
  - exists d2. split; [done|]. destruct Hr2 as [(h' & -> & Hh' & Hg')|Hr2]; [left|by right].
    exists h'. split; [done|]. split; [|done]. rewrite Hh'. unfold scan_log. cbn [fold_left].
    f_equal. unfold scan_frame. replace (f.1 <=? min_epoch) with true by (by zcase).
    unfold hop_scan, h1. cbn. by rewrite Hoff.
Qed.

Lemma covered_split fs : ∃ done rest, fs = done ++ rest ∧
  Forall (fun f : frame => f.1 <= min_epoch) done ∧
  (rest = [] ∨ ∃ f rest', rest = f :: rest' ∧ min_epoch < f.1).
Proof.
  induction fs as [|f fs (done & rest & -> & H1 & H2)]; [by exists [], []; auto|].
  destruct (Z_lt_dec min_epoch f.1).
  - exists [], (f :: done ++ rest). split; [done|]. split; [done|]. right. eauto.
  - exists (f :: done), rest. split; [done|]. split; [constructor; [lia|done]|done].
Qed.

(** ** Where the scan starts *)

(** A start from which nothing of [fs] is lost: after some of the frames, all
    of which are covered, or beyond all of them. *)
Definition good_start (fs : list frame) (s : Scan) : Prop :=
  sc_offset s <= file_size ∧ ∃ done rest, fs = done ++ rest ∧
  (s = scan_log min_epoch scan_start done ∨
   rest = [] ∧ scan_extends (scan_log min_epoch scan_start done) s).

Lemma good_start_0 fs : good_start fs scan_start.
Proof. split; [cbn; zl|]. exists [], fs. auto. Qed.

Lemma frame_fuel_length fs post :
  content d0 = log_bytes fs ++ post -> ∃ k, frame_fuel file_size = (length fs + S k)%nat ∧
  zlen post < Z.of_nat (S k) * kHeaderSize.
Proof.
  intros Hc. pose proof (log_length fs) as Hl. unfold frame_fuel.
  assert (file_size = zlen (log_bytes fs) + zlen post) as -> by (rewrite Hc; zl).
  set (q := (zlen (log_bytes fs) + zlen post) / kHeaderSize).
  assert (zlen (log_bytes fs) + zlen post < kHeaderSize * (q + 1)) as Hq
    by (apply Z.mul_succ_div_gt; done).
  assert (zlen fs <= q) by (apply Z.div_le_lower_bound; [done|zl]).
  exists (Z.to_nat q - length fs)%nat. unfold zlen, kHeaderSize in *. lia.
Qed.

Definition hop_start : Hop := mkHop 0 0 false 0 0 None.

Lemma HopCoveredFrames_spec d fs post :
  same_file d0 d -> log_ok fs -> content d0 = log_bytes fs ++ post ->
  let '(r, d') := HopCoveredFrames d min_epoch file_size in
  same_file d0 d' ∧
  match r with
  | inl h => good_start fs (hop_scan h) ∧ guard_in (content d0) h
  | inr _ => True
  end ∧
  (∀ n, benign (oracle d0) -> 0 <= n -> post = zeroes n ->
   match r with
   | inl h => guard_intact (content d0) h ∧ ∃ covered rest, fs = covered ++ rest ∧
              hop_scan h = scan_log min_epoch scan_start covered
   | inr e => e = 0
   end).
Proof.
  intros Hd [Hok Hep] Hc. destruct (covered_split fs) as (dn & rest & Hfs & Hcov & Hrest).
  rewrite Hfs in Hok, Hep. apply Forall_app in Hok as [Hok1 Hok2].
  apply epochs_from_app in Hep as [Hep1 Hep2].
  rewrite Hfs, log_bytes_app, <- app_assoc in Hc.
  destruct (frame_fuel_length dn _ Hc) as (k & Hk & _). unfold HopCoveredFrames. rewrite Hk.
  fold hop_start.
  destruct (Hop_loop_covered dn (S k) d hop_start [] (log_bytes rest ++ post))
    as (d1 & Hd1 & [(h1 & -> & Hh1 & Hgi & Hgk)|(Hnb & e & ->)]); [done..| |naive_solver].
  change (hop_scan hop_start) with scan_start in Hh1.
  assert (hop_offset h1 = zlen (log_bytes dn)) as Hoff.
  { change (hop_offset h1) with (sc_offset (hop_scan h1)). by rewrite Hh1, scan_log_offset. }
  assert (hop_offset h1 <= file_size) as Hle by (rewrite Hoff, Hc; zl).
  assert (good_start fs (hop_scan h1)) as Hgood by (split; [done|]; exists dn, rest; auto).
  destruct Hrest as [->|(f & rest' & -> & Hf)].
  - pose proof (Hop_loop_any (S k) d1 h1 Hd1) as Hany.
    pose proof (Hop_loop_zeroes k d1 h1 (log_bytes dn)) as Hz.
    destruct (Hop_loop (S k) d1 min_epoch file_size h1) as [r d2]. rewrite app_nil_r in Hfs.
    destruct Hany as [Hd2 Hr]; [rewrite Hoff in *; zl|done|]. split; [done|]. split.
    + destruct r as [h2|]; [|done]. destruct Hr as (Hext & Hle2 & Hg2). split; [|done].
      split; [done|]. exists dn, []. rewrite app_nil_r. split; [done|]. right.
      by rewrite <- Hh1.
    + intros n Hb Hn ->. specialize (Hz n Hd1 Hc Hoff Hn Hb). cbn in Hz.
      set_unfold in Hz. destruct Hz as [->|[->|[]]]; [|done]. split; [done|].
      exists dn, []. by rewrite app_nil_r.
  - cbn in Hep2. inversion_clear Hok2 as [|?? Hokf _].
    rewrite log_bytes_cons, <- app_assoc in Hc.
    destruct (Hop_loop_frame k d1 h1 f (log_bytes dn) (log_bytes rest' ++ post))
      as (d2 & Hd2 & [Hr|(Hnb & e & Hr)]); [done..| | |]; rewrite ?Hr; [|..|naive_solver].
    + intros _. change (hop_frontier h1) with (sc_frontier (hop_scan h1)).
      rewrite Hh1. destruct (scan_log_frontier min_epoch dn scan_start) as [-> _]. apply Hep2.
    + replace (min_epoch <? f.1) with true by (by zcase). split; [done|]. split; [done|].
      intros _ _ _ _. eauto.
Qed.

Lemma ScanStart_spec w d fs post :
  same_file d0 d -> log_ok fs -> content d0 = log_bytes fs ++ post ->
  let '(r, d') := ScanStart w d min_epoch file_size in
  same_file d0 d' ∧
  match r with
  | inl s => good_start fs s
  | inr (res, w') => status res <> Ok ∧ w' = set_state w Failed
  end ∧
  (∀ n, benign (oracle d0) -> 0 <= n -> post = zeroes n ->
   ∃ covered rest, fs = covered ++ rest ∧ r = inl (scan_log min_epoch scan_start covered)).
Proof.
  intros Hd Hok Hc. unfold ScanStart.
  assert (∃ covered rest, fs = covered ++ rest ∧
    inl scan_start = inl (scan_log min_epoch scan_start covered)
      :> Scan + WalScanResult * Wal) as H0 by (by exists [], fs).
  pose proof (good_start_0 fs) as Hg0. destruct (min_epoch =? 0); [by eauto|].
  pose proof (HopCoveredFrames_spec d fs post Hd Hok Hc) as HH.
  destruct (HopCoveredFrames d min_epoch file_size) as [[h|e] d1];
    destruct HH as (Hd1 & Hr & Hz).
  2: { destruct (Z.eqb_spec e 0) as [->|Hne]; cbn [negb]; [by eauto|].
       split; [done|]. split; [done|]. intros n Hb Hn Hp. by specialize (Hz n Hb Hn Hp). }
  destruct Hr as [Hgood Hin]. fold (hop_scan h). unfold guard_in, guard_intact in *.
  destruct (hop_guard h) as [[[at_ size] header]|].
  2: { split; [done|]. split; [done|]. intros n Hb Hn Hp.
       destruct (Hz n Hb Hn Hp) as (_ & cov & rest & Hfs & ->). eauto. }
  destruct Hin as (Hi1 & Hi2 & Hi3).
  destruct (PreadAll_same d0 d1 size (at_ + kHeaderSize)) as (d2 & Hd2 & [Hr|(Hnb & e & Hr)]);
    [done|unfold kHeaderSize; lia|lia|lia| |]; rewrite Hr; [|naive_solver].
  destruct (Z.eqb_spec (frame_crc header (slice (at_ + kHeaderSize) size (content d0)))
    (hdr_crc header)) as [Heq|Hneq]; cbn [negb]; [|by eauto].
  split; [done|]. split; [done|]. intros n Hb Hn Hp.
  destruct (Hz n Hb Hn Hp) as (_ & cov & rest & Hfs & ->). eauto.
Qed.

(** The main loop from a good start. *)
Lemma Scan_loop_recovers w d s fs post :
  same_file d0 d -> log_ok fs -> content d0 = log_bytes fs ++ post -> good_start fs s ->
  let '(x, d') := Scan_loop (frame_fuel file_size) w d min_epoch file_size s in
  same_file d0 d' ∧ loop_outcome w d0 (scan_log min_epoch scan_start fs) True x.
Proof.
  intros Hd [Hok Hep] Hc (Hle & dn & rest & -> & Hs).
  rewrite log_bytes_app in Hc. apply Forall_app in Hok as [_ Hok2].
  apply epochs_from_app in Hep as [_ Hep2].
  assert (scan_log min_epoch scan_start (dn ++ rest) =
          scan_log min_epoch (scan_log min_epoch scan_start dn) rest) as Happ
    by apply fold_left_app.
  set (s0 := scan_log min_epoch scan_start dn) in *.
  assert (sc_offset s0 = zlen (log_bytes dn)) as Hoff by apply scan_log_offset.
  assert (sc_offset s0 + zlen (log_bytes rest) <= file_size) as Hin by (rewrite Hoff, Hc; zl).
  assert (∀ k s1 d1, same_file d0 d1 -> 0 <= sc_offset s1 <= file_size ->
    scan_extends (scan_log min_epoch s0 rest) s1 ->
    file_size - sc_offset s1 < Z.of_nat k * kHeaderSize ->
    let '(x, d') := Scan_loop k w d1 min_epoch file_size s1 in
    same_file d0 d' ∧ loop_outcome w d0 (scan_log min_epoch s0 rest) True x) as Hend.
  { intros k s1 d1 Hd1 Ho1 He1 Hk1.
    pose proof (Scan_loop_any w min_epoch d0 Hbytes k d1 s1 Hd1) as Hany.
    destruct (Scan_loop k w d1 min_epoch file_size s1) as [x d2].
    destruct Hany as [Hd2 Hx]; [lia|]. split; [done|].
    eapply loop_outcome_trans; [exact He1|lia| |exact Hx]. done. }
  rewrite Happ. destruct Hs as [->|[-> Hext]].
  - rewrite <- app_assoc in Hc.
    destruct (frame_fuel_length (dn ++ rest) post) as (k & Hk & Hpost);
      [by rewrite log_bytes_app, <- app_assoc|].
    rewrite length_app in Hk. replace (frame_fuel file_size) with
      (length rest + (length dn + S k))%nat by lia.
    destruct (Scan_loop_log w min_epoch rest (length dn + S k) d s0 (log_bytes dn) post)
      as (d1 & Hd1 & Hr); [done|by rewrite (proj1 Hd)|done| |].
    { destruct (scan_log_frontier min_epoch dn scan_start) as [Hf Hh]. fold s0 in Hf, Hh.
      rewrite Hf, Hh. by destruct dn. }
    rewrite (proj1 Hd) in Hr. pose proof (transitivity Hd Hd1) as Hd01.
    destruct Hr as [->|(_ & op & e & ->)]; [|done].
    apply Hend; [done| |done|]; rewrite scan_log_offset; [zl|].
    rewrite Hc, !zlen_app, Hoff. unfold kHeaderSize in *. lia.
  - apply Hend; [done| |done|].
    + destruct Hext as (_ & He & _). zl.
    + destruct Hext as (_ & He & _). unfold frame_fuel, kHeaderSize.
      assert (0 <= sc_offset s) by zl. Z.div_mod_to_equations. lia.
Qed.

(** A full scan consumes the log and whatever valid frames follow it. *)
Lemma Scan_loop_full w d fs post :
  same_file d0 d -> log_ok fs -> content d0 = log_bytes fs ++ post ->
  match (Scan_loop (frame_fuel file_size) w d 0 file_size scan_start).1 with
  | ScanReturns _ => True
  | ScanLeaves s _ _ => ∃ extra post', post = log_bytes extra ++ post' ∧
      log_ok (fs ++ extra) ∧ s = scan_log 0 scan_start (fs ++ extra)
  end.
Proof.
  intros Hd [Hok Hep] Hc. destruct (frame_fuel_length fs post Hc) as (k & -> & _).
  destruct (Scan_loop_log w 0 fs (S k) d scan_start [] post) as (d1 & Hd1 & Hr);
    [done|by rewrite (proj1 Hd)|done|done|].
  rewrite (proj1 Hd) in Hr. destruct Hr as [->|(_ & op & e & ->)]; [|done].
  pose proof (transitivity Hd Hd1) as Hd01.
  pose proof (Scan_loop_accepts w d0 Hbytes (S k) d1 (scan_log 0 scan_start fs) (log_bytes fs) post
    Hd01 Hc) as Ha. rewrite scan_log_offset in Ha. specialize (Ha eq_refl).
  destruct (Scan_loop (S k) w d1 0 file_size _) as [[r|s a b] d2]; [done|].
  destruct Ha as (gs & post' & -> & Hoks & Hep' & ->). exists gs, post'. split; [done|].
  split; [|symmetry; apply fold_left_app]. split; [by apply Forall_app|].
  apply epochs_from_app. split; [done|].
  destruct (scan_log_frontier 0 fs scan_start) as [Hf Hh]. rewrite Hf, Hh in Hep'. by destruct fs.
Qed.
End hop.
(** The frontier of a log is an epoch. *)
Lemma log_frontier_nonneg fs : log_ok fs -> ∀ e, 0 <= e -> 0 <= log_frontier e fs.
Proof.
  intros [Hfs _]. induction Hfs as [|f fs Hf Hfs IH]; intros e He; [done|]. simpl. apply IH. destruct Hf as [? _]. lia.
Qed.

End log.
