(* ===== verification/WalRecovery.v ===== *)
(** * Recovery and append: what one call of the write-ahead log does

    Lemmas on [ScanAndRepair] and [AppendGroup] as whole calls: what a scan
    that succeeds returns and leaves on disk, that a repair discards no intact
    frame, and that an append that returns success has its group on disk while
    a failed one leaves the acknowledged frames alone.  WalSystem.v puts them
    together. *)

From stdpp Require Import strings.
From S2P Require Import Prelude Crc32c Types WalDevice Wal WalFrames WalTail WalScan.

#[local] Opaque frame_crc.

(** What the log object must know of its file before a scan. *)
Definition scannable (w : Wal) (d : Device) : Prop :=
  state_ w <> Failed ∧ initialised_size_ w <= zlen (content d) ∧
  0 <= initial_capacity_bytes_ w <= OFF_T_MAX ∧ zlen (content d) <= OFF_T_MAX ∧
  bytes_ok (content d).

Section recovery.
Context {MP : MsgPack}.

(** The buckets an append is handed: a [std::map] from epochs to records, so
    its keys ascend. *)
Definition buckets_ok (buckets : list (Z * LogRecords)) : Prop :=
  Forall (fun b => is_u32 b.1 ∧ Forall LogRecord.ok b.2) buckets ∧ epochs_from 0 buckets.

(** The buckets an append encodes. *)
Definition selected (target : Z) (buckets : list (Z * LogRecords)) : list (Z * LogRecords) :=
  filter (fun b : Z * LogRecords => b.1 <= target) buckets.

Definition bucket_frame (b : Z * LogRecords) : frame := (b.1, pack b.2).

Definition group_frames (target : Z) (buckets : list (Z * LogRecords)) : list frame :=
  map bucket_frame (selected target buckets).

(** What [AppendGroup] demands of an encoded bucket. *)
Definition admissible (frontier : Z) (b : Z * LogRecords) : Prop :=
  b.2 <> [] ∧ b.1 <> 0 ∧ frontier <= b.1 ∧ Forall (fun r => LogRecord.epoch r = b.1) b.2 ∧
  zlen (pack b.2) <= kMaxPayloadSize.

(** The log is ready for an append: the file holds the frames [fs] and zeroes. *)
Definition wal_inv (w : Wal) (d : Device) (fs : list frame) : Prop :=
  state_ w = Ready ∧ log_ok fs ∧ write_offset_ w = zlen (log_bytes fs) ∧
  frontier_ w = log_frontier 0 fs ∧ initialised_size_ w = zlen (content d) ∧
  0 <= initial_capacity_bytes_ w <= OFF_T_MAX ∧ zlen (content d) <= OFF_T_MAX ∧
  ∃ n, 0 <= n ∧ content d = log_bytes fs ++ zeroes n.

Context {MPL : MsgPackLaws}.

(** ** Scanning *)

Lemma fstat_spec d :
  let '(r, d') := fstat d in
  same_file d d' ∧ match r with
                   | inl n => n = zlen (content d)
                   | inr _ => ¬ benign (oracle d)
                   end.
Proof.
  unfold fstat, same_file. destruct d as [c du [|[n|e] orc]]; cbn; [done|..].
  - split; [|done]. eauto with lineair.
  - split; [eauto with lineair|]. destruct (Z.eqb_spec e EINTR); [done|].
    intros Hb. by inversion_clear Hb.
Qed.

Lemma ScanAndRepair_unfold w d min_epoch :
  state_ w <> Failed ->
  ScanAndRepair w d min_epoch =
    match fstat d with
    | (inr e, d) => (IoFailure w "fstat" e, d)
    | (inl file_size, d) =>
        let w := set_initialised w (Z.max (initialised_size_ w) file_size) in
        match ScanStart w d min_epoch file_size with
        | (inr r, d) => (r, d)
        | (inl s, d) =>
            match Scan_loop (frame_fuel file_size) w d min_epoch file_size s with
            | (ScanReturns r, d) => (r, d)
            | (ScanLeaves s anomaly broken_end, d) =>
                RepairTail w d file_size s anomaly broken_end
            end
        end
    end.
Proof. unfold ScanAndRepair. by destruct (state_ w). Qed.

Lemma kept_prefix (l c rest : bytestring) offset c' :
  c = l ++ rest -> zlen l <= offset -> take (Z.to_nat offset) c' = take (Z.to_nat offset) c ->
  ∃ rest', c' = l ++ rest'.
Proof.
  intros -> Hl Heq. exists (drop (length l) c'). rewrite <- (take_drop (length l) c') at 1. f_equal.
  assert (take (length l) (take (Z.to_nat offset) c') = l) as H.
  { rewrite Heq, take_take, Nat.min_l by (unfold zlen in *; lia). apply take_app_length. }
  by rewrite take_take, Nat.min_l in H by (unfold zlen in *; lia).
Qed.

(** The two outcomes of a scan of a log [fs] followed by anything. *)
Lemma ScanAndRepair_spec w d min_epoch fs post :
  scannable w d -> log_ok fs -> content d = log_bytes fs ++ post ->
  let '(r, w', d') := ScanAndRepair w d min_epoch in
  (∃ s truncated, scan_extends (scan_log min_epoch scan_start fs) s ∧
     sc_offset s <= zlen (content d) ∧ r = scan_result s truncated ∧
     ready_at (content d) w (sc_offset s) (sc_frontier s) w' d' ∧
     (∀ q, sc_offset s <= q -> ¬ frame_at (content d) q) ∧
     (min_epoch = 0 -> ∃ extra post', post = log_bytes extra ++ post' ∧
        log_ok (fs ++ extra) ∧ s = scan_log 0 scan_start (fs ++ extra))) ∨
  status r <> Ok ∧ state_ w' = Failed ∧ ∃ rest, content d' = log_bytes fs ++ rest.
Proof.
  intros (Hst & Hi & Hcap & Hmax & Hbytes) Hok Hc. rewrite ScanAndRepair_unfold by done.
  assert (∀ r w' d', same_file d d' -> status r <> Ok -> state_ w' = Failed ->
    status r <> Ok ∧ state_ w' = Failed ∧ ∃ rest, content d' = log_bytes fs ++ rest) as Hfail.
  { intros r w' d' Hd' H1 H2. split; [done|]. split; [done|]. exists post. by rewrite (proj1 Hd'). }
  pose proof (fstat_spec d) as HF. destruct (fstat d) as [[n|e] d1]; destruct HF as [Hd1 Hn];
    [subst n|right; by apply Hfail].
  rewrite Z.max_r by done. set (w1 := set_initialised w _). cbn zeta.
  pose proof (ScanStart_spec min_epoch d Hbytes w1 d1 fs post Hd1 Hok Hc) as HS.
  destruct (ScanStart w1 d1 min_epoch _) as [[s|[r w']] d2] eqn:Hstart;
    destruct HS as (Hd2 & Hs & _); [|right; destruct Hs as [H1 ->]; by apply Hfail].
  pose proof (Scan_loop_recovers min_epoch d Hbytes w1 d2 s fs post Hd2 Hok Hc Hs) as HL.
  pose proof (Scan_loop_full d Hbytes w1 d2 fs post Hd2 Hok Hc) as Hfull.
  assert (min_epoch = 0 -> s = scan_start) as Hs0 by (by intros ->; injection Hstart).
  destruct (Scan_loop _ w1 d2 min_epoch _ s) as [x d3] eqn:Hloop. destruct HL as [Hd3 Hx].
  destruct x as [[r w']|s' a b]; [right; destruct Hx as [H1 ->]; by apply Hfail|].
  destruct Hx as (Hext & Hle & Hend). destruct (Hend I) as [Hnone Hno]. clear Hend.
  pose proof Hext as (_ & Hoff & _). rewrite scan_log_offset in Hoff, Hle.
  cbn [sc_offset scan_start] in Hoff, Hle.
  assert (zlen (log_bytes fs) <= zlen (content d)) by (rewrite Hc; zl).
  assert (sc_offset s' = zlen (take (Z.to_nat (sc_offset s')) (content d))) as Hsp
    by (unfold zlen in *; rewrite length_take; zl).
  set (pre := take (Z.to_nat (sc_offset s')) (content d)) in *.
  pose proof (RepairTail_spec w1 d pre (drop (Z.to_nat (sc_offset s')) (content d)) s' Hbytes)
    as HR. specialize (HR ltac:(unfold pre; by rewrite take_drop) Hsp eq_refl Hcap Hmax d3 a b Hd3 Hnone).
  destruct (RepairTail w1 d3 _ s' a b) as [[r w'] d']. destruct HR as [(Hr & Hrdy & Hnb)|Hf].
  - left. destruct Hr as [tr ->]. exists s', tr. split; [done|]. split; [lia|]. split; [done|].
    split.
    { destruct Hrdy as (Hw & Hsz & n & Hn & Hc'). split; [done|]. split; [done|]. exists n.
      split; [done|].
      rewrite Hc'. fold pre. rewrite Hsp, to_nat_zlen. by rewrite take_ge. }
    split; [intros q Hq; destruct (Z.eq_dec q (sc_offset s')) as [->|]; [done|apply Hnb; lia]|].
    intros H0. rewrite (Hs0 H0), H0 in Hloop. by rewrite Hloop in Hfull.
  - right. destruct Hf as (H1 & H2 & H3). split; [done|]. split; [done|].
    apply (kept_prefix _ (content d) post (sc_offset s')); [done|lia|].
    rewrite H3. unfold pre. by rewrite take_take, Nat.min_id.
Qed.

(** ** A log followed by zeroes *)

Section clean.
Context (w : Wal) (d0 : Device) (pre : bytestring) (n : Z).
Context (Hbenign : benign (oracle d0)) (Hc : content d0 = pre ++ zeroes n) (Hn : 0 <= n).

Lemma clean_size : zlen (content d0) = zlen pre + n.
Proof. by rewrite Hc, zlen_app, zlen_zeroes. Qed.

Lemma Scan_loop_zeroes fuel d min_epoch s :
  same_file d0 d -> sc_offset s = zlen pre ->
  ∃ a d', same_file d0 d' ∧
    Scan_loop (S fuel) w d min_epoch (zlen (content d0)) s = (ScanLeaves s a (-1), d').
Proof.
  intros Hd Hoff. cbn [Scan_loop]. rewrite Hoff, clean_size.
  destruct (Z.ltb_spec (zlen pre) (zlen pre + n)); cbn [negb]; [|by eauto].
  destruct (Z.ltb_spec (zlen pre + n - zlen pre) kHeaderSize); [by eauto|].
  destruct (PreadAll_same d0 d kHeaderSize (zlen pre)) as (d1 & Hd1 & [Hr|(Hnb & _)]);
    [done|zl|done|rewrite clean_size; lia| |done].
  rewrite Hr, Hc. destruct (zero_header pre n) as [-> ->]; [lia|]. eauto.
Qed.

Lemma RepairTail_zeroes d s a broken_end :
  same_file d0 d -> sc_offset s = zlen pre ->
  initialised_size_ w = zlen (content d0) -> 0 <= initial_capacity_bytes_ w <= OFF_T_MAX ->
  zlen (content d0) <= OFF_T_MAX -> zlen pre + initial_capacity_bytes_ w <= OFF_T_MAX ->
  ∃ w' d', RepairTail w d (zlen (content d0)) s a broken_end = (scan_result s false, w', d') ∧
    ready_at pre w (zlen pre) (sc_frontier s) w' d' ∧ benign (oracle d').
Proof.
  intros Hd Hoff Hi Hcap Hsz Hmax. unfold RepairTail. fold (scan_result s false). rewrite Hoff.
  assert (∀ d, same_file d0 d -> ∃ w' d',
    FinishScan w d (scan_result s false) (zlen pre) = (scan_result s false, w', d') ∧
    ready_at pre w (zlen pre) (sc_frontier s) w' d' ∧ benign (oracle d')) as Hfin.
  { intros d1 (Hc1 & _ & Hb1). specialize (Hb1 Hbenign).
    pose proof (FinishScan_spec w d1 pre n (scan_result s false)) as HF.
    destruct (FinishScan _ _ _ _) as [[r w'] d']. rewrite Hc1 in HF.
    destruct HF as [Hr Hb']; [done|done|done|done|done|done|].
    destruct (Hb' Hb1 Hmax) as [-> Hb2]. exists w', d'. split; [done|]. split; [|done].
    destruct Hr as [[_ Hr]|[Hr _]]; [exact Hr|done]. }
  destruct a as [a|]; [|by apply Hfin].
  pose proof (FindLastNonZero_spec d (zlen pre) (zlen (content d0))) as HL.
  destruct (FindLastNonZero d _ _) as [[j|e] d1]; rewrite (proj1 Hd) in HL;
    (destruct HL as [Hs1 HL]; [zl|done|]).
  - replace (j <? zlen pre) with true; [apply Hfin; by etransitivity|].
    destruct HL as (Hr & Hnz & _). destruct (Z.ltb_spec j (zlen pre)) as [|Hj]; [done|].
    destruct (Hnz Hj). rewrite Hc, byte_at_app_r by done. apply byte_at_zeroes.
  - destruct HL. by apply Hd.
Qed.

End clean.

Lemma ScanAndRepair_clean w d min_epoch fs n :
  scannable w d -> log_ok fs -> benign (oracle d) -> 0 <= n ->
  content d = log_bytes fs ++ zeroes n ->
  zlen (log_bytes fs) + initial_capacity_bytes_ w <= OFF_T_MAX ->
  ∃ w' d', ScanAndRepair w d min_epoch =
      (scan_result (scan_log min_epoch scan_start fs) false, w', d') ∧
    ready_at (log_bytes fs) w (zlen (log_bytes fs)) (log_frontier 0 fs) w' d' ∧
    benign (oracle d').
Proof.
  intros (Hst & Hi & Hcap & Hmax & Hbytes) Hok Hb Hn Hc Hlim. rewrite ScanAndRepair_unfold by done.
  pose proof (fstat_spec d) as HF. destruct (fstat d) as [[m|e] d1]; destruct HF as [Hd1 Hm];
    [subst m|done].
  rewrite Z.max_r by done. set (w1 := set_initialised w _). cbn zeta.
  pose proof (ScanStart_spec min_epoch d Hbytes w1 d1 fs _ Hd1 Hok Hc) as HS.
  destruct (ScanStart w1 d1 min_epoch _) as [r d2].
  destruct HS as (Hd2 & _ & Hz). destruct (Hz n Hb Hn eq_refl) as (cov & rest & -> & ->). clear Hz.
  destruct Hok as [Hok Hep]. apply Forall_app in Hok as [_ Hok2].
  apply epochs_from_app in Hep as [_ Hep2].
  destruct (frame_fuel_length d (cov ++ rest) (zeroes n) Hc) as (k & -> & _).
  rewrite length_app. replace (length cov + length rest + S k)%nat
    with (length rest + S (length cov + k))%nat by lia.
  assert (content d2 = log_bytes cov ++ log_bytes rest ++ zeroes n) as Hc2.
  { by rewrite (proj1 Hd2), Hc, log_bytes_app, <- app_assoc. }
  destruct (Scan_loop_log w1 min_epoch rest (S (length cov + k)) d2
      (scan_log min_epoch scan_start cov) (log_bytes cov) (zeroes n))
    as (d3 & Hd3 & Hr); [done|done|by rewrite scan_log_offset| |].
  { destruct (scan_log_frontier min_epoch cov scan_start) as [-> ->]. by destruct cov. }
  rewrite (proj1 Hd2) in Hr. destruct Hr as [->|[Hnb _]]; [|by destruct Hnb; apply Hd2].
  replace (scan_log min_epoch (scan_log min_epoch scan_start cov) rest)
    with (scan_log min_epoch scan_start (cov ++ rest)) by apply fold_left_app.
  pose proof (transitivity Hd2 Hd3) as Hd03. set (fs := cov ++ rest) in *.
  assert (sc_offset (scan_log min_epoch scan_start fs) = zlen (log_bytes fs)) as Hoff
    by by rewrite scan_log_offset.
  destruct (Scan_loop_zeroes w1 d (log_bytes fs) n Hb Hc Hn (length cov + k) d3 min_epoch _ Hd03 Hoff)
    as (a & d4 & Hd4 & ->).
  destruct (scan_log_frontier min_epoch fs scan_start) as [Hfr _].
  destruct (RepairTail_zeroes w1 d (log_bytes fs) n Hb Hc Hn d4 _ a (-1) Hd4 Hoff)
    as (w' & d' & -> & Hrdy & Hb'); [done|done|done|done|]. rewrite Hfr in Hrdy. eauto.
Qed.

(** ** Encoding a group *)

Lemma selected_above target b buckets :
  target < b.1 -> epochs_from b.1 buckets -> selected target (b :: buckets) = [].
Proof.
  revert b. induction buckets as [|c buckets IH]; intros b Hb Hep; unfold selected in *;
    rewrite filter_cons_False by lia; [done|]. destruct Hep as [Hle Hep]. apply (IH c); [lia|done].
Qed.

Lemma EncodeGroup_spec frontier target buckets : forall group last e,
  epochs_from e buckets ->
  match EncodeGroup frontier target buckets group last with
  | inl (group', last') =>
      Forall (admissible frontier) (selected target buckets) ∧
      group' = group ++ log_bytes (group_frames target buckets) ∧
      last' = log_frontier last (selected target buckets)
  | inr err => (err = EINVAL ∨ err = EOVERFLOW) ∧
      ¬ Forall (admissible frontier) (selected target buckets)
  end.
Proof.
  induction buckets as [|[ep rs] buckets IH]; intros group last e Hep; cbn [EncodeGroup].
  { cbn. by rewrite app_nil_r. }
  destruct Hep as [Hle Hep]. cbn [fst] in *.
  destruct (Z.ltb_spec target ep) as [Ht|Ht].
  { unfold group_frames. rewrite (selected_above target (ep, rs)) by done. cbn.
    by rewrite app_nil_r. }
  assert (selected target ((ep, rs) :: buckets) = (ep, rs) :: selected target buckets) as Hsel
    by (unfold selected; by rewrite filter_cons_True by done).
  unfold group_frames. rewrite Hsel.
  assert (∀ err, err = EINVAL ∨ err = EOVERFLOW -> ¬ admissible frontier (ep, rs) ->
    (err = EINVAL ∨ err = EOVERFLOW) ∧
    ¬ Forall (admissible frontier) ((ep, rs) :: selected target buckets)) as Hbad.
  { intros err He Hna. split; [done|]. by intros [? _]%Forall_cons. }
  unfold admissible at 1 in Hbad. cbn [fst snd] in Hbad.
  destruct rs as [|r0 rs0]; [apply Hbad; naive_solver|]. set (rs := r0 :: rs0) in *. cbn [orb].
  destruct (Z.eqb_spec ep 0); [apply Hbad; naive_solver|].
  destruct (Z.ltb_spec ep frontier); [apply Hbad; [by left|]; intros (_ & _ & ? & _); lia|].
  destruct (forallb (fun r => LogRecord.epoch r =? ep) rs) eqn:Hall; cbn [negb].
  2: { apply Hbad; [by left|]. intros (_ & _ & _ & Hep' & _).
       apply not_true_iff_false in Hall. apply Hall, forallb_forall. intros x Hx%list_elem_of_In.
       rewrite Forall_forall in Hep'. by apply Z.eqb_eq, Hep'. }
  assert (Forall (fun r => LogRecord.epoch r = ep) rs) as Hall'.
  { rewrite forallb_forall in Hall. apply Forall_forall. intros x Hx%list_elem_of_In.
    by apply Z.eqb_eq, Hall. }
  destruct ((kMaxPayloadSize <? zlen (pack rs)) || (UINT32_MAX <? zlen (pack rs))) eqn:Hbig.
  { apply Hbad; [by right|]. intros (_ & _ & _ & _ & Hsz). apply orb_true_iff in Hbig.
    unfold kMaxPayloadSize, UINT32_MAX in *. lia. }
  apply orb_false_iff in Hbig as [Hb1%Z.ltb_ge _].
  specialize (IH (group ++ EncodeFrame ep (pack rs)) ep ep Hep).
  destruct (EncodeGroup _ _ _ _ _) as [[g l]|err].
  - destruct IH as (H1 & -> & ->). split; [by constructor|]. split; [|done].
    by rewrite <- app_assoc.
  - destruct IH as [H1 H2]. split; [done|]. by intros [_ ?]%Forall_cons.
Qed.

Lemma DecodePayload_pack frontier b :
  Forall LogRecord.ok b.2 -> admissible frontier b -> DecodePayload b.1 (pack b.2) = inl b.2.
Proof.
  intros Hok (Hne & _ & _ & Hep & _). unfold DecodePayload. rewrite unpack_pack by done.
  rewrite Z.eqb_refl. cbn [negb]. destruct b as [e [|r rs]]; [done|]. cbn [fst snd] in *.
  replace (forallb _ _) with true; [done|]. symmetry. apply forallb_forall.
  intros x Hx%list_elem_of_In. apply Z.eqb_eq. rewrite Forall_forall in Hep. by apply Hep.
Qed.

(** The frames of an admitted group are valid and carry its records. *)
Lemma group_frames_ok frontier target buckets :
  buckets_ok buckets -> Forall (admissible frontier) (selected target buckets) ->
  Forall frame_ok (group_frames target buckets) ∧
  map frame_records (group_frames target buckets) = map snd (selected target buckets).
Proof.
  intros [Hty _] Had. unfold group_frames.
  assert (Forall (fun b => is_u32 b.1 ∧ Forall LogRecord.ok b.2) (selected target buckets)) as Hty'
    by (apply Forall_forall; intros b [_ Hb]%list_elem_of_filter; revert b Hb; by apply Forall_forall).
  induction (selected target buckets) as [|b bs IH]; [done|].
  inversion_clear Had as [|?? Hb Hbs]. inversion_clear Hty' as [|?? [H1 H2] Hty2].
  destruct (IH Hbs Hty2) as [IH1 IH2]. pose proof (DecodePayload_pack frontier b H2 Hb) as Hdec.
  cbn [map]. split.
  - constructor; [|done]. destruct Hb as (Hne & Hz & _ & _ & Hsz). unfold is_u32 in H1.
    split; [cbn; lia|]. split; [done|]. split; [by apply pack_bytes_ok|]. cbn. eauto.
  - f_equal; [|done]. unfold frame_records. cbn. by rewrite Hdec.
Qed.

Lemma epochs_from_map target buckets e :
  epochs_from e (group_frames target buckets) <-> epochs_from e (selected target buckets).
Proof.
  unfold group_frames. revert e. induction (selected target buckets) as [|b bs IH]; intros e; [done|].
  cbn. by rewrite IH.
Qed.

Lemma log_frontier_map target buckets e :
  log_frontier e (group_frames target buckets) = log_frontier e (selected target buckets).
Proof.
  unfold group_frames. revert e. induction (selected target buckets) as [|b bs IH]; intros e; [done|].
  cbn. by rewrite IH.
Qed.

Lemma epochs_from_filter target buckets : forall e e',
  epochs_from e buckets -> Forall (fun b => e' <= b.1) (selected target buckets) ->
  epochs_from e' (selected target buckets).
Proof.
  unfold selected.
  induction buckets as [|b buckets IH]; intros e e' Hep Hall; [done|]. destruct Hep as [Hle Hep].
  rewrite filter_cons in *. case_decide; [|by apply (IH b.1)].
  inversion_clear Hall as [|?? H1 H2]. split; [done|]. apply (IH b.1); [done|].
  clear -Hep. revert b Hep. induction buckets as [|c buckets IH]; intros b Hep; [done|].
  destruct Hep as [Hle Hep]. rewrite filter_cons. specialize (IH c Hep).
  assert (Forall (fun b0 => b.1 <= b0.1) (filter (fun b0 : Z * LogRecords => b0.1 <= target) buckets)) as HF
    by (eapply Forall_impl; [exact IH|]; cbn; lia).
  case_decide; [by constructor|done].
Qed.

(** ** Appending a group *)

Lemma log_bytes_nil fs : log_bytes fs = [] -> fs = [].
Proof.
  intros H. pose proof (log_length fs) as Hl. rewrite H in Hl.
  destruct fs; [done|]. unfold kHeaderSize in Hl. zl.
Qed.

Lemma AppendGroup_unfold w d buckets target :
  state_ w = Ready ->
  AppendGroup w d buckets target = Some
    match EncodeGroup (frontier_ w) target buckets [] (frontier_ w) with
    | inr e => (Some e, w, d)
    | inl ([], _) => (None, w, d)
    | inl (group, last_encoded) => WriteGroup w d group last_encoded
    end.
Proof. unfold AppendGroup. intros ->. done. Qed.

(** Writing over the zeroes that follow the log. *)
Lemma overwrite_zeroes group n :
  ∃ m, 0 <= m ∧ group ++ drop (length group) (zeroes n) = group ++ zeroes m ∧
       zlen (group ++ zeroes m) = Z.max (zlen (zeroes n)) (zlen group).
Proof.
  exists (Z.max 0 (zlen (zeroes n) - zlen group)). split; [lia|].
  assert (drop (length group) (zeroes n) = zeroes (Z.max 0 (zlen (zeroes n) - zlen group))) as ->.
  { unfold zeroes. rewrite drop_replicate, zlen_replicate. f_equal. unfold zlen. lia. }
  split; [done|]. rewrite zlen_app, (zlen_zeroes (Z.max _ _)) by lia. lia.
Qed.

Lemma WriteGroup_spec w d fs new :
  wal_inv w d fs -> log_ok (fs ++ new) ->
  let '(e, w', d') := WriteGroup w d (log_bytes new) (log_frontier (frontier_ w) new) in
  match e with
  | None => wal_inv w' d' (fs ++ new) ∧ durable d' = content d'
  | Some _ => state_ w' = Failed ∧ (∃ rest, content d' = log_bytes fs ++ rest) ∧
      (benign (oracle d) ->
       OFF_T_MAX < zlen (log_bytes (fs ++ new)) + initial_capacity_bytes_ w)
  end.
Proof.
  intros (Hst & Hok & Hwo & Hfr & Hi & Hcap & Hmax & n & Hn & Hc) Hok'. unfold WriteGroup.
  pose proof (EnsureCapacityFor_spec w d Hi (write_offset_ w) (zlen (log_bytes new)) Hcap) as HE.
  rewrite log_bytes_app, zlen_app.
  destruct (EnsureCapacityFor _ _ _ _) as [[[e|] w1] d1]; rewrite Hwo in HE;
    (destruct HE as ((m & Hm & Hc1 & Hmax1) & _ & HE); [rewrite Hc in *; zl|zl|]);
    rewrite Hc, <- app_assoc, zeroes_app in Hc1 by done.
  { destruct HE as [-> Hb]. split; [done|]. split; [eauto|done]. }
  destruct HE as (-> & Hfit & _ & Hb1). cbn [write_offset_ set_initialised]. rewrite Hwo.
  pose proof (WriteAllAt_spec d1 (log_bytes fs) (zeroes (n + m)) (log_bytes new) Hc1) as HW.
  destruct (WriteAllAt d1 _ _) as [[e|] d2]; destruct HW as ((k & Hk & Hc2 & He) & _ & Hb2).
  { split; [done|]. split; [eauto|]. intros Hb. by destruct (Hb2 (Hb1 Hb)). }
  rewrite (He eq_refl), take_ge in Hc2 by done.
  pose proof (Fsync_spec d2) as HF. destruct (Fsync d2) as [[e|] d3];
    destruct HF as (Hc3 & Hdur & _ & Hb3).
  { split; [done|]. split; [rewrite Hc3; eauto|]. intros Hb.
    by destruct (Hb3 (proj2 (Hb2 (Hb1 Hb)))). }
  split; [|rewrite Hc3; by apply Hdur].
  destruct (overwrite_zeroes (log_bytes new) (n + m)) as (j & Hj & Hov & Hlen).
  rewrite Hov in Hc2.
  assert (zlen (content d3) = Z.max (zlen (content d1)) (zlen (log_bytes fs) + zlen (log_bytes new)))
    as Hz by (rewrite Hc3, Hc2, Hc1, zlen_app, Hlen, zlen_app; lia).
  unfold wal_inv. cbn. rewrite log_bytes_app, zlen_app, log_frontier_app, <- Hfr, Hz.
  split; [done|]. split; [done|]. split; [done|]. split; [done|]. split; [done|]. split; [done|].
  split; [lia|]. exists j. split; [done|]. by rewrite Hc3, Hc2, <- app_assoc.
Qed.

(** Every outcome of an append to a ready log. *)
Lemma AppendGroup_spec w d fs buckets target :
  wal_inv w d fs -> buckets_ok buckets ->
  ∃ e w' d', AppendGroup w d buckets target = Some (e, w', d') ∧
  match e with
  | None => Forall (admissible (frontier_ w)) (selected target buckets) ∧
      wal_inv w' d' (fs ++ group_frames target buckets) ∧
      (group_frames target buckets = [] ∧ w' = w ∧ d' = d ∨ durable d' = content d')
  | Some err =>
      ¬ Forall (admissible (frontier_ w)) (selected target buckets) ∧
        (err = EINVAL ∨ err = EOVERFLOW) ∧ w' = w ∧ d' = d ∨
      Forall (admissible (frontier_ w)) (selected target buckets) ∧
        state_ w' = Failed ∧ (∃ rest, content d' = log_bytes fs ++ rest) ∧
        (benign (oracle d) -> OFF_T_MAX <
           zlen (log_bytes (fs ++ group_frames target buckets)) + initial_capacity_bytes_ w)
  end.
Proof.
  intros Hinv Hb. pose proof Hinv as (Hst & [Hok Hep] & _ & Hfr & _).
  rewrite AppendGroup_unfold by done.
  pose proof (EncodeGroup_spec (frontier_ w) target buckets [] (frontier_ w) 0 (proj2 Hb)) as HE.
  destruct (EncodeGroup _ _ _ _ _) as [[group last]|err]; [|naive_solver].
  destruct HE as (Had & Hg & Hl). rewrite <- log_frontier_map in Hl. cbn [app] in Hg.
  destruct (group_frames_ok _ _ _ Hb Had) as [Hfok _].
  destruct group as [|b0 group0].
  { eexists _, _, _. split; [done|]. split; [done|]. symmetry in Hg. apply log_bytes_nil in Hg.
    rewrite Hg, app_nil_r. auto. }
  assert (log_ok (fs ++ group_frames target buckets)) as Hok'.
  { split; [by apply Forall_app|]. apply epochs_from_app. split; [done|].
    apply epochs_from_map, (epochs_from_filter _ _ 0); [apply Hb|]. rewrite <- Hfr.
    eapply Forall_impl; [exact Had|]. by intros b (_ & _ & ? & _). }
  pose proof (WriteGroup_spec w d fs _ Hinv Hok') as HW. rewrite <- Hg, <- Hl in HW.
  destruct (WriteGroup w d (b0 :: group0) last) as [[e w'] d']. exists e, w', d'.
  split; [done|]. destruct e as [e|]; [right|]; naive_solver.
Qed.

Lemma WriteGroup_holds l w d fs new last :
  wal_inv w d fs -> holds l d -> zlen l <= zlen (log_bytes fs) ->
  holds l (WriteGroup w d (log_bytes new) last).2.
Proof.
  intros (Hst & Hok & Hwo & Hfr & Hi & Hcap & Hmax & n & Hn & Hc) Hl Hle. unfold WriteGroup.
  pose proof (EnsureCapacityFor_spec w d Hi (write_offset_ w) (zlen (log_bytes new)) Hcap) as HE.
  assert (∃ r, log_bytes fs = l ++ r) as [r Hr].
  { destruct Hl as [[r Hr] _]. apply (kept_prefix l (l ++ r) r (zlen (log_bytes fs))); [done|done|].
    rewrite <- Hr, Hc, to_nat_zlen, take_app_length. by rewrite take_ge. }
  destruct (EnsureCapacityFor _ _ _ _) as [[[e|] w1] d1]; rewrite Hwo in HE;
    (destruct HE as ((m & Hm & Hc1 & _) & Hd1 & HE); [rewrite Hc in *; zl|zl|]);
    rewrite Hc, <- app_assoc, zeroes_app in Hc1 by done;
    (assert (holds l d1) as H1; [eapply holds_step; [exact Hl| |exact Hd1];
       rewrite Hc1, Hr, <- app_assoc; done|]); [done|].
  destruct HE as (-> & _). cbn [write_offset_ set_initialised]. rewrite Hwo.
  pose proof (WriteAllAt_spec d1 (log_bytes fs) (zeroes (n + m)) (log_bytes new) Hc1) as HW.
  destruct (WriteAllAt d1 _ _) as [e d2]. destruct HW as ((k & Hk & Hc2 & _) & Hd2 & _).
  assert (holds l d2) as H2.
  { eapply holds_step; [exact H1|rewrite Hc2, Hr, <- app_assoc; done|]. rewrite Hd2. set_solver. }
  destruct e as [e|]; [done|].
  pose proof (Fsync_spec d2) as HF. destruct (Fsync d2) as [e d3].
  destruct HF as (Hc3 & Hs & Hf & _).
  assert (holds l d3) as H3.
  { eapply holds_step; [exact H2|rewrite Hc3, Hc2, Hr, <- app_assoc; done|].
    destruct e; [rewrite Hf by done|rewrite Hs, Hc3 by done]; set_solver. }
  by destruct e.
Qed.

Lemma AppendGroup_holds l w d fs buckets target :
  wal_inv w d fs -> buckets_ok buckets -> holds l d -> zlen l <= zlen (log_bytes fs) ->
  match AppendGroup w d buckets target with
  | None => False
  | Some r => holds l r.2
  end.
Proof.
  intros Hinv Hb Hl Hle. rewrite AppendGroup_unfold by apply Hinv.
  pose proof (EncodeGroup_spec (frontier_ w) target buckets [] (frontier_ w) 0 (proj2 Hb)) as HE.
  destruct (EncodeGroup _ _ _ _ _) as [[group last]|err]; [|done].
  destruct HE as (_ & Hg & _). cbn [app] in Hg. destruct group as [|b0 group0]; [done|].
  rewrite Hg. by apply (WriteGroup_holds _ _ _ fs).
Qed.

Lemma ScanAndRepair_holds w d min_epoch fs post :
  scannable w d -> log_ok fs -> content d = log_bytes fs ++ post ->
  holds (log_bytes fs) d -> holds (log_bytes fs) (ScanAndRepair w d min_epoch).2.
Proof.
  intros (Hst & Hi & Hcap & Hmax & Hbytes) Hok Hc Hl. rewrite ScanAndRepair_unfold by done.
  pose proof (fstat_spec d) as HF. destruct (fstat d) as [[n|e] d1]; destruct HF as [Hd1 Hn];
    [subst n|by eapply holds_same].
  rewrite Z.max_r by done. set (w1 := set_initialised w _). cbn zeta.
  pose proof (ScanStart_spec min_epoch d Hbytes w1 d1 fs post Hd1 Hok Hc) as HS.
  destruct (ScanStart w1 d1 min_epoch _) as [[s|[r w']] d2]; destruct HS as (Hd2 & Hs & _);
    [|by eapply holds_same].
  pose proof (Scan_loop_recovers min_epoch d Hbytes w1 d2 s fs post Hd2 Hok Hc Hs) as HL.
  destruct (Scan_loop _ w1 d2 min_epoch _ s) as [x d3]. destruct HL as [Hd3 Hx].
  destruct x as [[r w']|s' a b]; [by eapply holds_same|].
  destruct Hx as ((_ & Hoff & _) & Hle & _). rewrite scan_log_offset in Hoff, Hle.
  cbn [sc_offset scan_start] in Hoff, Hle.
  assert (zlen (log_bytes fs) <= zlen (content d)) by (rewrite Hc; zl).
  apply (RepairTail_holds w1 d); [done|done|lia|done|done|done|done].
Qed.

(** A full scan that succeeds leaves the log ready, with every frame of [fs]. *)
Lemma ScanAndRepair_full w d fs post :
  scannable w d -> log_ok fs -> content d = log_bytes fs ++ post ->
  let '(r, w', d') := ScanAndRepair w d 0 in
  (∃ extra, wal_inv w' d' (fs ++ extra) ∧ status r = Ok ∧
     records r = log_records 0 (fs ++ extra) ∧ frontier r = log_frontier 0 (fs ++ extra)) ∨
  status r <> Ok ∧ state_ w' = Failed.
Proof.
  intros Hscan Hok Hc. pose proof (ScanAndRepair_spec w d 0 fs post Hscan Hok Hc) as HS.
  destruct (ScanAndRepair w d 0) as [[r w'] d'].
  destruct HS as [(s & tr & _ & Hle & -> & (-> & Hsz & n & Hn & Hc') & _ & Hfull)|(H1 & H2 & _)];
    [left|by right].
  destruct (Hfull eq_refl) as (extra & post' & -> & Hok' & ->). exists extra. clear Hfull.
  assert (sc_offset (scan_log 0 scan_start (fs ++ extra)) = zlen (log_bytes (fs ++ extra))) as Hoff
    by by rewrite scan_log_offset.
  destruct (scan_log_frontier 0 (fs ++ extra) scan_start) as [Hfr _].
  unfold wal_inv, scan_result. cbn -[log_bytes log_records].
  rewrite Hoff, Hfr, scan_log_records. rewrite Hoff, Hc, app_assoc, <- log_bytes_app in Hc'.
  rewrite to_nat_zlen, take_app_length in Hc'. destruct Hscan as (_ & _ & Hcap & _).
  split; [|done]. repeat (split; [done|]). eauto.
Qed.
End recovery.
