(* ===== verification/WalSystem.v ===== *)
(** * The write-ahead log under appends, crashes and recoveries

    A transition system over the log object, its file and the groups it has
    acknowledged.  A power failure may mix the file's durable and current
    contents byte by byte; a killed process leaves the file alone; a scan or an
    append runs under any sequence of system-call outcomes.
    [acknowledged_groups_survive] is the contract of the log: in every
    reachable state, a recovery scan that succeeds returns every record that
    was ever acknowledged, in order. *)

From stdpp Require Import strings.
From S2P Require Import Prelude Crc32c Types WalDevice Wal WalFrames WalTail WalScan WalRecovery.

#[local] Opaque frame_crc.

(** ** The system *)

Definition with_oracle (d : Device) (orc : list io_outcome) : Device :=
  mkDevice (content d) (durable d) orc.

(** What a power failure may leave in the file: a byte on which the durable and
    the current contents agree is kept, any other byte may be anything. *)
Definition crash_image (d : Device) (c : bytestring) : Prop :=
  ∀ i b, durable d !! i = Some b -> content d !! i = Some b -> c !! i = Some b.

(** A file a process can open: its bytes are bytes and its size is an [off_t]. *)
Definition file_ok (d : Device) : Prop :=
  bytes_ok (content d) ∧ zlen (content d) <= OFF_T_MAX.

Section system.
Context {MP : MsgPack}.

Record Sys := mkSys {
  process : option Wal;
  disk : Device;
  (** the records of the groups whose append returned success, in order *)
  acked : LogRecords
}.

(** The records an append of [buckets] up to [target] acknowledges. *)
Definition group_records (target : Z) (buckets : list (Z * LogRecords)) : LogRecords :=
  concat (map snd (selected target buckets)).

Definition sys_init : Sys := mkSys None (mkDevice [] [] []) [].

Inductive sys_step : Sys -> Sys -> Prop :=
| step_open d acked capacity :
    0 <= capacity <= OFF_T_MAX -> file_ok d ->
    sys_step (mkSys None d acked) (mkSys (Some (Wal_open capacity d)) d acked)
| step_scan w d acked orc r w' d' :
    ScanAndRepair w (with_oracle d orc) 0 = (r, w', d') ->
    sys_step (mkSys (Some w) d acked) (mkSys (Some w') d' acked)
| step_append_ok w d acked orc buckets target w' d' :
    buckets_ok buckets ->
    AppendGroup w (with_oracle d orc) buckets target = Some (None, w', d') ->
    sys_step (mkSys (Some w) d acked)
             (mkSys (Some w') d' (acked ++ group_records target buckets))
| step_append_error w d acked orc buckets target e w' d' :
    buckets_ok buckets ->
    AppendGroup w (with_oracle d orc) buckets target = Some (Some e, w', d') ->
    sys_step (mkSys (Some w) d acked) (mkSys (Some w') d' acked)
| step_kill p d acked : sys_step (mkSys p d acked) (mkSys None d acked)
| step_power_failure p d acked c :
    crash_image d c -> sys_step (mkSys p d acked) (mkSys None (mkDevice c c []) acked).

Definition reachable : Sys -> Prop := rtc sys_step sys_init.

(** The invariant: a log [fs] that contains the acknowledged frames is on disk,
    durably, and a ready log object agrees with the file. *)
Definition sys_inv (σ : Sys) : Prop :=
  ∃ fs, log_ok fs ∧ acked σ `sublist_of` concat (map frame_records fs) ∧ holds (log_bytes fs) (disk σ) ∧
  match process σ with
  | None => True
  | Some w =>
      match state_ w with
      | Ready => ∃ extra, wal_inv w (disk σ) (fs ++ extra)
      | Unscanned => scannable w (disk σ)
      | Failed => True
      end
  end.

Context {MPL : MsgPackLaws}.

Lemma crash_image_prefix d c l : crash_image d c -> holds l d -> ∃ r, c = l ++ r.
Proof.
  intros Hcr [[r1 H1] [r2 H2]]. exists (drop (length l) c).
  rewrite <- (take_drop (length l) c) at 1. f_equal. apply list_eq. intros i.
  destruct (decide (i < length l)%nat) as [Hi|Hi].
  - destruct (l !! i) as [b|] eqn:Hb; [|apply lookup_ge_None in Hb; lia].
    rewrite lookup_take_lt by done. apply Hcr; [rewrite H2|rewrite H1]; by apply lookup_app_l_Some.
  - rewrite lookup_take_ge by lia. symmetry. apply lookup_ge_None. lia.
Qed.

Lemma log_bytes_ok fs : Forall frame_ok fs -> bytes_ok (log_bytes fs).
Proof.
  induction 1 as [|f fs (He & Hsz & Hok & _) Hfs IH]; [constructor|].
  rewrite log_bytes_cons. apply Forall_app. split; [|done].
  unfold frame_bytes. apply (EncodeFrame_ok f.1 f.2); [unfold is_u32; lia|done].
Qed.

Lemma wal_inv_scannable w d fs : wal_inv w d fs -> scannable w d.
Proof.
  intros (Hst & [Hok _] & _ & _ & Hi & Hcap & Hmax & n & Hn & Hc).
  split; [by rewrite Hst|]. split; [lia|]. split; [done|]. split; [done|].
  rewrite Hc. apply Forall_app. split; [by apply log_bytes_ok|apply bytes_ok_zeroes].
Qed.

Lemma log_ok_prefix fs gs : log_ok (fs ++ gs) -> log_ok fs.
Proof. intros [[H1 _]%Forall_app [H2 _]%epochs_from_app]. done. Qed.

Lemma log_records_all fs : Forall frame_ok fs -> log_records 0 fs = concat (map frame_records fs).
Proof.
  intros Hok. unfold log_records. do 2 f_equal. induction Hok as [|f fs Hf Hfs IH]; [done|].
  rewrite filter_cons_True by apply Hf. by rewrite IH.
Qed.

(** A full scan of a log object whose file holds [fs]. *)
Lemma scan_step w d fs orc r w' d' :
  log_ok fs -> holds (log_bytes fs) d ->
  (state_ w = Failed ∨ scannable w d) -> ScanAndRepair w (with_oracle d orc) 0 = (r, w', d') ->
  holds (log_bytes fs) d' ∧
  ((∃ extra, wal_inv w' d' (fs ++ extra) ∧ records r = concat (map frame_records (fs ++ extra))) ∨
   status r <> Ok ∧ state_ w' = Failed).
Proof.
  intros Hok Hl [Hf|Hsc] Hr.
  { unfold ScanAndRepair in Hr. rewrite Hf in Hr. injection Hr as <- <- <-. split; [done|]. by right. }
  pose proof Hl as [[post Hpost] _].
  pose proof (ScanAndRepair_holds w (with_oracle d orc) 0 fs post Hsc Hok Hpost Hl) as H1.
  pose proof (ScanAndRepair_full w (with_oracle d orc) fs post Hsc Hok Hpost) as H2.
  rewrite Hr in H1, H2. split; [done|]. destruct H2 as [(extra & Hinv & _ & -> & _)|H2]; [left|by right].
  exists extra. split; [done|]. apply log_records_all, Hinv.
Qed.

Lemma sys_inv_scan_ready w d ack :
  sys_inv (mkSys (Some w) d ack) -> ∃ fs, log_ok fs ∧
  ack `sublist_of` concat (map frame_records fs) ∧ holds (log_bytes fs) d ∧ (state_ w = Failed ∨ scannable w d).
Proof.
  intros (fs & Hok & Hsub & Hl & Hw). cbn in *. exists fs. repeat (split; [done|]).
  destruct (state_ w); [by right| |by left]. destruct Hw as [extra Hinv]. right.
  by apply (wal_inv_scannable _ _ (fs ++ extra)).
Qed.

Lemma append_preserves w d ack orc buckets target e w' d' :
  sys_inv (mkSys (Some w) d ack) -> buckets_ok buckets ->
  AppendGroup w (with_oracle d orc) buckets target = Some (e, w', d') ->
  sys_inv (mkSys (Some w') d'
    (match e with None => ack ++ group_records target buckets | Some _ => ack end)).
Proof.
  intros (fs & Hok & Hsub & Hl & Hw) Hb Hr. cbn in *.
  destruct (state_ w) eqn:Hst; try (unfold AppendGroup in Hr; by rewrite Hst in Hr).
  destruct Hw as [extra Hinv].
  assert (wal_inv w (with_oracle d orc) (fs ++ extra)) as Hinv' by done.
  pose proof (AppendGroup_holds (log_bytes fs) w (with_oracle d orc) (fs ++ extra) buckets target
    Hinv' Hb Hl) as Hl'. rewrite Hr in Hl'. rewrite log_bytes_app, zlen_app in Hl'.
  specialize (Hl' ltac:(zl)). cbn in Hl'.
  destruct (AppendGroup_spec w (with_oracle d orc) (fs ++ extra) buckets target Hinv' Hb)
    as (e2 & w2 & d2 & Heq & Hout). rewrite Hr in Heq. injection Heq as <- <- <-.
  destruct e as [e|].
  - exists fs. repeat (split; [done|]). cbn.
    destruct Hout as [(_ & _ & -> & ->)|(_ & -> & _)]; [|done]. rewrite Hst. eauto.
  - destruct Hout as (Had & Hinv2 & Hdur). pose proof Hinv2 as (Hst2 & Hok2 & _).
    destruct (group_frames_ok _ _ _ Hb Had) as [_ Hrec]. unfold group_records. rewrite <- Hrec.
    destruct Hdur as [(Hnil & -> & ->)|Hdur].
    + rewrite Hnil. cbn [map concat]. rewrite app_nil_r. exists fs. repeat (split; [done|]).
      cbn. rewrite Hst. eauto.
    + exists ((fs ++ extra) ++ group_frames target buckets). split; [done|]. split; [|split].
      * rewrite !map_app, !concat_app. apply sublist_app; [|done]. by apply sublist_inserts_r.
      * cbn. destruct Hinv2 as (_ & _ & _ & _ & _ & _ & _ & n & _ & Hc).
        split; [|rewrite Hdur]; by exists (zeroes n).
      * cbn. rewrite Hst2. exists []. by rewrite app_nil_r.
Qed.

Lemma sys_step_preserves σ σ' : sys_step σ σ' -> sys_inv σ -> sys_inv σ'.
Proof.
  destruct 1; intros Hinv.
  - destruct Hinv as (fs & Hok & Hsub & Hl & _). exists fs. repeat (split; [done|]).
    cbn. destruct H0 as [Hb Hsz]. by repeat (split; [done|]).
  - destruct (sys_inv_scan_ready _ _ _ Hinv) as (fs & Hok & Hsub & Hl & Hw).
    destruct (scan_step w d fs orc r w' d' Hok Hl Hw H) as [Hl' Hout].
    exists fs. repeat (split; [done|]). cbn.
    destruct Hout as [(extra & Hinv' & _)|[_ ->]]; [|done].
    pose proof Hinv' as (-> & _). eauto.
  - by apply (append_preserves _ _ _ orc _ _ None _ _ Hinv).
  - by apply (append_preserves _ _ _ orc _ _ (Some e) _ _ Hinv H H0).
  - destruct Hinv as (fs & Hok & Hsub & Hl & _). by exists fs.
  - destruct Hinv as (fs & Hok & Hsub & Hl & _). exists fs. repeat (split; [done|]). cbn.
    destruct (crash_image_prefix _ _ _ H Hl) as [r ->]. split; [|done]. by split; exists r.
Qed.

Lemma sys_inv_init : sys_inv sys_init.
Proof. exists []. split; [done|]. split; [done|]. split; [|done]. by split; exists []. Qed.

(** C4. Through any sequence of process starts, scans, appends and crashes,
    with any behaviour of the system calls, every record of a group whose
    append returned success is among the records the next successful scan of
    the log returns, in the order the groups were acknowledged. *)
Theorem acknowledged_groups_survive σ w orc r w' d' :
  reachable σ -> process σ = Some w ->
  ScanAndRepair w (with_oracle (disk σ) orc) 0 = (r, w', d') -> status r = Ok ->
  acked σ `sublist_of` records r.
Proof.
  intros Hreach Hp Hr Hst.
  assert (sys_inv σ) as Hinv.
  { refine (rtc_ind_r sys_inv sys_init _ _ σ Hreach); [apply sys_inv_init|].
    intros; by eapply sys_step_preserves. }
  destruct σ as [p d ack]. cbn in *. subst p.
  destruct (sys_inv_scan_ready _ _ _ Hinv) as (fs & Hok & Hsub & Hl & Hw).
  destruct (scan_step w d fs orc r w' d' Hok Hl Hw Hr) as [_ [(extra & _ & ->)|[H _]]]; [|done].
  rewrite map_app, concat_app. by apply sublist_inserts_r.
Qed.

(** Scanning a file that begins with a well-formed log keeps that log: a
    successful scan leaves the log ready with its end and frontier at or past
    those frames and its records first in the result, a failed scan leaves it
    failed, and the bytes of those frames stay in place either way. *)
Theorem scan_keeps_acknowledged w d min_epoch fs post :
  scannable w d -> log_ok fs -> content d = log_bytes fs ++ post ->
  let '(r, w', d') := ScanAndRepair w d min_epoch in
  (status r = Ok ->
     state_ w' = Ready ∧ zlen (log_bytes fs) <= write_offset_ w' ∧
     (fs = [] ∨ log_frontier 0 fs <= frontier r) ∧
     ∃ extra, records r = log_records min_epoch fs ++ extra) ∧
  (status r <> Ok -> state_ w' = Failed) ∧
  ∃ rest, content d' = log_bytes fs ++ rest.
Proof.
  intros Hsc Hok Hc. pose proof (ScanAndRepair_spec w d min_epoch fs post Hsc Hok Hc) as HS.
  destruct (ScanAndRepair w d min_epoch) as [[r w'] d'].
  destruct HS as [(s & tr & (Hrec & Hoff & Hfr) & Hle & -> & (-> & _ & n & _ & Hc') & _)|HS];
    [|naive_solver].
  rewrite scan_log_offset in Hoff. rewrite scan_log_records in Hrec.
  destruct (scan_log_frontier min_epoch fs scan_start) as [Hf Hh]. rewrite Hf, Hh in Hfr.
  cbn -[log_bytes] in *. split; [intros _|split; [done|]].
  - split; [done|]. split; [done|]. split; [|done]. destruct fs; [by left|right]. by apply Hfr.
  - apply (kept_prefix _ (content d) post (sc_offset s)); [done|done|]. rewrite Hc'.
    rewrite take_app_le by (unfold zlen in *; rewrite length_take; lia).
    by rewrite take_take, Nat.min_id.
Qed.

(** A scan that succeeds zeroes no intact frame: every position of the
    file that holds a frame whose checksum matches lies before the end of the
    repaired log, the bytes before that end are unchanged and every byte from
    it on reads zero. *)
Theorem repair_discards_no_frame w d min_epoch :
  scannable w d ->
  let '(r, w', d') := ScanAndRepair w d min_epoch in
  status r = Ok ->
  let kept := Z.to_nat (write_offset_ w') in
  (∀ q, frame_at (content d) q -> q < write_offset_ w') ∧
  take kept (content d') = take kept (content d) ∧
  (∀ i, write_offset_ w' <= i -> byte_at (content d') i = 0).
Proof.
  intros Hsc. pose proof (ScanAndRepair_spec w d min_epoch [] (content d) Hsc) as HS.
  specialize (HS ltac:(done) eq_refl). destruct (ScanAndRepair w d min_epoch) as [[r w'] d'].
  destruct HS as [(s & tr & (_ & Hoff & _) & Hle & -> & (-> & _ & n & _ & Hc') & Hno & _)|HS];
    [|naive_solver].
  rewrite scan_log_offset in Hoff. cbn -[Z.to_nat] in *. intros _.
  assert (zlen (take (Z.to_nat (sc_offset s)) (content d)) = sc_offset s) as Hlen
    by (unfold zlen in *; rewrite length_take; lia).
  split; [|split].
  - intros q Hq. destruct (Z_lt_dec q (sc_offset s)); [done|]. destruct (Hno q); [lia|done].
  - rewrite Hc', take_app_le by (unfold zlen in *; lia). by rewrite take_take, Nat.min_id.
  - intros i Hi. rewrite Hc', byte_at_app_r by lia. apply byte_at_zeroes.
Qed.

(** On a file that holds a well-formed log followed by zeroes, with calls
    that make progress, a scan succeeds with exactly the log's frontier and
    the records past the given epoch, reports the frames and bytes it skipped,
    repairs nothing, and establishes the log invariant. *)
Theorem scan_clean_log w d min_epoch fs n :
  scannable w d -> log_ok fs -> benign (oracle d) -> 0 <= n ->
  content d = log_bytes fs ++ zeroes n ->
  zlen (log_bytes fs) + initial_capacity_bytes_ w <= OFF_T_MAX ->
  let covered := filter (fun f : frame => f.1 <= min_epoch) fs in
  ∃ w' d', ScanAndRepair w d min_epoch =
      (mkScan Ok (log_frontier 0 fs) (log_records min_epoch fs) false 0 NoDetail
         (zlen covered) (zlen (log_bytes covered)), w', d') ∧
    wal_inv w' d' fs.
Proof.
  intros Hsc Hok Hb Hn Hc Hmax covered.
  destruct (ScanAndRepair_clean w d min_epoch fs n Hsc Hok Hb Hn Hc Hmax)
    as (w' & d' & -> & (-> & Hsz & m & Hm & Hc') & _).
  eexists _, d'. destruct (scan_log_skipped min_epoch fs scan_start) as [H1 H2].
  destruct (scan_log_frontier min_epoch fs scan_start) as [H3 _].
  unfold scan_result. rewrite H1, H2, H3, scan_log_records. split; [done|].
  rewrite to_nat_zlen, take_ge in Hc' by done. destruct Hsc as (_ & _ & Hcap & _).
  repeat (split; [done|]). eauto.
Qed.

(** AppendGroup always returns. On success the selected buckets are
    admissible, the log is extended by exactly their frames and the file is
    durable; on a refused bucket nothing changes; on an input/output error the
    log has failed, keeps its frames, and with calls that make progress this
    happens only when the file size limit is reached. *)
Theorem append_group_outcomes w d fs buckets target :
  wal_inv w d fs -> buckets_ok buckets ->
  ∃ e w' d', AppendGroup w d buckets target = Some (e, w', d') ∧
  match e with
  | None => Forall (admissible (frontier_ w)) (selected target buckets) ∧
      wal_inv w' d' (fs ++ group_frames target buckets) ∧
      (group_frames target buckets = [] ∧ w' = w ∧ d' = d ∨ durable d' = content d')
  | Some err =>
      ¬ Forall (admissible (frontier_ w)) (selected target buckets) ∧
        (err = EINVAL ∨ err = EOVERFLOW) ∧ w' = w ∧ d' = d ∨
      Forall (admissible (frontier_ w)) (selected target buckets) ∧
        state_ w' = Failed ∧ (∃ rest, content d' = log_bytes fs ++ rest) ∧
        (benign (oracle d) -> OFF_T_MAX <
           zlen (log_bytes (fs ++ group_frames target buckets)) + initial_capacity_bytes_ w)
  end.
Proof. apply AppendGroup_spec. Qed.

(** A group appended to a log and scanned by a new process is recovered:
    with system calls that make progress and room in the file, the append
    succeeds and the scan returns the records of the log followed by those of
    the group. *)
Theorem append_scan_roundtrip w d fs buckets target capacity orc :
  wal_inv w d fs -> buckets_ok buckets -> benign (oracle d) -> benign orc ->
  Forall (admissible (frontier_ w)) (selected target buckets) ->
  zlen (log_bytes (fs ++ group_frames target buckets)) + initial_capacity_bytes_ w <= OFF_T_MAX ->
  zlen (log_bytes (fs ++ group_frames target buckets)) + capacity <= OFF_T_MAX -> 0 <= capacity ->
  ∃ w' d' r w2 d2,
    AppendGroup w d buckets target = Some (None, w', d') ∧
    ScanAndRepair (Wal_open capacity d') (with_oracle d' orc) 0 = (r, w2, d2) ∧
    status r = Ok ∧
    records r = concat (map frame_records fs) ++ group_records target buckets ∧
    wal_inv w2 d2 (fs ++ group_frames target buckets).
Proof.
  intros Hinv Hb Hben Hben' Had Hmax Hmax' Hcap.
  destruct (AppendGroup_spec w d fs buckets target Hinv Hb) as (e & w' & d' & Hr & Hout).
  destruct e as [e|].
  { destruct Hout as [[? _]|(_ & _ & _ & Hlim)]; [done|]. specialize (Hlim Hben). lia. }
  destruct Hout as (_ & Hinv' & _). exists w', d'.
  destruct (group_frames_ok _ _ _ Hb Had) as [_ Hrec]. unfold group_records. rewrite <- Hrec.
  pose proof (wal_inv_scannable _ _ _ Hinv') as (_ & _ & _ & Hsz & Hbytes).
  destruct Hinv' as (_ & Hok & _ & _ & _ & _ & _ & n & Hn & Hc).
  set (gs := fs ++ group_frames target buckets) in *.
  assert (scannable (Wal_open capacity d') (with_oracle d' orc)) as Hsc.
  { split; [done|]. split; [done|]. split; [cbn; zl|]. done. }
  destruct (ScanAndRepair_clean (Wal_open capacity d') (with_oracle d' orc) 0 gs n Hsc Hok Hben' Hn)
    as (w2 & d2 & Hscan & (-> & Hsz2 & m & Hm & Hc2) & _); [done|done|].
  eexists _, _, d2. split; [done|]. split; [exact Hscan|]. split; [done|]. cbn -[log_bytes].
  rewrite scan_log_records, log_records_all by apply Hok. split.
  { cbn. unfold gs. by rewrite map_app, concat_app. }
  rewrite to_nat_zlen, take_ge in Hc2 by done.
  destruct Hsc as (_ & _ & Hcap' & _). repeat (split; [done|]). eauto.
Qed.

End system.

(** ** The theorems at work on a concrete log *)

Module Demo.

#[local] Existing Instance bits_msgpack.
#[local] Existing Instance bits_msgpack_laws.
#[local] Transparent frame_crc.

Definition group : list (Z * LogRecords) :=
  [(3, [LogRecord.mk 3 []]); (5, [LogRecord.mk 5 []])].

(** The frames of the epochs up to 4, and a log file that holds them followed by
    the torn header of another. *)
Definition frames : list frame := group_frames 4 group.
Definition torn : bytestring := [0x4c; 0x41; 0x57; 0; 0; 0].
Definition torn_file : Device :=
  mkDevice (log_bytes frames ++ torn) [] [IoMoved 7; IoFailed EINTR; IoMoved 100].
Definition clean_file : Device := mkDevice (log_bytes frames ++ zeroes 50) [] [IoMoved 7].

Lemma group_ok : buckets_ok group.
Proof.
  split; [|cbn; lia]. repeat (apply Forall_cons; split); try apply Forall_nil_2;
    (split; [unfold is_u32; cbn; lia|]); (apply Forall_cons; split; [|apply Forall_nil_2]);
    (split; [unfold is_u32; cbn; lia|apply Forall_nil_2]).
Defined.

Lemma admitted : Forall (admissible 0) (selected 4 group).
Proof.
  change (selected 4 group) with [(3, [LogRecord.mk 3 []])].
  apply Forall_cons. split; [|apply Forall_nil_2]. split; [done|]. split; [done|].
  split; [cbn; lia|]. split; [|vm_compute; discriminate].
  apply Forall_cons. split; [done|apply Forall_nil_2].
Defined.

Lemma frames_ok : log_ok frames.
Proof.
  split; [|split; [vm_compute; discriminate|exact I]]. destruct (group_frames_ok 0 4 group group_ok admitted) as [H _]. exact H.
Defined.

Lemma torn_scannable : scannable (Wal_open 0 torn_file) torn_file.
Proof.
  split; [done|]. split; [reflexivity|]. split; [vm_compute; split; discriminate|].
  split; [vm_compute; discriminate|bytes_eval].
Defined.

Lemma clean_scannable : scannable (Wal_open 64 clean_file) clean_file.
Proof.
  split; [done|]. split; [reflexivity|]. split; [vm_compute; split; discriminate|].
  split; [vm_compute; discriminate|bytes_eval].
Defined.

Lemma scan_keeps_acknowledged_witness :
  let '(r, w', d') := ScanAndRepair (Wal_open 0 torn_file) torn_file 0 in
  status r = Ok ∧ ∃ extra, records r = log_records 0 frames ++ extra.
Proof.
  pose proof (scan_keeps_acknowledged (Wal_open 0 torn_file) torn_file 0 frames torn
    torn_scannable frames_ok eq_refl) as H.
  assert (status (ScanAndRepair (Wal_open 0 torn_file) torn_file 0).1.1 = Ok) as Hok
    by (vm_compute; reflexivity).
  destruct (ScanAndRepair (Wal_open 0 torn_file) torn_file 0) as [[r w'] d']. cbn in Hok.
  split; [exact Hok|]. apply H, Hok.
Defined.

Lemma repair_discards_no_frame_witness :
  status (ScanAndRepair (Wal_open 0 torn_file) torn_file 0).1.1 = Ok ∧
  ∀ q, frame_at (content torn_file) q ->
       q < write_offset_ (ScanAndRepair (Wal_open 0 torn_file) torn_file 0).1.2.
Proof.
  pose proof (repair_discards_no_frame (Wal_open 0 torn_file) torn_file 0 torn_scannable) as H.
  assert (status (ScanAndRepair (Wal_open 0 torn_file) torn_file 0).1.1 = Ok) as Hok
    by (vm_compute; reflexivity).
  split; [exact Hok|].
  destruct (ScanAndRepair (Wal_open 0 torn_file) torn_file 0) as [[r w'] d']. apply H, Hok.
Defined.

Lemma scan_clean_log_witness :
  ∃ w' d', ScanAndRepair (Wal_open 64 clean_file) clean_file 4 =
    (mkScan Ok 3 [] false 0 NoDetail 1 (zlen (log_bytes frames)), w', d') ∧ wal_inv w' d' frames.
Proof.
  refine (scan_clean_log (Wal_open 64 clean_file) clean_file 4 frames 50
    clean_scannable frames_ok _ _ eq_refl _).
  - apply Forall_cons. split; [lia|apply Forall_nil_2].
  - lia.
  - vm_compute. discriminate.
Defined.

(** An empty log after its first scan. *)
Definition empty_file : Device := mkDevice [] [] [].
Definition empty_wal : Wal := mkWal 0 Ready 0 0 0 0.

Lemma empty_inv : wal_inv empty_wal empty_file [].
Proof.
  split; [done|]. split; [split; [apply Forall_nil_2|exact I]|].
  repeat (split; [vm_compute; by repeat split|]). by exists 0.
Defined.

Lemma append_group_outcomes_witness :
  ∃ e w' d', AppendGroup empty_wal empty_file group 4 = Some (e, w', d') ∧
  match e with None => wal_inv w' d' frames | Some _ => False end.
Proof.
  destruct (append_group_outcomes empty_wal empty_file [] group 4 empty_inv group_ok)
    as (e & w' & d' & Hr & Hout). exists e, w', d'. split; [exact Hr|].
  destruct e as [e|]; [vm_compute in Hr; discriminate Hr|]. exact (proj1 (proj2 Hout)).
Defined.

Lemma append_scan_roundtrip_witness :
  ∃ w' d' r w2 d2,
    AppendGroup empty_wal empty_file group 4 = Some (None, w', d') ∧
    ScanAndRepair (Wal_open 64 d') (with_oracle d' [IoMoved 3]) 0 = (r, w2, d2) ∧
    status r = Ok ∧ records r = [LogRecord.mk 3 []] ∧ wal_inv w2 d2 frames.
Proof.
  refine (append_scan_roundtrip empty_wal empty_file [] group 4 64 [IoMoved 3]
    empty_inv group_ok (Forall_nil_2 _) _ admitted _ _ _).
  - apply Forall_cons. split; [lia|apply Forall_nil_2].
  - vm_compute. discriminate.
  - vm_compute. discriminate.
  - lia.
Defined.

(** An acknowledged group, then a power failure that tears the next write. *)
Definition after_append : ioerror * Wal * Device :=
  default (None, empty_wal, empty_file)
    (AppendGroup (ScanAndRepair (Wal_open 0 empty_file) empty_file 0).1.2 empty_file group 4).
Definition crashed_file : Device := mkDevice (log_bytes frames ++ torn) (log_bytes frames ++ torn) [].

Lemma crashed_reachable :
  reachable (mkSys (Some (Wal_open 0 crashed_file)) crashed_file [LogRecord.mk 3 []]).
Proof.
  apply rtc_l with (mkSys (Some (Wal_open 0 empty_file)) empty_file []).
  { apply step_open; [vm_compute; by split|]. split; [apply Forall_nil_2|by vm_compute]. }
  apply rtc_l with (mkSys (Some empty_wal) empty_file []).
  { apply (step_scan _ _ _ [] (mkScan Ok 0 [] false 0 NoDetail 0 0)). by vm_compute. }
  apply rtc_l with (mkSys (Some after_append.1.2) after_append.2 [LogRecord.mk 3 []]).
  { apply (step_append_ok _ _ [] [] group 4); [apply group_ok|]. by vm_compute. }
  apply rtc_l with (mkSys None crashed_file [LogRecord.mk 3 []]).
  { apply step_power_failure. intros i b _ H. assert (content after_append.2 = log_bytes frames) as Hc
      by (by vm_compute). rewrite Hc in H. by apply lookup_app_l_Some. }
  apply rtc_once, step_open; [vm_compute; by split|]. split; [bytes_eval|by vm_compute].
Defined.

Lemma acknowledged_groups_survive_witness :
  ∃ r w' d', ScanAndRepair (Wal_open 0 crashed_file) (with_oracle crashed_file [IoMoved 1]) 0 =
    (r, w', d') ∧ status r = Ok ∧ [LogRecord.mk 3 []] `sublist_of` records r.
Proof.
  destruct (ScanAndRepair (Wal_open 0 crashed_file) (with_oracle crashed_file [IoMoved 1]) 0)
    as [[r w'] d'] eqn:Hr. exists r, w', d'.
  assert (status r = Ok) as Hok.
  { transitivity (status (r, w', d').1.1); [done|]. rewrite <- Hr. vm_compute. reflexivity. }
  split; [reflexivity|]. split; [exact Hok|].
  exact (acknowledged_groups_survive _ _ [IoMoved 1] r w' d' crashed_reachable eq_refl Hr Hok).
Defined.

End Demo.
