(* ===== verification/Pivot.v ===== *)
(** * Versioned sets and pivot objects of the NWR protocol
    (src/src/util/32bit_set.hpp, src/src/concurrency_control/pivot_object.hpp)

    [HalfWordSet<4>] packs eight saturating counters into 32 bits; a data item
    is hashed to a slot.  [NWRPivotObject] holds two such sets, and its
    validation compares them slot by slot.  The theorems show that the bit
    manipulation implements a map from slots to counters in [0, 15], that the
    merge is a lower bound on it, and that a validation answers [ACYCLIC]
    exactly when no slot is in the wrong order. *)

From S2P Require Import Prelude.

Module HalfWordSet.

(** [VersionedSet = HalfWordSet<4>] *)
Definition CounterSize : Z := 4.
Definition ArraySize : Z := 32 / CounterSize.
Definition Max : Z := u32 (Z.shiftl 2 (CounterSize - 1) - 1).

(** [for (j = i * CounterSize; j < (i + 1) * CounterSize; j++) r |= 1llu << j] *)
Fixpoint MakeMask_loop (n : nat) (j r : Z) : Z :=
  match n with
  | O => r
  | S n' => MakeMask_loop n' (j + 1) (u32 (Z.lor r (Z.shiftl 1 j)))
  end.
Definition MakeMask (i : Z) : Z := MakeMask_loop (Z.to_nat CounterSize) (i * CounterSize) 0.

Definition slots : list Z := [0; 1; 2; 3; 4; 5; 6; 7].
Definition Masks : list Z := map MakeMask slots.
Definition Masks_at (i : Z) : Z := nth (Z.to_nat i) Masks 0.

(** The set is its [bitarray_]. *)
Abbreviation t := Z.

Definition FNV : Z := 2166136261.
Definition FNV_PRIME : Z := 16777619.

Fixpoint Hash_loop (bytes : bytestring) (hash : Z) : Z :=
  match bytes with
  | [] => hash
  | b :: bytes' => Hash_loop bytes' (Z.lxor (u32 (FNV_PRIME * hash)) b)
  end.

(** The seed's four bytes in memory order (little endian). *)
Definition Hash (seed : Z) : Z := Hash_loop (le_bytes 4 seed) FNV.

(** [static_cast<uint32_t>(reinterpret_cast<uint64_t>(seed) >> 4)] *)
Definition Hashptr (seed : Z) : Z := u32 (Z.shiftr seed 4).

Definition Reset (w : t) (slot : Z) : t :=
  Z.land w (u32 (Z.lnot (u32 (Z.shiftl Max (CounterSize * slot))))).

Definition GetBySlot (w : t) (slot : Z) : Z :=
  Z.land (Z.shiftr w (CounterSize * slot)) Max.

Definition Set_ (w : t) (slot version : Z) : t :=
  let w := Reset w slot in
  let version := if Max <? version then Max else version in
  Z.lor w (u32 (Z.shiftl version (CounterSize * slot))).

Definition slot_of (seedptr : Z) : Z := Hash (Hashptr seedptr) mod ArraySize.

Definition Put (w : t) (seedptr version : Z) : t := Set_ w (slot_of seedptr) version.
Definition Get (w : t) (seedptr : Z) : Z := GetBySlot w (slot_of seedptr).

Definition PutHigherside (w : t) (seedptr version : Z) : t :=
  if version <=? Get w seedptr then w else Put w seedptr version.

Definition PutLowerside (w : t) (seedptr version : Z) : t :=
  if Get w seedptr <=? version then w else Put w seedptr version.

Fixpoint Merge_loop (idx : list Z) (lhs rhs bf : t) : t :=
  match idx with
  | [] => bf
  | i :: idx' =>
      let lhs_slot := Z.land lhs (Masks_at i) in
      let rhs_slot := Z.land rhs (Masks_at i) in
      Merge_loop idx' lhs rhs
        (if (lhs_slot =? 0) && (rhs_slot =? 0) then bf
         else if (lhs_slot =? 0) || (rhs_slot =? 0) then Z.lor bf (Z.max lhs_slot rhs_slot)
         else Z.lor bf (Z.min lhs_slot rhs_slot))
  end.
Definition Merge (lhs rhs : t) : t := Merge_loop slots lhs rhs 0.

(** The loops of [IsGreaterThan] and [IsGreaterOrEqualThan], which differ in
    the comparison [cmp rhs_slot lhs_slot]. *)
Fixpoint Compare_loop (cmp : Z -> Z -> bool) (idx : list Z) (lhs rhs : t) : bool :=
  match idx with
  | [] => false
  | i :: idx' =>
      let lhs_slot := Z.land lhs (Masks_at i) in
      if lhs_slot =? 0 then Compare_loop cmp idx' lhs rhs else
      let rhs_slot := Z.land rhs (Masks_at i) in
      if rhs_slot =? 0 then Compare_loop cmp idx' lhs rhs else
      if lhs_slot =? Masks_at i then true else
      if cmp rhs_slot lhs_slot then true else Compare_loop cmp idx' lhs rhs
  end.

Definition IsGreaterThan (lhs rhs : t) : bool :=
  if (lhs =? 0) || (rhs =? 0) then false else Compare_loop Z.ltb slots lhs rhs.

Definition IsGreaterOrEqualThan (lhs rhs : t) : bool :=
  if (lhs =? 0) || (rhs =? 0) then false else Compare_loop Z.leb slots lhs rhs.

End HalfWordSet.

Module NWRPivotObject.

Inductive NWRValidationResult : Type :=
| ACYCLIC | RW | WR | ANTI_DEPENDENCY | LINEARIZABILITY | NOT_YET_VALIDATED.

Record Versions := mkVersions { target_id : Z; epoch : Z }.
Record MergedSets := mkSets { rset : HalfWordSet.t; wset : HalfWordSet.t }.
Record t := mk { versions : Versions; msets : MergedSets }.

Definition empty : t := mk (mkVersions 0 0) (mkSets 0 0).

Definition IsReachableInto (lhs rhs : t) : NWRValidationResult :=
  if HalfWordSet.IsGreaterOrEqualThan (rset (msets rhs)) (wset (msets lhs)) then WR
  else if HalfWordSet.IsGreaterThan (wset (msets rhs)) (rset (msets lhs)) then RW
  else ACYCLIC.

Definition IsConcurrentWith (lhs rhs : t) : NWRValidationResult :=
  if negb (epoch (versions rhs) =? epoch (versions lhs)) then LINEARIZABILITY else ACYCLIC.

End NWRPivotObject.

Import HalfWordSet.

(** ** Slots *)

Definition slot_ok (i : Z) : Prop := 0 <= i < 8.

(** The value of a slot in a merge: zero stands for no version. *)
Definition merge_slot (a b : Z) : Z :=
  if a =? 0 then b else if b =? 0 then a else Z.min a b.

Lemma slots_elem i : i ∈ slots <-> slot_ok i.
Proof. unfold slots, slot_ok. set_unfold. lia. Qed.

Lemma GetBySlot_value w i : 0 <= w -> slot_ok i -> GetBySlot w i = (w / 2 ^ (4 * i)) mod 16.
Proof.
  unfold slot_ok. intros Hw Hi. unfold GetBySlot, CounterSize. change Max with (Z.ones 4).
  by rewrite Z.land_ones, Z.shiftr_div_pow2 by lia.
Qed.

Lemma GetBySlot_bound w i : 0 <= GetBySlot w i <= 15.
Proof.
  unfold GetBySlot. change Max with (Z.ones 4). rewrite Z.land_ones by lia.
  pose proof (Z.mod_pos_bound (Z.shiftr w (CounterSize * i)) (2 ^ 4)). lia.
Qed.

Lemma GetBySlot_testbit w i j :
  0 <= j -> Z.testbit (GetBySlot w i) j = Z.testbit w (4 * i + j) && (j <? 4).
Proof.
  intros Hj. unfold GetBySlot, CounterSize. change Max with (Z.ones 4).
  rewrite Z.land_spec, Z.shiftr_spec by done. f_equal; [f_equal; lia|].
  destruct (Z.ltb_spec j 4); [apply Z.ones_spec_low|apply Z.ones_spec_high]; lia.
Qed.

(** A slot of a word, in place. *)
Lemma land_mask w i :
  slot_ok i -> Z.land w (Masks_at i) = GetBySlot w i * 2 ^ (4 * i).
Proof.
  intros Hi. assert (Masks_at i = Z.shiftl (Z.ones 4) (4 * i)) as ->.
  { apply slots_elem in Hi. unfold slots in Hi. set_unfold in Hi.
    repeat destruct Hi as [->|Hi]; try reflexivity. done. }
  unfold slot_ok in Hi. rewrite <- Z.shiftl_mul_pow2 by lia. apply Z.bits_inj'. intros j Hj.
  rewrite Z.land_spec. destruct (Z_lt_dec j (4 * i)).
  - rewrite !Z.shiftl_spec_low by lia. apply andb_false_r.
  - rewrite !Z.shiftl_spec by lia. rewrite GetBySlot_testbit by lia. f_equal; [f_equal; lia|].
    destruct (Z.ltb_spec (j - 4 * i) 4); [apply Z.ones_spec_low|apply Z.ones_spec_high]; lia.
Qed.

Lemma Masks_at_value i : slot_ok i -> Masks_at i = 15 * 2 ^ (4 * i).
Proof.
  intros Hi. apply slots_elem in Hi. unfold slots in Hi. set_unfold in Hi.
  repeat destruct Hi as [->|Hi]; try reflexivity. done.
Qed.

Lemma GetBySlot_lor a b i : GetBySlot (Z.lor a b) i = Z.lor (GetBySlot a i) (GetBySlot b i).
Proof.
  apply Z.bits_inj'. intros j Hj. rewrite Z.lor_spec, !GetBySlot_testbit, Z.lor_spec by done.
  by destruct (Z.testbit a _), (Z.testbit b _), (j <? 4).
Qed.

(** A word that only has slot [i] contributes to slot [i] only. *)
Lemma GetBySlot_in_place v i k :
  slot_ok i -> slot_ok k -> 0 <= v <= 15 ->
  GetBySlot (v * 2 ^ (4 * i)) k = if k =? i then v else 0.
Proof.
  intros Hi Hk Hv. unfold slot_ok in *. rewrite GetBySlot_value by (unfold slot_ok; nia).
  destruct (Z.eqb_spec k i) as [->|Hne].
  - rewrite Z.div_mul by lia. apply Z.mod_small. lia.
  - destruct (Z_lt_dec k i) as [Hlt|Hge].
    + replace (4 * i) with (4 * k + (4 * (i - k - 1) + 4)) by lia.
      rewrite !Z.pow_add_r by lia. rewrite (Z.mul_comm (2 ^ (4 * k))), Z.mul_assoc, Z.div_mul by lia.
      change (2 ^ 4) with 16. rewrite Z.mul_assoc. apply Z.mod_mul. lia.
    + rewrite Z.div_small; [done|]. split; [nia|].
      apply Z.lt_le_trans with (2 ^ 4 * 2 ^ (4 * i)); [nia|].
      rewrite <- Z.pow_add_r by lia. apply Z.pow_le_mono_r; lia.
Qed.

Lemma Reset_slot w i k :
  is_u32 w -> slot_ok i -> slot_ok k -> GetBySlot (Reset w i) k = if k =? i then 0 else GetBySlot w k.
Proof.
  intros Hw Hi Hk. unfold Reset, CounterSize. change Max with (Z.ones 4).
  unfold slot_ok in *.
  assert (u32 (Z.shiftl (Z.ones 4) (4 * i)) = Z.shiftl (Z.ones 4) (4 * i)) as ->.
  { apply u32_small. split; [apply Z.shiftl_nonneg; by compute|].
    assert (i ∈ slots) as Hin by by apply slots_elem. unfold slots in Hin. set_unfold in Hin.
    repeat destruct Hin as [->|Hin]; try done. }
  apply Z.bits_inj'. intros j Hj. rewrite GetBySlot_testbit, Z.land_spec by done. unfold u32.
  destruct (Z_lt_dec j 4); [|destruct (k =? i); rewrite ?Z.bits_0, ?GetBySlot_testbit by done;
    (replace (j <? 4) with false by (symmetry; apply Z.ltb_ge; lia)); by rewrite ?andb_false_r].
  replace (j <? 4) with true by (symmetry; by apply Z.ltb_lt). rewrite andb_true_r.
  rewrite Z.mod_pow2_bits_low, Z.lnot_spec by lia.
  destruct (Z.eqb_spec k i) as [->|Hne].
  - rewrite Z.shiftl_spec, Z.ones_spec_low, Z.bits_0 by lia. apply andb_false_r.
  - rewrite GetBySlot_testbit by done. f_equal.
    replace (j <? 4) with true by (symmetry; by apply Z.ltb_lt).
    destruct (Z_lt_dec (4 * k + j) (4 * i)); [by rewrite Z.shiftl_spec_low by lia|].
    rewrite Z.shiftl_spec, Z.ones_spec_high by lia. done.
Qed.

Lemma Set_slot w i v k :
  is_u32 w -> slot_ok i -> slot_ok k -> 0 <= v ->
  GetBySlot (Set_ w i v) k = if k =? i then Z.min v 15 else GetBySlot w k.
Proof.
  intros Hw Hi Hk Hv. unfold Set_.
  set (v' := if Max <? v then Max else v).
  assert (v' = Z.min v 15) as Hv' by (unfold v'; change Max with 15; zcase; lia).
  rewrite Hv'. clear v' Hv'. rewrite GetBySlot_lor, Reset_slot by done.
  assert (u32 (Z.shiftl (Z.min v 15) (CounterSize * i)) = Z.min v 15 * 2 ^ (4 * i)) as ->.
  { unfold CounterSize, slot_ok in *. rewrite Z.shiftl_mul_pow2 by lia. apply u32_small.
    split; [nia|]. apply Z.lt_le_trans with (2 ^ 4 * 2 ^ (4 * i)); [nia|].
    rewrite <- Z.pow_add_r by lia. apply Z.pow_le_mono_r; lia. }
  rewrite GetBySlot_in_place by (done || lia).
  destruct (k =? i); [done|]. apply Z.lor_0_r.
Qed.

Lemma lor_bound a b n : 0 <= n -> 0 <= a < 2 ^ n -> 0 <= b < 2 ^ n -> 0 <= Z.lor a b < 2 ^ n.
Proof.
  intros Hn Ha Hb. replace (Z.lor a b) with (Z.lor a b mod 2 ^ n); [apply Z.mod_pos_bound; lia|].
  rewrite <- (Z.mod_small a (2 ^ n)) at 2 by done. rewrite <- (Z.mod_small b (2 ^ n)) at 2 by done.
  rewrite <- !Z.land_ones by done. apply Z.land_lor_distr_l.
Qed.

Lemma Set_u32 w i v : is_u32 w -> is_u32 (Set_ w i v).
Proof.
  intros Hw. unfold Set_, is_u32 in *. apply lor_bound; [lia| |apply u32_is_u32].
  unfold Reset. set (m := u32 _). pose proof (u32_is_u32 (Z.lnot (u32 (Z.shiftl Max (CounterSize * i))))).
  fold m in H. clearbody m. unfold is_u32 in H.
  replace (Z.land w m) with (Z.land w m mod 2 ^ 32); [apply Z.mod_pos_bound; lia|].
  rewrite <- Z.land_ones, <- Z.land_assoc by lia. rewrite (Z.land_ones m), Z.mod_small by lia. done.
Qed.

Lemma slot_of_ok p : slot_ok (slot_of p).
Proof. unfold slot_of, slot_ok. change ArraySize with 8. apply Z.mod_pos_bound. lia. Qed.
#[local] Hint Resolve slot_of_ok : core.

(** ** Comparison and merge *)

Lemma land_mask_zero w i : slot_ok i -> (Z.land w (Masks_at i) =? 0) = (GetBySlot w i =? 0).
Proof.
  intros Hi. rewrite land_mask by done. pose proof (GetBySlot_bound w i). unfold slot_ok in Hi.
  by zcase.
Qed.

Lemma merge_slot_bound a b : 0 <= a <= 15 -> 0 <= b <= 15 -> 0 <= merge_slot a b <= 15.
Proof. unfold merge_slot. zcase; lia. Qed.

Lemma Merge_loop_spec l r k idx : forall bf,
  NoDup idx -> Forall slot_ok idx -> slot_ok k ->
  GetBySlot (Merge_loop idx l r bf) k =
    Z.lor (GetBySlot bf k)
      (if bool_decide (k ∈ idx) then merge_slot (GetBySlot l k) (GetBySlot r k) else 0).
Proof.
  induction idx as [|i idx IH]; intros bf Hnd Hok Hk; cbn [Merge_loop].
  { by rewrite Z.lor_0_r. }
  inversion_clear Hnd as [|?? Hni Hnd']. inversion_clear Hok as [|?? Hi Hok'].
  set (bf' := if _ && _ then bf else _).
  assert (bf' = Z.lor bf (merge_slot (GetBySlot l i) (GetBySlot r i) * 2 ^ (4 * i))) as Hbf.
  { unfold bf', merge_slot. rewrite !land_mask_zero, !land_mask by done.
    pose proof (GetBySlot_bound l i). pose proof (GetBySlot_bound r i). unfold slot_ok in Hi.
    assert (0 < 2 ^ (4 * i)) by (apply Z.pow_pos_nonneg; lia).
    destruct (Z.eqb_spec (GetBySlot l i) 0) as [->|], (Z.eqb_spec (GetBySlot r i) 0) as [->|];
      cbn [andb orb].
    - by rewrite Z.mul_0_l, Z.lor_0_r.
    - f_equal. rewrite Z.max_r; lia.
    - f_equal. rewrite Z.max_l; lia.
    - f_equal. destruct (Z.min_spec (GetBySlot l i) (GetBySlot r i)) as [[? ->]|[? ->]];
        [rewrite Z.min_l|rewrite Z.min_r]; nia. }
  rewrite IH, Hbf, GetBySlot_lor, GetBySlot_in_place
    by (done || apply merge_slot_bound; apply GetBySlot_bound).
  rewrite <- Z.lor_assoc. f_equal. destruct (Z.eqb_spec k i) as [->|Hne].
  - rewrite bool_decide_eq_false_2, bool_decide_eq_true_2 by set_solver. apply Z.lor_0_r.
  - rewrite Z.lor_0_l. rewrite (bool_decide_ext (k ∈ i :: idx) (k ∈ idx)); [done|]. set_solver.
Qed.

Lemma slots_NoDup : NoDup slots.
Proof. apply (bool_decide_unpack (NoDup slots)). reflexivity. Qed.

Lemma slots_ok : Forall slot_ok slots.
Proof. apply Forall_forall. intros i. apply slots_elem. Qed.

Lemma Compare_loop_spec cmp l r idx :
  (∀ a b s, 0 < s -> cmp (a * s) (b * s) = cmp a b) -> Forall slot_ok idx ->
  Compare_loop cmp idx l r = true <->
  ∃ i, i ∈ idx ∧ GetBySlot l i <> 0 ∧ GetBySlot r i <> 0 ∧
       (GetBySlot l i = 15 ∨ cmp (GetBySlot r i) (GetBySlot l i) = true).
Proof.
  intros Hcmp. induction idx as [|i idx IH]; intros Hok; cbn [Compare_loop].
  { split; [done|]. set_solver. }
  inversion_clear Hok as [|?? Hi Hok']. specialize (IH Hok').
  assert (0 < 2 ^ (4 * i)) as Hs by (apply Z.pow_pos_nonneg; unfold slot_ok in Hi; lia).
  rewrite !land_mask_zero, !land_mask, Masks_at_value, Hcmp by done.
  destruct (Z.eqb_spec (GetBySlot l i) 0) as [Hl|Hl].
  { rewrite IH. split; intros (k & Hk & H); exists k; set_solver. }
  destruct (Z.eqb_spec (GetBySlot r i) 0) as [Hr|Hr].
  { rewrite IH. split; intros (k & Hk & H); exists k; set_solver. }
  destruct (Z.eqb_spec (GetBySlot l i * 2 ^ (4 * i)) (15 * 2 ^ (4 * i))) as [He|He].
  { split; [|done]. intros _. exists i. split; [set_solver|]. split; [done|]. split; [done|]. left. nia. }
  destruct (cmp (GetBySlot r i) (GetBySlot l i)) eqn:Hc.
  { split; [|done]. intros _. exists i. split; [set_solver|]. auto. }
  rewrite IH. split; intros (k & Hk & H1 & H2 & H3).
  - exists k. set_solver.
  - exists k. set_unfold in Hk. destruct Hk as [->|Hk]; [|done]. destruct H3; [nia|congruence].
Qed.

Lemma ltb_scale a b s : 0 < s -> (a * s <? b * s) = (a <? b).
Proof. intros. zcase; nia. Qed.
Lemma leb_scale a b s : 0 < s -> (a * s <=? b * s) = (a <=? b).
Proof. intros. zcase; nia. Qed.

Lemma GetBySlot_0 i : GetBySlot 0 i = 0.
Proof. unfold GetBySlot. by rewrite Z.shiftr_0_l. Qed.

(** Some slot of [l] holds a version that is above that of [r], or saturated. *)
Definition above (cmp : Z -> Z -> Prop) (l r : t) : Prop :=
  ∃ i, slot_ok i ∧ GetBySlot l i <> 0 ∧ GetBySlot r i <> 0 ∧
       (GetBySlot l i = 15 ∨ cmp (GetBySlot r i) (GetBySlot l i)).

Lemma IsGreaterThan_spec l r : IsGreaterThan l r = true <-> above Z.lt l r.
Proof.
  unfold IsGreaterThan, above.
  destruct (Z.eqb_spec l 0) as [->|], (Z.eqb_spec r 0) as [->|]; cbn [orb];
    try (split; [done|]; intros (i & _ & H1 & H2 & _); by rewrite GetBySlot_0 in *).
  rewrite Compare_loop_spec by (apply slots_ok || apply ltb_scale).
  setoid_rewrite slots_elem. setoid_rewrite Z.ltb_lt. done.
Qed.

Lemma IsGreaterOrEqualThan_spec l r : IsGreaterOrEqualThan l r = true <-> above Z.le l r.
Proof.
  unfold IsGreaterOrEqualThan, above.
  destruct (Z.eqb_spec l 0) as [->|], (Z.eqb_spec r 0) as [->|]; cbn [orb];
    try (split; [done|]; intros (i & _ & H1 & H2 & _); by rewrite GetBySlot_0 in *).
  rewrite Compare_loop_spec by (apply slots_ok || apply leb_scale).
  setoid_rewrite slots_elem. setoid_rewrite Z.leb_le. done.
Qed.

(** ** What the sets record *)

(** A list of (item, version) pairs recorded one after the other, as the
    "MergedRS" and "MergedWS" loops of [SiloNWRTyped] do. *)
Definition record_higher (w : t) (l : list (Z * Z)) : t :=
  fold_left (fun w pv => PutHigherside w pv.1 pv.2) l w.
Definition record_lower (w : t) (l : list (Z * Z)) : t :=
  fold_left (fun w pv => PutLowerside w pv.1 pv.2) l w.

Lemma PutHigherside_slot w p v k :
  is_u32 w -> 0 <= v -> slot_ok k ->
  is_u32 (PutHigherside w p v) ∧
  GetBySlot (PutHigherside w p v) k =
    if k =? slot_of p then Z.max (GetBySlot w k) (Z.min v 15) else GetBySlot w k.
Proof.
  intros Hw Hv Hk. unfold PutHigherside, Get, Put. pose proof (GetBySlot_bound w (slot_of p)).
  destruct (Z.leb_spec v (GetBySlot w (slot_of p))).
  - split; [done|]. destruct (Z.eqb_spec k (slot_of p)) as [->|]; lia.
  - split; [by apply Set_u32|]. rewrite Set_slot by done.
    destruct (Z.eqb_spec k (slot_of p)) as [->|]; lia.
Qed.

Lemma PutLowerside_slot w p v k :
  is_u32 w -> 0 <= v -> slot_ok k ->
  is_u32 (PutLowerside w p v) ∧
  GetBySlot (PutLowerside w p v) k =
    if k =? slot_of p then Z.min (GetBySlot w k) v else GetBySlot w k.
Proof.
  intros Hw Hv Hk. unfold PutLowerside, Get, Put. pose proof (GetBySlot_bound w (slot_of p)).
  destruct (Z.leb_spec (GetBySlot w (slot_of p)) v).
  - split; [done|]. destruct (Z.eqb_spec k (slot_of p)) as [->|]; lia.
  - split; [by apply Set_u32|]. rewrite Set_slot by done.
    destruct (Z.eqb_spec k (slot_of p)) as [->|]; lia.
Qed.

Lemma record_higher_bound l p : forall w,
  is_u32 w -> Forall (fun pv => 0 <= pv.2) l ->
  is_u32 (record_higher w l) ∧ Get w p <= Get (record_higher w l) p ∧
  ∀ v, (p, v) ∈ l -> Z.min v 15 <= Get (record_higher w l) p.
Proof.
  induction l as [|[q u] l IH]; intros w Hw Hall; unfold record_higher; cbn [fold_left fst snd].
  { split; [done|]. split; [done|]. set_solver. }
  inversion_clear Hall as [|?? Hu Hall']. cbn in Hu.
  destruct (PutHigherside_slot w q u (slot_of p) Hw Hu (slot_of_ok p)) as [Hw' Hg].
  destruct (IH _ Hw' Hall') as (H1 & H2 & H3). fold (record_higher (PutHigherside w q u) l).
  unfold Get in *. rewrite Hg in H2. pose proof (GetBySlot_bound w (slot_of p)).
  split; [done|]. split; [revert H2; destruct (slot_of p =? slot_of q); lia|].
  intros v Hv. apply elem_of_cons in Hv as [[= -> ->]|Hv]; [|by apply H3].
  rewrite Z.eqb_refl in H2. lia.
Qed.

(** The packed set of 4-bit versions behaves as an array of eight
    saturating counters: Put, PutHigherside and PutLowerside change exactly
    the slot of the pointer, to the capped version, the maximum and the
    minimum, and Merge combines the sets slot by slot. *)
Theorem versioned_set_slots w p v w' k :
  is_u32 w -> is_u32 w' -> 0 <= v -> slot_ok k ->
  GetBySlot (Put w p v) k = (if k =? slot_of p then Z.min v 15 else GetBySlot w k) ∧
  GetBySlot (PutHigherside w p v) k =
    (if k =? slot_of p then Z.max (GetBySlot w k) (Z.min v 15) else GetBySlot w k) ∧
  GetBySlot (PutLowerside w p v) k =
    (if k =? slot_of p then Z.min (GetBySlot w k) v else GetBySlot w k) ∧
  GetBySlot (Merge w w') k = merge_slot (GetBySlot w k) (GetBySlot w' k).
Proof.
  intros Hw Hw' Hv Hk. split; [by apply Set_slot|]. split; [by apply PutHigherside_slot|].
  split; [by apply PutLowerside_slot|]. unfold Merge.
  rewrite Merge_loop_spec by (apply slots_NoDup || apply slots_ok || done).
  rewrite GetBySlot_0, Z.lor_0_l, bool_decide_eq_true_2 by (by apply slots_elem). done.
Qed.

Import NWRPivotObject.

(** When IsReachableInto finds no path, every version the transaction
    recorded is ordered against the pivot's slot for its item: the pivot's
    write of a slot that a read hashes to is absent or newer than the version
    read, and its read of a slot that a write hashes to is absent or not older
    than the version written. *)
Theorem IsReachableInto_sound lhs rhs w w' reads writes : is_u32 w -> is_u32 w' ->
  rset (msets rhs) = record_higher w reads -> wset (msets rhs) = record_higher w' writes ->
  Forall (fun pv => 0 < pv.2) reads -> Forall (fun pv => 0 < pv.2) writes ->
  IsReachableInto lhs rhs = ACYCLIC ->
  (∀ p v, (p, v) ∈ reads -> Get (wset (msets lhs)) p = 0 ∨ v < Get (wset (msets lhs)) p) ∧
  (∀ p v, (p, v) ∈ writes -> Get (rset (msets lhs)) p = 0 ∨ v <= Get (rset (msets lhs)) p).
Proof.
  intros Hu Hu' Hr Hw Hpr Hpw. unfold IsReachableInto.
  destruct (IsGreaterOrEqualThan _ _) eqn:Hge; [done|].
  destruct (IsGreaterThan _ _) eqn:Hgt; [done|]. intros _.
  apply not_true_iff_false in Hge, Hgt.
  rewrite IsGreaterOrEqualThan_spec in Hge. rewrite IsGreaterThan_spec in Hgt.
  assert (∀ l, Forall (fun pv : Z * Z => 0 < pv.2) l -> Forall (fun pv : Z * Z => 0 <= pv.2) l) as Hnn.
  { intros l H. eapply Forall_impl; [exact H|]. cbn. lia. }
  split; intros p v Hin.
  - destruct (Z.eq_dec (Get (wset (msets lhs)) p) 0) as [|Hne]; [by left|right].
    destruct (record_higher_bound reads p w) as (_ & _ & Hb); [done|auto|].
    specialize (Hb v Hin). rewrite Forall_forall in Hpr. specialize (Hpr _ Hin). cbn in Hpr.
    apply Z.nle_gt. intros Hle. apply Hge. exists (slot_of p). rewrite Hr.
    unfold Get in *. pose proof (GetBySlot_bound (wset (msets lhs)) (slot_of p)).
    pose proof (GetBySlot_bound (record_higher w reads) (slot_of p)).
    split; [done|]. split; [lia|]. split; [done|]. lia.
  - destruct (Z.eq_dec (Get (rset (msets lhs)) p) 0) as [|Hne]; [by left|right].
    destruct (record_higher_bound writes p w') as (_ & _ & Hb); [done|auto|].
    specialize (Hb v Hin). rewrite Forall_forall in Hpw. specialize (Hpw _ Hin). cbn in Hpw.
    apply Z.nlt_ge. intros Hlt. apply Hgt. exists (slot_of p). rewrite Hw.
    unfold Get in *. pose proof (GetBySlot_bound (rset (msets lhs)) (slot_of p)).
    pose proof (GetBySlot_bound (record_higher w' writes) (slot_of p)).
    split; [done|]. split; [lia|]. split; [done|]. lia.
Qed.

(** Recording reads with PutLowerside into an empty merged set records
    nothing, whatever the reads: an empty slot already holds the minimum. *)
Theorem record_lower_empty l : Forall (fun pv => 0 <= pv.2) l -> record_lower 0 l = 0.
Proof.
  induction l as [|[p v] l IH]; intros H; [done|]. inversion_clear H as [|?? Hv Hl]. cbn in Hv.
  unfold record_lower in *. cbn [fold_left fst snd]. unfold PutLowerside at 2, Get.
  rewrite GetBySlot_0. replace (0 <=? v) with true by (symmetry; by apply Z.leb_le). by apply IH.
Qed.

Module Demo.

Lemma versioned_set_slots_witness :
  GetBySlot (PutHigherside 0 0x7f0010 20) (slot_of 0x7f0010) = 15.
Proof.
  destruct (versioned_set_slots 0 0x7f0010 20 0 (slot_of 0x7f0010)) as (_ & H & _).
  - split; [reflexivity|reflexivity].
  - split; [reflexivity|reflexivity].
  - discriminate.
  - apply slot_of_ok.
  - rewrite H. reflexivity.
Defined.

(** A transaction that read version 4 of an item of which the pivot holds a
    write of version 6. *)
Definition pivot : NWRPivotObject.t :=
  NWRPivotObject.mk (mkVersions 0 1) (mkSets 0 (Put 0 0x7f0010 6)).
Definition mine : NWRPivotObject.t :=
  NWRPivotObject.mk (mkVersions 0 1) (mkSets (record_higher 0 [(0x7f0010, 4)]) 0).

Lemma IsReachableInto_sound_witness : Get (wset (msets pivot)) 0x7f0010 = 0 ∨
  4 < Get (wset (msets pivot)) 0x7f0010.
Proof.
  refine (proj1 (IsReachableInto_sound pivot mine 0 0 [(0x7f0010, 4)] [] _ _ eq_refl eq_refl _ _ _) _ _ _).
  - done.
  - done.
  - apply Forall_cons. split; [reflexivity|apply Forall_nil_2].
  - apply Forall_nil_2.
  - vm_compute. reflexivity.
  - apply list_elem_of_here.
Defined.

Lemma record_lower_empty_witness : record_lower 0 [(0x7f0010, 4); (0x7f0020, 1)] = 0.
Proof.
  apply record_lower_empty. apply Forall_cons. split; [discriminate|].
  apply Forall_cons. split; [discriminate|apply Forall_nil_2].
Defined.

End Demo.
