(* ===== verification/Locks.v ===== *)
(** * Locks (src/src/lock/impl/readers_writers_lock.hpp, ttas_lock.hpp)

    The two spin locks as programs over one atomic word.  [TryLock] and
    [UnLock] are split at their atomic accesses (a load, then a
    compare-exchange or a store), and a step relation interleaves any number of
    threads; a compare-exchange may fail spuriously, as
    [compare_exchange_weak] may.  The theorems show mutual exclusion, that the
    asserts of the code hold, and that the word never overflows.

    The spinning of [Lock] is [TryLock] until it succeeds; the back-off between
    attempts has no effect on the word. *)

From S2P Require Import Prelude.

(** ** Readers-writers lock *)

Module ReadersWritersLock.

Inductive LockType : Type := Exclusive | Shared | Upgrade.

Definition ExclusivelyLocked : Z := 1.
Definition UnLocked : Z := 0.
Definition Reader : Z := Z.shiftl 1 1.
Definition ReadersFull : Z := u64 (Z.lnot 1).

Definition IsUnlocked (n : Z) : bool := n =? UnLocked.
Definition IsExclusivelyLocked (n : Z) : bool := n =? ExclusivelyLocked.
Definition IsThereAnyReader (n : Z) : bool := Reader * 1 <=? n.
Definition IsThereRoomForNewReaders (n : Z) : bool := n <? ReadersFull.
Definition AddReader (n : Z) : Z := u64 (n + Reader).
Definition SubReader (n : Z) : Z := u64 (n - Reader).
Definition GetNumberOfReaders (n : Z) : Z := Z.shiftr n ExclusivelyLocked.

(** [TryLock] up to its compare-exchange: the expected and the desired value,
    or [None] where it returns false. *)
Definition TryLock_load (type : LockType) (current : Z) : option (Z * Z) :=
  match type with
  | Shared =>
      if IsExclusivelyLocked current || negb (IsThereRoomForNewReaders current) then None
      else Some (current, AddReader current)
  | Exclusive =>
      if negb (current =? UnLocked) then None else Some (UnLocked, ExclusivelyLocked)
  | Upgrade =>
      if GetNumberOfReaders current =? 1 then Some (current, ExclusivelyLocked) else None
  end.

(** What [UnLock] does after its first load: store, or enter the loop. *)
Definition UnLock_load (current : Z) : option Z :=
  if IsExclusivelyLocked current then Some UnLocked else None.

(** An attempt that nobody interferes with. *)
Definition TryLock (type : LockType) (word : Z) : bool * Z :=
  match TryLock_load type word with
  | None => (false, word)
  | Some (expected, desired) => if word =? expected then (true, desired) else (false, word)
  end.
Definition UnLock (word : Z) : Z :=
  match UnLock_load word with
  | Some w => w
  | None => SubReader word
  end.

(** Where a thread is. *)
Inductive Pc : Type :=
| Idle
| Locking (type : LockType) (expected desired : Z)
| HoldsShared
| Upgrading (expected desired : Z)
| HoldsExclusive
| UnlockingStore (value : Z)
| UnlockingLoop
| UnlockingCas (expected : Z).

Record State := mkState { word : Z; threads : list Pc }.

Definition init (n : nat) : State := mkState UnLocked (replicate n Idle).

Inductive step : State -> State -> Prop :=
| step_lock_load w ts i type e d :
    ts !! i = Some Idle -> type <> Upgrade -> TryLock_load type w = Some (e, d) ->
    step (mkState w ts) (mkState w (<[i := Locking type e d]> ts))
| step_lock_cas w ts i type e d :
    ts !! i = Some (Locking type e d) -> w = e ->
    step (mkState w ts)
      (mkState d (<[i := match type with Shared => HoldsShared | _ => HoldsExclusive end]> ts))
| step_lock_cas_fails w ts i type e d :
    ts !! i = Some (Locking type e d) -> step (mkState w ts) (mkState w (<[i := Idle]> ts))
| step_upgrade_load w ts i e d :
    ts !! i = Some HoldsShared -> TryLock_load Upgrade w = Some (e, d) ->
    step (mkState w ts) (mkState w (<[i := Upgrading e d]> ts))
| step_upgrade_cas w ts i e d :
    ts !! i = Some (Upgrading e d) -> w = e ->
    step (mkState w ts) (mkState d (<[i := HoldsExclusive]> ts))
| step_upgrade_cas_fails w ts i e d :
    ts !! i = Some (Upgrading e d) -> step (mkState w ts) (mkState w (<[i := HoldsShared]> ts))
| step_unlock_load w ts i p :
    ts !! i = Some p -> p = HoldsShared ∨ p = HoldsExclusive ->
    step (mkState w ts)
      (mkState w (<[i := match UnLock_load w with Some v => UnlockingStore v
                                                | None => UnlockingLoop end]> ts))
| step_unlock_store w ts i v :
    ts !! i = Some (UnlockingStore v) -> step (mkState w ts) (mkState v (<[i := Idle]> ts))
| step_unlock_reload w ts i :
    ts !! i = Some UnlockingLoop -> step (mkState w ts) (mkState w (<[i := UnlockingCas w]> ts))
| step_unlock_cas w ts i e :
    ts !! i = Some (UnlockingCas e) -> w = e ->
    step (mkState w ts) (mkState (SubReader e) (<[i := Idle]> ts))
| step_unlock_cas_fails w ts i e :
    ts !! i = Some (UnlockingCas e) ->
    step (mkState w ts) (mkState w (<[i := UnlockingLoop]> ts)).

(** The threads that hold the lock, by what they add to the word. *)
Definition weight (p : Pc) : Z :=
  match p with
  | HoldsShared | Upgrading _ _ | UnlockingLoop | UnlockingCas _ => 2
  | HoldsExclusive | UnlockingStore _ => 1
  | Idle | Locking _ _ _ => 0
  end.

(** What a thread remembers of its loads. *)
Definition pc_ok (p : Pc) : Prop :=
  match p with
  | Locking type e d => type <> Upgrade ∧ TryLock_load type e = Some (e, d)
  | Upgrading e d => TryLock_load Upgrade e = Some (e, d)
  | UnlockingStore v => v = UnLocked
  | _ => True
  end.

Definition total (ts : list Pc) : Z := foldr (fun p n => weight p + n) 0 ts.

(** The word counts the holders; a writer is alone. *)
Definition inv (s : State) : Prop :=
  word s = total (threads s) ∧ word s < 2 ^ 64 - 1 ∧ Forall pc_ok (threads s) ∧
  (∀ i p, threads s !! i = Some p -> weight p = 1 -> word s = 1).

End ReadersWritersLock.

Import ReadersWritersLock.

Lemma total_cons p ts : total (p :: ts) = weight p + total ts.
Proof. reflexivity. Qed.

Lemma weight_nonneg p : 0 <= weight p.
Proof. destruct p; cbn; lia. Qed.

Lemma total_nonneg ts : 0 <= total ts.
Proof.
  induction ts as [|p ts IH]; [done|]. rewrite total_cons. pose proof (weight_nonneg p). lia.
Qed.

Lemma sum_insert ts i p q :
  ts !! i = Some p -> total (<[i := q]> ts) = total ts - weight p + weight q.
Proof.
  revert i. induction ts as [|t ts IH]; intros [|i] H; try done.
  - injection H as ->. change (<[0%nat := q]> (p :: ts)) with (q :: ts). rewrite !total_cons. lia.
  - change (<[S i := q]> (t :: ts)) with (t :: <[i := q]> ts). rewrite !total_cons, IH by done. lia.
Qed.

Lemma weight_le_total ts i p : ts !! i = Some p -> weight p <= total ts.
Proof.
  revert i. induction ts as [|t ts IH]; intros [|i] H; try done; rewrite total_cons.
  - injection H as ->. pose proof (total_nonneg ts). lia.
  - specialize (IH i H). pose proof (weight_nonneg t). lia.
Qed.

(** Two different holders add up. *)
Lemma weight_two ts i j p q :
  i <> j -> ts !! i = Some p -> ts !! j = Some q -> weight p + weight q <= total ts.
Proof.
  intros Hij Hi Hj. pose proof (sum_insert ts i p Idle Hi) as H.
  assert (<[i := Idle]> ts !! j = Some q) as Hj' by by rewrite list_lookup_insert_ne.
  pose proof (weight_le_total _ j q Hj'). cbn in H. lia.
Qed.

(** One thread moves from [p] to [q] and the word follows. *)
Lemma inv_update w ts i p q w' :
  inv (mkState w ts) -> ts !! i = Some p -> pc_ok q ->
  w' = w - weight p + weight q -> w' < 2 ^ 64 - 1 ->
  (weight q = 1 -> w' = 1) -> (weight p = 0 -> w = 1 -> weight q = 0) ->
  inv (mkState w' (<[i := q]> ts)).
Proof.
  intros (Hw & Hlt & Hok & Hone) Hi Hq Hw' Hlt' Hq1 Hp0. cbn [word threads] in *.
  split; [|split; [|split]]; cbn [word threads].
  - rewrite (sum_insert _ _ p) by done. lia.
  - done.
  - by apply Forall_insert.
  - intros j r Hj Hr. destruct (decide (i = j)) as [->|Hij].
    + rewrite list_lookup_insert_eq in Hj by (by eapply lookup_lt_Some).
      injection Hj as <-. auto.
    + rewrite list_lookup_insert_ne in Hj by done. pose proof (Hone j r Hj Hr) as H1.
      pose proof (weight_two ts i j p r Hij Hi Hj). pose proof (weight_nonneg p).
      assert (weight p = 0) as Hz by lia. specialize (Hp0 Hz H1). lia.
Qed.

Lemma TryLock_load_shared w e d :
  TryLock_load Shared w = Some (e, d) -> 0 <= w -> e = w ∧ d = w + 2 ∧ w <> 1 ∧ w < 2 ^ 64 - 2.
Proof.
  cbn. unfold IsExclusivelyLocked, IsThereRoomForNewReaders, AddReader.
  change ReadersFull with (2 ^ 64 - 2). change Reader with 2. change ExclusivelyLocked with 1.
  zcase; cbn; try done. intros [= <- <-] ?. rewrite u64_small by (unfold is_u64; lia). lia.
Qed.

Lemma TryLock_load_exclusive w e d :
  TryLock_load Exclusive w = Some (e, d) -> w = 0 ∧ e = 0 ∧ d = 1.
Proof. cbn. unfold UnLocked. zcase; cbn; [|done]. by intros [= <- <-]. Qed.

Lemma TryLock_load_upgrade w e d :
  TryLock_load Upgrade w = Some (e, d) -> e = w ∧ d = 1 ∧ (w = 2 ∨ w = 3).
Proof.
  cbn. unfold GetNumberOfReaders, ExclusivelyLocked. rewrite Z.shiftr_div_pow2 by lia.
  destruct (Z.eqb_spec (w / 2 ^ 1) 1); [|done]. intros [= <- <-]. split; [done|]. split; [done|].
  change (2 ^ 1) with 2 in *. Z.div_mod_to_equations. lia.
Qed.

(** The total is even unless a writer is among the holders. *)
Lemma total_even ts : (∀ i p, ts !! i = Some p -> weight p <> 1) -> Z.Even (total ts).
Proof.
  induction ts as [|p ts IH]; intros H; [by exists 0|].
  destruct IH as [k Hk]; [intros i q Hi; by apply (H (S i))|]. specialize (H O p eq_refl).
  rewrite total_cons, Hk. destruct p; cbn [weight] in *; try lia.
  all: try (by exists (k + 1); lia). all: by exists k; lia.
Qed.

Lemma step_preserves s s' : step s s' -> inv s -> inv s'.
Proof.
  intros Hstep Hinv. pose proof Hinv as (Hw & Hlt & Hok & Hone).
  pose proof (total_nonneg (threads s)) as Hnn.
  destruct Hstep as [w ts i type e d Hi Ht Hl|w ts i type e d Hi He|w ts i type e d Hi
    |w ts i e d Hi Hl|w ts i e d Hi He|w ts i e d Hi|w ts i p Hi Hp|w ts i v Hi|w ts i Hi
    |w ts i e Hi He|w ts i e Hi]; cbn [word threads] in *;
    pose proof (Forall_lookup_1 _ _ _ _ Hok Hi) as Hpc; pose proof (weight_le_total _ _ _ Hi) as Hle;
    cbn [pc_ok weight] in Hpc, Hle.
  - apply (inv_update w ts i Idle); try done; cbn [weight pc_ok]; [|lia]. split; [done|].
    destruct type; [|..|done].
    + destruct (TryLock_load_exclusive _ _ _ Hl) as (-> & -> & ->). done.
    + destruct (TryLock_load_shared _ _ _ Hl) as (-> & -> & _); [lia|done].
  - subst w. destruct Hpc as [Ht Hl]. destruct type; [|..|done].
    + destruct (TryLock_load_exclusive _ _ _ Hl) as (-> & _ & ->).
      by apply (inv_update 0 ts i (Locking Exclusive 0 1)); cbn [weight pc_ok].
    + destruct (TryLock_load_shared _ _ _ Hl) as (_ & -> & Hne & Hroom); [lia|].
      assert (∀ j p, ts !! j = Some p -> weight p <> 1) as Hno by (intros j p Hj Hp1; by apply Hne, (Hone j p)).
      destruct (total_even ts Hno) as [k Hk].
      apply (inv_update e ts i (Locking Shared e (e + 2))); cbn [weight pc_ok]; try done; lia.
  - by apply (inv_update w ts i (Locking type e d)); cbn [weight pc_ok]; try done; lia.
  - destruct (TryLock_load_upgrade _ _ _ Hl) as (-> & -> & _).
    by apply (inv_update w ts i HoldsShared); cbn [weight pc_ok]; try done; lia.
  - subst w. destruct (TryLock_load_upgrade _ _ _ Hpc) as (_ & -> & He2).
    destruct He2 as [->| ->]; [by apply (inv_update 2 ts i (Upgrading 2 1)); cbn [weight pc_ok]|].
    exfalso. assert (∀ j p, ts !! j = Some p -> weight p <> 1) as Hno
      by (intros j p Hj Hp1; specialize (Hone j p Hj Hp1); lia).
    destruct (total_even ts Hno). lia.
  - by apply (inv_update w ts i (Upgrading e d)); cbn [weight pc_ok]; try done; lia.
  - unfold UnLock_load, IsExclusivelyLocked, ExclusivelyLocked.
    destruct Hp as [->| ->]; cbn [weight] in Hle.
    + destruct (Z.eqb_spec w 1); [lia|].
      by apply (inv_update w ts i HoldsShared); cbn [weight pc_ok]; try done; lia.
    + rewrite (Hone i HoldsExclusive Hi eq_refl), Z.eqb_refl in *.
      by apply (inv_update 1 ts i HoldsExclusive); cbn [weight pc_ok]; try done; lia.
  - rewrite Hpc. specialize (Hone i (UnlockingStore v) Hi eq_refl). subst w.
    by apply (inv_update 1 ts i (UnlockingStore v)); cbn [weight pc_ok]; try done; lia.
  - by apply (inv_update w ts i UnlockingLoop); cbn [weight pc_ok]; try done; lia.
  - subst w. unfold SubReader. change Reader with 2. rewrite u64_small by (unfold is_u64; lia).
    apply (inv_update e ts i (UnlockingCas e)); cbn [weight pc_ok]; try done; lia.
  - by apply (inv_update w ts i (UnlockingCas e)); cbn [weight pc_ok]; try done; lia.
Qed.

Lemma lock_init_inv n : inv (init n).
Proof.
  assert (total (replicate n Idle) = 0) as H by (induction n as [|n IH]; [done|cbn; exact IH]).
  unfold init. split; cbn [word threads]; [by rewrite H|]. split; [done|].
  split; [by apply Forall_replicate|].
  intros i p Hi. apply lookup_replicate in Hi as [-> _]. done.
Qed.

Lemma lock_reachable_inv n s : rtc step (init n) s -> inv s.
Proof.
  intros H. refine (rtc_ind_r inv (init n) _ _ s H); [apply lock_init_inv|].
  intros s1 s2 _ Hs Hi. by apply (step_preserves s1).
Qed.

(** In every interleaving of lock, upgrade and unlock steps of any number
    of threads, while one thread holds the readers-writers lock exclusively no
    other thread holds it in any mode. *)
Theorem readers_writers_exclusion n s i j p q :
  rtc step (init n) s -> threads s !! i = Some p -> threads s !! j = Some q -> i <> j ->
  weight p = 1 -> weight q = 0.
Proof.
  intros Hr Hi Hj Hij Hp. destruct (lock_reachable_inv n s Hr) as (Hw & _ & _ & Hone).
  specialize (Hone i p Hi Hp). pose proof (weight_two _ _ _ _ _ Hij Hi Hj).
  pose proof (weight_nonneg q). lia.
Qed.

(** The assertions of UnLock hold in every reachable state and its
    arithmetic does not wrap: the lock word stays in 64 bits, a holder sees it
    locked, a reader that unlocks sees a reader, and taking a reader off the
    word subtracts exactly one reader. *)
Theorem readers_writers_asserts n s i p :
  rtc step (init n) s -> threads s !! i = Some p ->
  0 <= word s < 2 ^ 64 ∧
  (p = HoldsShared ∨ p = HoldsExclusive -> IsUnlocked (word s) = false) ∧
  (p = HoldsShared ∨ p = UnlockingLoop -> IsThereAnyReader (word s) = true) ∧
  (∀ e, p = UnlockingCas e -> word s = e -> SubReader e = e - 2).
Proof.
  intros Hr Hi. destruct (lock_reachable_inv n s Hr) as (Hw & Hlt & _ & _).
  pose proof (total_nonneg (threads s)). pose proof (weight_le_total _ _ _ Hi) as Hle.
  split; [lia|]. split; [|split].
  - unfold IsUnlocked, UnLocked. intros [-> | ->]; cbn in Hle; apply Z.eqb_neq; lia.
  - unfold IsThereAnyReader. change (Reader * 1) with 2.
    intros [-> | ->]; cbn in Hle; apply Z.leb_le; lia.
  - intros e -> He. cbn in Hle. unfold SubReader. change Reader with 2.
    apply u64_small. unfold is_u64. lia.
Qed.

(** ** Test-and-test-and-set lock *)

Module TTASLock.

Definition Locked : Z := 1.
Definition UnLocked : Z := 0.

(** [TryLock] up to its compare-exchange. *)
Definition TryLock_load (current : Z) : option (Z * Z) :=
  if current =? Locked then None else Some (UnLocked, Locked).

Inductive Pc : Type := Idle | Locking (expected desired : Z) | Holds.

Record State := mkState { word : Z; threads : list Pc }.

Definition init (n : nat) : State := mkState UnLocked (replicate n Idle).

Inductive step : State -> State -> Prop :=
| step_load w ts i e d :
    ts !! i = Some Idle -> TryLock_load w = Some (e, d) ->
    step (mkState w ts) (mkState w (<[i := Locking e d]> ts))
| step_cas w ts i e d :
    ts !! i = Some (Locking e d) -> w = e ->
    step (mkState w ts) (mkState d (<[i := Holds]> ts))
| step_cas_fails w ts i e d :
    ts !! i = Some (Locking e d) -> step (mkState w ts) (mkState w (<[i := Idle]> ts))
| step_unlock w ts i :
    ts !! i = Some Holds -> step (mkState w ts) (mkState UnLocked (<[i := Idle]> ts)).

(** The word is the lock bit of the one holder. *)
Definition inv (s : State) : Prop :=
  (word s = UnLocked ∧ (∀ i, threads s !! i <> Some Holds) ∨
   word s = Locked ∧ ∃ i, ∀ j, threads s !! j = Some Holds <-> j = i) ∧
  ∀ i e d, threads s !! i = Some (Locking e d) -> e = UnLocked ∧ d = Locked.

Lemma insert_holds (ts : list Pc) (i : nat) p q (j : nat) :
  ts !! i = Some p -> (<[i := q]> ts !! j = Some Holds) <-> (if decide (j = i) then q = Holds
                                                      else ts !! j = Some Holds).
Proof.
  intros Hi. pose proof (lookup_lt_Some _ _ _ Hi). destruct (decide (j = i)) as [->|Hne].
  - rewrite list_lookup_insert_eq by done. naive_solver.
  - by rewrite list_lookup_insert_ne by done.
Qed.

Lemma insert_locking (ts : list Pc) (i : nat) p q :
  ts !! i = Some p -> (∀ (i : nat) e d, ts !! i = Some (Locking e d) -> e = UnLocked ∧ d = Locked) ->
  (∀ e d, q = Locking e d -> e = UnLocked ∧ d = Locked) ->
  ∀ (j : nat) e d, <[i := q]> ts !! j = Some (Locking e d) -> e = UnLocked ∧ d = Locked.
Proof.
  intros Hi Hall Hq j e d Hj. apply list_lookup_insert_Some in Hj as [(_ & Hj & _)|[_ Hj]]; eauto.
Qed.

Lemma ttas_step_preserves s s' : step s s' -> inv s -> inv s'.
Proof.
  destruct 1 as [w ts i e d Hi Hl|w ts i e d Hi He|w ts i e d Hi|w ts i Hi]; intros [Hw Hlk];
    cbn in *; (split; cbn; [|eapply insert_locking; [exact Hi|exact Hlk|]]); try done.
  - destruct Hw as [[Hw Hno]|[Hw (k & Hk)]]; [left|right]; (split; [done|]).
    + intros j. rewrite (insert_holds _ _ _ _ _ Hi). destruct (decide (j = i)); naive_solver.
    + exists k. intros j. rewrite (insert_holds _ _ _ _ _ Hi), <- Hk.
      destruct (decide (j = i)) as [->|]; naive_solver congruence.
  - unfold TryLock_load in Hl. destruct (_ =? _); [done|]. naive_solver.
  - destruct (Hlk i e d Hi) as [-> ->]. right. split; [done|]. exists i. intros j.
    destruct Hw as [[Hw Hno]|[Hw (k & Hk)]]; [|by rewrite Hw in He].
    rewrite (insert_holds _ _ _ _ _ Hi). destruct (decide (j = i)); naive_solver.
  - destruct Hw as [[Hw Hno]|[Hw (k & Hk)]]; [left|right]; (split; [done|]).
    + intros j. rewrite (insert_holds _ _ _ _ _ Hi). destruct (decide (j = i)); naive_solver.
    + exists k. intros j. rewrite (insert_holds _ _ _ _ _ Hi), <- Hk.
      destruct (decide (j = i)) as [->|]; naive_solver congruence.
  - left. split; [done|]. destruct Hw as [[Hw Hno]|[Hw (k & Hk)]]; [by destruct (Hno i)|].
    apply Hk in Hi as Hik. subst k. intros j. rewrite (insert_holds _ _ _ _ _ Hi).
    destruct (decide (j = i)); naive_solver.
Qed.

Lemma ttas_init_inv n : inv (init n).
Proof.
  assert (∀ i p, replicate n Idle !! i = Some p -> p = Idle) as H
    by (intros i p Hi; by apply lookup_replicate in Hi as [-> _]).
  split; [left; split; [done|]; intros i Hi|intros i e d Hi]; by apply H in Hi.
Qed.

(** In every interleaving at most one thread holds the
    test-and-test-and-set lock, and the word reads Locked while one does. *)
Theorem ttas_mutual_exclusion n s i j :
  rtc step (init n) s -> threads s !! i = Some Holds -> threads s !! j = Some Holds ->
  i = j ∧ word s = Locked.
Proof.
  intros Hr Hi Hj.
  assert (inv s) as [[[_ Hno]|[Hw (k & Hk)]] _].
  { refine (rtc_ind_r inv (init n) _ _ s Hr); [apply ttas_init_inv|].
    intros s1 s2 _ Hs Hinv. by apply (ttas_step_preserves s1). }
  - by destruct (Hno i).
  - apply Hk in Hi, Hj. by subst.
Qed.

End TTASLock.

Module Demo.

(** A reader upgrades while it is alone. *)
Lemma upgraded : rtc step (init 2) (mkState 1 [HoldsExclusive; Idle]).
Proof.
  apply rtc_l with (mkState 0 [Locking Shared 0 2; Idle]).
  { by apply (step_lock_load 0 [Idle; Idle] 0 Shared). }
  apply rtc_l with (mkState 2 [HoldsShared; Idle]).
  { by apply (step_lock_cas 0 [Locking Shared 0 2; Idle] 0 Shared 0 2). }
  apply rtc_l with (mkState 2 [Upgrading 2 1; Idle]).
  { by apply (step_upgrade_load 2 [HoldsShared; Idle] 0 2 1). }
  apply rtc_once. by apply (step_upgrade_cas 2 [Upgrading 2 1; Idle] 0 2 1).
Defined.

Lemma readers_writers_exclusion_witness : weight Idle = 0.
Proof.
  exact (readers_writers_exclusion 2 _ 0 1 HoldsExclusive Idle upgraded eq_refl eq_refl
    ltac:(discriminate) eq_refl).
Defined.

Lemma readers_writers_asserts_witness : IsUnlocked 1 = false.
Proof.
  exact (proj1 (proj2 (readers_writers_asserts 2 _ 0 HoldsExclusive upgraded eq_refl))
    (or_intror eq_refl)).
Defined.

Lemma ttas_mutual_exclusion_witness : (0 = 0)%nat ∧ TTASLock.word (TTASLock.mkState 1 [TTASLock.Holds]) = 1.
Proof.
  refine (TTASLock.ttas_mutual_exclusion 1 (TTASLock.mkState 1 [TTASLock.Holds]) 0 0 _ eq_refl eq_refl).
  apply rtc_l with (TTASLock.mkState 0 [TTASLock.Locking 0 1]).
  { by apply (TTASLock.step_load 0 [TTASLock.Idle] 0). }
  apply rtc_once. by apply (TTASLock.step_cas 0 [TTASLock.Locking 0 1] 0 0 1).
Defined.

End Demo.
