(* ===== verification/Epoch.v ===== *)
(** * The epoch framework (src/src/util/epoch_framework.hpp)

    A global epoch counter, one published epoch per thread and a single writer
    that advances the counter when every online thread has caught up.  The
    operations are split at their sequentially consistent accesses: a thread's
    [MakeMeOnline] is a load, then rounds of a store and a reload; the writer
    scans the slots one by one.  [step] interleaves them in any order.

    The theorems show the contract the code comments state: a thread that
    [MakeMeOnline] brought online in epoch E holds the counter at E + 1 at
    most, so two advances ([Sync]) outwait every thread of an older epoch, and
    the counter never passes the high-water mark.

    Not modelled: the condition variables (a wait that ends is a step that is
    enabled), the thread-key registry (the slots are a fixed list) and the
    recovery-time setters. *)

From S2P Require Import Prelude.

Module EpochFramework.

Definition THREAD_OFFLINE : Z := UINT32_MAX.
Definition kEpochHighWater : Z := UINT32_MAX - Z.shiftl 1 20.

(** Where a thread is in [MakeMeOnline] and [MakeMeOffline]. *)
Inductive ThreadPc : Type :=
| Offline
| Storing (published : Z)
| Reloading (published : Z)
| Online (epoch : Z).

(** Where the writer is in [EpochWriterJob]. *)
Inductive WriterPc : Type :=
| Sleeping
| Scanning (k : nat) (min_epoch : Z) (forced_wake : bool)
| Advancing (min_epoch : Z)
| Finished
| Aborted.

Record State := mkState {
  global_epoch_ : Z;
  stop_ : bool;
  advance_requested_ : bool;
  slots : list Z;
  pcs : list ThreadPc;
  writer : WriterPc
}.

Definition init (n : nat) : State :=
  mkState 1 false false (replicate n THREAD_OFFLINE) (replicate n Offline) Sleeping.

(** [MakeMeOnline]: the reload either agrees or sends the thread round again. *)
Definition Reload (published reloaded : Z) : ThreadPc :=
  if reloaded =? published then Online published else Storing reloaded.

Definition RequestEpochAdvance (s : State) : State :=
  if kEpochHighWater <=? global_epoch_ s then s
  else mkState (global_epoch_ s) (stop_ s) true (slots s) (pcs s) (writer s).

(** The body of [GetSmallestEpoch]'s lambda. *)
Definition MinEpoch (e min_epoch : Z) : Z := if (0 <? e) && (e <? min_epoch) then e else min_epoch.

(** [GetSmallestEpoch] over slots nobody touches meanwhile. *)
Definition GetSmallestEpoch (l : list Z) : Z := fold_left (fun m e => MinEpoch e m) l THREAD_OFFLINE.

(** The end of a round of the writer that did not advance. *)
Definition RoundEnd (stop : bool) (min_epoch : Z) : WriterPc :=
  if stop && (min_epoch =? THREAD_OFFLINE) then Finished else Sleeping.

(** What the writer does once it has scanned every slot and loaded the epoch. *)
Definition Decide (stop forced_wake : bool) (min_epoch old_epoch : Z) : WriterPc :=
  if forced_wake && negb stop && (kEpochHighWater <=? old_epoch) then Sleeping
  else if (min_epoch =? THREAD_OFFLINE) || (min_epoch =? old_epoch)
  then if kEpochHighWater <=? old_epoch then Aborted else Advancing min_epoch
  else RoundEnd stop min_epoch.

(** One access of the writer. *)
Definition writer_step (s : State) : State :=
  match writer s with
  | Sleeping =>
      mkState (global_epoch_ s) (stop_ s) (if stop_ s then advance_requested_ s else false)
        (slots s) (pcs s)
        (Scanning 0 THREAD_OFFLINE (negb (stop_ s) && advance_requested_ s))
  | Scanning k min_epoch forced_wake =>
      mkState (global_epoch_ s) (stop_ s) (advance_requested_ s) (slots s) (pcs s)
        (match slots s !! k with
         | Some e => Scanning (S k) (MinEpoch e min_epoch) forced_wake
         | None => Decide (stop_ s) forced_wake min_epoch (global_epoch_ s)
         end)
  | Advancing min_epoch =>
      mkState (u32 (global_epoch_ s + 1)) (stop_ s) (advance_requested_ s) (slots s) (pcs s)
        (RoundEnd (stop_ s) min_epoch)
  | Finished | Aborted => s
  end.

Definition set_thread (s : State) (i : nat) (slot : Z) (pc : ThreadPc) : State :=
  mkState (global_epoch_ s) (stop_ s) (advance_requested_ s)
    (<[i := slot]> (slots s)) (<[i := pc]> (pcs s)) (writer s).

Definition slot_at (s : State) (i : nat) : Z := default THREAD_OFFLINE (slots s !! i).

Inductive step : State -> State -> Prop :=
| step_online_load s i :
    pcs s !! i = Some Offline -> step s (set_thread s i (slot_at s i) (Storing (global_epoch_ s)))
| step_online_store s i p :
    pcs s !! i = Some (Storing p) -> step s (set_thread s i p (Reloading p))
| step_online_reload s i p :
    pcs s !! i = Some (Reloading p) ->
    step s (set_thread s i (slot_at s i) (Reload p (global_epoch_ s)))
| step_offline s i e :
    pcs s !! i = Some (Online e) -> step s (set_thread s i THREAD_OFFLINE Offline)
| step_request s : step s (RequestEpochAdvance s)
| step_stop s :
    step s (mkState (global_epoch_ s) true (advance_requested_ s) (slots s) (pcs s) (writer s))
| step_writer s : writer s <> Aborted -> step s (writer_step s).

(** [Sync], as the epochs its loads return: [current] before the wait and
    [reload] after it; [stop] is what [stop_.load()] returned. *)
Fixpoint Sync_loop (obs : list (Z * Z * bool)) (reload_count : Z) : option (Z * bool) :=
  match obs with
  | [] => None
  | (_, reload, stop) :: obs' =>
      if stop then Some (reload, true) else
      let reload_count := reload_count + 1 in
      if reload_count =? 2 then Some (reload, false) else Sync_loop obs' reload_count
  end.
Definition Sync (obs : list (Z * Z * bool)) : option (Z * bool) := Sync_loop obs 0.

(** The loads of [WaitGlobalEpochAtLeastUntil]: the first load, then per round
    the load, [stop_], and whether the wait timed out with the epoch it then
    loads. *)
Fixpoint Wait_loop (target : Z) (obs : list (Z * bool * option Z)) : option bool :=
  match obs with
  | [] => None
  | (epoch, stop, timeout) :: obs' =>
      if target <=? epoch then Some true else
      if stop then Some false else
      match timeout with
      | Some e => Some (target <=? e)
      | None => Wait_loop target obs'
      end
  end.
Definition WaitGlobalEpochAtLeastUntil (target first : Z) (obs : list (Z * bool * option Z))
    : option bool :=
  if target <=? first then Some true else
  if kEpochHighWater <? target then Some false else Wait_loop target obs.

End EpochFramework.
Import EpochFramework.

(** The epochs the loads of [Sync] can return when it is called at [g] or later:
    the counter does not decrease, and a wait that was not ended by [Stop] ends
    after an advance. *)
Fixpoint observed_from (g : Z) (obs : list (Z * Z * bool)) : Prop :=
  match obs with
  | [] => True
  | (current, reload, stop) :: obs' =>
      g <= current <= reload ∧ (stop = false -> current < reload) ∧ observed_from reload obs'
  end.

(** ** The invariant *)

(** The writer will not advance past [E + 1] while slot [i] reads [E]: its scan
    has not passed the slot, or it has seen an epoch that is behind. *)
Definition writer_behind (s : State) (i : nat) (e : Z) : Prop :=
  match writer s with
  | Scanning k min_epoch _ => (k <= i)%nat ∨ min_epoch <= e
  | Advancing _ => False
  | _ => True
  end.

Definition thread_inv (s : State) (i : nat) (pc : ThreadPc) : Prop :=
  match pc with
  | Offline => slots s !! i = Some THREAD_OFFLINE
  | Storing p => 0 < p <= global_epoch_ s
  | Reloading p => slots s !! i = Some p ∧ 0 < p <= global_epoch_ s
  | Online e =>
      slots s !! i = Some e ∧ 0 < e ∧
      (global_epoch_ s = e ∨ global_epoch_ s = e + 1 ∧ writer_behind s i e)
  end.

Definition epoch_inv (s : State) : Prop :=
  0 < global_epoch_ s <= kEpochHighWater ∧ length (slots s) = length (pcs s) ∧
  (∀ i pc, pcs s !! i = Some pc -> thread_inv s i pc) ∧
  match writer s with
  | Scanning k min_epoch _ => 0 < min_epoch <= THREAD_OFFLINE
  | Advancing min_epoch => global_epoch_ s < kEpochHighWater
  | _ => True
  end.

Lemma kEpochHighWater_value : kEpochHighWater = 2 ^ 32 - 1 - 2 ^ 20.
Proof. reflexivity. Qed.

Lemma MinEpoch_spec e m : MinEpoch e m <= m ∧ (0 < e -> MinEpoch e m <= e) ∧ (0 < m -> 0 < MinEpoch e m).
Proof.
  unfold MinEpoch. destruct (Z.ltb_spec 0 e), (Z.ltb_spec e m); cbn; lia.
Qed.

(** A thread's own accesses. *)
Lemma set_thread_inv s i pc slot pc' :
  epoch_inv s -> pcs s !! i = Some pc -> thread_inv (set_thread s i slot pc') i pc' ->
  epoch_inv (set_thread s i slot pc').
Proof.
  intros (Hg & Hlen & Hth & Hw) Hi Hnew. split; [done|]. split; [cbn; by rewrite !length_insert|].
  split; [|done]. intros j q Hj. destruct (decide (i = j)) as [->|Hne].
  - cbn in Hj. rewrite list_lookup_insert_eq in Hj by (by eapply lookup_lt_Some).
    by injection Hj as <-.
  - cbn in Hj. rewrite list_lookup_insert_ne in Hj by done. specialize (Hth j q Hj).
    unfold thread_inv in *. cbn. by rewrite list_lookup_insert_ne by done.
Qed.

Lemma slot_lookup s i pc :
  epoch_inv s -> pcs s !! i = Some pc -> ∀ v, <[i := v]> (slots s) !! i = Some v.
Proof.
  intros (_ & Hlen & _) Hi v. apply list_lookup_insert_eq. rewrite Hlen. by eapply lookup_lt_Some.
Qed.

(** The writer's accesses move the counter and the scan, not the slots. *)
Lemma writer_step_inv s : epoch_inv s -> writer s <> Aborted -> epoch_inv (writer_step s).
Proof.
  intros Hinv Ha. pose proof Hinv as (Hg & Hlen & Hth & Hw). unfold writer_step. pose proof kEpochHighWater_value as Hhw.
  destruct (writer s) as [|k m f|m| |] eqn:Ew; try done.
  - split; [done|]. split; [done|]. split; [|cbn; unfold THREAD_OFFLINE, UINT32_MAX; lia].
    intros i pc Hi. specialize (Hth i pc Hi). destruct pc; try done.
    destruct Hth as (H1 & H2 & H3). split; [done|]. split; [done|]. destruct H3 as [H3|[H3 _]];
      [by left|right; split; [done|]]. left. lia.
  - destruct (slots s !! k) as [e|] eqn:Ek.
    + split; [done|]. split; [done|]. destruct (MinEpoch_spec e m) as (M1 & M2 & M3).
      split; [|cbn; lia]. intros i pc Hi. specialize (Hth i pc Hi). destruct pc; try done.
      destruct Hth as (H1 & H2 & H3). split; [done|]. split; [done|].
      destruct H3 as [H3|[H3 H4]]; [by left|right; split; [done|]].
      unfold writer_behind in *. rewrite Ew in H4. cbn. destruct H4 as [H4|H4]; [|right; lia].
      destruct (decide (k = i)) as [->|]; [|left; lia]. right.
      rewrite Ek in H1. injection H1 as ->. lia.
    + apply lookup_ge_None in Ek. set (wpc := Decide _ _ _ _).
      assert (∀ i e, pcs s !! i = Some (Online e) -> global_epoch_ s = e + 1 ->
        0 < m <= e -> wpc = Sleeping ∨ wpc = Finished) as Hdec.
      { intros i e Hi Hge Hm. unfold wpc, Decide, RoundEnd, THREAD_OFFLINE, UINT32_MAX in *.
        destruct (_ && _ && _); [by left|].
        destruct (Z.eqb_spec m (2 ^ 32 - 1)); [lia|]. destruct (Z.eqb_spec m (global_epoch_ s)); [lia|].
        cbn. rewrite andb_false_r. by left. }
      split; [done|]. split; [done|]. split.
      * intros i pc Hi. pose proof (Hth i pc Hi) as Ht. destruct pc as [| | |e]; try done.
        destruct Ht as (H1 & H2 & H3). split; [done|]. split; [done|].
        destruct H3 as [H3|[H3 H4]]; [by left|right; split; [done|]].
        unfold writer_behind in *. rewrite Ew in H4. cbn.
        destruct H4 as [H4|H4]; [apply lookup_lt_Some in H1; lia|].
        destruct (Hdec i e Hi H3) as [-> | ->]; [lia|done..].
      * cbn. unfold wpc, Decide, RoundEnd. destruct (_ && _ && _); [done|].
        destruct (_ || _); [|by destruct (_ && _)].
        destruct (Z.leb_spec kEpochHighWater (global_epoch_ s)); [done|lia].
  - rewrite u32_small by (unfold is_u32; lia). split; [cbn; lia|]. split; [done|].
    split; [|cbn; unfold RoundEnd; by destruct (_ && _)].
    intros i pc Hi. specialize (Hth i pc Hi). destruct pc; cbn in *; try done; try lia.
    + destruct Hth. split; [done|lia].
    + destruct Hth as (H1 & H2 & H3). split; [done|]. split; [done|].
      unfold writer_behind in *. rewrite Ew in H3. destruct H3 as [H3|[_ []]].
      right. split; [lia|]. cbn. unfold RoundEnd. by destruct (_ && _).
Qed.

Lemma epoch_step_inv s s' : step s s' -> epoch_inv s -> epoch_inv s'.
Proof.
  destruct 1 as [s i Hi|s i p Hi|s i p Hi|s i e Hi|s|s|s Ha]; intros Hinv;
    pose proof Hinv as (Hg & Hlen & Hth & Hw).
  - apply (set_thread_inv s i Offline); [done|done|]. cbn. lia.
  - specialize (Hth _ _ Hi). apply (set_thread_inv s i (Storing p)); [done|done|].
    split; [by eapply slot_lookup|done].
  - specialize (Hth _ _ Hi) as [Hs Hp]. apply (set_thread_inv s i (Reloading p)); [done|done|].
    unfold slot_at. rewrite Hs. cbn [default]. unfold Reload.
    destruct (Z.eqb_spec (global_epoch_ s) p) as [He|]; [|cbn; lia].
    split; [by eapply slot_lookup|]. split; [lia|]. left. done.
  - apply (set_thread_inv s i (Online e)); [done|done|]. by eapply slot_lookup.
  - unfold RequestEpochAdvance. by destruct (_ <=? _).
  - done.
  - by apply writer_step_inv.
Qed.

(** The global epoch never decreases. *)
Lemma epoch_step_mono E E' : step E E' -> epoch_inv E -> global_epoch_ E <= global_epoch_ E'.
Proof.
  destruct 1 as [s i Hi|s i p Hi|s i p Hi|s i e Hi|s|s|s Ha]; intros (Hg & _ & _ & Hw); simpl; try lia.
  - unfold RequestEpochAdvance. destruct (_ <=? _); simpl; lia.
  - unfold writer_step. pose proof kEpochHighWater_value. destruct (writer s); simpl; try lia. rewrite u32_small by (unfold is_u32; lia). lia.
Qed.

Lemma epoch_init_inv n : epoch_inv (init n).
Proof.
  split; [done|]. split; [cbn; by rewrite !length_replicate|]. split; [|done].
  intros i pc Hi. apply lookup_replicate in Hi as [-> Hlt]. cbn. by apply lookup_replicate.
Qed.

Lemma epoch_reachable_inv n s : rtc step (init n) s -> epoch_inv s.
Proof.
  intros H. refine (rtc_ind_r epoch_inv (init n) _ _ s H); [apply epoch_init_inv|].
  intros s1 s2 _ Hs Hi. by apply (epoch_step_inv s1).
Qed.

(** C33. In every reachable state of the epoch framework a thread that
    MakeMeOnline has returned epoch e to still publishes e, and the global
    epoch is e or e+1: it cannot reach e+2 while the thread is online. *)
Theorem online_thread_bounds_epoch n s i e :
  rtc step (init n) s -> pcs s !! i = Some (Online e) ->
  slots s !! i = Some e ∧ e <= global_epoch_ s <= e + 1.
Proof.
  intros Hr Hi. destruct (epoch_reachable_inv n s Hr) as (_ & _ & Hth & _).
  destruct (Hth i _ Hi) as (H1 & H2 & H3). split; [done|]. destruct H3 as [H3|[H3 _]]; lia.
Qed.

(** The global epoch stays within 1 and the high-water mark in every
    reachable state, so the 32-bit counter never wraps, and a step of the
    writer raises it by one exactly when it advances. *)
Theorem epoch_never_wraps n s :
  rtc step (init n) s -> 0 < global_epoch_ s <= kEpochHighWater ∧
  global_epoch_ (writer_step s) = global_epoch_ s + (match writer s with Advancing _ => 1 | _ => 0 end).
Proof.
  intros Hr. destruct (epoch_reachable_inv n s Hr) as (Hg & _ & _ & Hw). split; [done|].
  pose proof kEpochHighWater_value. unfold writer_step.
  destruct (writer s) as [| | | |]; cbn; try lia. apply u32_small. unfold is_u32. lia.
Qed.

Lemma Sync_loop_advances obs : forall g n e,
  observed_from g obs -> 0 <= n < 2 -> Sync_loop obs n = Some (e, false) -> g + (2 - n) <= e.
Proof.
  induction obs as [|[[c r] stop] obs IH]; intros g n e Hobs Hn Hs; [done|].
  destruct Hobs as (Hr & Hadv & Hobs'). cbn in Hs. destruct stop; [done|].
  specialize (Hadv eq_refl). destruct (Z.eqb_spec (n + 1) 2).
  - injection Hs as <-. lia.
  - specialize (IH r (n + 1) e Hobs' ltac:(lia) Hs). lia.
Qed.

(** When Sync called at global epoch g has returned, any thread that is
    online has joined an epoch past g: every thread that was online at the
    call has gone offline or moved on. *)
Theorem Sync_outwaits_online_threads n s obs g e i t :
  rtc step (init n) s -> observed_from g obs -> Sync obs = Some (e, false) ->
  e <= global_epoch_ s -> pcs s !! i = Some (Online t) -> g < t.
Proof.
  intros Hr Hobs Hs Hle Hi. pose proof (Sync_loop_advances obs g 0 e Hobs ltac:(lia) Hs).
  destruct (epoch_reachable_inv n s Hr) as (_ & _ & Hth & _).
  destruct (Hth i _ Hi) as (_ & _ & [?|[? _]]); lia.
Qed.

Module Demo.

(** Two advances with nobody online, then a thread joins. *)
Definition round (s : State) : State := writer_step (writer_step (writer_step (writer_step s))).
Definition storing : State := set_thread (round (round (init 1))) 0 THREAD_OFFLINE (Storing 3).
Definition reloading : State := set_thread storing 0 3 (Reloading 3).
Definition joined : State := set_thread reloading 0 3 (Online 3).

Lemma round_reachable s : rtc step (init 1) s -> (∀ k, (k < 4)%nat -> writer (Nat.iter k writer_step s) <> Aborted) ->
  rtc step (init 1) (round s).
Proof.
  intros H Hw. unfold round.
  repeat (eapply rtc_r; [|apply step_writer]); [exact H| | | |].
  - exact (Hw 0%nat ltac:(lia)).
  - exact (Hw 1%nat ltac:(lia)).
  - exact (Hw 2%nat ltac:(lia)).
  - exact (Hw 3%nat ltac:(lia)).
Defined.

Lemma joined_reachable : rtc step (init 1) joined.
Proof.
  apply (rtc_r _ reloading); [|exact (step_online_reload reloading 0 3 eq_refl)].
  apply (rtc_r _ storing); [|exact (step_online_store storing 0 3 eq_refl)].
  apply (rtc_r _ (round (round (init 1))));
    [|exact (step_online_load (round (round (init 1))) 0 eq_refl)].
  apply round_reachable; [apply round_reachable; [apply rtc_refl|]|];
    intros [|[|[|[|k]]]] Hk; try lia; vm_compute; discriminate.
Defined.

Lemma online_thread_bounds_epoch_witness : 3 <= global_epoch_ joined <= 4.
Proof. exact (proj2 (online_thread_bounds_epoch 1 joined 0 3 joined_reachable eq_refl)). Defined.

Lemma epoch_never_wraps_witness : 0 < global_epoch_ joined <= kEpochHighWater.
Proof. exact (proj1 (epoch_never_wraps 1 joined joined_reachable)). Defined.

Lemma Sync_outwaits_online_threads_witness : 1 < 3.
Proof.
  refine (Sync_outwaits_online_threads 1 joined [(1, 2, false); (2, 3, false)] 1 3 0 3
    joined_reachable _ eq_refl _ eq_refl).
  - vm_compute. repeat split; discriminate.
  - vm_compute. discriminate.
Defined.

End Demo.
