(* ===== verification/StdMap.v ===== *)
(** * [std::map] as a strictly sorted association list

    The containers of the range index are ordered maps that are walked in key
    order, erased by prefix and updated through [operator[]].  A map is a list
    of pairs in strictly ascending key order; [alter] is the update through
    [operator[]], which default-constructs a missing entry. *)

From S2P Require Import Prelude.

(** The order of a map's keys: a strict total order given by its test. *)
Class KeyOrder {K : Type} (ltb : K -> K -> bool) : Prop := {
  ltb_irrefl k : ltb k k = false;
  ltb_trans a b c : ltb a b = true -> ltb b c = true -> ltb a c = true;
  ltb_total a b : ltb a b = false -> ltb b a = false -> a = b;
}.

Section operations.
Context {K A : Type} (ltb : K -> K -> bool).

(** [f] maps the entry of [k], if there is one, to the new entry. *)
Fixpoint alter (f : option A -> A) (k : K) (m : list (K * A)) : list (K * A) :=
  match m with
  | [] => [(k, f None)]
  | (k', a) :: m' =>
      if ltb k k' then (k, f None) :: m
      else if ltb k' k then (k', a) :: alter f k m'
      else (k', f (Some a)) :: m'
  end.

(** [find]. *)
Fixpoint find (k : K) (m : list (K * A)) : option A :=
  match m with
  | [] => None
  | (k', a) :: m' =>
      if ltb k' k then find k m' else if ltb k k' then None else Some a
  end.

(** The entries from the first one on that does not satisfy [p], and those
    before it. *)
Fixpoint skip_while (p : K -> bool) (m : list (K * A)) : list (K * A) :=
  match m with
  | [] => []
  | (k, a) :: m' => if p k then skip_while p m' else m
  end.

Fixpoint take_while (p : K -> bool) (m : list (K * A)) : list (K * A) :=
  match m with
  | [] => []
  | (k, a) :: m' => if p k then (k, a) :: take_while p m' else []
  end.

(** [lower_bound(k)], as the entries it and [end()] delimit. *)
Definition lower_bound (k : K) (m : list (K * A)) : list (K * A) :=
  skip_while (fun k' => ltb k' k) m.

(** Keys in strictly ascending order. *)
Definition sorted (m : list (K * A)) : Prop :=
  StronglySorted (fun x y : K * A => ltb x.1 y.1 = true) m.

End operations.

(** [operator[](k).emplace_back(x)] on a map of vectors. *)
Definition push {K A} (ltb : K -> K -> bool) (k : K) (x : A) (m : list (K * list A))
    : list (K * list A) :=
  alter ltb (fun l => default [] l ++ [x]) k m.

(** The elements of a map of vectors with their keys, in iteration order. *)
Definition items {K A} (m : list (K * list A)) : list (K * A) :=
  concat (map (fun e : K * list A => map (pair e.1) e.2) m).

#[export] Instance Z_key_order : KeyOrder Z.ltb.
Proof.
  split; intros *; rewrite ?Z.ltb_lt, ?Z.ltb_ge; lia.
Qed.

#[export] Instance str_key_order : KeyOrder str_ltb.
Proof.
  split.
  - apply str_ltb_irrefl.
  - apply str_lt_trans.
  - intros a b Hab Hba. destruct (decide (a = b)); [done|].
    pose proof (str_ltb_total a b Hab n) as H. unfold str_lt in H. congruence.
Qed.

(** ** Lemmas *)

Section lemmas.
Context {K A : Type} {ltb : K -> K -> bool} `{!KeyOrder ltb}.
Implicit Types (m : list (K * A)) (k : K).

Lemma ltb_asym a b : ltb a b = true -> ltb b a = false.
Proof.
  intros H. destruct (ltb b a) eqn:E; [|done].
  pose proof (ltb_trans _ _ _ H E). by rewrite ltb_irrefl in *.
Qed.

Lemma sorted_cons_inv x m : sorted ltb (x :: m) ->
  sorted ltb m ∧ ∀ y, y ∈ m -> ltb x.1 y.1 = true.
Proof.
  intros H. apply StronglySorted_inv in H as [Hs Hf]. split; [done|].
  intros y Hy. rewrite List.Forall_forall in Hf. apply Hf. by apply list_elem_of_In.
Qed.

Lemma sorted_cons x m : sorted ltb m -> (∀ y, y ∈ m -> ltb x.1 y.1 = true) -> sorted ltb (x :: m).
Proof.
  intros Hs Hf. constructor; [done|]. apply List.Forall_forall.
  intros y Hy. apply Hf. by apply list_elem_of_In.
Qed.

Lemma elem_of_alter f k m y : y ∈ alter ltb f k m ->
  y ∈ m ∨ y = (k, f (find ltb k m)).
Proof.
  induction m as [|[k' a] m IH]; simpl.
  { rewrite list_elem_of_singleton. auto. }
  destruct (ltb k k') eqn:E1.
  { rewrite (ltb_asym _ _ E1). rewrite !elem_of_cons. naive_solver. }
  destruct (ltb k' k) eqn:E2; rewrite !elem_of_cons; [naive_solver|].
  rewrite (ltb_total _ _ E1 E2). naive_solver.
Qed.

Lemma alter_sorted f k m : sorted ltb m -> sorted ltb (alter ltb f k m).
Proof.
  induction m as [|[k' a] m IH]; simpl; intros Hs.
  { apply sorted_cons; [constructor|]. intros y Hy. by apply elem_of_nil in Hy. }
  pose proof (sorted_cons_inv _ _ Hs) as [Hs' Hlt].
  destruct (ltb k k') eqn:E1; [|destruct (ltb k' k) eqn:E2].
  - apply sorted_cons; [done|]. intros y [->|Hy]%elem_of_cons; [done|].
    exact (ltb_trans _ _ _ E1 (Hlt y Hy)).
  - apply sorted_cons; [auto|]. intros y [Hy| ->]%elem_of_alter; auto.
  - apply sorted_cons; auto.
Qed.

Lemma find_alter f k m k' : sorted ltb m ->
  find ltb k' (alter ltb f k m) =
    (if ltb k k' then find ltb k' m else if ltb k' k then find ltb k' m
     else Some (f (find ltb k m))).
Proof.
  induction m as [|[k0 a] m IH]; intros Hs; simpl.
  { destruct (ltb k k') eqn:E1, (ltb k' k) eqn:E2; try done. }
  destruct (sorted_cons_inv _ _ Hs) as [Hs' Hlt]. specialize (IH Hs').
  destruct (ltb k k0) eqn:E1; simpl.
  { rewrite (ltb_asym _ _ E1). destruct (ltb k k') eqn:E2; simpl; [done|].
    destruct (ltb k' k) eqn:E3; [|done].
    pose proof (ltb_trans _ _ _ E3 E1) as E4. by rewrite E4, (ltb_asym _ _ E4). }
  destruct (ltb k0 k) eqn:E2; simpl.
  { destruct (ltb k0 k') eqn:E3; [by rewrite IH|].
    destruct (ltb k k') eqn:E4; [by rewrite (ltb_trans _ _ _ E2 E4) in E3|].
    destruct (ltb k' k0) eqn:E5; [by rewrite (ltb_trans _ _ _ E5 E2)|].
    rewrite (ltb_total _ _ E3 E5) in *. by rewrite E2. }
  rewrite (ltb_total _ _ E1 E2) in *. destruct (ltb k0 k'), (ltb k' k0); done.
Qed.

Lemma filter_keeps_all {B} (P : B -> Prop) `{!∀ x, Decision (P x)} (l : list B) :
  (∀ x, x ∈ l -> P x) -> filter P l = l.
Proof.
  induction l as [|x l IH]; intros HP; [done|]. rewrite filter_cons, decide_True.
  - f_equal. apply IH. intros y Hy. apply HP. by apply list_elem_of_further.
  - apply HP, list_elem_of_here.
Qed.

Lemma filter_keeps_none {B} (P : B -> Prop) `{!∀ x, Decision (P x)} (l : list B) :
  (∀ x, x ∈ l -> ¬ P x) -> filter P l = [].
Proof.
  induction l as [|x l IH]; intros HP; [done|]. rewrite filter_cons, decide_False.
  - apply IH. intros y Hy. apply HP. by apply list_elem_of_further.
  - apply HP, list_elem_of_here.
Qed.

(** A walk between two bounds is the filter of the sorted entries: [p] holds
    of the keys below a bound. *)
Lemma skip_while_filter (p : K -> bool) m :
  sorted ltb m -> (∀ a b, ltb a b = true -> p b = true -> p a = true) ->
  skip_while p m = filter (fun x => p x.1 = false) m.
Proof.
  intros Hs Hp. induction m as [|[k a] m IH]; [done|]. simpl.
  destruct (sorted_cons_inv _ _ Hs) as [Hs' Hlt]. rewrite filter_cons. simpl.
  destruct (p k) eqn:E; [rewrite decide_False by congruence; auto|].
  rewrite decide_True by done. f_equal. symmetry. apply filter_keeps_all.
  intros y Hy. destruct (p y.1) eqn:Ey; [|done]. rewrite (Hp k y.1) in E; auto.
Qed.

Lemma take_while_filter (p : K -> bool) m :
  sorted ltb m -> (∀ a b, ltb a b = true -> p b = true -> p a = true) ->
  take_while p m = filter (fun x => p x.1 = true) m.
Proof.
  intros Hs Hp. induction m as [|[k a] m IH]; [done|]. simpl.
  destruct (sorted_cons_inv _ _ Hs) as [Hs' Hlt]. rewrite filter_cons. simpl.
  destruct (p k) eqn:E; [rewrite decide_True by done; by rewrite IH|].
  rewrite decide_False by congruence. symmetry. apply filter_keeps_none.
  intros y Hy Ey. rewrite (Hp k y.1) in E; auto. done.
Qed.

Lemma sorted_filter (P : K * A -> Prop) `{!∀ x, Decision (P x)} m :
  sorted ltb m -> sorted ltb (filter P m).
Proof.
  induction m as [|x m IH]; intros Hs; [done|].
  destruct (sorted_cons_inv _ _ Hs) as [Hs' Hlt]. rewrite filter_cons.
  destruct (decide (P x)); [|auto]. apply sorted_cons; [auto|].
  intros y [_ Hy]%list_elem_of_filter. auto.
Qed.

(** An update of a key outside a set of keys leaves the entries of the set. *)
Lemma filter_alter (q : K -> bool) f k m :
  q k = false -> filter (fun x => q x.1 = true) (alter ltb f k m) = filter (fun x => q x.1 = true) m.
Proof.
  intros Hq. induction m as [|[k' a] m IH]; simpl.
  { by rewrite filter_cons, decide_False by (simpl; congruence). }
  destruct (ltb k k') eqn:E1; [|destruct (ltb k' k) eqn:E2].
  - by rewrite filter_cons, decide_False by (simpl; congruence).
  - by rewrite !filter_cons, IH.
  - rewrite (ltb_total _ _ E1 E2) in Hq. by rewrite !filter_cons, !decide_False by (simpl; congruence).
Qed.

Lemma find_elem k a m : sorted ltb m -> (k, a) ∈ m <-> find ltb k m = Some a.
Proof.
  induction m as [|[k' a'] m IH]; intros Hs; [by rewrite elem_of_nil|].
  destruct (sorted_cons_inv _ _ Hs) as [Hs' Hlt]. simpl. rewrite elem_of_cons, (IH Hs').
  destruct (ltb k' k) eqn:E1; [split; [|auto]|destruct (ltb k k') eqn:E2; [split|]].
  - intros [?|?]; [|done]. simplify_eq. by rewrite ltb_irrefl in E1.
  - intros [?|Hf]; [simplify_eq; by rewrite ltb_irrefl in E2|].
    apply IH in Hf; [|done]. apply Hlt in Hf. simpl in Hf. congruence.
  - done.
  - rewrite <- (IH Hs'). rewrite (ltb_total _ _ E1 E2) in *. split; [|naive_solver].
    intros [?|Hf]; [naive_solver|]. apply Hlt in Hf. simpl in Hf. by rewrite ltb_irrefl in Hf.
Qed.

End lemmas.

(** ** Maps of vectors *)

Section vectors.
Context {K A : Type} {ltb : K -> K -> bool} `{!KeyOrder ltb}.
Implicit Types m : list (K * list A).

Lemma items_cons k (l : list A) m : items ((k, l) :: m) = map (pair k) l ++ items m.
Proof. done. Qed.

Lemma elem_of_items k x m : (k, x) ∈ items m <-> ∃ l, (k, l) ∈ m ∧ x ∈ l.
Proof.
  induction m as [|[k' l] m IH]; [set_solver|].
  rewrite items_cons, elem_of_app, IH. setoid_rewrite elem_of_cons. split.
  - intros [(y & ? & ?)%list_elem_of_fmap|(l' & ? & ?)]; [simplify_eq|]; eauto.
  - intros (l' & [?|?] & ?); [simplify_eq; left|right; eauto].
    apply list_elem_of_fmap. eauto.
Qed.

Lemma items_push k x m : items (push ltb k x m) ≡ₚ items m ++ [(k, x)].
Proof.
  unfold push. induction m as [|[k' l] m IH]; simpl; [done|].
  destruct (ltb k k') eqn:E1; [|destruct (ltb k' k) eqn:E2].
  - rewrite !items_cons. exact (Permutation_app_comm [(k, x)] _).
  - rewrite !items_cons, IH, <- app_assoc. done.
  - rewrite !items_cons, (ltb_total _ _ E1 E2). simpl. rewrite map_app. simpl.
    rewrite <- !app_assoc. apply Permutation_app_head, Permutation_app_comm.
Qed.

Lemma elem_of_items_push k x m y : y ∈ items (push ltb k x m) <-> y ∈ items m ∨ y = (k, x).
Proof. rewrite items_push, elem_of_app, list_elem_of_singleton. done. Qed.

Lemma push_sorted k x m : sorted ltb m -> sorted ltb (push ltb k x m).
Proof. apply alter_sorted. Qed.

Lemma items_filter (q : K -> bool) m :
  items (filter (fun e : K * list A => q e.1 = true) m) = filter (fun e : K * A => q e.1 = true) (items m).
Proof.
  induction m as [|[k l] m IH]; [done|]. rewrite filter_cons, items_cons, filter_app, <- IH. simpl.
  destruct (decide (q k = true)) as [Hq|Hq].
  - rewrite items_cons. f_equal. symmetry. apply filter_keeps_all.
    intros ? (? & -> & ?)%list_elem_of_fmap. done.
  - rewrite (filter_keeps_none _ (map (pair k) l)); [done|].
    intros ? (? & -> & ?)%list_elem_of_fmap. done.
Qed.

End vectors.
