(* ===== verification/RangeIndex.v ===== *)
(** * The precision-locking range index
      (src/src/index/precision_locking_index/range_index/precision_locking.cpp)

    A sorted container of keys that a manager thread updates once per epoch,
    the insertions and deletions that wait to be applied (L_u) and the ranges
    that transactions have scanned (L_p).  Every operation runs under the
    index's locks and is a function on the state here; an execution is a list
    of operations in the order the locks serialise them ([run]).  A
    transaction is its context pointer ([None] is the null pointer), and the
    epoch an operation files its entry under is the thread's published one.

    The theorems: a scan returns the live keys of its range in order; a range
    that a transaction has scanned does not change under it while it stays in
    its epoch (phantom protection): a second scan returns the same keys, or is
    refused if another transaction has forced a key into the range, provided
    that no key is forced under an epoch before that of the scan, which
    [Demo.forced_key_is_a_phantom] shows to be needed; scanned ranges and
    pending updates of different transactions never overlap; the manager
    applies the updates of the closed epochs in order.

    Not modelled: the spin lock around appending a predicate, and the
    condition variable behind [WaitForIndexIsLinearizable] (its condition
    is). *)

From S2P Require Import Prelude StdMap.

Module PrecisionLockingIndex.

Record Predicate := mkPredicate {
  p_begin : bytestring;
  p_end : option bytestring;
  p_tx_context : option Z;
}.

Record InsertOrDeleteEvent := mkEvent {
  key : bytestring;
  is_delete_event : bool;
  tx_context : option Z;
}.

(** The container maps a key to its [is_deleted] flag. *)
Record State := mkState {
  predicate_list_ : list (Z * list Predicate);
  insert_or_delete_key_set_ : list (Z * list InsertOrDeleteEvent);
  container_ : list (bytestring * bool);
  last_processed_epoch_ : Z;
}.

Definition init : State := mkState [] [] [] 0.

(** [begin <= key && (end ? key < end : true)]. *)
Definition in_range (begin : bytestring) (end_ : option bytestring) (k : bytestring) : bool :=
  negb (str_ltb k begin) &&
  match end_ with Some e => str_ltb k e | None => true end.

(** [current_tx != nullptr && context == current_tx]. *)
Definition self_conflict (current_tx context : option Z) : bool :=
  match current_tx, context with
  | Some a, Some b => a =? b
  | _, _ => false
  end.

Definition IsInPredicateSet (current_tx : option Z) (s : State) (k : bytestring) : bool :=
  existsb (fun e : Z * list Predicate =>
    existsb (fun p => if self_conflict current_tx (p_tx_context p) then false
                      else in_range (p_begin p) (p_end p) k) e.2)
    (predicate_list_ s).

Definition IsOverlapWithInsertOrDelete (current_tx : option Z) (s : State)
    (begin : bytestring) (end_ : option bytestring) : bool :=
  existsb (fun e : Z * list InsertOrDeleteEvent =>
    existsb (fun ev => if self_conflict current_tx (tx_context ev) then false
                       else in_range begin end_ (key ev)) e.2)
    (insert_or_delete_key_set_ s).

(** The walk of a scan: [operation] gets each live key with the caller's state
    and returns whether to cancel. *)
Fixpoint Scan_loop {S : Type} (operation : S -> bytestring -> S * bool)
    (l : list (bytestring * bool)) (st : S) (hit : Z) : S * Z :=
  match l with
  | [] => (st, hit)
  | (k, is_deleted) :: l' =>
      if is_deleted then Scan_loop operation l' st hit
      else let '(st', cancel) := operation st k in
           if cancel then (st', hit + 1) else Scan_loop operation l' st' (hit + 1)
  end.

(** The entries between the iterators [lower_bound(begin)] and
    [lower_bound(end)] or [end()]. *)
Definition between (begin : bytestring) (end_ : option bytestring)
    (c : list (bytestring * bool)) : list (bytestring * bool) :=
  match end_ with
  | Some e => take_while (fun k => str_ltb k e) (lower_bound str_ltb begin c)
  | None => lower_bound str_ltb begin c
  end.

Definition add_predicate (epoch : Z) (p : Predicate) (s : State) : State :=
  mkState (push Z.ltb epoch p (predicate_list_ s)) (insert_or_delete_key_set_ s)
    (container_ s) (last_processed_epoch_ s).

Definition add_event (epoch : Z) (ev : InsertOrDeleteEvent) (s : State) : State :=
  mkState (predicate_list_ s) (push Z.ltb epoch ev (insert_or_delete_key_set_ s))
    (container_ s) (last_processed_epoch_ s).

(** [Scan] and [ScanReverse] differ in the direction of the walk.  [None] is
    [std::nullopt]. *)
Definition ScanWith {S : Type} (walk : list (bytestring * bool) -> list (bytestring * bool))
    (tx : option Z) (epoch : Z) (begin : bytestring) (end_ : option bytestring)
    (operation : S -> bytestring -> S * bool) (st : S) (s : State) : option Z * S * State :=
  if match end_ with Some e => str_ltb e begin | None => false end then (None, st, s)
  else if IsOverlapWithInsertOrDelete tx s begin end_ then (None, st, s)
  else let '(st', hit) := Scan_loop operation (walk (between begin end_ (container_ s))) st 0 in
       (Some hit, st', add_predicate epoch (mkPredicate begin end_ tx) s).

Definition Scan {S : Type} := @ScanWith S (fun l => l).
Definition ScanReverse {S : Type} := @ScanWith S (fun l => reverse l).

Definition Insert (tx : option Z) (epoch : Z) (k : bytestring) (s : State) : bool * State :=
  if IsInPredicateSet tx s k then (false, s)
  else (true, add_event epoch (mkEvent k false tx) s).

Definition ForceInsert (tx : option Z) (epoch : Z) (k : bytestring) (s : State) : State :=
  add_event epoch (mkEvent k false tx) s.

Definition Delete (tx : option Z) (epoch : Z) (k : bytestring) (s : State) : bool * State :=
  if IsInPredicateSet tx s k then (false, s)
  else (true, add_event epoch (mkEvent k true tx) s).

Definition Contains (k : bytestring) (s : State) : bool :=
  match find str_ltb k (container_ s) with
  | None => false
  | Some is_deleted => negb is_deleted
  end.

(** [container_[event.key].is_deleted = event.is_delete_event]. *)
Definition apply_event (c : list (bytestring * bool)) (ev : InsertOrDeleteEvent)
    : list (bytestring * bool) :=
  alter str_ltb (fun _ => is_delete_event ev) (key ev) c.

(** One round of the manager thread, which read the global epoch [global]
    after its [Sync]. *)
Definition Manage (global : Z) (s : State) : State :=
  let stable_epoch := u32 (global - 2) in
  let closed e := e <=? stable_epoch in
  let outdated := take_while closed (insert_or_delete_key_set_ s) in
  mkState (skip_while closed (predicate_list_ s))
    (skip_while closed (insert_or_delete_key_set_ s))
    (fold_left apply_event (map snd (items outdated)) (container_ s))
    (match outdated with [] => last_processed_epoch_ s | _ => stable_epoch end).

(** The condition [WaitForIndexIsLinearizable] waits for, [target_epoch]
    being the global epoch at its call. *)
Definition IsLinearizable (target_epoch : Z) (s : State) : bool :=
  u32 (target_epoch - 2) <=? last_processed_epoch_ s.

(** The operations of an execution, each with the context and the epoch of the
    thread that runs it. *)
Inductive op : Type :=
  | OpScan (tx : option Z) (epoch : Z) (begin : bytestring) (end_ : option bytestring)
  | OpScanReverse (tx : option Z) (epoch : Z) (begin : bytestring) (end_ : option bytestring)
  | OpInsert (tx : option Z) (epoch : Z) (k : bytestring)
  | OpForceInsert (tx : option Z) (epoch : Z) (k : bytestring)
  | OpDelete (tx : option Z) (epoch : Z) (k : bytestring)
  | OpManage (global : Z).

(** The callback that collects every key. *)
Definition collect (keys : list bytestring) (k : bytestring) : list bytestring * bool :=
  (keys ++ [k], false).

Definition exec (s : State) (o : op) : State :=
  match o with
  | OpScan tx ep b e => (Scan tx ep b e collect [] s).2
  | OpScanReverse tx ep b e => (ScanReverse tx ep b e collect [] s).2
  | OpInsert tx ep k => (Insert tx ep k s).2
  | OpForceInsert tx ep k => ForceInsert tx ep k s
  | OpDelete tx ep k => (Delete tx ep k s).2
  | OpManage g => Manage g s
  end.

Definition run (s : State) (os : list op) : State := fold_left exec os s.

End PrecisionLockingIndex.

Import PrecisionLockingIndex.

(** ** Well-formed states *)

Definition wf (s : State) : Prop :=
  sorted Z.ltb (predicate_list_ s) ∧ sorted Z.ltb (insert_or_delete_key_set_ s) ∧
  sorted str_ltb (container_ s).

(** The updates that wait and the predicates that are held, with their
    epochs. *)
Definition pending (s : State) : list (Z * InsertOrDeleteEvent) := items (insert_or_delete_key_set_ s).
Definition scanned (s : State) : list (Z * Predicate) := items (predicate_list_ s).

(** The keys a scan of the range visits. *)
Definition live_keys (b : bytestring) (e : option bytestring) (c : list (bytestring * bool))
    : list bytestring :=
  map fst (filter (fun x : bytestring * bool => x.2 = false)
    (filter (fun x : bytestring * bool => in_range b e x.1 = true) c)).

(** The keys that an execution inserts by force. *)
Definition forced (os : list op) : list bytestring :=
  omap (fun o => match o with OpForceInsert _ _ k => Some k | _ => None end) os.

(** The keys that transactions other than [c] insert by force. *)
Definition forced_by_others (c : Z) (os : list op) : list bytestring :=
  omap (fun o => match o with OpForceInsert tx _ k => if self_conflict (Some c) tx then None else Some k | _ => None end) os.

(** What may happen around transaction [c] of epoch [ep] after it has scanned
    [b, e): its own operations are filed under its epoch, the manager reads a
    global epoch at most one past it, and a key that is forced into the range
    is not filed under an epoch before it. *)
Definition undisturbed (c ep : Z) (b : bytestring) (e : option bytestring) (o : op) : Prop :=
  match o with
  | OpManage g => 2 <= g <= ep + 1 ∧ is_u32 ep
  | OpForceInsert tx ep' k => in_range b e k = true -> ep <= ep'
  | OpInsert tx ep' _ | OpDelete tx ep' _ => tx = Some c -> ep' = ep
  | _ => True
  end.

(** Every pending update of the range is the transaction's own or a forced
    insertion of one of the keys [fs], and not before the epoch [ep]. *)
Definition own_updates (c ep : Z) (b : bytestring) (e : option bytestring) (fs : list bytestring) (s : State) : Prop :=
  ∀ ep' ev, (ep', ev) ∈ pending s -> in_range b e (key ev) = true ->
    (tx_context ev = Some c ∨ key ev ∈ fs) ∧ ep <= ep'.

(** The range is protected by a predicate of the transaction and holds [c0]. *)
Definition protected (c ep : Z) (b : bytestring) (e : option bytestring) (fs : list bytestring)
    (c0 : list (bytestring * bool)) (s : State) : Prop :=
  wf s ∧ (ep, mkPredicate b e (Some c)) ∈ scanned s ∧ own_updates c ep b e fs s ∧
  filter (fun x : bytestring * bool => in_range b e x.1 = true) (container_ s) = c0.

(** The last update of a key among a list of updates. *)
Definition last_update (k : bytestring) (evs : list InsertOrDeleteEvent) : option bool :=
  fold_left (fun o ev => if str_eqb (key ev) k then Some (is_delete_event ev) else o) evs None.

(** ** Lemmas *)

Lemma existsb_items {A} (m : list (Z * list A)) (P : A -> bool) :
  existsb (fun e : Z * list A => existsb P e.2) m = true <->
  ∃ ep x, (ep, x) ∈ items m ∧ P x = true.
Proof.
  rewrite existsb_exists. split.
  - intros ([ep l] & Hin & (x & Hx & HP)%existsb_exists). exists ep, x. split; [|done].
    apply elem_of_items. exists l. by rewrite !list_elem_of_In.
  - intros (ep & x & (l & Hl & Hx)%elem_of_items & HP). exists (ep, l).
    rewrite <- list_elem_of_In. split; [done|]. apply existsb_exists. exists x. by rewrite <- list_elem_of_In.
Qed.

Lemma self_conflict_spec c x : self_conflict (Some c) x = true <-> x = Some c.
Proof. destruct x as [z|]; simpl; [|done]. rewrite Z.eqb_eq. naive_solver. Qed.

Lemma IsInPredicateSet_spec tx s k :
  IsInPredicateSet tx s k = true <->
  ∃ ep p, (ep, p) ∈ scanned s ∧ self_conflict tx (p_tx_context p) = false ∧
          in_range (p_begin p) (p_end p) k = true.
Proof.
  unfold IsInPredicateSet. rewrite existsb_items. unfold scanned.
  split; intros (ep & p & Hp & HP); exists ep, p; (split; [done|]);
    destruct (self_conflict tx (p_tx_context p)); naive_solver.
Qed.

Lemma IsOverlap_spec tx s b e :
  IsOverlapWithInsertOrDelete tx s b e = true <->
  ∃ ep ev, (ep, ev) ∈ pending s ∧ self_conflict tx (tx_context ev) = false ∧
           in_range b e (key ev) = true.
Proof.
  unfold IsOverlapWithInsertOrDelete. rewrite existsb_items. unfold pending.
  split; intros (ep & ev & Hp & HP); exists ep, ev; (split; [done|]);
    destruct (self_conflict tx (tx_context ev)); naive_solver.
Qed.

Lemma below_bound e a b : str_ltb a b = true -> str_ltb b e = true -> str_ltb a e = true.
Proof. apply str_lt_trans. Qed.

(** The walk of a scan is the part of the container in the range. *)
Lemma between_filter b e c : sorted str_ltb c ->
  between b e c = filter (fun x : bytestring * bool => in_range b e x.1 = true) c.
Proof.
  intros Hs. unfold between, lower_bound.
  rewrite (skip_while_filter (ltb := str_ltb) _ _ Hs (below_bound b)).
  set (c' := filter _ c).
  assert (sorted str_ltb c') as Hs' by by apply sorted_filter.
  destruct e as [e|]; [rewrite (take_while_filter (ltb := str_ltb) _ _ Hs' (below_bound e))|];
    unfold c'; rewrite ?list_filter_filter; apply list_filter_iff; intros [k d]; unfold in_range; simpl;
    destruct (str_ltb k b); simpl; naive_solver.
Qed.

Lemma Scan_loop_collect l ks n :
  Scan_loop collect l ks n =
    (ks ++ map fst (filter (fun x : bytestring * bool => x.2 = false) l),
     n + zlen (filter (fun x : bytestring * bool => x.2 = false) l)).
Proof.
  revert ks n. induction l as [|[k d] l IH]; intros ks n; simpl.
  { rewrite app_nil_r, Z.add_0_r. done. }
  rewrite filter_cons. destruct d; simpl; [apply IH|].
  rewrite IH, <- app_assoc. autorewrite with zlen. f_equal. lia.
Qed.

(** Where the two scans succeed, they visit the live keys of the range. *)
Lemma ScanWith_eq walk tx ep b e s :
  wf s -> (∀ l, filter (fun x : bytestring * bool => x.2 = false) (walk l) =
                walk (filter (fun x : bytestring * bool => x.2 = false) l)) ->
  ScanWith walk tx ep b e collect [] s =
    (if match e with Some e' => str_ltb e' b | None => false end then (None, [], s)
     else if IsOverlapWithInsertOrDelete tx s b e then (None, [], s)
     else let l := walk (filter (fun x : bytestring * bool => x.2 = false)
            (filter (fun x : bytestring * bool => in_range b e x.1 = true) (container_ s))) in
          (Some (zlen l), map fst l, add_predicate ep (mkPredicate b e tx) s)).
Proof.
  intros (_ & _ & Hs) Hw. unfold ScanWith.
  destruct (match e with Some _ => _ | None => _ end); [done|].
  destruct (IsOverlapWithInsertOrDelete _ _ _ _); [done|].
  rewrite (between_filter _ _ _ Hs), Scan_loop_collect, Hw. done.
Qed.

Lemma apply_events_sorted evs c :
  sorted str_ltb c -> sorted str_ltb (fold_left apply_event evs c).
Proof. revert c. induction evs as [|ev evs IH]; intros c Hs; [done|]. apply IH, alter_sorted, Hs. Qed.

Lemma apply_events_outside b e evs c :
  (∀ ev, ev ∈ evs -> in_range b e (key ev) = false) ->
  filter (fun x : bytestring * bool => in_range b e x.1 = true) (fold_left apply_event evs c) =
  filter (fun x : bytestring * bool => in_range b e x.1 = true) c.
Proof.
  revert c. induction evs as [|ev evs IH]; intros c Hev; [done|]. simpl.
  rewrite IH by (intros; apply Hev; by apply list_elem_of_further).
  apply (filter_alter (ltb := str_ltb)), Hev, list_elem_of_here.
Qed.

Lemma closed_below stable a b : (a <? b) = true -> (b <=? stable) = true -> (a <=? stable) = true.
Proof. rewrite Z.ltb_lt, !Z.leb_le. lia. Qed.

(** What a round of the manager keeps and what it applies. *)
Lemma closed_items {A} stable (m : list (Z * list A)) : sorted Z.ltb m ->
  items (take_while (fun e => e <=? stable) m) =
    filter (fun x : Z * A => (x.1 <=? stable) = true) (items m) ∧
  items (skip_while (fun e => e <=? stable) m) =
    filter (fun x : Z * A => negb (x.1 <=? stable) = true) (items m).
Proof.
  intros Hs. rewrite (take_while_filter (ltb := Z.ltb) _ _ Hs (closed_below stable)).
  rewrite (skip_while_filter (ltb := Z.ltb) _ _ Hs (closed_below stable)).
  split; [exact (items_filter (fun e => e <=? stable) m)|].
  rewrite <- (items_filter (fun e => negb (e <=? stable)) m). f_equal. apply list_filter_iff.
  intros x. by rewrite negb_true_iff.
Qed.

Lemma skip_while_sorted {A} stable (m : list (Z * A)) :
  sorted Z.ltb m -> sorted Z.ltb (skip_while (fun e => e <=? stable) m).
Proof.
  intros Hs. rewrite (skip_while_filter (ltb := Z.ltb) _ _ Hs (closed_below stable)).
  by apply sorted_filter.
Qed.

(** Every operation keeps a state well formed. *)
Lemma exec_wf s o : wf s -> wf (exec s o).
Proof.
  intros (Hp & He & Hc).
  assert (∀ ep p, wf (add_predicate ep p s)) by (intros; repeat split; try done; by apply push_sorted).
  assert (∀ ep ev, wf (add_event ep ev s)) by (intros; repeat split; try done; by apply push_sorted).
  assert (wf s) by done.
  destruct o; simpl; unfold Scan, ScanReverse, ScanWith, Insert, Delete, ForceInsert;
    repeat (case_match; simplify_eq; simpl); auto.
  repeat split; simpl; [by apply skip_while_sorted|by apply skip_while_sorted|by apply apply_events_sorted].
Qed.

Lemma init_wf : wf init.
Proof. repeat split; constructor. Qed.

Lemma run_wf s os : wf s -> wf (run s os).
Proof. revert s. induction os as [|o os IH]; intros s Hs; [done|]. by apply IH, exec_wf. Qed.

(** ** Phantom protection *)

Section protection.
Context (c ep : Z) (b : bytestring) (e : option bytestring) (fs : list bytestring) (c0 : list (bytestring * bool)).

Lemma protected_add_predicate s ep' p :
  protected c ep b e fs c0 s -> wf (add_predicate ep' p s) -> protected c ep b e fs c0 (add_predicate ep' p s).
Proof.
  intros (_ & Hp & Ho & Hc) Hwf. split; [done|]. split; [|done].
  unfold scanned. simpl. apply elem_of_items_push. by left.
Qed.

Lemma protected_add_event s ep' ev :
  protected c ep b e fs c0 s -> wf (add_event ep' ev s) ->
  ((tx_context ev = Some c ∨ key ev ∈ fs) ∧ ep <= ep') ∨ in_range b e (key ev) = false ->
  protected c ep b e fs c0 (add_event ep' ev s).
Proof.
  intros (_ & Hp & Ho & Hc) Hwf Hev. split; [done|]. split; [done|]. split; [|done].
  intros ep1 ev1 [Hin|Heq]%elem_of_items_push Hr; [by apply Ho|]. simplify_eq.
  destruct Hev; [done|congruence].
Qed.

(** A key of the range that is not in the predicate set is the transaction's
    own. *)
Lemma protected_own_key s tx ep' k :
  protected c ep b e fs c0 s -> IsInPredicateSet tx s k = false -> (tx = Some c -> ep' = ep) ->
  ((tx = Some c ∨ k ∈ fs) ∧ ep <= ep') ∨ in_range b e k = false.
Proof.
  intros (_ & Hp & _ & _) Hin Htx. destruct (in_range b e k) eqn:Er; [left|by right].
  destruct (self_conflict tx (Some c)) eqn:Es.
  - destruct tx as [t|]; [|done]. apply Z.eqb_eq in Es as ->. split; [by left|]. by rewrite Htx.
  - assert (IsInPredicateSet tx s k = true); [|congruence].
    apply IsInPredicateSet_spec. by eexists _, _.
Qed.

Lemma protected_manage s g :
  2 <= g <= ep + 1 -> is_u32 ep -> protected c ep b e fs c0 s -> wf (Manage g s) ->
  protected c ep b e fs c0 (Manage g s).
Proof.
  intros Hg Hep ((Hwp & Hwe & _) & Hp & Ho & Hc) Hwf.
  assert (u32 (g - 2) < ep) as Hst by (rewrite u32_small; unfold is_u32 in *; lia).
  destruct (closed_items (u32 (g - 2)) _ Hwp) as [_ Hp']. destruct (closed_items (u32 (g - 2)) _ Hwe) as [Hcl He'].
  split; [done|]. split; [|split].
  - unfold scanned, Manage. simpl. rewrite Hp'. apply list_elem_of_filter. simpl. split; [|done].
    apply negb_true_iff, Z.leb_gt. lia.
  - intros ep1 ev1. unfold pending, Manage. simpl. rewrite He'. intros [_ Hin]%list_elem_of_filter. by apply Ho.
  - unfold Manage. simpl. rewrite apply_events_outside; [done|].
    intros ev ([ep1 ev1] & -> & Hin)%list_elem_of_fmap. rewrite Hcl in Hin.
    apply list_elem_of_filter in Hin as [Hle Hin]. simpl in *. apply Z.leb_le in Hle.
    destruct (in_range b e (key ev1)) eqn:Er; [|done]. destruct (Ho _ _ Hin Er). lia.
Qed.

(** A forced insertion is one of the keys [fs], or the transaction's own. *)
Lemma protected_forced tx ep' k :
  (k ∈ forced_by_others c [OpForceInsert tx ep' k] -> k ∈ fs) -> (in_range b e k = true -> ep <= ep') ->
  ((tx = Some c ∨ k ∈ fs) ∧ ep <= ep') ∨ in_range b e k = false.
Proof.
  intros Hf Hep. destruct (in_range b e k); [left|by right]. split; [|by apply Hep]. cbn in Hf.
  destruct tx as [t|]; [|right; apply Hf; by left]. cbn in Hf. destruct (Z.eqb_spec c t) as [->|]; [by left|].
  right. apply Hf. by left.
Qed.

Lemma protected_exec s o : (∀ k, k ∈ forced_by_others c [o] -> k ∈ fs) ->
  protected c ep b e fs c0 s -> undisturbed c ep b e o -> protected c ep b e fs c0 (exec s o).
Proof.
  intros Hfs Hpr Hu. assert (wf (exec s o)) as Hwf by apply exec_wf, Hpr.
  destruct o as [tx ep' b' e'|tx ep' b' e'|tx ep' k|tx ep' k|tx ep' k|g].
  4:{ apply protected_add_event; [done..|]. apply protected_forced; [apply Hfs|done]. }
  all: simpl in *; unfold Scan, ScanReverse, ScanWith, Insert, Delete in *;
    repeat (case_match; simplify_eq; simpl in *);
    eauto using protected_add_predicate, protected_add_event, protected_own_key.
  destruct Hu. by apply protected_manage.
Qed.

Lemma protected_run s os : (∀ k, k ∈ forced_by_others c os -> k ∈ fs) ->
  protected c ep b e fs c0 s -> Forall (undisturbed c ep b e) os -> protected c ep b e fs c0 (run s os).
Proof.
  intros Hfs Hpr Hos. revert s Hpr. induction Hos as [|o os Ho _ IH]; intros s Hpr; [done|].
  assert (forced_by_others c (o :: os) = forced_by_others c [o] ++ forced_by_others c os) as E
    by exact (omap_app _ [o] os).
  apply IH; [|apply protected_exec; [|done|done]]; intros k Hk; apply Hfs; rewrite E; apply elem_of_app; auto.
Qed.

(** A scan of a protected range by the transaction meets an update only if
    another transaction has forced a key into it. *)
Lemma protected_overlap s : protected c ep b e fs c0 s -> IsOverlapWithInsertOrDelete (Some c) s b e = true ->
  ∃ k, k ∈ fs ∧ in_range b e k = true.
Proof.
  intros (_ & _ & Ho & _). rewrite IsOverlap_spec. intros (ep' & ev & Hin & Hs & Hr).
  destruct (Ho _ _ Hin Hr) as [[Htx|Hk] _]; [apply self_conflict_spec in Htx; congruence|eauto].
Qed.

End protection.

Lemma filter_reverse {A} (P : A -> Prop) `{!∀ x, Decision (P x)} (l : list A) :
  filter P (reverse l) = reverse (filter P l).
Proof.
  induction l as [|x l IH]; [done|]. rewrite reverse_cons, filter_app, IH, filter_cons, filter_cons, filter_nil.
  destruct (decide (P x)); [by rewrite reverse_cons|by rewrite app_nil_r].
Qed.

Lemma zlen_reverse {A} (l : list A) : zlen (reverse l) = zlen l.
Proof. unfold zlen. by rewrite length_reverse. Qed.

Lemma scans_agree tx ep b e s n ks s1 :
  wf s -> Scan tx ep b e collect [] s = (Some n, ks, s1) ->
  ks = live_keys b e (container_ s) ∧ n = zlen ks ∧ s1 = add_predicate ep (mkPredicate b e tx) s ∧
  IsOverlapWithInsertOrDelete tx s b e = false ∧
  ScanReverse tx ep b e collect [] s = (Some n, reverse ks, s1).
Proof.
  intros Hwf. unfold Scan, ScanReverse. rewrite !ScanWith_eq; try done; [|intros; apply filter_reverse].
  destruct (match e with Some _ => _ | None => _ end); [done|].
  destruct (IsOverlapWithInsertOrDelete _ _ _ _); [done|]. intros [= <- <- <-].
  unfold live_keys. cbn zeta. rewrite zlen_reverse. unfold zlen. rewrite length_map.
  repeat (split; [done|]). by rewrite <- fmap_reverse.
Qed.

Lemma live_keys_spec b e c : sorted str_ltb c ->
  StronglySorted str_lt (live_keys b e c) ∧
  ∀ k, k ∈ live_keys b e c <-> in_range b e k = true ∧ find str_ltb k c = Some false.
Proof.
  intros Hs. unfold live_keys. split.
  - assert (sorted str_ltb (filter (fun x : bytestring * bool => x.2 = false)
      (filter (fun x : bytestring * bool => in_range b e x.1 = true) c))) as Hf
      by by apply sorted_filter, sorted_filter.
    induction Hf as [|x l _ IH Hall]; [constructor|]. simpl. constructor; [done|].
    rewrite List.Forall_map. exact Hall.
  - intros k. rewrite list_elem_of_fmap. setoid_rewrite list_elem_of_filter.
    setoid_rewrite list_elem_of_filter. split.
    + intros ([k' d] & -> & Hd & Hr & Hin). simpl in *. subst d. split; [done|].
      by apply (find_elem (ltb := str_ltb)).
    + intros [Hr Hf]. exists (k, false). repeat split; try done.
      by apply (find_elem (ltb := str_ltb)).
Qed.

(** C29. No phantoms under precision locking: once a transaction has scanned a
    range, whatever inserts, deletes, forced inserts, scans and rounds of the
    manager others issue afterwards, scanning the range again, forwards or
    backwards, in the same epoch returns the same keys, or is refused, and
    that only if another transaction has forced a key into the range meanwhile
    (ForceInsert, the path of Write, does not look at the scanned ranges). The
    conditions are that the manager reads a global epoch at most one past the
    epoch of the transaction and that no key is forced into the range under an
    epoch before it; without the second a rescan finds the forced key
    (Demo.forced_key_is_a_phantom). *)
Theorem scan_repeatable c ep b e s n ks s1 os :
  wf s -> (∀ ep' ev, (ep', ev) ∈ pending s -> tx_context ev = Some c -> ep' = ep) ->
  Scan (Some c) ep b e collect [] s = (Some n, ks, s1) ->
  Forall (undisturbed c ep b e) os ->
  (∃ s2, Scan (Some c) ep b e collect [] (run s1 os) = (Some n, ks, s2) ∧
         ScanReverse (Some c) ep b e collect [] (run s1 os) = (Some n, reverse ks, s2)) ∨
  (∃ k, k ∈ forced_by_others c os ∧ in_range b e k = true ∧
        Scan (Some c) ep b e collect [] (run s1 os) = (None, [], run s1 os) ∧
        ScanReverse (Some c) ep b e collect [] (run s1 os) = (None, [], run s1 os)).
Proof.
  intros Hwf Hown Hscan Hos.
  destruct (scans_agree _ _ _ _ _ _ _ _ Hwf Hscan) as (Hks & Hn & Hs1 & Hno & _).
  assert (protected c ep b e (forced_by_others c os)
            (filter (fun x : bytestring * bool => in_range b e x.1 = true) (container_ s)) s1) as Hpr.
  { assert (wf s1) as Hwf1.
    { pose proof (exec_wf s (OpScan (Some c) ep b e) Hwf) as H. simpl in H. by rewrite Hscan in H. }
    subst s1. split; [done|]. split; [apply elem_of_items_push; by right|]. split; [|done].
    intros ep' ev Hin Hr. change (pending _) with (pending s) in Hin.
    assert (tx_context ev = Some c) as Htx; [|split; [by left|by rewrite (Hown _ _ Hin Htx)]].
    apply self_conflict_spec. destruct (self_conflict (Some c) (tx_context ev)) eqn:Es; [done|].
    assert (IsOverlapWithInsertOrDelete (Some c) s b e = true); [|congruence].
    apply IsOverlap_spec. eauto. }
  pose proof (protected_run _ _ _ _ _ _ _ os ltac:(done) Hpr Hos) as Hpr2.
  destruct (IsOverlapWithInsertOrDelete (Some c) (run s1 os) b e) eqn:Hno2.
  - right. destruct (protected_overlap _ _ _ _ _ _ _ Hpr2 Hno2) as (k & Hk & Hr). exists k.
    split; [done|]. split; [done|]. unfold Scan, ScanReverse, ScanWith. rewrite Hno2.
    destruct (match e with Some _ => _ | None => _ end); done.
  - left. destruct Hpr2 as (Hwf2 & _ & _ & Hc2).
    assert (Scan (Some c) ep b e collect [] (run s1 os) =
      (Some n, ks, add_predicate ep (mkPredicate b e (Some c)) (run s1 os))) as Heq.
    { revert Hscan. unfold Scan. rewrite !ScanWith_eq by done.
      destruct (match e with Some _ => _ | None => _ end); [done|]. rewrite Hno, Hno2, Hc2. cbn zeta.
      intros [= <- <- _]. done. }
    eexists. split; [exact Heq|]. apply (scans_agree _ _ _ _ _ _ _ _ Hwf2 Heq).
Qed.

(** After any operations a successful scan returns exactly the live keys
    of the range in ascending order and their number, only when no other
    transaction has a pending update in the range, and ScanReverse returns the
    same keys in descending order; a refused scan returns nothing and leaves
    the index as it was. *)
Theorem scan_returns_live_keys os tx ep b e :
  let s := run init os in
  match Scan tx ep b e collect [] s with
  | (Some n, ks, s') =>
      StronglySorted str_lt ks ∧ n = zlen ks ∧
      (∀ k, k ∈ ks <-> in_range b e k = true ∧ Contains k s = true) ∧
      (∀ ep' ev, (ep', ev) ∈ pending s -> in_range b e (key ev) = true ->
         ∃ c, tx = Some c ∧ tx_context ev = Some c) ∧
      ScanReverse tx ep b e collect [] s = (Some n, reverse ks, s')
  | (None, ks, s') => ks = [] ∧ s' = s
  end.
Proof.
  cbn zeta. pose proof (run_wf init os init_wf) as Hwf. set (s := run init os) in *.
  destruct (Scan tx ep b e collect [] s) as [[[n|] ks] s'] eqn:Hscan.
  - destruct (scans_agree _ _ _ _ _ _ _ _ Hwf Hscan) as (Hks & Hn & Hs1 & Hno & Hrev).
    destruct (live_keys_spec b e (container_ s)) as [Hsort Hmem]; [apply Hwf|].
    rewrite <- Hks in *. repeat (split; [done|]). split; [|split].
    + intros k. rewrite Hmem. unfold Contains. destruct (find _ _ _) as [[]|]; naive_solver.
    + intros ep' ev Hin Hr. destruct (self_conflict tx (tx_context ev)) eqn:Es.
      * destruct tx as [c|]; [|done]. exists c. by rewrite self_conflict_spec in Es.
      * assert (IsOverlapWithInsertOrDelete tx s b e = true); [|congruence].
        apply IsOverlap_spec. eauto.
    + done.
  - revert Hscan. unfold Scan. rewrite ScanWith_eq by done. repeat case_match; naive_solver.
Qed.

(** ** Scanned ranges and pending updates *)

(** A pending update of a scanned range was forced in or belongs to the
    transaction that scanned it. *)
Definition conflict_free (fs : list bytestring) (s : State) : Prop :=
  ∀ ep p ep' ev, (ep, p) ∈ scanned s -> (ep', ev) ∈ pending s ->
    in_range (p_begin p) (p_end p) (key ev) = true ->
    key ev ∈ fs ∨ ∃ c, p_tx_context p = Some c ∧ tx_context ev = Some c.

Lemma self_conflict_same a b : self_conflict a b = true -> ∃ c, a = Some c ∧ b = Some c.
Proof. destruct a as [x|], b as [y|]; try done. intros ->%Z.eqb_eq. eauto. Qed.

Lemma conflict_free_weaken fs fs' s : fs ⊆ fs' -> conflict_free fs s -> conflict_free fs' s.
Proof. intros Hsub Hc ep p ep' ev Hp He Hr. destruct (Hc _ _ _ _ Hp He Hr) as [?|?]; [left|right]; auto. Qed.

Lemma conflict_free_predicate fs s tx ep b e :
  conflict_free fs s -> IsOverlapWithInsertOrDelete tx s b e = false ->
  conflict_free fs (add_predicate ep (mkPredicate b e tx) s).
Proof.
  intros Hc Hno ep1 p ep' ev [Hp|Hp]%elem_of_items_push He Hr; [by eapply Hc|]. simplify_eq. simpl in *.
  right. apply self_conflict_same. apply not_false_is_true. intros Hs.
  assert (IsOverlapWithInsertOrDelete tx s b e = true); [|congruence].
  apply IsOverlap_spec. eauto.
Qed.

Lemma conflict_free_event fs s tx ep k d :
  conflict_free fs s -> k ∈ fs ∨ IsInPredicateSet tx s k = false ->
  conflict_free fs (add_event ep (mkEvent k d tx) s).
Proof.
  intros Hc Hk ep1 p ep' ev Hp [He|He]%elem_of_items_push Hr; [by eapply Hc|]. simplify_eq. simpl in *.
  destruct Hk as [Hk|Hno]; [by left|]. right.
  destruct (self_conflict tx (p_tx_context p)) eqn:Es; [apply self_conflict_same in Es; naive_solver|].
  assert (IsInPredicateSet tx s k = true); [|congruence]. apply IsInPredicateSet_spec. eauto.
Qed.

Lemma conflict_free_manage fs s g : wf s -> conflict_free fs s -> conflict_free fs (Manage g s).
Proof.
  intros (Hwp & Hwe & _) Hc ep p ep' ev. unfold scanned, pending, Manage. simpl.
  rewrite (proj2 (closed_items _ _ Hwp)), (proj2 (closed_items _ _ Hwe)).
  intros [_ Hp]%list_elem_of_filter [_ He]%list_elem_of_filter. by apply Hc with ep ep'.
Qed.

Lemma conflict_free_exec fs s o :
  wf s -> conflict_free fs s -> conflict_free (fs ++ forced [o]) (exec s o).
Proof.
  intros Hwf Hc. assert (conflict_free (fs ++ forced [o]) s) as Hc'
    by (eapply conflict_free_weaken; [|done]; set_solver).
  destruct o; simpl; unfold Scan, ScanReverse, ScanWith, Insert, Delete, ForceInsert in *;
    repeat (case_match; simplify_eq; simpl in *);
    auto using conflict_free_predicate, conflict_free_event, conflict_free_manage.
  apply conflict_free_event; [done|]. left. set_solver.
Qed.

(** After any operations, a pending insert or delete of a key inside a
    scanned range belongs to the transaction that scanned it, unless the key
    was forced in past the check. *)
Theorem scanned_ranges_exclude_updates os ep p ep' ev :
  (ep, p) ∈ scanned (run init os) -> (ep', ev) ∈ pending (run init os) ->
  in_range (p_begin p) (p_end p) (key ev) = true ->
  key ev ∈ forced os ∨ ∃ c, p_tx_context p = Some c ∧ tx_context ev = Some c.
Proof.
  revert ep p ep' ev. change (conflict_free (forced os) (run init os)).
  induction os as [|o os IH] using rev_ind; [intros ??????; set_solver|].
  unfold run. rewrite fold_left_app. simpl. unfold forced. rewrite omap_app.
  apply conflict_free_exec; [apply run_wf, init_wf|exact IH].
Qed.

(** ** The manager *)

Lemma last_update_acc k evs o :
  fold_left (fun o ev => if str_eqb (key ev) k then Some (is_delete_event ev) else o) evs o =
    match last_update k evs with Some d => Some d | None => o end.
Proof.
  unfold last_update. revert o. induction evs as [|ev evs IH]; intros o; [done|]. simpl.
  rewrite IH. destruct (str_eqb (key ev) k); [|done].
  rewrite (IH (Some _)). by destruct (fold_left _ evs None).
Qed.

Lemma find_apply_events k evs c : sorted str_ltb c ->
  find str_ltb k (fold_left apply_event evs c) =
    match last_update k evs with Some d => Some d | None => find str_ltb k c end.
Proof.
  revert c. induction evs as [|ev evs IH]; intros c Hs; [done|]. simpl.
  rewrite IH by by apply alter_sorted. unfold apply_event. rewrite find_alter by done.
  unfold last_update at 2. simpl. rewrite last_update_acc.
  destruct (last_update k evs) as [d|]; [done|].
  destruct (str_eqb (key ev) k) eqn:Ek.
  - apply str_eqb_eq in Ek as ->. by rewrite !str_ltb_irrefl.
  - apply str_eqb_neq in Ek. destruct (str_ltb (key ev) k) eqn:E1; [done|].
    destruct (str_ltb k (key ev)) eqn:E2; [done|]. by destruct Ek; apply ltb_total.
Qed.

(** The index manager at global epoch g applies exactly the pending
    updates of epochs up to g-2, in order, so that each key is live as its
    last applied update says, and leaves the others pending. *)
Theorem manager_applies_closed_epochs os g k :
  let s := run init os in
  let stable_epoch := u32 (g - 2) in
  Contains k (Manage g s) =
    match last_update k (map snd (filter (fun x : Z * InsertOrDeleteEvent => x.1 <= stable_epoch) (pending s))) with
    | Some deleted => negb deleted
    | None => Contains k s
    end ∧
  pending (Manage g s) = filter (fun x : Z * InsertOrDeleteEvent => stable_epoch < x.1) (pending s).
Proof.
  cbn zeta. destruct (run_wf init os init_wf) as (_ & Hwe & Hwc). set (s := run init os) in *.
  destruct (closed_items (u32 (g - 2)) _ Hwe) as [Hcl Hop]. unfold pending. split.
  - unfold Contains, Manage. simpl. rewrite find_apply_events by done. rewrite Hcl.
    rewrite (list_filter_iff _ (fun x : Z * InsertOrDeleteEvent => x.1 <= u32 (g - 2)))
      by (intros; apply Z.leb_le).
    by destruct (last_update _ _).
  - simpl. rewrite Hop. apply list_filter_iff. intros x. rewrite negb_true_iff, Z.leb_gt. done.
Qed.

(** With no pending update, running the index manager any number of times
    never makes WaitForIndexIsLinearizable's condition true: the processed
    epoch is only stored when some update was applied. *)
Theorem wait_needs_a_pending_update target gs s :
  insert_or_delete_key_set_ s = [] ->
  IsLinearizable target (run s (map OpManage gs)) = IsLinearizable target s.
Proof.
  revert s. induction gs as [|g gs IH]; intros s Hs; [done|]. simpl. rewrite IH.
  - unfold IsLinearizable, Manage. simpl. by rewrite Hs.
  - unfold Manage. simpl. by rewrite Hs.
Qed.

(** ** The theorems at work *)

Module Demo.

(** Transaction 1 of epoch 5 has scanned ["a", "c") while transaction 2 has
    inserted "d"; then transaction 2 tries to insert "b". *)
Definition a : bytestring := [97].
Definition b : bytestring := [98].
Definition c : bytestring := [99].
Definition d : bytestring := [100].
Definition loaded : list op :=
  [OpInsert (Some 9) 2 a; OpInsert (Some 9) 2 c; OpManage 4].
Definition others : list op :=
  [OpInsert (Some 2) 5 d; OpInsert (Some 2) 6 b; OpManage 6; OpInsert (Some 1) 5 b; OpManage 4].

Lemma scan_repeatable_witness :
  let s' := run (add_predicate 5 (mkPredicate a (Some c) (Some 1)) (run init loaded)) others in
  (∃ s2, Scan (Some 1) 5 a (Some c) collect [] s' = (Some 1, [a], s2) ∧
         ScanReverse (Some 1) 5 a (Some c) collect [] s' = (Some 1, [a], s2)) ∨
  (∃ k, k ∈ forced_by_others 1 others ∧ in_range a (Some c) k = true ∧
        Scan (Some 1) 5 a (Some c) collect [] s' = (None, [], s') ∧
        ScanReverse (Some 1) 5 a (Some c) collect [] s' = (None, [], s')).
Proof.
  apply (scan_repeatable 1 5 a (Some c) (run init loaded) 1 [a]).
  - exact (run_wf _ _ init_wf).
  - intros ep' ev H. vm_compute in H. inversion H.
  - reflexivity.
  - repeat constructor; vm_compute; try done; auto.
Defined.

(** Transaction 2, whose thread is still in epoch 4, forces "b" into the range
    that transaction 1 of epoch 5 has scanned; the manager applies it and
    transaction 1 finds the key in its next scan. *)
Lemma forced_key_is_a_phantom :
  let s1 := (Scan (Some 1) 5 a (Some c) collect [] (run init loaded)).2 in
  let s2 := run s1 [OpForceInsert (Some 2) 4 b; OpManage 6] in
  (Scan (Some 1) 5 a (Some c) collect [] (run init loaded)).1 = (Some 1, [a]) ∧
  (Scan (Some 1) 5 a (Some c) collect [] s2).1 = (Some 2, [a; b]).
Proof. vm_compute. split; reflexivity. Qed.

Lemma scanned_ranges_exclude_updates_witness :
  d ∈ forced [OpScan (Some 1) 5 a None; OpForceInsert (Some 2) 5 d] ∨
  ∃ t, Some 1 = Some t ∧ Some 2 = Some t.
Proof.
  refine (scanned_ranges_exclude_updates [OpScan (Some 1) 5 a None; OpForceInsert (Some 2) 5 d]
    5 (mkPredicate a None (Some 1)) 5 (mkEvent d false (Some 2)) _ _ eq_refl); vm_compute; left.
Defined.

Lemma wait_needs_a_pending_update_witness :
  IsLinearizable 9 (run (run init loaded) (map OpManage [9; 10; 11])) = false.
Proof.
  exact (wait_needs_a_pending_update 9 [9; 10; 11] (run init loaded) eq_refl).
Defined.

End Demo.
