(* ===== verification/PointIndex.v ===== *)
(** * The concurrent point index
      (src/src/index/precision_locking_index/point_index/mpmc_concurrent_set_impl.hpp)

    An open-addressing hash table with linear probing that any number of
    threads read and extend without locks while a background thread moves it
    to a table of twice the size.  The operations are split at their atomic
    accesses: a probe loads one bucket, an insertion is a compare-and-swap on
    an empty bucket, and the rehashing thread handles one bucket at a time.
    [step] interleaves the accesses of all threads in any order; a step that
    decides the outcome of a call carries it as an event.

    The theorems: every call takes effect at one of its own accesses as the
    operation on a map would (the table is linearizable and a rehash changes
    nothing), and the rehashing thread never dereferences a null or redirected
    bucket, never fails an assertion and always finds a free bucket.

    [std::hash] is a parameter, and nothing is assumed of it.  When a rehash
    starts (the fill rate, a forced rehash) is left open: it may start at any
    moment.  Accesses interleave sequentially consistently, also the loads the
    code marks relaxed.  Tables are kept after a rehash; their reclamation by
    epochs is not modelled. *)

From S2P Require Import Prelude.

Module MPMCConcurrentSet.

Record TableNode := mkNode {
  key : bytestring;
  value : Z;                 (* the address of the item *)
  key_8b_prefix : Z;
}.

#[global] Instance TableNode_eq_dec : EqDecision TableNode.
Proof. solve_decision. Defined.

Definition string_to_uint64_t (k : bytestring) : Z := le_value (take 8 k).

Definition TableNode_new (k : bytestring) (v : Z) : TableNode := mkNode k v (string_to_uint64_t k).

(** A bucket: null, the redirection mark or a node.  The mark remembers the
    node it replaced; no operation looks at it. *)
Inductive slot : Type :=
  | Empty
  | Redirected (was : option TableNode)
  | Bucket (n : TableNode).

Definition InitialTableSize : nat := Z.to_nat 4096.

Definition next (cap h : nat) : nat := if (S h =? cap)%nat then O else S h.

Definition get_slot (tbl : list slot) (h : nat) : slot := default Empty (tbl !! h).

(** The comparison of the 8-byte prefix and then of the whole key. *)
Definition matches (n : TableNode) (k : bytestring) : bool :=
  (key_8b_prefix n =? string_to_uint64_t k) && str_eqb (key n) k.

(** What a probe makes of the bucket it has loaded: [Get] and [Put] share the
    order of the tests. *)
Inductive Examined : Type :=
  | ExRedirected
  | ExNull
  | ExHit (v : Z)
  | ExNext (h count : nat)
  | ExTooLong.

Definition examine (k : bytestring) (cap h count : nat) (b : slot) : Examined :=
  match b with
  | Redirected _ => ExRedirected
  | Empty => ExNull
  | Bucket n =>
      if matches n k then ExHit (value n)
      else if (100 <? S count)%nat then ExTooLong else ExNext (next cap h) (S count)
  end.

(** Where a thread is: the table it holds is named by its position among the
    tables allocated so far. *)
Inductive Pc : Type :=
  | Idle
  | GetStart (k : bytestring)
  | GetProbe (k : bytestring) (table h count : nat)
  | PutStart (k : bytestring) (v : Z)
  | PutProbe (k : bytestring) (v : Z) (table h count : nat)
  | PutCas (k : bytestring) (v : Z) (table h count : nat).

(** Where the rehashing thread is; [RCrash] is a failed assertion, the
    dereference of a pointer that is not a node, or a probe that finds no free
    bucket. *)
Inductive RehashPc : Type :=
  | RIdle
  | RLoad (new_table i : nat)
  | RCasEmpty (new_table i : nat)
  | RReload (new_table i : nat)
  | RRedirect (new_table i : nat) (node : TableNode)
  | RSwap (new_table : nat)
  | RCrash.

(** The outcome of a call. *)
Inductive event : Type :=
  | EvGet (k : bytestring) (r : option Z)
  | EvPut (k : bytestring) (v : Z) (inserted : bool).

Record State := mkState {
  tables : list (list slot);
  table_ : nat;
  rehash : RehashPc;
  threads : list Pc;
}.

Section hashing.
Variable std_hash : bytestring -> Z.

Definition Hash (k : bytestring) (capacity : nat) : nat :=
  Z.to_nat (Z.lxor (std_hash k) (Z.of_nat capacity) mod Z.of_nat capacity).

Definition init (n : nat) : State :=
  mkState [replicate InitialTableSize Empty] 0 RIdle (replicate n Idle).

Definition table_at (s : State) (t : nat) : list slot := default [] (tables s !! t).

(** One access of a [Get] and of a [Put] up to its compare-and-swap: the next
    position and the outcome, if the call is decided. *)
Definition get_access (s : State) (k : bytestring) (t h count : nat) : Pc * option event :=
  let tbl := table_at s t in
  match examine k (length tbl) h count (get_slot tbl h) with
  | ExRedirected | ExTooLong => (GetStart k, None)
  | ExNull => (Idle, Some (EvGet k None))
  | ExHit v => (Idle, Some (EvGet k (Some v)))
  | ExNext h' count' => (GetProbe k t h' count', None)
  end.

Definition put_access (s : State) (k : bytestring) (v : Z) (t h count : nat) : Pc * option event :=
  let tbl := table_at s t in
  match examine k (length tbl) h count (get_slot tbl h) with
  | ExRedirected | ExTooLong => (PutStart k v, None)
  | ExNull => (PutCas k v t h count, None)
  | ExHit _ => (Idle, Some (EvPut k v false))
  | ExNext h' count' => (PutProbe k v t h' count', None)
  end.

Definition set_table (s : State) (t : nat) (tbl : list slot) : State :=
  mkState (<[t := tbl]> (tables s)) (table_ s) (rehash s) (threads s).
Definition set_pc (s : State) (i : nat) (pc : Pc) : State :=
  mkState (tables s) (table_ s) (rehash s) (<[i := pc]> (threads s)).
Definition set_rehash (s : State) (r : RehashPc) : State :=
  mkState (tables s) (table_ s) r (threads s).

(** The linear probing of a rehash for a free bucket, from [h] on. *)
Fixpoint free_bucket (fuel : nat) (tbl : list slot) (h : nat) : option nat :=
  match fuel with
  | O => None
  | S fuel' =>
      match get_slot tbl h with
      | Empty => Some h
      | _ => free_bucket fuel' tbl (next (length tbl) h)
      end
  end.

(** The node a bucket holds goes to a free bucket of the new table. *)
Definition move_node (s : State) (new i : nat) (n : TableNode) : State :=
  let tbl := table_at s new in
  match free_bucket (length tbl) tbl (Hash (key n) (length tbl)) with
  | None => set_rehash s RCrash
  | Some h => set_rehash (set_table s new (<[h := Bucket n]> tbl)) (RRedirect new i n)
  end.

Definition next_bucket (s : State) (new i : nat) : State :=
  set_rehash s (if (S i <? length (table_at s (table_ s)))%nat then RLoad new (S i) else RSwap new).

(** One access of the rehashing thread. *)
Definition rehash_step (s : State) : State :=
  let t := table_ s in
  let tbl := table_at s t in
  match rehash s with
  | RIdle =>
      let new := length (tables s) in
      set_rehash (mkState (tables s ++ [replicate (length tbl * 2) Empty]) t RIdle (threads s))
        (RLoad new 0)
  | RLoad new i =>
      match get_slot tbl i with
      | Empty => set_rehash s (RCasEmpty new i)
      | Bucket n => move_node s new i n
      | Redirected _ => set_rehash s RCrash
      end
  | RCasEmpty new i =>
      match get_slot tbl i with
      | Empty => next_bucket (set_table s t (<[i := Redirected None]> tbl)) new i
      | _ => set_rehash s (RReload new i)
      end
  | RReload new i =>
      match get_slot tbl i with
      | Bucket n => move_node s new i n
      | _ => set_rehash s RCrash
      end
  | RRedirect new i n =>
      match get_slot tbl i with
      | Bucket m =>
          if decide (m = n) then next_bucket (set_table s t (<[i := Redirected (Some n)]> tbl)) new i
          else set_rehash s RCrash
      | _ => set_rehash s RCrash
      end
  | RSwap new => mkState (tables s) new RIdle (threads s)
  | RCrash => s
  end.

(** [ForEach] runs under the lock that keeps rehashes out.  The callback
    returns whether to go on; [None] is the failed assertion. *)
Fixpoint ForEach_loop {S : Type} (f : S -> bytestring -> Z -> S * bool) (tbl : list slot) (st : S)
    : option S :=
  match tbl with
  | [] => Some st
  | Empty :: tbl' => ForEach_loop f tbl' st
  | Redirected _ :: _ => None
  | Bucket n :: tbl' =>
      let '(st', is_success) := f st (key n) (value n) in
      if is_success then ForEach_loop f tbl' st' else Some st'
  end.

Definition ForEach {S : Type} (f : S -> bytestring -> Z -> S * bool) (s : State) (st : S) : option S :=
  ForEach_loop f (table_at s (table_ s)) st.

Inductive step (s : State) : option event -> State -> Prop :=
  | step_call_get i k :
      threads s !! i = Some Idle -> step s None (set_pc s i (GetStart k))
  | step_call_put i k v :
      threads s !! i = Some Idle -> step s None (set_pc s i (PutStart k v))
  | step_get_start i k :
      threads s !! i = Some (GetStart k) ->
      step s None (set_pc s i (GetProbe k (table_ s) (Hash k (length (table_at s (table_ s)))) 0))
  | step_get i k t h count :
      threads s !! i = Some (GetProbe k t h count) ->
      step s (get_access s k t h count).2 (set_pc s i (get_access s k t h count).1)
  | step_put_start i k v :
      threads s !! i = Some (PutStart k v) ->
      step s None (set_pc s i (PutProbe k v (table_ s) (Hash k (length (table_at s (table_ s)))) 0))
  | step_put i k v t h count :
      threads s !! i = Some (PutProbe k v t h count) ->
      step s (put_access s k v t h count).2 (set_pc s i (put_access s k v t h count).1)
  | step_put_cas i k v t h count :
      threads s !! i = Some (PutCas k v t h count) -> get_slot (table_at s t) h = Empty ->
      step s (Some (EvPut k v true))
        (set_pc (set_table s t (<[h := Bucket (TableNode_new k v)]> (table_at s t))) i Idle)
  | step_put_cas_fails i k v t h count :
      threads s !! i = Some (PutCas k v t h count) ->
      step s None (set_pc s i (PutProbe k v t h count))
  | step_rehash :
      step s None (rehash_step s).

Inductive reachable (n : nat) : State -> Prop :=
  | reachable_init : reachable n (init n)
  | reachable_step s ev s' : reachable n s -> step s ev s' -> reachable n s'.

End hashing.

End MPMCConcurrentSet.

Import MPMCConcurrentSet.

(** ** The map a table stands for *)

Definition node_of (b : slot) : option TableNode :=
  match b with Empty => None | Redirected was => was | Bucket n => Some n end.

Definition node_at (tbl : list slot) (i : nat) : option TableNode := node_of (get_slot tbl i).

(** The value a table holds for a key. *)
Definition table_lookup (tbl : list slot) (k : bytestring) : option Z :=
  head (omap (fun b => match node_of b with
                       | Some n => if str_eqb (key n) k then Some (value n) else None
                       | None => None
                       end) tbl).

(** The map the index stands for. *)
Definition contents (s : State) (k : bytestring) : option Z := table_lookup (table_at s (table_ s)) k.

Definition is_redirected (b : slot) : Prop := match b with Redirected _ => True | _ => False end.

(** ** The invariant *)

Section proofs.
Variable std_hash : bytestring -> Z.

#[local] Abbreviation Hash := (Hash std_hash).

(** The [d]-th bucket a probe for [k] visits. *)
Definition probe (k : bytestring) (cap d : nat) : nat := ((Hash k cap + d) mod cap)%nat.

(** Nodes are built by their constructor, a key has one node, and no bucket
    between the hash of a key and its node is empty. *)
Definition table_ok (tbl : list slot) : Prop :=
  (0 < length tbl)%nat ∧
  (∀ i n, node_at tbl i = Some n -> n = TableNode_new (key n) (value n) ∧
     ∃ d, i = probe (key n) (length tbl) d ∧
       ∀ d', (d' < d)%nat -> get_slot tbl (probe (key n) (length tbl) d') <> Empty) ∧
  (∀ i j n m, node_at tbl i = Some n -> node_at tbl j = Some m -> key n = key m -> i = j).

(** The first [count] buckets of a probe for [k] hold other keys. *)
Definition visited (tbl : list slot) (k : bytestring) (count : nat) : Prop :=
  ∀ d, (d < count)%nat -> ∃ n, node_at tbl (probe k (length tbl) d) = Some n ∧ key n <> k.

Definition probing (s : State) (k : bytestring) (t h count : nat) : Prop :=
  (t <= table_ s)%nat ∧ h = probe k (length (table_at s t)) count ∧ visited (table_at s t) k count.

Definition pc_ok (s : State) (pc : Pc) : Prop :=
  match pc with
  | GetProbe k t h count | PutProbe k _ t h count | PutCas k _ t h count => probing s k t h count
  | _ => True
  end.

(** The number of buckets in use. *)
Definition used (tbl : list slot) : nat := length (filter (fun b => node_of b <> None) tbl).

(** A rehash has redirected the buckets before [i] and moved the nodes of
    those before [j]. *)
Definition progress (s : State) (new i j : nat) : Prop :=
  let tbl := table_at s (table_ s) in
  let tbl' := table_at s new in
  new = S (table_ s) ∧ length (tables s) = S new ∧
  table_ok tbl' ∧ length tbl' = (length tbl * 2)%nat ∧ (used tbl' <= j)%nat ∧
  (∀ m, ¬ is_redirected (get_slot tbl' m)) ∧
  (∀ m, (m < i)%nat -> is_redirected (get_slot tbl m)) ∧
  (∀ m, (i <= m)%nat -> ¬ is_redirected (get_slot tbl m)) ∧
  (∀ n, (∃ x, node_at tbl' x = Some n) <-> ∃ m, (m < j)%nat ∧ node_at tbl m = Some n).

Definition rehash_ok (s : State) : Prop :=
  let tbl := table_at s (table_ s) in
  match rehash s with
  | RIdle => length (tables s) = S (table_ s) ∧ ∀ m, ¬ is_redirected (get_slot tbl m)
  | RLoad new i | RCasEmpty new i => progress s new i i ∧ (i < length tbl)%nat
  | RReload new i => progress s new i i ∧ (i < length tbl)%nat ∧ get_slot tbl i <> Empty
  | RRedirect new i n => progress s new i (S i) ∧ (i < length tbl)%nat ∧ get_slot tbl i = Bucket n
  | RSwap new => progress s new (length tbl) (length tbl)
  | RCrash => False
  end.

Definition inv (s : State) : Prop :=
  table_ok (table_at s (table_ s)) ∧ rehash_ok s ∧
  (∀ t m, (t < table_ s)%nat -> (m < length (table_at s t))%nat -> is_redirected (get_slot (table_at s t) m)) ∧
  (∀ t, (t <= table_ s)%nat -> (0 < length (table_at s t))%nat) ∧
  Forall (pc_ok s) (threads s).

(** ** Buckets and probes *)

Lemma get_slot_insert tbl i b j : (i < length tbl)%nat ->
  get_slot (<[i := b]> tbl) j = if decide (i = j) then b else get_slot tbl j.
Proof.
  intros Hi. unfold get_slot. destruct (decide (i = j)) as [<-|].
  - by rewrite list_lookup_insert_eq.
  - by rewrite list_lookup_insert_ne.
Qed.

Lemma probe_lt k cap d : (0 < cap)%nat -> (probe k cap d < cap)%nat.
Proof. intros. apply Nat.mod_upper_bound. lia. Qed.

Lemma Hash_lt k cap : (0 < cap)%nat -> (Hash k cap < cap)%nat.
Proof.
  intros. unfold MPMCConcurrentSet.Hash.
  pose proof (Z.mod_pos_bound (Z.lxor (std_hash k) (Z.of_nat cap)) (Z.of_nat cap)). lia.
Qed.

Lemma probe_0 k cap : (0 < cap)%nat -> probe k cap 0 = Hash k cap.
Proof. intros. unfold probe. rewrite Nat.add_0_r. by apply Nat.mod_small, Hash_lt. Qed.

Lemma next_mod cap x : (0 < cap)%nat -> next cap (x mod cap) = (S x mod cap)%nat.
Proof.
  intros Hc. unfold next. pose proof (Nat.mod_upper_bound x cap).
  rewrite (Nat.div_mod_eq x cap) at 3. set (q := (x / cap)%nat). set (r := (x mod cap)%nat) in *.
  replace (S (cap * q + r))%nat with (S r + q * cap)%nat by lia. rewrite Nat.Div0.mod_add.
  destruct (Nat.eqb_spec (S r) cap) as [->|]; [by rewrite Nat.Div0.mod_same|].
  symmetry. apply Nat.mod_small. lia.
Qed.

Lemma next_probe k cap d : (0 < cap)%nat -> next cap (probe k cap d) = probe k cap (S d).
Proof. intros. unfold probe. rewrite next_mod by done. f_equal. lia. Qed.

Lemma matches_spec n k : n = TableNode_new (key n) (value n) -> matches n k = true <-> key n = k.
Proof.
  intros ->. unfold matches. simpl. rewrite andb_true_iff, str_eqb_eq, Z.eqb_eq. naive_solver.
Qed.

Lemma get_slot_beyond tbl m : (length tbl <= m)%nat -> get_slot tbl m = Empty.
Proof. intros. unfold get_slot. by rewrite lookup_ge_None_2. Qed.

(** An empty bucket ends the probe of an absent key. *)
Lemma visited_absent tbl k count :
  table_ok tbl -> visited tbl k count -> get_slot tbl (probe k (length tbl) count) = Empty ->
  ∀ i n, node_at tbl i = Some n -> key n <> k.
Proof.
  intros (_ & Hn & _) Hv He i n Hi <-. destruct (Hn i n Hi) as (_ & d & -> & Hd).
  destruct (decide (d < count)%nat) as [Hlt|].
  - destruct (Hv d Hlt) as (m & Hm & Hne). congruence.
  - destruct (decide (d = count)) as [->|]; [unfold node_at in Hi; by rewrite He in Hi|].
    by apply (Hd count); [lia|].
Qed.

Lemma node_at_lookup tbl i n :
  node_at tbl i = Some n <-> ∃ b, tbl !! i = Some b ∧ node_of b = Some n.
Proof.
  unfold node_at, get_slot. destruct (tbl !! i) as [b|]; simpl; [|naive_solver].
  split; [eauto|]. naive_solver.
Qed.

Lemma head_omap {A B} (f : A -> option B) l v :
  head (omap f l) = Some v -> ∃ i x, l !! i = Some x ∧ f x = Some v.
Proof.
  induction l as [|x l IH]; simpl; [done|]. destruct (f x) as [w|] eqn:E; simpl.
  - intros [= ->]. by exists O, x.
  - intros (i & y & ? & ?)%IH. by exists (S i), y.
Qed.

Lemma head_omap_None {A B} (f : A -> option B) l :
  head (omap f l) = None -> ∀ i x, l !! i = Some x -> f x = None.
Proof.
  induction l as [|x l IH]; simpl; [done|]. destruct (f x) as [w|] eqn:E; simpl; [done|].
  intros Hh [|i] y Hy; simpl in Hy; [congruence|eauto].
Qed.

Lemma table_lookup_Some tbl k v : table_ok tbl ->
  table_lookup tbl k = Some v <-> ∃ i n, node_at tbl i = Some n ∧ key n = k ∧ value n = v.
Proof.
  intros (_ & _ & Hu). unfold table_lookup. set (f := fun b : slot => _).
  assert (∀ w, head (omap f tbl) = Some w -> ∃ i n, node_at tbl i = Some n ∧ key n = k ∧ value n = w)
    as Hsound.
  { intros w (i & b & Hb & Hf)%head_omap. unfold f in Hf. destruct (node_of b) as [n|] eqn:En; [|done].
    destruct (str_eqb (key n) k) eqn:Ek; [|done]. apply str_eqb_eq in Ek. exists i, n.
    rewrite node_at_lookup. naive_solver. }
  split; [apply Hsound|]. intros (i & n & Hn & Hk & Hv).
  destruct (head (omap f tbl)) as [w|] eqn:Eh.
  - destruct (Hsound w eq_refl) as (j & m & Hm & Hk' & Hw).
    rewrite (Hu i j n m Hn Hm) in Hn by congruence. congruence.
  - apply node_at_lookup in Hn as (b & Hb & Hn). pose proof (head_omap_None _ _ Eh _ _ Hb) as Hf.
    unfold f in Hf. rewrite Hn, Hk, str_eqb_refl in Hf. done.
Qed.

(** Tables with the same nodes stand for the same map. *)
Lemma table_lookup_ext tbl tbl' k : table_ok tbl -> table_ok tbl' ->
  (∀ n, (∃ i, node_at tbl' i = Some n) <-> ∃ i, node_at tbl i = Some n) ->
  table_lookup tbl' k = table_lookup tbl k.
Proof.
  intros H1 H2 Hn. apply option_eq. intros v. rewrite !table_lookup_Some by done.
  split; intros (i & n & Hi & Hk & Hv).
  - destruct (proj1 (Hn n)) as [j Hj]; eauto.
  - destruct (proj2 (Hn n)) as [j Hj]; eauto.
Qed.

Lemma table_lookup_None tbl k : table_ok tbl ->
  (∀ i n, node_at tbl i = Some n -> key n <> k) -> table_lookup tbl k = None.
Proof.
  intros Hok Hn. destruct (table_lookup tbl k) as [v|] eqn:E; [|done].
  apply table_lookup_Some in E as (i & n & Hi & Hk & _); [|done]. by destruct (Hn i n Hi).
Qed.

(** ** Changes of a table *)

(** A bucket in use keeps its node and never becomes empty. *)
Definition slot_le (b b' : slot) : Prop :=
  b = Empty ∨ b' = b ∨ ∃ n, b = Bucket n ∧ b' = Redirected (Some n).

Definition table_le (tbl tbl' : list slot) : Prop :=
  length tbl' = length tbl ∧ ∀ i, slot_le (get_slot tbl i) (get_slot tbl' i).

Lemma slot_le_node b b' n : slot_le b b' -> node_of b = Some n -> node_of b' = Some n.
Proof. intros [->|[->|(m & -> & ->)]]; done. Qed.

Lemma slot_le_used b b' : slot_le b b' -> b <> Empty -> b' <> Empty.
Proof. intros [->|[->|(m & -> & ->)]]; done. Qed.

Lemma table_le_refl tbl : table_le tbl tbl.
Proof. split; [done|]. intros i. right. by left. Qed.

Lemma table_le_insert tbl i b :
  (i < length tbl)%nat -> slot_le (get_slot tbl i) b -> table_le tbl (<[i := b]> tbl).
Proof.
  intros Hi Hb. split; [by rewrite length_insert|]. intros j. rewrite get_slot_insert by done.
  destruct (decide (i = j)) as [<-|]; [done|]. right. by left.
Qed.

Lemma visited_le tbl tbl' k count : table_le tbl tbl' -> visited tbl k count -> visited tbl' k count.
Proof.
  intros [Hlen Hle] Hv d Hd. destruct (Hv d Hd) as (n & Hn & Hne). exists n. split; [|done].
  rewrite Hlen. unfold node_at in *. by eapply slot_le_node.
Qed.

(** A change that keeps the nodes keeps the table well formed. *)
Lemma table_ok_same tbl tbl' :
  table_le tbl tbl' -> (∀ i, node_at tbl' i = node_at tbl i) -> table_ok tbl -> table_ok tbl'.
Proof.
  intros [Hlen Hle] Hn (Hpos & Hok & Hu). split; [by rewrite Hlen|]. split.
  - intros i n Hi. rewrite Hn in Hi. destruct (Hok i n Hi) as (Hnew & d & Hd & Hbefore).
    split; [done|]. exists d. rewrite Hlen. split; [done|]. intros d' Hd'.
    eapply slot_le_used; [done|auto].
  - intros i j n m. rewrite !Hn. apply Hu.
Qed.

Lemma node_at_insert tbl i b j : (i < length tbl)%nat ->
  node_at (<[i := b]> tbl) j = if decide (i = j) then node_of b else node_at tbl j.
Proof. intros. unfold node_at. rewrite get_slot_insert by done. by destruct (decide (i = j)). Qed.

(** A new node goes to the empty bucket that ends its probe. *)
Lemma table_ok_add tbl n d :
  table_ok tbl -> n = TableNode_new (key n) (value n) ->
  get_slot tbl (probe (key n) (length tbl) d) = Empty ->
  (∀ d', (d' < d)%nat -> get_slot tbl (probe (key n) (length tbl) d') <> Empty) ->
  (∀ i m, node_at tbl i = Some m -> key m <> key n) ->
  table_ok (<[probe (key n) (length tbl) d := Bucket n]> tbl).
Proof.
  intros (Hpos & Hok & Hu) Hnew He Hbefore Habs.
  pose proof (probe_lt (key n) _ d Hpos) as Hlt. set (p := probe (key n) (length tbl) d) in *.
  destruct (table_le_insert tbl p (Bucket n) Hlt (or_introl He)) as [Hlen Hle].
  split; [by rewrite length_insert|]. rewrite length_insert. split.
  - intros i m. rewrite node_at_insert by done. destruct (decide (p = i)) as [<-|Hne]; simpl.
    + intros [= <-]. split; [done|]. exists d. split; [done|]. intros d' Hd'. eapply slot_le_used; [done|auto].
    + intros Hm. destruct (Hok i m Hm) as (Hmn & d0 & Hd0 & Hb0). split; [done|]. exists d0.
      split; [done|]. intros d' Hd'. eapply slot_le_used; [done|auto].
  - intros i j m1 m2. rewrite !node_at_insert by done.
    destruct (decide (p = i)) as [<-|], (decide (p = j)) as [<-|]; simpl; intros; simplify_eq; try done.
    + by destruct (Habs j m2).
    + by destruct (Habs i m1).
    + by eapply Hu.
Qed.

Lemma table_lookup_add tbl k v p k' :
  table_ok tbl -> table_ok (<[p := Bucket (TableNode_new k v)]> tbl) -> (p < length tbl)%nat ->
  get_slot tbl p = Empty ->
  table_lookup (<[p := Bucket (TableNode_new k v)]> tbl) k' =
    if decide (k' = k) then Some v else table_lookup tbl k'.
Proof.
  intros Hok Hok' Hp He. apply option_eq. intros w. rewrite table_lookup_Some by done.
  destruct (decide (k' = k)) as [->|Hne].
  - split.
    + intros (i & n & Hi & Hk & Hv). destruct Hok' as (_ & _ & Hu).
      assert (node_at (<[p:=Bucket (TableNode_new k v)]> tbl) p = Some (TableNode_new k v)) as Hp'
        by (rewrite node_at_insert by done; by rewrite decide_True).
      rewrite (Hu i p n _ Hi Hp' Hk) in Hi. rewrite Hp' in Hi.
      injection Hi as <-. by rewrite <- Hv.
    + intros [= <-]. exists p, (TableNode_new k v). rewrite node_at_insert by done. by rewrite decide_True.
  - rewrite table_lookup_Some by done. split; intros (i & n & Hi & Hk & Hv); exists i, n.
    + rewrite node_at_insert in Hi by done. destruct (decide (p = i)); simplify_eq/=; done.
    + rewrite node_at_insert by done. destruct (decide (p = i)) as [->|]; [|done].
      unfold node_at in Hi. by rewrite He in Hi.
Qed.

(** ** Free buckets of the new table *)

Lemma free_bucket_spec fuel tbl k d :
  (0 < length tbl)%nat ->
  (∀ d', (d' < d)%nat -> get_slot tbl (probe k (length tbl) d') <> Empty) ->
  match free_bucket fuel tbl (probe k (length tbl) d) with
  | Some h => ∃ d0, h = probe k (length tbl) d0 ∧ get_slot tbl h = Empty ∧
      ∀ d', (d' < d0)%nat -> get_slot tbl (probe k (length tbl) d') <> Empty
  | None => ∀ d', (d' < d + fuel)%nat -> get_slot tbl (probe k (length tbl) d') <> Empty
  end.
Proof.
  intros Hpos. revert d. induction fuel as [|fuel IH]; intros d Hd; simpl.
  { intros d' Hd'. apply Hd. lia. }
  destruct (get_slot tbl (probe k (length tbl) d)) eqn:E; [by exists d| |].
  all: rewrite next_probe by done; specialize (IH (S d)).
  all: replace (d + S fuel)%nat with (S d + fuel)%nat by lia; apply IH.
  all: intros d' Hd'; destruct (decide (d' = d)) as [->|]; [congruence|apply Hd; lia].
Qed.

Lemma probe_reaches k cap i : (i < cap)%nat -> ∃ d, (d < cap)%nat ∧ probe k cap d = i.
Proof.
  intros Hi. pose proof (Hash_lt k cap) as HH. unfold probe. set (h := Hash k cap) in *.
  destruct (decide (h <= i)%nat).
  - exists (i - h)%nat. split; [lia|]. rewrite Nat.mod_small; lia.
  - exists (i + cap - h)%nat. split; [lia|]. replace (h + (i + cap - h))%nat with (i + 1 * cap)%nat by lia.
    rewrite Nat.Div0.mod_add. apply Nat.mod_small. lia.
Qed.

Lemma used_full tbl : (∀ i, (i < length tbl)%nat -> node_at tbl i <> None) -> used tbl = length tbl.
Proof.
  unfold used. intros Hall. f_equal. induction tbl as [|b tbl IH]; [done|].
  rewrite filter_cons, decide_True by exact (Hall O ltac:(simpl; lia)). f_equal. apply IH.
  intros i Hi. apply (Hall (S i)). simpl. lia.
Qed.

Lemma used_insert tbl i b : (used (<[i := b]> tbl) <= S (used tbl))%nat.
Proof.
  unfold used. revert i. induction tbl as [|x tbl IH]; intros [|i]; simpl; try lia.
  - rewrite !filter_cons. repeat case_decide; simpl; lia.
  - specialize (IH i). rewrite !filter_cons. case_decide; simpl; lia.
Qed.

(** A new table that is not full has a free bucket for any key. *)
Lemma free_bucket_finds tbl k :
  (0 < length tbl)%nat -> (used tbl < length tbl)%nat -> (∀ m, ¬ is_redirected (get_slot tbl m)) ->
  ∃ d, free_bucket (length tbl) tbl (Hash k (length tbl)) = Some (probe k (length tbl) d) ∧
    get_slot tbl (probe k (length tbl) d) = Empty ∧
    ∀ d', (d' < d)%nat -> get_slot tbl (probe k (length tbl) d') <> Empty.
Proof.
  intros Hpos Hused Hno. pose proof (free_bucket_spec (length tbl) tbl k 0 Hpos) as H.
  rewrite probe_0 in H by done. specialize (H ltac:(lia)).
  destruct (free_bucket _ _ _) as [h|]; [naive_solver|].
  enough (used tbl = length tbl) by lia. apply used_full. intros i Hi.
  destruct (probe_reaches k _ i Hi) as (d & Hd & <-). specialize (H d ltac:(lia)).
  specialize (Hno (probe k (length tbl) d)). unfold node_at. by destruct (get_slot _ _).
Qed.

(** ** Preservation *)

Lemma table_at_set s t tbl t' : (t < length (tables s))%nat ->
  table_at (set_table s t tbl) t' = if decide (t = t') then tbl else table_at s t'.
Proof.
  intros Ht. unfold table_at. simpl. destruct (decide (t = t')) as [<-|].
  - by rewrite list_lookup_insert_eq.
  - by rewrite list_lookup_insert_ne.
Qed.

(** A thread's view survives every change of the tables it may hold. *)
Lemma pc_ok_mono s s' pc :
  (table_ s <= table_ s')%nat -> (∀ t, (t <= table_ s)%nat -> table_le (table_at s t) (table_at s' t)) ->
  pc_ok s pc -> pc_ok s' pc.
Proof.
  intros Ht Hle. assert (∀ k t h count, probing s k t h count -> probing s' k t h count) as Hp.
  { intros k t h count (Hts & Hh & Hv). specialize (Hle t Hts). split; [lia|].
    destruct Hle as [Hlen Hle]. rewrite Hlen. split; [done|]. by eapply visited_le. }
  destruct pc; simpl; auto.
Qed.

Lemma pcs_ok_mono s s' :
  threads s' = threads s ->
  (table_ s <= table_ s')%nat -> (∀ t, (t <= table_ s)%nat -> table_le (table_at s t) (table_at s' t)) ->
  Forall (pc_ok s) (threads s) -> Forall (pc_ok s') (threads s').
Proof.
  intros -> Ht Hle Hpc. eapply Forall_impl; [exact Hpc|]. intros pc. by apply pc_ok_mono.
Qed.

Lemma inv_set_pc s i pc : inv s -> pc_ok s pc -> inv (set_pc s i pc).
Proof.
  intros (Hok & Hr & Hold & Hpos & Hpc) Hnew. repeat (split; [done|]).
  apply Forall_insert; [|done]. exact Hpc.
Qed.

Lemma start_probing s k : inv s ->
  probing s k (table_ s) (Hash k (length (table_at s (table_ s)))) 0.
Proof.
  intros (_ & _ & _ & Hpos & _). split; [done|]. rewrite probe_0 by by apply Hpos.
  split; [done|]. intros d Hd. lia.
Qed.

Lemma next_probing s k t h count n : inv s ->
  probing s k t h count -> get_slot (table_at s t) h = Bucket n -> key n <> k ->
  probing s k t (next (length (table_at s t)) h) (S count).
Proof.
  intros (_ & _ & _ & Hpos & _) (Ht & -> & Hv) Hb Hk. split; [done|].
  rewrite next_probe by by apply Hpos. split; [done|]. intros d Hd.
  destruct (decide (d = count)) as [->|]; [|apply Hv; lia].
  exists n. split; [|done]. unfold node_at. by rewrite Hb.
Qed.

(** A bucket of a table a thread holds that is not redirected belongs to the
    current table. *)
Lemma current_table s t h : inv s -> (t <= table_ s)%nat -> (h < length (table_at s t))%nat ->
  ¬ is_redirected (get_slot (table_at s t) h) -> t = table_ s.
Proof.
  intros (_ & _ & Hold & _) Ht Hh Hno. destruct (decide (t = table_ s)); [done|].
  destruct Hno. apply Hold; [lia|done].
Qed.

(** What a probe learns from a bucket. *)
Lemma examine_spec s k t h count : inv s -> probing s k t h count ->
  let tbl := table_at s t in
  match examine k (length tbl) h count (get_slot tbl h) with
  | ExNull => get_slot tbl h = Empty ∧ contents s k = None
  | ExHit v => contents s k = Some v
  | ExNext h' count' => probing s k t h' count'
  | _ => True
  end.
Proof.
  intros Hinv Hp. cbn zeta. pose proof Hinv as (Hok & _ & _ & Hpos & _). pose proof Hp as (Ht & Hh & Hv).
  assert (h < length (table_at s t))%nat as Hlt by (subst h; by apply probe_lt, Hpos).
  destruct (get_slot (table_at s t) h) as [|w|n] eqn:Eb; simpl; [|done|].
  - split; [done|]. assert (t = table_ s) as -> by (apply (current_table s t h Hinv Ht Hlt); rewrite Eb; intros []).
    subst h. apply table_lookup_None; [done|]. by eapply visited_absent.
  - assert (t = table_ s) as -> by (apply (current_table s t h Hinv Ht Hlt); rewrite Eb; intros []).
    assert (node_at (table_at s (table_ s)) h = Some n) as Hn by (unfold node_at; by rewrite Eb).
    destruct (proj1 (proj2 Hok) h n Hn) as [Hnew _].
    destruct (matches n k) eqn:Em.
    + apply matches_spec in Em; [|done]. apply table_lookup_Some; eauto.
    + destruct (100 <? S count)%nat; [done|]. eapply next_probing; eauto.
      intros Hk. apply matches_spec in Hk; [congruence|done].
Qed.

(** The insertion of an absent key at the end of its probe. *)
Definition put_state (s : State) (k : bytestring) (v : Z) (h : nat) : State :=
  set_table s (table_ s) (<[h := Bucket (TableNode_new k v)]> (table_at s (table_ s))).

Lemma progress_put s k v h new i j :
  progress s new i j -> (j <= h < length (table_at s (table_ s)))%nat -> (i <= h)%nat ->
  progress (put_state s k v h) new i j.
Proof.
  intros (-> & Hlen & HN & Hl2 & Hu & Hno & Hred & Hnr & Hnodes) Hh Hih. unfold progress, put_state. cbn [table_ set_table].
  rewrite !table_at_set by lia. destruct (decide (table_ s = table_ s)); [|done].
  destruct (decide (table_ s = S (table_ s))); [lia|]. cbn [tables set_table]. rewrite !length_insert.
  repeat (split; [done|]). split; [|split].
  - intros m Hm. rewrite get_slot_insert by lia. rewrite decide_False by lia. auto.
  - intros m Hm. rewrite get_slot_insert by lia. destruct (decide (h = m)); [intros []|auto].
  - intros x. rewrite Hnodes. split; intros (m & Hm & Hn); exists m; (split; [done|]);
      rewrite node_at_insert in * by lia; (destruct (decide (h = m)); [lia|done]).
Qed.

Lemma rehash_ok_put s k v h :
  rehash_ok s -> (h < length (table_at s (table_ s)))%nat ->
  get_slot (table_at s (table_ s)) h = Empty ->
  (table_ s < length (tables s))%nat ∧ rehash_ok (put_state s k v h).
Proof.
  intros Hr Hh He.
  assert (∀ new i j, progress s new i j -> (i <= h)%nat) as Hih.
  { intros new i j (_ & _ & _ & _ & _ & _ & Hred & _). destruct (decide (i <= h)%nat); [done|].
    specialize (Hred h ltac:(lia)). by rewrite He in Hred. }
  assert (∀ i b, get_slot (table_at s (table_ s)) i = b -> b <> Empty -> h <> i) as Hne by congruence.
  assert (table_ s < length (tables s))%nat as Hlen.
  { unfold rehash_ok, progress in Hr. destruct (rehash s); naive_solver lia. }
  split; [done|]. unfold rehash_ok in *. change (rehash (put_state _ _ _ _)) with (rehash s).
  change (table_ (put_state _ _ _ _)) with (table_ s).
  assert (table_at (put_state s k v h) (table_ s) =
    <[h := Bucket (TableNode_new k v)]> (table_at s (table_ s))) as ->.
  { unfold put_state. rewrite table_at_set by done. by rewrite decide_True. }
  rewrite length_insert.
  destruct (rehash s) as [|new i|new i|new i|new i n|new|]; try done.
  - destruct Hr as [Hl Hno]. simpl. rewrite length_insert. split; [done|]. intros m.
    rewrite get_slot_insert by done. destruct (decide (h = m)); [intros []|auto].
  - destruct Hr as [Hp Hi]. split; [|done]. pose proof (Hih _ _ _ Hp). by apply progress_put.
  - destruct Hr as [Hp Hi]. split; [|done]. pose proof (Hih _ _ _ Hp). by apply progress_put.
  - destruct Hr as (Hp & Hi & Hs). pose proof (Hih _ _ _ Hp). split; [by apply progress_put|].
    split; [done|]. rewrite get_slot_insert by done. by destruct (decide (h = i)).
  - destruct Hr as (Hp & Hi & Hs). pose proof (Hih _ _ _ Hp). pose proof (Hne _ _ Hs ltac:(done)).
    split; [apply progress_put; [done|lia|done]|]. split; [done|].
    rewrite get_slot_insert by done. by rewrite decide_False.
  - pose proof (Hih _ _ _ Hr). lia.
Qed.

Lemma put_inv s k v t h count : inv s -> probing s k t h count -> get_slot (table_at s t) h = Empty ->
  t = table_ s ∧ contents s k = None ∧ inv (put_state s k v h) ∧
  ∀ k', contents (put_state s k v h) k' = if decide (k' = k) then Some v else contents s k'.
Proof.
  intros Hinv (Ht & Hh & Hv) He. pose proof Hinv as (Hok & Hr & Hold & Hpos & Hpc).
  assert (h < length (table_at s t))%nat as Hlt by (subst h; by apply probe_lt, Hpos).
  assert (t = table_ s) as -> by (apply (current_table s t h Hinv Ht Hlt); rewrite He; intros []).
  split; [done|].
  rewrite Hh in He. pose proof (visited_absent _ _ _ Hok Hv He) as Habs. rewrite <- Hh in He.
  split; [by apply table_lookup_None|].
  destruct (rehash_ok_put s k v h Hr Hlt He) as [Hlen Hr'].
  assert (table_ok (<[h := Bucket (TableNode_new k v)]> (table_at s (table_ s)))) as Hok'.
  { subst h. apply (table_ok_add _ (TableNode_new k v) count); try done.
    intros d' Hd' E. destruct (Hv d' Hd') as (n & Hn & _). unfold node_at in Hn.
    cbn [key TableNode_new] in E. by rewrite E in Hn. }
  assert (∀ t', (t' <= table_ s)%nat -> table_le (table_at s t') (table_at (put_state s k v h) t')) as Hle.
  { intros t' Ht'. unfold put_state. rewrite table_at_set by done.
    destruct (decide (table_ s = t')) as [<-|]; [|apply table_le_refl]. apply table_le_insert; [done|by left]. }
  assert (table_at (put_state s k v h) (table_ s) =
    <[h := Bucket (TableNode_new k v)]> (table_at s (table_ s))) as Hcur.
  { unfold put_state. rewrite table_at_set by done. by rewrite decide_True. }
  split.
  - split; [change (table_ (put_state s k v h)) with (table_ s); by rewrite Hcur|]. split; [done|]. split; [|split].
    + intros t' m Ht'. unfold put_state. rewrite table_at_set by done. simpl in Ht'.
      rewrite decide_False by lia. by apply Hold.
    + intros t' Ht'. destruct (Hle t' Ht') as [-> _]. by apply Hpos.
    + by apply (pcs_ok_mono s).
  - intros k'. unfold contents. change (table_ (put_state s k v h)) with (table_ s). rewrite Hcur.
    by apply table_lookup_add.
Qed.

(** ** The rehashing thread *)

Lemma get_slot_replicate n m : get_slot (replicate n Empty) m = Empty.
Proof.
  unfold get_slot. destruct (replicate n Empty !! m) as [b|] eqn:E; [|done].
  apply lookup_replicate in E as [-> _]. done.
Qed.

Lemma table_ok_blank n : (0 < n)%nat -> table_ok (replicate n Empty).
Proof.
  intros Hn. unfold table_ok, node_at. rewrite length_replicate. split; [done|].
  split; intros *; rewrite get_slot_replicate; done.
Qed.

Lemma used_blank n : used (replicate n Empty) = O.
Proof. unfold used. induction n as [|n IH]; [done|]. simpl. rewrite filter_cons. case_decide; naive_solver. Qed.

(** The state of the tables is all that the invariant asks of a step of the
    rehashing thread: the threads keep what they hold. *)
Lemma inv_rehash s s' :
  inv s -> threads s' = threads s -> table_ s' = table_ s ->
  (∀ t, (t <= table_ s)%nat -> table_le (table_at s t) (table_at s' t)) ->
  table_ok (table_at s' (table_ s)) ->
  (∀ t, (t < table_ s)%nat -> table_at s' t = table_at s t) -> rehash_ok s' -> inv s'.
Proof.
  intros (Hok & Hr & Hold & Hpos & Hpc) Hth Ht Hle Hok' Hsame Hr'. unfold inv. rewrite Ht.
  repeat (split; [done|]). split; [|split].
  - intros t m Hlt. rewrite (Hsame t Hlt). by apply Hold.
  - intros t Hlt. destruct (Hle t Hlt) as [-> _]. by apply Hpos.
  - apply (pcs_ok_mono s); [done|by rewrite Ht|done|done].
Qed.

Lemma rehash_start_inv s : inv s -> rehash s = RIdle ->
  inv (rehash_step std_hash s) ∧ ∀ k, contents (rehash_step std_hash s) k = contents s k.
Proof.
  intros Hinv Hr. pose proof Hinv as (Hok & Hrok & _). unfold rehash_ok in Hrok. rewrite Hr in Hrok.
  destruct Hrok as [Hlen Hno]. set (s' := rehash_step std_hash s).
  assert (s' = mkState (tables s ++ [replicate (length (table_at s (table_ s)) * 2) Empty]) (table_ s)
    (RLoad (length (tables s)) 0) (threads s)) as Hs' by (unfold s', rehash_step; by rewrite Hr).
  assert (∀ t, (t <= table_ s)%nat -> table_at s' t = table_at s t) as Hsame.
  { intros t Ht. rewrite Hs'. unfold table_at. simpl. rewrite lookup_app_l; [done|lia]. }
  assert (table_at s' (S (table_ s)) = replicate (length (table_at s (table_ s)) * 2) Empty) as Hnew.
  { rewrite Hs'. unfold table_at. simpl. rewrite lookup_app_r by lia.
    replace (S (table_ s) - length (tables s))%nat with O by lia. done. }
  assert (table_ s' = table_ s) as Ht by by rewrite Hs'.
  split; [|intros k; unfold contents; by rewrite Ht, Hsame].
  apply (inv_rehash s); try done; [by rewrite Hs'| | |intros; apply Hsame; lia|].
  - intros t Hlt. rewrite Hsame by done. apply table_le_refl.
  - by rewrite Hsame.
  - assert (rehash s' = RLoad (S (table_ s)) 0) as Hr' by (rewrite Hs'; simpl; by rewrite Hlen).
    unfold rehash_ok, progress. rewrite Hr', Ht, Hnew, Hsame, length_replicate by done.
    destruct Hok as (Hpos & _). split; [|done].
    split; [done|]. split; [rewrite Hs'; simpl; rewrite length_app; simpl; lia|].
    split; [apply table_ok_blank; lia|]. split; [done|]. split; [by rewrite used_blank|].
    split; [intros m; rewrite get_slot_replicate; intros []|]. split; [lia|]. split; [auto|].
    intros n. unfold node_at. setoid_rewrite get_slot_replicate. naive_solver lia.
Qed.

Lemma move_node_inv s new i n :
  inv s -> progress s new i i -> (i < length (table_at s (table_ s)))%nat ->
  get_slot (table_at s (table_ s)) i = Bucket n ->
  inv (move_node std_hash s new i n) ∧ ∀ k, contents (move_node std_hash s new i n) k = contents s k.
Proof.
  intros Hinv (-> & Hlen & HN & Hl2 & Hu & Hno & Hred & Hnr & Hnodes) Hi Hb.
  pose proof Hinv as (Hok & _). set (T := table_at s (table_ s)) in *. set (N := table_at s (S (table_ s))) in *.
  assert (node_at T i = Some n) as Hn by (unfold node_at; by rewrite Hb).
  destruct (free_bucket_finds N (key n)) as (d & Hf & He & Hbefore); [apply HN|lia|done|].
  set (p := probe (key n) (length N) d) in *.
  assert (p < length N)%nat as Hp by (apply probe_lt, HN).
  assert (∀ x m, node_at N x = Some m -> key m <> key n) as Habs.
  { intros x m Hm Hk. destruct (proj1 (Hnodes m) (ex_intro _ x Hm)) as (y & Hy & Hym).
    destruct Hok as (_ & _ & Huniq). specialize (Huniq y i m n Hym Hn Hk). lia. }
  assert (table_ok (<[p := Bucket n]> N)) as HN'.
  { apply table_ok_add; try done. by apply (proj1 (proj2 Hok) i n Hn). }
  assert (move_node std_hash s (S (table_ s)) i n =
    set_rehash (set_table s (S (table_ s)) (<[p := Bucket n]> N)) (RRedirect (S (table_ s)) i n)) as Hs'
    by (unfold move_node; fold N; by rewrite Hf).
  rewrite Hs'. set (s' := set_rehash _ _).
  assert (∀ t, (t <= table_ s)%nat -> table_at s' t = table_at s t) as Hsame.
  { intros t Ht. transitivity (table_at (set_table s (S (table_ s)) (<[p := Bucket n]> N)) t); [done|].
    rewrite table_at_set by lia. by rewrite decide_False by lia. }
  assert (table_at s' (S (table_ s)) = <[p := Bucket n]> N) as HN2.
  { transitivity (table_at (set_table s (S (table_ s)) (<[p := Bucket n]> N)) (S (table_ s))); [done|].
    rewrite table_at_set by lia. by rewrite decide_True. }
  split; [|intros k; unfold contents; change (table_ s') with (table_ s); by rewrite Hsame].
  apply (inv_rehash s); try done; [|by rewrite Hsame|intros; apply Hsame; lia|].
  { intros t Ht. rewrite Hsame by done. apply table_le_refl. }
  unfold rehash_ok, progress. change (rehash s') with (RRedirect (S (table_ s)) i n).
  assert (table_ s' = table_ s) as -> by done. rewrite HN2, Hsame by done. fold T. rewrite length_insert.
  split; [|done]. split; [done|]. split; [by simpl; rewrite length_insert|]. split; [done|]. split; [done|].
  split; [pose proof (used_insert N p (Bucket n)); lia|]. split.
  { intros m. rewrite get_slot_insert by done. destruct (decide (p = m)); [intros []|auto]. }
  split; [done|]. split; [done|]. intros m. split.
  - intros (x & Hx). rewrite node_at_insert in Hx by done. destruct (decide (p = x)); simpl in Hx.
    + injection Hx as <-. eauto.
    + destruct (proj1 (Hnodes m)) as (y & ? & ?); eauto.
  - intros (y & Hy & Hym). destruct (decide (y = i)) as [->|].
    + exists p. rewrite node_at_insert by done. rewrite decide_True by done. simpl. congruence.
    + destruct (proj2 (Hnodes m)) as (x & Hx); [exists y; split; [lia|done]|].
      exists x. rewrite node_at_insert by done. destruct (decide (p = x)) as [<-|]; [|done].
      unfold node_at in Hx. by rewrite He in Hx.
Qed.

(** Bucket [i] is replaced by a mark that remembers its node. *)
Lemma redirect_inv s new i b :
  inv s -> progress s new i (S i) -> (i < length (table_at s (table_ s)))%nat ->
  is_redirected b -> slot_le (get_slot (table_at s (table_ s)) i) b ->
  node_of b = node_at (table_at s (table_ s)) i ->
  let s' := next_bucket (set_table s (table_ s) (<[i := b]> (table_at s (table_ s)))) new i in
  inv s' ∧ ∀ k, contents s' k = contents s k.
Proof.
  intros Hinv (-> & Hlen & HN & Hl2 & Hu & Hno & Hred & Hnr & Hnodes) Hi Hrb Hle Hnb. cbn zeta.
  pose proof Hinv as (Hok & _). set (T := table_at s (table_ s)) in *. set (s' := next_bucket _ _ _).
  assert (∀ t, table_at s' t = if decide (table_ s = t) then <[i := b]> T else table_at s t) as Htab.
  { intros t. rewrite <- table_at_set by lia. done. }
  assert (table_at s' (table_ s) = <[i := b]> T) as HT by (rewrite Htab; by rewrite decide_True).
  assert (table_at s' (S (table_ s)) = table_at s (S (table_ s))) as HN' by (rewrite Htab, decide_False; lia || done).
  assert (table_ s' = table_ s) as Ht by done.
  pose proof (table_le_insert T i b Hi Hle) as Htle.
  assert (∀ j, node_at (<[i := b]> T) j = node_at T j) as Hsame.
  { intros j. rewrite node_at_insert by done. destruct (decide (i = j)) as [<-|]; done. }
  assert (table_ok (<[i := b]> T)) as Hok' by by eapply table_ok_same.
  assert (progress s' (S (table_ s)) (S i) (S i)) as Hp'.
  { unfold progress. rewrite Ht, HT, HN'. rewrite length_insert. split; [done|].
    split; [unfold s'; simpl; by rewrite length_insert|]. repeat (split; [done|]).
    split; [|split]; [| |intros n; rewrite Hnodes; by setoid_rewrite Hsame].
    - intros m Hm. rewrite get_slot_insert by done. destruct (decide (i = m)); [done|]. apply Hred. lia.
    - intros m Hm. rewrite get_slot_insert by done. destruct (decide (i = m)); [lia|]. apply Hnr. lia. }
  split.
  - apply (inv_rehash s); try done.
    + intros t _. rewrite Htab. destruct (decide (table_ s = t)) as [<-|]; [done|apply table_le_refl].
    + by rewrite HT.
    + intros t Hlt. rewrite Htab. rewrite decide_False by lia. done.
    + assert (rehash s' = if (S i <? length (<[i := b]> T))%nat then RLoad (S (table_ s)) (S i)
        else RSwap (S (table_ s))) as Hr' by by rewrite <- HT.
      rewrite length_insert in Hr'. unfold rehash_ok. rewrite Hr', Ht, HT, length_insert.
      destruct (Nat.ltb_spec (S i) (length T)); [done|].
      by replace (length T) with (S i) by lia.
  - intros k. unfold contents. rewrite Ht, HT. apply table_lookup_ext; [done|done|].
    intros n. by setoid_rewrite Hsame.
Qed.

Lemma swap_inv s new : inv s -> rehash s = RSwap new ->
  inv (rehash_step std_hash s) ∧ ∀ k, contents (rehash_step std_hash s) k = contents s k.
Proof.
  intros (Hok & Hr & Hold & Hpos & Hpc) Hrs. unfold rehash_ok in Hr. rewrite Hrs in Hr.
  destruct Hr as (-> & Hlen & HN & Hl2 & Hu & Hno & Hred & Hnr & Hnodes).
  assert (rehash_step std_hash s = mkState (tables s) (S (table_ s)) RIdle (threads s)) as ->
    by (unfold rehash_step; by rewrite Hrs). split.
  - split; [done|]. split; [done|]. split; [|split].
    + intros t m Ht Hm. simpl in Ht. destruct (decide (t = table_ s)) as [->|]; [by apply Hred|].
      apply Hold; [lia|done].
    + intros t Ht. simpl in Ht. destruct (decide (t = S (table_ s))) as [->|]; [apply HN|apply Hpos; lia].
    + apply (pcs_ok_mono s); [done|simpl; lia| |done]. intros t Ht. apply table_le_refl.
  - intros k. unfold contents. simpl. apply table_lookup_ext; [done|done|].
    intros n. rewrite Hnodes. split; [naive_solver|]. intros (m & Hm). exists m. split; [|done].
    destruct (decide (m < length (table_at s (table_ s)))%nat); [done|].
    unfold node_at in Hm. rewrite get_slot_beyond in Hm by lia. done.
Qed.

Lemma progress_empty s new i :
  progress s new i i -> get_slot (table_at s (table_ s)) i = Empty -> progress s new i (S i).
Proof.
  intros (Hnew & Hlen & HN & Hl2 & Hu & Hno & Hred & Hnr & Hnodes) He.
  repeat (split; [done|]). split; [lia|]. repeat (split; [done|]). intros n. rewrite Hnodes.
  split; intros (m & Hm & Hn); exists m; (split; [|done]); [lia|].
  destruct (decide (m = i)) as [->|]; [|lia]. unfold node_at in Hn. by rewrite He in Hn.
Qed.

Lemma rehash_step_inv s : inv s ->
  inv (rehash_step std_hash s) ∧ ∀ k, contents (rehash_step std_hash s) k = contents s k.
Proof.
  intros Hinv. pose proof Hinv as (_ & Hr & _). pose proof Hr as Hr0. unfold rehash_ok in Hr0.
  assert (∀ r, rehash_ok (set_rehash s r) -> inv (set_rehash s r) ∧ ∀ k, contents (set_rehash s r) k = contents s k)
    as Hset by (intros r Hr'; split; [|done]; apply (inv_rehash s); try done; [intros; apply table_le_refl|apply Hinv]).
  destruct (rehash s) as [|new i|new i|new i|new i n|new|] eqn:E; [by apply rehash_start_inv| | | | |by eapply swap_inv|done].
  - destruct Hr0 as [Hp Hi]. unfold rehash_step. rewrite E.
    destruct (get_slot (table_at s (table_ s)) i) as [|w|n] eqn:Eb; [by apply Hset| |by apply move_node_inv].
    destruct Hp as (_ & _ & _ & _ & _ & _ & _ & Hnr & _). specialize (Hnr i ltac:(lia)). by rewrite Eb in Hnr.
  - destruct Hr0 as [Hp Hi]. unfold rehash_step. rewrite E.
    destruct (get_slot (table_at s (table_ s)) i) as [|w|n] eqn:Eb.
    + apply (redirect_inv s new i (Redirected None)); try done; [by apply progress_empty|by left|].
      unfold node_at. by rewrite Eb.
    + apply Hset. unfold rehash_ok. simpl. fold (table_at s (table_ s)). split; [done|]. split; [done|].
      change (get_slot (table_at s (table_ s)) i <> Empty). by rewrite Eb.
    + apply Hset. unfold rehash_ok. simpl. split; [done|]. split; [done|].
      change (get_slot (table_at s (table_ s)) i <> Empty). by rewrite Eb.
  - destruct Hr0 as (Hp & Hi & Hne). unfold rehash_step. rewrite E.
    destruct (get_slot (table_at s (table_ s)) i) as [|w|n] eqn:Eb; [done| |by apply move_node_inv].
    destruct Hp as (_ & _ & _ & _ & _ & _ & _ & Hnr & _). specialize (Hnr i ltac:(lia)). by rewrite Eb in Hnr.
  - destruct Hr0 as (Hp & Hi & Hb). unfold rehash_step. rewrite E, Hb, decide_True by done.
    apply (redirect_inv s new i (Redirected (Some n))); try done; [rewrite Hb; eauto|].
    + right. right. eauto.
    + unfold node_at. by rewrite Hb.
Qed.

(** ** The calls *)

(** What an event says of the map before and after it. *)
Definition atomic_effect (before after : bytestring -> option Z) (ev : option event) : Prop :=
  match ev with
  | None => ∀ k', after k' = before k'
  | Some (EvGet k r) => r = before k ∧ ∀ k', after k' = before k'
  | Some (EvPut k v true) =>
      before k = None ∧ ∀ k', after k' = if decide (k' = k) then Some v else before k'
  | Some (EvPut k v false) => before k <> None ∧ ∀ k', after k' = before k'
  end.

Lemma get_access_ok s k t h count : inv s -> probing s k t h count ->
  pc_ok s (get_access s k t h count).1 ∧
  atomic_effect (contents s) (contents s) (get_access s k t h count).2.
Proof.
  intros Hinv Hp. pose proof (examine_spec s k t h count Hinv Hp) as Hx. cbn zeta in Hx.
  unfold get_access. destruct (examine _ _ _ _ _); simpl; try done; naive_solver.
Qed.

Lemma put_access_ok s k v t h count : inv s -> probing s k t h count ->
  pc_ok s (put_access s k v t h count).1 ∧
  atomic_effect (contents s) (contents s) (put_access s k v t h count).2.
Proof.
  intros Hinv Hp. pose proof (examine_spec s k t h count Hinv Hp) as Hx. cbn zeta in Hx.
  unfold put_access. destruct (examine _ _ _ _ _); simpl; try done. rewrite Hx. done.
Qed.

Lemma table_step_inv s ev s' : inv s -> step std_hash s ev s' ->
  inv s' ∧ atomic_effect (contents s) (contents s') ev.
Proof.
  intros Hinv Hs. pose proof Hinv as (_ & _ & _ & _ & Hpc).
  assert (∀ i pc, threads s !! i = Some pc -> pc_ok s pc) as Hpcs
    by (intros i pc Hi; exact (Forall_lookup_1 _ _ _ _ Hpc Hi)).
  destruct Hs as [i k Hi|i k v Hi|i k Hi|i k t h c Hi|i k v Hi|i k v t h c Hi|i k v t h c Hi He|i k v t h c Hi|];
    try (specialize (Hpcs i _ Hi); simpl in Hpcs).
  - split; [by apply inv_set_pc|done].
  - split; [by apply inv_set_pc|done].
  - split; [by apply inv_set_pc, start_probing|done].
  - destruct (get_access_ok s k t h c Hinv Hpcs). split; [by apply inv_set_pc|done].
  - split; [by apply inv_set_pc, start_probing|done].
  - destruct (put_access_ok s k v t h c Hinv Hpcs). split; [by apply inv_set_pc|done].
  - destruct (put_inv s k v t h c Hinv Hpcs He) as (-> & Habs & Hinv' & Hc). split; [by apply inv_set_pc|done].
  - split; [by apply inv_set_pc|done].
  - destruct (rehash_step_inv s Hinv) as [Hinv' Hc]. split; [done|exact Hc].
Qed.

Lemma init_ok n : inv (init n).
Proof.
  assert (table_at (init n) 0 = replicate InitialTableSize Empty) as HT by done.
  split; [apply table_ok_blank; vm_compute; lia|]. split; [|split; [|split]].
  - unfold rehash_ok. simpl. split; [done|]. intros m. rewrite HT, get_slot_replicate. intros [].
  - simpl. lia.
  - simpl. intros t Ht. replace t with O by lia. rewrite HT, length_replicate. vm_compute. lia.
  - simpl. apply Forall_replicate. done.
Qed.

Lemma table_reachable_inv n s : reachable std_hash n s -> inv s.
Proof. induction 1; [apply init_ok|]. by eapply table_step_inv. Qed.

(** C8. The point index is linearizable, also while it is rehashed: at every
    step of every interleaving of Get, Put and Rehash, the contents change
    only when a Put takes effect, as an atomic map insertion would, and every
    call returns the answer of an atomic map at one step between its call and
    its return. *)
Theorem calls_are_atomic n s ev s' :
  reachable std_hash n s -> step std_hash s ev s' ->
  atomic_effect (contents s) (contents s') ev.
Proof. intros Hr%table_reachable_inv Hs. by eapply table_step_inv. Qed.

(** Moving the nodes into the new table always finds a free bucket:
    Rehash never runs past the end of it in any interleaving. *)
Theorem rehash_never_crashes n s : reachable std_hash n s -> rehash s <> RCrash.
Proof. intros (_ & Hr & _)%table_reachable_inv E. unfold rehash_ok in Hr. by rewrite E in Hr. Qed.

Lemma ForEach_loop_collect tbl (st : list (bytestring * Z)) :
  (∀ m, ¬ is_redirected (get_slot tbl m)) ->
  ForEach_loop (fun st k v => (st ++ [(k, v)], true)) tbl st =
    Some (st ++ map (fun n => (key n, value n)) (omap node_of tbl)).
Proof.
  revert st. induction tbl as [|b tbl IH]; intros st Hno; simpl; [by rewrite app_nil_r|].
  pose proof (Hno O) as H0. specialize (fun st => IH st (fun m => Hno (S m))).
  destruct b as [|w|n]; simpl; [apply IH|by destruct H0|]. rewrite IH, <- app_assoc. done.
Qed.

Lemma elem_of_nodes tbl n : n ∈ omap node_of tbl <-> ∃ i, node_at tbl i = Some n.
Proof.
  rewrite list_elem_of_omap. setoid_rewrite node_at_lookup. split.
  - intros (b & Hb & Hn). apply list_elem_of_lookup in Hb as [i Hi]. eauto.
  - intros (i & b & Hi & Hn). exists b. split; [|done]. by eapply list_elem_of_lookup_2.
Qed.

Lemma nodes_unique tbl :
  (∀ i j n m, node_at tbl i = Some n -> node_at tbl j = Some m -> key n = key m -> i = j) ->
  NoDup (map key (omap node_of tbl)).
Proof.
  induction tbl as [|b tbl IH]; intros Hu; [constructor|]. simpl.
  assert (NoDup (map key (omap node_of tbl))) as Hnd.
  { apply IH. intros i j n m Hi Hj Hk. specialize (Hu (S i) (S j) n m Hi Hj Hk). lia. }
  destruct (node_of b) as [n|] eqn:En; [|done]. simpl. constructor; [|done].
  intros (m & Hk & [i Hi]%elem_of_nodes)%list_elem_of_fmap.
  specialize (Hu O (S i) n m En Hi Hk). lia.
Qed.

(** With no rehash running, [ForEach] visits every entry once. *)
Theorem ForEach_visits_contents n s :
  reachable std_hash n s -> rehash s = RIdle ->
  ∃ l, ForEach (fun st k v => (st ++ [(k, v)], true)) s [] = Some l ∧ NoDup (map fst l) ∧
    ∀ k v, (k, v) ∈ l <-> contents s k = Some v.
Proof.
  intros (Hok & Hr & _)%table_reachable_inv E. unfold rehash_ok in Hr. rewrite E in Hr. destruct Hr as [_ Hno].
  eexists. unfold ForEach. rewrite ForEach_loop_collect by done. split; [done|]. simpl. split.
  - rewrite map_map. simpl. apply nodes_unique, Hok.
  - intros k v. unfold contents. rewrite table_lookup_Some by done. rewrite list_elem_of_fmap.
    setoid_rewrite elem_of_nodes. naive_solver.
Qed.

End proofs.

(** ** The theorems at work: one thread inserts a key and reads it *)

Module Demo.

Definition k : bytestring := [107].
Definition hash (_ : bytestring) : Z := 7.

(** The states of the two calls, one per access. *)
Definition s1 : State := set_pc (init 1) 0 (PutStart k 5).
Definition s2 : State := set_pc s1 0 (PutProbe k 5 0 (Hash hash k 4096) 0).
Definition s3 : State := set_pc s2 0 (PutCas k 5 0 (Hash hash k 4096) 0).
Definition s4 : State := set_pc (put_state s3 k 5 (Hash hash k 4096)) 0 Idle.
Definition s5 : State := set_pc s4 0 (GetStart k).
Definition s6 : State := set_pc s5 0 (GetProbe k 0 (Hash hash k 4096) 0).

Lemma s6_reachable : reachable hash 1 s6.
Proof.
  refine (reachable_step _ _ s5 None _ _ (step_get_start hash s5 0 k eq_refl)).
  refine (reachable_step _ _ s4 None _ _ (step_call_get hash s4 0 k eq_refl)).
  refine (reachable_step _ _ s3 _ _ _ (step_put_cas hash s3 0 k 5 0 (Hash hash k 4096) 0 eq_refl eq_refl)).
  refine (reachable_step _ _ s2 None _ _ (step_put hash s2 0 k 5 0 (Hash hash k 4096) 0 eq_refl)).
  refine (reachable_step _ _ s1 None _ _ (step_put_start hash s1 0 k 5 eq_refl)).
  refine (reachable_step _ _ (init 1) None _ _ (step_call_put hash (init 1) 0 k 5 eq_refl)).
  apply reachable_init.
Qed.

Lemma calls_are_atomic_witness :
  atomic_effect (contents s6) (contents (set_pc s6 0 Idle)) (Some (EvGet k (Some 5))).
Proof.
  exact (calls_are_atomic hash 1 s6 (Some (EvGet k (Some 5))) (set_pc s6 0 Idle) s6_reachable
    (step_get hash s6 0 k 0 (Hash hash k 4096) 0 eq_refl)).
Defined.

Lemma rehash_never_crashes_witness : rehash s6 <> RCrash.
Proof. exact (rehash_never_crashes hash 1 s6 s6_reachable). Defined.

Lemma ForEach_visits_contents_witness :
  ∃ l, ForEach (fun st k v => (st ++ [(k, v)], true)) s6 [] = Some l ∧ NoDup (map fst l) ∧
    ∀ k v, (k, v) ∈ l <-> contents s6 k = Some v.
Proof. exact (ForEach_visits_contents hash 1 s6 s6_reachable eq_refl). Defined.

End Demo.
