(* ===== verification/DataItem.v ===== *)
(** * Data items and snapshots (src/src/types/data_buffer.hpp, data_item.hpp,
      snapshot.hpp, src/src/transaction_impl.cpp)

    The record an index leaf points at: its version, its row payload in a
    growing heap buffer and, for a secondary-index entry, the packed list of
    primary keys.  A snapshot is an entry of a transaction's read or write
    set; a non-unique secondary-index write carries the additions and removals
    to merge into the live list at commit.

    The theorems: a buffer returns what was put into it whatever it held
    before; the recorded deltas, applied to any list, give the set that the
    operations give in the order they were issued; the order of snapshots that
    the commit locks items in is a strict total order on their names.

    Rows stored in PAX groups are in PaxBuffer.v. *)

From S2P Require Import Prelude PackedKeys Types.
Import PackedPrimaryKeys.

(** ** DataBuffer in heap mode *)

Module DataBuffer.

(** [value] is the allocation, [capacity] bytes long, or null. *)
Record t := mk { value : option bytestring; size : Z; capacity : Z }.

Definition empty : t := mk None 0 0.

(** [Reset(v, s)] with [s] the length of [v]; a null [v] is [None]. *)
Definition Reset (b : t) (v : option bytestring) : t :=
  match v with
  | None | Some [] => mk (value b) 0 (capacity b)
  | Some bs =>
      let s := zlen bs in
      let '(old, cap) := if capacity b <? s then (bs, s) else (default [] (value b), capacity b) in
      mk (Some (bs ++ drop (Z.to_nat s) old)) s cap
  end.

(** The [size] bytes at [value]. *)
Definition payload (b : t) : bytestring := take (Z.to_nat (size b)) (default [] (value b)).

(** [Reset(const DataBuffer& rhs)] between heap buffers. *)
Definition ResetFrom (b rhs : t) : t :=
  Reset b (match value rhs with None => None | Some _ => Some (payload rhs) end).

Definition IsEmpty (b : t) : bool := size b =? 0.
Definition toString (b : t) : bytestring := payload b.

(** The size fits the allocation, which is [capacity] bytes long. *)
Definition ok (b : t) : Prop :=
  0 <= size b <= capacity b ∧ zlen (default [] (value b)) = capacity b.

End DataBuffer.

(** ** DataItem *)

Module DataItem.

Record t := mk {
  transaction_id : TransactionId.t;
  buffer : DataBuffer.t;
  primary_keys_ : Ptr;
  checkpoint_buffer : DataBuffer.t;
  checkpoint_primary_keys : list bytestring;
  checkpoint_primary_keys_captured : bool;
}.

Definition empty : t := mk TransactionId.zero DataBuffer.empty None DataBuffer.empty [] false.

Definition set_transaction_id (i : t) (x : TransactionId.t) : t :=
  mk x (buffer i) (primary_keys_ i) (checkpoint_buffer i) (checkpoint_primary_keys i)
    (checkpoint_primary_keys_captured i).
Definition set_buffer (i : t) (x : DataBuffer.t) : t :=
  mk (transaction_id i) x (primary_keys_ i) (checkpoint_buffer i) (checkpoint_primary_keys i)
    (checkpoint_primary_keys_captured i).
Definition set_primary_keys_ (i : t) (x : Ptr) : t :=
  mk (transaction_id i) (buffer i) x (checkpoint_buffer i) (checkpoint_primary_keys i)
    (checkpoint_primary_keys_captured i).

Definition size (i : t) : Z := DataBuffer.size (buffer i).

Definition IsInitialized (i : t) : bool :=
  if negb (DataBuffer.size (buffer i) =? 0) then true
  else match primary_keys_ i with Some p => negb (count p =? 0) | None => false end.

Definition IsPrimaryInitialized (i : t) : bool := negb (DataBuffer.size (buffer i) =? 0).

(** [std::adjacent_find] for a pair that is not in order. *)
Fixpoint IsSortedDeduped (keys : list bytestring) : bool :=
  match keys with
  | lhs :: ((rhs :: _) as keys') => str_ltb lhs rhs && IsSortedDeduped keys'
  | _ => true
  end.

Definition SetPrimaryKeys (i : t) (keys : list bytestring) : outcome t :=
  obind (FromSortedDeduped keys) (fun p => Returns (set_primary_keys_ i (Some p))).

(** The copy constructor and the copy assignment. *)
Definition copy (rhs : t) : t :=
  mk (transaction_id rhs) (DataBuffer.ResetFrom DataBuffer.empty (buffer rhs)) (primary_keys_ rhs)
    DataBuffer.empty [] false.

Definition assign (i rhs : t) : t :=
  mk (transaction_id rhs) (DataBuffer.ResetFrom (buffer i) (buffer rhs)) (primary_keys_ rhs)
    (checkpoint_buffer i) (checkpoint_primary_keys i) (checkpoint_primary_keys_captured i).

Definition Reset (i : t) (v : option bytestring) (tid : TransactionId.t) : t :=
  let i' := set_buffer i (DataBuffer.Reset (buffer i) v) in
  if TransactionId.IsEmpty tid then i' else set_transaction_id i' tid.

Definition AddSecondaryIndexValue (i : t) (v : bytestring) : outcome t :=
  obind (Insert (primary_keys_ i) v) (fun next =>
    Returns (match next with SamePtr => i | FreshPtr p => set_primary_keys_ i (Some p) end)).

Definition RemoveSecondaryIndexValue (i : t) (v : bytestring) : outcome t :=
  obind (Erase (primary_keys_ i) v) (fun next =>
    Returns (match next with SamePtr => i | FreshPtr p => set_primary_keys_ i (Some p) end)).

Definition CopyLiveVersionToStableVersion (i : t) : t :=
  let cb := if DataBuffer.IsEmpty (checkpoint_buffer i)
            then DataBuffer.ResetFrom (checkpoint_buffer i) (buffer i) else checkpoint_buffer i in
  if checkpoint_primary_keys_captured i
  then mk (transaction_id i) (buffer i) (primary_keys_ i) cb (checkpoint_primary_keys i) true
  else mk (transaction_id i) (buffer i) (primary_keys_ i) cb
         (PackedPrimaryKeysView.primary_keys_vector (primary_keys_ i)) true.

Definition HasCheckpointPrimaryKeys (i : t) : bool := checkpoint_primary_keys_captured i.

Definition ClearCheckpointPrimaryKeys (i : t) : t :=
  mk (transaction_id i) (buffer i) (primary_keys_ i) (checkpoint_buffer i) [] false.

End DataItem.

(** ** Snapshot *)

Module Snapshot.

(** A [SecondaryIndexDelta] is a primary key and an operation. *)
Record t := mk {
  key : bytestring;
  data_item_copy : DataItem.t;
  index_cache : Z;              (* the address of the item in the index *)
  is_read_modify_write : bool;
  table_name : bytestring;
  index_name : bytestring;
  index_type_unique : bool;
  is_insert : bool;
  secondary_index_deltas : list (bytestring * SecondaryIndexOp);
}.

(** The constructor: a null value leaves the copy blank. *)
Definition new (k : bytestring) (v : option bytestring) (i : Z) (tn idx : bytestring)
    (ver : TransactionId.t) (unique : bool) : t :=
  mk k (match v with None => DataItem.empty | Some _ => DataItem.Reset DataItem.empty v ver end)
    i false tn idx unique false [].

Fixpoint record_delta (deltas : list (bytestring * SecondaryIndexOp)) (primary_key : bytestring)
    (op : SecondaryIndexOp) : list (bytestring * SecondaryIndexOp) :=
  match deltas with
  | [] => [(primary_key, op)]
  | (k, o) :: deltas' =>
      if str_eqb k primary_key then (k, op) :: deltas'
      else (k, o) :: record_delta deltas' primary_key op
  end.

Definition RecordSecondaryIndexDelta (s : t) (primary_key : bytestring) (op : SecondaryIndexOp) : t :=
  mk (key s) (data_item_copy s) (index_cache s) (is_read_modify_write s) (table_name s) (index_name s)
    (index_type_unique s) (is_insert s) (record_delta (secondary_index_deltas s) primary_key op).

Definition Compare (left right : t) : bool :=
  if negb (str_eqb (table_name left) (table_name right))
  then str_ltb (table_name left) (table_name right)
  else if negb (str_eqb (index_name left) (index_name right))
  then str_ltb (index_name left) (index_name right)
  else str_ltb (key left) (key right).

End Snapshot.

(** ** Merging deltas (transaction_impl.cpp) *)

(** The deltas of a list are additions and removals: the other operations fail
    an assertion and change nothing. *)
Fixpoint ApplySecondaryIndexDeltas (item : DataItem.t) (deltas : list (bytestring * SecondaryIndexOp))
    : outcome DataItem.t :=
  match deltas with
  | [] => Returns item
  | (primary_key, op) :: deltas' =>
      obind (match op with
             | OpAdd => DataItem.AddSecondaryIndexValue item primary_key
             | OpRemove => DataItem.RemoveSecondaryIndexValue item primary_key
             | OpNone | OpFull => Returns item
             end) (fun item' => ApplySecondaryIndexDeltas item' deltas')
  end.

Definition IsNonUniqueSecondaryIndexDeltaWrite (s : Snapshot.t) : bool :=
  match Snapshot.index_name s with [] => false | _ => true end &&
  negb (Snapshot.index_type_unique s) &&
  match Snapshot.secondary_index_deltas s with [] => false | _ => true end.

(** ** Buffers *)

Lemma Reset_none b v : default [] v = [] ->
  DataBuffer.Reset b v = DataBuffer.mk (DataBuffer.value b) 0 (DataBuffer.capacity b).
Proof. by destruct v as [[|x bs]|]. Qed.

Lemma Reset_some b bs : bs <> [] ->
  DataBuffer.Reset b (Some bs) =
    if DataBuffer.capacity b <? zlen bs
    then DataBuffer.mk (Some bs) (zlen bs) (zlen bs)
    else DataBuffer.mk (Some (bs ++ drop (length bs) (default [] (DataBuffer.value b)))) (zlen bs)
           (DataBuffer.capacity b).
Proof.
  destruct bs as [|x bs]; [done|]. intros _. unfold DataBuffer.Reset. rewrite to_nat_zlen.
  destruct (_ <? _); [|done]. by rewrite drop_ge, app_nil_r.
Qed.

Lemma Reset_split v : default [] v = [] ∨ ∃ bs, v = Some bs ∧ bs <> ([] : bytestring).
Proof. destruct v as [[|x bs]|]; [by left|right; by eexists|by left]. Qed.

Lemma Reset_ok b v : DataBuffer.ok b -> DataBuffer.ok (DataBuffer.Reset b v).
Proof.
  intros [Hs Hv]. destruct (Reset_split v) as [Hn|(bs & -> & Hbs)].
  { rewrite Reset_none by done. split; simpl; [lia|done]. }
  rewrite Reset_some by done. pose proof (zlen_nonneg bs).
  destruct (Z.ltb_spec (DataBuffer.capacity b) (zlen bs)); split; simpl; try done; try lia.
  rewrite zlen_app. unfold zlen in *. rewrite length_drop. lia.
Qed.

Lemma payload_Reset b v : DataBuffer.payload (DataBuffer.Reset b v) = default [] v.
Proof.
  destruct (Reset_split v) as [Hn|(bs & -> & Hbs)]; unfold DataBuffer.payload.
  - by rewrite Reset_none, Hn.
  - rewrite Reset_some by done. destruct (_ <? _); simpl; rewrite to_nat_zlen.
    + by rewrite take_ge.
    + by rewrite take_app_length.
Qed.

Lemma payload_ResetFrom b rhs :
  DataBuffer.payload (DataBuffer.ResetFrom b rhs) = DataBuffer.payload rhs.
Proof.
  unfold DataBuffer.ResetFrom. rewrite payload_Reset.
  destruct (DataBuffer.value rhs) as [v|] eqn:E; [done|]. unfold DataBuffer.payload. rewrite E. simpl.
  by rewrite take_nil.
Qed.

Lemma IsEmpty_payload b : DataBuffer.ok b -> DataBuffer.IsEmpty b = true <-> DataBuffer.payload b = [].
Proof.
  intros [Hs Hv]. unfold DataBuffer.IsEmpty, DataBuffer.payload. rewrite Z.eqb_eq. split.
  - intros ->. done.
  - intros H%(f_equal length). rewrite length_take in H. unfold zlen in Hv. simpl in H. lia.
Qed.

(** A DataBuffer returns the bytes it was last given, by value or from
    another buffer, is empty exactly when these are none, and never shrinks
    its allocation. *)
Theorem buffer_returns_what_it_was_given b v rhs :
  DataBuffer.ok b ->
  DataBuffer.ok (DataBuffer.Reset b v) ∧ DataBuffer.toString (DataBuffer.Reset b v) = default [] v ∧
  (DataBuffer.IsEmpty (DataBuffer.Reset b v) = true <-> default [] v = []) ∧
  DataBuffer.capacity b <= DataBuffer.capacity (DataBuffer.Reset b v) ∧
  DataBuffer.toString (DataBuffer.ResetFrom b rhs) = DataBuffer.toString rhs.
Proof.
  intros Hb. pose proof (Reset_ok b v Hb) as Hok. split; [done|]. split; [by apply payload_Reset|].
  split; [by rewrite IsEmpty_payload, payload_Reset by done|]. split; [|by apply payload_ResetFrom].
  destruct (Reset_split v) as [Hn|(bs & -> & Hbs)]; [by rewrite Reset_none|].
  rewrite Reset_some by done. destruct (Z.ltb_spec (DataBuffer.capacity b) (zlen bs)); simpl; lia.
Qed.

(** ** Sorted lists *)

Lemma IsSortedDeduped_spec ks : DataItem.IsSortedDeduped ks = true <-> StronglySorted str_lt ks.
Proof.
  induction ks as [|x [|y ks] IH]; [split; constructor|split; repeat constructor|].
  change (DataItem.IsSortedDeduped (x :: y :: ks)) with (str_ltb x y && DataItem.IsSortedDeduped (y :: ks)).
  rewrite andb_true_iff, IH. split.
  - intros [Hxy Hs]. constructor; [done|]. constructor; [done|].
    apply StronglySorted_inv in Hs as [_ Hs]. eapply List.Forall_impl; [|exact Hs].
    intros z Hz. by eapply str_lt_trans.
  - intros Hs. apply StronglySorted_inv in Hs as [Hs Hx]. split; [|done].
    by apply Forall_inv in Hx.
Qed.

(** ** Deltas *)

(** The set of keys after an addition or a removal. *)
Definition op_member (o : option SecondaryIndexOp) (before : Prop) : Prop :=
  match o with Some OpAdd => True | Some OpRemove => False | _ => before end.

#[global] Instance op_member_proper o : Proper (iff ==> iff) (op_member o).
Proof. intros P Q HPQ. by destruct o as [[]|]. Qed.

(** The last operation on a key among operations in the order they were
    issued. *)
Definition last_op (x : bytestring) (ops : list (bytestring * SecondaryIndexOp)) : option SecondaryIndexOp :=
  fold_left (fun o d => if str_eqb (fst d) x then Some (snd d) else o) ops None.

Definition is_delta (d : bytestring * SecondaryIndexOp) : Prop :=
  string_ok (fst d) ∧ (snd d = OpAdd ∨ snd d = OpRemove).

(** The deltas a snapshot holds after a sequence of operations. *)
Definition recorded (ops : list (bytestring * SecondaryIndexOp)) : list (bytestring * SecondaryIndexOp) :=
  fold_left (fun ds d => Snapshot.record_delta ds (fst d) (snd d)) ops [].

(** The item represents the set [ks], given by its sorted list. *)
Definition item_keys (i : DataItem.t) (ks : list bytestring) : Prop :=
  ptr_represents (DataItem.primary_keys_ i) ks.

Lemma last_op_acc x ops o :
  fold_left (fun o d => if str_eqb (fst d) x then Some (snd d) else o) ops o =
    match last_op x ops with Some p => Some p | None => o end.
Proof.
  unfold last_op. revert o. induction ops as [|d ops IH]; intros o; [done|]. simpl.
  rewrite IH. destruct (str_eqb _ x); [|done]. rewrite (IH (Some _)). by destruct (fold_left _ ops None).
Qed.

Lemma last_op_cons x d ops :
  last_op x (d :: ops) = match last_op x ops with
                         | Some p => Some p
                         | None => if str_eqb (fst d) x then Some (snd d) else None
                         end.
Proof. unfold last_op at 1. simpl. by rewrite last_op_acc. Qed.

Lemma last_op_app x ops d :
  last_op x (ops ++ [d]) = if str_eqb (fst d) x then Some (snd d) else last_op x ops.
Proof. unfold last_op. by rewrite fold_left_app. Qed.

Lemma last_op_delta x ds : Forall is_delta ds ->
  last_op x ds = None ∨ last_op x ds = Some OpAdd ∨ last_op x ds = Some OpRemove.
Proof.
  induction 1 as [|d ds [_ Hd] _ IH]; [by left|]. rewrite last_op_cons.
  destruct IH as [->|[->| ->]]; auto. destruct (str_eqb _ x); [|by left].
  destruct Hd as [->| ->]; auto.
Qed.

Lemma last_op_absent x ds : x ∉ map fst ds -> last_op x ds = None.
Proof.
  induction ds as [|[k o] ds IH]; [done|]. simpl. rewrite not_elem_of_cons. intros [Hne Hin].
  rewrite last_op_cons, IH by done. simpl. by rewrite (proj2 (str_eqb_neq k x)).
Qed.

Lemma record_delta_keys ds k o x :
  x ∈ map fst (Snapshot.record_delta ds k o) <-> x = k ∨ x ∈ map fst ds.
Proof.
  induction ds as [|[k' o'] ds IH]; simpl; [set_solver|]. destruct (str_eqb k' k) eqn:E; simpl.
  - apply str_eqb_eq in E as ->. set_solver.
  - rewrite !elem_of_cons, IH. tauto.
Qed.

(** Recording keeps one delta per key, the last one. *)
Lemma record_delta_spec ds k o x : NoDup (map fst ds) ->
  NoDup (map fst (Snapshot.record_delta ds k o)) ∧
  last_op x (Snapshot.record_delta ds k o) = if str_eqb k x then Some o else last_op x ds.
Proof.
  induction ds as [|[k' o'] ds IH]; intros Hnd.
  { simpl. split; [repeat constructor; set_solver|]. done. }
  simpl in Hnd. inversion_clear Hnd as [|?? Hnin Hnd']. simpl. destruct (str_eqb k' k) eqn:E.
  - apply str_eqb_eq in E as ->. split; [by constructor|]. rewrite !last_op_cons. simpl.
    destruct (str_eqb k x) eqn:Ex; [|done]. apply str_eqb_eq in Ex as ->. by rewrite last_op_absent.
  - destruct (IH Hnd') as [IHn IHl]. split.
    + simpl. constructor; [|done]. rewrite record_delta_keys. apply str_eqb_neq in E. naive_solver.
    + rewrite !last_op_cons, IHl. simpl. destruct (str_eqb k x) eqn:Ex; [done|done].
Qed.

Lemma recorded_spec ops x :
  NoDup (map fst (recorded ops)) ∧ last_op x (recorded ops) = last_op x ops.
Proof.
  induction ops as [|d ops IH] using rev_ind; [split; [constructor|done]|].
  destruct IH as [IHn IHl]. unfold recorded in *. rewrite fold_left_app. simpl.
  destruct (record_delta_spec _ (fst d) (snd d) x IHn) as [Hn Hl]. split; [done|].
  by rewrite Hl, IHl, last_op_app.
Qed.

Lemma record_delta_ok ds k o : is_delta (k, o) -> Forall is_delta ds -> Forall is_delta (Snapshot.record_delta ds k o).
Proof.
  intros Hd. induction 1 as [|[k' o'] ds Hd' Hds IH]; simpl; [by constructor|].
  destruct (str_eqb k' k); constructor; try done. destruct Hd as [_ Hd], Hd' as [Hk' _]. done.
Qed.

Lemma recorded_ok ops : Forall is_delta ops -> Forall is_delta (recorded ops).
Proof.
  induction ops as [|d ops IH] using rev_ind; intros H; [constructor|].
  apply Forall_app in H as [H1 H2]. unfold recorded. rewrite fold_left_app. simpl.
  apply Forall_inv in H2. destruct d. apply record_delta_ok; [done|]. by apply IH.
Qed.

(** The encoding of a set has the size of its records. *)
Lemma enc_permutation ks ks' : ks ≡ₚ ks' -> zlen (enc ks) = zlen (enc ks').
Proof.
  induction 1 as [|x l l' _ IH|x y l|l1 l2 l3 _ IH1 _ IH2]; rewrite ?enc_cons; zl.
Qed.

Lemma sorted_NoDup ks : StronglySorted str_lt ks -> NoDup ks.
Proof.
  induction 1 as [|x l Hs IH Hx]; constructor; [|done]. intros Hin. rewrite List.Forall_forall in Hx.
  apply list_elem_of_In, Hx in Hin. by apply (irreflexivity str_lt x).
Qed.

Lemma ptr_represents_facts p ks : ptr_represents p ks -> Forall string_ok ks ∧ NoDup ks.
Proof.
  destruct p as [p|]; [|intros ->; split; constructor].
  intros (_ & _ & _ & _ & Hok & Hs). split; [done|by apply sorted_NoDup].
Qed.

Lemma inserted_size ks ks' k : Forall string_ok ks -> string_ok k -> NoDup ks -> NoDup ks' -> k ∉ ks ->
  (∀ x, x ∈ ks' <-> x = k ∨ x ∈ ks) -> zlen (enc ks') = zlen (enc ks) + EncodedRecordSize k.
Proof.
  intros Hok Hk Hnd Hnd' Hnin Hmem. rewrite (enc_permutation ks' (k :: ks)).
  - rewrite enc_cons, EncodedRecordSize_eq by done. zl.
  - apply NoDup_Permutation; [done|by constructor|]. intros x. by rewrite elem_of_cons.
Qed.

Lemma erased_size ks ks' k : NoDup ks -> NoDup ks' -> k ∈ ks ->
  (∀ x, x ∈ ks' <-> x <> k ∧ x ∈ ks) -> zlen (enc ks') <= zlen (enc ks).
Proof.
  intros Hnd Hnd' Hin Hmem. rewrite (enc_permutation ks (k :: ks')).
  - rewrite enc_cons. pose proof (zlen_nonneg (WriteRecord k)). zl.
  - apply NoDup_Permutation; [done|constructor; [rewrite Hmem; naive_solver|done]|].
    intros x. rewrite elem_of_cons, Hmem. destruct (decide (x = k)) as [->|]; naive_solver.
Qed.

(** One delta. *)
Definition apply_delta (item : DataItem.t) (d : bytestring * SecondaryIndexOp) : outcome DataItem.t :=
  ApplySecondaryIndexDeltas item [d].

Lemma apply_cons item d ds :
  ApplySecondaryIndexDeltas item (d :: ds) = obind (apply_delta item d) (fun i => ApplySecondaryIndexDeltas i ds).
Proof. destruct d as [k []]; unfold apply_delta; simpl; try done; by destruct (_ item k). Qed.

Lemma EncodedRecordSize_pos k : string_ok k -> 0 < EncodedRecordSize k.
Proof. intros Hk. rewrite EncodedRecordSize_eq by done. pose proof (WriteRecord_bound k Hk). lia. Qed.

(** What one delta does to the row, the version and the set of an item. *)
Definition delta_effect (i i' : DataItem.t) (ks ks' : list bytestring) (member : bytestring -> Prop -> Prop) : Prop :=
  item_keys i' ks' ∧ (∀ x, x ∈ ks' <-> member x (x ∈ ks)) ∧
  DataItem.buffer i' = DataItem.buffer i ∧ DataItem.transaction_id i' = DataItem.transaction_id i.

Lemma apply_delta_spec i ks d : item_keys i ks -> is_delta d ->
  match apply_delta i d with
  | Returns i' => ∃ ks', delta_effect i i' ks ks'
      (fun x before => op_member (if str_eqb (fst d) x then Some (snd d) else None) before) ∧
      zlen (enc ks') <= zlen (enc ks) + EncodedRecordSize (fst d)
  | _ => UINT32_MAX < zlen (enc ks) + EncodedRecordSize (fst d)
  end.
Proof.
  destruct d as [k o]. intros Hi [Hk Ho]. simpl in *. pose proof (EncodedRecordSize_pos k Hk) as Hpos.
  destruct (ptr_represents_facts _ _ Hi) as [Hok Hnd].
  assert (∀ p ks', represents p ks' -> NoDup ks') as Hnd'
    by (intros p ks' Hp; exact (proj2 (ptr_represents_facts (Some p) ks' Hp))).
  assert (∀ x, str_eqb k x = true ∧ x = k ∨ str_eqb k x = false ∧ x <> k) as Hx.
  { intros x. destruct (str_eqb k x) eqn:E; [apply str_eqb_eq in E|apply str_eqb_neq in E]; auto. }
  unfold apply_delta. destruct Ho as [->| ->]; simpl.
  - unfold DataItem.AddSecondaryIndexValue.
    destruct (Insert_spec _ _ _ Hi Hk) as [[Hin ->]|[(Hnin & _ & p & ks' & -> & Hp & Hmem)|(_ & Hroom & f & ->)]]; simpl.
    + exists ks. split; [|lia]. (split; [done|split; [|done]]); intros x; destruct (Hx x) as [[-> ->]|[-> ?]]; done.
    + exists ks'. split; [|rewrite (inserted_size ks ks' k); eauto; lia].
      (split; [done|split; [|done]]); intros x; rewrite Hmem; destruct (Hx x) as [[-> ->]|[-> ?]]; simpl; naive_solver.
    + lia.
  - unfold DataItem.RemoveSecondaryIndexValue.
    destruct (Erase_spec _ _ k Hi) as [[Hnin ->]|(Hin & p & ks' & -> & Hp & Hmem)]; simpl.
    + exists ks. split; [|lia]. (split; [done|split; [|done]]); intros x; destruct (Hx x) as [[-> ->]|[-> ?]]; simpl; naive_solver.
    + exists ks'. split; [|pose proof (erased_size ks ks' k Hnd (Hnd' _ _ Hp) Hin Hmem); lia].
      (split; [done|split; [|done]]); intros x; rewrite Hmem; destruct (Hx x) as [[-> ->]|[-> ?]]; simpl; naive_solver.
Qed.

(** The room the keys of the additions and removals may take. *)
Definition delta_room (ds : list (bytestring * SecondaryIndexOp)) : Z :=
  foldr (fun d n => EncodedRecordSize (fst d) + n) 0 ds.

Lemma delta_room_nonneg ds : Forall is_delta ds -> 0 <= delta_room ds.
Proof.
  induction 1 as [|d ds [Hk _] _ IH]; simpl; [lia|]. pose proof (EncodedRecordSize_pos _ Hk). lia.
Qed.

Lemma apply_deltas_spec ds i ks : item_keys i ks -> Forall is_delta ds ->
  match ApplySecondaryIndexDeltas i ds with
  | Returns i' => ∃ ks', delta_effect i i' ks ks' (fun x before => op_member (last_op x ds) before)
  | _ => UINT32_MAX < zlen (enc ks) + delta_room ds
  end.
Proof.
  revert i ks. induction ds as [|d ds IH]; intros i ks Hi Hds; [by exists ks|].
  inversion_clear Hds as [|?? Hd Hds']. rewrite apply_cons. simpl delta_room.
  pose proof (delta_room_nonneg ds Hds'). pose proof (apply_delta_spec i ks d Hi Hd) as H1.
  destruct (apply_delta i d) as [i1|]; simpl; [|lia].
  destruct H1 as (ks1 & (Hi1 & Hm1 & Hb1 & Ht1) & Hsz). specialize (IH i1 ks1 Hi1 Hds').
  destruct (ApplySecondaryIndexDeltas i1 ds) as [i2|]; [|lia].
  destruct IH as (ks2 & Hi2 & Hm2 & Hb2 & Ht2). exists ks2. split; [done|]. split; [|by rewrite Hb2, Ht2].
  intros x. rewrite Hm2, last_op_cons, Hm1. by destruct (last_op_delta x ds Hds') as [->|[->| ->]].
Qed.

(** Applying the recorded deltas of a posting list to a newer version of
    it has the effect of the recorded operations in their order: a key is in
    the result as its last operation says, or as the newer version says when
    there is none; the value and version are kept, and length_error is thrown
    only when the encoding might not fit. *)
Theorem deltas_replay_the_operations item ks ops :
  item_keys item ks -> Forall is_delta ops ->
  match ApplySecondaryIndexDeltas item (recorded ops) with
  | Returns item' =>
      ∃ ks', item_keys item' ks' ∧ (∀ x, x ∈ ks' <-> op_member (last_op x ops) (x ∈ ks)) ∧
        DataItem.buffer item' = DataItem.buffer item ∧
        DataItem.transaction_id item' = DataItem.transaction_id item
  | _ => UINT32_MAX < zlen (enc ks) + delta_room (recorded ops)
  end.
Proof.
  intros Hi Hops. pose proof (apply_deltas_spec _ _ _ Hi (recorded_ok ops Hops)) as H.
  destruct (ApplySecondaryIndexDeltas item (recorded ops)) as [item'|]; [|done].
  destruct H as (ks' & Hk & Hm & Hrest). exists ks'. split; [done|]. split; [|done].
  intros x. rewrite Hm. by destruct (recorded_spec ops x) as [_ ->].
Qed.

(** ** The order of snapshots *)

(** What [Compare] orders. *)
Definition snapshot_name (s : Snapshot.t) : bytestring * bytestring * bytestring :=
  (Snapshot.table_name s, Snapshot.index_name s, Snapshot.key s).

Definition name_lt (a b : bytestring * bytestring * bytestring) : Prop :=
  let '(ta, ia, ka) := a in let '(tb, ib, kb) := b in
  str_lt ta tb ∨ ta = tb ∧ (str_lt ia ib ∨ ia = ib ∧ str_lt ka kb).

Lemma Compare_spec a b : Snapshot.Compare a b = true <-> name_lt (snapshot_name a) (snapshot_name b).
Proof.
  unfold Snapshot.Compare, snapshot_name, name_lt.
  assert (∀ x y, str_eqb x y = true ∧ x = y ∨ str_eqb x y = false ∧ x <> y) as He.
  { intros x y. destruct (str_eqb x y) eqn:E; [apply str_eqb_eq in E|apply str_eqb_neq in E]; auto. }
  assert (∀ x, ¬ str_lt x x) as Hirr by (intros x; apply irreflexivity; apply _).
  destruct (He (Snapshot.table_name a) (Snapshot.table_name b)) as [[-> Ht]|[-> Ht]]; simpl;
    [rewrite Ht|naive_solver].
  destruct (He (Snapshot.index_name a) (Snapshot.index_name b)) as [[-> Hi]|[-> Hi]]; simpl;
    [rewrite Hi|]; naive_solver.
Qed.

Lemma name_lt_trans a b c : name_lt a b -> name_lt b c -> name_lt a c.
Proof.
  destruct a as [[ta ia] ka], b as [[tb ib] kb], c as [[tc ic] kc]. simpl.
  pose proof str_lt_trans. intros [?|(-> & [?|(-> & ?)])] [?|(-> & [?|(-> & ?)])]; eauto 6.
Qed.

(** [Snapshot::Compare] is a strict total order on the names of snapshots. *)
Theorem Compare_strict_total a b c :
  Snapshot.Compare a a = false ∧
  (Snapshot.Compare a b = true -> Snapshot.Compare b c = true -> Snapshot.Compare a c = true) ∧
  (Snapshot.Compare a b = false -> Snapshot.Compare b a = false -> snapshot_name a = snapshot_name b).
Proof.
  split; [|split].
  - unfold Snapshot.Compare. rewrite !str_eqb_refl. simpl. apply str_ltb_irrefl.
  - rewrite !Compare_spec. apply name_lt_trans.
  - rewrite <- !not_true_iff_false, !Compare_spec. unfold snapshot_name. simpl. intros Hab Hba.
    assert (∀ x y, ¬ str_lt x y -> ¬ str_lt y x -> x = y) as Htot.
    { intros x y Hxy Hyx. destruct (decide (x = y)); [done|]. destruct Hyx. apply str_ltb_total; [|done].
      by apply not_true_iff_false. }
    assert (Snapshot.table_name a = Snapshot.table_name b) as Ht by (apply Htot; naive_solver).
    assert (Snapshot.index_name a = Snapshot.index_name b) as Hi by (apply Htot; naive_solver).
    assert (Snapshot.key a = Snapshot.key b) as Hk by (apply Htot; naive_solver).
    by rewrite Ht, Hi, Hk.
Qed.

(** ** Checkpoint versions *)

(** The stable version of an item for a checkpoint keeps the first image
    captured, except that a value captured as empty is captured again by the
    next call. *)
Theorem stable_version_keeps_the_first_image i j :
  DataItem.checkpoint_primary_keys_captured i = false ->
  DataBuffer.IsEmpty (DataItem.checkpoint_buffer i) = true ->
  let i1 := DataItem.CopyLiveVersionToStableVersion i in
  let i2 := DataItem.CopyLiveVersionToStableVersion
              (DataItem.set_primary_keys_ (DataItem.set_buffer i1 (DataItem.buffer j)) (DataItem.primary_keys_ j)) in
  DataItem.checkpoint_primary_keys i2 = DataItem.checkpoint_primary_keys i1 ∧
  DataBuffer.toString (DataItem.checkpoint_buffer i1) = DataBuffer.toString (DataItem.buffer i) ∧
  DataBuffer.toString (DataItem.checkpoint_buffer i2) =
    if DataBuffer.IsEmpty (DataItem.checkpoint_buffer i1) then DataBuffer.toString (DataItem.buffer j)
    else DataBuffer.toString (DataItem.buffer i).
Proof.
  intros Hc He. cbn zeta. unfold DataItem.CopyLiveVersionToStableVersion at 2 3 4. rewrite Hc, He.
  cbn [DataItem.checkpoint_primary_keys DataItem.checkpoint_buffer DataItem.checkpoint_primary_keys_captured
       DataItem.set_primary_keys_ DataItem.set_buffer].
  unfold DataItem.CopyLiveVersionToStableVersion. rewrite Hc, He. simpl.
  split; [done|]. split; [apply payload_ResetFrom|].
  destruct (DataBuffer.IsEmpty (DataBuffer.ResetFrom _ _)); apply payload_ResetFrom.
Qed.

(** ** The theorems at work *)

Module Demo.

Definition buf : DataBuffer.t := DataBuffer.mk (Some [1; 2; 3; 4]) 4 4.
Definition ops : list (bytestring * SecondaryIndexOp) :=
  [([1; 2], OpRemove); ([7], OpAdd); ([1; 2], OpAdd); ([3], OpRemove)].
Definition item : DataItem.t := DataItem.set_primary_keys_ DataItem.empty (Some PackedKeys.Demo.packed).

Lemma buffer_returns_what_it_was_given_witness :
  DataBuffer.toString (DataBuffer.Reset buf (Some [9; 8])) = [9; 8].
Proof.
  apply (buffer_returns_what_it_was_given buf (Some [9; 8]) buf).
  split; [split; vm_compute; discriminate|reflexivity].
Defined.

Lemma ops_ok : Forall is_delta ops.
Proof.
  assert (∀ k, bytes_okb k = true -> zlen k < 100 -> string_ok k) as Hk
    by (intros k Hb Hl; split; [by apply bytes_okb_ok|lia]).
  repeat (apply Forall_cons; split; [split; [by apply Hk|auto]|]). apply Forall_nil_2.
Qed.

Lemma deltas_replay_the_operations_witness :
  match ApplySecondaryIndexDeltas item (recorded ops) with
  | Returns item' =>
      ∃ ks', item_keys item' ks' ∧ (∀ x, x ∈ ks' <-> op_member (last_op x ops) (x ∈ PackedKeys.Demo.keys)) ∧
        DataItem.buffer item' = DataItem.buffer item ∧
        DataItem.transaction_id item' = DataItem.transaction_id item
  | _ => UINT32_MAX < zlen (enc PackedKeys.Demo.keys) + delta_room (recorded ops)
  end.
Proof.
  exact (deltas_replay_the_operations item PackedKeys.Demo.keys ops PackedKeys.Demo.packed_represents ops_ok).
Defined.

Lemma stable_version_keeps_the_first_image_witness :
  let i1 := DataItem.CopyLiveVersionToStableVersion (DataItem.set_buffer DataItem.empty buf) in
  let i2 := DataItem.CopyLiveVersionToStableVersion (DataItem.set_primary_keys_
              (DataItem.set_buffer i1 DataBuffer.empty) None) in
  DataBuffer.toString (DataItem.checkpoint_buffer i2) = [1; 2; 3; 4].
Proof.
  exact (proj2 (proj2 (stable_version_keeps_the_first_image (DataItem.set_buffer DataItem.empty buf)
    DataItem.empty eq_refl eq_refl))).
Defined.

End Demo.
