(* ===== verification/TxSet.v ===== *)
(** * Lookup in the read and write sets (src/src/transaction_impl.cpp, FindInSet)

    A transaction finds its own reads and writes by name.  Small sets are
    scanned; a large set gets a multimap from the hash of an entry's name to
    its position, brought up to date at every lookup.  The theorem: through
    any sequence of appends and lookups, the indexed lookup returns what the
    scan returns, the first entry with the name, whatever the hash function
    and whatever order the multimap enumerates a bucket in. *)

From S2P Require Import Prelude Types DataItem.

Definition kSetIndexThreshold : nat := 64.

(** [SetIndex]: the multimap is null until the first large lookup. *)
Record SetIndex := mkSetIndex { positions : option (list (Z * nat)); indexed : nat }.

Definition empty_index : SetIndex := mkSetIndex None 0.

Definition set_matches (table_name index_name key : bytestring) (s : Snapshot.t) : bool :=
  str_eqb (Snapshot.key s) key && str_eqb (Snapshot.table_name s) table_name &&
  str_eqb (Snapshot.index_name s) index_name.

(** The position of the first match of a scan. *)
Fixpoint scan_set (p : Snapshot.t -> bool) (set : list Snapshot.t) (at_ : nat) : option nat :=
  match set with
  | [] => None
  | s :: set' => if p s then Some at_ else scan_set p set' (S at_)
  end.

Section lookup.
(** [std::hash<std::string_view>], and the order in which [equal_range]
    enumerates the entries of one hash. *)
Variable std_hash : bytestring -> Z.
Variable range_order : list nat -> list nat.

Definition SetEntryHash (table_name index_name key : bytestring) : Z :=
  let hash := std_hash table_name in
  let hash := u64 (Z.lxor hash (std_hash index_name) * 0x100000001b3) in
  u64 (Z.lxor hash (std_hash key) * 0x100000001b3).

Definition snapshot_hash (s : Snapshot.t) : Z :=
  SetEntryHash (Snapshot.table_name s) (Snapshot.index_name s) (Snapshot.key s).

(** The loop that indexes the tail of the set. *)
Fixpoint index_tail (tail : list Snapshot.t) (ps : list (Z * nat)) (at_ : nat) : list (Z * nat) * nat :=
  match tail with
  | [] => (ps, at_)
  | s :: tail' => index_tail tail' ((snapshot_hash s, at_) :: ps) (S at_)
  end.

(** The loop over the entries of one hash. *)
Fixpoint candidates_loop (p : Snapshot.t -> bool) (set : list Snapshot.t) (range : list nat)
    (found : option nat) (found_at : nat) : option nat :=
  match range with
  | [] => found
  | at_ :: range' =>
      if (found_at <=? at_)%nat then candidates_loop p set range' found found_at
      else match set !! at_ with
           | Some s => if p s then candidates_loop p set range' (Some at_) at_
                       else candidates_loop p set range' found found_at
           | None => candidates_loop p set range' found found_at
           end
  end.

Definition FindInSet (set : list Snapshot.t) (index : SetIndex) (table_name index_name key : bytestring)
    : option nat * SetIndex :=
  let p := set_matches table_name index_name key in
  if (length set <? kSetIndexThreshold)%nat then (scan_set p set 0, index)
  else
    let '(ps, n) := index_tail (drop (indexed index) set) (default [] (positions index)) (indexed index) in
    let h := SetEntryHash table_name index_name key in
    let range := range_order (map snd (filter (fun e : Z * nat => e.1 = h) ps)) in
    (candidates_loop p set range None (length set), mkSetIndex (Some ps) n).

(** What a transaction does with a set. *)
Inductive set_op : Type :=
  | Append (s : Snapshot.t)
  | Lookup (table_name index_name key : bytestring).

Fixpoint run_set (ops : list set_op) (set : list Snapshot.t) (index : SetIndex) : list (option nat) :=
  match ops with
  | [] => []
  | Append s :: ops' => run_set ops' (set ++ [s]) index
  | Lookup tn idx k :: ops' =>
      let '(r, index') := FindInSet set index tn idx k in r :: run_set ops' set index'
  end.

(** The same with scans only. *)
Fixpoint run_scans (ops : list set_op) (set : list Snapshot.t) : list (option nat) :=
  match ops with
  | [] => []
  | Append s :: ops' => run_scans ops' (set ++ [s])
  | Lookup tn idx k :: ops' => scan_set (set_matches tn idx k) set 0 :: run_scans ops' set
  end.

(** ** The index holds the position of every entry it has seen *)

Definition index_ok (set : list Snapshot.t) (index : SetIndex) : Prop :=
  (indexed index <= length set)%nat ∧
  ∀ h i, (h, i) ∈ default [] (positions index) <->
         (i < indexed index)%nat ∧ ∃ s, set !! i = Some s ∧ snapshot_hash s = h.

Lemma index_ok_empty set : index_ok set empty_index.
Proof. split; [simpl; lia|]. simpl. intros h i. rewrite elem_of_nil. naive_solver lia. Qed.

Lemma index_ok_append set s index : index_ok set index -> index_ok (set ++ [s]) index.
Proof.
  intros [Hn Hp]. split; [rewrite length_app; lia|]. intros h i. rewrite Hp.
  split; intros (Hi & x & Hx & Hh); (split; [done|]); exists x; (split; [|done]).
  - by apply lookup_app_l_Some.
  - rewrite lookup_app_l in Hx by lia. done.
Qed.

Lemma index_tail_ok set ps at_ :
  (at_ <= length set)%nat ->
  (∀ h i, (h, i) ∈ ps <-> (i < at_)%nat ∧ ∃ s, set !! i = Some s ∧ snapshot_hash s = h) ->
  let '(ps', n) := index_tail (drop at_ set) ps at_ in index_ok set (mkSetIndex (Some ps') n) ∧ n = length set.
Proof.
  remember (length set - at_)%nat as m eqn:Hm. revert ps at_ Hm.
  induction m as [|m IH]; intros ps at_ Hm Hat Hps.
  - rewrite drop_ge by lia. simpl. split; [|lia]. by split.
  - destruct (lookup_lt_is_Some_2 set at_ ltac:(lia)) as [s Hs]. rewrite (drop_S set s at_ Hs). simpl.
    apply IH; [lia|lia|]. intros h i. rewrite elem_of_cons, Hps. split.
    + intros [?|[? ?]]; [simplify_eq; split; [lia|eauto]|split; [lia|done]].
    + intros [Hi (x & Hx & Hh)]. destruct (decide (i = at_)) as [->|]; [left; simplify_eq; done|].
      right. split; [lia|eauto].
Qed.

(** ** The smallest matching candidate *)

Lemma scan_set_spec p set at_ :
  match scan_set p set at_ with
  | Some i => ∃ j s, i = (at_ + j)%nat ∧ set !! j = Some s ∧ p s = true ∧
      ∀ j' s', (j' < j)%nat -> set !! j' = Some s' -> p s' = false
  | None => ∀ j s, set !! j = Some s -> p s = false
  end.
Proof.
  revert at_. induction set as [|x set IH]; intros at_; simpl; [done|].
  destruct (p x) eqn:E.
  - exists O, x. split; [lia|]. split; [done|]. split; [done|]. lia.
  - specialize (IH (S at_)). destruct (scan_set p set (S at_)) as [i|].
    + destruct IH as (j & s & -> & Hs & Hp & Hb). exists (S j), s. split; [lia|]. split; [done|]. split; [done|].
      intros [|j'] s' Hj Hs'; simpl in Hs'; [congruence|]. apply (Hb j'); [lia|done].
    + intros [|j] s Hs; simpl in Hs; [congruence|eauto].
Qed.

(** The position a scan returns is determined by its specification. *)
Lemma scan_set_unique p set r :
  match r with
  | Some i => ∃ s, set !! i = Some s ∧ p s = true ∧ ∀ j s', (j < i)%nat -> set !! j = Some s' -> p s' = false
  | None => ∀ j s, set !! j = Some s -> p s = false
  end -> scan_set p set 0 = r.
Proof.
  intros Hr. pose proof (scan_set_spec p set 0) as Hs. destruct (scan_set p set 0) as [i|], r as [i'|]; try done.
  - destruct Hs as (j & s & -> & Hj & Hp & Hb), Hr as (s' & Hi' & Hp' & Hb'). simpl.
    destruct (lt_eq_lt_dec j i') as [[Hlt|<-]|Hlt]; [|done|].
    + by rewrite (Hb' j s Hlt Hj) in Hp.
    + by rewrite (Hb i' s' Hlt Hi') in Hp'.
  - destruct Hs as (j & s & -> & Hj & Hp & _). by rewrite (Hr j s Hj) in Hp.
  - destruct Hr as (s & Hi & Hp & _). by rewrite (Hs _ s Hi) in Hp.
Qed.

(** The loop keeps the smallest match it has seen. *)
Lemma candidates_loop_spec p set range found found_at :
  match found with
  | Some i => i = found_at ∧ ∃ s, set !! i = Some s ∧ p s = true
  | None => found_at = length set
  end ->
  match candidates_loop p set range found found_at with
  | Some i => (∃ s, set !! i = Some s ∧ p s = true) ∧ (i <= found_at)%nat ∧
      ∀ j s, j ∈ range -> set !! j = Some s -> p s = true -> (i <= j)%nat
  | None => found = None ∧ ∀ j s, j ∈ range -> set !! j = Some s -> p s = false
  end.
Proof.
  revert found found_at. induction range as [|a range IH]; intros found found_at Hf; simpl.
  { destruct found as [i|]; [destruct Hf as [-> Hs]; split; [done|]; split; [done|]|split; [done|]];
      intros j s Hj; by apply elem_of_nil in Hj. }
  assert (∀ (skip : ∀ s, set !! a = Some s -> p s = true -> (found_at <= a)%nat),
    match candidates_loop p set range found found_at with
    | Some i => (∃ s, set !! i = Some s ∧ p s = true) ∧ (i <= found_at)%nat ∧
        ∀ j s, j ∈ a :: range -> set !! j = Some s -> p s = true -> (i <= j)%nat
    | None => found = None ∧ ∀ j s, j ∈ a :: range -> set !! j = Some s -> p s = false
    end) as Hskip.
  { intros skip. specialize (IH found found_at Hf). destruct (candidates_loop p set range found found_at) as [i|].
    - destruct IH as (Hs & Hle & Hmin). split; [done|]. split; [done|].
      intros j s [->|Hj]%elem_of_cons Hl Hp; [specialize (skip s Hl Hp); lia|eauto].
    - destruct IH as [-> Hnone]. split; [done|]. intros j s [->|Hj]%elem_of_cons Hl; [|eauto].
      destruct (p s) eqn:Ep; [|done]. specialize (skip s Hl Ep). apply lookup_lt_Some in Hl. lia. }
  destruct (Nat.leb_spec found_at a) as [Hle|Hlt]; [by apply Hskip|].
  destruct (set !! a) as [s|] eqn:Es; [|by apply Hskip].
  destruct (p s) eqn:Ep; [|apply Hskip; congruence].
  specialize (IH (Some a) a (conj eq_refl (ex_intro _ s (conj Es Ep)))). destruct (candidates_loop p set range (Some a) a) as [i|]; [|by destruct IH].
  destruct IH as (Hs & Hle & Hmin). split; [done|]. split; [lia|].
  intros j s' [->|Hj]%elem_of_cons; [done|eauto].
Qed.

Hypothesis range_order_perm : ∀ l, range_order l ≡ₚ l.

Lemma FindInSet_spec set index tn idx k : index_ok set index ->
  (FindInSet set index tn idx k).1 = scan_set (set_matches tn idx k) set 0 ∧
  index_ok set (FindInSet set index tn idx k).2.
Proof.
  intros [Hn Hp]. unfold FindInSet. destruct (_ <? _)%nat; [done|].
  pose proof (index_tail_ok set _ _ Hn Hp) as Hix. destruct (index_tail _ _ _) as [ps n]. simpl.
  destruct Hix as [Hix ->]. split; [|done]. symmetry. apply scan_set_unique.
  set (p := set_matches tn idx k). set (range := range_order _).
  assert (∀ j s, set !! j = Some s -> p s = true -> j ∈ range) as Hin.
  { intros j s Hj Hps. unfold range. rewrite range_order_perm. apply list_elem_of_fmap.
    exists (SetEntryHash tn idx k, j). split; [done|]. apply list_elem_of_filter. split; [done|].
    apply Hix. split; [by eapply lookup_lt_Some|]. exists s. split; [done|]. unfold snapshot_hash.
    unfold p, set_matches in Hps. apply andb_true_iff in Hps as [[Hk Ht]%andb_true_iff Hi].
    apply str_eqb_eq in Hk as ->, Ht as ->, Hi as ->. done. }
  pose proof (candidates_loop_spec p set range None (length set) eq_refl) as Hc.
  destruct (candidates_loop p set range None (length set)) as [i|].
  - destruct Hc as ((s & Hs & Hps) & _ & Hmin). exists s. split; [done|]. split; [done|].
    intros j s' Hj Hs'. destruct (p s') eqn:Ep; [|done]. specialize (Hmin j s' (Hin _ _ Hs' Ep) Hs' Ep). lia.
  - destruct Hc as [_ Hnone]. intros j s Hs. destruct (p s) eqn:Ep; [|done].
    rewrite <- Ep. eauto.
Qed.

(** On every sequence of appends and lookups, FindInSet with its
    incrementally built hash index returns what a scan of the set for the
    first match returns, with collisions and whatever order a bucket is walked
    in. *)
Theorem FindInSet_first_match ops : run_set ops [] empty_index = run_scans ops [].
Proof.
  assert (∀ set index, index_ok set index -> run_set ops set index = run_scans ops set) as H;
    [|apply H, index_ok_empty].
  induction ops as [|[s|tn idx k] ops IH]; intros set index Hix; simpl; [done| |].
  - by apply IH, index_ok_append.
  - destruct (FindInSet_spec set index tn idx k Hix) as [Hr Hix'].
    destruct (FindInSet set index tn idx k) as [r index']. simpl in *. by rewrite Hr, (IH set index').
Qed.

End lookup.

(** Sixty-five writes of the same row, found at position 0 by the index. *)
Lemma FindInSet_first_match_witness :
  run_set (fun _ => 0) (@reverse nat)
    (replicate 65 (Append (Snapshot.new [1] None 0 [2] [] TransactionId.zero false)) ++ [Lookup [2] [] [1]])
    [] empty_index =
  run_scans
    (replicate 65 (Append (Snapshot.new [1] None 0 [2] [] TransactionId.zero false)) ++ [Lookup [2] [] [1]]) [].
Proof.
  apply (FindInSet_first_match (fun _ => 0) (@reverse nat)). intros l. apply reverse_Permutation.
Defined.
