(* ===== verification/StdAlgo.v ===== *)
(** * [std::sort], [std::merge] and [std::unique] on vectors of strings

    The scans of a transaction merge the keys of the index with the keys the
    transaction has written.  [std::sort] is an insertion sort here: strings
    that compare equal are equal, so every sorting algorithm gives the same
    vector. *)

From stdpp Require Import sorting.
From S2P Require Import Prelude.

Fixpoint insert_key (k : bytestring) (l : list bytestring) : list bytestring :=
  match l with
  | [] => [k]
  | x :: l' => if str_ltb x k then x :: insert_key k l' else k :: l
  end.

Fixpoint std_sort (l : list bytestring) : list bytestring :=
  match l with
  | [] => []
  | x :: l' => insert_key x (std_sort l')
  end.

(** [std::merge]: the second range gives the next element only when it is
    smaller. *)
Fixpoint std_merge (a : list bytestring) : list bytestring -> list bytestring :=
  match a with
  | [] => fun b => b
  | x :: a' =>
      fix merge_b (b : list bytestring) : list bytestring :=
        match b with
        | [] => x :: a'
        | y :: b' => if str_ltb y x then y :: merge_b b' else x :: std_merge a' b
        end
  end.

(** [erase(unique(...))]: of equal neighbours the first stays. *)
Fixpoint std_unique (l : list bytestring) : list bytestring :=
  match l with
  | [] => []
  | x :: l' => x :: match std_unique l' with
                    | y :: r => if str_eqb x y then r else y :: r
                    | [] => []
                    end
  end.

(** ** Order and elements *)

Definition str_le (a b : bytestring) : Prop := str_ltb b a = false.

Abbreviation ascending := (StronglySorted str_le).
Abbreviation strictly_ascending := (StronglySorted str_lt).

Lemma str_le_refl a : str_le a a.
Proof. apply str_ltb_irrefl. Qed.

Lemma str_lt_le a b : str_lt a b -> str_le a b.
Proof. apply str_lt_asym. Qed.

Lemma str_le_lt_or_eq a b : str_le a b -> a = b ∨ str_lt a b.
Proof.
  unfold str_le. intros H. destruct (decide (a = b)); [by left|right]. apply str_ltb_total; congruence.
Qed.

Lemma str_le_trans a b c : str_le a b -> str_le b c -> str_le a c.
Proof.
  intros [->|H1]%str_le_lt_or_eq [<-|H2]%str_le_lt_or_eq; auto using str_le_refl, str_lt_le.
  apply str_lt_le. by transitivity b.
Qed.

Lemma elem_of_insert_key x k l : x ∈ insert_key k l <-> x = k ∨ x ∈ l.
Proof.
  induction l as [|y l IH]; simpl; [set_solver|]. destruct (str_ltb y k); rewrite ?elem_of_cons, ?IH; naive_solver.
Qed.

Lemma insert_key_ascending k l : ascending l -> ascending (insert_key k l).
Proof.
  induction 1 as [|x l Hl IH Hx]; simpl; [repeat constructor|].
  destruct (str_ltb x k) eqn:E; constructor; try done.
  - apply Forall_forall. intros y [->|Hy]%elem_of_insert_key; [by apply str_lt_le|].
    by apply (proj1 (Forall_forall _ _) Hx).
  - by constructor.
  - constructor; [done|]. apply (Forall_impl _ _ _ Hx). intros y. apply str_le_trans. done.
Qed.

Lemma std_sort_ascending l : ascending (std_sort l).
Proof. induction l; simpl; [constructor|by apply insert_key_ascending]. Qed.

Lemma elem_of_std_sort x l : x ∈ std_sort l <-> x ∈ l.
Proof. induction l; simpl; [done|]. rewrite elem_of_insert_key, elem_of_cons. naive_solver. Qed.

Lemma elem_of_std_merge x a b : x ∈ std_merge a b <-> x ∈ a ∨ x ∈ b.
Proof.
  revert b. induction a as [|y a IHa]; intros b; [set_solver|].
  induction b as [|z b IHb]; [set_solver|].
  cbn. destruct (str_ltb z y).
  - rewrite elem_of_cons, IHb, !elem_of_cons. naive_solver.
  - rewrite elem_of_cons, IHa, !elem_of_cons. naive_solver.
Qed.

Lemma std_merge_ascending a b : ascending a -> ascending b -> ascending (std_merge a b).
Proof.
  intros Ha. revert b. induction Ha as [|x a Ha IHa Hx]; intros b Hb; [done|].
  induction Hb as [|y b Hb IHb Hy]; [by constructor|].
  cbn. destruct (str_ltb y x) eqn:E; constructor; try done.
  - apply Forall_forall. intros z [Hz|Hz]%(elem_of_std_merge z (x :: a) b);
      [|by apply (proj1 (Forall_forall _ _) Hy)].
    apply str_le_trans with x; [by apply str_lt_le|].
    apply elem_of_cons in Hz as [->|Hz]; [apply str_le_refl|by apply (proj1 (Forall_forall _ _) Hx)].
  - apply IHa. by constructor.
  - apply Forall_forall. intros z [Hz|Hz]%elem_of_std_merge; [by apply (proj1 (Forall_forall _ _) Hx)|].
    apply elem_of_cons in Hz as [->|Hz]; [done|]. apply str_le_trans with y; [done|].
    by apply (proj1 (Forall_forall _ _) Hy).
Qed.

Lemma elem_of_std_unique x l : x ∈ std_unique l <-> x ∈ l.
Proof.
  induction l as [|y l IH]; simpl; [done|]. rewrite !elem_of_cons, <- IH.
  destruct (std_unique l) as [|z r]; [done|]. destruct (str_eqb y z) eqn:E; rewrite ?elem_of_cons; [|done].
  apply str_eqb_eq in E as ->. naive_solver.
Qed.

Lemma std_unique_ascending l : ascending l -> strictly_ascending (std_unique l).
Proof.
  induction 1 as [|x l Hl IH Hx]; simpl; [constructor|].
  assert (Forall (str_le x) (std_unique l)) as Hu.
  { apply Forall_forall. intros y Hy. apply (proj1 (elem_of_std_unique _ _)) in Hy. by apply (proj1 (Forall_forall _ _) Hx). }
  destruct (std_unique l) as [|y r]; [repeat constructor|].
  inversion IH as [|? ? Hr Hyr]; subst. destruct (str_eqb x y) eqn:E.
  - apply str_eqb_eq in E as ->. by constructor.
  - apply str_eqb_neq in E. inversion Hu as [|? ? Hxy Hur]; subst.
    destruct (str_le_lt_or_eq _ _ Hxy) as [?|Hlt]; [done|].
    constructor; [by constructor|]. constructor; [done|].
    apply (Forall_impl _ _ _ Hyr). intros z. by apply str_lt_trans.
Qed.

(** The keys of a scan: ascending, each once, from either side. *)
Lemma merged_keys a b : ascending a ->
  strictly_ascending (std_unique (std_merge a (std_sort b))) ∧
  ∀ k, k ∈ std_unique (std_merge a (std_sort b)) <-> k ∈ a ∨ k ∈ b.
Proof.
  intros Ha. split; [apply std_unique_ascending, std_merge_ascending, std_sort_ascending; done|].
  intros k. by rewrite elem_of_std_unique, elem_of_std_merge, elem_of_std_sort.
Qed.

(** ** Order of a scan *)

(** Keys in the order of a scan, each once. *)
Definition in_order (reverse_ : bool) (keys : list bytestring) : Prop :=
  StronglySorted (fun a b => if reverse_ then str_lt b a else str_lt a b) keys.

Lemma StronglySorted_reverse {A} (R : A -> A -> Prop) l : StronglySorted R l -> StronglySorted (flip R) (reverse l).
Proof.
  induction 1 as [|x l Hl IH Hx]; [constructor|]. rewrite reverse_cons. apply StronglySorted_app. split; [|split].
  - intros a b Ha ->%list_elem_of_singleton. apply (proj1 (Forall_forall _ _) Hx). by apply elem_of_reverse.
  - done.
  - repeat constructor.
Qed.

Lemma StronglySorted_sublist {A} (R : A -> A -> Prop) l l' : sublist l' l -> StronglySorted R l -> StronglySorted R l'.
Proof.
  induction 1 as [|x l' l Hs IH|x l' l Hs IH]; intros Hl; [done| |]; inversion Hl as [|? ? Hl' Hx]; subst; [|by apply IH].
  constructor; [by apply IH|]. apply Forall_forall. intros y Hy. apply (proj1 (Forall_forall _ _) Hx).
  by eapply elem_of_sublist.
Qed.

Lemma in_order_ascending (reverse_ : bool) l : in_order reverse_ l ->
  strictly_ascending (if reverse_ then reverse l else l).
Proof. destruct reverse_; [apply StronglySorted_reverse|done]. Qed.

Lemma ascending_in_order (reverse_ : bool) l : strictly_ascending l ->
  in_order reverse_ (if reverse_ then reverse l else l).
Proof. destruct reverse_; [apply StronglySorted_reverse|done]. Qed.

Lemma strictly_ascending_ascending l : strictly_ascending l -> ascending l.
Proof. induction 1 as [|x l Hl IH Hx]; constructor; [done|]. apply (Forall_impl _ _ _ Hx). intros y. apply str_lt_le. Qed.
