(* ===== verification/LogReplay.v ===== *)
(** * From the log back to the database (src/src/recovery/logger.cpp,
    src/src/recovery/impl/thread_local_logger.cpp)

    [Enqueue] turns the write set of a committed transaction into a log record.
    [BuildRecoverySet] folds the records of a checkpoint image and of the log
    into the write set that recovery replays: for every row the newest write,
    for every posting list the primary keys whose newest operation is an
    addition.

    The hash maps are [gmap]s; the order in which one is walked is a parameter
    of the model, any permutation of its entries.  The type of an index is its
    UNIQUE bit, the only one the code looks at. *)

From stdpp Require Import gmap strings.
From S2P Require Import Prelude PackedKeys Types DataItem StdAlgo.

(** ** The record of a transaction *)

Module LogEntry.

(** [static_cast<uint8_t>] of the operation. *)
Definition code (op : SecondaryIndexOp) : Z :=
  match op with OpNone => 0 | OpAdd => 1 | OpRemove => 2 | OpFull => 3 end.

(** [SecondaryIndexType::Raw] and [IsUnique]. *)
Definition Raw (unique : bool) : Z := if unique then 1 else 0.
Definition IsUnique (raw : Z) : bool := negb (Z.land raw 1 =? 0).

Definition of_row (s : Snapshot.t) : LogRecord.KeyValuePair :=
  LogRecord.mkKVP (Snapshot.key s) (DataBuffer.toString (DataItem.buffer (Snapshot.data_item_copy s)))
    (DataItem.transaction_id (Snapshot.data_item_copy s)) (Snapshot.table_name s) (Snapshot.index_name s)
    (Raw (Snapshot.index_type_unique s))
    (PackedPrimaryKeysView.primary_keys_vector (DataItem.primary_keys_ (Snapshot.data_item_copy s)))
    (code OpNone) [].

Definition of_delta (s : Snapshot.t) (delta : bytestring * SecondaryIndexOp) : LogRecord.KeyValuePair :=
  LogRecord.mkKVP (Snapshot.key s) (DataBuffer.toString (DataItem.buffer (Snapshot.data_item_copy s)))
    (DataItem.transaction_id (Snapshot.data_item_copy s)) (Snapshot.table_name s) (Snapshot.index_name s)
    (Raw (Snapshot.index_type_unique s)) [] (code delta.2) delta.1.

Definition of_snapshot (s : Snapshot.t) : list LogRecord.KeyValuePair :=
  match Snapshot.index_name s with
  | [] => [of_row s]
  | _ => map (of_delta s) (Snapshot.secondary_index_deltas s)
  end.

Definition record (ws : list Snapshot.t) (epoch : Z) : LogRecord.t :=
  LogRecord.mk epoch (concat (map of_snapshot ws)).

(** [Enqueue]: whether a record was buffered, and the buffer. *)
Definition Enqueue (ws : list Snapshot.t) (epoch : Z) (log_records : LogRecords) : bool * LogRecords :=
  match LogRecord.key_value_pairs (record ws epoch) with
  | [] => (false, log_records)
  | _ => (true, log_records ++ [record ws epoch])
  end.

End LogEntry.

(** ** The recovery set *)

Module Replay.

(** [SecondaryOpKey]: table, index, type, secondary key, primary key. *)
Abbreviation SecondaryGroupKey := (bytestring * bytestring * Z * bytestring)%type.
Abbreviation SecondaryOpKey := (SecondaryGroupKey * bytestring)%type.

Record t := mk {
  secondary_latest : gmap SecondaryOpKey (TransactionId.t * Z);
  recovery_set : list Snapshot.t;
  primary_position : gmap (bytestring * bytestring) nat;
}.

Definition start : t := mk ∅ [] ∅.

Definition is_secondary_index (p : LogRecord.KeyValuePair) : bool :=
  negb (str_eqb (LogRecord.index_name p) []) || negb (LogRecord.secondary_op p =? LogEntry.code OpNone) ||
  match LogRecord.primary_keys p with [] => false | _ => true end ||
  negb (str_eqb (LogRecord.secondary_primary_key p) []) || negb (LogRecord.index_type p =? 0).

Definition group_key (p : LogRecord.KeyValuePair) : SecondaryGroupKey :=
  (LogRecord.table_name p, LogRecord.index_name p, LogRecord.index_type p, LogRecord.key p).

(** An operation on a posting replaces an older one. *)
Definition fold_op (k : SecondaryOpKey) (tid : TransactionId.t) (op : Z)
    (m : gmap SecondaryOpKey (TransactionId.t * Z)) : gmap SecondaryOpKey (TransactionId.t * Z) :=
  match m !! k with
  | Some (tid', _) => if TransactionId.ltb tid' tid then <[k := (tid, op)]> m else m
  | None => <[k := (tid, op)]> m
  end.

Definition fold_secondary (p : LogRecord.KeyValuePair) (m : gmap SecondaryOpKey (TransactionId.t * Z))
    : gmap SecondaryOpKey (TransactionId.t * Z) :=
  if LogRecord.secondary_op p =? LogEntry.code OpFull then
    fold_left (fun m pk => fold_op (group_key p, pk) (LogRecord.tid p) (LogEntry.code OpAdd) m)
      (LogRecord.primary_keys p) m
  else match LogRecord.secondary_primary_key p with
       | [] => m
       | pk => fold_op (group_key p, pk) (LogRecord.tid p) (LogRecord.secondary_op p) m
       end.

(** The value pointer of an empty buffer is null. *)
Definition value_ptr (buffer : bytestring) : option bytestring :=
  match buffer with [] => None | _ => Some buffer end.

Definition replace_row (p : LogRecord.KeyValuePair) (s : Snapshot.t) : Snapshot.t :=
  Snapshot.mk (Snapshot.key s)
    (DataItem.Reset (Snapshot.data_item_copy s) (value_ptr (LogRecord.buffer p)) (LogRecord.tid p))
    (Snapshot.index_cache s) (Snapshot.is_read_modify_write s) (LogRecord.table_name p) (LogRecord.index_name p)
    (LogEntry.IsUnique (LogRecord.index_type p)) (Snapshot.is_insert s) (Snapshot.secondary_index_deltas s).

Definition new_row (p : LogRecord.KeyValuePair) : Snapshot.t :=
  Snapshot.new (LogRecord.key p) (Some (LogRecord.buffer p)) 0 (LogRecord.table_name p) (LogRecord.index_name p)
    (LogRecord.tid p) (LogEntry.IsUnique (LogRecord.index_type p)).

Definition fold_row (p : LogRecord.KeyValuePair) (r : t) : t :=
  let k := (LogRecord.table_name p, LogRecord.key p) in
  match primary_position r !! k with
  | Some i =>
      match recovery_set r !! i with
      | Some s =>
          if TransactionId.ltb (DataItem.transaction_id (Snapshot.data_item_copy s)) (LogRecord.tid p)
          then mk (secondary_latest r) (<[i := replace_row p s]> (recovery_set r)) (primary_position r)
          else r
      | None => r
      end
  | None =>
      mk (secondary_latest r) (recovery_set r ++ [new_row p]) (<[k := length (recovery_set r)]> (primary_position r))
  end.

Definition fold_kvp (r : t) (p : LogRecord.KeyValuePair) : t :=
  if is_secondary_index p
  then mk (fold_secondary p (secondary_latest r)) (recovery_set r) (primary_position r)
  else fold_row p r.

(** The key-value pairs of the image and then of the log, in order. *)
Definition pairs (records : LogRecords) : list LogRecord.KeyValuePair :=
  concat (map LogRecord.key_value_pairs records).

Section orders.
(** The orders in which the two maps are walked. *)
Variable latest_order : list (SecondaryOpKey * (TransactionId.t * Z)) -> list (SecondaryOpKey * (TransactionId.t * Z)).
Variable group_order : list (SecondaryGroupKey * (TransactionId.t * list bytestring)) ->
  list (SecondaryGroupKey * (TransactionId.t * list bytestring)).

(** [SecondaryGroupValue] of an addition. *)
Definition add_to_group (g : gmap SecondaryGroupKey (TransactionId.t * list bytestring))
    (e : SecondaryOpKey * (TransactionId.t * Z)) : gmap SecondaryGroupKey (TransactionId.t * list bytestring) :=
  let '((gk, pk), (tid, op)) := e in
  if op =? LogEntry.code OpAdd then
    let '(max_tid, pks) := default (TransactionId.zero, []) (g !! gk) in
    <[gk := (if TransactionId.ltb max_tid tid then tid else max_tid, pks ++ [pk])]> g
  else g.

Definition grouped_secondary (latest : gmap SecondaryOpKey (TransactionId.t * Z))
    : gmap SecondaryGroupKey (TransactionId.t * list bytestring) :=
  fold_left add_to_group (latest_order (map_to_list latest)) ∅.

Definition posting_snapshot (e : SecondaryGroupKey * (TransactionId.t * list bytestring)) : outcome Snapshot.t :=
  let '((tn, ix, ty, k), (tid, pks)) := e in
  let s := Snapshot.new k None 0 tn ix tid (LogEntry.IsUnique ty) in
  obind (DataItem.SetPrimaryKeys (Snapshot.data_item_copy s) (std_unique (std_sort pks))) (fun i =>
    Returns (Snapshot.mk k (DataItem.Reset i None tid) 0 false tn ix (LogEntry.IsUnique ty) false [])).

Fixpoint posting_snapshots (l : list (SecondaryGroupKey * (TransactionId.t * list bytestring)))
    : outcome (list Snapshot.t) :=
  match l with
  | [] => Returns []
  | e :: l' =>
      match snd (snd e) with
      | [] => posting_snapshots l'
      | _ => obind (posting_snapshot e) (fun s => obind (posting_snapshots l') (fun r => Returns (s :: r)))
      end
  end.

Definition BuildRecoverySet (image tail : LogRecords) : outcome (list Snapshot.t) :=
  let r := fold_left fold_kvp (pairs image ++ pairs tail) start in
  obind (posting_snapshots (group_order (map_to_list (grouped_secondary (secondary_latest r))))) (fun l =>
    Returns (recovery_set r ++ l)).

End orders.

End Replay.
Import Replay.

(** ** The newest write *)

(** The newest of several writes, the first one among equals. *)
Definition newest {A} (l : list (TransactionId.t * A)) : option (TransactionId.t * A) :=
  fold_left (fun o w => match o with
                        | None => Some w
                        | Some v => if TransactionId.ltb v.1 w.1 then Some w else Some v
                        end) l None.

Lemma newest_snoc {A} (l : list (TransactionId.t * A)) w : newest (l ++ [w]) =
  match newest l with
  | None => Some w
  | Some v => if TransactionId.ltb v.1 w.1 then Some w else Some v
  end.
Proof. unfold newest. by rewrite fold_left_app. Qed.

(** The order of transaction ids. *)
Lemma tid_ltb_trans a b c : TransactionId.ltb a b = true -> TransactionId.ltb b c = true -> TransactionId.ltb a c = true.
Proof. unfold TransactionId.ltb. zcase; try done; intros; lia. Qed.

Lemma tid_ltb_total a b : TransactionId.ltb a b = false -> TransactionId.ltb b a = false -> a = b.
Proof.
  destruct a as [ea ta], b as [eb tb]. unfold TransactionId.ltb. cbn.
  zcase; intros; try done; f_equal; lia.
Qed.

Lemma tid_ltb_irrefl a : TransactionId.ltb a a = false.
Proof. unfold TransactionId.ltb. zcase; try done; lia. Qed.

(** [newest] is an element that no other one is newer than. *)
Lemma newest_Some {A} (l : list (TransactionId.t * A)) v : newest l = Some v ->
  v ∈ l ∧ ∀ w, w ∈ l -> TransactionId.ltb v.1 w.1 = false.
Proof.
  revert v. induction l as [|w l IH] using rev_ind; intros v; [done|]. rewrite newest_snoc.
  destruct (newest l) as [u|] eqn:E.
  - destruct (IH u eq_refl) as [Hu Hmax]. destruct (TransactionId.ltb u.1 w.1) eqn:Hlt; intros [= <-].
    + split; [apply elem_of_app; right; apply list_elem_of_here|].
      intros x [Hx|Hx%list_elem_of_singleton]%elem_of_app; [|subst; apply tid_ltb_irrefl].
      destruct (TransactionId.ltb w.1 x.1) eqn:Hwx; [|done].
      rewrite <- (Hmax x Hx). symmetry. by eapply tid_ltb_trans.
    + split; [apply elem_of_app; by left|]. intros x [Hx| ->%list_elem_of_singleton]%elem_of_app; auto.
  - intros [= <-]. assert (l = []) as ->; [|split; [apply list_elem_of_here|]].
    { destruct l as [|x l] using rev_ind; [done|]. rewrite newest_snoc in E. by destruct (newest l); [case_match|]. }
    intros x ->%list_elem_of_singleton. apply tid_ltb_irrefl.
Qed.

Lemma newest_None {A} (l : list (TransactionId.t * A)) : newest l = None <-> l = [].
Proof.
  split; [|by intros ->]. destruct l as [|x l] using rev_ind; [done|]. rewrite newest_snoc.
  destruct (newest l); [by case_match|done].
Qed.

(** ** What the log says *)

(** The writes of a row, and the operations on a posting. *)
Definition row_writes (tn k : bytestring) (ps : list LogRecord.KeyValuePair) : list (TransactionId.t * bytestring) :=
  map (fun p => (LogRecord.tid p, LogRecord.buffer p))
    (List.filter (fun p => negb (is_secondary_index p) && str_eqb (LogRecord.table_name p) tn &&
                           str_eqb (LogRecord.key p) k) ps).

Definition ops_of (p : LogRecord.KeyValuePair) : list (SecondaryOpKey * (TransactionId.t * Z)) :=
  if is_secondary_index p then
    if LogRecord.secondary_op p =? LogEntry.code OpFull
    then map (fun pk => ((group_key p, pk), (LogRecord.tid p, LogEntry.code OpAdd))) (LogRecord.primary_keys p)
    else match LogRecord.secondary_primary_key p with
         | [] => []
         | pk => [((group_key p, pk), (LogRecord.tid p, LogRecord.secondary_op p))]
         end
  else [].

Definition posting_ops (k : SecondaryOpKey) (ps : list LogRecord.KeyValuePair) : list (TransactionId.t * Z) :=
  map snd (List.filter (fun e => bool_decide (e.1 = k)) (concat (map ops_of ps))).

(** A primary key belongs to a posting list. *)
Definition posted_in (ps : list LogRecord.KeyValuePair) (g : SecondaryGroupKey) (pk : bytestring) : Prop :=
  ∃ tid, newest (posting_ops (g, pk) ps) = Some (tid, LogEntry.code OpAdd).

(** ** The fold *)

Record row_snapshot (tn k : bytestring) (w : TransactionId.t * bytestring) (s : Snapshot.t) : Prop := {
  rs_table : Snapshot.table_name s = tn;
  rs_key : Snapshot.key s = k;
  rs_index : Snapshot.index_name s = [];
  rs_tid : DataItem.transaction_id (Snapshot.data_item_copy s) = w.1;
  rs_value : DataBuffer.toString (DataItem.buffer (Snapshot.data_item_copy s)) = w.2;
  rs_buffer : DataBuffer.ok (DataItem.buffer (Snapshot.data_item_copy s));
  rs_tid_ok : TransactionId.ok w.1;
}.

Definition row_inv (ps : list LogRecord.KeyValuePair) (r : Replay.t) : Prop := ∀ tn k,
  match newest (row_writes tn k ps) with
  | None => primary_position r !! (tn, k) = None
  | Some w => ∃ i s, primary_position r !! (tn, k) = Some i ∧ recovery_set r !! i = Some s ∧ row_snapshot tn k w s
  end.

Record replay_inv (ps : list LogRecord.KeyValuePair) (r : Replay.t) : Prop := {
  ri_position : ∀ i s, recovery_set r !! i = Some s ->
    primary_position r !! (Snapshot.table_name s, Snapshot.key s) = Some i;
  ri_index : ∀ i s, recovery_set r !! i = Some s -> Snapshot.index_name s = [];
  ri_rows : row_inv ps r;
  ri_latest : ∀ k, secondary_latest r !! k = newest (posting_ops k ps);
}.

Lemma IsEmpty_zero tid : TransactionId.IsEmpty tid = true -> tid = TransactionId.zero.
Proof.
  destruct tid as [e t]. unfold TransactionId.IsEmpty. cbn. rewrite andb_true_iff, !Z.eqb_eq. by intros [-> ->].
Qed.

Lemma newer_not_empty a b : TransactionId.ok a -> TransactionId.ltb a b = true -> TransactionId.IsEmpty b = false.
Proof.
  intros [He Ht] Hlt. destruct (TransactionId.IsEmpty b) eqn:E; [|done]. apply IsEmpty_zero in E as ->.
  unfold TransactionId.ltb, is_u32 in *. cbn in Hlt. revert Hlt. zcase; try done; lia.
Qed.

Lemma default_value_ptr b : default [] (value_ptr b) = b.
Proof. by destruct b. Qed.

Lemma Reset_tid i v tid : TransactionId.IsEmpty tid = false ->
  DataItem.transaction_id (DataItem.Reset i v tid) = tid.
Proof. intros E. unfold DataItem.Reset. by rewrite E. Qed.

Lemma Reset_buffer i v tid : DataItem.buffer (DataItem.Reset i v tid) = DataBuffer.Reset (DataItem.buffer i) v.
Proof. unfold DataItem.Reset. by destruct (TransactionId.IsEmpty tid). Qed.

Lemma not_secondary_index p : is_secondary_index p = false -> LogRecord.index_name p = [].
Proof.
  unfold is_secondary_index. rewrite !orb_false_iff. intros ((((H & _) & _) & _) & _).
  apply negb_false_iff in H. by apply str_eqb_eq.
Qed.

Lemma new_row_snapshot p : is_secondary_index p = false -> TransactionId.ok (LogRecord.tid p) ->
  row_snapshot (LogRecord.table_name p) (LogRecord.key p) (LogRecord.tid p, LogRecord.buffer p) (new_row p).
Proof.
  intros Hp Hok. split; try done.
  - by apply not_secondary_index.
  - simpl. destruct (TransactionId.IsEmpty (LogRecord.tid p)) eqn:E.
    + unfold DataItem.Reset. rewrite E. simpl. symmetry. by apply IsEmpty_zero.
    + by apply Reset_tid.
  - simpl. rewrite Reset_buffer. apply payload_Reset.
  - simpl. rewrite Reset_buffer. apply Reset_ok. split; done.
Qed.

Lemma replace_row_snapshot tn k w p s : is_secondary_index p = false -> TransactionId.ok (LogRecord.tid p) ->
  row_snapshot tn k w s -> LogRecord.table_name p = tn -> TransactionId.ltb w.1 (LogRecord.tid p) = true ->
  row_snapshot tn k (LogRecord.tid p, LogRecord.buffer p) (replace_row p s).
Proof.
  intros Hp Hok [H1 H2 H3 H4 H5 H6 H7] Htn Hlt. split; try done.
  - by apply not_secondary_index.
  - simpl. apply Reset_tid. by eapply newer_not_empty.
  - simpl. rewrite Reset_buffer. unfold DataBuffer.toString. by rewrite payload_Reset, default_value_ptr.
  - simpl. rewrite Reset_buffer. by apply Reset_ok.
Qed.

(** ** One pair more *)

Lemma row_writes_snoc tn k ps p : row_writes tn k (ps ++ [p]) =
  row_writes tn k ps ++
    (if negb (is_secondary_index p) && str_eqb (LogRecord.table_name p) tn && str_eqb (LogRecord.key p) k
     then [(LogRecord.tid p, LogRecord.buffer p)] else []).
Proof. unfold row_writes. rewrite List.filter_app, map_app. simpl. by destruct (_ && _ && _). Qed.

Lemma posting_ops_snoc k ps p : posting_ops k (ps ++ [p]) =
  posting_ops k ps ++ map snd (List.filter (fun e => bool_decide (e.1 = k)) (ops_of p)).
Proof. unfold posting_ops. rewrite map_app, concat_app, List.filter_app, map_app. simpl. by rewrite app_nil_r. Qed.

(** A row not written by the pair. *)
Lemma row_writes_other tn k ps p : is_secondary_index p = true ∨ (LogRecord.table_name p, LogRecord.key p) <> (tn, k) ->
  row_writes tn k (ps ++ [p]) = row_writes tn k ps.
Proof.
  intros Hp. rewrite row_writes_snoc. destruct (_ && _ && _) eqn:E; [|by rewrite app_nil_r].
  apply andb_prop in E as [[E1 E2%str_eqb_eq]%andb_prop E3%str_eqb_eq]. apply negb_true_iff in E1.
  destruct Hp as [Hp|Hp]; [congruence|]. by rewrite E2, E3 in Hp.
Qed.

Lemma row_writes_same ps p : is_secondary_index p = false ->
  row_writes (LogRecord.table_name p) (LogRecord.key p) (ps ++ [p]) =
  row_writes (LogRecord.table_name p) (LogRecord.key p) ps ++ [(LogRecord.tid p, LogRecord.buffer p)].
Proof. intros Hp. rewrite row_writes_snoc, Hp, !(proj2 (str_eqb_eq _ _)); done. Qed.

Lemma fold_op_latest (k k' : SecondaryOpKey) (tid : TransactionId.t) (op : Z) (m : gmap SecondaryOpKey (TransactionId.t * Z)) l :
  m !! k' = newest l -> fold_op k tid op m !! k' = newest (l ++ (if bool_decide (k = k') then [(tid, op)] else [])).
Proof.
  intros Hm. unfold fold_op. destruct (decide (k = k')) as [->|Hne].
  - rewrite bool_decide_eq_true_2 by done. rewrite newest_snoc, Hm. destruct (newest l) as [[t o]|]; simpl.
    + destruct (TransactionId.ltb t tid); [by rewrite lookup_insert_eq|done].
    + by rewrite lookup_insert_eq.
  - rewrite bool_decide_eq_false_2, app_nil_r by done. destruct (m !! k) as [[t o]|]; [|by rewrite lookup_insert_ne].
    destruct (TransactionId.ltb t tid); [by rewrite lookup_insert_ne|done].
Qed.

Lemma fold_ops_latest (g : SecondaryGroupKey) (tid : TransactionId.t) (op : Z) (pks : list bytestring) (m : gmap SecondaryOpKey (TransactionId.t * Z)) (k : SecondaryOpKey) l : m !! k = newest l ->
  fold_left (fun m pk => fold_op (g, pk) tid op m) pks m !! k =
  newest (l ++ map snd (List.filter (fun e => bool_decide (e.1 = k)) (map (fun pk => ((g, pk), (tid, op))) pks))).
Proof.
  revert m l. induction pks as [|pk pks IH]; intros m l Hm; simpl; [by rewrite app_nil_r|].
  rewrite (IH _ _ (fold_op_latest (g, pk) k tid op m l Hm)). f_equal. rewrite <- app_assoc. f_equal.
  by destruct (bool_decide _).
Qed.

Lemma fold_secondary_latest (p : LogRecord.KeyValuePair) (m : gmap SecondaryOpKey (TransactionId.t * Z)) (k : SecondaryOpKey) (ps : list LogRecord.KeyValuePair) : is_secondary_index p = true ->
  m !! k = newest (posting_ops k ps) -> fold_secondary p m !! k = newest (posting_ops k (ps ++ [p])).
Proof.
  intros Hp Hm. rewrite posting_ops_snoc. unfold fold_secondary, ops_of. rewrite Hp.
  destruct (_ =? _); [by apply fold_ops_latest|].
  destruct (LogRecord.secondary_primary_key p) as [|x pk]; [by rewrite app_nil_r|].
  rewrite (fold_op_latest _ _ _ _ _ _ Hm). simpl. by destruct (bool_decide _).
Qed.

Lemma ops_of_row p : is_secondary_index p = false -> ops_of p = [].
Proof. intros H. unfold ops_of. by rewrite H. Qed.

Lemma posting_ops_row k ps p : is_secondary_index p = false -> posting_ops k (ps ++ [p]) = posting_ops k ps.
Proof. intros H. rewrite posting_ops_snoc, ops_of_row by done. apply app_nil_r. Qed.

(** A new row. *)
Lemma fold_new_row ps r p : replay_inv ps r -> is_secondary_index p = false -> TransactionId.ok (LogRecord.tid p) ->
  primary_position r !! (LogRecord.table_name p, LogRecord.key p) = None ->
  replay_inv (ps ++ [p]) (mk (secondary_latest r) (recovery_set r ++ [new_row p])
    (<[(LogRecord.table_name p, LogRecord.key p) := length (recovery_set r)]> (primary_position r))).
Proof.
  intros [Hpos Hidx Hrows Hlat] Hp Hok Hnone. split; simpl.
  - intros i s [Hs|[Hge Hs]]%lookup_app_Some.
    + pose proof (Hpos i s Hs) as Hi. rewrite lookup_insert_ne; [done|]. intros E. rewrite E in Hnone. congruence.
    + apply list_lookup_singleton_Some in Hs as [Hi <-]. simpl. rewrite lookup_insert_eq. f_equal. lia.
  - intros i s [Hs|[Hge Hs]]%lookup_app_Some; [by eapply Hidx|].
    apply list_lookup_singleton_Some in Hs as [Hi <-]. by apply not_secondary_index.
  - intros tn k. simpl. destruct (decide ((LogRecord.table_name p, LogRecord.key p) = (tn, k))) as [[= <- <-]|Hne].
    + rewrite row_writes_same by done. specialize (Hrows (LogRecord.table_name p) (LogRecord.key p)).
      rewrite newest_snoc. destruct (newest _) as [w|].
      { destruct Hrows as (i & s & Hi & _). congruence. }
      eexists _, _. split; [apply lookup_insert_eq|]. split; [by apply list_lookup_middle|by apply new_row_snapshot].
    + rewrite row_writes_other by (by right). specialize (Hrows tn k).
      destruct (newest _) as [w|]; [|by rewrite lookup_insert_ne].
      destruct Hrows as (i & s & Hi & Hs & Hw). exists i, s. rewrite lookup_insert_ne by done.
      split; [done|]. split; [by apply lookup_app_l_Some|done].
  - intros k. by rewrite posting_ops_row.
Qed.

(** A row written again. *)
Lemma fold_replace_row ps r p i s w : replay_inv ps r -> is_secondary_index p = false ->
  TransactionId.ok (LogRecord.tid p) -> recovery_set r !! i = Some s ->
  newest (row_writes (LogRecord.table_name p) (LogRecord.key p) ps) = Some w ->
  primary_position r !! (LogRecord.table_name p, LogRecord.key p) = Some i ->
  row_snapshot (LogRecord.table_name p) (LogRecord.key p) w s -> TransactionId.ltb w.1 (LogRecord.tid p) = true ->
  replay_inv (ps ++ [p]) (mk (secondary_latest r) (<[i := replace_row p s]> (recovery_set r)) (primary_position r)).
Proof.
  intros [Hpos Hidx Hrows Hlat] Hp Hok Hs Hn Hi Hw Hlt. pose proof (lookup_lt_Some _ _ _ Hs) as Hlen.
  pose proof Hw as [Ht Hk _ _ _ _ _]. split; simpl.
  - intros j s' Hj. destruct (decide (i = j)) as [->|Hne].
    + rewrite list_lookup_insert_eq in Hj by done. injection Hj as <-. simpl. by rewrite Hk.
    + rewrite list_lookup_insert_ne in Hj by done. by apply Hpos.
  - intros j s' Hj. destruct (decide (i = j)) as [->|Hne].
    + rewrite list_lookup_insert_eq in Hj by done. injection Hj as <-. by apply not_secondary_index.
    + rewrite list_lookup_insert_ne in Hj by done. by eapply Hidx.
  - intros tn k. simpl. destruct (decide ((LogRecord.table_name p, LogRecord.key p) = (tn, k))) as [[= <- <-]|Hne].
    + rewrite row_writes_same, newest_snoc, Hn by done. simpl. rewrite Hlt. eexists _, _. split; [exact Hi|].
      split; [by apply list_lookup_insert_eq|]. by eapply replace_row_snapshot.
    + rewrite row_writes_other by (by right). specialize (Hrows tn k). destruct (newest _) as [w'|]; [|done].
      destruct Hrows as (j & s' & Hj & Hs' & Hw'). exists j, s'. split; [done|]. split; [|done].
      rewrite list_lookup_insert_ne; [done|]. intros ->. rewrite Hs in Hs'. injection Hs' as ->.
      destruct Hw' as [Ht' Hk' _ _ _ _ _]. apply Hne. congruence.
  - intros k. by rewrite posting_ops_row.
Qed.

Lemma fold_kvp_inv ps r p : replay_inv ps r -> TransactionId.ok (LogRecord.tid p) ->
  replay_inv (ps ++ [p]) (fold_kvp r p).
Proof.
  intros Hinv Hok. unfold fold_kvp. destruct (is_secondary_index p) eqn:Hp.
  { destruct Hinv as [Hpos Hidx Hrows Hlat]. split; try done.
    - intros tn k. rewrite row_writes_other by (by left). apply Hrows.
    - intros k. simpl. by apply fold_secondary_latest. }
  unfold fold_row. pose proof (ri_rows _ _ Hinv (LogRecord.table_name p) (LogRecord.key p)) as Hrow.
  destruct (newest (row_writes (LogRecord.table_name p) (LogRecord.key p) ps)) as [w|] eqn:En.
  - destruct Hrow as (i & s & Hi & Hs & Hw). rewrite Hi, Hs, (rs_tid _ _ _ _ Hw).
    destruct (TransactionId.ltb w.1 (LogRecord.tid p)) eqn:Hlt; [by eapply fold_replace_row|].
    destruct Hinv as [Hpos Hidx Hrows Hlat]. split; try done; [|intros k; by rewrite posting_ops_row].
    intros tn k. destruct (decide ((LogRecord.table_name p, LogRecord.key p) = (tn, k))) as [[= <- <-]|Hne].
    + rewrite row_writes_same, newest_snoc, En by done. simpl. rewrite Hlt. eauto.
    + rewrite row_writes_other by (by right). apply Hrows.
  - rewrite Hrow. by apply fold_new_row.
Qed.

Lemma replay_fold ps : Forall (fun p => TransactionId.ok (LogRecord.tid p)) ps ->
  replay_inv ps (fold_left fold_kvp ps start).
Proof.
  induction ps as [|p ps IH] using rev_ind; intros Hps.
  { split; try done. }
  apply Forall_app in Hps as [Hps Hp]. rewrite fold_left_app. simpl. apply fold_kvp_inv; [by apply IH|].
  by inversion Hp.
Qed.

(** ** Groups *)

(** The entries of a group among entries whose keys are distinct. *)
Definition additions (g : SecondaryGroupKey) (l : list (SecondaryOpKey * (TransactionId.t * Z))) : list bytestring :=
  map (fun e => e.1.2) (List.filter (fun e => bool_decide (e.1.1 = g) && (e.2.2 =? LogEntry.code OpAdd)) l).

Lemma additions_snoc g l e : additions g (l ++ [e]) =
  additions g l ++ (if bool_decide (e.1.1 = g) && (e.2.2 =? LogEntry.code OpAdd) then [e.1.2] else []).
Proof. unfold additions. rewrite List.filter_app, map_app. simpl. by destruct (_ && _). Qed.

Lemma fold_groups (g : SecondaryGroupKey) (l : list (SecondaryOpKey * (TransactionId.t * Z))) :
  snd <$> fold_left add_to_group l ∅ !! g =
  match additions g l with [] => None | pks => Some pks end.
Proof.
  induction l as [|[[g' pk] [tid op]] l IH] using rev_ind; [done|].
  rewrite fold_left_app, additions_snoc. cbn -[LogEntry.code]. destruct (op =? LogEntry.code OpAdd).
  2: { rewrite andb_false_r, app_nil_r. exact IH. }
  rewrite andb_true_r. destruct (decide (g' = g)) as [->|Hne].
  - rewrite bool_decide_eq_true_2 by done. destruct (fold_left add_to_group l ∅ !! g) as [[mt pks]|] eqn:E;
      simpl; rewrite lookup_insert_eq; simpl in *.
    + destruct (additions g l); [done|]. by injection IH as ->.
    + by destruct (additions g l).
  - rewrite bool_decide_eq_false_2, app_nil_r by done.
    destruct (default _ _) as [mt pks]. by rewrite lookup_insert_ne.
Qed.

Lemma elem_of_additions (m : gmap SecondaryOpKey (TransactionId.t * Z)) g pk l : l ≡ₚ map_to_list m ->
  pk ∈ additions g l <-> ∃ tid, m !! (g, pk) = Some (tid, LogEntry.code OpAdd).
Proof.
  intros Hl. unfold additions. rewrite list_elem_of_fmap. split.
  - intros ([[g' pk'] [tid op]] & -> & Hin). apply list_elem_of_In, filter_In in Hin as [Hin Hb]. simpl in *.
    apply andb_prop in Hb as [->%bool_decide_eq_true Hop%Z.eqb_eq]. exists tid.
    apply list_elem_of_In in Hin. rewrite Hl in Hin. apply elem_of_map_to_list in Hin. by rewrite <- Hop.
  - intros [tid Hm]. exists ((g, pk), (tid, LogEntry.code OpAdd)). split; [done|].
    apply list_elem_of_In, filter_In. split; [|simpl; by rewrite bool_decide_eq_true_2].
    apply list_elem_of_In. rewrite Hl. by apply elem_of_map_to_list.
Qed.

(** ** Posting snapshots *)

Record posting_snapshot_of (g : SecondaryGroupKey) (member : bytestring -> Prop) (s : Snapshot.t) : Prop := {
  ps_table : Snapshot.table_name s = g.1.1.1;
  ps_index : Snapshot.index_name s = g.1.1.2;
  ps_unique : Snapshot.index_type_unique s = LogEntry.IsUnique g.1.2;
  ps_key : Snapshot.key s = g.2;
  ps_value : DataItem.IsPrimaryInitialized (Snapshot.data_item_copy s) = false;
  ps_keys : ∃ ks, item_keys (Snapshot.data_item_copy s) ks ∧ ks <> [] ∧ ∀ pk, pk ∈ ks <-> member pk;
}.

Lemma Reset_primary_keys i v tid : DataItem.primary_keys_ (DataItem.Reset i v tid) = DataItem.primary_keys_ i.
Proof. unfold DataItem.Reset. by destruct (TransactionId.IsEmpty tid). Qed.

Lemma posting_snapshot_spec g tid pks s : Forall string_ok pks -> pks <> [] ->
  posting_snapshot (g, (tid, pks)) = Returns s -> posting_snapshot_of g (fun pk => pk ∈ pks) s.
Proof.
  destruct g as [[[tn ix] ty] k]. intros Hok Hne. unfold posting_snapshot, DataItem.SetPrimaryKeys.
  assert (∀ x, x ∈ std_unique (std_sort pks) <-> x ∈ pks) as Hel
    by (intros x; by rewrite elem_of_std_unique, elem_of_std_sort).
  assert (Forall string_ok (std_unique (std_sort pks))) as Hok'.
  { apply Forall_forall. intros x Hx. apply (proj1 (Forall_forall _ _) Hok). by apply Hel. }
  pose proof (FromSortedDeduped_spec _ Hok' (std_unique_ascending _ (std_sort_ascending pks))) as Hp.
  destruct (zlen _ <=? UINT32_MAX); [|by destruct Hp as [f ->]].
  destruct Hp as (p & -> & Hr & _). simpl. intros [= <-]. split; try done.
  - unfold DataItem.IsPrimaryInitialized. simpl. by rewrite Reset_buffer.
  - exists (std_unique (std_sort pks)). split; [unfold item_keys; simpl; by rewrite Reset_primary_keys|].
    split; [|exact Hel]. intros E. apply Hne. destruct pks as [|x pks']; [done|].
    assert (x ∈ std_unique (std_sort (x :: pks'))) as Hx by (apply Hel; apply list_elem_of_here).
    rewrite E in Hx. by apply elem_of_nil in Hx.
Qed.

Lemma posting_snapshots_spec l r : Forall (fun e => snd (snd e) <> [] ∧ Forall string_ok (snd (snd e))) l ->
  posting_snapshots l = Returns r ->
  Forall2 (fun e s => posting_snapshot_of e.1 (fun pk => pk ∈ snd (snd e)) s) l r.
Proof.
  intros Hl. revert r. induction Hl as [|[g [tid pks]] l [Hne Hok] Hl IH]; intros r; cbn [posting_snapshots snd].
  { intros [= <-]. constructor. }
  simpl in Hne. destruct pks as [|pk pks]; [done|].
  destruct (posting_snapshot (g, (tid, pk :: pks))) as [s|] eqn:Es; [|done]. simpl.
  destruct (posting_snapshots l) as [r'|]; [|done]. simpl. intros [= <-].
  constructor; [|by apply IH]. by eapply (posting_snapshot_spec g tid).
Qed.

(** ** What recovery replays *)

(** The set holds, for every row with a write, one entry with its newest write,
    and for every posting list that is not empty one entry with the primary
    keys whose newest operation is an addition. *)
Definition recovered (ps : list LogRecord.KeyValuePair) (set : list Snapshot.t) : Prop :=
  ∃ rows postings gs, set = rows ++ postings ∧
    NoDup (map (fun s => (Snapshot.table_name s, Snapshot.key s)) rows) ∧
    (∀ tn k, match newest (row_writes tn k ps) with
             | None => (tn, k) ∉ map (fun s => (Snapshot.table_name s, Snapshot.key s)) rows
             | Some w => ∃ s, s ∈ rows ∧ row_snapshot tn k w s
             end) ∧
    Forall (fun s => Snapshot.index_name s = []) rows ∧
    NoDup gs ∧ (∀ g, g ∈ gs <-> ∃ pk, posted_in ps g pk) ∧
    Forall2 (fun g s => posting_snapshot_of g (posted_in ps g) s) gs postings.

Lemma posting_snapshot_of_iff g P Q s : (∀ pk, P pk <-> Q pk) -> posting_snapshot_of g P s -> posting_snapshot_of g Q s.
Proof.
  intros HPQ [H1 H2 H3 H4 H5 (ks & Hk & Hne & Hm)]. split; try done. exists ks. split; [done|]. split; [done|].
  intros pk. by rewrite Hm.
Qed.

(** The fields of a pair are values of their types. *)
Definition pair_ok (p : LogRecord.KeyValuePair) : Prop :=
  TransactionId.ok (LogRecord.tid p) ∧ Forall string_ok (LogRecord.primary_keys p) ∧
  string_ok (LogRecord.secondary_primary_key p).

Lemma ops_of_ok p e : pair_ok p -> e ∈ ops_of p -> string_ok e.1.2.
Proof.
  intros (_ & Hpks & Hpk) He. unfold ops_of in He. destruct (is_secondary_index p); [|by apply elem_of_nil in He].
  destruct (_ =? _).
  - apply list_elem_of_fmap in He as (pk & -> & Hin). by apply (proj1 (Forall_forall _ _) Hpks).
  - destruct (LogRecord.secondary_primary_key p); [by apply elem_of_nil in He|].
    apply list_elem_of_singleton in He as ->. done.
Qed.

Lemma posted_in_ok ps g pk : Forall pair_ok ps -> posted_in ps g pk -> string_ok pk.
Proof.
  intros Hps [tid Hn]. apply newest_Some in Hn as [Hin _]. unfold posting_ops in Hin.
  apply list_elem_of_fmap in Hin as (e & _ & He). apply list_elem_of_In, filter_In in He as [He Hk].
  apply bool_decide_eq_true in Hk. apply in_concat in He as (l & Hl%list_elem_of_In & He%list_elem_of_In).
  apply list_elem_of_fmap in Hl as (p & -> & Hp).
  pose proof (ops_of_ok p e (proj1 (Forall_forall _ _) Hps p Hp) He) as Hok. by rewrite Hk in Hok.
Qed.

Section replay.
Variable latest_order : list (SecondaryOpKey * (TransactionId.t * Z)) -> list (SecondaryOpKey * (TransactionId.t * Z)).
Variable group_order : list (SecondaryGroupKey * (TransactionId.t * list bytestring)) ->
  list (SecondaryGroupKey * (TransactionId.t * list bytestring)).
Hypothesis latest_order_perm : ∀ l, latest_order l ≡ₚ l.
Hypothesis group_order_perm : ∀ l, group_order l ≡ₚ l.

Lemma grouped_lookup ps m (g : SecondaryGroupKey) : (∀ k, m !! k = newest (posting_ops k ps)) ->
  match grouped_secondary latest_order m !! g with
  | None => ∀ pk, ¬ posted_in ps g pk
  | Some (tid, pks) => pks <> [] ∧ ∀ pk, pk ∈ pks <-> posted_in ps g pk
  end.
Proof.
  intros Hm. assert (∀ pk, pk ∈ additions g (latest_order (map_to_list m)) <-> posted_in ps g pk) as Hadd.
  { intros pk. rewrite (elem_of_additions m) by apply latest_order_perm. unfold posted_in. by rewrite Hm. }
  pose proof (fold_groups g (latest_order (map_to_list m))) as Hg. unfold grouped_secondary.
  destruct (fold_left _ _ _ !! g) as [[tid pks]|]; simpl in Hg.
  - destruct (additions g _) as [|x l] eqn:E; [done|]. injection Hg as ->. split; [done|]. intros pk. by rewrite <- (Hadd pk).
  - destruct (additions g _) as [|x l] eqn:E; [|done]. intros pk Hpk. apply Hadd in Hpk. by apply elem_of_nil in Hpk.
Qed.

Lemma postings_recovered ps m postings : Forall pair_ok ps -> (∀ k, m !! k = newest (posting_ops k ps)) ->
  posting_snapshots (group_order (map_to_list (grouped_secondary latest_order m))) = Returns postings ->
  ∃ gs, NoDup gs ∧ (∀ g, g ∈ gs <-> ∃ pk, posted_in ps g pk) ∧
    Forall2 (fun g s => posting_snapshot_of g (posted_in ps g) s) gs postings.
Proof.
  intros Hps Hlat. set (groups := group_order _).
  assert (∀ g tid pks, (g, (tid, pks)) ∈ groups <-> grouped_secondary latest_order m !! g = Some (tid, pks)) as Hgr.
  { intros g tid pks. unfold groups. rewrite group_order_perm. apply elem_of_map_to_list. }
  assert (∀ g tid pks, (g, (tid, pks)) ∈ groups -> pks <> [] ∧ ∀ pk, pk ∈ pks <-> posted_in ps g pk) as Hmem.
  { intros g tid pks Hin%Hgr. pose proof (grouped_lookup ps m g Hlat) as Hg. by rewrite Hin in Hg. }
  assert (Forall (fun e => snd (snd e) <> [] ∧ Forall string_ok (snd (snd e))) groups) as Hok.
  { apply Forall_forall. intros [g [tid pks]] Hin. destruct (Hmem g tid pks Hin) as [Hne Hel]. split; [done|].
    apply Forall_forall. intros pk Hpk. eapply posted_in_ok; [done|by apply Hel]. }
  intros Ep. pose proof (posting_snapshots_spec _ _ Hok Ep) as Hf. exists (map fst groups). split; [|split].
  - unfold groups. rewrite group_order_perm. apply NoDup_fst_map_to_list.
  - intros g. rewrite list_elem_of_fmap. split.
    + intros ([g' [tid pks]] & -> & Hin). destruct (Hmem g' tid pks Hin) as [Hne Hel].
      destruct pks as [|pk pks]; [done|]. exists pk. apply Hel, list_elem_of_here.
    + intros [pk Hpk]. pose proof (grouped_lookup ps m g Hlat) as Hg.
      destruct (grouped_secondary _ m !! g) as [[tid pks]|] eqn:E; [|by destruct (Hg pk)].
      exists (g, (tid, pks)). split; [done|by apply Hgr].
  - apply Forall2_fmap_l. apply Forall2_same_length_lookup in Hf as [Hlen Hf].
    apply Forall2_same_length_lookup. split; [done|].
    intros i [g [tid pks]] s Hg Hs. simpl. eapply posting_snapshot_of_iff; [|exact (Hf i _ _ Hg Hs)].
    apply (Hmem g tid pks). by eapply list_elem_of_lookup_2.
Qed.

Lemma BuildRecoverySet_spec image tail set : Forall pair_ok (pairs image ++ pairs tail) ->
  BuildRecoverySet latest_order group_order image tail = Returns set -> recovered (pairs image ++ pairs tail) set.
Proof.
  set (ps := pairs image ++ pairs tail). intros Hps. unfold BuildRecoverySet. fold ps.
  assert (replay_inv ps (fold_left fold_kvp ps start)) as [Hpos Hidx Hrows Hlat].
  { apply replay_fold. apply (Forall_impl _ _ _ Hps). by intros p (? & _). }
  set (r := fold_left fold_kvp ps start) in *.
  destruct (posting_snapshots _) as [postings|] eqn:Ep; [|done]. simpl. intros [= <-].
  destruct (postings_recovered ps _ postings Hps Hlat Ep) as (gs & Hgs). exists (recovery_set r), postings, gs.
  split; [done|]. split; [|split; [|split; [|exact Hgs]]].
  - apply NoDup_alt. intros i j x Hi Hj. rewrite list_lookup_fmap in Hi, Hj.
    apply fmap_Some in Hi as (s & Hs & ->). apply fmap_Some in Hj as (s' & Hs' & E).
    apply Hpos in Hs. apply Hpos in Hs'. rewrite E, Hs' in Hs. by injection Hs.
  - intros tn k. specialize (Hrows tn k). destruct (newest _) as [w|].
    + destruct Hrows as (i & s & Hi & Hs & Hw). exists s. split; [by eapply list_elem_of_lookup_2|done].
    + intros (s & E & [i Hs]%list_elem_of_lookup)%list_elem_of_fmap. apply Hpos in Hs. rewrite <- E in Hs. congruence.
  - apply Forall_forall. intros s [i Hs]%list_elem_of_lookup. by eapply Hidx.
Qed.

End replay.
