(* ===== verification/Checkpoint.v ===== *)
(** * Checkpoint images (src/src/recovery/epoch_scan_checkpoint.h,
    epoch_scan_checkpoint.cpp)

    The file format of an image ([Publish] writes it, [Load] reads it back) and
    the sequence of system calls by which [Publish] replaces the image of a
    directory.  The theorems show that a published image loads as it was, that
    whatever a crash during [Publish] leaves is the previous image or the new
    one, complete, and what a capture of a row or of a posting list takes.

    The system calls take their outcomes from an oracle, as the log's do.  Not
    modelled: the threads that wait between images, the statistics about time,
    and the exhaustion of memory. *)

From stdpp Require Import strings.
From S2P Require Import Prelude PackedKeys Crc32c Types WalDevice Wal WalFrames DataItem LogReplay.

Module EpochScanCheckpoint.

Definition kMagic : Z := 0x504b434c.
Definition kVersion : Z := 2.
Definition kFlags : Z := 0.
Definition kHeaderSize : Z := 56.
Definition kSpinAttempts : nat := 64.
Definition kRetryRounds : nat := 200.

(** ** Little-endian fields *)

Definition PutLe64 (v : Z) : bytestring := map (fun i => Z.land (Z.shiftr v (8 * i)) 0xff) (seqZ 0 8).

(** The argument is the buffer from the pointer on. *)
Definition GetLe64 (l : bytestring) : Z :=
  fold_left (fun value i => Z.lor value (u64 (Z.shiftl (nth (Z.to_nat i) l 0) (8 * i)))) (seqZ 0 8) 0.

(** ** System calls *)

Definition ENOENT : Z := 2.

(** [WriteAll]: whether all the data was written, and what was. *)
Fixpoint WriteAll_loop (orc : list io_outcome) (data : bytestring) : bool * bytestring * list io_outcome :=
  match data with
  | [] => (true, [], orc)
  | _ :: _ =>
      match orc with
      | [] => (true, data, [])
      | IoMoved n :: orc' =>
          let written := moved n (zlen data) in
          if 0 <? written
          then let '(ok, rest, orc'') := WriteAll_loop orc' (drop (Z.to_nat written) data) in
               (ok, take (Z.to_nat written) data ++ rest, orc'')
          else (false, [], orc')
      | IoFailed e :: orc' => if e =? EINTR then WriteAll_loop orc' data else (false, [], orc')
      end
  end.

(** [ReadAll]. *)
Fixpoint ReadAll_loop (orc : list io_outcome) (c : bytestring) (size offset : Z) (out : bytestring)
    : option bytestring * list io_outcome :=
  if size =? 0 then (Some out, orc) else
  match orc with
  | [] =>
      let got := moved (zlen c - offset) size in
      if got =? size then (Some (out ++ slice offset size c), []) else (None, [])
  | IoMoved n :: orc' =>
      let got := moved n (moved (zlen c - offset) size) in
      if 0 <? got
      then ReadAll_loop orc' c (size - got) (offset + got) (out ++ slice offset got c)
      else (None, orc')
  | IoFailed e :: orc' => if e =? EINTR then ReadAll_loop orc' c size offset out else (None, orc')
  end.

Definition ReadAll (d : Device) (size offset : Z) : option bytestring * Device :=
  let '(r, orc) := ReadAll_loop (oracle d) (content d) size offset [] in
  (r, mkDevice (content d) (durable d) orc).

(** ** The image *)

Record Stats := mkStats {
  generation : Z;
  cut_epoch : Z;
  end_epoch : Z;
  wal_frontier_at_publish : Z;
  primary_rows : Z;
  secondary_entries : Z;
  retries : Z;
}.

Inductive Status : Type := Ok | Absent | Unusable.

Record Image := mkImage {
  status : Status;
  img_cut_epoch : Z;
  img_end_epoch : Z;
  img_wal_frontier_at_publish : Z;
  records : LogRecords;
  detail : string;
}.

(** [Crc32c crc; crc.Update(header, 52); crc.Update(payload); crc.Finish()]. *)
Definition image_crc (header payload : bytestring) : Z :=
  Finish (UpdateWithTable (UpdateWithTable initial_state (take 52 header)) payload).

(** The header of [Publish] up to its checksum. *)
Definition header52 (stats : Stats) (payload : bytestring) : bytestring :=
  PutLe32 kMagic ++ PutLe16 kVersion ++ PutLe16 kFlags ++ PutLe64 (generation stats) ++
  PutLe32 (cut_epoch stats) ++ PutLe32 (end_epoch stats) ++ PutLe32 (wal_frontier_at_publish stats) ++
  PutLe64 (primary_rows stats) ++ PutLe64 (secondary_entries stats) ++ PutLe64 (zlen payload).

Definition header (stats : Stats) (payload : bytestring) : bytestring :=
  header52 stats payload ++ PutLe32 (image_crc (header52 stats payload) payload).

(** The keys of a secondary entry: index and key. *)
Abbreviation EntryKey := (bytestring * bytestring)%type.

Section images.
Context {MP : MsgPack}.

Definition image_bytes (stats : Stats) (rs : LogRecords) : bytestring :=
  header stats (pack rs) ++ pack rs.

Definition unusable (why : string) : Image := mkImage Unusable 0 0 0 [] why.

(** The [try] block of [Load] behind the payload. *)
Definition LoadPayload (h payload : bytestring) : Image :=
  if negb (image_crc h payload =? GetLe32 (drop 52 h)) then unusable "the image checksum does not hold"
  else match unpack payload with
       | None => unusable "the image payload does not decode"
       | Some (decoded, consumed) =>
           if negb (consumed =? zlen payload) then unusable "the image payload has trailing bytes"
           else mkImage Ok (GetLe32 (drop 16 h)) (GetLe32 (drop 20 h)) (GetLe32 (drop 24 h)) decoded ""
       end.

(** [Load] behind the header. *)
Definition LoadHeader (size : Z) (h : bytestring) (d : Device) : Image :=
  if negb (GetLe32 h =? kMagic) then unusable "the image magic disagrees"
  else if negb (GetLe16 (drop 4 h) =? kVersion) then unusable "the image version is not supported"
  else if negb (GetLe16 (drop 6 h) =? kFlags) then unusable "the image carries unknown flags"
  else if negb (GetLe64 (drop 44 h) =? u64 (size - kHeaderSize))
  then unusable "the image length disagrees with its header"
  else if (GetLe32 (drop 16 h) =? 0) || (GetLe32 (drop 20 h) <? GetLe32 (drop 16 h))
  then unusable "the image epochs are not in order"
  else if GetLe64 (drop 44 h) =? 0 then LoadPayload h []
  else match ReadAll d (GetLe64 (drop 44 h)) kHeaderSize with
       | (None, _) => unusable "the image payload cannot be read"
       | (Some payload, _) => LoadPayload h payload
       end.

(** [Load] on the file, or on the error of [open]. *)
Definition Load (file : Device + Z) : Image :=
  match file with
  | inr e => mkImage (if e =? ENOENT then Absent else Unusable) 0 0 0 [] "open"
  | inl d =>
      match fstat d with
      | (inr _, _) => unusable "the image cannot be sized"
      | (inl size, d) =>
          if size <? kHeaderSize then unusable "the image is shorter than its header"
          else match ReadAll d kHeaderSize 0 with
               | (None, _) => unusable "the image header cannot be read"
               | (Some h, d) => LoadHeader size h d
               end
      end
  end.

(** ** Capturing *)

Inductive Capture : Type := Taken (kvp : LogRecord.KeyValuePair) | Skipped | Unstable.

(** What one attempt on a row loads: the version, whether a value is there, its
    bytes, and the version again. *)
Record RowView := mkRowView { row_first : TransactionId.t; row_initialized : bool; row_bytes : bytestring; row_again : TransactionId.t }.

Record EntryView := mkEntryView { entry_first : TransactionId.t; entry_keys : PackedPrimaryKeys.Ptr; entry_again : TransactionId.t }.

(** [first.tid & 1u]. *)
Definition locked (tid : TransactionId.t) : bool := negb (Z.land (TransactionId.tid tid) 1 =? 0).

(** [kSpinAttempts] rounds of an attempt that ends or is tried again; also the
    number of retries. *)
Fixpoint spin {V} (attempt_on : V -> option Capture) (fuel : nat) (views : nat -> V) (attempt : nat) (retries : Z) : Capture * Z :=
  match fuel with
  | O => (Unstable, retries)
  | S f =>
      match attempt_on (views attempt) with
      | Some c => (c, retries)
      | None => spin attempt_on f views (S attempt) (retries + 1)
      end
  end.

Definition row_kvp (table_name key : bytestring) (v : RowView) : LogRecord.KeyValuePair :=
  LogRecord.mkKVP key (row_bytes v) (row_first v) table_name [] 0 [] (LogEntry.code OpNone) [].

Definition row_attempt (table_name key : bytestring) (v : RowView) : option Capture :=
  if locked (row_first v) then None
  else if negb (row_initialized v) then
    if TransactionId.eqb (row_again v) (row_first v) then Some Skipped else None
  else if TransactionId.neqb (row_again v) (row_first v) then None
  else Some (Taken (row_kvp table_name key v)).

Definition CapturePrimaryRow (table_name key : bytestring) (views : nat -> RowView) (retries : Z) : Capture * Z :=
  spin (row_attempt table_name key) kSpinAttempts views 0 retries.

Definition entry_kvp (table_name index_name : bytestring) (index_type : Z) (key : bytestring) (v : EntryView)
    : LogRecord.KeyValuePair :=
  LogRecord.mkKVP key [] (entry_first v) table_name index_name index_type
    (PackedPrimaryKeysView.primary_keys_vector (entry_keys v)) (LogEntry.code OpFull) [].

Definition entry_attempt (table_name index_name : bytestring) (index_type : Z) (key : bytestring) (v : EntryView)
    : option Capture :=
  if locked (entry_first v) then None
  else if TransactionId.neqb (entry_again v) (entry_first v) then None
  else if PackedPrimaryKeysView.empty (entry_keys v) then Some Skipped
  else Some (Taken (entry_kvp table_name index_name index_type key v)).

Definition CaptureSecondaryEntry (table_name index_name : bytestring) (index_type : Z) (key : bytestring)
    (views : nat -> EntryView) (retries : Z) : Capture * Z :=
  spin (entry_attempt table_name index_name index_type key) kSpinAttempts views 0 retries.

(** *** A table *)

(** One pass of captures over keys: the pairs taken, the keys left unstable,
    the retries.  The walk of an index and a round of the retry loop are such
    passes; a key that is gone has no capture. *)
Fixpoint pass {K} (capture : K -> option (Z -> Capture * Z)) (keys : list K) (retries : Z)
    : list LogRecord.KeyValuePair * list K * Z :=
  match keys with
  | [] => ([], [], retries)
  | k :: keys' =>
      match capture k with
      | None => pass capture keys' retries
      | Some run =>
          let '(c, retries') := run retries in
          let '(taken, rest, r) := pass capture keys' retries' in
          match c with
          | Taken kvp => (kvp :: taken, rest, r)
          | Skipped => (taken, rest, r)
          | Unstable => (taken, k :: rest, r)
          end
      end
  end.

(** What the capture of a table observes: in each round (0 is the walk) what an
    item shows, [None] once its slot is gone, and whether a stop is requested. *)
Record TableViews := mkViews {
  table_name : bytestring;
  index_type : bytestring -> Z;
  row_views : nat -> bytestring -> option (nat -> RowView);
  entry_views : nat -> EntryKey -> option (nat -> EntryView);
  stop : nat -> bool;
}.

Definition capture_row (t : TableViews) (round : nat) (key : bytestring) : option (Z -> Capture * Z) :=
  CapturePrimaryRow (table_name t) key <$> row_views t round key.

Definition capture_entry (t : TableViews) (round : nat) (key : EntryKey) : option (Z -> Capture * Z) :=
  CaptureSecondaryEntry (table_name t) key.1 (index_type t key.1) key.2 <$> entry_views t round key.

(** The retry loop: pairs taken, whether the table was captured, the counts of
    rows and entries taken and the retries. *)
Fixpoint retry (fuel : nat) (t : TableViews) (round : nat) (rows : list bytestring) (entries : list EntryKey)
    (kvps : list LogRecord.KeyValuePair) (stats : Z * Z * Z) : bool * list LogRecord.KeyValuePair * (Z * Z * Z) :=
  let finished := match rows, entries with [], [] => true | _, _ => false end in
  match fuel with
  | O => (finished, kvps, stats)
  | S f =>
      if finished then (true, kvps, stats)
      else if stop t round then (false, kvps, stats)
      else
        let '(n, m, r) := stats in
        let '(taken, rows_left, r1) := pass (capture_row t round) rows r in
        let '(taken', entries_left, r2) := pass (capture_entry t round) entries r1 in
        retry f t (S round) rows_left entries_left (kvps ++ taken ++ taken') (n + zlen taken, m + zlen taken', r2)
  end.

(** [CaptureTable] on the keys the two walks visit. *)
Definition CaptureTable (t : TableViews) (rows : list bytestring) (entries : list EntryKey) (stats : Z * Z * Z)
    : bool * list LogRecord.KeyValuePair * (Z * Z * Z) :=
  let '(n, m, r) := stats in
  let '(taken, unstable_rows, r1) := pass (capture_row t 0) rows r in
  let '(taken', unstable_entries, r2) := pass (capture_entry t 0) entries r1 in
  retry kRetryRounds t 1 unstable_rows unstable_entries (taken ++ taken') (n + zlen taken, m + zlen taken', r2).

(** ** Publishing *)

(** A file: its bytes, and those the last successful [fsync] saved. *)
Record File := mkFile { f_content : bytestring; f_durable : bytestring }.

(** The directory: what the working and the image name refer to, and what the
    image name refers to in the directory as last synced. *)
Record Directory := mkDir { working : option File; image : option File; image_durable : option File }.

(** Code that runs system calls: it threads the oracle and the directory and
    records the directories it passes through (the pieces of one [WriteAll] as
    one). *)
Definition M (A : Type) : Type := list io_outcome * Directory -> A * list Directory * (list io_outcome * Directory).

Definition mret {A} (a : A) : M A := fun s => (a, [], s).
Definition mbind {A B} (x : M A) (f : A -> M B) : M B := fun s =>
  let '(a, t1, s1) := x s in let '(b, t2, s2) := f a s1 in (b, t1 ++ t2, s2).

(** A call that may fail and otherwise changes the directory. *)
Definition syscall (f : Directory -> Directory) : M bool := fun '(orc, d) =>
  match orc with
  | IoFailed _ :: orc' => (false, [], (orc', d))
  | orc => (true, [f d], (tl orc, f d))
  end.

Definition on_working (f : File -> File) (d : Directory) : Directory :=
  mkDir (f <$> working d) (image d) (image_durable d).

Definition open_working : M bool :=
  syscall (fun d => mkDir (Some (mkFile [] (default [] (f_durable <$> working d)))) (image d) (image_durable d)).

(** The [write]s append to the file just truncated. *)
Definition WriteAll (data : bytestring) : M bool := fun '(orc, d) =>
  let '(ok, written, orc') := WriteAll_loop orc data in
  let d' := on_working (fun f => mkFile (f_content f ++ written) (f_durable f)) d in
  (ok, [d'], (orc', d')).

Definition FsyncRetryingOnInterrupt (f : Directory -> Directory) : M bool := fun '(orc, d) =>
  let '(e, orc') := Sync_loop orc in
  match e with None => (true, [f d], (orc', f d)) | Some _ => (false, [], (orc', d)) end.

Definition fsync_working : M bool := FsyncRetryingOnInterrupt (on_working (fun f => mkFile (f_content f) (f_content f))).

Definition rename : M bool := syscall (fun d => mkDir None (working d) (image_durable d)).

Definition FsyncDirectory : M bool :=
  mbind (syscall (fun d => d)) (fun opened =>
    if opened then FsyncRetryingOnInterrupt (fun d => mkDir (working d) (image d) (image d)) else mret false).

Definition unlink : M unit := fun s =>
  let '(_, t, s') := syscall (fun d => mkDir None (image d) (image_durable d)) s in (tt, t, s').

(** [a && b] over calls. *)
Definition mand (x y : M bool) : M bool := mbind x (fun ok => if ok then y else mret false).

Definition set_frontier (stats : Stats) (frontier : Z) : Stats :=
  mkStats (generation stats) (cut_epoch stats) (end_epoch stats) frontier (primary_rows stats)
    (secondary_entries stats) (retries stats).

(** [Publish] behind the durability gate. *)
Definition WriteImage (rs : LogRecords) (stats : Stats) : M bool :=
  mbind open_working (fun opened =>
    if opened then
      mbind (mand (WriteAll (header stats (pack rs))) (mand (WriteAll (pack rs)) fsync_working)) (fun written =>
        if written then
          mbind rename (fun renamed =>
            if renamed then FsyncDirectory else mbind unlink (fun _ => mret false))
        else mbind unlink (fun _ => mret false))
    else mret false).

(** [Publish]; [gate] is the frontier of the log once it was durable through
    the end epoch, [None] when the wait ended otherwise. *)
Definition Publish (enable_logging : bool) (gate : option Z) (rs : LogRecords) (stats : Stats) : M (bool * Stats) :=
  if enable_logging then
    match gate with
    | None => mbind unlink (fun _ => mret (false, stats))
    | Some frontier =>
        mbind (WriteImage rs (set_frontier stats frontier)) (fun ok => mret (ok, set_frontier stats frontier))
    end
  else mbind (WriteImage rs stats) (fun ok => mret (ok, stats)).

(** *** A capture of the database *)

(** The tables in the order of the walk, until one cannot be captured. *)
Fixpoint CaptureTables (cut : Z) (tables : list (TableViews * list bytestring * list EntryKey)) (stats : Z * Z * Z)
    : bool * LogRecords * (Z * Z * Z) :=
  match tables with
  | [] => (true, [], stats)
  | (t, rows, entries) :: tables' =>
      let '(captured, kvps, stats1) := CaptureTable t rows entries stats in
      if captured then
        let '(all, rs, stats2) := CaptureTables cut tables' stats1 in
        (all, match kvps with [] => rs | _ => LogRecord.mk cut kvps :: rs end, stats2)
      else (false, [], stats1)
  end.

(** [RunOnce] of a supported configuration with nobody else capturing: the
    epochs read before and after, and the durable epoch at the start. *)
Definition RunOnce (gen cut end_ durable_epoch : Z) (gate : option Z)
    (tables : list (TableViews * list bytestring * list EntryKey)) : M (bool * Stats) :=
  let '(all, rs, (n, m, r)) := CaptureTables cut tables (0, 0, 0) in
  let stats := mkStats gen cut end_ durable_epoch n m r in
  if all then Publish true gate rs stats else mbind unlink (fun _ => mret (false, stats)).

End images.
End EpochScanCheckpoint.
Import EpochScanCheckpoint.

(** ** The file format *)

Lemma PutLe64_bytes v : 0 <= v -> PutLe64 v = le_bytes 8 v.
Proof.
  intros Hv. unfold PutLe64. change (seqZ 0 8) with [0; 1; 2; 3; 4; 5; 6; 7]. cbn [map le_bytes].
  rewrite !land_ff, !Z.shiftr_div_pow2, !Z.div_div by lia. change (2 ^ (8 * 0)) with 1. by rewrite Z.div_1_r.
Qed.

Lemma GetLe64_value a b c e f g h i l : bytes_ok [a; b; c; e; f; g; h; i] ->
  GetLe64 (a :: b :: c :: e :: f :: g :: h :: i :: l) = le_value [a; b; c; e; f; g; h; i].
Proof.
  unfold bytes_ok. rewrite !Forall_cons. unfold is_u8. intros (Ha & Hb & Hc & He & Hf & Hg & Hh & Hi & _).
  unfold GetLe64. change (seqZ 0 8) with [0; 1; 2; 3; 4; 5; 6; 7].
  cbn [fold_left le_value].
  repeat match goal with |- context [Z.to_nat ?i] => let n := eval compute in (Z.to_nat i) in change (Z.to_nat i) with n end.
  cbn [nth].
  repeat match goal with |- context [8 * Zpos ?i] => let n := eval compute in (8 * Zpos i) in change (8 * Zpos i) with n end.
  change (8 * 0) with 0. rewrite !Z.shiftl_mul_pow2, !u64_small by (unfold is_u64; lia).
  rewrite Z.lor_0_l, Z.pow_0_r, Z.mul_1_r.
  repeat match goal with |- context [Z.lor ?x (?y * 2 ^ ?n)] =>
    lazymatch x with context [Z.lor _ _] => fail | _ => rewrite (lor_mul_add x y n) by lia end end. lia.
Qed.

Lemma GetLe64_Put v l : is_u64 v -> GetLe64 (PutLe64 v ++ l) = v.
Proof.
  unfold is_u64. intros Hv. rewrite PutLe64_bytes by lia.
  rewrite <- (le_value_bytes 8 v) at 2 by (cbn; lia). pose proof (le_bytes_ok 8 v) as Hok.
  cbn [le_bytes app] in *. by apply GetLe64_value.
Qed.

Lemma PutLe64_ok v : 0 <= v -> bytes_ok (PutLe64 v).
Proof. intros. rewrite PutLe64_bytes by done. apply le_bytes_ok. Qed.

(** [ReadAll] is the log's [PreadAll] with the error dropped. *)
Lemma ReadAll_loop_PreadAll orc : ∀ c size offset out, ReadAll_loop orc c size offset out =
  let '(r, orc') := PreadAll_loop orc c size offset out in (match r with inl l => Some l | inr _ => None end, orc').
Proof.
  induction orc as [|[n|e] orc IH]; intros c size offset out; cbn [ReadAll_loop PreadAll_loop]; destruct (size =? 0); try done.
  - cbn zeta. by destruct (moved (zlen c - offset) size =? size).
  - cbn zeta. destruct (0 <? _); [apply IH|done].
  - destruct (e =? EINTR); [apply IH|done].
Qed.

Lemma ReadAll_PreadAll d size offset : ReadAll d size offset =
  let '(r, d') := PreadAll d size offset in (match r with inl l => Some l | inr _ => None end, d').
Proof. unfold ReadAll, PreadAll. rewrite ReadAll_loop_PreadAll. by destruct (PreadAll_loop _ _ _ _ _). Qed.

Lemma ReadAll_spec d size offset : 0 <= offset -> 0 <= size -> offset + size <= zlen (content d) ->
  let '(r, d') := ReadAll d size offset in
  content d' = content d ∧ (∀ l, r = Some l -> l = slice offset size (content d)) ∧
  (benign (oracle d) -> r = Some (slice offset size (content d)) ∧ benign (oracle d')).
Proof.
  intros H1 H2 H3. rewrite ReadAll_PreadAll. pose proof (PreadAll_spec d size offset H1 H2 H3) as H.
  destruct (PreadAll d size offset) as [[l|e] d']; simpl; destruct H as (Hc & _ & Hl & Hb); split; [done| |done|].
  - split; [intros x [= <-]; by apply Hl|]. intros [E ?]%Hb. split; [congruence|done].
  - split; [done|]. by intros [? _]%Hb.
Qed.

(** The fields of a header hold values of their types. *)
Definition stats_ok (s : Stats) : Prop :=
  is_u64 (generation s) ∧ is_u32 (cut_epoch s) ∧ is_u32 (end_epoch s) ∧ is_u32 (wal_frontier_at_publish s) ∧
  is_u64 (primary_rows s) ∧ is_u64 (secondary_entries s) ∧ 0 < cut_epoch s <= end_epoch s.

Section format.
Context {MP : MsgPack} {MPL : MsgPackLaws}.
Context (s : Stats) (payload : bytestring).
Context (Hs : stats_ok s) (Hp : bytes_ok payload) (Hsize : is_u64 (zlen payload)).

Lemma zlen_header : zlen (header s payload) = kHeaderSize.
Proof. done. Qed.

Lemma header52_ok : bytes_ok (header52 s payload).
Proof.
  destruct Hs as (H1 & H2 & H3 & H4 & H5 & H6 & _). unfold is_u32, is_u64 in *. unfold header52.
  repeat (apply Forall_app; split); first [apply PutLe32_ok|apply PutLe16_ok|apply PutLe64_ok];
    unfold kMagic, kVersion, kFlags; lia.
Qed.

Lemma image_crc_u32 : is_u32 (image_crc (header52 s payload) payload).
Proof.
  unfold image_crc, Finish. pose proof (Forall_take _ 52 _ header52_ok) as Hh.
  assert (is_u32 (UpdateWithTable initial_state (take 52 (header52 s payload)))) as Hi
    by (rewrite UpdateWithTable_register; auto with lineair).
  rewrite (UpdateWithTable_register payload) by done.
  pose proof (crc_register_u32 payload _ Hi Hp). unfold is_u32 in *. apply lxor_bound; lia.
Qed.

Lemma header_fields :
  let h := header s payload in
  GetLe32 h = kMagic ∧ GetLe16 (drop 4 h) = kVersion ∧ GetLe16 (drop 6 h) = kFlags ∧
  GetLe32 (drop 16 h) = cut_epoch s ∧ GetLe32 (drop 20 h) = end_epoch s ∧
  GetLe32 (drop 24 h) = wal_frontier_at_publish s ∧ GetLe64 (drop 44 h) = zlen payload ∧
  GetLe32 (drop 52 h) = image_crc h payload.
Proof.
  pose proof image_crc_u32 as Hcrc. destruct Hs as (H1 & H2 & H3 & H4 & H5 & H6 & _). intros h.
  assert (image_crc h payload = image_crc (header52 s payload) payload) as -> by done.
  unfold h, header. set (crc := image_crc _ _) in *. clearbody crc. unfold header52. rewrite <- !app_assoc.
  assert (is_u32 kMagic) by done.
  split; [by apply GetLe32_Put|]. split; [by apply (GetLe16_Put kVersion)|]. split; [by apply (GetLe16_Put kFlags)|].
  split; [by apply (GetLe32_Put (cut_epoch s))|]. split; [by apply (GetLe32_Put (end_epoch s))|].
  split; [by apply (GetLe32_Put (wal_frontier_at_publish s))|]. split; [by apply (GetLe64_Put (zlen payload))|].
  by apply (GetLe32_Put crc []).
Qed.

(** The image that comes back. *)
Definition loaded (rs : LogRecords) : Image :=
  mkImage Ok (cut_epoch s) (end_epoch s) (wal_frontier_at_publish s) rs "".

Lemma LoadPayload_spec rs : unpack payload = Some (rs, zlen payload) -> LoadPayload (header s payload) payload = loaded rs.
Proof.
  intros Hu. destruct header_fields as (_ & _ & _ & H4 & H5 & H6 & _ & H8).
  unfold LoadPayload. rewrite H4, H5, H6, H8, Z.eqb_refl, Hu, Z.eqb_refl. done.
Qed.

Lemma LoadHeader_spec rs d : unpack payload = Some (rs, zlen payload) -> content d = header s payload ++ payload ->
  let i := LoadHeader (zlen (content d)) (header s payload) d in
  (i = loaded rs ∨ status i = Unusable) ∧ (benign (oracle d) -> i = loaded rs).
Proof.
  intros Hu Hc. cbn zeta. unfold LoadHeader. pose proof (LoadPayload_spec rs Hu) as HL.
  assert (zlen (content d) = kHeaderSize + zlen payload) as Hlen by (rewrite Hc, zlen_app, zlen_header; done).
  destruct header_fields as (H1 & H2 & H3 & H4 & H5 & _ & H7 & _). rewrite H1, H2, H3, H4, H5, H7, !Z.eqb_refl.
  replace (zlen (content d) - kHeaderSize) with (zlen payload) by lia. rewrite u64_small, Z.eqb_refl by done. cbn [negb].
  destruct Hs as (_ & _ & _ & _ & _ & _ & Hcut).
  destruct (Z.eqb_spec (cut_epoch s) 0); [lia|]. destruct (Z.ltb_spec (end_epoch s) (cut_epoch s)); [lia|]. cbn [orb].
  destruct (Z.eqb_spec (zlen payload) 0) as [Hz|Hz].
  { replace payload with (@nil Z) in HL at 2 by (destruct payload; [done|]; zl). rewrite HL. auto. }
  pose proof (ReadAll_spec d (zlen payload) kHeaderSize) as HR. destruct (ReadAll _ _ _) as [r d'].
  destruct HR as (_ & Hr & Hb); [done|zl|lia|].
  replace (slice kHeaderSize (zlen payload) (content d)) with payload in *.
  2: { rewrite Hc, <- zlen_header. pose proof (slice_mid (header s payload) payload []) as Hm. by rewrite app_nil_r in Hm. }
  destruct r as [l|].
  - rewrite (Hr l eq_refl), HL. auto.
  - split; [by right|]. by intros [? _]%Hb.
Qed.

Lemma Load_spec rs d : unpack payload = Some (rs, zlen payload) -> content d = header s payload ++ payload ->
  (Load (inl d) = loaded rs ∨ status (Load (inl d)) = Unusable) ∧ (benign (oracle d) -> Load (inl d) = loaded rs).
Proof.
  intros Hu Hc. unfold Load. assert (zlen (content d) = kHeaderSize + zlen payload) as Hlen
    by (rewrite Hc, zlen_app, zlen_header; done).
  assert ((∀ n d', fstat d = (inl n, d') -> n = zlen (content d) ∧ content d' = content d) ∧
    (benign (oracle d) -> ∃ d', fstat d = (inl (zlen (content d)), d') ∧ benign (oracle d'))) as [Hf Hfb].
  { unfold fstat. destruct (oracle d) as [|[n|e] orc] eqn:Eo.
    - split; [intros n d' [= <- <-]; done|]. intros _. exists d. split; [done|]. rewrite Eo. constructor.
    - split; [intros m d' [= <- <-]; done|]. intros Hb. eexists. split; [done|]. by eapply benign_cons.
    - destruct (Z.eqb_spec e EINTR) as [He|He]; (split; [intros m d' Heq; inversion Heq; done|intros Hb]).
      + eexists. split; [done|]. by eapply benign_cons.
      + by inversion Hb. }
  destruct (fstat d) as [[n|e] d1]; [|split; [by right|intros (d' & [= ] & _)%Hfb]].
  destruct (Hf n d1 eq_refl) as [-> Hc1]. rewrite Hlen. destruct (Z.ltb_spec (kHeaderSize + zlen payload) kHeaderSize); [zl|].
  rewrite <- Hlen, <- Hc1. rewrite <- Hc1 in Hc, Hlen. pose proof (ReadAll_spec d1 kHeaderSize 0) as HR.
  destruct (ReadAll d1 kHeaderSize 0) as [r d2]. destruct HR as (Hc2 & Hr & Hb); [done|done|zl|].
  replace (slice 0 kHeaderSize (content d1)) with (header s payload) in *
    by (rewrite Hc, <- zlen_header; symmetry; apply (slice_mid [])).
  assert (benign (oracle d) -> benign (oracle d1)) as Hb1 by (by intros (d' & [= <-] & ?)%Hfb).
  destruct r as [h|]; [|split; [by right|intros [? _]%Hb1%Hb; done]]. rewrite (Hr h eq_refl), <- Hc2.
  rewrite <- Hc2 in Hc. destruct (LoadHeader_spec rs d2 Hu Hc) as [H1 H2]. split; [done|]. intros [_ ?]%Hb1%Hb. by apply H2.
Qed.

End format.

(** ** Replacing the image *)

(** What a crash leaves of a file: a synced one is as it was, another one may
    hold anything. *)
Definition survives (file : option File) (f : option bytestring) : Prop :=
  match file with
  | None => f = None
  | Some x => f_content x = f_durable x -> f = Some (f_content x)
  end.

(** What the image name shows after a crash: what it referred to last, or what
    it referred to when the directory was last synced. *)
Definition after_crash (d : Directory) (f : option bytestring) : Prop :=
  survives (image d) f ∨ survives (image_durable d) f.

Definition triple {A} (V P : Directory -> Prop) (x : M A) (Q : A -> Directory -> Prop) : Prop :=
  ∀ orc d, P d -> let '(a, t, s') := x (orc, d) in Forall V t ∧ Q a s'.2.

Lemma io_ret {A} V (a : A) (Q : A -> Directory -> Prop) : triple V (Q a) (mret a) Q.
Proof. intros orc d HQ. by split. Qed.

Lemma io_bind {A B} V P (x : M A) Q (f : A -> M B) R :
  triple V P x Q -> (∀ a, triple V (Q a) (f a) R) -> triple V P (mbind x f) R.
Proof.
  intros Hx Hf orc d HP. unfold mbind. specialize (Hx orc d HP). destruct (x (orc, d)) as [[a t] [orc1 d1]].
  destruct Hx as [Ht HQ]. specialize (Hf a orc1 d1 HQ). destruct (f a (orc1, d1)) as [[b t'] s']. destruct Hf as [Ht' HR].
  split; [by apply Forall_app|done].
Qed.

Lemma triple_weaken {A} V (P P' : Directory -> Prop) (x : M A) Q Q' :
  (∀ d, P' d -> P d) -> (∀ a d, Q a d -> Q' a d) -> triple V P x Q -> triple V P' x Q'.
Proof.
  intros HP HQ Hx orc d Hd. specialize (Hx orc d (HP d Hd)). destruct (x (orc, d)) as [[a t] s']. naive_solver.
Qed.

Lemma triple_mand V P (x y : M bool) (Q Q' : Directory -> Prop) (N : Directory -> Prop) :
  triple V P x (fun (ok : bool) d => if ok then Q d else N d) -> triple V Q y (fun ok d => if ok then Q' d else N d) ->
  triple V P (mand x y) (fun (ok : bool) d => if ok then Q' d else N d).
Proof.
  intros Hx Hy. apply (io_bind _ _ _ _ _ _ Hx). intros [|]; [exact Hy|].
  apply (io_ret V false (fun (ok : bool) d => if ok then Q' d else N d)).
Qed.

Lemma triple_syscall V (P Q : Directory -> Prop) (f : Directory -> Directory) : (∀ d, P d -> V (f d) ∧ Q (f d)) ->
  triple V P (syscall f) (fun (ok : bool) d => if ok then Q d else P d).
Proof.
  intros Hf orc d HP. unfold syscall. destruct (Hf d HP) as [HV HQ].
  destruct orc as [|[n|e] orc]; (split; [|done]); repeat constructor; done.
Qed.

Lemma triple_fsync V (P Q : Directory -> Prop) (f : Directory -> Directory) : (∀ d, P d -> V (f d) ∧ Q (f d)) ->
  triple V P (FsyncRetryingOnInterrupt f) (fun (ok : bool) d => if ok then Q d else P d).
Proof.
  intros Hf orc d HP. unfold FsyncRetryingOnInterrupt. destruct (Hf d HP) as [HV HQ].
  destruct (Sync_loop orc) as [[e|] orc']; (split; [|done]); repeat constructor; done.
Qed.

Lemma WriteAll_loop_spec orc : ∀ data ok written orc', WriteAll_loop orc data = (ok, written, orc') ->
  ok = true -> written = data.
Proof.
  induction orc as [|[n|e] orc IH]; intros [|b data] ok written orc'; cbn [WriteAll_loop]; try (by intros [= <- <- <-]).
  - cbn zeta. set (l := b :: data) in *. destruct (0 <? _); [|by intros [= <- <- <-]].
    destruct (WriteAll_loop orc _) as [[ok1 rest] orc1] eqn:E. intros [= <- <- <-] Hok.
    rewrite (IH _ _ _ _ E Hok). apply take_drop.
  - destruct (_ =? _); [apply IH|by intros [= <- <- <-]].
Qed.

Section publish.
Context {MP : MsgPack} (d0 : Directory) (rs : LogRecords) (stats : Stats).
#[local] Abbreviation new := (image_bytes stats rs).

Definition atomic_at (d : Directory) : Prop := ∀ f, after_crash d f -> after_crash d0 f ∨ f = Some new.

(** Before the rename only the working file has changed. *)
Definition unchanged (d : Directory) : Prop := image d = image d0 ∧ image_durable d = image_durable d0.

Definition working_holds (c : bytestring) (d : Directory) : Prop :=
  unchanged d ∧ ∃ f, working d = Some f ∧ f_content f = c.

Definition renamed (d : Directory) : Prop :=
  image d = Some (mkFile new new) ∧ (image_durable d = image_durable d0 ∨ image_durable d = image d).

Lemma unchanged_atomic d : unchanged d -> atomic_at d.
Proof. intros [H1 H2] f. unfold after_crash. rewrite H1, H2. by left. Qed.

Lemma renamed_atomic d : renamed d -> atomic_at d.
Proof.
  intros [H1 H2] f [Hf|Hf]; [rewrite H1 in Hf; right; by apply Hf|].
  destruct H2 as [H2|H2]; rewrite H2 in Hf; [by left; right|]. rewrite H1 in Hf. right. by apply Hf.
Qed.

Lemma triple_WriteAll c data : triple atomic_at (working_holds c) (WriteAll data)
  (fun (ok : bool) d => if ok then working_holds (c ++ data) d else unchanged d).
Proof.
  intros orc d [Hu (f & Hw & Hc)]. unfold WriteAll. destruct (WriteAll_loop orc data) as [[ok written] orc'] eqn:E.
  split; [apply Forall_singleton; by apply unchanged_atomic|]. simpl. destruct ok; [|done].
  rewrite (WriteAll_loop_spec _ _ _ _ _ E eq_refl). split; [done|].
  exists (mkFile (f_content f ++ data) (f_durable f)). unfold on_working. simpl. rewrite Hw. simpl. by rewrite Hc.
Qed.

Lemma triple_unlink : triple atomic_at unchanged unlink (fun _ => unchanged).
Proof.
  intros orc d Hd. unfold unlink.
  pose proof (triple_syscall atomic_at unchanged unchanged (fun d => mkDir None (image d) (image_durable d))) as H.
  specialize (H ltac:(intros x Hx; split; [by apply unchanged_atomic|done]) orc d Hd).
  destruct (syscall _ _) as [[ok t] s']. destruct H as [Ht H]. split; [done|]. by destruct ok.
Qed.

Lemma triple_write_synced : triple atomic_at (working_holds [])
  (mand (WriteAll (header stats (pack rs))) (mand (WriteAll (pack rs)) fsync_working))
  (fun (ok : bool) d => if ok then unchanged d ∧ working d = Some (mkFile new new) else unchanged d).
Proof.
  apply (triple_mand _ _ _ _ (working_holds (header stats (pack rs)))); [apply (triple_WriteAll [])|].
  apply (triple_mand _ _ _ _ (working_holds new)); [apply triple_WriteAll|].
  apply (triple_weaken _ (working_holds new) _ _
    (fun (ok : bool) d => if ok then unchanged d ∧ working d = Some (mkFile new new) else working_holds new d)); [done| |].
  { intros [|] d; [done|]. by intros [? _]. }
  apply (triple_fsync _ _ (fun d => unchanged d ∧ working d = Some (mkFile new new))). intros d [Hu (f & Hw & Hc)].
  split; [by apply unchanged_atomic|]. split; [done|]. simpl. rewrite Hw. simpl. by rewrite Hc.
Qed.

Lemma triple_FsyncDirectory : triple atomic_at renamed FsyncDirectory
  (fun ok d => renamed d ∧ (ok = true -> image_durable d = image d)).
Proof.
  apply (io_bind _ _ _ (fun _ => renamed)).
  - eapply triple_weaken; [| |apply (triple_syscall _ renamed renamed)]; [done|by intros [|] d|].
    intros d Hd. split; [by apply renamed_atomic|done].
  - intros [|].
    + apply (triple_weaken _ renamed _ _ (fun (ok : bool) d => if ok then renamed d ∧ image_durable d = image d else renamed d)); [done| |].
      { intros [|] d; [by intros [? ?]|done]. }
      apply (triple_fsync _ renamed (fun d => renamed d ∧ image_durable d = image d)). intros d [H1 H2].
      assert (renamed (mkDir (working d) (image d) (image d))) by (split; [done|by right]).
      split; [by apply renamed_atomic|done].
    + eapply triple_weaken; [| |apply (io_ret _ false (fun ok d => renamed d ∧ ok = false))]; [done|]. by intros a d [? ->].
Qed.

Lemma triple_WriteImage : triple atomic_at unchanged (WriteImage rs stats)
  (fun ok d => atomic_at d ∧ (ok = true -> renamed d ∧ image_durable d = image d)).
Proof.
  assert (∀ P : Directory -> Prop, (∀ d, P d -> unchanged d) -> triple atomic_at P (mbind unlink (fun _ => mret false))
    (fun ok d => atomic_at d ∧ (ok = true -> renamed d ∧ image_durable d = image d))) as Hdrop.
  { intros P HP. apply (io_bind _ _ _ (fun _ => unchanged)); [eapply triple_weaken; [exact HP| |apply triple_unlink]; by intros a d|].
    intros _. eapply triple_weaken; [| |apply (io_ret _ false (fun ok d => unchanged d ∧ ok = false))]; [intros d Hd; by split|].
    intros a d [Hd ->]. split; [by apply unchanged_atomic|done]. }
  apply (io_bind _ _ _ (fun (ok : bool) d => if ok then working_holds [] d else unchanged d)).
  { apply triple_syscall. intros d Hd. split; [by apply unchanged_atomic|]. split; [done|]. by eexists. }
  intros [|].
  2: { eapply triple_weaken; [| |apply (io_ret _ false (fun ok d => unchanged d ∧ ok = false))]; [intros d Hd; by split|].
       intros a d [Hd ->]. split; [by apply unchanged_atomic|done]. }
  apply (io_bind _ _ _ _ _ _ triple_write_synced). intros [|]; [|by apply Hdrop].
  apply (io_bind _ _ _ (fun (ok : bool) d => if ok then renamed d else unchanged d ∧ working d = Some (mkFile new new))).
  { apply triple_syscall. intros d [[_ H2] Hw]. assert (renamed (mkDir None (working d) (image_durable d))) by (split; [done|by left]).
    split; [by apply renamed_atomic|done]. }
  intros [|]; [|apply Hdrop; by intros d [? _]].
  eapply triple_weaken; [| |apply triple_FsyncDirectory]; [done|]. intros a d [H1 H2]. split; [by apply renamed_atomic|auto].
Qed.

End publish.

(** ** What a capture takes *)

Lemma spin_spec {V} (attempt_on : V -> option Capture) fuel : ∀ views n r c r',
  spin attempt_on fuel views n r = (c, r') ->
  c = Unstable ∧ r' = r + Z.of_nat fuel ∨ ∃ m, (m < n + fuel)%nat ∧ attempt_on (views m) = Some c.
Proof.
  induction fuel as [|f IH]; intros views n r c r'; simpl; [intros [= <- <-]; left; split; [done|lia]|].
  destruct (attempt_on (views n)) as [c'|] eqn:E; [intros [= <- <-]; right; exists n; split; [lia|done]|].
  intros [[-> ->]|(m & Hm & Ha)]%IH; [left; split; [done|lia]|right]. exists m. split; [lia|done].
Qed.

Section passes.
Context {K V : Type} (attempt_on : K -> V -> option Capture) (views : nat -> K -> option (nat -> V)).

Definition run_of (round : nat) (k : K) : option (Z -> Capture * Z) :=
  (fun vs => spin (attempt_on k) kSpinAttempts vs 0) <$> views round k.

(** A round settles a key: its slot is gone, or an attempt ended. *)
Definition settled (kvps : list LogRecord.KeyValuePair) (k : K) : Prop :=
  ∃ round, match views round k with
           | None => True
           | Some vs => ∃ n c, (n < kSpinAttempts)%nat ∧ attempt_on k (vs n) = Some c ∧ c <> Unstable ∧ ∀ p, c = Taken p -> p ∈ kvps
           end.

Definition sourced (p : LogRecord.KeyValuePair) : Prop :=
  ∃ round k vs n, views round k = Some vs ∧ attempt_on k (vs n) = Some (Taken p).

Lemma settled_mono kvps kvps' k : kvps ⊆ kvps' -> settled kvps k -> settled kvps' k.
Proof. intros Hs [round H]. exists round. destruct (views round k); [|done]. naive_solver. Qed.

Lemma pass_spec round keys : ∀ r taken rest r', pass (run_of round) keys r = (taken, rest, r') ->
  (∀ k, k ∈ keys -> k ∈ rest ∨ settled taken k) ∧ Forall sourced taken.
Proof.
  induction keys as [|k keys IH]; intros r taken rest r'; cbn [pass].
  { intros [= <- <- <-]. split; [by intros k ?%elem_of_nil|constructor]. }
  destruct (views round k) as [vs|] eqn:Ev.
  - unfold run_of at 1. rewrite Ev. cbn [fmap option_fmap option_map].
    destruct (spin _ _ _ _ _) as [c r1] eqn:Es. destruct (pass _ keys r1) as [[taken1 rest1] r2] eqn:Ep.
    destruct (IH _ _ _ _ Ep) as [Hk Hs].
    assert (c <> Unstable -> ∃ n, (n < kSpinAttempts)%nat ∧ attempt_on k (vs n) = Some c) as Hc.
    { intros Hc. destruct (spin_spec _ _ _ _ _ _ _ Es) as [[? _]|?]; done. }
    destruct c as [kvp| |]; intros [= <- <- <-].
    + destruct Hc as (n & Hn & Ha); [done|]. split.
      * intros k' [->|[?|?]%Hk]%elem_of_cons; [right|by left|right; eapply settled_mono; [|done]; set_solver].
        exists round. rewrite Ev. exists n, (Taken kvp). split; [done|]. split; [done|]. split; [done|].
        intros p [= ->]. apply list_elem_of_here.
      * constructor; [|done]. by exists round, k, vs, n.
    + destruct Hc as (n & Hn & Ha); [done|]. split; [|done]. intros k' [->|?%Hk]%elem_of_cons; [right|done].
      exists round. rewrite Ev. by exists n, Skipped.
    + split; [|done]. intros k' [->|[?|?]%Hk]%elem_of_cons; [left; apply list_elem_of_here|left; by apply list_elem_of_further|by right].
  - unfold run_of at 1. rewrite Ev. cbn [fmap option_fmap option_map]. intros Ep. destruct (IH _ _ _ _ Ep) as [Hk Hs].
    split; [|done]. intros k' [->|?%Hk]%elem_of_cons; [right|done]. exists round. by rewrite Ev.
Qed.

End passes.

(** The attempts on the rows and on the entries of a table. *)
Definition on_row (t : TableViews) := row_attempt (table_name t).
Definition on_entry (t : TableViews) (k : EntryKey) := entry_attempt (table_name t) k.1 (index_type t k.1) k.2.

Definition covers (t : TableViews) (kvps : list LogRecord.KeyValuePair) (rows : list bytestring) (entries : list EntryKey) : Prop :=
  (∀ k, k ∈ rows -> settled (on_row t) (row_views t) kvps k) ∧
  (∀ k, k ∈ entries -> settled (on_entry t) (entry_views t) kvps k).

Definition from_views (t : TableViews) (p : LogRecord.KeyValuePair) : Prop :=
  sourced (on_row t) (row_views t) p ∨ sourced (on_entry t) (entry_views t) p.

(** A pass over the rows and one over the entries. *)
Lemma round_spec t round rows entries r taken left_rows r1 taken' left_entries r2 :
  pass (capture_row t round) rows r = (taken, left_rows, r1) ->
  pass (capture_entry t round) entries r1 = (taken', left_entries, r2) ->
  (∀ k, k ∈ rows -> k ∈ left_rows ∨ settled (on_row t) (row_views t) (taken ++ taken') k) ∧
  (∀ k, k ∈ entries -> k ∈ left_entries ∨ settled (on_entry t) (entry_views t) (taken ++ taken') k) ∧
  Forall (from_views t) (taken ++ taken').
Proof.
  intros H1 H2. destruct (pass_spec (on_row t) (row_views t) round _ _ _ _ _ H1) as [Ha Hb].
  destruct (pass_spec (on_entry t) (entry_views t) round _ _ _ _ _ H2) as [Hc Hd]. split; [|split].
  - intros k [?|?]%Ha; [by left|right]. eapply settled_mono; [|done]. set_solver.
  - intros k [?|?]%Hc; [by left|right]. eapply settled_mono; [|done]. set_solver.
  - apply Forall_app. split; (eapply Forall_impl; [done|]); intros p ?; [by left|by right].
Qed.

Lemma retry_spec t fuel : ∀ round rows entries kvps stats kvps' stats',
  retry fuel t round rows entries kvps stats = (true, kvps', stats') ->
  covers t kvps' rows entries ∧ ∃ more, kvps' = kvps ++ more ∧ Forall (from_views t) more.
Proof.
  assert (∀ (rows : list bytestring) (entries : list EntryKey) kvps,
    match rows, entries with [], [] => true | _, _ => false end = true ->
    covers t kvps rows entries ∧ ∃ more, kvps = kvps ++ more ∧ Forall (from_views t) more) as Hfin.
  { intros [|? ?] [|? ?] kvps; try done. intros _. split; [split; by intros k ?%elem_of_nil|]. exists []. by rewrite app_nil_r. }
  induction fuel as [|f IH]; intros round rows entries kvps [[n m] r] kvps' stats'; cbn [retry]; cbn zeta.
  { intros [= Hf <- <-]. by apply Hfin. }
  destruct (match rows with [] => _ | _ => _ end) eqn:Hf; [intros [= <- <-]; by apply Hfin|].
  destruct (stop t round); [done|].
  destruct (pass (capture_row t round) rows r) as [[taken rl] r1] eqn:E1.
  destruct (pass (capture_entry t round) entries r1) as [[taken' el] r2] eqn:E2.
  destruct (round_spec _ _ _ _ _ _ _ _ _ _ _ E1 E2) as (Ha & Hb & Hs).
  intros [[Hr He] (more & -> & Hm)]%IH. split; [split|].
  - intros k [?|Hk]%Ha; [by apply Hr|]. eapply settled_mono; [|exact Hk]. set_solver.
  - intros k [?|Hk]%Hb; [by apply He|]. eapply settled_mono; [|exact Hk]. set_solver.
  - exists ((taken ++ taken') ++ more). split; [by rewrite !app_assoc|by apply Forall_app].
Qed.

Lemma CaptureTable_spec t rows entries stats kvps stats' : CaptureTable t rows entries stats = (true, kvps, stats') ->
  covers t kvps rows entries ∧ Forall (from_views t) kvps.
Proof.
  destruct stats as [[n m] r]. unfold CaptureTable.
  destruct (pass (capture_row t 0) rows r) as [[taken rl] r1] eqn:E1.
  destruct (pass (capture_entry t 0) entries r1) as [[taken' el] r2] eqn:E2.
  destruct (round_spec _ _ _ _ _ _ _ _ _ _ _ E1 E2) as (Ha & Hb & Hs).
  intros [[Hr He] (more & -> & Hm)]%retry_spec. split; [split|by apply Forall_app].
  - intros k [?|Hk]%Ha; [by apply Hr|]. eapply settled_mono; [|exact Hk]. set_solver.
  - intros k [?|Hk]%Hb; [by apply He|]. eapply settled_mono; [|exact Hk]. set_solver.
Qed.

Definition row_stable (v : RowView) : Prop := locked (row_first v) = false ∧ row_again v = row_first v.
Definition entry_stable (v : EntryView) : Prop := locked (entry_first v) = false ∧ entry_again v = entry_first v.

Lemma tid_eqb_eq a b : TransactionId.eqb a b = true <-> a = b.
Proof.
  destruct a, b. unfold TransactionId.eqb. cbn. rewrite andb_true_iff, !Z.eqb_eq. split; [by intros [-> ->]|by intros [= -> ->]].
Qed.

Lemma row_attempt_spec tn k v c : row_attempt tn k v = Some c -> row_stable v ∧
  c = if row_initialized v then Taken (row_kvp tn k v) else Skipped.
Proof.
  unfold row_attempt, row_stable, TransactionId.neqb. destruct (locked _); [done|]. destruct (row_initialized v); cbn [negb];
    destruct (TransactionId.eqb _ _) eqn:E; try done; apply tid_eqb_eq in E; by intros [= <-].
Qed.

Lemma entry_attempt_spec tn ix ty k v c : entry_attempt tn ix ty k v = Some c -> entry_stable v ∧
  c = if PackedPrimaryKeysView.empty (entry_keys v) then Skipped else Taken (entry_kvp tn ix ty k v).
Proof.
  unfold entry_attempt, entry_stable, TransactionId.neqb. destruct (locked _); [done|].
  destruct (TransactionId.eqb _ _) eqn:E; [|done]. apply tid_eqb_eq in E. cbn [negb].
  destruct (PackedPrimaryKeysView.empty _); by intros [= <-].
Qed.

(** In some round the row's slot is gone or an attempt sees one version before
    and after the copy, with no value or with a value that is in the image. *)
Definition row_captured (t : TableViews) (kvps : list LogRecord.KeyValuePair) (k : bytestring) : Prop :=
  ∃ round, match row_views t round k with
           | None => True
           | Some vs => ∃ n, (n < kSpinAttempts)%nat ∧ row_stable (vs n) ∧
               (row_initialized (vs n) = true -> row_kvp (table_name t) k (vs n) ∈ kvps)
           end.

Definition entry_captured (t : TableViews) (kvps : list LogRecord.KeyValuePair) (k : EntryKey) : Prop :=
  ∃ round, match entry_views t round k with
           | None => True
           | Some vs => ∃ n, (n < kSpinAttempts)%nat ∧ entry_stable (vs n) ∧
               (PackedPrimaryKeysView.empty (entry_keys (vs n)) = false ->
                entry_kvp (table_name t) k.1 (index_type t k.1) k.2 (vs n) ∈ kvps)
           end.

Definition captured_pair (t : TableViews) (p : LogRecord.KeyValuePair) : Prop :=
  (∃ round k vs n, row_views t round k = Some vs ∧ row_stable (vs n) ∧ row_initialized (vs n) = true ∧
     p = row_kvp (table_name t) k (vs n)) ∨
  (∃ round k vs n, entry_views t round k = Some vs ∧ entry_stable (vs n) ∧
     PackedPrimaryKeysView.empty (entry_keys (vs n)) = false ∧
     p = entry_kvp (table_name t) k.1 (index_type t k.1) k.2 (vs n)).

(** A captured table misses nothing: when CaptureTable succeeds, every
    row and index entry the walk visited was seen with an unlocked version
    that did not change across the copy, and its value is in the image unless
    it was empty or its slot was gone; every pair in the image comes from such
    a view. *)
Theorem capture_accounts_for_every_item t rows entries stats kvps stats' :
  CaptureTable t rows entries stats = (true, kvps, stats') ->
  (∀ k, k ∈ rows -> row_captured t kvps k) ∧ (∀ k, k ∈ entries -> entry_captured t kvps k) ∧
  Forall (captured_pair t) kvps.
Proof.
  intros [[Hr He] Hk]%CaptureTable_spec. split; [|split].
  - intros k [round H]%Hr. exists round. destruct (row_views t round k) as [vs|]; [|done].
    destruct H as (n & c & Hn & [Hst ->]%row_attempt_spec & _ & Hp). exists n. split; [done|]. split; [done|].
    intros Hi. rewrite Hi in Hp. by apply Hp.
  - intros k [round H]%He. exists round. destruct (entry_views t round k) as [vs|]; [|done].
    destruct H as (n & c & Hn & [Hst ->]%entry_attempt_spec & _ & Hp). exists n. split; [done|]. split; [done|].
    intros Hi. rewrite Hi in Hp. by apply Hp.
  - eapply Forall_impl; [exact Hk|]. intros p [(round & k & vs & n & Hv & [Hst Hc]%row_attempt_spec)|(round & k & vs & n & Hv & [Hst Hc]%entry_attempt_spec)].
    + left. exists round, k, vs, n. destruct (row_initialized (vs n)); [|done]. by injection Hc as ->.
    + right. exists round, k, vs, n. destruct (PackedPrimaryKeysView.empty _); [done|]. by injection Hc as ->.
Qed.

Section publishing.
Context {MP : MsgPack} {MPL : MsgPackLaws}.

Lemma Publish_spec enable_logging gate rs stats orc d0 ok stats' visited orc' d' :
  Publish enable_logging gate rs stats (orc, d0) = (ok, stats', visited, (orc', d')) ->
  Forall (atomic_at d0 rs stats') (visited ++ [d']) ∧
  (ok = true -> image d' = Some (mkFile (image_bytes stats' rs) (image_bytes stats' rs)) ∧ image_durable d' = image d').
Proof.
  assert (∀ st, triple (atomic_at d0 rs st) (unchanged d0) (mbind (WriteImage rs st) (fun ok => mret (ok, st)))
    (fun r d => r.2 = st ∧ atomic_at d0 rs st d ∧ (r.1 = true -> renamed d0 rs st d ∧ image_durable d = image d))) as Hw.
  { intros st. apply (io_bind _ _ _ _ _ _ (triple_WriteImage d0 rs st)). intros ok1.
    eapply triple_weaken; [| |apply (io_ret _ (ok1, st) (fun r d => r = (ok1, st) ∧ atomic_at d0 rs st d ∧
      (ok1 = true -> renamed d0 rs st d ∧ image_durable d = image d)))]; [by intros d ?|]. intros a d (-> & ? & ?). done. }
  assert (unchanged d0 d0) as H0 by done. unfold Publish.
  assert (∀ st, mbind (WriteImage rs st) (fun ok => mret (ok, st)) (orc, d0) = (ok, stats', visited, (orc', d')) ->
    Forall (atomic_at d0 rs stats') (visited ++ [d']) ∧
    (ok = true -> image d' = Some (mkFile (image_bytes stats' rs) (image_bytes stats' rs)) ∧ image_durable d' = image d')) as Hgo.
  { intros st E. specialize (Hw st orc d0 H0). rewrite E in Hw. destruct Hw as (Hv & <- & Ha & Hok). simpl in *.
    split; [apply Forall_app; split; [done|by apply Forall_singleton]|]. intros Hk. by destruct (Hok Hk) as [[? _] ?]. }
  destruct enable_logging; [destruct gate as [frontier|]|]; [apply Hgo| |apply Hgo].
  intros E. pose proof (triple_unlink d0 rs stats orc d0 H0) as Hu. unfold mbind in E.
  destruct (unlink (orc, d0)) as [[[] t] [o1 d1]]. injection E as <- <- <- <- <-. rewrite app_nil_r.
  destruct Hu as [Ht Hd]. split; [|done]. apply Forall_app. split; [done|apply Forall_singleton; by apply unchanged_atomic].
Qed.

(** C34. Publishing a checkpoint image is atomic under crashes: whatever the
    system calls of Publish return and wherever a crash interrupts it, the
    image name shows what it could have shown before or the complete new
    image, and only the new one once Publish has returned true. *)
Theorem publish_is_atomic enable_logging gate rs stats orc d0 ok stats' visited orc' d' d f :
  Publish enable_logging gate rs stats (orc, d0) = (ok, stats', visited, (orc', d')) ->
  d ∈ visited ++ [d'] -> after_crash d f ->
  (after_crash d0 f ∨ f = Some (image_bytes stats' rs)) ∧
  (ok = true -> d = d' -> f = Some (image_bytes stats' rs)).
Proof.
  intros [Ha Hok]%Publish_spec Hd Hf. split; [by apply (proj1 (Forall_forall _ _) Ha d Hd)|].
  intros Hk ->. destruct (Hok Hk) as [H1 H2]. destruct Hf as [Hf|Hf]; [|rewrite H2 in Hf]; rewrite H1 in Hf; by apply Hf.
Qed.

(** Load of a file that Publish wrote returns its records, cut, end epoch
    and log frontier when the reads make progress, and otherwise reports the
    image unusable; it never returns anything else. *)
Theorem published_image_loads stats rs d : stats_ok stats -> Forall LogRecord.ok rs -> zlen (pack rs) < 2 ^ 63 ->
  content d = image_bytes stats rs ->
  (Load (inl d) = loaded stats rs ∨ status (Load (inl d)) = Unusable) ∧ (benign (oracle d) -> Load (inl d) = loaded stats rs).
Proof.
  intros Hs Hrs Hz Hc. apply (Load_spec stats (pack rs)); [done|by apply pack_bytes_ok| |by apply unpack_pack|done].
  unfold is_u64. zl.
Qed.

End publishing.

(** ** The theorems on a concrete image *)

Module Demo.

#[local] Existing Instance bits_msgpack.
#[local] Existing Instance bits_msgpack_laws.

(** A row locked at the first look and stable at the second, and an entry that
    is gone when it is looked for again. *)
Definition views (attempt : nat) : RowView :=
  match attempt with
  | O => mkRowView (TransactionId.mk 2 5) true [7; 7] (TransactionId.mk 2 6)
  | S _ => mkRowView (TransactionId.mk 2 6) true [7; 8] (TransactionId.mk 2 6)
  end.
Definition entry_view (attempt : nat) : EntryView := mkEntryView (TransactionId.mk 2 7) None (TransactionId.mk 2 7).
Definition table : TableViews :=
  mkViews [9] (fun _ => 0) (fun _ _ => Some views) (fun round _ => match round with O => Some entry_view | _ => None end) (fun _ => false).

Definition taken : list LogRecord.KeyValuePair := [row_kvp [9] [1] (views 1)].

Lemma capture_accounts_for_every_item_witness : row_captured table taken [1] ∧ Forall (captured_pair table) taken.
Proof.
  destruct (capture_accounts_for_every_item table [[1]] [([2], [3])] (0, 0, 0) taken (1, 0, 65)) as (H1 & _ & H3).
  - reflexivity.
  - split; [|exact H3]. apply H1. apply list_elem_of_here.
Defined.

Definition stats : Stats := mkStats 1 2 3 2 1 0 65.
Definition records : LogRecords := [LogRecord.mk 2 []].
Definition old : File := mkFile [1; 2; 3] [1; 2; 3].
Definition directory : Directory := mkDir None (Some old) (Some old).

(** The directory is never synced: a crash may bring the old image back. *)
Definition outcomes : list io_outcome :=
  [IoMoved 0; IoMoved 20; IoFailed EINTR; IoMoved 100; IoMoved 1000; IoMoved 0; IoMoved 0; IoMoved 0; IoFailed EIO].

Definition published := Eval vm_compute in Publish true (Some 3) records stats (outcomes, directory).

Lemma publish_is_atomic_witness :
  after_crash published.2.2 (Some [1; 2; 3]) ∧
  (after_crash directory (Some [1; 2; 3]) ∨ Some [1; 2; 3] = Some (image_bytes published.1.1.2 records)).
Proof.
  assert (after_crash published.2.2 (Some [1; 2; 3])) as Hc by (right; intros _; reflexivity). split; [exact Hc|].
  apply (publish_is_atomic true (Some 3) records stats outcomes directory published.1.1.1 published.1.1.2
    published.1.2 published.2.1 published.2.2 published.2.2 (Some [1; 2; 3])).
  - vm_compute. reflexivity.
  - apply elem_of_app. right. apply list_elem_of_here.
  - exact Hc.
Defined.

Definition image_file : Device := mkDevice (image_bytes stats records) [] [IoMoved 7; IoFailed EINTR; IoMoved 3].

Lemma published_image_loads_witness : Load (inl image_file) = loaded stats records.
Proof.
  apply (published_image_loads stats records image_file).
  - unfold stats_ok, is_u32, is_u64. cbn. lia.
  - repeat constructor; cbn; lia.
  - vm_compute. reflexivity.
  - reflexivity.
  - repeat constructor.
Defined.

End Demo.
