(* ===== verification/Recovery.v ===== *)
(** * Rebuilding the database (src/src/database_impl.h,
    src/src/table/table_dictionary.hpp, src/src/table/table.h)

    [Database::Impl::Recovery] puts the entries of the recovery set into the
    tables and resumes the epoch above everything recovered.  The theorem says
    what the tables hold afterwards.

    A table is its primary index and its secondary indexes, each a map; recovery
    runs alone, before the database accepts work. *)

From stdpp Require Import gmap strings.
From S2P Require Import Prelude PackedKeys Types DataItem TxSet StdAlgo LogReplay Epoch.
Import Replay.

(** ** Tables *)

Module Tables.

Record TableState := mkTable {
  primary_index_ : gmap bytestring DataItem.t;
  secondary_indices_ : gmap bytestring (bool * gmap bytestring DataItem.t);
}.

Definition blank : TableState := mkTable ∅ ∅.

Abbreviation t := (gmap bytestring TableState).

Definition CreateTable (table_name : bytestring) (db : t) : bool * t :=
  match db !! table_name with
  | Some _ => (false, db)
  | None => (true, <[table_name := blank]> db)
  end.

(** An index keeps the entry it has. *)
Definition Put (key : bytestring) (item : DataItem.t) (index : gmap bytestring DataItem.t)
    : bool * gmap bytestring DataItem.t :=
  match index !! key with
  | Some _ => (false, index)
  | None => (true, <[key := item]> index)
  end.

Definition GetOrCreateSecondaryIndex (index_name : bytestring) (unique : bool) (tbl : TableState)
    : bool * gmap bytestring DataItem.t :=
  default (unique, ∅) (secondary_indices_ tbl !! index_name).

End Tables.
Import Tables.

(** ** Recovery *)

Module Recovery.

Definition live (s : Snapshot.t) : bool :=
  match Snapshot.index_name s with
  | [] => DataItem.IsPrimaryInitialized (Snapshot.data_item_copy s)
  | _ => DataItem.IsInitialized (Snapshot.data_item_copy s)
  end.

Definition restore_into (s : Snapshot.t) (tbl : TableState) : TableState :=
  match Snapshot.index_name s with
  | [] => mkTable (Put (Snapshot.key s) (Snapshot.data_item_copy s) (primary_index_ tbl)).2 (secondary_indices_ tbl)
  | ix =>
      let '(unique, index) := GetOrCreateSecondaryIndex ix (Snapshot.index_type_unique s) tbl in
      mkTable (primary_index_ tbl)
        (<[ix := (unique, (Put (Snapshot.key s) (Snapshot.data_item_copy s) index).2)]> (secondary_indices_ tbl))
  end.

(** One entry: the tables and the highest epoch seen. *)
Definition restore (r : Tables.t * Z) (s : Snapshot.t) : Tables.t * Z :=
  if live s then
    let db := (CreateTable (Snapshot.table_name s) r.1).2 in
    (match db !! Snapshot.table_name s with
     | Some tbl => <[Snapshot.table_name s := restore_into s tbl]> db
     | None => db
     end, Z.max r.2 (TransactionId.epoch (DataItem.transaction_id (Snapshot.data_item_copy s))))
  else r.

(** [None] is the exit of a startup that fails. *)
Definition ResumeEpochAbove (frontier : Z) : option Z :=
  if EpochFramework.kEpochHighWater - 1 <=? frontier then None else Some (u32 (frontier + 1)).

Definition run (frontier : Z) (recovery_set : list Snapshot.t) (db : Tables.t) : option (Tables.t * Z) :=
  let '(db', highest_epoch) := fold_left restore recovery_set (db, Z.max 1 frontier) in
  match ResumeEpochAbove highest_epoch with
  | Some resumed => Some (db', resumed)
  | None => None
  end.

End Recovery.
Import Recovery.

(** ** What the tables hold *)

(** The item of an index entry; the rows have the empty index name. *)
Definition entry (db : Tables.t) (n : bytestring * bytestring * bytestring) : option DataItem.t :=
  match db !! n.1.1 with
  | None => None
  | Some tbl =>
      match n.1.2 with
      | [] => primary_index_ tbl !! n.2
      | ix => match secondary_indices_ tbl !! ix with Some index => index.2 !! n.2 | None => None end
      end
  end.

Lemma entry_insert db tn tbl n : entry (<[tn := tbl]> db) n =
  if decide (n.1.1 = tn) then entry {[tn := tbl]} n else entry db n.
Proof.
  unfold entry. destruct (decide (n.1.1 = tn)) as [->|Hne]; [by rewrite lookup_insert_eq, lookup_singleton_eq|].
  by rewrite lookup_insert_ne.
Qed.

Lemma lookup_Put (k k' : bytestring) (i : DataItem.t) (m : gmap bytestring DataItem.t) : (Put k i m).2 !! k' =
  if decide (k' = k) then Some (default i (m !! k)) else m !! k'.
Proof.
  unfold Put. destruct (m !! k) as [j|] eqn:E; simpl.
  - destruct (decide (k' = k)) as [->|]; [done|done].
  - destruct (decide (k' = k)) as [->|Hne]; [by rewrite lookup_insert_eq|by rewrite lookup_insert_ne].
Qed.

(** The entry of a table's own map. *)
Lemma entry_restore_into s tbl n : n.1.1 = Snapshot.table_name s ->
  entry {[Snapshot.table_name s := restore_into s tbl]} n =
  if decide (n = snapshot_name s) then Some (default (Snapshot.data_item_copy s) (entry {[Snapshot.table_name s := tbl]} n))
  else entry {[Snapshot.table_name s := tbl]} n.
Proof.
  destruct n as [[tn ix] k]. simpl. intros ->. unfold entry, snapshot_name. simpl. rewrite !lookup_singleton_eq.
  unfold restore_into. destruct (Snapshot.index_name s) as [|c ix'] eqn:Eix.
  - destruct ix as [|c' ix'']; simpl.
    + rewrite lookup_Put. destruct (decide (k = Snapshot.key s)) as [->|Hne]; [by rewrite decide_True|].
      rewrite decide_False; [done|congruence].
    + by rewrite decide_False.
  - destruct (GetOrCreateSecondaryIndex _ _ tbl) as [u index] eqn:Eg. destruct ix as [|c' ix'']; simpl.
    { by rewrite decide_False. }
    unfold GetOrCreateSecondaryIndex in Eg. destruct (decide (c' :: ix'' = c :: ix')) as [E|Hne].
    + rewrite E, lookup_insert_eq. simpl. rewrite lookup_Put.
      destruct (secondary_indices_ tbl !! (c :: ix')) as [[u' index']|]; simpl in Eg; injection Eg as <- <-.
      * destruct (decide (k = Snapshot.key s)) as [->|Hk]; [by rewrite decide_True|rewrite decide_False; [done|congruence]].
      * destruct (decide (k = Snapshot.key s)) as [->|Hk]; [rewrite decide_True by done|rewrite decide_False by congruence]; simpl;
          by rewrite lookup_empty.
    + rewrite lookup_insert_ne by congruence. rewrite decide_False; [done|congruence].
Qed.

Lemma entry_blank tn n : entry {[tn := blank]} n = None.
Proof.
  unfold entry. destruct n as [[tn' ix] k]. simpl. destruct (decide (tn' = tn)) as [->|Hne];
    [rewrite lookup_singleton_eq|by rewrite lookup_singleton_ne]. by destruct ix.
Qed.

Lemma entry_table db tn tbl n : db !! tn = Some tbl -> n.1.1 = tn -> entry {[tn := tbl]} n = entry db n.
Proof. intros Hdb <-. unfold entry. by rewrite Hdb, lookup_singleton_eq. Qed.

Lemma entry_restore r s n : entry (restore r s).1 n =
  if live s && bool_decide (n = snapshot_name s) then Some (default (Snapshot.data_item_copy s) (entry r.1 n))
  else entry r.1 n.
Proof.
  destruct r as [db h]. unfold restore. destruct (live s); [|done]. cbn [fst andb].
  set (tn := Snapshot.table_name s).
  assert (∃ tbl, (CreateTable tn db).2 !! tn = Some tbl ∧
    (∀ n, n.1.1 = tn -> entry {[tn := tbl]} n = entry db n) ∧
    ∀ n, n.1.1 <> tn -> entry (CreateTable tn db).2 n = entry db n) as (tbl & Htbl & Hin & Hout).
  { unfold CreateTable. destruct (db !! tn) as [tbl|] eqn:E; simpl.
    - exists tbl. split; [done|]. split; [|done]. intros m. by apply entry_table.
    - exists blank. split; [apply lookup_insert_eq|]. split; intros m Hm.
      + rewrite entry_blank. unfold entry. by rewrite Hm, E.
      + rewrite entry_insert. by rewrite decide_False. }
  rewrite Htbl, entry_insert. destruct (decide (n.1.1 = tn)) as [Hn|Hn].
  - unfold tn. rewrite entry_restore_into by done. rewrite Hin by done.
    destruct (decide (n = snapshot_name s)) as [->|Hne];
      [by rewrite bool_decide_eq_true_2|by rewrite bool_decide_eq_false_2].
  - rewrite Hout, bool_decide_eq_false_2; [done| |done]. intros ->. by apply Hn.
Qed.

(** The entries after recovery of entries with distinct names. *)
Lemma entry_fold l r n : NoDup (map snapshot_name (List.filter live l)) ->
  entry (fold_left restore l r).1 n =
  match entry r.1 n with
  | Some i => Some i
  | None => Snapshot.data_item_copy <$> find (fun s => live s && bool_decide (n = snapshot_name s)) l
  end.
Proof.
  revert r. induction l as [|s l IH]; intros r Hnd; simpl; [by destruct (entry r.1 n)|].
  rewrite IH by (simpl in Hnd; destruct (live s); [by inversion Hnd|done]). rewrite entry_restore.
  destruct (live s && bool_decide _); [by destruct (entry r.1 n)|done].
Qed.

Lemma highest_fold l r : r.2 <= (fold_left restore l r).2 ∧
  ∀ s, s ∈ l -> live s = true ->
    TransactionId.epoch (DataItem.transaction_id (Snapshot.data_item_copy s)) <= (fold_left restore l r).2.
Proof.
  revert r. induction l as [|s l IH]; intros r; [split; [simpl; lia|by intros s ?%elem_of_nil]|].
  simpl. destruct (IH (restore r s)) as [H1 H2].
  assert (r.2 <= (restore r s).2 ∧ (live s = true ->
    TransactionId.epoch (DataItem.transaction_id (Snapshot.data_item_copy s)) <= (restore r s).2)) as [H3 H4].
  { unfold restore. destruct (live s); simpl; [lia|]. split; [lia|done]. }
  split; [lia|]. intros x [->|Hx]%elem_of_cons Hl; [specialize (H4 Hl); lia|by apply H2].
Qed.

(** ** Recovery of a recovered set *)

(** A secondary index has one type throughout the log. *)
Definition one_type (ps : list LogRecord.KeyValuePair) : Prop := ∀ tn ix ty ty' k k' pk pk',
  posted_in ps (tn, ix, ty, k) pk -> posted_in ps (tn, ix, ty', k') pk' -> ty = ty'.

Lemma row_live tn k w s : row_snapshot tn k w s -> live s = negb (bool_decide (w.2 = [])).
Proof.
  intros [_ _ Hix _ Hv Hok _]. unfold live. rewrite Hix. unfold DataItem.IsPrimaryInitialized.
  pose proof (IsEmpty_payload _ Hok) as He. unfold DataBuffer.IsEmpty, DataBuffer.toString in *. rewrite Hv in He.
  f_equal. apply Bool.eq_iff_eq_true. by rewrite He, bool_decide_eq_true.
Qed.

Lemma posting_live g P s : posting_snapshot_of g P s -> live s = negb (str_eqb g.1.1.2 []).
Proof.
  intros [_ Hix _ _ Hv (ks & Hk & Hne & _)]. unfold live. rewrite Hix. destruct g.1.1.2 as [|c ix]; [done|]. simpl.
  unfold DataItem.IsInitialized. unfold DataItem.IsPrimaryInitialized in Hv. rewrite Hv. unfold item_keys in Hk.
  destruct (DataItem.primary_keys_ _) as [p|]; [|done]. destruct Hk as (_ & Hc & _). rewrite Hc.
  destruct ks; [done|]. apply negb_true_iff, Z.eqb_neq. zl.
Qed.

Lemma live_NoDup l : NoDup (map snapshot_name l) -> NoDup (map snapshot_name (List.filter live l)).
Proof.
  induction l as [|s l IH]; simpl; [done|]. intros [Hn Hl]%NoDup_cons. destruct (live s); [|by apply IH].
  simpl. apply NoDup_cons. split; [|by apply IH]. intros (x & Hx & Hin)%list_elem_of_fmap.
  apply list_elem_of_In, filter_In in Hin as [Hin _]. apply Hn, list_elem_of_fmap. exists x.
  split; [done|by apply list_elem_of_In].
Qed.

(** What a log says the tables hold. *)
Definition tables_match (ps : list LogRecord.KeyValuePair) (db : Tables.t) : Prop :=
  (∀ tn k, match entry db (tn, [], k) with
           | Some i => ∃ tid value, newest (row_writes tn k ps) = Some (tid, value) ∧ value <> [] ∧
               DataItem.transaction_id i = tid ∧ DataBuffer.toString (DataItem.buffer i) = value
           | None => ∀ tid value, newest (row_writes tn k ps) = Some (tid, value) -> value = []
           end) ∧
  (∀ tn ix k pk, ix <> [] ->
     (∃ i ks, entry db (tn, ix, k) = Some i ∧ item_keys i ks ∧ pk ∈ ks) <->
     ∃ ty, posted_in ps (tn, ix, ty, k) pk).

Section recovery.
Context (ps : list LogRecord.KeyValuePair) (rows postings : list Snapshot.t) (gs : list SecondaryGroupKey).
Hypothesis rows_distinct : NoDup (map (fun s => (Snapshot.table_name s, Snapshot.key s)) rows).
Hypothesis rows_base : Forall (fun s => Snapshot.index_name s = []) rows.
Hypothesis gs_distinct : NoDup gs.
Hypothesis gs_posted : ∀ g, g ∈ gs <-> ∃ pk, posted_in ps g pk.
Hypothesis postings_ok : Forall2 (fun g s => posting_snapshot_of g (posted_in ps g) s) gs postings.
Hypothesis types : one_type ps.

Lemma posting_of s : s ∈ postings -> ∃ g, g ∈ gs ∧ posting_snapshot_of g (posted_in ps g) s.
Proof.
  intros [i Hi]%list_elem_of_lookup. destruct (Forall2_lookup_r _ _ _ _ _ postings_ok Hi) as (g & Hg & Hs).
  exists g. split; [by eapply list_elem_of_lookup_2|done].
Qed.

Lemma posting_for g : g ∈ gs -> ∃ s, s ∈ postings ∧ posting_snapshot_of g (posted_in ps g) s.
Proof.
  intros [i Hi]%list_elem_of_lookup. destruct (Forall2_lookup_l _ _ _ _ _ postings_ok Hi) as (s & Hs & Hg).
  exists s. split; [by eapply list_elem_of_lookup_2|done].
Qed.

(** The name of a group determines it. *)
Lemma group_name g g' : g ∈ gs -> g' ∈ gs -> (g.1.1, g.2) = (g'.1.1, g'.2) -> g = g'.
Proof.
  destruct g as [[[tn ix] ty] k], g' as [[[tn' ix'] ty'] k']. simpl. intros [pk Hp]%gs_posted [pk' Hp']%gs_posted [= <- <- <-].
  by rewrite (types _ _ _ _ _ _ _ _ Hp Hp').
Qed.

Lemma postings_names : NoDup (map snapshot_name postings).
Proof.
  apply NoDup_alt. intros i j n Hi Hj. rewrite list_lookup_fmap in Hi, Hj.
  apply fmap_Some in Hi as (s & Hs & ->). apply fmap_Some in Hj as (s' & Hs' & E).
  destruct (Forall2_lookup_r _ _ _ _ _ postings_ok Hs) as (g & Hg & [H1 H2 _ H4 _ _]).
  destruct (Forall2_lookup_r _ _ _ _ _ postings_ok Hs') as (g' & Hg' & [H1' H2' _ H4' _ _]).
  assert (g = g') as ->.
  { apply group_name; [by eapply list_elem_of_lookup_2|by eapply list_elem_of_lookup_2|].
    injection E as E1 E2 E3. destruct g as [[[? ?] ?] ?], g' as [[[? ?] ?] ?]. simpl in *. congruence. }
  by eapply (NoDup_lookup gs).
Qed.

Lemma rows_names : NoDup (map snapshot_name rows).
Proof.
  apply NoDup_alt. intros i j n Hi Hj. rewrite list_lookup_fmap in Hi, Hj.
  apply fmap_Some in Hi as (s & Hs & ->). apply fmap_Some in Hj as (s' & Hs' & E). injection E as E1 _ E3.
  eapply (NoDup_lookup _ i j _ rows_distinct); rewrite list_lookup_fmap, ?Hs, ?Hs'; simpl; [done|congruence].
Qed.

Lemma live_names : NoDup (map snapshot_name (List.filter live (rows ++ postings))).
Proof.
  rewrite List.filter_app, map_app. apply NoDup_app. split; [apply live_NoDup, rows_names|].
  split; [|apply live_NoDup, postings_names].
  intros n (s & -> & Hs)%list_elem_of_fmap (s' & E & Hs')%list_elem_of_fmap.
  apply list_elem_of_In, filter_In in Hs as [Hs%list_elem_of_In _].
  apply list_elem_of_In, filter_In in Hs' as [Hs'%list_elem_of_In Hl].
  destruct (posting_of s' Hs') as (g & _ & Hp). rewrite (posting_live _ _ _ Hp) in Hl.
  pose proof (proj1 (Forall_forall _ _) rows_base s Hs) as Hix. injection E as _ E2 _.
  rewrite <- (ps_index _ _ _ Hp), <- E2, Hix in Hl. done.
Qed.

(** The entries of the tables are the live entries of the set. *)
Lemma entry_recovered db n i : (∀ n, entry db n = None) -> ∀ h,
  entry (fold_left restore (rows ++ postings) (db, h)).1 n = Some i <->
  ∃ s, s ∈ rows ++ postings ∧ live s = true ∧ snapshot_name s = n ∧ Snapshot.data_item_copy s = i.
Proof.
  intros Hdb h. rewrite entry_fold by apply live_names. simpl. rewrite Hdb. split.
  - intros (s & Hf & ->)%fmap_Some. apply find_some in Hf as [Hin Hb]. apply andb_prop in Hb as [Hl ->%bool_decide_eq_true].
    exists s. split; [by apply list_elem_of_In|done].
  - intros (s & Hin & Hl & <- & <-). destruct (find _ _) as [s'|] eqn:Hf.
    + apply find_some in Hf as [Hin' Hb]. apply andb_prop in Hb as [Hl' E%bool_decide_eq_true]. simpl. do 2 f_equal.
      assert (s' ∈ List.filter live (rows ++ postings)) as [a Ha]%list_elem_of_lookup
        by (apply list_elem_of_In, filter_In; done).
      assert (s ∈ List.filter live (rows ++ postings)) as [b Hb]%list_elem_of_lookup
        by (apply list_elem_of_In, filter_In; split; [by apply list_elem_of_In|done]).
      assert (a = b) as ->; [|congruence].
      eapply (NoDup_lookup _ a b (snapshot_name s) live_names); rewrite list_lookup_fmap, ?Ha, ?Hb; simpl; congruence.
    + apply list_elem_of_In in Hin. pose proof (find_none _ _ Hf s Hin) as Hb. simpl in Hb.
      by rewrite Hl, bool_decide_eq_true_2 in Hb.
Qed.

Hypothesis rows_newest : ∀ tn k,
  match newest (row_writes tn k ps) with
  | None => (tn, k) ∉ map (fun s => (Snapshot.table_name s, Snapshot.key s)) rows
  | Some w => ∃ s, s ∈ rows ∧ row_snapshot tn k w s
  end.
Context (db : Tables.t) (h : Z).
Hypothesis db_empty : ∀ n, entry db n = None.
#[local] Abbreviation after := (fold_left restore (rows ++ postings) (db, h)).1.

Lemma row_unique s s' tn k w : s ∈ rows -> s' ∈ rows -> row_snapshot tn k w s' ->
  (Snapshot.table_name s, Snapshot.key s) = (tn, k) -> s' = s.
Proof.
  intros [a Ha]%list_elem_of_lookup [b Hb]%list_elem_of_lookup [Ht Hk _ _ _ _ _] E. assert (a = b) as ->; [|congruence].
  eapply (NoDup_lookup _ a b (tn, k) rows_distinct); rewrite list_lookup_fmap, ?Ha, ?Hb; simpl; congruence.
Qed.

Lemma row_recovered tn k i : entry after (tn, [], k) = Some i -> ∃ tid value,
  newest (row_writes tn k ps) = Some (tid, value) ∧ value <> [] ∧
  DataItem.transaction_id i = tid ∧ DataBuffer.toString (DataItem.buffer i) = value.
Proof.
  intros (s & Hin & Hl & Hn & <-)%entry_recovered; [|done]. injection Hn as H1 H2 H3.
  apply elem_of_app in Hin as [Hin|Hin].
  - pose proof (rows_newest tn k) as Hrow. destruct (newest _) as [[tid value]|].
    + destruct Hrow as (s' & Hin' & Hs'). rewrite (row_unique s s' tn k _ Hin Hin' Hs') in Hs' by congruence.
      exists tid, value. split; [done|]. rewrite (row_live _ _ _ _ Hs') in Hl.
      apply negb_true_iff, bool_decide_eq_false in Hl. split; [done|]. by destruct Hs'.
    + destruct Hrow. apply list_elem_of_fmap. exists s. split; [congruence|done].
  - destruct (posting_of s Hin) as (g & _ & Hp). rewrite (posting_live _ _ _ Hp) in Hl.
    by rewrite <- (ps_index _ _ _ Hp), H2 in Hl.
Qed.

Lemma row_absent tn k tid value : entry after (tn, [], k) = None ->
  newest (row_writes tn k ps) = Some (tid, value) -> value = [].
Proof.
  intros E Hn. pose proof (rows_newest tn k) as Hrow. rewrite Hn in Hrow. destruct Hrow as (s & Hin & Hs).
  destruct (decide (value = [])) as [|Hne]; [done|]. exfalso.
  assert (entry after (tn, [], k) = Some (Snapshot.data_item_copy s)) as Hc; [|congruence].
  apply entry_recovered; [done|]. exists s. split; [apply elem_of_app; by left|].
  rewrite (row_live _ _ _ _ Hs). simpl. rewrite bool_decide_eq_false_2 by done. split; [done|].
  destruct Hs as [<- <- Hix _ _ _ _]. split; [|done]. unfold snapshot_name. by rewrite Hix.
Qed.

Lemma posting_recovered tn ix k pk : ix <> [] ->
  (∃ i ks, entry after (tn, ix, k) = Some i ∧ item_keys i ks ∧ pk ∈ ks) <-> ∃ ty, posted_in ps (tn, ix, ty, k) pk.
Proof.
  intros Hix. split.
  - intros (i & ks & (s & Hin & Hl & Hn & <-)%entry_recovered & Hk & Hpk); [|done]. injection Hn as H1 H2 H3.
    apply elem_of_app in Hin as [Hin|Hin].
    { pose proof (proj1 (Forall_forall _ _) rows_base s Hin). congruence. }
    destruct (posting_of s Hin) as ([[[tn' ix'] ty] k'] & _ & [E1 E2 _ E4 _ (ks' & Hk' & _ & Hm)]).
    simpl in *. exists ty. subst. rewrite <- (Hm pk). rewrite <- (primary_keys_vector_spec _ _ Hk) in Hpk.
    by rewrite (primary_keys_vector_spec _ _ Hk') in Hpk.
  - intros [ty Hp]. destruct (posting_for (tn, ix, ty, k)) as (s & Hin & Hs); [apply gs_posted; by exists pk|].
    pose proof Hs as [E1 E2 _ E4 _ (ks & Hk & _ & Hm)]. simpl in *. exists (Snapshot.data_item_copy s), ks.
    split; [|split; [done|by apply Hm]]. apply entry_recovered; [done|]. exists s. split; [apply elem_of_app; by right|].
    rewrite (posting_live _ _ _ Hs). simpl. destruct ix; [done|]. split; [done|]. unfold snapshot_name.
    split; [congruence|done].
Qed.

Lemma recovery_match : tables_match ps after.
Proof.
  split; [|intros; by apply posting_recovered]. intros tn k. destruct (entry after (tn, [], k)) as [i|] eqn:E.
  - by apply row_recovered.
  - intros tid value. by apply row_absent.
Qed.

End recovery.

Lemma recovered_match ps set db h : recovered ps set -> one_type ps -> (∀ n, entry db n = None) ->
  tables_match ps (fold_left restore set (db, h)).1.
Proof.
  intros (rows & postings & gs & -> & Hdist & Hrows & Hbase & Hgnd & Hgs & Hps) Hty Hdb.
  by eapply recovery_match.
Qed.

Lemma entry_highest l db h n i : (∀ n, entry db n = None) -> NoDup (map snapshot_name (List.filter live l)) ->
  entry (fold_left restore l (db, h)).1 n = Some i ->
  TransactionId.epoch (DataItem.transaction_id i) <= (fold_left restore l (db, h)).2.
Proof.
  intros Hdb Hnd. rewrite entry_fold by done. simpl. rewrite Hdb. intros (s & Hf & ->)%fmap_Some.
  apply find_some in Hf as [Hin Hb]. apply andb_prop in Hb as [Hl _].
  apply (highest_fold l (db, h)); [by apply list_elem_of_In|done].
Qed.

Lemma recovered_live_names ps set : recovered ps set -> one_type ps -> NoDup (map snapshot_name (List.filter live set)).
Proof.
  intros (rows & postings & gs & -> & Hdist & _ & Hbase & Hgnd & Hgs & Hps) Hty. by eapply live_names.
Qed.

Lemma ResumeEpochAbove_spec h e : 0 <= h -> ResumeEpochAbove h = Some e -> e = h + 1 ∧ e < EpochFramework.kEpochHighWater.
Proof.
  intros Hh. unfold ResumeEpochAbove. pose proof kEpochHighWater_value as Hw.
  destruct (Z.leb_spec (EpochFramework.kEpochHighWater - 1) h); [done|]. intros [= <-].
  rewrite u32_small by (unfold is_u32; lia). lia.
Qed.

(** Recovery of a recovery set into empty tables. *)
Lemma run_spec ps set frontier db db' resumed : recovered ps set -> one_type ps -> (∀ n, entry db n = None) ->
  Recovery.run frontier set db = Some (db', resumed) ->
  tables_match ps db' ∧ frontier < resumed < EpochFramework.kEpochHighWater ∧
  ∀ n i, entry db' n = Some i -> TransactionId.epoch (DataItem.transaction_id i) < resumed.
Proof.
  intros Hrec Hty Hdb Hrun.
  unfold Recovery.run in Hrun. pose proof (recovered_match _ _ db (Z.max 1 frontier) Hrec Hty Hdb) as Hm.
  pose proof (highest_fold set (db, Z.max 1 frontier)) as [Hh _].
  pose proof (fun n i => entry_highest set db (Z.max 1 frontier) n i Hdb (recovered_live_names _ _ Hrec Hty)) as He.
  destruct (fold_left restore set _) as [db1 highest]. simpl in *.
  destruct (ResumeEpochAbove highest) as [e|] eqn:Er; [|done]. injection Hrun as -> ->.
  apply ResumeEpochAbove_spec in Er as [-> ?]; [|lia]. split; [done|]. split; [lia|].
  intros n i Hn. specialize (He n i Hn). lia.
Qed.

(** Recovery rebuilds what the log says: when the records have been
    folded and restored into empty tables, a row has an entry exactly if its
    newest write is not a deletion, with that value and version, a posting
    list holds exactly the primary keys whose newest operation is an addition,
    and the resumed epoch is above the frontier and every recovered version
    and below the high-water mark; in whatever order the hash maps are walked.
    *)
Theorem recovery_rebuilds_the_database latest_order group_order image tail set frontier db db' resumed :
  (∀ l, latest_order l ≡ₚ l) -> (∀ l, group_order l ≡ₚ l) ->
  Forall pair_ok (pairs image ++ pairs tail) -> one_type (pairs image ++ pairs tail) -> (∀ n, entry db n = None) ->
  BuildRecoverySet latest_order group_order image tail = Returns set -> Recovery.run frontier set db = Some (db', resumed) ->
  tables_match (pairs image ++ pairs tail) db' ∧ frontier < resumed < EpochFramework.kEpochHighWater ∧
  ∀ n i, entry db' n = Some i -> TransactionId.epoch (DataItem.transaction_id i) < resumed.
Proof.
  intros Hlo Hgo Hok Hty Hdb Hset. apply run_spec; [|done|done]. by eapply BuildRecoverySet_spec.
Qed.
