(* ===== verification/ImageRecovery.v ===== *)
(** * Recovering from a checkpoint image (src/src/recovery/logger.cpp)

    [Logger::Recover] loads the image of the directory, scans the log past the
    image's cut and builds the recovery set from both, or falls back to the
    whole log.  The theorem shows that the tables recovered this way are those
    the whole log describes, whichever way was taken: an image is what a walk
    of the items after the epoch [cut] closed can see of them. *)

From stdpp Require Import gmap strings.
From S2P Require Import Prelude PackedKeys Types WalDevice Wal WalFrames WalTail WalScan WalRecovery DataItem TxSet StdAlgo LogReplay Checkpoint Recovery Epoch.
Import Replay.

(** ** [Logger::Recover] *)

Module LoggerRecover.

Inductive RecoveryResult : Type := RecoveryFailed (error_number : Z) | Recovered (frontier : Z) (recovery_set : list Snapshot.t).

Section recover.
Context {MP : MsgPack}.
Variable latest_order : list (SecondaryOpKey * (TransactionId.t * Z)) -> list (SecondaryOpKey * (TransactionId.t * Z)).
Variable group_order : list (SecondaryGroupKey * (TransactionId.t * list bytestring)) ->
  list (SecondaryGroupKey * (TransactionId.t * list bytestring)).

(** The image as [Recover] uses it. *)
Definition usable_image (replays : bool) (file : Device + Z) : EpochScanCheckpoint.Image :=
  if replays then
    let image := EpochScanCheckpoint.Load file in
    match EpochScanCheckpoint.status image with
    | EpochScanCheckpoint.Unusable =>
        EpochScanCheckpoint.mkImage EpochScanCheckpoint.Unusable 0 (EpochScanCheckpoint.img_end_epoch image)
          (EpochScanCheckpoint.img_wal_frontier_at_publish image) [] (EpochScanCheckpoint.detail image)
    | _ => image
    end
  else EpochScanCheckpoint.mkImage EpochScanCheckpoint.Absent 0 0 0 [] "".

Definition failure (scan : WalScanResult) : RecoveryResult :=
  RecoveryFailed (if negb (Wal.error_number scan =? 0) then Wal.error_number scan else EIO).

Definition finish (image : LogRecords) (scan : WalScanResult) : outcome RecoveryResult :=
  obind (BuildRecoverySet latest_order group_order image (Wal.records scan)) (fun set =>
    Returns (Recovered (Wal.frontier scan) set)).

Definition Recover (replays : bool) (file : Device + Z) (w : Wal) (d : Device) : outcome RecoveryResult * Wal * Device :=
  let image := usable_image replays file in
  let '(scan, w1, d1) := ScanAndRepair w d (EpochScanCheckpoint.img_cut_epoch image) in
  match Wal.status scan with
  | Wal.Ok =>
      match EpochScanCheckpoint.status image with
      | EpochScanCheckpoint.Ok =>
          if Wal.frontier scan <? EpochScanCheckpoint.img_wal_frontier_at_publish image then
            let '(scan2, w2, d2) := ScanAndRepair w1 d1 0 in
            match Wal.status scan2 with
            | Wal.Ok => (finish [] scan2, w2, d2)
            | _ => (Returns (failure scan2), w2, d2)
            end
          else (finish (EpochScanCheckpoint.records image) scan, w1, d1)
      | _ => (finish (EpochScanCheckpoint.records image) scan, w1, d1)
      end
  | _ => (Returns (failure scan), w1, d1)
  end.

End recover.
End LoggerRecover.
Import LoggerRecover.

(** ** Checkpoint images *)

(** The writes up to a version. *)
Definition as_of {A} (T : TransactionId.t) (ws : list (TransactionId.t * A)) : list (TransactionId.t * A) :=
  List.filter (fun w => negb (TransactionId.ltb T w.1)) ws.

Definition after_epoch {A} (cut : Z) (ws : list (TransactionId.t * A)) : list (TransactionId.t * A) :=
  List.filter (fun w => cut <? TransactionId.epoch w.1) ws.

(** A version of an item that a scan after epoch [cut] has closed can see. *)
Definition visible_after {A} (cut : Z) (ws : list (TransactionId.t * A)) (T : TransactionId.t) : Prop :=
  ∀ w, w ∈ ws -> TransactionId.epoch w.1 <= cut -> TransactionId.ltb T w.1 = false.

(** What a capture takes of a row: the live value of one visible version. *)
Definition captured_row (cut : Z) (ws img : list (TransactionId.t * bytestring)) : Prop :=
  ∃ T, visible_after cut ws T ∧
    img = match newest (as_of T ws) with Some w => if decide (w.2 = []) then [] else [w] | None => [] end.

(** What a capture takes of a posting list: the members at one visible
    version, under that version. *)
Definition captured_posting (cut : Z) (T : TransactionId.t) (ops img : list (TransactionId.t * Z)) : Prop :=
  visible_after cut ops T ∧
  img = match newest (as_of T ops) with
        | Some (_, op) => if op =? LogEntry.code OpAdd then [(T, LogEntry.code OpAdd)] else []
        | None => []
        end.

Record captured (cut : Z) (log image : list LogRecord.KeyValuePair) : Prop := {
  cap_rows : ∀ tn k, captured_row cut (row_writes tn k log) (row_writes tn k image);
  cap_postings : ∀ g, ∃ T, ∀ pk, captured_posting cut T (posting_ops (g, pk) log) (posting_ops (g, pk) image);
}.

(** Every version of an item was written once. *)
Definition distinct_versions {A} (ws : list (TransactionId.t * A)) : Prop :=
  ∀ w w', w ∈ ws -> w' ∈ ws -> w.1 = w'.1 -> w = w'.

Lemma elem_of_as_of {A} T (ws : list (TransactionId.t * A)) w : w ∈ as_of T ws <-> w ∈ ws ∧ TransactionId.ltb T w.1 = false.
Proof. unfold as_of. rewrite list_elem_of_In, filter_In, <- list_elem_of_In, negb_true_iff. done. Qed.

Lemma elem_of_after_epoch {A} cut (ws : list (TransactionId.t * A)) w :
  w ∈ after_epoch cut ws <-> w ∈ ws ∧ cut < TransactionId.epoch w.1.
Proof. unfold after_epoch. rewrite list_elem_of_In, filter_In, <- list_elem_of_In, Z.ltb_lt. done. Qed.

Lemma newest_intro {A} (l : list (TransactionId.t * A)) w : w ∈ l ->
  (∀ v, v ∈ l -> v = w ∨ TransactionId.ltb v.1 w.1 = true) -> newest l = Some w.
Proof.
  intros Hin Hmax. destruct (newest l) as [v|] eqn:E; [|apply newest_None in E as ->; by apply elem_of_nil in Hin].
  apply newest_Some in E as [Hv Hle]. destruct (Hmax v Hv) as [->|Hlt]; [done|]. by rewrite (Hle w Hin) in Hlt.
Qed.

Lemma newest_others {A} (l : list (TransactionId.t * A)) w v : distinct_versions l -> newest l = Some w -> v ∈ l ->
  v = w ∨ TransactionId.ltb v.1 w.1 = true.
Proof.
  intros Hd [Hw Hle]%newest_Some Hv. destruct (TransactionId.ltb v.1 w.1) eqn:E; [by right|left].
  apply Hd; [done|done|]. apply tid_ltb_total; [done|by apply Hle].
Qed.

Lemma later_epoch a b : TransactionId.epoch a < TransactionId.epoch b -> TransactionId.ltb a b = true.
Proof. intros H. unfold TransactionId.ltb. zcase; try done; lia. Qed.

(** The newest write after the cut, or none after it. *)
Lemma newest_split {A} cut (ws : list (TransactionId.t * A)) T w : visible_after cut ws T -> newest ws = Some w ->
  w ∈ after_epoch cut ws ∨ after_epoch cut ws = [] ∧ w ∈ as_of T ws.
Proof.
  intros Hvis Hn. pose proof (newest_Some _ _ Hn) as [Hw Hle].
  destruct (decide (cut < TransactionId.epoch w.1)) as [Hc|Hc]; [left; by apply elem_of_after_epoch|right]. split.
  - destruct (after_epoch cut ws) as [|v l] eqn:E; [done|].
    assert (v ∈ after_epoch cut ws) as [Hv Hvc]%elem_of_after_epoch by (rewrite E; apply list_elem_of_here).
    pose proof (Hle v Hv) as Hl. rewrite later_epoch in Hl; [done|lia].
  - apply elem_of_as_of. split; [done|]. apply Hvis; [done|lia].
Qed.

(** ** An image and a tail stand for the log *)

Definition live_part (o : option (TransactionId.t * bytestring)) : option (TransactionId.t * bytestring) :=
  match o with Some w => if decide (w.2 = []) then None else Some w | None => None end.

Lemma captured_row_sound cut (ws img : list (TransactionId.t * bytestring)) : distinct_versions ws -> captured_row cut ws img ->
  live_part (newest (img ++ after_epoch cut ws)) = live_part (newest ws).
Proof.
  intros Hd (T & Hvis & ->). destruct (newest ws) as [w|] eqn:En.
  2: { apply newest_None in En as ->. done. }
  pose proof (newest_Some _ _ En) as [Hw _].
  assert (∀ v, v ∈ ws -> v = w ∨ TransactionId.ltb v.1 w.1 = true) as Hmax by (intros v; by apply newest_others).
  assert (∀ v, newest (as_of T ws) = Some v -> v ∈ ws) as Hin
    by (intros v [Hv _]%newest_Some; by apply elem_of_as_of in Hv as [? _]).
  destruct (newest_split _ _ _ _ Hvis En) as [Ha|[Ha Hs]].
  - rewrite (newest_intro _ w); [done|apply elem_of_app; by right|].
    intros v [Hv|[Hv _]%elem_of_after_epoch]%elem_of_app; [|by apply Hmax].
    destruct (newest (as_of T ws)) as [u|] eqn:Eu; [|by apply elem_of_nil in Hv]. case_decide; [by apply elem_of_nil in Hv|].
    apply list_elem_of_singleton in Hv as ->. apply Hmax. by apply Hin.
  - rewrite Ha, app_nil_r. rewrite (newest_intro (as_of T ws) w); [|done|].
    2: { intros v [Hv _]%elem_of_as_of. by apply Hmax. }
    simpl. destruct (decide (w.2 = [])); [done|]. simpl. by rewrite decide_False.
Qed.

Definition added (o : option (TransactionId.t * Z)) : bool :=
  match o with Some (_, op) => op =? LogEntry.code OpAdd | None => false end.

Lemma captured_posting_sound cut T (ops img : list (TransactionId.t * Z)) : distinct_versions ops -> captured_posting cut T ops img ->
  added (newest (img ++ after_epoch cut ops)) = added (newest ops).
Proof.
  intros Hd (Hvis & ->). destruct (newest ops) as [[t op]|] eqn:En.
  2: { apply newest_None in En as ->. done. }
  pose proof (newest_Some _ _ En) as [Hw _].
  assert (∀ v, v ∈ ops -> v = (t, op) ∨ TransactionId.ltb v.1 t = true) as Hmax
    by (intros v; by apply (newest_others _ (t, op))).
  destruct (TransactionId.ltb T t) eqn:ET.
  - assert ((t, op) ∈ after_epoch cut ops) as Ha.
    { destruct (newest_split _ _ _ _ Hvis En) as [?|[_ [_ Hs]%elem_of_as_of]]; [done|]. simpl in Hs. congruence. }
    rewrite (newest_intro _ (t, op)); [done|apply elem_of_app; by right|].
    intros v [Hv|[Hv _]%elem_of_after_epoch]%elem_of_app; [|by apply Hmax]. right.
    destruct (newest (as_of T ops)) as [[u o]|]; [|by apply elem_of_nil in Hv]. destruct (o =? _); [|by apply elem_of_nil in Hv].
    by apply list_elem_of_singleton in Hv as ->.
  - rewrite (newest_intro (as_of T ops) (t, op)); [|by apply elem_of_as_of|intros v [Hv _]%elem_of_as_of; by apply Hmax].
    destruct (Z.eqb_spec op (LogEntry.code OpAdd)) as [->|Hop]; simpl.
    + rewrite (newest_intro _ (T, LogEntry.code OpAdd)); [done|apply list_elem_of_here|].
      intros v [->|[Hv _]%elem_of_after_epoch]%elem_of_cons; [by left|]. destruct (Hmax v Hv) as [->|Hlt].
      * destruct (TransactionId.ltb t T) eqn:E'; [by right|left]. by rewrite (tid_ltb_total T t).
      * right. simpl. destruct (TransactionId.ltb t T) eqn:E'; [by eapply tid_ltb_trans|].
        by rewrite (tid_ltb_total T t).
    + destruct (after_epoch cut ops) as [|v l] eqn:Ea; [symmetry; by apply Z.eqb_neq|].
      destruct (newest_split _ _ _ _ Hvis En) as [Hin|[Hn _]]; [|by rewrite Ea in Hn]. rewrite <- Ea.
      rewrite (newest_intro _ (t, op)); [done|done|].
      intros x [Hx _]%elem_of_after_epoch. by apply Hmax.
Qed.

(** ** The tail of a log *)

Lemma pairs_app a b : pairs (a ++ b) = pairs a ++ pairs b.
Proof. unfold pairs. by rewrite map_app, concat_app. Qed.

Lemma row_writes_app tn k a b : row_writes tn k (a ++ b) = row_writes tn k a ++ row_writes tn k b.
Proof. unfold row_writes. by rewrite List.filter_app, map_app. Qed.

Lemma posting_ops_app k a b : posting_ops k (a ++ b) = posting_ops k a ++ posting_ops k b.
Proof. unfold posting_ops. by rewrite map_app, concat_app, List.filter_app, map_app. Qed.

Lemma row_writes_tid tn k ps w : w ∈ row_writes tn k ps -> ∃ p, p ∈ ps ∧ w.1 = LogRecord.tid p.
Proof.
  intros (p & -> & Hp)%list_elem_of_fmap. apply list_elem_of_In, filter_In in Hp as [Hp _].
  exists p. split; [by apply list_elem_of_In|done].
Qed.

Lemma posting_ops_tid k ps w : w ∈ posting_ops k ps -> ∃ p, p ∈ ps ∧ w.1 = LogRecord.tid p.
Proof.
  intros ([k' w'] & -> & He)%list_elem_of_fmap. apply list_elem_of_In, filter_In in He as [He _].
  apply in_concat in He as (l & Hl & He). apply list_elem_of_In, list_elem_of_fmap in Hl as (p & -> & Hp). exists p. split; [done|].
  apply list_elem_of_In in He. unfold ops_of in He. destruct (is_secondary_index p); [|by apply elem_of_nil in He].
  destruct (_ =? _); [by apply list_elem_of_fmap in He as (pk & [= -> ->] & _)|].
  destruct (LogRecord.secondary_primary_key p); [by apply elem_of_nil in He|]. by apply list_elem_of_singleton in He as [= -> ->].
Qed.

(** Every pair carries the epoch of its record. *)
Definition stamped (rs : LogRecords) : Prop :=
  Forall (fun r => Forall (fun p => TransactionId.epoch (LogRecord.tid p) = LogRecord.epoch r) (LogRecord.key_value_pairs r)) rs.

Section tail.
Context {MP : MsgPack} {A : Type} (F : list LogRecord.KeyValuePair -> list (TransactionId.t * A)).
Hypothesis F_app : ∀ a b, F (a ++ b) = F a ++ F b.
Hypothesis F_tid : ∀ ps w, w ∈ F ps -> ∃ p, p ∈ ps ∧ w.1 = LogRecord.tid p.

Lemma F_nil : F [] = [].
Proof. pose proof (f_equal length (F_app [] [])) as H. simpl in H. rewrite length_app in H. destruct (F []); [done|simpl in H; lia]. Qed.

Lemma after_epoch_all cut ps e : (∀ p, p ∈ ps -> TransactionId.epoch (LogRecord.tid p) = e) ->
  after_epoch cut (F ps) = if cut <? e then F ps else [].
Proof.
  intros He. assert (∀ w, w ∈ F ps -> TransactionId.epoch w.1 = e) as Hw by (intros w (p & Hp & ->)%F_tid; by apply He).
  unfold after_epoch. induction (F ps) as [|w l IH]; [by destruct (cut <? e)|]. simpl.
  rewrite IH by (intros v Hv; apply Hw; by apply list_elem_of_further).
  rewrite (Hw w) by apply list_elem_of_here. by destruct (cut <? e).
Qed.

Lemma log_records_cons m f fs : log_records m (f :: fs) = (if m <? f.1 then frame_records f else []) ++ log_records m fs.
Proof.
  unfold log_records. rewrite filter_cons. destruct (Z.ltb_spec m f.1); case_decide; try lia; done.
Qed.

Lemma frame_records_epoch f r : frame_ok f -> r ∈ frame_records f -> LogRecord.epoch r = f.1.
Proof.
  intros (_ & _ & _ & rs & Hrs). unfold frame_records. rewrite Hrs. unfold DecodePayload in Hrs.
  destruct (unpack f.2) as [[decoded consumed]|]; [|done]. destruct (negb _); [done|]. destruct decoded as [|r0 l]; [done|].
  destruct (forallb _ _) eqn:Ef; [|done]. injection Hrs as <-. intros Hr%list_elem_of_In.
  rewrite forallb_forall in Ef. by apply Z.eqb_eq, Ef.
Qed.

Lemma tail_writes cut fs : 0 <= cut -> Forall frame_ok fs -> stamped (log_records 0 fs) ->
  F (pairs (log_records cut fs)) = after_epoch cut (F (pairs (log_records 0 fs))).
Proof.
  intros Hc. induction 1 as [|f fs Hf Hfs IH]; [intros _; change (F [] = after_epoch cut (F [])); by rewrite F_nil|]. rewrite !log_records_cons.
  assert (0 < f.1) as H0 by apply Hf. destruct (Z.ltb_spec 0 f.1); [|lia]. intros [Hs1 Hs2]%Forall_app.
  rewrite !pairs_app, !F_app. unfold after_epoch. rewrite List.filter_app. fold (@after_epoch A cut).
  change (List.filter _ (F (pairs (log_records 0 fs)))) with (after_epoch cut (F (pairs (log_records 0 fs)))).
  rewrite <- IH by done. f_equal.
  change (List.filter _ _) with (after_epoch cut (F (pairs (frame_records f)))).
  rewrite (after_epoch_all cut _ f.1).
  - destruct (cut <? f.1); [done|]. simpl. apply F_nil.
  - intros p Hp. unfold pairs in Hp. apply list_elem_of_In, in_concat in Hp as (l & Hl & Hp).
    apply list_elem_of_In, list_elem_of_fmap in Hl as (r & -> & Hr). rewrite <- (frame_records_epoch f r Hf Hr).
    pose proof (proj1 (Forall_forall _ _) Hs1 r Hr) as Hk. apply (proj1 (Forall_forall _ _) Hk). by apply list_elem_of_In.
Qed.

End tail.

Lemma tail_pairs {MP : MsgPack} cut fs p : 0 <= cut -> p ∈ pairs (log_records cut fs) -> p ∈ pairs (log_records 0 fs).
Proof.
  intros Hc. induction fs as [|f fs IH]; [done|]. rewrite !log_records_cons, !pairs_app.
  intros [Hp|Hp]%elem_of_app; apply elem_of_app; [left|right; by apply IH].
  destruct (Z.ltb_spec cut f.1); [|by apply elem_of_nil in Hp]. by destruct (Z.ltb_spec 0 f.1); [|lia].
Qed.

(** ** Recovery from an image is recovery from the log *)

Lemma posted_in_added ps g pk : posted_in ps g pk <-> added (newest (posting_ops (g, pk) ps)) = true.
Proof.
  unfold posted_in. destruct (newest _) as [[tid op]|]; simpl; [|split; [by intros (? & ?)|done]].
  rewrite Z.eqb_eq. split; [by intros (? & [= _ ->])|intros ->; eauto].
Qed.

Lemma live_part_Some o w : live_part o = Some w <-> o = Some w ∧ w.2 <> [].
Proof. destruct o as [v|]; simpl; [|naive_solver]. case_decide; naive_solver. Qed.

Lemma tables_match_live ps db : tables_match ps db <->
  (∀ tn k, match entry db (tn, [], k) with
           | Some i => live_part (newest (row_writes tn k ps)) =
               Some (DataItem.transaction_id i, DataBuffer.toString (DataItem.buffer i))
           | None => live_part (newest (row_writes tn k ps)) = None
           end) ∧
  (∀ tn ix k pk, ix <> [] -> (∃ i ks, entry db (tn, ix, k) = Some i ∧ item_keys i ks ∧ pk ∈ ks) <->
     ∃ ty, added (newest (posting_ops ((tn, ix, ty, k), pk) ps)) = true).
Proof.
  unfold tables_match. setoid_rewrite posted_in_added. apply and_iff_compat_r. split; intros H tn k; specialize (H tn k).
  - destruct (entry db (tn, [], k)) as [i|].
    + destruct H as (tid & value & Hn & Hv & <- & <-). by apply live_part_Some.
    + destruct (newest _) as [[tid value]|]; [|done]. simpl. by rewrite decide_True by by eapply H.
  - destruct (entry db (tn, [], k)) as [i|].
    + apply live_part_Some in H as [Hn Hv]. eauto 10.
    + intros tid value Hn. rewrite Hn in H. simpl in H. by case_decide.
Qed.

(** A log every version of which was written once. *)
Definition versions_distinct (ps : list LogRecord.KeyValuePair) : Prop :=
  (∀ tn k, distinct_versions (row_writes tn k ps)) ∧ (∀ k, distinct_versions (posting_ops k ps)).

Section equivalence.
Context {MP : MsgPack} (fs : list frame) (cut : Z) (image : LogRecords).
#[local] Abbreviation log := (log_records 0 fs).
Hypothesis frames_fine : Forall frame_ok fs.
Hypothesis log_stamped : stamped log.
Hypothesis log_distinct : versions_distinct (pairs log).
Hypothesis cut_nonneg : 0 <= cut.
Hypothesis image_captured : captured cut (pairs log) (pairs image).

Lemma image_rows tn k : live_part (newest (row_writes tn k (pairs image ++ pairs (log_records cut fs)))) =
  live_part (newest (row_writes tn k (pairs log))).
Proof.
  rewrite row_writes_app, (tail_writes (row_writes tn k) (row_writes_app tn k) (row_writes_tid tn k)) by done.
  apply captured_row_sound; [apply log_distinct|apply image_captured].
Qed.

Lemma image_postings k : added (newest (posting_ops k (pairs image ++ pairs (log_records cut fs)))) =
  added (newest (posting_ops k (pairs log))).
Proof.
  rewrite posting_ops_app, (tail_writes (posting_ops k) (posting_ops_app k) (posting_ops_tid k)) by done.
  destruct k as [g pk]. destruct (cap_postings _ _ _ image_captured g) as [T HT].
  apply (captured_posting_sound _ T); [apply log_distinct|apply HT].
Qed.

Lemma image_tables db : tables_match (pairs image ++ pairs (log_records cut fs)) db -> tables_match (pairs log) db.
Proof.
  rewrite !tables_match_live. intros [H1 H2]. split.
  - intros tn k. specialize (H1 tn k). by rewrite image_rows in H1.
  - intros tn ix k pk Hix. rewrite (H2 tn ix k pk Hix). by setoid_rewrite image_postings.
Qed.

Lemma image_one_type : one_type (pairs log) -> one_type (pairs image ++ pairs (log_records cut fs)).
Proof.
  intros H tn ix ty ty' k k' pk pk'. rewrite !posted_in_added, !image_postings, <- !posted_in_added. apply H.
Qed.

End equivalence.

(** A file that holds a log and zeroes, under a log object that can scan it. *)
Definition clean_log {MP : MsgPack} (w : Wal) (d : Device) (fs : list frame) : Prop :=
  scannable w d ∧ log_ok fs ∧ benign (oracle d) ∧ (∃ n, 0 <= n ∧ content d = log_bytes fs ++ zeroes n) ∧
  zlen (log_bytes fs) + initial_capacity_bytes_ w <= OFF_T_MAX.

Lemma bytes_ok_log {MP : MsgPack} fs n : Forall frame_ok fs -> bytes_ok (log_bytes fs ++ zeroes n).
Proof.
  intros Hfs. apply Forall_app. split; [|apply bytes_ok_zeroes].
  induction Hfs as [|f fs (He & Hsz & Hok & _) Hfs IH]; [constructor|].
  rewrite log_bytes_cons. apply Forall_app. split; [|done].
  unfold frame_bytes. apply (EncodeFrame_ok f.1 f.2); [unfold is_u32; lia|done].
Qed.

Section recover_clean.
Context {MP : MsgPack} {MPL : MsgPackLaws}.

Lemma scan_clean w d fs min_epoch : clean_log w d fs -> ∃ scan w' d',
  ScanAndRepair w d min_epoch = (scan, w', d') ∧ clean_log w' d' fs ∧ Wal.status scan = Wal.Ok ∧
  Wal.frontier scan = log_frontier 0 fs ∧ Wal.records scan = log_records min_epoch fs.
Proof.
  intros (Hsc & Hok & Hb & (n & Hn & Hc) & Hmax).
  destruct (ScanAndRepair_clean w d min_epoch fs n Hsc Hok Hb Hn Hc Hmax) as (w' & d' & -> & (-> & Hsz & m & Hm & Hc') & Hb').
  eexists _, _, _. split; [done|]. rewrite to_nat_zlen, take_ge in Hc' by done. destruct Hsc as (_ & _ & Hcap & _).
  split; [|split; [done|split; [apply scan_log_frontier|]]].
  - split; [|split; [done|split; [done|split; [by exists m|done]]]].
    split; [done|]. split; [done|]. split; [done|]. split; [done|]. rewrite Hc'. apply bytes_ok_log. by destruct Hok.
  - cbn. by rewrite scan_log_records.
Qed.

Lemma usable_image_status replays file : EpochScanCheckpoint.status (usable_image replays file) <> EpochScanCheckpoint.Ok ->
  EpochScanCheckpoint.img_cut_epoch (usable_image replays file) = 0 ∧
  EpochScanCheckpoint.records (usable_image replays file) = [].
Proof.
  unfold usable_image. destruct replays; [|done]. cbn zeta.
  destruct (EpochScanCheckpoint.status (EpochScanCheckpoint.Load file)) eqn:E; [congruence| |done].
  intros _. revert E. unfold EpochScanCheckpoint.Load, EpochScanCheckpoint.LoadHeader, EpochScanCheckpoint.LoadPayload.
  repeat case_match; done.
Qed.

Variable latest_order : list (SecondaryOpKey * (TransactionId.t * Z)) -> list (SecondaryOpKey * (TransactionId.t * Z)).
Variable group_order : list (SecondaryGroupKey * (TransactionId.t * list bytestring)) ->
  list (SecondaryGroupKey * (TransactionId.t * list bytestring)).

(** What [Recover] builds the set from. *)
Lemma Recover_clean replays file w d fs : clean_log w d fs ->
  let image := usable_image replays file in
  ∃ rs cut, (Recover latest_order group_order replays file w d).1.1 =
      obind (BuildRecoverySet latest_order group_order rs (log_records cut fs)) (fun set => Returns (Recovered (log_frontier 0 fs) set)) ∧
    (rs = [] ∧ cut = 0 ∨
     EpochScanCheckpoint.status image = EpochScanCheckpoint.Ok ∧
     EpochScanCheckpoint.img_wal_frontier_at_publish image <= log_frontier 0 fs ∧
     rs = EpochScanCheckpoint.records image ∧ cut = EpochScanCheckpoint.img_cut_epoch image).
Proof.
  intros Hcl image. unfold Recover. fold image. cbn zeta.
  destruct (scan_clean w d fs (EpochScanCheckpoint.img_cut_epoch image) Hcl) as (scan & w1 & d1 & -> & Hcl1 & -> & Hf & Hr).
  pose proof (usable_image_status replays file) as Hu. fold image in Hu. unfold finish.
  destruct (EpochScanCheckpoint.status image) eqn:Es.
  - destruct (Z.ltb_spec (Wal.frontier scan) (EpochScanCheckpoint.img_wal_frontier_at_publish image)).
    + destruct (scan_clean w1 d1 fs 0 Hcl1) as (scan2 & w2 & d2 & -> & _ & -> & Hf2 & Hr2). cbn [fst].
      rewrite Hf2, Hr2. exists [], 0. auto.
    + rewrite Hf, Hr. exists (EpochScanCheckpoint.records image), (EpochScanCheckpoint.img_cut_epoch image).
      split; [done|]. right. split; [done|]. split; [lia|done].
  - destruct Hu as [Hu1 Hu2]; [done|]. rewrite Hf, Hr, Hu1, Hu2. exists [], 0. auto.
  - destruct Hu as [Hu1 Hu2]; [done|]. rewrite Hf, Hr, Hu1, Hu2. exists [], 0. auto.
Qed.

(** An image that [Recover] uses holds what a walk after its cut can see of the
    items of the log. *)
Definition image_fits (replays : bool) (file : Device + Z) (fs : list frame) : Prop :=
  let image := usable_image replays file in
  EpochScanCheckpoint.status image = EpochScanCheckpoint.Ok ->
  EpochScanCheckpoint.img_wal_frontier_at_publish image <= log_frontier 0 fs ->
  0 <= EpochScanCheckpoint.img_cut_epoch image ∧ Forall pair_ok (pairs (EpochScanCheckpoint.records image)) ∧
  captured (EpochScanCheckpoint.img_cut_epoch image) (pairs (log_records 0 fs)) (pairs (EpochScanCheckpoint.records image)).

(** The result of [Recover] rebuilds the tables of the log in a database
    without entries. *)
Lemma recover_tables replays file w d fs result :
  (∀ l, latest_order l ≡ₚ l) -> (∀ l, group_order l ≡ₚ l) -> clean_log w d fs ->
  stamped (log_records 0 fs) -> versions_distinct (pairs (log_records 0 fs)) -> one_type (pairs (log_records 0 fs)) ->
  Forall pair_ok (pairs (log_records 0 fs)) -> image_fits replays file fs ->
  (Recover latest_order group_order replays file w d).1.1 = Returns result ->
  ∃ set, result = Recovered (log_frontier 0 fs) set ∧
    ∀ db db' resumed, (∀ n, entry db n = None) -> Recovery.run (log_frontier 0 fs) set db = Some (db', resumed) ->
      tables_match (pairs (log_records 0 fs)) db' ∧ log_frontier 0 fs < resumed < EpochFramework.kEpochHighWater.
Proof.
  intros Hlo Hgo Hcl Hst Hd Hty Hok Him Hr.
  destruct (Recover_clean replays file w d fs Hcl) as (rs & cut & E & Hcase). rewrite E in Hr. clear E.
  destruct (BuildRecoverySet _ _ rs _) as [s|] eqn:Eb; [|done]. injection Hr as <-. exists s. split; [done|].
  intros db db' resumed Hempty Hrun. assert (Forall frame_ok fs) as Hfr by apply Hcl.
  destruct Hcase as [[-> ->]|(Hs & Hle & -> & ->)].
  - apply BuildRecoverySet_spec in Eb; [|done|done|done].
    destruct (run_spec _ _ _ _ _ _ Eb Hty Hempty Hrun) as (Hm & ? & _). done.
  - destruct (Him Hs Hle) as (Hcut & Hiok & Hcap). apply BuildRecoverySet_spec in Eb; [|done|done|].
    2: { apply Forall_app. split; [done|]. apply Forall_forall. intros p Hp. apply (proj1 (Forall_forall _ _) Hok).
         eapply tail_pairs; done. }
    destruct (run_spec _ _ _ _ _ _ Eb (image_one_type _ _ _ Hfr Hst Hd Hcut Hcap Hty) Hempty Hrun) as (Hm & ? & _).
    split; [by eapply image_tables|done].
Qed.


End recover_clean.

(** ** The theorem on a concrete log and image *)

Module Demo.

#[local] Existing Instance bits_msgpack.
#[local] Existing Instance bits_msgpack_laws.

Definition row (epoch : Z) (key value : bytestring) : LogRecord.KeyValuePair :=
  LogRecord.mkKVP key value (TransactionId.mk epoch 2) [] [] 0 [] 0 [].
Definition posting (epoch : Z) (key : bytestring) (op : SecondaryIndexOp) (pk : bytestring) : LogRecord.KeyValuePair :=
  LogRecord.mkKVP key [] (TransactionId.mk epoch 2) [] [1] 0 [] (LogEntry.code op) pk.

(** Epoch 2 writes the row 1 and posts it under 1; epoch 3 writes the row 2,
    and moves the posting to it. *)
Definition group : list (Z * LogRecords) :=
  [(2, [LogRecord.mk 2 [row 2 [1] [1]; posting 2 [1] OpAdd [1]]]);
   (3, [LogRecord.mk 3 [row 3 [2] [1]; posting 3 [1] OpRemove [1]; posting 3 [1] OpAdd [2]]])].
Definition frames : list frame := group_frames 3 group.
Definition log_file : Device := mkDevice (log_bytes frames ++ zeroes 50) [] [].
Definition log_object : Wal := Wal_open 64 log_file.

(** The image of the items as epoch 2 left them. *)
Definition stats : EpochScanCheckpoint.Stats := EpochScanCheckpoint.mkStats 1 2 2 2 1 1 0.
Definition image_records : LogRecords :=
  [LogRecord.mk 2 [row 2 [1] [1]; LogRecord.mkKVP [1] [] (TransactionId.mk 2 2) [] [1] 0 [[1]] (LogEntry.code OpFull) []]].
Definition image_file : Device := mkDevice (EpochScanCheckpoint.image_bytes stats image_records) [] [].

Definition log_pairs : list LogRecord.KeyValuePair := concat (map LogRecord.key_value_pairs (concat (map snd group))).

Definition image : EpochScanCheckpoint.Image := loaded stats image_records.
#[local] Abbreviation outcome_ := ((Recover (fun l => l) (fun l => l) true (inl image_file) log_object log_file).1.1).

Lemma image_loads : usable_image true (inl image_file) = image.
Proof. vm_compute. reflexivity. Qed.
Lemma log_read : pairs (log_records 0 frames) = log_pairs.
Proof. vm_compute. reflexivity. Qed.
Lemma recovers :
  match outcome_ with
  | Returns (Recovered frontier set) => match Recovery.run frontier set ∅ with Some _ => true | None => false end
  | _ => false
  end = true.
Proof. vm_compute. reflexivity. Qed.

Lemma log_is_clean : clean_log log_object log_file frames.
Proof.
  split; [|split; [|split; [constructor|split; [by exists 50|vm_compute; discriminate]]]].
  - split; [done|]. split; [reflexivity|]. split; [vm_compute; split; discriminate|]. split; [vm_compute; discriminate|bytes_eval].
  - assert (buckets_ok group) as Hb.
    { split; [|cbn; lia]. repeat (apply Forall_cons; split); try apply Forall_nil_2; (split; [unfold is_u32; cbn; lia|]);
        (apply Forall_cons; split; [|apply Forall_nil_2]); (split; [unfold is_u32; cbn; lia|]);
        repeat (apply Forall_cons; split); try apply Forall_nil_2; unfold LogRecord.kvp_ok, TransactionId.ok, is_u32, is_u8; cbn;
        repeat split; try lia; first [apply Forall_nil_2|bytes_eval]. }
    assert (Forall (admissible 0) (selected 3 group)) as Ha.
    { change (selected 3 group) with group. repeat (apply Forall_cons; split); try apply Forall_nil_2;
        (split; [done|split; [done|split; [cbn; lia|split; [by apply Forall_singleton|vm_compute; discriminate]]]]). }
    split; [|split; [vm_compute; discriminate|split; [vm_compute; discriminate|exact I]]].
    by destruct (group_frames_ok 0 3 group Hb Ha).
Qed.

(** Case analysis on which of the concrete keys a key is. *)
Ltac by_keys := repeat match goal with
  | |- context [str_eqb ?a ?b] => let E := fresh in destruct (str_eqb a b) eqn:E; [apply str_eqb_eq in E; subst|]
  end.

Lemma log_rows tn k : row_writes tn k log_pairs =
  if str_eqb [] tn then (if str_eqb [1] k then [(TransactionId.mk 2 2, [1])] else []) ++
                        (if str_eqb [2] k then [(TransactionId.mk 3 2, [1])] else []) else [].
Proof.
  unfold row_writes, log_pairs. cbn -[str_eqb]. cbn [is_secondary_index].
  by_keys; done.
Qed.

Lemma demo_image_rows tn k : row_writes tn k (pairs image_records) =
  if str_eqb [] tn then (if str_eqb [1] k then [(TransactionId.mk 2 2, [1])] else []) else [].
Proof. unfold row_writes, pairs. cbn -[str_eqb]. by_keys; done. Qed.

Definition posted_key (pk : bytestring) : SecondaryOpKey := (([], [1], 0, [1]), pk).

Lemma log_postings k : posting_ops k log_pairs =
  if bool_decide (posted_key [1] = k) then [(TransactionId.mk 2 2, 1); (TransactionId.mk 3 2, 2)]
  else if bool_decide (posted_key [2] = k) then [(TransactionId.mk 3 2, 1)] else [].
Proof.
  unfold posting_ops. change (concat (map ops_of log_pairs)) with
    [(posted_key [1], (TransactionId.mk 2 2, 1)); (posted_key [1], (TransactionId.mk 3 2, 2));
     (posted_key [2], (TransactionId.mk 3 2, 1))]. cbn [List.filter fst].
  destruct (decide (posted_key [1] = k)) as [<-|H1]; [done|]. rewrite !bool_decide_eq_false_2 by done.
  by destruct (bool_decide (posted_key [2] = k)).
Qed.

Lemma demo_image_postings k : posting_ops k (pairs image_records) =
  if bool_decide (posted_key [1] = k) then [(TransactionId.mk 2 2, 1)] else [].
Proof.
  unfold posting_ops. change (concat (map ops_of (pairs image_records))) with [(posted_key [1], (TransactionId.mk 2 2, 1))].
  cbn [List.filter fst]. by destruct (bool_decide (posted_key [1] = k)).
Qed.

(** Membership in a concrete list. *)
Ltac in_list := repeat (match goal with
  | H : _ ∈ [] |- _ => by apply elem_of_nil in H
  | H : _ ∈ _ :: _ |- _ => apply elem_of_cons in H as [->|H]
  end).

Lemma image_is_captured : captured 2 log_pairs (pairs image_records).
Proof.
  split.
  - intros tn k. rewrite log_rows, demo_image_rows. exists (TransactionId.mk 2 2). by_keys; (split; [|done]);
      intros w Hw Hle; cbn in Hw; in_list; simpl in Hle; first [lia|done].
  - intros g. exists (TransactionId.mk 2 2). intros pk. rewrite log_postings, demo_image_postings.
    destruct (bool_decide _); [|destruct (bool_decide _)]; (split; [|done]);
      intros w Hw Hle; cbn in Hw; in_list; simpl in Hle; first [lia|done].
Qed.

Lemma log_versions : versions_distinct log_pairs.
Proof.
  split; [intros tn k; rewrite log_rows; by_keys|intros k; rewrite log_postings; repeat case_bool_decide];
    intros w w' Hw Hw' Heq; cbn in Hw, Hw'; in_list; simpl in Heq; first [done|congruence].
Qed.

Lemma log_one_type : one_type log_pairs.
Proof.
  intros tn ix ty ty' k k' pk pk'. rewrite !posted_in_added, !log_postings.
  repeat case_bool_decide; try done; unfold posted_key in *; congruence.
Qed.

(** Concrete pairs hold values of their types. *)
Ltac pairs_eval :=
  repeat (apply Forall_cons; split); try apply Forall_nil_2; unfold pair_ok, TransactionId.ok, is_u32; cbn;
  repeat split; try lia; repeat (apply Forall_cons; split); try apply Forall_nil_2; try lia; unfold string_ok; cbn;
  repeat split; try lia; bytes_eval.

Lemma image_fits_log : image_fits true (inl image_file) frames.
Proof.
  unfold image_fits. rewrite log_read, image_loads. cbv zeta. intros _ _. split; [vm_compute; discriminate|].
  split; [|exact image_is_captured]. pairs_eval.
Qed.


#[local] Abbreviation replayed := (BuildRecoverySet (fun l => l) (fun l => rev l) [] (concat (map snd group))).

Lemma replays :
  match replayed with Returns set => match Recovery.run 3 set ∅ with Some _ => true | None => false end | _ => false end = true.
Proof. vm_compute. reflexivity. Qed.

Lemma recovery_rebuilds_the_database_witness :
  match replayed with
  | Returns set =>
      match Recovery.run 3 set ∅ with
      | Some (db', resumed) => tables_match log_pairs db' ∧ 3 < resumed
      | None => False
      end
  | _ => False
  end.
Proof.
  pose proof replays as Hr. destruct replayed as [set|field] eqn:E; [|discriminate Hr].
  destruct (Recovery.run 3 set ∅) as [[db' resumed]|] eqn:Er; [|discriminate Hr].
  destruct (recovery_rebuilds_the_database (fun l => l) (fun l => rev l) [] (concat (map snd group)) set 3 ∅ db' resumed)
    as (Hm & Hres & _).
  - reflexivity.
  - intros l. symmetry. apply Permutation_rev.
  - pairs_eval.
  - exact log_one_type.
  - intros [[tn ix] k]. reflexivity.
  - exact E.
  - exact Er.
  - split; [exact Hm|lia].
Defined.

End Demo.
