(* ===== verification/Startup.v ===== *)
(** * Configuration and startup (src/include/lineairdb/config.h,
    src/src/database_impl.h)

    The settings of a database, their normalization and validation, and the
    constructor of [Database::Impl]: which settings it refuses, in which order
    it looks, and with which tables, policy and epoch it comes up.  A refusal
    ends the process; it is a value here.

    The constructor runs [Logger::Recover] and [Recovery] of the other files on
    the log and the image of the directory.  The threads it starts at the end
    are those of Epoch.v, Durability.v and ThreadPool.v.

    The theorems show that a configuration is refused exactly for the listed
    reasons and without touching the log, and that a start on a clean log comes
    up with the tables the log describes, at an epoch above it.  The default
    configuration is among the refused ones in a build without flags. *)

From Stdlib Require Import QArith_base.
From stdpp Require Import gmap strings.
From S2P Require Import Prelude PackedKeys Types WalDevice Wal WalFrames WalTail WalScan WalRecovery DataItem TxSet StdAlgo LogReplay Checkpoint Recovery ImageRecovery Epoch.
Import Replay.

#[local] Open Scope Z_scope.

(** ** [Config] *)

Module Config.

Inductive ConcurrencyControl : Type := Silo | SiloNWR | TwoPhaseLocking.
Inductive Logger : Type := ThreadLocalLogger.
Inductive IndexStructure : Type := HashTableWithPrecisionLockingIndex | Masstree.
Inductive CallbackEngine : Type := ThreadLocal.
Inductive CommitDurability : Type := Volatile | Async | Sync.

#[global] Instance ConcurrencyControl_eq_dec : EqDecision ConcurrencyControl.
Proof. solve_decision. Defined.
#[global] Instance IndexStructure_eq_dec : EqDecision IndexStructure.
Proof. solve_decision. Defined.
#[global] Instance CommitDurability_eq_dec : EqDecision CommitDurability.
Proof. solve_decision. Defined.

Record t := mk {
  max_thread : Z;
  epoch_duration_ms : Z;
  concurrency_control_protocol : ConcurrencyControl;
  logger : Logger;
  index_structure : IndexStructure;
  enable_pax_storage : bool;
  callback_engine : CallbackEngine;
  enable_recovery : bool;
  commit_durability : CommitDurability;
  wal_initial_capacity_bytes : Z;
  enable_logging : bool;
  enable_checkpointing : bool;
  checkpoint_period : Z;
  checkpoint_interval_ms : Z;
  checkpoint_once_after_ms : Z;
  rehash_threshold : Q;
  work_dir : string;
  anonymous_table_name : bytestring;
}.

(** The bytes of a string literal. *)
Definition literal (s : string) : bytestring := map (fun a => Z.of_N (Ascii.N_of_ascii a)) (String.list_ascii_of_string s).

(** A [Config] with the initializers of its members, on a machine with
    [hardware_concurrency] threads. *)
Definition default (hardware_concurrency : Z) : t :=
  mk hardware_concurrency 40 SiloNWR ThreadLocalLogger HashTableWithPrecisionLockingIndex false ThreadLocal true Async
    (64 * 1024 * 1024) true false 30 0 0 (3 # 4) "./lineairdb_logs" (literal "__anonymous_table").

Definition with_logging (c : t) (b : bool) : t :=
  mk (max_thread c) (epoch_duration_ms c) (concurrency_control_protocol c) (logger c) (index_structure c) (enable_pax_storage c)
    (callback_engine c) (enable_recovery c) (commit_durability c) (wal_initial_capacity_bytes c) b (enable_checkpointing c)
    (checkpoint_period c) (checkpoint_interval_ms c) (checkpoint_once_after_ms c) (rehash_threshold c) (work_dir c)
    (anonymous_table_name c).

End Config.

(** ** [Database::Impl::Impl] *)

Module Startup.

(** The macros a build may define. *)
Record Build := mkBuild { LINEAIRDB_WITH_2PL_CHECKPOINT_METADATA : bool; LINEAIRDB_WITH_NWR : bool }.

(** The exits of the constructor. *)
Inductive StartupError : Type :=
| CheckpointingUnsupported
| TwoPhaseLockingNeedsLayout
| SiloNWRNeedsMetadata
| TwoPhaseLockingWithMasstree
| SecondInstance
| NoAnonymousTable
| LogUnreadable
| EpochsExhausted.

Definition NormalizeAndValidateConfig (b : Build) (c : Config.t) : StartupError + Config.t :=
  let config := Config.with_logging c (bool_decide (Config.commit_durability c <> Config.Volatile)) in
  if Config.enable_checkpointing config then inl CheckpointingUnsupported
  else if negb (LINEAIRDB_WITH_2PL_CHECKPOINT_METADATA b) &&
          bool_decide (Config.concurrency_control_protocol config = Config.TwoPhaseLocking) then inl TwoPhaseLockingNeedsLayout
  else if negb (LINEAIRDB_WITH_NWR b) &&
          bool_decide (Config.concurrency_control_protocol config = Config.SiloNWR) then inl SiloNWRNeedsMetadata
  else inr config.

(** The capacity with which [ThreadLocalLogger] opens its log. *)
Definition wal_capacity (c : Config.t) : Z :=
  match Config.commit_durability c with Config.Volatile => kNoPreallocation | _ => Config.wal_initial_capacity_bytes c end.

(** [EpochScanCheckpoint::Supported], and whether [Start] starts the thread. *)
Definition Supported (c : Config.t) : bool :=
  Config.enable_logging c && bool_decide (Config.index_structure c = Config.Masstree).
Definition checkpoints (c : Config.t) : bool :=
  negb ((Config.checkpoint_interval_ms c =? 0) && (Config.checkpoint_once_after_ms c =? 0)) && Supported c.

(** A database that has come up. *)
Record Impl := mkImpl {
  config_ : Config.t;
  durability_ : Config.CommitDurability;
  wal_ : Wal;
  table_dictionary_ : Tables.t;
  global_epoch_ : Z;
  durable_epoch_ : Z;
  checkpoint_thread : bool;
}.

(** The epoch the framework is constructed with. *)
Definition first_epoch : Z := EpochFramework.global_epoch_ (EpochFramework.init 0).

(** The tables and the epoch after the log has been read. *)
Definition resume (replays : bool) (frontier : Z) (recovery_set : list Snapshot.t) (db : Tables.t) : option (Tables.t * Z) :=
  if replays then Recovery.run frontier recovery_set db
  else if frontier =? 0 then Some (db, first_epoch)
  else option_map (pair db) (Recovery.ResumeEpochAbove frontier).

Section startup.
Context {MP : MsgPack}.
Variable latest_order : list (SecondaryOpKey * (TransactionId.t * Z)) -> list (SecondaryOpKey * (TransactionId.t * Z)).
Variable group_order : list (SecondaryGroupKey * (TransactionId.t * list bytestring)) ->
  list (SecondaryGroupKey * (TransactionId.t * list bytestring)).

(** [instance] tells whether another database exists, [image] is the file of the
    checkpoint image, [d] that of the log. *)
Definition construct (b : Build) (c : Config.t) (instance : bool) (image : Device + Z) (d : Device)
    : outcome (StartupError + Impl) * Device :=
  match NormalizeAndValidateConfig b c with
  | inl e => (Returns (inl e), d)
  | inr config =>
      let w := Wal_open (wal_capacity config) d in
      if bool_decide (Config.concurrency_control_protocol config = Config.TwoPhaseLocking) &&
         bool_decide (Config.index_structure config = Config.Masstree) then (Returns (inl TwoPhaseLockingWithMasstree), d)
      else if instance then (Returns (inl SecondInstance), d)
      else if bool_decide (Config.anonymous_table_name config = []) then (Returns (inl NoAnonymousTable), d)
      else
        let db := (Tables.CreateTable (Config.anonymous_table_name config) ∅).2 in
        let '(recovered, w', d') :=
          LoggerRecover.Recover latest_order group_order (Config.enable_recovery config) image w d in
        (obind recovered (fun r =>
           Returns (match r with
                    | LoggerRecover.RecoveryFailed _ => inl LogUnreadable
                    | LoggerRecover.Recovered frontier recovery_set =>
                        match resume (Config.enable_recovery config) frontier recovery_set db with
                        | None => inl EpochsExhausted
                        | Some (db', epoch) =>
                            inr (mkImpl config (Config.commit_durability config) w' db' epoch frontier (checkpoints config))
                        end
                    end)), d')
  end.

End startup.
End Startup.
Import Startup.

(** ** Theorems *)

(** What a configuration must satisfy. *)
Definition accepted (b : Build) (c : Config.t) : Prop :=
  Config.enable_checkpointing c = false ∧
  (Config.concurrency_control_protocol c = Config.TwoPhaseLocking ->
     LINEAIRDB_WITH_2PL_CHECKPOINT_METADATA b = true ∧ Config.index_structure c <> Config.Masstree) ∧
  (Config.concurrency_control_protocol c = Config.SiloNWR -> LINEAIRDB_WITH_NWR b = true) ∧
  Config.anonymous_table_name c <> [].

(** The configuration a database runs with. *)
Definition normalized (c : Config.t) : Config.t :=
  Config.with_logging c (bool_decide (Config.commit_durability c <> Config.Volatile)).

Section theorems.
Context {MP : MsgPack} {MPL : MsgPackLaws}.
Variable latest_order : list (SecondaryOpKey * (TransactionId.t * Z)) -> list (SecondaryOpKey * (TransactionId.t * Z)).
Variable group_order : list (SecondaryGroupKey * (TransactionId.t * list bytestring)) ->
  list (SecondaryGroupKey * (TransactionId.t * list bytestring)).

(** The two outcomes of the checks. *)
Lemma construct_cases b c instance image d :
  (¬ accepted b c ∨ instance = true) ∧
    (∃ e, construct latest_order group_order b c instance image d = (Returns (inl e), d) ∧ e <> LogUnreadable ∧ e <> EpochsExhausted) ∨
  accepted b c ∧ instance = false ∧
    construct latest_order group_order b c instance image d =
    let '(recovered, w', d') :=
      LoggerRecover.Recover latest_order group_order (Config.enable_recovery c) image (Wal_open (wal_capacity c) d) d in
    (obind recovered (fun r =>
       Returns (match r with
                | LoggerRecover.RecoveryFailed _ => inl LogUnreadable
                | LoggerRecover.Recovered frontier recovery_set =>
                    match resume (Config.enable_recovery c) frontier recovery_set
                            (Tables.CreateTable (Config.anonymous_table_name c) ∅).2 with
                    | None => inl EpochsExhausted
                    | Some (db', epoch) =>
                        inr (mkImpl (normalized c) (Config.commit_durability c) w' db' epoch frontier (checkpoints (normalized c)))
                    end
                end)), d').
Proof.
  unfold construct, NormalizeAndValidateConfig. fold (normalized c).
  destruct (Config.enable_checkpointing (normalized c)) eqn:E0.
  { left. split; [left; intros (H & _); cbn in E0; congruence|by eexists]. }
  destruct (negb _ && bool_decide (Config.concurrency_control_protocol (normalized c) = Config.TwoPhaseLocking)) eqn:E1.
  { apply andb_prop in E1 as [E1%negb_true_iff E%bool_decide_eq_true].
    left. split; [left; intros (_ & H & _); destruct (H E); congruence|by eexists]. }
  destruct (negb _ && bool_decide (Config.concurrency_control_protocol (normalized c) = Config.SiloNWR)) eqn:E2.
  { apply andb_prop in E2 as [E2%negb_true_iff E%bool_decide_eq_true].
    left. split; [left; intros (_ & _ & H & _); specialize (H E); congruence|by eexists]. }
  destruct (bool_decide _ && bool_decide (Config.index_structure (normalized c) = Config.Masstree)) eqn:E3.
  { apply andb_prop in E3 as [E%bool_decide_eq_true E'%bool_decide_eq_true].
    left. split; [left; intros (_ & H & _); by destruct (H E)|by eexists]. }
  destruct instance; [left; split; [by right|by eexists]|].
  destruct (bool_decide (Config.anonymous_table_name (normalized c) = [])) eqn:E4.
  { apply bool_decide_eq_true in E4. left. split; [left; by intros (_ & _ & _ & H)|by eexists]. }
  apply bool_decide_eq_false in E4. right. split; [|by split]. split_and!; [done| | |done].
  - intros E. rewrite (bool_decide_eq_true_2 _ E), andb_true_r in E1. apply negb_false_iff in E1. split; [done|].
    intros E'. by rewrite (bool_decide_eq_true_2 _ E), (bool_decide_eq_true_2 _ E') in E3.
  - intros E. rewrite (bool_decide_eq_true_2 _ E), andb_true_r in E2. by apply negb_false_iff in E2.
Qed.

(** A start is refused for its configuration exactly if the configuration is
    not acceptable to the build or another database exists, and then the log
    has not been touched; every other refusal is for the log. *)
Theorem startup_refuses_unsupported b c instance image d :
  (accepted b c ∧ instance = false <->
   ∀ e, (construct latest_order group_order b c instance image d).1 = Returns (inl e) -> e = LogUnreadable ∨ e = EpochsExhausted) ∧
  (¬ accepted b c ∨ instance = true -> (construct latest_order group_order b c instance image d).2 = d).
Proof.
  destruct (construct_cases b c instance image d) as [(Hn & e & E & He1 & He2)|(Ha & Hi & E)].
  - rewrite E. split; [|done]. split; [by intros [? ->]; destruct Hn|]. intros H. by destruct (H e eq_refl).
  - split; [|by intros [?|?]; [|congruence]]. split; [intros _|done]. rewrite E.
    destruct (LoggerRecover.Recover _ _ _ _ _ _) as [[r w'] d']. cbn [fst].
    destruct r as [[n|frontier set]|field]; cbn [obind]; [intros e [= <-]; by left| |done].
    destruct (resume _ _ _ _) as [[db' epoch]|]; [done|]. intros e [= <-]. by right.
Qed.

(** A table without entries. *)
Lemma anonymous_table_empty name n : entry (Tables.CreateTable name ∅).2 n = None.
Proof.
  destruct n as [[tn ix] k]. unfold Tables.CreateTable, entry. rewrite lookup_empty. cbn [snd fst].
  destruct (decide (tn = name)) as [->|Hne].
  - rewrite lookup_insert_eq. destruct ix; cbn; by rewrite lookup_empty.
  - by rewrite lookup_insert_ne, lookup_empty.
Qed.

(** C17. A start on a clean log comes up, if it comes up, with the tables the
    log describes, whether or not a checkpoint image was used, or with none
    but the anonymous table when recovery is off; at an epoch above the log,
    which is what is durable; with logging exactly if the durability policy
    asks for it, and with that policy in force. The log is one that the
    database writes (each pair stamped with the epoch of its record, each
    version written once, one type per secondary index), and an image that is
    used must belong to it: of each item of the log it holds what a walk after
    its cut can see. The code does not check that; it takes the image of the
    same directory (logger.cpp:259). *)
Theorem startup_rebuilds_the_database b c instance image d fs u d' :
  (∀ l, latest_order l ≡ₚ l) -> (∀ l, group_order l ≡ₚ l) -> clean_log (Wal_open (wal_capacity c) d) d fs ->
  stamped (log_records 0 fs) -> versions_distinct (pairs (log_records 0 fs)) -> one_type (pairs (log_records 0 fs)) ->
  Forall pair_ok (pairs (log_records 0 fs)) -> image_fits (Config.enable_recovery c) image fs ->
  construct latest_order group_order b c instance image d = (Returns (inr u), d') ->
  (if Config.enable_recovery c then tables_match (pairs (log_records 0 fs)) (table_dictionary_ u)
   else ∀ n, entry (table_dictionary_ u) n = None) ∧
  durable_epoch_ u = log_frontier 0 fs ∧ log_frontier 0 fs < global_epoch_ u < EpochFramework.kEpochHighWater ∧
  durability_ u = Config.commit_durability c ∧
  (Config.enable_logging (config_ u) = true <-> Config.commit_durability c <> Config.Volatile).
Proof.
  intros Hlo Hgo Hcl Hst Hd Hty Hok Him Hcon.
  destruct (construct_cases b c instance image d) as [(_ & e & E & _)|(Ha & Hi & E)]; rewrite E in Hcon; [done|].
  destruct (LoggerRecover.Recover _ _ _ _ _ _) as [[r w'] d1] eqn:Er. injection Hcon as Hcon _.
  destruct r as [r|field]; [|done]. cbn [obind] in Hcon. injection Hcon as Hcon.
  destruct (recover_tables latest_order group_order (Config.enable_recovery c) image (Wal_open (wal_capacity c) d) d fs r)
    as (set & -> & Hdb); try done; [by rewrite Er|].
  destruct (resume _ _ _ _) as [[db' epoch]|] eqn:Eres; [|done]. injection Hcon as <-.
  cbn [table_dictionary_ durable_epoch_ global_epoch_ durability_ config_].
  pose proof kEpochHighWater_value as Hw. pose proof (log_frontier_nonneg fs (proj1 (proj2 Hcl)) 0 ltac:(lia)) as H0.
  assert ((if Config.enable_recovery c then tables_match (pairs (log_records 0 fs)) db' else ∀ n, entry db' n = None) ∧
    log_frontier 0 fs < epoch < EpochFramework.kEpochHighWater) as [Ht He].
  { unfold resume in Eres. destruct (Config.enable_recovery c).
    - eapply Hdb; [|exact Eres]. apply anonymous_table_empty.
    - destruct (Z.eqb_spec (log_frontier 0 fs) 0) as [E0|E0].
      + injection Eres as <- <-. rewrite E0. unfold first_epoch. cbn. split; [apply anonymous_table_empty|lia].
      + destruct (Recovery.ResumeEpochAbove _) as [e|] eqn:Ee; [|done]. injection Eres as <- <-.
        apply ResumeEpochAbove_spec in Ee as [-> ?]; [|done]. split; [apply anonymous_table_empty|lia]. }
  do 4 (split; [done|]). unfold normalized. cbn [Config.enable_logging Config.with_logging]. apply bool_decide_eq_true.
Qed.

End theorems.

(** ** Starts *)

Module Demo.
Import ImageRecovery.Demo.

#[local] Existing Instance bits_msgpack.
#[local] Existing Instance bits_msgpack_laws.

(** A build whose flags are those of the build files, which set none. *)
Definition plain_build : Build := mkBuild false false.

(** In a build without flags, which is what the build files make, the
    constructor refuses the default configuration whatever is on the disk,
    because its protocol needs the metadata of another build. *)
Lemma default_config_is_refused hardware_concurrency instance image d :
  construct (fun l => l) (fun l => l) plain_build (Config.default hardware_concurrency) instance image d =
  (Returns (inl SiloNWRNeedsMetadata), d).
Proof. reflexivity. Qed.

(** Silo with the default policy, a small log and the image of epoch 2. *)
Definition config : Config.t :=
  Config.mk 2 40 Config.Silo Config.ThreadLocalLogger Config.HashTableWithPrecisionLockingIndex false Config.ThreadLocal true
    Config.Async 64 false false 30 0 0 (3 # 4) "./lineairdb_logs" (Config.literal "__anonymous_table").

#[local] Abbreviation started :=
  (construct (fun l => l) (fun l => l) plain_build config false (inl image_file) log_file).

Lemma comes_up : match started.1 with Returns (inr _) => true | _ => false end = true.
Proof. vm_compute. reflexivity. Qed.

Lemma startup_rebuilds_the_database_witness :
  match started with
  | (Returns (inr u), _) => tables_match log_pairs (table_dictionary_ u) ∧ log_frontier 0 frames < global_epoch_ u
  | _ => False
  end.
Proof.
  pose proof comes_up as Hr. destruct started as [[[e|u]|field] d'] eqn:E; try discriminate Hr.
  destruct (startup_rebuilds_the_database (fun l => l) (fun l => l) plain_build config false (inl image_file) log_file frames u d')
    as (Ht & _ & He & _); rewrite ?log_read.
  - reflexivity.
  - reflexivity.
  - exact log_is_clean.
  - vm_compute. repeat constructor.
  - exact log_versions.
  - exact log_one_type.
  - pairs_eval.
  - exact image_fits_log.
  - exact E.
  - cbn [Config.enable_recovery config] in Ht. rewrite log_read in Ht. split; [exact Ht|apply He].
Defined.

Lemma startup_refuses_unsupported_witness :
  (construct (fun l => l) (fun l => l) plain_build config true (inl image_file) log_file).2 = log_file.
Proof. apply (startup_refuses_unsupported (fun l => l) (fun l => l) plain_build config true (inl image_file) log_file). by right. Defined.

End Demo.
