(* ===== verification/Durability.v ===== *)
(** * Durability of commits (src/src/recovery/logger.h, logger.cpp,
    src/src/recovery/impl/thread_local_logger.cpp, src/src/database_impl.h)

    The composition of the epoch framework, the per-thread log buffers, the
    flusher, the logger and the write-ahead log into one transition system: the
    threads of the database commit ([EndTransaction]: [Enqueue], [MakeMeOffline],
    [AwaitCommitDurability]), the epoch writer hands closed epochs over
    ([EventsOnEpochIsUpdated], [ScheduleFlush]), the flusher collects and
    appends ([FlusherLoop], [FlushThrough]) and publishes the durable epoch
    ([PublishDurable], [PublishFailure]); the process may be killed or lose
    power at any step and starts again through a scan of the log.

    The theorems show that a commit that was acknowledged as durable survives
    every crash, that the durable epoch never runs ahead of the log, and that
    the two checks by which the flusher would stop the process never fire.

    Not modelled: the condition variables (a wait that ends is a step that is
    enabled), tracing.  The callbacks of commits are in Callbacks.v, a change of
    the durability policy in Switch.v. *)

From stdpp Require Import gmap strings.
From S2P Require Import Prelude PackedKeys Types WalDevice Wal WalFrames WalTail WalScan WalRecovery WalSystem StdMap DataItem TxSet StdAlgo LogReplay Recovery Epoch.
Import Replay.

Import EpochFramework.

Module Durability.

(** [Logger::State]. *)
Inductive LoggerState : Type := Running | LoggerFailed (failure_errno : Z) | Stopped.

(** A thread between its commits, between [Enqueue] and the capture of the
    policy, between that and [MakeMeOffline] with whether it will wait, or in
    [AwaitCommitDurability]. *)
Inductive Session : Type :=
| Quiet
| Enqueued (r : LogRecord.t)
| Committed (r : LogRecord.t) (awaits_durability : bool)
| Awaiting (r : LogRecord.t).

(** The record a session is about. *)
Definition session_record (s : Session) : option LogRecord.t :=
  match s with Quiet => None | Enqueued r | Committed r _ | Awaiting r => Some r end.

(** Where the flusher is in [FlusherLoop] and [FlushThrough]. *)
Inductive FlusherPc : Type :=
| Waiting
| Entering (target : Z)
| Collecting (target durable_before : Z) (k : nat)
| Appending (target : Z)
| Failing (error_number : Z)
| Reporting (error_number : Z)
| Publishing (target : Z)
| Exited
| FlusherAborted.

(** One run of the process. *)
Record Proc := mkProc {
  epochs : EpochFramework.State;
  sessions : list Session;
  nodes : list LogRecords;
  notice : option Z;
  pending_closed_ : Z;
  stop_requested_ : bool;
  failed_ : bool;
  carry_ : list (Z * LogRecords);
  flusher : FlusherPc;
  durable_epoch_ : Z;
  logger_state : LoggerState;
  wal_ : Wal;
  (** every record enqueued in this run *)
  enqueued : LogRecords;
}.

(** *** The steps of a run *)

Definition set_epochs (p : Proc) (e : EpochFramework.State) (n : option Z) : Proc :=
  mkProc e (sessions p) (nodes p) n (pending_closed_ p) (stop_requested_ p) (failed_ p) (carry_ p) (flusher p)
    (durable_epoch_ p) (logger_state p) (wal_ p) (enqueued p).

Definition set_session (p : Proc) (i : nat) (s : Session) : Proc :=
  mkProc (epochs p) (<[i := s]> (sessions p)) (nodes p) (notice p) (pending_closed_ p) (stop_requested_ p) (failed_ p)
    (carry_ p) (flusher p) (durable_epoch_ p) (logger_state p) (wal_ p) (enqueued p).

Definition set_flusher (p : Proc) (f : FlusherPc) : Proc :=
  mkProc (epochs p) (sessions p) (nodes p) (notice p) (pending_closed_ p) (stop_requested_ p) (failed_ p)
    (carry_ p) f (durable_epoch_ p) (logger_state p) (wal_ p) (enqueued p).

(** [Enqueue] on the thread's node. *)
Definition enqueue (p : Proc) (i : nat) (buffer : LogRecords) (r : LogRecord.t) : Proc :=
  mkProc (epochs p) (<[i := Enqueued r]> (sessions p)) (<[i := buffer]> (nodes p)) (notice p) (pending_closed_ p)
    (stop_requested_ p) (failed_ p) (carry_ p) (flusher p) (durable_epoch_ p) (logger_state p) (wal_ p) (enqueued p ++ [r]).

Definition ScheduleFlush (closed : Z) (p : Proc) : Proc :=
  if stop_requested_ p || failed_ p then p
  else mkProc (epochs p) (sessions p) (nodes p) (notice p)
         (if pending_closed_ p <? closed then closed else pending_closed_ p) (stop_requested_ p) (failed_ p) (carry_ p)
         (flusher p) (durable_epoch_ p) (logger_state p) (wal_ p) (enqueued p).

(** [EventsOnEpochIsUpdated]. *)
Definition EventsOnEpochIsUpdated (updated_epoch : Z) (p : Proc) : Proc :=
  set_epochs (if 3 <=? updated_epoch then ScheduleFlush (updated_epoch - 2) p else p) (epochs p) None.

(** The first half of [StopAndDrainFlusher], and [PublishStopped], which runs
    once the flusher has been joined. *)
Definition RequestStop (p : Proc) : Proc :=
  mkProc (epochs p) (sessions p) (nodes p) (notice p) (pending_closed_ p) true (failed_ p) (carry_ p) (flusher p)
    (durable_epoch_ p) (logger_state p) (wal_ p) (enqueued p).

Definition set_logger_state (p : Proc) (s : LoggerState) : Proc :=
  mkProc (epochs p) (sessions p) (nodes p) (notice p) (pending_closed_ p) (stop_requested_ p) (failed_ p) (carry_ p)
    (flusher p) (durable_epoch_ p) s (wal_ p) (enqueued p).

Definition PublishStopped (p : Proc) : Proc :=
  match logger_state p with Running => set_logger_state p Stopped | _ => p end.

Definition PublishFailure (error_number : Z) (p : Proc) : Proc :=
  match logger_state p with
  | LoggerFailed _ => p
  | _ => set_logger_state p (LoggerFailed error_number)
  end.

(** [None] is the abort. *)
Definition PublishDurable (frontier : Z) (p : Proc) : option Proc :=
  if frontier <? durable_epoch_ p then None
  else Some (match logger_state p with
             | Running =>
                 mkProc (epochs p) (sessions p) (nodes p) (notice p) (pending_closed_ p) (stop_requested_ p) (failed_ p)
                   (carry_ p) (flusher p) frontier (logger_state p) (wal_ p) (enqueued p)
             | _ => p
             end).

(** [WaitUntilDurable]: [None] while it waits; [expired] once the deadline has passed. *)
Inductive WaitResult : Type := Durable | WaitStopped | WaitFailed | TimedOut.

Definition WaitUntilDurable (commit_epoch : Z) (expired : bool) (p : Proc) : option WaitResult :=
  if commit_epoch <=? durable_epoch_ p then Some Durable
  else match logger_state p with
       | Running => if expired then Some TimedOut else None
       | Stopped => Some WaitStopped
       | LoggerFailed _ => Some WaitFailed
       end.

(** [AwaitCommitDurability] of a commit that waits: whether it returns, [false]
    being the abort. *)
Definition AwaitCommitDurability (commit_epoch : Z) (p : Proc) : option bool :=
  match WaitUntilDurable commit_epoch false p with
  | None => None
  | Some Durable => Some true
  | Some _ => Some false
  end.

Definition IsQuiescent (p : Proc) : bool := failed_ p || (pending_closed_ p <=? durable_epoch_ p).

(** The wait of [FlusherLoop] ended: what the thread does under [state_mutex_]. *)
Definition loop_turn (p : Proc) : FlusherPc :=
  if failed_ p then Exited
  else if stop_requested_ p && (pending_closed_ p <=? durable_epoch_ p) then Exited
  else if pending_closed_ p <=? durable_epoch_ p then Waiting
  else Entering (pending_closed_ p).

Definition wakes (p : Proc) : bool := stop_requested_ p || failed_ p || (durable_epoch_ p <? pending_closed_ p).

(** The body of the [ForEach] of [FlushThrough] on one node. *)
Definition collect (target durable_before : Z) (k : nat) (swapped : LogRecords) (p : Proc) : Proc :=
  if forallb (fun r => durable_before <? LogRecord.epoch r) swapped then
    mkProc (epochs p) (sessions p) (<[k := []]> (nodes p)) (notice p) (pending_closed_ p) (stop_requested_ p) (failed_ p)
      (fold_left (fun c r => push Z.ltb (LogRecord.epoch r) r c) swapped (carry_ p)) (Collecting target durable_before (S k))
      (durable_epoch_ p) (logger_state p) (wal_ p) (enqueued p)
  else set_flusher p FlusherAborted.

(** The flusher after [AppendGroup] returned. *)
Definition appended (target : Z) (e : ioerror) (w : Wal) (p : Proc) : Proc :=
  mkProc (epochs p) (sessions p) (nodes p) (notice p) (pending_closed_ p) (stop_requested_ p) (failed_ p)
    (match e with None => skip_while (fun epoch => epoch <=? target) (carry_ p) | Some _ => carry_ p end)
    (match e with None => Publishing target | Some n => Failing n end)
    (durable_epoch_ p) (logger_state p) w (enqueued p).

Definition set_failed (p : Proc) (n : Z) : Proc :=
  mkProc (epochs p) (sessions p) (nodes p) (notice p) (pending_closed_ p) (stop_requested_ p) true (carry_ p)
    (Reporting n) (durable_epoch_ p) (logger_state p) (wal_ p) (enqueued p).

(** A thread's [MakeMeOffline] inside [EndTransaction]. *)
Definition after_offline (s : Session) : option Session :=
  match s with Enqueued _ => None | Committed r true => Some (Awaiting r) | _ => Some Quiet end.

(** The steps that touch neither the log object nor the file. *)
Inductive run_step : Proc -> Proc -> Prop :=
| run_epoch p e :
    EpochFramework.step (epochs p) e ->
    (∀ i s, sessions p !! i = Some s -> s <> Quiet -> pcs e !! i = pcs (epochs p) !! i) ->
    (notice p = None ∨ global_epoch_ e = global_epoch_ (epochs p) ∧ writer e = writer (epochs p)) ->
    run_step p (set_epochs p e (if global_epoch_ e =? global_epoch_ (epochs p) then notice p else Some (global_epoch_ e)))
| run_notify p u : notice p = Some u -> run_step p (EventsOnEpochIsUpdated u p)
| run_commit p i e ws buffer buffer' :
    pcs (epochs p) !! i = Some (Online e) -> sessions p !! i = Some Quiet -> nodes p !! i = Some buffer ->
    Forall LogRecord.kvp_ok (LogRecord.key_value_pairs (LogEntry.record ws (slot_at (epochs p) i))) ->
    LogEntry.Enqueue ws (slot_at (epochs p) i) buffer = (true, buffer') ->
    run_step p (enqueue p i buffer' (LogEntry.record ws (slot_at (epochs p) i)))
| run_capture p i r awaits :
    sessions p !! i = Some (Enqueued r) -> run_step p (set_session p i (Committed r awaits))
| run_offline p i e s s' :
    pcs (epochs p) !! i = Some (Online e) -> sessions p !! i = Some s -> after_offline s = Some s' ->
    run_step p (set_session (set_epochs p (set_thread (epochs p) i THREAD_OFFLINE Offline) (notice p)) i s')
| run_stop p : run_step p (RequestStop p)
| run_stopped p : flusher p = Exited -> stop_requested_ p = true -> run_step p (PublishStopped p)
| run_turn p : flusher p = Waiting -> wakes p = true -> run_step p (set_flusher p (loop_turn p))
| run_enter p target : flusher p = Entering target -> run_step p (set_flusher p (Collecting target (durable_epoch_ p) 0))
| run_collect p target before k swapped :
    flusher p = Collecting target before k -> nodes p !! k = Some swapped -> run_step p (collect target before k swapped p)
| run_collected p target before k :
    flusher p = Collecting target before k -> nodes p !! k = None -> run_step p (set_flusher p (Appending target))
| run_throw p target : flusher p = Appending target -> run_step p (set_flusher p (Failing EIO))
| run_fail p n : flusher p = Failing n -> run_step p (set_failed p n)
| run_report p n : flusher p = Reporting n -> run_step p (set_flusher (PublishFailure n p) Exited)
| run_publish p target :
    flusher p = Publishing target ->
    run_step p (match PublishDurable target p with
                | Some p' => set_flusher p' Waiting
                | None => set_flusher p FlusherAborted
                end).

(** *** The database across runs *)

Record Db := mkDb {
  proc : option Proc;
  disk : Device;
  (** the records of the groups whose append succeeded *)
  logged : LogRecords;
  (** the records whose commit was acknowledged as durable *)
  acknowledged : LogRecords;
}.

Section steps.
Context {MP : MsgPack}.

(** A process that starts after a scan with frontier [frontier], at an epoch
    above it, with [n] threads. *)
Definition fresh (n : nat) (frontier resumed : Z) (w : Wal) : Proc :=
  mkProc (EpochFramework.mkState resumed false false (replicate n THREAD_OFFLINE) (replicate n Offline) Sleeping)
    (replicate n Quiet) (replicate n []) None 0 false false [] Waiting frontier Running w [].

Inductive step : Db -> Db -> Prop :=
| step_start d logged acks n capacity orc r w d' resumed :
    0 <= capacity <= OFF_T_MAX -> file_ok d ->
    ScanAndRepair (Wal_open capacity d) (with_oracle d orc) 0 = (r, w, d') -> Wal.status r = Wal.Ok ->
    Wal.frontier r < resumed < kEpochHighWater ->
    step (mkDb None d logged acks) (mkDb (Some (fresh n (Wal.frontier r) resumed w)) d' logged acks)
| step_refuse d logged acks capacity orc r w d' :
    0 <= capacity <= OFF_T_MAX -> file_ok d ->
    ScanAndRepair (Wal_open capacity d) (with_oracle d orc) 0 = (r, w, d') -> Wal.status r <> Wal.Ok ->
    step (mkDb None d logged acks) (mkDb None d' logged acks)
| step_run p p' d logged acks : run_step p p' -> step (mkDb (Some p) d logged acks) (mkDb (Some p') d logged acks)
| step_append p d logged acks target orc e w d' :
    flusher p = Appending target ->
    AppendGroup (wal_ p) (with_oracle d orc) (carry_ p) target = Some (e, w, d') ->
    step (mkDb (Some p) d logged acks)
      (mkDb (Some (appended target e w p)) d'
         (match e with None => logged ++ group_records target (carry_ p) | Some _ => logged end) acks)
| step_acknowledge p i r d logged acks :
    sessions p !! i = Some (Awaiting r) -> AwaitCommitDurability (LogRecord.epoch r) p = Some true ->
    step (mkDb (Some p) d logged acks) (mkDb (Some (set_session p i Quiet)) d logged (acks ++ [r]))
| step_abort p i r d logged acks :
    sessions p !! i = Some (Awaiting r) -> AwaitCommitDurability (LogRecord.epoch r) p = Some false ->
    step (mkDb (Some p) d logged acks) (mkDb None d logged acks)
| step_kill p d logged acks : step (mkDb p d logged acks) (mkDb None d logged acks)
| step_power_failure p d logged acks c :
    crash_image d c -> step (mkDb p d logged acks) (mkDb None (mkDevice c c []) logged acks).

Definition db_init : Db := mkDb None (mkDevice [] [] []) [] [].

End steps.
End Durability.
Import Durability.

(** ** The invariant of a run *)

Definition carry_ok (c : list (Z * LogRecords)) : Prop :=
  sorted Z.ltb c ∧ Forall (fun b => b.2 <> [] ∧ Forall (fun r => LogRecord.ok r ∧ LogRecord.epoch r = b.1) b.2) c.

(** The records on their way to the log. *)
Definition held (p : Proc) (r : LogRecord.t) : Prop :=
  (∃ i buffer, nodes p !! i = Some buffer ∧ r ∈ buffer) ∨ (LogRecord.epoch r, r) ∈ items (carry_ p).

(** Every record in the node [i] is newer than this epoch. *)
Definition node_mark (p : Proc) (i : nat) : Z :=
  match flusher p with
  | Collecting target _ k => if decide (i < k)%nat then target else durable_epoch_ p
  | Appending target | Publishing target => target
  | _ => durable_epoch_ p
  end.

(** Every record in the buckets is newer than this epoch. *)
Definition carry_mark (p : Proc) : Z := match flusher p with Publishing target => target | _ => durable_epoch_ p end.

(** The epoch the flusher is writing through was closed and is not yet durable. *)
Definition flusher_ok (p : Proc) : Prop :=
  match flusher p with
  | Entering target | Appending target | Publishing target => durable_epoch_ p < target <= pending_closed_ p
  | Collecting target before _ => durable_epoch_ p < target <= pending_closed_ p ∧ before = durable_epoch_ p
  | FlusherAborted => False
  | _ => True
  end.

Record run_inv (frontier : Z) (logged : LogRecords) (p : Proc) : Prop := {
  ri_epochs : epoch_inv (epochs p);
  ri_frontier : 0 <= frontier < global_epoch_ (epochs p);
  ri_joined : ∀ i pc, pcs (epochs p) !! i = Some pc ->
    match pc with Storing q | Reloading q | Online q => frontier < q | Offline => True end;
  ri_notice : ∀ u, notice p = Some u -> u <= global_epoch_ (epochs p);
  ri_pending : 0 <= pending_closed_ p ∧ (0 < pending_closed_ p -> pending_closed_ p <= global_epoch_ (epochs p) - 2);
  ri_durable : frontier <= durable_epoch_ p <= Z.max frontier (pending_closed_ p);
  ri_flusher : flusher_ok p;
  ri_nodes : ∀ i buffer r, nodes p !! i = Some buffer -> r ∈ buffer -> node_mark p i < LogRecord.epoch r ∧ LogRecord.ok r;
  ri_carry : carry_ok (carry_ p);
  ri_carry_mark : ∀ e r, (e, r) ∈ items (carry_ p) -> carry_mark p < e;
  ri_enqueued : ∀ r, r ∈ enqueued p -> held p r ∨ r ∈ logged;
  ri_wal : match flusher p with Failing _ | Reporting _ | Exited => True | _ => Wal.state_ (wal_ p) = Ready end;
  ri_sessions : ∀ i s r, sessions p !! i = Some s -> session_record s = Some r -> r ∈ enqueued p;
}.

(** ** The buckets *)

Lemma carry_ok_items c e r : carry_ok c -> (e, r) ∈ items c -> LogRecord.ok r ∧ LogRecord.epoch r = e.
Proof.
  intros [_ Hc] (l & Hin & Hr)%elem_of_items. destruct (proj1 (Forall_forall _ _) Hc _ Hin) as [_ Hl].
  apply (proj1 (Forall_forall _ _) Hl r Hr).
Qed.

Lemma push_bucket c r b : b ∈ push Z.ltb (LogRecord.epoch r) r c ->
  b ∈ c ∨ b.1 = LogRecord.epoch r ∧ ∃ l, b.2 = l ++ [r] ∧ (l = [] ∨ (b.1, l) ∈ c).
Proof.
  unfold push. induction c as [|[e l] c IH]; cbn [alter].
  - intros ->%list_elem_of_singleton. right. split; [done|]. exists []. auto.
  - destruct (_ <? e) eqn:E1; [|destruct (e <? _) eqn:E2].
    + intros [->|Hb]%elem_of_cons; [right|by left]. split; [done|]. exists []. auto.
    + intros [->|[Hb|(H1 & x & H2 & H3)]%IH]%elem_of_cons; [left; apply list_elem_of_here|left; by apply list_elem_of_further|right].
      split; [done|]. exists x. split; [done|]. destruct H3 as [?|?]; [by left|right; by apply list_elem_of_further].
    + intros [->|Hb]%elem_of_cons; [right|left; by apply list_elem_of_further]. simpl.
      apply Z.ltb_ge in E1, E2. split; [lia|]. exists l. split; [done|]. right. apply list_elem_of_here.
Qed.

Lemma carry_ok_push c r : carry_ok c -> LogRecord.ok r -> carry_ok (push Z.ltb (LogRecord.epoch r) r c).
Proof.
  intros [Hs Hc] Hr. split; [by apply push_sorted|]. apply Forall_forall.
  intros b [Hb|(H1 & l & H2 & Hl)]%push_bucket; [by apply (proj1 (Forall_forall _ _) Hc)|].
  rewrite H2. split; [by destruct l|]. apply Forall_app. split; [|by apply Forall_singleton].
  destruct Hl as [->|Hl]; [constructor|]. by destruct (proj1 (Forall_forall _ _) Hc _ Hl) as [_ ?].
Qed.

Lemma carry_ok_push_all rs c : carry_ok c -> Forall LogRecord.ok rs ->
  carry_ok (fold_left (fun c r => push Z.ltb (LogRecord.epoch r) r c) rs c).
Proof.
  revert c. induction rs as [|r rs IH]; intros c Hc Hrs; [done|]. inversion_clear Hrs. simpl. apply IH; [|done]. by apply carry_ok_push.
Qed.

Lemma items_push_all rs (c : list (Z * LogRecords)) x :
  x ∈ items (fold_left (fun c r => push Z.ltb (LogRecord.epoch r) r c) rs c) <->
  x ∈ items c ∨ ∃ r, r ∈ rs ∧ x = (LogRecord.epoch r, r).
Proof.
  revert c. induction rs as [|r rs IH]; intros c; simpl.
  - split; [by left|]. intros [?|(r & ?%elem_of_nil & _)]; done.
  - rewrite IH, elem_of_items_push. setoid_rewrite elem_of_cons. naive_solver.
Qed.

Lemma skip_through c target : carry_ok c -> carry_ok (skip_while (fun e => e <=? target) c) ∧
  ∀ e r, (e, r) ∈ items (skip_while (fun e => e <=? target) c) <-> (e, r) ∈ items c ∧ target < e.
Proof.
  intros [Hs Hc]. assert (∀ a b : Z, (a <? b) = true -> (b <=? target) = true -> (a <=? target) = true) as Hmono
    by (intros a b; rewrite Z.ltb_lt, !Z.leb_le; lia).
  rewrite (skip_while_filter (ltb := Z.ltb) _ _ Hs Hmono). split; [split|].
  - by apply (sorted_filter (ltb := Z.ltb)).
  - apply Forall_forall. intros b [_ Hb]%list_elem_of_filter. by apply (proj1 (Forall_forall _ _) Hc).
  - intros e r. rewrite !elem_of_items. setoid_rewrite list_elem_of_filter. simpl.
    split; [intros (l & [H1 H2] & H3)|intros [(l & H1 & H2) H3]].
    + split; [eauto|]. destruct (Z.leb_spec e target); [done|lia].
    + exists l. split; [|done]. split; [|done]. destruct (Z.leb_spec e target); [lia|done].
Qed.

Lemma carry_buckets_ok c : carry_ok c -> buckets_ok c.
Proof.
  intros [Hs Hc]. assert (Forall (fun b => is_u32 b.1 ∧ Forall LogRecord.ok b.2) c) as Hok.
  { eapply Forall_impl; [exact Hc|]. intros [e l] [Hne Hl]. simpl in *. split.
    - destruct l as [|r l]; [done|]. apply Forall_cons in Hl as [[Hr <-] _]. apply Hr.
    - eapply Forall_impl; [exact Hl|]. by intros r [? _]. }
  split; [done|]. clear Hc. assert (∀ e, (∀ b, b ∈ c -> e <= b.1) -> epochs_from e c) as H.
  { clear Hok. induction c as [|[e l] c IH]; intros e0 Hle; [done|]. apply sorted_cons_inv in Hs as [Hs Hlt].
    split; [apply (Hle (e, l)); apply list_elem_of_here|]. apply IH; [done|]. intros b Hb.
    specialize (Hlt b Hb). simpl in Hlt. apply Z.ltb_lt in Hlt. simpl. lia. }
  apply H. intros b Hb. destruct (proj1 (Forall_forall _ _) Hok b Hb) as [[? ?] _]. done.
Qed.

Lemma elem_of_group_records target c e r : (e, r) ∈ items c -> e <= target -> r ∈ group_records target c.
Proof.
  intros (l & Hl & Hr)%elem_of_items Hle. unfold group_records, selected.
  apply list_elem_of_In, in_concat. exists l. split; [|by apply list_elem_of_In].
  apply list_elem_of_In, list_elem_of_fmap. exists (e, l). split; [done|]. by apply list_elem_of_filter.
Qed.

(** ** Every step of a run keeps the invariant *)

Section run.
Context (frontier : Z) (logged : LogRecords).
Implicit Types p : Proc.

Lemma durable_below_target p : run_inv frontier logged p -> durable_epoch_ p <= carry_mark p ∧ ∀ i, durable_epoch_ p <= node_mark p i.
Proof.
  intros H. pose proof (ri_flusher _ _ _ H) as Hf. unfold flusher_ok, carry_mark, node_mark in *.
  destruct (flusher p); split; try lia; intros i; try lia. case_decide; lia.
Qed.

(** An online thread commits in an epoch nobody has started to write. *)
Lemma commit_epoch_above p i e : run_inv frontier logged p -> pcs (epochs p) !! i = Some (Online e) ->
  slot_at (epochs p) i = e ∧ is_u32 e ∧ ∀ j, node_mark p j < e.
Proof.
  intros H Hi. destruct (ri_epochs _ _ _ H) as (Hg & _ & Hth & _). destruct (Hth i _ Hi) as (Hs & He & Hge).
  pose proof (ri_joined _ _ _ H i _ Hi) as Hj. simpl in Hj. pose proof (ri_durable _ _ _ H) as Hd.
  destruct (ri_pending _ _ _ H) as [Hp0 Hp]. pose proof (ri_flusher _ _ _ H) as Hf. pose proof kEpochHighWater_value as Hw.
  unfold slot_at. rewrite Hs. split; [done|]. split; [unfold is_u32; destruct Hge as [?|[? _]]; lia|].
  intros j. assert (durable_epoch_ p < e) as Hde by (destruct Hge as [?|[? _]]; lia).
  unfold flusher_ok, node_mark in *. destruct (flusher p) as [| |target before k|target| | |target| |]; try done.
  - case_decide; [|done]. destruct Hge as [?|[? _]]; lia.
  - destruct Hge as [?|[? _]]; lia.
  - destruct Hge as [?|[? _]]; lia.
Qed.

Lemma run_epoch_inv p e n : run_inv frontier logged p -> EpochFramework.step (epochs p) e ->
  n = (if global_epoch_ e =? global_epoch_ (epochs p) then notice p else Some (global_epoch_ e)) ->
  run_inv frontier logged (set_epochs p e n).
Proof.
  intros H Hs ->. pose proof (epoch_step_inv _ _ Hs (ri_epochs _ _ _ H)) as Hinv.
  assert (global_epoch_ (epochs p) <= global_epoch_ e ∧ ∀ i pc, pcs e !! i = Some pc ->
    match pc with Storing q | Reloading q | Online q => frontier < q | Offline => True end) as [Hg Hj].
  { pose proof (ri_joined _ _ _ H) as Hj. pose proof (ri_frontier _ _ _ H) as Hf. destruct (ri_epochs _ _ _ H) as (Hg & _ & _ & Hw).
    pose proof kEpochHighWater_value as Hhw.
    assert (∀ i slot pc', match pc' with Storing q | Reloading q | Online q => frontier < q | Offline => True end ->
      ∀ j pc, pcs (set_thread (epochs p) i slot pc') !! j = Some pc ->
      match pc with Storing q | Reloading q | Online q => frontier < q | Offline => True end) as Hset.
    { intros i slot pc' Hpc j pc. simpl. intros [(-> & <- & _)|[_ ?]]%list_lookup_insert_Some; [done|by eapply Hj]. }
    destruct Hs as [s i Hi|s i q Hi|s i q Hi|s i q Hi|s|s|s Ha]; try (split; [simpl; lia|]).
    - apply Hset. lia.
    - apply Hset. exact (Hj i _ Hi).
    - apply Hset. unfold Reload. destruct (_ =? _); [exact (Hj i _ Hi)|lia].
    - by apply Hset.
    - unfold RequestEpochAdvance. destruct (_ <=? _); (split; [simpl; lia|done]).
    - done.
    - unfold writer_step. destruct (writer s); try (split; [simpl; lia|done]). simpl. rewrite u32_small by (unfold is_u32; lia).
      split; [lia|done]. }
  destruct H as [H1 H2 H3 H4 H5 H6 H7 H8 H9 H10 H11 HW H12]. split; try done; simpl.
  - lia.
  - intros u. destruct (Z.eqb_spec (global_epoch_ e) (global_epoch_ (epochs p))); [intros ?%H4; lia|intros [= <-]; lia].
  - destruct H5 as [H5 H5']. split; [done|]. intros ?%H5'. lia.
Qed.

Lemma run_notify_inv p u : run_inv frontier logged p -> notice p = Some u -> run_inv frontier logged (EventsOnEpochIsUpdated u p).
Proof.
  intros H Hn. unfold EventsOnEpochIsUpdated. pose proof (ri_notice _ _ _ H u Hn) as Hu.
  assert (run_inv frontier logged (set_epochs p (epochs p) None)) as Hsame.
  { destruct H as [H1 H2 H3 H4 H5 H6 H7 H8 H9 H10 H11 HW H12]. split; try done. }
  destruct (Z.leb_spec 3 u); [|done]. unfold ScheduleFlush. destruct (_ || _); [done|].
  set (pc := if pending_closed_ p <? u - 2 then u - 2 else pending_closed_ p).
  assert (pending_closed_ p <= pc ∧ (0 < pc -> pc <= global_epoch_ (epochs p) - 2)) as [Hle Hpc].
  { unfold pc. destruct H as [_ _ _ _ [H5 H5'] _ _ _ _ _ _ _ _]. destruct (Z.ltb_spec (pending_closed_ p) (u - 2)); [lia|]. split; [lia|done]. }
  destruct Hsame as [H1 H2 H3 H4 H5 H6 H7 H8 H9 H10 H11 HW H12]. split; try done; simpl in *.
  - split; [lia|done].
  - lia.
  - unfold flusher_ok in *. simpl in *. destruct (flusher p); try done; lia.
Qed.

(** The record [Enqueue] appends. *)
Lemma Enqueue_true ws e buffer buffer' : LogEntry.Enqueue ws e buffer = (true, buffer') -> buffer' = buffer ++ [LogEntry.record ws e].
Proof. unfold LogEntry.Enqueue. destruct (LogRecord.key_value_pairs _); [done|]. by intros [= <-]. Qed.

Lemma run_commit_inv p i e ws buffer buffer' : run_inv frontier logged p ->
  pcs (epochs p) !! i = Some (Online e) -> nodes p !! i = Some buffer ->
  Forall LogRecord.kvp_ok (LogRecord.key_value_pairs (LogEntry.record ws (slot_at (epochs p) i))) ->
  LogEntry.Enqueue ws (slot_at (epochs p) i) buffer = (true, buffer') ->
  run_inv frontier logged (enqueue p i buffer' (LogEntry.record ws (slot_at (epochs p) i))).
Proof.
  intros H Hi Hb Hok ->%Enqueue_true. destruct (commit_epoch_above p i e H Hi) as (Hslot & Hu & Hmark).
  pose proof (lookup_lt_Some _ _ _ Hb) as Hlt. rewrite Hslot in *.
  destruct H as [H1 H2 H3 H4 H5 H6 H7 H8 H9 H10 H11 HW H12]. split; try done; simpl.
  - intros j b r [(-> & <- & _)|[_ Hj]]%list_lookup_insert_Some; [|by apply H8].
    intros [Hr|Hr%list_elem_of_singleton]%elem_of_app; [by apply (H8 j buffer)|]. subst r. split; [apply Hmark|by split].
  - intros r [Hr|Hr%list_elem_of_singleton]%elem_of_app.
    + destruct (H11 r Hr) as [[(j & b & Hj & Hin)|Hc]|?]; [left; left|left; by right|by right].
      destruct (decide (i = j)) as [->|Hne].
      * rewrite Hb in Hj. injection Hj as <-. exists j, (buffer ++ [LogEntry.record ws e]). simpl.
        split; [by apply list_lookup_insert_eq|]. apply elem_of_app. by left.
      * exists j, b. simpl. by rewrite list_lookup_insert_ne.
    + left. left. exists i, (buffer ++ [LogEntry.record ws e]). simpl. split; [by apply list_lookup_insert_eq|].
      apply elem_of_app. right. subst r. apply list_elem_of_here.
  - intros j s r [(-> & <- & _)|[_ Hj]]%list_lookup_insert_Some Hr; apply elem_of_app; [right|left; by apply (H12 j s)].
    injection Hr as <-. apply list_elem_of_here.
Qed.

(** A session changes to one that refers to no new record. *)
Lemma set_session_inv p i s s' : run_inv frontier logged p -> sessions p !! i = Some s ->
  (∀ r, session_record s' = Some r -> session_record s = Some r) -> run_inv frontier logged (set_session p i s').
Proof.
  intros H Hi Hs. destruct H as [H1 H2 H3 H4 H5 H6 H7 H8 H9 H10 H11 HW H12]. split; try done. simpl.
  intros j s0 r [(-> & <- & _)|[_ Hj]]%list_lookup_insert_Some Hr; [apply (H12 j s); [done|by apply Hs]|by apply (H12 j s0)].
Qed.

(** The flusher moves without changing what it has promised. *)
Lemma set_flusher_inv p f : run_inv frontier logged p -> flusher_ok (set_flusher p f) ->
  (∀ i buffer r, nodes p !! i = Some buffer -> r ∈ buffer -> node_mark p i < LogRecord.epoch r ->
     node_mark (set_flusher p f) i < LogRecord.epoch r) ->
  carry_mark (set_flusher p f) <= carry_mark p ->
  match f with Failing _ | Reporting _ | Exited => True | _ => Wal.state_ (wal_ p) = Ready end ->
  run_inv frontier logged (set_flusher p f).
Proof.
  intros H Hf Hn Hc HW'. destruct H as [H1 H2 H3 H4 H5 H6 H7 H8 H9 H10 H11 HW H12]. split; try done.
  - intros i buffer r Hi Hr. destruct (H8 i buffer r Hi Hr). split; [by eapply Hn|done].
  - intros e r He. specialize (H10 e r He). lia.
Qed.

Lemma run_collect_inv p target before k swapped : run_inv frontier logged p -> flusher p = Collecting target before k ->
  nodes p !! k = Some swapped -> run_inv frontier logged (collect target before k swapped p).
Proof.
  intros H Hf Hk. pose proof (ri_flusher _ _ _ H) as Hfo. unfold flusher_ok in Hfo. rewrite Hf in Hfo. destruct Hfo as [Ht ->].
  pose proof (ri_nodes _ _ _ H) as Hn. assert (∀ r, r ∈ swapped -> durable_epoch_ p < LogRecord.epoch r ∧ LogRecord.ok r) as Hsw.
  { intros r Hr. destruct (Hn k swapped r Hk Hr) as [Hm ?]. unfold node_mark in Hm. rewrite Hf in Hm.
    rewrite decide_False in Hm by lia. done. }
  unfold collect. replace (forallb _ swapped) with true.
  2: { symmetry. apply forallb_forall. intros r Hr%list_elem_of_In. apply Z.ltb_lt. by apply Hsw. }
  destruct H as [H1 H2 H3 H4 H5 H6 H7 H8 H9 H10 H11 HW H12]. split; try done; simpl.
  - intros j b r [(-> & <- & _)|[Hne Hj]]%list_lookup_insert_Some Hr; [by apply elem_of_nil in Hr|].
    destruct (H8 j b r Hj Hr) as [Hm ?]. split; [|done]. unfold node_mark in *. rewrite Hf in Hm. simpl.
    destruct (decide (j < S k)%nat); [|rewrite decide_False in Hm by lia; done]. by rewrite decide_True in Hm by lia.
  - apply carry_ok_push_all; [done|]. apply Forall_forall. intros r Hr. by apply Hsw.
  - intros e r [Hc|(r' & Hr' & [= -> ->])]%items_push_all; [|by apply Hsw].
    specialize (H10 e r Hc). unfold carry_mark in *. by rewrite Hf in H10.
  - intros r Hr. destruct (H11 r Hr) as [[(j & b & Hj & Hin)|Hc]|?]; [left|left; right|by right].
    + destruct (decide (k = j)) as [->|Hne].
      * right. simpl. apply items_push_all. right. exists r. split; [|done]. congruence.
      * left. exists j, b. simpl. by rewrite list_lookup_insert_ne.
    + simpl. apply items_push_all. by left.
  - by rewrite Hf in HW.
Qed.

Lemma run_publish_inv p target : run_inv frontier logged p -> flusher p = Publishing target ->
  run_inv frontier logged (match PublishDurable target p with
                           | Some p' => set_flusher p' Waiting
                           | None => set_flusher p FlusherAborted
                           end).
Proof.
  intros H Hf. pose proof (ri_flusher _ _ _ H) as Hfo. unfold flusher_ok in Hfo. rewrite Hf in Hfo.
  unfold PublishDurable. destruct (Z.ltb_spec target (durable_epoch_ p)); [lia|].
  assert (run_inv frontier logged (set_flusher p Waiting)) as Hw.
  { pose proof (ri_wal _ _ _ H) as HW. rewrite Hf in HW.
    apply set_flusher_inv; [done|done| | |done]; unfold node_mark, carry_mark; rewrite Hf; simpl; [|lia]. intros. lia. }
  destruct (logger_state p) eqn:El; [|exact Hw|exact Hw].
  pose proof (ri_nodes _ _ _ H) as Hn. pose proof (ri_carry_mark _ _ _ H) as Hc. unfold node_mark, carry_mark in *. rewrite Hf in Hn, Hc.
  destruct Hw as [H1 H2 H3 H4 H5 H6 H7 H8 H9 H10 H11 HW H12]. split; try done; simpl in *. lia.
Qed.

Lemma run_step_inv p p' : run_step p p' -> run_inv frontier logged p -> run_inv frontier logged p'.
Proof.
  destruct 1 as [p e Hs _ _|p u Hn|p i e ws buffer buffer' Hi Hq Hb Hok He|p i r awaits Hi|p i e s s' Hi Hs Ha|p|p Hf Hst|p Hf Hw
    |p target Hf|p target before k swapped Hf Hk|p target before k Hf Hk|p target Hf|p n Hf|p n Hf|p target Hf]; intros H;
    pose proof (ri_flusher _ _ _ H) as Hfo; unfold flusher_ok in Hfo; pose proof (ri_wal _ _ _ H) as HW;
    try rewrite Hf in Hfo, HW.
  - by eapply run_epoch_inv.
  - by apply run_notify_inv.
  - by eapply run_commit_inv.
  - by apply (set_session_inv _ i (Enqueued r)).
  - apply (set_session_inv _ i s); [|done|]. 2: { intros r. destruct s as [| |r' []|r']; simplify_eq/=; naive_solver. }
    apply (run_epoch_inv p _ (notice p)); [done|by eapply step_offline|]. simpl. by rewrite Z.eqb_refl.
  - destruct H. by split.
  - unfold PublishStopped. destruct (logger_state p); [|done|done]. destruct H. by split.
  - apply set_flusher_inv; [done| | | |unfold loop_turn; by repeat case_match].
    + unfold flusher_ok, loop_turn. simpl. destruct (failed_ p); [done|]. destruct (_ && _); [done|].
      destruct (Z.leb_spec (pending_closed_ p) (durable_epoch_ p)); [done|]. lia.
    + unfold node_mark, loop_turn. rewrite Hf. simpl. intros. by repeat case_match.
    + unfold carry_mark, loop_turn. rewrite Hf. simpl. repeat case_match; done.
  - apply set_flusher_inv; [done|done| | |done]; unfold node_mark, carry_mark; rewrite Hf; cbn [set_flusher flusher durable_epoch_]; [|lia].
    intros. rewrite decide_False by lia. done.
  - by apply run_collect_inv.
  - destruct Hfo as [Ht ->]. apply set_flusher_inv; [done|done| | |done]; unfold node_mark, carry_mark; rewrite Hf; simpl; [|lia].
    intros i buffer r Hi Hr. rewrite decide_True; [done|]. apply lookup_lt_Some in Hi. apply lookup_ge_None in Hk. lia.
  - apply set_flusher_inv; [done|done| | |done]; unfold node_mark, carry_mark; rewrite Hf; simpl; [intros; lia|lia].
  - destruct H as [H1 H2 H3 H4 H5 H6 H7 H8 H9 H10 H11 HW2 H12]. split; try done; simpl;
      unfold node_mark, carry_mark in *; rewrite Hf in *; done.
  - apply set_flusher_inv; [|done| | |done]; unfold PublishFailure.
    + destruct (logger_state p); [|done|]; destruct H; by split.
    + intros i buffer r. unfold node_mark. destruct (logger_state p); simpl; rewrite Hf; done.
    + unfold carry_mark. destruct (logger_state p); simpl; rewrite Hf; done.
  - by apply run_publish_inv.
Qed.

End run.

(** ** The invariant of the database *)

Section database.
Context {MP : MsgPack} {MPL : MsgPackLaws}.

Definition db_inv (σ : Db) : Prop :=
  (∀ r, r ∈ acknowledged σ -> r ∈ logged σ) ∧
  match proc σ with
  | None => sys_inv (mkSys None (disk σ) (logged σ))
  | Some p => sys_inv (mkSys (Some (wal_ p)) (disk σ) (logged σ)) ∧ ∃ frontier, run_inv frontier (logged σ) p
  end.

(** What is at or below the durable epoch is in the log. *)
Lemma durable_is_logged frontier lg p r : run_inv frontier lg p -> r ∈ enqueued p ->
  LogRecord.epoch r <= durable_epoch_ p -> r ∈ lg.
Proof.
  intros H Hr Hle. destruct (durable_below_target _ _ p H) as [Hc Hn].
  destruct (ri_enqueued _ _ _ H r Hr) as [[(i & b & Hi & Hin)|Hit]|?]; [| |done].
  - destruct (ri_nodes _ _ _ H i b r Hi Hin) as [Hm _]. specialize (Hn i). lia.
  - pose proof (ri_carry_mark _ _ _ H _ _ Hit). lia.
Qed.

Lemma AwaitCommitDurability_durable e p : AwaitCommitDurability e p = Some true -> e <= durable_epoch_ p.
Proof.
  unfold AwaitCommitDurability, WaitUntilDurable. destruct (Z.leb_spec e (durable_epoch_ p)); [done|]. by destruct (logger_state p).
Qed.

Lemma appended_inv frontier lg p target e w : run_inv frontier lg p -> flusher p = Appending target ->
  (e = None -> Wal.state_ w = Ready) ->
  run_inv frontier (match e with None => lg ++ group_records target (carry_ p) | Some _ => lg end) (appended target e w p).
Proof.
  intros H Hf Hrdy. pose proof (ri_flusher _ _ _ H) as Hfo. unfold flusher_ok in Hfo. rewrite Hf in Hfo.
  destruct (skip_through (carry_ p) target (ri_carry _ _ _ H)) as [Hok Hit].
  destruct H as [H1 H2 H3 H4 H5 H6 H7 H8 H9 H10 H11 HW H12]. unfold node_mark, carry_mark in H8, H10. rewrite Hf in H8, H10.
  destruct e as [n|]; split; try done; unfold node_mark, carry_mark; simpl.
  - intros i b r Hi Hr. destruct (H8 i b r Hi Hr). split; [lia|done].
  - by intros e r [_ ?]%Hit.
  - intros r Hr. rewrite elem_of_app. destruct (H11 r Hr) as [[Hn|Hc]|?]; [left; by left| |by right; left].
    destruct (decide (LogRecord.epoch r <= target)); [right; right; by eapply elem_of_group_records|].
    left. right. apply Hit. split; [done|lia].
  - by apply Hrdy.
Qed.

Lemma append_ready w d lg orc c target e w' d' : sys_inv (mkSys (Some w) d lg) -> carry_ok c -> Wal.state_ w = Ready ->
  ∃ r, AppendGroup w (with_oracle d orc) c target = Some r ∧ (r = (e, w', d') -> e = None -> Wal.state_ w' = Ready).
Proof.
  intros (fs & _ & _ & _ & Hw) Hc Hst. cbn in Hw. rewrite Hst in Hw. destruct Hw as [extra Hinv].
  destruct (AppendGroup_spec w (with_oracle d orc) (fs ++ extra) c target Hinv (carry_buckets_ok c Hc)) as (e1 & w1 & d1 & -> & Hout).
  eexists. split; [done|]. intros [= -> -> ->] ->. by destruct Hout as (_ & (? & _) & _).
Qed.

Lemma scan_ok_ready w d lg orc r w' d' : sys_inv (mkSys (Some w) d lg) ->
  ScanAndRepair w (with_oracle d orc) 0 = (r, w', d') -> Wal.status r = Wal.Ok -> 0 <= Wal.frontier r ∧ Wal.state_ w' = Ready.
Proof.
  intros Hinv Hr Hok. destruct (sys_inv_scan_ready _ _ _ Hinv) as (fs & Hlog & _ & Hl & [Hw|Hw]).
  { unfold ScanAndRepair in Hr. rewrite Hw in Hr. by injection Hr as <- <- <-. }
  destruct Hl as [[post Hpost] _].
  pose proof (ScanAndRepair_full w (with_oracle d orc) fs post Hw Hlog Hpost) as Hs. rewrite Hr in Hs.
  destruct Hs as [(extra & (? & Hlog' & _) & _ & _ & ->)|[? _]]; [|done]. split; [by apply log_frontier_nonneg|done].
Qed.

Lemma fresh_inv n frontier resumed w lg : 0 <= frontier < resumed -> resumed < kEpochHighWater -> Wal.state_ w = Ready ->
  run_inv frontier lg (fresh n frontier resumed w).
Proof.
  intros Hf Hr Hw. split; simpl.
  - split; [simpl; lia|]. split; [simpl; by rewrite !length_replicate|]. split; [|done].
    intros i pc [-> Hi]%lookup_replicate. by apply lookup_replicate.
  - done.
  - by intros i pc [-> _]%lookup_replicate.
  - done.
  - lia.
  - lia.
  - done.
  - intros i b r [-> _]%lookup_replicate Hr'. by apply elem_of_nil in Hr'.
  - split; constructor.
  - by intros e r ?%elem_of_nil.
  - by intros r ?%elem_of_nil.
  - done.
  - by intros i s r [-> _]%lookup_replicate.
Qed.

Lemma step_inv σ σ' : step σ σ' -> db_inv σ -> db_inv σ'.
Proof.
  destruct 1 as [d lg acks n capacity orc r w d' resumed Hcap Hfile Hscan Hok Hres|d lg acks capacity orc r w d' Hcap Hfile Hscan Hok
    |p p' d lg acks Hs|p d lg acks target orc e w d' Hf Happ|p i r d lg acks Hi Hle|p i r d lg acks Hi Hle|p d lg acks|p d lg acks c Hc];
    intros [Hack Hp]; cbn [proc disk logged acknowledged] in *.
  - pose proof (sys_step_preserves _ _ (step_open d lg capacity Hcap Hfile) Hp) as Hopen.
    pose proof (sys_step_preserves _ _ (step_scan _ d lg orc r w d' Hscan) Hopen) as Hsc.
    split; [done|]. split; [done|]. exists (Wal.frontier r). destruct (scan_ok_ready _ _ _ _ _ _ _ Hopen Hscan Hok).
    apply fresh_inv; [lia|lia|done].
  - pose proof (sys_step_preserves _ _ (step_open d lg capacity Hcap Hfile) Hp) as Hopen.
    pose proof (sys_step_preserves _ _ (step_scan _ d lg orc r w d' Hscan) Hopen) as Hsc.
    split; [done|]. exact (sys_step_preserves _ _ (WalSystem.step_kill _ _ _) Hsc).
  - destruct Hp as [Hsys [frontier Hrun]]. split; [done|]. split; [|exists frontier; by eapply run_step_inv].
    cbn [proc disk logged]. replace (wal_ p') with (wal_ p); [done|]. destruct Hs; try done; simpl.
    + unfold EventsOnEpochIsUpdated, ScheduleFlush. by repeat case_match.
    + unfold PublishStopped. by case_match.
    + unfold collect. by case_match.
    + unfold PublishFailure. by case_match.
    + unfold PublishDurable. destruct (_ <? _); [done|]. by destruct (logger_state p).
  - destruct Hp as [Hsys [frontier Hrun]].
    pose proof (append_preserves _ _ _ _ _ _ _ _ _ Hsys (carry_buckets_ok _ (ri_carry _ _ _ Hrun)) Happ) as Hsys'.
    split; [|split; [done|exists frontier; apply appended_inv; [done|done|]]].
    { intros r Hr%Hack. destruct e; [done|]. apply elem_of_app. by left. }
    pose proof (ri_wal _ _ _ Hrun) as HW. rewrite Hf in HW.
    destruct (append_ready _ _ _ orc (carry_ p) target e w d' Hsys (ri_carry _ _ _ Hrun) HW) as (r & E & Hr).
    apply Hr. congruence.
  - destruct Hp as [Hsys [frontier Hrun]]. split.
    + intros x [Hx|Hx%list_elem_of_singleton]%elem_of_app; [by apply Hack|]. subst x.
      apply AwaitCommitDurability_durable in Hle. eapply durable_is_logged; [done| |done]. by eapply (ri_sessions _ _ _ Hrun i (Awaiting r)).
    + split; [done|]. exists frontier. by eapply set_session_inv.
  - split; [done|]. destruct Hp as [Hsys _]. exact (sys_step_preserves _ _ (WalSystem.step_kill _ _ _) Hsys).
  - split; [done|]. destruct p as [p|]; [|done]. destruct Hp as [Hsys _].
    exact (sys_step_preserves _ _ (WalSystem.step_kill _ _ _) Hsys).
  - split; [done|]. destruct p as [p|]; [destruct Hp as [Hsys _]|rename Hp into Hsys];
      exact (sys_step_preserves _ _ (WalSystem.step_power_failure _ _ _ _ Hc) Hsys).
Qed.

Lemma db_reachable_inv σ : rtc step db_init σ -> db_inv σ.
Proof.
  intros H. refine (rtc_ind_r db_inv db_init _ _ σ H); [split; [by intros r ?%elem_of_nil|apply sys_inv_init]|].
  intros σ1 σ2 _ Hs Hi. by apply (step_inv σ1).
Qed.

(** A scan of a database that is not running returns what was logged. *)
Lemma logged_scanned σ capacity orc r w d' : db_inv σ -> proc σ = None ->
  0 <= capacity <= OFF_T_MAX -> file_ok (disk σ) ->
  ScanAndRepair (Wal_open capacity (disk σ)) (with_oracle (disk σ) orc) 0 = (r, w, d') -> Wal.status r = Wal.Ok ->
  ∀ rec, rec ∈ logged σ -> rec ∈ Wal.records r.
Proof.
  destruct σ as [p d lg acks]. cbn [proc disk logged]. intros [_ Hsys] -> Hcap Hfile Hscan Hok rec Hrec. cbn in Hsys.
  pose proof (sys_step_preserves _ _ (step_open d lg capacity Hcap Hfile) Hsys) as Hopen.
  destruct (sys_inv_scan_ready _ _ _ Hopen) as (fs & Hlog & Hsub & Hl & Hw).
  destruct (scan_step _ d fs orc r w d' Hlog Hl Hw Hscan) as [_ [(extra & _ & ->)|[? _]]]; [|done].
  rewrite map_app, concat_app. apply elem_of_app. left. by eapply elem_of_sublist.
Qed.

Lemma acknowledged_scanned σ capacity orc r w d' : db_inv σ -> proc σ = None ->
  0 <= capacity <= OFF_T_MAX -> file_ok (disk σ) ->
  ScanAndRepair (Wal_open capacity (disk σ)) (with_oracle (disk σ) orc) 0 = (r, w, d') -> Wal.status r = Wal.Ok ->
  ∀ rec, rec ∈ acknowledged σ -> rec ∈ Wal.records r.
Proof. intros H Hp Hc Hf Hs Hok rec Hrec%(proj1 H). by eapply (logged_scanned σ). Qed.

(** Every record whose commit AwaitCommitDurability has acknowledged is
    among the records the next successful scan of the log returns, whatever
    crashes, failed starts and earlier recoveries came in between. *)
Theorem acknowledged_commits_survive σ capacity orc r w d' rec :
  rtc step db_init σ -> proc σ = None -> 0 <= capacity <= OFF_T_MAX -> file_ok (disk σ) ->
  ScanAndRepair (Wal_open capacity (disk σ)) (with_oracle (disk σ) orc) 0 = (r, w, d') -> Wal.status r = Wal.Ok ->
  rec ∈ acknowledged σ -> rec ∈ Wal.records r.
Proof. intros Hr%db_reachable_inv. intros. by eapply acknowledged_scanned. Qed.

(** The durable epoch never runs ahead of the log: a record that was
    enqueued with an epoch at or below it is in a group whose append
    succeeded, and no online thread can still commit at or below it. *)
Theorem durable_epoch_is_honest σ p :
  rtc step db_init σ -> proc σ = Some p ->
  (∀ r, r ∈ enqueued p -> LogRecord.epoch r <= durable_epoch_ p -> r ∈ logged σ) ∧
  (∀ i e, pcs (epochs p) !! i = Some (Online e) -> durable_epoch_ p < e).
Proof.
  intros [_ Hp]%db_reachable_inv E. rewrite E in Hp. destruct Hp as [_ [frontier Hrun]]. split.
  - intros r. by eapply durable_is_logged.
  - intros i e Hi. destruct (commit_epoch_above _ _ p i e Hrun Hi) as (_ & _ & Hm).
    destruct (durable_below_target _ _ p Hrun) as [_ Hd]. specialize (Hm i). specialize (Hd i). lia.
Qed.

(** The checks by which the flusher would stop the process never fire: no
    record arrives for an epoch already reported durable, the durable epoch
    never moves backwards, and the log is ready whenever a group is appended.
    *)
Theorem flusher_never_aborts σ p :
  rtc step db_init σ -> proc σ = Some p ->
  flusher p <> FlusherAborted ∧
  ∀ target orc, flusher p = Appending target -> AppendGroup (wal_ p) (with_oracle (disk σ) orc) (carry_ p) target <> None.
Proof.
  intros [_ Hp]%db_reachable_inv E. rewrite E in Hp. destruct Hp as [Hsys [frontier Hrun]]. split.
  - intros Hf. pose proof (ri_flusher _ _ _ Hrun) as H. unfold flusher_ok in H. by rewrite Hf in H.
  - intros target orc Hf. pose proof (ri_wal _ _ _ Hrun) as HW. rewrite Hf in HW.
    destruct (append_ready _ _ _ orc (carry_ p) target None (wal_ p) (disk σ) Hsys (ri_carry _ _ _ Hrun) HW) as (r & -> & _). done.
Qed.

(** C3. A commit that was acknowledged as durable is recovered: in every
    interleaving of committing threads, epoch writer and flusher, with any
    system-call outcomes, process kills and power failures, once the log has
    been scanned and replayed after the crash, every row of the commit holds
    the value of the newest logged write of the row, which is the acknowledged
    one or a later one (no entry when that write is a deletion). *)
Theorem acknowledged_commits_are_recovered σ capacity orc r w d' rec p latest_order group_order set db' resumed :
  rtc step db_init σ -> proc σ = None -> 0 <= capacity <= OFF_T_MAX -> file_ok (disk σ) ->
  ScanAndRepair (Wal_open capacity (disk σ)) (with_oracle (disk σ) orc) 0 = (r, w, d') -> Wal.status r = Wal.Ok ->
  (∀ l, latest_order l ≡ₚ l) -> (∀ l, group_order l ≡ₚ l) -> Forall pair_ok (pairs (Wal.records r)) ->
  one_type (pairs (Wal.records r)) -> BuildRecoverySet latest_order group_order [] (Wal.records r) = Returns set ->
  Recovery.run (Wal.frontier r) set ∅ = Some (db', resumed) ->
  rec ∈ acknowledged σ -> p ∈ LogRecord.key_value_pairs rec -> is_secondary_index p = false ->
  ∃ tid value, TransactionId.ltb tid (LogRecord.tid p) = false ∧
    newest (row_writes (LogRecord.table_name p) (LogRecord.key p) (pairs (Wal.records r))) = Some (tid, value) ∧
    match entry db' (LogRecord.table_name p, [], LogRecord.key p) with
    | Some i => DataItem.transaction_id i = tid ∧ DataBuffer.toString (DataItem.buffer i) = value
    | None => value = []
    end.
Proof.
  intros Hr%db_reachable_inv Hp Hcap Hfile Hscan Hst Hlo Hgo Hok Hty Hset Hrun Hrec Hin Hrow.
  pose proof (acknowledged_scanned _ _ _ _ _ _ Hr Hp Hcap Hfile Hscan Hst rec Hrec) as Hmem.
  apply (BuildRecoverySet_spec latest_order group_order Hlo Hgo [] (Wal.records r) set Hok) in Hset.
  assert (∀ n, entry ∅ n = None) as Hempty by (intros [[tn ix] k]; unfold entry; simpl; by rewrite lookup_empty).
  destruct (run_spec _ _ _ _ _ _ Hset Hty Hempty Hrun) as [[Hrows _] _].
  specialize (Hrows (LogRecord.table_name p) (LogRecord.key p)). cbn [pairs map concat app] in Hrows.
  set (ws := row_writes _ _ _) in *.
  assert ((LogRecord.tid p, LogRecord.buffer p) ∈ ws) as Hw.
  { apply list_elem_of_fmap. exists p. split; [done|]. apply list_elem_of_In, filter_In. split.
    - apply in_concat. exists (LogRecord.key_value_pairs rec). split; [|by apply list_elem_of_In].
      apply list_elem_of_In, list_elem_of_fmap. by exists rec.
    - by rewrite Hrow, !(proj2 (str_eqb_eq _ _)). }
  destruct (newest ws) as [[tid value]|] eqn:En; [|apply newest_None in En; rewrite En in Hw; by apply elem_of_nil in Hw].
  exists tid, value. split; [by apply (proj2 (newest_Some _ _ En) _ Hw)|]. split; [done|].
  destruct (entry db' _) as [i|]; [|by eapply Hrows]. by destruct Hrows as (? & ? & [= <- <-] & _ & ? & ?).
Qed.

End database.

(** ** A commit, a flush and a crash *)

Module Demo.

#[local] Existing Instance bits_msgpack.
#[local] Existing Instance bits_msgpack_laws.

(** A schedule: the thread's accesses, the writer's, and the flusher's moves
    other than the append. *)
Inductive Act : Type := Load (i : nat) | Store (i : nat) | ReloadEpoch (i : nat) | Write | Notify
  | Commit (i : nat) (ws : list Snapshot.t) | GoOffline (i : nat) | Capture (i : nat) (awaits : bool) | Flush.

Definition thread_act (p : Proc) (i : nat) (slot : Z) (pc : ThreadPc) : option Proc :=
  match sessions p !! i with
  | Some Quiet => Some (set_epochs p (set_thread (epochs p) i slot pc) (notice p))
  | _ => None
  end.

Definition flush_act (p : Proc) : option Proc :=
  match flusher p with
  | Waiting => if wakes p then Some (set_flusher p (loop_turn p)) else None
  | Entering target => Some (set_flusher p (Collecting target (durable_epoch_ p) 0))
  | Collecting target before k =>
      match nodes p !! k with
      | Some swapped => Some (collect target before k swapped p)
      | None => Some (set_flusher p (Appending target))
      end
  | Publishing target =>
      match PublishDurable target p with Some p' => Some (set_flusher p' Waiting) | None => None end
  | _ => None
  end.

Definition act (p : Proc) (a : Act) : option Proc :=
  match a with
  | Load i => match pcs (epochs p) !! i with Some Offline => thread_act p i (slot_at (epochs p) i) (Storing (global_epoch_ (epochs p))) | _ => None end
  | Store i => match pcs (epochs p) !! i with Some (Storing q) => thread_act p i q (Reloading q) | _ => None end
  | ReloadEpoch i =>
      match pcs (epochs p) !! i with
      | Some (Reloading q) => thread_act p i (slot_at (epochs p) i) (Reload q (global_epoch_ (epochs p)))
      | _ => None
      end
  | Write =>
      match notice p, writer (epochs p) with
      | Some _, _ | None, Aborted => None
      | None, _ =>
          let e := writer_step (epochs p) in
          Some (set_epochs p e (if global_epoch_ e =? global_epoch_ (epochs p) then None else Some (global_epoch_ e)))
      end
  | Notify => match notice p with Some u => Some (EventsOnEpochIsUpdated u p) | None => None end
  | Commit i ws =>
      match pcs (epochs p) !! i, sessions p !! i, nodes p !! i with
      | Some (Online e), Some Quiet, Some buffer =>
          match LogEntry.Enqueue ws (slot_at (epochs p) i) buffer with
          | (true, buffer') => Some (enqueue p i buffer' (LogEntry.record ws (slot_at (epochs p) i)))
          | _ => None
          end
      | _, _, _ => None
      end
  | GoOffline i =>
      match pcs (epochs p) !! i, sessions p !! i with
      | Some (Online e), Some s =>
          s' ← after_offline s;
          Some (set_session (set_epochs p (set_thread (epochs p) i THREAD_OFFLINE Offline) (notice p)) i s')
      | _, _ => None
      end
  | Capture i awaits =>
      match sessions p !! i with Some (Enqueued r) => Some (set_session p i (Committed r awaits)) | _ => None end
  | Flush => flush_act p
  end.

(** The write sets of the schedule hold values of their types. *)
Definition act_ok (p : Proc) (a : Act) : Prop :=
  match a with
  | Commit i ws => Forall LogRecord.kvp_ok (LogRecord.key_value_pairs (LogEntry.record ws (slot_at (epochs p) i)))
  | _ => True
  end.

Lemma thread_act_sound p i slot pc p' : thread_act p i slot pc = Some p' ->
  EpochFramework.step (epochs p) (set_thread (epochs p) i slot pc) -> run_step p p'.
Proof.
  unfold thread_act. destruct (sessions p !! i) as [[| | |]|] eqn:Es; try done. intros [= <-] Hs.
  replace (notice p) with (if global_epoch_ (set_thread (epochs p) i slot pc) =? global_epoch_ (epochs p) then notice p
    else Some (global_epoch_ (set_thread (epochs p) i slot pc))) by (simpl; by rewrite Z.eqb_refl).
  apply run_epoch; [done| |by right]. intros j s Hj Hne. simpl. destruct (decide (i = j)) as [->|?]; [|by rewrite list_lookup_insert_ne].
  rewrite Es in Hj. by injection Hj as <-.
Qed.

Lemma act_sound p a p' : act p a = Some p' -> act_ok p a -> run_step p p'.
Proof.
  destruct a as [i|i|i| | |i ws|i|i awaits|]; cbn [act act_ok].
  - destruct (pcs _ !! i) as [[]|] eqn:E; try done. intros H _. eapply thread_act_sound; [done|]. by apply step_online_load.
  - destruct (pcs _ !! i) as [[]|] eqn:E; try done. intros H _. eapply thread_act_sound; [done|]. by apply step_online_store.
  - destruct (pcs _ !! i) as [[]|] eqn:E; try done. intros H _. eapply thread_act_sound; [done|]. by apply step_online_reload.
  - destruct (notice p) eqn:En; [done|]. intros H _.
    assert (writer (epochs p) <> Aborted) as Hw by (intros E; by rewrite E in H).
    assert (p' = set_epochs p (writer_step (epochs p)) (if global_epoch_ (writer_step (epochs p)) =? global_epoch_ (epochs p)
      then notice p else Some (global_epoch_ (writer_step (epochs p))))) as ->
      by (rewrite En; destruct (writer (epochs p)); try done; by injection H).
    apply run_epoch; [by apply step_writer| |by left]. intros i s _ _. unfold writer_step. by destruct (writer (epochs p)).
  - destruct (notice p) eqn:En; [|done]. intros [= <-] _. by apply run_notify.
  - destruct (pcs _ !! i) as [[| | |e]|] eqn:E; try done. destruct (sessions p !! i) as [[| | |]|] eqn:Es; try done.
    destruct (nodes p !! i) as [b|] eqn:Eb; [|done]. destruct (LogEntry.Enqueue _ _ _) as [[] b'] eqn:Ee; [|done].
    intros [= <-] Hok. by eapply run_commit.
  - destruct (pcs _ !! i) as [[| | |e]|] eqn:E; try done. destruct (sessions p !! i) as [s|] eqn:Es; [|done].
    intros (s' & Ha & [= <-])%bind_Some _. by eapply run_offline.
  - destruct (sessions p !! i) as [[]|] eqn:Es; try done. intros [= <-] _. by apply run_capture.
  - unfold flush_act. intros H _. destruct (flusher p) as [|t|t b k|t|n|n|t| |] eqn:Ef; try done.
    + destruct (wakes p) eqn:Ew; [|done]. injection H as <-. by apply run_turn.
    + injection H as <-. by apply run_enter.
    + destruct (nodes p !! k) eqn:Ek; injection H as <-; [by apply run_collect|by eapply run_collected].
    + pose proof (run_publish p t Ef) as Hp. destruct (PublishDurable t p); [|done]. by injection H as <-.
Qed.

Definition acts (p : Proc) (l : list Act) : option Proc :=
  fold_left (fun o a => match o with Some p => act p a | None => None end) l (Some p).

Definition plain (a : Act) : Prop := match a with Commit _ _ => False | _ => True end.

Lemma acts_sound l p p' d lg ak : acts p l = Some p' -> Forall plain l ->
  rtc step (mkDb (Some p) d lg ak) (mkDb (Some p') d lg ak).
Proof.
  unfold acts. revert p. induction l as [|a l IH]; intros p; simpl; [intros [= ->] _; apply rtc_refl|].
  intros H [Ha Hl]%Forall_cons. destruct (act p a) as [p1|] eqn:E.
  - eapply rtc_l; [apply step_run, (act_sound _ a); [exact E|by destruct a]|by apply IH].
  - exfalso. clear -H. induction l; simpl in H; [done|by apply IHl].
Qed.

(** A thread writes the row 1 in epoch 1 and waits; the epoch advances to 3,
    and the flusher writes epoch 1. *)
Definition writes : list Snapshot.t := [Snapshot.new [1] (Some [7]) 0 [] [] (TransactionId.mk 1 2) false].
Definition rec : LogRecord.t := LogEntry.record writes 1.

Definition file0 : Device := mkDevice [] [] [].
Definition scan0 : WalScanResult * Wal * Device := ScanAndRepair (Wal_open 64 file0) (with_oracle file0 []) 0.
Definition p0 : Proc := fresh 1 (Wal.frontier scan0.1.1) 1 scan0.1.2.
Definition joined : Proc := default p0 (acts p0 [Load 0; Store 0; ReloadEpoch 0]).
Definition committed : Proc := default p0 (act joined (Commit 0 writes)).
Definition advance : list Act := [Write; Write; Write; Write; Notify].
Definition collected : Proc := default p0 (acts committed ([Capture 0 true; GoOffline 0] ++ advance ++ advance ++ [Flush; Flush; Flush; Flush])).
Definition append : ioerror * Wal * Device :=
  default (None, wal_ p0, file0) (AppendGroup (wal_ collected) (with_oracle scan0.2 []) (carry_ collected) 1).
Definition written : Proc := appended 1 None append.1.2 collected.
Definition published : Proc := default p0 (act written Flush).
Definition logged1 : LogRecords := [] ++ group_records 1 (carry_ collected).

Lemma started : rtc step db_init (mkDb (Some p0) scan0.2 [] []).
Proof.
  apply rtc_once. apply (step_start file0 [] [] 1 64 [] scan0.1.1 scan0.1.2 scan0.2 1).
  - vm_compute. split; discriminate.
  - split; [constructor|vm_compute; discriminate].
  - vm_compute. reflexivity.
  - vm_compute. reflexivity.
  - vm_compute. split; reflexivity.
Qed.

Lemma writes_ok : act_ok joined (Commit 0 writes).
Proof.
  cbn [act_ok]. apply Forall_cons. split; [|apply Forall_nil_2]. unfold LogRecord.kvp_ok, TransactionId.ok, is_u32, is_u8. cbn.
  repeat split; try lia; first [apply Forall_nil_2|bytes_eval].
Qed.

Lemma collected_reachable : rtc step db_init (mkDb (Some collected) scan0.2 [] []).
Proof.
  etransitivity; [exact started|]. etransitivity.
  { apply (acts_sound [Load 0; Store 0; ReloadEpoch 0] p0 joined); [vm_compute; reflexivity|repeat constructor]. }
  eapply rtc_l.
  { apply step_run, (act_sound joined (Commit 0 writes) committed); [vm_compute; reflexivity|exact writes_ok]. }
  apply (acts_sound ([Capture 0 true; GoOffline 0] ++ advance ++ advance ++ [Flush; Flush; Flush; Flush])); [vm_compute; reflexivity|repeat constructor].
Qed.

Lemma published_reachable : rtc step db_init (mkDb (Some published) append.2 logged1 []).
Proof.
  etransitivity; [exact collected_reachable|]. eapply rtc_l.
  { apply (step_append collected scan0.2 [] [] 1 [] None append.1.2 append.2); vm_compute; reflexivity. }
  apply (acts_sound [Flush] written published); [vm_compute; reflexivity|repeat constructor].
Qed.

Definition crashed : Db := mkDb None append.2 logged1 [rec].

Lemma crash_reachable : rtc step db_init crashed.
Proof.
  etransitivity; [exact published_reachable|].
  eapply rtc_l; [apply (step_acknowledge published 0 rec); vm_compute; reflexivity|].
  apply rtc_once, step_kill.
Qed.

Definition rescan : WalScanResult * Wal * Device := ScanAndRepair (Wal_open 0 (disk crashed)) (with_oracle (disk crashed) []) 0.

Lemma rescan_ok : Wal.status rescan.1.1 = Wal.Ok.
Proof. vm_compute. reflexivity. Qed.

#[local] Abbreviation replayed := (BuildRecoverySet (fun l => l) (fun l => l) [] (Wal.records rescan.1.1)).

Lemma rescan_records : Wal.records rescan.1.1 = [rec].
Proof. vm_compute. reflexivity. Qed.

Lemma rescan_recovers :
  match replayed with Returns set => match Recovery.run (Wal.frontier rescan.1.1) set ∅ with Some _ => true | None => false end | _ => false end = true.
Proof. vm_compute. reflexivity. Qed.

#[local] Opaque ScanAndRepair.

Lemma rescan_eq :
  ScanAndRepair (Wal_open 0 (disk crashed)) (with_oracle (disk crashed) []) 0 = (rescan.1.1, rescan.1.2, rescan.2).
Proof. unfold rescan. by destruct (ScanAndRepair _ _ _) as [[? ?] ?]. Qed.

Lemma crashed_file_ok : file_ok (disk crashed).
Proof. split; [bytes_eval|vm_compute; discriminate]. Qed.

Lemma acknowledged_commits_survive_witness : rec ∈ Wal.records rescan.1.1.
Proof.
  apply (acknowledged_commits_survive crashed 0 [] rescan.1.1 rescan.1.2 rescan.2 rec).
  - exact crash_reachable.
  - reflexivity.
  - vm_compute. split; discriminate.
  - exact crashed_file_ok.
  - exact rescan_eq.
  - exact rescan_ok.
  - apply list_elem_of_here.
Defined.

Definition published_db : Db := mkDb (Some published) append.2 logged1 [].
Definition collected_db : Db := mkDb (Some collected) scan0.2 [] [].

Lemma published_enqueued : rec ∈ enqueued published ∧ LogRecord.epoch rec <= durable_epoch_ published.
Proof. split; [vm_compute; apply list_elem_of_here|vm_compute; discriminate]. Qed.

Lemma durable_epoch_is_honest_witness : rec ∈ logged published_db.
Proof.
  destruct (durable_epoch_is_honest published_db published published_reachable (eq_refl (Some published))) as [H _].
  exact (H rec (proj1 published_enqueued) (proj2 published_enqueued)).
Defined.

Lemma collected_appending : flusher collected = Appending 1.
Proof. vm_compute. reflexivity. Qed.

Lemma flusher_never_aborts_witness :
  AppendGroup (wal_ collected) (with_oracle (disk collected_db) [IoFailed EIO]) (carry_ collected) 1 <> None.
Proof.
  destruct (flusher_never_aborts collected_db collected collected_reachable (eq_refl (Some collected))) as [_ H].
  exact (H 1 [IoFailed EIO] collected_appending).
Defined.

Definition written_pair : LogRecord.KeyValuePair := LogRecord.mkKVP [1] [7] (TransactionId.mk 1 2) [] [] 0 [] 0 [].

Lemma one_row : one_type (pairs [rec]).
Proof. intros tn ix ty ty' k k' pk pk' [tid Hn]. discriminate Hn. Qed.

Lemma acknowledged_commits_are_recovered_witness :
  match replayed with
  | Returns set =>
      match Recovery.run (Wal.frontier rescan.1.1) set ∅ with
      | Some (db', _) =>
          ∃ tid value, TransactionId.ltb tid (TransactionId.mk 1 2) = false ∧
            newest (row_writes [] [1] (pairs (Wal.records rescan.1.1))) = Some (tid, value) ∧
            match entry db' ([], [], [1]) with
            | Some i => DataItem.transaction_id i = tid ∧ DataBuffer.toString (DataItem.buffer i) = value
            | None => value = []
            end
      | None => False
      end
  | _ => False
  end.
Proof.
  pose proof rescan_recovers as Hr. destruct replayed as [set|field] eqn:E; [|discriminate Hr].
  destruct (Recovery.run (Wal.frontier rescan.1.1) set ∅) as [[db' resumed]|] eqn:Er; [|discriminate Hr].
  apply (acknowledged_commits_are_recovered crashed 0 [] rescan.1.1 rescan.1.2 rescan.2 rec written_pair
    (fun l => l) (fun l => l) set db' resumed).
  - exact crash_reachable.
  - reflexivity.
  - vm_compute. split; discriminate.
  - exact crashed_file_ok.
  - exact rescan_eq.
  - exact rescan_ok.
  - reflexivity.
  - reflexivity.
  - rewrite rescan_records. apply Forall_cons. split; [|apply Forall_nil_2]. unfold pair_ok, TransactionId.ok, is_u32, string_ok. cbn.
    repeat split; try lia; first [apply Forall_nil_2|bytes_eval].
  - rewrite rescan_records. exact one_row.
  - exact E.
  - exact Er.
  - apply list_elem_of_here.
  - apply list_elem_of_here.
  - reflexivity.
Defined.

End Demo.
