(* ===== verification/Switch.v ===== *)
(** * Switching the durability policy of a running database
    ([SetCommitDurability] and [EndTransaction] of src/src/database_impl.h,
    [SetCommitDurability] and [GetCommitDurability] of
    src/src/recovery/logger.cpp)

    A commit captures the policy in force once, after it has enqueued its
    record and while its thread is still online: under Sync it waits for its
    epoch to be durable, under Async it does not.  A switch to Sync publishes
    the policy and then waits until the epoch it reads afterwards is durable.
    The transition system is that of Durability.v with the policy, the mutex of
    the switches and any number of calls; the job of [ExecuteTransaction] does
    not look at the policy.

    The theorems show that a switch to Sync that returns true confirms every
    commit that had captured Async: its record is in the log and is returned by
    the scan after any later crash; and that from then on, until a switch to
    Async is published, every commit is either waiting or logged. *)

From stdpp Require Import gmap strings.
From S2P Require Import Prelude PackedKeys Types WalDevice Wal WalFrames WalTail WalScan WalRecovery WalSystem StdMap DataItem TxSet StdAlgo LogReplay Recovery Epoch Startup Durability.

Import EpochFramework.
Import Durability.

Module Switch.

(** Where a call of [SetCommitDurability] is. *)
Inductive CallPc : Type :=
| Locking
| ClockCheck
| Publish
| ReadCut
| WaitEpoch (cut : Z)
| WaitDurable (cut : Z)
| LastWord (cut : Z)
| Returned (result : bool).

Record Call := mkCall { mode : Config.CommitDurability; call_pc : CallPc }.

Record State := mkState {
  db : Db;
  durability_ : Config.CommitDurability;
  (** the call that holds [durability_switch_mtx_] *)
  switch_lock : option nat;
  calls : list Call;
  (** the records of this run whose commit captured Async *)
  captured_async : LogRecords;
}.

(** The checks at the beginning of [SetCommitDurability]. *)
Definition SetCommitDurability (enable_logging : bool) (m : Config.CommitDurability) (barrier_timeout local_epoch : Z) : CallPc :=
  if negb enable_logging then Returned false
  else if bool_decide (m = Config.Volatile) then Returned false
  else if barrier_timeout <=? 0 then Returned false
  else if negb (local_epoch =? THREAD_OFFLINE) then Returned false
  else Locking.

Definition set_call (s : State) (c : nat) (k : Call) (pc : CallPc) (owner : option nat) : State :=
  mkState (db s) (durability_ s) owner (<[c := mkCall (mode k) pc]> (calls s)) (captured_async s).

(** The return of a call, which gives up the mutex. *)
Definition finish (s : State) (c : nat) (k : Call) (result : bool) : State := set_call s c k (Returned result) None.

(** One step of a call; [expired] tells what the clock says of the deadline. *)
Definition call_step (s : State) (p : Proc) (c : nat) (expired : bool) : option State :=
  k ← calls s !! c;
  let g := global_epoch_ (epochs p) in
  match call_pc k with
  | Locking =>
      if expired then Some (set_call s c k (Returned false) (switch_lock s))
      else match switch_lock s with None => Some (set_call s c k ClockCheck (Some c)) | Some _ => None end
  | ClockCheck => Some (if expired then finish s c k false else set_call s c k Publish (switch_lock s))
  | Publish =>
      let s' := mkState (db s) (mode k) (switch_lock s) (calls s) (captured_async s) in
      Some (if bool_decide (mode k <> Config.Sync) then finish s' c k true else set_call s' c k ReadCut (switch_lock s'))
  | ReadCut => Some (set_call s c k (WaitEpoch g) (switch_lock s))
  | WaitEpoch cut =>
      let target := u32 (cut + 2) in
      if target <=? g then Some (set_call s c k (WaitDurable cut) (switch_lock s))
      else if (kEpochHighWater <? target) || stop_ (epochs p) || expired then Some (finish s c k false)
      else None
  | WaitDurable cut =>
      match WaitUntilDurable cut expired p with
      | None => None
      | Some Durable => Some (set_call s c k (LastWord cut) (switch_lock s))
      | Some _ => Some (finish s c k false)
      end
  | LastWord _ => Some (finish s c k (negb expired))
  | Returned _ => None
  end.

(** A step of the run that captures no policy. *)
Definition keeps_enqueued (p p' : Proc) : Prop :=
  ∀ i r, sessions p !! i = Some (Enqueued r) -> sessions p' !! i = Some (Enqueued r).

(** The capture of [EndTransaction]. *)
Definition capture (s : State) (p : Proc) (i : nat) (r : LogRecord.t) : State :=
  let awaits_durability := bool_decide (durability_ s = Config.Sync) in
  mkState (mkDb (Some (set_session p i (Committed r awaits_durability))) (disk (db s)) (logged (db s)) (acknowledged (db s)))
    (durability_ s) (switch_lock s) (calls s)
    (if awaits_durability then captured_async s else captured_async s ++ [r]).

Section steps.
Context {MP : MsgPack}.

Inductive step : State -> State -> Prop :=
| sw_run p p' d lg ak d' lg' ak' m o cs ca :
    Durability.step (mkDb (Some p) d lg ak) (mkDb (Some p') d' lg' ak') -> keeps_enqueued p p' ->
    step (mkState (mkDb (Some p) d lg ak) m o cs ca) (mkState (mkDb (Some p') d' lg' ak') m o cs ca)
| sw_start p' d lg ak d' lg' ak' m o cs ca m' :
    Durability.step (mkDb None d lg ak) (mkDb (Some p') d' lg' ak') -> m' <> Config.Volatile ->
    step (mkState (mkDb None d lg ak) m o cs ca) (mkState (mkDb (Some p') d' lg' ak') m' None [] [])
| sw_down σ d' lg' ak' m o cs ca :
    Durability.step σ (mkDb None d' lg' ak') -> step (mkState σ m o cs ca) (mkState (mkDb None d' lg' ak') m None [] [])
| sw_capture s p i r :
    proc (db s) = Some p -> sessions p !! i = Some (Enqueued r) -> step s (capture s p i r)
| sw_job s p i r :
    proc (db s) = Some p -> sessions p !! i = Some (Enqueued r) ->
    step s (mkState (mkDb (Some (set_session p i (Committed r false))) (disk (db s)) (logged (db s)) (acknowledged (db s)))
              (durability_ s) (switch_lock s) (calls s) (captured_async s))
| sw_call s p i m barrier_timeout :
    proc (db s) = Some p ->
    step s (mkState (db s) (durability_ s) (switch_lock s)
              (calls s ++ [mkCall m (SetCommitDurability true m barrier_timeout (slot_at (epochs p) i))]) (captured_async s))
| sw_call_step s p c expired s' :
    proc (db s) = Some p -> call_step s p c expired = Some s' -> step s s'.

Definition init : State := mkState db_init Config.Async None [] [].

End steps.
End Switch.
Import Switch.

(** ** The invariant *)

(** The points of a call at which it holds the mutex. *)
Definition holds_lock (pc : CallPc) : bool := match pc with Locking | Returned _ => false | _ => true end.

(** What the barrier has reached. *)
Definition call_ok (s : State) (k : Call) : Prop :=
  match call_pc k with
  | ReadCut => mode k = Config.Sync ∧ durability_ s = Config.Sync
  | WaitEpoch cut | WaitDurable cut =>
      mode k = Config.Sync ∧ durability_ s = Config.Sync ∧ ∀ r, r ∈ captured_async s -> LogRecord.epoch r <= cut
  | LastWord cut => mode k = Config.Sync ∧ durability_ s = Config.Sync ∧ ∀ r, r ∈ captured_async s -> r ∈ logged (db s)
  | _ => True
  end.

Section invariant.
Context {MP : MsgPack} {MPL : MsgPackLaws}.

Record inv (s : State) : Prop := {
  inv_db : db_inv (db s);
  inv_down : proc (db s) = None -> captured_async s = [] ∧ calls s = [] ∧ switch_lock s = None;
  inv_epochs : ∀ p r, proc (db s) = Some p -> r ∈ enqueued p -> LogRecord.epoch r <= global_epoch_ (epochs p);
  inv_async : ∀ p r, proc (db s) = Some p -> r ∈ captured_async s -> r ∈ enqueued p;
  inv_lock : ∀ c k, calls s !! c = Some k -> holds_lock (call_pc k) = true -> switch_lock s = Some c;
  inv_calls : ∀ c k, calls s !! c = Some k -> call_ok s k;
}.

(** What a step of a run leaves of the records and the epochs. *)
Lemma run_step_frame frontier lg p p' : run_step p p' -> run_inv frontier lg p ->
  (∀ r, r ∈ enqueued p -> r ∈ enqueued p') ∧
  (∀ r, r ∈ enqueued p' -> r ∈ enqueued p ∨ LogRecord.epoch r <= global_epoch_ (epochs p')) ∧
  global_epoch_ (epochs p) <= global_epoch_ (epochs p').
Proof.
  intros Hs Hinv. pose proof (ri_epochs _ _ _ Hinv) as He.
  assert (Hsame : enqueued p' = enqueued p -> epochs p' = epochs p ->
    (∀ r, r ∈ enqueued p -> r ∈ enqueued p') ∧
    (∀ r, r ∈ enqueued p' -> r ∈ enqueued p ∨ LogRecord.epoch r <= global_epoch_ (epochs p')) ∧
    global_epoch_ (epochs p) <= global_epoch_ (epochs p')).
  { intros -> ->. split_and!; [done|by left|lia]. }
  destruct Hs as [p e Hs _ _|p u Hn|p i e ws buffer buffer' Hi Hq Hb Hok Hen|p i r awaits Hi|p i e s s' Hi Hs Ha|p|p Hf Hst|p Hf Hw
    |p target Hf|p target before k swapped Hf Hk|p target before k Hf Hk|p target Hf|p n Hf|p n Hf|p target Hf];
    try (by apply Hsame).
  - split_and!; [done|by left|]. by eapply epoch_step_mono.
  - apply Hsame; unfold EventsOnEpochIsUpdated, ScheduleFlush; by repeat case_match.
  - cbn. split_and!; [|intros r [?|Hr%list_elem_of_singleton]%elem_of_app; [by left|right]|lia].
    + intros r Hr. apply elem_of_app. by left.
    + subst r. destruct He as (_ & _ & Hth & _). destruct (Hth i _ Hi) as (Hsl & _ & Hge).
      unfold slot_at. rewrite Hsl. cbn. destruct Hge as [?|[? _]]; lia.
  - split_and!; [done|by left|cbn; lia].
  - apply Hsame; unfold PublishStopped; by case_match.
  - apply Hsame; unfold collect; by case_match.
  - apply Hsame; unfold PublishFailure; by case_match.
  - apply Hsame; unfold PublishDurable; destruct (_ <? _); try done; by destruct (logger_state p).
Qed.

Lemma run_frame p p' d lg ak d' lg' ak' :
  Durability.step (mkDb (Some p) d lg ak) (mkDb (Some p') d' lg' ak') -> db_inv (mkDb (Some p) d lg ak) ->
  (∀ r, r ∈ enqueued p -> r ∈ enqueued p') ∧
  (∀ r, r ∈ enqueued p' -> r ∈ enqueued p ∨ LogRecord.epoch r <= global_epoch_ (epochs p')) ∧
  global_epoch_ (epochs p) <= global_epoch_ (epochs p').
Proof.
  intros H [_ [_ [frontier Hinv]]]. cbn [proc logged] in Hinv.
  inversion H; subst; [by eapply run_step_frame|..]; (split_and!; [done|by left|cbn; lia]).
Qed.

(** The log only grows. *)
Lemma logged_grows σ σ' r : Durability.step σ σ' -> r ∈ logged σ -> r ∈ logged σ'.
Proof. destruct 1; cbn; try done. destruct e; [done|]. intros Hr. apply elem_of_app. by left. Qed.

Lemma sw_logged_grows s s' r : step s s' -> r ∈ logged (db s) -> r ∈ logged (db s').
Proof.
  destruct 1 as [p p' d lg ak d' lg' ak' m o cs ca H _|p' d lg ak d' lg' ak' m o cs ca m' H _|σ d' lg' ak' m o cs ca H
    |s p i r' Hp Hi|s p i r' Hp Hi|s p i m b Hp|s p c expired s' Hp H]; cbn [db logged]; try done.
  - exact (logged_grows _ _ r H).
  - exact (logged_grows _ _ r H).
  - exact (logged_grows _ _ r H).
  - unfold call_step in H. apply bind_Some in H as (k & _ & H). unfold finish, set_call in H.
    repeat case_match; simplify_eq; done.
Qed.

(** *** The calls *)

Lemma call_ok_free s k : holds_lock (call_pc k) = false -> call_ok s k.
Proof. unfold call_ok. by destruct (call_pc k). Qed.

Lemma switch_set_call_inv s c k pc owner : inv s -> calls s !! c = Some k ->
  (holds_lock pc = true -> owner = Some c) -> owner = switch_lock s ∨ switch_lock s = None ∨ switch_lock s = Some c ->
  call_ok s (mkCall (mode k) pc) -> inv (set_call s c k pc owner).
Proof.
  intros [Hdb Hdn Hep Has Hlk Hok] Hc Hl Ho Hk. split; try done; cbn.
  - intros Hp. destruct (Hdn Hp) as (_ & E & _). by rewrite E in Hc.
  - intros c' k' [(-> & <- & _)|[Hne Hc']]%list_lookup_insert_Some Hh; [by apply Hl|].
    pose proof (Hlk c' k' Hc' Hh) as E. destruct Ho as [->|[E'|E']]; congruence.
  - intros c' k' [(-> & <- & _)|[Hne Hc']]%list_lookup_insert_Some; [done|by apply (Hok c')].
Qed.

Lemma switch_call_step_inv s p c expired s' : inv s -> proc (db s) = Some p -> call_step s p c expired = Some s' -> inv s'.
Proof.
  intros H Hp (k & Hc & E)%bind_Some. cbv zeta in E. pose proof (inv_calls s H c k Hc) as Hk. pose proof (inv_lock s H c k Hc) as Hl.
  assert (Hfin : ∀ b, switch_lock s = Some c -> inv (finish s c k b)).
  { intros b Hlock. apply switch_set_call_inv; try done. auto. }
  assert (Hset : ∀ pc, switch_lock s = Some c -> call_ok s (mkCall (mode k) pc) -> inv (set_call s c k pc (switch_lock s))).
  { intros pc Hlock Hpc. apply switch_set_call_inv; try done. auto. }
  unfold call_ok in Hk. destruct (call_pc k) as [| | | |cut|cut|cut|b] eqn:Epc; try done; cbn [holds_lock] in Hl;
    try (specialize (Hl eq_refl)).
  - destruct expired; [injection E as <-; apply switch_set_call_inv; try done; auto|].
    destruct (switch_lock s) eqn:Elock; [done|]. injection E as <-. apply switch_set_call_inv; try done. auto.
  - destruct expired; injection E as <-; [by apply Hfin|by apply Hset].
  - set (s1 := mkState (db s) (mode k) (switch_lock s) (calls s) (captured_async s)) in *.
    assert (H1 : inv s1).
    { pose proof H as [Hdb Hdn Hep Has Hlk Hok]. split; try done. intros c' k' Hc'.
      destruct (holds_lock (call_pc k')) eqn:Eh; [|by apply call_ok_free]. pose proof (Hlk c' k' Hc' Eh) as E'.
      assert (c' = c) as -> by congruence. cbn in Hc'. simplify_eq. unfold call_ok. by rewrite Epc. }
    injection E as <-. destruct (bool_decide (mode k <> Config.Sync)) eqn:Em.
    + apply switch_set_call_inv; try done. auto.
    + apply bool_decide_eq_false in Em. apply switch_set_call_inv; try done; [auto|]. unfold call_ok. cbn.
      destruct (mode k); try (by destruct Em); done.
  - injection E as <-. apply Hset; [done|]. destruct Hk as [Hm Hd]. unfold call_ok. cbn. split_and!; [done|done|].
    intros r Hr. eapply (inv_epochs s H p r Hp), (inv_async s H p r Hp Hr).
  - destruct (u32 (cut + 2) <=? global_epoch_ (epochs p)); [injection E as <-; by apply Hset|].
    destruct (_ || _); [injection E as <-; by apply Hfin|done].
  - destruct (WaitUntilDurable cut expired p) as [r|] eqn:Ew; [|done].
    destruct r; [|injection E as <-; by apply Hfin..].
    injection E as <-. apply Hset; [done|]. destruct Hk as (Hm & Hd & Hr). unfold call_ok. cbn. split_and!; try done. intros r Hin.
    destruct (inv_db s H) as [_ Hdb]. rewrite Hp in Hdb. destruct Hdb as (_ & frontier & Hrun).
    eapply durable_is_logged; [done|by apply (inv_async s H p r Hp)|]. transitivity cut; [by apply Hr|].
    unfold WaitUntilDurable in Ew. destruct (Z.leb_spec cut (durable_epoch_ p)); [done|]. destruct (logger_state p), expired; done.
  - injection E as <-. by apply Hfin.
Qed.

(** *** The steps of the database *)

(** A step that only moves a session. *)
Lemma session_inv s p i r awaits ca : inv s -> proc (db s) = Some p -> sessions p !! i = Some (Enqueued r) ->
  (ca = captured_async s ∨ ca = captured_async s ++ [r] ∧ durability_ s <> Config.Sync) ->
  inv (mkState (mkDb (Some (set_session p i (Committed r awaits))) (disk (db s)) (logged (db s)) (acknowledged (db s)))
         (durability_ s) (switch_lock s) (calls s) ca).
Proof.
  intros H Hp Hi Hca. pose proof H as [Hdb Hdn Hep Has Hlk Hok]. destruct (db s) as [p0 d lg ak] eqn:Edb. cbn in Hp. subst p0.
  assert (Hr : r ∈ enqueued p).
  { destruct Hdb as (_ & _ & frontier & Hrun). by eapply (ri_sessions _ _ _ Hrun i (Enqueued r)). }
  split; cbn; try done.
  - eapply step_inv; [|exact Hdb]. by apply step_run, run_capture.
  - intros p' r' [= <-]. exact (Hep p r' eq_refl).
  - intros p' r' [= <-] Hin. cbn. destruct Hca as [->|[-> _]]; [exact (Has p r' eq_refl Hin)|].
    apply elem_of_app in Hin as [Hin|Hin%list_elem_of_singleton]; [exact (Has p r' eq_refl Hin)|by subst r'].
  - intros c k Hc. specialize (Hok c k Hc). unfold call_ok in *. rewrite Edb in Hok. cbn in *.
    destruct Hca as [->|[-> Hd]]; [done|]. by destruct (call_pc k); try done; destruct Hok as (_ & ? & _) || destruct Hok.
Qed.

Lemma sw_step_inv s s' : step s s' -> inv s -> inv s'.
Proof.
  destruct 1 as [p p' d lg ak d' lg' ak' m o cs ca Hs _|p' d lg ak d' lg' ak' m o cs ca m' Hs _|σ d' lg' ak' m o cs ca Hs
    |s p i r Hp Hi|s p i r Hp Hi|s p i m b Hp|s p c expired s' Hp E]; intros H.
  - pose proof H as [Hdb Hdn Hep Has Hlk Hok]. cbn in *. destruct (run_frame _ _ _ _ _ _ _ _ Hs Hdb) as (H1 & H2 & H3).
    split; cbn; try done.
    + by eapply step_inv.
    + intros p0 r [= <-] Hr. destruct (H2 r Hr) as [Hr'|?]; [|done]. specialize (Hep p r eq_refl Hr'). lia.
    + intros p0 r [= <-] Hr. by apply H1, Has.
    + intros c k Hc. specialize (Hok c k Hc). unfold call_ok in *. cbn in *. destruct (call_pc k); try done.
      destruct Hok as (? & ? & Hr). split_and!; try done. intros r Hin%Hr. exact (logged_grows _ _ r Hs Hin).
  - pose proof H as [Hdb Hdn Hep Has Hlk Hok]. cbn in *. split; cbn; try done.
    + by eapply step_inv.
    + intros p0 r [= <-]. inversion Hs; subst. by intros ?%elem_of_nil.
    + by intros p0 r _ ?%elem_of_nil.
  - pose proof H as [Hdb Hdn Hep Has Hlk Hok]. split; cbn; try done. by eapply step_inv.
  - unfold capture. destruct (bool_decide (durability_ s = Config.Sync)) eqn:E; (apply session_inv; [done|done|done|]); [by left|].
    right. by apply bool_decide_eq_false in E.
  - apply session_inv; auto.
  - pose proof H as [Hdb Hdn Hep Has Hlk Hok]. rewrite Hp in *.
    assert (Hnew : ∀ c k, (calls s ++ [mkCall m (SetCommitDurability true m b (slot_at (epochs p) i))]) !! c = Some k ->
      calls s !! c = Some k ∨ holds_lock (call_pc k) = false).
    { intros c k [Hc|[_ Hc]]%lookup_app_Some; [by left|right]. apply list_lookup_singleton_Some in Hc as [_ <-].
      cbn. unfold SetCommitDurability. by repeat case_match. }
    split; cbn; try done; rewrite ?Hp; try done.
    + intros c k [Hc|Hf]%Hnew Hh; [by apply (Hlk c k)|congruence].
    + intros c k [Hc|Hf]%Hnew; [exact (Hok c k Hc)|by apply call_ok_free].
  - by eapply switch_call_step_inv.
Qed.

Lemma sw_reachable_inv s : rtc step init s -> inv s.
Proof.
  intros H. refine (rtc_ind_r inv init _ _ s H); [|intros s1 s2 _ Hs Hi; by apply (sw_step_inv s1)].
  split; try done. split; [by intros r ?%elem_of_nil|apply sys_inv_init].
Qed.

(** ** Theorems *)

(** The step with which a switch to Sync returns true. *)
Lemma confirmed s p c expired s1 : inv s -> proc (db s) = Some p -> call_step s p c expired = Some s1 ->
  calls s1 !! c = Some (mkCall Config.Sync (Returned true)) ->
  db s1 = db s ∧ durability_ s1 = Config.Sync ∧ ∀ rec, rec ∈ captured_async s1 -> rec ∈ logged (db s1).
Proof.
  intros H Hp (k & Hc & E)%bind_Some Hr. cbv zeta in E. pose proof (inv_calls s H c k Hc) as Hk.
  assert (Hlt : (c < length (calls s))%nat) by (by eapply lookup_lt_Some).
  unfold call_ok in Hk. destruct (call_pc k) as [| | | |cut|cut|cut|b] eqn:Epc; try done; unfold finish, set_call in E.
  all: repeat case_match; simplify_eq; cbn in Hr; rewrite list_lookup_insert_eq in Hr by done; simplify_eq.
  - rewrite bool_decide_eq_true in *. by destruct k as [[] ?].
  - destruct Hk as (_ & ? & ?). done.
Qed.

(** C16. A switch to Sync that returns true confirms what was acknowledged
    under Async: in every interleaving of commits, switches, the epoch writer
    and the flusher, the record of every commit of the run that had captured
    Async when the call returned is among those the next successful scan of
    the log returns, whatever happens between. *)
Theorem switch_to_sync_confirms s p c expired s1 s2 capacity orc r w d' rec :
  rtc step init s -> proc (db s) = Some p -> call_step s p c expired = Some s1 ->
  calls s1 !! c = Some (mkCall Config.Sync (Returned true)) -> rec ∈ captured_async s1 ->
  rtc step s1 s2 -> proc (db s2) = None -> 0 <= capacity <= OFF_T_MAX -> file_ok (disk (db s2)) ->
  ScanAndRepair (Wal_open capacity (disk (db s2))) (with_oracle (disk (db s2)) orc) 0 = (r, w, d') -> Wal.status r = Wal.Ok ->
  rec ∈ Wal.records r.
Proof.
  intros Hi%sw_reachable_inv Hp E Hret Hrec Hrun Hdown Hcap Hfile Hscan Hok.
  destruct (confirmed s p c expired s1 Hi Hp E Hret) as (_ & _ & Hlog). pose proof (switch_call_step_inv s p c expired s1 Hi Hp E) as Hi1.
  assert (Hrun' : inv s2 ∧ rec ∈ logged (db s2)).
  { apply Hlog in Hrec. clear -Hrun Hi1 Hrec MPL. induction Hrun as [s|s s' s'' Hs _ IH]; [done|].
    apply IH; [by eapply sw_logged_grows|by eapply sw_step_inv]. }
  destruct Hrun' as [[Hdb _ _ _ _ _] Hl]. by eapply (logged_scanned (db s2)).
Qed.

(** While the policy is Sync no commit joins the unconfirmed ones. *)
Lemma sync_step s s' rec : inv s -> step s s' -> durability_ s = Config.Sync -> durability_ s' = Config.Sync ->
  (∀ rec, rec ∈ captured_async s -> rec ∈ logged (db s)) -> rec ∈ captured_async s' -> rec ∈ logged (db s').
Proof.
  intros Hi Hs Hd Hd' H Hin. eapply sw_logged_grows; [exact Hs|]. apply H.
  destruct Hs as [p p' d lg ak d' lg' ak' m o cs ca Hs _|p' d lg ak d' lg' ak' m o cs ca m' Hs _|σ d' lg' ak' m o cs ca Hs
    |s p i r Hp Hs|s p i r Hp Hs|s p i m b Hp|s p c expired s' Hp Hs]; cbn in *; try done; try (by apply elem_of_nil in Hin).
  - by rewrite bool_decide_eq_true_2 in Hin.
  - unfold call_step in Hs. apply bind_Some in Hs as (k & _ & Hs). unfold finish, set_call in Hs.
    repeat case_match; simplify_eq; done.
Qed.

(** After such a return, as long as no switch to Async is published, every
    commit that did not wait and every commit that was acknowledged is in the
    log. *)
Theorem sync_policy_stays_confirmed s p c expired s1 s2 :
  rtc step init s -> proc (db s) = Some p -> call_step s p c expired = Some s1 ->
  calls s1 !! c = Some (mkCall Config.Sync (Returned true)) ->
  rtc (fun a b => step a b ∧ durability_ b = Config.Sync) s1 s2 ->
  ∀ rec, rec ∈ captured_async s2 ∨ rec ∈ acknowledged (db s2) -> rec ∈ logged (db s2).
Proof.
  intros Hi%sw_reachable_inv Hp E Hret Hrun. pose proof (switch_call_step_inv s p c expired s1 Hi Hp E) as Hi1.
  destruct (confirmed s p c expired s1 Hi Hp E Hret) as (_ & Hd & Hlog). clear -Hrun Hi1 Hd Hlog MPL.
  induction Hrun as [s|s s' s'' [Hs Hd'] _ IH]; [intros rec [?|Hack]; [by apply Hlog|by apply (inv_db s Hi1)]|].
  apply IH; [by eapply sw_step_inv|done|]. intros rec. by apply (sync_step s s').
Qed.

End invariant.

(** ** A switch *)

Module Demo.
Import Durability.Demo.

#[local] Existing Instance bits_msgpack.
#[local] Existing Instance bits_msgpack_laws.

Definition not_capture (a : Act) : Prop := match a with Capture _ _ => False | _ => True end.

Lemma act_keeps p a p' : act p a = Some p' -> not_capture a -> keeps_enqueued p p'.
Proof.
  intros H Ha i r Hi. assert (Hins : ∀ (l : list Session) (j : nat) s s', l !! j = Some s -> (∀ r, s <> Enqueued r) ->
    l !! i = Some (Enqueued r) -> <[j := s']> l !! i = Some (Enqueued r)).
  { intros l j s s' Hj Hs Hl. destruct (decide (i = j)) as [->|Hne]; [|by rewrite list_lookup_insert_ne].
    rewrite Hj in Hl. injection Hl as ->. by destruct (Hs r). }
  assert (Hthread : ∀ j slot pc, thread_act p j slot pc = Some p' -> sessions p' !! i = Some (Enqueued r)).
  { intros j slot pc. unfold thread_act. destruct (sessions p !! j) as [[]|]; try done. by intros [= <-]. }
  destruct a as [j|j|j| | |j ws|j|j awaits|]; cbn [act] in H; try done.
  - destruct (pcs _ !! j) as [[]|]; try done. by eapply Hthread.
  - destruct (pcs _ !! j) as [[]|]; try done. by eapply Hthread.
  - destruct (pcs _ !! j) as [[]|]; try done. by eapply Hthread.
  - destruct (notice p), (writer (epochs p)); try done; by injection H as <-.
  - destruct (notice p); [|done]. injection H as <-. unfold EventsOnEpochIsUpdated, ScheduleFlush. by repeat case_match.
  - destruct (pcs _ !! j) as [[]|], (sessions p !! j) as [[]|] eqn:Ej, (nodes p !! j); try done.
    destruct (LogEntry.Enqueue _ _ _) as [[] ?]; [|done]. injection H as <-. cbn. by eapply Hins.
  - destruct (pcs _ !! j) as [[]|], (sessions p !! j) as [s|] eqn:Ej; try done.
    apply bind_Some in H as (s' & Hs & [= <-]). cbn. eapply Hins; [done| |done]. by intros r' ->.
  - unfold flush_act in H. unfold PublishDurable, collect in H. repeat case_match; simplify_eq; done.
Qed.

Lemma appended_keeps target e w p : keeps_enqueued p (appended target e w p).
Proof. by intros i r. Qed.

Lemma acts_lift l p p' d lg ak m o cs ca : acts p l = Some p' -> Forall plain l -> Forall not_capture l ->
  rtc step (mkState (mkDb (Some p) d lg ak) m o cs ca) (mkState (mkDb (Some p') d lg ak) m o cs ca).
Proof.
  unfold acts. revert p. induction l as [|a l IH]; intros p; simpl; [intros [= ->] _ _; apply rtc_refl|].
  intros H [Ha Hl]%Forall_cons [Hn Hnl]%Forall_cons. destruct (act p a) as [p1|] eqn:E.
  - eapply rtc_l; [eapply (sw_run p p1); [apply step_run, (act_sound _ a); [exact E|by destruct a]|by eapply act_keeps]|by apply IH].
  - exfalso. clear -H. induction l; simpl in H; [done|by apply IHl].
Qed.

(** The thread of Durability.v commits under Async; a switch to Sync reads the
    cut 1; the epoch advances to 3 and the flusher writes epoch 1. *)
Definition at_ (p : Proc) (d : Device) (lg : LogRecords) (m : Config.CommitDurability) (o : option nat) (cs : list Call)
    (ca : LogRecords) : State := mkState (mkDb (Some p) d lg []) m o cs ca.
Definition away : Proc := default p0 (act (set_session committed 0 (Committed rec false)) (GoOffline 0)).
Definition call (pc : CallPc) : list Call := [mkCall Config.Sync pc].
Definition collected' : Proc := default p0 (acts away (advance ++ advance ++ [Flush; Flush; Flush; Flush])).
Definition append' : ioerror * Wal * Device :=
  default (None, wal_ p0, file0) (AppendGroup (wal_ collected') (with_oracle scan0.2 []) (carry_ collected') 1).
Definition published' : Proc := default p0 (act (appended 1 None append'.1.2 collected') Flush).
Definition log' : LogRecords := [] ++ group_records 1 (carry_ collected').
Definition last : State := at_ published' append'.2 log' Config.Sync (Some 0%nat) (call (LastWord 1)) [rec].
Definition confirmed_ : State := at_ published' append'.2 log' Config.Sync None (call (Returned true)) [rec].
Definition down : State := mkState (mkDb None append'.2 log' []) Config.Sync None [] [].

Lemma call_steps p d lg ca m o k m' o' k' expired :
  call_step (at_ p d lg m o [k] ca) p 0 expired = Some (at_ p d lg m' o' [k'] ca) ->
  step (at_ p d lg m o [k] ca) (at_ p d lg m' o' [k'] ca).
Proof. intros H. by eapply (sw_call_step _ p 0 expired). Qed.

Lemma away_reachable : rtc step init (at_ away scan0.2 [] Config.Async None [] [rec]).
Proof.
  eapply rtc_l.
  { apply (sw_start p0 file0 [] [] scan0.2 [] [] _ _ _ _ Config.Async); [|done].
    apply (step_start file0 [] [] 1 64 [] scan0.1.1 scan0.1.2 scan0.2 1).
    - vm_compute. split; discriminate.
    - split; [constructor|vm_compute; discriminate].
    - vm_compute. reflexivity.
    - vm_compute. reflexivity.
    - vm_compute. split; reflexivity. }
  etransitivity; [apply (acts_lift [Load 0; Store 0; ReloadEpoch 0] p0 joined); [vm_compute; reflexivity|repeat constructor..]|].
  apply (rtc_l _ _ (at_ committed scan0.2 [] Config.Async None [] [])).
  { assert (E : act joined (Commit 0 writes) = Some committed) by (vm_compute; reflexivity).
    apply sw_run; [|by eapply act_keeps]. apply step_run. by apply (act_sound joined (Commit 0 writes) committed E writes_ok). }
  apply (rtc_l _ _ (at_ (set_session committed 0 (Committed rec false)) scan0.2 [] Config.Async None [] [rec])).
  { by apply (sw_capture (at_ committed scan0.2 [] Config.Async None [] []) committed 0 rec). }
  apply (acts_lift [GoOffline 0] (set_session committed 0 (Committed rec false)) away); [vm_compute; reflexivity|repeat constructor..].
Qed.

Abbreviation early := (at_ away scan0.2 []).

Lemma waiting_reachable : rtc step init (early Config.Sync (Some 0%nat) (call (WaitEpoch 1)) [rec]).
Proof.
  etransitivity; [exact away_reachable|].
  apply (rtc_l _ _ (early Config.Async None (call Locking) [rec])).
  { by apply (sw_call (early Config.Async None [] [rec]) away 0 Config.Sync 10). }
  apply (rtc_l _ _ (early Config.Async (Some 0%nat) (call ClockCheck) [rec])); [by apply (call_steps _ _ _ _ _ _ _ _ _ _ false)|].
  apply (rtc_l _ _ (early Config.Async (Some 0%nat) (call Publish) [rec])); [by apply (call_steps _ _ _ _ _ _ _ _ _ _ false)|].
  apply (rtc_l _ _ (early Config.Sync (Some 0%nat) (call ReadCut) [rec])); [by apply (call_steps _ _ _ _ _ _ _ _ _ _ false)|].
  apply rtc_once, (call_steps _ _ _ _ _ _ _ _ _ _ false). vm_compute. reflexivity.
Qed.

Lemma last_reachable : rtc step init last.
Proof.
  etransitivity; [exact waiting_reachable|]. etransitivity.
  { apply (acts_lift (advance ++ advance ++ [Flush; Flush; Flush; Flush]) away collected');
      [vm_compute; reflexivity|repeat constructor..]. }
  apply (rtc_l _ _ (at_ (appended 1 None append'.1.2 collected') append'.2 log' Config.Sync (Some 0%nat) (call (WaitEpoch 1)) [rec])).
  { apply sw_run; [|apply appended_keeps]. apply (step_append collected' scan0.2 [] [] 1 [] None append'.1.2 append'.2); vm_compute; reflexivity. }
  etransitivity.
  { apply (acts_lift [Flush] (appended 1 None append'.1.2 collected') published'); [vm_compute; reflexivity|repeat constructor..]. }
  apply (rtc_l _ _ (at_ published' append'.2 log' Config.Sync (Some 0%nat) (call (WaitDurable 1)) [rec])).
  { apply (call_steps _ _ _ _ _ _ _ _ _ _ false). vm_compute. reflexivity. }
  apply rtc_once, (call_steps _ _ _ _ _ _ _ _ _ _ false). vm_compute. reflexivity.
Qed.

Lemma last_returns : call_step last published' 0 false = Some confirmed_.
Proof. vm_compute. reflexivity. Qed.

Definition rescan' : WalScanResult * Wal * Device := ScanAndRepair (Wal_open 0 append'.2) (with_oracle append'.2 []) 0.

Lemma rescan'_ok : Wal.status rescan'.1.1 = Wal.Ok.
Proof. vm_compute. reflexivity. Qed.

#[local] Opaque ScanAndRepair.

Lemma rescan'_eq : ScanAndRepair (Wal_open 0 append'.2) (with_oracle append'.2 []) 0 = (rescan'.1.1, rescan'.1.2, rescan'.2).
Proof. unfold rescan'. by destruct (ScanAndRepair _ _ _) as [[? ?] ?]. Qed.

Lemma switch_to_sync_confirms_witness : rec ∈ Wal.records rescan'.1.1.
Proof.
  apply (switch_to_sync_confirms last published' 0 false confirmed_ down 0 [] rescan'.1.1 rescan'.1.2 rescan'.2 rec).
  - exact last_reachable.
  - reflexivity.
  - exact last_returns.
  - reflexivity.
  - apply list_elem_of_here.
  - apply rtc_once. apply sw_down, step_kill.
  - reflexivity.
  - vm_compute. split; discriminate.
  - split; [bytes_eval|vm_compute; discriminate].
  - exact rescan'_eq.
  - exact rescan'_ok.
Defined.

Lemma sync_policy_stays_confirmed_witness : rec ∈ logged (db confirmed_).
Proof.
  apply (sync_policy_stays_confirmed last published' 0 false confirmed_ confirmed_).
  - exact last_reachable.
  - reflexivity.
  - exact last_returns.
  - reflexivity.
  - apply rtc_refl.
  - left. apply list_elem_of_here.
Defined.

End Demo.
