(* ===== verification/Transaction.v ===== *)
(** * Transactions (src/src/transaction_impl.cpp)

    [Transaction::Impl]: the operations a user issues, and the read and write
    sets they build up for the concurrency control protocol to commit.

    The operations run against three interfaces: the indexes ([IndexBase] of
    src/src/index/index_base.h), the concurrency control protocol
    (src/src/concurrency_control/concurrency_control_base.h) and the catalogue
    of tables.  Each is a type class over a type [D] of shared states; a call
    takes a shared state to another one with its result, and nothing else is
    known of it.  [D] stands for the database together with the other threads:
    whatever they do before a call returns is part of the state the call
    leaves, so a theorem about the operations holds under every interleaving
    and for every protocol and index.

    An operation is a computation in a state and error monad.  Besides
    returning, it can throw [std::length_error] (a posting list that outgrows
    its 32-bit sizes) or fail an assertion.  A callback of a scan is a function
    on a state of the caller's.

    A table is its name, an index its table's name and its own, an item its
    address.  A pair of a pointer and a size is the allocation the pointer
    leads to, [None] for a null pointer, and the size. *)

From stdpp Require Import strings.
From S2P Require Import Prelude PackedKeys Types DataItem TxSet StdAlgo.

(** ** Results *)

Inductive Result (A : Type) : Type :=
  | Done (a : A)
  | LengthError (field : string)
  | AssertionFailed.
Arguments Done {A} a.
Arguments LengthError {A} field.
Arguments AssertionFailed {A}.

(** A value as the interface returns it. *)
Abbreviation Value := (option bytestring * Z)%type.

(** What a reader of a value sees of it: nothing when the size is 0. *)
Definition visible (v : Value) : option bytestring :=
  if v.2 =? 0 then None else Some (take (Z.to_nat v.2) (default [] v.1)).

(** ** Node versions (index_base.h) *)

Record NodeVersionEntry := mkEntry { owner : Z; node_ptr : Z; version : Z }.

(** A null [node_ptr] is [None]. *)
Record NodeVersionUpdate := mkUpdate {
  update_owner : Z;
  update_node_ptr : option Z;
  old_version : Z;
  new_version : Z;
  valid : bool;
}.

Definition no_update : NodeVersionUpdate := mkUpdate 0 None 0 0 false.

(** ** Interfaces *)

Inductive IndexId : Type :=
  | PrimaryIndex (table : bytestring)
  | SecondaryIndex (table index : bytestring).

(** A range scan that hands rows to a callback gives the rows it visits when
    it is not stopped, and, when it has ended after a number of them, whether
    it succeeded and the node versions it recorded. *)
Class IndexBase (D : Type) := {
  Get : IndexId -> bytestring -> D -> option Z * D;
  Insert : IndexId -> bytestring -> D -> bool * NodeVersionUpdate * D;
  Delete : IndexId -> bytestring -> D -> bool * D;
  ForcePutBlankEntry : IndexId -> bytestring -> D -> NodeVersionUpdate * D;
  EnsureVisibleForSecondaryWrite : IndexId -> bytestring -> D -> bool * NodeVersionUpdate * D;
  ScanKeys : bool -> IndexId -> bytestring -> option bytestring -> D ->
    option (list bytestring) * list NodeVersionEntry * D;
  ScanRows : bool -> IndexId -> bytestring -> bytestring -> D -> list (bytestring * Z) * D;
  ScanRowsEnd : nat -> D -> bool * list NodeVersionEntry * D;
  ValidatePhantoms : Z -> list NodeVersionEntry -> D -> bool * D;
}.

(** [cc_Read] and the like also report whether the protocol has aborted the
    transaction. *)
Class ConcurrencyControl (D : Type) := {
  cc_Read : bytestring -> Z -> D -> DataItem.t * bool * D;
  cc_ReadUnvalidated : bytestring -> Z -> D -> DataItem.t * bool * D;
  cc_ReadDirect : bytestring -> Z -> D -> Value * bool * D;
  cc_Write : bytestring -> option bytestring -> Z -> D -> bool * D;
  cc_Abort : D -> D;
  cc_PostProcessing : bool -> D -> D;
  cc_ObservedReadsStillValid : D -> bool * D;
  cc_Precommit : (D -> bool * D) -> bool -> list Snapshot.t -> list Snapshot.t -> D ->
    bool * bool * list Snapshot.t * D;
}.

(** The tables and their secondary indexes (with their uniqueness), and what
    is read of an item without the protocol. *)
Class Catalogue (D : Type) := {
  GetTable : bytestring -> D -> bool * D;
  anonymous_table_name : bytestring;
  GetSecondaryIndex : bytestring -> bytestring -> D -> option bool * D;
  item_IsPrimaryInitialized : Z -> D -> bool * D;
  item_StableReadPrimaryKeys_found : Z -> D -> bool * D;
  item_transaction_id : Z -> D -> TransactionId.t * D;
  IsNeedToCheckpointing : D -> bool * D;
  (** The hash of a string and the order of a bucket, as [std] has them. *)
  std_hash : bytestring -> Z;
  range_order : list nat -> list nat;
}.

(** ** The state of a transaction *)

Inductive TxStatus : Type := Running | Committed | Aborted.

#[global] Instance TxStatus_eq_dec : EqDecision TxStatus.
Proof. solve_decision. Defined.

Record Tx := mkTx {
  current_status_ : TxStatus;
  aborted_by_duplicate_key_ : bool;
  current_table_ : option bytestring;
  read_set_ : list Snapshot.t;
  write_set_ : list Snapshot.t;
  read_index_ : SetIndex;
  write_index_ : SetIndex;
  node_version_set_ : list NodeVersionEntry;
}.

(** [Transaction::Impl::Impl] and [Reset]. *)
Definition Tx_new : Tx := mkTx Running false None [] [] empty_index empty_index [].

Definition set_status (s : TxStatus) (t : Tx) : Tx :=
  mkTx s (aborted_by_duplicate_key_ t) (current_table_ t) (read_set_ t) (write_set_ t) (read_index_ t)
    (write_index_ t) (node_version_set_ t).
Definition set_duplicate (t : Tx) : Tx :=
  mkTx (current_status_ t) true (current_table_ t) (read_set_ t) (write_set_ t) (read_index_ t)
    (write_index_ t) (node_version_set_ t).
Definition set_table (n : bytestring) (t : Tx) : Tx :=
  mkTx (current_status_ t) (aborted_by_duplicate_key_ t) (Some n) (read_set_ t) (write_set_ t) (read_index_ t)
    (write_index_ t) (node_version_set_ t).
Definition set_reads (l : list Snapshot.t) (t : Tx) : Tx :=
  mkTx (current_status_ t) (aborted_by_duplicate_key_ t) (current_table_ t) l (write_set_ t) (read_index_ t)
    (write_index_ t) (node_version_set_ t).
Definition set_writes (l : list Snapshot.t) (t : Tx) : Tx :=
  mkTx (current_status_ t) (aborted_by_duplicate_key_ t) (current_table_ t) (read_set_ t) l (read_index_ t)
    (write_index_ t) (node_version_set_ t).
Definition set_read_index (i : SetIndex) (t : Tx) : Tx :=
  mkTx (current_status_ t) (aborted_by_duplicate_key_ t) (current_table_ t) (read_set_ t) (write_set_ t) i
    (write_index_ t) (node_version_set_ t).
Definition set_write_index (i : SetIndex) (t : Tx) : Tx :=
  mkTx (current_status_ t) (aborted_by_duplicate_key_ t) (current_table_ t) (read_set_ t) (write_set_ t)
    (read_index_ t) i (node_version_set_ t).
Definition set_node_versions (l : list NodeVersionEntry) (t : Tx) : Tx :=
  mkTx (current_status_ t) (aborted_by_duplicate_key_ t) (current_table_ t) (read_set_ t) (write_set_ t)
    (read_index_ t) (write_index_ t) l.

(** Updates of a set entry in place. *)
Definition with_copy (i : DataItem.t) (s : Snapshot.t) : Snapshot.t :=
  Snapshot.mk (Snapshot.key s) i (Snapshot.index_cache s) (Snapshot.is_read_modify_write s)
    (Snapshot.table_name s) (Snapshot.index_name s) (Snapshot.index_type_unique s) (Snapshot.is_insert s)
    (Snapshot.secondary_index_deltas s).
Definition with_rmw (b : bool) (s : Snapshot.t) : Snapshot.t :=
  Snapshot.mk (Snapshot.key s) (Snapshot.data_item_copy s) (Snapshot.index_cache s)
    (Snapshot.is_read_modify_write s || b) (Snapshot.table_name s) (Snapshot.index_name s)
    (Snapshot.index_type_unique s) (Snapshot.is_insert s) (Snapshot.secondary_index_deltas s).
Definition with_insert (b : bool) (s : Snapshot.t) : Snapshot.t :=
  Snapshot.mk (Snapshot.key s) (Snapshot.data_item_copy s) (Snapshot.index_cache s)
    (Snapshot.is_read_modify_write s) (Snapshot.table_name s) (Snapshot.index_name s)
    (Snapshot.index_type_unique s) (Snapshot.is_insert s || b) (Snapshot.secondary_index_deltas s).
Definition with_type (unique : bool) (s : Snapshot.t) : Snapshot.t :=
  Snapshot.mk (Snapshot.key s) (Snapshot.data_item_copy s) (Snapshot.index_cache s)
    (Snapshot.is_read_modify_write s) (Snapshot.table_name s) (Snapshot.index_name s) unique
    (Snapshot.is_insert s) (Snapshot.secondary_index_deltas s).

(** ** The monad *)

Section transaction.
Context {D : Type} `{!IndexBase D} `{!ConcurrencyControl D} `{!Catalogue D}.

Definition M (A : Type) : Type := Tx -> D -> Result (A * Tx * D).

Definition ret {A} (a : A) : M A := fun t d => Done (a, t, d).
Definition bind {A B} (m : M A) (k : A -> M B) : M B := fun t d =>
  match m t d with
  | Done (a, t', d') => k a t' d'
  | LengthError f => LengthError f
  | AssertionFailed => AssertionFailed
  end.
Definition gets {A} (f : Tx -> A) : M A := fun t d => Done (f t, t, d).
Definition modify (f : Tx -> Tx) : M unit := fun t d => Done (tt, f t, d).
Definition call {A} (f : D -> A * D) : M A := fun t d => let '(a, d') := f d in Done (a, t, d').
Definition lift {A} (o : outcome A) : M A := fun t d =>
  match o with Returns a => Done (a, t, d) | Throws_length_error f => LengthError f end.
Definition assert_some {A} (o : option A) : M A := fun t d =>
  match o with Some a => Done (a, t, d) | None => AssertionFailed end.

Notation "x <- m ;; k" := (bind m (fun x => k)) (at level 100, m at next level, right associativity).
Notation "m ;;; k" := (bind m (fun _ => k)) (at level 100, right associativity).

(** ** Helpers *)

Definition IsAborted : M bool := gets (fun t => bool_decide (current_status_ t = Aborted)).

Definition Abort : M unit :=
  aborted <- IsAborted ;;
  if aborted then ret tt
  else modify (set_status Aborted) ;;; call (fun d => (tt, cc_PostProcessing false (cc_Abort d))).

(** The protocol's own abort, through [current_status_ref_]. *)
Definition protocol_abort (aborted : bool) : M unit :=
  if aborted then modify (set_status Aborted) else ret tt.

Definition read_item (key : bytestring) (leaf : Z) : M DataItem.t :=
  r <- call (cc_Read key leaf) ;; protocol_abort r.2 ;;; ret r.1.
Definition read_unvalidated (key : bytestring) (leaf : Z) : M DataItem.t :=
  r <- call (cc_ReadUnvalidated key leaf) ;; protocol_abort r.2 ;;; ret r.1.
Definition read_direct (key : bytestring) (leaf : Z) : M Value :=
  r <- call (cc_ReadDirect key leaf) ;; protocol_abort r.2 ;;; ret r.1.
Definition write_item (key : bytestring) (value : option bytestring) (leaf : Z) : M unit :=
  aborted <- call (cc_Write key value leaf) ;; protocol_abort aborted.

Definition EnsureCurrentTable : M bytestring :=
  t <- gets current_table_ ;;
  match t with
  | Some n => ret n
  | None =>
      found <- call (GetTable anonymous_table_name) ;;
      assert_some (if found : bool then Some tt else None) ;;;
      modify (set_table anonymous_table_name) ;;; ret anonymous_table_name
  end.

Definition SetTable (table_name : bytestring) : M bool :=
  found <- call (GetTable table_name) ;;
  if found : bool then modify (set_table table_name) ;;; ret true else ret false.

(** [FindInSet] on either set: the position and the entry. *)
Definition find_write (table_name index_name key : bytestring) : M (option (nat * Snapshot.t)) :=
  t <- gets (fun t => t) ;;
  let '(r, index) := FindInSet std_hash range_order (write_set_ t) (write_index_ t) table_name index_name key in
  modify (set_write_index index) ;;;
  ret (match r with Some i => (fun s => (i, s)) <$> (write_set_ t !! i) | None => None end).
Definition find_read (table_name index_name key : bytestring) : M (option (nat * Snapshot.t)) :=
  t <- gets (fun t => t) ;;
  let '(r, index) := FindInSet std_hash range_order (read_set_ t) (read_index_ t) table_name index_name key in
  modify (set_read_index index) ;;;
  ret (match r with Some i => (fun s => (i, s)) <$> (read_set_ t !! i) | None => None end).

Definition update_write (i : nat) (s : Snapshot.t) : M unit :=
  modify (fun t => set_writes (<[i := s]> (write_set_ t)) t).
Definition update_read (i : nat) (s : Snapshot.t) : M unit :=
  modify (fun t => set_reads (<[i := s]> (read_set_ t)) t).
Definition push_write (s : Snapshot.t) : M unit :=
  modify (fun t => set_writes (write_set_ t ++ [s]) t).
Definition push_read (s : Snapshot.t) : M unit :=
  modify (fun t => set_reads (read_set_ t ++ [s]) t).
Definition add_node_versions (l : list NodeVersionEntry) : M unit :=
  modify (fun t => set_node_versions (node_version_set_ t ++ l) t).

(** [data_item_copy.value()] and [size()]. *)
Definition copy_value (s : Snapshot.t) : Value :=
  let b := DataItem.buffer (Snapshot.data_item_copy s) in (DataBuffer.value b, DataBuffer.size b).

(** [SecondaryIndexReadResult] and [primary_keys_vector]. *)
Definition primary_keys (i : DataItem.t) : list bytestring :=
  PackedPrimaryKeysView.primary_keys_vector (DataItem.primary_keys_ i).

(** [ConcurrentTable::GetOrInsert] and [SecondaryIndex::GetOrInsert]. *)
Definition GetOrInsert (ix : IndexId) (key : bytestring) : M (Z * NodeVersionUpdate) :=
  item <- call (Get ix key) ;;
  match item with
  | Some leaf => ret (leaf, no_update)
  | None =>
      update <- call (ForcePutBlankEntry ix key) ;;
      item <- call (Get ix key) ;;
      leaf <- assert_some item ;;
      ret (leaf, update)
  end.

(** [SecondaryIndex::GetOrInsertForWrite]; [None] is a phantom. *)
Definition GetOrInsertForWrite (ix : IndexId) (key : bytestring) : M (option Z * NodeVersionUpdate) :=
  item <- call (Get ix key) ;;
  found <- match item with
           | Some leaf => call (item_StableReadPrimaryKeys_found leaf)
           | None => ret false
           end ;;
  if found : bool then ret (item, no_update)
  else
    r <- call (EnsureVisibleForSecondaryWrite ix key) ;;
    if r.1 : bool then
      item <- call (Get ix key) ;;
      leaf <- assert_some item ;;
      ret (Some leaf, r.2)
    else ret (None, no_update).

(** The loop of [ReconcileOwnInsertWithNodeVersionSet]: the entries after it
    and whether it stopped at a version that does not fit. *)
Fixpoint reconcile_loop (u : NodeVersionUpdate) (node : Z) (l : list NodeVersionEntry)
    : list NodeVersionEntry * bool :=
  match l with
  | [] => ([], false)
  | e :: l' =>
      if (owner e =? update_owner u) && (node_ptr e =? node) then
        if version e =? old_version u then
          let '(r, b) := reconcile_loop u node l' in (mkEntry (owner e) (node_ptr e) (new_version u) :: r, b)
        else (l, true)
      else let '(r, b) := reconcile_loop u node l' in (e :: r, b)
  end.

Definition ReconcileOwnInsertWithNodeVersionSet (u : NodeVersionUpdate) : M unit :=
  match update_node_ptr u with
  | Some node =>
      if valid u then
        entries <- gets node_version_set_ ;;
        let '(entries', raced) := reconcile_loop u node entries in
        modify (set_node_versions entries') ;;;
        if raced : bool then Abort else ret tt
      else ret tt
  | None => ret tt
  end.

(** The owners of a set of node versions, each once, and their validation (the
    set of owners is unordered in the code). *)
Fixpoint validate_owners (owners : list Z) (entries : list NodeVersionEntry) (d : D) : bool * D :=
  match owners with
  | [] => (true, d)
  | o :: owners' =>
      let '(ok, d') := ValidatePhantoms o entries d in
      if ok then validate_owners owners' entries d' else (false, d')
  end.

Definition PhantomsStillValid_in (entries : list NodeVersionEntry) (d : D) : bool * D :=
  validate_owners (remove_dups (map owner entries)) entries d.

Definition PhantomsStillValid : M bool :=
  entries <- gets node_version_set_ ;; call (PhantomsStillValid_in entries).

(** The versions of the entries of the read set; address 0 is a null
    [index_cache]. *)
Fixpoint reads_unchanged (reads : list Snapshot.t) : M bool :=
  match reads with
  | [] => ret true
  | s :: reads' =>
      if Snapshot.index_cache s =? 0 then reads_unchanged reads' else
      tid <- call (item_transaction_id (Snapshot.index_cache s)) ;;
      if TransactionId.neqb tid (DataItem.transaction_id (Snapshot.data_item_copy s)) then ret false
      else reads_unchanged reads'
  end.

Definition ReadSetIsStillValid : M bool :=
  reads <- gets read_set_ ;;
  ok <- reads_unchanged reads ;;
  if ok : bool then
    ok <- call cc_ObservedReadsStillValid ;;
    if ok : bool then PhantomsStillValid else ret false
  else ret false.

(** ** Point operations on rows *)

Definition null_value : Value := (None, 0).

Definition Read (key : bytestring) : M Value :=
  aborted <- IsAborted ;;
  if aborted : bool then ret null_value else
  table_name <- EnsureCurrentTable ;;
  own_write <- find_write table_name [] key ;;
  match own_write with
  | Some (_, s) => ret (copy_value s)
  | None =>
      own_read <- find_read table_name [] key ;;
      match own_read with
      | Some (_, s) => ret (copy_value s)
      | None =>
          index_leaf <- call (Get (PrimaryIndex table_name) key) ;;
          match index_leaf with
          | None => ret null_value
          | Some leaf =>
              item <- read_item key leaf ;;
              let s0 := Snapshot.new key None leaf table_name [] TransactionId.zero false in
              let s := with_copy (DataItem.assign (Snapshot.data_item_copy s0) item) s0 in
              push_read s ;;;
              ret (if DataItem.IsPrimaryInitialized (Snapshot.data_item_copy s) then copy_value s else null_value)
          end
      end
  end.

Definition Write (key : bytestring) (value : option bytestring) (is_insert : bool) : M unit :=
  aborted <- IsAborted ;;
  if aborted : bool then ret tt else
  table_name <- EnsureCurrentTable ;;
  own_read <- find_read table_name [] key ;;
  is_rmf <- match own_read with
            | Some (i, s) => update_read i (with_rmw true s) ;;; ret true
            | None => ret false
            end ;;
  own_write <- find_write table_name [] key ;;
  match own_write with
  | Some (i, s) =>
      update_write i (with_insert is_insert (with_rmw is_rmf
        (with_copy (DataItem.Reset (Snapshot.data_item_copy s) value TransactionId.zero) s)))
  | None =>
      r <- GetOrInsert (PrimaryIndex table_name) key ;;
      ReconcileOwnInsertWithNodeVersionSet r.2 ;;;
      aborted <- IsAborted ;;
      if aborted : bool then ret tt else
      write_item key value r.1 ;;;
      push_write (with_insert is_insert (with_rmw is_rmf
        (Snapshot.new key value r.1 table_name [] TransactionId.zero false)))
  end.

Definition refuse : M unit :=
  ok <- ReadSetIsStillValid ;;
  (if ok : bool then modify set_duplicate else ret tt) ;;;
  Abort.

Definition TxInsert (key : bytestring) (value : option bytestring) : M unit :=
  aborted <- IsAborted ;;
  if aborted : bool then ret tt else
  table_name <- EnsureCurrentTable ;;
  own_write <- find_write table_name [] key ;;
  match own_write with
  | Some (_, s) =>
      if DataItem.IsPrimaryInitialized (Snapshot.data_item_copy s) then refuse
      else
        r <- call (EnsureVisibleForSecondaryWrite (PrimaryIndex table_name) key) ;;
        if r.1 : bool then
          ReconcileOwnInsertWithNodeVersionSet r.2 ;;;
          aborted <- IsAborted ;;
          if aborted : bool then ret tt else Write key value false
        else Abort
  | None =>
      r <- call (Insert (PrimaryIndex table_name) key) ;;
      if r.1 : bool then
        ReconcileOwnInsertWithNodeVersionSet r.2 ;;;
        aborted <- IsAborted ;;
        if aborted : bool then ret tt else Write key value true
      else refuse
  end.

Definition TxUpdate (key : bytestring) (value : option bytestring) : M unit :=
  aborted <- IsAborted ;;
  if aborted : bool then ret tt else
  table_name <- EnsureCurrentTable ;;
  own_write <- find_write table_name [] key ;;
  match own_write with
  | Some (_, s) =>
      if DataItem.IsPrimaryInitialized (Snapshot.data_item_copy s) then Write key value false else Abort
  | None =>
      index_leaf <- call (Get (PrimaryIndex table_name) key) ;;
      live <- match index_leaf with
              | Some leaf => call (item_IsPrimaryInitialized leaf)
              | None => ret false
              end ;;
      if live : bool then Write key value false else Abort
  end.

Definition TxDelete (key : bytestring) : M unit :=
  aborted <- IsAborted ;;
  if aborted : bool then ret tt else
  table_name <- EnsureCurrentTable ;;
  deleted <- call (Delete (PrimaryIndex table_name) key) ;;
  if deleted : bool then TxUpdate key None else Abort.

(** ** Operations on secondary indexes *)

Definition SeedSecondaryIndexForWrite (key : bytestring) (leaf : Z) (unique : bool) : M DataItem.t :=
  if unique then read_item key leaf else read_unvalidated key leaf.

(** The entry at position [i] of the write set, rebuilt before it is read. *)
Definition RefreshSecondaryIndexWriteSnapshot (i : nat) (s : Snapshot.t) : M Snapshot.t :=
  if IsNonUniqueSecondaryIndexDeltaWrite s then
    item <- read_item (Snapshot.key s) (Snapshot.index_cache s) ;;
    copy <- lift (ApplySecondaryIndexDeltas (DataItem.assign (Snapshot.data_item_copy s) item)
                    (Snapshot.secondary_index_deltas s)) ;;
    let s' := with_rmw true (with_copy copy s) in
    update_write i s' ;;; ret s'
  else ret s.

Definition MaybeDeleteEmptyUniqueSecondaryIndex (ix : IndexId) (unique : bool) (key : bytestring)
    (item : DataItem.t) : M bool :=
  if negb (PackedPrimaryKeysView.empty (DataItem.primary_keys_ item)) || negb unique then ret true
  else call (Delete ix key).

Definition ReadSecondaryIndex (index_name key : bytestring) : M (list bytestring) :=
  aborted <- IsAborted ;;
  if aborted : bool then ret [] else
  table_name <- EnsureCurrentTable ;;
  index <- call (GetSecondaryIndex table_name index_name) ;;
  match index with
  | None => Abort ;;; ret []
  | Some _ =>
      own_write <- find_write table_name index_name key ;;
      match own_write with
      | Some (i, s) =>
          s' <- RefreshSecondaryIndexWriteSnapshot i s ;;
          ret (primary_keys (Snapshot.data_item_copy s'))
      | None =>
          own_read <- find_read table_name index_name key ;;
          match own_read with
          | Some (_, s) => ret (primary_keys (Snapshot.data_item_copy s))
          | None =>
              index_leaf <- call (Get (SecondaryIndex table_name index_name) key) ;;
              match index_leaf with
              | None => ret []
              | Some leaf =>
                  item <- read_item key leaf ;;
                  let s0 := Snapshot.new key None leaf table_name index_name TransactionId.zero false in
                  let s := with_copy (DataItem.assign (Snapshot.data_item_copy s0) item) s0 in
                  push_read s ;;;
                  ret (if DataItem.IsInitialized (Snapshot.data_item_copy s)
                       then primary_keys (Snapshot.data_item_copy s) else [])
              end
          end
      end
  end.

(** The look-up of an own read that a write is based on: its copy, with the
    entry marked. *)
Definition find_base (table_name index_name key : bytestring) : M (option DataItem.t) :=
  own_read <- find_read table_name index_name key ;;
  match own_read with
  | Some (i, s) => update_read i (with_rmw true s) ;;; ret (Some (Snapshot.data_item_copy s))
  | None => ret None
  end.

(** The seed of a write without an own read, kept in the read set. *)
Definition seed_base (table_name index_name key : bytestring) (leaf : Z) (unique rmw : bool)
    : M DataItem.t :=
  seed <- SeedSecondaryIndexForWrite key leaf unique ;;
  let s0 := Snapshot.new key None leaf table_name index_name TransactionId.zero unique in
  let s := with_rmw rmw (with_copy (DataItem.assign (Snapshot.data_item_copy s0) seed) s0) in
  push_read s ;;; ret (Snapshot.data_item_copy s).

(** An own write gets one more addition or removal. *)
Definition amend_write (s : Snapshot.t) (unique rmw : bool) (pk : bytestring)
    (op : SecondaryIndexOp) (copy : DataItem.t) : Snapshot.t :=
  with_rmw rmw (Snapshot.RecordSecondaryIndexDelta (with_copy copy (with_type unique s)) pk op).

(** A new entry of the write set with its first addition or removal. *)
Definition first_write (table_name index_name key : bytestring) (leaf : Z) (unique rmw : bool)
    (pk : bytestring) (op : SecondaryIndexOp) (copy : DataItem.t) : Snapshot.t :=
  with_rmw rmw (Snapshot.RecordSecondaryIndexDelta
    (with_copy copy (Snapshot.new key None leaf table_name index_name TransactionId.zero unique)) pk op).

Definition WriteSecondaryIndex (index_name key primary_key : bytestring) : M unit :=
  aborted <- IsAborted ;;
  if aborted : bool then ret tt else
  table_name <- EnsureCurrentTable ;;
  index <- call (GetSecondaryIndex table_name index_name) ;;
  match index with
  | None => Abort
  | Some unique =>
      r <- GetOrInsertForWrite (SecondaryIndex table_name index_name) key ;;
      match r.1 with
      | None => Abort
      | Some leaf =>
          ReconcileOwnInsertWithNodeVersionSet r.2 ;;;
          aborted <- IsAborted ;;
          if aborted : bool then ret tt else
          own_base <- find_base table_name index_name key ;;
          own_write <- find_write table_name index_name key ;;
          match own_write with
          | Some (i, s) =>
              if unique then Abort else
              copy <- lift (DataItem.AddSecondaryIndexValue (Snapshot.data_item_copy s) primary_key) ;;
              update_write i (amend_write s unique (bool_decide (is_Some own_base)) primary_key OpAdd copy)
          | None =>
              base <- match own_base with
                      | Some b => ret b
                      | None => seed_base table_name index_name key leaf unique true
                      end ;;
              if unique && DataItem.IsInitialized base then Abort else
              write_item key (Some primary_key) leaf ;;;
              copy <- lift (DataItem.AddSecondaryIndexValue (DataItem.assign DataItem.empty base) primary_key) ;;
              push_write (first_write table_name index_name key leaf unique true primary_key OpAdd copy)
          end
      end
  end.

(** Removing a primary key from the entry of a secondary key:
    [DeleteSecondaryIndex], and the first phase of [UpdateSecondaryIndex],
    which also announces the write to the protocol.  The result is whether it
    has run to its end. *)
Definition remove_posting (announce : bool) (table_name index_name key primary_key : bytestring)
    (unique : bool) : M bool :=
  let ix := SecondaryIndex table_name index_name in
  r <- GetOrInsert ix key ;;
  ReconcileOwnInsertWithNodeVersionSet r.2 ;;;
  aborted <- IsAborted ;;
  if aborted : bool then ret false else
  own_base <- find_base table_name index_name key ;;
  own_write <- find_write table_name index_name key ;;
  match own_write with
  | Some (i, s) =>
      copy <- lift (DataItem.RemoveSecondaryIndexValue (Snapshot.data_item_copy s) primary_key) ;;
      let s' := amend_write s unique false primary_key OpRemove copy in
      update_write i s' ;;;
      ok <- MaybeDeleteEmptyUniqueSecondaryIndex ix unique key copy ;;
      if ok : bool then update_write i (with_rmw (bool_decide (is_Some own_base)) s') ;;; ret true
      else Abort ;;; ret false
  | None =>
      base <- match own_base with
              | Some b => ret b
              | None => seed_base table_name index_name key r.1 unique false
              end ;;
      copy <- lift (DataItem.RemoveSecondaryIndexValue (DataItem.assign DataItem.empty base) primary_key) ;;
      ok <- MaybeDeleteEmptyUniqueSecondaryIndex ix unique key copy ;;
      if ok : bool then
        (if announce then write_item key (Some primary_key) r.1 else ret tt) ;;;
        push_write (first_write table_name index_name key r.1 unique (bool_decide (is_Some own_base))
                      primary_key OpRemove copy) ;;;
        ret true
      else Abort ;;; ret false
  end.

Definition DeleteSecondaryIndex (index_name secondary_key primary_key : bytestring) : M unit :=
  aborted <- IsAborted ;;
  if aborted : bool then ret tt else
  table_name <- EnsureCurrentTable ;;
  index <- call (GetSecondaryIndex table_name index_name) ;;
  match index with
  | None => Abort
  | Some unique => remove_posting false table_name index_name secondary_key primary_key unique ;;; ret tt
  end.

(** The second phase of [UpdateSecondaryIndex]. *)
Definition add_posting (table_name index_name key primary_key : bytestring) (unique : bool) : M unit :=
  r <- GetOrInsertForWrite (SecondaryIndex table_name index_name) key ;;
  match r.1 with
  | None => Abort
  | Some leaf =>
      ReconcileOwnInsertWithNodeVersionSet r.2 ;;;
      aborted <- IsAborted ;;
      if aborted : bool then ret tt else
      own_base <- find_base table_name index_name key ;;
      own_write <- find_write table_name index_name key ;;
      match own_write with
      | Some (i, s) =>
          if unique then Abort else
          copy <- lift (DataItem.AddSecondaryIndexValue (Snapshot.data_item_copy s) primary_key) ;;
          update_write i (amend_write s unique (bool_decide (is_Some own_base)) primary_key OpAdd copy)
      | None =>
          base <- match own_base with
                  | Some b => ret b
                  | None => seed_base table_name index_name key leaf unique false
                  end ;;
          if unique && DataItem.IsInitialized base then Abort else
          copy <- lift (DataItem.AddSecondaryIndexValue (DataItem.assign DataItem.empty base) primary_key) ;;
          write_item key (Some primary_key) leaf ;;;
          push_write (first_write table_name index_name key leaf unique (bool_decide (is_Some own_base))
                        primary_key OpAdd copy)
      end
  end.

Definition UpdateSecondaryIndex (index_name old_secondary_key new_secondary_key primary_key : bytestring)
    : M unit :=
  aborted <- IsAborted ;;
  if aborted : bool then ret tt else
  table_name <- EnsureCurrentTable ;;
  index <- call (GetSecondaryIndex table_name index_name) ;;
  match index with
  | None => Abort
  | Some unique =>
      removed <- remove_posting true table_name index_name old_secondary_key primary_key unique ;;
      if removed : bool then add_posting table_name index_name new_secondary_key primary_key unique else ret tt
  end.

(** ** Scans

    A callback takes the caller's state, the key and what is at the key to the
    caller's next state and whether to stop. *)

Definition key_in_range (begin : bytestring) (end_ : option bytestring) (key : bytestring) : bool :=
  negb (str_ltb key begin) && match end_ with Some e => str_ltb key e | None => true end.

(** The keys of the write set inside a range of an index. *)
Definition own_keys (t : Tx) (table_name index_name begin : bytestring) (end_ : option bytestring)
    : list bytestring :=
  map Snapshot.key (List.filter (fun s => str_eqb (Snapshot.table_name s) table_name &&
    str_eqb (Snapshot.index_name s) index_name && key_in_range begin end_ (Snapshot.key s)) (write_set_ t)).

Definition HasOwnBaseRowWriteInRange (t : Tx) (table_name begin : bytestring) (end_ : option bytestring)
    : bool :=
  existsb (fun s => str_eqb (Snapshot.table_name s) table_name && str_eqb (Snapshot.index_name s) [] &&
    key_in_range begin end_ (Snapshot.key s)) (write_set_ t).

(** The loops over a set for the entry of a key. *)
Definition first_in_set (set : list Snapshot.t) (table_name index_name key : bytestring)
    : option (nat * Snapshot.t) :=
  match scan_set (set_matches table_name index_name key) set 0 with
  | Some i => (fun s => (i, s)) <$> (set !! i)
  | None => None
  end.

Section rows.
Context {S : Type} (operation : S -> bytestring -> Value -> S * bool).

(** The callback [emit_index_row]: the caller's state, the count and whether
    to stop. *)
Definition emit_index_row (table_name key : bytestring) (leaf : Z) (st : S) (total : Z) : M (S * Z * bool) :=
  aborted <- IsAborted ;;
  if aborted : bool then ret (st, total, true) else
  own_read <- find_read table_name [] key ;;
  match own_read with
  | Some (_, s) =>
      if DataItem.IsPrimaryInitialized (Snapshot.data_item_copy s) then
        let '(st', stop) := operation st (Snapshot.key s) (copy_value s) in ret (st', total + 1, stop)
      else ret (st, total, false)
  | None =>
      v <- read_direct key leaf ;;
      aborted <- IsAborted ;;
      if aborted : bool then ret (st, total, true) else
      match v with
      | (None, _) => ret (st, total, false)
      | (Some _, sz) =>
          if sz =? 0 then ret (st, total, false)
          else let '(st', stop) := operation st key v in ret (st', total + 1, stop)
      end
  end.

Fixpoint emit_rows (table_name : bytestring) (rows : list (bytestring * Z)) (st : S) (total : Z) (visited : nat)
    : M (S * Z * nat) :=
  match rows with
  | [] => ret (st, total, visited)
  | (key, leaf) :: rows' =>
      r <- emit_index_row table_name key leaf st total ;;
      if r.2 : bool then ret (r.1.1, r.1.2, Datatypes.S visited)
      else emit_rows table_name rows' r.1.1 r.1.2 (Datatypes.S visited)
  end.

Definition ScanPrimaryIndexWithEarlyStop (reverse : bool) (table_name begin end_ : bytestring) (st : S)
    : M (option Z * S) :=
  rows <- call (ScanRows reverse (PrimaryIndex table_name) begin end_) ;;
  r <- emit_rows table_name rows st 0 0 ;;
  index_result <- call (ScanRowsEnd r.2) ;;
  add_node_versions index_result.2 ;;;
  if index_result.1 : bool then
    aborted <- IsAborted ;;
    ret (if aborted : bool then None else Some r.1.2, r.1.1)
  else Abort ;;; ret (None, r.1.1).

(** One round of the loop over the merged keys.  The result is the caller's
    state, the count, and [None] to go on or the value to return. *)
Definition scan_key (reverse : bool) (table_name key : bytestring) (st : S) (total : Z)
    : M (S * Z * option (option Z)) :=
  let emit k v :=
    let '(st', stop) := operation st k v in
    ret (st', total + 1, if stop : bool then Some (Some (total + 1)) else None) in
  aborted <- IsAborted ;;
  if aborted : bool then ret (st, total, Some None) else
  t <- gets (fun t => t) ;;
  match first_in_set (write_set_ t) table_name [] key with
  | Some (_, s) =>
      if DataItem.IsPrimaryInitialized (Snapshot.data_item_copy s) then emit key (copy_value s)
      else ret (st, total, None)
  | None =>
      match first_in_set (read_set_ t) table_name [] key with
      | Some (_, s) =>
          if DataItem.IsPrimaryInitialized (Snapshot.data_item_copy s) then emit key (copy_value s)
          else ret (st, total, None)
      | None =>
          r <- GetOrInsert (PrimaryIndex table_name) key ;;
          (if reverse then ret tt else ReconcileOwnInsertWithNodeVersionSet r.2) ;;;
          aborted <- (if reverse then ret false else IsAborted) ;;
          if aborted : bool then ret (st, total, Some None) else
          v <- read_direct key r.1 ;;
          aborted <- IsAborted ;;
          if aborted : bool then ret (st, total, Some None) else
          match v with
          | (None, _) => ret (st, total, None)
          | (Some _, sz) => if sz =? 0 then ret (st, total, None) else emit key v
          end
      end
  end.

Fixpoint scan_keys (reverse : bool) (table_name : bytestring) (keys : list bytestring) (st : S) (total : Z)
    : M (option Z * S) :=
  match keys with
  | [] => ret (Some total, st)
  | key :: keys' =>
      r <- scan_key reverse table_name key st total ;;
      match r.2 with
      | Some result => ret (result, r.1.1)
      | None => scan_keys reverse table_name keys' r.1.1 r.1.2
      end
  end.

(** The keys of the index merged with those of the write set. *)
Definition ScanMerged (reverse_ : bool) (table_name begin : bytestring) (end_ : option bytestring) (st : S)
    : M (option Z * S) :=
  r <- call (ScanKeys reverse_ (PrimaryIndex table_name) begin end_) ;;
  add_node_versions r.2 ;;;
  match r.1 with
  | None => Abort ;;; ret (None, st)
  | Some collected =>
      t <- gets (fun t => t) ;;
      let index_keys := if reverse_ then reverse collected else collected in
      let all_keys := std_unique (std_merge index_keys (std_sort (own_keys t table_name [] begin end_))) in
      scan_keys reverse_ table_name (if reverse_ then reverse all_keys else all_keys) st 0
  end.

(** [Scan] and [ScanReverse]. *)
Definition ScanWith (reverse_ : bool) (begin : bytestring) (end_ : option bytestring) (st : S)
    : M (option Z * S) :=
  table_name <- EnsureCurrentTable ;;
  t <- gets (fun t => t) ;;
  match end_ with
  | Some e =>
      if negb (HasOwnBaseRowWriteInRange t table_name begin end_)
      then ScanPrimaryIndexWithEarlyStop reverse_ table_name begin e st
      else ScanMerged reverse_ table_name begin end_ st
  | None => ScanMerged reverse_ table_name begin end_ st
  end.

Definition Scan := ScanWith false.
Definition ScanReverse := ScanWith true.

End rows.

Section postings.
Context {S : Type} (operation : S -> bytestring -> list bytestring -> S * bool).

(** One round of the loop over the merged keys of a secondary index. *)
Definition scan_posting (reverse_ : bool) (table_name index_name key : bytestring) (st : S) (total : Z)
    : M (S * Z * option (option Z)) :=
  let emit pks :=
    let '(st', stop) := operation st key (if reverse_ then reverse pks else pks) in
    ret (st', total + 1, if stop : bool then Some (Some (total + 1)) else None) in
  aborted <- IsAborted ;;
  if aborted : bool then ret (st, total, Some None) else
  t <- gets (fun t => t) ;;
  match first_in_set (write_set_ t) table_name index_name key with
  | Some (i, s) =>
      s' <- RefreshSecondaryIndexWriteSnapshot i s ;;
      match primary_keys (Snapshot.data_item_copy s') with
      | [] => ret (st, total, None)
      | pks => emit pks
      end
  | None =>
      pks <- ReadSecondaryIndex index_name key ;;
      aborted <- IsAborted ;;
      if aborted : bool then ret (st, total, Some None) else
      match pks with
      | [] => ret (st, total, None)
      | _ => emit pks
      end
  end.

Fixpoint scan_postings (reverse_ : bool) (table_name index_name : bytestring) (keys : list bytestring) (st : S)
    (total : Z) : M (option Z * S) :=
  match keys with
  | [] => ret (Some total, st)
  | key :: keys' =>
      r <- scan_posting reverse_ table_name index_name key st total ;;
      match r.2 with
      | Some result => ret (result, r.1.1)
      | None => scan_postings reverse_ table_name index_name keys' r.1.1 r.1.2
      end
  end.

(** [ScanSecondaryIndex] and [ScanSecondaryIndexReverse]. *)
Definition ScanSecondaryIndexWith (reverse_ : bool) (index_name begin : bytestring)
    (end_ : option bytestring) (st : S) : M (option Z * S) :=
  table_name <- EnsureCurrentTable ;;
  index <- call (GetSecondaryIndex table_name index_name) ;;
  match index with
  | None => Abort ;;; ret (None, st)
  | Some _ =>
      r <- call (ScanKeys reverse_ (SecondaryIndex table_name index_name) begin end_) ;;
      add_node_versions r.2 ;;;
      match r.1 with
      | None => Abort ;;; ret (None, st)
      | Some collected =>
          t <- gets (fun t => t) ;;
          let all_keys := std_unique (std_merge (std_sort collected)
                            (std_sort (own_keys t table_name index_name begin end_))) in
          scan_postings reverse_ table_name index_name (if reverse_ then reverse all_keys else all_keys) st 0
      end
  end.

Definition ScanSecondaryIndex := ScanSecondaryIndexWith false.
Definition ScanSecondaryIndexReverse := ScanSecondaryIndexWith true.

End postings.

(** ** Commit *)

Definition Precommit : M bool :=
  aborted <- IsAborted ;;
  if aborted : bool then ret false else
  modify (set_read_index empty_index) ;;;
  modify (set_write_index empty_index) ;;;
  t <- gets (fun t => t) ;;
  need_to_checkpoint <- call IsNeedToCheckpointing ;;
  r <- call (cc_Precommit (PhantomsStillValid_in (node_version_set_ t)) need_to_checkpoint
               (read_set_ t) (write_set_ t)) ;;
  modify (set_writes r.2) ;;;
  let '(committed, duplicate) := r.1 in
  (if negb committed && duplicate then modify set_duplicate else ret tt) ;;;
  ret committed.

Definition PostProcessing (committed : bool) : M unit :=
  (if committed then ret tt else modify (set_status Aborted)) ;;;
  call (fun d => (tt, cc_PostProcessing committed d)).

End transaction.
