(* ===== verification/TxFrame.v ===== *)
(** * What the operations of a transaction leave alone

    The invariant of a transaction's sets (every name occurs once in each set,
    and the position indexes are right), and the frame of each operation: which
    names of the write set it may change, that an entry of the read set keeps
    its copy for ever, and that an abort is final.

    From these follow the read-your-own-writes and repeatable-read guarantees
    that the class comment of transaction_impl.h gives. *)

From stdpp Require Import strings.
From S2P Require Import Prelude PackedKeys Types DataItem TxSet StdAlgo Transaction.

(** ** The entry of a name *)

(** A name is a table, an index and a key. *)
Abbreviation name := (bytestring * bytestring * bytestring)%type.

Definition own (set : list Snapshot.t) (n : name) : option Snapshot.t :=
  snd <$> first_in_set set n.1.1 n.1.2 n.2.

Lemma set_matches_name tn idx k s : set_matches tn idx k s = true <-> snapshot_name s = (tn, idx, k).
Proof.
  unfold set_matches, snapshot_name. rewrite !andb_true_iff, !str_eqb_eq. naive_solver.
Qed.

Lemma first_in_set_Some set tn idx k i s : first_in_set set tn idx k = Some (i, s) ->
  set !! i = Some s ∧ snapshot_name s = (tn, idx, k).
Proof.
  unfold first_in_set. pose proof (scan_set_spec (set_matches tn idx k) set 0) as H.
  destruct (scan_set _ _ _) as [j|]; [|done]. destruct H as (j' & s' & -> & Hs & Hm & _). simpl.
  rewrite Hs. simpl. intros [= <- <-]. split; [done|]. by apply set_matches_name.
Qed.

Lemma first_in_set_None set tn idx k : first_in_set set tn idx k = None ->
  (tn, idx, k) ∉ map snapshot_name set.
Proof.
  unfold first_in_set. pose proof (scan_set_spec (set_matches tn idx k) set 0) as H.
  destruct (scan_set _ _ _) as [j|]; [destruct H as (j' & s' & -> & Hs & _); simpl; by rewrite Hs|].
  intros _ (s & Hn & [i Hi]%list_elem_of_lookup)%list_elem_of_fmap.
  specialize (H i s Hi). by rewrite (proj2 (set_matches_name _ _ _ _) (eq_sym Hn)) in H.
Qed.

Lemma own_None set n : own set n = None <-> n ∉ map snapshot_name set.
Proof.
  destruct n as [[tn idx] k]. unfold own. simpl. split.
  - intros H%fmap_None. by apply first_in_set_None.
  - intros H. destruct (first_in_set set tn idx k) as [[i s]|] eqn:E; [|done].
    apply first_in_set_Some in E as [Hi Hn]. destruct H. rewrite <- Hn. apply list_elem_of_fmap_2.
    by eapply list_elem_of_lookup_2.
Qed.

Lemma own_Some set n s : NoDup (map snapshot_name set) ->
  own set n = Some s <-> s ∈ set ∧ snapshot_name s = n.
Proof.
  intros Hnd. split.
  - destruct n as [[tn idx] k]. unfold own. simpl. intros ([i s'] & E & ->)%fmap_Some.
    apply first_in_set_Some in E as [Hi Hn]. split; [by eapply list_elem_of_lookup_2|done].
  - intros [Hs Hn]. destruct (own set n) as [s'|] eqn:E.
    + destruct n as [[tn idx] k]. unfold own in E. simpl in E. apply fmap_Some in E as ([i s''] & E & ->).
      apply first_in_set_Some in E as [Hi Hn']. simpl. f_equal. apply list_elem_of_lookup in Hs as [j Hj].
      assert (i = j) as ->; [|congruence].
      apply (NoDup_lookup (map snapshot_name set) i j (tn, idx, k) Hnd);
        [by rewrite list_lookup_fmap, Hi; simpl; f_equal|by rewrite list_lookup_fmap, Hj; simpl; f_equal].
    + apply own_None in E. destruct E. rewrite <- Hn. by apply list_elem_of_fmap_2.
Qed.

Lemma names_insert set i s s' : set !! i = Some s -> snapshot_name s' = snapshot_name s ->
  map snapshot_name (<[i := s']> set) = map snapshot_name set.
Proof.
  intros Hi Hn. apply list_eq. intros j. rewrite !list_lookup_fmap.
  destruct (decide (i = j)) as [->|Hne]; [|by rewrite list_lookup_insert_ne].
  rewrite list_lookup_insert_eq by (by eapply lookup_lt_Some). rewrite Hi. simpl. by rewrite Hn.
Qed.

Lemma own_insert set i s s' n : NoDup (map snapshot_name set) -> set !! i = Some s ->
  snapshot_name s' = snapshot_name s ->
  own (<[i := s']> set) n = if decide (n = snapshot_name s) then Some s' else own set n.
Proof.
  intros Hnd Hi Hn. pose proof (names_insert set i s s' Hi Hn) as Hnames.
  assert (NoDup (map snapshot_name (<[i := s']> set))) as Hnd' by (by rewrite Hnames).
  assert (i < length set)%nat as Hlt by (by eapply lookup_lt_Some).
  destruct (decide (n = snapshot_name s)) as [->|Hne].
  - apply own_Some; [done|]. split; [|done]. apply list_elem_of_lookup. exists i. by apply list_lookup_insert_eq.
  - destruct (own set n) as [x|] eqn:E; [|apply own_None; rewrite Hnames; by apply own_None].
    apply own_Some in E as [Hx Hxn]; [|done]. apply own_Some; [done|]. split; [|done].
    apply list_elem_of_lookup in Hx as [j Hj]. apply list_elem_of_lookup. exists j.
    rewrite list_lookup_insert_ne; [done|]. intros ->. congruence.
Qed.

Lemma NoDup_snoc_names set s : NoDup (map snapshot_name set) -> own set (snapshot_name s) = None ->
  NoDup (map snapshot_name (set ++ [s])).
Proof.
  intros Hnd Hn%own_None. rewrite map_app. simpl. apply NoDup_app. split; [done|]. split; [|apply NoDup_singleton].
  intros x Hx [->|[]%elem_of_nil]%elem_of_cons. done.
Qed.

Lemma own_snoc set s n : NoDup (map snapshot_name set) -> own set (snapshot_name s) = None ->
  own (set ++ [s]) n = if decide (n = snapshot_name s) then Some s else own set n.
Proof.
  intros Hnd Hn. pose proof (NoDup_snoc_names _ _ Hnd Hn) as Hnd'.
  destruct (decide (n = snapshot_name s)) as [->|Hne].
  - apply own_Some; [done|]. split; [|done]. apply elem_of_app. right. apply list_elem_of_here.
  - destruct (own set n) as [x|] eqn:E.
    + apply own_Some in E as [Hx Hxn]; [|done]. apply own_Some; [done|]. split; [|done]. apply elem_of_app. by left.
    + apply own_None. rewrite map_app, not_elem_of_app. split; [by apply own_None|].
      simpl. by rewrite list_elem_of_singleton.
Qed.

(** ** Computations that do not touch the sets *)

Section quiet.
Context {D : Type} `{!IndexBase D} `{!ConcurrencyControl D} `{!Catalogue D}.

(** A computation that does not touch the sets. *)
Definition quiet {A} (m : M (D := D) A) : Prop := ∀ t d a t' d', m t d = Done (a, t', d') ->
  read_set_ t' = read_set_ t ∧ write_set_ t' = write_set_ t ∧ read_index_ t' = read_index_ t ∧
  write_index_ t' = write_index_ t ∧ (current_status_ t = Aborted -> current_status_ t' = Aborted) ∧
  (∀ tn, current_table_ t = Some tn -> current_table_ t' = Some tn).

Lemma bind_Done {A B} (m : M (D := D) A) (k : A -> M B) t d b t2 d2 : bind m k t d = Done (b, t2, d2) ->
  ∃ a t1 d1, m t d = Done (a, t1, d1) ∧ k a t1 d1 = Done (b, t2, d2).
Proof. unfold bind. destruct (m t d) as [[[a t1] d1]| |]; [|done|done]. intros H. by exists a, t1, d1. Qed.

Lemma quiet_bind {A B} (m : M (D := D) A) (k : A -> M B) : quiet m -> (∀ a, quiet (k a)) -> quiet (bind m k).
Proof.
  intros Hm Hk t d b t2 d2 (a & t1 & d1 & H1 & H2)%bind_Done.
  destruct (Hm _ _ _ _ _ H1) as (Hr & Hw & Hri & Hwi & Hs & Ht).
  destruct (Hk _ _ _ _ _ _ H2) as (Hr' & Hw' & Hri' & Hwi' & Hs' & Ht').
  repeat split; try congruence; auto.
Qed.

Lemma quiet_ret {A} (a : A) : quiet (ret a).
Proof. intros t d b t' d' [= <- <- <-]. done. Qed.
Lemma quiet_gets {A} (f : Tx -> A) : quiet (gets f).
Proof. intros t d b t' d' [= <- <- <-]. done. Qed.
Lemma quiet_call {A} (f : D -> A * D) : quiet (call f).
Proof. intros t d b t' d'. unfold call. destruct (f d). intros [= <- <- <-]. done. Qed.
Lemma quiet_lift {A} (o : outcome A) : quiet (lift o).
Proof. intros t d b t' d'. unfold lift. destruct o; [|done]. intros [= <- <- <-]. done. Qed.
Lemma quiet_assert {A} (o : option A) : quiet (assert_some o).
Proof. intros t d b t' d'. unfold assert_some. destruct o; [|done]. intros [= <- <- <-]. done. Qed.
Lemma quiet_status : quiet (modify (set_status Aborted)).
Proof. intros t d b t' d' [= <- <- <-]. done. Qed.
Lemma quiet_duplicate : quiet (modify set_duplicate).
Proof. intros t d b t' d' [= <- <- <-]. done. Qed.
Lemma quiet_versions l : quiet (modify (set_node_versions l)).
Proof. intros t d b t' d' [= <- <- <-]. done. Qed.
Lemma quiet_add_versions l : quiet (add_node_versions l).
Proof. intros t d b t' d' [= <- <- <-]. done. Qed.

End quiet.

Create HintDb quiet discriminated.

#[export] Hint Resolve quiet_ret quiet_gets quiet_call quiet_lift quiet_assert quiet_status quiet_duplicate quiet_versions
  quiet_add_versions : quiet.

(** Walks through a computation that only binds and branches. *)
Ltac quiet :=
  repeat first
    [ solve [auto with quiet]
    | apply quiet_bind; [|intros ?]
    | match goal with |- quiet (if ?b then _ else _) => destruct b end
    | match goal with |- quiet (match ?x with _ => _ end) => destruct x end
    | match goal with |- quiet (let '(_, _) := ?x in _) => destruct x end ].

Section quiet_operations.
Context {D : Type} `{!IndexBase D} `{!ConcurrencyControl D} `{!Catalogue D}.

Lemma quiet_IsAborted : quiet (D := D) IsAborted.
Proof. apply quiet_gets. Qed.
#[local] Hint Resolve quiet_IsAborted : quiet.
Lemma quiet_Abort : quiet (D := D) Abort.
Proof. unfold Abort. quiet. Qed.
#[local] Hint Resolve quiet_Abort : quiet.
Lemma quiet_protocol b : quiet (D := D) (protocol_abort b).
Proof. unfold protocol_abort. quiet. Qed.
#[local] Hint Resolve quiet_protocol : quiet.
Lemma quiet_read_item k l : quiet (D := D) (read_item k l).
Proof. unfold read_item. quiet. Qed.
#[local] Hint Resolve quiet_read_item : quiet.
Lemma quiet_read_unvalidated k l : quiet (D := D) (read_unvalidated k l).
Proof. unfold read_unvalidated. quiet. Qed.
#[local] Hint Resolve quiet_read_unvalidated : quiet.
Lemma quiet_read_direct k l : quiet (D := D) (read_direct k l).
Proof. unfold read_direct. quiet. Qed.
#[local] Hint Resolve quiet_read_direct : quiet.
Lemma quiet_write_item k v l : quiet (D := D) (write_item k v l).
Proof. unfold write_item. quiet. Qed.
#[local] Hint Resolve quiet_write_item : quiet.
Lemma quiet_GetOrInsert ix k : quiet (D := D) (GetOrInsert ix k).
Proof. unfold GetOrInsert. quiet. Qed.
#[local] Hint Resolve quiet_GetOrInsert : quiet.
Lemma quiet_GetOrInsertForWrite ix k : quiet (D := D) (GetOrInsertForWrite ix k).
Proof. unfold GetOrInsertForWrite. quiet. Qed.
#[local] Hint Resolve quiet_GetOrInsertForWrite : quiet.
Lemma quiet_Reconcile u : quiet (D := D) (ReconcileOwnInsertWithNodeVersionSet u).
Proof. unfold ReconcileOwnInsertWithNodeVersionSet. quiet. Qed.
#[local] Hint Resolve quiet_Reconcile : quiet.
Lemma quiet_Phantoms : quiet (D := D) PhantomsStillValid.
Proof. unfold PhantomsStillValid. quiet. Qed.
#[local] Hint Resolve quiet_Phantoms : quiet.
Lemma quiet_reads_unchanged l : quiet (D := D) (reads_unchanged l).
Proof. induction l as [|s l IH]; simpl; quiet. Qed.
#[local] Hint Resolve quiet_reads_unchanged : quiet.
Lemma quiet_refuse : quiet (D := D) refuse.
Proof. unfold refuse, ReadSetIsStillValid. quiet. Qed.
#[local] Hint Resolve quiet_refuse : quiet.
Lemma quiet_MaybeDelete ix u k i : quiet (D := D) (MaybeDeleteEmptyUniqueSecondaryIndex ix u k i).
Proof. unfold MaybeDeleteEmptyUniqueSecondaryIndex. quiet. Qed.
#[local] Hint Resolve quiet_MaybeDelete : quiet.
Lemma quiet_Seed k l u : quiet (D := D) (SeedSecondaryIndexForWrite k l u).
Proof. unfold SeedSecondaryIndexForWrite. quiet. Qed.
#[local] Hint Resolve quiet_Seed : quiet.

Lemma quiet_EnsureCurrentTable : quiet (D := D) EnsureCurrentTable.
Proof.
  intros t d tn t' d' (o & t1 & d1 & [= <- <- <-] & H)%bind_Done.
  destruct (current_table_ t) as [n|] eqn:Et; [by injection H as <- <- <-; rewrite Et|].
  apply bind_Done in H as (f & t1 & d1 & H1 & (u & t2 & d2 & H2 & H)%bind_Done).
  unfold call in H1. destruct (GetTable _ d) as [f0 d0]. injection H1 as -> <- <-.
  destruct f; [|done]. injection H2 as <- <- <-. apply bind_Done in H as (u & t3 & d3 & [= <- <- <-] & [= <- <- <-]).
  repeat split; try done; simpl; congruence.
Qed.
#[local] Hint Resolve quiet_EnsureCurrentTable : quiet.

End quiet_operations.

#[export] Hint Resolve quiet_IsAborted quiet_Abort quiet_protocol quiet_read_item quiet_read_unvalidated quiet_read_direct
  quiet_write_item quiet_GetOrInsert quiet_GetOrInsertForWrite quiet_Reconcile quiet_Phantoms
  quiet_reads_unchanged quiet_refuse quiet_MaybeDelete quiet_Seed quiet_EnsureCurrentTable : quiet.

(** ** Triples *)

Section frame.
Context {D : Type} `{!IndexBase D} `{!ConcurrencyControl D} `{!Catalogue D}.
Hypothesis range_order_perm : ∀ l, range_order l ≡ₚ l.

Abbreviation copy_of := Snapshot.data_item_copy.

(** The posting list of a copy is well-formed. *)
Definition item_ok (i : DataItem.t) : Prop := ∃ ks, item_keys i ks.

(** A protocol reads well-formed items. *)
Hypothesis cc_Read_ok : ∀ key leaf d, item_ok (cc_Read key leaf d).1.1.
Hypothesis cc_ReadUnvalidated_ok : ∀ key leaf d, item_ok (cc_ReadUnvalidated key leaf d).1.1.

(** The recorded additions and removals of a write are already in its copy. *)
Definition posting_ok (s : Snapshot.t) : Prop :=
  NoDup (map fst (Snapshot.secondary_index_deltas s)) ∧ Forall is_delta (Snapshot.secondary_index_deltas s) ∧
  ∃ ks, item_keys (copy_of s) ks ∧
    ∀ pk, pk ∈ ks <-> op_member (last_op pk (Snapshot.secondary_index_deltas s)) (pk ∈ ks).

(** Every name occurs once in each set, the position indexes agree with the
    sets, and the entries are well-formed. *)
Definition tx_ok (t : Tx) : Prop :=
  (index_ok std_hash (read_set_ t) (read_index_ t) ∧ index_ok std_hash (write_set_ t) (write_index_ t)) ∧
  (Forall (fun s => item_ok (copy_of s)) (read_set_ t) ∧ Forall posting_ok (write_set_ t)) ∧
  NoDup (map snapshot_name (read_set_ t)) ∧ NoDup (map snapshot_name (write_set_ t)).

(** An entry that has been read at most: a posting may have been rebuilt. *)
Definition same_entry (s s' : Snapshot.t) : Prop :=
  Snapshot.secondary_index_deltas s' = Snapshot.secondary_index_deltas s ∧
  Snapshot.index_type_unique s' = Snapshot.index_type_unique s ∧
  (IsNonUniqueSecondaryIndexDeltaWrite s = false -> copy_of s' = copy_of s).

Definition same_entries (o o' : option Snapshot.t) : Prop :=
  match o, o' with Some s, Some s' => same_entry s s' | None, None => True | _, _ => False end.

(** What is left alone by an operation that may write the names [W]. *)
Record frame (W : name -> Prop) (t t' : Tx) : Prop := {
  fr_write : ∀ n, ¬ W n -> same_entries (own (write_set_ t) n) (own (write_set_ t') n);
  fr_kept : ∀ n, own (write_set_ t) n <> None -> own (write_set_ t') n <> None;
  fr_read : ∀ n s, own (read_set_ t) n = Some s -> copy_of <$> own (read_set_ t') n = Some (copy_of s);
  fr_abort : current_status_ t = Aborted -> current_status_ t' = Aborted;
  fr_table : ∀ tn, current_table_ t = Some tn -> current_table_ t' = Some tn;
}.

Lemma same_entries_refl o : same_entries o o.
Proof. by destruct o. Qed.

Lemma own_name set n s : NoDup (map snapshot_name set) -> own set n = Some s -> snapshot_name s = n.
Proof. intros Hnd Ho. by apply own_Some in Ho as [_ ?]. Qed.

Lemma delta_write_same s s' : snapshot_name s' = snapshot_name s -> same_entry s s' ->
  IsNonUniqueSecondaryIndexDeltaWrite s' = IsNonUniqueSecondaryIndexDeltaWrite s.
Proof.
  intros [= _ Hi _] (Hd & Hu & _). unfold IsNonUniqueSecondaryIndexDeltaWrite. by rewrite Hi, Hd, Hu.
Qed.

Lemma frame_refl W t : frame W t t.
Proof. split; try done; [intros n _; apply same_entries_refl|]. intros n s ->. done. Qed.

Lemma frame_trans W t t1 t2 : tx_ok t -> tx_ok t1 -> frame W t t1 -> frame W t1 t2 -> frame W t t2.
Proof.
  intros (_ & _ & _ & Hnd) (_ & _ & _ & Hnd1) [Hw Hk Hr Ha Ht] [Hw' Hk' Hr' Ha' Ht']. split; auto.
  - intros n Hn. specialize (Hw n Hn). specialize (Hw' n Hn). unfold same_entries in *.
    destruct (own (write_set_ t) n) as [s|] eqn:E, (own (write_set_ t1) n) as [s1|] eqn:E1,
      (own (write_set_ t2) n) as [s2|] eqn:E2; try done.
    assert (snapshot_name s1 = snapshot_name s) as Hname by (by rewrite (own_name _ _ _ Hnd E), (own_name _ _ _ Hnd1 E1)).
    pose proof (delta_write_same s s1 Hname Hw) as Hd. destruct Hw as (H1 & H2 & H3), Hw' as (H1' & H2' & H3').
    split; [congruence|]. split; [congruence|]. intros Hs. rewrite H3', H3; congruence.
  - intros n s Hs. specialize (Hr n s Hs). destruct (own (read_set_ t1) n) as [s1|] eqn:E; [|done].
    simpl in Hr. injection Hr as Hr. by rewrite (Hr' n s1 E), Hr.
Qed.

Abbreviation assertion := (list Snapshot.t -> list Snapshot.t -> Prop).

Definition is_aborted (t : Tx) : bool := bool_decide (current_status_ t = Aborted).

(** From a transaction on table [tb] whose sets satisfy [E], a computation that
    returns keeps the invariant, leaves alone what is not in [W], and its result, whether the
    transaction has aborted, and the sets satisfy [Q]. *)
Definition triple {A} (tb : bytestring) (W : name -> Prop) (E : assertion) (m : M (D := D) A) (Q : A -> bool -> assertion) : Prop :=
  ∀ t d a t' d', tx_ok t -> current_table_ t = Some tb -> E (read_set_ t) (write_set_ t) ->
  m t d = Done (a, t', d') -> tx_ok t' ∧ frame W t t' ∧ Q a (is_aborted t') (read_set_ t') (write_set_ t').

Definition respects {A} (tb : bytestring) (W : name -> Prop) (m : M (D := D) A) : Prop :=
  triple tb W (fun _ _ => True) m (fun _ _ _ _ => True).

(** ** Rules *)

Lemma quiet_frame {A} W (m : M (D := D) A) t d a t' d' : quiet m -> tx_ok t -> m t d = Done (a, t', d') ->
  tx_ok t' ∧ frame W t t' ∧ read_set_ t' = read_set_ t ∧ write_set_ t' = write_set_ t.
Proof.
  intros Hm Hok H. destruct (Hm _ _ _ _ _ H) as (Er & Ew & Eri & Ewi & Hs & Ht).
  split; [unfold tx_ok in *; by rewrite Er, Ew, Eri, Ewi|]. split; [|done].
  split; rewrite ?Er, ?Ew; auto using same_entries_refl. by intros n s ->.
Qed.

Lemma triple_quiet {A} tb W (E : assertion) (m : M (D := D) A) (Q : A -> bool -> assertion) :
  quiet m -> (∀ a b r w, E r w -> Q a b r w) -> triple tb W E m Q.
Proof.
  intros Hm HQ t d a t' d' Hok Htb HE H. destruct (quiet_frame W m _ _ _ _ _ Hm Hok H) as (Hok' & Hf & -> & ->). auto.
Qed.

Lemma triple_bind {A B} tb W E (m : M (D := D) A) (Q : A -> assertion) (k : A -> M B) R :
  triple tb W E m (fun a _ => Q a) -> (∀ a, triple tb W (Q a) (k a) R) -> triple tb W E (bind m k) R.
Proof.
  intros Hm Hk t d b t2 d2 Hok Htb HE (a & t1 & d1 & H1 & H2)%bind_Done.
  destruct (Hm _ _ _ _ _ Hok Htb HE H1) as (Hok1 & Hf1 & HQ). destruct (Hk _ _ _ _ _ _ Hok1 (fr_table _ _ _ Hf1 _ Htb) HQ H2) as (Hok2 & Hf2 & HR).
  split; [done|]. split; [|done]. by eapply frame_trans with t1.
Qed.

Lemma triple_quiet_bind {A B} tb W E (m : M (D := D) A) (k : A -> M B) R :
  quiet m -> (∀ a, triple tb W E (k a) R) -> triple tb W E (bind m k) R.
Proof. intros Hm Hk. eapply (triple_bind tb W E m (fun _ => E)); [by apply triple_quiet|done]. Qed.

Lemma triple_conseq {A} tb (W W' : name -> Prop) (E E' : assertion) (m : M (D := D) A) (Q Q' : A -> bool -> assertion) :
  triple tb W' E' m Q' -> (∀ n, W' n -> W n) -> (∀ r w, E r w -> E' r w) -> (∀ a b r w, Q' a b r w -> Q a b r w) ->
  triple tb W E m Q.
Proof.
  intros Hm HW HE HQ t d a t' d' Hok Htb He H. destruct (Hm _ _ _ _ _ Hok Htb (HE _ _ He) H) as (Hok' & [] & HQ').
  split; [done|]. split; [|auto]. split; auto.
Qed.

Lemma triple_pre {A} tb W (E E' : assertion) (m : M (D := D) A) Q :
  triple tb W E' m Q -> (∀ r w, E r w -> E' r w) -> triple tb W E m Q.
Proof. intros Hm HE. by eapply triple_conseq. Qed.

Lemma triple_respects {A} tb (W W' : name -> Prop) E (m : M (D := D) A) :
  respects tb W' m -> (∀ n, W' n -> W n) -> triple tb W E m (fun _ _ _ _ => True).
Proof. intros Hm HW. by eapply triple_conseq. Qed.

Lemma triple_bind_bind {A B C} tb W E (m : M (D := D) A) (k : A -> M B) (k' : B -> M C) R :
  triple tb W E (bind m (fun a => bind (k a) k')) R -> triple tb W E (bind (bind m k) k') R.
Proof.
  intros H t d c t' d' Hok Htb HE (b & t2 & d2 & (a & t1 & d1 & H1 & H2)%bind_Done & H3)%bind_Done.
  apply (H t d c t' d' Hok Htb HE). unfold bind. by rewrite H1, H2.
Qed.

Lemma triple_ret_bind {A B} tb W E (a : A) (k : A -> M (D := D) B) R :
  triple tb W E (k a) R -> triple tb W E (bind (ret a) k) R.
Proof. intros H. exact H. Qed.

Lemma triple_ret {A} tb W (E : assertion) (a : A) (R : A -> bool -> assertion) :
  (∀ b r w, E r w -> R a b r w) -> triple tb W E (ret a) R.
Proof. intros HR t d x t' d' Hok Htb HE [= <- <- <-]. split; [done|]. split; [apply frame_refl|auto]. Qed.

Lemma triple_seq {A} tb W E (m : M (D := D) unit) (Q : assertion) (k : unit -> M A) R :
  triple tb W E m (fun _ _ => Q) -> triple tb W Q (k tt) R -> triple tb W E (bind m k) R.
Proof. intros Hm Hk. apply (triple_bind tb W E m (fun _ => Q)); [done|]. by intros []. Qed.

Lemma triple_lift {A B} tb W E (o : outcome A) (k : A -> M (D := D) B) R :
  (∀ a, o = Returns a -> triple tb W E (k a) R) -> triple tb W E (bind (lift o) k) R.
Proof.
  intros Hk t d b t' d' Hok Htb HE (a & t1 & d1 & H1 & H2)%bind_Done. unfold lift in H1.
  destruct o as [a'|] eqn:Eo; [|done]. injection H1 as -> <- <-. by apply (Hk a eq_refl t d b t' d').
Qed.

Lemma triple_read_item {A} tb W E key leaf (k : DataItem.t -> M (D := D) A) R :
  (∀ i, item_ok i -> triple tb W E (k i) R) -> triple tb W E (bind (read_item key leaf) k) R.
Proof.
  intros Hk. unfold read_item. apply triple_bind_bind.
  intros t d b t' d' Hok Htb HE (x & t1 & d1 & H1 & H2)%bind_Done.
  pose proof (cc_Read_ok key leaf d) as Hi. unfold call in H1. destruct (cc_Read key leaf d) as [x' d0]. injection H1 as -> <- <-.
  revert Hok Htb HE H2. apply triple_bind_bind. apply triple_quiet_bind; [quiet|]. intros _. by apply Hk.
Qed.

Lemma triple_read_unvalidated {A} tb W E key leaf (k : DataItem.t -> M (D := D) A) R :
  (∀ i, item_ok i -> triple tb W E (k i) R) -> triple tb W E (bind (read_unvalidated key leaf) k) R.
Proof.
  intros Hk. unfold read_unvalidated. apply triple_bind_bind.
  intros t d b t' d' Hok Htb HE (x & t1 & d1 & H1 & H2)%bind_Done.
  pose proof (cc_ReadUnvalidated_ok key leaf d) as Hi. unfold call in H1.
  destruct (cc_ReadUnvalidated key leaf d) as [x' d0]. injection H1 as -> <- <-.
  revert Hok Htb HE H2. apply triple_bind_bind. apply triple_quiet_bind; [quiet|]. intros _. by apply Hk.
Qed.

Lemma triple_seed {A} tb W E key leaf unique (k : DataItem.t -> M (D := D) A) R :
  (∀ i, item_ok i -> triple tb W E (k i) R) -> triple tb W E (bind (SeedSecondaryIndexForWrite key leaf unique) k) R.
Proof.
  intros Hk. unfold SeedSecondaryIndexForWrite. destruct unique; [by apply triple_read_item|by apply triple_read_unvalidated].
Qed.

(** An operation that has aborted returns at once. *)
Lemma triple_unless_aborted {A} tb W (E : assertion) (x : A) (k : M (D := D) A) R :
  (∀ r w, E r w -> R x true r w) -> triple tb W E k R ->
  triple tb W E (bind IsAborted (fun aborted => if aborted : bool then ret x else k)) R.
Proof.
  intros Hx Hk t d a t' d' Hok Htb HE (b & t1 & d1 & [= <- <- <-] & H)%bind_Done.
  destruct (bool_decide (current_status_ t = Aborted)) eqn:Eb; [|by apply (Hk _ _ _ _ _ Hok Htb HE H)].
  injection H as <- <- <-. split; [done|]. split; [apply frame_refl|]. unfold is_aborted. rewrite Eb. auto.
Qed.

Lemma triple_Abort tb W (E : assertion) R : (∀ r w, E r w -> R tt true r w) -> triple tb W E Abort R.
Proof.
  intros HR t d a t' d' Hok Htb HE H. destruct (quiet_frame W Abort _ _ _ _ _ quiet_Abort Hok H) as (Hok' & Hf & -> & ->).
  split; [done|]. split; [done|]. unfold is_aborted. destruct a.
  apply bind_Done in H as (b & t1 & d1 & [= <- <- <-] & H).
  destruct (bool_decide (current_status_ t = Aborted)) eqn:Eb; [injection H as <- <-; rewrite Eb; auto|].
  apply bind_Done in H as (u & t1 & d1 & [= <- <- <-] & H). injection H as <- <-. auto.
Qed.

(** A lookup finds the entry of the name or there is none. *)
Lemma triple_find_write {A} tb W (E : assertion) tn idx k (f : option (nat * Snapshot.t) -> M (D := D) A) R :
  (∀ i s, posting_ok s ->
     triple tb W (fun r w => E r w ∧ w !! i = Some s ∧ snapshot_name s = (tn, idx, k) ∧ own w (tn, idx, k) = Some s)
       (f (Some (i, s))) R) ->
  triple tb W (fun r w => E r w ∧ own w (tn, idx, k) = None) (f None) R ->
  triple tb W E (bind (find_write tn idx k) f) R.
Proof.
  intros HS HN. apply triple_bind with (fun x r w => E r w ∧ x = first_in_set w tn idx k ∧ Forall posting_ok w).
  - intros t d x t' d' ([Hri Hwi] & [Hir Hiw] & Hr & Hw) Htb HE (t0 & t1 & d1 & [= <- <- <-] & H)%bind_Done.
    destruct (FindInSet_spec std_hash range_order range_order_perm _ _ tn idx k Hwi) as [Hf Hix].
    destruct (FindInSet _ _ _ _ _ _ _) as [o ix]. simpl in Hf, Hix.
    apply bind_Done in H as (u & t1 & d1 & [= <- <- <-] & [= <- <- <-]).
    split; [done|]. split; [split; try done; simpl; auto using same_entries_refl; by intros n s ->|].
    split; [done|]. split; [|done]. simpl. unfold first_in_set. by rewrite Hf.
  - intros [[i s]|].
    + intros t d a t' d' Hok Htb (HE & Hx & Hall) H.
      destruct (first_in_set_Some _ _ _ _ i s (eq_sym Hx)) as [Hi Hn].
      apply (HS i s (Forall_lookup_1 _ _ _ _ Hall Hi) t d a t' d' Hok Htb); [|done]. split; [done|]. split; [done|].
      split; [done|]. unfold own. simpl. by rewrite <- Hx.
    + eapply triple_pre; [apply HN|]. intros r w (HE & Hx & _). split; [done|]. unfold own. simpl. by rewrite <- Hx.
Qed.

Lemma triple_find_read {A} tb W (E : assertion) tn idx k (f : option (nat * Snapshot.t) -> M (D := D) A) R :
  (∀ i s, item_ok (copy_of s) ->
     triple tb W (fun r w => E r w ∧ r !! i = Some s ∧ snapshot_name s = (tn, idx, k) ∧ own r (tn, idx, k) = Some s)
       (f (Some (i, s))) R) ->
  triple tb W (fun r w => E r w ∧ own r (tn, idx, k) = None) (f None) R ->
  triple tb W E (bind (find_read tn idx k) f) R.
Proof.
  intros HS HN. apply triple_bind with (fun x r w => E r w ∧ x = first_in_set r tn idx k ∧ Forall (fun s => item_ok (copy_of s)) r).
  - intros t d x t' d' ([Hri Hwi] & [Hir Hiw] & Hr & Hw) Htb HE (t0 & t1 & d1 & [= <- <- <-] & H)%bind_Done.
    destruct (FindInSet_spec std_hash range_order range_order_perm _ _ tn idx k Hri) as [Hf Hix].
    destruct (FindInSet _ _ _ _ _ _ _) as [o ix]. simpl in Hf, Hix.
    apply bind_Done in H as (u & t1 & d1 & [= <- <- <-] & [= <- <- <-]).
    split; [done|]. split; [split; try done; simpl; auto using same_entries_refl; by intros n s ->|].
    split; [done|]. split; [|done]. simpl. unfold first_in_set. by rewrite Hf.
  - intros [[i s]|].
    + intros t d a t' d' Hok Htb (HE & Hx & Hall) H.
      destruct (first_in_set_Some _ _ _ _ i s (eq_sym Hx)) as [Hi Hn].
      apply (HS i s (Forall_lookup_1 _ _ _ _ Hall Hi) t d a t' d' Hok Htb); [|done]. split; [done|]. split; [done|].
      split; [done|]. unfold own. simpl. by rewrite <- Hx.
    + eapply triple_pre; [apply HN|]. intros r w (HE & Hx & _). split; [done|]. unfold own. simpl. by rewrite <- Hx.
Qed.

Lemma index_ok_names set set' ix : map snapshot_name set' = map snapshot_name set ->
  index_ok std_hash set ix -> index_ok std_hash set' ix.
Proof.
  intros Hn [Hl Hp]. assert (length set' = length set) as Hlen by (by rewrite <- (length_map snapshot_name), Hn, length_map).
  assert (∀ (l1 l2 : list Snapshot.t) i, map snapshot_name l1 = map snapshot_name l2 -> ∀ s, l1 !! i = Some s ->
    ∃ s', l2 !! i = Some s' ∧ snapshot_hash std_hash s' = snapshot_hash std_hash s) as Hsame.
  { intros l1 l2 i Hm s Hs. assert (map snapshot_name l2 !! i = Some (snapshot_name s)) as Hi
      by (rewrite <- Hm, list_lookup_fmap, Hs; done).
    rewrite list_lookup_fmap in Hi. apply fmap_Some in Hi as (s' & Hs' & Heq). exists s'. split; [done|].
    unfold snapshot_name in Heq. unfold snapshot_hash. by injection Heq as -> -> ->. }
  split; [lia|]. intros h i. rewrite Hp. split; intros (Hi & s & Hs & <-); (split; [done|]).
  - by destruct (Hsame set set' i (eq_sym Hn) s Hs) as (s' & ? & ?); exists s'.
  - by destruct (Hsame set' set i Hn s Hs) as (s' & ? & ?); exists s'.
Qed.

Lemma own_here set i s : NoDup (map snapshot_name set) -> set !! i = Some s -> own set (snapshot_name s) = Some s.
Proof. intros Hnd Hi. apply own_Some; [done|]. split; [by eapply list_elem_of_lookup_2|done]. Qed.

(** Entries of the read set change their flags only. *)
Lemma triple_update_read tb W (E : assertion) i s' (R : unit -> bool -> assertion) :
  (∀ r w, E r w -> ∃ s, r !! i = Some s ∧ snapshot_name s' = snapshot_name s ∧ copy_of s' = copy_of s) ->
  (∀ b r w, E r w -> R tt b (<[i := s']> r) w) ->
  triple tb W E (update_read i s') R.
Proof.
  intros Hi HR t d x t' d' ([Hri Hwi] & [Hir Hiw] & Hr & Hw) Htb HE [= <- <- <-].
  destruct (Hi _ _ HE) as (s & Hs & Hn & Hc). pose proof (names_insert _ _ _ _ Hs Hn) as Hnames.
  split; [|split; [|by apply HR]].
  - split; [split; [by eapply index_ok_names|done]|]. split; [split; [|done]|split; [simpl; by rewrite Hnames|done]].
    simpl. apply Forall_insert; [done|]. rewrite Hc. exact (Forall_lookup_1 _ _ _ _ Hir Hs).
  - split; try done; [simpl; auto using same_entries_refl|]. simpl. intros n x Hx. rewrite (own_insert _ _ s) by done.
    destruct (decide (n = snapshot_name s)) as [->|]; [|by rewrite Hx]. simpl. rewrite Hc.
    rewrite (own_here _ _ _ Hr Hs) in Hx. by injection Hx as <-.
Qed.

Lemma triple_push_read tb W (E : assertion) s (R : unit -> bool -> assertion) :
  item_ok (copy_of s) -> (∀ r w, E r w -> own r (snapshot_name s) = None) ->
  (∀ b r w, E r w -> own (r ++ [s]) (snapshot_name s) = Some s -> R tt b (r ++ [s]) w) ->
  triple tb W E (push_read s) R.
Proof.
  intros Hok Hs HR t d x t' d' ([Hri Hwi] & [Hir Hiw] & Hr & Hw) Htb HE [= <- <- <-]. specialize (Hs _ _ HE).
  split; [|split; [|apply HR; [done|]; simpl; rewrite own_snoc by done; by rewrite decide_True]].
  - split; [split; [by apply index_ok_append|done]|]. split; [split; [|done]|split; [by apply NoDup_snoc_names|done]].
    simpl. apply Forall_app. split; [done|]. by constructor.
  - split; try done; [simpl; auto using same_entries_refl|]. simpl. intros n x Hx.
    rewrite own_snoc by done. rewrite decide_False by congruence. by rewrite Hx.
Qed.

Lemma triple_update_write tb (W : name -> Prop) (E : assertion) i s' n (R : unit -> bool -> assertion) :
  posting_ok s' ->
  (∀ r w, E r w -> ∃ s, w !! i = Some s ∧ snapshot_name s = n ∧ snapshot_name s' = n ∧ (W n ∨ same_entry s s')) ->
  (∀ b r w, E r w -> own (<[i := s']> w) n = Some s' -> R tt b r (<[i := s']> w)) ->
  triple tb W E (update_write i s') R.
Proof.
  intros Hok Hi HR t d x t' d' ([Hri Hwi] & [Hir Hiw] & Hr & Hw) Htb HE [= <- <- <-].
  destruct (Hi _ _ HE) as (s & Hs & <- & Hn & HW). pose proof (names_insert _ _ _ _ Hs Hn) as Hnames.
  split; [|split; [|apply HR; [done|]; simpl; rewrite (own_insert _ _ s) by done; by rewrite decide_True]].
  - split; [split; [done|by eapply index_ok_names]|]. split; [split; [done|]|split; [done|simpl; by rewrite Hnames]].
    simpl. by apply Forall_insert.
  - split; try done; simpl; try (by intros n x ->).
    + intros n HWn. rewrite (own_insert _ _ s) by done. destruct (decide (n = snapshot_name s)) as [->|];
        [|apply same_entries_refl]. rewrite (own_here _ _ _ Hw Hs). by destruct HW.
    + intros n Hn'. rewrite (own_insert _ _ s) by done. by case_decide.
Qed.

Lemma triple_push_write tb (W : name -> Prop) (E : assertion) s (R : unit -> bool -> assertion) :
  posting_ok s -> (∀ r w, E r w -> own w (snapshot_name s) = None) -> W (snapshot_name s) ->
  (∀ b r w, E r w -> own (w ++ [s]) (snapshot_name s) = Some s -> R tt b r (w ++ [s])) ->
  triple tb W E (push_write s) R.
Proof.
  intros Hok Hs HW HR t d x t' d' ([Hri Hwi] & [Hir Hiw] & Hr & Hw) Htb HE [= <- <- <-]. specialize (Hs _ _ HE).
  split; [|split; [|apply HR; [done|]; simpl; rewrite own_snoc by done; by rewrite decide_True]].
  - split; [split; [done|by apply index_ok_append]|]. split; [split; [done|]|split; [done|by apply NoDup_snoc_names]].
    simpl. apply Forall_app. split; [done|]. by constructor.
  - split; try done; simpl; try (by intros n x ->).
    + intros n HWn. rewrite own_snoc by done. rewrite decide_False by (by intros ->). apply same_entries_refl.
    + intros n Hn'. rewrite own_snoc by done. by case_decide.
Qed.

Lemma triple_ensure {A} tb W E (k : bytestring -> M (D := D) A) R :
  triple tb W E (k tb) R -> triple tb W E (bind EnsureCurrentTable k) R.
Proof.
  intros Hk t d a t' d' Hok Htb HE H. apply (Hk t d a t' d' Hok Htb HE). unfold bind, EnsureCurrentTable, gets in H.
  unfold bind in H. by rewrite Htb in H.
Qed.

(** What an operation as a whole does, whatever the table it ends on. *)
Definition spec {A} (W : name -> Prop) (m : M (D := D) A) (R : bytestring -> A -> bool -> assertion) : Prop :=
  ∀ t d a t' d', tx_ok t -> m t d = Done (a, t', d') ->
  tx_ok t' ∧ frame W t t' ∧
  (current_status_ t <> Aborted ->
   ∃ tn, current_table_ t' = Some tn ∧ R tn a (is_aborted t') (read_set_ t') (write_set_ t')).

Lemma EnsureCurrentTable_table t d tn t' d' : EnsureCurrentTable t d = Done (tn, t', d') -> current_table_ t' = Some tn.
Proof.
  intros (o & t1 & d1 & [= <- <- <-] & H)%bind_Done.
  destruct (current_table_ t) as [n|] eqn:Et; [by injection H as <- <- <-|].
  apply bind_Done in H as (f & t1 & d1 & H1 & (u & t2 & d2 & H2 & H)%bind_Done).
  by apply bind_Done in H as (u' & t3 & d3 & [= <- <- <-] & [= <- <- <-]).
Qed.

Lemma spec_ensure {A} W (k : bytestring -> M (D := D) A) R :
  (∀ tb, triple tb W (fun _ _ => True) (k tb) (R tb)) -> spec W (bind EnsureCurrentTable k) R.
Proof.
  intros Hk t d a t' d' Hok (tn & t1 & d1 & H1 & H2)%bind_Done.
  destruct (quiet_frame W _ _ _ _ _ _ quiet_EnsureCurrentTable Hok H1) as (Hok1 & Hf1 & _).
  pose proof (EnsureCurrentTable_table _ _ _ _ _ H1) as Htb.
  destruct (Hk tn _ _ _ _ _ Hok1 Htb I H2) as (Hok2 & Hf2 & HR).
  split; [done|]. split; [by eapply frame_trans with t1|]. intros _. exists tn. split; [|done].
  by apply (fr_table _ _ _ Hf2).
Qed.

Lemma spec_op {A} W (x : A) (k : bytestring -> M (D := D) A) R :
  (∀ tb, triple tb W (fun _ _ => True) (k tb) (R tb)) ->
  spec W (bind IsAborted (fun aborted => if aborted : bool then ret x else bind EnsureCurrentTable k)) R.
Proof.
  intros Hk t d a t' d' Hok (b & t1 & d1 & [= <- <- <-] & H)%bind_Done.
  destruct (bool_decide_reflect (current_status_ t = Aborted)) as [Ha|Ha]; [|exact (spec_ensure W k R Hk _ _ _ _ _ Hok H)].
  injection H as <- <- <-. split; [done|]. split; [apply frame_refl|done].
Qed.

(** An operation inside another one, on the table of that one. *)
Lemma triple_spec {A} tb W E (m : M (D := D) A) R (Q : A -> bool -> assertion) :
  spec W m R -> (∀ r w, E r w -> ∀ a, Q a true r w) -> (∀ a b r w, R tb a b r w -> Q a b r w) ->
  (∀ t d a t' d', current_status_ t = Aborted -> m t d = Done (a, t', d') -> t' = t) ->
  triple tb W E m Q.
Proof.
  intros Hm HE HQ Hab t d a t' d' Hok Htb He H. destruct (Hm _ _ _ _ _ Hok H) as (Hok' & Hf & HR).
  split; [done|]. split; [done|]. destruct (decide (current_status_ t = Aborted)) as [Ha|Ha].
  - rewrite (Hab _ _ _ _ _ Ha H). unfold is_aborted. rewrite bool_decide_eq_true_2 by done. eauto.
  - destruct (HR Ha) as (tn & Htn & HR'). rewrite (fr_table _ _ _ Hf _ Htb) in Htn. injection Htn as <-. auto.
Qed.

Lemma op_aborted {A} (x : A) (k : M (D := D) A) t d a t' d' : current_status_ t = Aborted ->
  bind IsAborted (fun aborted => if aborted : bool then ret x else k) t d = Done (a, t', d') -> t' = t.
Proof.
  intros Ha (b & t1 & d1 & [= <- <- <-] & H)%bind_Done. rewrite bool_decide_eq_true_2 in H by done. by injection H.
Qed.

Lemma triple_refuse tb W (E : assertion) R : (∀ r w, E r w -> R tt true r w) -> triple tb W E refuse R.
Proof.
  intros HR. unfold refuse, ReadSetIsStillValid.
  apply triple_quiet_bind; [quiet|]. intros ok. apply triple_quiet_bind; [quiet|]. intros _. by apply triple_Abort.
Qed.

Lemma triple_then_ret {A B} tb W E (m : M (D := D) A) (x : B) (R : B -> bool -> assertion) :
  triple tb W E m (fun _ => R x) -> triple tb W E (bind m (fun _ => ret x)) R.
Proof.
  intros Hm t d b t' d' Hok Htb HE (a & t1 & d1 & H1 & [= <- <- <-])%bind_Done. exact (Hm _ _ _ _ _ Hok Htb HE H1).
Qed.

Lemma triple_Abort_ret {A} tb W (E : assertion) (x : A) R :
  (∀ r w, E r w -> R x true r w) -> triple tb W E (bind Abort (fun _ => ret x)) R.
Proof.
  intros HR. apply triple_then_ret. by apply triple_Abort.
Qed.

(** Marking an own read as the base of a write. *)
Lemma triple_mark_read {A} tb W (E : assertion) i s (k : unit -> M (D := D) A) R :
  (∀ r w, E r w -> r !! i = Some s) -> triple tb W (fun _ w => ∃ r0, E r0 w) (k tt) R ->
  triple tb W E (bind (update_read i (with_rmw true s)) k) R.
Proof.
  intros Hi Hk. eapply triple_seq; [|exact Hk]. apply triple_update_read; [|intros b r w HE; by exists r].
  intros r w HE. exists s. split; [by apply (Hi r w)|done].
Qed.

Lemma triple_push_read_bind {A} tb W (E : assertion) s (k : unit -> M (D := D) A) R :
  item_ok (copy_of s) -> (∀ r w, E r w -> own r (snapshot_name s) = None) ->
  triple tb W (fun r w => own r (snapshot_name s) = Some s ∧ ∃ r0, E r0 w) (k tt) R ->
  triple tb W E (bind (push_read s) k) R.
Proof.
  intros Hok Hs Hk. eapply triple_seq; [|exact Hk]. apply triple_push_read; [done|done|].
  intros b r w HE Ho. split; [done|]. by exists r.
Qed.

(** Applies the rule for the head of a computation. *)
Ltac tstep := lazymatch goal with
  | |- triple _ _ _ (bind (bind _ _) _) _ => apply triple_bind_bind
  | |- triple _ _ _ (bind (ret _) _) _ => apply triple_ret_bind
  | |- triple _ _ _ (bind IsAborted (fun b => if b then ret _ else _)) _ => apply triple_unless_aborted; [try done|]
  | |- triple _ _ _ (bind Abort (fun _ => ret _)) _ => apply triple_Abort_ret; try done
  | |- triple _ _ _ (bind EnsureCurrentTable _) _ => apply triple_ensure
  | |- triple _ _ _ (bind (find_write _ _ _) _) _ => apply triple_find_write; [intros ? ? ?|]
  | |- triple _ _ _ (bind (find_read _ _ _) _) _ => apply triple_find_read; [intros ? ? ?|]
  | |- triple _ _ _ (bind (read_item _ _) _) _ => apply triple_read_item; intros ? ?
  | |- triple _ _ _ (bind (SeedSecondaryIndexForWrite _ _ _) _) _ => apply triple_seed; intros ? ?
  | |- triple _ _ _ (bind (lift _) _) _ => apply triple_lift; intros ? ?
  | |- triple _ _ _ (let _ := _ in _) _ => cbv zeta
  | |- triple _ _ _ (bind (update_read _ _) _) _ => apply triple_mark_read; [naive_solver|]
  | |- triple _ _ _ (bind (push_read _) _) _ => apply triple_push_read_bind; [done|naive_solver|]
  | |- triple _ _ _ (bind (match ?x with _ => _ end) _) _ => first
      [ apply triple_quiet_bind; [solve [quiet]|intros ?] | destruct x eqn:? ]
  | |- triple _ _ _ (bind _ _) _ => apply triple_quiet_bind; [solve [quiet]|intros ?]
  | |- triple _ _ _ (if ?b then _ else _) _ => destruct b eqn:?
  | |- triple _ _ _ (match ?x with _ => _ end) _ => destruct x eqn:?
  | |- triple _ _ _ (ret _) _ => apply triple_ret; try done
  | |- triple _ _ _ Abort _ => apply triple_Abort; try done
  | |- triple _ _ _ refuse _ => apply triple_refuse; try done
  | |- triple _ _ _ _ _ => apply triple_quiet; [solve [quiet]|try done]
  end.

(** The side condition of an update in place. *)
Ltac in_place := intros ? ? ?; eexists; destruct_and!; split_and!; [eassumption|done|done|by left].

(** ** Rows *)

(** The names of a key in any table. *)
Definition named (index_name key : bytestring) (n : name) : Prop := n.1.2 = index_name ∧ n.2 = key.
Definition nothing (n : name) : Prop := False.

(** What a value given to a write reads as. *)
Definition given (value : option bytestring) : option bytestring :=
  match default [] value with [] => None | bs => Some bs end.

Definition item_visible (i : DataItem.t) : option bytestring :=
  visible (DataBuffer.value (DataItem.buffer i), DataBuffer.size (DataItem.buffer i)).

Lemma visible_Reset b v :
  visible (DataBuffer.value (DataBuffer.Reset b v), DataBuffer.size (DataBuffer.Reset b v)) = given v.
Proof.
  transitivity (if DataBuffer.size (DataBuffer.Reset b v) =? 0 then None
                else Some (DataBuffer.payload (DataBuffer.Reset b v))); [done|].
  rewrite payload_Reset. destruct (Reset_split v) as [Hn|(bs & -> & Hbs)].
  - rewrite Reset_none by done. unfold given. by rewrite Hn.
  - rewrite Reset_some by done. destruct bs as [|x bs]; [done|].
    destruct (_ <? _); simpl DataBuffer.size; destruct (Z.eqb_spec (zlen (x :: bs)) 0); try done; zl.
Qed.

Definition read_post (key tn : bytestring) (v : Value) (_ : bool) (r w : list Snapshot.t) : Prop :=
  match own w (tn, [], key), own r (tn, [], key) with
  | Some s, _ => v = copy_value s
  | None, Some s => visible v = visible (copy_value s)
  | None, None => v = null_value
  end.

Lemma Read_spec key : spec nothing (Read key) (read_post key).
Proof.
  apply spec_op. intros tb. repeat tstep.
  all: unfold read_post.
  - intros b r w (_ & _ & _ & ->). done.
  - intros b r w ((_ & ->) & _ & _ & ->). done.
  - intros b r w (Hr & r0 & (_ & ->) & _). change (own r (tb, [], key) = Some (with_copy (DataItem.assign DataItem.empty i)
      (Snapshot.new key None z tb [] TransactionId.zero false))) in Hr. rewrite Hr.
    unfold DataItem.IsPrimaryInitialized, copy_value, visible. simpl.
    destruct (DataBuffer.size (DataBuffer.ResetFrom DataBuffer.empty (DataItem.buffer i)) =? 0) eqn:E;
      simpl; [done|]. by rewrite E.
  - intros b r w ((_ & ->) & ->). done.
Qed.

Definition write_post (key : bytestring) (value : option bytestring) (tn : bytestring) (_ : unit) (aborted : bool)
    (_ w : list Snapshot.t) : Prop :=
  aborted = true ∨ ∃ s, own w (tn, [], key) = Some s ∧ visible (copy_value s) = given value.

(** A write of a row keeps the postings of the copy. *)
Lemma posting_ok_row s s' : posting_ok s -> Snapshot.secondary_index_deltas s' = Snapshot.secondary_index_deltas s ->
  DataItem.primary_keys_ (copy_of s') = DataItem.primary_keys_ (copy_of s) -> posting_ok s'.
Proof. unfold posting_ok, item_keys. intros Hs -> ->. exact Hs. Qed.

Lemma posting_ok_new key value leaf tn idx v u b c :
  posting_ok (with_insert b (with_rmw c (Snapshot.new key value leaf tn idx v u))).
Proof.
  split; [constructor|]. split; [constructor|]. exists []. split; [|done].
  unfold item_keys. simpl. destruct value as [x|]; [|done]. unfold DataItem.Reset. by destruct (TransactionId.IsEmpty v).
Qed.

Lemma Write_spec key value is_insert : spec (named [] key) (Write key value is_insert) (write_post key value).
Proof.
  apply spec_op. intros tb. repeat tstep.
  1,4: apply triple_update_write with (tb, [], key); [by eapply posting_ok_row|in_place|]; intros b r w HE Ho;
    right; eexists; (split; [exact Ho|]); apply visible_Reset.
  1,3: by left.
  all: apply triple_push_write; [apply posting_ok_new|naive_solver|done|]; intros b r w HE Ho; right; eexists;
    (split; [exact Ho|]); destruct value as [v|]; [apply (visible_Reset DataBuffer.empty (Some v))|done].
Qed.

Lemma Write_aborted key value is_insert t d a t' d' : current_status_ t = Aborted ->
  Write key value is_insert t d = Done (a, t', d') -> t' = t.
Proof. apply op_aborted. Qed.

(** [Write] as the last step of another operation. *)
Lemma triple_Write tb E key value is_insert :
  triple tb (named [] key) E (Write key value is_insert) (write_post key value tb).
Proof.
  eapply triple_spec; [apply Write_spec|by left|done|intros; by eapply Write_aborted].
Qed.

Lemma TxUpdate_spec key value : spec (named [] key) (TxUpdate key value) (write_post key value).
Proof. apply spec_op. intros tb. repeat first [apply triple_Write|tstep]; by left. Qed.

Lemma TxInsert_spec key value : spec (named [] key) (TxInsert key value) (write_post key value).
Proof. apply spec_op. intros tb. repeat first [apply triple_Write|tstep]; by left. Qed.

Lemma triple_TxUpdate tb E key value :
  triple tb (named [] key) E (TxUpdate key value) (write_post key value tb).
Proof.
  eapply triple_spec; [apply TxUpdate_spec|by left|done|]. intros t d a t' d'. apply op_aborted.
Qed.

Lemma TxDelete_spec key : spec (named [] key) (TxDelete key) (write_post key None).
Proof. apply spec_op. intros tb. repeat first [apply triple_TxUpdate|tstep]; by left. Qed.

(** ** Postings *)

Lemma amended_ok s s' pk op i : posting_ok s -> is_delta (pk, op) -> apply_delta (copy_of s) (pk, op) = Returns i ->
  Snapshot.secondary_index_deltas s' = Snapshot.record_delta (Snapshot.secondary_index_deltas s) pk op ->
  copy_of s' = i -> posting_ok s'.
Proof.
  intros (Hnd & Hds & ks & Hk & Hm) Hd Hi Hs' Hc. unfold posting_ok. rewrite Hs', Hc.
  split; [by apply (record_delta_spec _ pk op pk)|]. split; [by apply record_delta_ok|].
  pose proof (apply_delta_spec _ ks (pk, op) Hk Hd) as Hspec. rewrite Hi in Hspec.
  destruct Hspec as (ks' & (Hk' & Hm' & _) & _). exists ks'. split; [done|]. intros x.
  destruct (record_delta_spec (Snapshot.secondary_index_deltas s) pk op x Hnd) as [_ ->].
  rewrite !Hm'. simpl. destruct (str_eqb pk x); [by destruct op|]. simpl. apply Hm.
Qed.

Lemma first_ok s' pk op (i i' : DataItem.t) : item_ok i -> is_delta (pk, op) -> apply_delta i (pk, op) = Returns i' ->
  Snapshot.secondary_index_deltas s' = [(pk, op)] -> copy_of s' = i' -> posting_ok s'.
Proof.
  intros [ks Hk] Hd Hi Hs Hc.
  apply (amended_ok (with_copy i (Snapshot.new [] None 0 [] [] TransactionId.zero false)) s' pk op i'); try done.
  split; [constructor|]. split; [constructor|]. by exists ks.
Qed.

Lemma refreshed_ok s i i' b : posting_ok s -> item_ok i ->
  ApplySecondaryIndexDeltas i (Snapshot.secondary_index_deltas s) = Returns i' -> posting_ok (with_rmw b (with_copy i' s)).
Proof.
  intros (Hnd & Hds & _) [ks Hk] Hi. split; [done|]. split; [done|].
  pose proof (apply_deltas_spec _ i ks Hk Hds) as Hspec. rewrite Hi in Hspec.
  destruct Hspec as (ks' & Hk' & Hm & _). exists ks'. split; [done|]. intros x. simpl. rewrite Hm.
  by destruct (last_op x (Snapshot.secondary_index_deltas s)) as [[]|].
Qed.

Lemma triple_Refresh tb (W : name -> Prop) (E : assertion) i s n (R : Snapshot.t -> bool -> assertion) :
  posting_ok s -> (∀ r w, E r w -> w !! i = Some s ∧ snapshot_name s = n ∧ own w n = Some s) ->
  (∀ s' b r w, own w n = Some s' -> R s' b r w) ->
  triple tb W E (RefreshSecondaryIndexWriteSnapshot i s) R.
Proof.
  intros Hok Hi HR. unfold RefreshSecondaryIndexWriteSnapshot. repeat tstep; [|naive_solver].
  apply triple_seq with (fun _ w => own w n = Some (with_rmw true (with_copy a s)));
    [|apply triple_ret; intros b r w Ho; by apply HR].
  apply triple_update_write with n; [eapply refreshed_ok; [done| |eassumption]; done| |done].
  intros r w HE. destruct (Hi r w HE) as (Hs & Hn & _). exists s. split; [done|]. split; [done|].
  split; [done|]. right. split; [done|]. split; [done|]. congruence.
Qed.

Definition postings_post (index_name key tn : bytestring) (pks : list bytestring) (_ : bool) (_ w : list Snapshot.t) : Prop :=
  ∀ s, own w (tn, index_name, key) = Some s -> pks = primary_keys (copy_of s).

Lemma ReadSecondaryIndex_spec index_name key :
  spec nothing (ReadSecondaryIndex index_name key)
    (fun tn pks ab r w => ab = true ∨ postings_post index_name key tn pks ab r w).
Proof.
  apply spec_op. intros tb. repeat tstep.
  - apply triple_bind with (fun s' r w => own w (tb, index_name, key) = Some s').
    + apply triple_Refresh with (tb, index_name, key); [done|naive_solver|done].
    + intros s'. apply triple_ret. intros ab r w Ho. right. intros s0 Hs0. congruence.
  - intros ab r w ((_ & Hw) & _). right. intros s0 Hs0. congruence.
  - intros ab r w (_ & r0 & (_ & Hw) & _). right. intros s0 Hs0. congruence.
  - intros ab r w ((_ & Hw) & _). right. intros s0 Hs0. congruence.
  - by left.
Qed.

(** After a write of a posting its addition or removal is recorded. *)
Definition posted (index_name key primary_key : bytestring) (op : SecondaryIndexOp) (tn : bytestring)
    (w : list Snapshot.t) : Prop :=
  ∃ s, own w (tn, index_name, key) = Some s ∧ last_op primary_key (Snapshot.secondary_index_deltas s) = Some op.

Definition posting_post (index_name key primary_key : bytestring) (op : SecondaryIndexOp) (tn : bytestring)
    (aborted : bool) (w : list Snapshot.t) : Prop :=
  aborted = true ∨ posted index_name key primary_key op tn w.

Lemma last_op_recorded s pk op : posting_ok s ->
  last_op pk (Snapshot.record_delta (Snapshot.secondary_index_deltas s) pk op) = Some op.
Proof.
  intros (Hnd & _). destruct (record_delta_spec (Snapshot.secondary_index_deltas s) pk op pk Hnd) as [_ ->].
  by rewrite str_eqb_refl.
Qed.

Lemma last_op_first pk op : last_op pk [(pk, op)] = Some op.
Proof. unfold last_op. simpl. by rewrite str_eqb_refl. Qed.

Lemma apply_delta_Add i pk c : DataItem.AddSecondaryIndexValue i pk = Returns c -> apply_delta i (pk, OpAdd) = Returns c.
Proof. intros H. unfold apply_delta. simpl. by rewrite H. Qed.

Lemma apply_delta_Remove i pk c :
  DataItem.RemoveSecondaryIndexValue i pk = Returns c -> apply_delta i (pk, OpRemove) = Returns c.
Proof. intros H. unfold apply_delta. simpl. by rewrite H. Qed.

Lemma amend_recorded s u rmw pk op c : posting_ok s ->
  last_op pk (Snapshot.secondary_index_deltas (amend_write s u rmw pk op c)) = Some op.
Proof. intros H. exact (last_op_recorded s pk op H). Qed.

Lemma triple_amend tb (W : name -> Prop) (E : assertion) i s u rmw pk op c index_name key
    (R : unit -> bool -> assertion) :
  posting_ok s -> is_delta (pk, op) -> apply_delta (copy_of s) (pk, op) = Returns c -> W (tb, index_name, key) ->
  (∀ r w, E r w -> w !! i = Some s ∧ snapshot_name s = (tb, index_name, key)) ->
  (∀ b r w, w !! i = Some (amend_write s u rmw pk op c) -> snapshot_name s = (tb, index_name, key) ->
     posted index_name key pk op tb w -> R tt b r w) ->
  triple tb W E (update_write i (amend_write s u rmw pk op c)) R.
Proof.
  intros Hok Hd Hc HW Hi HR. assert (posting_ok (amend_write s u rmw pk op c)) as Hok' by (by eapply amended_ok).
  apply triple_update_write with (tb, index_name, key); [done| |].
  - intros r w HE. destruct (Hi r w HE) as [Hs Hn]. exists s. split; [done|]. split; [done|]. split; [done|by left].
  - intros b r w HE Ho. destruct (Hi r w HE) as [Hs Hn].
    apply HR; [by apply list_lookup_insert_eq, lookup_lt_Some with s|done|]. eexists. split; [exact Ho|].
    by apply amend_recorded.
Qed.

Lemma triple_first tb (W : name -> Prop) (E : assertion) index_name key leaf u rmw pk op i c
    (R : unit -> bool -> assertion) :
  item_ok i -> is_delta (pk, op) -> apply_delta (DataItem.assign DataItem.empty i) (pk, op) = Returns c ->
  W (tb, index_name, key) -> (∀ r w, E r w -> own w (tb, index_name, key) = None) ->
  (∀ b r w, posted index_name key pk op tb w -> R tt b r w) ->
  triple tb W E (push_write (first_write tb index_name key leaf u rmw pk op c)) R.
Proof.
  intros Hi Hd Hc HW Hw HR. apply triple_push_write; [|done|done|].
  - eapply first_ok; [|exact Hd|exact Hc|done|done]. done.
  - intros b r w HE Ho. apply HR. eexists. split; [exact Ho|]. apply last_op_first.
Qed.

Lemma is_delta_Add pk : string_ok pk -> is_delta (pk, OpAdd).
Proof. intros H. split; [done|by left]. Qed.
Lemma is_delta_Remove pk : string_ok pk -> is_delta (pk, OpRemove).
Proof. intros H. split; [done|by right]. Qed.

Ltac posting_step :=
  match goal with
  | |- triple _ _ _ (push_write (first_write _ _ _ _ _ _ _ _ _)) _ =>
      eapply triple_first; [|eauto using is_delta_Add, is_delta_Remove
        |first [eapply apply_delta_Add; eassumption|eapply apply_delta_Remove; eassumption]|done|naive_solver|try (by right)]; try done
  | |- triple _ _ _ (update_write _ (amend_write _ _ _ _ _ _)) _ =>
      eapply triple_amend; [eassumption|eauto using is_delta_Add, is_delta_Remove
        |eauto using apply_delta_Add, apply_delta_Remove|done|naive_solver|try (by right)]
  end.

Lemma WriteSecondaryIndex_spec index_name key primary_key : string_ok primary_key ->
  spec (named index_name key) (WriteSecondaryIndex index_name key primary_key)
    (fun tn _ ab _ w => posting_post index_name key primary_key OpAdd tn ab w).
Proof.
  intros Hpk. apply spec_op. intros tb. unfold find_base, seed_base. repeat tstep; try (by left); posting_step.
Qed.

Lemma add_posting_triple tb (W : name -> Prop) index_name key primary_key u :
  string_ok primary_key -> W (tb, index_name, key) ->
  triple tb W (fun _ _ => True) (add_posting tb index_name key primary_key u)
    (fun _ ab _ w => posting_post index_name key primary_key OpAdd tb ab w).
Proof.
  intros Hpk HW. unfold add_posting, find_base, seed_base. repeat tstep; try (by left); posting_step.
Qed.

Lemma amended_again tb (W : name -> Prop) (E : assertion) i s b index_name key pk op (R : unit -> bool -> assertion) :
  W (tb, index_name, key) -> posting_ok s ->
  (∀ r w, E r w -> w !! i = Some s ∧ snapshot_name s = (tb, index_name, key)) ->
  last_op pk (Snapshot.secondary_index_deltas s) = Some op ->
  (∀ b r w, posted index_name key pk op tb w -> R tt b r w) ->
  triple tb W E (update_write i (with_rmw b s)) R.
Proof.
  intros HW Hok Hi Hop HR. apply triple_update_write with (tb, index_name, key); [done| |].
  - intros r w HE. exists s. destruct (Hi r w HE) as [Hs Hn]. split; [done|]. split; [done|]. split; [done|by left].
  - intros ab r w HE Ho. apply HR. eexists. by split; [exact Ho|].
Qed.

(** The removal is recorded, or the operation has ended early and aborted. *)
Definition removed_post (index_name key primary_key tn : bytestring) (ok ab : bool) (w : list Snapshot.t) : Prop :=
  if ok then posted index_name key primary_key OpRemove tn w else ab = true.

Lemma remove_posting_triple tb (W : name -> Prop) announce index_name key primary_key u :
  string_ok primary_key -> W (tb, index_name, key) ->
  triple tb W (fun _ _ => True) (remove_posting announce tb index_name key primary_key u)
    (fun ok ab _ w => removed_post index_name key primary_key tb ok ab w).
Proof.
  intros Hpk HW. unfold remove_posting, find_base, seed_base. repeat tstep.
  2,4: apply triple_then_ret; posting_step.
  all: eapply triple_seq with (fun _ w => w !! _ = Some _ ∧ snapshot_name _ = (tb, index_name, key));
    [posting_step; intros ? ? ? ? ? ?; done|].
  all: repeat tstep; apply triple_then_ret; eapply amended_again; [done| |done|by apply amend_recorded|done].
  all: eapply amended_ok; eauto using is_delta_Remove, apply_delta_Remove.
Qed.

Lemma DeleteSecondaryIndex_spec index_name key primary_key : string_ok primary_key ->
  spec (named index_name key) (DeleteSecondaryIndex index_name key primary_key)
    (fun tn _ ab _ w => posting_post index_name key primary_key OpRemove tn ab w).
Proof.
  intros Hpk. apply spec_op. intros tb. repeat tstep; try (by left).
  apply triple_then_ret. eapply triple_conseq; [by apply (remove_posting_triple tb (named index_name key))|done|done|].
  intros ok ab r w. destruct ok; [by right|by left].
Qed.

Lemma triple_bind_or_stop tb W E (m : M (D := D) bool) (k : M unit) (Q : assertion) R :
  triple tb W E m (fun ok ab r w => if ok then Q r w else R tt ab r w) -> triple tb W Q k R ->
  triple tb W E (bind m (fun ok => if ok : bool then k else ret tt)) R.
Proof.
  intros Hm Hk t d [] t2 d2 Hok Htb HE (ok & t1 & d1 & H1 & H2)%bind_Done.
  destruct (Hm _ _ _ _ _ Hok Htb HE H1) as (Hok1 & Hf1 & HQ). destruct ok; [|by injection H2 as <- <-].
  destruct (Hk _ _ _ _ _ Hok1 (fr_table _ _ _ Hf1 _ Htb) HQ H2) as (Hok2 & Hf2 & HR).
  split; [done|]. split; [|done]. by eapply frame_trans with t1.
Qed.

Definition either (P Q : name -> Prop) (n : name) : Prop := P n ∨ Q n.

Lemma UpdateSecondaryIndex_spec index_name old_key new_key primary_key : string_ok primary_key ->
  spec (either (named index_name old_key) (named index_name new_key))
    (UpdateSecondaryIndex index_name old_key new_key primary_key)
    (fun tn _ ab _ w => posting_post index_name new_key primary_key OpAdd tn ab w).
Proof.
  intros Hpk. apply spec_op. intros tb. repeat tstep; try (by left).
  apply triple_bind_or_stop with (fun _ _ => True); [|by apply add_posting_triple; [|right]].
  eapply triple_conseq; [by apply (remove_posting_triple tb (named index_name old_key))|by left|done|].
  intros ok ab r w. destruct ok; [done|by left].
Qed.

End frame.
