(* ===== verification/TxScan.v ===== *)
(** * Scans inside a transaction

    A scan of rows leaves the sets as they are; a scan of postings may rebuild
    the postings it passes.  A scan that collects its rows gives them in key
    order, each key once, with the transaction's own writes in place of what
    the index has; its rows are exactly those of the keys the index found and
    of the write set that are present where the scan comes to them. *)

From stdpp Require Import strings.
From S2P Require Import Prelude PackedKeys Types DataItem TxSet StdAlgo Transaction TxFrame.

Section scans.
Context {D : Type} `{!IndexBase D} `{!ConcurrencyControl D} `{!Catalogue D}.
Hypothesis range_order_perm : ∀ l, range_order l ≡ₚ l.
Hypothesis cc_Read_ok : ∀ key leaf d, item_ok (cc_Read key leaf d).1.1.

(** ** Frames *)

(** A lookup of a read, in the middle of a scan. *)
Lemma find_read_Done tn idx k t d x t' d' : tx_ok t -> find_read (D := D) tn idx k t d = Done (x, t', d') ->
  tx_ok t' ∧ (∀ W, frame W t t') ∧ x = first_in_set (read_set_ t) tn idx k ∧
  read_set_ t' = read_set_ t ∧ write_set_ t' = write_set_ t ∧ current_status_ t' = current_status_ t.
Proof.
  intros ([Hri Hwi] & Hi & Hnd) (t0 & t1 & d1 & [= <- <- <-] & H)%bind_Done.
  destruct (FindInSet_spec std_hash range_order range_order_perm _ _ tn idx k Hri) as [Hf Hix].
  destruct (FindInSet _ _ _ _ _ _ _) as [o ix]. simpl in Hf, Hix.
  apply bind_Done in H as (u & t1 & d1 & [= <- <- <-] & [= <- <- <-]).
  split; [done|]. split; [intros W; split; try done; simpl; auto using same_entries_refl; by intros n s ->|].
  split; [|done]. unfold first_in_set. by rewrite Hf.
Qed.

Definition row_frame (t t' : Tx) : Prop :=
  tx_ok t' ∧ frame nothing t t' ∧ read_set_ t' = read_set_ t ∧ write_set_ t' = write_set_ t.

Lemma row_frame_refl t : tx_ok t -> row_frame t t.
Proof. intros Hok. split; [done|]. split; [apply frame_refl|done]. Qed.

Lemma row_frame_trans t t1 t2 : tx_ok t -> row_frame t t1 -> row_frame t1 t2 -> row_frame t t2.
Proof.
  intros Hok (Hok1 & Hf1 & Hr1 & Hw1) (Hok2 & Hf2 & Hr2 & Hw2). split; [done|].
  split; [by eapply frame_trans with t1|]. split; congruence.
Qed.

Lemma quiet_row_frame {A} (m : M (D := D) A) t d a t' d' : quiet m -> tx_ok t -> m t d = Done (a, t', d') -> row_frame t t'.
Proof. intros Hm Hok H. destruct (quiet_frame nothing m _ _ _ _ _ Hm Hok H) as (? & ? & ? & ?). by split. Qed.

Lemma quiet_scan_key {S} f reverse tn k (st : S) total : quiet (D := D) (scan_key f reverse tn k st total).
Proof. unfold scan_key. quiet. Qed.

(** ** What a scan that collects its rows gives *)

(** The callback that keeps what it is given and never stops the scan. *)
Definition collect (rows : list (bytestring * Value)) (key : bytestring) (v : Value)
    : list (bytestring * Value) * bool := (rows ++ [(key, v)], false).

(** What the transaction itself knows of a row: its own write, or its read. *)
Definition own_row (t : Tx) (tn key : bytestring) : option Snapshot.t :=
  match own (write_set_ t) (tn, [], key) with
  | Some s => Some s
  | None => own (read_set_ t) (tn, [], key)
  end.

(** A row of a scan: what the transaction knows of it, else what the protocol
    gives, which is not absent. *)
Definition row_ok (t : Tx) (tn : bytestring) (row : bytestring * Value) : Prop :=
  match own_row t tn row.1 with
  | Some s => DataItem.IsPrimaryInitialized (Snapshot.data_item_copy s) = true ∧ row.2 = copy_value s
  | None => visible row.2 <> None
  end.

(** The rows of a scan over a list of keys. *)
Record scanned (t : Tx) (tn : bytestring) (keys : list bytestring) (rows : list (bytestring * Value)) : Prop := {
  sc_keys : sublist (map fst rows) keys;
  sc_rows : Forall (row_ok t tn) rows;
  sc_own : ∀ k s, k ∈ keys -> own_row t tn k = Some s ->
    DataItem.IsPrimaryInitialized (Snapshot.data_item_copy s) = true -> (k, copy_value s) ∈ rows;
}.

Lemma scanned_nil t tn : scanned t tn [] [].
Proof. split; [constructor|constructor|by intros k s ?%elem_of_nil]. Qed.

Lemma scanned_row t tn k v keys rows : row_ok t tn (k, v) -> scanned t tn keys rows ->
  scanned t tn (k :: keys) ((k, v) :: rows).
Proof.
  intros Hr [Hk Hrs Ho]. split; [by constructor|by constructor|].
  intros k' s [->|Hk']%elem_of_cons Hs Hi; [|apply list_elem_of_further; by apply Ho].
  unfold row_ok in Hr. simpl in Hr. rewrite Hs in Hr. destruct Hr as [_ ->]. apply list_elem_of_here.
Qed.

Lemma scanned_skip t tn k keys rows :
  (∀ s, own_row t tn k = Some s -> DataItem.IsPrimaryInitialized (Snapshot.data_item_copy s) = false) ->
  scanned t tn keys rows -> scanned t tn (k :: keys) rows.
Proof.
  intros Hn [Hk Hrs Ho]. split; [by constructor|done|].
  intros k' s [->|Hk']%elem_of_cons Hs Hi; [by rewrite (Hn s Hs) in Hi|by apply Ho].
Qed.

Lemma own_row_sets t t' tn k : read_set_ t' = read_set_ t -> write_set_ t' = write_set_ t ->
  own_row t' tn k = own_row t tn k.
Proof. intros Hr Hw. unfold own_row. by rewrite Hr, Hw. Qed.

Lemma scanned_sets t t' tn keys rows : read_set_ t' = read_set_ t -> write_set_ t' = write_set_ t ->
  scanned t' tn keys rows -> scanned t tn keys rows.
Proof.
  intros Hr Hw [Hk Hrs Ho]. split; [done| |].
  - apply (Forall_impl _ _ _ Hrs). intros row. unfold row_ok. by rewrite (own_row_sets t t').
  - intros k s. rewrite <- (own_row_sets t t') by done. apply Ho.
Qed.

(** The rows grow by what a round or the rest of a scan adds. *)
Definition adds (t : Tx) (tn : bytestring) (keys : list bytestring) (rows rows' : list (bytestring * Value))
    (total total' : Z) : Prop :=
  ∃ new, rows' = rows ++ new ∧ total' = total + zlen new ∧ scanned t tn keys new.

Lemma adds_nothing t tn rows total : adds t tn [] rows rows total total.
Proof. exists []. split; [by rewrite app_nil_r|]. split; [zl|apply scanned_nil]. Qed.

Lemma adds_skip t tn k rows total :
  (∀ s, own_row t tn k = Some s -> DataItem.IsPrimaryInitialized (Snapshot.data_item_copy s) = false) ->
  adds t tn [k] rows rows total total.
Proof.
  intros H. exists []. split; [by rewrite app_nil_r|]. split; [zl|]. apply scanned_skip; [done|apply scanned_nil].
Qed.

Lemma adds_row t tn k v rows total : row_ok t tn (k, v) -> adds t tn [k] rows (rows ++ [(k, v)]) total (total + 1).
Proof. intros H. exists [(k, v)]. split; [done|]. split; [zl|]. apply scanned_row; [done|apply scanned_nil]. Qed.

Lemma scanned_app t tn k1 k2 r1 r2 : scanned t tn k1 r1 -> scanned t tn k2 r2 -> scanned t tn (k1 ++ k2) (r1 ++ r2).
Proof.
  intros [Ha Hb Hc] [Ha' Hb' Hc']. split.
  - rewrite map_app. by apply sublist_app.
  - by apply Forall_app.
  - intros k s [Hk|Hk]%elem_of_app Hs Hi; apply elem_of_app; [left; by apply Hc|right; by apply Hc'].
Qed.

Lemma adds_trans t t' tn k ks r1 r2 r3 n1 n2 n3 : read_set_ t' = read_set_ t -> write_set_ t' = write_set_ t ->
  adds t tn [k] r1 r2 n1 n2 -> adds t' tn ks r2 r3 n2 n3 -> adds t tn (k :: ks) r1 r3 n1 n3.
Proof.
  intros Hr Hw (a & -> & -> & Ha) (b & -> & -> & Hb). exists (a ++ b). split; [by rewrite app_assoc|].
  split; [zl|]. apply (scanned_app _ _ [k]); [done|]. by eapply scanned_sets.
Qed.

Lemma own_row_write t tn k i s : first_in_set (write_set_ t) tn [] k = Some (i, s) -> own_row t tn k = Some s.
Proof. intros H. unfold own_row, own. simpl. by rewrite H. Qed.

Lemma own_row_read t tn k o : first_in_set (write_set_ t) tn [] k = None ->
  first_in_set (read_set_ t) tn [] k = o -> own_row t tn k = snd <$> o.
Proof. intros Hw Hr. unfold own_row, own. simpl. by rewrite Hw, Hr. Qed.

(** One round: a row known to the transaction. *)
Lemma round_own t tn k s rows total : own_row t tn k = Some s ->
  if DataItem.IsPrimaryInitialized (Snapshot.data_item_copy s)
  then adds t tn [k] rows (rows ++ [(k, copy_value s)]) total (total + 1)
  else adds t tn [k] rows rows total total.
Proof.
  intros Hs. destruct (DataItem.IsPrimaryInitialized _) eqn:Hi.
  - apply adds_row. unfold row_ok. simpl. by rewrite Hs.
  - apply adds_skip. by rewrite Hs; intros ? [= <-].
Qed.

(** One round: a row the protocol reads. *)
Lemma round_index t tn k sz rows total : own_row t tn k = None ->
  ∀ v : Value, v.2 = sz -> if sz =? 0 then adds t tn [k] rows rows total total
  else adds t tn [k] rows (rows ++ [(k, v)]) total (total + 1).
Proof.
  intros Hs v <-. destruct (v.2 =? 0) eqn:E; [apply adds_skip; by rewrite Hs|].
  apply adds_row. unfold row_ok, visible. simpl. by rewrite Hs, E.
Qed.

Lemma scan_key_round reverse tn k rows total t d rows' total' o t' d' :
  scan_key collect reverse tn k rows total t d = Done ((rows', total', o), t', d') ->
  (o = None ∧ adds t tn [k] rows rows' total total') ∨ o = Some None.
Proof.
  intros (ab & t1 & d1 & [= <- <- <-] & H)%bind_Done. destruct (bool_decide _); [injection H as _ _ <- _ _; by right|].
  apply bind_Done in H as (t1 & t2 & d2 & [= <- <- <-] & H).
  destruct (first_in_set (write_set_ t) tn [] k) as [[i s]|] eqn:Ew.
  { left. pose proof (round_own t tn k s rows total (own_row_write _ _ _ _ _ Ew)) as Hr.
    destruct (DataItem.IsPrimaryInitialized _); injection H as <- <- <- _ _; by split. }
  destruct (first_in_set (read_set_ t) tn [] k) as [[i s]|] eqn:Er.
  { left. pose proof (round_own t tn k s rows total (own_row_read _ _ _ _ Ew Er)) as Hr.
    destruct (DataItem.IsPrimaryInitialized _); injection H as <- <- <- _ _; by split. }
  pose proof (own_row_read _ _ _ _ Ew Er) as Hnone. simpl in Hnone.
  apply bind_Done in H as (leaf & t2 & d2 & _ & H). apply bind_Done in H as (u & t3 & d3 & _ & H).
  apply bind_Done in H as (ab & t4 & d4 & _ & H). destruct ab; [injection H as _ _ <- _ _; by right|].
  apply bind_Done in H as (v & t5 & d5 & _ & H). apply bind_Done in H as (ab & t6 & d6 & _ & H).
  destruct ab; [injection H as _ _ <- _ _; by right|]. left.
  destruct v as [[b|] sz]; [|injection H as <- <- <- _ _; split; [done|apply adds_skip; by rewrite Hnone]].
  pose proof (round_index t tn k sz rows total Hnone (Some b, sz) eq_refl) as Hr.
  destruct (sz =? 0); injection H as <- <- <- _ _; by split.
Qed.

Lemma scan_keys_adds reverse tn keys rows total t d n rows' t' d' :
  scan_keys collect reverse tn keys rows total t d = Done ((Some n, rows'), t', d') ->
  adds t tn keys rows rows' total n.
Proof.
  revert rows total t d. induction keys as [|k keys IH]; intros rows total t d; simpl.
  { intros [= <- <- _ _]. apply adds_nothing. }
  intros ([[r1 n1] o] & t1 & d1 & H1 & H)%bind_Done.
  destruct (quiet_scan_key _ _ _ _ _ _ _ _ _ _ _ H1) as (Hr & Hw & _).
  destruct (scan_key_round _ _ _ _ _ _ _ _ _ _ _ _ H1) as [[-> Ha]| ->]; simpl in H; [|done].
  eapply adds_trans; [exact Hr|exact Hw|exact Ha|by eapply IH].
Qed.

Lemma quiet_scan_keys {S} f reverse tn keys (st : S) total : quiet (D := D) (scan_keys f reverse tn keys st total).
Proof.
  revert st total. induction keys as [|k keys IH]; intros st total; simpl; [quiet|].
  apply quiet_bind; [apply quiet_scan_key|]. intros [[st' n'] [o|]]; simpl; [quiet|apply IH].
Qed.

Lemma quiet_ScanMerged {S} f reverse_ tn begin end_ (st : S) : quiet (D := D) (ScanMerged f reverse_ tn begin end_ st).
Proof. unfold ScanMerged. quiet. apply quiet_scan_keys. Qed.

(** ** The scan of the index alone *)

Lemma row_frame_bind {A B} (m : M (D := D) A) (k : A -> M B) t d b t' d' : tx_ok t ->
  (∀ a t1 d1, m t d = Done (a, t1, d1) -> row_frame t t1) ->
  (∀ a t1 d1 b t2 d2, tx_ok t1 -> k a t1 d1 = Done (b, t2, d2) -> row_frame t1 t2) ->
  bind m k t d = Done (b, t', d') -> row_frame t t'.
Proof.
  intros Hok Hm Hk (a & t1 & d1 & H1 & H2)%bind_Done. pose proof (Hm _ _ _ H1) as Hf.
  eapply row_frame_trans; [done|exact Hf|]. destruct Hf as [Hok1 _]. by eapply Hk.
Qed.

Lemma emit_index_row_frame {S} f tn k leaf (st : S) total t d r t' d' : tx_ok t ->
  emit_index_row f tn k leaf st total t d = Done (r, t', d') -> row_frame t t'.
Proof.
  intros Hok (ab & t1 & d1 & [= <- <- <-] & H)%bind_Done.
  destruct (bool_decide _); [injection H as _ <- _; by apply row_frame_refl|]. revert H.
  apply row_frame_bind; [done| |].
  - intros a t1 d1 H. destruct (find_read_Done _ _ _ _ _ _ _ _ Hok H) as (? & Hf & _ & ? & ? & _). split; [done|]. split; [apply Hf|done].
  - intros a t1 d1 b t2 d2 Hok1. apply quiet_row_frame; [|done]. quiet.
Qed.

Lemma emit_rows_frame {S} f tn keys (st : S) total visited t d r t' d' : tx_ok t ->
  emit_rows f tn keys st total visited t d = Done (r, t', d') -> row_frame t t'.
Proof.
  revert st total visited t d r t' d'. induction keys as [|[k leaf] keys IH];
    intros st total visited t d r t' d' Hok; simpl.
  { intros [= _ <- _]. by apply row_frame_refl. }
  apply row_frame_bind; [done|intros ? ? ?; by apply emit_index_row_frame|].
  intros [[st1 n1] [|]] t1 d1 b t2 d2 Hok1; simpl; [intros [= _ <- _]; by apply row_frame_refl|by apply IH].
Qed.

Lemma emit_index_row_round tn k leaf rows total t d rows' total' stop t' d' : tx_ok t ->
  own (write_set_ t) (tn, [], k) = None ->
  emit_index_row collect tn k leaf rows total t d = Done ((rows', total', stop), t', d') ->
  (stop = false ∧ adds t tn [k] rows rows' total total') ∨ (stop = true ∧ current_status_ t' = Aborted).
Proof.
  intros Hok Hw (ab & t1 & d1 & [= <- <- <-] & H)%bind_Done.
  destruct (bool_decide _) eqn:Eab.
  { injection H as _ _ <- <- _. right. split; [done|]. by apply bool_decide_eq_true in Eab. }
  apply bind_Done in H as (x & t1 & d1 & H1 & H).
  destruct (find_read_Done _ _ _ _ _ _ _ _ Hok H1) as (Hok1 & _ & -> & _).
  assert (own_row t tn k = snd <$> first_in_set (read_set_ t) tn [] k) as Hown by (unfold own_row; by rewrite Hw).
  destruct (first_in_set (read_set_ t) tn [] k) as [[i s]|] eqn:Er; simpl in Hown.
  { left. apply first_in_set_Some in Er as [_ [= _ _ Hk]]. rewrite Hk in H.
    pose proof (round_own t tn k s rows total Hown) as Hr.
    destruct (DataItem.IsPrimaryInitialized _); injection H as <- <- <- _ _; by split. }
  apply bind_Done in H as (v & t2 & d2 & _ & H). apply bind_Done in H as (ab & t3 & d3 & [= <- <- <-] & H).
  destruct (bool_decide (current_status_ t2 = Aborted)) eqn:Eab2.
  { injection H as _ _ <- <- _. right. split; [done|]. by apply bool_decide_eq_true in Eab2. }
  left. destruct v as [[b|] sz]; [|injection H as <- <- <- _ _; split; [done|apply adds_skip; by rewrite Hown]].
  pose proof (round_index t tn k sz rows total Hown (Some b, sz) eq_refl) as Hr.
  destruct (sz =? 0); injection H as <- <- <- _ _; by split.
Qed.

Lemma emit_rows_adds tn keys rows total visited t d n rows' v t' d' : tx_ok t ->
  (∀ k, k ∈ map fst keys -> own (write_set_ t) (tn, [], k) = None) ->
  emit_rows collect tn keys rows total visited t d = Done ((rows', n, v), t', d') ->
  adds t tn (map fst keys) rows rows' total n ∨ current_status_ t' = Aborted.
Proof.
  revert rows total visited t d. induction keys as [|[k leaf] keys IH]; intros rows total visited t d Hok Hno; simpl.
  { intros [= <- <- _ _ _]. left. apply adds_nothing. }
  intros ([[r1 n1] o] & t1 & d1 & H1 & H)%bind_Done.
  destruct (emit_index_row_frame _ _ _ _ _ _ _ _ _ _ _ Hok H1) as (Hok1 & _ & Hr & Hw).
  assert (own (write_set_ t) (tn, [], k) = None) as Hk by (apply Hno; apply list_elem_of_here).
  destruct (emit_index_row_round _ _ _ _ _ _ _ _ _ _ _ _ Hok Hk H1) as [[-> Ha]|[-> Hab]]; simpl in H.
  - destruct (IH _ _ _ _ _ Hok1 ltac:(intros k' Hk'; rewrite Hw; apply Hno; by apply list_elem_of_further) H) as [Hb|Hb];
      [left; by eapply adds_trans|by right].
  - right. by injection H as _ _ _ <- _.
Qed.

(** ** Scans of rows *)

(** What an index promises of the keys of a range: they are given in order,
    each once, and lie in the range. *)
Definition range_keys (reverse_ : bool) (begin : bytestring) (end_ : option bytestring) (keys : list bytestring)
    : Prop := in_order reverse_ keys ∧ Forall (fun k => key_in_range begin end_ k = true) keys.

Hypothesis ScanKeys_range : ∀ reverse_ ix begin end_ d keys,
  (ScanKeys reverse_ ix begin end_ d).1.1 = Some keys -> range_keys reverse_ begin end_ keys.
Hypothesis ScanRows_range : ∀ reverse_ ix begin end_ d,
  range_keys reverse_ begin (Some end_) (map fst (ScanRows reverse_ ix begin end_ d).1).

(** What a scan of a range gives. *)
Record scan_result (t : Tx) (tn begin : bytestring) (end_ : option bytestring) (reverse_ : bool) (n : Z)
    (rows : list (bytestring * Value)) : Prop := {
  sr_count : n = zlen rows;
  sr_range : range_keys reverse_ begin end_ (map fst rows);
  sr_rows : Forall (row_ok t tn) rows;
  sr_own : ∀ k s, own (write_set_ t) (tn, [], k) = Some s -> key_in_range begin end_ k = true ->
    DataItem.IsPrimaryInitialized (Snapshot.data_item_copy s) = true -> (k, copy_value s) ∈ rows;
}.

Lemma range_keys_sublist reverse_ begin end_ l l' : sublist l' l -> range_keys reverse_ begin end_ l ->
  range_keys reverse_ begin end_ l'.
Proof.
  intros Hs [Ho Hr]. split; [by eapply StronglySorted_sublist|]. apply Forall_forall. intros k Hk.
  apply (proj1 (Forall_forall _ _) Hr). by eapply elem_of_sublist.
Qed.

Lemma elem_of_own_keys t tn idx begin end_ k : k ∈ own_keys t tn idx begin end_ <->
  key_in_range begin end_ k = true ∧ own (write_set_ t) (tn, idx, k) <> None.
Proof.
  unfold own_keys. rewrite own_None, list_elem_of_fmap. split.
  - intros (s & -> & Hs). apply list_elem_of_In, filter_In in Hs as [Hin Hm].
    apply andb_prop in Hm as [[H1%str_eqb_eq H2%str_eqb_eq]%andb_prop H3]. split; [done|]. intros Hn. apply Hn. apply list_elem_of_fmap. exists s. split; [unfold snapshot_name; congruence|by apply list_elem_of_In].
  - intros [Hr Hn]. apply dec_stable in Hn. apply list_elem_of_fmap in Hn as (s & Hs & Hin). injection Hs as H1 H2 H3.
    exists s. split; [done|]. apply list_elem_of_In, filter_In. split; [by apply list_elem_of_In|].
    rewrite <- H1, <- H2, <- H3, Hr. by rewrite !(proj2 (str_eqb_eq _ _)).
Qed.

(** The keys of a merged scan. *)
Lemma merged_range t tn begin end_ reverse_ keys : range_keys reverse_ begin end_ keys ->
  let all := std_unique (std_merge (if reverse_ then reverse keys else keys) (std_sort (own_keys t tn [] begin end_))) in
  let order := if reverse_ then reverse all else all in
  range_keys reverse_ begin end_ order ∧ ∀ k, k ∈ order <-> k ∈ keys ∨ k ∈ own_keys t tn [] begin end_.
Proof.
  intros [Ho Hr] all order.
  destruct (merged_keys (if reverse_ then reverse keys else keys) (own_keys t tn [] begin end_)) as [Hasc Hel].
  { by apply strictly_ascending_ascending, in_order_ascending. }
  assert (∀ k, k ∈ order <-> k ∈ keys ∨ k ∈ own_keys t tn [] begin end_) as Hin.
  { intros k. unfold order. destruct reverse_; [rewrite elem_of_reverse|]; unfold all; rewrite Hel, ?elem_of_reverse; done. }
  split; [split; [by apply ascending_in_order|]|done].
  apply Forall_forall. intros k [Hk|Hk]%Hin; [by apply (proj1 (Forall_forall _ _) Hr)|].
  by apply elem_of_own_keys in Hk as [? _].
Qed.

Lemma own_row_own t tn k s : own (write_set_ t) (tn, [], k) = Some s -> own_row t tn k = Some s.
Proof. unfold own_row. by intros ->. Qed.

Lemma ScanMerged_result reverse_ tn begin end_ t d n rows t' d' :
  ScanMerged collect reverse_ tn begin end_ [] t d = Done ((Some n, rows), t', d') ->
  scan_result t tn begin end_ reverse_ n rows.
Proof.
  intros (r & t1 & d1 & Hc & (u & t2 & d2 & [= _ <- <-] & H)%bind_Done)%bind_Done. unfold call in Hc.
  pose proof (ScanKeys_range reverse_ (PrimaryIndex tn) begin end_ d) as Hlaw.
  destruct (ScanKeys _ _ _ _ _) as [r0 d0]. injection Hc as -> <- <-. simpl in Hlaw.
  destruct r.1 as [keys|]; [|by apply bind_Done in H as (? & ? & ? & _ & ?)].
  apply bind_Done in H as (t2 & t3 & d3 & [= <- <- <-] & H). set (t2 := set_node_versions _ t) in H.
  destruct (merged_range t2 tn begin end_ reverse_ keys (Hlaw keys eq_refl)) as [Hrange Hown].
  destruct (scan_keys_adds _ _ _ _ _ _ _ _ _ _ _ H) as (new & Hrows & Hn & [Hk Hr Ho]). simpl in Hrows. subst rows.
  split; [lia|by eapply range_keys_sublist|done|].
  intros k s Hs Hin Hi. apply Ho; [|by apply own_row_own|done]. apply Hown. right. apply elem_of_own_keys. split; [done|].
  change (write_set_ t2) with (write_set_ t). by rewrite Hs.
Qed.

Lemma no_own_write_in_range t tn begin end_ k : HasOwnBaseRowWriteInRange t tn begin end_ = false ->
  key_in_range begin end_ k = true -> own (write_set_ t) (tn, [], k) = None.
Proof.
  intros Hno Hr. apply own_None. intros (s & Hs & Hin)%list_elem_of_fmap. injection Hs as H1 H2 H3.
  apply not_true_iff_false in Hno. apply Hno. unfold HasOwnBaseRowWriteInRange. apply existsb_exists. exists s.
  split; [by apply list_elem_of_In|]. rewrite <- H1, <- H2, <- H3, Hr. by rewrite !(proj2 (str_eqb_eq _ _)).
Qed.

Lemma EarlyStop_result reverse_ tn begin e t d n rows t' d' : tx_ok t ->
  HasOwnBaseRowWriteInRange t tn begin (Some e) = false ->
  ScanPrimaryIndexWithEarlyStop collect reverse_ tn begin e [] t d = Done ((Some n, rows), t', d') ->
  scan_result t tn begin (Some e) reverse_ n rows.
Proof.
  intros Hok Hno (keys & t1 & d1 & Hc & H)%bind_Done. unfold call in Hc.
  destruct (ScanRows_range reverse_ (PrimaryIndex tn) begin e d) as [Ho Hr].
  destruct (ScanRows _ _ _ _ _) as [keys0 d0]. injection Hc as -> <- <-. simpl in Ho, Hr.
  apply bind_Done in H as ([[rows1 n1] v] & t2 & d2 & He & H).
  assert (∀ k, k ∈ map fst keys -> own (write_set_ t) (tn, [], k) = None) as Hnone.
  { intros k Hk. eapply no_own_write_in_range; [done|]. by apply (proj1 (Forall_forall _ _) Hr). }
  pose proof (emit_rows_adds _ _ _ _ _ _ _ _ _ _ _ _ Hok Hnone He) as Hadds.
  apply bind_Done in H as (r & t3 & d3 & Hend & H). unfold call in Hend.
  destruct (ScanRowsEnd _ _) as [r' d0']. injection Hend as <- <- <-.
  apply bind_Done in H as (u & t4 & d4 & [= _ <- <-] & H).
  destruct r'.1; [|by apply bind_Done in H as (? & ? & ? & _ & ?)].
  apply bind_Done in H as (ab & t5 & d5 & [= <- <- <-] & H). simpl in H.
  destruct Hadds as [(new & Hrows & Hn & [Hk Hrs _])|Hab]; [|by rewrite bool_decide_eq_true_2 in H].
  destruct (bool_decide _); [done|]. injection H as <- <- _ _. simpl in Hrows. subst rows1.
  split; [lia|by eapply range_keys_sublist|done|].
  intros k s Hs Hin. by rewrite (no_own_write_in_range _ _ _ _ _ Hno Hin) in Hs.
Qed.

Lemma ScanWith_result reverse_ tn begin end_ t d n rows t' d' : tx_ok t -> current_table_ t = Some tn ->
  ScanWith collect reverse_ begin end_ [] t d = Done ((Some n, rows), t', d') ->
  scan_result t tn begin end_ reverse_ n rows.
Proof.
  intros Hok Ht (tb & t1 & d1 & He & H)%bind_Done.
  assert (tb = tn ∧ t1 = t) as [-> ->].
  { apply bind_Done in He as (o & t0 & d0 & [= <- <- <-] & He). rewrite Ht in He. by injection He as <- <- _. }
  apply bind_Done in H as (t2 & t3 & d3 & [= <- <- <-] & H).
  destruct end_ as [e|]; [|by eapply ScanMerged_result].
  destruct (HasOwnBaseRowWriteInRange t tn begin (Some e)) eqn:Eh; simpl in H; [by eapply ScanMerged_result|].
  by eapply EarlyStop_result.
Qed.

(** ** Where the rows of a scan come from *)

(** The item of a key: the one the scan of the index handed out, or the one
    [GetOrInsert] finds or makes. *)
Definition row_item (tn k : bytestring) (leaf : option Z) (d : D) (x : Z) (d' : D) : Prop :=
  match leaf with
  | Some y => x = y ∧ d' = d
  | None =>
      Get (PrimaryIndex tn) k d = (Some x, d') ∨
      ∃ d1 u d2, Get (PrimaryIndex tn) k d = (None, d1) ∧ ForcePutBlankEntry (PrimaryIndex tn) k d1 = (u, d2) ∧
                 Get (PrimaryIndex tn) k d2 = (Some x, d')
  end.

(** Whether [ReadDirect] found a row. *)
Definition present (v : Value) : bool := match v with (Some _, sz) => negb (sz =? 0) | (None, _) => false end.

(** The rows of the keys, one after the other: what the transaction has written
    or read, unless it is deleted, or else what the protocol reads in the item
    when the scan comes to the key, unless it is absent. *)
Inductive materialised (t : Tx) (tn : bytestring)
    : list (bytestring * option Z) -> D -> list (bytestring * Value) -> D -> Prop :=
| mat_nil d : materialised t tn [] d [] d
| mat_own k leaf s keys d rows d' :
    own_row t tn k = Some s -> materialised t tn keys d rows d' ->
    materialised t tn ((k, leaf) :: keys) d
      ((if DataItem.IsPrimaryInitialized (Snapshot.data_item_copy s) then [(k, copy_value s)] else []) ++ rows) d'
| mat_read k leaf x v keys d d1 d2 rows d' :
    own_row t tn k = None -> row_item tn k leaf d x d1 -> cc_ReadDirect k x d1 = (v, false, d2) ->
    materialised t tn keys d2 rows d' ->
    materialised t tn ((k, leaf) :: keys) d ((if present v then [(k, v)] else []) ++ rows) d'.

(** A scan of the index merged with the keys of the write set, or, when none is
    in the range, of the index alone. *)
Definition scan_source (t : Tx) (tn begin : bytestring) (end_ : option bytestring) (reverse_ : bool) (d : D)
    (rows : list (bytestring * Value)) (d' : D) : Prop :=
  (∃ collected vs d1 keys, ScanKeys reverse_ (PrimaryIndex tn) begin end_ d = (Some collected, vs, d1) ∧
     in_order reverse_ keys ∧ (∀ k, k ∈ keys <-> k ∈ collected ∨ k ∈ own_keys t tn [] begin end_) ∧
     materialised t tn (map (fun k => (k, None)) keys) d1 rows d') ∨
  (∃ e found d1 d2, end_ = Some e ∧ own_keys t tn [] begin end_ = [] ∧
     ScanRows reverse_ (PrimaryIndex tn) begin e d = (found, d1) ∧
     materialised t tn (map (fun row => (row.1, Some row.2)) found) d1 rows d2 ∧
     d' = (ScanRowsEnd (length found) d2).2).

Lemma materialised_sets t t' tn keys d rows d' : read_set_ t' = read_set_ t -> write_set_ t' = write_set_ t ->
  materialised t' tn keys d rows d' -> materialised t tn keys d rows d'.
Proof using.
  intros Hr Hw. induction 1; [constructor|apply mat_own|eapply mat_read]; try done; by rewrite <- (own_row_sets t t').
Qed.

(** What one round puts before the rows of the rest. *)
Definition round_gives (t : Tx) (tn k : bytestring) (leaf : option Z) (d : D) (rows rows' : list (bytestring * Value)) (d' : D) : Prop :=
  ∃ new, rows' = rows ++ new ∧ ∀ keys rest d'', materialised t tn keys d' rest d'' ->
    materialised t tn ((k, leaf) :: keys) d (new ++ rest) d''.

Lemma round_gives_own t tn k leaf s d rows : own_row t tn k = Some s ->
  round_gives t tn k leaf d rows
    (rows ++ if DataItem.IsPrimaryInitialized (Snapshot.data_item_copy s) then [(k, copy_value s)] else []) d.
Proof using. intros Hs. eexists. split; [done|]. intros keys rest d''. by apply mat_own. Qed.

Lemma round_gives_read t tn k leaf x v d d1 d2 rows : own_row t tn k = None -> row_item tn k leaf d x d1 ->
  cc_ReadDirect k x d1 = (v, false, d2) ->
  round_gives t tn k leaf d rows (rows ++ if present v then [(k, v)] else []) d2.
Proof using. intros Hs Hx Hv. eexists. split; [done|]. intros keys rest d''. by eapply mat_read. Qed.

Lemma read_direct_live k x t d v t' d' : read_direct k x t d = Done (v, t', d') -> current_status_ t' <> Aborted ->
  cc_ReadDirect k x d = (v, false, d').
Proof using.
  intros (r & t1 & d1 & Hc & H)%bind_Done Hl. unfold call in Hc. destruct (cc_ReadDirect k x d) as [r0 d0].
  injection Hc as -> <- <-. destruct r as [v0 [|]]; apply bind_Done in H as (u & t2 & d2 & Hp & [= <- <- <-]).
  - by injection Hp as _ <- _.
  - by injection Hp as _ _ <-.
Qed.

Lemma reconcile_live u t d t' d' : ReconcileOwnInsertWithNodeVersionSet (D := D) u t d = Done (tt, t', d') ->
  current_status_ t' <> Aborted -> d' = d.
Proof using.
  unfold ReconcileOwnInsertWithNodeVersionSet. destruct (update_node_ptr u) as [node|]; [|by intros [= _ <-]].
  destruct (valid u); [|by intros [= _ <-]]. intros (es & t1 & d1 & [= <- <- <-] & H)%bind_Done Hl.
  destruct (reconcile_loop u node _) as [es' raced]. apply bind_Done in H as (u1 & t2 & d2 & [= _ <- <-] & H).
  destruct raced; [|by injection H as _ <-]. apply bind_Done in H as (ab & t3 & d3 & [= <- <- <-] & H). simpl in H.
  destruct (bool_decide (current_status_ t = Aborted)); [by injection H as _ <-|].
  apply bind_Done in H as (u2 & t4 & d4 & [= _ <- <-] & H). unfold call in H. by injection H as <- _.
Qed.

Lemma GetOrInsert_item tn k t d x u t' d' : GetOrInsert (D := D) (PrimaryIndex tn) k t d = Done ((x, u), t', d') ->
  row_item tn k None d x d' ∧ t' = t.
Proof using.
  intros (o & t1 & d1 & Hc & H)%bind_Done. unfold call in Hc. simpl.
  destruct (Get (PrimaryIndex tn) k d) as [o0 d0] eqn:E. injection Hc as -> <- <-.
  destruct o as [y|]; [injection H as <- _ <- <-; split; [by left|done]|].
  apply bind_Done in H as (u1 & t2 & d2 & Hf & H). unfold call in Hf.
  destruct (ForcePutBlankEntry (PrimaryIndex tn) k d0) as [u2 d3] eqn:Ef. injection Hf as -> <- <-.
  apply bind_Done in H as (o & t2 & d2 & Hg & H). unfold call in Hg.
  destruct (Get (PrimaryIndex tn) k d3) as [o1 d4] eqn:Eg. injection Hg as -> <- <-.
  apply bind_Done in H as (y & t2 & d2 & Ha & [= <- _ <- <-]). destruct o as [z|]; [|done].
  injection Ha as -> <- <-. split; [|done]. right. by exists d0, u1, d3.
Qed.

Lemma scan_key_gives reverse tn k rows total t d rows' total' t' d' :
  scan_key collect reverse tn k rows total t d = Done ((rows', total', None), t', d') ->
  round_gives t tn k None d rows rows' d'.
Proof using.
  intros (ab & t1 & d1 & [= <- <- <-] & H)%bind_Done. destruct (bool_decide _); [done|].
  apply bind_Done in H as (t1 & t2 & d2 & [= <- <- <-] & H).
  destruct (first_in_set (write_set_ t) tn [] k) as [[i s]|] eqn:Ew.
  { pose proof (round_gives_own t tn k None s d rows (own_row_write _ _ _ _ _ Ew)) as Hr.
    destruct (DataItem.IsPrimaryInitialized _); injection H as <- _ _ <-; by rewrite ?app_nil_r in *. }
  destruct (first_in_set (read_set_ t) tn [] k) as [[i s]|] eqn:Er.
  { pose proof (round_gives_own t tn k None s d rows (own_row_read _ _ _ _ Ew Er)) as Hr.
    destruct (DataItem.IsPrimaryInitialized _); injection H as <- _ _ <-; by rewrite ?app_nil_r in *. }
  pose proof (own_row_read _ _ _ _ Ew Er) as Hnone. simpl in Hnone.
  apply bind_Done in H as ([x u] & t2 & d2 & Hg & H). destruct (GetOrInsert_item _ _ _ _ _ _ _ _ Hg) as [Hx ->].
  apply bind_Done in H as ([] & t3 & d3 & Hrec & H). apply bind_Done in H as (ab & t4 & d4 & Hab & H).
  destruct ab; [done|]. assert (d4 = d2) as ->.
  { destruct reverse; [injection Hrec as <- <-; by injection Hab as _ <-|]. injection Hab as Ea _ <-.
    apply (reconcile_live _ _ _ _ _ Hrec). by apply bool_decide_eq_false in Ea. }
  apply bind_Done in H as (v & t5 & d5 & Hv & H). apply bind_Done in H as (ab & t6 & d6 & [= <- <- <-] & H).
  destruct (bool_decide _) eqn:Ea; [done|]. apply bool_decide_eq_false in Ea.
  pose proof (round_gives_read t tn k None x v d d2 d5 rows Hnone Hx (read_direct_live _ _ _ _ _ _ _ Hv Ea)) as Hr.
  destruct v as [[b|] sz]; [simpl in Hr; destruct (sz =? 0)|]; injection H as <- _ _ <-; by rewrite ?app_nil_r in *.
Qed.

Lemma scan_keys_materialised reverse tn keys rows total t d n rows' t' d' :
  scan_keys collect reverse tn keys rows total t d = Done ((Some n, rows'), t', d') ->
  ∃ new, rows' = rows ++ new ∧ materialised t tn (map (fun k => (k, None)) keys) d new d'.
Proof using.
  revert rows total t d. induction keys as [|k keys IH]; intros rows total t d; simpl.
  { intros [= _ <- _ <-]. exists []. rewrite app_nil_r. split; [done|constructor]. }
  intros ([[r1 n1] o] & t1 & d1 & H1 & H)%bind_Done.
  destruct (quiet_scan_key _ _ _ _ _ _ _ _ _ _ _ H1) as (Hr & Hw & _).
  destruct o as [o|]; simpl in H.
  { destruct (scan_key_round _ _ _ _ _ _ _ _ _ _ _ _ H1) as [[? _]|[= ->]]; done. }
  destruct (scan_key_gives _ _ _ _ _ _ _ _ _ _ _ H1) as (new & -> & Hg).
  destruct (IH _ _ _ _ H) as (rest & -> & Hm). exists (new ++ rest). split; [by rewrite app_assoc|]. apply Hg.
  by eapply materialised_sets.
Qed.

Lemma emit_index_row_gives tn k leaf rows total t d rows' total' t' d' : tx_ok t ->
  own (write_set_ t) (tn, [], k) = None ->
  emit_index_row collect tn k leaf rows total t d = Done ((rows', total', false), t', d') ->
  round_gives t tn k (Some leaf) d rows rows' d'.
Proof using range_order_perm.
  intros Hok Hw (ab & t1 & d1 & [= <- <- <-] & H)%bind_Done. destruct (bool_decide _); [done|].
  apply bind_Done in H as (x & t1 & d1 & H1 & H).
  assert (d1 = d) as ->.
  { apply bind_Done in H1 as (t2 & t3 & d3 & [= <- <- <-] & H1). destruct (FindInSet _ _ _ _ _ _ _) as [o ix].
    by apply bind_Done in H1 as (u & t4 & d4 & [= <- <- <-] & [= _ _ <-]). }
  destruct (find_read_Done _ _ _ _ _ _ _ _ Hok H1) as (Hok1 & _ & -> & _).
  assert (own_row t tn k = snd <$> first_in_set (read_set_ t) tn [] k) as Hown by (unfold own_row; by rewrite Hw).
  destruct (first_in_set (read_set_ t) tn [] k) as [[i s]|] eqn:Er; simpl in Hown.
  { apply first_in_set_Some in Er as [_ [= _ _ Hk]]. rewrite Hk in H.
    pose proof (round_gives_own t tn k (Some leaf) s d rows Hown) as Hr.
    destruct (DataItem.IsPrimaryInitialized _); injection H as <- _ _ <-; by rewrite ?app_nil_r in *. }
  apply bind_Done in H as (v & t2 & d2 & Hv & H). apply bind_Done in H as (ab & t3 & d3 & [= <- <- <-] & H).
  destruct (bool_decide (current_status_ t2 = Aborted)) eqn:Ea; [done|]. apply bool_decide_eq_false in Ea.
  pose proof (round_gives_read t tn k (Some leaf) leaf v d d d2 rows Hown (conj eq_refl eq_refl)
                (read_direct_live _ _ _ _ _ _ _ Hv Ea)) as Hr.
  destruct v as [[b|] sz]; [simpl in Hr; destruct (sz =? 0)|]; injection H as <- _ _ <-; by rewrite ?app_nil_r in *.
Qed.

Lemma emit_rows_materialised tn keys rows total visited t d n rows' v t' d' : tx_ok t ->
  (∀ k, k ∈ map fst keys -> own (write_set_ t) (tn, [], k) = None) ->
  emit_rows collect tn keys rows total visited t d = Done ((rows', n, v), t', d') ->
  (∃ new, rows' = rows ++ new ∧ materialised t tn (map (fun row => (row.1, Some row.2)) keys) d new d' ∧
     v = (visited + length keys)%nat) ∨
  current_status_ t' = Aborted.
Proof using range_order_perm.
  revert rows total visited t d. induction keys as [|[k leaf] keys IH]; intros rows total visited t d Hok Hno; simpl.
  { intros [= <- _ <- _ <-]. left. exists []. rewrite app_nil_r. split; [done|]. split; [constructor|lia]. }
  intros ([[r1 n1] o] & t1 & d1 & H1 & H)%bind_Done.
  destruct (emit_index_row_frame _ _ _ _ _ _ _ _ _ _ _ Hok H1) as (Hok1 & _ & Hr & Hw).
  assert (own (write_set_ t) (tn, [], k) = None) as Hk by (apply Hno; apply list_elem_of_here).
  destruct o; simpl in H.
  { destruct (emit_index_row_round _ _ _ _ _ _ _ _ _ _ _ _ Hok Hk H1) as [[? _]|[_ Hab]]; [done|].
    right. by injection H as _ _ _ <- _. }
  destruct (emit_index_row_gives _ _ _ _ _ _ _ _ _ _ _ Hok Hk H1) as (new & -> & Hg).
  destruct (IH _ _ _ _ _ Hok1 ltac:(intros k' Hk'; rewrite Hw; apply Hno; by apply list_elem_of_further) H)
    as [(rest & -> & Hm & ->)|Hb]; [left|by right].
  exists (new ++ rest). split; [by rewrite app_assoc|]. split; [|lia]. apply Hg. by eapply materialised_sets.
Qed.

Lemma ScanMerged_source reverse_ tn begin end_ t d n rows t' d' :
  ScanMerged collect reverse_ tn begin end_ [] t d = Done ((Some n, rows), t', d') ->
  scan_source t tn begin end_ reverse_ d rows d'.
Proof using ScanKeys_range.
  intros (r & t1 & d1 & Hc & (u & t2 & d2 & [= _ <- <-] & H)%bind_Done)%bind_Done. unfold call in Hc.
  pose proof (ScanKeys_range reverse_ (PrimaryIndex tn) begin end_ d) as Hlaw.
  destruct (ScanKeys _ _ _ _ _) as [[o vs] d0] eqn:Es. injection Hc as <- <- <-. simpl in Hlaw, H.
  destruct o as [keys|]; [|by apply bind_Done in H as (? & ? & ? & _ & ?)].
  apply bind_Done in H as (t2 & t3 & d3 & [= <- <- <-] & H). set (t2 := set_node_versions _ t) in H.
  destruct (merged_range t2 tn begin end_ reverse_ keys (Hlaw keys eq_refl)) as [[Hord _] Hin].
  destruct (scan_keys_materialised _ _ _ _ _ _ _ _ _ _ _ H) as (new & Hrows & Hm). simpl in Hrows. subst rows.
  left. eexists keys, vs, d0, _. split; [done|]. split; [exact Hord|]. split; [exact Hin|].
  by eapply materialised_sets; [..|exact Hm].
Qed.

Lemma EarlyStop_source reverse_ tn begin e t d n rows t' d' : tx_ok t ->
  HasOwnBaseRowWriteInRange t tn begin (Some e) = false ->
  ScanPrimaryIndexWithEarlyStop collect reverse_ tn begin e [] t d = Done ((Some n, rows), t', d') ->
  scan_source t tn begin (Some e) reverse_ d rows d'.
Proof using range_order_perm ScanRows_range.
  intros Hok Hno (keys & t1 & d1 & Hc & H)%bind_Done. unfold call in Hc.
  destruct (ScanRows_range reverse_ (PrimaryIndex tn) begin e d) as [_ Hr].
  destruct (ScanRows _ _ _ _ _) as [keys0 d0] eqn:Es. injection Hc as -> <- <-. simpl in Hr.
  apply bind_Done in H as ([[rows1 n1] v] & t2 & d2 & He & H).
  assert (∀ k, k ∈ map fst keys -> own (write_set_ t) (tn, [], k) = None) as Hnone.
  { intros k Hk. eapply no_own_write_in_range; [done|]. by apply (proj1 (Forall_forall _ _) Hr). }
  pose proof (emit_rows_materialised _ _ _ _ _ _ _ _ _ _ _ _ Hok Hnone He) as Hm.
  apply bind_Done in H as (r & t3 & d3 & Hend & H). unfold call in Hend. cbn [fst snd] in Hend.
  destruct (ScanRowsEnd v d2) as [r' d0'] eqn:Ee. injection Hend as <- <- <-.
  apply bind_Done in H as (u & t4 & d4 & [= _ <- <-] & H).
  destruct r'.1; [|by apply bind_Done in H as (? & ? & ? & _ & ?)].
  apply bind_Done in H as (ab & t5 & d5 & [= <- <- <-] & H). simpl in H.
  destruct Hm as [(new & Hrows & Hm & ->)|Hab]; [|by rewrite bool_decide_eq_true_2 in H].
  destruct (bool_decide _); [done|]. injection H as _ <- _ <-. simpl in Hrows. subst rows1.
  right. exists e, keys, d0, d2. split; [done|]. split; [|split; [done|split; [done|by rewrite (Ee : ScanRowsEnd (length keys) d2 = _)]]].
  apply elem_of_nil_inv. intros k [Hin Hn]%elem_of_own_keys. by apply Hn, (no_own_write_in_range _ _ begin (Some e)).
Qed.

Lemma ScanWith_source reverse_ tn begin end_ t d n rows t' d' : tx_ok t -> current_table_ t = Some tn ->
  ScanWith collect reverse_ begin end_ [] t d = Done ((Some n, rows), t', d') ->
  scan_source t tn begin end_ reverse_ d rows d'.
Proof using range_order_perm ScanKeys_range ScanRows_range.
  intros Hok Ht (tb & t1 & d1 & He & H)%bind_Done.
  assert (tb = tn ∧ t1 = t ∧ d1 = d) as (-> & -> & ->).
  { apply bind_Done in He as (o & t0 & d0 & [= <- <- <-] & He). rewrite Ht in He. by injection He as <- <- <-. }
  apply bind_Done in H as (t2 & t3 & d3 & [= <- <- <-] & H).
  destruct end_ as [e|]; [|by eapply ScanMerged_source].
  destruct (HasOwnBaseRowWriteInRange t tn begin (Some e)) eqn:Eh; simpl in H; [by eapply ScanMerged_source|].
  by eapply EarlyStop_source.
Qed.

(** Scans leave the sets alone. *)
Lemma EarlyStop_frame {S} f reverse_ tn begin e (st : S) t d r t' d' : tx_ok t ->
  ScanPrimaryIndexWithEarlyStop f reverse_ tn begin e st t d = Done (r, t', d') -> row_frame t t'.
Proof.
  intros Hok. apply row_frame_bind; [done|intros ? ? ?; by apply quiet_row_frame; auto with quiet|].
  intros keys t1 d1 b t2 d2 Hok1. apply row_frame_bind; [done|intros ? ? ?; by apply emit_rows_frame|].
  intros r1 t3 d3 b3 t4 d4 Hok3. apply quiet_row_frame; [quiet|done].
Qed.

Lemma ScanWith_frame {S} f reverse_ begin end_ (st : S) t d r t' d' : tx_ok t ->
  ScanWith f reverse_ begin end_ st t d = Done (r, t', d') -> row_frame t t'.
Proof.
  intros Hok. apply row_frame_bind; [done|intros ? ? ?; by apply quiet_row_frame; auto with quiet|].
  intros tn t1 d1 b t2 d2 Hok1. apply row_frame_bind; [done|intros ? ? ?; by apply quiet_row_frame; auto with quiet|].
  intros t0 t3 d3 b3 t4 d4 Hok3. destruct end_ as [e|]; [|by apply quiet_row_frame; [apply quiet_ScanMerged|]].
  destruct (negb _); [by apply EarlyStop_frame|by apply quiet_row_frame; [apply quiet_ScanMerged|]].
Qed.

End scans.

(** ** Scans of postings *)

Section posting_scans.
Context {D : Type} `{!IndexBase D} `{!ConcurrencyControl D} `{!Catalogue D}.
Hypothesis range_order_perm : ∀ l, range_order l ≡ₚ l.
Hypothesis cc_Read_ok : ∀ key leaf d, item_ok (cc_Read key leaf d).1.1.
Hypothesis cc_ReadUnvalidated_ok : ∀ key leaf d, item_ok (cc_ReadUnvalidated key leaf d).1.1.

Lemma triple_gets_self {A} tb W (k : Tx -> M (D := D) A) R :
  (∀ t, tx_ok t -> triple tb W (fun r w => r = read_set_ t ∧ w = write_set_ t) (k t) R) ->
  triple tb W (fun _ _ => True) (bind (gets (fun t => t)) k) R.
Proof. intros Hk t d a t' d' Hok Ht _ H. exact (Hk t Hok t d a t' d' Hok Ht (conj eq_refl eq_refl) H). Qed.

Context {S : Type} (f : S -> bytestring -> list bytestring -> S * bool).

Lemma ReadSecondaryIndex_aborted index_name key t d a t' d' : current_status_ t = Aborted ->
  ReadSecondaryIndex (D := D) index_name key t d = Done (a, t', d') -> t' = t.
Proof. apply op_aborted. Qed.

Lemma scan_posting_respects reverse_ tb index_name key (st : S) total :
  respects tb nothing (scan_posting (D := D) f reverse_ tb index_name key st total).
Proof.
  apply triple_unless_aborted; [done|]. apply triple_gets_self. intros t Hok.
  destruct (first_in_set (write_set_ t) tb index_name key) as [[i s]|] eqn:Ew.
  - destruct (first_in_set_Some _ _ _ _ _ _ Ew) as [Hi Hn]. destruct Hok as (_ & (_ & Hwok) & _).
    eapply triple_bind with (Q := fun _ _ _ => True).
    + apply triple_Refresh with (n := (tb, index_name, key)); [done| | |done].
      * apply (proj1 (Forall_forall _ _) Hwok). by eapply list_elem_of_lookup_2.
      * intros r w [_ ->]. split; [done|]. split; [done|]. unfold own. simpl. by rewrite Ew.
    + intros s'. apply triple_quiet; [quiet|done].
  - eapply triple_bind with (Q := fun _ _ _ => True); [|intros pks; apply triple_quiet; [quiet|done]].
    eapply triple_spec; [by apply ReadSecondaryIndex_spec|done|done|]. intros ? ? ? ? ?. apply ReadSecondaryIndex_aborted.
Qed.

Lemma scan_postings_respects reverse_ tb index_name keys (st : S) total :
  respects tb nothing (scan_postings (D := D) f reverse_ tb index_name keys st total).
Proof.
  revert st total. induction keys as [|k keys IH]; intros st total; simpl; [apply triple_quiet; [quiet|done]|].
  eapply triple_bind with (Q := fun _ _ _ => True); [by apply scan_posting_respects|].
  intros [[st' n'] [o|]]; simpl; [apply triple_quiet; [quiet|done]|apply IH].
Qed.

Lemma ScanSecondaryIndexWith_spec reverse_ index_name begin end_ (st : S) :
  spec nothing (ScanSecondaryIndexWith (D := D) f reverse_ index_name begin end_ st) (fun _ _ _ _ _ => True).
Proof.
  apply spec_ensure. intros tb. apply triple_quiet_bind; [quiet|]. intros [u|]; [|apply triple_quiet; [quiet|done]].
  apply triple_quiet_bind; [quiet|]. intros [[keys|] vs]; simpl; (apply triple_quiet_bind; [quiet|intros []]);
    [|apply triple_quiet; [quiet|done]].
  apply triple_quiet_bind; [quiet|]. intros t. apply scan_postings_respects.
Qed.

End posting_scans.
