(* ===== verification/TxOps.v ===== *)
(** * Whole transactions

    A user's transaction is a sequence of the operations of [Transaction]
    (src/include/lineairdb/transaction.h), each a call of [Transaction::Impl].
    What one operation leaves in the read and write sets is what the later
    ones see: a transaction reads its own writes, a row it has seen does not
    change under it, and the posting lists it reads have its own additions and
    removals. *)

From stdpp Require Import strings.
From S2P Require Import Prelude PackedKeys Types DataItem TxSet StdAlgo Transaction TxFrame TxScan.

(** ** The interface *)

Abbreviation rows := (list (bytestring * Value)).
Abbreviation postings := (list (bytestring * list bytestring)).

(** The operations and their arguments.  The callback of a scan keeps what it
    is given and decides from all of it whether to stop. *)
Inductive Op : Type :=
  | DoSetTable (table_name : bytestring)
  | DoRead (key : bytestring)
  | DoReadSecondaryIndex (index_name key : bytestring)
  | DoWrite (key : bytestring) (value : option bytestring)
  | DoInsert (key : bytestring) (value : option bytestring)
  | DoUpdate (key : bytestring) (value : option bytestring)
  | DoDelete (key : bytestring)
  | DoWriteSecondaryIndex (index_name key primary_key : bytestring)
  | DoDeleteSecondaryIndex (index_name secondary_key primary_key : bytestring)
  | DoUpdateSecondaryIndex (index_name old_secondary_key new_secondary_key primary_key : bytestring)
  | DoScan (reverse_ : bool) (begin : bytestring) (end_ : option bytestring) (stop : rows -> bool)
  | DoScanSecondaryIndex (reverse_ : bool) (index_name begin : bytestring) (end_ : option bytestring)
      (stop : postings -> bool)
  | DoAbort.

(** What they return. *)
Inductive Answer : Type :=
  | AnswerVoid
  | AnswerBool (b : bool)
  | AnswerValue (v : Value)
  | AnswerKeys (primary_keys : list bytestring)
  | AnswerRows (count : option Z) (l : rows)
  | AnswerPostings (count : option Z) (l : postings).

Section operations.
Context {D : Type} `{!IndexBase D} `{!ConcurrencyControl D} `{!Catalogue D}.

Notation "x <- m ;; k" := (bind m (fun x => k)) (at level 100, m at next level, right associativity).
Notation "m ;;; k" := (bind m (fun _ => k)) (at level 100, right associativity).

Definition callback {A} (stop : list (bytestring * A) -> bool) (l : list (bytestring * A)) (key : bytestring) (a : A)
    : list (bytestring * A) * bool := (l ++ [(key, a)], stop (l ++ [(key, a)])).

Definition exec (op : Op) : M (D := D) Answer :=
  match op with
  | DoSetTable n => b <- SetTable n ;; ret (AnswerBool b)
  | DoRead k => v <- Read k ;; ret (AnswerValue v)
  | DoReadSecondaryIndex ix k => l <- ReadSecondaryIndex ix k ;; ret (AnswerKeys l)
  | DoWrite k v => Write k v false ;;; ret AnswerVoid
  | DoInsert k v => TxInsert k v ;;; ret AnswerVoid
  | DoUpdate k v => TxUpdate k v ;;; ret AnswerVoid
  | DoDelete k => TxDelete k ;;; ret AnswerVoid
  | DoWriteSecondaryIndex ix k pk => WriteSecondaryIndex ix k pk ;;; ret AnswerVoid
  | DoDeleteSecondaryIndex ix k pk => DeleteSecondaryIndex ix k pk ;;; ret AnswerVoid
  | DoUpdateSecondaryIndex ix k k' pk => UpdateSecondaryIndex ix k k' pk ;;; ret AnswerVoid
  | DoScan rv b e stop =>
      r <- (if rv then ScanReverse (callback stop) b e [] else Scan (callback stop) b e []) ;;
      ret (AnswerRows r.1 r.2)
  | DoScanSecondaryIndex rv ix b e stop =>
      r <- (if rv then ScanSecondaryIndexReverse (callback stop) ix b e []
            else ScanSecondaryIndex (callback stop) ix b e []) ;;
      ret (AnswerPostings r.1 r.2)
  | DoAbort => Abort ;;; ret AnswerVoid
  end.

Fixpoint run (ops : list Op) : M (D := D) (list Answer) :=
  match ops with
  | [] => ret []
  | op :: ops' => a <- exec op ;; l <- run ops' ;; ret (a :: l)
  end.

End operations.

(** The row an operation writes, with the value it gives it. *)
Definition row_write (op : Op) : option (bytestring * option bytestring) :=
  match op with
  | DoWrite k v | DoInsert k v | DoUpdate k v => Some (k, v)
  | DoDelete k => Some (k, None)
  | _ => None
  end.

(** The posting an operation adds or removes. *)
Definition posting_write (op : Op) : option (bytestring * bytestring * bytestring * SecondaryIndexOp) :=
  match op with
  | DoWriteSecondaryIndex ix k pk => Some (ix, k, pk, OpAdd)
  | DoUpdateSecondaryIndex ix _ k pk => Some (ix, k, pk, OpAdd)
  | DoDeleteSecondaryIndex ix k pk => Some (ix, k, pk, OpRemove)
  | _ => None
  end.

(** The entries of an index an operation may write, in whatever table. *)
Definition touches (op : Op) (n : name) : Prop :=
  match op with
  | DoWrite k _ | DoInsert k _ | DoUpdate k _ | DoDelete k => named [] k n
  | DoWriteSecondaryIndex ix k _ | DoDeleteSecondaryIndex ix k _ => named ix k n
  | DoUpdateSecondaryIndex ix k k' _ => either (named ix k) (named ix k') n
  | _ => False
  end.

#[global] Instance touches_dec op n : Decision (touches op n).
Proof. destruct op; simpl; unfold either, named; apply _. Defined.

(** Primary keys are byte strings whose size a signed 64-bit integer holds. *)
Definition op_ok (op : Op) : Prop :=
  match op with
  | DoWriteSecondaryIndex _ _ pk | DoDeleteSecondaryIndex _ _ pk | DoUpdateSecondaryIndex _ _ _ pk => string_ok pk
  | _ => True
  end.

Definition untouched (ops : list Op) (n : name) : Prop := Forall (fun op => ¬ touches op n) ops.

(** ** What the operations leave alone *)

Section whole.
Context {D : Type} `{!IndexBase D} `{!ConcurrencyControl D} `{!Catalogue D}.
Hypothesis range_order_perm : ∀ l, range_order l ≡ₚ l.
Hypothesis cc_Read_ok : ∀ key leaf d, item_ok (cc_Read key leaf d).1.1.
Hypothesis cc_ReadUnvalidated_ok : ∀ key leaf d, item_ok (cc_ReadUnvalidated key leaf d).1.1.

(** A frame, whatever the current table. *)
Definition kept (W : name -> Prop) (t t' : Tx) : Prop := frame W (set_table [] t) (set_table [] t').

Lemma frame_kept W t t' : frame W t t' -> kept W t t'.
Proof. intros []. by split. Qed.

Lemma kept_trans (W W1 W2 : name -> Prop) t t1 t2 : tx_ok t -> tx_ok t1 -> (∀ n, W1 n -> W n) -> (∀ n, W2 n -> W n) ->
  kept W1 t t1 -> kept W2 t1 t2 -> kept W t t2.
Proof.
  intros Hok Hok1 H1 H2 Hf1 Hf2. apply frame_trans with (set_table [] t1); [exact Hok|exact Hok1| |].
  - destruct Hf1. split; auto.
  - destruct Hf2. split; auto.
Qed.

Lemma tx_ok_new : tx_ok (D := D) Tx_new.
Proof. split; [split; apply index_ok_empty|]. repeat split; constructor. Qed.

Lemma then_Done {A B} (m : M (D := D) A) (f : A -> B) t d b t' d' :
  bind m (fun a => ret (f a)) t d = Done (b, t', d') -> ∃ a, m t d = Done (a, t', d') ∧ b = f a.
Proof. intros (a & t1 & d1 & H & [= <- <- <-])%bind_Done. by exists a. Qed.

Lemma spec_kept {A} W (m : M (D := D) A) R t d a t' d' : spec W m R -> tx_ok t -> m t d = Done (a, t', d') ->
  tx_ok t' ∧ kept W t t'.
Proof. intros Hs Hok H. destruct (Hs _ _ _ _ _ Hok H) as (? & ? & _). split; [done|by apply frame_kept]. Qed.

Lemma quiet_kept {A} W (m : M (D := D) A) t d a t' d' : quiet m -> tx_ok t -> m t d = Done (a, t', d') ->
  tx_ok t' ∧ kept W t t'.
Proof. intros Hs Hok H. destruct (quiet_frame W m _ _ _ _ _ Hs Hok H) as (? & ? & _). split; [done|by apply frame_kept]. Qed.

Lemma SetTable_kept n t d b t' d' : tx_ok t -> SetTable n t d = Done (b, t', d') -> tx_ok t' ∧ kept nothing t t'.
Proof.
  intros Hok (f & t1 & d1 & H1 & H)%bind_Done. unfold call in H1. destruct (GetTable n d) as [f' d0].
  injection H1 as -> <- <-. destruct f; [apply then_Done in H as ([] & [= <- _] & _)|injection H as _ <- _].
  all: split; [exact Hok|apply frame_refl].
Qed.

Lemma row_frame_kept t t' : row_frame t t' -> tx_ok t' ∧ kept nothing t t'.
Proof. intros (? & ? & _). split; [done|by apply frame_kept]. Qed.

Lemma exec_kept op t d a t' d' : op_ok op -> tx_ok t -> exec op t d = Done (a, t', d') ->
  tx_ok t' ∧ kept (touches op) t t'.
Proof.
  intros Hop Hok H. destruct op as [n|k|ix k|k v|k v|k v|k|ix k pk|ix k pk|ix k k' pk|[] b e s|[] ix b e s|]; simpl in H;
    apply then_Done in H as (x & H & _); simpl.
  - by eapply SetTable_kept.
  - by eapply spec_kept; [apply Read_spec| |].
  - by eapply spec_kept; [apply ReadSecondaryIndex_spec| |].
  - by eapply spec_kept; [apply Write_spec| |].
  - by eapply spec_kept; [apply TxInsert_spec| |].
  - by eapply spec_kept; [apply TxUpdate_spec| |].
  - by eapply spec_kept; [apply TxDelete_spec| |].
  - by eapply spec_kept; [apply WriteSecondaryIndex_spec| |].
  - by eapply spec_kept; [apply DeleteSecondaryIndex_spec| |].
  - by eapply spec_kept; [apply UpdateSecondaryIndex_spec| |].
  - eapply row_frame_kept, ScanWith_frame; done.
  - eapply row_frame_kept, ScanWith_frame; done.
  - by eapply spec_kept; [apply ScanSecondaryIndexWith_spec| |].
  - by eapply spec_kept; [apply ScanSecondaryIndexWith_spec| |].
  - by eapply quiet_kept; [apply quiet_Abort| |].
Qed.

Lemma run_kept ops t d l t' d' : Forall op_ok ops -> tx_ok t -> run ops t d = Done (l, t', d') ->
  tx_ok t' ∧ kept (fun n => ∃ op, op ∈ ops ∧ touches op n) t t'.
Proof.
  intros Hops. revert t d l t' d'. induction Hops as [|op ops Hop Hops IH]; intros t d l t' d' Hok; simpl.
  { intros [= _ <- _]. split; [done|]. apply frame_refl. }
  intros (a & t1 & d1 & H1 & (l' & H & _)%then_Done)%bind_Done.
  destruct (exec_kept _ _ _ _ _ _ Hop Hok H1) as [Hok1 Hk1]. destruct (IH _ _ _ _ _ Hok1 H) as [Hok' Hk'].
  split; [done|]. eapply kept_trans; [exact Hok|exact Hok1| | |exact Hk1|exact Hk'].
  - intros n Hn. exists op. split; [apply list_elem_of_here|done].
  - intros n (op' & Hin & Hn). exists op'. split; [by apply list_elem_of_further|done].
Qed.

(** ** Rows across operations *)

Lemma kept_row W t t' tn k s : tx_ok t -> kept W t t' -> ¬ W (tn, [], k) -> own (write_set_ t) (tn, [], k) = Some s ->
  ∃ s', own (write_set_ t') (tn, [], k) = Some s' ∧ copy_value s' = copy_value s.
Proof.
  intros (_ & _ & _ & Hnd) Hk Hn Hs. pose proof (fr_write _ _ _ Hk _ Hn) as He. simpl in He. rewrite Hs in He.
  destruct (own (write_set_ t') (tn, [], k)) as [s'|]; [|done]. exists s'. split; [done|].
  destruct He as (_ & _ & Hc). unfold copy_value. rewrite Hc; [done|].
  apply own_name in Hs as [= _ Hi _]; [|done]. unfold IsNonUniqueSecondaryIndexDeltaWrite. by rewrite Hi.
Qed.

Lemma kept_no_row W t t' n : kept W t t' -> ¬ W n -> own (write_set_ t) n = None -> own (write_set_ t') n = None.
Proof.
  intros Hk Hn Hs. pose proof (fr_write _ _ _ Hk _ Hn) as He. simpl in He. rewrite Hs in He.
  by destruct (own (write_set_ t') n).
Qed.

Lemma kept_status W t t' : kept W t t' -> current_status_ t' <> Aborted -> current_status_ t <> Aborted.
Proof. intros Hk Ha H. by apply Ha, (fr_abort _ _ _ Hk). Qed.

Lemma exec_row_write op k v t d a t' d' : row_write op = Some (k, v) -> tx_ok t -> current_status_ t' <> Aborted ->
  exec op t d = Done (a, t', d') ->
  ∃ tn s, current_table_ t' = Some tn ∧ own (write_set_ t') (tn, [], k) = Some s ∧ visible (copy_value s) = given v.
Proof.
  intros Hop Hok Ha H.
  assert (∃ m : M (D := D) unit, spec (named [] k) m (write_post k v) ∧ m t d = Done (tt, t', d')) as (m & Hm & Hr).
  { destruct op; simpl in Hop; try discriminate; injection Hop as -> <-; simpl in H; apply then_Done in H as ([] & H & _);
      (eexists; split; [|exact H]);
      by first [apply Write_spec|apply TxInsert_spec|apply TxUpdate_spec|apply TxDelete_spec]. }
  destruct (Hm _ _ _ _ _ Hok Hr) as (_ & Hf & HR). assert (current_status_ t <> Aborted) as Hat.
  { intros E. by apply Ha, (fr_abort _ _ _ Hf). }
  destruct (HR Hat) as (tn & Htn & [Hab|(s & Hs & Hv)]); [by apply bool_decide_eq_true in Hab|]. by exists tn, s.
Qed.

Lemma untouched_kept ops n : untouched ops n -> ¬ ∃ op, op ∈ ops ∧ touches op n.
Proof. intros Hu (op & Hin & Hn). by apply (proj1 (Forall_forall _ _) Hu op Hin). Qed.

(** A read of a row that the sets know. *)
Lemma Read_known k tn t d v t' d' : tx_ok t -> current_status_ t <> Aborted -> current_table_ t = Some tn ->
  Read k t d = Done (v, t', d') -> read_post k tn v (is_aborted t') (read_set_ t') (write_set_ t') ∧ frame nothing t t'.
Proof.
  intros Hok Ha Ht H. destruct (Read_spec range_order_perm cc_Read_ok k _ _ _ _ _ Hok H) as (_ & Hf & HR).
  destruct (HR Ha) as (tn' & Ht' & Hp). rewrite (fr_table _ _ _ Hf _ Ht) in Ht'. by injection Ht' as <-.
Qed.

Lemma Read_own_write k tn s t d v t' d' : tx_ok t -> current_status_ t <> Aborted -> current_table_ t = Some tn ->
  own (write_set_ t) (tn, [], k) = Some s -> Read k t d = Done (v, t', d') -> v = copy_value s.
Proof.
  intros Hok Ha Ht Hs H. destruct (Read_known _ _ _ _ _ _ _ Hok Ha Ht H) as [Hp Hf].
  apply frame_kept in Hf. destruct (kept_row _ _ _ _ _ _ Hok Hf (fun x => x) Hs) as (s' & Hs' & Hv).
  unfold read_post in Hp. rewrite Hs' in Hp. congruence.
Qed.

Lemma Read_own_read k tn s t d v t' d' : tx_ok t -> current_status_ t <> Aborted -> current_table_ t = Some tn ->
  own (write_set_ t) (tn, [], k) = None -> own (read_set_ t) (tn, [], k) = Some s -> Read k t d = Done (v, t', d') ->
  visible v = visible (copy_value s).
Proof.
  intros Hok Ha Ht Hw Hs H. destruct (Read_known _ _ _ _ _ _ _ Hok Ha Ht H) as [Hp Hf].
  pose proof (fr_read _ _ _ Hf _ _ Hs) as Hr.
  pose proof (kept_no_row _ _ _ _ (frame_kept _ _ _ Hf) (fun x => x) Hw) as Hw'.
  unfold read_post in Hp. rewrite Hw' in Hp. destruct (own (read_set_ t') (tn, [], k)) as [s'|]; [|done].
  simpl in Hr. injection Hr as Hr. unfold copy_value in Hp |- *. by rewrite Hr in Hp.
Qed.

(** ** Postings across operations *)

Lemma exec_posting_write op ix k pk o t d a t' d' : op_ok op -> posting_write op = Some (ix, k, pk, o) -> tx_ok t ->
  current_status_ t' <> Aborted -> exec op t d = Done (a, t', d') ->
  ∃ tn, current_table_ t' = Some tn ∧ posted ix k pk o tn (write_set_ t').
Proof.
  intros Hpk Hop Hok Ha H.
  assert (∃ (m : M (D := D) unit) W, spec W m (fun tn _ ab _ w => posting_post ix k pk o tn ab w) ∧
            m t d = Done (tt, t', d')) as (m & W & Hm & Hr).
  { destruct op; simpl in Hop; try discriminate; injection Hop as -> -> -> <-; simpl in H;
      apply then_Done in H as ([] & H & _); (eexists _, _; split; [|exact H]).
    - by apply WriteSecondaryIndex_spec.
    - by apply DeleteSecondaryIndex_spec.
    - by apply UpdateSecondaryIndex_spec. }
  destruct (Hm _ _ _ _ _ Hok Hr) as (_ & Hf & HR). assert (current_status_ t <> Aborted) as Hat.
  { intros E. by apply Ha, (fr_abort _ _ _ Hf). }
  destruct (HR Hat) as (tn & Htn & [Hab|Hp]); [by apply bool_decide_eq_true in Hab|]. by exists tn.
Qed.

Lemma kept_posted W t t' ix k pk o tn : kept W t t' -> ¬ W (tn, ix, k) -> posted ix k pk o tn (write_set_ t) ->
  posted ix k pk o tn (write_set_ t').
Proof.
  intros Hk Hn (s & Hs & Ho). pose proof (fr_write _ _ _ Hk _ Hn) as He. simpl in He. rewrite Hs in He.
  destruct (own (write_set_ t') (tn, ix, k)) as [s'|] eqn:Es'; [|done]. exists s'. split; [done|].
  destruct He as (Hd & _). by rewrite Hd.
Qed.

(** The posting list of a write has the last recorded operation on a key. *)
Lemma posted_member t ix k pk o tn s : tx_ok t -> posted ix k pk o tn (write_set_ t) ->
  own (write_set_ t) (tn, ix, k) = Some s ->
  match o with OpAdd => pk ∈ primary_keys (Snapshot.data_item_copy s) | OpRemove => pk ∉ primary_keys (Snapshot.data_item_copy s) | _ => True end.
Proof.
  intros (_ & (_ & Hw) & _ & Hnd) (s' & Hs' & Ho) Hs. rewrite Hs in Hs'. injection Hs' as <-.
  apply own_Some in Hs as [Hin _]; [|done].
  destruct (proj1 (Forall_forall _ _) Hw s Hin) as (_ & _ & ks & Hks & Hm). specialize (Hm pk). rewrite Ho in Hm.
  unfold primary_keys. rewrite (primary_keys_vector_spec _ ks Hks). destruct o; simpl in Hm; tauto.
Qed.

Lemma ReadSecondaryIndex_own ix k pk o tn t d l t' d' : tx_ok t -> current_status_ t <> Aborted ->
  current_status_ t' <> Aborted -> current_table_ t = Some tn -> posted ix k pk o tn (write_set_ t) ->
  ReadSecondaryIndex ix k t d = Done (l, t', d') ->
  match o with OpAdd => pk ∈ l | OpRemove => pk ∉ l | _ => True end.
Proof.
  intros Hok Ha Ha' Ht Hp H.
  destruct (ReadSecondaryIndex_spec range_order_perm cc_Read_ok ix k _ _ _ _ _ Hok H) as (Hok' & Hf & HR).
  destruct (HR Ha) as (tn' & Ht' & [Hab|Hl]); [by apply bool_decide_eq_true in Hab|].
  rewrite (fr_table _ _ _ Hf _ Ht) in Ht'. injection Ht' as <-.
  pose proof (kept_posted _ _ _ _ _ _ _ _ (frame_kept _ _ _ Hf) (fun x => x) Hp) as Hp'.
  destruct Hp' as (s & Hs & Ho). rewrite (Hl s Hs). by eapply posted_member; [exact Hok'|exists s|].
Qed.

(** ** The properties *)

(** After any operations each item occurs at most once in the read set
    and at most once in the write set, the position indexes agree with the
    sets, and every write holds the additions and removals recorded for it:
    what the concurrency control protocols assume of the sets. *)
Theorem sets_name_items_once ops d0 l t d : Forall op_ok ops -> run ops Tx_new d0 = Done (l, t, d) ->
  NoDup (map snapshot_name (read_set_ t)) ∧ NoDup (map snapshot_name (write_set_ t)) ∧
  index_ok std_hash (read_set_ t) (read_index_ t) ∧ index_ok std_hash (write_set_ t) (write_index_ t) ∧
  Forall posting_ok (write_set_ t).
Proof.
  intros Hops H. destruct (run_kept _ _ _ _ _ _ Hops tx_ok_new H) as [(? & (_ & ?) & ?) _]. tauto.
Qed.

Lemma run_ok ops d0 l t d : Forall op_ok ops -> run ops Tx_new d0 = Done (l, t, d) -> tx_ok (D := D) t.
Proof. intros Hops H. by destruct (run_kept _ _ _ _ _ _ Hops tx_ok_new H). Qed.

(** The value of a row after a write of it and operations that leave it
    alone. *)
Lemma own_write_read op key value after t0 d t1 d1 a l2 t2 d2 v t3 d3 :
  tx_ok (D := D) t0 -> Forall op_ok after -> row_write op = Some (key, value) ->
  exec op t0 d = Done (a, t1, d1) ->
  (∀ tn, untouched after (tn, [], key)) -> run after t1 d1 = Done (l2, t2, d2) ->
  current_table_ t2 = current_table_ t1 -> current_status_ t2 <> Aborted ->
  Read key t2 d2 = Done (v, t3, d3) -> visible v = given value.
Proof.
  intros Hok0 Haf Hop Hr1 Hu Hr2 Htb Ha Hr3. assert (op_ok op) as Hopok by (by destruct op).
  destruct (exec_kept _ _ _ _ _ _ Hopok Hok0 Hr1) as [Hok1 _]. destruct (run_kept _ _ _ _ _ _ Haf Hok1 Hr2) as [Hok2 Hk2].
  pose proof (kept_status _ _ _ Hk2 Ha) as Ha1.
  destruct (exec_row_write _ _ _ _ _ _ _ _ Hop Hok0 Ha1 Hr1) as (tn & s & Htn & Hs & Hv).
  destruct (kept_row _ _ _ _ _ _ Hok1 Hk2 (untouched_kept _ _ (Hu tn)) Hs) as (s' & Hs' & Hv').
  rewrite Htn in Htb. by rewrite (Read_own_write _ _ _ _ _ _ _ _ Hok2 Ha Htb Hs' Hr3), Hv'.
Qed.

(** C7. A transaction reads its own writes: after any history, a Write,
    Insert, Update or Delete of a row, and any further operations that do not
    write that key, a Read of it on the same table returns exactly the value
    given (nothing for a delete), whatever the protocol, the index and the
    other threads do. *)
Theorem reads_own_writes before op key value after d0 l0 t0 d t1 d1 a l2 t2 d2 v t3 d3 :
  Forall op_ok before -> Forall op_ok after -> row_write op = Some (key, value) ->
  run before Tx_new d0 = Done (l0, t0, d) -> exec op t0 d = Done (a, t1, d1) ->
  (∀ tn, untouched after (tn, [], key)) -> run after t1 d1 = Done (l2, t2, d2) ->
  current_table_ t2 = current_table_ t1 -> current_status_ t2 <> Aborted ->
  Read key t2 d2 = Done (v, t3, d3) -> visible v = given value.
Proof.
  intros Hb Haf Hop Hr0. exact (own_write_read op key value after t0 d _ _ _ _ _ _ _ _ _ (run_ok _ _ _ _ _ Hb Hr0) Haf Hop).
Qed.

(** C31. Repeatable reads: a row that a transaction has seen reads the same
    again after any operations of its own that do not write that key, whatever
    the other threads have done to it in between. *)
Theorem reads_repeat before key after d0 l0 t0 d v t1 d1 l2 t2 d2 v' t3 d3 :
  Forall op_ok before -> Forall op_ok after ->
  run before Tx_new d0 = Done (l0, t0, d) -> Read key t0 d = Done (v, t1, d1) -> visible v <> None ->
  (∀ tn, untouched after (tn, [], key)) -> run after t1 d1 = Done (l2, t2, d2) ->
  current_table_ t2 = current_table_ t1 -> current_status_ t2 <> Aborted ->
  Read key t2 d2 = Done (v', t3, d3) -> visible v' = visible v.
Proof.
  intros Hb Haf Hr0 Hr1 Hv Hu Hr2 Htb Ha Hr3. pose proof (run_ok _ _ _ _ _ Hb Hr0) as Hok0.
  destruct (Read_spec range_order_perm cc_Read_ok key _ _ _ _ _ Hok0 Hr1) as (Hok1 & Hf1 & HR).
  destruct (run_kept _ _ _ _ _ _ Haf Hok1 Hr2) as [Hok2 Hk2]. pose proof (kept_status _ _ _ Hk2 Ha) as Ha1.
  destruct (HR (kept_status _ _ _ (frame_kept _ _ _ Hf1) Ha1)) as (tn & Htn & Hp). rewrite Htn in Htb.
  pose proof (untouched_kept _ _ (Hu tn)) as Hut. unfold read_post in Hp.
  destruct (own (write_set_ t1) (tn, [], key)) as [s|] eqn:Ew.
  - destruct (kept_row _ _ _ _ _ _ Hok1 Hk2 Hut Ew) as (s' & Hs' & Hv').
    by rewrite (Read_own_write _ _ _ _ _ _ _ _ Hok2 Ha Htb Hs' Hr3), Hv', Hp.
  - destruct (own (read_set_ t1) (tn, [], key)) as [s|] eqn:Er; [|by rewrite Hp in Hv].
    pose proof (kept_no_row _ _ _ _ Hk2 Hut Ew) as Hw'. pose proof (fr_read _ _ _ Hk2 _ _ Er) as Hr. simpl in Hr.
    destruct (own (read_set_ t2) (tn, [], key)) as [s'|] eqn:Er2; [|done]. simpl in Hr. injection Hr as Hr.
    rewrite (Read_own_read _ _ _ _ _ _ _ _ Hok2 Ha Htb Hw' Er2 Hr3), Hp. unfold copy_value. by rewrite Hr.
Qed.

(** A transaction reads its own postings: after WriteSecondaryIndex or
    UpdateSecondaryIndex the primary key is in the posting list that
    ReadSecondaryIndex returns, after DeleteSecondaryIndex it is not, also
    when other operations came in between and the list was rebuilt from a
    newer version of the item. *)
Theorem reads_own_postings before op index_name key primary_key o after d0 l0 t0 d t1 d1 a l2 t2 d2 l t3 d3 :
  Forall op_ok before -> op_ok op -> Forall op_ok after -> posting_write op = Some (index_name, key, primary_key, o) ->
  run before Tx_new d0 = Done (l0, t0, d) -> exec op t0 d = Done (a, t1, d1) ->
  (∀ tn, untouched after (tn, index_name, key)) -> run after t1 d1 = Done (l2, t2, d2) ->
  current_table_ t2 = current_table_ t1 ->
  ReadSecondaryIndex index_name key t2 d2 = Done (l, t3, d3) -> current_status_ t3 <> Aborted ->
  match o with OpAdd => primary_key ∈ l | OpRemove => primary_key ∉ l | _ => True end.
Proof.
  intros Hb Hopok Haf Hop Hr0 Hr1 Hu Hr2 Htb Hr3 Ha. pose proof (run_ok _ _ _ _ _ Hb Hr0) as Hok0.
  destruct (exec_kept _ _ _ _ _ _ Hopok Hok0 Hr1) as [Hok1 _]. destruct (run_kept _ _ _ _ _ _ Haf Hok1 Hr2) as [Hok2 Hk2].
  destruct (ReadSecondaryIndex_spec range_order_perm cc_Read_ok index_name key _ _ _ _ _ Hok2 Hr3) as (_ & Hf3 & _).
  pose proof (kept_status _ _ _ (frame_kept _ _ _ Hf3) Ha) as Ha2. pose proof (kept_status _ _ _ Hk2 Ha2) as Ha1.
  destruct (exec_posting_write _ _ _ _ _ _ _ _ _ _ Hopok Hop Hok0 Ha1 Hr1) as (tn & Htn & Hp). rewrite Htn in Htb.
  eapply ReadSecondaryIndex_own; [exact Hok2|done|exact Ha|exact Htb| |exact Hr3].
  eapply kept_posted; [exact Hk2|by apply untouched_kept|exact Hp].
Qed.

(** C30. Over an index that gives the keys of a range in order, each once and
    inside the range, a scan that is never cancelled and succeeds returns the
    keys in order, each once and inside the range, and counts them; a row the
    transaction has written appears with the written value, exactly if it is
    not deleted, and a row it has read with the value read. Nothing is dropped
    or invented: the rows are, key by key, those of the keys that the index
    found for the range and of the write set, each either known to the
    transaction or read by ReadDirect of the protocol in the item of the key
    in the state that the scan has reached there, and left out exactly if it
    is deleted or absent. *)
Theorem scans_see_own_writes before reverse_ begin end_ d0 l0 t d tn n rows t' d' :
  (∀ reverse_ ix begin end_ d keys, (ScanKeys reverse_ ix begin end_ d).1.1 = Some keys ->
     range_keys reverse_ begin end_ keys) ->
  (∀ reverse_ ix begin end_ d,
     range_keys reverse_ begin (Some end_) (map fst (ScanRows reverse_ ix begin end_ d).1)) ->
  Forall op_ok before -> run before Tx_new d0 = Done (l0, t, d) -> current_table_ t = Some tn ->
  exec (DoScan reverse_ begin end_ (fun _ => false)) t d = Done (AnswerRows (Some n) rows, t', d') ->
  scan_result t tn begin end_ reverse_ n rows ∧ scan_source t tn begin end_ reverse_ d rows d'.
Proof.
  intros Hkeys Hrows Hb Hr0 Ht H. pose proof (run_ok _ _ _ _ _ Hb Hr0) as Hok. simpl in H.
  apply then_Done in H as ([o l] & H & [= <- <-]).
  destruct reverse_; (split; [by eapply ScanWith_result|by eapply ScanWith_source]).
Qed.

(** C35. A Read of a key the index has no entry for returns (nullptr, 0) and
    leaves no trace in the read set, the write set or the node versions, so
    nothing makes the absence repeatable or validates it at commit. *)
Theorem absent_reads_leave_no_trace before key d0 l0 t d tn :
  Forall op_ok before -> run before Tx_new d0 = Done (l0, t, d) -> current_status_ t <> Aborted ->
  current_table_ t = Some tn -> own_row t tn key = None -> (Get (PrimaryIndex tn) key d).1 = None ->
  ∃ t', Read key t d = Done (null_value, t', (Get (PrimaryIndex tn) key d).2) ∧
    read_set_ t' = read_set_ t ∧ write_set_ t' = write_set_ t ∧ node_version_set_ t' = node_version_set_ t.
Proof.
  intros Hb Hr0 Ha Ht Hown Hg. destruct (run_ok _ _ _ _ _ Hb Hr0) as ([Hri Hwi] & _).
  unfold own_row, own in Hown. simpl in Hown.
  destruct (first_in_set (write_set_ t) tn [] key) as [|] eqn:Ew; [done|].
  destruct (first_in_set (read_set_ t) tn [] key) as [|] eqn:Er; [done|].
  unfold Read, bind, IsAborted, gets. rewrite bool_decide_eq_false_2 by done.
  unfold EnsureCurrentTable, bind, gets. rewrite Ht. unfold find_write, bind, gets, ret.
  destruct (FindInSet_spec std_hash range_order range_order_perm _ _ tn [] key Hwi) as [Hfw Hiw].
  destruct (FindInSet _ _ (write_set_ t) _ _ _ _) as [o iw]. simpl in Hfw, Hiw.
  replace (match o with Some i => (λ s, (i, s)) <$> write_set_ t !! i | None => None end) with (@None (nat * Snapshot.t))
    by (unfold first_in_set in Ew; by rewrite <- Hfw in Ew). simpl.
  unfold find_read, bind, gets, ret. simpl.
  destruct (FindInSet_spec std_hash range_order range_order_perm _ _ tn [] key Hri) as [Hfr Hir].
  destruct (FindInSet _ _ (read_set_ t) _ _ _ _) as [o' ir]. simpl in Hfr, Hir.
  replace (match o' with Some i => (λ s, (i, s)) <$> read_set_ t !! i | None => None end) with (@None (nat * Snapshot.t))
    by (unfold first_in_set in Er; by rewrite <- Hfr in Er). simpl.
  unfold call. destruct (Get (PrimaryIndex tn) key d) as [g d']. simpl in Hg. subst g. by eexists.
Qed.

End whole.
