(* ===== verification/TxTotal.v ===== *)
(** * How an operation can end

    Every operation ends.  On rows it returns; on postings it returns or
    throws [std::length_error], and no assertion fails, as long as an index
    finds what has just been put into it and the anonymous table exists.  An
    operation on an aborted transaction returns at once and changes nothing. *)

From stdpp Require Import strings.
From S2P Require Import Prelude PackedKeys Types DataItem TxSet StdAlgo Transaction TxFrame TxScan TxOps.

(** The operations that rebuild a posting list. *)
Definition packs (op : Op) : bool :=
  match op with
  | DoReadSecondaryIndex _ _ | DoWriteSecondaryIndex _ _ _ | DoDeleteSecondaryIndex _ _ _
  | DoUpdateSecondaryIndex _ _ _ _ | DoScanSecondaryIndex _ _ _ _ _ => true
  | _ => false
  end.

(** The operations that look at the status first, and what they return when
    the transaction has aborted. *)
Definition refused (op : Op) : option Answer :=
  match op with
  | DoRead _ => Some (AnswerValue null_value)
  | DoReadSecondaryIndex _ _ => Some (AnswerKeys [])
  | DoWrite _ _ | DoInsert _ _ | DoUpdate _ _ | DoDelete _ | DoWriteSecondaryIndex _ _ _
  | DoDeleteSecondaryIndex _ _ _ | DoUpdateSecondaryIndex _ _ _ _ | DoAbort => Some AnswerVoid
  | DoSetTable _ | DoScan _ _ _ _ | DoScanSecondaryIndex _ _ _ _ _ => None
  end.

Section total.
Context {D : Type} `{!IndexBase D} `{!ConcurrencyControl D} `{!Catalogue D}.

(** A computation that returns, or, when allowed, throws. *)
Definition ends {A} (throws : bool) (m : M (D := D) A) : Prop := ∀ t d,
  match m t d with Done _ => True | LengthError _ => throws = true | AssertionFailed => False end.

Lemma ends_bind {A B} throws (m : M (D := D) A) (k : A -> M B) :
  ends throws m -> (∀ a, ends throws (k a)) -> ends throws (bind m k).
Proof.
  intros Hm Hk t d. unfold bind. specialize (Hm t d). destruct (m t d) as [[[a t'] d']| |]; [apply Hk|done|done].
Qed.

Lemma ends_ret {A} throws (a : A) : ends throws (ret a).
Proof. done. Qed.
Lemma ends_gets {A} throws (f : Tx -> A) : ends throws (gets f).
Proof. done. Qed.
Lemma ends_modify throws f : ends throws (modify f).
Proof. done. Qed.
Lemma ends_call {A} throws (f : D -> A * D) : ends throws (call f).
Proof. intros t d. unfold call. by destruct (f d). Qed.
Lemma ends_lift {A} (o : outcome A) : ends true (lift o).
Proof. intros t d. unfold lift. by destruct o. Qed.

End total.

Create HintDb ends discriminated.
#[export] Hint Resolve ends_ret ends_gets ends_modify ends_call ends_lift : ends.

(** Walks through a computation that binds and branches. *)
Ltac ends :=
  repeat first
    [ solve [auto with ends]
    | apply ends_bind; [|intros ?]
    | match goal with |- ends _ (if ?b then _ else _) => destruct b end
    | match goal with |- ends _ (match ?x with _ => _ end) => destruct x end
    | match goal with |- ends _ (let '(_, _) := ?x in _) => destruct x end ].

Section operations.
Context {D : Type} `{!IndexBase D} `{!ConcurrencyControl D} `{!Catalogue D}.

(** What the operations assert: an index finds an entry that has just been put
    or made visible, and the anonymous table exists. *)
Hypothesis put_then_found : ∀ ix key d, (Get ix key (ForcePutBlankEntry ix key d).2).1 <> None.
Hypothesis visible_then_found : ∀ ix key d, (EnsureVisibleForSecondaryWrite ix key d).1.1 = true ->
  (Get ix key (EnsureVisibleForSecondaryWrite ix key d).2).1 <> None.
Hypothesis anonymous_table_exists : ∀ d, (GetTable anonymous_table_name d).1 = true.

Lemma ends_Abort throws : ends (D := D) throws Abort.
Proof. unfold Abort, IsAborted. ends. Qed.
#[local] Hint Resolve ends_Abort : ends.
Lemma ends_IsAborted throws : ends (D := D) throws IsAborted.
Proof. unfold IsAborted. ends. Qed.
#[local] Hint Resolve ends_IsAborted : ends.
Lemma ends_read_item throws k l : ends (D := D) throws (read_item k l).
Proof. unfold read_item, protocol_abort. ends. Qed.
#[local] Hint Resolve ends_read_item : ends.
Lemma ends_read_unvalidated throws k l : ends (D := D) throws (read_unvalidated k l).
Proof. unfold read_unvalidated, protocol_abort. ends. Qed.
#[local] Hint Resolve ends_read_unvalidated : ends.
Lemma ends_read_direct throws k l : ends (D := D) throws (read_direct k l).
Proof. unfold read_direct, protocol_abort. ends. Qed.
#[local] Hint Resolve ends_read_direct : ends.
Lemma ends_write_item throws k v l : ends (D := D) throws (write_item k v l).
Proof. unfold write_item, protocol_abort. ends. Qed.
#[local] Hint Resolve ends_write_item : ends.
Lemma ends_find_write throws tn ix k : ends (D := D) throws (find_write tn ix k).
Proof. unfold find_write. ends. Qed.
#[local] Hint Resolve ends_find_write : ends.
Lemma ends_find_read throws tn ix k : ends (D := D) throws (find_read tn ix k).
Proof. unfold find_read. ends. Qed.
#[local] Hint Resolve ends_find_read : ends.
Lemma ends_update_write throws i s : ends (D := D) throws (update_write i s).
Proof. unfold update_write. ends. Qed.
Lemma ends_update_read throws i s : ends (D := D) throws (update_read i s).
Proof. unfold update_read. ends. Qed.
Lemma ends_push_write throws s : ends (D := D) throws (push_write s).
Proof. unfold push_write. ends. Qed.
Lemma ends_push_read throws s : ends (D := D) throws (push_read s).
Proof. unfold push_read. ends. Qed.
Lemma ends_add_versions throws l : ends (D := D) throws (add_node_versions l).
Proof. unfold add_node_versions. ends. Qed.
#[local] Hint Resolve ends_update_write ends_update_read ends_push_write ends_push_read ends_add_versions : ends.
Lemma ends_Reconcile throws u : ends (D := D) throws (ReconcileOwnInsertWithNodeVersionSet u).
Proof. unfold ReconcileOwnInsertWithNodeVersionSet. ends. Qed.
#[local] Hint Resolve ends_Reconcile : ends.
Lemma ends_reads_unchanged throws l : ends (D := D) throws (reads_unchanged l).
Proof. induction l; simpl; ends. Qed.
#[local] Hint Resolve ends_reads_unchanged : ends.
Lemma ends_refuse throws : ends (D := D) throws refuse.
Proof. unfold refuse, ReadSetIsStillValid, PhantomsStillValid. ends. Qed.
#[local] Hint Resolve ends_refuse : ends.

Lemma ends_Ensure throws : ends (D := D) throws EnsureCurrentTable.
Proof.
  unfold EnsureCurrentTable. apply ends_bind; [ends|]. intros [n|]; [ends|].
  intros t d. unfold bind, call. pose proof (anonymous_table_exists d) as H.
  destruct (GetTable anonymous_table_name d) as [f d']. simpl in H. by rewrite H.
Qed.
#[local] Hint Resolve ends_Ensure : ends.

Lemma ends_GetOrInsert throws ix k : ends (D := D) throws (GetOrInsert ix k).
Proof.
  unfold GetOrInsert. apply ends_bind; [ends|]. intros [leaf|]; [ends|].
  intros t d. unfold bind, call. pose proof (put_then_found ix k d) as H.
  destruct (ForcePutBlankEntry ix k d) as [u d']. simpl in H. destruct (Get ix k d') as [[leaf|] d'']; done.
Qed.
#[local] Hint Resolve ends_GetOrInsert : ends.

Lemma ends_GetOrInsertForWrite throws ix k : ends (D := D) throws (GetOrInsertForWrite ix k).
Proof.
  unfold GetOrInsertForWrite. apply ends_bind; [ends|]. intros item. apply ends_bind; [ends|]. intros [|]; [ends|].
  intros t d. unfold bind, call. pose proof (visible_then_found ix k d) as H.
  destruct (EnsureVisibleForSecondaryWrite ix k d) as [[[|] u] d']; simpl in H |- *; [|done].
  specialize (H eq_refl). destruct (Get ix k d') as [[leaf|] d'']; done.
Qed.
#[local] Hint Resolve ends_GetOrInsertForWrite : ends.

Lemma ends_Read throws k : ends (D := D) throws (Read k).
Proof. unfold Read. ends. Qed.
Lemma ends_Write throws k v b : ends (D := D) throws (Write k v b).
Proof. unfold Write. ends. Qed.
#[local] Hint Resolve ends_Read ends_Write : ends.
Lemma ends_TxInsert throws k v : ends (D := D) throws (TxInsert k v).
Proof. unfold TxInsert. ends. Qed.
Lemma ends_TxUpdate throws k v : ends (D := D) throws (TxUpdate k v).
Proof. unfold TxUpdate. ends. Qed.
#[local] Hint Resolve ends_TxInsert ends_TxUpdate : ends.
Lemma ends_TxDelete throws k : ends (D := D) throws (TxDelete k).
Proof. unfold TxDelete. ends. Qed.
#[local] Hint Resolve ends_TxDelete : ends.

Lemma ends_scan_keys {S} throws f rv tn keys (st : S) n : ends (D := D) throws (scan_keys f rv tn keys st n).
Proof.
  revert st n. induction keys as [|k keys IH]; intros st n; simpl; [ends|].
  apply ends_bind; [unfold scan_key; ends|]. intros [[st' n'] [o|]]; simpl; [ends|apply IH].
Qed.
#[local] Hint Resolve ends_scan_keys : ends.

Lemma ends_emit_rows {S} throws f tn keys (st : S) n v : ends (D := D) throws (emit_rows f tn keys st n v).
Proof.
  revert st n v. induction keys as [|[k leaf] keys IH]; intros st n v; simpl; [ends|].
  apply ends_bind; [unfold emit_index_row; ends|]. intros [[st' n'] [|]]; simpl; [ends|apply IH].
Qed.
#[local] Hint Resolve ends_emit_rows : ends.

Lemma ends_ScanWith {S} throws f rv b e (st : S) : ends (D := D) throws (ScanWith f rv b e st).
Proof. unfold ScanWith, ScanMerged, ScanPrimaryIndexWithEarlyStop. ends. Qed.
#[local] Hint Resolve ends_ScanWith : ends.

Lemma ends_Seed throws k l u : ends (D := D) throws (SeedSecondaryIndexForWrite k l u).
Proof. unfold SeedSecondaryIndexForWrite. ends. Qed.
#[local] Hint Resolve ends_Seed : ends.
Lemma ends_Refresh i s : ends (D := D) true (RefreshSecondaryIndexWriteSnapshot i s).
Proof. unfold RefreshSecondaryIndexWriteSnapshot. ends. Qed.
Lemma ends_MaybeDelete throws ix u k i : ends (D := D) throws (MaybeDeleteEmptyUniqueSecondaryIndex ix u k i).
Proof. unfold MaybeDeleteEmptyUniqueSecondaryIndex. ends. Qed.
#[local] Hint Resolve ends_Refresh ends_MaybeDelete : ends.
Lemma ends_ReadSecondaryIndex ix k : ends (D := D) true (ReadSecondaryIndex ix k).
Proof. unfold ReadSecondaryIndex. ends. Qed.
Lemma ends_WriteSecondaryIndex ix k pk : ends (D := D) true (WriteSecondaryIndex ix k pk).
Proof. unfold WriteSecondaryIndex, find_base, seed_base. ends. Qed.
Lemma ends_remove_posting b tn ix k pk u : ends (D := D) true (remove_posting b tn ix k pk u).
Proof. unfold remove_posting, find_base, seed_base. ends. Qed.
Lemma ends_add_posting tn ix k pk u : ends (D := D) true (add_posting tn ix k pk u).
Proof. unfold add_posting, find_base, seed_base. ends. Qed.
#[local] Hint Resolve ends_ReadSecondaryIndex ends_WriteSecondaryIndex ends_remove_posting ends_add_posting : ends.
Lemma ends_DeleteSecondaryIndex ix k pk : ends (D := D) true (DeleteSecondaryIndex ix k pk).
Proof. unfold DeleteSecondaryIndex. ends. Qed.
Lemma ends_UpdateSecondaryIndex ix k k' pk : ends (D := D) true (UpdateSecondaryIndex ix k k' pk).
Proof. unfold UpdateSecondaryIndex. ends. Qed.

Lemma ends_scan_postings {S} f rv tn ix keys (st : S) n : ends (D := D) true (scan_postings f rv tn ix keys st n).
Proof.
  revert st n. induction keys as [|k keys IH]; intros st n; simpl; [ends|].
  apply ends_bind; [unfold scan_posting; ends|]. intros [[st' n'] [o|]]; simpl; [ends|apply IH].
Qed.
#[local] Hint Resolve ends_DeleteSecondaryIndex ends_UpdateSecondaryIndex ends_scan_postings : ends.
Lemma ends_ScanSecondaryIndexWith {S} f rv ix b e (st : S) : ends (D := D) true (ScanSecondaryIndexWith f rv ix b e st).
Proof. unfold ScanSecondaryIndexWith. ends. Qed.
#[local] Hint Resolve ends_ScanSecondaryIndexWith : ends.

(** Every operation of a transaction ends: operations on rows return,
    operations on postings return or throw length_error, and no assertion
    fails, given that an index finds what was just put into it and the
    anonymous table exists. *)
Theorem operations_return op t d :
  match exec op t d with Done _ => True | LengthError _ => packs op = true | AssertionFailed => False end.
Proof.
  revert t d. change (ends (packs op) (exec op)). destruct op as [| | | | | | | | | |[]|[]|]; simpl; unfold SetTable; ends.
Qed.

End operations.

Section aborted.
Context {D : Type} `{!IndexBase D} `{!ConcurrencyControl D} `{!Catalogue D}.

Lemma guarded_aborted {A} (x : A) (k : M (D := D) A) t d : current_status_ t = Aborted ->
  bind IsAborted (fun aborted => if aborted : bool then ret x else k) t d = Done (x, t, d).
Proof. intros Ha. unfold bind, IsAborted, gets. by rewrite bool_decide_eq_true_2. Qed.

Lemma then_returned {A B} (m : M (D := D) A) (f : A -> B) a b t d : m t d = Done (a, t, d) -> f a = b ->
  bind m (fun a => ret (f a)) t d = Done (b, t, d).
Proof. intros H <-. unfold bind. by rewrite H. Qed.

(** On an aborted transaction the point operations, the operations on
    postings and Abort return at once with an empty answer and change neither
    the transaction nor the database. *)
Theorem aborted_operations_do_nothing op a t d : refused op = Some a -> current_status_ t = Aborted ->
  exec op t d = Done (a, t, d).
Proof.
  intros Hop Ha. destruct op; simpl in Hop; try discriminate; injection Hop as <-; simpl;
    (eapply then_returned; [by apply guarded_aborted|done]).
Qed.

End aborted.
