(* ===== verification/TxDemo.v ===== *)
(** * Transactions on a small database

    An instance of the interfaces of [Transaction]: an in-memory store in
    which entries of other threads arrive one at a time, each after a lookup.
    It satisfies what the theorems about transactions ask of an index and of a
    protocol, and they are evaluated on it. *)

From stdpp Require Import strings.
From S2P Require Import Prelude PackedKeys Types DataItem TxSet StdAlgo Transaction TxFrame TxScan TxOps TxTotal.

#[global] Instance IndexId_eq_dec : EqDecision IndexId.
Proof. solve_decision. Defined.

(** ** The store *)

Definition entry : Type := IndexId * bytestring * option bytestring.

Record Store := mkStore { entries : list entry; arriving : list entry }.

(** The address of an entry, from 1. *)
Fixpoint locate (ix : IndexId) (key : bytestring) (l : list entry) (a : Z) : option Z :=
  match l with
  | [] => None
  | e :: l' => if bool_decide (e.1 = (ix, key)) then Some a else locate ix key l' (a + 1)
  end.

(** An entry of another thread arrives. *)
Definition arrive (s : Store) : Store :=
  match arriving s with
  | [] => s
  | e :: l => mkStore (entries s ++ [e]) l
  end.

Definition put (ix : IndexId) (key : bytestring) (s : Store) : Store :=
  match locate ix key (entries s) 1 with
  | Some _ => s
  | None => mkStore (entries s ++ [(ix, key, None)]) (arriving s)
  end.

Definition item_at (a : Z) (s : Store) : DataItem.t :=
  match entries s !! Z.to_nat (a - 1) with
  | Some (_, _, Some v) => DataItem.Reset DataItem.empty (Some v) TransactionId.zero
  | _ => DataItem.empty
  end.

Definition range_of (reverse_ : bool) (ix : IndexId) (begin : bytestring) (end_ : option bytestring) (s : Store)
    : list bytestring :=
  let keys := std_unique (std_sort (List.filter (key_in_range begin end_)
                (map (fun e => e.1.2) (List.filter (fun e => bool_decide (e.1.1 = ix)) (entries s))))) in
  if reverse_ then reverse keys else keys.

#[export] Instance store_index : IndexBase Store := {
  Get ix key s := (locate ix key (entries s) 1, arrive s);
  Insert ix key s := (bool_decide (locate ix key (entries s) 1 = None), no_update, put ix key s);
  Delete ix key s := (bool_decide (locate ix key (entries s) 1 <> None), s);
  ForcePutBlankEntry ix key s := (no_update, put ix key s);
  EnsureVisibleForSecondaryWrite ix key s := (true, no_update, put ix key s);
  ScanKeys reverse_ ix begin end_ s := (Some (range_of reverse_ ix begin end_ s), [], s);
  ScanRows reverse_ ix begin end_ s :=
    (map (fun k => (k, default 0 (locate ix k (entries s) 1))) (range_of reverse_ ix begin (Some end_) s), s);
  ScanRowsEnd visited s := (true, [], s);
  ValidatePhantoms o l s := (true, s);
}.

#[export] Instance store_protocol : ConcurrencyControl Store := {
  cc_Read key leaf s := (item_at leaf s, false, s);
  cc_ReadUnvalidated key leaf s := (item_at leaf s, false, s);
  cc_ReadDirect key leaf s :=
    ((DataBuffer.value (DataItem.buffer (item_at leaf s)), DataBuffer.size (DataItem.buffer (item_at leaf s))), false, s);
  cc_Write key value leaf s := (false, s);
  cc_Abort s := s;
  cc_PostProcessing committed s := s;
  cc_ObservedReadsStillValid s := (true, s);
  cc_Precommit validate checkpoint reads writes s := (let '(ok, s') := validate s in (ok, false, writes, s'));
}.

#[export] Instance store_catalogue : Catalogue Store := {
  GetTable n s := (true, s);
  anonymous_table_name := [0];
  GetSecondaryIndex tn ix s := (Some false, s);
  item_IsPrimaryInitialized leaf s := (DataItem.IsPrimaryInitialized (item_at leaf s), s);
  item_StableReadPrimaryKeys_found leaf s := (false, s);
  item_transaction_id leaf s := (DataItem.transaction_id (item_at leaf s), s);
  IsNeedToCheckpointing s := (false, s);
  std_hash k := zlen k;
  range_order l := l;
}.

(** ** The laws *)

Lemma store_range_order l : range_order (D := Store) l ≡ₚ l.
Proof. done. Qed.

Lemma item_at_ok a s : item_ok (item_at a s).
Proof. exists []. unfold item_at. destruct (entries s !! _) as [[[? ?] [v|]]|]; done. Qed.

Lemma store_Read_ok key leaf (d : Store) : item_ok (cc_Read key leaf d).1.1.
Proof. apply item_at_ok. Qed.
Lemma store_ReadUnvalidated_ok key leaf (d : Store) : item_ok (cc_ReadUnvalidated key leaf d).1.1.
Proof. apply item_at_ok. Qed.

Lemma range_of_range reverse_ ix begin end_ s : range_keys reverse_ begin end_ (range_of reverse_ ix begin end_ s).
Proof.
  unfold range_of. set (l := List.filter _ _). split.
  - apply ascending_in_order, std_unique_ascending, std_sort_ascending.
  - apply Forall_forall. intros k Hk. assert (k ∈ l) as Hl.
    { apply (proj1 (elem_of_std_sort _ _)), (proj1 (elem_of_std_unique _ _)). destruct reverse_; [by apply (proj1 (elem_of_reverse _ _)) in Hk|done]. }
    by apply list_elem_of_In, filter_In in Hl as [_ ?].
Qed.

Lemma store_ScanKeys_range reverse_ ix begin end_ (d : Store) keys :
  (ScanKeys reverse_ ix begin end_ d).1.1 = Some keys -> range_keys reverse_ begin end_ keys.
Proof. intros [= <-]. apply range_of_range. Qed.

Lemma store_ScanRows_range reverse_ ix begin end_ (d : Store) :
  range_keys reverse_ begin (Some end_) (map fst (ScanRows reverse_ ix begin end_ d).1).
Proof. simpl. rewrite map_map. simpl. rewrite map_id. apply range_of_range. Qed.

Lemma locate_put ix key s : locate ix key (entries (put ix key s)) 1 <> None.
Proof.
  unfold put. destruct (locate ix key (entries s) 1) eqn:E; [by rewrite E|]. simpl.
  assert (∀ l a, locate ix key (l ++ [(ix, key, None)]) a <> None) as H; [|apply H].
  induction l as [|e l IH]; intros a; simpl; [by rewrite bool_decide_eq_true_2|]. by destruct (bool_decide _).
Qed.

Lemma store_put_then_found ix key (d : Store) : (Get ix key (ForcePutBlankEntry ix key d).2).1 <> None.
Proof. apply locate_put. Qed.

Lemma store_visible_then_found ix key (d : Store) : (EnsureVisibleForSecondaryWrite ix key d).1.1 = true ->
  (Get ix key (EnsureVisibleForSecondaryWrite ix key d).2).1 <> None.
Proof. intros _. apply locate_put. Qed.

Lemma store_anonymous_table (d : Store) : (GetTable anonymous_table_name d).1 = true.
Proof. reflexivity. Qed.

(** ** Executions *)

Definition base : IndexId := PrimaryIndex [0].

(** A database with two rows, and one with a row that arrives after the first
    lookup. *)
Definition two_rows : Store := mkStore [(base, [1], Some [10; 11]); (base, [3], Some [30])] [].
Definition late_row : Store := mkStore [(base, [1], Some [10; 11])] [(base, [2], Some [20])].

Ltac evaluate := vm_compute; reflexivity.
Ltac all_ok := repeat (first [apply Forall_nil | apply Forall_cons; split]); simpl;
  try done; try (split; [repeat constructor; lia|vm_compute; reflexivity]).
Ltac no_touch := intros ?; repeat (first [apply Forall_nil | apply Forall_cons; split]); simpl;
  unfold either, named; simpl; naive_solver.

Lemma sets_name_items_once_witness : ∃ l t d,
  run [DoRead [1]; DoWrite [1] (Some [5]); DoWriteSecondaryIndex [9] [4] [1]; DoWrite [1] None] Tx_new two_rows
    = Done (l, t, d) ∧ NoDup (map snapshot_name (write_set_ t)) ∧ length (write_set_ t) = 2%nat.
Proof.
  eexists _, _, _. split; [evaluate|]. split; [|reflexivity].
  eapply (sets_name_items_once store_range_order store_Read_ok store_ReadUnvalidated_ok
            [DoRead [1]; DoWrite [1] (Some [5]); DoWriteSecondaryIndex [9] [4] [1]; DoWrite [1] None] two_rows);
    [all_ok|evaluate].
Defined.

Lemma reads_own_writes_witness : ∃ l t d v t' d',
  run [DoRead [1]; DoUpdate [1] (Some [5; 6]); DoRead [3]; DoWrite [2] (Some [7])] Tx_new two_rows = Done (l, t, d) ∧
  Read [1] t d = Done (v, t', d') ∧ visible v = given (Some [5; 6]) ∧ given (Some [5; 6]) = Some [5; 6].
Proof.
  eexists _, _, _, _, _, _. split; [evaluate|]. split; [evaluate|]. split; [|reflexivity].
  eapply (reads_own_writes store_range_order store_Read_ok store_ReadUnvalidated_ok
            [DoRead [1]] (DoUpdate [1] (Some [5; 6])) [1] (Some [5; 6]) [DoRead [3]; DoWrite [2] (Some [7])] two_rows).
  - all_ok.
  - all_ok.
  - reflexivity.
  - evaluate.
  - evaluate.
  - no_touch.
  - evaluate.
  - reflexivity.
  - discriminate.
  - evaluate.
Defined.

Lemma reads_repeat_witness : ∃ l t d v t' d',
  run [DoRead [1]; DoWrite [3] None; DoInsert [2] (Some [8])] Tx_new two_rows = Done (l, t, d) ∧
  Read [1] t d = Done (v, t', d') ∧ visible v = Some [10; 11].
Proof.
  eexists _, _, _, _, _, _. split; [evaluate|]. split; [evaluate|].
  eapply (reads_repeat store_range_order store_Read_ok store_ReadUnvalidated_ok
            [] [1] [DoWrite [3] None; DoInsert [2] (Some [8])] two_rows [] Tx_new two_rows (Some [10; 11], 2)).
  - all_ok.
  - all_ok.
  - reflexivity.
  - evaluate.
  - discriminate.
  - no_touch.
  - evaluate.
  - reflexivity.
  - discriminate.
  - evaluate.
Defined.

Lemma reads_own_postings_witness : ∃ l t d pks t' d',
  run [DoWriteSecondaryIndex [9] [4] [1]; DoUpdateSecondaryIndex [9] [5] [4] [3]; DoWriteSecondaryIndex [9] [6] [1]]
    Tx_new two_rows = Done (l, t, d) ∧
  ReadSecondaryIndex [9] [4] t d = Done (pks, t', d') ∧ [3] ∈ pks.
Proof.
  eexists _, _, _, _, _, _. split; [evaluate|]. split; [evaluate|].
  eapply (reads_own_postings store_range_order store_Read_ok store_ReadUnvalidated_ok
            [DoWriteSecondaryIndex [9] [4] [1]] (DoUpdateSecondaryIndex [9] [5] [4] [3]) [9] [4] [3] OpAdd
            [DoWriteSecondaryIndex [9] [6] [1]] two_rows).
  - all_ok.
  - split; [repeat constructor; lia|evaluate].
  - all_ok.
  - reflexivity.
  - evaluate.
  - evaluate.
  - no_touch.
  - evaluate.
  - reflexivity.
  - evaluate.
  - discriminate.
Defined.

(** A reverse scan: a new row, an updated one, and a deleted one left out. *)
Lemma scans_see_own_writes_witness : ∃ l t d t' d',
  run [DoWrite [2] (Some [20; 21]); DoUpdate [1] (Some [5]); DoDelete [3]] Tx_new two_rows = Done (l, t, d) ∧
  exec (DoScan true [0] None (fun _ => false)) t d
    = Done (AnswerRows (Some 2) [([2], (Some [20; 21], 2)); ([1], (Some [5], 1))], t', d') ∧
  scan_result t [0] [0] None true 2 [([2], (Some [20; 21], 2)); ([1], (Some [5], 1))] ∧
  scan_source t [0] [0] None true d [([2], (Some [20; 21], 2)); ([1], (Some [5], 1))] d'.
Proof.
  eexists _, _, _, _, _. split; [evaluate|]. split; [evaluate|].
  eapply (scans_see_own_writes store_range_order store_Read_ok store_ReadUnvalidated_ok
            [DoWrite [2] (Some [20; 21]); DoUpdate [1] (Some [5]); DoDelete [3]] true [0] None two_rows).
  - exact store_ScanKeys_range.
  - exact store_ScanRows_range.
  - all_ok.
  - evaluate.
  - reflexivity.
  - evaluate.
Defined.

(** A key that is absent when it is first read, and then present: the read of
    the absent key is not in the sets, and the second read finds the row. *)
Lemma absent_reads_leave_no_trace_witness :
  (∃ t', Read [2] (set_table [0] Tx_new) late_row = Done (null_value, t', (Get base [2] late_row).2) ∧
     read_set_ t' = read_set_ Tx_new ∧ write_set_ t' = write_set_ Tx_new ∧
     node_version_set_ t' = node_version_set_ Tx_new) ∧
  ∃ t d, run [DoSetTable [0]; DoRead [2]; DoRead [2]] Tx_new late_row
    = Done ([AnswerBool true; AnswerValue null_value; AnswerValue (Some [20], 1)], t, d) ∧ current_status_ t = Running.
Proof.
  split; [|eexists _, _; split; [evaluate|reflexivity]].
  apply (absent_reads_leave_no_trace store_range_order store_Read_ok store_ReadUnvalidated_ok
           [DoSetTable [0]] [2] late_row [AnswerBool true] (set_table [0] Tx_new) late_row [0]);
    [all_ok|reflexivity|discriminate|reflexivity|evaluate|evaluate].
Defined.

Lemma operations_return_witness :
  match exec (DoWriteSecondaryIndex [9] [4] [1]) Tx_new two_rows with
  | Done _ => True | LengthError _ => packs (DoWriteSecondaryIndex [9] [4] [1]) = true | AssertionFailed => False
  end.
Proof.
  apply (operations_return store_put_then_found store_visible_then_found store_anonymous_table
           (DoWriteSecondaryIndex [9] [4] [1]) Tx_new two_rows).
Defined.

Lemma aborted_operations_do_nothing_witness :
  exec (DoInsert [1] (Some [2])) (set_status Aborted Tx_new) two_rows
    = Done (AnswerVoid, set_status Aborted Tx_new, two_rows).
Proof. apply aborted_operations_do_nothing; reflexivity. Defined.
