(* ===== verification/Typed.v ===== *)
(** * The typed interface of a transaction (src/include/lineairdb/transaction.h)

    The templates of [Transaction] store an object of a trivially copyable type
    as its bytes and give a value back as an object by reading the type's size
    of bytes at the value's address.  A type is its size and its object
    representation ([TriviallyCopyable]); a read of more bytes than the value's
    allocation has is [OutOfBounds].

    The theorem shows that an object that was written is read back, whatever
    happens in between; a read as a larger type than the one written may leave
    the allocation. *)

From S2P Require Import Prelude PackedKeys Types DataItem TxSet StdAlgo Transaction TxFrame TxOps TxDemo.

(** [std::is_trivially_copyable]: an object is copied with its bytes. *)
Class TriviallyCopyable (T : Type) := {
  sizeof : nat;
  to_bytes : T -> bytestring;
  from_bytes : bytestring -> T;
  sizeof_pos : (0 < sizeof)%nat;
  length_to_bytes x : length (to_bytes x) = sizeof;
  from_to_bytes x : from_bytes (to_bytes x) = x;
}.

Inductive Loaded (T : Type) : Type := Object (x : T) | OutOfBounds.
Arguments Object {T} x.
Arguments OutOfBounds {T}.

Module TypedTransaction.

Section typed.
Context {D : Type} `{!IndexBase D} `{!ConcurrencyControl D} `{!Catalogue D}.
Context {T : Type} `{!TriviallyCopyable T}.

Notation "x <- m ;; k" := (bind m (fun x => k)) (at level 100, m at next level, right associativity).

(** [*reinterpret_cast<const T*>(p)], for the allocation at [p]. *)
Definition reinterpret (p : option bytestring) : Loaded T :=
  match p with
  | Some l => if (sizeof <=? length l)%nat then Object (from_bytes (take sizeof l)) else OutOfBounds
  | None => OutOfBounds
  end.

Definition Read (key : bytestring) : M (D := D) (option (Loaded T)) :=
  result <- Transaction.Read key ;;
  ret (if result.2 =? 0 then None else Some (reinterpret result.1)).

Definition Write (key : bytestring) (value : T) : M (D := D) unit := Transaction.Write key (Some (to_bytes value)) false.
Definition Insert (key : bytestring) (value : T) : M (D := D) unit := TxInsert key (Some (to_bytes value)).
Definition Update (key : bytestring) (value : T) : M (D := D) unit := TxUpdate key (Some (to_bytes value)).
Definition WriteSecondaryIndex (index_name key : bytestring) (primary_key : T) : M (D := D) unit :=
  Transaction.WriteSecondaryIndex index_name key (to_bytes primary_key).

Section scans.
Context {S : Type}.

Definition Scan (operation : S -> bytestring -> Loaded T -> S * bool) (begin : bytestring) (end_ : option bytestring) (st : S)
    : M (D := D) (option Z * S) :=
  Transaction.Scan (fun st key pair => operation st key (reinterpret pair.1)) begin end_ st.

Definition ScanReverse (operation : S -> bytestring -> Loaded T -> S * bool) (begin : bytestring) (end_ : option bytestring)
    (st : S) : M (D := D) (option Z * S) :=
  Transaction.ScanReverse (fun st key pair => operation st key (reinterpret pair.1)) begin end_ st.

Definition ScanSecondaryIndex (operation : S -> bytestring -> list (Loaded T) -> S * bool) (index_name begin : bytestring)
    (end_ : option bytestring) (st : S) : M (D := D) (option Z * S) :=
  Transaction.ScanSecondaryIndex (fun st key primary_keys => operation st key (map (fun pk => reinterpret (Some pk)) primary_keys))
    index_name begin end_ st.

Definition ScanSecondaryIndexReverse (operation : S -> bytestring -> list (Loaded T) -> S * bool) (index_name begin : bytestring)
    (end_ : option bytestring) (st : S) : M (D := D) (option Z * S) :=
  Transaction.ScanSecondaryIndexReverse (fun st key primary_keys => operation st key (map (fun pk => reinterpret (Some pk)) primary_keys))
    index_name begin end_ st.
End scans.

End typed.
End TypedTransaction.
Import TypedTransaction.

Lemma reinterpret_prefix {T} `{!TriviallyCopyable T} (x : T) l n : take n l = to_bytes x -> reinterpret (Some l) = Object x.
Proof.
  intros H. pose proof (length_to_bytes x) as Hl. rewrite <- H, length_take in Hl. unfold reinterpret.
  destruct (Nat.leb_spec sizeof (length l)); [|lia].
  replace (take sizeof l) with (to_bytes x); [by rewrite from_to_bytes|].
  rewrite <- H, <- (take_ge (take n l) sizeof) at 1; [|rewrite length_take; lia]. rewrite take_take. f_equal. lia.
Qed.

Lemma visible_object {T} `{!TriviallyCopyable T} (x : T) v : visible v = given (Some (to_bytes x)) ->
  (v.2 =? 0) = false ∧ reinterpret v.1 = Object x.
Proof.
  pose proof (length_to_bytes x) as Hl. pose proof sizeof_pos as Hp. destruct v as [p n]. unfold visible, given. cbn [fst snd default].
  destruct (to_bytes x) as [|b bs] eqn:Ex; [cbn in Hl; lia|]. destruct (n =? 0); [done|]. intros [= H]. split; [done|].
  destruct p as [l|]; cbn in H; [|by rewrite take_nil in H]. rewrite <- Ex in H. by eapply reinterpret_prefix.
Qed.

Section roundtrip.
Context {D : Type} `{!IndexBase D} `{!ConcurrencyControl D} `{!Catalogue D}.
Context {T : Type} `{!TriviallyCopyable T}.
Hypothesis range_order_perm : ∀ l, range_order l ≡ₚ l.
Hypothesis cc_Read_ok : ∀ key leaf d, item_ok (cc_Read key leaf d).1.1.
Hypothesis cc_ReadUnvalidated_ok : ∀ key leaf d, item_ok (cc_ReadUnvalidated key leaf d).1.1.

(** An object that a transaction has written is the one it reads back: after
    any history, a typed Write, Insert or Update of a row, and any further
    operations that do not write that key, the typed Read of it on the same
    table returns the object, whatever the other threads do. *)
Theorem typed_roundtrip before (x : T) key after d0 l0 t0 d t1 d1 l2 t2 d2 r t3 d3 :
  Forall op_ok before -> Forall op_ok after -> run before Tx_new d0 = Done (l0, t0, d) ->
  (Write key x t0 d = Done (tt, t1, d1) ∨ Insert key x t0 d = Done (tt, t1, d1) ∨ Update key x t0 d = Done (tt, t1, d1)) ->
  (∀ tn, untouched after (tn, [], key)) -> run after t1 d1 = Done (l2, t2, d2) ->
  current_table_ t2 = current_table_ t1 -> current_status_ t2 <> Aborted ->
  Read (T := T) key t2 d2 = Done (r, t3, d3) -> r = Some (Object x).
Proof.
  intros Hb Haf Hr0 Hw Hu Hr2 Htb Ha. unfold Read, bind, ret.
  destruct (Transaction.Read key t2 d2) as [[[v t'] d']| |] eqn:Ev; [|done|done]. intros [= <- <- <-].
  assert (∃ op, row_write op = Some (key, Some (to_bytes x)) ∧ exec op t0 d = Done (AnswerVoid, t1, d1)) as (op & Hop & He).
  { destruct Hw as [Hw|[Hw|Hw]].
    - exists (DoWrite key (Some (to_bytes x))). split; [done|]. cbn [exec]. unfold bind, Write in *. by rewrite Hw.
    - exists (DoInsert key (Some (to_bytes x))). split; [done|]. cbn [exec]. unfold bind, Insert in *. by rewrite Hw.
    - exists (DoUpdate key (Some (to_bytes x))). split; [done|]. cbn [exec]. unfold bind, Update in *. by rewrite Hw. }
  pose proof (own_write_read range_order_perm cc_Read_ok cc_ReadUnvalidated_ok op key _ after t0 d t1 d1 _ _ _ _ v t' d'
    (run_ok range_order_perm cc_Read_ok cc_ReadUnvalidated_ok _ _ _ _ _ Hb Hr0) Haf Hop He Hu Hr2 Htb Ha Ev) as Hv.
  destruct (visible_object x v Hv) as [-> ->]. done.
Qed.

End roundtrip.

Module Demo.
Import TxDemo.

(** A struct of two bytes and one of four. *)
#[local] Instance two_bytes : TriviallyCopyable (Z * Z).
Proof.
  refine {| sizeof := 2; to_bytes := fun p => [p.1; p.2]; from_bytes := fun l => (nth 0 l 0, nth 1 l 0) |}.
  - lia.
  - done.
  - by intros [a b].
Defined.

#[local] Instance four_bytes : TriviallyCopyable (Z * Z * Z * Z).
Proof.
  refine {| sizeof := 4; to_bytes := fun p => [p.1.1.1; p.1.1.2; p.1.2; p.2];
            from_bytes := fun l => (nth 0 l 0, nth 1 l 0, nth 2 l 0, nth 3 l 0) |}.
  - lia.
  - done.
  - by intros [[[a b] c] d].
Defined.

(** A write of [1], operations on other keys, and a read of [1]. *)
Definition outcome {A} (a : A) (r : Result (A * Tx * Store)) : A * Tx * Store :=
  match r with Done x => x | _ => (a, Tx_new, two_rows) end.

Definition written : unit * Tx * Store := outcome tt (Write (T := Z * Z) [1] (5, 6) Tx_new two_rows).
Definition others : list Op := [DoRead [3]; DoWrite [2] (Some [7])].
Definition moved_on : list Answer * Tx * Store := outcome [] (run others written.1.2 written.2).
Definition read_back : option (Loaded (Z * Z)) * Tx * Store := outcome None (Read (T := Z * Z) [1] moved_on.1.2 moved_on.2).

Lemma written_done : Write (T := Z * Z) [1] (5, 6) Tx_new two_rows = Done (tt, written.1.2, written.2).
Proof. evaluate. Qed.
Lemma moved_on_done : run others written.1.2 written.2 = Done (moved_on.1.1, moved_on.1.2, moved_on.2).
Proof. evaluate. Qed.
Lemma read_back_done : Read (T := Z * Z) [1] moved_on.1.2 moved_on.2 = Done (read_back.1.1, read_back.1.2, read_back.2).
Proof. evaluate. Qed.
Lemma table_kept : current_table_ moved_on.1.2 = current_table_ written.1.2.
Proof. evaluate. Qed.
Lemma still_running : current_status_ moved_on.1.2 = Running.
Proof. evaluate. Qed.

Lemma typed_roundtrip_witness : read_back.1.1 = Some (Object (5, 6)).
Proof.
  refine (typed_roundtrip store_range_order store_Read_ok store_ReadUnvalidated_ok [] (5, 6) [1] others two_rows [] Tx_new
            two_rows _ _ _ _ _ _ _ _ _ _ eq_refl (or_introl written_done) _ moved_on_done table_kept _ read_back_done).
  - all_ok.
  - all_ok.
  - no_touch.
  - by rewrite still_running.
Defined.

(** Two bytes read as four. *)
Definition read_larger : option (Loaded (Z * Z * Z * Z)) * Tx * Store :=
  outcome None (Read (T := Z * Z * Z * Z) [1] written.1.2 written.2).

Lemma larger_type_reads_out_of_bounds :
  Write (T := Z * Z) [1] (5, 6) Tx_new two_rows = Done (tt, written.1.2, written.2) ∧
  Read (T := Z * Z * Z * Z) [1] written.1.2 written.2 = Done (Some OutOfBounds, read_larger.1.2, read_larger.2).
Proof. split; [exact written_done|evaluate]. Qed.

End Demo.
