(* ===== verification/Silo.v ===== *)
(** * The Silo commit protocol (src/src/concurrency_control/impl/silo_nwr.hpp)

    Optimistic concurrency control as any number of transactions run it
    against shared items.  An item is its version word, whose lowest bit is
    the write lock, and its contents.  Every access to a version word is a
    step of its own: a read loads the word, copies the contents and loads the
    word again; a commit locks the items of its write set one by one, joins
    the current epoch, checks the read set entry by entry, installs the writes
    and publishes the new versions.  [step] interleaves the steps of all
    transactions in any order, and while a write is being installed the
    contents may show any value, so that a copy taken meanwhile may be torn.

    A write is a function of the item's contents: a constant for a row, the
    merge of the recorded deltas for a non-unique secondary-index entry.  The
    contents are a parameter.  A transaction is an index, used once; what it
    reads and writes is left open, as are the checks that may abort it (the
    item detached from its index, the phantom check, the duplicate key).

    [hist] and [published] are not state of the program: they record the order
    in which the transactions joined their commit epoch, and the contents each
    item had when its last version was published.  SiloSerial.v proves that
    the committed transactions, in that order, form a serial execution.

    [SiloNWRTyped<false>] is the protocol modelled; the omission of writes
    that [SiloNWR] adds is modelled in SiloNwr.v, and the rule [step_retry] is
    there for its executions only. *)

From S2P Require Import Prelude Types.
Import TransactionId.

Section silo.
Context {V : Type}.

(** One entry of [validation_set_], with the contents that were read. *)
Abbreviation ReadEntry := (nat * TransactionId.t * V)%type.

Record Tx := mkTx { reads : list ReadEntry; writes : list (nat * (V -> V)) }.

Record Item := mkItem { transaction_id : TransactionId.t; contents : V }.

(** Where a transaction is.  A held lock is the item and the word that
    [data_item_copy.transaction_id] keeps of it. *)
Inductive Pc : Type :=
  | Running (rs : list ReadEntry)
  | ReadLoaded (rs : list ReadEntry) (x : nat) (tx_id : TransactionId.t)
  | ReadCopied (rs : list ReadEntry) (x : nat) (tx_id : TransactionId.t) (snapshot : V)
  | Locking (tx : Tx) (locked : list (nat * TransactionId.t)) (todo : list (nat * (V -> V)))
  | Validating (tx : Tx) (locked : list (nat * TransactionId.t)) (epoch : Z)
      (checked todo : list ReadEntry)
  | Installing (tx : Tx) (locked : list (nat * TransactionId.t)) (epoch : Z)
      (todo : list (nat * (V -> V)))
  | Writing (tx : Tx) (locked : list (nat * TransactionId.t)) (epoch : Z) (x : nat) (v : V)
      (todo : list (nat * (V -> V)))
  | Publishing (tx : Tx) (locked : list (nat * TransactionId.t)) (epoch : Z)
  | Committed (tx : Tx)
  | Releasing (locked : list (nat * TransactionId.t))
  | Aborted.

(** A transaction that has joined its commit epoch; [decided] once it can no
    longer abort. *)
Record Entry := mkEntry { owner : nat; entry_tx : Tx; decided : bool }.

Record State := mkState {
  mem : nat -> Item;
  global_epoch : Z;
  pcs : nat -> Pc;
  hist : list Entry;
  published : nat -> V;
}.

Definition upd {A} (f : nat -> A) (i : nat) (a : A) : nat -> A :=
  fun j => if decide (j = i) then a else f j.

Definition init (contents0 : nat -> V) : State :=
  mkState (fun x => mkItem zero (contents0 x)) 1 (fun _ => Running []) [] contents0.

(** [tid & 1u]. *)
Definition is_locked (w : TransactionId.t) : bool := Z.testbit (tid w) 0.

(** [desired.tid |= 1llu], [current.tid--], and the version that
    [PostProcessing] publishes over the locked word [current_tid]. *)
Definition lock_word (w : TransactionId.t) : TransactionId.t := mk (epoch w) (Z.lor (tid w) 1).
Definition release_word (w : TransactionId.t) : TransactionId.t := mk (epoch w) (u32 (tid w - 1)).
Definition unlocked_id (current_epoch : Z) (current_tid : TransactionId.t) : TransactionId.t :=
  if negb (current_epoch =? epoch current_tid) then mk current_epoch 2
  else mk current_epoch (u32 (tid current_tid + 1)).

(** The entries of [validation_set_] for an item the commit has locked get the
    lock bit. *)
Definition mark_locked (x : nat) (rs : list ReadEntry) : list ReadEntry :=
  map (fun e : ReadEntry =>
    let '(y, t, v) := e in if decide (y = x) then (y, lock_word t, v) else (y, t, v)) rs.

Definition set_pc (s : State) (i : nat) (pc : Pc) : State :=
  mkState (mem s) (global_epoch s) (upd (pcs s) i pc) (hist s) (published s).

Definition set_word (s : State) (x : nat) (w : TransactionId.t) : State :=
  mkState (upd (mem s) x (mkItem w (contents (mem s x)))) (global_epoch s) (pcs s) (hist s) (published s).

Definition set_contents (s : State) (x : nat) (v : V) : State :=
  mkState (upd (mem s) x (mkItem (transaction_id (mem s x)) v)) (global_epoch s) (pcs s) (hist s)
    (published s).

Definition set_hist (s : State) (h : list Entry) : State :=
  mkState (mem s) (global_epoch s) (pcs s) h (published s).

(** The order of the program's steps in [hist]: a transaction enters when it
    has all its locks and joins its commit epoch, leaves when it aborts, and
    is decided when its checks have passed. *)
Definition forget (i : nat) (h : list Entry) : list Entry := filter (fun en => owner en <> i) h.
Definition decide_entry (i : nat) (h : list Entry) : list Entry :=
  map (fun en => if decide (owner en = i) then mkEntry i (entry_tx en) true else en) h.

Definition publish (s : State) (x : nat) (w : TransactionId.t) : State :=
  mkState (upd (mem s) x (mkItem w (contents (mem s x)))) (global_epoch s) (pcs s) (hist s)
    (upd (published s) x (contents (mem s x))).

Inductive step (s : State) : State -> Prop :=
  (** [Read]: load an unlocked word, copy, load again. *)
  | step_read_load i rs x :
      pcs s i = Running rs -> is_locked (transaction_id (mem s x)) = false ->
      step s (set_pc s i (ReadLoaded rs x (transaction_id (mem s x))))
  | step_read_copy i rs x t :
      pcs s i = ReadLoaded rs x t ->
      step s (set_pc s i (ReadCopied rs x t (contents (mem s x))))
  | step_read_done i rs x t v :
      pcs s i = ReadCopied rs x t v -> transaction_id (mem s x) = t ->
      step s (set_pc s i (Running (rs ++ [(x, t, v)])))
  | step_read_again i rs x t v :
      pcs s i = ReadCopied rs x t v -> transaction_id (mem s x) <> t ->
      step s (set_pc s i (Running rs))
  (** The caller gives up. *)
  | step_abort i rs :
      pcs s i = Running rs -> step s (set_pc s i Aborted)
  (** [Precommit]: lock the items of the write set. *)
  | step_precommit i rs ws :
      pcs s i = Running rs -> NoDup (map fst ws) ->
      step s (set_pc s i (Locking (mkTx rs ws) [] ws))
  | step_lock i tx locked x f todo :
      pcs s i = Locking tx locked ((x, f) :: todo) ->
      is_locked (transaction_id (mem s x)) = false ->
      let desired := lock_word (transaction_id (mem s x)) in
      step s (set_pc (set_word s x desired) i
        (Locking (mkTx (mark_locked x (reads tx)) (writes tx)) (locked ++ [(x, desired)]) todo))
  | step_detached i tx locked todo :
      pcs s i = Locking tx locked todo ->
      step s (set_pc s i (Releasing locked))
  (** [MakeMeOffline], [MakeMeOnline]. *)
  | step_join i tx locked :
      pcs s i = Locking tx locked [] ->
      step s (set_pc (set_hist s (hist s ++ [mkEntry i tx false])) i
        (Validating tx locked (global_epoch s) [] (reads tx)))
  (** [AntiDependencyValidation] and the checks after it. *)
  | step_validate i tx locked e checked x t v todo :
      pcs s i = Validating tx locked e checked ((x, t, v) :: todo) ->
      transaction_id (mem s x) = t ->
      step s (set_pc s i (Validating tx locked e (checked ++ [(x, t, v)]) todo))
  | step_invalid i tx locked e checked x t v todo :
      pcs s i = Validating tx locked e checked ((x, t, v) :: todo) ->
      transaction_id (mem s x) <> t ->
      step s (set_pc (set_hist s (forget i (hist s))) i (Releasing locked))
  | step_refused i tx locked e checked :
      pcs s i = Validating tx locked e checked [] ->
      step s (set_pc (set_hist s (forget i (hist s))) i (Releasing locked))
  (** [IsOmittable] has validated without locks, and the omission fails
      ([SiloNWR] only). *)
  | step_retry i tx e checked todo :
      pcs s i = Validating tx [] e checked todo ->
      step s (set_pc (set_hist s (forget i (hist s))) i (Running (reads tx)))
  | step_decide i tx locked e checked :
      pcs s i = Validating tx locked e checked [] ->
      step s (set_pc (set_hist s (decide_entry i (hist s))) i (Installing tx locked e (writes tx)))
  (** The buffer update: the contents are in flux until the copy is done. *)
  | step_install i tx locked e x f todo :
      pcs s i = Installing tx locked e ((x, f) :: todo) ->
      step s (set_pc s i (Writing tx locked e x (f (contents (mem s x))) todo))
  | step_write_part i tx locked e x v todo garbage :
      pcs s i = Writing tx locked e x v todo ->
      step s (set_contents s x garbage)
  | step_write_done i tx locked e x v todo :
      pcs s i = Writing tx locked e x v todo ->
      step s (set_pc (set_contents s x v) i (Installing tx locked e todo))
  | step_installed i tx locked e :
      pcs s i = Installing tx locked e [] ->
      step s (set_pc s i (Publishing tx locked e))
  (** [PostProcessing]: publish the new versions.  The sequence number of a
      version is below its 32-bit limit. *)
  | step_publish i tx x w locked e :
      pcs s i = Publishing tx ((x, w) :: locked) e -> tid w + 1 < 2 ^ 32 ->
      step s (set_pc (publish s x (unlocked_id e w)) i (Publishing tx locked e))
  | step_committed i tx e :
      pcs s i = Publishing tx [] e ->
      step s (set_pc s i (Committed tx))
  (** Unlocking after a failed commit. *)
  | step_release i x w locked :
      pcs s i = Releasing ((x, w) :: locked) ->
      step s (set_pc (set_word s x (release_word (transaction_id (mem s x)))) i (Releasing locked))
  | step_aborted i :
      pcs s i = Releasing [] -> step s (set_pc s i Aborted)
  (** The epoch advances. *)
  | step_epoch :
      step s (mkState (mem s) (global_epoch s + 1) (pcs s) (hist s) (published s)).

(** ** Serial execution *)

(** What a transaction makes of an item. *)
Fixpoint write_of (x : nat) (ws : list (nat * (V -> V))) (v : V) : V :=
  match ws with
  | [] => v
  | (y, f) :: ws' => if decide (y = x) then f v else write_of x ws' v
  end.

(** The contents of an item after transactions one after the other. *)
Definition serial (txs : list Tx) (x : nat) (v : V) : V :=
  fold_left (fun v tx => write_of x (writes tx) v) txs v.

Definition committed (h : list Entry) : list Tx := map entry_tx (filter (fun en => decided en = true) h).

End silo.

Arguments Pc : clear implicits.
Arguments Tx : clear implicits.
Arguments Item : clear implicits.
Arguments State : clear implicits.
Arguments Entry : clear implicits.
