(* ===== verification/SiloSerial.v ===== *)
(** * Serializability of the Silo commit protocol

    The invariant of Silo.v's executions and the theorem: the committed
    transactions, in the order in which they joined their commit epoch, form
    a serial execution.  Every committed transaction has read what the
    transactions before it in that order leave, and an item that no commit is
    working on holds what all of them leave.

    The argument follows the protocol.  An item's locks exclude each other,
    and a transaction holds all of its locks when it joins, so the holder of
    an item is the last transaction of the order that writes it.  Versions
    grow with every publication, so a read whose version is still current at
    its check has not been overwritten, and no transaction that joined earlier
    can still be about to write the item, since the item would be locked. *)

From S2P Require Import Prelude Types Silo.
Import TransactionId.

(** ** Versions *)

(** A word without its lock bit. *)
Definition base (w : TransactionId.t) : TransactionId.t := mk (epoch w) (tid w - tid w mod 2).

Definition tid_le (a b : TransactionId.t) : Prop :=
  epoch a < epoch b ∨ epoch a = epoch b ∧ tid a <= tid b.
Definition tid_lt (a b : TransactionId.t) : Prop :=
  epoch a < epoch b ∨ epoch a = epoch b ∧ tid a < tid b.

Lemma is_locked_mod w : is_locked w = (tid w mod 2 =? 1).
Proof.
  unfold is_locked. rewrite Z.bit0_odd, Zmod_odd. by destruct (Z.odd (tid w)).
Qed.

Lemma tid_eta w : mk (epoch w) (tid w) = w.
Proof. by destruct w. Qed.

Lemma base_unlocked w : is_locked w = false -> base w = w.
Proof.
  rewrite is_locked_mod, Z.eqb_neq. intros H. unfold base.
  pose proof (Z.mod_pos_bound (tid w) 2 ltac:(lia)). replace (tid w mod 2) with 0 by lia.
  rewrite Z.sub_0_r. apply tid_eta.
Qed.

Lemma lock_word_spec w : is_locked w = false ->
  lock_word w = mk (epoch w) (tid w + 1) ∧ is_locked (lock_word w) = true ∧ base (lock_word w) = w.
Proof.
  intros Hw. rewrite is_locked_mod, Z.eqb_neq in Hw.
  pose proof (Z.mod_pos_bound (tid w) 2 ltac:(lia)). assert (tid w mod 2 = 0) as Hm by lia.
  pose proof (Z.div_mod (tid w) 2 ltac:(lia)) as Hd.
  assert (lock_word w = mk (epoch w) (tid w + 1)) as ->.
  { unfold lock_word. f_equal. rewrite Z.lor_comm. replace (tid w) with (tid w / 2 * 2 ^ 1) at 1 by lia.
    rewrite lor_mul_add by lia. lia. }
  assert ((tid w + 1) mod 2 = 1) as H1 by (rewrite Z.add_mod, Hm by lia; done).
  split; [done|]. split; [by rewrite is_locked_mod; simpl; rewrite H1|].
  unfold base. simpl. rewrite H1. rewrite <- (tid_eta w) at 3. f_equal. lia.
Qed.

Lemma release_word_spec w : is_locked w = true -> 0 <= tid w < 2 ^ 32 ->
  base (release_word w) = base w ∧ is_locked (release_word w) = false ∧ 0 <= tid (release_word w) < 2 ^ 32.
Proof.
  rewrite is_locked_mod, Z.eqb_eq. intros Hm Hb. unfold release_word, base. simpl.
  pose proof (Z.div_mod (tid w) 2 ltac:(lia)) as Hd.
  rewrite u32_small by (unfold is_u32; lia).
  assert ((tid w - 1) mod 2 = 0) as H1 by (rewrite Zminus_mod, Hm; done).
  rewrite H1, Hm. split; [f_equal; lia|]. split; [|simpl; lia].
  rewrite is_locked_mod. simpl. by rewrite H1.
Qed.

(** The published version is unlocked and above the locked one. *)
Lemma unlocked_id_spec e w : is_locked w = true -> 0 <= tid w -> tid w + 1 < 2 ^ 32 -> epoch w <= e ->
  is_locked (unlocked_id e w) = false ∧ tid_lt (base w) (unlocked_id e w) ∧
  epoch (unlocked_id e w) = e ∧ 0 <= tid (unlocked_id e w) < 2 ^ 32.
Proof.
  rewrite is_locked_mod, Z.eqb_eq. intros Hm Hb Hlim He. unfold unlocked_id, tid_lt, base.
  pose proof (Z.div_mod (tid w) 2 ltac:(lia)) as Hd.
  destruct (Z.eqb_spec e (epoch w)); simpl; rewrite is_locked_mod; simpl.
  - rewrite u32_small by (unfold is_u32; lia).
    assert ((tid w + 1) mod 2 = 0) as -> by (rewrite Z.add_mod, Hm by lia; done).
    split; [done|]. split; [right; lia|]. split; [done|lia].
  - split; [done|]. split; [left; lia|]. split; [done|lia].
Qed.

Lemma tid_le_refl a : tid_le a a.
Proof. right. lia. Qed.

Lemma tid_le_lt_trans a b c : tid_le a b -> tid_lt b c -> tid_lt a c.
Proof. unfold tid_le, tid_lt. lia. Qed.

Lemma tid_lt_le a b : tid_lt a b -> tid_le a b.
Proof. unfold tid_le, tid_lt. lia. Qed.

Lemma tid_lt_ne a b : tid_lt a b -> a <> b.
Proof. intros H ->. unfold tid_lt in H. lia. Qed.

(** ** Serial executions *)

Section serial.
Context {V : Type}.
Implicit Types (tx : Tx V) (h : list (Entry V)).

Definition writes_item tx (x : nat) : Prop := x ∈ map fst (writes tx).

#[global] Instance writes_item_dec tx x : Decision (writes_item tx x).
Proof. unfold writes_item. apply _. Defined.

Lemma write_of_absent x (ws : list (nat * (V -> V))) v : x ∉ map fst ws -> write_of x ws v = v.
Proof.
  induction ws as [|[y f] ws IH]; simpl; [done|]. rewrite not_elem_of_cons. intros [Hne Hnin].
  rewrite decide_False by congruence. auto.
Qed.

Lemma serial_app l1 l2 x (v : V) : serial (l1 ++ l2) x v = serial l2 x (serial l1 x v).
Proof. unfold serial. apply fold_left_app. Qed.

Lemma serial_absent (l : list (Tx V)) x v : (∀ tx, tx ∈ l -> ¬ writes_item tx x) -> serial l x v = v.
Proof.
  revert v. induction l as [|tx l IH]; intros v Hl; [done|]. simpl.
  rewrite write_of_absent by (apply Hl, list_elem_of_here).
  apply IH. intros tx' Hin. apply Hl. by apply list_elem_of_further.
Qed.

Lemma committed_app h1 h2 : committed (h1 ++ h2) = committed h1 ++ committed h2.
Proof. unfold committed. by rewrite filter_app, map_app. Qed.

Lemma elem_of_committed h tx : tx ∈ committed h <-> ∃ en, en ∈ h ∧ decided en = true ∧ entry_tx en = tx.
Proof.
  unfold committed. rewrite list_elem_of_fmap. setoid_rewrite list_elem_of_filter. naive_solver.
Qed.

Lemma committed_cons en h : committed (en :: h) = (if decided en then [entry_tx en] else []) ++ committed h.
Proof.
  unfold committed. rewrite filter_cons. destruct (decided en) eqn:E; [by rewrite decide_True|].
  by rewrite decide_False by congruence.
Qed.

End serial.

(** ** The invariant *)

Section invariant.
Context {V : Type} (contents0 : nat -> V).
Implicit Types (s : State V) (pc : Pc V) (tx : Tx V) (h : list (Entry V)).

(** The locks a transaction holds, what it has joined with, whether it is past
    its checks, what it has read and which reads have been checked. *)
Definition held pc : list (nat * TransactionId.t) :=
  match pc with
  | Locking _ l _ | Validating _ l _ _ _ | Installing _ l _ _ | Writing _ l _ _ _ _
  | Publishing _ l _ | Releasing l => l
  | _ => []
  end.

Definition joined pc : option (Tx V) :=
  match pc with
  | Validating tx _ _ _ _ | Installing tx _ _ _ | Writing tx _ _ _ _ _ | Publishing tx _ _
  | Committed tx => Some tx
  | _ => None
  end.

Definition is_decided pc : bool :=
  match pc with Installing _ _ _ _ | Writing _ _ _ _ _ _ | Publishing _ _ _ | Committed _ => true | _ => false end.

Definition reads_of pc : list (nat * TransactionId.t * V) :=
  match pc with
  | Running rs | ReadLoaded rs _ _ | ReadCopied rs _ _ _ => rs
  | Locking tx _ _ | Validating tx _ _ _ _ => reads tx
  | _ => []
  end.

Definition checked_of pc : list (nat * TransactionId.t * V) :=
  match pc with
  | Validating _ _ _ c _ => c
  | Installing tx _ _ _ | Writing tx _ _ _ _ _ | Publishing tx _ _ | Committed tx => reads tx
  | _ => []
  end.

Definition holds s (i x : nat) : Prop := x ∈ map fst (held (pcs s i)).

Definition word s (x : nat) : TransactionId.t := transaction_id (mem s x).
Definition cont s (x : nat) : V := contents (mem s x).

(** The contents the decided transactions leave. *)
Definition logical s (x : nat) : V := serial (committed (hist s)) x (contents0 x).

(** The shape of a position: which writes are locked, and the commit epoch. *)
Definition epoch_ok s (l : list (nat * TransactionId.t)) (e : Z) : Prop :=
  e <= global_epoch s ∧ ∀ x w, (x, w) ∈ l -> epoch w <= e.

Definition shape_ok s pc : Prop :=
  match pc with
  | Locking tx l todo => NoDup (map fst (writes tx)) ∧ map fst (writes tx) = map fst l ++ map fst todo
  | Validating tx l e c todo =>
      NoDup (map fst (writes tx)) ∧ map fst l = map fst (writes tx) ∧ reads tx = c ++ todo ∧ epoch_ok s l e
  | Installing tx l e todo =>
      NoDup (map fst (writes tx)) ∧ map fst l = map fst (writes tx) ∧ epoch_ok s l e ∧
      ∃ done, writes tx = done ++ todo
  | Writing tx l e x v todo =>
      NoDup (map fst (writes tx)) ∧ map fst l = map fst (writes tx) ∧ epoch_ok s l e ∧
      ∃ done f, writes tx = done ++ (x, f) :: todo
  | Publishing tx l e =>
      NoDup (map fst (writes tx)) ∧ epoch_ok s l e ∧ ∃ done, map fst (writes tx) = done ++ map fst l
  | _ => True
  end.

(** What an item holds while its last writer installs it. *)
Definition installed s (todo : list (nat * (V -> V))) (x : nat) : Prop :=
  if decide (x ∈ map fst todo) then cont s x = published s x else cont s x = logical s x.

Definition contents_ok s pc (x : nat) : Prop :=
  match pc with
  | Installing _ _ _ todo => installed s todo x
  | Writing _ _ _ y v todo => if decide (x = y) then v = logical s x else installed s todo x
  | Publishing _ _ _ => cont s x = logical s x
  | _ => True
  end.

(** A read whose version is current has the published contents. *)
Definition read_ok s (i : nat) (r : nat * TransactionId.t * V) : Prop :=
  let '(x, t, v) := r in
  tid_le (base t) (base (word s x)) ∧ (base t = base (word s x) -> v = published s x) ∧
  (is_locked t = true -> holds s i x).

Definition reader_ok s pc : Prop :=
  match pc with
  | ReadLoaded _ x t => is_locked t = false ∧ tid_le t (base (word s x))
  | ReadCopied _ x t v => is_locked t = false ∧ tid_le t (base (word s x)) ∧
      (t = base (word s x) -> v = published s x ∨ ∃ j, is_decided (pcs s j) = true ∧ holds s j x)
  | _ => True
  end.

Record inv s : Prop := {
  inv_words : ∀ x, 0 <= tid (word s x) < 2 ^ 32 ∧ epoch (word s x) <= global_epoch s;
  inv_locks : ∀ i x w, (x, w) ∈ held (pcs s i) -> word s x = w ∧ is_locked w = true;
  inv_holder : ∀ x, is_locked (word s x) = true -> ∃ i, holds s i x;
  inv_excl : ∀ i j x, holds s i x -> holds s j x -> i = j;
  inv_held : ∀ i, NoDup (map fst (held (pcs s i)));
  inv_shape : ∀ i, shape_ok s (pcs s i);
  inv_owners : NoDup (map owner (hist s));
  inv_hist : ∀ en, en ∈ hist s -> joined (pcs s (owner en)) = Some (entry_tx en) ∧
    decided en = is_decided (pcs s (owner en));
  inv_joined : ∀ i tx, joined (pcs s i) = Some tx -> ∃ en, en ∈ hist s ∧ owner en = i;
  (* the holder of an item is its last writer *)
  inv_last : ∀ pre en post x, hist s = pre ++ en :: post -> holds s (owner en) x ->
    ∀ en', en' ∈ post -> ¬ writes_item (entry_tx en') x;
  inv_clean : ∀ x, (∀ i, holds s i x -> is_decided (pcs s i) = false) ->
    cont s x = published s x ∧ published s x = logical s x;
  inv_dirty : ∀ i x tx, joined (pcs s i) = Some tx -> is_decided (pcs s i) = true -> holds s i x ->
    logical s x = write_of x (writes tx) (published s x) ∧ contents_ok s (pcs s i) x;
  inv_reads : ∀ i r, r ∈ reads_of (pcs s i) -> read_ok s i r;
  inv_reader : ∀ i, reader_ok s (pcs s i);
  (* a current read of a joined transaction is not overwritten after it *)
  inv_fresh : ∀ pre en post x t v, hist s = pre ++ en :: post ->
    (x, t, v) ∈ reads_of (pcs s (owner en)) -> base t = base (word s x) ->
    ∀ en', en' ∈ post -> writes_item (entry_tx en') x -> holds s (owner en') x;
  inv_checked : ∀ pre en post x t v, hist s = pre ++ en :: post ->
    (x, t, v) ∈ checked_of (pcs s (owner en)) ->
    v = serial (committed pre) x (contents0 x) ∧
    ∀ en', en' ∈ pre -> decided en' = false -> ¬ writes_item (entry_tx en') x;
}.

Lemma upd_eq {A} (f : nat -> A) i a : upd f i a i = a.
Proof. unfold upd. by rewrite decide_True. Qed.

Lemma upd_ne {A} (f : nat -> A) i j a : j <> i -> upd f i a j = f j.
Proof. intros. unfold upd. by rewrite decide_False. Qed.

Lemma upd_proj {A B} (g : A -> B) (f : nat -> A) i a : g a = g (f i) -> ∀ j, g (upd f i a j) = g (f j).
Proof. intros Hg j. unfold upd. destruct (decide (j = i)) as [->|]; done. Qed.

Lemma holds_elem s i x : holds s i x <-> ∃ w, (x, w) ∈ held (pcs s i).
Proof.
  unfold holds. rewrite list_elem_of_fmap. split; [intros ([y w] & -> & ?); by exists w|].
  intros [w Hw]. by exists (x, w).
Qed.

(** An item whose word is not locked has no holder, and its holder is the one
    with the word. *)
Lemma unlocked_free s x i : inv s -> is_locked (word s x) = false -> ¬ holds s i x.
Proof. intros Hinv Hl [w Hw]%holds_elem. destruct (inv_locks _ Hinv _ _ _ Hw). congruence. Qed.

Lemma silo_init_inv : inv (init contents0).
Proof.
  split; simpl; try done; try (intros; set_solver); [intros i|]; constructor.
Qed.

(** ** Steps that only move a transaction *)

Section moves.
Context (s : State V) (i : nat) (pc' : Pc V).
Hypothesis Hheld : held pc' = held (pcs s i).
Hypothesis Hdec : is_decided pc' = is_decided (pcs s i).

Lemma move_holds j x : holds (set_pc s i pc') j x <-> holds s j x.
Proof. unfold holds. simpl. by rewrite (upd_proj held _ _ _ Hheld). Qed.

Lemma move_decided j : is_decided (pcs (set_pc s i pc') j) = is_decided (pcs s j).
Proof. simpl. by rewrite (upd_proj is_decided _ _ _ Hdec). Qed.

Lemma move_read_ok j r : read_ok s j r -> read_ok (set_pc s i pc') j r.
Proof.
  destruct r as [[x t] v]. intros (Hle & Hv & Hl). split; [done|]. split; [done|].
  rewrite move_holds. done.
Qed.

Lemma move_reader_ok pc : reader_ok s pc -> reader_ok (set_pc s i pc') pc.
Proof.
  destruct pc; simpl; try done. intros (Hl & Hle & Hv). split; [done|]. split; [done|].
  intros Ht. destruct (Hv Ht) as [?|(j & Hj & Hx)]; [by left|right].
  exists j. rewrite (upd_proj is_decided _ _ _ Hdec). by rewrite move_holds.
Qed.

Lemma inv_move :
  inv s -> joined pc' = joined (pcs s i) -> shape_ok s pc' -> reader_ok s pc' ->
  (∀ r, r ∈ reads_of pc' -> read_ok s i r) ->
  (joined pc' <> None -> ∀ r, r ∈ reads_of pc' -> r ∈ reads_of (pcs s i)) ->
  (is_decided pc' = true -> ∀ x, holds s i x -> contents_ok s (pcs s i) x -> contents_ok s pc' x) ->
  (∀ pre en post x t v, hist s = pre ++ en :: post -> owner en = i -> (x, t, v) ∈ checked_of pc' ->
     v = serial (committed pre) x (contents0 x) ∧
     ∀ en', en' ∈ pre -> decided en' = false -> ¬ writes_item (entry_tx en') x) ->
  inv (set_pc s i pc').
Proof.
  intros Hinv Hj Hshape Hreader Hreads Hsub Hcont Hchk.
  assert (∀ j, joined (pcs (set_pc s i pc') j) = joined (pcs s j)) as Hjoin
    by (intros j; simpl; by rewrite (upd_proj joined _ _ _ Hj)).
  split.
  - apply (inv_words _ Hinv).
  - intros j x w. simpl. rewrite (upd_proj held _ _ _ Hheld). apply (inv_locks _ Hinv).
  - intros x Hx. destruct (inv_holder _ Hinv x Hx) as [j Hjx]. exists j. by rewrite move_holds.
  - intros j k x. rewrite !move_holds. apply (inv_excl _ Hinv).
  - intros j. simpl. rewrite (upd_proj held _ _ _ Hheld). apply (inv_held _ Hinv).
  - intros j. simpl. unfold upd. destruct (decide (j = i)); [exact Hshape|]. apply (inv_shape _ Hinv).
  - apply (inv_owners _ Hinv).
  - intros en Hen. rewrite Hjoin, move_decided. by apply (inv_hist _ Hinv).
  - intros j tx. rewrite Hjoin. apply (inv_joined _ Hinv).
  - intros pre en post x Hh. rewrite move_holds. by apply (inv_last _ Hinv) with pre.
  - intros x Hx. apply (inv_clean _ Hinv). intros j Hjx. rewrite <- move_decided.
    apply Hx. by rewrite move_holds.
  - intros j x tx. rewrite Hjoin, move_decided, move_holds. intros Hjt Hjd Hjx.
    destruct (inv_dirty _ Hinv j x tx Hjt Hjd Hjx) as [Hl Hc]. split; [exact Hl|].
    simpl. unfold upd. destruct (decide (j = i)) as [->|]; [|exact Hc].
    apply (Hcont ltac:(congruence) x Hjx Hc).
  - intros j r. simpl. unfold upd at 1. destruct (decide (j = i)) as [->|]; intros Hr; apply move_read_ok;
      [auto|by apply (inv_reads _ Hinv)].
  - intros j. apply move_reader_ok. simpl. unfold upd. destruct (decide (j = i)); [exact Hreader|].
    apply (inv_reader _ Hinv).
  - intros pre en post x t v Hh Hr Hb en' Hen' Hw. rewrite move_holds.
    apply (inv_fresh _ Hinv pre en post x t v); try done. simpl in Hr. unfold upd in Hr.
    destruct (decide (owner en = i)) as [Heq|]; [|done]. rewrite Heq. apply Hsub; [|done].
    destruct (inv_hist _ Hinv en) as [Hjn _]; [simpl in Hh; rewrite Hh; set_solver|]. congruence.
  - intros pre en post x t v Hh Hr. simpl in Hr. unfold upd in Hr.
    destruct (decide (owner en = i)) as [Heq|]; [by eapply Hchk|]. by apply (inv_checked _ Hinv) with en post t.
Qed.

End moves.

(** ** What a check of a read shows *)

Lemma free_or_dirty s x : inv s ->
  (cont s x = published s x ∧ published s x = logical s x) ∨
  ∃ i, is_decided (pcs s i) = true ∧ holds s i x.
Proof.
  intros Hinv. destruct (is_locked (word s x)) eqn:El.
  - destruct (inv_holder _ Hinv x El) as [i Hi]. destruct (is_decided (pcs s i)) eqn:Ed; [by right; exists i|].
    left. apply (inv_clean _ Hinv). intros j Hj. by rewrite (inv_excl _ Hinv j i x).
  - left. apply (inv_clean _ Hinv). intros j Hj. by destruct (unlocked_free s x j Hinv El).
Qed.

(** A joined transaction that has not been decided holds all of its writes. *)
Lemma pending_holds s en x : inv s -> en ∈ hist s -> decided en = false ->
  writes_item (entry_tx en) x -> holds s (owner en) x.
Proof.
  intros Hinv Hen Hd Hw. destruct (inv_hist _ Hinv en Hen) as [Hj Hdd]. rewrite Hd in Hdd.
  pose proof (inv_shape _ Hinv (owner en)) as Hs. unfold holds.
  destruct (pcs s (owner en)); simpl in *; try done. destruct Hs as (_ & -> & _). naive_solver.
Qed.

Lemma same_owner s pre en post en' : inv s -> hist s = pre ++ en :: post -> en' ∈ pre ++ post ->
  owner en' <> owner en.
Proof.
  intros Hinv Hh Hen Heq. pose proof (inv_owners _ Hinv) as Hnd. rewrite Hh in Hnd.
  rewrite map_app in Hnd. simpl in Hnd. apply NoDup_app in Hnd as (_ & Hdis & Hnd2).
  inversion_clear Hnd2 as [|?? Hnin _]. apply elem_of_app in Hen as [Hen|Hen].
  - apply (Hdis (owner en')); [by apply list_elem_of_fmap_2|]. rewrite Heq. apply list_elem_of_here.
  - apply Hnin. rewrite <- Heq. by apply list_elem_of_fmap_2.
Qed.

(** The check of a read that finds its version current. *)
Lemma check_passes s i tx l e c todo x t v pre en post : inv s ->
  pcs s i = Validating tx l e c todo -> (x, t, v) ∈ reads tx -> word s x = t ->
  hist s = pre ++ en :: post -> owner en = i ->
  v = serial (committed pre) x (contents0 x) ∧
  ∀ en', en' ∈ pre -> decided en' = false -> ¬ writes_item (entry_tx en') x.
Proof.
  intros Hinv Hpc Hr Hw Hh Ho.
  destruct (inv_reads _ Hinv i (x, t, v)) as (_ & Hv & Hlk); [by rewrite Hpc|].
  assert (∀ j, holds s j x -> j = i) as Hme.
  { intros j Hj. destruct (is_locked t) eqn:El; [by apply (inv_excl _ Hinv j i x); auto|].
    rewrite <- Hw in El. by destruct (unlocked_free s x j Hinv El). }
  assert (decided en = false) as Hnd.
  { destruct (inv_hist _ Hinv en) as [_ ->]; [rewrite Hh; set_solver|]. by rewrite Ho, Hpc. }
  destruct (inv_clean _ Hinv x) as [_ Hpub]; [intros j Hj; by rewrite (Hme j Hj), Hpc|].
  split.
  - rewrite Hv by by rewrite Hw. rewrite Hpub. unfold logical.
    rewrite Hh, committed_app, committed_cons, Hnd, serial_app. simpl. apply serial_absent.
    intros tx' (en' & Hen' & _ & <-)%elem_of_committed Hwr.
    assert (owner en' = i) as Heq.
    { apply Hme. apply (inv_fresh _ Hinv pre en post x t v); try done; [by rewrite Ho, Hpc|by rewrite Hw]. }
    apply (same_owner s pre en post en' Hinv Hh); [set_solver|congruence].
  - intros en' Hen' Hd' Hwr. assert (owner en' = i) as Heq.
    { apply Hme, pending_holds; try done. rewrite Hh. set_solver. }
    apply (same_owner s pre en post en' Hinv Hh); [set_solver|congruence].
Qed.

(** ** Steps of a read and steps without an access *)

Lemma holds_pc s i x pc : pcs s i = pc -> holds s i x <-> x ∈ map fst (held pc).
Proof. unfold holds. by intros ->. Qed.

Lemma read_load_inv s i rs x : inv s -> pcs s i = Running rs -> is_locked (word s x) = false ->
  inv (set_pc s i (ReadLoaded rs x (word s x))).
Proof.
  intros Hinv Hpc Hl. pose proof (inv_reads _ Hinv i) as Hr. rewrite Hpc in Hr.
  apply inv_move; rewrite ?Hpc; try done.
  - simpl. split; [done|]. rewrite base_unlocked by done. apply tid_le_refl.
  - intros *. set_solver.
Qed.

Lemma read_copy_inv s i rs x t : inv s -> pcs s i = ReadLoaded rs x t ->
  inv (set_pc s i (ReadCopied rs x t (cont s x))).
Proof.
  intros Hinv Hpc. pose proof (inv_reads _ Hinv i) as Hr. pose proof (inv_reader _ Hinv i) as Hrd.
  rewrite Hpc in Hr, Hrd. destruct Hrd as [Hl Hle]. apply inv_move; rewrite ?Hpc; try done.
  - simpl. split; [done|]. split; [done|]. intros _.
    destruct (free_or_dirty s x Hinv) as [[? _]|?]; [by left|by right].
  - intros *. set_solver.
Qed.

Lemma read_done_inv s i rs x t v : inv s -> pcs s i = ReadCopied rs x t v -> word s x = t ->
  inv (set_pc s i (Running (rs ++ [(x, t, v)]))).
Proof.
  intros Hinv Hpc Hw. pose proof (inv_reads _ Hinv i) as Hr. pose proof (inv_reader _ Hinv i) as Hrd.
  rewrite Hpc in Hr, Hrd. destruct Hrd as (Hl & Hle & Hv). apply inv_move; rewrite ?Hpc; try done.
  - intros r [Hin|Hin]%elem_of_app; [by apply Hr|]. apply list_elem_of_singleton in Hin as ->.
    split; [rewrite Hw; apply tid_le_refl|]. split; [|congruence]. intros Hb.
    destruct Hv as [?|(j & _ & Hj)]; [by rewrite <- Hb, base_unlocked|done|].
    rewrite <- Hw in Hl. by destruct (unlocked_free s x j Hinv Hl).
  - intros *. set_solver.
Qed.

(** A transaction that stops reading or gives up. *)
Lemma drop_inv s i pc' : inv s -> held pc' = held (pcs s i) -> joined (pcs s i) = None -> joined pc' = None ->
  shape_ok s pc' -> (∀ r, r ∈ reads_of pc' -> r ∈ reads_of (pcs s i)) ->
  match pc' with Running _ | Locking _ _ _ | Releasing _ | Aborted => True | _ => False end ->
  inv (set_pc s i pc').
Proof.
  intros Hinv Hh Hj Hj' Hsh Hr Hk. apply inv_move; try done.
  - destruct pc', (pcs s i); done.
  - congruence.
  - by destruct pc'.
  - intros r Hin. by apply (inv_reads _ Hinv), Hr.
  - intros Hd. by destruct pc'.
  - intros *. destruct pc'; try done; set_solver.
Qed.

(** ** Steps of a commit without an access *)

Lemma validate_inv s i tx l e c x t v todo : inv s ->
  pcs s i = Validating tx l e c ((x, t, v) :: todo) -> word s x = t ->
  inv (set_pc s i (Validating tx l e (c ++ [(x, t, v)]) todo)).
Proof.
  intros Hinv Hpc Hw. pose proof (inv_reads _ Hinv i) as Hr. pose proof (inv_shape _ Hinv i) as Hs.
  rewrite Hpc in Hr, Hs. destruct Hs as (Hnd & Hl & Hrs & He). apply inv_move; rewrite ?Hpc; try done.
  - split; [done|]. split; [done|]. split; [|done]. by rewrite <- app_assoc.
  - intros pre en post y t' v' Hh Ho [Hin|Hin]%elem_of_app.
    + apply (inv_checked _ Hinv pre en post y t'); [done|]. by rewrite Ho, Hpc.
    + apply list_elem_of_singleton in Hin. simplify_eq. eapply check_passes; try done. rewrite Hrs. set_solver.
Qed.

Lemma write_of_at done x f todo (v : V) : NoDup (map fst (done ++ (x, f) :: todo)) ->
  write_of x (done ++ (x, f) :: todo) v = f v.
Proof.
  induction done as [|[y g] done IH]; simpl; intros Hnd; [by rewrite decide_True|].
  inversion_clear Hnd as [|?? Hnin Hnd']. rewrite decide_False; [auto|]. intros ->. apply Hnin.
  rewrite map_app. set_solver.
Qed.

Lemma install_inv s i tx l e x f todo : inv s -> pcs s i = Installing tx l e ((x, f) :: todo) ->
  inv (set_pc s i (Writing tx l e x (f (cont s x)) todo)).
Proof.
  intros Hinv Hpc. pose proof (inv_shape _ Hinv i) as Hs. rewrite Hpc in Hs.
  destruct Hs as (Hnd & Hl & He & done & Hw). apply inv_move; rewrite ?Hpc; try done.
  - split; [done|]. split; [done|]. split; [done|]. by exists done, f.
  - intros r Hr. set_solver.
  - intros _ y Hy. destruct (inv_dirty _ Hinv i y tx) as [Hlog _]; [by rewrite Hpc|by rewrite Hpc|done|].
    simpl. unfold installed. simpl. destruct (decide (y = x)) as [->|Hne].
    + rewrite decide_True by set_solver. intros ->. by rewrite Hlog, Hw, write_of_at by by rewrite <- Hw.
    + destruct (decide (y ∈ x :: map fst todo)) as [Hin|Hin], (decide (y ∈ map fst todo)); try done; set_solver.
  - intros pre en post y t v Hh Ho Hin. apply (inv_checked _ Hinv pre en post y t); [done|]. by rewrite Ho, Hpc.
Qed.

Lemma installed_inv s i tx l e : inv s -> pcs s i = Installing tx l e [] ->
  inv (set_pc s i (Publishing tx l e)).
Proof.
  intros Hinv Hpc. pose proof (inv_shape _ Hinv i) as Hs. rewrite Hpc in Hs.
  destruct Hs as (Hnd & Hl & He & done & Hw). apply inv_move; rewrite ?Hpc; try done.
  - split; [done|]. split; [done|]. by exists [].
  - intros r Hr. set_solver.
  - intros pre en post y t v Hh Ho Hin. apply (inv_checked _ Hinv pre en post y t); [done|]. by rewrite Ho, Hpc.
Qed.

Lemma committed_inv s i tx e : inv s -> pcs s i = Publishing tx [] e -> inv (set_pc s i (Committed tx)).
Proof.
  intros Hinv Hpc. apply inv_move; rewrite ?Hpc; try done.
  - intros r Hr. set_solver.
  - intros pre en post y t v Hh Ho Hin. apply (inv_checked _ Hinv pre en post y t); [done|]. by rewrite Ho, Hpc.
Qed.

(** ** Installing *)

Lemma write_part_inv s i tx l e x v todo g : inv s -> pcs s i = Writing tx l e x v todo ->
  inv (set_contents s x g).
Proof.
  intros Hinv Hpc. set (s' := set_contents s x g).
  assert (∀ y, word s' y = word s y) as Hword
    by (intros y; unfold word; simpl; unfold upd; destruct (decide (y = x)) as [->|]; done).
  assert (∀ y, y <> x -> cont s' y = cont s y) as Hcont by (intros y Hy; unfold cont; simpl; by rewrite upd_ne).
  assert (holds s i x) as Hx.
  { pose proof (inv_shape _ Hinv i) as Hs. rewrite Hpc in Hs. destruct Hs as (_ & Hl & _ & done & f & Hw).
    unfold holds. rewrite Hpc. simpl. rewrite Hl, Hw, map_app. set_solver. }
  split.
  - intros y. rewrite Hword. apply (inv_words _ Hinv).
  - intros j y w. rewrite Hword. apply (inv_locks _ Hinv).
  - intros y. rewrite Hword. apply (inv_holder _ Hinv).
  - apply (inv_excl _ Hinv).
  - apply (inv_held _ Hinv).
  - apply (inv_shape _ Hinv).
  - apply (inv_owners _ Hinv).
  - apply (inv_hist _ Hinv).
  - apply (inv_joined _ Hinv).
  - apply (inv_last _ Hinv).
  - intros y Hy. destruct (decide (y = x)) as [->|Hne].
    + specialize (Hy i Hx). simpl in Hy. by rewrite Hpc in Hy.
    + rewrite Hcont by done. by apply (inv_clean _ Hinv).
  - intros j y tx' Hj Hd Hy. destruct (inv_dirty _ Hinv j y tx' Hj Hd Hy) as [Hlog Hc]. split; [done|].
    destruct (decide (y = x)) as [->|Hne].
    + rewrite (inv_excl _ Hinv j i x Hy Hx) in *. simpl pcs in *. rewrite Hpc in *. simpl in *.
      by rewrite decide_True in *.
    + simpl pcs. revert Hc. unfold contents_ok, installed. rewrite Hcont by done. done.
  - intros j [[y t] v'] Hr. destruct (inv_reads _ Hinv j _ Hr) as (H1 & H2 & H3).
    split; [by rewrite Hword|]. split; [by rewrite Hword|done].
  - intros j. pose proof (inv_reader _ Hinv j) as Hr. simpl pcs. destruct (pcs s j); simpl in *; try done;
      by rewrite Hword.
  - intros pre en post y t v'. rewrite Hword. apply (inv_fresh _ Hinv).
  - apply (inv_checked _ Hinv).
Qed.

Lemma write_done_inv s i tx l e x v todo : inv s -> pcs s i = Writing tx l e x v todo ->
  inv (set_pc (set_contents s x v) i (Installing tx l e todo)).
Proof.
  intros Hinv Hpc. pose proof (write_part_inv s i tx l e x v todo v Hinv Hpc) as Hinv1.
  set (s1 := set_contents s x v) in *. assert (pcs s1 i = Writing tx l e x v todo) as Hpc1 by done.
  pose proof (inv_shape _ Hinv1 i) as Hs. rewrite Hpc1 in Hs. destruct Hs as (Hnd & Hl & He & done & f & Hw).
  apply inv_move; rewrite ?Hpc1; try done.
  - split; [done|]. split; [done|]. split; [done|]. exists (done ++ [(x, f)]). by rewrite <- app_assoc.
  - intros r Hr. set_solver.
  - intros _ y Hy. simpl. destruct (decide (y = x)) as [->|]; [|done]. intros Hv. unfold installed.
    rewrite decide_False.
    + unfold cont. simpl. by rewrite upd_eq.
    + intros Hin. rewrite Hw, map_app in Hnd. simpl in Hnd. apply NoDup_app in Hnd as (_ & _ & Hnd2).
      inversion_clear Hnd2. done.
  - intros pre en post y t v' Hh Ho Hin. apply (inv_checked _ Hinv1 pre en post y t); [done|]. by rewrite Ho, Hpc1.
Qed.

(** ** Locking and releasing

    Both change only the lock bit of one word, for a transaction that is not
    joined. *)

Section relock.
Context (s : State V) (i x : nat) (w : TransactionId.t) (pc' : Pc V).
Let s' := set_pc (set_word s x w) i pc'.

Lemma relock_word y : word s' y = if decide (y = x) then w else word s y.
Proof. unfold word, s'. simpl. unfold upd. by destruct (decide (y = x)). Qed.

Lemma relock_cont y : cont s' y = cont s y.
Proof. unfold cont, s'. simpl. unfold upd. destruct (decide (y = x)) as [->|]; done. Qed.

Lemma relock_pc j : j <> i -> pcs s' j = pcs s j.
Proof. intros. unfold s'. simpl. by rewrite upd_ne. Qed.

Lemma relock_pc_i : pcs s' i = pc'.
Proof. unfold s'. simpl. by rewrite upd_eq. Qed.

Hypothesis Hbase : base w = base (word s x).

Lemma relock_base y : base (word s' y) = base (word s y).
Proof. rewrite relock_word. by destruct (decide (y = x)) as [->|]. Qed.

Lemma relock_holds j y : j <> i -> holds s' j y <-> holds s j y.
Proof. intros. unfold holds. by rewrite relock_pc. Qed.

Hypothesis Hinv : inv s.
Hypothesis Hj : joined (pcs s i) = None.
Hypothesis Hj' : joined pc' = None.

Lemma relock_undecided : is_decided (pcs s i) = false ∧ is_decided pc' = false.
Proof. split; [by destruct (pcs s i)|by destruct pc']. Qed.

Lemma relock_joined j tx : joined (pcs s' j) = Some tx -> j <> i ∧ joined (pcs s j) = Some tx.
Proof.
  destruct (decide (j = i)) as [->|]; [rewrite relock_pc_i; congruence|]. by rewrite relock_pc.
Qed.

Lemma relock_owner en : en ∈ hist s -> owner en <> i.
Proof. intros Hen Heq. destruct (inv_hist _ Hinv en Hen) as [Hjn _]. rewrite Heq in Hjn. congruence. Qed.

Lemma relock_clean y :
  (∀ j, holds s' j y -> is_decided (pcs s' j) = false) -> ∀ j, holds s j y -> is_decided (pcs s j) = false.
Proof.
  intros Hy j Hjy. destruct (decide (j = i)) as [->|]; [apply relock_undecided|].
  rewrite <- relock_pc by done. apply Hy. by rewrite relock_holds.
Qed.

Lemma relock_reader pc : reader_ok s pc -> reader_ok s' pc.
Proof.
  destruct pc; simpl; try done; rewrite relock_base; [done|]. intros (? & ? & Hv). split; [done|]. split; [done|].
  intros Ht. destruct (Hv Ht) as [?|(j & Hd & Hx)]; [by left|right]. exists j.
  assert (j <> i) by (intros ->; by rewrite (proj1 relock_undecided) in Hd).
  rewrite upd_ne by done. split; [done|]. by rewrite relock_holds.
Qed.

Lemma relock_inv :
  (∀ y, 0 <= tid (word s' y) < 2 ^ 32 ∧ epoch (word s' y) <= global_epoch s) ->
  (∀ j y u, (y, u) ∈ held (pcs s' j) -> word s' y = u ∧ is_locked u = true) ->
  (∀ y, is_locked (word s' y) = true -> ∃ j, holds s' j y) ->
  (∀ j k y, holds s' j y -> holds s' k y -> j = k) ->
  NoDup (map fst (held pc')) -> shape_ok s pc' -> reader_ok s pc' ->
  (∀ r, r ∈ reads_of pc' -> read_ok s' i r) ->
  (∀ j, j <> i -> ∀ r, r ∈ reads_of (pcs s j) -> read_ok s j r -> read_ok s' j r) ->
  inv s'.
Proof.
  intros Hwords Hlocks Hholder Hexcl Hnd Hshape Hreader Hri Hrj.
  assert (∀ j P, P pc' -> (j <> i -> P (pcs s j)) -> P (pcs s' j)) as Hcase.
  { intros j P Hpi Hpj. destruct (decide (j = i)) as [->|]; [by rewrite relock_pc_i|rewrite relock_pc; auto]. }
  split; try done.
  - intros j. apply (Hcase j (fun pc => NoDup (map fst (held pc)))); [done|]. intros. apply (inv_held _ Hinv).
  - intros j. apply (Hcase j (fun pc => shape_ok s' pc)); [done|]. intros. apply (inv_shape _ Hinv).
  - apply (inv_owners _ Hinv).
  - intros en Hen. rewrite relock_pc by by apply relock_owner. by apply (inv_hist _ Hinv).
  - intros j tx [_ Hjt]%relock_joined. by eapply (inv_joined _ Hinv).
  - intros pre en post y Hh. assert (owner en <> i) by (apply relock_owner; simpl in Hh; rewrite Hh; set_solver).
    rewrite relock_holds by done. by apply (inv_last _ Hinv) with pre.
  - intros y Hy. rewrite relock_cont. apply (inv_clean _ Hinv). by apply relock_clean.
  - intros j y tx [Hne Hjt]%relock_joined. rewrite relock_pc, relock_holds by done. intros Hd Hjy.
    destruct (inv_dirty _ Hinv j y tx Hjt Hd Hjy) as [Hl Hc]. split; [done|].
    revert Hc. unfold contents_ok, installed. by rewrite relock_cont.
  - intros j r. destruct (decide (j = i)) as [->|]; [rewrite relock_pc_i; apply Hri|]. rewrite relock_pc by done.
    intros Hr. apply Hrj; [done|done|]. by apply (inv_reads _ Hinv).
  - intros j. apply relock_reader. apply (Hcase j (fun pc => reader_ok s pc)); [done|]. intros. apply (inv_reader _ Hinv).
  - intros pre en post y t v Hh Hr Hb en' Hen' Hwr. simpl in Hh. rewrite relock_base in Hb.
    assert (owner en <> i) by (apply relock_owner; rewrite Hh; set_solver).
    assert (owner en' <> i) by (apply relock_owner; rewrite Hh; set_solver).
    rewrite relock_pc in Hr by done. rewrite relock_holds by done. by apply (inv_fresh _ Hinv pre en post y t v).
  - intros pre en post y t v Hh Hr. simpl in Hh. assert (owner en <> i) by (apply relock_owner; rewrite Hh; set_solver).
    rewrite relock_pc in Hr by done. by apply (inv_checked _ Hinv pre en post y t).
Qed.

End relock.

Lemma lock_inv s i tx l x f todo : inv s -> pcs s i = Locking tx l ((x, f) :: todo) ->
  is_locked (word s x) = false ->
  inv (set_pc (set_word s x (lock_word (word s x))) i
    (Locking (mkTx (mark_locked x (reads tx)) (writes tx)) (l ++ [(x, lock_word (word s x))]) todo)).
Proof.
  intros Hinv Hpc Hl. destruct (lock_word_spec _ Hl) as (Hlw & Hlk & Hb).
  set (w := lock_word (word s x)) in *. set (pc' := Locking _ _ _).
  pose proof (relock_word s i x w pc') as Hword. pose proof (relock_holds s i x w pc') as Hholds.
  pose proof (relock_pc_i s i x w pc') as Hpci. pose proof (relock_pc s i x w pc') as Hpcj.
  set (s' := set_pc (set_word s x w) i pc') in *.
  assert (∀ j, ¬ holds s j x) as Hfree by (intros j; by apply unlocked_free).
  assert (∀ y, holds s' i y <-> holds s i y ∨ y = x) as Hhi.
  { intros y. unfold holds. rewrite Hpci, Hpc. simpl. rewrite map_app. set_solver. }
  pose proof (inv_shape _ Hinv i) as Hs. rewrite Hpc in Hs. destruct Hs as (Hndw & Hws).
  pose proof (inv_held _ Hinv i) as Hnd. rewrite Hpc in Hnd. simpl in Hnd.
  assert (x ∉ map fst l) as Hxl by (intros Hin; apply (Hfree i); unfold holds; by rewrite Hpc).
  apply relock_inv; rewrite ?Hpc; try done; fold s'.
  - rewrite Hb. symmetry. by apply base_unlocked.
  - intros y. rewrite Hword. destruct (decide (y = x)) as [->|]; [|apply (inv_words _ Hinv)].
    destruct (inv_words _ Hinv x) as [Ht He]. rewrite Hlw. simpl. split; [|done].
    rewrite is_locked_mod, Z.eqb_neq in Hl. destruct (decide (tid (word s x) = 2 ^ 32 - 1)) as [E|]; [|lia].
    rewrite E in Hl. by destruct Hl.
  - intros j y u Hin. rewrite Hword. destruct (decide (j = i)) as [->|Hne].
    + rewrite Hpci in Hin. simpl in Hin. apply elem_of_app in Hin as [Hin|Hin].
      * rewrite decide_False by (intros ->; apply Hxl; by apply (list_elem_of_fmap_2 fst) in Hin).
        apply (inv_locks _ Hinv i). by rewrite Hpc.
      * apply list_elem_of_singleton in Hin. simplify_eq. by rewrite decide_True.
    + rewrite Hpcj in Hin by done.
      rewrite decide_False by (intros ->; apply (Hfree j), holds_elem; eauto). by apply (inv_locks _ Hinv j).
  - intros y. rewrite Hword. destruct (decide (y = x)) as [->|]; [intros _; exists i; rewrite Hhi; by right|].
    intros Hy. destruct (inv_holder _ Hinv y Hy) as [j Hj]. exists j.
    destruct (decide (j = i)) as [->|]; [rewrite Hhi; by left|by rewrite Hholds].
  - intros j k y. destruct (decide (j = i)) as [->|], (decide (k = i)) as [->|]; try done;
      rewrite ?Hhi, ?Hholds by done; [intros [?| ->] ?|intros ? [?| ->]|intros ? ?];
      try (by apply (inv_excl _ Hinv) with y); try (by destruct (Hfree k)); by destruct (Hfree j).
  - simpl. rewrite map_app. apply NoDup_app. split; [done|]. split; [|apply NoDup_singleton]. set_solver.
  - split; [done|]. simpl. rewrite Hws, map_app, <- app_assoc. done.
  - intros r (([y t] & v) & -> & Hin)%list_elem_of_fmap.
    destruct (inv_reads _ Hinv i (y, t, v)) as (Hle & Hv & Hlt); [by rewrite Hpc|].
    assert (base (word s' y) = base (word s y)) as Hbw.
    { rewrite Hword. destruct (decide (y = x)) as [->|]; [|done]. rewrite Hb. symmetry. by apply base_unlocked. }
    destruct (decide (y = x)) as [->|Hne].
    + assert (is_locked t = false) as Htl by (destruct (is_locked t); [by destruct (Hfree i); auto|done]).
      destruct (lock_word_spec t Htl) as (_ & _ & Hbt). unfold read_ok.
      rewrite Hbt, Hbw. rewrite <- (base_unlocked t Htl). split; [done|]. split; [exact Hv|].
      intros _. rewrite Hhi. by right.
    + split; [by rewrite Hbw|]. split; [rewrite Hbw; exact Hv|]. intros Ht. rewrite Hhi. left. auto.
  - intros j Hne [[y t] v] _ (Hle & Hv & Hlt).
    assert (base (word s' y) = base (word s y)) as Hbw.
    { rewrite Hword. destruct (decide (y = x)) as [->|]; [|done]. rewrite Hb. symmetry. by apply base_unlocked. }
    split; [by rewrite Hbw|]. split; [rewrite Hbw; exact Hv|]. rewrite Hholds by done. done.
Qed.

Lemma release_inv s i x w l : inv s -> pcs s i = Releasing ((x, w) :: l) ->
  inv (set_pc (set_word s x (release_word (word s x))) i (Releasing l)).
Proof.
  intros Hinv Hpc. destruct (inv_locks _ Hinv i x w) as [Hw Hlk]; [rewrite Hpc; apply list_elem_of_here|].
  destruct (inv_words _ Hinv x) as [Ht He]. rewrite <- Hw in Hlk.
  destruct (release_word_spec (word s x) Hlk Ht) as (Hb & Hul & Hbd).
  set (w' := release_word (word s x)) in *. set (pc' := Releasing l : Pc V).
  pose proof (relock_word s i x w' pc') as Hword. pose proof (relock_holds s i x w' pc') as Hholds.
  pose proof (relock_pc_i s i x w' pc') as Hpci. pose proof (relock_pc s i x w' pc') as Hpcj.
  pose proof (relock_base s i x w' pc' Hb) as Hbase.
  set (s' := set_pc (set_word s x w') i pc') in *.
  pose proof (inv_held _ Hinv i) as Hnd. rewrite Hpc in Hnd. simpl in Hnd. inversion_clear Hnd as [|?? Hxl Hnd'].
  assert (holds s i x) as Hix by (unfold holds; rewrite Hpc; apply list_elem_of_here).
  assert (∀ y, holds s' i y <-> holds s i y ∧ y <> x) as Hhi.
  { intros y. unfold holds. rewrite Hpci, Hpc. simpl. rewrite elem_of_cons. split; [|naive_solver].
    intros Hin. split; [by right|]. by intros ->. }
  assert (∀ j, holds s j x -> j = i) as Honly by (intros j Hj; by apply (inv_excl _ Hinv) with x).
  apply relock_inv; rewrite ?Hpc; try done; fold s'.
  - intros y. rewrite Hword. destruct (decide (y = x)) as [->|]; [done|apply (inv_words _ Hinv)].
  - intros j y u Hin. assert (holds s' j y) as Hjy by (apply holds_elem; eauto).
    assert (y <> x ∧ (y, u) ∈ held (pcs s j)) as [Hne Hin'].
    { destruct (decide (j = i)) as [->|Hne].
      - split; [by apply Hhi|]. rewrite Hpci in Hin. rewrite Hpc. by right.
      - rewrite Hpcj in Hin by done. split; [|done]. intros ->. apply Hne, Honly. by apply Hholds. }
    rewrite Hword, decide_False by done. by apply (inv_locks _ Hinv j).
  - intros y. rewrite Hword. destruct (decide (y = x)) as [->|]; [congruence|]. intros Hy.
    destruct (inv_holder _ Hinv y Hy) as [j Hj]. exists j.
    destruct (decide (j = i)) as [->|]; [by apply Hhi|by apply Hholds].
  - assert (∀ j y, holds s' j y -> holds s j y) as Hmono.
    { intros j y. destruct (decide (j = i)) as [->|]; [rewrite Hhi; naive_solver|by rewrite Hholds]. }
    intros j k y Hj Hk. apply (inv_excl _ Hinv) with y; auto.
  - intros r Hr. set_solver.
  - intros j Hne [[y t] v] _ (Hle & Hv & Hlt). split; [by rewrite Hbase|]. split; [by rewrite Hbase|].
    rewrite Hholds by done. done.
Qed.

(** ** Publishing a version *)

Section publishing.
Context (s : State V) (i : nat) (tx : Tx V) (x : nat) (w : TransactionId.t)
  (l : list (nat * TransactionId.t)) (e : Z).
Hypothesis Hinv : inv s.
Hypothesis Hpc : pcs s i = Publishing tx ((x, w) :: l) e.
Hypothesis Hlim : tid w + 1 < 2 ^ 32.
Let w' := unlocked_id e w.
Let s' := set_pc (publish s x w') i (Publishing tx l e).

Lemma publish_version :
  is_locked w' = false ∧ tid_lt (base (word s x)) w' ∧ epoch w' = e ∧ 0 <= tid w' < 2 ^ 32 ∧ e <= global_epoch s.
Proof.
  destruct (inv_locks _ Hinv i x w) as [Hw Hlk]; [rewrite Hpc; apply list_elem_of_here|].
  pose proof (inv_shape _ Hinv i) as Hs. rewrite Hpc in Hs. destruct Hs as (_ & [Heg Hel] & _).
  destruct (inv_words _ Hinv x) as [Ht _]. rewrite Hw in *.
  destruct (unlocked_id_spec e w Hlk ltac:(lia) Hlim) as (? & ? & ? & ?); [apply (Hel x), list_elem_of_here|done].
Qed.

Lemma publish_only j : holds s j x -> j = i.
Proof.
  intros Hj. apply (inv_excl _ Hinv) with x; [done|]. unfold holds. rewrite Hpc. apply list_elem_of_here.
Qed.

Lemma publish_word y : word s' y = if decide (y = x) then w' else word s y.
Proof. unfold word, s'. simpl. unfold upd. by destruct (decide (y = x)). Qed.

Lemma publish_cont y : cont s' y = cont s y.
Proof. unfold cont, s'. simpl. unfold upd. destruct (decide (y = x)) as [->|]; done. Qed.

Lemma publish_published y : published s' y = if decide (y = x) then cont s x else published s y.
Proof. unfold s'. simpl. unfold upd. by destruct (decide (y = x)). Qed.

Lemma publish_proj {B} (g : Pc V -> B) j : g (Publishing tx l e) = g (Publishing tx ((x, w) :: l) e) ->
  g (pcs s' j) = g (pcs s j).
Proof. intros Hg. unfold s'. simpl. apply upd_proj. by rewrite Hpc. Qed.

Lemma publish_held j y u : (y, u) ∈ held (pcs s' j) <-> (y, u) ∈ held (pcs s j) ∧ y <> x.
Proof.
  unfold s'. simpl. unfold upd. destruct (decide (j = i)) as [->|Hne].
  - pose proof (inv_held _ Hinv i) as Hnd. rewrite Hpc in Hnd |- *. simpl in *. inversion_clear Hnd as [|?? Hxl _].
    rewrite elem_of_cons. split; [|naive_solver]. intros Hin. split; [by right|].
    intros ->. apply Hxl. by apply (list_elem_of_fmap_2 fst) in Hin.
  - split; [|naive_solver]. intros Hin. split; [done|]. intros ->. apply Hne, publish_only, holds_elem. eauto.
Qed.

Lemma publish_holds j y : holds s' j y <-> holds s j y ∧ y <> x.
Proof. rewrite !holds_elem. setoid_rewrite publish_held. naive_solver. Qed.

(** A version at or below the one replaced is not the new one. *)
Lemma publish_older t y : tid_le t (base (word s y)) ->
  tid_le t (base (word s' y)) ∧ (t = base (word s' y) -> y <> x ∧ t = base (word s y)).
Proof.
  intros Hle. rewrite publish_word. destruct (decide (y = x)) as [->|]; [|done].
  destruct publish_version as (Hul & Hlt & _). rewrite (base_unlocked w' Hul).
  pose proof (tid_le_lt_trans _ _ _ Hle Hlt) as H. split; [by apply tid_lt_le|]. intros E. by apply tid_lt_ne in H.
Qed.

Lemma publish_read_ok j r : r ∈ reads_of (pcs s j) -> read_ok s j r -> read_ok s' j r.
Proof.
  destruct r as [[y t] v]. intros Hr (Hle & Hv & Hlk). destruct (publish_older (base t) y Hle) as [Hle' Hne].
  split; [done|]. split.
  - intros Hb. destruct (Hne Hb) as [Hyx Hb']. rewrite publish_published, decide_False by done. auto.
  - intros Ht. rewrite publish_holds. specialize (Hlk Ht). split; [done|]. intros ->.
    rewrite (publish_only j Hlk), Hpc in Hr. by apply elem_of_nil in Hr.
Qed.

Lemma publish_reader_ok pc : reader_ok s pc -> reader_ok s' pc.
Proof.
  destruct pc as [|rs y t|rs y t v| | | | | | | |]; simpl; try done.
  - intros [Hl Hle]. split; [done|]. by apply publish_older.
  - intros (Hl & Hle & Hv). destruct (publish_older t y Hle) as [Hle' Hne]. split; [done|]. split; [done|].
    intros Hb. destruct (Hne Hb) as [Hyx Hb'].
    destruct (Hv Hb') as [?|(j & Hd & Hj)]; [left; by rewrite upd_ne|right]. exists j.
    change (upd (pcs s) i (Publishing tx l e) j) with (pcs s' j).
    rewrite (publish_proj is_decided) by done. by rewrite publish_holds.
Qed.

Lemma publish_clean y :
  (∀ j, holds s' j y -> is_decided (pcs s' j) = false) ->
  cont s' y = published s' y ∧ published s' y = logical s y.
Proof.
  intros Hy. rewrite publish_cont, publish_published. destruct (decide (y = x)) as [->|Hne].
  - split; [done|]. destruct (inv_dirty _ Hinv i x tx) as [_ Hc]; [by rewrite Hpc|by rewrite Hpc| |].
    + unfold holds. rewrite Hpc. apply list_elem_of_here.
    + by rewrite Hpc in Hc.
  - apply (inv_clean _ Hinv). intros j Hj. rewrite <- (publish_proj is_decided) by done.
    apply Hy. by rewrite publish_holds.
Qed.

Lemma publish_shape j : shape_ok s' (pcs s' j).
Proof.
  unfold s'. simpl pcs. unfold upd. destruct (decide (j = i)); [|apply (inv_shape _ Hinv)].
  pose proof (inv_shape _ Hinv i) as Hs. rewrite Hpc in Hs. destruct Hs as (Hnd & [Hg Hel] & done & Hw).
  split; [done|]. split; [split; [done|]; intros; eapply Hel; by right|].
  exists (done ++ [x]). by rewrite <- app_assoc.
Qed.

Lemma publish_contents_ok j y : holds s' j y -> contents_ok s (pcs s j) y -> contents_ok s' (pcs s' j) y.
Proof.
  intros [Hj Hyx]%publish_holds Hc. unfold s' at 2. simpl pcs. unfold upd. destruct (decide (j = i)) as [->|].
  - rewrite Hpc in Hc. simpl in *. by rewrite publish_cont.
  - revert Hc. unfold contents_ok, installed. rewrite publish_cont, publish_published, decide_False by done. done.
Qed.

Lemma publish_inv : inv s'.
Proof.
  destruct publish_version as (Hul & Hlt & Hep & Hbd & Heg). split.
  - intros y. rewrite publish_word. destruct (decide (y = x)); [|apply (inv_words _ Hinv)].
    split; [done|]. by rewrite Hep.
  - intros j y u [Hin Hne]%publish_held. rewrite publish_word, decide_False by done. by apply (inv_locks _ Hinv j).
  - intros y. rewrite publish_word. destruct (decide (y = x)) as [->|]; [congruence|]. intros Hy.
    destruct (inv_holder _ Hinv y Hy) as [j Hj]. exists j. by rewrite publish_holds.
  - intros j k y [Hj _]%publish_holds [Hk _]%publish_holds. by apply (inv_excl _ Hinv) with y.
  - intros j. unfold s'. simpl. unfold upd. destruct (decide (j = i)); [|apply (inv_held _ Hinv)].
    pose proof (inv_held _ Hinv i) as Hnd. rewrite Hpc in Hnd. simpl in *. by inversion_clear Hnd.
  - apply publish_shape.
  - apply (inv_owners _ Hinv).
  - intros en Hen. rewrite (publish_proj joined), (publish_proj is_decided) by done. by apply (inv_hist _ Hinv).
  - intros j tx'. rewrite (publish_proj joined) by done. apply (inv_joined _ Hinv).
  - intros pre en post y Hh [Hj _]%publish_holds. exact (inv_last _ Hinv pre en post y Hh Hj).
  - apply publish_clean.
  - intros j y tx'. rewrite (publish_proj joined), (publish_proj is_decided) by done. intros Hjt Hd Hjy.
    pose proof Hjy as [Hjy0 Hyx]%publish_holds. destruct (inv_dirty _ Hinv j y tx' Hjt Hd Hjy0) as [Hlog Hc].
    split; [|by apply publish_contents_ok]. rewrite publish_published, decide_False by done. exact Hlog.
  - intros j r. rewrite (publish_proj reads_of) by done. intros Hr. apply publish_read_ok; [done|].
    by apply (inv_reads _ Hinv).
  - intros j. apply publish_reader_ok. unfold s'. simpl. unfold upd. destruct (decide (j = i)); [done|].
    apply (inv_reader _ Hinv).
  - intros pre en post y t v Hh. rewrite (publish_proj reads_of) by done. intros Hr Hb en' Hen' Hwr.
    destruct (inv_reads _ Hinv _ _ Hr) as (Hle & _). destruct (publish_older _ _ Hle) as [_ Hne].
    destruct (Hne Hb) as [Hyx Hb']. apply publish_holds. split; [|done].
    by apply (inv_fresh _ Hinv pre en post y t v).
  - intros pre en post y t v Hh. rewrite (publish_proj checked_of) by done.
    exact (inv_checked _ Hinv pre en post y t v Hh).
Qed.

End publishing.

(** ** Joining *)

Lemma snoc_split {A} (l : list A) n pre a post : l ++ [n] = pre ++ a :: post ->
  (∃ post', l = pre ++ a :: post' ∧ post = post' ++ [n]) ∨ (pre = l ∧ a = n ∧ post = []).
Proof.
  intros H. destruct post as [|b post _] using rev_ind.
  - right. apply app_inj_tail in H as [-> ->]. done.
  - left. exists post. rewrite app_comm_cons, app_assoc in H. apply app_inj_tail in H as [-> ->]. done.
Qed.

Section joining.
Context (s : State V) (i : nat) (tx : Tx V) (l : list (nat * TransactionId.t)).
Hypothesis Hinv : inv s.
Hypothesis Hpc : pcs s i = Locking tx l [].
Let n := mkEntry i tx false.
Let pc' := Validating tx l (global_epoch s) [] (reads tx).
Let s' := set_pc (set_hist s (hist s ++ [n])) i pc'.

Lemma join_proj {B} (g : Pc V -> B) j : g pc' = g (Locking tx l []) -> g (pcs s' j) = g (pcs s j).
Proof. intros Hg. unfold s'. simpl. apply upd_proj. by rewrite Hpc. Qed.

Lemma join_holds j x : holds s' j x <-> holds s j x.
Proof. unfold holds. by rewrite (join_proj held). Qed.

Lemma join_writes x : writes_item tx x -> holds s i x.
Proof.
  pose proof (inv_shape _ Hinv i) as Hs. unfold holds. rewrite Hpc in *. destruct Hs as [_ Hs].
  simpl in Hs. rewrite app_nil_r in Hs. unfold writes_item. by rewrite Hs.
Qed.

Lemma join_owner en : en ∈ hist s -> owner en <> i ∧ pcs s' (owner en) = pcs s (owner en).
Proof.
  intros Hen. destruct (inv_hist _ Hinv en Hen) as [Hj _].
  assert (owner en <> i) as Hne by (intros Heq; by rewrite Heq, Hpc in Hj).
  split; [done|]. unfold s'. simpl. by rewrite upd_ne.
Qed.

Lemma join_logical x : logical s' x = logical s x.
Proof. unfold logical, s'. simpl. rewrite committed_app. simpl. by rewrite app_nil_r. Qed.

Lemma join_shape j : shape_ok s' (pcs s' j).
Proof.
  unfold s'. simpl pcs. unfold upd. destruct (decide (j = i)); [|apply (inv_shape _ Hinv)].
  pose proof (inv_shape _ Hinv i) as Hs. rewrite Hpc in Hs. destruct Hs as [Hnd Hw]. simpl in Hw.
  rewrite app_nil_r in Hw. split; [done|]. split; [done|]. split; [done|]. split; [done|].
  intros x w Hin. destruct (inv_locks _ Hinv i x w) as [<- _]; [by rewrite Hpc|]. apply (inv_words _ Hinv).
Qed.

Lemma join_inv : inv s'.
Proof.
  assert (∀ en, en ∈ hist s' -> en ∈ hist s ∨ en = n) as Hmem by (intros en; unfold s'; simpl; set_solver).
  assert (∀ pre en post, hist s' = pre ++ en :: post ->
    (∃ post', hist s = pre ++ en :: post' ∧ post = post' ++ [n] ∧ en ∈ hist s) ∨ (pre = hist s ∧ en = n ∧ post = []))
    as Hsplit.
  { intros pre en post [(post' & Hh & ->)|?]%snoc_split; [left|by right]. exists post'. rewrite Hh. set_solver. }
  split.
  - apply (inv_words _ Hinv).
  - intros j x w. rewrite (join_proj held) by done. apply (inv_locks _ Hinv).
  - intros x Hx. destruct (inv_holder _ Hinv x Hx) as [j Hj]. exists j. by rewrite join_holds.
  - intros j k x. rewrite !join_holds. apply (inv_excl _ Hinv).
  - intros j. rewrite (join_proj held) by done. apply (inv_held _ Hinv).
  - apply join_shape.
  - unfold s'. simpl. rewrite map_app. apply NoDup_app. split; [apply (inv_owners _ Hinv)|].
    split; [|apply NoDup_singleton]. intros o (en & -> & Hen)%list_elem_of_fmap Ho.
    apply list_elem_of_singleton in Ho. by apply join_owner in Hen as [? _].
  - intros en [Hen| ->]%Hmem.
    + destruct (join_owner en Hen) as [_ ->]. by apply (inv_hist _ Hinv).
    + unfold s'. simpl. rewrite upd_eq. done.
  - intros j tx'. unfold s'. simpl. unfold upd. destruct (decide (j = i)) as [->|].
    + intros _. exists n. set_solver.
    + intros Hj. destruct (inv_joined _ Hinv j tx' Hj) as (en & Hen & <-). exists en. set_solver.
  - intros pre en post x [(post' & Hh & -> & Hen)|(-> & -> & ->)]%Hsplit; [|set_solver].
    rewrite join_holds. intros Hx en' [Hin|Hin]%elem_of_app; [by apply (inv_last _ Hinv pre en post')|].
    apply list_elem_of_singleton in Hin as ->. intros Hw%join_writes.
    destruct (join_owner en Hen) as [Hne _]. apply Hne. by apply (inv_excl _ Hinv) with x.
  - intros x Hx. rewrite join_logical. apply (inv_clean _ Hinv). intros j Hj.
    rewrite <- (join_proj is_decided) by done. apply Hx. by rewrite join_holds.
  - intros j x tx'. rewrite (join_proj is_decided), join_holds, join_logical by done. intros Hj Hd Hx.
    assert (pcs s' j = pcs s j) as Heq.
    { unfold s'. simpl. unfold upd. destruct (decide (j = i)) as [->|]; [by rewrite Hpc in Hd|done]. }
    rewrite Heq in *. destruct (inv_dirty _ Hinv j x tx' Hj Hd Hx) as [Hl Hc]. split; [done|].
    revert Hc. unfold contents_ok, installed. by rewrite join_logical.
  - intros j [[x t] v]. rewrite (join_proj reads_of) by done. intros Hr.
    destruct (inv_reads _ Hinv j _ Hr) as (? & ? & ?). split; [done|]. split; [done|]. by rewrite join_holds.
  - intros j. pose proof (inv_reader _ Hinv j) as Hr. unfold s'. simpl pcs. unfold upd at 1.
    destruct (decide (j = i)); [done|]. destruct (pcs s j); simpl in *; try done.
    destruct Hr as (? & ? & Hv). split; [done|]. split; [done|]. intros Ht.
    destruct (Hv Ht) as [?|(k & Hk & Hx)]; [by left|right]. exists k.
    change (is_decided (pcs s' k) = true ∧ holds s' k x). by rewrite (join_proj is_decided), join_holds.
  - intros pre en post x t v [(post' & Hh & -> & Hen)|(-> & -> & ->)]%Hsplit; [|set_solver].
    destruct (join_owner en Hen) as [_ ->]. intros Hr Hb en' [Hin|Hin]%elem_of_app Hw; rewrite join_holds.
    + by apply (inv_fresh _ Hinv pre en post' x t v).
    + apply list_elem_of_singleton in Hin as ->. by apply join_writes.
  - intros pre en post x t v [(post' & Hh & -> & Hen)|(-> & -> & ->)]%Hsplit.
    + destruct (join_owner en Hen) as [_ ->]. by apply (inv_checked _ Hinv pre en post').
    + unfold s'. simpl. rewrite upd_eq. simpl. set_solver.
Qed.

End joining.

(** ** Leaving the order and being decided *)

Lemma app_split {A} (l1 l2 : list A) pre a post : l1 ++ l2 = pre ++ a :: post ->
  (∃ l1', l1 = pre ++ a :: l1' ∧ post = l1' ++ l2) ∨ (∃ l2', pre = l1 ++ l2' ∧ l2 = l2' ++ a :: post).
Proof.
  revert pre. induction l1 as [|b l1 IH]; intros pre H; simpl in *; [right; by exists pre|].
  destruct pre as [|c pre]; simpl in H; injection H as -> H.
  - left. by exists l1.
  - destruct (IH pre H) as [(l1' & -> & ->)|(l2' & -> & ->)]; [left; by exists l1'|right; by exists l2'].
Qed.

Lemma owner_split s i tx : inv s -> joined (pcs s i) = Some tx ->
  ∃ h1 h2, hist s = h1 ++ mkEntry i tx (is_decided (pcs s i)) :: h2 ∧
    (∀ en, en ∈ h1 ++ h2 -> owner en <> i).
Proof.
  intros Hinv Hj. destruct (inv_joined _ Hinv i tx Hj) as (en & Hen & Ho).
  destruct (inv_hist _ Hinv en Hen) as [Hj' Hd]. rewrite Ho in *.
  apply list_elem_of_split in Hen as (h1 & h2 & Hh). exists h1, h2.
  assert (en = mkEntry i tx (is_decided (pcs s i))) as <- by (destruct en; simpl in *; congruence).
  split; [done|]. intros en' Hin. rewrite <- Ho. by apply (same_owner s h1 en h2).
Qed.

Lemma forget_split i (n : Entry V) h1 h2 : owner n = i -> (∀ en, en ∈ h1 ++ h2 -> owner en <> i) ->
  forget i (h1 ++ n :: h2) = h1 ++ h2.
Proof.
  intros Ho Hne. unfold forget. rewrite filter_app, filter_cons, decide_False by (intros H; by apply H).
  assert (∀ h : list (Entry V), (∀ en, en ∈ h -> owner en <> i) -> filter (fun en => owner en <> i) h = h) as Hid.
  { intros h. induction h as [|en h IH]; intros Hh; [done|]. rewrite filter_cons, decide_True.
    - f_equal. apply IH. intros; apply Hh; by right.
    - apply Hh. by left. }
  rewrite !Hid; [done| |]; intros; apply Hne; set_solver.
Qed.

Lemma decide_split i (n : Entry V) h1 h2 : owner n = i -> (∀ en, en ∈ h1 ++ h2 -> owner en <> i) ->
  decide_entry i (h1 ++ n :: h2) = h1 ++ mkEntry i (entry_tx n) true :: h2.
Proof.
  intros Ho Hne. unfold decide_entry. rewrite map_app. simpl. rewrite decide_True by done.
  assert (∀ h : list (Entry V), (∀ en, en ∈ h -> owner en <> i) ->
    map (fun en => if decide (owner en = i) then mkEntry i (entry_tx en) true else en) h = h) as Hid.
  { intros h. induction h as [|en h IH]; intros Hh; [done|]. simpl. rewrite decide_False; [|apply Hh; by left].
    f_equal. apply IH. intros; apply Hh; by right. }
  rewrite !Hid; [done| |]; intros; apply Hne; set_solver.
Qed.

Section leaving.
Context (s : State V) (i : nat) (tx : Tx V) (l : list (nat * TransactionId.t)) (e : Z)
  (c todo : list (nat * TransactionId.t * V)) (pc' : Pc V).
Hypothesis Hinv : inv s.
Hypothesis Hpc : pcs s i = Validating tx l e c todo.
Hypothesis Hheld : held pc' = l.
Hypothesis Hleft : match pc' with Releasing _ => True | Running rs => rs = reads tx | _ => False end.
Let s' := set_pc (set_hist s (forget i (hist s))) i pc'.

Lemma leave_proj {B} (g : Pc V -> B) j : g pc' = g (Validating tx l e c todo) ->
  g (pcs s' j) = g (pcs s j).
Proof. intros Hg. unfold s'. simpl. apply upd_proj. by rewrite Hpc. Qed.

Lemma leave_undecided : is_decided pc' = false ∧ joined pc' = None ∧ shape_ok s' pc' ∧ reader_ok s' pc'.
Proof. by destruct pc'. Qed.

Lemma leave_reads r : r ∈ reads_of pc' -> r ∈ reads tx.
Proof. destruct pc'; simpl in *; try done; [by subst|set_solver]. Qed.

Lemma leave_holds j x : holds s' j x <-> holds s j x.
Proof. unfold holds. by rewrite (leave_proj held). Qed.

Lemma leave_pc j : j <> i -> pcs s' j = pcs s j.
Proof. intros. unfold s'. simpl. by rewrite upd_ne. Qed.

Lemma leave_split : ∃ h1 h2, hist s = h1 ++ mkEntry i tx false :: h2 ∧ hist s' = h1 ++ h2 ∧
  (∀ en, en ∈ hist s' -> owner en <> i ∧ en ∈ hist s) ∧
  (∀ pre en post, hist s' = pre ++ en :: post -> ∃ pre' post', hist s = pre' ++ en :: post' ∧
     committed pre' = committed pre ∧ (∀ en', en' ∈ pre -> en' ∈ pre') ∧ (∀ en', en' ∈ post -> en' ∈ post')).
Proof.
  destruct (owner_split s i tx Hinv) as (h1 & h2 & Hh & Hne); [by rewrite Hpc|]. rewrite Hpc in Hh. simpl in Hh.
  assert (hist s' = h1 ++ h2) as Hh'.
  { unfold s'. simpl. rewrite Hh. by apply forget_split. }
  exists h1, h2. split; [done|]. split; [done|]. split.
  { rewrite Hh', Hh. intros en Hen. split; [by apply Hne|]. set_solver. }
  rewrite Hh', Hh. intros pre en post [(h1' & -> & ->)|(h2' & -> & ->)]%app_split.
  - exists pre, (h1' ++ mkEntry i tx false :: h2). rewrite <- app_assoc. repeat (split; [done|]). set_solver.
  - exists (h1 ++ mkEntry i tx false :: h2'), post. rewrite <- app_assoc. split; [done|].
    split; [by rewrite !committed_app, committed_cons|]. split; [set_solver|done].
Qed.

Lemma leave_logical x : logical s' x = logical s x.
Proof.
  destruct leave_split as (h1 & h2 & Hh & Hh' & _). unfold logical.
  by rewrite Hh, Hh', !committed_app, committed_cons.
Qed.

Lemma leave_inv : inv s'.
Proof.
  destruct leave_split as (h1 & h2 & Hh & Hh' & Hmem & Hsplit). destruct leave_undecided as (Hud & Huj & Hus & Hur). split.
  - apply (inv_words _ Hinv).
  - intros j x w. rewrite (leave_proj held) by (by rewrite Hheld). apply (inv_locks _ Hinv).
  - intros x Hx. destruct (inv_holder _ Hinv x Hx) as [j Hj]. exists j. by rewrite leave_holds.
  - intros j k x. rewrite !leave_holds. apply (inv_excl _ Hinv).
  - intros j. rewrite (leave_proj held) by (by rewrite Hheld). apply (inv_held _ Hinv).
  - intros j. destruct (decide (j = i)) as [->|]; [unfold s' in *; simpl; by rewrite upd_eq|].
    rewrite leave_pc by done. apply (inv_shape _ Hinv).
  - pose proof (inv_owners _ Hinv) as Hnd. rewrite Hh in Hnd. rewrite Hh'. rewrite map_app in *. simpl in Hnd.
    apply NoDup_app in Hnd as (? & Hd & Hnd2). inversion_clear Hnd2. apply NoDup_app. split; [done|].
    split; [|done]. intros o Ho. specialize (Hd o Ho). set_solver.
  - intros en [Hne Hen]%Hmem. rewrite leave_pc by done. by apply (inv_hist _ Hinv).
  - intros j tx'. destruct (decide (j = i)) as [->|Hne]; [unfold s'; simpl; rewrite upd_eq; congruence|].
    rewrite leave_pc by done. intros Hj. destruct (inv_joined _ Hinv j tx' Hj) as (en & Hen & Ho).
    exists en. split; [|done]. rewrite Hh in Hen. rewrite Hh'. apply elem_of_app in Hen as [?|Hen]; [set_solver|].
    apply elem_of_cons in Hen as [->|?]; [done|set_solver].
  - intros pre en post x (pre' & post' & Hh2 & _ & _ & Hpost)%Hsplit. rewrite leave_holds. intros Hx en' Hin.
    apply (inv_last _ Hinv pre' en post' x Hh2 Hx). auto.
  - intros x Hx. rewrite leave_logical. apply (inv_clean _ Hinv). intros j Hj.
    rewrite <- (leave_proj is_decided) by (by rewrite Hud). apply Hx. by rewrite leave_holds.
  - intros j x tx'. rewrite (leave_proj is_decided) by (by rewrite Hud). rewrite leave_holds, leave_logical. intros Hj Hd Hx.
    assert (j <> i) by (intros ->; by rewrite Hpc in Hd). rewrite leave_pc in * by done.
    destruct (inv_dirty _ Hinv j x tx' Hj Hd Hx) as [Hl Hc]. split; [done|].
    revert Hc. unfold contents_ok, installed. by rewrite leave_logical.
  - intros j [[x t] v] Hr. destruct (decide (j = i)) as [->|Hne]; [unfold s' in Hr; simpl in Hr; rewrite upd_eq in Hr; apply leave_reads in Hr; pose proof (inv_reads _ Hinv i) as Hi; rewrite Hpc in Hi|rewrite leave_pc in Hr by done; pose proof (inv_reads _ Hinv j) as Hi].
    all: destruct (Hi _ Hr) as (? & ? & ?); split; [done|]; split; [done|]; by rewrite leave_holds.
  - intros j. destruct (decide (j = i)) as [->|Hne]; [unfold s' in *; simpl; by rewrite upd_eq|]. rewrite leave_pc by done.
    pose proof (inv_reader _ Hinv j) as Hr. destruct (pcs s j); simpl in *; try done.
    destruct Hr as (? & ? & Hv). split; [done|]. split; [done|]. intros Ht.
    destruct (Hv Ht) as [?|(k & Hk & Hx)]; [by left|right]. exists k.
    change (is_decided (pcs s' k) = true ∧ holds s' k x). rewrite (leave_proj is_decided) by (by rewrite Hud). by rewrite leave_holds.
  - intros pre en post x t v Hh3 Hr Hb en' Hin Hw. destruct (Hmem en) as [Hne _]; [rewrite Hh3; set_solver|].
    destruct (Hsplit _ _ _ Hh3) as (pre' & post' & Hh2 & _ & _ & Hpost). rewrite leave_pc in Hr by done.
    rewrite leave_holds. apply (inv_fresh _ Hinv pre' en post' x t v); auto.
  - intros pre en post x t v Hh3 Hr. destruct (Hmem en) as [Hne _]; [rewrite Hh3; set_solver|].
    destruct (Hsplit _ _ _ Hh3) as (pre' & post' & Hh2 & Hcm & Hpre & _). rewrite leave_pc in Hr by done.
    destruct (inv_checked _ Hinv pre' en post' x t v Hh2 Hr) as [Hv Hp]. rewrite <- Hcm. split; [done|]. auto.
Qed.

End leaving.

Section deciding.
Context (s : State V) (i : nat) (tx : Tx V) (l : list (nat * TransactionId.t)) (e : Z)
  (c : list (nat * TransactionId.t * V)).
Hypothesis Hinv : inv s.
Hypothesis Hpc : pcs s i = Validating tx l e c [].
Let pc' := Installing tx l e (writes tx).
Let s' := set_pc (set_hist s (decide_entry i (hist s))) i pc'.

Lemma decide_proj {B} (g : Pc V -> B) j : g pc' = g (Validating tx l e c []) -> g (pcs s' j) = g (pcs s j).
Proof. intros Hg. unfold s'. simpl. apply upd_proj. by rewrite Hpc. Qed.

Lemma decide_holds j x : holds s' j x <-> holds s j x.
Proof. unfold holds. by rewrite (decide_proj held). Qed.

Lemma decide_pc j : j <> i -> pcs s' j = pcs s j.
Proof. intros. unfold s'. simpl. by rewrite upd_ne. Qed.

Lemma decide_decided j : is_decided (pcs s j) = true -> j <> i ∧ is_decided (pcs s' j) = true.
Proof.
  intros Hd. assert (j <> i) by (intros ->; by rewrite Hpc in Hd). by rewrite decide_pc.
Qed.

Lemma decide_shape : NoDup (map fst (writes tx)) ∧ map fst l = map fst (writes tx) ∧ reads tx = c ∧ epoch_ok s l e.
Proof.
  pose proof (inv_shape _ Hinv i) as Hs. rewrite Hpc in Hs. destruct Hs as (? & ? & Hr & ?).
  by rewrite app_nil_r in Hr.
Qed.

Lemma decide_writes x : holds s i x <-> writes_item tx x.
Proof. unfold holds, writes_item. rewrite Hpc. simpl. by destruct decide_shape as (_ & -> & _). Qed.

Lemma decide_hist : ∃ h1 h2, hist s = h1 ++ mkEntry i tx false :: h2 ∧ hist s' = h1 ++ mkEntry i tx true :: h2 ∧
  (∀ en, en ∈ h1 ++ h2 -> owner en <> i).
Proof.
  destruct (owner_split s i tx Hinv) as (h1 & h2 & Hh & Hne); [by rewrite Hpc|]. rewrite Hpc in Hh. simpl in Hh.
  exists h1, h2. split; [done|]. split; [|done]. unfold s'. simpl. rewrite Hh. by apply decide_split.
Qed.

(** The decided transaction is the last to write what it writes. *)
Lemma decide_logical x :
  logical s' x = if decide (writes_item tx x) then write_of x (writes tx) (logical s x) else logical s x.
Proof.
  destruct decide_hist as (h1 & h2 & Hh & Hh' & _). unfold logical. rewrite Hh, Hh'.
  rewrite !committed_app, !committed_cons, !serial_app. simpl.
  destruct (decide (writes_item tx x)) as [Hw|Hw]; [|by rewrite write_of_absent].
  assert (∀ v, serial (committed h2) x v = v) as Hpost; [|by rewrite !Hpost].
  intros v. apply serial_absent. intros tx' (en' & Hen' & _ & <-)%elem_of_committed.
  apply (inv_last _ Hinv h1 (mkEntry i tx false) h2 x Hh); [|done]. by apply decide_writes.
Qed.

(** The entries keep their transactions and their order. *)
Lemma decide_entries pre en post : hist s' = pre ++ en :: post ->
  (en = mkEntry i tx true ∧ hist s = pre ++ mkEntry i tx false :: post) ∨
  (owner en <> i ∧ ∃ pre' post', hist s = pre' ++ en :: post' ∧
     (pre' = pre ∨ mkEntry i tx false ∈ pre') ∧
     (∀ x, ¬ writes_item tx x ∨ pre' = pre -> serial (committed pre) x (contents0 x) = serial (committed pre') x (contents0 x)) ∧
     (∀ en', en' ∈ pre -> decided en' = false -> en' ∈ pre') ∧
     (∀ en', en' ∈ post -> ∃ en0, en0 ∈ post' ∧ owner en0 = owner en' ∧ entry_tx en0 = entry_tx en')).
Proof.
  destruct decide_hist as (h1 & h2 & Hh & Hh' & Hne). rewrite Hh', Hh.
  intros [(h1' & -> & ->)|(h2' & -> & Hc)]%app_split.
  - right. split; [apply Hne; set_solver|]. exists pre, (h1' ++ mkEntry i tx false :: h2).
    rewrite <- app_assoc. split; [done|]. split; [by left|]. split; [done|]. split; [done|].
    intros en' Hin. apply elem_of_app in Hin as [?|Hin]; [exists en'; set_solver|].
    apply elem_of_cons in Hin as [->|?]; [exists (mkEntry i tx false); set_solver|exists en'; set_solver].
  - destruct h2' as [|en0 h2']; simpl in Hc; injection Hc as Hen Hc.
    + left. subst. rewrite app_nil_r. done.
    + right. subst en0. split; [apply Hne; set_solver|]. exists (h1 ++ mkEntry i tx false :: h2'), post.
      subst h2. rewrite <- app_assoc. split; [done|]. split; [right; set_solver|]. split; [|split].
      * intros x [Hw|Hpre]; [|by apply (f_equal (fmap decided)) in Hpre; rewrite !fmap_app in Hpre; simplify_list_eq].
        rewrite !committed_app, !committed_cons, !serial_app. simpl. by rewrite write_of_absent.
      * intros en' Hin Hd. apply elem_of_app in Hin as [?|Hin]; [set_solver|].
        apply elem_of_cons in Hin as [->|?]; [done|set_solver].
      * intros en' Hin. by exists en'.
Qed.

Lemma decide_clean x :
  (∀ j, holds s' j x -> is_decided (pcs s' j) = false) ->
  cont s' x = published s' x ∧ published s' x = logical s' x.
Proof.
  intros Hx. assert (¬ writes_item tx x) as Hw.
  { intros Hw%decide_writes. specialize (Hx i). rewrite decide_holds in Hx. specialize (Hx Hw).
    unfold s' in Hx. simpl in Hx. by rewrite upd_eq in Hx. }
  rewrite decide_logical, decide_False by done. apply (inv_clean _ Hinv). intros j Hj.
  destruct (is_decided (pcs s j)) eqn:Ed; [|done]. destruct (decide_decided j Ed) as [_ Hd].
  rewrite <- Hd. apply Hx. by rewrite decide_holds.
Qed.

Lemma decide_dirty j x tx' :
  joined (pcs s' j) = Some tx' -> is_decided (pcs s' j) = true -> holds s' j x ->
  logical s' x = write_of x (writes tx') (published s' x) ∧ contents_ok s' (pcs s' j) x.
Proof.
  rewrite decide_holds. intros Hj Hd Hx. destruct (decide (j = i)) as [->|Hne].
  - pose proof Hx as Hw%decide_writes. rewrite (decide_proj joined), Hpc in Hj by done. injection Hj as <-.
    destruct (inv_clean _ Hinv x) as [Hc Hp].
    { intros k Hk. rewrite (inv_excl _ Hinv k i x Hk Hx). by rewrite Hpc. }
    split; [rewrite decide_logical, decide_True by done; simpl; by rewrite Hp|].
    unfold s' at 2. simpl pcs. rewrite upd_eq. simpl. unfold installed. by rewrite decide_True.
  - rewrite decide_pc in * by done. destruct (inv_dirty _ Hinv j x tx' Hj Hd Hx) as [Hl Hc].
    assert (¬ writes_item tx x) as Hw by (intros Hw%decide_writes; apply Hne; by apply (inv_excl _ Hinv) with x).
    rewrite decide_logical, decide_False by done. split; [done|]. revert Hc. unfold contents_ok, installed.
    rewrite decide_logical, decide_False by done. done.
Qed.

Lemma decide_checked pre en post x t v : hist s' = pre ++ en :: post ->
  (x, t, v) ∈ checked_of (pcs s' (owner en)) ->
  v = serial (committed pre) x (contents0 x) ∧
  ∀ en', en' ∈ pre -> decided en' = false -> ¬ writes_item (entry_tx en') x.
Proof.
  intros [[-> Hh]|(Hne & pre' & post' & Hh & Hpre & Hser & Hpend & _)]%decide_entries.
  - change (owner (mkEntry i tx true)) with i. rewrite (decide_proj checked_of); [|simpl; by destruct decide_shape as (_ & _ & -> & _)].
    by apply (inv_checked _ Hinv pre (mkEntry i tx false) post).
  - rewrite decide_pc by done. intros Hr. destruct (inv_checked _ Hinv pre' en post' x t v Hh Hr) as [Hv Hp].
    split; [|auto]. rewrite Hser; [done|]. destruct Hpre as [->|Hin]; [by right|left].
    by apply (Hp (mkEntry i tx false)).
Qed.

Lemma decide_inv : inv s'.
Proof.
  destruct decide_hist as (h1 & h2 & Hh & Hh' & Hne). split.
  - apply (inv_words _ Hinv).
  - intros j x w. rewrite (decide_proj held) by done. apply (inv_locks _ Hinv).
  - intros x Hx. destruct (inv_holder _ Hinv x Hx) as [j Hj]. exists j. by rewrite decide_holds.
  - intros j k x. rewrite !decide_holds. apply (inv_excl _ Hinv).
  - intros j. rewrite (decide_proj held) by done. apply (inv_held _ Hinv).
  - intros j. destruct (decide (j = i)) as [->|]; [|rewrite decide_pc by done; apply (inv_shape _ Hinv)].
    unfold s'. simpl pcs. rewrite upd_eq. destruct decide_shape as (? & ? & _ & ?). split; [done|]. split; [done|].
    split; [done|]. by exists [].
  - pose proof (inv_owners _ Hinv) as Hnd. rewrite Hh in Hnd. rewrite Hh'. by rewrite map_app in *.
  - intros en Hen. rewrite Hh' in Hen. apply elem_of_app in Hen as [Hen|[->|Hen]%elem_of_cons].
    + rewrite decide_pc by (apply Hne; set_solver). apply (inv_hist _ Hinv). rewrite Hh. set_solver.
    + unfold s'. simpl. by rewrite upd_eq.
    + rewrite decide_pc by (apply Hne; set_solver). apply (inv_hist _ Hinv). rewrite Hh. set_solver.
  - intros j tx'. rewrite (decide_proj joined) by done. intros Hj.
    destruct (inv_joined _ Hinv j tx' Hj) as (en & Hen & Ho). rewrite Hh in Hen.
    apply elem_of_app in Hen as [Hen|[->|Hen]%elem_of_cons]; [exists en|exists (mkEntry i tx true)|exists en];
      rewrite Hh'; (split; [set_solver|done]).
  - intros pre en post x [[-> Hh2]|(_ & pre' & post' & Hh2 & _ & _ & _ & Hpost)]%decide_entries; rewrite decide_holds;
      intros Hx en' Hin.
    + by apply (inv_last _ Hinv pre (mkEntry i tx false) post x).
    + destruct (Hpost en' Hin) as (en0 & Hin0 & _ & <-). by apply (inv_last _ Hinv pre' en post' x).
  - apply decide_clean.
  - apply decide_dirty.
  - intros j [[x t] v] Hr. destruct (decide (j = i)) as [->|Hji]; [unfold s' in Hr; simpl in Hr; rewrite upd_eq in Hr; set_solver|].
    rewrite decide_pc in Hr by done. destruct (inv_reads _ Hinv j _ Hr) as (? & ? & ?).
    split; [done|]. split; [done|]. by rewrite decide_holds.
  - intros j. destruct (decide (j = i)) as [->|Hji]; [unfold s'; simpl; by rewrite upd_eq|]. rewrite decide_pc by done.
    pose proof (inv_reader _ Hinv j) as Hr. destruct (pcs s j); simpl in *; try done.
    destruct Hr as (? & ? & Hv). split; [done|]. split; [done|]. intros Ht.
    destruct (Hv Ht) as [?|(k & Hk & Hx)]; [by left|right]. exists k.
    change (is_decided (pcs s' k) = true ∧ holds s' k x). rewrite decide_holds. by destruct (decide_decided k Hk).
  - intros pre en post x t v [[-> Hh2]|(Hei & pre' & post' & Hh2 & _ & _ & _ & Hpost)]%decide_entries.
    + simpl. unfold s'. simpl. rewrite upd_eq. set_solver.
    + rewrite decide_pc by done. intros Hr Hb en' Hin Hw. rewrite decide_holds.
      destruct (Hpost en' Hin) as (en0 & Hin0 & Ho & Ht). rewrite <- Ho. rewrite <- Ht in Hw.
      by apply (inv_fresh _ Hinv pre' en post' x t v).
  - apply decide_checked.
Qed.

End deciding.

(** ** The theorem *)

Lemma epoch_inv s : inv s -> inv (mkState (mem s) (global_epoch s + 1) (pcs s) (hist s) (published s)).
Proof.
  intros Hinv. destruct Hinv. split; try done.
  - intros x. destruct (inv_words0 x). unfold word in *. simpl. lia.
  - intros j. specialize (inv_shape0 j). simpl. destruct (pcs s j); simpl in *; try done;
      unfold epoch_ok in *; naive_solver lia.
Qed.

Lemma silo_step_inv s s' : inv s -> step s s' -> inv s'.
Proof.
  intros Hinv Hs. destruct Hs as [i rs x Hpc Hl|i rs x t Hpc|i rs x t v Hpc Hw|i rs x t v Hpc Hw|i rs Hpc
    |i rs ws Hpc Hnd|i tx l x f todo Hpc Hl|i tx l todo Hpc|i tx l Hpc|i tx l e c x t v todo Hpc Hw
    |i tx l e c x t v todo Hpc Hw|i tx l e c Hpc|i tx e c todo Hpc|i tx l e c Hpc|i tx l e x f todo Hpc|i tx l e x v todo g Hpc
    |i tx l e x v todo Hpc|i tx l e Hpc|i tx x w l e Hpc Hlim|i tx e Hpc|i x w l Hpc|i Hpc|].
  - by apply read_load_inv.
  - by apply read_copy_inv.
  - by apply read_done_inv.
  - apply drop_inv; rewrite ?Hpc; done.
  - apply drop_inv; rewrite ?Hpc; try done. set_solver.
  - apply drop_inv; rewrite ?Hpc; done.
  - by eapply lock_inv.
  - apply drop_inv; rewrite ?Hpc; try done. set_solver.
  - by apply join_inv.
  - by eapply validate_inv.
  - by eapply leave_inv.
  - by eapply leave_inv.
  - by eapply leave_inv.
  - by eapply decide_inv.
  - by apply install_inv.
  - by eapply write_part_inv.
  - by eapply write_done_inv.
  - by apply installed_inv.
  - by apply publish_inv.
  - by eapply committed_inv.
  - by eapply release_inv.
  - apply drop_inv; rewrite ?Hpc; done.
  - by apply epoch_inv.
Qed.

Lemma silo_reachable_inv s : rtc step (init contents0) s -> inv s.
Proof.
  intros Hr. refine (rtc_ind_r inv (init contents0) _ _ s Hr); [apply silo_init_inv|].
  intros; by eapply silo_step_inv.
Qed.

End invariant.

Lemma committed_split {V} (h : list (Entry V)) pre tx post : committed h = pre ++ tx :: post ->
  ∃ h1 en h2, h = h1 ++ en :: h2 ∧ committed h1 = pre ∧ entry_tx en = tx ∧ decided en = true.
Proof.
  revert pre. induction h as [|en h IH]; intros pre Hc; [by destruct pre|].
  rewrite committed_cons in Hc. destruct (decided en) eqn:Ed; simpl in Hc.
  - destruct pre as [|tx0 pre]; simpl in Hc; injection Hc as Htx Hc; [by exists [], en, h|].
    destruct (IH pre Hc) as (h1 & en' & h2 & -> & <- & Htx' & Hd). exists (en :: h1), en', h2.
    rewrite committed_cons, Ed. simpl. by rewrite Htx.
  - destruct (IH pre Hc) as (h1 & en' & h2 & -> & <- & Htx' & Hd). exists (en :: h1), en', h2.
    by rewrite committed_cons, Ed.
Qed.

(** The invariant gives the serial order. *)
Lemma inv_serial {V} (contents0 : nat -> V) s : inv contents0 s ->
  (∀ pre tx post, committed (hist s) = pre ++ tx :: post ->
     ∀ x t v, (x, t, v) ∈ reads tx -> v = serial pre x (contents0 x)) ∧
  (∀ x, is_locked (transaction_id (mem s x)) = false ->
     contents (mem s x) = serial (committed (hist s)) x (contents0 x)) ∧
  (∀ i tx, pcs s i = Committed tx -> tx ∈ committed (hist s)).
Proof.
  intros Hinv. split; [|split].
  - intros pre tx post (h1 & en & h2 & Hh & <- & <- & Hd)%committed_split x t v Hr.
    destruct (inv_hist _ _ Hinv en) as [Hj Hd']; [rewrite Hh; set_solver|].
    apply (inv_checked _ _ Hinv h1 en h2 x t v Hh). rewrite Hd in Hd'.
    destruct (pcs s (owner en)); simpl in *; try done; by simplify_eq.
  - intros x Hx. destruct (inv_clean _ _ Hinv x) as [Hc Hp].
    + intros i Hi. by destruct (unlocked_free _ s x i Hinv Hx).
    + by transitivity (published s x).
  - intros i tx Hpc. destruct (inv_joined _ _ Hinv i tx) as (en & Hen & Ho); [by rewrite Hpc|].
    destruct (inv_hist _ _ Hinv en Hen) as [Hj Hd]. rewrite Ho, Hpc in Hj, Hd. simpl in *. simplify_eq.
    apply elem_of_committed. by exists en.
Qed.

(** C1. In every interleaving of any number of transactions through Read,
    Precommit and PostProcessing of the Silo protocol, the committed
    transactions are serializable in the order they passed their serialization
    point: each value a committed transaction read is the one left by the
    committed transactions before it, every unlocked item holds what all of
    them wrote, and every transaction that reported a commit is among them.
    Executions in which the 32-bit tid of a version would wrap are excluded.
    *)
Theorem silo_serializable {V} (contents0 : nat -> V) s :
  rtc step (init contents0) s ->
  (∀ pre tx post, committed (hist s) = pre ++ tx :: post ->
     ∀ x t v, (x, t, v) ∈ reads tx -> v = serial pre x (contents0 x)) ∧
  (∀ x, is_locked (transaction_id (mem s x)) = false ->
     contents (mem s x) = serial (committed (hist s)) x (contents0 x)) ∧
  (∀ i tx, pcs s i = Committed tx -> tx ∈ committed (hist s)).
Proof. intros ?%silo_reachable_inv. by apply inv_serial. Qed.

(** A copy that Read accepts is not torn: when the transaction id read
    after the copy equals the one read before it, the item was not locked, the
    copy is the item's contents, and these are what the committed transactions
    wrote. *)
Theorem torn_copies_are_rejected {V} (contents0 : nat -> V) s i rs x t v :
  rtc step (init contents0) s -> pcs s i = ReadCopied rs x t v -> transaction_id (mem s x) = t ->
  is_locked t = false ∧ v = contents (mem s x) ∧ v = serial (committed (hist s)) x (contents0 x).
Proof.
  intros Hinv%silo_reachable_inv Hpc Hw. pose proof (inv_reader _ _ Hinv i) as Hr. rewrite Hpc in Hr.
  destruct Hr as (Hl & _ & Hv). assert (is_locked (word s x) = false) as Hlx by (unfold word; by rewrite Hw).
  assert (∀ j, ¬ holds s j x) as Hfree by (intros j; by eapply unlocked_free).
  destruct (inv_clean _ _ Hinv x) as [Hc Hp]; [intros j Hj; by destruct (Hfree j)|].
  destruct Hv as [->|(j & _ & Hj)]; [unfold word; by rewrite Hw, base_unlocked| |by destruct (Hfree j)].
  unfold cont, logical in *. split; [done|]. split; congruence.
Qed.

Lemma writer_locked {V} (contents0 : nat -> V) s i tx l e x v todo : inv contents0 s ->
  pcs s i = Writing tx l e x v todo -> is_locked (transaction_id (mem s x)) = false -> False.
Proof.
  intros Hinv Hpc Hl. apply (unlocked_free _ s x i Hinv Hl). rewrite holds_pc by exact Hpc. simpl.
  pose proof (inv_shape _ _ Hinv i) as Hs. rewrite Hpc in Hs. destruct Hs as (_ & -> & _ & d & f & ->).
  rewrite map_app. simpl. apply elem_of_app. right. apply list_elem_of_here.
Qed.

(** A step either keeps the version of an item, and with it the contents
    of an unlocked one, or replaces it by a larger version in an unlocked
    transaction id. *)
Theorem versions_only_grow {V} (contents0 : nat -> V) s s' x :
  rtc step (init contents0) s -> step s s' ->
  base (transaction_id (mem s' x)) = base (transaction_id (mem s x)) ∧
    (is_locked (transaction_id (mem s x)) = false -> contents (mem s' x) = contents (mem s x)) ∨
  tid_lt (base (transaction_id (mem s x))) (transaction_id (mem s' x)) ∧
    is_locked (transaction_id (mem s' x)) = false.
Proof.
  intros Hinv%silo_reachable_inv Hs.
  destruct Hs as [| | | | | |i tx l y f todo Hpc Hl| | | | | | | | |i tx l e y v todo g Hpc|i tx l e y v todo Hpc|
    |i tx y w l e Hpc Hlim| |i y w l Hpc| |]; try (by left).
  all: simpl; unfold upd; destruct (decide (x = y)) as [->|]; [simpl|by left].
  - left. subst desired. destruct (lock_word_spec _ Hl) as (_ & _ & Hb). rewrite Hb. by rewrite base_unlocked.
  - left. split; [done|]. intros Hl. by destruct (writer_locked _ _ _ _ _ _ _ _ _ Hinv Hpc).
  - left. split; [done|]. intros Hl. by destruct (writer_locked _ _ _ _ _ _ _ _ _ Hinv Hpc).
  - right. destruct (publish_version _ _ _ _ _ _ _ _ Hinv Hpc Hlim) as (? & ? & ? & ?).
    done.
  - left. destruct (inv_locks _ _ Hinv i y w) as [Hw Hl]; [rewrite Hpc; apply list_elem_of_here|].
    destruct (release_word_spec w Hl) as (Hb & _); [rewrite <- Hw; by apply (inv_words _ _ Hinv)|].
    unfold word in Hw. by rewrite Hw, Hb.
Qed.

(** ** A concrete execution *)

Module Demo.

Definition contents0 (x : nat) : Z := 10 * Z.of_nat x.

Tactic Notation "run" uconstr(H) :=
  eapply rtc_l; [eapply H; first [by apply (bool_decide_unpack _)|vm_compute; done]|].

(** Transaction 0 sets item 0 to 5; transaction 1 starts before it, has to
    read item 0 again, and adds what it read to item 1. *)
Definition w0 : TransactionId.t := mk 0 1.
Definition f0 : Z -> Z := fun _ => 5.
Definition f1 : Z -> Z := fun v => v + 5.
Definition tx0 : Tx Z := mkTx [] [(0%nat, f0)].
Definition tx1 : Tx Z := mkTx [(0%nat, mk 1 2, 5)] [(1%nat, f1)].

Definition execution : { s | rtc step (init contents0) s }.
Proof.
  eexists.
  run (step_read_load _ 1%nat [] 0%nat).
  run (step_precommit _ 0%nat [] (writes tx0)).
  run (step_lock _ 0%nat tx0 [] 0%nat f0 []).
  run (step_join _ 0%nat tx0 [(0%nat, w0)]).
  run (step_decide _ 0%nat tx0 [(0%nat, w0)] 1 []).
  run (step_install _ 0%nat tx0 [(0%nat, w0)] 1 0%nat f0 []).
  run (step_write_part _ 0%nat tx0 [(0%nat, w0)] 1 0%nat 5 [] 777).
  run (step_read_copy _ 1%nat [] 0%nat zero).
  run (step_write_done _ 0%nat tx0 [(0%nat, w0)] 1 0%nat 5 []).
  run (step_installed _ 0%nat tx0 [(0%nat, w0)] 1).
  run (step_publish _ 0%nat tx0 0%nat w0 [] 1).
  run (step_committed _ 0%nat tx0 1).
  run (step_read_again _ 1%nat [] 0%nat zero 777).
  run (step_read_load _ 1%nat [] 0%nat).
  run (step_read_copy _ 1%nat [] 0%nat (mk 1 2)).
  run (step_read_done _ 1%nat [] 0%nat (mk 1 2) 5).
  run (step_precommit _ 1%nat (reads tx1) (writes tx1)).
  run (step_lock _ 1%nat tx1 [] 1%nat f1 []).
  run (step_join _ 1%nat tx1 [(1%nat, w0)]).
  run (step_validate _ 1%nat tx1 [(1%nat, w0)] 1 [] 0%nat (mk 1 2) 5 []).
  run (step_decide _ 1%nat tx1 [(1%nat, w0)] 1 (reads tx1)).
  run (step_install _ 1%nat tx1 [(1%nat, w0)] 1 1%nat f1 []).
  run (step_write_done _ 1%nat tx1 [(1%nat, w0)] 1 1%nat 15 []).
  run (step_installed _ 1%nat tx1 [(1%nat, w0)] 1).
  run (step_publish _ 1%nat tx1 1%nat w0 [] 1).
  run (step_committed _ 1%nat tx1 1).
  apply rtc_refl.
Defined.

Lemma silo_serializable_witness :
  rtc step (init contents0) (`execution) ∧ committed (hist (`execution)) = [tx0; tx1] ∧
  5 = serial [tx0] 0%nat (contents0 0%nat) ∧
  contents (mem (`execution) 1%nat) = serial [tx0; tx1] 1%nat (contents0 1%nat).
Proof.
  destruct (silo_serializable contents0 (`execution) (proj2_sig execution)) as (Hr & Hm & _).
  assert (committed (hist (`execution)) = [tx0; tx1]) as Hc by (vm_compute; reflexivity).
  split; [exact (proj2_sig execution)|]. split; [exact Hc|]. split.
  - apply (Hr [tx0] tx1 [] Hc 0%nat (mk 1 2)). apply list_elem_of_here.
  - rewrite <- Hc. apply Hm. reflexivity.
Defined.

(** A copy of item 1 that is still to be checked. *)
Definition copying : State Z :=
  let s1 := set_pc (init contents0) 1%nat (ReadLoaded [] 1%nat zero) in
  set_pc s1 1%nat (ReadCopied [] 1%nat zero 10).

Lemma copying_reachable : rtc step (init contents0) copying.
Proof.
  run (step_read_load _ 1%nat [] 1%nat).
  run (step_read_copy _ 1%nat [] 1%nat zero).
  apply rtc_refl.
Qed.

Lemma torn_copies_are_rejected_witness :
  pcs copying 1%nat = ReadCopied [] 1%nat zero 10 ∧
  10 = serial (committed (hist copying)) 1%nat (contents0 1%nat).
Proof.
  split; [reflexivity|].
  apply (torn_copies_are_rejected contents0 copying 1%nat [] 1%nat zero 10 copying_reachable); reflexivity.
Defined.

Lemma versions_only_grow_witness :
  let s' := set_pc copying 1%nat (Running [(1%nat, zero, 10)]) in
  step copying s' ∧ rtc step (init contents0) copying ∧
  (base (transaction_id (mem s' 1%nat)) = base (transaction_id (mem copying 1%nat)) ∧
    (is_locked (transaction_id (mem copying 1%nat)) = false ->
     contents (mem s' 1%nat) = contents (mem copying 1%nat)) ∨
  tid_lt (base (transaction_id (mem copying 1%nat))) (transaction_id (mem s' 1%nat)) ∧
    is_locked (transaction_id (mem s' 1%nat)) = false).
Proof.
  simpl. assert (step copying (set_pc copying 1%nat (Running [(1%nat, zero, 10)]))) as Hs
    by (apply (step_read_done copying 1%nat [] 1%nat zero 10); reflexivity).
  split; [exact Hs|]. split; [exact copying_reachable|].
  exact (versions_only_grow contents0 copying _ 1%nat copying_reachable Hs).
Defined.

End Demo.
