(* ===== verification/SiloNwr.v ===== *)
(** * The SiloNWR commit protocol (src/src/concurrency_control/impl/silo_nwr.hpp)

    [SiloNWRTyped<true>] extends the Silo protocol of Silo.v by the omission of
    writes: a transaction whose writes can be ordered just before the pivot
    versions of their items commits without locking, installing or publishing
    anything.  The decision is made on the pivot objects of Pivot.v, which the
    omitting transactions change by compare-and-swap and the locking ones in
    [UpdatePivotObjects].

    The state is that of Silo.v with a pivot object per item; a transaction
    carries its read and write sets, the validation set, and the members
    [nwr_validation_result_], [my_pivot_object_] and [pivot_object_snapshots_].
    [step] performs one access to shared memory of one transaction, or a
    computation on its own data: every load, store and compare-and-swap of a
    version word or a pivot object is a step of its own, and a weak
    compare-and-swap may fail.  Contents are in flux while they are written, as
    in Silo.v.  A failed attempt of [IsOmittable] starts over with the
    snapshots of the earlier attempts in place, as its recursive call does.

    Left open: the attachment of a locked item to its index, the answer of
    [pre_commit_validator_] and the duplicate-key check, which may refuse a
    commit at any time; the epoch, which may advance at any time; the order of
    the write set, which is the argument of [Precommit].  The sequence number
    of a version is below its 32-bit limit, and the copy for a checkpoint is
    not taken. *)

From S2P Require Import Prelude Types Pivot Silo.
Import TransactionId HalfWordSet NWRPivotObject.

#[export] Instance versions_eq_dec : EqDecision Versions.
Proof. solve_decision. Defined.
#[export] Instance msets_eq_dec : EqDecision MergedSets.
Proof. solve_decision. Defined.
#[export] Instance pivot_eq_dec : EqDecision NWRPivotObject.t.
Proof. solve_decision. Defined.

Module SiloNWR.

Section nwr.
Context {V : Type}.

(** The address of an item, which the version sets hash. *)
Variable address : nat -> Z.

Abbreviation ReadEntry := (nat * TransactionId.t * V)%type.

(** An entry of the write set: [deltas] when it is a write of a non-unique
    secondary index with recorded deltas. *)
Record WriteEntry := mkWrite {
  item : nat;
  update : V -> V;
  is_read_modify_write : bool;
  is_insert : bool;
  deltas : bool;
}.

Inductive SnapshotFrom : Type := READSET | WRITESET.

Record PivotObjectSnapshot := mkSnapshot {
  item_p_cache : nat;
  pv_snapshot : NWRPivotObject.t;
  set_type : SnapshotFrom;
}.

Definition in_writeset (p : PivotObjectSnapshot) : bool :=
  match set_type p with WRITESET => true | READSET => false end.

(** A transaction: the rows it validates, those of them in its read set with
    the version of the copy, its write set, its thread's epoch, and the members
    for the omission. *)
Record Tx := mkTx {
  validation_set_ : list ReadEntry;
  read_set : list (nat * TransactionId.t);
  write_set : list WriteEntry;
  my_epoch : Z;
  nwr_validation_result_ : NWRValidationResult;
  my_pivot_object_ : NWRPivotObject.t;
  pivot_object_snapshots_ : list PivotObjectSnapshot;
}.

(** [Reset], in the epoch that the thread has joined. *)
Definition Reset (e : Z) : Tx := mkTx [] [] [] e NOT_YET_VALIDATED NWRPivotObject.empty [].

Definition set_writes (tx : Tx) (ws : list WriteEntry) : Tx :=
  mkTx (validation_set_ tx) (read_set tx) ws (my_epoch tx) (nwr_validation_result_ tx) (my_pivot_object_ tx)
    (pivot_object_snapshots_ tx).
Definition set_validation (tx : Tx) (rs : list ReadEntry) : Tx :=
  mkTx rs (read_set tx) (write_set tx) (my_epoch tx) (nwr_validation_result_ tx) (my_pivot_object_ tx)
    (pivot_object_snapshots_ tx).
Definition set_result (tx : Tx) (r : NWRValidationResult) : Tx :=
  mkTx (validation_set_ tx) (read_set tx) (write_set tx) (my_epoch tx) r (my_pivot_object_ tx)
    (pivot_object_snapshots_ tx).
Definition set_my_pivot (tx : Tx) (pv : NWRPivotObject.t) : Tx :=
  mkTx (validation_set_ tx) (read_set tx) (write_set tx) (my_epoch tx) (nwr_validation_result_ tx) pv
    (pivot_object_snapshots_ tx).
Definition set_snapshots (tx : Tx) (l : list PivotObjectSnapshot) : Tx :=
  mkTx (validation_set_ tx) (read_set tx) (write_set tx) (my_epoch tx) (nwr_validation_result_ tx)
    (my_pivot_object_ tx) l.

(** A read, by [Read] or, with [point] false, by [ReadDirect] of a scan. *)
Definition record_read (tx : Tx) (point : bool) (x : nat) (t : TransactionId.t) (v : V) : Tx :=
  mkTx (validation_set_ tx ++ [(x, t, v)]) (if point then read_set tx ++ [(x, t)] else read_set tx) (write_set tx)
    (my_epoch tx) (nwr_validation_result_ tx) (my_pivot_object_ tx) (pivot_object_snapshots_ tx).

Definition HasInsert (tx : Tx) : bool := existsb is_insert (write_set tx).
Definition IsReadOnly (tx : Tx) : bool := match write_set tx with [] => true | _ => false end.
Definition RequiresLockBasedInstall (tx : Tx) : bool := existsb deltas (write_set tx).

(** ** [IsOmittable] *)

(** The items whose pivot objects an attempt loads, in its order. *)
Definition to_snapshot (tx : Tx) : list (nat * SnapshotFrom) :=
  map (fun w => (item w, WRITESET)) (write_set tx) ++ map (fun r => (r.1, READSET)) (read_set tx).

(** The version of a read in the merged read set. *)
Definition read_version (e : Z) (t : TransactionId.t) : Z := if TransactionId.epoch t =? e then tid t else 1.

Definition merged_reads (tx : Tx) : list (Z * Z) :=
  map (fun r => (address r.1, read_version (my_epoch tx) r.2)) (read_set tx).

Definition merged_targets (tx : Tx) : list (Z * Z) :=
  map (fun p => (address (item_p_cache p), target_id (versions (pv_snapshot p))))
    (List.filter in_writeset (pivot_object_snapshots_ tx)).

(** The squashed sets of the transaction. *)
Definition squash (tx : Tx) : NWRPivotObject.t :=
  let my := my_pivot_object_ tx in
  NWRPivotObject.mk (mkVersions (target_id (versions my)) (my_epoch tx))
    (mkSets (record_higher (rset (msets my)) (merged_reads tx)) (record_higher (wset (msets my)) (merged_targets tx))).

(** "Validate Serializability 1": the first answer that is not [ACYCLIC]. *)
Fixpoint reachable_from (l : list PivotObjectSnapshot) (tj : NWRPivotObject.t) : NWRValidationResult :=
  match l with
  | [] => ACYCLIC
  | p :: l' =>
      if in_writeset p then
        match IsReachableInto (pv_snapshot p) tj with
        | ACYCLIC => reachable_from l' tj
        | result => result
        end
      else reachable_from l' tj
  end.

(** The checks on the snapshots: the members after them, and whether the
    analysis goes on. *)
Definition analyse (tx : Tx) : Tx * bool :=
  if negb (forallb (fun p => negb (in_writeset p) || (epoch (versions (pv_snapshot p)) =? my_epoch tx))
             (pivot_object_snapshots_ tx))
  then (set_result tx LINEARIZABILITY, false)
  else
    let tx' := set_my_pivot tx (squash tx) in
    match reachable_from (pivot_object_snapshots_ tx) (squash tx) with
    | ACYCLIC => (tx', true)
    | result => (set_result tx' result, false)
    end.

(** The sets that the transaction adds to a pivot object. *)
Definition merge_into (tx : Tx) (pv : NWRPivotObject.t) : NWRPivotObject.t :=
  NWRPivotObject.mk (versions pv)
    (mkSets (Merge (rset (msets pv)) (rset (msets (my_pivot_object_ tx))))
       (Merge (wset (msets pv)) (wset (msets (my_pivot_object_ tx))))).

(** ** [UpdatePivotObjects] *)

(** The version that [PostProcessing] will publish over a locked word, judged
    by the epoch before the commit epoch is joined. *)
Definition new_version (e : Z) (w : TransactionId.t) : Z :=
  if TransactionId.epoch w =? e then u32 (tid w + 1) else 2.

Definition merged_writes (tx : Tx) (locked : list (nat * TransactionId.t)) : list (Z * Z) :=
  map (fun xw => (address xw.1, new_version (my_epoch tx) xw.2)) locked.

Definition rebuild (tx : Tx) (locked : list (nat * TransactionId.t)) : Tx :=
  let my := my_pivot_object_ tx in
  set_my_pivot tx
    (NWRPivotObject.mk (mkVersions (target_id (versions my)) (my_epoch tx))
       (mkSets (record_lower (rset (msets my)) (merged_reads tx))
          (record_higher (wset (msets my)) (merged_writes tx locked)))).

(** The write-set entry that makes a store into an item the first blind write:
    the last one before a read-modify-write. *)
Fixpoint blind_write (x : nat) (ws : list WriteEntry) (found : bool) : bool :=
  match ws with
  | [] => found
  | w :: ws' =>
      if negb (item w =? x)%nat then blind_write x ws' found
      else if is_read_modify_write w then found
      else blind_write x ws' true
  end.

Definition locked_tid (x : nat) (locked : list (nat * TransactionId.t)) : Z :=
  match List.find (fun xw => (xw.1 =? x)%nat) locked with Some (_, w) => tid w | None => 0 end.

(** The pivot object of the first blind write. *)
Definition pivot_of_write (tx : Tx) (locked : list (nat * TransactionId.t)) (x : nat) : NWRPivotObject.t :=
  NWRPivotObject.mk (mkVersions (locked_tid x locked) (my_epoch tx)) (msets (my_pivot_object_ tx)).

(** ** Positions *)

Inductive Pc : Type :=
  | Idle
  | Running (tx : Tx)
  | ReadLoaded (tx : Tx) (point : bool) (x : nat) (t : TransactionId.t)
  | ReadCopied (tx : Tx) (point : bool) (x : nat) (t : TransactionId.t) (snapshot : V)
  (** [IsOmittable] *)
  | TakingSnapshots (tx : Tx) (todo : list (nat * SnapshotFrom))
  | OmitChecking (tx : Tx) (todo : list ReadEntry)
  | Swapping (tx : Tx) (done todo : list PivotObjectSnapshot)
  | Omitting (tx : Tx)
  (** the lock-based path *)
  | Locking (tx : Tx) (locked : list (nat * TransactionId.t)) (todo : list WriteEntry)
  | UpdatingPivots (tx : Tx) (locked : list (nat * TransactionId.t)) (todo : list PivotObjectSnapshot)
  | StoringPivot (tx : Tx) (locked : list (nat * TransactionId.t)) (x : nat) (todo : list PivotObjectSnapshot)
  | LoadingPivot (tx : Tx) (locked : list (nat * TransactionId.t)) (x : nat) (todo : list PivotObjectSnapshot)
  | MergingPivot (tx : Tx) (locked : list (nat * TransactionId.t)) (x : nat) (old : NWRPivotObject.t)
      (todo : list PivotObjectSnapshot)
  | Validating (tx : Tx) (locked : list (nat * TransactionId.t)) (commit_epoch : Z) (todo : list ReadEntry)
  | Installing (tx : Tx) (locked : list (nat * TransactionId.t)) (commit_epoch : Z) (todo : list WriteEntry)
  | Writing (tx : Tx) (locked : list (nat * TransactionId.t)) (commit_epoch : Z) (x : nat) (v : V) (todo : list WriteEntry)
  | Publishing (tx : Tx) (locked : list (nat * TransactionId.t)) (commit_epoch : Z)
  | Committed (tx : Tx) (omitted : bool)
  | Releasing (locked : list (nat * TransactionId.t))
  | Aborted.

Record State := mkState {
  mem : nat -> Item V;
  pivots : nat -> NWRPivotObject.t;
  global_epoch : Z;
  pcs : nat -> Pc;
}.

Definition init (contents0 : nat -> V) : State :=
  mkState (fun x => mkItem zero (contents0 x)) (fun _ => NWRPivotObject.empty) 1 (fun _ => Idle).

Definition set_pc (s : State) (i : nat) (pc : Pc) : State :=
  mkState (mem s) (pivots s) (global_epoch s) (upd (pcs s) i pc).
Definition set_word (s : State) (x : nat) (w : TransactionId.t) : State :=
  mkState (upd (mem s) x (mkItem w (contents (mem s x)))) (pivots s) (global_epoch s) (pcs s).
Definition set_contents (s : State) (x : nat) (v : V) : State :=
  mkState (upd (mem s) x (mkItem (transaction_id (mem s x)) v)) (pivots s) (global_epoch s) (pcs s).
Definition set_pivot (s : State) (x : nat) (pv : NWRPivotObject.t) : State :=
  mkState (mem s) (upd (pivots s) x pv) (global_epoch s) (pcs s).

(** ** Steps *)

(** What a transaction does next: [Next false] is the failure of a weak
    compare-and-swap or the refusal by a check that is left open. *)
Inductive Act : Type :=
  | Begin
  | Read (point : bool) (x : nat)
  | Abort
  | Precommit (ws : list WriteEntry)
  | Next (ok : bool)
  | WritePart (garbage : V).

Definition word (s : State) (x : nat) : TransactionId.t := transaction_id (mem s x).

(** A failed attempt at the omission: what [Precommit] does with the result of
    [IsOmittable]. *)
Definition not_omitted (tx : Tx) : Pc :=
  match nwr_validation_result_ tx with
  | ANTI_DEPENDENCY => Aborted
  | _ => Locking tx [] (write_set tx)
  end.

(** [Read], [ReadDirect] *)
Definition read_step (s : State) (i : nat) (pc : Pc) : option State :=
  match pc with
  | ReadLoaded tx point x t => Some (set_pc s i (ReadCopied tx point x t (contents (mem s x))))
  | ReadCopied tx point x t v =>
      Some (set_pc s i (if decide (word s x = t) then Running (record_read tx point x t v) else Running tx))
  | _ => None
  end.

(** [IsOmittable] *)
Definition omit_step (s : State) (i : nat) (pc : Pc) (ok : bool) : option State :=
  match pc with
  | TakingSnapshots tx ((x, from) :: todo) =>
      let tx' := set_snapshots tx (pivot_object_snapshots_ tx ++ [mkSnapshot x (pivots s x) from]) in
      Some (set_pc s i (TakingSnapshots tx' todo))
  | TakingSnapshots tx [] =>
      let '(tx', go) := analyse tx in
      Some (set_pc s i (if go then OmitChecking tx' (validation_set_ tx') else not_omitted tx'))
  | OmitChecking tx ((x, t, _) :: todo) =>
      if decide (word s x = t) then Some (set_pc s i (OmitChecking tx todo))
      else Some (set_pc s i (not_omitted (set_result tx ANTI_DEPENDENCY)))
  | OmitChecking tx [] =>
      if RequiresLockBasedInstall tx then Some (set_pc s i (not_omitted tx))
      else Some (set_pc s i (Swapping tx [] (pivot_object_snapshots_ tx)))
  | Swapping tx done (p :: todo) =>
      let old := pv_snapshot p in
      let new := merge_into tx old in
      let x := item_p_cache p in
      if decide (msets new = msets old) then Some (set_pc s i (Swapping tx (done ++ [p]) todo))
      else if decide (pivots s x = old) then
        if ok then Some (set_pc (set_pivot s x new) i (Swapping tx (done ++ [p]) todo))
        else Some (set_pc s i (TakingSnapshots tx (to_snapshot tx)))
      else
        let p' := mkSnapshot x (pivots s x) (set_type p) in
        Some (set_pc s i (TakingSnapshots (set_snapshots tx (done ++ p' :: todo)) (to_snapshot tx)))
  | Swapping tx done [] => Some (set_pc s i (Omitting (set_result tx ACYCLIC)))
  | Omitting tx => Some (set_pc s i (if ok then Committed tx true else Aborted))
  | _ => None
  end.

(** [UpdatePivotObjects] *)
Definition pivot_step (s : State) (i : nat) (pc : Pc) (ok : bool) : option State :=
  match pc with
  | UpdatingPivots tx locked (p :: todo) =>
      let x := item_p_cache p in
      if negb (epoch (versions (pivots s x)) =? my_epoch tx) && in_writeset p && blind_write x (write_set tx) false
      then Some (set_pc s i (StoringPivot tx locked x todo))
      else Some (set_pc s i (LoadingPivot tx locked x todo))
  | StoringPivot tx locked x todo =>
      Some (set_pc (set_pivot s x (pivot_of_write tx locked x)) i (UpdatingPivots tx locked todo))
  | LoadingPivot tx locked x todo => Some (set_pc s i (MergingPivot tx locked x (pivots s x) todo))
  | MergingPivot tx locked x old todo =>
      if decide (pivots s x = old) then
        if ok then Some (set_pc (set_pivot s x (merge_into tx old)) i (UpdatingPivots tx locked todo))
        else Some (set_pc s i (LoadingPivot tx locked x todo))
      else Some (set_pc s i (LoadingPivot tx locked x todo))
  | UpdatingPivots tx locked [] =>
      (** [MakeMeOffline], [MakeMeOnline] *)
      Some (set_pc s i (Validating tx locked (global_epoch s) (validation_set_ tx)))
  | _ => None
  end.

(** The item locked last is not the one in the index. *)
Definition detached (s : State) (i : nat) (locked : list (nat * TransactionId.t)) : option State :=
  match locked with [] => None | _ => Some (set_pc s i (Releasing locked)) end.

(** The lock-based rest of [Precommit], and [PostProcessing], which does nothing
    for an omitted transaction. *)
Definition lock_step (s : State) (i : nat) (pc : Pc) (ok : bool) : option State :=
  match pc with
  | Locking tx locked (w :: todo) =>
      if negb ok then detached s i locked
      else if is_locked (word s (item w)) then None
      else
        let desired := lock_word (word s (item w)) in
        Some (set_pc (set_word s (item w) desired) i
                (Locking (set_validation tx (mark_locked (item w) (validation_set_ tx))) (locked ++ [(item w, desired)]) todo))
  | Locking tx locked [] =>
      if negb ok then detached s i locked
      else Some (set_pc s i (UpdatingPivots (rebuild tx locked) locked (pivot_object_snapshots_ tx)))
  | Validating tx locked e ((x, t, v) :: todo) =>
      if decide (word s x = t) then Some (set_pc s i (Validating tx locked e todo))
      else Some (set_pc s i (Releasing locked))
  | Validating tx locked e [] =>
      if ok then Some (set_pc s i (Installing tx locked e (write_set tx))) else Some (set_pc s i (Releasing locked))
  | Installing tx locked e (w :: todo) =>
      Some (set_pc s i (Writing tx locked e (item w) (update w (contents (mem s (item w)))) todo))
  | Writing tx locked e x v todo => Some (set_pc (set_contents s x v) i (Installing tx locked e todo))
  | Installing tx locked e [] =>
      Some (set_pc s i (match nwr_validation_result_ tx with ACYCLIC => Committed tx false | _ => Publishing tx locked e end))
  | Publishing tx ((x, w) :: locked) e =>
      if tid w + 1 <? 2 ^ 32 then Some (set_pc (set_word s x (unlocked_id e w)) i (Publishing tx locked e)) else None
  | Publishing tx [] e => Some (set_pc s i (Committed tx false))
  | Releasing ((x, w) :: locked) => Some (set_pc (set_word s x (release_word (word s x))) i (Releasing locked))
  | Releasing [] => Some (set_pc s i Aborted)
  | _ => None
  end.

(** A step of the call a transaction is in. *)
Definition next (s : State) (i : nat) (ok : bool) : option State :=
  match pcs s i with
  | ReadLoaded _ _ _ _ | ReadCopied _ _ _ _ _ => read_step s i (pcs s i)
  | TakingSnapshots _ _ | OmitChecking _ _ | Swapping _ _ _ | Omitting _ => omit_step s i (pcs s i) ok
  | UpdatingPivots _ _ _ | StoringPivot _ _ _ _ | LoadingPivot _ _ _ _ | MergingPivot _ _ _ _ _ => pivot_step s i (pcs s i) ok
  | _ => lock_step s i (pcs s i) ok
  end.

Definition act (s : State) (i : nat) (a : Act) : option State :=
  match a, pcs s i with
  | Begin, Idle => Some (set_pc s i (Running (Reset (global_epoch s))))
  | Read point x, Running tx =>
      if is_locked (word s x) then None else Some (set_pc s i (ReadLoaded tx point x (word s x)))
  | Abort, Running _ => Some (set_pc s i Aborted)
  | Precommit ws, Running tx =>
      let tx' := set_writes tx ws in
      if bool_decide (NoDup (map item ws)) then
        if negb (IsReadOnly tx') && negb (HasInsert tx') then Some (set_pc s i (TakingSnapshots tx' (to_snapshot tx')))
        else Some (set_pc s i (not_omitted tx'))
      else None
  | Next ok, _ => next s i ok
  | WritePart garbage, Writing _ _ _ x _ _ => Some (set_contents s x garbage)
  | _, _ => None
  end.

(** One transaction acts, or the epoch advances. *)
Definition step (s : State) (l : option (nat * Act)) : option State :=
  match l with
  | Some (i, a) => act s i a
  | None => Some (mkState (mem s) (pivots s) (global_epoch s + 1) (pcs s))
  end.

Fixpoint run (s : State) (ls : list (option (nat * Act))) : option State :=
  match ls with
  | [] => Some s
  | l :: ls' => match step s l with Some s' => run s' ls' | None => None end
  end.

End nwr.

Arguments WriteEntry : clear implicits.
Arguments Tx : clear implicits.
Arguments Pc : clear implicits.
Arguments State : clear implicits.
Arguments Act : clear implicits.
End SiloNWR.
