(* ===== verification/SiloNwrSerial.v ===== *)
(** * What SiloNWR guarantees, and what it loses

    Every execution of SiloNwr.v is an execution of Silo.v in which the
    transactions whose writes were omitted commit without writes: the
    simulation [nwr_simulated].  With the serial order of SiloSerial.v the
    values read and the contents of the items are those of a serial execution
    of the committed transactions without the omitted writes.

    The omitted writes themselves need not fit into any serial order.  In the
    execution of [Demo], one transaction reads an item [y] and blindly writes
    an item [x], a second one blindly writes [y], and a third one blindly
    writes both: its writes are omitted, although the first transaction would
    have to read the third one's write of [y] if they came before, and the
    third one's write of [x] would have to last if they came after.  The check
    misses the conflict because [UpdatePivotObjects] records no reads
    ([record_lower_empty] of Pivot.v). *)

From stdpp Require Import relations.
From S2P Require Import Prelude Types Pivot Silo SiloSerial SiloNwr.
Import TransactionId HalfWordSet NWRPivotObject.
Import SiloNWR.

(** ** Transactions as Silo sees them *)

Section simulation.
Context {V : Type} (address : nat -> Z).
Implicit Types (s : SiloNWR.State V) (a : Silo.State V) (tx : SiloNWR.Tx V).

Definition silo_writes (ws : list (WriteEntry V)) : list (nat * (V -> V)) := map (fun w => (item w, update w)) ws.

Definition silo_tx tx : Silo.Tx V := Silo.mkTx (validation_set_ tx) (silo_writes (write_set tx)).

(** A transaction whose writes are omitted. *)
Definition unwritten tx : Silo.Tx V := Silo.mkTx (validation_set_ tx) [].

Definition effect tx (omitted : bool) : Silo.Tx V := if omitted then unwritten tx else silo_tx tx.

(** Not yet found omittable, with a write set that names an item once. *)
Definition lockable tx : Prop := nwr_validation_result_ tx <> ACYCLIC ∧ NoDup (map item (write_set tx)).

Definition pc_rel (pc : SiloNWR.Pc V) (spc : Silo.Pc V) : Prop :=
  match pc with
  | Idle => spc = Silo.Running []
  | Running tx => nwr_validation_result_ tx = NOT_YET_VALIDATED ∧ spc = Silo.Running (validation_set_ tx)
  | ReadLoaded tx _ x t => nwr_validation_result_ tx = NOT_YET_VALIDATED ∧ spc = Silo.ReadLoaded (validation_set_ tx) x t
  | ReadCopied tx _ x t v => nwr_validation_result_ tx = NOT_YET_VALIDATED ∧ spc = Silo.ReadCopied (validation_set_ tx) x t v
  | TakingSnapshots tx _ => lockable tx ∧ spc = Silo.Running (validation_set_ tx)
  | OmitChecking tx todo => lockable tx ∧ ∃ e c, spc = Silo.Validating (unwritten tx) [] e c todo
  | Swapping tx _ _ => lockable tx ∧ ∃ e c, spc = Silo.Validating (unwritten tx) [] e c []
  | Omitting tx => ∃ e c, spc = Silo.Validating (unwritten tx) [] e c []
  | Locking tx l todo => lockable tx ∧ spc = Silo.Locking (silo_tx tx) l (silo_writes todo)
  | UpdatingPivots tx l _ | StoringPivot tx l _ _ | LoadingPivot tx l _ _ | MergingPivot tx l _ _ _ =>
      lockable tx ∧ spc = Silo.Locking (silo_tx tx) l []
  | Validating tx l e todo => lockable tx ∧ ∃ c, spc = Silo.Validating (silo_tx tx) l e c todo
  | Installing tx l e todo => lockable tx ∧ spc = Silo.Installing (silo_tx tx) l e (silo_writes todo)
  | Writing tx l e x v todo => lockable tx ∧ spc = Silo.Writing (silo_tx tx) l e x v (silo_writes todo)
  | Publishing tx l e => lockable tx ∧ spc = Silo.Publishing (silo_tx tx) l e
  | Committed tx omitted => spc = Silo.Committed (effect tx omitted)
  | Releasing l => spc = Silo.Releasing l
  | Aborted => spc = Silo.Aborted
  end.

Definition rel s a : Prop :=
  Silo.mem a = mem s ∧ Silo.global_epoch a = global_epoch s ∧ ∀ i, pc_rel (pcs s i) (Silo.pcs a i).

(** ** Moves of one transaction that leave the items alone *)

Definition moves a (i : nat) (spc : Silo.Pc V) a' : Prop :=
  rtc Silo.step a a' ∧ Silo.mem a' = Silo.mem a ∧ Silo.global_epoch a' = Silo.global_epoch a ∧
  Silo.pcs a' i = spc ∧ ∀ j, j <> i -> Silo.pcs a' j = Silo.pcs a j.

Lemma moves_refl a i : moves a i (Silo.pcs a i) a.
Proof. by repeat split. Qed.

Lemma moves_step a i spc a1 h spc' : moves a i spc a1 ->
  Silo.step a1 (Silo.set_pc (Silo.set_hist a1 h) i spc') ->
  moves a i spc' (Silo.set_pc (Silo.set_hist a1 h) i spc').
Proof.
  intros (Hr & Hm & He & Hi & Hj) Hs. split; [by eapply rtc_r|]. split; [done|]. split; [done|].
  split; cbn; [by rewrite upd_eq|]. intros j Hne. rewrite upd_ne by done. auto.
Qed.

Lemma moves_keep a i spc a1 spc' : moves a i spc a1 -> Silo.step a1 (Silo.set_pc a1 i spc') ->
  moves a i spc' (Silo.set_pc a1 i spc').
Proof. intros Hm Hs. apply (moves_step a i spc a1 (Silo.hist a1) spc' Hm). by destruct a1. Qed.

Lemma moves_then a i spc a1 spc' : moves a i spc a1 ->
  (∀ a1, Silo.pcs a1 i = spc -> Silo.step a1 (Silo.set_pc a1 i spc')) -> ∃ a2, moves a i spc' a2.
Proof. intros Hm Hs. eexists. eapply moves_keep; [exact Hm|]. apply Hs, Hm. Qed.

Lemma moves_rel s a i spc a' pc : rel s a -> moves a i spc a' -> pc_rel pc spc -> rel (set_pc s i pc) a'.
Proof.
  intros (Hm & He & Hp) (_ & Hm' & He' & Hi & Hj) Hpc. split; [by rewrite Hm'|]. split; [by rewrite He'|].
  intros j. cbn. unfold upd. destruct (decide (j = i)) as [->|Hne]; [by rewrite Hi|]. rewrite Hj by done. apply Hp.
Qed.

(** A pivot object is not part of Silo's state. *)
Lemma set_pivot_rel s a x pv : rel s a -> rel (set_pivot s x pv) a.
Proof. done. Qed.

(** ** The steps *)

Definition simulated s' a : Prop := ∃ a', rtc Silo.step a a' ∧ rel s' a'.

Lemma move_simulated s a i spc a' pc : rel s a -> moves a i spc a' -> pc_rel pc spc -> simulated (set_pc s i pc) a.
Proof. intros Hr Hm Hpc. exists a'. split; [apply Hm|]. by eapply moves_rel. Qed.

Lemma stay_simulated s a i pc : rel s a -> pc_rel pc (Silo.pcs a i) -> simulated (set_pc s i pc) a.
Proof. intros Hr Hpc. eapply move_simulated; [done|apply moves_refl|done]. Qed.

Lemma keep_simulated s a i pc spc : rel s a -> Silo.step a (Silo.set_pc a i spc) -> pc_rel pc spc ->
  simulated (set_pc s i pc) a.
Proof. intros Hr Hs Hpc. eapply move_simulated; [done|by eapply moves_keep, Hs; apply moves_refl|done]. Qed.

Lemma hist_simulated s a i pc h spc : rel s a -> Silo.step a (Silo.set_pc (Silo.set_hist a h) i spc) -> pc_rel pc spc ->
  simulated (set_pc s i pc) a.
Proof. intros Hr Hs Hpc. eapply move_simulated; [done|by eapply moves_step, Hs; apply moves_refl|done]. Qed.

(** Steps that change an item. *)
Lemma item_simulated s a i x it pc a' : rel s a -> Silo.step a a' ->
  Silo.mem a' = upd (Silo.mem a) x it -> Silo.global_epoch a' = Silo.global_epoch a ->
  (∃ spc, pc_rel pc spc ∧ Silo.pcs a' = upd (Silo.pcs a) i spc) ->
  simulated (set_pc (mkState (upd (Silo.mem a) x it) (pivots s) (global_epoch s) (pcs s)) i pc) a.
Proof.
  intros (Hm & He & Hp) Hs Hm' He' (spc & Hpc & Hp'). exists a'. split; [by apply rtc_once|]. split; [by rewrite Hm'|].
  split; [by rewrite He'|]. intros j. rewrite Hp'. cbn. unfold upd. destruct (decide (j = i)); [done|apply Hp].
Qed.

Lemma rel_pc s a i : rel s a -> pc_rel (pcs s i) (Silo.pcs a i).
Proof. intros (_ & _ & H). apply H. Qed.

Lemma rel_word s a x : rel s a -> transaction_id (Silo.mem a x) = word s x.
Proof. intros (H & _). by rewrite H. Qed.

Lemma rel_contents s a x : rel s a -> contents (Silo.mem a x) = contents (mem s x).
Proof. intros (H & _). by rewrite H. Qed.

Lemma silo_writes_items (ws : list (WriteEntry V)) : map fst (silo_writes ws) = map item ws.
Proof. unfold silo_writes. rewrite map_map. done. Qed.

(** A transaction that is not omitted locks, or gives up. *)
Lemma not_omitted_simulated s a i tx a' : rel s a -> lockable tx -> moves a i (Silo.Running (validation_set_ tx)) a' ->
  simulated (set_pc s i (not_omitted tx)) a.
Proof.
  intros Hr Hl Hm. pose proof Hm as (_ & _ & _ & Hi & _).
  assert (Hlock : simulated (set_pc s i (Locking tx [] (write_set tx))) a).
  { eapply move_simulated; [done|eapply moves_keep, (step_precommit a' i (validation_set_ tx) (silo_writes (write_set tx)))|done];
      [done|done|rewrite silo_writes_items; apply Hl]. }
  unfold not_omitted. destruct (nwr_validation_result_ tx); try done.
  eapply move_simulated; [done|by eapply moves_keep, step_abort|done].
Qed.

(** Validation without locks, as Silo sees it: a transaction without writes
    joins its commit epoch, and may come back. *)
Lemma enter_moves a i rs : Silo.pcs a i = Silo.Running rs ->
  ∃ e a', moves a i (Silo.Validating (Silo.mkTx rs []) [] e [] rs) a'.
Proof.
  intros Hi. assert (Hm : moves a i (Silo.Locking (Silo.mkTx rs []) [] []) (Silo.set_pc a i (Silo.Locking (Silo.mkTx rs []) [] []))).
  { eapply moves_keep; [apply moves_refl|]. apply (step_precommit a i rs []); [done|constructor]. }
  exists (Silo.global_epoch a). eexists. eapply moves_step; [exact Hm|].
  refine (step_join _ i (Silo.mkTx rs []) [] _). cbn. apply upd_eq.
Qed.

Lemma retry_moves a i rs e c todo : Silo.pcs a i = Silo.Validating (Silo.mkTx rs []) [] e c todo ->
  ∃ a', moves a i (Silo.Running rs) a'.
Proof.
  intros Hi. eexists. eapply moves_step; [apply moves_refl|]. exact (step_retry a i (Silo.mkTx rs []) e c todo Hi).
Qed.

(** Without writes, a validated transaction commits, or is refused. *)
Lemma commit_moves a i rs e c : Silo.pcs a i = Silo.Validating (Silo.mkTx rs []) [] e c [] ->
  ∃ a', moves a i (Silo.Committed (Silo.mkTx rs [])) a'.
Proof.
  intros Hi. pose proof (moves_step a i _ a _ _ (moves_refl a i) (step_decide a i _ _ _ _ Hi)) as H1.
  destruct (moves_then _ _ _ _ (Silo.Publishing (Silo.mkTx rs []) [] e) H1) as [a2 H2];
    [intros; by apply step_installed|].
  eapply moves_then; [exact H2|]. intros. by eapply step_committed.
Qed.

Lemma leave_moves a i rs e c : Silo.pcs a i = Silo.Validating (Silo.mkTx rs []) [] e c [] ->
  ∃ a', moves a i Silo.Aborted a'.
Proof.
  intros Hi. pose proof (moves_step a i _ a _ _ (moves_refl a i) (step_refused a i _ _ _ _ Hi)) as H1.
  eapply moves_then; [exact H1|]. intros. by apply step_aborted.
Qed.

Lemma analyse_lockable tx : lockable tx ->
  lockable (analyse address tx).1 ∧ validation_set_ (analyse address tx).1 = validation_set_ tx.
Proof.
  intros [Hr Hn]. unfold analyse. destruct (negb _); [done|].
  by destruct (reachable_from _ _).
Qed.

Lemma read_simulated s a i s' : rel s a -> read_step s i (pcs s i) = Some s' -> simulated s' a.
Proof.
  intros Hr. pose proof (rel_pc s a i Hr) as Hpc. unfold read_step.
  destruct (pcs s i) as [| |tx p x t|tx p x t v| | | | | | | | | | | | | | | |]; try done; intros [= <-].
  - destruct Hpc as [Hn Hpc]. eapply keep_simulated; [done|by apply step_read_copy|]. split; [done|].
    by rewrite (rel_contents s a x Hr).
  - destruct Hpc as [Hn Hpc]. rewrite <- (rel_word s a x Hr). destruct (decide _) as [Hw|Hw].
    + eapply keep_simulated; [done|by eapply step_read_done|]. done.
    + eapply keep_simulated; [done|by eapply step_read_again|]. done.
Qed.

Lemma omit_simulated s a i ok s' : rel s a -> omit_step address s i (pcs s i) ok = Some s' -> simulated s' a.
Proof.
  intros Hr. pose proof (rel_pc s a i Hr) as Hpc. unfold omit_step.
  destruct (pcs s i) as [| | | |tx [|[x from] todo]|tx [|[[x t] v] todo]|tx dn [|p todo]|tx| | | | | | | | | | | |]; try done.
  - destruct Hpc as [Hl Hi]. destruct (analyse_lockable tx Hl) as [Hl' Hv].
    destruct (analyse address tx) as [tx' []]; cbn [fst] in *; intros [= <-].
    + destruct (enter_moves a i (validation_set_ tx') ltac:(by rewrite Hv)) as (e & a' & Hm).
      eapply move_simulated; [done|exact Hm|]. split; [done|]. by exists e, [].
    + eapply not_omitted_simulated; [done|done|]. rewrite Hv, <- Hi. apply moves_refl.
  - destruct Hpc as [Hl Hi]. intros [= <-]. by apply stay_simulated.
  - destruct Hpc as (Hl & e & c & Hi). destruct (RequiresLockBasedInstall tx); intros [= <-].
    + destruct (retry_moves a i _ e c [] Hi) as [a' Hm]. by eapply not_omitted_simulated.
    + apply stay_simulated; [done|]. split; [done|]. by exists e, c.
  - destruct Hpc as (Hl & e & c & Hi). rewrite <- (rel_word s a x Hr). destruct (decide _) as [Hw|Hw]; intros [= <-].
    + eapply keep_simulated; [done|by eapply step_validate|]. split; [done|]. eauto.
    + destruct (moves_then a i (Silo.Releasing []) _ Silo.Aborted
        (moves_step a i _ a _ _ (moves_refl a i) (step_invalid a i _ _ _ _ _ _ _ _ Hi Hw)) ltac:(intros; by apply step_aborted)) as [a' Hm].
      by eapply move_simulated.
  - destruct Hpc as (Hl & e & c & Hi). intros [= <-]. apply stay_simulated; [done|]. by exists e, c.
  - destruct Hpc as (Hl & e & c & Hi). assert (Hsw : ∀ s0 d td, rel s0 a -> simulated (set_pc s0 i (Swapping tx d td)) a).
    { intros. apply stay_simulated; [done|]. split; [done|]. by exists e, c. }
    assert (Hag : ∀ tx' td, lockable tx' -> validation_set_ tx' = validation_set_ tx ->
      simulated (set_pc s i (TakingSnapshots tx' td)) a).
    { intros tx' td Hl' Hv. destruct (retry_moves a i _ e c [] Hi) as [a' Hm]. eapply move_simulated; [done|exact Hm|].
      split; [done|]. by rewrite Hv. }
    destruct (decide _); [|destruct (decide _); [destruct ok|]]; intros [= <-]; auto.
  - destruct Hpc as (e & c & Hi). intros [= <-]. destruct ok.
    + destruct (commit_moves a i _ e c Hi) as [a' Hm]. by eapply move_simulated.
    + destruct (leave_moves a i _ e c Hi) as [a' Hm]. by eapply move_simulated.
Qed.

Lemma pivot_simulated s a i ok s' : rel s a -> pivot_step s i (pcs s i) ok = Some s' -> simulated s' a.
Proof.
  intros Hr. pose proof (rel_pc s a i Hr) as Hpc. unfold pivot_step.
  destruct (pcs s i) as [| | | | | | | | |tx l [|p todo]|tx l x todo|tx l x todo|tx l x old todo| | | | | | |]; try done.
  - destruct Hpc as [Hl Hi]. intros [= <-]. eapply hist_simulated; [done|by apply step_join|]. split; [done|].
    exists []. destruct Hr as (_ & <- & _). done.
  - destruct (_ && _ && _); intros [= <-]; by apply stay_simulated.
  - intros [= <-]. by apply stay_simulated.
  - intros [= <-]. by apply stay_simulated.
  - destruct (decide _); [destruct ok|]; intros [= <-]; by apply stay_simulated.
Qed.

Lemma detached_simulated s a i l s' : rel s a -> Silo.step a (Silo.set_pc a i (Silo.Releasing l)) ->
  detached s i l = Some s' -> simulated s' a.
Proof. intros Hr Hs. unfold detached. destruct l; [done|]. intros [= <-]. by eapply keep_simulated. Qed.

Lemma lock_simulated s a i ok s' : rel s a -> lock_step address s i (pcs s i) ok = Some s' -> simulated s' a.
Proof.
  intros Hr. pose proof (rel_pc s a i Hr) as Hpc. pose proof Hr as (Hmem & _ & _). unfold lock_step.
  destruct (pcs s i) as [| | | | | | | |tx l [|w todo]| | | | |tx l e [|[[x t] v] todo]|tx l e [|w todo]|tx l e x v todo
    |tx [|[x w] l] e| |[|[x w] l]|]; try done.
  - destruct Hpc as [Hl Hi]. destruct ok; cbn [negb]; [intros [= <-]; by apply stay_simulated|].
    apply detached_simulated; [done|]. by eapply step_detached.
  - destruct Hpc as [Hl Hi]. destruct ok; cbn [negb]; [|apply detached_simulated; [done|by eapply step_detached]].
    rewrite <- (rel_word s a (item w) Hr). destruct (is_locked _) eqn:El; [done|]. intros [= <-].
    unfold set_word. rewrite <- Hmem. eapply item_simulated; [done|exact (step_lock a i (silo_tx tx) l (item w) (update w) (silo_writes todo) Hi El)|done|done|]. eexists. split; [|reflexivity]. done.
  - destruct Hpc as (Hl & c & Hi). destruct ok; intros [= <-].
    + eapply hist_simulated; [done|by eapply step_decide|]. done.
    + eapply hist_simulated; [done|by eapply step_refused|]. done.
  - destruct Hpc as (Hl & c & Hi). rewrite <- (rel_word s a x Hr). destruct (decide _) as [Hw|Hw]; intros [= <-].
    + eapply keep_simulated; [done|by eapply step_validate|]. split; [done|]. eauto.
    + eapply hist_simulated; [done|by eapply step_invalid|]. done.
  - destruct Hpc as [[Ha Hn] Hi]. intros [= <-].
    assert (simulated (set_pc s i (Publishing tx l e)) a) by (eapply keep_simulated; [done|by apply step_installed|done]).
    by destruct (nwr_validation_result_ tx).
  - destruct Hpc as [Hl Hi]. intros [= <-]. eapply keep_simulated; [done|exact (step_install a i (silo_tx tx) l e (item w) (update w) (silo_writes todo) Hi)|]. split; [done|].
    by rewrite (rel_contents s a (item w) Hr).
  - destruct Hpc as [Hl Hi]. intros [= <-]. unfold set_contents. rewrite <- Hmem.
    eapply item_simulated; [done|by eapply step_write_done|done|done|]. eexists. split; [|reflexivity]. done.
  - destruct Hpc as [Hl Hi]. intros [= <-]. eapply keep_simulated; [done|by eapply step_committed|]. done.
  - destruct Hpc as [Hl Hi]. destruct (Z.ltb_spec (tid w + 1) (2 ^ 32)); [|done]. intros [= <-].
    unfold set_word. rewrite <- Hmem. eapply item_simulated; [done|by eapply step_publish|done|done|].
    eexists. split; [|reflexivity]. done.
  - intros [= <-]. by eapply keep_simulated; [done|apply step_aborted|].
  - intros [= <-]. rewrite <- (rel_word s a x Hr). unfold set_word. rewrite <- Hmem.
    eapply item_simulated; [done|by eapply step_release|done|done|]. eexists. split; [|reflexivity]. done.
Qed.

Lemma next_simulated s a i ok s' : rel s a -> next address s i ok = Some s' -> simulated s' a.
Proof.
  intros Hr. pose proof (read_simulated s a i s' Hr). pose proof (omit_simulated s a i ok s' Hr).
  pose proof (pivot_simulated s a i ok s' Hr). pose proof (lock_simulated s a i ok s' Hr).
  unfold next. by destruct (pcs s i).
Qed.

Lemma act_simulated s a i ac s' : rel s a -> act address s i ac = Some s' -> simulated s' a.
Proof.
  intros Hr. pose proof (rel_pc s a i Hr) as Hpc. destruct ac as [|point x| |ws|ok|g]; cbn [act].
  - destruct (pcs s i); try done. intros [= <-]. by apply stay_simulated.
  - destruct (pcs s i) as [|tx| | | | | | | | | | | | | | | | | |]; try done. destruct Hpc as [Hn Hi].
    rewrite <- (rel_word s a x Hr). destruct (is_locked _) eqn:El; [done|]. intros [= <-].
    by eapply keep_simulated; [done|apply step_read_load|].
  - destruct (pcs s i); try done. destruct Hpc as [Hn Hi]. intros [= <-]. by eapply keep_simulated; [done|eapply step_abort|].
  - destruct (pcs s i) as [|tx| | | | | | | | | | | | | | | | | |]; try done. destruct Hpc as [Hn Hi].
    case_bool_decide as Hnd; [|done]. assert (Hl : lockable (set_writes tx ws)) by (split; cbn; congruence).
    destruct (_ && _); intros [= <-]; [by apply stay_simulated|].
    eapply not_omitted_simulated; [done|done|]. cbn. rewrite <- Hi. apply moves_refl.
  - by apply next_simulated.
  - destruct (pcs s i) as [| | | | | | | | | | | | | | |tx l e x v todo| | | |] eqn:Ei; try done. destruct Hpc as [Hl Hi].
    intros [= <-]. destruct Hr as (Hm & He & Hp). exists (Silo.set_contents a x g).
    split; [apply rtc_once; by eapply step_write_part|]. split; [cbn; by rewrite Hm|]. done.
Qed.

(** One step of SiloNWR is steps of Silo. *)
Lemma step_simulated s a l s' : rel s a -> step address s l = Some s' -> simulated s' a.
Proof.
  destruct l as [[i ac]|]; cbn [step]; [apply act_simulated|]. intros (Hm & He & Hp) [= <-].
  eexists. split; [apply rtc_once, step_epoch|]. split; [done|]. split; [cbn; by rewrite He|]. done.
Qed.

Lemma run_simulated ls s a s' : rel s a -> run address s ls = Some s' -> simulated s' a.
Proof.
  revert s a. induction ls as [|l ls IH]; intros s a Hr; cbn [run]; [intros [= <-]; by exists a|].
  destruct (step address s l) as [s1|] eqn:E; [|done]. intros H.
  destruct (step_simulated s a l s1 Hr E) as (a1 & Ha1 & Hr1). destruct (IH s1 a1 Hr1 H) as (a2 & Ha2 & Hr2).
  exists a2. split; [by etrans|done].
Qed.

End simulation.

(** ** What the analysis of the snapshots ensures *)

Lemma reachable_from_acyclic l tj p : reachable_from l tj = ACYCLIC -> p ∈ l -> in_writeset p = true ->
  IsReachableInto (pv_snapshot p) tj = ACYCLIC.
Proof.
  induction l as [|q l IH]; [by intros _ ?%elem_of_nil|]. cbn. intros H [->|Hin]%elem_of_cons Hp.
  - rewrite Hp in H. by destruct (IsReachableInto _ tj).
  - apply IH; [|done|done]. destruct (in_writeset q); [|done]. by destruct (IsReachableInto (pv_snapshot q) tj).
Qed.

(** When [IsOmittable] finds nothing against the omission, every item of the
    write set has its pivot version in the transaction's epoch; each recorded
    write of a pivot whose slot a read of the transaction hashes to is newer
    than the version read, and each recorded read of a pivot whose slot a
    written item hashes to is not older than the pivot version that the write
    is ordered before. *)
Theorem analyse_sound {V} (address : nat -> Z) (tx : SiloNWR.Tx V) :
  is_u32 (rset (msets (my_pivot_object_ tx))) -> is_u32 (wset (msets (my_pivot_object_ tx))) ->
  Forall (fun pv => 0 < pv.2) (merged_reads address tx) -> Forall (fun pv => 0 < pv.2) (merged_targets address tx) ->
  (analyse address tx).2 = true ->
  ∀ p, p ∈ pivot_object_snapshots_ tx -> in_writeset p = true ->
    NWRPivotObject.epoch (versions (pv_snapshot p)) = my_epoch tx ∧
    (∀ a v, (a, v) ∈ merged_reads address tx ->
       Get (wset (msets (pv_snapshot p))) a = 0 ∨ v < Get (wset (msets (pv_snapshot p))) a) ∧
    (∀ a v, (a, v) ∈ merged_targets address tx ->
       Get (rset (msets (pv_snapshot p))) a = 0 ∨ v <= Get (rset (msets (pv_snapshot p))) a).
Proof.
  intros Hu Hu' Hr Hw. unfold analyse. destruct (forallb _ _) eqn:El; cbn [negb]; [|done].
  destruct (reachable_from _ _) eqn:Ea; try done. intros _ p Hp Hws. split.
  - rewrite forallb_forall in El. specialize (El p ltac:(by apply list_elem_of_In)). rewrite Hws in El. by apply Z.eqb_eq.
  - exact (IsReachableInto_sound (pv_snapshot p) (squash address tx) _ _ _ _ Hu Hu' eq_refl eq_refl Hr Hw
             (reachable_from_acyclic _ _ p Ea Hp Hws)).
Qed.

(** ** Serial orders *)

Section orders.
Context {V : Type}.

(** The transactions that are past their checks, each with what it wrote ... *)
Definition decided_effect (pc : SiloNWR.Pc V) : option (Silo.Tx V) :=
  match pc with
  | Installing tx _ _ _ | Writing tx _ _ _ _ _ | Publishing tx _ _ => Some (silo_tx tx)
  | Committed tx omitted => Some (effect tx omitted)
  | _ => None
  end.

(** ... and with what it has asked to write, omitted or not. *)
Definition whole_effect (pc : SiloNWR.Pc V) : option (Silo.Tx V) :=
  match pc with
  | Installing tx _ _ _ | Writing tx _ _ _ _ _ | Publishing tx _ _ | Committed tx _ => Some (silo_tx tx)
  | _ => None
  end.

(** An order of exactly these transactions explains the state: each has read
    what the ones before it leave, and an unlocked item holds what all of them
    leave. *)
Definition serial_order (eff : SiloNWR.Pc V -> option (Silo.Tx V)) (contents0 : nat -> V) (s : SiloNWR.State V)
    (order : list nat) : Prop :=
  NoDup order ∧ (∀ i, i ∈ order <-> is_Some (eff (pcs s i))) ∧
  let txs := omap (fun i => eff (pcs s i)) order in
  (∀ pre tx post, txs = pre ++ tx :: post -> ∀ x t v, (x, t, v) ∈ reads tx -> v = serial pre x (contents0 x)) ∧
  (∀ x, is_locked (word s x) = false -> contents (mem s x) = serial txs x (contents0 x)).

Lemma decided_effect_rel pc spc : pc_rel pc spc ->
  decided_effect pc = if is_decided spc then joined spc else None.
Proof. destruct pc; cbn; naive_solver. Qed.

Context (contents0 : nat -> V) (address : nat -> Z).

Lemma rel_init : rel (init contents0) (Silo.init contents0).
Proof. by repeat split. Qed.

(** The order in which the transactions of [a] joined. *)
Definition joining_order (a : Silo.State V) : list nat := map owner (filter (fun en => decided en = true) (hist a)).

Lemma joining_order_effects s a : inv contents0 a -> rel s a ->
  omap (fun i => decided_effect (pcs s i)) (joining_order a) = committed (hist a).
Proof.
  intros Hinv Hr. unfold joining_order, committed.
  assert (H : ∀ en, en ∈ filter (fun en => decided en = true) (hist a) -> decided_effect (pcs s (owner en)) = Some (entry_tx en)).
  { intros en [Hd Hin]%list_elem_of_filter. destruct (inv_hist _ _ Hinv en Hin) as [Hj Hd'].
    rewrite (decided_effect_rel _ _ (rel_pc s a (owner en) Hr)). by rewrite <- Hd', Hd. }
  induction (filter _ (hist a)) as [|en l IH]; [done|]. cbn. rewrite H by apply list_elem_of_here. f_equal.
  apply IH. intros en' Hin. apply H. by apply list_elem_of_further.
Qed.

Lemma joining_order_members s a i : inv contents0 a -> rel s a ->
  i ∈ joining_order a <-> is_Some (decided_effect (pcs s i)).
Proof.
  intros Hinv Hr. rewrite (decided_effect_rel _ _ (rel_pc s a i Hr)). unfold joining_order. rewrite list_elem_of_fmap. split.
  - intros (en & -> & [Hd Hin]%list_elem_of_filter). destruct (inv_hist _ _ Hinv en Hin) as [Hj Hd'].
    rewrite <- Hd', Hd, Hj. done.
  - destruct (is_decided (Silo.pcs a i)) eqn:Hd; [|by intros [? ?]]. intros [tx Hj].
    destruct (inv_joined _ _ Hinv i tx Hj) as (en & Hin & <-). exists en. split; [done|]. apply list_elem_of_filter.
    split; [|done]. by destruct (inv_hist _ _ Hinv en Hin) as [_ ->].
Qed.

Lemma joining_order_NoDup a : NoDup (map owner (hist a)) -> NoDup (joining_order a).
Proof.
  unfold joining_order. induction (hist a) as [|en h IH]; [done|]. cbn [map]. intros [Hni Hnd]%NoDup_cons.
  rewrite filter_cons. destruct (decide (decided en = true)); [|by apply IH].
  cbn [map]. apply NoDup_cons. split; [|by apply IH]. contradict Hni.
  apply list_elem_of_fmap in Hni as (en' & -> & [_ Hin]%list_elem_of_filter). apply list_elem_of_fmap. eauto.
Qed.

(** C2. SiloNWR refines Silo: in every interleaving of transactions that read,
    try to omit their writes, lock, update pivot objects, install, publish and
    abort, the transactions past their checks can be ordered so that each has
    read what the ones before it leave and every unlocked item holds what all
    of them leave, where a transaction whose writes were omitted leaves
    nothing. Executions in which the 32-bit tid of a version would wrap are
    excluded. *)
Theorem nwr_serializable_without_omitted ls s : run address (init contents0) ls = Some s ->
  ∃ order, serial_order decided_effect contents0 s order.
Proof.
  intros Hrun. destruct (run_simulated address ls _ _ s rel_init Hrun) as (a & Ha & Hr).
  pose proof (silo_reachable_inv _ _ Ha) as Hinv. destruct (inv_serial _ _ Hinv) as (Hreads & Hcont & _).
  exists (joining_order a). split; [|split].
  - apply joining_order_NoDup, (inv_owners _ _ Hinv).
  - intros i. by apply joining_order_members.
  - cbv zeta. rewrite (joining_order_effects s a Hinv Hr). split; [done|]. intros x Hx.
    destruct Hr as (Hm & _). unfold word in Hx. rewrite <- Hm in *. by apply Hcont.
Qed.

End orders.

(** ** What is left of a state by other transactions *)

Section others.
Context {V : Type} (address : nat -> Z).
Implicit Types s : SiloNWR.State V.

Lemma act_pcs s i ac s' j : act address s i ac = Some s' -> j <> i -> pcs s' j = pcs s j.
Proof.
  intros H Hne. assert (∃ s0 pc, s' = set_pc s0 i pc ∧ pcs s0 = pcs s ∨ pcs s' = pcs s) as (s0 & pc & [[-> E]|E]).
  2: { cbn. rewrite upd_ne by done. by rewrite E. }
  2: { by rewrite E. }
  revert H. unfold act, next, read_step, omit_step, pivot_step, lock_step, detached.
  repeat case_match; intros [= <-]; try (eexists _, _; left; split; reflexivity).
  exists s, Idle. by right.
Qed.

Lemma run_pcs ls s s' j : run address s ls = Some s' -> Forall (fun l => match l with Some (i, _) => i <> j | None => True end) ls ->
  pcs s' j = pcs s j.
Proof.
  revert s. induction ls as [|[[i ac]|] ls IH]; intros s; cbn [run step]; [by intros [= <-]| |].
  - destruct (act address s i ac) as [s1|] eqn:E; [|done]. intros H [Hi Hls]%Forall_cons. rewrite (IH s1 H Hls).
    by eapply act_pcs.
  - intros H [_ Hls]%Forall_cons. by rewrite (IH _ H Hls).
Qed.

End others.

(** ** Refuting serial orders *)

Section refuting.
Variable contents0 : nat -> Z.

Fixpoint reads_explained (pre txs : list (Silo.Tx Z)) : bool :=
  match txs with
  | [] => true
  | tx :: txs' =>
      forallb (fun r => snd r =? serial pre (fst (fst r)) (contents0 (fst (fst r)))) (reads tx) &&
      reads_explained (pre ++ [tx]) txs'
  end.

Definition explained (s : SiloNWR.State Z) (items : list nat) (order : list nat) : bool :=
  let txs := omap (fun i => whole_effect (pcs s i)) order in
  reads_explained [] txs && forallb (fun x => is_locked (word s x) || (contents (mem s x) =? serial txs x (contents0 x))) items.

Lemma reads_explained_spec txs : (∀ pre tx post, txs = pre ++ tx :: post -> ∀ x t v, (x, t, v) ∈ reads tx -> v = serial pre x (contents0 x)) ->
  reads_explained [] txs = true.
Proof.
  intros H. assert (Hg : ∀ l2 l1, txs = l1 ++ l2 -> reads_explained l1 l2 = true); [|by apply Hg].
  induction l2 as [|tx l2 IH]; intros l1 E; [done|]. cbn. rewrite IH by (by rewrite <- app_assoc). rewrite andb_true_r.
  apply forallb_forall. intros [[x t] v] Hin. apply Z.eqb_eq. apply (H l1 tx l2 E x t v). by apply list_elem_of_In.
Qed.

Lemma serial_order_explained s items order : serial_order whole_effect contents0 s order -> explained s items order = true.
Proof.
  intros (_ & _ & Hr & Hc). unfold explained. rewrite (reads_explained_spec _ Hr). apply forallb_forall. intros x _.
  destruct (is_locked (word s x)) eqn:E; [done|]. by apply Z.eqb_eq, Hc.
Qed.

Lemma no_serial_order s ids items : NoDup ids -> (∀ i, i ∈ ids <-> is_Some (whole_effect (pcs s i))) ->
  forallb (fun order => negb (explained s items order)) (permutations ids) = true ->
  ∀ order, ¬ serial_order whole_effect contents0 s order.
Proof.
  intros Hnd Hids Hall order Ho. pose proof Ho as (Hnd' & Hm & _).
  assert (Hp : order ∈ permutations ids).
  { apply permutations_Permutation, NoDup_Permutation; [done|done|]. intros i. by rewrite Hm, Hids. }
  rewrite forallb_forall in Hall. specialize (Hall order ltac:(by apply list_elem_of_In)).
  by rewrite (serial_order_explained s items order Ho) in Hall.
Qed.

End refuting.

(** ** Executions *)

Module Demo.

Definition contents0 (x : nat) : Z := 0.
Definition address (x : nat) : Z := 16 * Z.of_nat x.

Definition blind (x : nat) (v : Z) : WriteEntry Z := mkWrite x (fun _ => v) false false false.

Definition nexts (i n : nat) : list (option (nat * Act Z)) := replicate n (Some (i, Next true)).

(** A read of an item, and a commit. *)
Definition reading (i x : nat) : list (option (nat * Act Z)) := Some (i, Read true x) :: nexts i 2.
Definition committing (i : nat) (ws : list (WriteEntry Z)) (n : nat) : list (option (nat * Act Z)) :=
  Some (i, Precommit ws) :: nexts i n.

(** Transaction 0 reads item 1 and writes item 0, transaction 1 writes item 1,
    and the writes of transaction 2 to both are omitted. *)
Definition schedule : list (option (nat * Act Z)) :=
  [Some (0%nat, Begin)] ++ reading 0 1 ++ committing 0 [blind 0 1] 18 ++
  [Some (1%nat, Begin)] ++ committing 1 [blind 1 2] 13 ++
  [Some (2%nat, Begin)] ++ committing 2 [blind 0 3; blind 1 3] 8.

(** The same with a transaction 3 that only reads, both items between the
    writes of transactions 0 and 1. *)
Definition schedule_ro : list (option (nat * Act Z)) :=
  [Some (0%nat, Begin)] ++ committing 0 [blind 0 1] 13 ++
  [Some (3%nat, Begin)] ++ reading 3 0 ++ reading 3 1 ++ committing 3 [] 7 ++
  [Some (1%nat, Begin)] ++ committing 1 [blind 1 2] 13 ++
  [Some (2%nat, Begin)] ++ committing 2 [blind 0 3; blind 1 3] 8.

Definition after (ls : list (option (nat * Act Z))) : SiloNWR.State Z := default (init contents0) (run address (init contents0) ls).

Definition outcome (s : SiloNWR.State Z) (i : nat) : option bool :=
  match pcs s i with Committed _ omitted => Some omitted | _ => None end.

Definition runs (ls : list (option (nat * Act Z))) : bool :=
  match run address (init contents0) ls with Some _ => true | None => false end.

Lemma after_run ls : runs ls = true -> run address (init contents0) ls = Some (after ls).
Proof. unfold runs, after. by destruct (run address (init contents0) ls). Qed.

Lemma committed_whole s i : is_Some (outcome s i) -> is_Some (whole_effect (pcs s i)).
Proof. unfold outcome. destruct (pcs s i); intros [? [=]]; cbn; eauto. Qed.

(** The transactions below a bound are the committed ones. *)
Lemma committed_ids ls n i : runs ls = true ->
  forallb (fun l => match l with Some (j, _) => (j <? n)%nat | None => true end) ls = true ->
  forallb (fun j => bool_decide (is_Some (outcome (after ls) j))) (seq 0 n) = true ->
  i ∈ seq 0 n <-> is_Some (whole_effect (pcs (after ls) i)).
Proof.
  intros Hr Hb Hc. rewrite forallb_forall in Hb, Hc. split.
  - intros Hi. apply committed_whole. apply list_elem_of_In in Hi. specialize (Hc i Hi). by apply bool_decide_eq_true in Hc.
  - intros Hw. apply elem_of_seq. split; [lia|]. destruct (decide (i < n)%nat) as [|Hge]; [lia|]. exfalso.
    rewrite (run_pcs address ls _ _ i (after_run ls Hr)) in Hw; [by destruct Hw|].
    apply Forall_forall. intros l Hl. apply list_elem_of_In in Hl. specialize (Hb l Hl). destruct l as [[j ac]|]; [|done].
    apply Nat.ltb_lt in Hb. lia.
Qed.

(** C28. An execution of SiloNWR that is not serializable: transaction 0 reads
    item 1 and writes item 0, transaction 1 writes item 1, and transaction 2,
    which writes both, commits with its writes omitted; no order of the three
    explains the reads and the final contents. *)
Theorem omitted_writes_fit_no_order :
  run address (init contents0) schedule = Some (after schedule) ∧
  map (outcome (after schedule)) [0; 1; 2]%nat = [Some false; Some false; Some true] ∧
  ∀ order, ¬ serial_order whole_effect contents0 (after schedule) order.
Proof.
  split; [apply after_run; by vm_compute|]. split; [by vm_compute|].
  apply (no_serial_order contents0 (after schedule) (seq 0 3) [0; 1]%nat); [apply NoDup_seq| |by vm_compute].
  intros i. apply committed_ids; by vm_compute.
Qed.

(** The reads of a read-only transaction are not recorded either. *)
Theorem omission_ignores_read_only_transactions :
  run address (init contents0) schedule_ro = Some (after schedule_ro) ∧
  map (outcome (after schedule_ro)) [0; 1; 2; 3]%nat = [Some false; Some false; Some true; Some false] ∧
  ∀ order, ¬ serial_order whole_effect contents0 (after schedule_ro) order.
Proof.
  split; [apply after_run; by vm_compute|]. split; [by vm_compute|].
  apply (no_serial_order contents0 (after schedule_ro) (seq 0 4) [0; 1]%nat); [apply NoDup_seq| |by vm_compute].
  intros i. apply committed_ids; by vm_compute.
Qed.

Lemma nwr_serializable_without_omitted_witness : ∃ order, serial_order decided_effect contents0 (after schedule) order.
Proof.
  apply (nwr_serializable_without_omitted contents0 address schedule). apply after_run. by vm_compute.
Defined.

End Demo.
