(* ===== verification/Stateless.v ===== *)
(** * The stateless API (src/src/stateless/commit.cpp, read.cpp,
      src/include/lineairdb/stateless.h) with the index wrapper and the reaper
      it runs against (src/src/index/impl/masstree_index.cpp,
      concurrent_table.cpp, secondary_index.h, reaper.cpp,
      src/src/concurrency_control/stable_read.hpp)

    A client reads rows and ranges without a transaction, keeps what it
    observed, and hands its reads, writes, secondary-index operations and
    ranges to [Commit], which validates and installs them.

    The code is a program over accesses to shared memory: [Prog] is a tree
    whose inner nodes are single accesses ([Op]) and whose branches are their
    results, so that the accesses of several threads can be interleaved in any
    order.  An access is a load, a store or a compare-and-swap of a version
    word, an operation of the tree below an index, a look-up in the catalogue,
    a critical section of a queue, or, where the code runs under the lock of an
    item, an update of that item's contents.

    The tree is Masstree, a package of its own: the class [BasicTable] is what
    the wrapper uses of it.  The spin loops and the walks over a tree take a
    bound [fuel]; a program that reaches it is [Spinning].

    Not modelled: rows in PAX groups (so that a masked read is a plain one),
    read-copy-update reclamation of removed items, the debug hooks.

    The programs are here; their semantics and theorems are in
    StatelessLogic.v and StatelessCommit.v. *)

From stdpp Require Import strings.
From S2P Require Import Prelude PackedKeys Types DataItem LogReplay.
Import PackedPrimaryKeys.

(** ** Accesses *)

(** Which index: the primary one of a table or a secondary one. *)
Inductive IndexRef : Type :=
  | Primary (table_name : bytestring)
  | Secondary (table_name index_name : bytestring).

#[global] Instance IndexRef_eq_dec : EqDecision IndexRef.
Proof. solve_decision. Defined.

(** [Reaper::DeferredPurgeCandidate]: [kind] and the two index pointers are
    the index. *)
Record DeferredPurgeCandidate := mkCandidate {
  candidate_index : IndexRef;
  candidate_key : bytestring;
  candidate_item : Z;
  delete_commit_tid : TransactionId.t;
}.

Inductive Op : Type -> Type :=
  (** The catalogue and its lock. *)
  | GetTable (table_name : bytestring) : Op bool
  | GetSecondaryIndex (table_name index_name : bytestring) : Op (option bool)
  | lock_shared : Op unit
  | unlock_shared : Op unit
  (** The trees. *)
  | find_unlocked (ix : IndexRef) (key : bytestring) : Op (option Z)
  | find_insert_blank (ix : IndexRef) (key : bytestring) : Op unit
  | find_locked_remove (ix : IndexRef) (key : bytestring) (expected : Z) : Op bool
  | scan_step (reverse : bool) (ix : IndexRef) (firstkey : bytestring) (emit_firstkey : bool)
      : Op (option (bytestring * Z))
  (** The items.  A compare-and-swap gives the word it found instead. *)
  | load_tid (item : Z) : Op TransactionId.t
  | cas_tid (item : Z) (expected desired : TransactionId.t) : Op (option TransactionId.t)
  | store_tid (item : Z) (w : TransactionId.t) : Op unit
  | IsPrimaryInitialized (item : Z) : Op bool
  | IsInitialized (item : Z) : Op bool
  | load_primary_keys (item : Z) : Op Ptr
  | copy_row (item : Z) : Op bytestring
  | copy_item (item : Z) : Op DataItem.t
  | Reset (item : Z) (v : option bytestring) : Op unit
  | AddSecondaryIndexValue (item : Z) (primary_key : bytestring) : Op (outcome unit)
  | RemoveSecondaryIndexValue (item : Z) (primary_key : bytestring) : Op (outcome unit)
  (** The epoch framework. *)
  | MakeMeOnline : Op unit
  | MakeMeOffline : Op unit
  | GetMyThreadLocalEpoch : Op Z
  (** The queues of the reaper and of the logger. *)
  | push_candidate (c : DeferredPurgeCandidate) : Op unit
  | take_ready (published_epoch : Z) : Op (list DeferredPurgeCandidate)
  | requeue (cs : list DeferredPurgeCandidate) (reaped dropped : Z) : Op unit
  | logger_Enqueue (ws : list Snapshot.t) (epoch : Z) : Op bool
  | GetCommitDurability_is_Sync : Op bool
  | AwaitCommitDurability (epoch : Z) (awaits : bool) : Op unit.

(** ** Programs

    Besides returning, a program can throw [std::length_error], fail an
    assertion, or still be in a loop when the bound is reached. *)

Inductive Prog (A : Type) : Type :=
  | Ret (a : A)
  | Throw (field : string)
  | AssertionFailed
  | Spinning
  | Vis {R : Type} (o : Op R) (k : R -> Prog A).
Arguments Ret {A} a.
Arguments Throw {A} field.
Arguments AssertionFailed {A}.
Arguments Spinning {A}.
Arguments Vis {A R} o k.

Fixpoint bind {A B} (m : Prog A) (k : A -> Prog B) : Prog B :=
  match m with
  | Ret a => k a
  | Throw f => Throw f
  | AssertionFailed => AssertionFailed
  | Spinning => Spinning
  | Vis o c => Vis o (fun r => bind (c r) k)
  end.

Definition access {R} (o : Op R) : Prog R := Vis o Ret.

Definition lift {A} (m : outcome A) : Prog A :=
  match m with Returns a => Ret a | Throws_length_error f => Throw f end.

Notation "x <- m ;; k" := (bind m (fun x => k)) (at level 100, m at next level, right associativity).
Notation "m ;;; k" := (bind m (fun _ => k)) (at level 100, right associativity).

Fixpoint for_each {X} (f : X -> Prog unit) (l : list X) : Prog unit :=
  match l with [] => Ret tt | x :: l' => f x ;;; for_each f l' end.

Fixpoint collect_all {X Y} (f : X -> Prog Y) (l : list X) : Prog (list Y) :=
  match l with
  | [] => Ret []
  | x :: l' => y <- f x ;; ys <- collect_all f l' ;; Ret (y :: ys)
  end.

(** ** Words *)

Definition is_locked (w : TransactionId.t) : bool := Z.testbit (TransactionId.tid w) 0.

(** [locked.tid |= 1u], [current.tid--], and the version of Phase 3.3. *)
Definition lock_word (w : TransactionId.t) : TransactionId.t :=
  TransactionId.mk (TransactionId.epoch w) (Z.lor (TransactionId.tid w) 1).
Definition release_word (w : TransactionId.t) : TransactionId.t :=
  TransactionId.mk (TransactionId.epoch w) (u32 (TransactionId.tid w - 1)).
Definition unlocked_word (current_epoch : Z) (current : TransactionId.t) : TransactionId.t :=
  if TransactionId.epoch current =? current_epoch
  then TransactionId.mk current_epoch (u32 (TransactionId.tid current + 1))
  else TransactionId.mk current_epoch 2.

(** ** Requests (stateless.h) *)

Record ExternalReadEntry := mkRead {
  read_table : bytestring;
  read_key : bytestring;
  read_tid : Z;
  read_found : bool;
}.

Record ExternalWriteEntry := mkWrite {
  write_table : bytestring;
  write_key : bytestring;
  write_value : bytestring;
  write_is_delete : bool;
  write_is_insert : bool;
}.

Record ExternalSecondaryIndexEntry := mkSi {
  si_table : bytestring;
  si_index : bytestring;
  si_secondary_key : bytestring;
  si_primary_key : bytestring;
  si_is_delete : bool;
}.

Record ExternalRangeReadEntry := mkRange {
  range_table : bytestring;
  range_index : bytestring;
  start_key : bytestring;
  end_key : bytestring;
  row_limit : Z;
  reverse_scan : bool;
  result_keys : list bytestring;
  result_primary_keys : list bytestring;
}.

Record Request := mkRequest {
  reads : list ExternalReadEntry;
  writes : list ExternalWriteEntry;
  secondary_index_ops : list ExternalSecondaryIndexEntry;
  range_reads : list ExternalRangeReadEntry;
}.

(** [abort_reason]: the checks that fail, an exact read with its table and
    key. *)
Inductive AbortReason : Type :=
  | range_end_key_missing
  | read_table_missing
  | write_table_missing
  | write_get_or_insert_failed
  | duplicate_primary_key
  | si_table_missing
  | si_index_missing
  | unique_si_duplicate_in_request
  | si_get_or_insert_failed
  | write_target_detached
  | exact_read_disappeared (table_name key : bytestring)
  | exact_read_appeared (table_name key : bytestring)
  | exact_read_tid_moved (table_name key : bytestring)
  | exact_read_deleted (table_name key : bytestring)
  | primary_range_result_changed
  | secondary_range_result_changed
  | unique_si_exists_after_lock.

(** Inside [Commit]. *)
Record ValidationEntry := mkValidation {
  val_table : bytestring;
  val_key : bytestring;
  captured_tid : TransactionId.t;
  val_found : bool;
}.

Record ResolvedWrite := mkResolvedWrite {
  rw_table : bytestring;
  rw_key : bytestring;
  rw_value : bytestring;
  rw_is_delete : bool;
  rw_item : Z;
  check_committed_row : bool;
}.

Record ResolvedSecondaryIndexOp := mkResolvedOp {
  rs_table : bytestring;
  rs_index : bytestring;
  rs_secondary_key : bytestring;
  rs_primary_key : bytestring;
  rs_is_delete : bool;
  rs_item : Z;
  rs_unique : bool;
}.

Record LockTarget := mkTarget {
  target_item : Z;
  target_index : IndexRef;
  target_key : bytestring;
}.

Record LockedTid := mkLocked {
  locked_item : Z;
  before_lock : TransactionId.t;
  locked : TransactionId.t;
}.

Section programs.
Context (fuel : nat) (assertions : bool).

(** [assert(item != nullptr)] in a build that has assertions. *)
Definition assert_item (item : option Z) : Prog (option Z) :=
  match item with
  | None => if assertions then AssertionFailed else Ret None
  | Some x => Ret (Some x)
  end.

(** ** The index wrapper (masstree_index.cpp) *)

(** A walk hands every entry to a callback on a state of the caller's, which
    stops it by returning true. *)
Fixpoint scan_loop {S} (n : nat) (reverse : bool) (ix : IndexRef) (firstkey : bytestring) (emit_firstkey : bool)
    (visit_value : bytestring -> Z -> S -> Prog (bool * S)) (s : S) : Prog S :=
  match n with
  | O => Spinning
  | Datatypes.S n' =>
      entry <- access (scan_step reverse ix firstkey emit_firstkey) ;;
      match entry with
      | None => Ret s
      | Some (key, item) =>
          r <- visit_value key item s ;;
          if r.1 : bool then Ret r.2 else scan_loop n' reverse ix key false visit_value r.2
      end
  end.

(** [Scan] and [ScanReverse]: [visit_value] and [adapter_op] stop the walk at
    an entry out of range.  The result always has a value, the number of
    entries, which the callers here do not use. *)
Definition MasstreeIndex_Scan {S} (ix : IndexRef) (begin_ end_ : bytestring)
    (operation : bytestring -> Z -> S -> Prog (bool * S)) (s : S) : Prog S :=
  scan_loop fuel false ix begin_ true
    (fun key item s => if str_ltb key end_ then operation key item s else Ret (true, s)) s.

Definition MasstreeIndex_ScanReverse {S} (ix : IndexRef) (begin_ end_ : bytestring)
    (operation : bytestring -> Z -> S -> Prog (bool * S)) (s : S) : Prog S :=
  scan_loop fuel true ix end_ false
    (fun key item s => if str_ltb key begin_ then Ret (true, s) else operation key item s) s.

Definition scan_range {S} (reverse : bool) (ix : IndexRef) (begin_ end_ : bytestring)
    (operation : bytestring -> Z -> S -> Prog (bool * S)) (s : S) : Prog S :=
  if reverse then MasstreeIndex_ScanReverse ix begin_ end_ operation s
  else MasstreeIndex_Scan ix begin_ end_ operation s.

Definition MasstreeIndex_Purge (ix : IndexRef) (key : bytestring) (expected : Z)
    (retired_tid : TransactionId.t) : Prog bool :=
  removed <- access (find_locked_remove ix key expected) ;;
  if removed : bool
  then (if TransactionId.IsEmpty retired_tid then Ret tt else access (store_tid expected retired_tid)) ;;;
       Ret true
  else Ret false.

(** [ConcurrentTable::GetOrInsert] and [SecondaryIndex::GetOrInsert]. *)
Definition GetOrInsert (ix : IndexRef) (key : bytestring) : Prog (option Z) :=
  item <- access (find_unlocked ix key) ;;
  match item with
  | Some x => Ret (Some x)
  | None =>
      access (find_insert_blank ix key) ;;;
      item <- access (find_unlocked ix key) ;;
      assert_item item
  end.

(** ** Stable reads (stable_read.hpp) *)

(** [StableReadValue]: whether the row is live, its bytes and its version. *)
Fixpoint StableReadValue_loop (n : nat) (item : Z) : Prog (bool * bytestring * TransactionId.t) :=
  match n with
  | O => Spinning
  | S n' =>
      tid <- access (load_tid item) ;;
      if is_locked tid then StableReadValue_loop n' item else
      found <- access (IsPrimaryInitialized item) ;;
      value <- (if found : bool then access (copy_row item) else Ret []) ;;
      again <- access (load_tid item) ;;
      if TransactionId.eqb again tid then Ret (found, value, tid) else StableReadValue_loop n' item
  end.
Definition StableReadValue (item : Z) : Prog (bool * bytestring * TransactionId.t) :=
  StableReadValue_loop fuel item.

Fixpoint StableReadPrimaryKeys_loop (n : nat) (item : Z) : Prog (bool * Ptr * TransactionId.t) :=
  match n with
  | O => Spinning
  | S n' =>
      tid <- access (load_tid item) ;;
      if is_locked tid then StableReadPrimaryKeys_loop n' item else
      primary_keys <- access (load_primary_keys item) ;;
      again <- access (load_tid item) ;;
      if TransactionId.eqb again tid
      then Ret (negb (PackedPrimaryKeysView.empty primary_keys), primary_keys, tid)
      else StableReadPrimaryKeys_loop n' item
  end.
Definition StableReadPrimaryKeys (item : Z) : Prog (bool * Ptr * TransactionId.t) :=
  StableReadPrimaryKeys_loop fuel item.

(** [SecondaryIndex::GetOrInsertForWrite]; in the tree
    [EnsureVisibleForSecondaryWrite] is [ForcePutBlankEntry]. *)
Definition GetOrInsertForWrite (ix : IndexRef) (key : bytestring) : Prog (option Z) :=
  item <- access (find_unlocked ix key) ;;
  found <- match item with
           | None => Ret false
           | Some x => slot <- StableReadPrimaryKeys x ;; Ret slot.1.1
           end ;;
  if found : bool then Ret item
  else
    access (find_insert_blank ix key) ;;;
    item <- access (find_unlocked ix key) ;;
    assert_item item.

(** ** Reads (read.cpp) *)

Record StatelessReadResult := mkReadResult { found : bool; value : bytestring; tid : Z }.

Definition no_result : StatelessReadResult := mkReadResult false [] 0.

Definition Read (table_name key : bytestring) : Prog StatelessReadResult :=
  access lock_shared ;;;
  table <- access (GetTable table_name) ;;
  result <- (if table : bool then
               item <- access (find_unlocked (Primary table_name) key) ;;
               match item with
               | None => Ret no_result
               | Some x =>
                   row <- StableReadValue x ;;
                   Ret (mkReadResult row.1.1 row.1.2 (TransactionId.PackTransactionId row.2))
               end
             else Ret no_result) ;;
  access unlock_shared ;;;
  Ret result.

Definition BatchRead (keys : list (bytestring * bytestring)) : Prog (list StatelessReadResult) :=
  collect_all (fun key => Read key.1 key.2) keys.

(** A row of a scan: the key, the value and the packed version; of a secondary
    scan, the secondary key first. *)
Record StatelessScanRow := mkRow { row_key : bytestring; row_value : bytestring; row_tid : Z }.
Record StatelessSecondaryScanRow := mkSecondaryRow {
  row_secondary_key : bytestring;
  row_primary_key : bytestring;
  secondary_row_value : bytestring;
  secondary_row_tid : Z;
}.

(** [row_limit > 0 && returned_rows >= row_limit]. *)
Definition limit_reached (limit returned_rows : Z) : bool := (0 <? limit) && (limit <=? returned_rows).

(** The rows so far; [returned_rows] is their number. *)
Definition append_scan_entry (limit : Z) (key : bytestring) (item : Z) (rows : list StatelessScanRow)
    : Prog (bool * list StatelessScanRow) :=
  row <- StableReadValue item ;;
  let rows := if row.1.1 : bool
              then rows ++ [mkRow key row.1.2 (TransactionId.PackTransactionId row.2)] else rows in
  Ret (limit_reached limit (zlen rows), rows).

(** [RangeScan]: [ok] and the rows. *)
Definition RangeScan (table_name begin_ end_ : bytestring) (limit : Z) (reverse : bool)
    : Prog (bool * list StatelessScanRow) :=
  match end_ with
  | [] => Ret (false, [])
  | _ =>
      access lock_shared ;;;
      table <- access (GetTable table_name) ;;
      result <- (if table : bool then
                   r <- scan_range reverse (Primary table_name) begin_ end_ (append_scan_entry limit) [] ;;
                   Ret (true, r)
                 else Ret (false, [])) ;;
      access unlock_shared ;;;
      Ret result
  end.

Definition append_base_row (table_name : bytestring) (limit : Z) (secondary_key primary_key : bytestring)
    (rows : list StatelessSecondaryScanRow) : Prog (bool * list StatelessSecondaryScanRow) :=
  item <- access (find_unlocked (Primary table_name) primary_key) ;;
  match item with
  | None => Ret (false, rows)
  | Some x =>
      row <- StableReadValue x ;;
      let rows := if row.1.1 : bool
                  then rows ++ [mkSecondaryRow secondary_key primary_key row.1.2
                                  (TransactionId.PackTransactionId row.2)] else rows in
      Ret (limit_reached limit (zlen rows), rows)
  end.

(** A loop over a primary-key list that a callback may end. *)
Fixpoint until {X S} (f : X -> S -> Prog (bool * S)) (l : list X) (s : S) : Prog (bool * S) :=
  match l with
  | [] => Ret (false, s)
  | x :: l' => r <- f x s ;; if r.1 : bool then Ret r else until f l' r.2
  end.

Definition append_secondary_entry (table_name index_name : bytestring) (limit : Z) (key : bytestring) (_ : Z)
    (rows : list StatelessSecondaryScanRow) : Prog (bool * list StatelessSecondaryScanRow) :=
  item <- access (find_unlocked (Secondary table_name index_name) key) ;;
  match item with
  | None => Ret (false, rows)
  | Some x =>
      slot <- StableReadPrimaryKeys x ;;
      until (append_base_row table_name limit key) (PackedPrimaryKeysView.primary_keys_vector slot.1.2) rows
  end.

Definition SecondaryRangeScan (table_name index_name begin_ end_ : bytestring) (limit : Z) (reverse : bool)
    : Prog (bool * list StatelessSecondaryScanRow) :=
  match end_ with
  | [] => Ret (false, [])
  | _ =>
      access lock_shared ;;;
      table <- access (GetTable table_name) ;;
      index <- (if table : bool then access (GetSecondaryIndex table_name index_name) else Ret None) ;;
      result <- match index with
                | None => Ret (false, [])
                | Some _ =>
                    r <- scan_range reverse (Secondary table_name index_name) begin_ end_
                           (append_secondary_entry table_name index_name limit) [] ;;
                    Ret (true, r)
                end ;;
      access unlock_shared ;;;
      Ret result
  end.

(** ** Commit, Resolve *)

Abbreviation Checked A := (AbortReason + A)%type.

Fixpoint resolve_reads (reads : list ExternalReadEntry) : Prog (Checked (list ValidationEntry)) :=
  match reads with
  | [] => Ret (inr [])
  | read :: reads' =>
      table <- access (GetTable (read_table read)) ;;
      if table : bool then
        access (find_unlocked (Primary (read_table read)) (read_key read)) ;;;
        rest <- resolve_reads reads' ;;
        Ret (match rest with
             | inl reason => inl reason
             | inr entries =>
                 inr (mkValidation (read_table read) (read_key read)
                        (TransactionId.UnpackTransactionId (read_tid read)) (read_found read) :: entries)
             end)
      else if read_found read || negb (read_tid read =? 0) then Ret (inl read_table_missing)
      else resolve_reads reads'
  end.

(** [request_key] joins the names with a zero byte; [live] is
    [live_in_request]. *)
Definition request_key (write : ExternalWriteEntry) : bytestring := write_table write ++ [0] ++ write_key write.

(** Whether the entry is refused, and [check_committed_row]. *)
Definition insert_check (has_insert_entry : bool) (live : gmap bytestring bool) (write : ExternalWriteEntry)
    : bool * bool :=
  if has_insert_entry && write_is_insert write
  then match live !! request_key write with
       | None => (false, true)
       | Some is_live => (is_live, false)
       end
  else (false, false).

Fixpoint resolve_writes (has_insert_entry : bool) (live : gmap bytestring bool) (writes : list ExternalWriteEntry)
    : Prog (Checked (list ResolvedWrite)) :=
  match writes with
  | [] => Ret (inr [])
  | write :: writes' =>
      table <- access (GetTable (write_table write)) ;;
      if table : bool then
        item <- GetOrInsert (Primary (write_table write)) (write_key write) ;;
        match item with
        | None => Ret (inl write_get_or_insert_failed)
        | Some x =>
            let '(refused, check) := insert_check has_insert_entry live write in
            if refused then Ret (inl duplicate_primary_key) else
            rest <- resolve_writes has_insert_entry
                      (if has_insert_entry then <[request_key write := negb (write_is_delete write)]> live else live)
                      writes' ;;
            Ret (match rest with
                 | inl reason => inl reason
                 | inr resolved =>
                     inr (mkResolvedWrite (write_table write) (write_key write) (write_value write)
                            (write_is_delete write) x check :: resolved)
                 end)
        end
      else Ret (inl write_table_missing)
  end.

Definition unique_key (op : ExternalSecondaryIndexEntry) : bytestring :=
  si_table op ++ [0] ++ si_index op ++ [0] ++ si_secondary_key op.

Fixpoint resolve_si_ops (unique_si_adds : gset bytestring) (ops : list ExternalSecondaryIndexEntry)
    : Prog (Checked (list ResolvedSecondaryIndexOp)) :=
  match ops with
  | [] => Ret (inr [])
  | op :: ops' =>
      table <- access (GetTable (si_table op)) ;;
      if table : bool then
        index <- access (GetSecondaryIndex (si_table op) (si_index op)) ;;
        match index with
        | None => Ret (inl si_index_missing)
        | Some unique =>
            let adds := negb (si_is_delete op) && unique in
            if adds && bool_decide (unique_key op ∈ unique_si_adds)
            then Ret (inl unique_si_duplicate_in_request)
            else
              let ix := Secondary (si_table op) (si_index op) in
              item <- (if si_is_delete op then GetOrInsert ix (si_secondary_key op)
                       else GetOrInsertForWrite ix (si_secondary_key op)) ;;
              match item with
              | None => Ret (inl si_get_or_insert_failed)
              | Some x =>
                  rest <- resolve_si_ops (if adds then {[unique_key op]} ∪ unique_si_adds else unique_si_adds) ops' ;;
                  Ret (match rest with
                       | inl reason => inl reason
                       | inr resolved =>
                           inr (mkResolvedOp (si_table op) (si_index op) (si_secondary_key op) (si_primary_key op)
                                  (si_is_delete op) x unique :: resolved)
                       end)
              end
        end
      else Ret (inl si_table_missing)
  end.

Record Resolved := mkResolved {
  validation_entries : list ValidationEntry;
  resolved_writes : list ResolvedWrite;
  resolved_si_ops : list ResolvedSecondaryIndexOp;
}.

Definition resolve (req : Request) : Prog (Checked Resolved) :=
  entries <- resolve_reads (reads req) ;;
  match entries with
  | inl reason => Ret (inl reason)
  | inr entries =>
      ws <- resolve_writes (existsb write_is_insert (writes req)) ∅ (writes req) ;;
      match ws with
      | inl reason => Ret (inl reason)
      | inr ws =>
          ops <- resolve_si_ops ∅ (secondary_index_ops req) ;;
          Ret (match ops with
               | inl reason => inl reason
               | inr ops => inr (mkResolved entries ws ops)
               end)
      end
  end.

Definition lock_targets (r : Resolved) : list LockTarget :=
  map (fun w => mkTarget (rw_item w) (Primary (rw_table w)) (rw_key w)) (resolved_writes r) ++
  map (fun o => mkTarget (rs_item o) (Secondary (rs_table o) (rs_index o)) (rs_secondary_key o))
    (resolved_si_ops r).

(** ** Commit, Phase 1 *)

(** [std::sort] and [std::unique] on the addresses. *)
Fixpoint insert_item (x : Z) (l : list Z) : list Z :=
  match l with
  | [] => [x]
  | y :: l' => if y <? x then y :: insert_item x l' else x :: l
  end.
Fixpoint sort_items (l : list Z) : list Z :=
  match l with [] => [] | x :: l' => insert_item x (sort_items l') end.
Fixpoint unique_items (l : list Z) : list Z :=
  match l with
  | [] => []
  | x :: l' => x :: match unique_items l' with
                    | y :: r => if x =? y then r else y :: r
                    | [] => []
                    end
  end.
Definition lock_items (targets : list LockTarget) : list Z :=
  unique_items (sort_items (map target_item targets)).

Definition unlock_and_abort {A} (locked_tids : list LockedTid) (reason : AbortReason) : Prog (Checked A) :=
  for_each (fun l =>
    current <- access (load_tid (locked_item l)) ;;
    if is_locked current then access (store_tid (locked_item l) (release_word current)) else Ret tt) locked_tids ;;;
  access MakeMeOffline ;;;
  Ret (inl reason).

Fixpoint lock_target_attached (targets : list LockTarget) (item : Z) : Prog bool :=
  match targets with
  | [] => Ret true
  | target :: targets' =>
      if negb (target_item target =? item) then lock_target_attached targets' item else
      current <- access (find_unlocked (target_index target) (target_key target)) ;;
      if bool_decide (current = Some item) then lock_target_attached targets' item else Ret false
  end.

(** The inner loop: spin until the compare-and-swap lands. *)
Fixpoint lock_item (n : nat) (item : Z) : Prog LockedTid :=
  match n with
  | O => Spinning
  | S n' =>
      current <- access (load_tid item) ;;
      if is_locked current then lock_item n' item else
      swapped <- access (cas_tid item current (lock_word current)) ;;
      match swapped with
      | None => Ret (mkLocked item current (lock_word current))
      | Some _ => lock_item n' item
      end
  end.

(** The locks taken so far, and whether a target was detached. *)
Fixpoint lock_all (targets : list LockTarget) (items : list Z) (locked_tids : list LockedTid)
    : Prog (list LockedTid * bool) :=
  match items with
  | [] => Ret (locked_tids, false)
  | item :: items' =>
      l <- lock_item fuel item ;;
      attached <- lock_target_attached targets item ;;
      if attached : bool then lock_all targets items' (locked_tids ++ [l])
      else Ret (locked_tids ++ [l], true)
  end.

(** ** Commit, Phase 2 *)

Fixpoint find_locked (locked_tids : list LockedTid) (item : Z) : option LockedTid :=
  match locked_tids with
  | [] => None
  | l :: ls => if locked_item l =? item then Some l else find_locked ls item
  end.

Definition is_own_locked (locked_tids : list LockedTid) (item : Z) : bool :=
  match find_locked locked_tids item with Some _ => true | None => false end.

(** Phase 2.1, one entry. *)
Definition validate_read (locked_tids : list LockedTid) (read : ValidationEntry) : Prog (option AbortReason) :=
  let moved := Some (exact_read_tid_moved (val_table read) (val_key read)) in
  item <- access (find_unlocked (Primary (val_table read)) (val_key read)) ;;
  match item with
  | None => Ret (if val_found read then Some (exact_read_disappeared (val_table read) (val_key read)) else None)
  | Some x =>
      if negb (val_found read) then
        initialized <- access (IsPrimaryInitialized x) ;;
        Ret (if initialized : bool then Some (exact_read_appeared (val_table read) (val_key read)) else None)
      else
        let own := find_locked locked_tids x in
        if match own with
           | Some l => negb (TransactionId.eqb (before_lock l) (captured_tid read))
           | None => false
           end
        then Ret moved
        else
          let expected := match own with Some l => locked l | None => captured_tid read end in
          current <- access (load_tid x) ;;
          if TransactionId.neqb current expected then Ret moved else
          initialized <- access (IsPrimaryInitialized x) ;;
          Ret (if initialized : bool then None else Some (exact_read_deleted (val_table read) (val_key read)))
  end.

Fixpoint first_failure {X} (f : X -> Prog (option AbortReason)) (l : list X) : Prog (option AbortReason) :=
  match l with
  | [] => Ret None
  | x :: l' => r <- f x ;; match r with Some reason => Ret (Some reason) | None => first_failure f l' end
  end.

Definition locked_by_another (locked_tids : list LockedTid) (item : Z) : Prog bool :=
  tid <- access (load_tid item) ;;
  Ret (is_locked tid && negb (is_own_locked locked_tids item)).

(** The variables of a replay. *)
Record Replayed := mkReplayed { result_pos : nat; aborted : bool; matches : bool }.

Definition replay_start : Replayed := mkReplayed 0 false true.
Definition replay_abort (s : Replayed) : Replayed := mkReplayed (result_pos s) true (matches s).
Definition replay_mismatch (s : Replayed) : Replayed := mkReplayed (result_pos s) (aborted s) false.
Definition replay_next (s : Replayed) : Replayed := mkReplayed (S (result_pos s)) (aborted s) (matches s).

Definition collect_key (locked_tids : list LockedTid) (range : ExternalRangeReadEntry) (key : bytestring)
    (item : Z) (s : Replayed) : Prog (bool * Replayed) :=
  dirty <- locked_by_another locked_tids item ;;
  if dirty : bool then Ret (true, replay_abort s) else
  initialized <- access (IsPrimaryInitialized item) ;;
  if initialized : bool then
    if bool_decide (result_keys range !! result_pos s = Some key)
    then Ret (limit_reached (row_limit range) (Z.of_nat (S (result_pos s))), replay_next s)
    else Ret (true, replay_mismatch s)
  else Ret (limit_reached (row_limit range) (Z.of_nat (result_pos s)), s).

Definition validate_primary_key_list (locked_tids : list LockedTid) (range : ExternalRangeReadEntry) : Prog bool :=
  table <- access (GetTable (range_table range)) ;;
  if table : bool then
    s <- scan_range (reverse_scan range) (Primary (range_table range)) (start_key range) (end_key range)
           (collect_key locked_tids range) replay_start ;;
    Ret (negb (aborted s) && matches s && (result_pos s =? length (result_keys range))%nat)
  else Ret false.

Definition collect_base_row (locked_tids : list LockedTid) (range : ExternalRangeReadEntry)
    (secondary_key primary_key : bytestring) (s : Replayed) : Prog (bool * Replayed) :=
  item <- access (find_unlocked (Primary (range_table range)) primary_key) ;;
  match item with
  | None => Ret (false, s)
  | Some x =>
      dirty <- locked_by_another locked_tids x ;;
      if dirty : bool then Ret (true, replay_abort s) else
      initialized <- access (IsPrimaryInitialized x) ;;
      if initialized : bool then
        if bool_decide (result_keys range !! result_pos s = Some secondary_key) &&
           bool_decide (result_primary_keys range !! result_pos s = Some primary_key)
        then Ret (limit_reached (row_limit range) (Z.of_nat (S (result_pos s))), replay_next s)
        else Ret (true, replay_mismatch s)
      else Ret (limit_reached (row_limit range) (Z.of_nat (result_pos s)), s)
  end.

Definition collect_secondary_key (locked_tids : list LockedTid) (range : ExternalRangeReadEntry)
    (key : bytestring) (_ : Z) (s : Replayed) : Prog (bool * Replayed) :=
  item <- access (find_unlocked (Secondary (range_table range) (range_index range)) key) ;;
  match item with
  | None => Ret (false, s)
  | Some x =>
      observed <- access (load_tid x) ;;
      if is_locked observed && negb (is_own_locked locked_tids x) then Ret (true, replay_abort s) else
      primary_keys <- access (load_primary_keys x) ;;
      again <- access (load_tid x) ;;
      if TransactionId.neqb again observed then Ret (true, replay_abort s) else
      if PackedPrimaryKeysView.empty primary_keys then Ret (false, s) else
      until (collect_base_row locked_tids range key) (PackedPrimaryKeysView.primary_keys_vector primary_keys) s
  end.

Definition validate_secondary_key_list (locked_tids : list LockedTid) (range : ExternalRangeReadEntry) : Prog bool :=
  table <- access (GetTable (range_table range)) ;;
  index <- (if table : bool then access (GetSecondaryIndex (range_table range) (range_index range)) else Ret None) ;;
  match index with
  | None => Ret false
  | Some _ =>
      s <- scan_range (reverse_scan range) (Secondary (range_table range) (range_index range)) (start_key range)
             (end_key range) (collect_secondary_key locked_tids range) replay_start ;;
      Ret (negb (aborted s) && matches s && (result_pos s =? length (result_keys range))%nat &&
           (result_pos s =? length (result_primary_keys range))%nat)
  end.

(** Phase 2.2, one range. *)
Definition validate_range (locked_tids : list LockedTid) (range : ExternalRangeReadEntry)
    : Prog (option AbortReason) :=
  match range_index range with
  | [] => ok <- validate_primary_key_list locked_tids range ;;
          Ret (if ok : bool then None else Some primary_range_result_changed)
  | _ => ok <- validate_secondary_key_list locked_tids range ;;
         Ret (if ok : bool then None else Some secondary_range_result_changed)
  end.

(** Phase 2.3, one write. *)
Definition validate_insert (write : ResolvedWrite) : Prog (option AbortReason) :=
  if check_committed_row write then
    initialized <- access (IsPrimaryInitialized (rw_item write)) ;;
    Ret (if initialized : bool then Some duplicate_primary_key else None)
  else Ret None.

(** Phase 2.4: [si_primary_keys] holds the lists as the operations before this
    one leave them. *)
Fixpoint unique_recheck (si_primary_keys : gmap Z Ptr) (ops : list ResolvedSecondaryIndexOp)
    : Prog (option AbortReason) :=
  match ops with
  | [] => Ret None
  | op :: ops' =>
      if negb (rs_unique op) then unique_recheck si_primary_keys ops' else
      keys <- match si_primary_keys !! rs_item op with
              | Some keys => Ret keys
              | None => access (load_primary_keys (rs_item op))
              end ;;
      let si_primary_keys := <[rs_item op := keys]> si_primary_keys in
      if rs_is_delete op then
        if PackedPrimaryKeysView.contains keys (rs_primary_key op) then
          u <- lift (Erase keys (rs_primary_key op)) ;;
          unique_recheck (<[rs_item op := update_ptr keys u]> si_primary_keys) ops'
        else unique_recheck si_primary_keys ops'
      else if negb (PackedPrimaryKeysView.empty keys) then Ret (Some unique_si_exists_after_lock)
      else
        u <- lift (Insert keys (rs_primary_key op)) ;;
        unique_recheck (<[rs_item op := update_ptr keys u]> si_primary_keys) ops'
  end.

Definition validate (req : Request) (r : Resolved) (locked_tids : list LockedTid) : Prog (option AbortReason) :=
  failed <- first_failure (validate_read locked_tids) (validation_entries r) ;;
  match failed with
  | Some reason => Ret (Some reason)
  | None =>
      failed <- first_failure (validate_range locked_tids) (range_reads req) ;;
      match failed with
      | Some reason => Ret (Some reason)
      | None =>
          failed <- first_failure validate_insert (resolved_writes r) ;;
          match failed with
          | Some reason => Ret (Some reason)
          | None => unique_recheck ∅ (resolved_si_ops r)
          end
      end
  end.

(** ** Commit, Phase 3 *)

Definition install_write (write : ResolvedWrite) : Prog unit :=
  access (Reset (rw_item write) (if rw_is_delete write then None else Some (rw_value write))).

Definition install_si_op (op : ResolvedSecondaryIndexOp) : Prog unit :=
  r <- access (if rs_is_delete op then RemoveSecondaryIndexValue (rs_item op) (rs_primary_key op)
               else AddSecondaryIndexValue (rs_item op) (rs_primary_key op)) ;;
  lift r.

(** [si_empty_after_install]. *)
Fixpoint si_tombstones (ops : list ResolvedSecondaryIndexOp) (empty_after : gmap Z bool) : Prog (gmap Z bool) :=
  match ops with
  | [] => Ret empty_after
  | op :: ops' =>
      if rs_is_delete op then
        primary_keys <- access (load_primary_keys (rs_item op)) ;;
        si_tombstones ops' (<[rs_item op := PackedPrimaryKeysView.empty primary_keys]> empty_after)
      else si_tombstones ops' empty_after
  end.

(** [snapshot.data_item_copy = i]. *)
Definition with_copy (s : Snapshot.t) (i : DataItem.t) : Snapshot.t :=
  Snapshot.mk (Snapshot.key s) i (Snapshot.index_cache s) (Snapshot.is_read_modify_write s)
    (Snapshot.table_name s) (Snapshot.index_name s) (Snapshot.index_type_unique s) (Snapshot.is_insert s)
    (Snapshot.secondary_index_deltas s).

Definition write_snapshot (write : ResolvedWrite) (i : DataItem.t) : Snapshot.t :=
  with_copy (Snapshot.new (rw_key write) None (rw_item write) (rw_table write) [] TransactionId.zero false)
    (DataItem.assign DataItem.empty i).

Definition si_snapshot (op : ResolvedSecondaryIndexOp) (i : DataItem.t) : Snapshot.t :=
  Snapshot.RecordSecondaryIndexDelta
    (with_copy (Snapshot.new (rs_secondary_key op) None (rs_item op) (rs_table op) (rs_index op)
                  TransactionId.zero (rs_unique op))
       (DataItem.assign DataItem.empty i))
    (rs_primary_key op) (if rs_is_delete op then OpRemove else OpAdd).

(** Phase 3.2. *)
Definition log_snapshot (enable_logging : bool) (r : Resolved) : Prog (list Snapshot.t) :=
  if enable_logging then
    ws <- collect_all (fun w => i <- access (copy_item (rw_item w)) ;; Ret (write_snapshot w i)) (resolved_writes r) ;;
    ops <- collect_all (fun o => i <- access (copy_item (rs_item o)) ;; Ret (si_snapshot o i)) (resolved_si_ops r) ;;
    Ret (ws ++ ops)
  else Ret [].

(** Phase 3.3: [unlocked_tids]. *)
Fixpoint publish_all (current_epoch : Z) (items : list Z) : Prog (gmap Z TransactionId.t) :=
  match items with
  | [] => Ret ∅
  | item :: items' =>
      current <- access (load_tid item) ;;
      let unlocked := unlocked_word current_epoch current in
      access (store_tid item unlocked) ;;;
      rest <- publish_all current_epoch items' ;;
      Ret (<[item := unlocked]> rest)
  end.

Definition stamp (unlocked_tids : gmap Z TransactionId.t) (s : Snapshot.t) : Snapshot.t :=
  match unlocked_tids !! Snapshot.index_cache s with
  | None => s
  | Some w => with_copy s (DataItem.set_transaction_id (Snapshot.data_item_copy s) w)
  end.

(** [Reaper::Enqueue] of an index that is not null. *)
Definition reaper_Enqueue (ix : IndexRef) (key : bytestring) (item : Z) (delete_commit_tid : TransactionId.t)
    : Prog unit :=
  if TransactionId.IsEmpty delete_commit_tid then Ret tt
  else access (push_candidate (mkCandidate ix key item delete_commit_tid)).

(** Phase 3.4. *)
Definition purge_write (unlocked_tids : gmap Z TransactionId.t) (write : ResolvedWrite) : Prog unit :=
  if rw_is_delete write
  then match unlocked_tids !! rw_item write with
       | None => Ret tt
       | Some w => reaper_Enqueue (Primary (rw_table write)) (rw_key write) (rw_item write) w
       end
  else Ret tt.

Fixpoint purge_si_ops (unlocked_tids : gmap Z TransactionId.t) (empty_after : gmap Z bool)
    (registered : gset Z) (ops : list ResolvedSecondaryIndexOp) : Prog unit :=
  match ops with
  | [] => Ret tt
  | op :: ops' =>
      if rs_is_delete op && default false (empty_after !! rs_item op) && bool_decide (rs_item op ∉ registered) then
        match unlocked_tids !! rs_item op with
        | None => Ret tt
        | Some w => reaper_Enqueue (Secondary (rs_table op) (rs_index op)) (rs_secondary_key op) (rs_item op) w
        end ;;;
        purge_si_ops unlocked_tids empty_after ({[rs_item op]} ∪ registered) ops'
      else purge_si_ops unlocked_tids empty_after registered ops'
  end.

(** Phase 3. *)
Definition install (enable_logging : bool) (r : Resolved) (items : list Z) : Prog unit :=
  access GetMyThreadLocalEpoch ;;;
  for_each install_write (resolved_writes r) ;;;
  for_each install_si_op (resolved_si_ops r) ;;;
  empty_after <- si_tombstones (resolved_si_ops r) ∅ ;;
  log_set <- log_snapshot enable_logging r ;;
  current_epoch <- access GetMyThreadLocalEpoch ;;
  unlocked_tids <- publish_all current_epoch items ;;
  let log_set := map (stamp unlocked_tids) log_set in
  for_each (purge_write unlocked_tids) (resolved_writes r) ;;;
  purge_si_ops unlocked_tids empty_after ∅ (resolved_si_ops r) ;;;
  log_enqueued <- match log_set with [] => Ret false | _ => access (logger_Enqueue log_set current_epoch) end ;;
  awaits_durability <- (if log_enqueued : bool then access GetCommitDurability_is_Sync else Ret false) ;;
  access MakeMeOffline ;;;
  access (AwaitCommitDurability current_epoch awaits_durability).

(** ** Commit *)

Definition end_key_missing (range : ExternalRangeReadEntry) : bool :=
  match end_key range with [] => true | _ => false end.

Definition Commit (enable_logging : bool) (req : Request) : Prog (Checked unit) :=
  access MakeMeOnline ;;;
  if existsb end_key_missing (range_reads req) then
    access MakeMeOffline ;;; Ret (inl range_end_key_missing)
  else
    access lock_shared ;;;
    resolved <- resolve req ;;
    match resolved with
    | inl reason => access MakeMeOffline ;;; access unlock_shared ;;; Ret (inl reason)
    | inr r =>
        access unlock_shared ;;;
        let items := lock_items (lock_targets r) in
        l <- lock_all (lock_targets r) items [] ;;
        if l.2 : bool then unlock_and_abort l.1 write_target_detached else
        access MakeMeOffline ;;;
        access MakeMeOnline ;;;
        failed <- validate req r l.1 ;;
        match failed with
        | Some reason => unlock_and_abort l.1 reason
        | None => install enable_logging r items ;;; Ret (inr tt)
        end
    end.

(** ** The reaper (reaper.cpp) *)

Definition one_full_epoch_elapsed (published_epoch : Z) (c : DeferredPurgeCandidate) : bool :=
  let delete_epoch := TransactionId.epoch (delete_commit_tid c) in
  (delete_epoch <? published_epoch) && (1 <? published_epoch - delete_epoch).

Inductive Fate : Type := Reaped | Requeued | Dropped.

(** The body of the loop over [ready]. *)
Definition reap_candidate (c : DeferredPurgeCandidate) : Prog Fate :=
  let x := candidate_item c in
  let unlock_candidate := access (store_tid x (delete_commit_tid c)) in
  item <- access (find_unlocked (candidate_index c) (candidate_key c)) ;;
  if bool_decide (item <> Some x) then Ret Dropped else
  observed <- access (load_tid x) ;;
  if is_locked observed then Ret Requeued else
  if negb (TransactionId.eqb observed (delete_commit_tid c)) then Ret Dropped else
  let locked := lock_word observed in
  swapped <- access (cas_tid x observed locked) ;;
  match swapped with
  | Some current => Ret (if is_locked current then Requeued else Dropped)
  | None =>
      item_initialized <- (match candidate_index c with
                           | Primary _ => access (IsPrimaryInitialized x)
                           | Secondary _ _ => access (IsInitialized x)
                           end) ;;
      if item_initialized : bool then unlock_candidate ;;; Ret Dropped else
      again <- access (find_unlocked (candidate_index c) (candidate_key c)) ;;
      if bool_decide (again <> Some x) then unlock_candidate ;;; Ret Dropped else
      current <- access (load_tid x) ;;
      if negb (TransactionId.eqb current locked) then unlock_candidate ;;; Ret Dropped else
      let d := delete_commit_tid c in
      let retired := TransactionId.mk (TransactionId.epoch d)
                       (Z.land (u32 (TransactionId.tid d + 2)) (2 ^ 32 - 2)) in
      purged <- MasstreeIndex_Purge (candidate_index c) (candidate_key c) x retired ;;
      if purged : bool then Ret Reaped else unlock_candidate ;;; Ret Dropped
  end.

Definition is_fate (f : Fate) (p : DeferredPurgeCandidate * Fate) : bool :=
  match p.2, f with
  | Reaped, Reaped | Requeued, Requeued | Dropped, Dropped => true
  | _, _ => false
  end.

Definition Reap (published_epoch : Z) : Prog unit :=
  ready <- access (take_ready published_epoch) ;;
  match ready with
  | [] => Ret tt
  | _ =>
      fates <- collect_all (fun c => f <- reap_candidate c ;; Ret (c, f)) ready ;;
      access (requeue (map fst (List.filter (is_fate Requeued) fates))
                (zlen (List.filter (is_fate Reaped) fates)) (zlen (List.filter (is_fate Dropped) fates)))
  end.

End programs.
