(* ===== verification/StatelessLogic.v ===== *)
(** * Interleaved execution of the stateless programs, and a logic for it

    [exec] is what a single access does to the shared state; [step] lets any
    thread of a pool make its next access, or the epoch writer advance the
    epoch.  Every thread carries a [History]: the items it holds the lock of,
    as they are, as it found them and as it published them, and what it has
    observed since it took its last lock.  [record] fills it with the values
    of the shared state at the access, and the programs cannot read it.

    [wp] is the weakest precondition of a program as one thread among others:
    at every access the shared state is any state that agrees with the
    history, that is, in which the items the thread has locked, and their
    entries in the trees, are as the thread left them.  [pool_sound] shows
    that programs that obey [pre] at their accesses - write to an item and
    detach it only under its lock, release it unchanged or with a larger
    version - leave each other's histories true, so that what [wp] promises of
    a thread holds in every interleaving. *)

From S2P Require Import Prelude PackedKeys Types DataItem LogReplay Stateless.
Import PackedPrimaryKeys.

(** ** The tree

    What masstree_index.cpp uses of Masstree: an ordered map from keys to
    items, with cursors that step to the next entry in either direction. *)

Class BasicTable (T : Type) := {
  table_initialize : T;
  table_find : T -> bytestring -> option Z;
  table_insert : T -> bytestring -> Z -> T;
  table_remove : T -> bytestring -> T;
  table_scan : bool -> T -> bytestring -> bool -> option (bytestring * Z);
}.

(** It is a map, and a step of a cursor gives the nearest entry on its side of
    the key. *)
Definition beyond (reverse : bool) (firstkey : bytestring) (emit_firstkey : bool) (k : bytestring) : Prop :=
  (emit_firstkey = true ∧ k = firstkey) ∨ (if reverse then str_lt k firstkey else str_lt firstkey k).

Class BasicTableLaws (T : Type) `{!BasicTable T} := {
  find_initialize k : table_find table_initialize k = None;
  find_insert t k x k' : table_find (table_insert t k x) k' = if decide (k' = k) then Some x else table_find t k';
  find_remove t k k' : table_find (table_remove t k) k' = if decide (k' = k) then None else table_find t k';
  scan_some reverse t firstkey emit k x : table_scan reverse t firstkey emit = Some (k, x) ->
    table_find t k = Some x ∧ beyond reverse firstkey emit k ∧
    forall k', is_Some (table_find t k') -> beyond reverse firstkey emit k' ->
      k' = k ∨ (if reverse then str_lt k' k else str_lt k k');
  scan_none reverse t firstkey emit k : table_scan reverse t firstkey emit = None ->
    is_Some (table_find t k) -> ~ beyond reverse firstkey emit k;
}.

Definition THREAD_OFFLINE : Z := UINT32_MAX.

Definition upd {K A} `{EqDecision K} (f : K -> A) (i : K) (a : A) : K -> A :=
  fun j => if decide (j = i) then a else f j.

(** The catalogue that a group of lemmas is about. *)
Class FixedCatalogue : Type := fixed_catalogue : gmap bytestring (gmap bytestring bool).

Section logic.
Context {T : Type} `{!BasicTable T}.

(** ** The shared state *)

Record Db := mkDb {
  heap : gmap Z DataItem.t;
  next_item : Z;
  trees : IndexRef -> T;
  catalogue : gmap bytestring (gmap bytestring bool);
  schema_readers : Z;
  global_epoch : Z;
  local_epochs : nat -> Z;
  deferred_purge_candidates_ : list DeferredPurgeCandidate;
  deferred_purge_totals : Z * Z * Z;
  log_records : nat -> LogRecords;
  commit_durability_is_sync : bool;
}.

Definition item_at (d : Db) (x : Z) : DataItem.t := default DataItem.empty (heap d !! x).
Definition word_at (d : Db) (x : Z) : TransactionId.t := DataItem.transaction_id (item_at d x).

Definition set_heap (d : Db) (h : gmap Z DataItem.t) : Db :=
  mkDb h (next_item d) (trees d) (catalogue d) (schema_readers d) (global_epoch d) (local_epochs d)
    (deferred_purge_candidates_ d) (deferred_purge_totals d) (log_records d) (commit_durability_is_sync d).
Definition set_item (d : Db) (x : Z) (i : DataItem.t) : Db := set_heap d (<[x := i]> (heap d)).
Definition set_tree (d : Db) (ix : IndexRef) (t : T) : Db :=
  mkDb (heap d) (next_item d) (upd (trees d) ix t) (catalogue d) (schema_readers d) (global_epoch d)
    (local_epochs d) (deferred_purge_candidates_ d) (deferred_purge_totals d) (log_records d)
    (commit_durability_is_sync d).
Definition set_next (d : Db) (n : Z) : Db :=
  mkDb (heap d) n (trees d) (catalogue d) (schema_readers d) (global_epoch d) (local_epochs d)
    (deferred_purge_candidates_ d) (deferred_purge_totals d) (log_records d) (commit_durability_is_sync d).
Definition set_readers (d : Db) (n : Z) : Db :=
  mkDb (heap d) (next_item d) (trees d) (catalogue d) n (global_epoch d) (local_epochs d)
    (deferred_purge_candidates_ d) (deferred_purge_totals d) (log_records d) (commit_durability_is_sync d).
Definition set_global (d : Db) (e : Z) : Db :=
  mkDb (heap d) (next_item d) (trees d) (catalogue d) (schema_readers d) e (local_epochs d)
    (deferred_purge_candidates_ d) (deferred_purge_totals d) (log_records d) (commit_durability_is_sync d).
Definition set_local (d : Db) (i : nat) (e : Z) : Db :=
  mkDb (heap d) (next_item d) (trees d) (catalogue d) (schema_readers d) (global_epoch d)
    (upd (local_epochs d) i e) (deferred_purge_candidates_ d) (deferred_purge_totals d) (log_records d)
    (commit_durability_is_sync d).
Definition set_candidates (d : Db) (cs : list DeferredPurgeCandidate) (totals : Z * Z * Z) : Db :=
  mkDb (heap d) (next_item d) (trees d) (catalogue d) (schema_readers d) (global_epoch d) (local_epochs d)
    cs totals (log_records d) (commit_durability_is_sync d).
Definition set_log (d : Db) (i : nat) (l : LogRecords) : Db :=
  mkDb (heap d) (next_item d) (trees d) (catalogue d) (schema_readers d) (global_epoch d) (local_epochs d)
    (deferred_purge_candidates_ d) (deferred_purge_totals d) (upd (log_records d) i l)
    (commit_durability_is_sync d).

(** ** Accesses *)

(** [find_insert] and [NewBlankItem] under the lock of the leaf. *)
Definition put_blank (d : Db) (ix : IndexRef) (key : bytestring) : Db :=
  match table_find (trees d ix) key with
  | Some _ => d
  | None =>
      let x := next_item d in
      set_next (set_tree (set_item d x DataItem.empty) ix (table_insert (trees d ix) key x)) (x + 1)
  end.

(** An update of an item that may throw. *)
Definition update_item (d : Db) (x : Z) (o : outcome DataItem.t) : outcome unit * Db :=
  match o with
  | Returns i => (Returns tt, set_item d x i)
  | Throws_length_error f => (Throws_length_error f, d)
  end.

Definition exec (me : nat) {R} (o : Op R) (d : Db) : R * Db :=
  match o in Op R return R * Db with
  | GetTable t => (bool_decide (is_Some (catalogue d !! t)), d)
  | GetSecondaryIndex t i => (catalogue d !! t ≫= fun indexes => indexes !! i, d)
  | lock_shared => (tt, set_readers d (schema_readers d + 1))
  | unlock_shared => (tt, set_readers d (schema_readers d - 1))
  | find_unlocked ix key => (table_find (trees d ix) key, d)
  | find_insert_blank ix key => (tt, put_blank d ix key)
  | find_locked_remove ix key expected =>
      if decide (table_find (trees d ix) key = Some expected)
      then (true, set_tree d ix (table_remove (trees d ix) key)) else (false, d)
  | scan_step reverse ix firstkey emit => (table_scan reverse (trees d ix) firstkey emit, d)
  | load_tid x => (word_at d x, d)
  | cas_tid x expected desired =>
      if decide (is_Some (heap d !! x) ∧ word_at d x = expected)
      then (None, set_item d x (DataItem.set_transaction_id (item_at d x) desired))
      else (Some (word_at d x), d)
  | store_tid x w => (tt, set_item d x (DataItem.set_transaction_id (item_at d x) w))
  | IsPrimaryInitialized x => (DataItem.IsPrimaryInitialized (item_at d x), d)
  | IsInitialized x => (DataItem.IsInitialized (item_at d x), d)
  | load_primary_keys x => (DataItem.primary_keys_ (item_at d x), d)
  | copy_row x => (DataBuffer.payload (DataItem.buffer (item_at d x)), d)
  | copy_item x => (item_at d x, d)
  | Reset x v => (tt, set_item d x (DataItem.Reset (item_at d x) v TransactionId.zero))
  | AddSecondaryIndexValue x k => update_item d x (DataItem.AddSecondaryIndexValue (item_at d x) k)
  | RemoveSecondaryIndexValue x k => update_item d x (DataItem.RemoveSecondaryIndexValue (item_at d x) k)
  | MakeMeOnline => (tt, set_local d me (global_epoch d))
  | MakeMeOffline => (tt, set_local d me THREAD_OFFLINE)
  | GetMyThreadLocalEpoch => (local_epochs d me, d)
  | push_candidate c =>
      (tt, set_candidates d (deferred_purge_candidates_ d ++ [c]) (deferred_purge_totals d))
  | take_ready published_epoch =>
      (List.filter (one_full_epoch_elapsed published_epoch) (deferred_purge_candidates_ d),
       set_candidates d
         (List.filter (fun c => negb (one_full_epoch_elapsed published_epoch c)) (deferred_purge_candidates_ d))
         (deferred_purge_totals d))
  | requeue cs reaped dropped =>
      let '(r, q, p) := deferred_purge_totals d in
      (tt, set_candidates d (deferred_purge_candidates_ d ++ cs)
             (u64 (r + reaped), u64 (q + zlen cs), u64 (p + dropped)))
  | logger_Enqueue ws epoch =>
      let '(ok, records) := LogEntry.Enqueue ws epoch (log_records d me) in (ok, set_log d me records)
  | GetCommitDurability_is_Sync => (commit_durability_is_sync d, d)
  | AwaitCommitDurability _ _ => (tt, d)
  end.

(** ** Histories *)

Inductive Observation : Type :=
  | Found (ix : IndexRef) (key : bytestring) (item : option Z)
  | Loaded (item : Z) (w : TransactionId.t)
  | Live (item : Z) (initialized : bool).

Record History := mkHistory {
  owned : gmap Z DataItem.t;
  acquired : gmap Z DataItem.t;
  published : gmap Z DataItem.t;
  attached : list (IndexRef * bytestring * Z);
  observed : list Observation;
  joined : option Z;
  schema_held : Z;
  logged : list (list Snapshot.t * Z);
  queued : list DeferredPurgeCandidate;
}.

Definition no_history : History := mkHistory ∅ ∅ ∅ [] [] None 0 [] [].

Definition observe (h : History) (ob : Observation) : History :=
  mkHistory (owned h) (acquired h) (published h) (attached h) (observed h ++ [ob]) (joined h) (schema_held h)
    (logged h) (queued h).
Definition set_owned (h : History) (x : Z) (i : DataItem.t) : History :=
  mkHistory (<[x := i]> (owned h)) (acquired h) (published h) (attached h) (observed h) (joined h)
    (schema_held h) (logged h) (queued h).
Definition set_attached (h : History) (l : list (IndexRef * bytestring * Z)) : History :=
  mkHistory (owned h) (acquired h) (published h) l (observed h) (joined h) (schema_held h) (logged h) (queued h).
Definition set_joined (h : History) (e : option Z) : History :=
  mkHistory (owned h) (acquired h) (published h) (attached h) (observed h) e (schema_held h) (logged h) (queued h).
Definition set_schema (h : History) (n : Z) : History :=
  mkHistory (owned h) (acquired h) (published h) (attached h) (observed h) (joined h) n (logged h) (queued h).
Definition add_logged (h : History) (l : list Snapshot.t * Z) : History :=
  mkHistory (owned h) (acquired h) (published h) (attached h) (observed h) (joined h) (schema_held h)
    (logged h ++ [l]) (queued h).
Definition add_queued (h : History) (c : DeferredPurgeCandidate) : History :=
  mkHistory (owned h) (acquired h) (published h) (attached h) (observed h) (joined h) (schema_held h)
    (logged h) (queued h ++ [c]).

(** Taking and giving up the lock of an item: [before] is the item as it was,
    [after] as it is then. *)
Definition acquire (h : History) (x : Z) (before after : DataItem.t) : History :=
  mkHistory (<[x := after]> (owned h)) (<[x := before]> (acquired h)) (delete x (published h))
    (List.filter (fun e => negb (e.2 =? x)) (attached h)) [] (joined h) (schema_held h) (logged h) (queued h).
Definition release (h : History) (x : Z) (after : DataItem.t) : History :=
  mkHistory (delete x (owned h)) (acquired h) (<[x := after]> (published h)) (attached h) (observed h)
    (joined h) (schema_held h) (logged h) (queued h).

(** What a thread's access adds to its history: [r] is the result, [d] and
    [d'] the states around it. *)
Definition record {R} (o : Op R) (r : R) (d d' : Db) (h : History) : History :=
  match o in Op R return R -> History with
  | find_unlocked ix key => fun r =>
      let h := observe h (Found ix key r) in
      match r with
      | Some x => if decide (is_Some (owned h !! x)) then set_attached h (attached h ++ [(ix, key, x)]) else h
      | None => h
      end
  | find_locked_remove ix key x => fun r =>
      if r then set_attached h (List.filter (fun e => negb (bool_decide (e.1 = (ix, key)))) (attached h)) else h
  | load_tid x => fun r => observe h (Loaded x r)
  | IsPrimaryInitialized x => fun r => observe h (Live x r)
  | cas_tid x _ _ => fun r =>
      match r with None => acquire h x (item_at d x) (item_at d' x) | Some _ => h end
  | store_tid x w => fun _ => release h x (item_at d' x)
  | Reset x _ => fun _ => set_owned h x (item_at d' x)
  | AddSecondaryIndexValue x _ => fun _ => set_owned h x (item_at d' x)
  | RemoveSecondaryIndexValue x _ => fun _ => set_owned h x (item_at d' x)
  | MakeMeOnline => fun _ => set_joined h (Some (global_epoch d))
  | MakeMeOffline => fun _ => set_joined h None
  | lock_shared => fun _ => set_schema h (schema_held h + 1)
  | unlock_shared => fun _ => set_schema h (schema_held h - 1)
  | push_candidate c => fun _ => add_queued h c
  | logger_Enqueue ws epoch => fun _ => add_logged h (ws, epoch)
  | _ => fun _ => h
  end r.

(** ** Pools of threads *)

Record Sys (A : Type) := mkSys { db : Db; threads : list (Prog A * History) }.
Arguments mkSys {A}.
Arguments db {A}.
Arguments threads {A}.

(** Sequence numbers stay below their 32-bit limit. *)
Definition no_wrap (d : Db) : Prop := forall x, TransactionId.tid (word_at d x) < 2 ^ 32 - 1.

Inductive step {A} (s : Sys A) : Sys A -> Prop :=
  | step_access i R (o : Op R) k h :
      threads s !! i = Some (Vis o k, h) ->
      let r := (exec i o (db s)).1 in
      let d' := (exec i o (db s)).2 in
      no_wrap d' ->
      step s (mkSys d' (<[i := (k r, record o r (db s) d' h)]> (threads s)))
  | step_epoch :
      global_epoch (db s) + 1 < 2 ^ 32 ->
      step s (mkSys (set_global (db s) (global_epoch (db s) + 1)) (threads s)).

(** The words are in range and no newer than the epoch, and the next item is a
    new one. *)
Definition sane (d : Db) : Prop :=
  no_wrap d ∧
  (forall x, TransactionId.ok (word_at d x) ∧ TransactionId.epoch (word_at d x) <= global_epoch d) ∧
  (forall x, next_item d <= x -> heap d !! x = None) ∧
  0 <= global_epoch d < 2 ^ 32.

(** Nothing is locked. *)
Definition quiescent (d : Db) : Prop := sane d ∧ forall x, is_locked (word_at d x) = false.

Definition start {A} (d : Db) (programs : list (Prog A)) : Sys A :=
  mkSys d (map (fun p => (p, no_history)) programs).

(** ** The logic *)

(** The tables and their indexes, which no call of this interface changes. *)
Context {cat : FixedCatalogue}.

(** The shared state agrees with the history of a thread. *)
Definition agrees (me : nat) (d : Db) (h : History) : Prop :=
  sane d ∧
  (forall x it, owned h !! x = Some it -> heap d !! x = Some it ∧ is_locked (DataItem.transaction_id it) = true) ∧
  (forall ix k x, (ix, k, x) ∈ attached h -> is_Some (owned h !! x) -> table_find (trees d ix) k = Some x) ∧
  (forall x it, acquired h !! x = Some it -> TransactionId.epoch (DataItem.transaction_id it) <= global_epoch d) ∧
  (forall e, joined h = Some e -> local_epochs d me = e ∧ e <= global_epoch d) ∧
  catalogue d = fixed_catalogue.

(** An item is released as it was found, or with a version of a later commit. *)
Definition releasable (h : History) (x : Z) (w : TransactionId.t) : Prop :=
  ∃ before now, acquired h !! x = Some before ∧ owned h !! x = Some now ∧
    TransactionId.ok w ∧ is_locked w = false ∧
    (DataItem.set_transaction_id now w = before ∨
     TransactionId.ltb (DataItem.transaction_id before) w = true ∧
     (TransactionId.epoch w = TransactionId.epoch (DataItem.transaction_id before) ∨
      ∃ e, joined h = Some e ∧ TransactionId.epoch w <= e)).

(** An entry of an index whose item holds nothing. *)
Definition is_tombstone (ix : IndexRef) (it : DataItem.t) : bool :=
  negb (match ix with
        | Primary _ => DataItem.IsPrimaryInitialized it
        | Secondary _ _ => DataItem.IsInitialized it
        end).

(** What an access needs of the thread that makes it. *)
Definition pre {R} (o : Op R) (h : History) : Prop :=
  match o with
  | cas_tid _ expected desired => is_locked expected = false ∧ desired = lock_word expected
  | store_tid x w => releasable h x w
  | Reset x _ | AddSecondaryIndexValue x _ | RemoveSecondaryIndexValue x _ => is_Some (owned h !! x)
  | find_locked_remove ix k x => ∃ it, owned h !! x = Some it ∧ is_tombstone ix it = true
  | _ => True
  end.

Fixpoint wp {A} (me : nat) (p : Prog A) (h : History) (Q : A -> History -> Prop) : Prop :=
  match p with
  | Ret a => Q a h
  | Throw _ | AssertionFailed | Spinning => True
  | Vis o k =>
      pre o h ∧
      forall d, agrees me d h ->
        wp me (k (exec me o d).1) (record o (exec me o d).1 d (exec me o d).2 h) Q
  end.

Lemma wp_mono {A} me (p : Prog A) h (Q Q' : A -> History -> Prop) :
  (forall a h', Q a h' -> Q' a h') -> wp me p h Q -> wp me p h Q'.
Proof.
  intros HQ. revert h. induction p as [a| | | |R o k IH]; intros h; simpl; eauto.
  intros [Hp H]. split; [done|]. intros d Hd. apply IH, H, Hd.
Qed.

Lemma wp_bind {A B} me (p : Prog A) (k : A -> Prog B) h Q :
  wp me p h (fun a h' => wp me (k a) h' Q) -> wp me (bind p k) h Q.
Proof.
  revert h. induction p as [a| | | |R o c IH]; intros h; simpl; eauto.
  intros [Hp H]. split; [done|]. intros d Hd. apply IH, H, Hd.
Qed.

Lemma wp_access {R} me (o : Op R) h Q :
  pre o h ->
  (forall d, agrees me d h -> Q (exec me o d).1 (record o (exec me o d).1 d (exec me o d).2 h)) ->
  wp me (access o) h Q.
Proof. intros Hp H. split; [done|]. intros d Hd. apply H, Hd. Qed.

(** ** Words *)

Lemma is_locked_lock_word w : is_locked (lock_word w) = true.
Proof. unfold is_locked, lock_word. cbn [TransactionId.tid]. rewrite Z.lor_spec. apply orb_true_r. Qed.

Lemma is_locked_odd w : is_locked w = Z.odd (TransactionId.tid w).
Proof. apply Z.bit0_odd. Qed.

Lemma lock_word_tid w : is_locked w = false -> TransactionId.tid (lock_word w) = TransactionId.tid w + 1.
Proof.
  rewrite is_locked_odd. intros H. unfold lock_word. cbn [TransactionId.tid]. destruct (Z.Even_or_Odd (TransactionId.tid w)) as [[k Hk]|Ho].
  - rewrite Hk, Z.lor_comm. replace (2 * k) with (k * 2 ^ 1) by lia. rewrite lor_mul_add by lia. lia.
  - apply Z.odd_spec in Ho. congruence.
Qed.

Lemma lock_word_ok w : TransactionId.ok w -> is_locked w = false -> TransactionId.ok (lock_word w).
Proof.
  intros [He Ht] Hw. split; [done|]. rewrite lock_word_tid by done. unfold is_u32 in *.
  rewrite is_locked_odd in Hw. assert (TransactionId.tid w <> 2 ^ 32 - 1) by (intros E; by rewrite E in Hw). lia.
Qed.

Lemma release_lock_word w : TransactionId.ok w -> is_locked w = false -> release_word (lock_word w) = w.
Proof.
  intros [He Ht] Hw. unfold release_word. rewrite lock_word_tid by done.
  replace (TransactionId.tid w + 1 - 1) with (TransactionId.tid w) by lia. rewrite u32_small by done. by destruct w.
Qed.

(** ** Items and states *)

Lemma heap_set_item d x i y : heap (set_item d x i) !! y = if decide (y = x) then Some i else heap d !! y.
Proof. simpl. case_decide; subst; [by rewrite lookup_insert_eq|by rewrite lookup_insert_ne]. Qed.

Lemma item_at_set_item d x i y : item_at (set_item d x i) y = if decide (y = x) then i else item_at d y.
Proof. unfold item_at. rewrite heap_set_item. by case_decide. Qed.

Lemma item_at_heap d x i : heap d !! x = Some i -> item_at d x = i.
Proof. unfold item_at. by intros ->. Qed.

Lemma sane_set_item d x i : sane d -> is_Some (heap d !! x) ->
  TransactionId.ok (DataItem.transaction_id i) -> TransactionId.tid (DataItem.transaction_id i) < 2 ^ 32 - 1 ->
  TransactionId.epoch (DataItem.transaction_id i) <= global_epoch d -> sane (set_item d x i).
Proof.
  intros (Hw & Hok & Hf & Hg) Hx Ho Ht He. split_and!; try apply Hg.
  - intros y. unfold word_at. rewrite item_at_set_item. case_decide; [done|apply Hw].
  - intros y. unfold word_at. rewrite item_at_set_item. case_decide; [done|apply Hok].
  - intros y Hy. rewrite heap_set_item. case_decide; [|by apply Hf]. subst. rewrite (Hf _ Hy) in Hx. by destruct Hx.
Qed.

(** An update of the contents keeps the word. *)
Lemma Reset_word i v : DataItem.transaction_id (DataItem.Reset i v TransactionId.zero) = DataItem.transaction_id i.
Proof. done. Qed.

Lemma AddSecondaryIndexValue_word i k i' : DataItem.AddSecondaryIndexValue i k = Returns i' ->
  DataItem.transaction_id i' = DataItem.transaction_id i.
Proof.
  unfold DataItem.AddSecondaryIndexValue. destruct (Insert _ _) as [[]|]; simpl; [..|done]; by intros [= <-].
Qed.

Lemma RemoveSecondaryIndexValue_word i k i' : DataItem.RemoveSecondaryIndexValue i k = Returns i' ->
  DataItem.transaction_id i' = DataItem.transaction_id i.
Proof.
  unfold DataItem.RemoveSecondaryIndexValue. destruct (Erase _ _) as [[]|]; simpl; [..|done]; by intros [= <-].
Qed.

(** ** Soundness *)

(** What an access by [me] does to the state, as the others see it. *)
Inductive effect (me : nat) (h : History) (d : Db) : Db -> Prop :=
  | effect_none d' : heap d' = heap d -> next_item d' = next_item d -> trees d' = trees d ->
      global_epoch d' = global_epoch d -> (forall j, j <> me -> local_epochs d' j = local_epochs d j) ->
      catalogue d' = catalogue d -> effect me h d d'
  | effect_blank ix k : table_find (trees d ix) k = None -> effect me h d (put_blank d ix k)
  | effect_remove ix k x : is_Some (owned h !! x) -> table_find (trees d ix) k = Some x ->
      effect me h d (set_tree d ix (table_remove (trees d ix) k))
  | effect_item x i : is_Some (heap d !! x) -> is_Some (owned h !! x) ∨ is_locked (word_at d x) = false ->
      TransactionId.ok (DataItem.transaction_id i) ->
      TransactionId.epoch (DataItem.transaction_id i) <= global_epoch d ->
      effect me h d (set_item d x i).

Lemma exec_effect me {R} (o : Op R) d h : agrees me d h -> pre o h -> effect me h d (exec me o d).2.
Proof.
  intros (Hs & Ho & Ha & Hq & Hj & Hcat) Hp. destruct Hs as (Hw & Hok & Hf & Hg).
  assert (forall x i, is_Some (owned h !! x) -> DataItem.transaction_id i = DataItem.transaction_id (item_at d x) ->
    effect me h d (set_item d x i)) as Hitem.
  { intros x i Hx Hi. destruct (Hok x) as [Ht He]. unfold word_at in *. destruct Hx as [it Hx].
    destruct (Ho _ _ Hx). apply effect_item; rewrite ?Hi; eauto. }
  destruct o; simpl in *; try (by apply effect_none); try (by apply Hitem).
  - destruct (table_find (trees d ix) key) eqn:E; [|by apply effect_blank].
    unfold put_blank. rewrite E. by apply effect_none.
  - case_decide; [|by apply effect_none]. destruct Hp as (it & Hit & _). eapply effect_remove; eauto.
  - case_decide as E; [|by apply effect_none]. destruct E as [Hx <-], Hp as [Hl ->], (Hok item).
    apply effect_item; simpl; auto using lock_word_ok.
  - destruct Hp as (b & n & Hb & Hn & Hwo & _ & Hr). destruct (Ho _ _ Hn). apply effect_item; simpl; eauto.
    destruct Hr as [Hr|(_ & [Hr|(e & He & Hr)])].
    + assert (DataItem.transaction_id b = w) as <- by (by subst b). eauto.
    + rewrite Hr. eauto.
    + destruct (Hj _ He). lia.
  - unfold update_item. destruct (DataItem.AddSecondaryIndexValue _ _) eqn:E; [|by apply effect_none].
    apply Hitem; [done|]. by eapply AddSecondaryIndexValue_word.
  - unfold update_item. destruct (DataItem.RemoveSecondaryIndexValue _ _) eqn:E; [|by apply effect_none].
    apply Hitem; [done|]. by eapply RemoveSecondaryIndexValue_word.
  - apply effect_none; try done. intros j Hne. simpl. unfold upd. by case_decide.
  - apply effect_none; try done. intros j Hne. simpl. unfold upd. by case_decide.
  - destruct (deferred_purge_totals d) as [[]]. by apply effect_none.
  - destruct (LogEntry.Enqueue _ _ _). by apply effect_none.
Qed.

Lemma put_blank_absent d ix k : table_find (trees d ix) k = None ->
  put_blank d ix k =
  set_next (set_tree (set_item d (next_item d) DataItem.empty) ix (table_insert (trees d ix) k (next_item d)))
    (next_item d + 1).
Proof. unfold put_blank. by intros ->. Qed.

Lemma sane_put_blank d ix k : sane d -> table_find (trees d ix) k = None -> sane (put_blank d ix k).
Proof.
  intros (Hw & Hok & Hf & Hg) Hk. rewrite put_blank_absent by done.
  assert (forall y, word_at (set_item d (next_item d) DataItem.empty) y =
                    if decide (y = next_item d) then TransactionId.zero else word_at d y) as E.
  { intros y. unfold word_at. rewrite item_at_set_item. by case_decide. }
  split_and!; simpl; try apply Hg.
  - intros y. change (TransactionId.tid (word_at (set_item d (next_item d) DataItem.empty) y) < 2 ^ 32 - 1).
    rewrite E. case_decide; [done|apply Hw].
  - intros y. change (TransactionId.ok (word_at (set_item d (next_item d) DataItem.empty) y) ∧
      TransactionId.epoch (word_at (set_item d (next_item d) DataItem.empty) y) <= global_epoch d).
    rewrite E. case_decide; [|apply Hok]. split; [done|]. simpl. lia.
  - intros y Hy. rewrite lookup_insert_ne by lia. apply Hf. lia.
Qed.

Lemma effect_sane me h d d' : effect me h d d' -> sane d -> no_wrap d' -> sane d'.
Proof.
  intros [d'' Hh Hn Ht Hg Hl Hc|ix k Hk|ix k x Hx Hk|x i Hx Ho Hi He] Hs Hw.
  - destruct Hs as (Hw' & Hok & Hf & Hg'). assert (forall y, word_at d'' y = word_at d y) as E.
    { intros y. unfold word_at, item_at. by rewrite Hh. }
    split_and!; [done|..]; rewrite ?Hg, ?Hh, ?Hn; try apply Hg'; [|done].
    intros y. rewrite E. apply Hok.
  - by apply sane_put_blank.
  - done.
  - apply sane_set_item; try done. specialize (Hw x). unfold word_at in Hw. rewrite item_at_set_item in Hw.
    by rewrite decide_True in Hw by done.
Qed.

Context `{!BasicTableLaws T}.

(** An item another thread owns keeps its place and its contents. *)
Lemma effect_keeps me h j hj d d' x it : effect me h d d' -> agrees j d hj -> owned h ##ₘ owned hj ->
  owned hj !! x = Some it -> heap d' !! x = Some it.
Proof.
  intros He (Hs & Ho & _) Hd Hx. destruct (Ho _ _ Hx) as [Hh Hl]. destruct Hs as (_ & _ & Hf & _).
  destruct He as [d'' E|ix k Hk|ix k y Hy Hk|y i Hy Hown Hi Hep]; [congruence|..].
  - rewrite put_blank_absent by done. simpl. rewrite lookup_insert_ne; [done|]. intros <-.
    by rewrite Hf in Hh.
  - done.
  - rewrite heap_set_item. case_decide; [subst y|done]. destruct Hown as [[i' Hown]|Hown].
    + by destruct (map_disjoint_spec (owned h) (owned hj)) as [Hsp _]; edestruct Hsp.
    + unfold word_at in Hown. rewrite (item_at_heap _ _ _ Hh) in Hown. congruence.
Qed.

Lemma effect_tree me h j hj d d' ix k x it : effect me h d d' -> agrees j d hj -> owned h ##ₘ owned hj ->
  owned hj !! x = Some it -> table_find (trees d ix) k = Some x -> table_find (trees d' ix) k = Some x.
Proof.
  intros He Hag Hd Hx Hf. destruct He as [d'' _ _ E|ix' k' Hk|ix' k' y Hy Hk|y i Hy Hown Hi Hep].
  - by rewrite E.
  - rewrite put_blank_absent by done. simpl. unfold upd. case_decide; [subst|done]. rewrite find_insert.
    case_decide; [congruence|done].
  - simpl. unfold upd. case_decide; [subst|done]. rewrite find_remove. case_decide; [subst|done].
    destruct Hy as [i Hy]. rewrite Hf in Hk. injection Hk as ->.
    by destruct (map_disjoint_spec (owned h) (owned hj)) as [Hsp _]; edestruct Hsp.
  - done.
Qed.

Lemma effect_epochs me h d d' : effect me h d d' ->
  global_epoch d' = global_epoch d ∧ (forall j, j <> me -> local_epochs d' j = local_epochs d j) ∧
  catalogue d' = catalogue d.
Proof.
  intros [d'' Hh Hn Ht Hg Hl Hc|ix k Hk|ix k x Hx Hk|x i Hx Ho Hi He]; try done.
  by rewrite put_blank_absent.
Qed.

Lemma effect_other me h j hj d d' : effect me h d d' -> no_wrap d' -> j <> me -> agrees j d hj ->
  owned h ##ₘ owned hj -> agrees j d' hj.
Proof.
  intros He Hw Hne Hag Hd. destruct (effect_epochs _ _ _ _ He) as (Hg & Hl & Hc). pose proof Hag as (Hs & Ho & Ha & Hq & Hj & Hcat).
  split_and!; rewrite ?Hg; try done.
  - by eapply effect_sane.
  - intros x it Hx. split; [|by eapply Ho]. by eapply effect_keeps.
  - intros ix k x Hin [it Hx]. eapply effect_tree; eauto.
  - intros e E. rewrite Hl by done. by apply Hj.
  - by rewrite Hc.
Qed.

(** Histories that differ in nothing [agrees] reads. *)
Lemma agrees_same me d h h' : agrees me d h -> owned h' = owned h -> acquired h' = acquired h ->
  (forall e, e ∈ attached h' -> e ∈ attached h) -> joined h' = joined h -> agrees me d h'.
Proof.
  intros (Hs & Ho & Ha & Hq & Hj & Hcat) E1 E2 E3 E4. split_and!; rewrite ?E1, ?E2, ?E4; try done.
  intros ix k x Hin. apply Ha. by apply E3.
Qed.

Lemma agrees_state me d d' h : agrees me d h -> heap d' = heap d -> next_item d' = next_item d ->
  trees d' = trees d -> global_epoch d' = global_epoch d -> local_epochs d' = local_epochs d ->
  catalogue d' = catalogue d -> agrees me d' h.
Proof.
  intros (Hs & Ho & Ha & Hq & Hj & Hcat) E1 E2 E3 E4 E5 E6.
  assert (forall x, word_at d' x = word_at d x) as E by (intros; unfold word_at, item_at; by rewrite E1).
  destruct Hs as (Hw & Hok & Hf & Hg).
  unfold agrees, sane, no_wrap. setoid_rewrite E. rewrite E1, E2, E3, E4, E5, E6. done.
Qed.

(** The owner's own update of an item. *)
Lemma agrees_set_item me d h x i it : agrees me d h -> sane (set_item d x i) -> owned h !! x = Some it ->
  is_locked (DataItem.transaction_id i) = true -> agrees me (set_item d x i) (set_owned h x i).
Proof.
  intros (Hs & Ho & Ha & Hq & Hj & Hcat) Hs' Hx Hl. split_and!; simpl; try done.
  - intros y it'. destruct (decide (y = x)) as [->|].
    + rewrite !lookup_insert_eq. by intros [= <-].
    + rewrite !lookup_insert_ne by done. apply Ho.
  - intros ix k y Hin. destruct (decide (y = x)) as [->|]; [by eauto|]. rewrite lookup_insert_ne by done. by apply Ha.
Qed.

Lemma agrees_acquire me d h x w : agrees me d h -> sane (set_item d x (DataItem.set_transaction_id (item_at d x) (lock_word w))) ->
  word_at d x = w -> is_locked w = false ->
  let d' := set_item d x (DataItem.set_transaction_id (item_at d x) (lock_word w)) in
  agrees me d' (acquire h x (item_at d x) (item_at d' x)).
Proof.
  intros (Hs & Ho & Ha & Hq & Hj & Hcat) Hs' Hw Hl d'. split_and!; simpl; try done.
  - intros y it'. unfold d'. rewrite item_at_set_item, decide_True by done.
    destruct (decide (y = x)) as [->|].
    + rewrite !lookup_insert_eq. intros [= <-]. split; [done|apply is_locked_lock_word].
    + rewrite !lookup_insert_ne by done. apply Ho.
  - intros ix k y Hin%list_elem_of_In%filter_In. destruct Hin as [Hin%list_elem_of_In Hne]. simpl in Hne.
    rewrite lookup_insert_ne by lia. by apply Ha.
  - intros y it'. destruct (decide (y = x)) as [->|].
    + rewrite lookup_insert_eq. intros [= <-]. apply Hs.
    + rewrite lookup_insert_ne by done. apply Hq.
Qed.

Lemma agrees_release me d h x w : agrees me d h -> sane (set_item d x (DataItem.set_transaction_id (item_at d x) w)) ->
  let d' := set_item d x (DataItem.set_transaction_id (item_at d x) w) in
  agrees me d' (release h x (item_at d' x)).
Proof.
  intros (Hs & Ho & Ha & Hq & Hj & Hcat) Hs' d'. split_and!; try done.
  - simpl. intros y it' [Hne Hy]%lookup_delete_Some. rewrite lookup_insert_ne by done. by apply Ho.
  - simpl. intros ix k y Hin [it' [Hne Hy]%lookup_delete_Some]. by eapply Ha.
Qed.

Lemma agrees_blank me d h ix k : agrees me d h -> agrees me (put_blank d ix k) h.
Proof.
  intros Hag. destruct (table_find (trees d ix) k) eqn:E; [unfold put_blank; by rewrite E|].
  pose proof Hag as (Hs & Ho & Ha & Hq & Hj & Hcat). rewrite put_blank_absent by done.
  split_and!; simpl; try done.
  - rewrite <- put_blank_absent by done. by apply sane_put_blank.
  - intros x it Hx. destruct (Ho _ _ Hx) as [Hh Hl]. split; [|done]. rewrite lookup_insert_ne; [done|].
    intros <-. destruct Hs as (_ & _ & Hf & _). by rewrite Hf in Hh.
  - intros ix' k' x Hin Hx. unfold upd. case_decide; [subst|by apply Ha]. rewrite find_insert.
    pose proof (Ha _ _ _ Hin Hx). case_decide; [congruence|done].
Qed.

Lemma agrees_remove me d h ix k : agrees me d h ->
  agrees me (set_tree d ix (table_remove (trees d ix) k))
    (set_attached h (List.filter (fun e => negb (bool_decide (e.1 = (ix, k)))) (attached h))).
Proof.
  intros (Hs & Ho & Ha & Hq & Hj & Hcat). split_and!; simpl; try done.
  intros ix' k' y Hin%list_elem_of_In%filter_In Hy. destruct Hin as [Hin%list_elem_of_In Hne].
  apply negb_true_iff, bool_decide_eq_false in Hne. simpl in Hne. pose proof (Ha _ _ _ Hin Hy).
  unfold upd. case_decide; [subst|done]. rewrite find_remove. case_decide; [by subst|done].
Qed.

Lemma agrees_join me d h e v : agrees me d h -> (forall e', v = Some e' -> e = e' ∧ e' <= global_epoch d) ->
  agrees me (set_local d me e) (set_joined h v).
Proof.
  intros (Hs & Ho & Ha & Hq & Hj & Hcat) Hv. split_and!; simpl; try done.
  intros e' He. unfold upd. rewrite decide_True by done. by apply Hv.
Qed.

(** A thread's access leaves its history true. *)
Lemma agrees_exec me {R} (o : Op R) d h : agrees me d h -> pre o h -> no_wrap (exec me o d).2 ->
  agrees me (exec me o d).2 (record o (exec me o d).1 d (exec me o d).2 h).
Proof.
  intros Hag Hp Hw. pose proof (effect_sane _ _ _ _ (exec_effect me o d h Hag Hp) (proj1 Hag) Hw) as Hs.
  assert (forall x i it, owned h !! x = Some it -> DataItem.transaction_id i = DataItem.transaction_id it ->
    sane (set_item d x i) -> agrees me (set_item d x i) (set_owned h x (item_at (set_item d x i) x))) as Hitem.
  { intros x i it Hx Hi Hsi. rewrite item_at_set_item, decide_True by done. eapply agrees_set_item; eauto.
    rewrite Hi. by eapply Hag. }
  assert (forall x it, owned h !! x = Some it -> item_at d x = it) as Hat.
  { intros x it Hx. apply item_at_heap. by eapply Hag. }
  assert (forall x it, owned h !! x = Some it -> agrees me d (set_owned h x (item_at d x))) as Hsame.
  { intros x it Hx. rewrite (Hat _ _ Hx). eapply agrees_same; eauto. simpl. by rewrite insert_id. }
  destruct o; simpl in *; try done; try (by eapply agrees_same; eauto);
    try (eapply agrees_state; [eapply agrees_same; eauto|..]; done).
  - destruct (table_find _ _) as [x|] eqn:E; [|by eapply agrees_same; eauto].
    case_decide as Hx; [|by eapply agrees_same; eauto]. destruct Hag as (H1 & H2 & H3 & H4 & H5 & H6).
    split_and!; simpl; try done. intros ix' k' y [Hin|[= -> -> ->]%list_elem_of_singleton]%elem_of_app; eauto.
  - by apply agrees_blank.
  - case_decide; [|done]. by apply agrees_remove.
  - destruct Hp as [Hl ->]. case_decide as E; [|done]. destruct E as [Hx E].
    by eapply agrees_acquire.
  - by apply agrees_release.
  - destruct Hp as [it Hx]. eapply Hitem; eauto. by rewrite (Hat _ _ Hx).
  - destruct Hp as [it Hx]. revert Hs. unfold update_item. destruct (DataItem.AddSecondaryIndexValue _ _) eqn:E; simpl; eauto.
    intros Hs. eapply Hitem; eauto. rewrite <- (Hat _ _ Hx). by eapply AddSecondaryIndexValue_word.
  - destruct Hp as [it Hx]. revert Hs. unfold update_item. destruct (DataItem.RemoveSecondaryIndexValue _ _) eqn:E; simpl; eauto.
    intros Hs. eapply Hitem; eauto. rewrite <- (Hat _ _ Hx). by eapply RemoveSecondaryIndexValue_word.
  - apply agrees_join; [done|]. by intros e' [= <-].
  - by apply agrees_join.
  - destruct (deferred_purge_totals d) as [[]]. by eapply agrees_state.
  - destruct (LogEntry.Enqueue _ _ _). eapply agrees_state; [eapply agrees_same; eauto|..]; done.
Qed.

(** The locks a thread holds after an access, and who else may hold one. *)
Lemma owned_after me {R} (o : Op R) d h x : agrees me d h -> pre o h ->
  is_Some (owned (record o (exec me o d).1 d (exec me o d).2 h) !! x) ->
  is_Some (owned h !! x) ∨ is_locked (word_at d x) = false.
Proof.
  intros Hag Hp. assert (forall y i, is_Some (owned h !! y) -> is_Some (<[y := i]> (owned h) !! x) ->
    is_Some (owned h !! x) ∨ is_locked (word_at d x) = false) as Hset.
  { intros y i Hy. destruct (decide (y = x)) as [->|]; [by left|]. rewrite lookup_insert_ne by done. by left. }
  destruct o; simpl in *; auto; try (by apply Hset).
  - case_match; [|auto]. case_decide; auto.
  - case_decide; auto.
  - destruct Hp as [Hl ->]. case_decide as E; [|auto]. simpl. destruct E as [_ <-].
    destruct (decide (item = x)) as [->|]; [auto|]. rewrite lookup_insert_ne by done. auto.
  - destruct (decide (item = x)) as [->|].
    + rewrite lookup_delete_eq. by intros [].
    + rewrite lookup_delete_ne by done. auto.
Qed.

Lemma locked_after me {R} (o : Op R) d h x : agrees me d h -> pre o h ->
  is_locked (word_at (exec me o d).2 x) = true ->
  is_Some (owned (record o (exec me o d).1 d (exec me o d).2 h) !! x) ∨
  is_locked (word_at d x) = true ∧ (is_Some (owned h !! x) ->
    is_Some (owned (record o (exec me o d).1 d (exec me o d).2 h) !! x)).
Proof.
  intros Hag Hp. assert (forall y i i', is_Some (owned h !! y) -> DataItem.transaction_id i = word_at d y ->
    is_locked (word_at (set_item d y i) x) = true -> is_Some (<[y := i']> (owned h) !! x) ∨
    is_locked (word_at d x) = true ∧ (is_Some (owned h !! x) -> is_Some (<[y := i']> (owned h) !! x))) as Hset.
  { intros y i i' Hy Hi. unfold word_at. rewrite item_at_set_item. destruct (decide (x = y)) as [->|].
    - left. rewrite lookup_insert_eq. eauto.
    - rewrite lookup_insert_ne by done. auto. }
  destruct o; simpl in *; auto; try (by apply Hset).
  - case_match; [|auto]. case_decide; auto.
  - destruct (table_find (trees d ix) key) eqn:E; unfold put_blank; rewrite E; [auto|].
    unfold word_at, item_at. simpl. destruct (decide (next_item d = x)) as [->|].
    + by rewrite lookup_insert_eq.
    + rewrite lookup_insert_ne by done. auto.
  - case_decide; auto.
  - destruct Hp as [Hl ->]. case_decide as E; [|auto]. simpl. unfold word_at. rewrite !item_at_set_item.
    destruct (decide (x = item)) as [->|]; [rewrite lookup_insert_eq; eauto|].
    rewrite lookup_insert_ne by done. auto.
  - destruct Hp as (b & n & Hb & Hn & _ & Hl & _). unfold word_at. rewrite item_at_set_item.
    destruct (decide (x = item)) as [->|]; [simpl; congruence|]. rewrite lookup_delete_ne by done. auto.
  - destruct Hp as [it Hx]. unfold update_item. destruct (DataItem.AddSecondaryIndexValue _ _) eqn:E; simpl.
    + apply Hset; [eauto|]. by eapply AddSecondaryIndexValue_word.
    + intros Hl. right. split; [done|]. destruct (decide (x = item)) as [->|].
      * rewrite lookup_insert_eq. eauto.
      * by rewrite lookup_insert_ne.
  - destruct Hp as [it Hx]. unfold update_item. destruct (DataItem.RemoveSecondaryIndexValue _ _) eqn:E; simpl.
    + apply Hset; [eauto|]. by eapply RemoveSecondaryIndexValue_word.
    + intros Hl. right. split; [done|]. destruct (decide (x = item)) as [->|].
      * rewrite lookup_insert_eq. eauto.
      * by rewrite lookup_insert_ne.
  - destruct (deferred_purge_totals d) as [[]]. auto.
  - destruct (LogEntry.Enqueue _ _ _). auto.
Qed.

(** An item that is not locked after an access is as it was, or was released by
    it. *)
Lemma unlocked_after me {R} (o : Op R) d h x : agrees me d h -> pre o h ->
  is_locked (word_at (exec me o d).2 x) = false ->
  item_at (exec me o d).2 x = item_at d x ∨
  ∃ before, acquired h !! x = Some before ∧ is_Some (owned h !! x) ∧
    (item_at (exec me o d).2 x = before ∨
     TransactionId.ltb (DataItem.transaction_id before) (word_at (exec me o d).2 x) = true).
Proof.
  intros Hag Hp. assert (forall y i, is_Some (owned h !! y) -> DataItem.transaction_id i = word_at d y ->
    is_locked (word_at (set_item d y i) x) = false -> item_at (set_item d y i) x = item_at d x) as Hset.
  { intros y i [it Hy] Hi. unfold word_at. rewrite item_at_set_item. case_decide; [subst|done].
    destruct Hag as (_ & Ho & _). destruct (Ho _ _ Hy) as [Hh Hl]. rewrite Hi. unfold word_at.
    rewrite (item_at_heap _ _ _ Hh). congruence. }
  destruct o; simpl in *; auto; try (left; by apply Hset).
  - unfold put_blank. destruct (table_find _ _); [auto|]. left. unfold item_at. simpl.
    destruct (decide (next_item d = x)) as [<-|]; [|by rewrite lookup_insert_ne].
    rewrite lookup_insert_eq. destruct Hag as ((_ & _ & Hf & _) & _). by rewrite Hf.
  - case_decide; auto.
  - destruct Hp as [Hl ->]. case_decide; [|auto]. simpl. unfold word_at. rewrite item_at_set_item.
    destruct (decide (x = item)); [|auto]. simpl. by rewrite is_locked_lock_word.
  - destruct Hp as (b & n & Hb & Hn & _ & _ & Hr). unfold word_at. rewrite item_at_set_item.
    destruct (decide (x = item)) as [->|]; [|auto]. intros _. right. exists b. split; [done|]. split; [eauto|].
    destruct Hag as (_ & Ho & _). destruct (Ho _ _ Hn) as [Hh _]. rewrite (item_at_heap _ _ _ Hh). destruct Hr as [->|[Hr _]]; auto.
  - unfold update_item. destruct (DataItem.AddSecondaryIndexValue _ _) eqn:E; simpl; [|auto]. left.
    apply Hset; [done|by eapply AddSecondaryIndexValue_word|done].
  - unfold update_item. destruct (DataItem.RemoveSecondaryIndexValue _ _) eqn:E; simpl; [|auto]. left.
    apply Hset; [done|by eapply RemoveSecondaryIndexValue_word|done].
  - destruct (deferred_purge_totals d) as [[]]. auto.
  - destruct (LogEntry.Enqueue _ _ _). auto.
Qed.

(** The item a lock was taken on. *)
Lemma acquired_after me {R} (o : Op R) d h x b : pre o h ->
  let h' := record o (exec me o d).1 d (exec me o d).2 h in
  is_Some (owned h' !! x) -> acquired h' !! x = Some b ->
  is_Some (owned h !! x) ∧ acquired h !! x = Some b ∨ is_locked (word_at d x) = false ∧ b = item_at d x.
Proof.
  intros Hp. assert (forall y i, is_Some (owned h !! y) -> is_Some (<[y := i]> (owned h) !! x) -> is_Some (owned h !! x)) as Hset.
  { intros y i Hy. destruct (decide (y = x)) as [->|]; [done|]. by rewrite lookup_insert_ne. }
  destruct o; simpl in *; auto; try (intros Hx Hb; left; split; [by eapply Hset|done]).
  - case_match; [case_decide|]; auto.
  - case_decide; auto.
  - destruct Hp as [Hl ->]. case_decide as E; [|auto]. simpl. destruct E as [_ <-]. destruct (decide (item = x)) as [->|].
    + rewrite !lookup_insert_eq. intros _ [= <-]. right. by split.
    + rewrite !lookup_insert_ne by done. auto.
  - destruct (decide (item = x)) as [->|]; [rewrite lookup_delete_eq; by intros []|]. rewrite lookup_delete_ne by done. auto.
Qed.

(** All of an item but its word. *)
Definition contents (it : DataItem.t) : DataItem.t := DataItem.set_transaction_id it TransactionId.zero.

(** Who changes the contents of an item, and who detaches it. *)
Lemma contents_after me {R} (o : Op R) d h x : agrees me d h -> pre o h ->
  contents (item_at (exec me o d).2 x) <> contents (item_at d x) -> is_Some (owned h !! x).
Proof.
  intros Hag Hp. assert (forall y i, is_Some (owned h !! y) -> contents (item_at (set_item d y i) x) <> contents (item_at d x) ->
    is_Some (owned h !! x)) as Hset.
  { intros y i Hy. rewrite item_at_set_item. by case_decide; subst. }
  destruct o; simpl in *; try done; try (by apply Hset).
  - unfold put_blank. destruct (table_find _ _); [done|]. unfold item_at. simpl.
    destruct (decide (next_item d = x)) as [<-|]; [|by rewrite lookup_insert_ne].
    rewrite lookup_insert_eq. destruct Hag as ((_ & _ & Hf & _) & _). by rewrite Hf.
  - by case_decide.
  - case_decide; [|done]. simpl. rewrite item_at_set_item. by case_decide; subst.
  - destruct Hp as (b & n & Hb & Hn & _). by apply Hset; eauto.
  - unfold update_item. destruct (DataItem.AddSecondaryIndexValue _ _); simpl; [|done]. by apply Hset.
  - unfold update_item. destruct (DataItem.RemoveSecondaryIndexValue _ _); simpl; [|done]. by apply Hset.
  - by destruct (deferred_purge_totals d) as [[]].
  - by destruct (LogEntry.Enqueue _ _ _).
Qed.

Lemma detached_after me {R} (o : Op R) d h ix k x : agrees me d h -> pre o h ->
  table_find (trees d ix) k = Some x -> table_find (trees (exec me o d).2 ix) k <> Some x ->
  ∃ it, owned h !! x = Some it ∧ is_tombstone ix it = true.
Proof.
  intros Hag Hp Hf. destruct o; simpl in *; try done.
  - unfold put_blank. destruct (table_find (trees d ix0) key) eqn:E; [done|]. simpl. unfold upd. case_decide; [subst|done].
    rewrite find_insert. case_decide; [subst; congruence|done].
  - case_decide as E; [|done]. simpl. unfold upd. case_decide; [subst|done]. rewrite find_remove.
    case_decide; [subst|done]. rewrite Hf in E. injection E as ->. done.
  - by case_decide.
  - unfold update_item. by destruct (DataItem.AddSecondaryIndexValue _ _).
  - unfold update_item. by destruct (DataItem.RemoveSecondaryIndexValue _ _).
  - by destruct (deferred_purge_totals d) as [[]].
  - by destruct (LogEntry.Enqueue _ _ _).
Qed.

(** ** Pools *)

Section pool.
Context {A : Type}.
Implicit Types (s : Sys A) (Qs : nat -> A -> History -> Prop).

Record inv Qs s : Prop := mkInv {
  inv_sane : sane (db s);
  inv_thread i p h : threads s !! i = Some (p, h) -> agrees i (db s) h ∧ wp i p h (Qs i);
  inv_disjoint i j p h p' h' : i <> j -> threads s !! i = Some (p, h) -> threads s !! j = Some (p', h') ->
    owned h ##ₘ owned h';
  inv_locked x : is_locked (word_at (db s) x) = true ->
    ∃ i p h, threads s !! i = Some (p, h) ∧ is_Some (owned h !! x);
}.

Lemma inv_start Qs d programs : quiescent d -> catalogue d = fixed_catalogue ->
  (forall i p, programs !! i = Some p -> wp i p no_history (Qs i)) -> inv Qs (start d programs).
Proof.
  intros [Hs Hq] Hcat Hwp. assert (forall i p h, threads (start d programs) !! i = Some (p, h) ->
    h = no_history ∧ programs !! i = Some p) as Hth.
  { intros i p h. simpl. rewrite list_lookup_fmap. by intros (p' & Hp & [= <- <-])%fmap_Some. }
  constructor; simpl.
  - done.
  - intros i p h [-> Hp]%Hth. split; [|by apply Hwp]. split_and!; try done; simpl; try done.
    by intros ix k x Hin%elem_of_nil.
  - intros i j p h p' h' _ [-> _]%Hth [-> _]%Hth. apply map_disjoint_empty_l.
  - intros x. by rewrite Hq.
Qed.

Lemma inv_access Qs s i R (o : Op R) k h : inv Qs s -> threads s !! i = Some (Vis o k, h) ->
  let r := (exec i o (db s)).1 in
  let d' := (exec i o (db s)).2 in
  no_wrap d' -> inv Qs (mkSys d' (<[i := (k r, record o r (db s) d' h)]> (threads s))).
Proof.
  intros [Hs Hth Hd Hl] Hi r d' Hw.
  destruct (Hth _ _ _ Hi) as [Hag [Hp Hk]]. pose proof (exec_effect i o _ _ Hag Hp) as He. fold d' in He.
  assert (forall j p' h', threads (mkSys d' (<[i := (k r, record o r (db s) d' h)]> (threads s))) !! j = Some (p', h') ->
    j = i ∧ p' = k r ∧ h' = record o r (db s) d' h ∨ j <> i ∧ threads s !! j = Some (p', h')) as Hcase.
  { intros j p' h' [(-> & [= <- <-] & _)|[Hne Hj]]%list_lookup_insert_Some; [by left|right; by split]. }
  assert (forall j p' h', j <> i -> threads s !! j = Some (p', h') -> owned (record o r (db s) d' h) ##ₘ owned h') as Hdis.
  { intros j p' h' Hne Hj. apply map_disjoint_spec. intros x it it' Hx Hx'.
    destruct (Hth _ _ _ Hj) as [(_ & Hoj & _) _]. destruct (Hoj _ _ Hx') as [Hh Hlk].
    destruct (owned_after i o (db s) h x Hag Hp (ex_intro _ it Hx)) as [[it0 H0]|H0].
    - by apply (proj1 (map_disjoint_spec _ _) (Hd _ _ _ _ _ _ (not_eq_sym Hne) Hi Hj) x it0 it').
    - unfold word_at in H0. rewrite (item_at_heap _ _ _ Hh) in H0. congruence. }
  constructor; simpl.
  + by eapply effect_sane.
  + intros j p' h' [(-> & -> & ->)|[Hne Hj]]%Hcase.
    * split; [by apply agrees_exec|by apply Hk].
    * destruct (Hth _ _ _ Hj) as [Haj Hwp]. split; [|done]. eapply effect_other; eauto.
  + intros j1 j2 p1 h1 p2 h2 Hne [(-> & -> & ->)|[Hn1 H1]]%Hcase [(-> & -> & ->)|[Hn2 H2]]%Hcase; [done|..].
    * by eapply Hdis.
    * symmetry. by eapply Hdis.
    * exact (Hd _ _ _ _ _ _ Hne H1 H2).
  + intros x Hx. assert (is_Some (owned (record o r (db s) d' h) !! x) -> ∃ j p' h',
      <[i := (k r, record o r (db s) d' h)]> (threads s) !! j = Some (p', h') ∧ is_Some (owned h' !! x)) as Hme.
    { intros H. exists i, (k r), (record o r (db s) d' h). split; [|done]. apply list_lookup_insert_eq.
      by eapply lookup_lt_Some. }
    destruct (locked_after i o (db s) h x Hag Hp Hx) as [H|[H Hmine]]; [by apply Hme|].
    destruct (Hl x H) as (j & p' & h' & Hj & Hx'). destruct (decide (j = i)) as [->|Hne].
    * apply Hme, Hmine. rewrite Hi in Hj. injection Hj as [= <- <-]. done.
    * exists j, p', h'. by rewrite list_lookup_insert_ne.
Qed.

Lemma inv_epoch Qs s : inv Qs s -> global_epoch (db s) + 1 < 2 ^ 32 ->
  inv Qs (mkSys (set_global (db s) (global_epoch (db s) + 1)) (threads s)).
Proof.
  intros [Hs Hth Hd Hl] Hg.
  assert (forall x, word_at (set_global (db s) (global_epoch (db s) + 1)) x = word_at (db s) x) as E by done.
  assert (sane (set_global (db s) (global_epoch (db s) + 1))) as Hs'.
  { destruct Hs as (H1 & H2 & H3 & H4). split_and!; simpl; try done; try lia. intros x. destruct (H2 x).
    change (TransactionId.ok (word_at (db s) x) ∧ TransactionId.epoch (word_at (db s) x) <= global_epoch (db s) + 1).
    split; [done|lia]. }
  constructor; simpl; try done. intros i p h Hi. destruct (Hth _ _ _ Hi) as [(_ & H2 & H3 & H4 & H5 & H6) Hwp].
  split; [|done]. split_and!; simpl; try done.
  + intros x it Hx. specialize (H4 _ _ Hx). lia.
  + intros e He. destruct (H5 _ He). split; [done|lia].
Qed.

Lemma inv_step Qs s s' : inv Qs s -> step s s' -> inv Qs s'.
Proof. intros Hi [i R o k h Ht r d' Hw|Hg]; [by apply inv_access|by apply inv_epoch]. Qed.

(** In every interleaving the invariant holds. *)
Lemma pool_sound Qs d programs s : quiescent d -> catalogue d = fixed_catalogue ->
  (forall i p, programs !! i = Some p -> wp i p no_history (Qs i)) ->
  rtc step (start d programs) s -> inv Qs s.
Proof.
  intros Hq Hcat Hwp H. revert Hwp. pose proof (fun Hwp => inv_start Qs d programs Hq Hcat Hwp) as H0. intros Hwp.
  specialize (H0 Hwp). clear Hwp. induction H as [|s1 s2 s3 H1 _ IH]; [done|]. apply IH. by eapply inv_step.
Qed.

Lemma pool_length s s' : rtc step s s' -> length (threads s') = length (threads s).
Proof.
  induction 1 as [|s1 s2 s3 H _ IH]; [done|]. rewrite IH. destruct H; [|done]. simpl. apply length_insert.
Qed.

(** ** Versions *)

(** Since item [x] was [it], it is unchanged or has a later version; a thread
    that has locked it found it so. *)
Definition same_or_later (x : Z) (it : DataItem.t) s : Prop :=
  (is_locked (word_at (db s) x) = false -> item_at (db s) x = it ∨
    TransactionId.ltb (DataItem.transaction_id it) (word_at (db s) x) = true) ∧
  forall i p h b, threads s !! i = Some (p, h) -> is_Some (owned h !! x) -> acquired h !! x = Some b ->
    b = it ∨ TransactionId.ltb (DataItem.transaction_id it) (DataItem.transaction_id b) = true.

Lemma ltb_trans a b c : TransactionId.ltb a b = true -> TransactionId.ltb b c = true -> TransactionId.ltb a c = true.
Proof. unfold TransactionId.ltb. zcase; intros; lia. Qed.

Lemma ltb_irrefl a : TransactionId.ltb a a = false.
Proof. unfold TransactionId.ltb. zcase. Qed.

Lemma same_or_later_start Qs s x it : inv Qs s -> item_at (db s) x = it -> is_locked (DataItem.transaction_id it) = false ->
  same_or_later x it s.
Proof.
  intros Hi <- Hl. split; [by left|]. intros i p h b Ht [now Hx] _.
  destruct (inv_thread _ _ Hi _ _ _ Ht) as [(_ & Ho & _) _]. destruct (Ho _ _ Hx) as [Hh Hlk].
  rewrite (item_at_heap _ _ _ Hh) in Hl. congruence.
Qed.

Lemma same_or_later_step Qs s s' x it : inv Qs s -> step s s' -> same_or_later x it s -> same_or_later x it s'.
Proof.
  intros Hi [i R o k h Ht r d' Hw|Hg] [H1 H2]; [|by split].
  destruct (inv_thread _ _ Hi _ _ _ Ht) as [Hag [Hp _]]. split; simpl.
  - intros Hl. destruct (unlocked_after i o (db s) h x Hag Hp Hl) as [E|(b & Hb & Hx & Hr)].
    + fold d' in E. rewrite E. unfold word_at in *. rewrite E in *. by apply H1.
    + fold d' in Hr. destruct (H2 _ _ _ _ Ht Hx Hb) as [->|Hlt].
      * destruct Hr; auto.
      * right. destruct Hr as [E|E]; [unfold word_at; by rewrite E|by eapply ltb_trans].
  - intros j p' h' b [(-> & [= <- <-] & _)|[Hne Hj]]%list_lookup_insert_Some Hx Hb; [|by eapply H2].
    destruct (acquired_after j o (db s) h x b Hp Hx Hb) as [[Hx' Hb']|[Hl ->]]; [by eapply H2|].
    apply H1, Hl.
Qed.

(** Two states in which an item is unlocked with the same version agree on the
    item. *)
Lemma versions_name_contents Qs s s' x : inv Qs s -> rtc step s s' ->
  is_locked (word_at (db s) x) = false -> word_at (db s') x = word_at (db s) x -> item_at (db s') x = item_at (db s) x.
Proof.
  intros Hi Hr Hl Hw. assert (same_or_later x (item_at (db s) x) s') as [H _].
  { assert (same_or_later x (item_at (db s) x) s) as H0 by (by eapply same_or_later_start).
    revert Hi H0. generalize (item_at (db s) x). clear Hl Hw. induction Hr as [|s1 s2 s3 H _ IH]; [done|].
    intros it Hi H0. apply IH; [by eapply inv_step|by eapply same_or_later_step]. }
  destruct H as [E|E]; [by rewrite Hw|done|]. fold (word_at (db s) x) in E. rewrite Hw, ltb_irrefl in E. done.
Qed.

End pool.

End logic.

Arguments mkSys {T A} db threads.
Arguments db {T A} s.
Arguments threads {T A} s.
