(* ===== verification/StatelessCommit.v ===== *)
(** * What a stateless commit does, among others (src/src/stateless/commit.cpp)

    The specification of [Commit] and of the reaper in the logic of
    StatelessLogic.v; StatelessPool.v applies them to pools of calls. *)

From S2P Require Import Prelude PackedKeys Types DataItem LogReplay Stateless StatelessLogic.
Import PackedPrimaryKeys.

(** ** Programs that only look *)

Definition passive_op {R} (o : Op R) : Prop :=
  match o with
  | GetTable _ | GetSecondaryIndex _ _ | find_unlocked _ _ | find_insert_blank _ _ | scan_step _ _ _ _
  | load_tid _ | IsPrimaryInitialized _ | IsInitialized _ | load_primary_keys _ | copy_row _ | copy_item _
  | GetMyThreadLocalEpoch | GetCommitDurability_is_Sync | AwaitCommitDurability _ _ => True
  | _ => False
  end.

Fixpoint passive {A} (p : Prog A) : Prop :=
  match p with
  | Vis o k => passive_op o ∧ forall r, passive (k r)
  | _ => True
  end.

(** The answers an access can give. *)
Definition possible {cat : FixedCatalogue} {R} (o : Op R) : R -> Prop :=
  match o in Op R return R -> Prop with
  | GetTable t => fun r => r = bool_decide (is_Some (fixed_catalogue !! t))
  | _ => fun _ => True
  end.

(** Every result the program can return, whatever its accesses give. *)
Fixpoint all_ret {cat : FixedCatalogue} {A} (p : Prog A) (Q : A -> Prop) : Prop :=
  match p with
  | Ret a => Q a
  | Vis o k => forall r, possible o r -> all_ret (k r) Q
  | _ => True
  end.

Lemma passive_bind {A B} (p : Prog A) (k : A -> Prog B) :
  passive p -> (forall a, passive (k a)) -> passive (bind p k).
Proof. intros Hp Hk. induction p as [| | | |R o c IH]; simpl in *; auto. destruct Hp. auto. Qed.

Lemma all_ret_bind {cat : FixedCatalogue} {A B} (p : Prog A) (k : A -> Prog B) (P : A -> Prop) Q :
  all_ret p P -> (forall a, P a -> all_ret (k a) Q) -> all_ret (bind p k) Q.
Proof. intros Hp Hk. induction p as [| | | |R o c IH]; simpl in *; auto. Qed.

Lemma all_ret_any {cat : FixedCatalogue} {A} (p : Prog A) : all_ret p (fun _ => True).
Proof. induction p; simpl; auto. Qed.

Create HintDb passive discriminated.
#[export] Hint Extern 1 (passive (Ret _)) => exact I : passive.
#[export] Hint Extern 1 (passive Spinning) => exact I : passive.
#[export] Hint Extern 1 (passive (access _)) => split; [exact I|intros; exact I] : passive.
#[export] Hint Extern 1 (passive (Throw _)) => exact I : passive.
#[export] Hint Extern 1 (passive AssertionFailed) => exact I : passive.

(** Splits a program into its accesses and branches. *)
Ltac passive_tac :=
  repeat match goal with
    | |- passive (bind _ _) => apply passive_bind; [|intros ?]
    | |- passive (match ?x with _ => _ end) => destruct x
    | |- passive (let '(_, _) := ?x in _) => destruct x
    | |- _ => solve [auto with passive]
    end.

Section passive.
Context (fuel : nat) (assertions : bool).

Lemma passive_lift {A} (m : outcome A) : passive (lift m).
Proof. by destruct m. Qed.

Lemma passive_scan_loop {S} n reverse ix k emit (f : bytestring -> Z -> S -> Prog (bool * S)) s :
  (forall k x s, passive (f k x s)) -> passive (scan_loop n reverse ix k emit f s).
Proof.
  intros Hf. revert k emit s. induction n as [|n IH]; intros k emit s; [done|]. simpl.
  split; [done|]. intros [[k' x]|]; [|done]. apply passive_bind; [apply Hf|]. intros [[] s']; [done|apply IH].
Qed.

Lemma passive_scan_range {S} reverse ix b e (f : bytestring -> Z -> S -> Prog (bool * S)) s :
  (forall k x s, passive (f k x s)) -> passive (scan_range fuel reverse ix b e f s).
Proof.
  intros Hf. destruct reverse; apply passive_scan_loop; intros; case_match; auto; done.
Qed.

Lemma passive_GetOrInsert ix k : passive (GetOrInsert assertions ix k).
Proof. unfold GetOrInsert, assert_item. passive_tac. Qed.

Lemma passive_StableReadPrimaryKeys x : passive (StableReadPrimaryKeys fuel x).
Proof.
  unfold StableReadPrimaryKeys. induction fuel as [|n IH]; cbn [StableReadPrimaryKeys_loop]; passive_tac.
Qed.

Lemma passive_GetOrInsertForWrite ix k : passive (GetOrInsertForWrite fuel assertions ix k).
Proof.
  unfold GetOrInsertForWrite, assert_item. passive_tac; apply passive_StableReadPrimaryKeys.
Qed.

Lemma passive_resolve_reads l : passive (resolve_reads l).
Proof. induction l; cbn [resolve_reads]; passive_tac. Qed.

Lemma passive_resolve_writes b live l : passive (resolve_writes assertions b live l).
Proof.
  revert live. induction l; intros live; cbn [resolve_writes]; passive_tac. apply passive_GetOrInsert.
Qed.

Lemma passive_resolve_si_ops adds l : passive (resolve_si_ops fuel assertions adds l).
Proof.
  revert adds. induction l; intros adds; cbn [resolve_si_ops]; cbv zeta; passive_tac;
    auto using passive_GetOrInsert, passive_GetOrInsertForWrite.
Qed.

Lemma passive_resolve req : passive (resolve fuel assertions req).
Proof.
  unfold resolve. passive_tac; auto using passive_resolve_reads, passive_resolve_writes, passive_resolve_si_ops.
Qed.

Lemma passive_first_failure {X} (f : X -> Prog (option AbortReason)) l :
  (forall x, passive (f x)) -> passive (first_failure f l).
Proof. intros Hf. induction l; cbn [first_failure]; passive_tac; auto. Qed.

Lemma passive_until {X S} (f : X -> S -> Prog (bool * S)) l s :
  (forall x s, passive (f x s)) -> passive (until f l s).
Proof. intros Hf. revert s. induction l; intros s; cbn [until]; passive_tac; auto. Qed.

Lemma passive_validate_read ls r : passive (validate_read ls r).
Proof. unfold validate_read. cbv zeta. passive_tac. Qed.

Lemma passive_validate_range ls r : passive (validate_range fuel ls r).
Proof.
  unfold validate_range, validate_primary_key_list, validate_secondary_key_list.
  passive_tac; apply passive_scan_range; intros.
  - unfold collect_key, locked_by_another. passive_tac.
  - unfold collect_secondary_key. passive_tac. apply passive_until. intros. unfold collect_base_row, locked_by_another.
    passive_tac.
Qed.

Lemma passive_validate_insert w : passive (validate_insert w).
Proof. unfold validate_insert. passive_tac. Qed.

Lemma passive_unique_recheck m ops : passive (unique_recheck m ops).
Proof.
  revert m. induction ops as [|o l IH]; intros m; cbn [unique_recheck]; cbv zeta; passive_tac; auto using passive_lift.
Qed.

Lemma passive_validate req r ls : passive (validate fuel req r ls).
Proof.
  unfold validate. passive_tac; auto using passive_first_failure, passive_validate_read, passive_validate_range,
    passive_validate_insert, passive_unique_recheck.
Qed.

Lemma passive_lock_target_attached targets x : passive (lock_target_attached targets x).
Proof. induction targets; cbn [lock_target_attached]; passive_tac. Qed.

Lemma passive_si_tombstones os m : passive (si_tombstones os m).
Proof. revert m. induction os; intros m; cbn [si_tombstones]; passive_tac; auto. Qed.

End passive.

(** ** What Resolve returns *)

Definition write_matches (w : ExternalWriteEntry) (rw : ResolvedWrite) : Prop :=
  rw_table rw = write_table w ∧ rw_key rw = write_key w ∧ rw_value rw = write_value w ∧
  rw_is_delete rw = write_is_delete w.
Definition op_matches (o : ExternalSecondaryIndexEntry) (ro : ResolvedSecondaryIndexOp) : Prop :=
  rs_table ro = si_table o ∧ rs_index ro = si_index o ∧ rs_secondary_key ro = si_secondary_key o ∧
  rs_primary_key ro = si_primary_key o ∧ rs_is_delete ro = si_is_delete o.

(** An insertion into a key that no earlier entry of the request names is
    checked against the committed row; otherwise the earlier entries have
    deleted the key. *)
Fixpoint inserts_checked (live : gmap bytestring bool) (ws : list ExternalWriteEntry) (rws : list ResolvedWrite) : Prop :=
  match ws, rws with
  | w :: ws', rw :: rws' =>
      (write_is_insert w = true ->
       match live !! request_key w with None => check_committed_row rw = true | Some l => l = false end) ∧
      inserts_checked (<[request_key w := negb (write_is_delete w)]> live) ws' rws'
  | _, _ => True
  end.

Definition read_entry (r : ExternalReadEntry) : ValidationEntry :=
  mkValidation (read_table r) (read_key r) (TransactionId.UnpackTransactionId (read_tid r)) (read_found r).

(** Where a read goes: to the validation, or nowhere when its table does not
    exist and it has found nothing. *)
Definition read_resolved {cat : FixedCatalogue} (entries : list ValidationEntry) (rd : ExternalReadEntry) : Prop :=
  match fixed_catalogue !! read_table rd with
  | Some _ => read_entry rd ∈ entries
  | None => read_found rd = false ∧ read_tid rd = 0
  end.

Record resolves {cat : FixedCatalogue} (req : Request) (r : Resolved) : Prop := mkResolves {
  resolves_reads rd : rd ∈ reads req -> read_resolved (validation_entries r) rd;
  resolves_writes : Forall2 write_matches (writes req) (resolved_writes r);
  resolves_inserts : inserts_checked ∅ (writes req) (resolved_writes r);
  resolves_ops : Forall2 op_matches (secondary_index_ops req) (resolved_si_ops r);
}.

Section resolve.
Context {cat : FixedCatalogue} (fuel : nat) (assertions : bool).

Lemma all_ret_mono {A} (p : Prog A) (P Q : A -> Prop) : (forall a, P a -> Q a) -> all_ret p P -> all_ret p Q.
Proof. intros H. induction p; simpl; auto. Qed.

Lemma all_ret_access {R B} (o : Op R) (k : R -> Prog B) Q :
  (forall r, possible o r -> all_ret (k r) Q) -> all_ret (bind (access o) k) Q.
Proof. done. Qed.

Lemma resolve_reads_ret l : all_ret (resolve_reads l) (fun res => forall entries, res = inr entries ->
  forall rd, rd ∈ l -> read_resolved entries rd).
Proof.
  induction l as [|rd l IH]; cbn [resolve_reads].
  { intros entries _ rd Hrd. by apply elem_of_nil in Hrd. }
  assert (forall v entries rd', read_resolved entries rd' -> read_resolved (v :: entries) rd') as Hmore.
  { intros v entries rd'. unfold read_resolved. destruct (_ !! _); [by right|done]. }
  apply all_ret_access. unfold possible. intros b ->. case_bool_decide as Htab.
  - apply all_ret_access. intros _ _. eapply all_ret_bind; [exact IH|]. intros [reason|entries] H; [by intros e [=]|].
    intros e [= <-] rd' [->|Hrd]%elem_of_cons; [|apply Hmore; by apply (H _ eq_refl)].
    unfold read_resolved. destruct Htab as [? ->]. by left.
  - destruct (read_found rd) eqn:Ef; simpl; [by intros e [=]|]. destruct (Z.eqb_spec (read_tid rd) 0); simpl; [|by intros e' [=]].
    eapply all_ret_mono; [|exact IH]. intros res H e' E rd' [->|Hrd]%elem_of_cons; [|by eapply H].
    unfold read_resolved. by rewrite (proj2 (eq_None_not_Some _) Htab).
Qed.

Lemma resolve_writes_ret b live l : all_ret (resolve_writes assertions b live l) (fun res => forall rws, res = inr rws ->
  Forall2 write_matches l rws ∧ (b = true -> inserts_checked live l rws)).
Proof.
  revert live. induction l as [|w l IH]; intros live; cbn [resolve_writes].
  { intros rws [= <-]. by split. }
  apply all_ret_access. intros [|] _; [|by intros rws [=]]. eapply all_ret_bind; [apply all_ret_any|]. intros [x|] _; [|by intros rws [=]].
  destruct (insert_check b live w) as [refused check] eqn:Ec. destruct refused; [by intros rws [=]|].
  eapply all_ret_bind; [apply IH|]. intros [reason|rws] H; [by intros rws [=]|]. intros rws' [= <-].
  destruct (H _ eq_refl) as [H1 H2]. split; [constructor; [done|done]|]. intros ->. split; [|by apply H2].
  intros Hi. unfold insert_check in Ec. rewrite Hi in Ec. simpl in Ec. destruct (live !! request_key w); by simplify_eq.
Qed.

Lemma resolve_si_ops_ret adds l : all_ret (resolve_si_ops fuel assertions adds l) (fun res => forall ros, res = inr ros ->
  Forall2 op_matches l ros).
Proof.
  revert adds. induction l as [|o l IH]; intros adds; cbn [resolve_si_ops].
  { by intros ros [= <-]. }
  apply all_ret_access. intros [|] _; [|by intros rws [=]]. apply all_ret_access.
  intros [unique|] _; [|by intros rws [=]]. cbv zeta.
  case_match; [by intros rws [=]|]. eapply all_ret_bind; [apply all_ret_any|]. intros [x|] _; [|by intros rws [=]].
  eapply all_ret_bind; [apply IH|]. intros [reason|ros] H'; [by intros rws [=]|]. intros ros' [= <-].
  constructor; [done|by apply H'].
Qed.

Lemma inserts_none live ws rws : existsb write_is_insert ws = false -> inserts_checked live ws rws.
Proof.
  revert live rws. induction ws as [|w ws IH]; intros live [|rw rws]; simpl; try done.
  intros [H1 H2]%orb_false_iff. split; [congruence|by apply IH].
Qed.

Lemma resolve_ret req : all_ret (resolve fuel assertions req) (fun res => forall r, res = inr r -> resolves req r).
Proof.
  unfold resolve. eapply all_ret_bind; [apply resolve_reads_ret|]. intros [reason|entries] Hr; [by intros r [=]|].
  eapply all_ret_bind; [apply resolve_writes_ret|]. intros [reason|rws] Hw; [by intros r [=]|].
  eapply all_ret_bind; [apply resolve_si_ops_ret|]. intros [reason|ros] Ho; [by intros r [=]|]. intros r [= <-].
  destruct (Hw _ eq_refl) as [H1 H2]. constructor; simpl; auto.
  destruct (existsb write_is_insert (writes req)) eqn:E; [by apply H2|by apply inserts_none].
Qed.

End resolve.

(** ** The items to lock *)

Lemma elem_of_insert_item x l y : y ∈ insert_item x l <-> y = x ∨ y ∈ l.
Proof.
  induction l as [|z l IH]; simpl; [set_solver|]. destruct (z <? x); rewrite ?elem_of_cons, ?IH; naive_solver.
Qed.

Lemma elem_of_sort_items l y : y ∈ sort_items l <-> y ∈ l.
Proof. induction l as [|x l IH]; simpl; [done|]. by rewrite elem_of_insert_item, IH, elem_of_cons. Qed.

Lemma elem_of_unique_items l y : y ∈ unique_items l <-> y ∈ l.
Proof.
  induction l as [|x l IH]; simpl; [done|]. rewrite !elem_of_cons, <- IH. destruct (unique_items l) as [|z r]; [done|].
  destruct (Z.eqb_spec x z); [subst|]; set_solver.
Qed.

Lemma insert_item_sorted x l : StronglySorted Z.le l -> StronglySorted Z.le (insert_item x l).
Proof.
  induction 1 as [|y l Hl IH Hy]; simpl; [repeat constructor|]. destruct (Z.ltb_spec y x); constructor; try done.
  - apply Forall_forall. intros z [->|Hz]%elem_of_insert_item; [lia|]. by apply (proj1 (Forall_forall _ _) Hy).
  - by constructor.
  - constructor; [lia|]. eapply Forall_impl; [exact Hy|]. simpl. lia.
Qed.

Lemma unique_items_sorted l : StronglySorted Z.le l -> StronglySorted Z.lt (unique_items l).
Proof.
  induction 1 as [|x l Hl IH Hx]; simpl; [constructor|].
  assert (Forall (Z.le x) (unique_items l)) as Hx'.
  { apply Forall_forall. intros y Hy. rewrite elem_of_unique_items in Hy. by apply (proj1 (Forall_forall _ _) Hx). }
  destruct (unique_items l) as [|z r]; [by repeat constructor|].
  apply StronglySorted_inv in IH as [Hr Hz]. apply Forall_cons in Hx' as [Hxz _].
  destruct (Z.eqb_spec x z) as [->|]; [by constructor|]. constructor; [by constructor|].
  constructor; [lia|]. eapply Forall_impl; [exact Hz|]. simpl. lia.
Qed.

(** The locks are taken in the order of the addresses, each once. *)
Lemma lock_items_sorted targets : StronglySorted Z.lt (lock_items targets).
Proof.
  apply unique_items_sorted. induction (map target_item targets); simpl; [constructor|by apply insert_item_sorted].
Qed.

Lemma lock_items_nodup targets : NoDup (lock_items targets).
Proof.
  induction (lock_items_sorted targets) as [|x l Hl IH Hx]; constructor; [|done]. intros Hin.
  pose proof (proj1 (Forall_forall _ _) Hx _ Hin). lia.
Qed.

Lemma elem_of_lock_items targets x : x ∈ lock_items targets <-> ∃ t, t ∈ targets ∧ target_item t = x.
Proof.
  unfold lock_items. rewrite elem_of_unique_items, elem_of_sort_items, list_elem_of_fmap. naive_solver.
Qed.

(** ** Looking leaves the history as it is, but for what was seen *)

Definition extends (h h' : History) : Prop :=
  owned h' = owned h ∧ acquired h' = acquired h ∧ published h' = published h ∧ joined h' = joined h ∧
  schema_held h' = schema_held h ∧ logged h' = logged h ∧ queued h' = queued h ∧
  attached h ⊆ attached h' ∧ observed h ⊆ observed h'.

#[global] Instance extends_preorder : PreOrder extends.
Proof.
  split.
  - intros h. split_and!; done.
  - intros h1 h2 h3 (?&?&?&?&?&?&?&?&?) (?&?&?&?&?&?&?&?&?). split_and!; try congruence; by etransitivity.
Qed.

Lemma extends_observe h ob : extends h (observe h ob).
Proof. split_and!; try done. simpl. set_solver. Qed.

Section specs.
Context {T : Type} `{!BasicTable T} {cat : FixedCatalogue}.
Abbreviation wp := (wp (T := T)).

Lemma wp_and {A} me (p : Prog A) h (Q1 Q2 : A -> History -> Prop) :
  wp me p h Q1 -> wp me p h Q2 -> wp me p h (fun a h' => Q1 a h' ∧ Q2 a h').
Proof.
  revert h. induction p as [a| | | |R o k IH]; intros h; simpl; auto.
  intros [Hp H1] [_ H2]. split; [done|]. intros d Hd. apply IH; auto.
Qed.

Lemma wp_ret {A} me (a : A) h (Q : A -> History -> Prop) : Q a h -> wp me (Ret a) h Q.
Proof. done. Qed.

Lemma exec_possible {R} me (o : Op R) d h : agrees me d h -> possible o (exec me o d).1.
Proof. intros (_ & _ & _ & _ & _ & Hcat). destruct o; try done. cbn. by rewrite Hcat. Qed.

Lemma wp_all_ret {A} me (p : Prog A) h Q (P : A -> Prop) :
  all_ret p P -> wp me p h Q -> wp me p h (fun a h' => P a ∧ Q a h').
Proof.
  revert h. induction p as [a| | | |R o k IH]; intros h Hp; simpl in *; auto.
  intros [Hpre H]. split; [done|]. intros d Hd. apply IH; [|by apply H]. apply Hp. by eapply exec_possible.
Qed.

Lemma passive_record {R} (o : Op R) r (d d' : Db (T := T)) h : passive_op o -> extends h (record o r d d' h).
Proof.
  intros Ho. destruct o; try done; simpl.
  - assert (extends h (observe h (Found ix key r))) as He.
    { apply extends_observe. }
    destruct r as [x|]; [|done]. case_decide; [|done]. etransitivity; [done|]. split_and!; try done. simpl. set_solver.
  - apply extends_observe.
  - apply extends_observe.
Qed.

Lemma passive_pre {R} (o : Op R) h : passive_op o -> pre o h.
Proof. by destruct o. Qed.

Lemma passive_wp {A} me (p : Prog A) h : passive p -> wp me p h (fun _ => extends h).
Proof.
  revert h. induction p as [a| | | |R o k IH]; intros h Hp; simpl in *; try done.
  destruct Hp as [Ho Hk]. split; [by apply passive_pre|]. intros d Hd.
  eapply wp_mono; [|by apply IH]. intros a h' H. etransitivity; [|exact H]. by apply passive_record.
Qed.

(** ** Phase 1 *)

(** [h'] is [h] after the lock of an item that was [it]. *)
Definition locked_version (it : DataItem.t) : DataItem.t :=
  DataItem.set_transaction_id it (lock_word (DataItem.transaction_id it)).

Lemma wp_lock_item me n x h :
  wp me (lock_item n x) h (fun l h' => ∃ h1 it, extends h h1 ∧
    TransactionId.ok (DataItem.transaction_id it) ∧ is_locked (DataItem.transaction_id it) = false ∧
    l = mkLocked x (DataItem.transaction_id it) (lock_word (DataItem.transaction_id it)) ∧
    h' = acquire h1 x it (locked_version it)).
Proof.
  revert h. induction n as [|n IH]; intros h; [done|]. cbn [lock_item]. apply wp_bind, wp_access; [done|].
  intros d Hd. cbn [exec record fst snd]. destruct (is_locked (word_at d x)) eqn:El.
  - eapply wp_mono; [|apply IH]. intros l h' (h1 & it & He & H). exists h1, it. split; [|done].
    etransitivity; [apply extends_observe|done].
  - apply wp_bind, wp_access; [done|]. intros d' Hd'. cbn [exec record fst snd]. case_decide as Ew; simpl.
    + exists (observe h (Loaded x (word_at d x))), (item_at d' x).
      replace (DataItem.transaction_id (item_at d' x)) with (word_at d x) by (symmetry; apply Ew).
      split; [apply extends_observe|]. split; [apply Hd|]. split_and!; try done.
      rewrite item_at_set_item, decide_True by done. unfold locked_version. destruct Ew as [_ <-]. done.
    + eapply wp_mono; [|apply IH]. intros l h' (h1 & it & He & H). exists h1, it. split; [|done].
      etransitivity; [apply extends_observe|done].
Qed.

Definition target_entry (t : LockTarget) : IndexRef * bytestring * Z :=
  (target_index t, target_key t, target_item t).

Lemma wp_lock_target_attached me targets x h : is_Some (owned h !! x) ->
  wp me (lock_target_attached targets x) h (fun b h' => extends h h' ∧
    (b = true -> forall t, t ∈ targets -> target_item t = x -> target_entry t ∈ attached h')).
Proof.
  revert h. induction targets as [|t targets IH]; intros h Hx; cbn [lock_target_attached].
  { split; [done|]. by intros _ t Ht%elem_of_nil. }
  destruct (Z.eqb_spec (target_item t) x) as [Ht|Ht]; simpl negb.
  - apply wp_bind, wp_access; [done|]. intros d Hd. cbn [exec fst snd].
    assert (extends h (record (find_unlocked (target_index t) (target_key t))
      (table_find (trees d (target_index t)) (target_key t)) d d h)) as He by (by apply passive_record).
    case_bool_decide as Ef; [|done]. eapply wp_mono; [|apply IH].
    + intros b h' [He' Hb]. split; [by etransitivity|]. intros -> t' [->|Ht']%elem_of_cons Hi; [|by apply Hb].
      destruct He' as (_ & _ & _ & _ & _ & _ & _ & Hat & _). apply Hat. simpl. rewrite Ef. simpl.
      rewrite decide_True by done. simpl. unfold target_entry. rewrite Hi. set_solver.
    + destruct He as [-> _]. done.
  - eapply wp_mono; [|by apply IH]. intros b h' [He Hb]. split; [done|].
    intros Hb' t' [->|Ht']%elem_of_cons Hi; [done|by apply Hb].
Qed.

(** The thread holds exactly the locks of [ls], on items as it found them. *)
Record holds (h : History) (ls : list LockedTid) : Prop := mkHolds {
  holds_owned : owned h = locked_version <$> acquired h;
  holds_dom x : is_Some (acquired h !! x) <-> x ∈ map locked_item ls;
  holds_tid l : l ∈ ls -> ∃ it, acquired h !! locked_item l = Some it ∧
    before_lock l = DataItem.transaction_id it ∧ locked l = lock_word (DataItem.transaction_id it);
  holds_word x it : acquired h !! x = Some it ->
    TransactionId.ok (DataItem.transaction_id it) ∧ is_locked (DataItem.transaction_id it) = false;
  holds_published : published h = ∅;
  holds_nodup : NoDup (map locked_item ls);
}.

Definition still (h h' : History) : Prop :=
  joined h' = joined h ∧ schema_held h' = schema_held h ∧ logged h' = logged h ∧ queued h' = queued h.

#[local] Instance still_preorder : PreOrder still.
Proof.
  split; [by intros h|]. intros h1 h2 h3 (?&?&?&?) (?&?&?&?). unfold still. split_and!; congruence.
Qed.

Lemma extends_still h h' : extends h h' -> still h h'.
Proof. by intros (?&?&?&?&?&?&?&?&?). Qed.

Lemma extends_holds h h' ls : extends h h' -> holds h ls -> holds h' ls.
Proof.
  intros (E1 & E2 & E3 & _) [H1 H2 H3 H4 H5 H6]. constructor; rewrite ?E1, ?E2, ?E3; auto.
Qed.

Lemma acquire_holds h ls x it : holds h ls -> x ∉ map locked_item ls ->
  TransactionId.ok (DataItem.transaction_id it) -> is_locked (DataItem.transaction_id it) = false ->
  holds (acquire h x it (locked_version it))
    (ls ++ [mkLocked x (DataItem.transaction_id it) (lock_word (DataItem.transaction_id it))]).
Proof.
  intros [H1 H2 H3 H4 H5 H6] Hx Hok Hl. constructor; simpl.
  - by rewrite H1, fmap_insert.
  - intros y. rewrite map_app, elem_of_app, <- H2. simpl. rewrite list_elem_of_singleton.
    destruct (decide (y = x)) as [->|]; [rewrite lookup_insert_eq|rewrite lookup_insert_ne by done]; naive_solver.
  - intros l [Hin| ->%list_elem_of_singleton]%elem_of_app.
    + destruct (H3 _ Hin) as (i & Hi & ?). exists i. rewrite lookup_insert_ne; [done|]. intros ->.
      apply Hx, list_elem_of_fmap. eauto.
    + exists it. simpl. by rewrite lookup_insert_eq.
  - intros y i. destruct (decide (y = x)) as [->|].
    + rewrite lookup_insert_eq. by intros [= <-].
    + rewrite lookup_insert_ne by done. apply H4.
  - rewrite H5. apply delete_empty.
  - rewrite map_app. simpl. apply NoDup_app. split_and!; [done| |apply NoDup_singleton].
    intros y Hy ->%list_elem_of_singleton. done.
Qed.

Definition all_attached (targets : list LockTarget) (ls : list LockedTid) (h : History) : Prop :=
  forall t, t ∈ targets -> target_item t ∈ map locked_item ls -> target_entry t ∈ attached h.

Lemma wp_lock_all me fuel targets items ls h : holds h ls -> NoDup (map locked_item ls ++ items) ->
  all_attached targets ls h ->
  wp me (lock_all fuel targets items ls) h (fun r h' => still h h' ∧ holds h' r.1 ∧
    (r.2 = false -> map locked_item r.1 = map locked_item ls ++ items ∧ all_attached targets r.1 h')).
Proof.
  revert ls h. induction items as [|x items IH]; intros ls h Hh Hnd Hat; cbn [lock_all].
  { split_and!; try done. intros _. by rewrite app_nil_r. }
  apply wp_bind. eapply wp_mono; [|apply wp_lock_item]. intros l h1 (h0 & it & He & Hok & Hl & -> & ->).
  assert (x ∉ map locked_item ls) as Hx.
  { apply NoDup_app in Hnd as (_ & Hnd & _). intros Hin. apply (Hnd _ Hin). by left. }
  pose proof (acquire_holds h0 ls x it (extends_holds _ _ _ He Hh) Hx Hok Hl) as Hh'.
  apply wp_bind. eapply wp_mono; [|apply wp_lock_target_attached; simpl; by rewrite lookup_insert_eq].
  intros b h2 [He2 Hb]. assert (still h h2) as Hst.
  { etransitivity; [by apply extends_still|]. exact (extends_still _ _ He2). }
  destruct b; [|split; [done|]; split; [by eapply extends_holds|done]].
  eapply wp_mono; [|apply IH; [by eapply extends_holds|..]].
  - intros r h3 (Hst3 & Hh3 & Hr). split; [by etransitivity|]. split; [done|].
    intros E. destruct (Hr E) as [-> Hat3]. split; [|done]. rewrite map_app. by rewrite <- app_assoc.
  - rewrite map_app, <- app_assoc. done.
  - intros t Ht. rewrite map_app, elem_of_app. simpl. intros [Hin|Hin%list_elem_of_singleton].
    + apply He2. simpl. apply list_elem_of_In, filter_In. split.
      * apply list_elem_of_In, He. by apply Hat.
      * simpl. apply negb_true_iff, Z.eqb_neq. congruence.
    + by apply Hb.
Qed.

(** ** Aborting *)

(** The load of the word of an item the thread owns. *)
Lemma load_owned me d h x it : agrees (T := T) me d h -> owned h !! x = Some it ->
  item_at d x = it ∧ TransactionId.tid (DataItem.transaction_id it) < 2 ^ 32 - 1.
Proof.
  intros (Hs & Ho & _) Hx. destruct (Ho _ _ Hx) as [Hh _]. apply item_at_heap in Hh as <-. split; [done|]. apply Hs.
Qed.

Lemma set_back it w : DataItem.transaction_id it = w ->
  DataItem.set_transaction_id (locked_version it) w = it.
Proof. intros <-. by destruct it. Qed.

(** The items of [todo] are still locked, the others are given back. *)
Definition half_released (todo : list Z) (acq : gmap Z DataItem.t) (h : History) : Prop :=
  acquired h = acq ∧
  forall x, owned h !! x = (if decide (x ∈ todo) then locked_version <$> acq !! x else None) ∧
            published h !! x = (if decide (x ∈ todo) then None else acq !! x).

Lemma half_released_done acq h : half_released [] acq h -> owned h = ∅ ∧ published h = acq.
Proof.
  intros [_ H]. split; apply map_eq; intros x; destruct (H x) as [H1 H2].
  - by rewrite H1, decide_False, lookup_empty by set_solver.
  - by rewrite H2, decide_False by set_solver.
Qed.

Lemma half_released_step x todo acq h it : NoDup (x :: todo) -> half_released (x :: todo) acq h ->
  acq !! x = Some it -> half_released todo acq (release h x it).
Proof.
  intros [Hx Hnd]%NoDup_cons [Ha H] Hit. split; [done|]. intros y. destruct (H y) as [H1 H2]. simpl.
  destruct (decide (y = x)) as [->|Hne].
  - rewrite lookup_delete_eq, lookup_insert_eq, !decide_False by done. done.
  - rewrite lookup_delete_ne, lookup_insert_ne by done. rewrite H1, H2.
    split; repeat case_decide; try done; exfalso; set_solver.
Qed.

Lemma wp_release_all me ls acq h : NoDup (map locked_item ls) -> half_released (map locked_item ls) acq h ->
  (forall l, l ∈ ls -> ∃ it, acq !! locked_item l = Some it ∧ TransactionId.ok (DataItem.transaction_id it) ∧
     is_locked (DataItem.transaction_id it) = false) ->
  wp me (for_each (fun l =>
    bind (access (load_tid (locked_item l))) (fun current =>
    if is_locked current then access (store_tid (locked_item l) (release_word current)) else Ret tt)) ls) h
    (fun _ h' => still h h' ∧ half_released [] acq h').
Proof.
  revert h. induction ls as [|l ls IH]; intros h Hnd Hh Hls; cbn [for_each]; [done|].
  destruct (Hls l) as (it & Hit & Hok & Hul); [by left|]. apply wp_bind, wp_bind, wp_access; [done|].
  intros d Hd. cbn [exec record fst snd]. destruct (proj2 Hh (locked_item l)) as [Ho _].
  rewrite decide_True, Hit in Ho by (by left). destruct (load_owned _ _ _ _ _ Hd Ho) as [Hat _].
  unfold word_at. rewrite Hat. simpl DataItem.transaction_id. rewrite is_locked_lock_word, release_lock_word by done.
  apply wp_access.
  { exists it, (locked_version it). simpl. destruct Hh as [-> _]. split_and!; try done; [apply Hok..|].
    left. by apply set_back. }
  intros d' Hd'. cbn [exec record fst snd]. rewrite item_at_set_item, decide_True by done.
  destruct (load_owned _ _ _ _ _ Hd' Ho) as [-> _]. rewrite set_back by done.
  eapply wp_mono; [|apply IH].
  - intros _ h' [Hst Hd0]. split; [|done]. etransitivity; [|done]. done.
  - by apply NoDup_cons in Hnd as [_ ?].
  - eapply half_released_step; try done.
  - intros l' Hl'. apply Hls. by right.
Qed.

Lemma holds_half h ls : holds h ls -> half_released (map locked_item ls) (acquired h) h.
Proof.
  intros [H1 H2 H3 H4 H5 H6]. split; [done|]. intros x. rewrite H1, H5, lookup_fmap, lookup_empty.
  specialize (H2 x). split; case_decide as Hx; try done; destruct (acquired h !! x) eqn:E; try done.
  all: exfalso; apply Hx, H2; eauto.
Qed.

(** What an aborted commit leaves behind. *)
Definition abort_post (h' : History) : Prop :=
  owned h' = ∅ ∧ published h' = acquired h' ∧ joined h' = None ∧ schema_held h' = 0 ∧ logged h' = [] ∧ queued h' = [].

Lemma wp_unlock_and_abort me ls reason h : holds h ls ->
  schema_held h = 0 -> logged h = [] -> queued h = [] ->
  wp me (unlock_and_abort (A := unit) ls reason) h (fun r h' => r = inl reason ∧ abort_post h').
Proof.
  intros Hh Hs Hlg Hq. unfold unlock_and_abort. apply wp_bind. eapply wp_mono; [|eapply wp_release_all].
  - intros _ h' [(_ & E2 & E3 & E4) Hr]. apply wp_bind, wp_access; [done|]. intros d Hd. cbn [exec record fst snd].
    split; [done|]. destruct (half_released_done _ _ Hr) as [Ho Hp], Hr as [Hacq _].
    split_and!; simpl; congruence.
  - apply Hh.
  - by apply holds_half.
  - intros l Hl. destruct (holds_tid _ _ Hh l Hl) as (it & Hit & _). exists it. split; [done|].
    by apply (holds_word _ _ Hh (locked_item l)).
Qed.

(** ** Phase 2 *)

(** The observations that make an exact read valid: the key led to a live item
    that had the captured version, when it was locked if the commit itself
    locks it; an absent key led to no item or to one that was not live. *)
Definition read_valid (v : ValidationEntry) (h : History) : Prop :=
  if val_found v then
    ∃ x, Found (Primary (val_table v)) (val_key v) (Some x) ∈ observed h ∧ Live x true ∈ observed h ∧
      match acquired h !! x with
      | Some it => DataItem.transaction_id it = captured_tid v
      | None => Loaded x (captured_tid v) ∈ observed h
      end
  else Found (Primary (val_table v)) (val_key v) None ∈ observed h ∨
       ∃ x, Found (Primary (val_table v)) (val_key v) (Some x) ∈ observed h ∧ Live x false ∈ observed h.

Lemma read_valid_later v h h' : acquired h' = acquired h -> observed h ⊆ observed h' -> read_valid v h -> read_valid v h'.
Proof.
  intros E2 Ho. unfold read_valid. rewrite E2. destruct (val_found v).
  - intros (x & H1 & H2 & H3). exists x. split_and!; [by apply Ho..|]. destruct (acquired h !! x); [done|by apply Ho].
  - intros [H|(x & H1 & H2)]; [left; by apply Ho|right; exists x; split; by apply Ho].
Qed.

Lemma read_valid_extends v h h' : extends h h' -> read_valid v h -> read_valid v h'.
Proof. intros (_ & E2 & _ & _ & _ & _ & _ & _ & Ho). by apply read_valid_later. Qed.

Lemma eqb_spec a b : TransactionId.eqb a b = true <-> a = b.
Proof.
  unfold TransactionId.eqb. rewrite andb_true_iff, !Z.eqb_eq. destruct a, b; simpl. naive_solver.
Qed.

Lemma neqb_spec a b : TransactionId.neqb a b = false <-> a = b.
Proof. unfold TransactionId.neqb. rewrite negb_false_iff. apply eqb_spec. Qed.

Lemma find_locked_spec ls x :
  match find_locked ls x with Some l => l ∈ ls ∧ locked_item l = x | None => x ∉ map locked_item ls end.
Proof.
  induction ls as [|l ls IH]; simpl; [apply not_elem_of_nil|]. destruct (Z.eqb_spec (locked_item l) x); [split; [by left|done]|].
  destruct (find_locked ls x); [naive_solver (by right)|]. rewrite not_elem_of_cons. naive_solver.
Qed.

Lemma extends_found d h ix k r : extends h (record (find_unlocked ix k) r d d h) ∧
  Found ix k r ∈ observed (record (T := T) (find_unlocked ix k) r d d h).
Proof.
  split; [by apply passive_record|]. simpl. destruct r as [x|]; [case_decide|]; simpl; set_solver.
Qed.

Lemma wp_validate_read me ls v h : holds h ls ->
  wp me (validate_read ls v) h (fun r h' => r = None -> read_valid v h').
Proof.
  intros Hh. unfold validate_read. cbv zeta. apply wp_bind, wp_access; [done|]. intros d Hd. cbn [exec fst snd].
  destruct (extends_found d h (Primary (val_table v)) (val_key v) (table_find (trees d (Primary (val_table v))) (val_key v))) as [He Hf].
  set (h1 := record _ _ _ _ _) in *. destruct (table_find _ _) as [x|].
  2: { unfold read_valid. simpl. destruct (val_found v); [done|]. by left. }
  assert (holds h1 ls) as Hh1 by (by eapply extends_holds). clearbody h1. clear He Hd.
  destruct (val_found v) eqn:Ev; simpl negb; cbv iota.
  2: { apply wp_bind, wp_access; [done|]. intros d1 Hd1. cbn [exec record fst snd]. apply wp_ret.
       destruct (DataItem.IsPrimaryInitialized _) eqn:El; [done|]. intros _. unfold read_valid. rewrite Ev. right. exists x.
       simpl. set_solver. }
  pose proof (find_locked_spec ls x) as Hfl.
  assert (match find_locked ls x with
    | Some l => ∃ it, acquired h1 !! x = Some it ∧ before_lock l = DataItem.transaction_id it
    | None => acquired h1 !! x = None end) as Hacq.
  { destruct (find_locked ls x) as [l|].
    - destruct Hfl as [Hl <-], (holds_tid _ _ Hh1 _ Hl) as (it & Hit & Hb & _). eauto.
    - destruct (acquired h1 !! x) eqn:E; [|done]. exfalso. apply Hfl, (holds_dom _ _ Hh1). by rewrite E. }
  destruct (match find_locked ls x with Some l => negb (TransactionId.eqb (before_lock l) (captured_tid v)) | None => false end) eqn:Em; [done|]. apply wp_bind, wp_access; [done|]. intros d1 Hd1. cbn [exec record fst snd].
  destruct (TransactionId.neqb _ _) eqn:En; [done|]. apply neqb_spec in En.
  apply wp_bind, wp_access; [done|]. intros d2 Hd2. cbn [exec record fst snd]. apply wp_ret.
  destruct (DataItem.IsPrimaryInitialized _) eqn:El; [|done]. intros _. unfold read_valid. rewrite Ev. exists x. simpl.
  split; [set_solver|]. split; [set_solver|]. destruct (find_locked ls x) as [l|].
  - destruct Hacq as (it & -> & Hb). apply negb_false_iff, eqb_spec in Em. congruence.
  - rewrite Hacq. rewrite En. set_solver.
Qed.

(** An insertion that decides on the committed row finds none. *)
Lemma wp_validate_insert me ls w h : holds h ls ->
  wp me (validate_insert w) h (fun r h' => r = None -> check_committed_row w = true ->
    forall it, acquired h' !! rw_item w = Some it -> DataItem.IsPrimaryInitialized it = false).
Proof.
  intros Hh. unfold validate_insert. destruct (check_committed_row w); [|by apply wp_ret].
  apply wp_bind, wp_access; [done|]. intros d Hd. cbn [exec record fst snd]. apply wp_ret.
  destruct (DataItem.IsPrimaryInitialized _) eqn:El; [done|]. intros _ _ it Hit. simpl in Hit.
  destruct (load_owned me d h (rw_item w) (locked_version it) Hd) as [Hat _].
  { by rewrite (holds_owned _ _ Hh), lookup_fmap, Hit. }
  by rewrite Hat in El.
Qed.

(** A property of an element survives what is seen later. *)
Lemma wp_first_failure {X} me ls (f : X -> Prog (option AbortReason)) (P : X -> History -> Prop) l h :
  (forall x, passive (f x)) -> (forall x h h', extends h h' -> P x h -> P x h') ->
  (forall x h, holds h ls -> wp me (f x) h (fun r h' => r = None -> P x h')) -> holds h ls ->
  wp me (first_failure f l) h (fun r h' => extends h h' ∧ (r = None -> forall x, x ∈ l -> P x h')).
Proof.
  intros Hpas Hmono Hf. revert h. induction l as [|x l IH]; intros h Hh; cbn [first_failure].
  { split; [done|]. by intros _ x Hx%elem_of_nil. }
  apply wp_bind. eapply wp_mono; [|apply wp_and; [apply passive_wp, Hpas|by apply Hf]]. intros r h1 [He Hr].
  destruct r as [reason|]; [by apply wp_ret|]. eapply wp_mono; [|apply IH; by eapply extends_holds].
  intros r h2 [He2 Hr2]. split; [by etransitivity|]. intros -> y [->|Hy]%elem_of_cons; [|by apply Hr2].
  eapply Hmono; [done|]. by apply Hr.
Qed.

(** ** Phase 3 *)

(** What the request makes of the items: rows first, then postings; a posting
    list may outgrow its size. *)
Definition install_row (w : ResolvedWrite) (it : DataItem.t) : DataItem.t :=
  DataItem.Reset it (if rw_is_delete w then None else Some (rw_value w)) TransactionId.zero.
Definition apply_writes (ws : list ResolvedWrite) (m : gmap Z DataItem.t) : gmap Z DataItem.t :=
  fold_left (fun m w => alter (install_row w) (rw_item w) m) ws m.

Definition apply_op (o : ResolvedSecondaryIndexOp) (it : DataItem.t) : outcome DataItem.t :=
  if rs_is_delete o then DataItem.RemoveSecondaryIndexValue it (rs_primary_key o)
  else DataItem.AddSecondaryIndexValue it (rs_primary_key o).
Fixpoint apply_ops (os : list ResolvedSecondaryIndexOp) (m : gmap Z DataItem.t) : option (gmap Z DataItem.t) :=
  match os with
  | [] => Some m
  | o :: os' =>
      match apply_op o <$> m !! rs_item o with
      | Some (Returns it) => apply_ops os' (<[rs_item o := it]> m)
      | _ => None
      end
  end.

Definition with_owned (h : History) (m : gmap Z DataItem.t) : History :=
  mkHistory m (acquired h) (published h) (attached h) (observed h) (joined h) (schema_held h) (logged h) (queued h).

Lemma wp_install_writes me ws h : (forall w, w ∈ ws -> is_Some (owned h !! rw_item w)) ->
  wp me (for_each install_write ws) h (fun _ h' => h' = with_owned h (apply_writes ws (owned h))).
Proof.
  revert h. induction ws as [|w ws IH]; intros h Hws; cbn [for_each]; [by destruct h|].
  destruct (Hws w) as [it Hit]; [by left|]. unfold install_write at 1. apply wp_bind, wp_access; [by eexists|].
  intros d Hd. cbn [exec record fst snd]. rewrite item_at_set_item, decide_True by done.
  destruct (load_owned _ _ _ _ _ Hd Hit) as [-> _].
  assert (<[rw_item w := install_row w it]> (owned h) = alter (install_row w) (rw_item w) (owned h)) as E.
  { apply map_eq. intros y. destruct (decide (y = rw_item w)) as [->|].
    - by rewrite lookup_insert_eq, lookup_alter_eq, Hit.
    - by rewrite lookup_insert_ne, lookup_alter_ne by done. }
  eapply wp_mono; [|apply IH].
  - intros _ h' ->. unfold with_owned. simpl. fold (install_row w it). by rewrite E.
  - intros w' Hw'. simpl. destruct (decide (rw_item w' = rw_item w)) as [->|]; [by rewrite lookup_insert_eq|].
    rewrite lookup_insert_ne by done. apply Hws. by right.
Qed.

Lemma wp_install_ops me os h : (forall o, o ∈ os -> is_Some (owned h !! rs_item o)) ->
  wp me (for_each install_si_op os) h (fun _ h' => ∃ m, apply_ops os (owned h) = Some m ∧ h' = with_owned h m).
Proof.
  revert h. induction os as [|o os IH]; intros h Hos; cbn [for_each]; [exists (owned h); by destruct h|].
  destruct (Hos o) as [it Hit]; [by left|]. unfold install_si_op at 1. apply wp_bind, wp_bind.
  assert (forall d, agrees me d h -> forall r d', update_item d (rs_item o) (apply_op o it) = (r, d') ->
    wp me (lift r) (set_owned h (rs_item o) (item_at d' (rs_item o))) (fun _ h' =>
      wp me (for_each install_si_op os) h' (fun _ h'' => ∃ m, apply_ops (o :: os) (owned h) = Some m ∧
        h'' = with_owned h m))) as Hnext.
  { intros d Hd r d'. simpl. unfold update_item. rewrite Hit. simpl.
    destruct (apply_op o it) as [it'|f]; intros [= <- <-]; [|done]. simpl.
    rewrite item_at_set_item, decide_True by done. eapply wp_mono; [|apply IH].
    - intros _ h' (m & Hm & ->). exists m. done.
    - intros o' Ho'. simpl. destruct (decide (rs_item o' = rs_item o)) as [->|]; [by rewrite lookup_insert_eq|].
      rewrite lookup_insert_ne by done. apply Hos. by right. }
  unfold apply_op in Hnext. destruct (rs_is_delete o); (apply wp_access; [by eexists|]); intros d Hd;
    cbn [exec record fst snd]; destruct (load_owned _ _ _ _ _ Hd Hit) as [-> _];
    destruct (update_item _ _ _) as [r d'] eqn:E; by eapply Hnext.
Qed.

(** The copies of owned items. *)
Lemma wp_collect_copies {X Y} me (f : X -> Z) (g : X -> DataItem.t -> Y) l h :
  (forall x, x ∈ l -> is_Some (owned h !! f x)) ->
  wp me (collect_all (fun x => bind (access (copy_item (f x))) (fun i => Ret (g x i))) l) h
    (fun r h' => h' = h ∧ r = map (fun x => g x (default DataItem.empty (owned h !! f x))) l).
Proof.
  induction l as [|x l IH]; intros Hl; cbn [collect_all]; [done|]. destruct (Hl x) as [it Hit]; [by left|].
  apply wp_bind, wp_bind, wp_access; [done|]. intros d Hd. cbn [exec record fst snd].
  destruct (load_owned _ _ _ _ _ Hd Hit) as [-> _]. apply wp_bind.
  eapply wp_mono; [|apply IH; intros; apply Hl; by right]. intros ys h' [-> ->]. split; [done|]. simpl. by rewrite Hit.
Qed.

(** The snapshots of the log set, given the items. *)
Definition log_of (r : Resolved) (m : gmap Z DataItem.t) : list Snapshot.t :=
  map (fun w => write_snapshot w (default DataItem.empty (m !! rw_item w))) (resolved_writes r) ++
  map (fun o => si_snapshot o (default DataItem.empty (m !! rs_item o))) (resolved_si_ops r).

(** Every item the request names is among those of [m]. *)
Definition covers {A} (m : gmap Z A) (r : Resolved) : Prop :=
  (forall w, w ∈ resolved_writes r -> is_Some (m !! rw_item w)) ∧
  (forall o, o ∈ resolved_si_ops r -> is_Some (m !! rs_item o)).

Lemma wp_log_snapshot me logging r h : covers (owned h) r ->
  wp me (log_snapshot logging r) h (fun l h' => h' = h ∧ l = if logging then log_of r (owned h) else []).
Proof.
  intros [Hw Ho]. unfold log_snapshot. destruct logging; [|done]. apply wp_bind.
  eapply wp_mono; [|apply (wp_collect_copies me rw_item write_snapshot); done]. intros ws h1 [-> ->]. apply wp_bind.
  eapply wp_mono; [|apply (wp_collect_copies me rs_item si_snapshot); done]. intros os h2 [-> ->]. done.
Qed.

(** The item a commit of epoch [e] publishes. *)
Definition finish (e : Z) (it : DataItem.t) : DataItem.t :=
  DataItem.set_transaction_id it (unlocked_word e (DataItem.transaction_id it)).

Lemma unlocked_word_later e w : TransactionId.ok w -> is_locked w = false -> is_u32 e ->
  TransactionId.epoch w <= e -> TransactionId.tid (lock_word w) < 2 ^ 32 - 1 ->
  let u := unlocked_word e (lock_word w) in
  TransactionId.ok u ∧ is_locked u = false ∧ TransactionId.ltb w u = true ∧ TransactionId.epoch u = e.
Proof.
  intros [Hew Htw] Hl He Hle Hb. unfold unlocked_word. rewrite lock_word_tid in * by done. simpl.
  assert (Z.odd (TransactionId.tid w) = false) as Hodd by (by rewrite <- is_locked_odd). unfold is_u32 in *.
  destruct (Z.eqb_spec (TransactionId.epoch w) e) as [Ee|Ee].
  - rewrite u32_small by (unfold is_u32; lia). split; [split; unfold is_u32; simpl; lia|]. split; [|split; [unfold TransactionId.ltb; simpl; zcase|done]].
    rewrite is_locked_odd. cbn [TransactionId.tid]. by rewrite <- Z.add_assoc, Z.odd_add, Hodd.
  - split; [done|]. split; [done|]. split; [unfold TransactionId.ltb; simpl; zcase|done].
Qed.

Lemma ltb_nonempty w u : TransactionId.ok w -> TransactionId.ltb w u = true -> TransactionId.IsEmpty u = false.
Proof.
  unfold TransactionId.ok, is_u32, TransactionId.ltb, TransactionId.IsEmpty. intros [He Ht]. zcase; simpl; intros; lia.
Qed.

(** The items of [todo] are still locked, as [m] has them; the others are
    published. *)
Definition half_published (e : Z) (todo : list Z) (m : gmap Z DataItem.t) (h : History) : Prop :=
  forall x, owned h !! x = (if decide (x ∈ todo) then m !! x else None) ∧
            published h !! x = (if decide (x ∈ todo) then None else finish e <$> m !! x).

Lemma half_published_step e x todo m h it : NoDup (x :: todo) -> half_published e (x :: todo) m h ->
  m !! x = Some it -> half_published e todo m (release h x (finish e it)).
Proof.
  intros [Hx Hnd]%NoDup_cons H Hit y. destruct (H y) as [H1 H2]. simpl. destruct (decide (y = x)) as [->|Hne].
  - rewrite lookup_delete_eq, lookup_insert_eq, !decide_False, Hit by done. done.
  - rewrite lookup_delete_ne, lookup_insert_ne by done. rewrite H1, H2.
    split; repeat case_decide; try done; exfalso; set_solver.
Qed.

(** An item between its lock and its publication: its word is locked over the
    one it had. *)
Definition in_commit (e : Z) (acq m : gmap Z DataItem.t) : Prop :=
  forall x it, m !! x = Some it -> ∃ before, acq !! x = Some before ∧
    DataItem.transaction_id it = lock_word (DataItem.transaction_id before) ∧
    TransactionId.ok (DataItem.transaction_id before) ∧ is_locked (DataItem.transaction_id before) = false ∧
    TransactionId.epoch (DataItem.transaction_id before) <= e.

Lemma wp_publish_all me e items m h : is_u32 e -> joined h = Some e -> NoDup items -> in_commit e (acquired h) m ->
  (forall x, x ∈ items -> is_Some (m !! x)) -> half_published e items m h ->
  wp me (publish_all e items) h (fun u h' => still h h' ∧ acquired h' = acquired h ∧ attached h' = attached h ∧
    observed h ⊆ observed h' ∧ half_published e [] m h' ∧
    (forall x, u !! x = if decide (x ∈ items)
                        then (fun it => unlocked_word e (DataItem.transaction_id it)) <$> m !! x else None) ∧
    (forall x v, u !! x = Some v -> TransactionId.IsEmpty v = false)).
Proof.
  intros He. revert h. induction items as [|x items IH]; intros h Hj Hnd Hin Hm Hh; cbn [publish_all].
  { by split_and!. }
  destruct (Hm x) as [it Hit]; [by left|]. destruct (Hin _ _ Hit) as (b & Hb & Hw & Hok & Hl & Hle).
  destruct (Hh x) as [Ho _]. rewrite decide_True, Hit in Ho by (by left).
  apply wp_bind, wp_access; [done|]. intros d Hd. cbn [exec record fst snd]. cbv zeta.
  destruct (load_owned _ _ _ _ _ Hd Ho) as [Hat Hb32]. unfold word_at. rewrite Hat.
  rewrite Hw in Hb32. destruct (unlocked_word_later e _ Hok Hl He Hle Hb32) as (U1 & U2 & U3 & U4).
  apply wp_bind, wp_access.
  { exists b, it. rewrite Hw. split; [done|]. split; [done|]. split; [done|]. split; [done|]. right. split; [done|].
    right. exists e. split; [done|]. by rewrite U4. }
  intros d' Hd'. cbn [exec record fst snd]. rewrite item_at_set_item, decide_True by done.
  destruct (load_owned _ _ _ _ _ Hd' Ho) as [-> _]. fold (finish e it). apply wp_bind.
  eapply wp_mono; [|apply IH; simpl; try done].
  - intros u h' (Hst & Ha & Hat' & Hob & Hd0 & Hu & Hne). split; [by etransitivity; [|exact Hst]|]. split; [done|].
    split; [done|]. split; [etransitivity; [|exact Hob]; simpl; set_solver|]. split; [done|].
    split; intros y.
    + destruct (decide (y = x)) as [->|].
      * rewrite lookup_insert_eq, decide_True, Hit by (by left). done.
      * rewrite lookup_insert_ne, Hu by done. repeat case_decide; try done; exfalso; set_solver.
    + intros v [[_ <-]|[_ Hv]]%lookup_insert_Some; [|by eapply Hne]. rewrite Hw. exact (ltb_nonempty _ _ Hok U3).
  - by apply NoDup_cons in Hnd as [_ ?].
  - intros y Hy. apply Hm. by right.
  - eapply half_published_step; try done.
Qed.

(** The slots handed to the reaper carry the version that was published. *)
Definition with_queued (h : History) (l : list DeferredPurgeCandidate) : History :=
  mkHistory (owned h) (acquired h) (published h) (attached h) (observed h) (joined h) (schema_held h) (logged h) l.

Definition names_version (u : gmap Z TransactionId.t) (c : DeferredPurgeCandidate) : Prop :=
  u !! candidate_item c = Some (delete_commit_tid c).

(** The candidate of a deleted row. *)
Definition deleted_row (w : ResolvedWrite) (v : TransactionId.t) : DeferredPurgeCandidate :=
  mkCandidate (Primary (rw_table w)) (rw_key w) (rw_item w) v.

Lemma wp_purge_writes me u ws h : (forall x v, u !! x = Some v -> TransactionId.IsEmpty v = false) ->
  wp me (for_each (purge_write u) ws) h (fun _ h' => ∃ l, h' = with_queued h (queued h ++ l) ∧
    Forall (names_version u) l ∧
    forall w v, w ∈ ws -> rw_is_delete w = true -> u !! rw_item w = Some v -> deleted_row w v ∈ l).
Proof.
  intros Hu. revert h. induction ws as [|w ws IH]; intros h; cbn [for_each].
  { exists []. rewrite app_nil_r. split; [by destruct h|]. split; [done|]. by intros w v Hw%elem_of_nil. }
  apply wp_bind. unfold purge_write at 1. destruct (rw_is_delete w) eqn:Ew.
  2: { apply wp_ret. eapply wp_mono; [|apply IH]. intros _ h' (l & -> & Hl & Hc). exists l. split_and!; try done.
       intros w' v [->|Hw']%elem_of_cons; [congruence|by apply Hc]. }
  destruct (u !! rw_item w) as [v|] eqn:Ev.
  2: { apply wp_ret. eapply wp_mono; [|apply IH]. intros _ h' (l & -> & Hl & Hc). exists l. split_and!; try done.
       intros w' v [->|Hw']%elem_of_cons; [congruence|by apply Hc]. }
  unfold reaper_Enqueue. rewrite (Hu _ _ Ev). apply wp_access; [done|]. intros d Hd. cbn [exec record fst snd].
  eapply wp_mono; [|apply IH]. intros _ h' (l & -> & Hl & Hc). exists (deleted_row w v :: l). split_and!.
  - unfold with_queued. simpl. by rewrite <- app_assoc.
  - constructor; done.
  - intros w' v' [->|Hw']%elem_of_cons Hd' Hv'; [|right; by apply Hc]. rewrite Ev in Hv'. injection Hv' as ->. by left.
Qed.

Lemma wp_purge_si_ops me u empty_after registered os h :
  wp me (purge_si_ops u empty_after registered os) h (fun _ h' => ∃ l, h' = with_queued h (queued h ++ l) ∧
    Forall (names_version u) l).
Proof.
  revert registered h. induction os as [|o os IH]; intros registered h; cbn [purge_si_ops].
  { exists []. rewrite app_nil_r. by destruct h. }
  case_match; [|apply IH]. apply wp_bind. destruct (u !! rs_item o) as [v|] eqn:Ev; [|apply wp_ret, IH].
  unfold reaper_Enqueue. case_match; [apply wp_ret, IH|]. apply wp_access; [done|]. intros d Hd. cbn [exec record fst snd].
  eapply wp_mono; [|apply IH]. intros _ h' (l & -> & Hl). eexists (_ :: l). split.
  - unfold with_queued. simpl. by rewrite <- app_assoc.
  - constructor; done.
Qed.

(** ** The commit *)

(** What a commit that succeeds leaves behind: it published, in epoch [e], what
    the request makes of the items as it found them, logged exactly the items
    it published, and handed deleted rows to the reaper under the versions it
    published. *)
Definition commit_post (logging : bool) (r : Resolved) (h' : History) : Prop :=
  ∃ e m,
    apply_ops (resolved_si_ops r) (apply_writes (resolved_writes r) (locked_version <$> acquired h')) = Some m ∧
    owned h' = ∅ ∧ published h' = finish e <$> m ∧ covers (published h') r ∧
    (forall x it, acquired h' !! x = Some it -> TransactionId.epoch (DataItem.transaction_id it) <= e) ∧
    logged h' = (if logging && negb (bool_decide (log_of r (published h') = []))
                 then [(log_of r (published h'), e)] else []) ∧
    (forall c, c ∈ queued h' -> ∃ it, published h' !! candidate_item c = Some it ∧
       delete_commit_tid c = DataItem.transaction_id it) ∧
    (forall w it, w ∈ resolved_writes r -> rw_is_delete w = true -> published h' !! rw_item w = Some it ->
       deleted_row w (DataItem.transaction_id it) ∈ queued h') ∧
    joined h' = None ∧ schema_held h' = 0.

(** The installation keeps the words. *)
Lemma apply_writes_word ws m x :
  DataItem.transaction_id <$> apply_writes ws m !! x = DataItem.transaction_id <$> m !! x.
Proof.
  revert m. induction ws as [|w ws IH]; intros m; [done|]. simpl. unfold apply_writes in IH. rewrite IH.
  destruct (decide (x = rw_item w)) as [->|].
  - rewrite lookup_alter_eq, <- option_fmap_compose. done.
  - by rewrite lookup_alter_ne.
Qed.

Lemma apply_ops_word os m m' x : apply_ops os m = Some m' ->
  DataItem.transaction_id <$> m' !! x = DataItem.transaction_id <$> m !! x.
Proof.
  revert m. induction os as [|o os IH]; intros m; simpl; [by intros [= <-]|].
  destruct (m !! rs_item o) as [it|] eqn:Eo; simpl; [|done]. destruct (apply_op o it) as [it'|] eqn:Ea; [|done].
  intros H. rewrite (IH _ H). destruct (decide (x = rs_item o)) as [->|]; [|by rewrite lookup_insert_ne].
  rewrite lookup_insert_eq, Eo. simpl. f_equal. unfold apply_op in Ea. destruct (rs_is_delete o).
  - by eapply RemoveSecondaryIndexValue_word.
  - by eapply AddSecondaryIndexValue_word.
Qed.

Lemma fmap_same_some {A B C} (f : A -> C) (g : B -> C) (a : option A) (b : option B) :
  f <$> a = g <$> b -> is_Some b -> is_Some a.
Proof. destruct a, b; naive_solver. Qed.

Lemma covers_word (m m' : gmap Z DataItem.t) r : (forall x, DataItem.transaction_id <$> m' !! x = DataItem.transaction_id <$> m !! x) ->
  covers m r -> covers m' r.
Proof. intros H [H1 H2]. split; intros y Hy; eapply fmap_same_some; eauto. Qed.

Lemma in_commit_intro e h ls m : holds h ls ->
  (forall x it, acquired h !! x = Some it -> TransactionId.epoch (DataItem.transaction_id it) <= e) ->
  (forall x, DataItem.transaction_id <$> m !! x = DataItem.transaction_id <$> owned h !! x) ->
  in_commit e (acquired h) m.
Proof.
  intros Hh He Hm x it Hx. specialize (Hm x). rewrite Hx, (holds_owned _ _ Hh), lookup_fmap in Hm.
  destruct (acquired h !! x) as [b|] eqn:Eb; [|done]. injection Hm as Hm. exists b.
  destruct (holds_word _ _ Hh _ _ Eb). split_and!; try done; [apply H..|by eapply He].
Qed.

Lemma half_published_start e h ls m : holds h ls ->
  (forall x, DataItem.transaction_id <$> m !! x = DataItem.transaction_id <$> owned h !! x) ->
  forall h', owned h' = m -> published h' = published h -> half_published e (map locked_item ls) m h'.
Proof.
  intros Hh Hm h' Ho Hp x. rewrite Ho, Hp, (holds_published _ _ Hh), lookup_empty.
  specialize (Hm x). rewrite (holds_owned _ _ Hh), lookup_fmap in Hm. pose proof (holds_dom _ _ Hh x) as Hd.
  split; case_decide as Hx; try done; destruct (m !! x) as [it|] eqn:E; try done; exfalso; apply Hx, Hd;
    destruct (acquired h !! x); by eauto.
Qed.

(** The log set, stamped with the versions that were published. *)
Lemma stamp_log r e m u : covers m r ->
  (forall x it, m !! x = Some it -> u !! x = Some (unlocked_word e (DataItem.transaction_id it))) ->
  map (stamp u) (log_of r m) = log_of r (finish e <$> m).
Proof.
  intros [Hw Ho] Hu. unfold log_of. rewrite map_app, !map_map. f_equal; apply map_ext_in; intros a Ha%list_elem_of_In.
  - destruct (Hw _ Ha) as [it Hit]. unfold stamp. simpl. rewrite (Hu _ _ Hit), lookup_fmap, Hit. done.
  - destruct (Ho _ Ha) as [it Hit]. unfold stamp. simpl. rewrite (Hu _ _ Hit), lookup_fmap, Hit. done.
Qed.

(** What is known when the commit is decided. *)
Record decided (h : History) (ls : list LockedTid) (r : Resolved) (e : Z) : Prop := mkDecided {
  decided_holds : holds h ls;
  decided_covers : covers (acquired h) r;
  decided_joined : joined h = Some e;
  decided_u32 : is_u32 e;
  decided_epochs x it : acquired h !! x = Some it -> TransactionId.epoch (DataItem.transaction_id it) <= e;
  decided_clean : schema_held h = 0 ∧ logged h = [] ∧ queued h = [];
}.

(** The fields the end of the installation leaves alone. *)
Definition tail (h h' : History) : Prop :=
  owned h' = owned h ∧ acquired h' = acquired h ∧ published h' = published h ∧ attached h' = attached h ∧
  observed h' = observed h ∧ schema_held h' = schema_held h.

Definition tail_post (r : Resolved) (e : Z) (u : gmap Z TransactionId.t) (log_set : list Snapshot.t)
    (h h' : History) : Prop :=
  tail h h' ∧ joined h' = None ∧ logged h' = (if bool_decide (log_set = []) then [] else [(log_set, e)]) ∧
  Forall (names_version u) (queued h') ∧
  forall w v, w ∈ resolved_writes r -> rw_is_delete w = true -> u !! rw_item w = Some v -> deleted_row w v ∈ queued h'.

Lemma wp_leave me e (b : bool) h :
  wp me (bind (if b then access GetCommitDurability_is_Sync else Ret false) (fun awaits =>
    bind (access MakeMeOffline) (fun _ => access (AwaitCommitDurability e awaits)))) h
    (fun _ h' => h' = set_joined h None).
Proof.
  apply wp_bind. destruct b; [apply wp_access; [done|]; intros d0 Hd0|apply wp_ret];
    (apply wp_bind, wp_access; [done|]; intros d Hd; by apply wp_access).
Qed.

(** Phases 3.4 and 3.5. *)
Lemma wp_install_tail me r e u empty_after log_set h :
  (forall x v, u !! x = Some v -> TransactionId.IsEmpty v = false) -> queued h = [] -> logged h = [] ->
  wp me (
    bind (for_each (purge_write u) (resolved_writes r)) (fun _ =>
    bind (purge_si_ops u empty_after ∅ (resolved_si_ops r)) (fun _ =>
    bind (match log_set with [] => Ret false | _ => access (logger_Enqueue log_set e) end) (fun log_enqueued =>
    bind (if log_enqueued : bool then access GetCommitDurability_is_Sync else Ret false) (fun awaits =>
    bind (access MakeMeOffline) (fun _ => access (AwaitCommitDurability e awaits))))))) h
    (fun _ => tail_post r e u log_set h).
Proof.
  intros Hu Hq Hl. apply wp_bind. eapply wp_mono; [|by apply wp_purge_writes]. intros _ h1 (l1 & -> & Hl1 & Hc).
  apply wp_bind. eapply wp_mono; [|apply wp_purge_si_ops]. intros _ h2 (l2 & -> & Hl2).
  assert (forall h3 h', tail h h3 -> queued h3 = l1 ++ l2 ->
    logged h3 = (if bool_decide (log_set = []) then [] else [(log_set, e)]) ->
    h' = set_joined h3 None -> tail_post r e u log_set h h') as Hpost.
  { intros h3 h' Ht Eq El ->. unfold tail_post. simpl. rewrite Eq. split; [done|]. split; [done|]. split; [done|].
    split; [by apply Forall_app|]. intros w v Hw Hd Hv. apply elem_of_app. left. by apply Hc. }
  apply wp_bind. destruct log_set as [|sn log_set].
  - apply wp_ret. eapply wp_mono; [|apply (wp_leave me e false)]. intros ? h' Hh'. eapply Hpost; [..|exact Hh'];
      simpl; rewrite ?Hq; done.
  - apply wp_access; [done|]. intros d Hd. eapply wp_mono; [|apply (wp_leave me e (exec me _ d).1)]. intros ? h' Hh'.
    eapply Hpost; [..|exact Hh']; simpl; rewrite ?Hq, ?Hl; done.
Qed.

(** The versions a commit publishes, by item. *)
Definition versions_of (e : Z) (m : gmap Z DataItem.t) (u : gmap Z TransactionId.t) : Prop :=
  forall x, u !! x = (fun it => unlocked_word e (DataItem.transaction_id it)) <$> m !! x.

Lemma commit_post_intro logging r e m u h ls h5 h' : holds h ls -> schema_held h5 = 0 ->
  (forall x it, acquired h !! x = Some it -> TransactionId.epoch (DataItem.transaction_id it) <= e) ->
  apply_ops (resolved_si_ops r) (apply_writes (resolved_writes r) (owned h)) = Some m -> covers m r ->
  acquired h5 = acquired h -> half_published e [] m h5 -> versions_of e m u ->
  tail_post r e u (map (stamp u) (if logging : bool then log_of r m else [])) h5 h' ->
  commit_post logging r h'.
Proof.
  intros Hh Hs Hep Hm Hcov Ea Hp Hu ((T1 & T2 & T3 & _ & _ & T6) & Hj & Hlg & Hq & Hdel).
  assert (owned h' = ∅) as Ho by (rewrite T1; apply map_eq; intros x; destruct (Hp x) as [-> _]; by rewrite lookup_empty).
  assert (published h' = finish e <$> m) as Hpub.
  { rewrite T3. apply map_eq. intros x. destruct (Hp x) as [_ ->]. by rewrite lookup_fmap. }
  assert (forall x v, u !! x = Some v <-> ∃ it, published h' !! x = Some it ∧ v = DataItem.transaction_id it) as Hver.
  { intros x v. rewrite Hu, Hpub, lookup_fmap. destruct (m !! x); naive_solver. }
  exists e, m. rewrite T2, Ea, <- (holds_owned _ _ Hh). split; [done|]. split; [done|]. split; [done|].
  split; [rewrite Hpub; destruct Hcov as [C1 C2]; split; intros y Hy; rewrite lookup_fmap, fmap_is_Some; auto|].
  split; [done|]. split; [|split; [|split; [|split; [done|congruence]]]].
  - rewrite Hlg, Hpub. destruct logging; [|done]. rewrite (stamp_log r e m u); [|done|].
    + simpl. by destruct (log_of r (finish e <$> m)).
    + intros x it Hx. by rewrite Hu, Hx.
  - intros c Hc. apply Hver. by apply (proj1 (Forall_forall _ _) Hq).
  - intros w it Hw Hd Hit. apply Hdel; try done. apply Hver. eauto.
Qed.

Lemma wp_install me logging r ls e h : decided h ls r e ->
  wp me (install logging r (map locked_item ls)) h (fun _ h' => commit_post logging r h' ∧
    acquired h' = acquired h ∧ attached h ⊆ attached h' ∧ observed h ⊆ observed h').
Proof.
  intros [Hh [Hcw Hco] Hj He Hep (Hs & Hlg & Hq)]. unfold install. apply wp_bind, wp_access; [done|]. intros d Hd.
  cbn [exec record fst snd]. assert (covers (owned h) r) as Hcov.
  { rewrite (holds_owned _ _ Hh). split; intros y Hy; rewrite lookup_fmap, fmap_is_Some; auto. }
  apply wp_bind. eapply wp_mono; [|apply wp_install_writes, Hcov]. intros _ h1 ->. apply wp_bind.
  assert (covers (apply_writes (resolved_writes r) (owned h)) r) as Hcov1
    by (eapply covers_word; [apply apply_writes_word|done]).
  eapply wp_mono; [|apply wp_install_ops, Hcov1]. intros _ h2 (m & Hm & ->). cbn [owned with_owned] in Hm |- *.
  assert (forall x, DataItem.transaction_id <$> m !! x = DataItem.transaction_id <$> owned h !! x) as Hword.
  { intros x. rewrite (apply_ops_word _ _ _ x Hm). apply apply_writes_word. }
  assert (covers m r) as Hcovm by (by eapply covers_word).
  apply wp_bind. eapply wp_mono; [|apply passive_wp, passive_si_tombstones].
  intros empty_after h3 (E1 & E2 & E3 & E4 & E5 & E6 & E7 & E8 & E9). simpl in E1, E2, E3, E4, E5, E6, E7, E8, E9.
  apply wp_bind. eapply wp_mono; [|apply wp_log_snapshot; by rewrite E1]. intros log_set h4 [-> ->]. rewrite E1.
  apply wp_bind, wp_access; [done|]. intros d2 Hd2. cbn [exec record fst snd].
  assert (local_epochs d2 me = e) as -> by (apply Hd2; congruence).
  apply wp_bind. eapply wp_mono; [|apply (wp_publish_all me e (map locked_item ls) m)]; try done.
  - intros u h5 ((_ & S2 & S3 & S4) & Ea & Eat & Eob & Hp & Hu & Hne). cbv zeta.
    eapply wp_mono; [|apply wp_install_tail; [done|congruence..]]. intros ? h' Ht. cbn beta in Ht. pose proof Ht as ((_ & T2 & _ & T4 & T5 & _) & _).
    split; [|rewrite T2, T4, T5, Ea, Eat; split; [done|]; split; [done|by etransitivity]].
    eapply (commit_post_intro logging r e m u h ls h5 h'); try done; [congruence..|]. intros x. rewrite Hu. case_decide as Hx; [done|].
    destruct (m !! x) eqn:Emx; [|done]. exfalso. apply Hx, (holds_dom _ _ Hh). specialize (Hword x).
    rewrite Emx, (holds_owned _ _ Hh), lookup_fmap in Hword. destruct (acquired h !! x); by eauto.
  - congruence.
  - apply Hh.
  - rewrite E2. by eapply in_commit_intro.
  - intros x Hx. eapply fmap_same_some; [apply Hword|]. rewrite (holds_owned _ _ Hh), lookup_fmap, fmap_is_Some.
    by apply (holds_dom _ _ Hh).
  - by eapply half_published_start.
Qed.

(** ** UNIQUE indexes *)

(** What Phase 2.4 has checked of the lists [K] of the items. *)
Fixpoint unique_ok (K : Z -> Ptr) (os : list ResolvedSecondaryIndexOp) : Prop :=
  match os with
  | [] => True
  | o :: os' =>
      let x := rs_item o in
      if rs_unique o then
        if rs_is_delete o then
          if PackedPrimaryKeysView.contains (K x) (rs_primary_key o)
          then ∃ u, Erase (K x) (rs_primary_key o) = Returns u ∧ unique_ok (upd K x (update_ptr (K x) u)) os'
          else unique_ok K os'
        else PackedPrimaryKeysView.empty (K x) = true ∧
             ∃ u, Insert (K x) (rs_primary_key o) = Returns u ∧ unique_ok (upd K x (update_ptr (K x) u)) os'
      else unique_ok K os'
  end.

Definition list_of (acq : gmap Z DataItem.t) (S : gmap Z Ptr) (x : Z) : Ptr :=
  match S !! x with
  | Some p => p
  | None => match acq !! x with Some it => DataItem.primary_keys_ it | None => None end
  end.

Lemma unique_ok_ext K K' os : (forall x, K x = K' x) -> unique_ok K os -> unique_ok K' os.
Proof.
  revert K K'. induction os as [|o os IH]; intros K K' HK; [done|]. simpl. rewrite (HK (rs_item o)).
  assert (forall p, unique_ok (upd K (rs_item o) p) os -> unique_ok (upd K' (rs_item o) p) os) as Hu.
  { intros p. apply IH. intros x. unfold upd. by case_decide. }
  repeat case_match; try (by apply IH); naive_solver.
Qed.

Lemma list_of_insert acq S x p y : list_of acq (<[x := p]> S) y = upd (list_of acq S) x p y.
Proof.
  unfold list_of, upd. case_decide; [subst; by rewrite lookup_insert_eq|by rewrite lookup_insert_ne].
Qed.

Lemma wp_unique_recheck me ls S os h : holds h ls -> (forall o, o ∈ os -> is_Some (acquired h !! rs_item o)) ->
  wp me (unique_recheck S os) h (fun r _ => r = None -> unique_ok (list_of (acquired h) S) os).
Proof.
  intros Hh. revert S. induction os as [|o os IH]; intros S Hos; cbn [unique_recheck unique_ok]; [done|].
  assert (forall S', wp me (unique_recheck S' os) h (fun r _ => r = None -> unique_ok (list_of (acquired h) S') os)) as IH'.
  { intros S'. apply IH. intros o' Ho'. apply Hos. by right. }
  destruct (rs_unique o); simpl negb; cbv iota; [|apply IH']. set (x := rs_item o) in *. apply wp_bind.
  assert (wp me (match S !! x with Some keys => Ret keys | None => access (load_primary_keys x) end) h
    (fun keys h' => keys = list_of (acquired h) S x ∧ h' = h)) as Hload.
  { unfold list_of. destruct (S !! x); [done|]. apply wp_access; [done|]. intros d Hd. cbn [exec record fst snd].
    destruct (Hos o) as [it Hit]; [by left|]. fold x in Hit. rewrite Hit. split; [|done].
    destruct (load_owned me d h x (locked_version it) Hd) as [-> _]; [|done].
    by rewrite (holds_owned _ _ Hh), lookup_fmap, Hit. }
  eapply wp_mono; [|exact Hload]. intros keys h' [-> ->]. cbv zeta. clear Hload.
  assert (forall p, wp me (unique_recheck (<[x := p]> (<[x := list_of (acquired h) S x]> S)) os) h
    (fun r _ => r = None -> unique_ok (upd (list_of (acquired h) S) x p) os)) as Hnext.
  { intros p. eapply wp_mono; [|apply IH']. intros r h' Hr E. eapply unique_ok_ext; [|by apply Hr].
    intros y. rewrite !list_of_insert. unfold upd. case_decide; [done|]. by rewrite list_of_insert; unfold upd; rewrite decide_False. }
  destruct (rs_is_delete o).
  - destruct (PackedPrimaryKeysView.contains _ _).
    + apply wp_bind. destruct (Erase _ _) as [u|f]; [|done]. apply wp_ret. eapply wp_mono; [|apply Hnext].
      intros r h' Hr E. exists u. auto.
    + eapply wp_mono; [|apply IH']. intros r h' Hr E. eapply unique_ok_ext; [|by apply Hr]. intros y.
      rewrite list_of_insert. unfold upd. by case_decide; subst.
  - destruct (PackedPrimaryKeysView.empty _); simpl negb; cbv iota; [|done].
    apply wp_bind. destruct (Insert _ _) as [u|f]; [|done]. apply wp_ret. eapply wp_mono; [|apply Hnext].
    intros r h' Hr E. split; [done|]. exists u. auto.
Qed.

(** The item holds at most one primary key. *)
Definition at_most_one (it : DataItem.t) : Prop :=
  ∃ ks, item_keys it ks ∧ forall k k', k ∈ ks -> k' ∈ ks -> k = k'.

(** One operation on the list it was checked on. *)
Lemma unique_op o it it' ks (K : Z -> Ptr) os : rs_unique o = true -> string_ok (rs_primary_key o) ->
  K (rs_item o) = DataItem.primary_keys_ it -> item_keys it ks -> (forall k k', k ∈ ks -> k' ∈ ks -> k = k') ->
  apply_op o it = Returns it' -> unique_ok K (o :: os) ->
  at_most_one it' ∧ ∃ K', K' (rs_item o) = DataItem.primary_keys_ it' ∧
    (forall y, y <> rs_item o -> K' y = K y) ∧ unique_ok K' os.
Proof.
  intros Hu Hk HK Hks Hone Ha. simpl. rewrite Hu, HK. unfold apply_op in Ha. unfold item_keys in Hks. destruct (rs_is_delete o).
  - rewrite (contains_spec _ ks) by done. unfold DataItem.RemoveSecondaryIndexValue in Ha.
    destruct (Erase_spec _ _ (rs_primary_key o) Hks) as [[Hn E]|(Hi & p & ks' & E & Hr & Hin)]; rewrite E in *; simpl in Ha.
    + injection Ha as <-. rewrite bool_decide_eq_false_2 by done. intros H. split; [by exists ks|]. by exists K.
    + injection Ha as <-. rewrite bool_decide_eq_true_2 by done. intros (u & [= <-] & H). split.
      * exists ks'. split; [done|]. intros k k' Hk1%Hin Hk2%Hin. by apply Hone; [apply Hk1|apply Hk2].
      * eexists. split; [|split; [|exact H]]; [unfold upd; by rewrite decide_True|].
        intros y Hy. unfold upd. by rewrite decide_False.
  - unfold DataItem.AddSecondaryIndexValue in Ha. intros (Hem & u & E & H). rewrite E in Ha. simpl in Ha.
    unfold PackedPrimaryKeysView.empty in Hem. rewrite (PackedKeys.size_spec _ _ Hks) in Hem. apply Z.eqb_eq in Hem.
    assert (ks = []) as -> by (destruct ks; [done|]; exfalso; zl).
    destruct (Insert_spec _ _ (rs_primary_key o) Hks Hk) as [[Hi _]|[(Hn & _ & p & ks' & E' & Hr & Hin)|(_ & _ & f & E')]];
      [by apply elem_of_nil in Hi| |congruence]. rewrite E' in E. injection E as <-. injection Ha as <-. split.
    + exists ks'. split; [done|]. intros k k' Hk1%Hin Hk2%Hin. rewrite elem_of_nil in *. naive_solver.
    + eexists. split; [|split; [|exact H]]; [unfold upd; by rewrite decide_True|].
      intros y Hy. unfold upd. by rewrite decide_False.
Qed.

Lemma unique_apply os K m m' x it : unique_ok K os -> apply_ops os m = Some m' ->
  Forall (fun o => string_ok (rs_primary_key o)) os ->
  (forall o, o ∈ os -> rs_item o = x -> rs_unique o = true) ->
  m !! x = Some it -> K x = DataItem.primary_keys_ it -> at_most_one it ->
  ∃ it', m' !! x = Some it' ∧ at_most_one it'.
Proof.
  revert K m it. induction os as [|o os IH]; intros K m it Hok Hap Hs Hu Hx HK Hone.
  { injection Hap as <-. eauto. }
  apply Forall_cons in Hs as [Hs1 Hs]. simpl in Hap. destruct (m !! rs_item o) as [jt|] eqn:Eo; [|done]. simpl in Hap.
  destruct (apply_op o jt) as [jt'|] eqn:Ea; [|done].
  assert (forall o', o' ∈ os -> rs_item o' = x -> rs_unique o' = true) as Hu' by (intros; apply Hu; [by right|done]).
  destruct (decide (rs_item o = x)) as [Ex|Ex].
  - subst x. rewrite Hx in Eo. injection Eo as <-. destruct Hone as (ks & Hks & Hone).
    destruct (unique_op o it jt' ks K os) as (Hone' & K' & HK' & _ & Hok'); try done; [by apply Hu; [left|]|].
    eapply (IH K'); eauto. by rewrite lookup_insert_eq.
  - assert (∃ K', K' x = K x ∧ unique_ok K' os) as (K' & HK' & Hok').
    { simpl in Hok. destruct (rs_unique o); [|by exists K]. destruct (rs_is_delete o); [destruct (PackedPrimaryKeysView.contains _ _)|].
      - destruct Hok as (u & _ & H). eexists. split; [|exact H]. unfold upd. by rewrite decide_False.
      - by exists K.
      - destruct Hok as (_ & u & _ & H). eexists. split; [|exact H]. unfold upd. by rewrite decide_False. }
    eapply (IH K'); eauto; [by rewrite lookup_insert_ne|congruence].
Qed.

(** ** Commit *)

(** What Phase 2 has established. *)
Record validated (r : Resolved) (h : History) : Prop := mkValidated {
  validated_reads v : v ∈ validation_entries r -> read_valid v h;
  validated_inserts w it : w ∈ resolved_writes r -> check_committed_row w = true ->
    acquired h !! rw_item w = Some it -> DataItem.IsPrimaryInitialized it = false;
  validated_unique : unique_ok (list_of (acquired h) ∅) (resolved_si_ops r);
}.

Lemma wp_validate me fuel req r ls h : holds h ls -> covers (acquired h) r ->
  wp me (validate fuel req r ls) h (fun failed h' => extends h h' ∧ (failed = None -> validated r h')).
Proof.
  intros Hh [_ Hco]. unfold validate. apply wp_bind.
  eapply wp_mono; [|apply (wp_first_failure me ls _ (fun v h => read_valid v h));
    [apply passive_validate_read|intros; by eapply read_valid_extends|intros; by apply wp_validate_read|done]].
  intros f1 h1 [He1 H1]. destruct f1 as [|]; [by apply wp_ret|]. apply wp_bind.
  eapply wp_mono; [|apply passive_wp, passive_first_failure, passive_validate_range].
  intros f2 h2 He2. destruct f2 as [|]; [by apply wp_ret; split; [etransitivity|]|]. apply wp_bind.
  assert (holds h2 ls) as Hh2 by (eapply extends_holds; [|done]; by etransitivity).
  eapply wp_mono; [|apply (wp_first_failure me ls _ (fun w h => check_committed_row w = true ->
    forall it, acquired h !! rw_item w = Some it -> DataItem.IsPrimaryInitialized it = false));
    [apply passive_validate_insert| |intros; by eapply wp_validate_insert|done]].
  2: { intros w h' h'' (_ & -> & _). done. }
  intros f3 h3 [He3 H3]. assert (extends h h3) as He by (etransitivity; [|done]; by etransitivity).
  destruct f3 as [|]; [by apply wp_ret|].
  eapply wp_mono; [|apply wp_and; [apply passive_wp, passive_unique_recheck|
    apply (wp_unique_recheck me ls); [by eapply extends_holds|]]].
  - intros f4 h4 [He4 H4]. split; [by etransitivity|]. intros ->. pose proof (proj1 (proj2 He4)) as Ea. constructor.
    + intros v Hv. eapply read_valid_extends; [|by apply H1]. etransitivity; [|done]. by etransitivity.
    + intros w it Hw Hc. rewrite Ea. by apply H3.
    + rewrite Ea. by apply H4.
  - intros o Ho. destruct He as (_ & -> & _). by apply Hco.
Qed.

(** The outcome of a commit. *)
Definition commit_result (logging : bool) (req : Request) (res : AbortReason + unit) (h : History) : Prop :=
  match res with
  | inl _ => abort_post h
  | inr _ => ∃ r, resolves req r ∧ commit_post logging r h ∧ validated r h ∧
      forall t, t ∈ lock_targets r -> target_entry t ∈ attached h
  end.

Lemma elem_of_targets (r : Resolved) :
  (forall w, w ∈ resolved_writes r -> rw_item w ∈ lock_items (lock_targets r)) ∧
  (forall o, o ∈ resolved_si_ops r -> rs_item o ∈ lock_items (lock_targets r)).
Proof.
  split; intros y Hy; apply elem_of_lock_items; eexists; (split; [apply elem_of_app|]).
  - left. apply list_elem_of_fmap. eauto.
  - done.
  - right. apply list_elem_of_fmap. eauto.
  - done.
Qed.

Lemma commit_post_keeps r h h' : validated r h -> acquired h' = acquired h -> observed h ⊆ observed h' -> validated r h'.
Proof.
  intros [H1 H2 H3] Ea Eo. constructor; rewrite ?Ea; [|done|done]. intros v Hv.
  eapply read_valid_later; [done|done|by apply H1].
Qed.

(** The locks of every target are held, on items still in their indexes. *)
Lemma decided_intro (r : Resolved) ls h e : holds h ls -> map locked_item ls = lock_items (lock_targets r) ->
  joined h = Some e -> is_u32 e -> schema_held h = 0 -> logged h = [] -> queued h = [] ->
  (forall x it, acquired h !! x = Some it -> TransactionId.epoch (DataItem.transaction_id it) <= e) -> decided h ls r e.
Proof.
  intros Hh Hl Hj He Hs Hlg Hq Hep. constructor; try done. destruct (elem_of_targets r) as [H1 H2].
  split; intros y Hy; apply (holds_dom _ _ Hh); rewrite Hl; auto.
Qed.

(** Phases 1.2 to 3, once the locks are taken. *)
Lemma wp_commit_locked me fuel logging req r ls h : holds h ls -> resolves req r ->
  map locked_item ls = lock_items (lock_targets r) -> all_attached (lock_targets r) ls h ->
  schema_held h = 0 -> logged h = [] -> queued h = [] ->
  wp me (bind (access MakeMeOffline) (fun _ => bind (access MakeMeOnline) (fun _ =>
    bind (validate fuel req r ls) (fun failed =>
    match failed with
    | Some reason => unlock_and_abort ls reason
    | None => bind (install logging r (lock_items (lock_targets r))) (fun _ => Ret (inr tt))
    end)))) h (commit_result logging req).
Proof.
  intros Hh Hres Hl Hat Hs Hlg Hq. apply wp_bind, wp_access; [done|]. intros d1 Hd1. cbn [exec record fst snd].
  apply wp_bind, wp_access; [done|]. intros d2 Hd2. cbn [exec record fst snd].
  set (h2 := set_joined (set_joined h None) (Some (global_epoch d2))).
  assert (holds h2 ls) as Hh2 by (destruct Hh; by constructor).
  destruct Hd2 as ((_ & _ & _ & Hg) & _ & _ & Hep & _).
  assert (decided h2 ls r (global_epoch d2)) as Hdec by (by apply decided_intro).
  apply wp_bind. eapply wp_mono; [|apply wp_validate; [done|apply Hdec]]. intros failed h3 [He Hv].
  pose proof He as (_ & Ea & _ & Ej & Es & El & Eq & Eat & _).
  assert (holds h3 ls) as Hh3 by (by eapply extends_holds).
  destruct failed as [reason|].
  { eapply wp_mono; [|apply wp_unlock_and_abort; [done|by rewrite ?Es, ?El, ?Eq..]]. by intros res h4 [-> H]. }
  apply wp_bind. rewrite <- Hl. eapply wp_mono; [|apply (wp_install me logging r ls (global_epoch d2))].
  - intros _ h4 (Hpost & Ea4 & Eat4 & Eo4). apply wp_ret. exists r. split; [done|]. split; [done|].
    split; [by eapply commit_post_keeps; [apply Hv|..]|]. intros t Ht. apply Eat4, Eat, Hat; [done|].
    rewrite Hl. apply elem_of_lock_items. eauto.
  - apply decided_intro; rewrite ?Ej, ?Es, ?El, ?Eq; try done. intros x it. rewrite Ea. apply Hep.
Qed.

Lemma wp_Commit me fuel assertions logging req :
  wp me (Commit fuel assertions logging req) no_history (commit_result logging req).
Proof.
  unfold Commit. apply wp_bind, wp_access; [done|]. intros d1 Hd1. cbn [exec record fst snd]. clear Hd1.
  destruct (existsb end_key_missing (range_reads req)).
  { apply wp_bind, wp_access; [done|]. intros d2 Hd2. by apply wp_ret. }
  apply wp_bind, wp_access; [done|]. intros d2 Hd2. cbn [exec record fst snd]. clear Hd2. apply wp_bind.
  eapply wp_mono; [|apply wp_all_ret; [apply resolve_ret|apply passive_wp, passive_resolve]].
  intros res h3 [Hres (E1 & E2 & E3 & E4 & E5 & E6 & E7 & _)]. simpl in E1, E2, E3, E4, E5, E6, E7.
  destruct res as [reason|r].
  { apply wp_bind, wp_access; [done|]. intros d4 Hd4. cbn [exec record fst snd]. clear Hd4.
    apply wp_bind, wp_access; [done|]. intros d5 Hd5. cbn [exec record fst snd]. apply wp_ret.
    split_and!; simpl; try done; try congruence. rewrite E5. done. }
  apply wp_bind, wp_access; [done|]. intros d4 Hd4. cbn [exec record fst snd]. clear Hd4. cbv zeta.
  set (h4 := set_schema h3 (schema_held h3 - 1)).
  assert (holds h4 []) as Hh4.
  { constructor; simpl; rewrite ?E1, ?E2, ?E3.
    - by rewrite fmap_empty.
    - intros x. rewrite lookup_empty. split; [by intros []|by intros ?%elem_of_nil].
    - by intros l ?%elem_of_nil.
    - by intros x it ?%lookup_empty_Some.
    - done.
    - apply NoDup_nil_2. }
  apply wp_bind. eapply wp_mono; [|apply wp_lock_all; [exact Hh4|simpl; apply lock_items_nodup|]].
  2: { by intros t _ Ht%elem_of_nil. }
  intros [ls detached] h5 ((Ej & Es & El & Eq) & Hh5 & Hr). simpl in *. rewrite E5 in Es. rewrite E6 in El. rewrite E7 in Eq.
  destruct detached.
  - eapply wp_mono; [|apply wp_unlock_and_abort; done]. by intros res h6 [-> H].
  - destruct (Hr eq_refl) as [Hl Hat]. apply wp_commit_locked; try done. by apply Hres.
Qed.

(** ** The reaper *)

Lemma clear_lowest t : Z.odd t = false -> 0 <= t < 2 ^ 32 -> Z.land t (2 ^ 32 - 2) = t.
Proof.
  intros Ho Ht. destruct (Z.Even_or_Odd t) as [[k ->]|Hodd]; [|apply Z.odd_spec in Hodd; congruence].
  replace (2 * k) with (Z.shiftl k 1) by (rewrite Z.shiftl_mul_pow2; lia).
  change (2 ^ 32 - 2) with (Z.shiftl (Z.ones 31) 1). rewrite <- Z.shiftl_land, Z.land_ones by lia.
  rewrite Z.mod_small; [done|lia].
Qed.

(** The version of a purged slot follows that of the deletion. *)
Lemma retired_later w : TransactionId.ok w -> is_locked w = false -> TransactionId.tid (lock_word w) < 2 ^ 32 - 1 ->
  let u := TransactionId.mk (TransactionId.epoch w) (Z.land (u32 (TransactionId.tid w + 2)) (2 ^ 32 - 2)) in
  TransactionId.ok u ∧ is_locked u = false ∧ TransactionId.ltb w u = true.
Proof.
  intros [He Ht] Hl Hb. rewrite lock_word_tid in Hb by done. unfold is_u32 in *. rewrite is_locked_odd in Hl.
  rewrite u32_small by (unfold is_u32; lia).
  assert (Z.odd (TransactionId.tid w + 2) = false) as Ho by (by rewrite Z.odd_add, Hl).
  rewrite clear_lowest by (done || lia). cbv zeta. split; [split; unfold is_u32; simpl; lia|].
  split; [rewrite is_locked_odd; exact Ho|]. unfold TransactionId.ltb. simpl. zcase.
Qed.

(** What the reaper knows of the item it has locked. *)
Record reaping (c : DeferredPurgeCandidate) (it : DataItem.t) (h : History) : Prop := mkReaping {
  reaping_owned : owned h = {[candidate_item c := locked_version it]};
  reaping_acquired : acquired h !! candidate_item c = Some it;
  reaping_tid : DataItem.transaction_id it = delete_commit_tid c;
  reaping_word : TransactionId.ok (delete_commit_tid c) ∧ is_locked (delete_commit_tid c) = false;
}.

Lemma reaping_extends c it h h' : extends h h' -> reaping c it h -> reaping c it h'.
Proof. intros (E1 & E2 & _) [H1 H2 H3 H4]. constructor; congruence. Qed.

(** [unlock_candidate]. *)
Lemma wp_unlock_candidate {A} me c it h (a : A) : reaping c it h ->
  wp me (bind (access (store_tid (candidate_item c) (delete_commit_tid c))) (fun _ => Ret a)) h
    (fun _ h' => owned h' = ∅).
Proof.
  intros [H1 H2 H3 [H4 H5]]. apply wp_bind, wp_access.
  - exists it, (locked_version it). rewrite H1, lookup_singleton_eq. split; [done|]. split; [done|].
    split; [done|]. split; [done|]. left. by apply set_back.
  - intros d Hd. cbn [exec record fst snd]. apply wp_ret. simpl. rewrite H1. apply delete_singleton_eq.
Qed.

Lemma wp_Purge me c it h : reaping c it h -> is_tombstone (candidate_index c) it = true ->
  let d := delete_commit_tid c in
  wp me (MasstreeIndex_Purge (candidate_index c) (candidate_key c) (candidate_item c)
           (TransactionId.mk (TransactionId.epoch d) (Z.land (u32 (TransactionId.tid d + 2)) (2 ^ 32 - 2)))) h
    (fun purged h' => if purged : bool then owned h' = ∅ else reaping c it h').
Proof.
  intros Hr Ht. pose proof Hr as [H1 H2 H3 [H4 H5]]. cbv zeta. unfold MasstreeIndex_Purge. apply wp_bind, wp_access.
  { exists (locked_version it). rewrite H1, lookup_singleton_eq. split; [done|]. by destruct (candidate_index c). }
  intros d Hd. destruct (load_owned me d h (candidate_item c) (locked_version it) Hd) as [_ H6].
  { by rewrite H1, lookup_singleton_eq. }
  simpl in H6. rewrite H3 in H6. destruct (retired_later _ H4 H5 H6) as (R1 & R2 & R3).
  cbn [exec]. case_decide; cbn [record fst snd]; [|by apply wp_ret]. apply wp_bind.
  rewrite (ltb_nonempty _ _ H4 R3). apply wp_access.
  - exists it, (locked_version it). simpl. rewrite H1, lookup_singleton_eq. split; [done|]. split; [done|].
    split; [done|]. split; [done|]. right. rewrite H3. split; [done|by left].
  - intros d' Hd'. cbn [exec record fst snd]. apply wp_ret. simpl. rewrite H1. apply delete_singleton_eq.
Qed.

(** The rest of the loop, once the item is locked. *)
Lemma wp_reap_locked me c it h : reaping c it h ->
  wp me (bind (match candidate_index c with
               | Primary _ => access (IsPrimaryInitialized (candidate_item c))
               | Secondary _ _ => access (IsInitialized (candidate_item c))
               end) (fun item_initialized =>
    if item_initialized : bool
    then bind (access (store_tid (candidate_item c) (delete_commit_tid c))) (fun _ => Ret Dropped)
    else bind (access (find_unlocked (candidate_index c) (candidate_key c))) (fun again =>
    if bool_decide (again <> Some (candidate_item c))
    then bind (access (store_tid (candidate_item c) (delete_commit_tid c))) (fun _ => Ret Dropped)
    else bind (access (load_tid (candidate_item c))) (fun current =>
    if negb (TransactionId.eqb current (lock_word (delete_commit_tid c)))
    then bind (access (store_tid (candidate_item c) (delete_commit_tid c))) (fun _ => Ret Dropped)
    else bind (MasstreeIndex_Purge (candidate_index c) (candidate_key c) (candidate_item c)
           (TransactionId.mk (TransactionId.epoch (delete_commit_tid c))
              (Z.land (u32 (TransactionId.tid (delete_commit_tid c) + 2)) (2 ^ 32 - 2)))) (fun purged =>
    if purged : bool then Ret Reaped
    else bind (access (store_tid (candidate_item c) (delete_commit_tid c))) (fun _ => Ret Dropped)))))) h
    (fun _ h' => owned h' = ∅).
Proof.
  intros Hr. assert (forall d h', extends h h' -> agrees me d h -> item_at d (candidate_item c) = locked_version it) as Hat.
  { intros d h' _ Hd. destruct (load_owned me d h (candidate_item c) (locked_version it) Hd) as [-> _]; [|done].
    by rewrite (reaping_owned _ _ _ Hr), lookup_singleton_eq. }
  apply wp_bind. eapply (wp_mono me _ _ (fun b h' => extends h h' ∧ b = negb (is_tombstone (candidate_index c) it))).
  2: { destruct (candidate_index c); (apply wp_access; [done|]); intros d Hd; cbn [exec record fst snd].
       - split; [apply extends_observe|]. rewrite (Hat d h) by done. unfold is_tombstone. by rewrite negb_involutive.
       - split; [done|]. rewrite (Hat d h) by done. unfold is_tombstone. by rewrite negb_involutive. }
  intros b h1 [He1 ->]. assert (reaping c it h1) as Hr1 by (by eapply reaping_extends).
  destruct (is_tombstone (candidate_index c) it) eqn:Et; simpl negb; cbv iota; [|by eapply wp_unlock_candidate].
  apply wp_bind, wp_access; [done|]. intros d1 Hd1. cbn [exec fst snd].
  destruct (extends_found d1 h1 (candidate_index c) (candidate_key c) (table_find (trees d1 (candidate_index c)) (candidate_key c))) as [He2 _].
  assert (reaping c it (record (find_unlocked (candidate_index c) (candidate_key c))
    (table_find (trees d1 (candidate_index c)) (candidate_key c)) d1 d1 h1)) as Hr2 by (by eapply reaping_extends).
  case_bool_decide; [by eapply wp_unlock_candidate|].
  apply wp_bind, wp_access; [done|]. intros d2 Hd2. cbn [exec fst snd].
  match goal with |- context [record (load_tid ?x) ?r ?d ?d ?h] =>
    assert (reaping c it (record (load_tid x) r d d h)) as Hr3 by (eapply reaping_extends; [apply extends_observe|exact Hr2]) end.
  destruct (negb _); [by eapply wp_unlock_candidate|]. apply wp_bind.
  eapply wp_mono; [|by apply wp_Purge]. intros [|] h4 H4; [by apply wp_ret|by eapply wp_unlock_candidate].
Qed.

Lemma wp_reap_candidate me c h : owned h = ∅ -> wp me (reap_candidate c) h (fun _ h' => owned h' = ∅).
Proof.
  intros Ho. unfold reap_candidate. cbv zeta. apply wp_bind, wp_access; [done|]. intros d1 Hd1. cbn [exec fst snd].
  destruct (extends_found d1 h (candidate_index c) (candidate_key c) (table_find (trees d1 (candidate_index c)) (candidate_key c))) as [He1 _].
  set (h1 := record _ _ _ _ _) in *. assert (owned h1 = ∅) as Ho1 by (destruct He1; congruence). clearbody h1. clear He1 Ho Hd1.
  case_bool_decide; [by apply wp_ret|]. apply wp_bind, wp_access; [done|]. intros d2 Hd2. cbn [exec record fst snd].
  destruct (is_locked (word_at d2 (candidate_item c))) eqn:El; [by apply wp_ret|].
  destruct (TransactionId.eqb _ _) eqn:Ew; simpl negb; cbv iota; [|by apply wp_ret]. apply eqb_spec in Ew. rewrite Ew in *.
  apply wp_bind, wp_access; [done|]. intros d3 Hd3. cbn [exec]. case_decide as Ec; cbn [record fst snd]; [|by apply wp_ret].
  rewrite item_at_set_item, decide_True by done. destruct Ec as [_ Ec].
  set (it := item_at d3 (candidate_item c)) in *. fold (word_at d3 (candidate_item c)) in *.
  assert (DataItem.transaction_id it = delete_commit_tid c) as Eit by exact Ec.
  assert (reaping c it (acquire (observe h1 (Loaded (candidate_item c) (delete_commit_tid c))) (candidate_item c) it
    (DataItem.set_transaction_id it (lock_word (delete_commit_tid c))))) as Hr.
  { constructor; simpl; [|by rewrite lookup_insert_eq|done|split; [rewrite <- Ew; apply Hd2|done]].
    rewrite Ho1. unfold locked_version. by rewrite Eit. }
  set (h3 := acquire _ _ _ _) in *. clearbody h3.
  by eapply wp_reap_locked.
Qed.

Lemma wp_Reap me published_epoch : wp me (Reap published_epoch) no_history (fun _ h' => owned h' = ∅).
Proof.
  unfold Reap. apply wp_bind, wp_access; [done|]. intros d Hd. cbn [exec record fst snd].
  destruct (List.filter _ _) as [|c cs] eqn:E; [by apply wp_ret|]. rewrite <- E. clear E.
  assert (forall l h, owned h = ∅ -> wp me (collect_all (fun c => bind (reap_candidate c) (fun f => Ret (c, f))) l) h
    (fun _ h' => owned h' = ∅)) as Hall.
  { induction l as [|c' l IH]; intros h Ho; cbn [collect_all]; [done|]. apply wp_bind, wp_bind.
    eapply wp_mono; [|by apply wp_reap_candidate]. intros f h1 Ho1. apply wp_ret, wp_bind.
    eapply wp_mono; [|by apply IH]. intros fs h2 Ho2. by apply wp_ret. }
  apply wp_bind. eapply wp_mono; [|by apply Hall]. intros fates h1 Ho1. by apply wp_access.
Qed.

End specs.
