(* ===== verification/StatelessPool.v ===== *)
(** * Pools of stateless clients

    Any number of threads, each running one call of the stateless API or one
    pass of the reaper, interleaved at every access to shared memory
    (src/src/stateless/commit.cpp, read.cpp, src/src/index/reaper.cpp).

    The theorems: locks exclude each other, the contents of an item change only
    under its lock and only tombstones leave an index; a version names the
    contents it was published with; a commit publishes exactly what its
    request makes of the items it found, logs what it published, and has
    validated its reads, insertions and UNIQUE keys with all its locks held; a
    commit that fails gives everything back. *)

From S2P Require Import Prelude PackedKeys Types DataItem LogReplay Stateless StatelessLogic StatelessCommit.

(** ** Jobs *)

Inductive Job : Type :=
  | CommitJob (enable_logging : bool) (req : Request)
  | ReadJob (table_name key : bytestring)
  | BatchReadJob (keys : list (bytestring * bytestring))
  | RangeScanJob (table_name begin_ end_ : bytestring) (limit : Z) (reverse : bool)
  | SecondaryRangeScanJob (table_name index_name begin_ end_ : bytestring) (limit : Z) (reverse : bool)
  | ReapJob (published_epoch : Z).

Inductive Outcome : Type :=
  | Committed
  | AbortedFor (reason : AbortReason)
  | HasRead (rs : list StatelessReadResult)
  | HasScanned (ok : bool) (rows : list StatelessScanRow)
  | HasScannedSecondary (ok : bool) (rows : list StatelessSecondaryScanRow)
  | HasReaped.

Section pools.
Context {T : Type} `{!BasicTable T}.
Context (fuel : nat) (assertions : bool).

Definition program (j : Job) : Prog Outcome :=
  match j with
  | CommitJob logging req =>
      bind (Commit fuel assertions logging req) (fun r =>
        Ret (match r with inl reason => AbortedFor reason | inr _ => Committed end))
  | ReadJob t k => bind (Read fuel t k) (fun r => Ret (HasRead [r]))
  | BatchReadJob keys => bind (BatchRead fuel keys) (fun rs => Ret (HasRead rs))
  | RangeScanJob t b e limit reverse =>
      bind (RangeScan fuel t b e limit reverse) (fun r => Ret (HasScanned r.1 r.2))
  | SecondaryRangeScanJob t i b e limit reverse =>
      bind (SecondaryRangeScan fuel t i b e limit reverse) (fun r => Ret (HasScannedSecondary r.1 r.2))
  | ReapJob e => bind (Reap e) (fun _ => Ret HasReaped)
  end.

(** What a finished job leaves behind. *)
Definition job_post {cat : FixedCatalogue} (j : Job) (o : Outcome) (h : History) : Prop :=
  owned h = ∅ ∧
  match j, o with
  | CommitJob logging req, Committed => commit_result logging req (inr tt) h
  | CommitJob logging req, AbortedFor reason => commit_result logging req (inl reason) h
  | CommitJob _ _, _ => False
  | _, _ => True
  end.

(** A reader takes the lock of the catalogue and looks. *)
Fixpoint reading {A} (p : Prog A) : Prop :=
  match p with
  | Vis o k => (passive_op o ∨ match o with lock_shared | unlock_shared => True | _ => False end) ∧ forall r, reading (k r)
  | _ => True
  end.

Lemma reading_passive {A} (p : Prog A) : passive p -> reading p.
Proof. induction p as [| | | |R o k IH]; simpl; try done. intros [Ho Hk]. split; [by left|auto]. Qed.

Lemma reading_bind {A B} (p : Prog A) (k : A -> Prog B) : reading p -> (forall a, reading (k a)) -> reading (bind p k).
Proof. intros Hp Hk. induction p as [| | | |R o c IH]; simpl in *; auto. destruct Hp. auto. Qed.

Lemma reading_access {A R} (o : Op R) (k : R -> Prog A) :
  passive_op o ∨ match o with lock_shared | unlock_shared => True | _ => False end ->
  (forall r, reading (k r)) -> reading (bind (access o) k).
Proof. done. Qed.

Lemma reading_wp {cat : FixedCatalogue} {A} me (p : Prog A) h : reading p -> owned h = ∅ -> wp (T := T) me p h (fun _ h' => owned h' = ∅).
Proof.
  revert h. induction p as [| | | |R o k IH]; intros h Hp Ho; simpl in *; try done. destruct Hp as [Hop Hk].
  assert (forall r d d', owned (record (T := T) o r d d' h) = ∅) as He.
  { intros r d d'. destruct Hop as [Hop|Hop]; [by destruct (passive_record o r d d' h Hop) as [-> _]|by destruct o]. }
  split; [destruct Hop; [by apply passive_pre|by destruct o]|]. intros d Hd. by apply IH.
Qed.

Lemma passive_StableReadValue x : passive (StableReadValue fuel x).
Proof. unfold StableReadValue. induction fuel as [|n IH]; cbn [StableReadValue_loop]; passive_tac. Qed.

Lemma reading_Read t k : reading (Read fuel t k).
Proof.
  unfold Read. apply reading_access; [by right|]. intros _. apply reading_access; [by left|]. intros b.
  apply reading_bind; [|intros r; apply reading_access; [by right|done]].
  apply reading_passive. passive_tac. apply passive_StableReadValue.
Qed.

Lemma reading_collect {X Y} (f : X -> Prog Y) l : (forall x, reading (f x)) -> reading (collect_all f l).
Proof.
  intros Hf. induction l as [|x l IH]; cbn [collect_all]; [done|]. apply reading_bind; [done|]. intros y.
  apply reading_bind; done.
Qed.

Lemma reading_RangeScan t b e limit reverse : reading (RangeScan fuel t b e limit reverse).
Proof.
  unfold RangeScan. destruct e as [|]; [done|]. apply reading_access; [by right|]. intros _.
  apply reading_access; [by left|]. intros c. apply reading_bind; [|intros r; apply reading_access; [by right|done]].
  apply reading_passive. passive_tac. apply passive_scan_range. intros. unfold append_scan_entry. passive_tac.
  apply passive_StableReadValue.
Qed.

Lemma reading_SecondaryRangeScan t i b e limit reverse : reading (SecondaryRangeScan fuel t i b e limit reverse).
Proof.
  unfold SecondaryRangeScan. destruct e as [|]; [done|]. apply reading_access; [by right|]. intros _.
  apply reading_access; [by left|]. intros c. apply reading_bind; [apply reading_passive; passive_tac|]. intros ix.
  apply reading_bind; [|intros r; apply reading_access; [by right|done]].
  apply reading_passive. passive_tac. apply passive_scan_range. intros. unfold append_secondary_entry. passive_tac.
  - apply passive_StableReadPrimaryKeys.
  - apply passive_until. intros. unfold append_base_row. passive_tac. apply passive_StableReadValue.
Qed.

(** Every job obeys the discipline and leaves what it promises. *)
Lemma wp_program {cat : FixedCatalogue} me j : wp (T := T) me (program j) no_history (job_post j).
Proof.
  destruct j as [logging req|t k|keys|t b e limit reverse|t i b e limit reverse|e]; unfold program; apply wp_bind.
  - eapply wp_mono; [|apply wp_Commit]. intros [reason|[]] h H; apply wp_ret; (split; [|exact H]).
    + apply H.
    + by destruct H as (r & _ & (e & m & _ & H & _) & _).
  - eapply wp_mono; [|by apply reading_wp; [apply reading_Read|]]. intros r h H. by apply wp_ret.
  - eapply wp_mono; [|by apply reading_wp; [apply reading_collect; intros; apply reading_Read|]]. intros r h H. by apply wp_ret.
  - eapply wp_mono; [|by apply reading_wp; [apply reading_RangeScan|]]. intros r h H. by apply wp_ret.
  - eapply wp_mono; [|by apply reading_wp; [apply reading_SecondaryRangeScan|]]. intros r h H. by apply wp_ret.
  - eapply wp_mono; [|apply wp_Reap]. intros r h H. by apply wp_ret.
Qed.

Context `{!BasicTableLaws T}.

Definition pool (jobs : list Job) : list (Prog Outcome) := map program jobs.

(** The posts of the threads of a pool. *)
Definition posts {cat : FixedCatalogue} (jobs : list Job) (i : nat) (o : Outcome) (h : History) : Prop :=
  forall j, jobs !! i = Some j -> job_post j o h.

Lemma pool_inv d jobs s : quiescent (T := T) d -> rtc step (start d (pool jobs)) s ->
  inv (cat := catalogue d) (posts (cat := catalogue d) jobs) s.
Proof.
  intros Hq. apply pool_sound; [done|done|]. intros i p Hp. unfold pool in Hp. rewrite list_lookup_fmap in Hp.
  apply fmap_Some in Hp as (j & Hj & ->). eapply wp_mono; [|apply wp_program]. intros o h H j' Hj'. congruence.
Qed.

Lemma pool_finished d jobs s i j o h : quiescent (T := T) d -> rtc step (start d (pool jobs)) s ->
  jobs !! i = Some j -> threads s !! i = Some (Ret o, h) -> job_post (cat := catalogue d) j o h.
Proof.
  intros Hq Hr Hj Ht. destruct (inv_thread _ _ (pool_inv _ _ _ Hq Hr) _ _ _ Ht) as [_ H]. by apply H.
Qed.

(** ** Rows and insertions of a request *)

Lemma apply_writes_other ws m x : (forall w, w ∈ ws -> rw_item w <> x) -> apply_writes ws m !! x = m !! x.
Proof.
  revert m. induction ws as [|w ws IH]; intros m Hw; [done|]. simpl. fold (apply_writes ws (alter (install_row w) (rw_item w) m)).
  rewrite IH by (intros; apply Hw; by right). apply lookup_alter_ne. apply Hw. by left.
Qed.

Lemma apply_ops_buffer os m m' x : apply_ops os m = Some m' -> DataItem.buffer <$> m' !! x = DataItem.buffer <$> m !! x.
Proof.
  revert m. induction os as [|o os IH]; intros m; simpl; [by intros [= <-]|].
  destruct (m !! rs_item o) as [it|] eqn:Eo; simpl; [|done]. destruct (apply_op o it) as [it'|] eqn:Ea; [|done].
  intros H. rewrite (IH _ H). destruct (decide (x = rs_item o)) as [->|]; [|by rewrite lookup_insert_ne].
  rewrite lookup_insert_eq, Eo. simpl. f_equal. unfold apply_op, DataItem.RemoveSecondaryIndexValue, DataItem.AddSecondaryIndexValue in Ea.
  destruct (rs_is_delete o); [destruct (PackedPrimaryKeys.Erase _ _) as [[]|]|destruct (PackedPrimaryKeys.Insert _ _) as [[]|]];
    simpl in Ea; by simplify_eq.
Qed.

Lemma apply_writes_keys ws m x : DataItem.primary_keys_ <$> apply_writes ws m !! x = DataItem.primary_keys_ <$> m !! x.
Proof.
  revert m. induction ws as [|w ws IH]; intros m; [done|]. simpl. unfold apply_writes in IH. rewrite IH.
  destruct (decide (x = rw_item w)) as [->|]; [by rewrite lookup_alter_eq, <- option_fmap_compose|by rewrite lookup_alter_ne].
Qed.

(** The last write of a row decides it. *)
Lemma last_write_installed ws pre w post os m m' it : ws = pre ++ w :: post ->
  (forall w', w' ∈ post -> rw_item w' <> rw_item w) -> apply_ops os (apply_writes ws m) = Some m' ->
  m !! rw_item w = Some it ->
  ∃ it', m' !! rw_item w = Some it' ∧
    DataBuffer.payload (DataItem.buffer it') = if rw_is_delete w then [] else rw_value w.
Proof.
  intros -> Hpost Hm Hit. pose proof (apply_ops_buffer _ _ _ (rw_item w) Hm) as Hb.
  assert (is_Some (apply_writes pre m !! rw_item w)) as [i1 H1].
  { eapply fmap_same_some; [apply apply_writes_word|]. by rewrite Hit. }
  unfold apply_writes in *. rewrite fold_left_app in Hb. simpl in Hb.
  fold (apply_writes pre m) in Hb. fold (apply_writes post (alter (install_row w) (rw_item w) (apply_writes pre m))) in Hb.
  rewrite apply_writes_other, lookup_alter_eq in Hb by done. unfold apply_writes in Hb. rewrite H1 in Hb. simpl in Hb.
  destruct (m' !! rw_item w) as [it'|]; [|done]. injection Hb as Hb. exists it'. split; [done|]. rewrite Hb, payload_Reset.
  by destruct (rw_is_delete w).
Qed.

(** The first entry of a key, when it inserts, is checked against the row. *)
Lemma first_insert_checked live ws rws n w rw : inserts_checked live ws rws -> ws !! n = Some w -> rws !! n = Some rw ->
  write_is_insert w = true -> live !! request_key w = None ->
  (forall m w', (m < n)%nat -> ws !! m = Some w' -> request_key w' <> request_key w) -> check_committed_row rw = true.
Proof.
  revert live rws n. induction ws as [|w0 ws IH]; intros live [|rw0 rws] [|n]; simpl; try done.
  - intros [H _] [= ->] [= ->] Hi Hl _. specialize (H Hi). by rewrite Hl in H.
  - intros [_ H] Hw Hrw Hi Hl Hfirst. eapply (IH _ _ n H); try done.
    + rewrite lookup_insert_ne; [done|]. apply (Hfirst 0%nat w0); [lia|done].
    + intros m w' Hm Hw'. apply (Hfirst (S m) w'); [lia|done].
Qed.

(** ** The theorems *)

Section theorems.
Context (d : Db (T := T)) (jobs : list Job) (s : Sys (T := T) Outcome).
Hypothesis Hquiescent : quiescent d.
Hypothesis Hreachable : rtc step (start d (pool jobs)) s.

(** C10. In every interleaving of stateless calls and reaper passes: no two
    threads hold the same lock, a word has its lock bit exactly while a thread
    holds the lock, the next access of any thread changes the contents of an
    item only if some thread has it locked and takes an entry out of an index
    only if its item is locked and empty, and when every thread has returned
    nothing is locked. *)
Theorem stateless_locks_are_exclusive s' : step s s' ->
  (forall i j p h p' h' x, threads s !! i = Some (p, h) -> threads s !! j = Some (p', h') ->
     is_Some (owned h !! x) -> is_Some (owned h' !! x) -> i = j) ∧
  (forall x, is_locked (word_at (db s) x) = true <->
     ∃ i p h, threads s !! i = Some (p, h) ∧ is_Some (owned h !! x)) ∧
  (forall x, contents (item_at (db s') x) <> contents (item_at (db s) x) ->
     ∃ i p h, threads s !! i = Some (p, h) ∧ is_Some (owned h !! x)) ∧
  (forall ix k x, table_find (trees (db s) ix) k = Some x -> table_find (trees (db s') ix) k <> Some x ->
     ∃ i p h, threads s !! i = Some (p, h) ∧ is_Some (owned h !! x) ∧ is_tombstone ix (item_at (db s) x) = true) ∧
  ((forall i p h, threads s !! i = Some (p, h) -> ∃ o, p = Ret o) -> forall x, is_locked (word_at (db s) x) = false).
Proof.
  intros Hstep. pose proof (pool_inv _ _ _ Hquiescent Hreachable) as Hi. pose proof Hi as [_ Hth Hdis Hlk].
  split_and!.
  - intros i j p h p' h' x Hti Htj [a Ha] [b Hb]. destruct (decide (i = j)) as [|Hne]; [done|]. exfalso.
    by apply (proj1 (map_disjoint_spec _ _) (Hdis _ _ _ _ _ _ Hne Hti Htj) x a b).
  - intros x. split; [apply Hlk|]. intros (i & p & h & Ht & [it Hx]). destruct (Hth _ _ _ Ht) as [(_ & Ho & _) _].
    destruct (Ho _ _ Hx) as [Hh Hl]. unfold word_at. by rewrite (item_at_heap _ _ _ Hh).
  - intros x Hc. destruct Hstep as [i R o k h Ht r d' Hw|Hg]; [|done]. destruct (Hth _ _ _ Ht) as [Hag [Hp _]].
    exists i, (Vis o k), h. split; [done|]. by apply (contents_after i o (db s) h x Hag Hp).
  - intros ix k x Hf Hf'. destruct Hstep as [i R o k' h Ht r d' Hw|Hg]; [|done]. destruct (Hth _ _ _ Ht) as [Hag [Hp _]].
    destruct (detached_after i o (db s) h ix k x Hag Hp Hf Hf') as (it & Hx & Htomb). exists i, (Vis o k'), h.
    split; [done|]. split; [by eexists|]. destruct Hag as (_ & Ho & _). destruct (Ho _ _ Hx) as [Hh _].
    by rewrite (item_at_heap _ _ _ Hh).
  - intros Hall x. destruct (is_locked (word_at (db s) x)) eqn:E; [|done]. destruct (Hlk x E) as (i & p & h & Ht & Hx).
    destruct (Hall _ _ _ Ht) as [o ->]. destruct (Hth _ _ _ Ht) as [_ Hpost].
    assert (is_Some (jobs !! i)) as [j Hj].
    { apply lookup_lt_is_Some. apply lookup_lt_Some in Ht. rewrite (pool_length _ _ Hreachable) in Ht.
      unfold start, pool in Ht. simpl in Ht. by rewrite !length_map in Ht. }
    destruct (Hpost j Hj) as [E0 _]. rewrite E0, lookup_empty in Hx. by destruct Hx.
Qed.

(** C11. In every interleaving of stateless calls and reaper passes a version
    names the contents it was published with: an item that is unlocked at some
    time and has the same version at a later time is the same item then, row,
    postings and all. So a read that is validated by its version is validated
    by its value. Executions in which the 32-bit tid of a version would wrap
    are excluded. *)
Theorem stateless_versions_name_contents s' x : rtc step s s' ->
  is_locked (word_at (db s) x) = false -> word_at (db s') x = word_at (db s) x ->
  item_at (db s') x = item_at (db s) x.
Proof. apply (versions_name_contents (cat := catalogue d) (posts (cat := catalogue d) jobs)). by eapply pool_inv. Qed.

(** C5. A stateless commit that returns true, whatever other calls and reaper
    passes run beside it, resolved every write and index operation to an item
    that was in its index while locked; it published, all in one epoch no
    older than any version it replaced, exactly what the request makes of the
    items as it had locked them, so that the last write of a row is the row;
    it logged the items as published, unlocked versions included, and handed
    every deleted row to the reaper under the version it published. Executions
    in which the 32-bit tid of a version would wrap are excluded. *)
Theorem stateless_commit_installs_request i logging req h :
  jobs !! i = Some (CommitJob logging req) -> threads s !! i = Some (Ret Committed, h) ->
  ∃ r e m, resolves (cat := catalogue d) req r ∧ owned h = ∅ ∧
    (forall t, t ∈ lock_targets r -> target_entry t ∈ attached h ∧ is_Some (acquired h !! target_item t)) ∧
    apply_ops (resolved_si_ops r) (apply_writes (resolved_writes r) (locked_version <$> acquired h)) = Some m ∧
    published h = finish e <$> m ∧
    (forall x it, acquired h !! x = Some it -> TransactionId.epoch (DataItem.transaction_id it) <= e) ∧
    (forall pre w post, resolved_writes r = pre ++ w :: post ->
       (forall w', w' ∈ post -> rw_item w' <> rw_item w) ->
       ∃ it, published h !! rw_item w = Some it ∧
         DataBuffer.payload (DataItem.buffer it) = if rw_is_delete w then [] else rw_value w) ∧
    logged h = (if logging && negb (bool_decide (log_of r (published h) = []))
                then [(log_of r (published h), e)] else []) ∧
    (forall c, c ∈ queued h -> ∃ it, published h !! candidate_item c = Some it ∧
       delete_commit_tid c = DataItem.transaction_id it) ∧
    (forall w it, w ∈ resolved_writes r -> rw_is_delete w = true -> published h !! rw_item w = Some it ->
       deleted_row w (DataItem.transaction_id it) ∈ queued h).
Proof.
  intros Hj Ht. destruct (pool_finished _ _ _ _ _ _ _ Hquiescent Hreachable Hj Ht) as [_ (r & Hres & Hpost & _ & Hat)].
  destruct Hpost as (e & m & Hm & Ho & Hp & [Hcw Hco] & He & Hl & Hq & Hd & _).
  assert (forall x, is_Some (published h !! x) -> is_Some (acquired h !! x)) as Hacq.
  { intros x. rewrite Hp, lookup_fmap, fmap_is_Some. intros Hx.
    eapply (fmap_same_some (fun it => DataItem.transaction_id (locked_version it)) DataItem.transaction_id); [|exact Hx].
    rewrite (apply_ops_word _ _ _ x Hm), apply_writes_word, lookup_fmap. by destruct (acquired h !! x). }
  exists r, e, m. split; [done|]. split; [done|]. split; [|split; [done|]; split; [done|]; split; [done|]; split; [|done]].
  - intros t Htt. split; [by apply Hat|]. apply Hacq.
    apply elem_of_app in Htt as [(w & -> & Hw)%list_elem_of_fmap|(o & -> & Hoo)%list_elem_of_fmap]; simpl; auto.
  - intros pre w post Hws Hpost. destruct (Hacq (rw_item w)) as [it Hit].
    { apply Hcw. rewrite Hws. set_solver. }
    destruct (last_write_installed _ pre w post _ _ _ (locked_version it) Hws Hpost Hm) as (it' & Hit' & Hpay).
    { by rewrite lookup_fmap, Hit. }
    exists (finish e it'). by rewrite Hp, lookup_fmap, Hit'.
Qed.

(** C12. A stateless commit that returns false has released every lock it took
    and given back every item exactly as it found it, version included; it has
    logged nothing, handed nothing to the reaper, left the epoch and released
    the lock of the catalogue. *)
Theorem stateless_abort_leaves_no_trace i logging req reason h :
  jobs !! i = Some (CommitJob logging req) -> threads s !! i = Some (Ret (AbortedFor reason), h) ->
  owned h = ∅ ∧ published h = acquired h ∧ joined h = None ∧ schema_held h = 0 ∧ logged h = [] ∧ queued h = [].
Proof.
  intros Hj Ht. destruct (pool_finished _ _ _ _ _ _ _ Hquiescent Hreachable Hj Ht) as [_ H]. exact H.
Qed.

(** C6. A stateless commit that returns true observed, after it had taken all
    its locks, every exact read of the request from a table that exists: the
    key led to a live item of the captured version, or to no live item for a
    read that found none; a read from a table that does not exist (the
    catalogue is held still by the commit) had captured that it found nothing.
    An insertion into a key that no earlier entry of the request names found
    no row under the lock, and an entry of a UNIQUE index that held at most
    one primary key holds at most one in what was published. *)
Theorem stateless_commit_validates i logging req h :
  jobs !! i = Some (CommitJob logging req) -> threads s !! i = Some (Ret Committed, h) ->
  ∃ r, resolves (cat := catalogue d) req r ∧
    (forall rd, rd ∈ reads req -> is_Some (catalogue d !! read_table rd) -> read_valid (read_entry rd) h) ∧
    (forall rd, rd ∈ reads req -> catalogue d !! read_table rd = None -> read_found rd = false ∧ read_tid rd = 0) ∧
    (forall n w rw it, writes req !! n = Some w -> write_is_insert w = true -> resolved_writes r !! n = Some rw ->
       (forall n' w', (n' < n)%nat -> writes req !! n' = Some w' -> request_key w' <> request_key w) ->
       acquired h !! rw_item rw = Some it -> DataItem.IsPrimaryInitialized it = false) ∧
    (forall x it, acquired h !! x = Some it -> at_most_one it ->
       Forall (fun o => string_ok (si_primary_key o)) (secondary_index_ops req) ->
       (forall o, o ∈ resolved_si_ops r -> rs_item o = x -> rs_unique o = true) ->
       ∃ it', published h !! x = Some it' ∧ at_most_one it').
Proof.
  intros Hj Ht. destruct (pool_finished _ _ _ _ _ _ _ Hquiescent Hreachable Hj Ht) as [_ (r & Hres & Hpost & Hval & _)].
  exists r. split; [done|]. split; [|split; [|split]].
  - intros rd Hrd [? Htab]. pose proof (resolves_reads _ _ Hres _ Hrd) as H. unfold read_resolved, fixed_catalogue in H.
    rewrite Htab in H. by apply (validated_reads _ _ Hval).
  - intros rd Hrd Htab. pose proof (resolves_reads _ _ Hres _ Hrd) as H. unfold read_resolved, fixed_catalogue in H.
    by rewrite Htab in H.
  - intros n w rw it Hw Hi Hrw Hfirst Hit. eapply (validated_inserts _ _ Hval); [by eapply list_elem_of_lookup_2|..|done].
    by eapply (first_insert_checked ∅ _ _ n w rw (resolves_inserts _ _ Hres)).
  - intros x it Hit Hone Hok Hu. destruct Hpost as (e & m & Hm & _ & Hp & _).
    assert (∃ it1, apply_writes (resolved_writes r) (locked_version <$> acquired h) !! x = Some it1 ∧
      DataItem.primary_keys_ it1 = DataItem.primary_keys_ it) as (it1 & H1 & Hk1).
    { pose proof (apply_writes_keys (resolved_writes r) (locked_version <$> acquired h) x) as E.
      rewrite lookup_fmap, Hit in E. simpl in E. destruct (apply_writes _ _ !! x) as [it1|]; [|done]. injection E as E. eauto. }
    destruct (unique_apply (resolved_si_ops r) (list_of (acquired h) ∅) (apply_writes (resolved_writes r) (locked_version <$> acquired h)) m x it1) as (it' & Hx & Hone'); try done.
    + apply (validated_unique _ _ Hval).
    + clear -Hres Hok. induction (resolves_ops _ _ Hres) as [|o ro os ros Ho _ IH]; [constructor|].
      apply Forall_cons in Hok as [H1 H2]. constructor; [|by apply IH]. by destruct Ho as (_ & _ & _ & -> & _).
    + unfold list_of. by rewrite lookup_empty, Hit, Hk1.
    + destruct Hone as (ks & Hks & H). exists ks. unfold item_keys in *. by rewrite Hk1.
    + exists (finish e it'). by rewrite Hp, lookup_fmap, Hx.
Qed.

End theorems.

End pools.
