(* ===== verification/StatelessDemo.v ===== *)
(** * Schedules of stateless clients

    A tree in which the interface of StatelessLogic.v holds, an executable
    scheduler, and schedules that the theorems of StatelessPool.v are applied
    to.  [absent_reads_allow_write_skew] is a schedule of two commits that both
    succeed although no order of the two would let both succeed. *)

From S2P Require Import Prelude PackedKeys Types DataItem LogReplay Stateless StatelessLogic StatelessCommit StatelessPool.

(** ** A tree *)

Definition closer (reverse : bool) (a b : bytestring * Z) : bool :=
  if reverse then str_ltb b.1 a.1 else str_ltb a.1 b.1.

Fixpoint nearest (reverse : bool) (l : list (bytestring * Z)) : option (bytestring * Z) :=
  match l with
  | [] => None
  | e :: l' => match nearest reverse l' with
               | Some e' => Some (if closer reverse e' e then e' else e)
               | None => Some e
               end
  end.

Definition beyondb (reverse : bool) (firstkey : bytestring) (emit : bool) (e : bytestring * Z) : bool :=
  emit && str_eqb e.1 firstkey || (if reverse then str_ltb e.1 firstkey else str_ltb firstkey e.1).

#[global] Instance map_table : BasicTable (gmap bytestring Z) := {
  table_initialize := ∅;
  table_find t k := t !! k;
  table_insert t k x := <[k := x]> t;
  table_remove t k := delete k t;
  table_scan reverse t firstkey emit := nearest reverse (List.filter (beyondb reverse firstkey emit) (map_to_list t));
}.

Lemma beyondb_spec reverse firstkey emit e : beyondb reverse firstkey emit e = true <-> beyond reverse firstkey emit e.1.
Proof.
  unfold beyondb, beyond. rewrite orb_true_iff, andb_true_iff, str_eqb_eq. by destruct reverse.
Qed.

Lemma nearest_none reverse l : nearest reverse l = None -> l = [].
Proof. destruct l; simpl; [done|]. by destruct (nearest reverse l). Qed.

Lemma nearest_some reverse l e : nearest reverse l = Some e ->
  e ∈ l ∧ forall e', e' ∈ l -> e'.1 = e.1 ∨ (if reverse then str_lt e'.1 e.1 else str_lt e.1 e'.1).
Proof.
  revert e. induction l as [|a l IH]; intros e; simpl; [done|]. destruct (nearest reverse l) as [b|] eqn:E.
  - destruct (IH b eq_refl) as [Hb Hall]. unfold closer. intros [= <-].
    assert (forall c : bytestring * Z, c.1 = b.1 ∨ (if reverse then str_lt c.1 b.1 else str_lt b.1 c.1) ->
      (if reverse then str_ltb b.1 a.1 else str_ltb a.1 b.1) = true \/ b.1 = a.1 ->
      c.1 = a.1 ∨ (if reverse then str_lt c.1 a.1 else str_lt a.1 c.1)) as Htr.
    { intros c [Hc|Hc] [H|H]; try (rewrite Hc, H; by left); try (rewrite <- H; by right).
      - rewrite Hc. right. by destruct reverse.
      - right. destruct reverse; [by apply (str_lt_trans _ b.1)|by apply (str_lt_trans _ b.1)]. }
    destruct reverse.
    + destruct (str_ltb a.1 b.1) eqn:Eab; (split; [set_solver|]); intros c [->|Hc]%elem_of_cons; auto.
      apply Htr; [by apply Hall|]. destruct (decide (b.1 = a.1)); [by right|left]. apply str_ltb_total; [done|congruence].
    + destruct (str_ltb b.1 a.1) eqn:Eab; (split; [set_solver|]); intros c [->|Hc]%elem_of_cons; auto.
      apply Htr; [by apply Hall|]. destruct (decide (b.1 = a.1)); [by right|left]. apply str_ltb_total; [done|congruence].
  - apply nearest_none in E as ->. intros [= <-]. split; [by left|]. intros c Hc%list_elem_of_singleton. subst. by left.
Qed.

#[global] Instance map_table_laws : BasicTableLaws (gmap bytestring Z).
Proof.
  split; simpl.
  - intros k. apply lookup_empty.
  - intros t k x k'. case_decide; [subst; apply lookup_insert_eq|by apply lookup_insert_ne].
  - intros t k k'. case_decide; [subst; apply lookup_delete_eq|by apply lookup_delete_ne].
  - intros reverse t firstkey emit k x H. apply nearest_some in H as [Hin Hall].
    apply list_elem_of_In, filter_In in Hin as [Hin%list_elem_of_In%elem_of_map_to_list Hb]. apply beyondb_spec in Hb.
    split; [done|]. split; [done|]. intros k' [x' Hx'] Hk'. apply (Hall (k', x')).
    apply list_elem_of_In, filter_In. split; [by apply list_elem_of_In, elem_of_map_to_list|by apply beyondb_spec].
  - intros reverse t firstkey emit k H [x Hx] Hb. apply nearest_none in H.
    assert ((k, x) ∈ List.filter (beyondb reverse firstkey emit) (map_to_list t)) as Hin.
    { apply list_elem_of_In, filter_In. split; [by apply list_elem_of_In, elem_of_map_to_list|by apply beyondb_spec]. }
    rewrite H in Hin. by apply elem_of_nil in Hin.
Qed.

(** ** A scheduler *)

Abbreviation MapDb := (Db (T := gmap bytestring Z)).
Abbreviation MapSys := (Sys (T := gmap bytestring Z) Outcome).

Definition no_wrapb (d : MapDb) : bool :=
  bool_decide (map_Forall (fun _ it => TransactionId.tid (DataItem.transaction_id it) < 2 ^ 32 - 1) (heap d)).

Lemma no_wrapb_spec d : no_wrapb d = true -> no_wrap d.
Proof.
  intros H%bool_decide_eq_true x. unfold word_at, item_at. destruct (heap d !! x) as [it|] eqn:E; [|done].
  apply (H x it E).
Qed.

Definition turn (i : nat) (s : MapSys) : MapSys :=
  match threads s !! i with
  | Some (Vis o k, h) =>
      let r := (exec i o (db s)).1 in
      let d' := (exec i o (db s)).2 in
      if no_wrapb d' then mkSys d' (<[i := (k r, record o r (db s) d' h)]> (threads s)) else s
  | _ => s
  end.

Fixpoint turns (schedule : list nat) (s : MapSys) : MapSys :=
  match schedule with [] => s | i :: schedule' => turns schedule' (turn i s) end.

Lemma turn_step i s : rtc step s (turn i s).
Proof.
  unfold turn. destruct (threads s !! i) as [[[] h]|] eqn:E; try apply rtc_refl.
  destruct (no_wrapb _) eqn:Ew; [|apply rtc_refl]. apply rtc_once. by apply step_access; [|apply no_wrapb_spec].
Qed.

Lemma turns_steps schedule s : rtc step s (turns schedule s).
Proof.
  revert s. induction schedule as [|i schedule IH]; intros s; [apply rtc_refl|]. simpl.
  etransitivity; [apply turn_step|apply IH].
Qed.

(** The results of the threads. *)
Definition results (s : MapSys) : list (option Outcome) :=
  map (fun t => match t.1 with Ret o => Some o | _ => None end) (threads s).

(** The bytes under a key of a table, none for no live row. *)
Definition row_at (d : MapDb) (table key : bytestring) : option bytestring :=
  match trees d (Primary table) !! key with
  | Some x => if DataItem.IsPrimaryInitialized (item_at d x)
              then Some (DataBuffer.payload (DataItem.buffer (item_at d x))) else None
  | None => None
  end.

(** ** Write skew *)

Module Skew.

Definition table : bytestring := [84].
Definition x : bytestring := [120].
Definition y : bytestring := [121].

Definition db0 : MapDb :=
  mkDb ∅ 1 (fun _ => ∅) {[table := ∅]} 0 5 (fun _ => THREAD_OFFLINE) [] (0, 0, 0) (fun _ => []) false.

(** Each of the two reads the key the other one writes, and finds nothing. *)
Definition reader_writer (absent written value : bytestring) : Job :=
  CommitJob true (mkRequest [mkRead table absent 0 false] [mkWrite table written value false false] [] []).
Definition first : Job := reader_writer x y [1].
Definition second : Job := reader_writer y x [2].

Definition start_state (jobs : list Job) : MapSys := start db0 (pool 100 true jobs).

(** Both run up to the end of their validation, then both install. *)
Definition interleaved : list nat := replicate 16 0%nat ++ replicate 16 1%nat ++ replicate 30 0%nat ++ replicate 30 1%nat.
Definition one_by_one : list nat := replicate 60 0%nat ++ replicate 60 1%nat.

End Skew.
Import Skew.

Lemma db0_quiescent : quiescent db0.
Proof. repeat split; simpl; intros; try done; unfold is_u32; simpl; lia. Qed.

(** C36. Two commits, each of which found the key of the other absent, both
    succeed in some interleaving and both rows are there afterwards, although
    one after the other the second is refused, in either order: the validation
    of a read that found nothing does not look at the lock of the item, so
    that it misses a commit that has been decided and not yet installed. *)
Theorem absent_reads_allow_write_skew :
  (∃ s, rtc step (start_state [first; second]) s ∧ results s = [Some Committed; Some Committed] ∧
     row_at (db s) table y = Some [1] ∧ row_at (db s) table x = Some [2]) ∧
  results (turns one_by_one (start_state [first; second])) =
    [Some Committed; Some (AbortedFor (exact_read_appeared table y))] ∧
  results (turns one_by_one (start_state [second; first])) =
    [Some Committed; Some (AbortedFor (exact_read_appeared table x))].
Proof.
  split; [|split; vm_compute; reflexivity].
  exists (turns interleaved (start_state [first; second])). split; [apply turns_steps|].
  split; [|split]; vm_compute; reflexivity.
Qed.

(** ** A table with a row and a UNIQUE index *)

Module Rows.

Definition index : bytestring := [73].

Definition row_a : DataItem.t :=
  DataItem.mk (TransactionId.mk 1 2) (DataBuffer.Reset DataBuffer.empty (Some [1])) None DataBuffer.empty [] false.

Definition db1 : MapDb :=
  mkDb {[1 := row_a]} 2 (fun ix => if decide (ix = Primary table) then {[[97] := 1]} else ∅)
    {[table := {[index := true]}]} 0 5 (fun _ => THREAD_OFFLINE) [] (0, 0, 0) (fun _ => []) true.

(** One commit reads and updates a row, inserts another one and adds a UNIQUE
    entry; the other one has read an older version. *)
Definition update : Request :=
  mkRequest [mkRead table [97] (2 ^ 32 + 2) true]
    [mkWrite table [97] [9; 9] false false; mkWrite table [98] [5] false true]
    [mkSi table index [115] [97] false] [].
Definition stale : Request :=
  mkRequest [mkRead table [97] (2 ^ 32) true] [mkWrite table [97] [0] false false] [] [].

Definition jobs : list Job :=
  [CommitJob true update; CommitJob true stale; RangeScanJob table [] [99] 0 false; ReapJob 9].
Definition start1 : MapSys := start db1 (pool 100 true jobs).

(** The second commit aborts while the scan is under way, then the first one
    runs up to its installation and to its end. *)
Definition aborted_ : list nat := replicate 3 2%nat ++ replicate 30 1%nat.
Definition locked_ : list nat := aborted_ ++ replicate 45 0%nat.
Definition finished : list nat := locked_ ++ replicate 60 0%nat ++ replicate 20 2%nat ++ replicate 5 3%nat.

End Rows.
Import Rows.

Lemma db1_quiescent : quiescent db1.
Proof.
  assert (forall x, item_at db1 x = row_a ∨ item_at db1 x = DataItem.empty) as Hcase.
  { intros x. unfold item_at, db1. simpl. destruct (decide (x = 1)) as [->|].
    - left. by rewrite lookup_singleton_eq.
    - right. by rewrite lookup_singleton_ne. }
  assert (forall x, word_at db1 x = TransactionId.mk 1 2 ∨ word_at db1 x = TransactionId.zero) as Hw.
  { intros x. unfold word_at. by destruct (Hcase x) as [-> | ->]; [left|right]. }
  split; [split_and!|].
  - intros x. by destruct (Hw x) as [-> | ->].
  - intros x. by destruct (Hw x) as [-> | ->].
  - simpl. intros x Hx. rewrite lookup_singleton_ne; [done|lia].
  - done.
  - done.
  - intros x. by destruct (Hw x) as [-> | ->].
Qed.

Lemma result_thread (s : MapSys) i o : results s !! i = Some (Some o) -> ∃ h, threads s !! i = Some (Ret o, h).
Proof.
  unfold results. rewrite list_lookup_fmap. intros ([p h] & Ht & E)%fmap_Some. exists h. rewrite Ht.
  destruct p; simpl in E; congruence.
Qed.

Definition can_turn (i : nat) (s : MapSys) : bool :=
  match threads s !! i with
  | Some (Vis o k, h) => no_wrapb (exec i o (db s)).2
  | _ => false
  end.

Lemma can_turn_step i s : can_turn i s = true -> step s (turn i s).
Proof.
  unfold can_turn, turn. destruct (threads s !! i) as [[[] h]|] eqn:E; try done. intros Hw. rewrite Hw.
  apply step_access; [done|by apply no_wrapb_spec].
Qed.

Lemma stateless_commit_installs_request_witness :
  ∃ h r e m, threads (turns finished start1) !! 0%nat = Some (Ret Committed, h) ∧ resolves (cat := catalogue db1) update r ∧
    published h = finish e <$> m.
Proof.
  destruct (result_thread (turns finished start1) 0 Committed) as [h Ht]; [vm_compute; reflexivity|].
  destruct (stateless_commit_installs_request 100 true db1 jobs (turns finished start1) db1_quiescent
    (turns_steps finished start1) 0 true update h eq_refl Ht) as (r & e & m & Hres & _ & _ & _ & Hp & _).
  exact (ex_intro _ h (ex_intro _ r (ex_intro _ e (ex_intro _ m (conj Ht (conj Hres Hp)))))).
Defined.

Lemma stateless_commit_validates_witness :
  ∃ h, threads (turns finished start1) !! 0%nat = Some (Ret Committed, h) ∧
    forall rd, rd ∈ reads update -> is_Some (catalogue db1 !! read_table rd) -> read_valid (read_entry rd) h.
Proof.
  destruct (result_thread (turns finished start1) 0 Committed) as [h Ht]; [vm_compute; reflexivity|].
  destruct (stateless_commit_validates 100 true db1 jobs (turns finished start1) db1_quiescent
    (turns_steps finished start1) 0 true update h eq_refl Ht) as (r & _ & Hr & _).
  exact (ex_intro _ h (conj Ht Hr)).
Defined.

Lemma stateless_abort_leaves_no_trace_witness :
  ∃ h reason, threads (turns finished start1) !! 1%nat = Some (Ret (AbortedFor reason), h) ∧ published h = acquired h.
Proof.
  destruct (result_thread (turns finished start1) 1 (AbortedFor (exact_read_tid_moved table [97]))) as [h Ht];
    [vm_compute; reflexivity|].
  destruct (stateless_abort_leaves_no_trace 100 true db1 jobs (turns finished start1) db1_quiescent
    (turns_steps finished start1) 1 true stale _ h eq_refl Ht) as (_ & Hp & _).
  exact (ex_intro _ h (ex_intro _ (exact_read_tid_moved table [97]) (conj Ht Hp))).
Defined.

Lemma stateless_locks_are_exclusive_witness :
  ∃ i p h, threads (turns locked_ start1) !! i = Some (p, h) ∧ is_Some (owned h !! 3).
Proof.
  destruct (stateless_locks_are_exclusive 100 true db1 jobs (turns locked_ start1) db1_quiescent
    (turns_steps locked_ start1) (turn 0 (turns locked_ start1))) as (_ & Hl & _).
  - apply can_turn_step. vm_compute. reflexivity.
  - apply Hl. vm_compute. reflexivity.
Defined.

Lemma stateless_versions_name_contents_witness :
  item_at (db (turns aborted_ start1)) 1 = row_a.
Proof.
  apply (stateless_versions_name_contents 100 true db1 jobs start1 db1_quiescent (rtc_refl step start1)
    (turns aborted_ start1) 1 (turns_steps aborted_ start1)); vm_compute; reflexivity.
Defined.
