(* ===== verification/MasstreeIndex.v ===== *)
(** * The Masstree index (src/src/index/impl/masstree_index.cpp,
    src/src/index/index_base.h)

    [MasstreeIndex] wraps an ordered tree: point operations that put a blank
    item where a key is missing, logical deletion, physical removal by the
    reaper, scans in both directions, and the versions of the leaves, with
    which a transaction finds out at commit whether a key has appeared in a
    range it has scanned.

    Masstree is a submodule; it is the interface [BasicTable] of
    StatelessLogic.v with the leaves and their versions, [LeafVersions], and
    laws: an insertion of a new key changes the version of its leaf, a version
    that a leaf has left does not come back, a step of a scan visits the leaves
    of all keys it passes.  A step of a scan searches the tree and then visits
    its leaves one by one; [visit_leaf] reads the version that the leaf has
    then, and other threads move between the search and the visits.
    Blank items are those of a table without a PAX store.  A backward scan
    without an end is left out: what the tree makes of the empty key it is
    given there cannot be read off the code.  The reclamation of removed items
    and leaves is Masstree's.

    The theorems show what the scans visit and count, and that the node
    versions exclude phantoms: in every interleaving of a transaction's scans
    and own insertions with other threads' insertions, overwrites and
    removals, if the reconciliation of the own insertions met no race and
    [ValidatePhantoms] succeeds, every key that a step of a scan covered was
    seen by the scans or inserted by the transaction itself, provided that the
    leaves of the step had not changed when their versions were read; a key
    that is inserted between the search and that read is a phantom that
    [ValidatePhantoms] accepts. *)

From stdpp Require Import gmap.
From S2P Require Import Prelude PackedKeys Types DataItem Transaction StatelessLogic StatelessDemo.

(** ** The tree *)

(** What the wrapper uses of the leaves: the leaf of a key and its version, the
    node and the versions that a cursor reports for the insertion of a key,
    the leaves a step of a scan visits, and the keys. *)
Class LeafVersions (T : Type) `{!BasicTable T} := {
  leaf_of : T -> bytestring -> Z;
  full_unlocked_version_value : T -> Z -> Z;
  cursor_node : T -> bytestring -> Z;
  previous_full_version_value : T -> bytestring -> Z;
  next_full_version_value : T -> bytestring -> Z;
  scan_leaves : bool -> T -> bytestring -> bool -> list Z;
  table_keys : T -> list bytestring;
}.

(** The keys that a step of a scan passes, the one it finds included. *)
Definition passed {T} `{!BasicTable T} (reverse : bool) (t : T) (firstkey : bytestring) (emit : bool) (k : bytestring) : Prop :=
  beyond reverse firstkey emit k ∧
  match table_scan reverse t firstkey emit with
  | None => True
  | Some (found, _) => k = found ∨ (if reverse then str_lt found k else str_lt k found)
  end.

(** [version_le] is the order in which a leaf takes its versions. *)
Class LeafVersionsLaws (T : Type) `{!BasicTable T} `{!LeafVersions T} := {
  version_le : Z -> Z -> Prop;
  version_order :: PartialOrder version_le;
  keys_law t k : k ∈ table_keys t <-> is_Some (table_find t k);
  overwrite_law t k x : is_Some (table_find t k) ->
    (∀ l, full_unlocked_version_value (table_insert t k x) l = full_unlocked_version_value t l) ∧
    (∀ k', leaf_of (table_insert t k x) k' = leaf_of t k');
  insert_law t k x l : table_find t k = None ->
    version_le (full_unlocked_version_value t l) (full_unlocked_version_value (table_insert t k x) l) ∧
    (full_unlocked_version_value (table_insert t k x) l = full_unlocked_version_value t l ->
     ∀ k', leaf_of t k' = l -> k' <> k ∧ leaf_of (table_insert t k x) k' = l);
  remove_law t k l :
    version_le (full_unlocked_version_value t l) (full_unlocked_version_value (table_remove t k) l) ∧
    (full_unlocked_version_value (table_remove t k) l = full_unlocked_version_value t l ->
     ∀ k', leaf_of t k' = l -> leaf_of (table_remove t k) k' = l);
  next_law t k x : table_find t k = None ->
    next_full_version_value t k = full_unlocked_version_value (table_insert t k x) (cursor_node t k);
  previous_law t k x : table_find t k = None ->
    (** the version before, and then the leaf keeps its keys, or a new one *)
    previous_full_version_value t k = full_unlocked_version_value t (cursor_node t k) ∧
      (∀ k', leaf_of t k' = cursor_node t k -> leaf_of (table_insert t k x) k' = cursor_node t k) ∨
    ¬ version_le (previous_full_version_value t k) (full_unlocked_version_value t (cursor_node t k));
  scan_leaves_law reverse t firstkey emit k : passed reverse t firstkey emit k ->
    leaf_of t k ∈ scan_leaves reverse t firstkey emit;
}.

Module MasstreeIndex.

(** [memcmp], as the sign of its result. *)
Fixpoint memcmp (a b : bytestring) (n : nat) : comparison :=
  match n, a, b with
  | S n', x :: a', y :: b' => match x ?= y with Eq => memcmp a' b' n' | c => c end
  | _, _, _ => Eq
  end.

(** The comparison of [visit_value] and of the [adapter_op]s: whether the first
    string is the greater one. *)
Definition greater (bound key : bytestring) : bool :=
  match memcmp bound key (Nat.min (length bound) (length key)) with
  | Gt => true
  | Eq => zlen key <? zlen bound
  | Lt => false
  end.

Section index.
Context {T : Type} `{!BasicTable T} `{!LeafVersions T}.

(** The tree, and the items it points to. *)
Record t := mk { table_ : T; items : gmap Z DataItem.t; next_item : Z }.

Definition with_table (ix : t) (tb : T) : t := mk tb (items ix) (next_item ix).

(** A new item in the slot of a key. *)
Definition store_new (ix : t) (key : bytestring) (item : DataItem.t) : t :=
  mk (table_insert (table_ ix) key (next_item ix)) (<[next_item ix := item]> (items ix)) (next_item ix + 1).

Definition Get (ix : t) (key : bytestring) : option Z := table_find (table_ ix) key.

(** The report of a structural insertion; [self] is the index. *)
Definition report (self : Z) (ix : t) (key : bytestring) : NodeVersionUpdate :=
  mkUpdate self (Some (cursor_node (table_ ix) key)) (previous_full_version_value (table_ ix) key)
    (next_full_version_value (table_ ix) key) true.

Definition Put (self : Z) (ix : t) (key : bytestring) (rhs : DataItem.t) : bool * NodeVersionUpdate * t :=
  match table_find (table_ ix) key with
  | Some _ => (true, no_update, store_new ix key rhs)
  | None => (true, report self ix key, store_new ix key rhs)
  end.

Definition Insert (self : Z) (ix : t) (key : bytestring) : bool * NodeVersionUpdate * t :=
  match table_find (table_ ix) key with
  | Some existing =>
      match items ix !! existing with
      | Some item => (negb (DataItem.IsPrimaryInitialized item), no_update, ix)
      | None => (false, no_update, ix)
      end
  | None => (true, report self ix key, store_new ix key DataItem.empty)
  end.

Definition Delete (ix : t) (key : bytestring) : bool := true.

Definition Purge (ix : t) (key : bytestring) (expected : option Z) (retired_tid : TransactionId.t) : bool * t :=
  match table_find (table_ ix) key with
  | None => (false, ix)
  | Some current =>
      if match expected with Some e => negb (current =? e) | None => false end then (false, ix)
      else
        (true, mk (table_remove (table_ ix) key)
                 (if TransactionId.IsEmpty retired_tid then items ix
                  else alter (fun it => DataItem.set_transaction_id it retired_tid) current (items ix))
                 (next_item ix))
  end.

Definition ForcePutBlankEntry (self : Z) (ix : t) (key : bytestring) : NodeVersionUpdate * t :=
  match table_find (table_ ix) key with
  | Some _ => (no_update, ix)
  | None => (report self ix key, store_new ix key DataItem.empty)
  end.

Definition EnsureVisibleForSecondaryWrite (self : Z) (ix : t) (key : bytestring) : bool * NodeVersionUpdate * t :=
  let '(u, ix') := ForcePutBlankEntry self ix key in (true, u, ix').

(** [visit_leaf]: it reads the version of the leaf now. *)
Definition visit_leaf (self : Z) (tb : T) (leaf : Z) : NodeVersionEntry :=
  mkEntry self leaf (full_unlocked_version_value tb leaf).

Section scans.
Context {S : Type}.

(** A scan of the tree, [visit_value] returning false to stop. *)
Fixpoint scan (n : nat) (self : Z) (reverse : bool) (tb : T) (firstkey : bytestring) (emit : bool)
    (visit_value : bytestring -> Z -> S -> bool * S) (s : S) (out : list NodeVersionEntry)
    : option (S * list NodeVersionEntry) :=
  match n with
  | O => None
  | Datatypes.S n' =>
      let out' := out ++ map (visit_leaf self tb) (scan_leaves reverse tb firstkey emit) in
      match table_scan reverse tb firstkey emit with
      | None => Some (s, out')
      | Some (key, item) =>
          let '(more, s') := visit_value key item s in
          if more then scan n' self reverse tb key false visit_value s' out' else Some (s', out')
      end
  end.
End scans.

Section adapters.
Context {S : Type}.

(** [visit_value] of [ScanAdapter] and [ScanValueAdapter]: the count, and the
    state of the callback, which cancels by returning true. *)
Definition visit_value (end_ : option bytestring) (cb : bytestring -> Z -> S -> bool * S) (key : bytestring) (val : Z)
    (st : Z * S) : bool * (Z * S) :=
  if match end_ with Some e => negb (greater e key) | None => false end then (false, st)
  else let '(cancel, s') := cb key val st.2 in (negb cancel, (u64 (st.1 + 1), s')).

(** Enough for every key of the tree. *)
Definition scan_fuel (ix : t) : nat := Datatypes.S (length (table_keys (table_ ix))).

Definition Scan (self : Z) (ix : t) (begin : bytestring) (end_ : option bytestring) (op : bytestring -> Z -> S -> bool * S)
    (s : S) : option (Z * S * list NodeVersionEntry) :=
  scan (scan_fuel ix) self false (table_ ix) begin true (visit_value end_ op) (0, s) [].

(** The wrapper of the callback of a backward scan. *)
Definition adapter_op (begin : bytestring) (op : bytestring -> Z -> S -> bool * S) (key : bytestring) (val : Z) (s : S) : bool * S :=
  if greater begin key then (true, s) else op key val s.

Definition ScanReverse (self : Z) (ix : t) (begin end_ : bytestring) (op : bytestring -> Z -> S -> bool * S)
    (s : S) : option (Z * S * list NodeVersionEntry) :=
  scan (scan_fuel ix) self true (table_ ix) end_ false (visit_value None (adapter_op begin op)) (0, s) [].

Definition ForEach (ix : t) (op : bytestring -> Z -> S -> bool * S) (s : S) : option (Z * S * list NodeVersionEntry) :=
  scan (scan_fuel ix) 0 false (table_ ix) [] true (visit_value None op) (0, s) [].

End adapters.

Definition ValidatePhantoms (self : Z) (ix : t) (entries : list NodeVersionEntry) : bool :=
  forallb (fun e => negb (owner e =? self) || (full_unlocked_version_value (table_ ix) (node_ptr e) =? version e)) entries.

End index.
#[global] Arguments t : clear implicits.
End MasstreeIndex.
Import MasstreeIndex.

(** ** Comparisons *)

Lemma u64_add_l a b : u64 (u64 a + b) = u64 (a + b).
Proof. unfold u64. by rewrite Zplus_mod_idemp_l. Qed.

Lemma memcmp_ltb a b :
  match memcmp a b (Nat.min (length a) (length b)) with
  | Gt => str_ltb b a = true
  | Lt => str_ltb a b = true
  | Eq => str_ltb b a = (zlen b <? zlen a)
  end.
Proof.
  revert b. induction a as [|x a IH]; intros [|y b]; cbn [length Nat.min memcmp str_ltb]; try done.
  specialize (IH b). destruct (Z.compare_spec x y) as [->|H|H].
  - rewrite Z.ltb_irrefl. destruct (memcmp a b _); cbn; try done.
    rewrite IH. unfold zlen. cbn [length].
    destruct (Z.ltb_spec (Z.of_nat (length b)) (Z.of_nat (length a))),
      (Z.ltb_spec (Z.of_nat (S (length b))) (Z.of_nat (S (length a)))); lia || done.
  - by rewrite (proj2 (Z.ltb_lt x y) H).
  - by rewrite (proj2 (Z.ltb_lt y x) H).
Qed.

(** The comparison is the order on strings. *)
Lemma greater_ltb bound key : greater bound key = str_ltb key bound.
Proof.
  unfold greater. pose proof (memcmp_ltb bound key) as H. destruct (memcmp _ _ _); [done| |done].
  symmetry. by apply str_lt_asym.
Qed.

(** ** What the scans visit *)

Section scans.
Context {T : Type} `{!BasicTable T} `{!LeafVersions T} `{!BasicTableLaws T} `{!LeafVersionsLaws T}.
Implicit Types tb : T.

(** The entries beyond a key, in the order of a scan. *)
Definition entries_beyond (reverse : bool) tb (firstkey : bytestring) (emit : bool) (l : list (bytestring * Z)) : Prop :=
  StronglySorted (fun a b => if reverse then str_lt b.1 a.1 else str_lt a.1 b.1) l ∧
  ∀ k x, (k, x) ∈ l <-> table_find tb k = Some x ∧ beyond reverse firstkey emit k.

(** Calls of a visitor until it stops. *)
Fixpoint visits {S} (visit : bytestring -> Z -> S -> bool * S) (l : list (bytestring * Z)) (s : S) : S :=
  match l with
  | [] => s
  | (k, x) :: l' => let '(more, s') := visit k x s in if more then visits visit l' s' else s'
  end.

Lemma beyond_trans reverse firstkey emit k k' : beyond reverse firstkey emit k -> beyond reverse k false k' ->
  beyond reverse firstkey emit k'.
Proof.
  unfold beyond. intros H [[? _]|H']; [done|]. right. destruct reverse; destruct H as [[_ ->]|H]; try done.
  - by transitivity k.
  - by transitivity k.
Qed.

(** A step finds the first of them, and the others are beyond it. *)
Lemma scan_first reverse tb firstkey emit l : entries_beyond reverse tb firstkey emit l ->
  match l with
  | [] => table_scan reverse tb firstkey emit = None
  | (k, x) :: l' => table_scan reverse tb firstkey emit = Some (k, x) ∧ entries_beyond reverse tb k false l'
  end.
Proof.
  intros [Hs Hl]. destruct (table_scan reverse tb firstkey emit) as [[k x]|] eqn:E.
  - destruct (scan_some _ _ _ _ _ _ E) as (Hf & Hb & Hmin). pose proof (proj2 (Hl k x) (conj Hf Hb)) as Hin.
    destruct l as [|[k0 x0] l]; [by apply elem_of_nil in Hin|]. apply StronglySorted_inv in Hs as [Hs Hall].
    rewrite Forall_forall in Hall. destruct (proj1 (Hl k0 x0) (list_elem_of_here _ _)) as [Hf0 Hb0].
    assert (k = k0) as ->.
    { apply elem_of_cons in Hin as [?|Hin]; [by simplify_eq|]. specialize (Hall _ Hin). cbn in Hall.
      destruct (Hmin k0 (mk_is_Some _ _ Hf0) Hb0) as [->|Hlt]; [done|]. exfalso.
      destruct reverse; apply str_lt_asym in Hall; unfold str_lt in Hlt; congruence. }
    rewrite Hf in Hf0. injection Hf0 as ->. split; [done|]. split; [done|]. intros k' x'. split.
    + intros Hin'. destruct (proj1 (Hl k' x') ltac:(by apply list_elem_of_further)) as [Hf' _]. split; [done|].
      right. specialize (Hall _ Hin'). cbn in Hall. by destruct reverse.
    + intros [Hf' Hb']. pose proof (proj2 (Hl k' x') (conj Hf' (beyond_trans _ _ _ _ _ Hb0 Hb'))) as Hin'.
      apply elem_of_cons in Hin' as [E'|?]; [|done]. injection E' as -> ->. destruct Hb' as [[? _]|Hb']; [done|].
      exfalso. destruct reverse; unfold str_lt in Hb'; by rewrite str_ltb_irrefl in Hb'.
  - destruct l as [|[k0 x0] l]; [done|]. exfalso. destruct (proj1 (Hl k0 x0) (list_elem_of_here _ _)) as [Hf0 Hb0].
    by apply (scan_none _ _ _ _ k0 E (mk_is_Some _ _ Hf0)).
Qed.

Lemma scan_visits {S} n self reverse tb firstkey emit (visit : bytestring -> Z -> S -> bool * S) l s out :
  entries_beyond reverse tb firstkey emit l -> (length l < n)%nat ->
  ∃ out', scan n self reverse tb firstkey emit visit s out = Some (visits visit l s, out').
Proof.
  revert firstkey emit l s out. induction n as [|n IH]; intros firstkey emit l s out Hl Hn; [lia|]. cbn [scan].
  pose proof (scan_first _ _ _ _ _ Hl) as H. destruct l as [|[k x] l]; cbn [visits].
  - rewrite H. eauto.
  - destruct H as [-> Hl']. destruct (visit k x s) as [[] s']; [|eauto]. apply IH; [done|]. cbn in Hn. lia.
Qed.

Lemma entries_bound reverse tb firstkey emit l : entries_beyond reverse tb firstkey emit l ->
  (length l <= length (table_keys tb))%nat.
Proof.
  intros [Hs Hl]. rewrite <- (length_map fst l). apply submseteq_length, NoDup_submseteq.
  - clear Hl. induction Hs as [|[k x] l Hs IH Hall]; cbn; [constructor|]. apply NoDup_cons. split; [|done].
    rewrite Forall_forall in Hall. intros ((k' & x') & -> & Hin)%list_elem_of_fmap. specialize (Hall _ Hin). cbn in Hall.
    destruct reverse; unfold str_lt in Hall; by rewrite str_ltb_irrefl in Hall.
  - intros k ((k' & x) & -> & Hin)%list_elem_of_fmap. apply keys_law. destruct (proj1 (Hl k' x) Hin). eauto.
Qed.

(** The calls of the callback of a scan: how many, the state after them, and
    whether the callback has cancelled the scan. *)
Fixpoint feed {S} (op : bytestring -> Z -> S -> bool * S) (l : list (bytestring * Z)) (s : S) : Z * S * bool :=
  match l with
  | [] => (0, s, false)
  | (k, x) :: l' =>
      let '(cancel, s') := op k x s in
      if cancel then (1, s', true) else let '(c, s'', b) := feed op l' s' in (c + 1, s'', b)
  end.

Definition below (bound : bytestring) (e : bytestring * Z) : bool := str_ltb e.1 bound.

Lemma forward_visits {S} (op : bytestring -> Z -> S -> bool * S) end_ l s c :
  StronglySorted (fun a b => str_lt a.1 b.1) l ->
  visits (visit_value end_ op) l (u64 c, s) =
  let '(n, s', _) := feed op (match end_ with Some e => List.filter (below e) l | None => l end) s in (u64 (c + n), s').
Proof.
  intros Hs. revert s c. induction Hs as [|[k x] l Hs IH Hall]; intros s c; cbn [visits].
  { destruct end_; cbn; by rewrite Z.add_0_r. }
  unfold visit_value at 1. destruct end_ as [e|].
  - rewrite greater_ltb. cbn [List.filter]. unfold below at 1. cbn [fst]. destruct (str_ltb k e) eqn:Ek; cbn [negb].
    + cbn [feed snd fst]. destruct (op k x s) as [[] s']; cbn [negb]; [f_equal; apply u64_add_l|].
      rewrite u64_add_l, IH. destruct (feed op _ s') as [[n s''] b]. f_equal. f_equal. lia.
    + assert (List.filter (below e) l = []) as ->; [|cbn; by rewrite Z.add_0_r].
      rewrite Forall_forall in Hall. clear -Hall Ek. induction l as [|[k' x'] l IH]; [done|]. cbn [List.filter].
      unfold below at 1. cbn [fst]. destruct (str_ltb k' e) eqn:E'; [|apply IH; intros y Hy; apply Hall; by right].
      specialize (Hall (k', x') (list_elem_of_here _ _)). cbn in Hall.
      assert (str_lt k e) by (transitivity k'; done). unfold str_lt in *. congruence.
  - cbn [feed snd fst]. destruct (op k x s) as [[] s']; cbn [negb]; [f_equal; apply u64_add_l|].
    rewrite u64_add_l, IH. destruct (feed op l s') as [[n s''] b]. f_equal. f_equal. lia.
Qed.

(** A backward scan counts the entry below the range at which it stops. *)
Lemma backward_visits {S} (op : bytestring -> Z -> S -> bool * S) begin l s c :
  StronglySorted (fun a b => str_lt b.1 a.1) l ->
  visits (visit_value None (adapter_op begin op)) l (u64 c, s) =
  let '(n, s', cancelled) := feed op (List.filter (fun e => negb (below begin e)) l) s in
  (u64 (c + n + if negb cancelled && existsb (below begin) l then 1 else 0), s').
Proof.
  intros Hs. revert s c. induction Hs as [|[k x] l Hs IH Hall]; intros s c; cbn [visits].
  { cbn. by rewrite !Z.add_0_r. }
  unfold visit_value at 1, adapter_op at 1. rewrite greater_ltb. cbn [List.filter existsb snd fst].
  change (below begin (k, x)) with (str_ltb k begin). destruct (str_ltb k begin) eqn:Ek; cbn [negb].
  - assert (List.filter (fun e => negb (below begin e)) l = []) as ->; [|cbn; rewrite u64_add_l; f_equal; f_equal; lia].
    rewrite Forall_forall in Hall. clear -Hall Ek. induction l as [|[k' x'] l IH]; [done|]. cbn [List.filter].
    change (below begin (k', x')) with (str_ltb k' begin). destruct (str_ltb k' begin) eqn:E'; cbn [negb]; [apply IH; intros y Hy; apply Hall; by right|].
    specialize (Hall (k', x') (list_elem_of_here _ _)). cbn in Hall.
    assert (str_lt k' begin) by (transitivity k; done). unfold str_lt in *. congruence.
  - cbn [feed orb]. destruct (op k x s) as [[] s']; cbn [negb andb]; [f_equal; rewrite u64_add_l; f_equal; lia|].
    rewrite u64_add_l, IH. destruct (feed op _ s') as [[n s''] []]; cbn [negb andb]; f_equal; f_equal; lia.
Qed.

(** A forward scan visits the entries of its range in ascending order until the
    callback cancels it, and counts them. *)
Theorem Scan_visits_range {S} self ix begin end_ (op : bytestring -> Z -> S -> bool * S) s l :
  entries_beyond false (table_ ix) begin true l ->
  ∃ n s' cancelled out, Scan self ix begin end_ op s = Some ((u64 n, s'), out) ∧
    feed op (match end_ with Some e => List.filter (below e) l | None => l end) s = (n, s', cancelled).
Proof.
  intros Hl. pose proof (entries_bound _ _ _ _ _ Hl) as Hb.
  destruct (scan_visits (scan_fuel ix) self false (table_ ix) begin true (visit_value end_ op) l (0, s) [] Hl)
    as [out E]; [unfold scan_fuel; lia|].
  pose proof (forward_visits op end_ l s 0 (proj1 Hl)) as Hv. change (u64 0) with 0 in Hv. unfold Scan. rewrite E, Hv.
  destruct (feed op _ s) as [[n s'] b]. by exists n, s', b, out.
Qed.

(** C27. A backward scan of a Masstree index hands its callback the entries of
    [begin, end) in descending order until the callback cancels, whatever the
    tree holds; the count it returns is the number of calls of the callback,
    plus one whenever the callback did not cancel and the tree holds a key
    below begin: the key at which the scan stops is counted too. *)
Theorem ScanReverse_visits_range {S} self ix begin end_ (op : bytestring -> Z -> S -> bool * S) s l :
  entries_beyond true (table_ ix) end_ false l ->
  ∃ n s' cancelled out,
    ScanReverse self ix begin end_ op s =
      Some ((u64 (n + if negb cancelled && existsb (below begin) l then 1 else 0), s'), out) ∧
    feed op (List.filter (fun e => negb (below begin e)) l) s = (n, s', cancelled).
Proof.
  intros Hl. pose proof (entries_bound _ _ _ _ _ Hl) as Hb.
  destruct (scan_visits (scan_fuel ix) self true (table_ ix) end_ false (visit_value None (adapter_op begin op)) l (0, s) [] Hl)
    as [out E]; [unfold scan_fuel; lia|].
  pose proof (backward_visits op begin l s 0 (proj1 Hl)) as Hv. change (u64 0) with 0 in Hv. unfold ScanReverse. rewrite E, Hv.
  destruct (feed op _ s) as [[n s'] b]. by exists n, s', b, out.
Qed.

End scans.

(** ** Phantoms *)

(** The part of the key space that a step of a scan has covered, and whether the
    leaves it visited so far had, when [visit_leaf] read their versions, those
    they had when the step searched the tree. *)
Record Stretch := mkStretch {
  st_reverse : bool;
  st_first : bytestring;
  st_emit : bool;
  st_found : option bytestring;
  st_quiet : bool;
}.

Definition in_stretch (st : Stretch) (k : bytestring) : Prop :=
  beyond (st_reverse st) (st_first st) (st_emit st) k ∧
  match st_found st with
  | None => True
  | Some found => k = found ∨ (if st_reverse st then str_lt found k else str_lt k found)
  end.

Section phantoms.
Context {T : Type} `{!BasicTable T} `{!LeafVersions T}.
Variable self : Z.

(** A transaction beside other users of the index: its node versions, whether
    the reconciliation of an own insertion met a race, the keys its scans have
    met and those it has inserted.  [visiting] are the leaves that the current
    step of a scan has still to visit, with their versions at its search;
    [stretches] are the steps, the last one first. *)
Record Tx := mkTx {
  index : t T;
  node_version_set_ : list NodeVersionEntry;
  raced : bool;
  seen : list bytestring;
  own : list bytestring;
  visiting : list (Z * Z);
  stretches : list Stretch;
}.

(** A call of another thread; or of the transaction: the search of a step of a
    scan, the visit of one leaf of it, an insertion. *)
Inductive Call : Type :=
| OtherPut (key : bytestring) (rhs : DataItem.t)
| OtherInsert (key : bytestring)
| OtherForcePutBlankEntry (key : bytestring)
| OtherPurge (key : bytestring) (expected : option Z) (retired_tid : TransactionId.t)
| ScanStep (reverse : bool) (firstkey : bytestring) (emit : bool)
| VisitLeaf
| OwnInsert (key : bytestring)
| OwnEnsureVisible (key : bytestring).

(** [ReconcileOwnInsertWithNodeVersionSet] on the set. *)
Definition reconcile (u : NodeVersionUpdate) (l : list NodeVersionEntry) : list NodeVersionEntry * bool :=
  match update_node_ptr u with
  | Some node => if valid u then reconcile_loop u node l else (l, false)
  | None => (l, false)
  end.

Definition set_index (s : Tx) (ix : t T) : Tx :=
  mkTx ix (node_version_set_ s) (raced s) (seen s) (own s) (visiting s) (stretches s).

Definition inserted (s : Tx) (key : bytestring) (u : NodeVersionUpdate) (ix : t T) : Tx :=
  let '(l, b) := reconcile u (node_version_set_ s) in
  mkTx ix l (raced s || b) (seen s) (own s ++ [key]) (visiting s) (stretches s).

(** The search of a step of a scan; its leaves are visited afterwards. *)
Definition search (s : Tx) (reverse : bool) (firstkey : bytestring) (emit : bool) : Tx :=
  let tb := table_ (index s) in
  let found := option_map fst (table_scan reverse tb firstkey emit) in
  mkTx (index s) (node_version_set_ s) (raced s) (seen s ++ option_list found) (own s)
    (map (fun l => (l, full_unlocked_version_value tb l)) (scan_leaves reverse tb firstkey emit))
    (mkStretch reverse firstkey emit found true :: stretches s).

(** The visit of one leaf. *)
Definition visit (s : Tx) (leaf at_search : Z) (rest : list (Z * Z)) : Tx :=
  let e := visit_leaf self (table_ (index s)) leaf in
  mkTx (index s) (node_version_set_ s ++ [e]) (raced s) (seen s) (own s) rest
    (match stretches s with
     | st :: sts =>
         mkStretch (st_reverse st) (st_first st) (st_emit st) (st_found st)
           (st_quiet st && (version e =? at_search)) :: sts
     | [] => []
     end).

(** The transaction inserts or searches on when it has visited the leaves of
    the step before; the other threads move at any time. *)
Definition step (s : Tx) (c : Call) : Tx :=
  match c, visiting s with
  | OtherPut k rhs, _ => set_index s (Put self (index s) k rhs).2
  | OtherInsert k, _ => set_index s (Insert self (index s) k).2
  | OtherForcePutBlankEntry k, _ => set_index s (ForcePutBlankEntry self (index s) k).2
  | OtherPurge k e tid, _ => set_index s (Purge (index s) k e tid).2
  | ScanStep rv f e, [] => search s rv f e
  | VisitLeaf, (l, v) :: rest => visit s l v rest
  | OwnInsert k, [] => let '(_, u, ix) := Insert self (index s) k in inserted s k u ix
  | OwnEnsureVisible k, [] => let '(_, u, ix) := EnsureVisibleForSecondaryWrite self (index s) k in inserted s k u ix
  | _, _ => s
  end.

Definition start (ix : t T) : Tx := mkTx ix [] false [] [] [] [].

(** ** The invariant *)

Context `{!BasicTableLaws T} `{!LeafVersionsLaws T}.
Implicit Types tb : T.

Abbreviation ver := full_unlocked_version_value.

(** A leaf whose version has not changed has kept its keys and got no new
    entry. *)
Definition tree_le tb tb' : Prop :=
  (∀ l, version_le (ver tb l) (ver tb' l)) ∧
  ∀ l, ver tb' l = ver tb l -> ∀ k, leaf_of tb k = l ->
    leaf_of tb' k = l ∧ (is_Some (table_find tb' k) -> is_Some (table_find tb k)).

Lemma tree_le_refl tb : tree_le tb tb.
Proof. split; [intros l; reflexivity|done]. Qed.

Lemma insert_tree_le tb k x : tree_le tb (table_insert tb k x).
Proof.
  destruct (table_find tb k) as [y|] eqn:E.
  - destruct (overwrite_law tb k x (mk_is_Some _ _ E)) as [Hv Hl]. split; [intros l; by rewrite Hv|].
    intros l _ k' Hk'. rewrite Hl. split; [done|]. rewrite find_insert. case_decide; [subst; by rewrite E|done].
  - split; [intros l; by apply insert_law|]. intros l Hv k' Hk'. destruct (insert_law tb k x l E) as [_ H].
    destruct (H Hv k' Hk') as [Hne ?]. split; [done|]. rewrite find_insert. by rewrite decide_False.
Qed.

Lemma remove_tree_le tb k : tree_le tb (table_remove tb k).
Proof.
  split; [intros l; apply remove_law|]. intros l Hv k' Hk'. destruct (remove_law tb k l) as [_ H]. split; [by apply H|].
  rewrite find_remove. case_decide; [by intros [? ?]|done].
Qed.

(** What an entry of the set vouches for. *)
Definition vouches (s : Tx) (e : NodeVersionEntry) (k : bytestring) : Prop :=
  ver (table_ (index s)) (node_ptr e) = version e ->
  leaf_of (table_ (index s)) k = node_ptr e ∧ (is_Some (table_find (table_ (index s)) k) -> k ∈ seen s ∨ k ∈ own s).

(** The entries that the leaves still to be visited will make if they keep
    their versions. *)
Definition promised (s : Tx) : list NodeVersionEntry := map (fun '(l, v) => mkEntry self l v) (visiting s).

(** The entries that cover stretch [i]: the last one may rely on the leaves
    still to be visited. *)
Definition covering (s : Tx) (i : nat) : list NodeVersionEntry :=
  match i with O => node_version_set_ s ++ promised s | _ => node_version_set_ s end.

Record phantom_inv (s : Tx) : Prop := {
  pi_versions : ∀ e, e ∈ node_version_set_ s ++ promised s -> owner e = self ->
    version_le (version e) (ver (table_ (index s)) (node_ptr e));
  pi_covered : ∀ i st k, stretches s !! i = Some st -> st_quiet st = true -> in_stretch st k ->
    ∃ e, e ∈ covering s i ∧ owner e = self ∧ vouches s e k;
}.

Lemma covering_all s i e : e ∈ covering s i -> e ∈ node_version_set_ s ++ promised s.
Proof using. destruct i; [done|]. intros ?. apply elem_of_app. by left. Qed.

Lemma covering_between s i : visiting s = [] -> covering s i = node_version_set_ s.
Proof using. intros E. unfold covering, promised. rewrite E. destruct i; [apply app_nil_r|done]. Qed.

(** The tree moves under the transaction. *)
Lemma vouches_tree_le s e k tb' : tree_le (table_ (index s)) tb' ->
  version_le (version e) (ver (table_ (index s)) (node_ptr e)) -> vouches s e k -> ver tb' (node_ptr e) = version e ->
  ver tb' (node_ptr e) = ver (table_ (index s)) (node_ptr e) ∧
  leaf_of tb' k = node_ptr e ∧ (is_Some (table_find tb' k) -> k ∈ seen s ∨ k ∈ own s).
Proof.
  intros [Hle Hst] Hv Hvo E. assert (E' : ver (table_ (index s)) (node_ptr e) = version e).
  { apply (anti_symm version_le); [|done]. rewrite <- E. apply Hle. }
  destruct (Hvo E') as [Hl Hf]. split; [congruence|]. destruct (Hst (node_ptr e) ltac:(congruence) k Hl) as [Hl' Hf'].
  split; [done|]. intros ?%Hf'. by apply Hf.
Qed.

Lemma set_index_inv s ix' : phantom_inv s -> tree_le (table_ (index s)) (table_ ix') -> phantom_inv (set_index s ix').
Proof.
  intros [Hv Hc] Hle. split; cbn.
  - intros e He Ho. etrans; [by apply Hv|apply Hle].
  - intros i st k Hst Hq Hk. destruct (Hc i st k Hst Hq Hk) as (e & He & Ho & Hvo). exists e. split_and!; try done. intros E.
    pose proof (Hv e (covering_all s i e He) Ho) as Hve.
    by destruct (vouches_tree_le s e k (table_ ix') Hle Hve Hvo E) as (_ & ? & ?).
Qed.

(** *** The transaction's own insertions *)

Definition matches (u : NodeVersionUpdate) (node : Z) (e : NodeVersionEntry) : bool :=
  (owner e =? update_owner u) && (node_ptr e =? node).

Lemma reconcile_loop_false u node l l' : reconcile_loop u node l = (l', false) ->
  l' = map (fun e => if matches u node e then mkEntry (owner e) (node_ptr e) (new_version u) else e) l ∧
  ∀ e, e ∈ l -> matches u node e = true -> version e = old_version u.
Proof.
  revert l'. induction l as [|e l IH]; intros l'; cbn [reconcile_loop map].
  - intros [= <-]. split; [done|]. by intros e ?%elem_of_nil.
  - fold (matches u node e). destruct (matches u node e) eqn:Em.
    + destruct (Z.eqb_spec (version e) (old_version u)) as [Ev|]; [|done].
      destruct (reconcile_loop u node l) as [r b]. intros [= <- ->]. destruct (IH r eq_refl) as [-> H]. split; [done|].
      intros e' [->|He']%elem_of_cons; [done|by apply H].
    + destruct (reconcile_loop u node l) as [r b]. intros [= <- ->]. destruct (IH r eq_refl) as [-> H]. split; [done|].
      intros e' [->|He']%elem_of_cons; [congruence|by apply H].
Qed.

(** An insertion that made no new entry. *)
Lemma inserted_same s k : phantom_inv s -> phantom_inv (inserted s k no_update (index s)).
Proof.
  intros [Hv Hc]. split; cbn; [done|]. intros i st k' Hst Hq Hk. destruct (Hc i st k' Hst Hq Hk) as (e & He & Ho & Hvo).
  exists e. split_and!; try done. intros E. destruct (Hvo E) as [Hl Hf]. split; [done|]. cbn. rewrite elem_of_app. naive_solver.
Qed.

(** An insertion that made one: the reconciled entries vouch for the tree with
    the new key. *)
Lemma inserted_new s k : phantom_inv s -> visiting s = [] -> table_find (table_ (index s)) k = None ->
  raced (inserted s k (report self (index s) k) (store_new (index s) k DataItem.empty)) = false ->
  phantom_inv (inserted s k (report self (index s) k) (store_new (index s) k DataItem.empty)).
Proof.
  intros [Hv Hc] Hvis Hk. unfold inserted, reconcile, report. cbn [update_node_ptr valid].
  unfold promised in Hv. rewrite Hvis, app_nil_r in Hv.
  set (tb := table_ (index s)) in *. set (u := mkUpdate _ _ _ _ _). set (x := next_item (index s)).
  destruct (reconcile_loop u (cursor_node tb k) (node_version_set_ s)) as [l' b] eqn:Er. cbn [raced].
  intros [Hra ->]%orb_false_iff. apply reconcile_loop_false in Er as [-> Hold]. cbn [new_version u].
  pose proof (insert_tree_le tb k x) as Hle. pose proof (next_law tb k x Hk) as Hnext.
  assert (Hm : ∀ e, matches u (cursor_node tb k) e = true -> owner e = self ∧ node_ptr e = cursor_node tb k).
  { intros e [?%Z.eqb_eq ?%Z.eqb_eq]%andb_prop. done. }
  split; unfold promised; cbn [index node_version_set_ stretches visiting]; rewrite Hvis; cbn [map].
  - rewrite app_nil_r. intros e (e0 & -> & He0)%list_elem_of_fmap Ho. change (table_ (store_new (index s) k DataItem.empty)) with (table_insert tb k x).
    destruct (matches u (cursor_node tb k) e0) eqn:Em; cbn in Ho |- *.
    + destruct (Hm e0 Em) as [_ ->]. rewrite <- Hnext. reflexivity.
    + etrans; [by apply Hv|apply Hle].
  - intros i st k' Hst Hq Hk'. destruct (Hc i st k' Hst Hq Hk') as (e & He & Ho & Hvo).
    rewrite covering_between in He by done. rewrite covering_between by done.
    exists (if matches u (cursor_node tb k) e then mkEntry (owner e) (node_ptr e) (next_full_version_value tb k) else e).
    split; [apply list_elem_of_fmap; by exists e|]. split; [by destruct (matches u _ e)|].
    unfold vouches. cbn [index table_ seen own store_new]. destruct (matches u (cursor_node tb k) e) eqn:Em; cbn [node_ptr version].
    + intros _. destruct (Hm e Em) as [_ En]. specialize (Hold e He Em). cbn [old_version u] in Hold.
      destruct (previous_law tb k x Hk) as [[Hp Hkeep]|Hp].
      2: { destruct Hp. rewrite <- Hold, <- En. by apply Hv. }
      destruct (Hvo ltac:(fold tb; congruence)) as [Hl Hf]. fold tb in Hl, Hf. split; [rewrite En in *; by apply Hkeep|].
      rewrite find_insert, elem_of_app, list_elem_of_singleton. case_decide; naive_solver.
    + intros E. destruct (vouches_tree_le s e k' (table_insert tb k x) Hle (Hv e He Ho) Hvo E) as (_ & ? & Hf).
      split; [done|]. rewrite elem_of_app. naive_solver.
Qed.

Lemma search_inv s rv f e : phantom_inv s -> visiting s = [] -> phantom_inv (search s rv f e).
Proof.
  intros [Hv Hc] Hvis. unfold search. set (tb := table_ (index s)) in *. split; cbn [index node_version_set_ stretches].
  - intros en [He|He]%elem_of_app Ho; [apply Hv; [apply elem_of_app; by left|done]|]. unfold promised in He.
    cbn [visiting] in He. apply list_elem_of_fmap in He as ([l v] & -> & Hl).
    apply list_elem_of_fmap in Hl as (l' & [= -> ->] & _). cbn. reflexivity.
  - intros [|i] st k Hst Hq Hk; cbn in Hst.
    + injection Hst as <-. unfold in_stretch in Hk. cbn in Hk. destruct Hk as [Hb Hup].
      assert (Hin : leaf_of tb k ∈ scan_leaves rv tb f e).
      { apply scan_leaves_law. split; [done|]. by destruct (table_scan rv tb f e) as [[found y]|]. }
      exists (mkEntry self (leaf_of tb k) (ver tb (leaf_of tb k))). split_and!; [|done|].
      * apply elem_of_app. right. apply list_elem_of_fmap. exists (leaf_of tb k, ver tb (leaf_of tb k)). split; [done|].
        apply list_elem_of_fmap. by exists (leaf_of tb k).
      * intros _. split; [done|]. cbn. intros Hf. left. apply elem_of_app. right.
        destruct (table_scan rv tb f e) as [[found y]|] eqn:Es; cbn in *.
        -- apply list_elem_of_singleton. destruct (scan_some _ _ _ _ _ _ Es) as (_ & _ & Hmin).
           destruct (Hmin k Hf Hb) as [?|Hlt]; [done|]. destruct Hup as [?|Hlt']; [done|]. exfalso.
           destruct rv; apply str_lt_asym in Hlt; unfold str_lt in Hlt'; congruence.
        -- by destruct (scan_none _ _ _ _ k Es Hf).
    + destruct (Hc i st k Hst Hq Hk) as (en & He & Ho & Hvo). rewrite covering_between in He by done. exists en.
      split_and!; [done|done|]. intros E. destruct (Hvo E) as [Hl Hf]. split; [done|]. cbn. rewrite elem_of_app. naive_solver.
Qed.

(** A leaf that has kept its version makes the promised entry. *)
Lemma visit_inv s l v rest : phantom_inv s -> visiting s = (l, v) :: rest -> phantom_inv (visit s l v rest).
Proof.
  intros [Hv Hc] Hvis. unfold promised in Hv. rewrite Hvis in Hv. cbn [map] in Hv.
  unfold visit, visit_leaf. set (tb := table_ (index s)) in *. split; unfold promised; cbn [index node_version_set_ visiting stretches version].
  - rewrite <- app_assoc. intros e [He|[->|He]%elem_of_cons]%elem_of_app Ho; [|cbn; reflexivity|].
    + apply Hv; [|done]. apply elem_of_app. by left.
    + apply Hv; [|done]. apply elem_of_app. right. by right.
  - intros i st k Hst Hq Hk.
    assert (Hs : ∃ st', stretches s !! i = Some st' ∧ st_quiet st' = true ∧ in_stretch st' k ∧ (i = O -> ver tb l = v)).
    { destruct (stretches s) as [|st0 sts]; [done|]. destruct i as [|i]; cbn in Hst.
      - injection Hst as <-. cbn in Hq. apply andb_prop in Hq as [Hq ?%Z.eqb_eq]. by exists st0.
      - by exists st. }
    destruct Hs as (st' & Hst' & Hq' & Hk' & Hl). destruct (Hc i st' k Hst' Hq' Hk') as (e & He & Ho & Hvo).
    exists e. split_and!; [|done|done]. destruct i as [|i]; cbn in *; [|apply elem_of_app; by left].
    unfold promised in He |- *. cbn. rewrite Hvis in He. cbn [map] in He. rewrite <- app_assoc, (Hl eq_refl). done.
Qed.

Lemma raced_step s c : raced (step s c) = false -> raced s = false.
Proof using.
  destruct c; cbn [step]; try done; destruct (visiting s) as [|[l v] rest]; try done;
    unfold EnsureVisibleForSecondaryWrite, ForcePutBlankEntry, Insert;
    destruct (table_find _ _) as [x|]; try destruct (items _ !! x); unfold inserted; destruct (reconcile _ _); cbn;
    by intros [? _]%orb_false_iff.
Qed.

Lemma phantom_step_inv s c : (raced s = false -> phantom_inv s) -> raced (step s c) = false -> phantom_inv (step s c).
Proof.
  intros H Hr. specialize (H (raced_step s c Hr)). revert Hr.
  destruct c as [k rhs|k|k|k e tid|rv f e| |k|k]; cbn [step]; intros Hr.
  - apply set_index_inv; [done|]. unfold Put. destruct (table_find _ _); cbn; apply insert_tree_le.
  - apply set_index_inv; [done|]. unfold Insert. destruct (table_find _ _) as [x|]; [|cbn; apply insert_tree_le].
    destruct (items _ !! x); apply tree_le_refl.
  - apply set_index_inv; [done|]. unfold ForcePutBlankEntry. destruct (table_find _ _); cbn; [apply tree_le_refl|apply insert_tree_le].
  - apply set_index_inv; [done|]. unfold Purge. destruct (table_find _ _) as [x|]; [|apply tree_le_refl].
    destruct (match e with Some _ => _ | None => _ end); cbn; [apply tree_le_refl|apply remove_tree_le].
  - destruct (visiting s) eqn:Hvis; [by apply search_inv|done].
  - destruct (visiting s) as [|[l v] rest] eqn:Hvis; [done|by apply visit_inv].
  - destruct (visiting s) eqn:Hvis; [|done].
    unfold Insert in *. destruct (table_find _ k) as [x|] eqn:E; [|by apply inserted_new].
    destruct (items _ !! x); by apply inserted_same.
  - destruct (visiting s) eqn:Hvis; [|done]. unfold EnsureVisibleForSecondaryWrite, ForcePutBlankEntry in *.
    destruct (table_find _ k) as [x|] eqn:E; [by apply inserted_same|by apply inserted_new].
Qed.

Lemma phantom_run_inv ls s : (raced s = false -> phantom_inv s) -> raced (fold_left step ls s) = false ->
  phantom_inv (fold_left step ls s).
Proof.
  revert s. induction ls as [|c ls IH]; intros s H; [done|]. cbn [fold_left]. apply IH. by apply phantom_step_inv.
Qed.

(** C18. No phantoms under Masstree in the steps of scans whose leaves had not
    changed between the search and the read of their versions: whatever other
    threads insert, overwrite and remove at any time, between the searches,
    the visits of single leaves and the own insertions of a transaction, if no
    reconciliation of an own insertion met a race and ValidatePhantoms accepts
    the node versions, every key that such a step covered and that is in the
    tree was met by a scan or inserted by the transaction itself. The
    condition is needed: visit_leaf reads the version a leaf has when it is
    called, and a key inserted after the search and before that read goes
    unnoticed (Demo.phantom_in_the_window). *)
Theorem node_versions_exclude_phantoms ix ls :
  let s := fold_left step ls (start ix) in
  raced s = false -> visiting s = [] -> ValidatePhantoms self (index s) (node_version_set_ s) = true ->
  ∀ st k, st ∈ stretches s -> st_quiet st = true -> in_stretch st k -> is_Some (Get (index s) k) ->
    k ∈ seen s ∨ k ∈ own s.
Proof.
  intros s Hr Hvis Hval st k Hst Hq Hk Hg. destruct (phantom_run_inv ls (start ix)) as [_ Hc].
  { intros _. split; cbn; [by intros e ?%elem_of_nil|done]. }
  { done. }
  apply list_elem_of_lookup in Hst as [i Hst]. destruct (Hc i st k Hst Hq Hk) as (e & He & Ho & Hvo).
  fold s in He, Hvo. rewrite covering_between in He by done.
  unfold ValidatePhantoms in Hval. rewrite forallb_forall in Hval.
  specialize (Hval e ltac:(by apply list_elem_of_In)). rewrite (proj2 (Z.eqb_eq _ _) Ho) in Hval. cbn in Hval.
  apply Z.eqb_eq in Hval. by apply (Hvo Hval).
Qed.

End phantoms.

(** ** A tree of two leaves *)

Module Demo.
Import StatelessDemo.

(** Keys whose first byte is below 128 are in the leaf 0, the others in the leaf
    1; a version counts the changes of a leaf. *)
Record Tree := mkTree { entries : gmap bytestring Z; low : Z; high : Z }.

Definition side (k : bytestring) : Z := match k with b :: _ => if b <? 128 then 0 else 1 | [] => 0 end.
Definition bump (k : bytestring) (tb : Tree) (m : gmap bytestring Z) : Tree :=
  mkTree m (if side k =? 0 then low tb + 1 else low tb) (if side k =? 0 then high tb else high tb + 1).

#[local] Instance tree_table : BasicTable Tree := {
  table_initialize := mkTree ∅ 0 0;
  table_find tb k := entries tb !! k;
  table_insert tb k x :=
    match entries tb !! k with
    | Some _ => mkTree (<[k := x]> (entries tb)) (low tb) (high tb)
    | None => bump k tb (<[k := x]> (entries tb))
    end;
  table_remove tb k := bump k tb (delete k (entries tb));
  table_scan reverse tb firstkey emit := table_scan reverse (entries tb) firstkey emit;
}.

Definition leaf_version (tb : Tree) (l : Z) : Z := if l =? 0 then low tb else if l =? 1 then high tb else 0.

#[local] Instance tree_versions : LeafVersions Tree := {
  leaf_of _ k := side k;
  full_unlocked_version_value tb l := leaf_version tb l;
  cursor_node _ k := side k;
  previous_full_version_value tb k := leaf_version tb (side k);
  next_full_version_value tb k := leaf_version tb (side k) + 1;
  scan_leaves _ _ _ _ := [0; 1];
  table_keys tb := (map_to_list (entries tb)).*1;
}.

#[local] Instance tree_laws : BasicTableLaws Tree.
Proof.
  split; cbn.
  - intros k. apply lookup_empty.
  - intros tb k x k'. destruct (entries tb !! k) eqn:E; cbn; case_decide; subst; by rewrite ?lookup_insert_eq, ?lookup_insert_ne by done.
  - intros tb k k'. case_decide; [subst; apply lookup_delete_eq|by apply lookup_delete_ne].
  - intros reverse tb. exact (scan_some (T := gmap bytestring Z) reverse (entries tb)).
  - intros reverse tb. exact (scan_none (T := gmap bytestring Z) reverse (entries tb)).
Qed.

Lemma side_cases k : side k = 0 ∨ side k = 1.
Proof. unfold side. destruct k as [|b k]; [by left|]. destruct (b <? 128); auto. Qed.

Lemma bump_version k tb m l :
  leaf_version (bump k tb m) l = leaf_version tb l + if l =? side k then 1 else 0.
Proof.
  unfold leaf_version, bump. cbn. destruct (side_cases k) as [-> | ->]; cbn; repeat case_match; try lia.
Qed.

#[local] Instance tree_versions_laws : LeafVersionsLaws Tree.
Proof.
  refine {| version_le := Z.le |}; cbn.
  - intros tb k. rewrite list_elem_of_fmap. split.
    + intros ([k' x] & -> & H%elem_of_map_to_list). eauto.
    + intros [x H]. exists (k, x). split; [done|]. by apply elem_of_map_to_list.
  - intros tb k x [y ->]. done.
  - intros tb k x l ->. rewrite bump_version. destruct (Z.eqb_spec l (side k)) as [->|Hne]; (split; [lia|]); intros Hv k' Hk'; [lia|].
    split; [by intros ->|done].
  - intros tb k l. rewrite bump_version. split; [destruct (l =? side k); lia|done].
  - intros tb k x ->. rewrite bump_version, Z.eqb_refl. done.
  - intros tb k x _. by left.
  - intros reverse tb firstkey emit k _. destruct (side_cases k) as [-> | ->]; [left|right; left].
Qed.

(** Four keys. *)
Definition empty_index : t Tree := mk (mkTree ∅ 0 0) ∅ 1.
Definition four : t Tree :=
  fold_left (fun ix k => (ForcePutBlankEntry 9 ix k).2) [[10]; [25]; [40]; [200]] empty_index.

(** The search of a step of a scan and the visits of both leaves. *)
Definition scan_step (firstkey : bytestring) (emit : bool) : list Call := [ScanStep false firstkey emit; VisitLeaf; VisitLeaf].

(** A transaction scans from [150] on and inserts [30] itself; another thread
    inserts [50]. *)
Definition schedule : list Call :=
  scan_step [150] true ++ [OwnInsert [30]; OtherForcePutBlankEntry [50]] ++ scan_step [200] false ++
  [OtherPurge [10] None TransactionId.zero].

Definition after (ls : list Call) : Tx := fold_left (step 9) ls (start four).

(** Every step of this tree visits both leaves, so a key that another thread
    inserts anywhere is noticed. *)
Lemma phantom_noticed : ValidatePhantoms 9 (index (after schedule)) (node_version_set_ (after schedule)) = false.
Proof. vm_compute. reflexivity. Qed.

(** Another thread overwrites a row between the search and the visits. *)
Definition quiet : list Call :=
  [ScanStep false [20] true; VisitLeaf; OtherPut [40] DataItem.empty; VisitLeaf; OwnInsert [30]] ++
  scan_step [25] false ++ [OwnEnsureVisible [150]].

Abbreviation after_quiet := (fold_left (step 9) quiet (start four)).

Lemma quiet_not_raced : raced after_quiet = false.
Proof. vm_compute. reflexivity. Qed.

Lemma quiet_visited : visiting after_quiet = [].
Proof. vm_compute. reflexivity. Qed.

Lemma quiet_valid : ValidatePhantoms 9 (index after_quiet) (node_version_set_ after_quiet) = true.
Proof. vm_compute. reflexivity. Qed.

Lemma node_versions_exclude_phantoms_witness : [25] ∈ seen after_quiet ∨ [25] ∈ own after_quiet.
Proof.
  apply (node_versions_exclude_phantoms (T := Tree) 9 four quiet quiet_not_raced quiet_visited quiet_valid
           (mkStretch false [20] true (Some [25]) true) [25]).
  - vm_compute. right. left.
  - reflexivity.
  - split; [right; reflexivity|left; reflexivity].
  - vm_compute. eauto.
Defined.

(** Another thread inserts [22] when the scan from [20] on has found [25], and
    before it reads the versions of the leaves. *)
Definition window : list Call := [ScanStep false [20] true; OtherForcePutBlankEntry [22]; VisitLeaf; VisitLeaf].

Theorem phantom_in_the_window :
  raced (after window) = false ∧ visiting (after window) = [] ∧
  ValidatePhantoms 9 (index (after window)) (node_version_set_ (after window)) = true ∧
  ∃ st, stretches (after window) = [st] ∧ in_stretch st [22] ∧ is_Some (Get (index (after window)) [22]) ∧
        [22] ∉ seen (after window) ∧ [22] ∉ own (after window).
Proof.
  split_and!; [vm_compute; reflexivity..|]. exists (mkStretch false [20] true (Some [25]) false).
  split_and!; [vm_compute; reflexivity|split; [right; reflexivity|right; reflexivity]|vm_compute; eauto|..];
    vm_compute; intros H; repeat (apply elem_of_cons in H as [H|H]; [done|]); by apply elem_of_nil in H.
Qed.

(** The keys below [50], from above. *)
Lemma four_below : entries_beyond true (table_ four) [50] false [([40], 3); ([25], 2); ([10], 1)].
Proof.
  split; [repeat constructor|]. intros k x.
  assert (Hm : table_find (table_ four) k = Some x <-> (k, x) ∈ [([10], 1); ([25], 2); ([40], 3); ([200], 4)]).
  { cbn [table_find tree_table]. rewrite <- elem_of_map_to_list.
    assert (E : map_to_list (entries (table_ four)) ≡ₚ [([10], 1); ([25], 2); ([40], 3); ([200], 4)]); [|by rewrite E].
    apply NoDup_Permutation; [apply NoDup_map_to_list|apply (bool_decide_unpack _); vm_compute; done|].
    intros e. vm_compute (map_to_list _). rewrite !elem_of_cons, elem_of_nil. tauto. }
  rewrite Hm, !elem_of_cons, elem_of_nil. unfold beyond. split.
  - intros [[= -> ->]|[[= -> ->]|[[= -> ->]|[]]]]; (split; [tauto|right; reflexivity]).
  - intros [[[= -> ->]|[[= -> ->]|[[= -> ->]|[[= -> ->]|[]]]]] [[? _]|Hb]]; try done; tauto.
Qed.

Lemma ScanReverse_visits_range_witness :
  ∃ n s' cancelled out,
    ScanReverse 9 four [20] [50] (fun k _ l => (false, l ++ [k])) [] =
      Some ((u64 (n + if negb cancelled && existsb (below [20]) [([40], 3); ([25], 2); ([10], 1)] then 1 else 0), s'), out) ∧
    feed (fun k _ l => (false, l ++ [k]))
      (List.filter (fun e => negb (below [20] e)) [([40], 3); ([25], 2); ([10], 1)]) [] = (n, s', cancelled).
Proof. apply (ScanReverse_visits_range 9 four [20] [50] (fun k _ l => (false, l ++ [k])) [] _ four_below). Defined.

(** A backward scan over [20, 50) gives its callback 40 and 25 and returns the
    count 3: it has also counted the key 10, at which it stops. *)
Lemma backward_scan_counts_one_too_many :
  ∃ out, ScanReverse 9 four [20] [50] (fun k _ l => (false, l ++ [k])) [] = Some ((3, [[40]; [25]]), out).
Proof. eexists. vm_compute. reflexivity. Qed.

End Demo.
