(* ===== verification/PaxCodec.v ===== *)
(** * Typed cells (src/src/pax/pax_store.cpp, include/lineairdb/pax_store.h)

    A PAX table keeps a numeric column as a fixed-width binary integer.  A row
    arrives with the value as text; [ParseTyped] turns it into the integer and
    [FormatTyped] turns the integer back into text, which has to be the text
    that arrived, since the length of the row is recorded separately.

    The lemmas show that this is so for the texts a column of the type is
    printed as ([canonical_text]), and that every parse and every format is
    defined: no signed overflow, no read past a buffer.

    [None] of the outer option is undefined behaviour or an exception; the
    inner option of a parse is its boolean result with the value. *)

From Stdlib Require Import Znumtheory.
From S2P Require Import Prelude.

Definition INT32_MIN : Z := - 2 ^ 31.
Definition INT32_MAX : Z := 2 ^ 31 - 1.
Definition INT64_MIN : Z := - 2 ^ 63.
Definition INT64_MAX : Z := 2 ^ 63 - 1.
Definition INT128_MAX : Z := 2 ^ 127 - 1.

Module FieldKind.

Definition FK_UNTYPED : Z := 0.
Definition FK_INT32 : Z := 1.
Definition FK_INT64 : Z := 2.
Definition FK_DATE : Z := 3.
Definition FK_DEC64 : Z := 4.

End FieldKind.
Import FieldKind.

(** ** Text to integer *)

Definition is_digit (c : Z) : bool := (48 <=? c) && (c <=? 57).

(** Digits only, most significant first. *)
Fixpoint from_digits (acc : Z) (s : bytestring) : option Z :=
  match s with
  | [] => Some acc
  | c :: s' => if is_digit c then from_digits (acc * 10 + (c - 48)) s' else None
  end.

(** [std::from_chars] of an [int64_t] that has to consume the whole text: an
    optional minus sign and at least one digit, in range. *)
Definition ParseI64 (s : bytestring) : option Z :=
  match s with
  | [] => None
  | c :: s' =>
      let neg := c =? 45 in
      match (if neg then s' else s) with
      | [] => None
      | ds =>
          v ← from_digits 0 ds;
          let v := if neg then - v else v in
          if (INT64_MIN <=? v) && (v <=? INT64_MAX) then Some v else None
      end
  end.

Definition ParseDate (s : bytestring) : option Z :=
  if negb (zlen s =? 10) || negb (nth 4 s 0 =? 45) || negb (nth 7 s 0 =? 45) then None
  else
    y ← from_digits 0 (slice 0 4 s);
    m ← from_digits 0 (slice 5 2 s);
    d ← from_digits 0 (slice 8 2 s);
    Some (y * 10000 + m * 100 + d).

(** An [__int128] or an [int] that grows; overflow is undefined. *)
Definition int128 (m : Z) : option Z := if m <=? INT128_MAX then Some m else None.
Definition int32_succ (n : Z) : option Z := if n <? INT32_MAX then Some (n + 1) else None.

(** The loop over the characters: [m], [fdig] and [any] at its end. *)
Fixpoint dec_loop (s : bytestring) (m fdig : Z) (seen_dot any : bool) : option (option (Z * Z * bool)) :=
  match s with
  | [] => Some (Some (m, fdig, any))
  | c :: s' =>
      if c =? 46 then (if seen_dot then Some None else dec_loop s' m fdig true any)
      else if negb (is_digit c) then Some None
      else
        m ← int128 (m * 10 + (c - 48));
        fdig ← (if seen_dot then int32_succ fdig else Some fdig);
        dec_loop s' m fdig seen_dot true
  end.

(** [while (fdig < scale)]. *)
Fixpoint dec_pad (n : nat) (m : Z) : option Z :=
  match n with
  | O => Some m
  | S n' => m ← int128 (m * 10); dec_pad n' m
  end.

Definition ParseDecScaled (s : bytestring) (scale : Z) : option (option Z) :=
  match s with
  | [] => Some None
  | c :: s' =>
      let neg := c =? 45 in
      r ← dec_loop (if neg || (c =? 43) then s' else s) 0 0 false false;
      match r with
      | None => Some None
      | Some (m, fdig, any) =>
          if negb any then Some None
          else if scale <? fdig then Some None
          else
            m ← dec_pad (Z.to_nat (scale - fdig)) m;
            let m := if neg then - m else m in
            if (INT64_MAX <? m) || (m <? INT64_MIN) then Some None else Some (Some m)
      end
  end.

Definition ParseTyped (kind scale : Z) (payload : bytestring) : option (option Z) :=
  if kind =? FK_INT32 then
    Some (v ← ParseI64 payload;
          if (v <? INT32_MIN) || (INT32_MAX <? v) then None else Some (u64 v))
  else if kind =? FK_INT64 then Some (option_map u64 (ParseI64 payload))
  else if kind =? FK_DATE then Some (option_map u64 (ParseDate payload))
  else if kind =? FK_DEC64 then (m ← ParseDecScaled payload scale; Some (option_map u64 m))
  else Some None.

(** ** Integer to text *)

(** The digits of a number, least significant first; a number of less than
    128 bits has at most 39. *)
Fixpoint digits_rev (fuel : nat) (n : Z) : bytestring :=
  match fuel with
  | O => []
  | S fuel' => if n =? 0 then [] else 48 + n mod 10 :: digits_rev fuel' (n / 10)
  end.
Definition unsigned_decimal (n : Z) : bytestring := if n =? 0 then [48] else reverse (digits_rev 39 n).

(** [std::to_chars]. *)
Definition to_chars (v : Z) : bytestring :=
  if v <? 0 then 45 :: unsigned_decimal (- v) else unsigned_decimal v.

(** [%0<width>lld]. *)
Definition printf_0d (width : nat) (v : Z) : bytestring :=
  let sign := if v <? 0 then [45] else [] in
  let body := unsigned_decimal (Z.abs v) in
  sign ++ replicate (width - length sign - length body) 48 ++ body.

(** The bytes of a variable as a signed integer of [w] bits. *)
Definition signed (w v : Z) : Z := if v <? 2 ^ (w - 1) then v else v - 2 ^ w.

Definition AppendI64 (v : Z) : bytestring := to_chars v.

Definition format_date (v : Z) : option bytestring :=
  let y := Z.quot v 10000 in
  let m := Z.rem (Z.quot v 100) 100 in
  let d := Z.rem v 100 in
  let buf := printf_0d 4 y ++ [45] ++ printf_0d 2 m ++ [45] ++ printf_0d 2 d in
  if zlen buf <? 16 then Some buf else None.

Definition format_dec (scale m : Z) : option bytestring :=
  let neg := m <? 0 in
  let digits := unsigned_decimal (Z.abs m) in
  let digits := replicate (Z.to_nat (scale + 1) - length digits) 48 ++ digits in
  let sign := if neg then [45] else [] in
  if scale =? 0 then Some (sign ++ digits)
  else if scale <? 0 then None
  else
    let ip := Z.to_nat (zlen digits - scale) in
    Some (sign ++ take ip digits ++ [46] ++ drop ip digits).

(** [cell n] is the memory of the cell's payload: its first [n] bytes. *)
Definition FormatTyped (kind scale : Z) (cell : Z -> option bytestring) : option bytestring :=
  if kind =? FK_INT32 then b ← cell 4; Some (AppendI64 (signed 32 (le_value b)))
  else if kind =? FK_INT64 then b ← cell 8; Some (AppendI64 (signed 64 (le_value b)))
  else if kind =? FK_DATE then b ← cell 4; format_date (signed 32 (le_value b))
  else if kind =? FK_DEC64 then b ← cell 8; format_dec scale (signed 64 (le_value b))
  else Some [].

(** ** Digits *)

Definition all_digits (s : bytestring) : Prop := Forall (fun c => is_digit c = true) s.

(** The number a text of digits names. *)
Definition value (s : bytestring) : Z := default 0 (from_digits 0 s).

Lemma is_digit_spec c : is_digit c = true <-> 48 <= c <= 57.
Proof. unfold is_digit. lia. Qed.

Lemma from_digits_value acc s : all_digits s -> from_digits acc s = Some (acc * 10 ^ zlen s + value s).
Proof.
  unfold value. intros Hs. revert acc. induction Hs as [|c s Hc Hs IH]; intros acc; simpl; [f_equal; zl; lia|].
  rewrite Hc, IH, (IH (0 * 10 + (c - 48))). simpl. f_equal. zl. rewrite Z.pow_add_r by zl. lia.
Qed.

Lemma from_digits_all acc s v : from_digits acc s = Some v -> all_digits s.
Proof.
  revert acc. induction s as [|c s IH]; intros acc; simpl; [constructor|].
  destruct (is_digit c) eqn:E; [|done]. intros H. constructor; [done|by eapply IH].
Qed.

Lemma value_cons c s : all_digits (c :: s) -> value (c :: s) = (c - 48) * 10 ^ zlen s + value s.
Proof.
  intros H. apply Forall_cons in H as [Hc Hs]. unfold value at 1. simpl. rewrite Hc, from_digits_value by done. simpl. lia.
Qed.

Lemma value_bound s : all_digits s -> 0 <= value s < 10 ^ zlen s.
Proof.
  induction s as [|c s IH]; intros H; [done|]. rewrite value_cons by done. apply Forall_cons in H as [Hc Hs].
  apply is_digit_spec in Hc. specialize (IH Hs). zl. rewrite Z.pow_add_r by zl. nia.
Qed.

Lemma value_app s t : all_digits s -> all_digits t -> value (s ++ t) = value s * 10 ^ zlen t + value t.
Proof.
  intros Hs Ht. induction Hs as [|c s Hc Hs IH]; [done|]. simpl.
  rewrite !value_cons, IH by (constructor; [done|]; by try apply Forall_app). zl. rewrite Z.pow_add_r by zl. lia.
Qed.

Lemma value_snoc s c : all_digits s -> is_digit c = true -> value (s ++ [c]) = value s * 10 + (c - 48).
Proof.
  intros Hs Hc. rewrite value_app by (done || by constructor). rewrite (value_cons c []) by (by constructor). zl.
  change (value []) with 0. lia.
Qed.

Lemma digits_rev_ok fuel n : all_digits (digits_rev fuel n).
Proof.
  revert n. induction fuel as [|f IH]; intros n; simpl; [constructor|]. destruct (n =? 0); [constructor|]. constructor; [|apply IH].
  apply is_digit_spec. pose proof (Z.mod_pos_bound n 10). lia.
Qed.

(** Digits without a leading zero are the decimal of their value. *)
Lemma digits_rev_value fuel c s : all_digits (c :: s) -> c <> 48 -> (length s < fuel)%nat ->
  digits_rev fuel (value (c :: s)) = reverse (c :: s).
Proof.
  revert fuel. induction s as [|d s IH] using rev_ind; intros [|fuel] Hd Hc Hf; try lia; simpl.
  - rewrite (value_cons c []) by done. zl. apply Forall_cons in Hd as [Hd _]. apply is_digit_spec in Hd.
    change (value []) with 0. replace ((c - 48) * 10 ^ 0 + 0) with (c - 48) by lia.
    destruct (Z.eqb_spec (c - 48) 0); [lia|]. rewrite Z.mod_small, Z.div_small by lia.
    replace (48 + (c - 48)) with c by lia. by destruct fuel.
  - change (c :: s ++ [d]) with ((c :: s) ++ [d]) in *. apply Forall_app in Hd as [Hs Hd]. apply Forall_cons in Hd as [Hd _].
    rewrite value_snoc by done. pose proof (value_bound (c :: s) Hs) as Hb. pose proof (value_cons c s Hs) as Hv.
    pose proof Hs as Hs0. apply Forall_cons in Hs0 as [Hc0 Hs0]. apply is_digit_spec in Hd, Hc0.
    pose proof (value_bound s Hs0). assert (0 < 10 ^ zlen s) by (apply Z.pow_pos_nonneg; zl).
    destruct (Z.eqb_spec (value (c :: s) * 10 + (d - 48)) 0); [nia|].
    rewrite reverse_app. cbn [reverse rev_append app]. rewrite (Z.add_comm (_ * 10)), Z.mod_add, Z.mod_small by lia.
    rewrite Z.div_add, (Z.div_small (d - 48)) by lia. rewrite IH; [|done..|rewrite length_app in Hf; simpl in Hf; lia].
    simpl. f_equal. lia.
Qed.

(** Digits that start with one other than zero bound their value from below. *)
Lemma value_lower c s : all_digits (c :: s) -> c <> 48 -> 10 ^ zlen s <= value (c :: s).
Proof.
  intros Hs Hc. rewrite value_cons by done. apply Forall_cons in Hs as [Hd Hs]. pose proof (value_bound s Hs).
  apply is_digit_spec in Hd. nia.
Qed.

Lemma short_digits c s : all_digits (c :: s) -> c <> 48 -> value (c :: s) < 10 ^ 39 -> (length s < 39)%nat.
Proof.
  intros Hs Hc Hv. pose proof (value_lower c s Hs Hc). destruct (decide (zlen s < 39)) as [|Hge]; [unfold zlen in *; lia|].
  assert (10 ^ 39 <= 10 ^ zlen s) by (apply Z.pow_le_mono_r; lia). lia.
Qed.

(** A text of digits is the decimal of its value, padded with zeros. *)
Lemma padded_decimal s : all_digits s -> s <> [] -> value s < 10 ^ 39 ->
  replicate (length s - length (unsigned_decimal (value s))) 48 ++ unsigned_decimal (value s) = s.
Proof.
  intros Hs Hne Hl. induction Hs as [|c s Hc Hs IH]; [done|].
  destruct (decide (c = 48)) as [->|Hc48].
  - rewrite value_cons in Hl |- * by (by constructor). replace ((48 - 48) * 10 ^ zlen s + value s) with (value s) in * by lia.
    destruct s as [|d s]; [done|]. specialize (IH ltac:(done) Hl).
    set (u := unsigned_decimal (value (d :: s))) in *.
    assert (length u <= length (d :: s))%nat by (rewrite <- IH, length_app; lia).
    change (length (48 :: d :: s)) with (S (length (d :: s))). rewrite Nat.sub_succ_l by done.
    cbn [replicate app]. by rewrite IH.
  - assert (all_digits (c :: s)) as Hd by (by constructor). pose proof (value_lower c s Hd Hc48).
    assert (0 < 10 ^ zlen s) by (apply Z.pow_pos_nonneg; zl). pose proof (short_digits c s Hd Hc48 Hl).
    unfold unsigned_decimal. destruct (Z.eqb_spec (value (c :: s)) 0); [lia|].
    rewrite digits_rev_value by (done || lia). rewrite reverse_involutive, Nat.sub_diag. done.
Qed.

Lemma unsigned_decimal_value s : all_digits s -> s <> [] -> value s < 10 ^ 39 ->
  hd 0 s <> 48 ∨ s = [48] -> unsigned_decimal (value s) = s.
Proof.
  intros Hs Hne Hl [Hh| ->]; [|done]. destruct s as [|c s]; [done|]. simpl in Hh.
  pose proof (value_lower c s Hs Hh). assert (0 < 10 ^ zlen s) by (apply Z.pow_pos_nonneg; zl).
  pose proof (short_digits c s Hs Hh Hl). unfold unsigned_decimal. destruct (Z.eqb_spec (value (c :: s)) 0); [lia|].
  rewrite digits_rev_value by (done || lia). apply reverse_involutive.
Qed.

(** ** Texts a column is printed as *)

(** Digits without a leading zero that could be left out. *)
Definition plain_digits (s : bytestring) : Prop := all_digits s ∧ s <> [] ∧ (hd 0 s <> 48 ∨ s = [48]).

Definition sign_text (neg : bool) : bytestring := if neg then [45] else [].

(** An integer column prints plain digits with a sign, and no negative zero;
    a date ten characters; a decimal column with [scale] fractional digits
    prints all of them. *)
Definition canonical_int (lo hi : Z) (s : bytestring) : Prop :=
  ∃ neg ds, s = sign_text neg ++ ds ∧ plain_digits ds ∧ (neg = true -> ds <> [48]) ∧
    lo <= (if neg then - value ds else value ds) <= hi.

Definition canonical_date (s : bytestring) : Prop :=
  ∃ y m d, s = y ++ [45] ++ m ++ [45] ++ d ∧ all_digits y ∧ all_digits m ∧ all_digits d ∧
    zlen y = 4 ∧ zlen m = 2 ∧ zlen d = 2.

Definition canonical_dec (scale : Z) (s : bytestring) : Prop :=
  ∃ neg ip fp, s = sign_text neg ++ ip ++ (if scale =? 0 then [] else [46] ++ fp) ∧
    plain_digits ip ∧ all_digits fp ∧ zlen fp = scale ∧ (neg = true -> value (ip ++ fp) <> 0) ∧
    INT64_MIN <= (if neg then - value (ip ++ fp) else value (ip ++ fp)) <= INT64_MAX.

Definition canonical_text (kind scale : Z) (s : bytestring) : Prop :=
  (kind = FK_INT32 ∧ canonical_int INT32_MIN INT32_MAX s) ∨
  (kind = FK_INT64 ∧ canonical_int INT64_MIN INT64_MAX s) ∨
  (kind = FK_DATE ∧ canonical_date s) ∨
  (kind = FK_DEC64 ∧ canonical_dec scale s).

(** The width of a typed cell. *)
Definition kind_width (kind : Z) : Z := if (kind =? FK_INT32) || (kind =? FK_DATE) then 4 else 8.

(** ** Integers *)

Lemma ParseI64_canonical lo hi s : INT64_MIN <= lo -> hi <= INT64_MAX -> canonical_int lo hi s ->
  ∃ v, ParseI64 s = Some v ∧ to_chars v = s ∧ lo <= v <= hi.
Proof.
  intros Hlo Hhi (neg & ds & -> & (Hd & Hne & Hh) & Hz & Hr). assert (0 <= value ds) by (apply value_bound, Hd).
  assert (unsigned_decimal (value ds) = ds) as Hu.
  { apply unsigned_decimal_value; try done. unfold INT64_MAX, INT64_MIN in *. destruct neg; lia. }
  assert (from_digits 0 ds = Some (value ds)) as Hf by (rewrite from_digits_value by done; f_equal; lia).
  exists (if neg then - value ds else value ds). unfold ParseI64, to_chars.
  destruct ds as [|c ds]; [done|]. pose proof Hd as Hc. apply Forall_cons in Hc as [Hc _]. apply is_digit_spec in Hc.
  destruct neg; cbn [sign_text app].
  - rewrite Z.eqb_refl, Hf. cbn [mbind option_bind]. rewrite (proj2 (andb_true_iff _ _)) by lia. split_and!; try lia; [done|].
    assert (value (c :: ds) <> 0).
    { intros E. rewrite E in Hu. by apply Hz. }
    destruct (Z.ltb_spec (- value (c :: ds)) 0); [|lia]. by rewrite Z.opp_involutive, Hu.
  - destruct (Z.eqb_spec c 45); [lia|]. rewrite Hf. cbn [mbind option_bind]. rewrite (proj2 (andb_true_iff _ _)) by lia.
    split_and!; try lia; [done|]. destruct (Z.ltb_spec (value (c :: ds)) 0); [lia|]. done.
Qed.

(** ** Dates *)

Lemma printf_digits width s : all_digits s -> s <> [] -> value s < 10 ^ 39 -> length s = width ->
  printf_0d width (value s) = s.
Proof.
  intros Hs Hne Hv <-. unfold printf_0d. pose proof (value_bound s Hs). destruct (Z.ltb_spec (value s) 0); [lia|].
  rewrite Z.abs_eq by lia. simpl length. rewrite Nat.sub_0_r. by apply padded_decimal.
Qed.

Lemma ParseDate_canonical s : canonical_date s ->
  ∃ v, ParseDate s = Some v ∧ format_date v = Some s ∧ 0 <= v < 10 ^ 8.
Proof.
  intros (y & m & d & -> & Hy & Hm & Hd & Ly & Lm & Ld).
  assert (forall t, all_digits t -> from_digits 0 t = Some (value t)) as Hf.
  { intros t Ht. by rewrite from_digits_value. }
  pose proof (value_bound y Hy) as By. pose proof (value_bound m Hm) as Bm. pose proof (value_bound d Hd) as Bd.
  rewrite Ly in By. rewrite Lm in Bm. rewrite Ld in Bd.
  exists (value y * 10000 + value m * 100 + value d). split_and!; [| |lia..].
  - unfold ParseDate. assert (zlen (y ++ [45] ++ m ++ [45] ++ d) = 10) as -> by (zl; lia).
    destruct y as [|y1 [|y2 [|y3 [|y4 [|]]]]]; try (unfold zlen in Ly; simpl in Ly; lia).
    destruct m as [|m1 [|m2 [|]]]; try (unfold zlen in Lm; simpl in Lm; lia).
    destruct d as [|d1 [|d2 [|]]]; try (unfold zlen in Ld; simpl in Ld; lia).
    cbn [app nth]. rewrite !Z.eqb_refl. cbn [negb orb].
    change (slice 0 4 _) with [y1; y2; y3; y4]. change (slice 5 2 _) with [m1; m2]. change (slice 8 2 _) with [d1; d2].
    rewrite (Hf [y1; y2; y3; y4]), (Hf [m1; m2]), (Hf [d1; d2]) by done. done.
  - unfold format_date. rewrite !Z.quot_div_nonneg, !Z.rem_mod_nonneg by (try apply Z.div_pos; lia).
    assert ((value y * 10000 + value m * 100 + value d) / 10000 = value y) as ->
      by (symmetry; apply (Z.div_unique _ _ _ (value m * 100 + value d)); lia).
    assert ((value y * 10000 + value m * 100 + value d) / 100 = value y * 100 + value m) as ->
      by (symmetry; apply (Z.div_unique _ _ _ (value d)); lia).
    assert ((value y * 100 + value m) `mod` 100 = value m) as -> by (symmetry; apply (Z.mod_unique _ _ (value y)); lia).
    assert ((value y * 10000 + value m * 100 + value d) `mod` 100 = value d) as ->
      by (symmetry; apply (Z.mod_unique _ _ (value y * 100 + value m)); lia).
    rewrite !printf_digits; try done; try lia; try (unfold zlen in *; lia); try (intros ->; done).
    assert (zlen (y ++ [45] ++ m ++ [45] ++ d) = 10) as -> by (zl; lia). done.
Qed.

(** ** Decimals *)

Lemma dec_loop_digits s rest m fdig seen_dot any : all_digits s -> 0 <= m -> m * 10 ^ zlen s + value s <= INT128_MAX ->
  (seen_dot = true -> fdig + zlen s <= INT32_MAX) ->
  dec_loop (s ++ rest) m fdig seen_dot any =
  dec_loop rest (m * 10 ^ zlen s + value s) (if seen_dot then fdig + zlen s else fdig) seen_dot (any || negb (zlen s =? 0)).
Proof.
  intros Hs. revert m fdig any. induction Hs as [|c s Hc Hs IH]; intros m fdig any Hm Hb Hf.
  { simpl. zl. rewrite Z.mul_1_r, !Z.add_0_r, orb_false_r. by destruct seen_dot. }
  rewrite value_cons in Hb |- * by (by constructor). pose proof (value_bound s Hs).
  assert (0 < 10 ^ zlen s) by (apply Z.pow_pos_nonneg; zl). pose proof Hc as Hc'. apply is_digit_spec in Hc'.
  assert (m * 10 ^ zlen (c :: s) = m * 10 * 10 ^ zlen s) as E by (zl; rewrite Z.pow_add_r by zl; lia).
  rewrite E in Hb |- *. cbn [app dec_loop]. destruct (Z.eqb_spec c 46); [lia|]. rewrite Hc. cbn [negb].
  unfold int128. destruct (Z.leb_spec (m * 10 + (c - 48)) INT128_MAX); [|nia]. cbn [mbind option_bind].
  rewrite zlen_cons in Hf |- *. assert (zlen s >= 0) by zl.
  assert ((if seen_dot then int32_succ fdig else Some fdig) = Some (if seen_dot then fdig + 1 else fdig)) as ->.
  { destruct seen_dot; [|done]. unfold int32_succ. specialize (Hf eq_refl). destruct (Z.ltb_spec fdig INT32_MAX); [done|lia]. }
  cbn [mbind option_bind]. rewrite IH; [|nia|nia|destruct seen_dot; intros E'; [specialize (Hf E'); lia|done]].
  f_equal; [lia|destruct seen_dot; lia|]. destruct (Z.eqb_spec (1 + zlen s) 0); [lia|]. by rewrite orb_true_r.
Qed.

(** The digits of a scaled decimal, padded to the scale. *)
Lemma dec_digits ip fp : plain_digits ip -> all_digits fp -> value (ip ++ fp) < 10 ^ 39 ->
  let u := unsigned_decimal (value (ip ++ fp)) in
  replicate (Z.to_nat (zlen fp + 1) - length u) 48 ++ u = ip ++ fp.
Proof.
  intros (Hi & Hne & Hh) Hf Hv u. assert (all_digits (ip ++ fp)) as Hall by (by apply Forall_app).
  destruct Hh as [Hh| ->].
  - assert (u = ip ++ fp) as ->.
    { apply unsigned_decimal_value; [done| |done|]; destruct ip; try done. by left. }
    assert (Z.to_nat (zlen fp + 1) - length (ip ++ fp) = 0)%nat as ->; [|done].
    rewrite length_app. destruct ip; [done|]. unfold zlen. simpl. lia.
  - pose proof (padded_decimal ([48] ++ fp) Hall ltac:(done) Hv) as E. fold u in E. etrans; [|exact E].
    f_equal. f_equal. unfold zlen. simpl. lia.
Qed.

Lemma signs_apart c : is_digit c = true -> (c =? 45) = false ∧ (c =? 43) = false ∧ (c =? 46) = false.
Proof. rewrite is_digit_spec. lia. Qed.

Lemma dec_loop_canonical scale ip fp : 0 <= scale <= 127 -> plain_digits ip -> all_digits fp -> zlen fp = scale ->
  value (ip ++ fp) <= 2 ^ 63 ->
  dec_loop (ip ++ (if scale =? 0 then [] else [46] ++ fp)) 0 0 false false = Some (Some (value (ip ++ fp), scale, true)).
Proof.
  intros Hs (Hi & Hne & Hh) Hf Hl Hv. rewrite value_app in Hv |- * by done. pose proof (value_bound ip Hi). pose proof (value_bound fp Hf).
  assert (0 < 10 ^ zlen fp) by (apply Z.pow_pos_nonneg; zl).
  assert (negb (zlen ip =? 0) = true) as Hany.
  { destruct ip as [|c ip]; [done|]. pose proof (zlen_nonneg ip). rewrite zlen_cons. by destruct (Z.eqb_spec (1 + zlen ip) 0); [lia|]. }
  unfold INT128_MAX, INT32_MAX in *.
  rewrite dec_loop_digits by (done || unfold INT128_MAX; nia). rewrite Hany. cbn [orb].
  destruct (Z.eqb_spec scale 0) as [->|Hs0].
  - destruct fp as [|]; [|rewrite zlen_cons in *; zl; lia]. cbn [dec_loop]. change (value []) with 0. zl. f_equal. f_equal. f_equal. f_equal. lia.
  - cbn [app dec_loop]. rewrite Z.eqb_refl. rewrite <- (app_nil_r fp) at 1.
    rewrite dec_loop_digits by (done || unfold INT128_MAX, INT32_MAX; nia). cbn [dec_loop orb]. rewrite Hl. do 4 f_equal.
Qed.

Lemma ParseDecScaled_canonical scale s : 0 <= scale <= 127 -> canonical_dec scale s ->
  ∃ v, ParseDecScaled s scale = Some (Some v) ∧ format_dec scale v = Some s ∧ INT64_MIN <= v <= INT64_MAX.
Proof.
  intros Hs (neg & ip & fp & -> & Hip & Hfp & Hl & Hz & Hr).
  assert (0 <= value (ip ++ fp)) as Hnn by (apply value_bound, Forall_app; split; [apply Hip|done]).
  assert (value (ip ++ fp) <= 2 ^ 63) as Hb by (unfold INT64_MIN, INT64_MAX in Hr; destruct neg; lia).
  pose proof (dec_loop_canonical scale ip fp Hs Hip Hfp Hl Hb) as Hloop.
  pose proof (dec_digits ip fp Hip Hfp ltac:(lia)) as Hdig. cbv zeta in Hdig. rewrite Hl in Hdig.
  set (v := value (ip ++ fp)) in *. set (tail := if scale =? 0 then [] else [46] ++ fp) in *.
  exists (if neg then - v else v). split_and!; try lia.
  - unfold ParseDecScaled. destruct Hip as (Hi & Hne & _). destruct ip as [|c ip]; [done|].
    apply Forall_cons in Hi as [Hc _]. destruct (signs_apart c Hc) as (E1 & E2 & _).
    destruct neg; cbn [sign_text app] in *.
    + rewrite Z.eqb_refl. cbn [orb]. rewrite Hloop. cbn [mbind option_bind negb]. rewrite Z.ltb_irrefl, Z.sub_diag.
      change (Z.to_nat 0) with O. cbn [dec_pad mbind option_bind].
      destruct (Z.ltb_spec INT64_MAX (- v)), (Z.ltb_spec (- v) INT64_MIN); try lia. done.
    + rewrite E1, E2. cbn [orb]. rewrite Hloop. cbn [mbind option_bind negb]. rewrite Z.ltb_irrefl, Z.sub_diag.
      change (Z.to_nat 0) with O. cbn [dec_pad mbind option_bind].
      destruct (Z.ltb_spec INT64_MAX v), (Z.ltb_spec v INT64_MIN); try lia. done.
  - unfold format_dec. assert (Z.abs (if neg then - v else v) = v) as -> by (destruct neg; lia). rewrite Hdig.
    assert ((if (if neg then - v else v) <? 0 then [45] else []) = sign_text neg) as ->.
    { destruct neg; [specialize (Hz eq_refl); destruct (Z.ltb_spec (- v) 0)|destruct (Z.ltb_spec v 0)]; try lia; done. }
    unfold tail. destruct (Z.eqb_spec scale 0) as [E|E].
    + assert (fp = []) as -> by (destruct fp; [done|]; zl; lia). by rewrite !app_nil_r.
    + destruct (Z.ltb_spec scale 0); [lia|]. assert (Z.to_nat (zlen (ip ++ fp) - scale) = length ip) as -> by (rewrite <- Hl; unfold zlen; rewrite length_app; lia).
      by rewrite take_app_length, drop_app_length.
Qed.

(** ** Cells *)

Lemma le_value_bytes_mod n w : le_value (le_bytes n w) = w mod 256 ^ Z.of_nat n.
Proof.
  revert w. induction n as [|n IH]; intros w; simpl le_bytes; cbn [le_value]; [by rewrite Z.mod_1_r|].
  rewrite IH, Nat2Z.inj_succ, Z.pow_succ_r by lia.
  rewrite (Z.rem_mul_r w 256 (256 ^ Z.of_nat n)) by lia. lia.
Qed.

Lemma take_le_bytes n k w : take n (le_bytes (n + k) w) = le_bytes n w.
Proof. revert w. induction n as [|n IH]; intros w; simpl; [done|]. by rewrite IH. Qed.

Lemma signed_mod w v : 1 < w -> - 2 ^ (w - 1) <= v < 2 ^ (w - 1) -> signed w (v mod 2 ^ w) = v.
Proof.
  intros Hw Hv. assert (2 ^ w = 2 * 2 ^ (w - 1)) as E by (rewrite <- Z.pow_succ_r by lia; f_equal; lia).
  unfold signed. destruct (decide (0 <= v)).
  - rewrite Z.mod_small by lia. destruct (Z.ltb_spec v (2 ^ (w - 1))); lia.
  - assert (v mod 2 ^ w = v + 2 ^ w) as -> by (symmetry; apply (Z.mod_unique _ _ (-1)); lia).
    destruct (Z.ltb_spec (v + 2 ^ w) (2 ^ (w - 1))); lia.
Qed.

(** The integer that [width] bytes of a cell hold. *)
Lemma cell_value width v : (width = 4 ∨ width = 8)%nat -> - 2 ^ (8 * Z.of_nat width - 1) <= v < 2 ^ (8 * Z.of_nat width - 1) ->
  signed (8 * Z.of_nat width) (le_value (take width (le_bytes 8 (u64 v)))) = v.
Proof.
  intros [-> | ->] Hv.
  - change 8%nat with (4 + 4)%nat. rewrite take_le_bytes, le_value_bytes_mod. unfold u64.
    change (256 ^ Z.of_nat 4) with (2 ^ (8 * Z.of_nat 4)).
    rewrite <- (Zmod_div_mod (2 ^ (8 * Z.of_nat 4)) (2 ^ 64)); [by apply signed_mod|done|done|by exists (2 ^ 32)].
  - change (take 8 (le_bytes 8 (u64 v))) with (le_bytes 8 (u64 v)). rewrite le_value_bytes_mod. unfold u64.
    change (256 ^ Z.of_nat 8) with (2 ^ (8 * Z.of_nat 8)). change (2 ^ 64) with (2 ^ (8 * Z.of_nat 8)).
    rewrite Z.mod_mod by (cbn; lia). by apply signed_mod.
Qed.

Lemma cell_value_32 v : INT32_MIN <= v <= INT32_MAX -> signed 32 (le_value (take (Z.to_nat 4) (le_bytes 8 (u64 v)))) = v.
Proof. intros Hv. unfold INT32_MIN, INT32_MAX in Hv. apply (cell_value 4); [by left|]. simpl. lia. Qed.

Lemma cell_value_64 v : INT64_MIN <= v <= INT64_MAX -> signed 64 (le_value (take (Z.to_nat 8) (le_bytes 8 (u64 v)))) = v.
Proof. intros Hv. unfold INT64_MIN, INT64_MAX in Hv. apply (cell_value 8); [by right|]. simpl. lia. Qed.

(** A typed cell gives back the text it was made from. *)
Lemma typed_text_roundtrip kind scale s : 0 <= scale <= 127 -> canonical_text kind scale s ->
  ∃ w, ParseTyped kind scale s = Some (Some w) ∧
    forall cell, cell (kind_width kind) = Some (take (Z.to_nat (kind_width kind)) (le_bytes 8 w)) ->
    FormatTyped kind scale cell = Some s.
Proof.
  intros Hs [[-> Hc]|[[-> Hc]|[[-> Hc]|[-> Hc]]]]; unfold ParseTyped, FormatTyped, AppendI64.
  - destruct (ParseI64_canonical INT32_MIN INT32_MAX s ltac:(done) ltac:(done) Hc) as (v & -> & Hf & Hr).
    exists (u64 v). cbn [Z.eqb Pos.eqb FK_INT32 mbind option_bind].
    split; [by destruct (Z.ltb_spec v INT32_MIN), (Z.ltb_spec INT32_MAX v); try lia|].
    change (kind_width FK_INT32) with 4. intros cell ->. cbn [mbind option_bind]. by rewrite cell_value_32, Hf.
  - destruct (ParseI64_canonical INT64_MIN INT64_MAX s ltac:(done) ltac:(done) Hc) as (v & -> & Hf & Hr).
    exists (u64 v). split; [done|].
    change (kind_width FK_INT64) with 8. intros cell H. cbn [Z.eqb Pos.eqb FK_INT32 FK_INT64]. rewrite H. cbn [mbind option_bind].
    by rewrite cell_value_64, Hf.
  - destruct (ParseDate_canonical s Hc) as (v & -> & Hf & Hr). exists (u64 v). split; [done|].
    change (kind_width FK_DATE) with 4. intros cell H. cbn [Z.eqb Pos.eqb FK_INT32 FK_INT64 FK_DATE]. rewrite H. cbn [mbind option_bind].
    rewrite cell_value_32, Hf by (unfold INT32_MIN, INT32_MAX; lia). done.
  - destruct (ParseDecScaled_canonical scale s Hs Hc) as (v & Hp & Hf & Hr). exists (u64 v).
    cbn [Z.eqb Pos.eqb FK_INT32 FK_INT64 FK_DATE FK_DEC64]. rewrite Hp. split; [done|].
    change (kind_width FK_DEC64) with 8. intros cell ->. cbn [mbind option_bind].
    by rewrite cell_value_64, Hf.
Qed.

(** ** Definedness *)

Lemma length_digits_rev fuel n k : n < 10 ^ Z.of_nat k -> (length (digits_rev fuel n) <= k)%nat ∨ n < 0.
Proof.
  revert n k. induction fuel as [|f IH]; intros n k Hn; simpl; [left; lia|].
  destruct (Z.eqb_spec n 0); [left; simpl; lia|]. destruct (decide (n < 0)); [by right|].
  destruct k as [|k]; [simpl in Hn; lia|]. rewrite Nat2Z.inj_succ, Z.pow_succ_r in Hn by lia.
  destruct (IH (n / 10) k) as [H|H]; [apply Z.div_lt_upper_bound; lia|left; simpl; lia|].
  pose proof (Z.div_pos n 10). lia.
Qed.

Lemma length_unsigned_decimal n k : 0 <= n < 10 ^ Z.of_nat k -> (1 <= k)%nat -> (length (unsigned_decimal n) <= k)%nat.
Proof.
  intros Hn Hk. unfold unsigned_decimal. destruct (n =? 0); [done|]. rewrite length_reverse.
  destruct (length_digits_rev 39 n k) as [H|H]; [lia|done|lia].
Qed.

Lemma length_printf_0d width v k : Z.abs v < 10 ^ Z.of_nat k -> (1 <= k)%nat ->
  (length (printf_0d width v) <= Nat.max width (S k))%nat.
Proof.
  intros Hv Hk. unfold printf_0d. pose proof (length_unsigned_decimal (Z.abs v) k ltac:(lia) Hk).
  rewrite !length_app, length_replicate. destruct (v <? 0); simpl; lia.
Qed.

(** The buffer of 16 characters is large enough for every date, whatever the
    cell holds. *)
Lemma format_date_defined v : - 2 ^ 31 <= v < 2 ^ 31 -> is_Some (format_date v).
Proof.
  intros Hv. unfold format_date.
  assert (Z.abs (Z.quot v 10000) < 10 ^ Z.of_nat 6) as Hy by (pose proof (Z.quot_rem v 10000); pose proof (Z.rem_bound_abs v 10000); lia).
  assert (forall x, Z.abs (Z.rem x 100) < 10 ^ Z.of_nat 2) as Hr by (intros x; pose proof (Z.rem_bound_abs x 100); lia).
  pose proof (length_printf_0d 4 _ 6 Hy ltac:(lia)) as L1.
  pose proof (length_printf_0d 2 _ 2 (Hr (Z.quot v 100)) ltac:(lia)) as L2.
  pose proof (length_printf_0d 2 _ 2 (Hr v) ltac:(lia)) as L3.
  destruct (Z.ltb_spec (zlen (printf_0d 4 (Z.quot v 10000) ++ [45] ++ printf_0d 2 (Z.rem (Z.quot v 100) 100) ++ [45] ++
    printf_0d 2 (Z.rem v 100))) 16) as [|Hge]; [by eexists|].
  exfalso. unfold zlen in Hge. rewrite !length_app in Hge. simpl length in Hge. lia.
Qed.

Lemma signed_bound w v : 1 < w -> 0 <= v < 2 ^ w -> - 2 ^ (w - 1) <= signed w v < 2 ^ (w - 1).
Proof.
  intros Hw Hv. assert (2 ^ w = 2 * 2 ^ (w - 1)) as E by (rewrite <- Z.pow_succ_r by lia; f_equal; lia).
  unfold signed. destruct (Z.ltb_spec v (2 ^ (w - 1))); lia.
Qed.

(** A typed cell can be formatted whatever bytes it holds. *)
Lemma FormatTyped_defined kind scale cell b : (kind = FK_DEC64 -> 0 <= scale) ->
  cell (kind_width kind) = Some b -> zlen b = kind_width kind -> bytes_ok b -> is_Some (FormatTyped kind scale cell).
Proof.
  unfold FormatTyped. intros Hs. destruct (Z.eqb_spec kind FK_INT32) as [->|]; [by change (kind_width _) with 4; intros ->; eexists|].
  destruct (Z.eqb_spec kind FK_INT64) as [->|]; [by change (kind_width _) with 8; intros ->; eexists|].
  destruct (Z.eqb_spec kind FK_DATE) as [->|].
  { change (kind_width _) with 4. intros -> Hl Hb. cbn [mbind option_bind].
    apply format_date_defined, (signed_bound 32); [done|].
    pose proof (le_value_bound b Hb) as H. rewrite Hl in H. exact H. }
  destruct (Z.eqb_spec kind FK_DEC64) as [->|]; [|by eexists]. change (kind_width _) with 8. intros -> Hl Hb. cbn [mbind option_bind].
  unfold format_dec. specialize (Hs eq_refl). destruct (scale =? 0); [by eexists|]. destruct (Z.ltb_spec scale 0); [lia|by eexists].
Qed.

Lemma dec_loop_defined s m fdig seen_dot any k : 0 <= m < 10 ^ Z.of_nat k -> 0 <= fdig <= Z.of_nat k -> (k + length s <= 38)%nat ->
  ∃ r, dec_loop s m fdig seen_dot any = Some r ∧
    forall m' fdig' any', r = Some (m', fdig', any') -> 0 <= m' < 10 ^ Z.of_nat (k + length s) ∧ 0 <= fdig'.
Proof.
  revert m fdig seen_dot any k. induction s as [|c s IH]; intros m fdig seen_dot any k Hm Hf Hk; cbn [dec_loop].
  { eexists. split; [done|]. intros ??? [= -> -> _]. simpl. rewrite Nat.add_0_r. split; [done|lia]. }
  simpl in Hk. assert (10 ^ Z.of_nat k <= 10 ^ Z.of_nat (S k + length s)) by (apply Z.pow_le_mono_r; lia).
  assert (10 ^ Z.of_nat (S k) <= 10 ^ 38) by (apply Z.pow_le_mono_r; lia).
  assert (10 ^ Z.of_nat (S k) = 10 * 10 ^ Z.of_nat k) as E by (rewrite Nat2Z.inj_succ, Z.pow_succ_r by lia; done).
  replace (k + length (c :: s))%nat with (S k + length s)%nat by (simpl; lia).
  destruct (c =? 46).
  { destruct seen_dot; [by eexists; split|]. apply IH; [split; [lia|]|lia..]. rewrite E. lia. }
  destruct (is_digit c) eqn:Ed; [|by eexists; split]. cbn [negb]. apply is_digit_spec in Ed.
  unfold int128, INT128_MAX. destruct (Z.leb_spec (m * 10 + (c - 48)) (2 ^ 127 - 1)); [|lia]. cbn [mbind option_bind].
  unfold int32_succ, INT32_MAX. destruct seen_dot.
  - destruct (Z.ltb_spec fdig (2 ^ 31 - 1)); [|lia]. cbn [mbind option_bind]. apply IH; lia.
  - cbn [mbind option_bind]. apply IH; lia.
Qed.

Lemma dec_pad_defined n m k : 0 <= m < 10 ^ Z.of_nat k -> (k + n <= 38)%nat -> is_Some (dec_pad n m).
Proof.
  revert m k. induction n as [|n IH]; intros m k Hm Hk; simpl; [by eexists|].
  assert (10 ^ Z.of_nat (S k) <= 10 ^ 38) by (apply Z.pow_le_mono_r; lia).
  assert (10 ^ Z.of_nat (S k) = 10 * 10 ^ Z.of_nat k) as E by (rewrite Nat2Z.inj_succ, Z.pow_succ_r by lia; done).
  unfold int128, INT128_MAX. destruct (Z.leb_spec (m * 10) (2 ^ 127 - 1)); [|lia]. cbn [mbind option_bind]. apply (IH _ (S k)); lia.
Qed.

(** A decimal text is parsed without overflow as long as it and the scale
    together have at most 38 digits. *)
Lemma ParseTyped_defined kind scale s : (kind = FK_DEC64 -> zlen s + Z.max 0 scale <= 38) -> is_Some (ParseTyped kind scale s).
Proof.
  intros Hl. unfold ParseTyped. destruct (kind =? FK_INT32); [by eexists|]. destruct (kind =? FK_INT64); [by eexists|].
  destruct (kind =? FK_DATE); [by eexists|]. destruct (Z.eqb_spec kind FK_DEC64); [|by eexists].
  destruct (ParseDecScaled s scale) as [r|] eqn:Er; [by eexists|]. exfalso. specialize (Hl ltac:(done)).
  unfold ParseDecScaled in Er. destruct s as [|c s]; [done|]. unfold zlen in Hl. simpl length in Hl.
  destruct (dec_loop_defined (if (c =? 45) || (c =? 43) then s else c :: s) 0 0 false false 0) as (r & Hr & Hb);
    [lia|lia|destruct ((c =? 45) || (c =? 43)); simpl; lia|].
  rewrite Hr in Er. cbn [mbind option_bind] in Er. destruct r as [[[m fdig] any]|]; [|done].
  destruct (Hb _ _ _ eq_refl) as [Hm Hf]. destruct any; [|done]. cbn [negb] in Er.
  destruct (Z.ltb_spec scale fdig); [done|].
  destruct (dec_pad_defined (Z.to_nat (scale - fdig)) m _ Hm) as [m' Hm']; [destruct ((c =? 45) || (c =? 43)); simpl; lia|].
  rewrite Hm' in Er. cbn [mbind option_bind] in Er. by destruct (_ || _).
Qed.
