(* ===== verification/PaxGroup.v ===== *)
(** * Row groups and the slots of a table (src/include/lineairdb/pax_store.h,
    src/src/pax/pax_store.cpp)

    A PAX table keeps its rows in groups of 8192 slots.  A group is one block
    of memory with a strip per field; the cell of a field in a slot is a length
    and the payload.  [ScatterRow] cuts a row into cells, [GatherRow] puts it
    together again, and the projected and masked gathers read some fields.

    Memory is a map from addresses to bytes with a size: an access outside of
    it is undefined and gives [None], as does an access outside of a vector.
    The theorems are in PaxCells.v: a row in the form the client writes comes back byte for byte
    and no other slot is touched; no access leaves the group, whatever a torn
    read finds in it; the masked gather is the row with the other columns
    empty. *)

From stdpp Require Import list_numbers.
From S2P Require Import Prelude PaxCodec.
Import FieldKind.

Record TableSchema := mkSchema {
  table_name : bytestring;
  field_max_bytes : list Z;
  field_kind : list Z;
  field_scale : list Z;
}.

Module TableSchema.

Definition field_count (s : TableSchema) : nat := length (field_max_bytes s).
Definition kind_of (s : TableSchema) (f : nat) : Z := default FK_UNTYPED (field_kind s !! f).
Definition scale_of (s : TableSchema) (f : nat) : Z := default 0 (field_scale s !! f).

(** [has_kinds ? field_kind[f] : FK_UNTYPED]. *)
Definition kind_at (s : TableSchema) (f : nat) : option Z :=
  match field_kind s with [] => Some FK_UNTYPED | _ => field_kind s !! f end.

End TableSchema.
Import TableSchema.

(** The schema that [InstallPaxSchema] builds: the kinds and scales of a request
    are used only if there is one for each field. *)
Definition requested_schema (name : bytestring) (widths kinds scales : list Z) : TableSchema :=
  if bool_decide (length kinds = length widths)
  then mkSchema name widths kinds (if bool_decide (length scales = length widths) then scales else replicate (length widths) 0)
  else mkSchema name widths [] [].

(** ** Rows *)

Fixpoint LengthPrefixBytes_loop (fuel : nat) (v n : Z) : Z :=
  match fuel with
  | O => n
  | S fuel' => if 0 <? v then LengthPrefixBytes_loop fuel' (v / 256) (n + 1) else n
  end.
(** A length has 32 bits, so that the loop runs at most four times. *)
Definition LengthPrefixBytes (len : Z) : Z := LengthPrefixBytes_loop 4 len 0.

(** [ParseRow]: the payloads of the fields; a field takes at least a byte, so
    that the length of the row is fuel enough. *)
Fixpoint ParseRow_loop (fuel : nat) (rest : bytestring) (max_fields : nat) : option (list bytestring) :=
  match rest with
  | [] => Some []
  | b :: rest1 =>
      match fuel, max_fields with
      | S fuel', S max' =>
          if b =? 255 then cons [] <$> ParseRow_loop fuel' rest1 max'
          else if (4 <? b) || (zlen rest1 <? b) then None
          else
            let len := le_value (take (Z.to_nat b) rest1) in
            let rest2 := drop (Z.to_nat b) rest1 in
            if zlen rest2 <? len then None
            else cons (take (Z.to_nat len) rest2) <$> ParseRow_loop fuel' (drop (Z.to_nat len) rest2) max'
      | _, _ => None
      end
  end.
Definition ParseRow (row : bytestring) (max_fields : nat) : option (list bytestring) :=
  ParseRow_loop (length row) row max_fields.

Definition AppendField (payload : bytestring) : bytestring :=
  match payload with
  | [] => [255]
  | _ =>
      let len := u32 (zlen payload) in
      let prefix := LengthPrefixBytes len in
      prefix :: map (fun i => Z.land (Z.shiftr len (8 * i)) 255) (seqZ 0 prefix) ++ payload
  end.

(** ** Groups *)

Record PaxGroup := mkGroup {
  schema_ : TableSchema;
  stride_ : list Z;
  strip_offset_ : list Z;
  arena_size : Z;
  arena_ : gmap Z Z;
  visible_ : list Z;
}.

Definition set_arena (g : PaxGroup) (m : gmap Z Z) : PaxGroup :=
  mkGroup (schema_ g) (stride_ g) (strip_offset_ g) (arena_size g) m (visible_ g).
Definition set_visible (g : PaxGroup) (v : list Z) : PaxGroup :=
  mkGroup (schema_ g) (stride_ g) (strip_offset_ g) (arena_size g) (arena_ g) v.

Module PaxGroup.

Definition kRows : Z := 8192.
Definition kCellLenBytes : Z := 2.
Definition kMaxFields : nat := 512.

(** The strips of the constructor: strides, offsets and the total. *)
Fixpoint layout (widths : list Z) (total : Z) : list Z * list Z * Z :=
  match widths with
  | [] => ([], [], total)
  | w :: widths' =>
      let stride := u32 (kCellLenBytes + w) in
      let offset := Z.land (u64 (total + 63)) (2 ^ 64 - 64) in
      let '(strides, offsets, size) := layout widths' (u64 (offset + u64 (stride * kRows))) in
      (stride :: strides, offset :: offsets, size)
  end.

Definition new (schema : TableSchema) : PaxGroup :=
  let '(strides, offsets, size) := layout (field_max_bytes schema) 0 in
  mkGroup schema strides offsets size ∅ (replicate (Z.to_nat (kRows / 64)) 0).

(** [memcpy] from and to the arena. *)
Fixpoint store_bytes (m : gmap Z Z) (at_ : Z) (b : bytestring) : gmap Z Z :=
  match b with [] => m | x :: b' => store_bytes (<[at_ := x]> m) (at_ + 1) b' end.

Definition read (g : PaxGroup) (at_ n : Z) : option bytestring :=
  if (0 <=? at_) && (at_ + n <=? arena_size g)
  then Some (map (fun i => default 0 (arena_ g !! i)) (seqZ at_ n)) else None.
Definition write (g : PaxGroup) (at_ : Z) (b : bytestring) : option PaxGroup :=
  if (0 <=? at_) && (at_ + zlen b <=? arena_size g)
  then Some (set_arena g (store_bytes (arena_ g) at_ b)) else None.

Definition cell_at (g : PaxGroup) (f : nat) (slot : Z) : option Z :=
  offset ← strip_offset_ g !! f;
  stride ← stride_ g !! f;
  Some (u64 (offset + u64 (stride * slot))).

(** The validation of the fields: [typed_bin], or [false]. *)
Fixpoint validate_fields (s : TableSchema) (f : nat) (refs : list bytestring) : option (option (list Z)) :=
  match refs with
  | [] => Some (Some [])
  | payload :: refs' =>
      k ← kind_at s f;
      max ← field_max_bytes s !! f;
      bin ← (if k =? FK_UNTYPED
             then Some (if (max <? zlen payload) || (65535 <? zlen payload) then None else Some 0)
             else match payload with [] => Some (Some 0) | _ => ParseTyped k (scale_of s f) payload end);
      match bin with
      | None => Some None
      | Some b => rest ← validate_fields s (S f) refs'; Some (option_map (cons b) rest)
      end
  end.

(** A variable of eight bytes as the source of a [memcpy]. *)
Definition bytes_of_u64 (v n : Z) : option bytestring :=
  if n <=? 8 then Some (take (Z.to_nat n) (le_bytes 8 v)) else None.

Definition write_cell (g : PaxGroup) (slot : Z) (f : nat) (payload : bytestring) (bin : Z) : option PaxGroup :=
  cell ← cell_at g f slot;
  k ← kind_at (schema_ g) f;
  if negb (k =? FK_UNTYPED) && negb (zlen payload =? 0) then
    max ← field_max_bytes (schema_ g) !! f;
    let len := u16 max in
    g ← write g cell (le_bytes 2 len);
    b ← bytes_of_u64 bin len;
    write g (cell + kCellLenBytes) b
  else
    let len := u16 (zlen payload) in
    g ← write g cell (le_bytes 2 len);
    if 0 <? len then write g (cell + kCellLenBytes) (take (Z.to_nat len) payload) else Some g.

Fixpoint write_cells (g : PaxGroup) (slot : Z) (f : nat) (refs : list bytestring) (bins : list Z) : option PaxGroup :=
  match refs, bins with
  | payload :: refs', bin :: bins' => g ← write_cell g slot f payload bin; write_cells g slot (S f) refs' bins'
  | _, _ => Some g
  end.

(** The bit of a slot in [visible_]. *)
Definition visible_word (slot : Z) : nat := Z.to_nat (Z.shiftr slot 6).
Definition visible_bit (slot : Z) : Z := Z.shiftl 1 (Z.land slot 63).

Definition publish_slot (g : PaxGroup) (slot : Z) : option PaxGroup :=
  w ← visible_ g !! visible_word slot;
  Some (set_visible g (<[visible_word slot := Z.lor w (visible_bit slot)]> (visible_ g))).

Definition RetireSlot (g : PaxGroup) (slot : Z) : option PaxGroup :=
  w ← visible_ g !! visible_word slot;
  Some (set_visible g (<[visible_word slot := Z.land w (2 ^ 64 - 1 - visible_bit slot)]> (visible_ g))).

Definition IsVisible (g : PaxGroup) (slot : Z) : option bool :=
  w ← visible_ g !! visible_word slot;
  Some (Z.land (Z.shiftr w (Z.land slot 63)) 1 =? 1).

Definition ScatterRow (g : PaxGroup) (slot : Z) (row : bytestring) : option (bool * PaxGroup) :=
  let fields := field_count (schema_ g) in
  if (kMaxFields <? fields)%nat then Some (false, g) else
  match ParseRow row fields with
  | None => Some (false, g)
  | Some refs =>
      if negb (length refs =? fields)%nat then Some (false, g) else
      bins ← validate_fields (schema_ g) 0 refs;
      match bins with
      | None => Some (false, g)
      | Some bins =>
          g ← write_cells g slot 0 refs bins;
          g ← publish_slot g slot;
          Some (true, g)
      end
  end.

(** [cell()]: the payload of a cell, empty if its length makes no sense. *)
Definition cell_length (g : PaxGroup) (f : nat) (slot : Z) : option Z :=
  cell ← cell_at g f slot;
  b ← read g cell 2;
  max ← field_max_bytes (schema_ g) !! f;
  let len := le_value b in
  Some (if max <? len then 0 else len).

Definition cell (g : PaxGroup) (f : nat) (slot : Z) : option bytestring :=
  at_ ← cell_at g f slot;
  len ← cell_length g f slot;
  read g (at_ + kCellLenBytes) len.

(** The text of a cell that is not empty. *)
Definition cell_text (g : PaxGroup) (k : Z) (f : nat) (slot len : Z) : option bytestring :=
  at_ ← cell_at g f slot;
  if negb (k =? FK_UNTYPED)
  then FormatTyped k (scale_of (schema_ g) f) (fun n => read g (at_ + kCellLenBytes) n)
  else read g (at_ + kCellLenBytes) len.

(** The loop of [GatherRow] from field [f] on: the bytes written to [dst],
    whose length is the result. *)
Fixpoint gather_fields (g : PaxGroup) (slot expected_size : Z) (fields : nat) (f : nat) (dst : bytestring)
    : option bytestring :=
  match fields with
  | O => Some dst
  | S fields' =>
      len ← cell_length g f slot;
      if len =? 0 then
        if expected_size <? zlen dst + 1 then Some dst
        else gather_fields g slot expected_size fields' (S f) (dst ++ [255])
      else
        k ← kind_at (schema_ g) f;
        src ← cell_text g k f slot len;
        let vlen := u32 (zlen src) in
        let prefix := LengthPrefixBytes vlen in
        if expected_size <? zlen dst + 1 + prefix + vlen then Some dst
        else gather_fields g slot expected_size fields' (S f)
               (dst ++ prefix :: map (fun i => Z.land (Z.shiftr vlen (8 * i)) 255) (seqZ 0 prefix) ++ src)
  end.

Definition GatherRow (g : PaxGroup) (slot expected_size : Z) : option bytestring :=
  gather_fields g slot expected_size (field_count (schema_ g)) 0 [].

Definition AppendCellField (g : PaxGroup) (f : nat) (slot : Z) (out : bytestring) : option bytestring :=
  cv ← cell g f slot;
  let k := kind_of (schema_ g) f in
  match cv with
  | [] => Some (out ++ AppendField [])
  | _ =>
      if k =? FK_UNTYPED then Some (out ++ AppendField cv)
      else tmp ← cell_text g k f slot (zlen cv); Some (out ++ AppendField tmp)
  end.

Fixpoint project_columns (g : PaxGroup) (slot : Z) (columns : list Z) (out : bytestring) : option (bool * bytestring) :=
  match columns with
  | [] => Some (true, out)
  | c :: columns' =>
      let field := Z.to_nat (c + 1) in
      if (field_count (schema_ g) <=? field)%nat then Some (false, out)
      else out ← AppendCellField g field slot out; project_columns g slot columns' out
  end.

Definition GatherRowProjected (g : PaxGroup) (slot : Z) (columns : list Z) (out : bytestring)
    : option (bool * bytestring) :=
  out ← AppendCellField g 0 slot out;
  project_columns g slot columns out.

Fixpoint mask_fields (g : PaxGroup) (slot : Z) (fields : list nat) (columns : list Z) (out : bytestring)
    : option bytestring :=
  match fields with
  | [] => Some out
  | f :: fields' =>
      match columns with
      | c :: columns' =>
          if c + 1 =? Z.of_nat f
          then out ← AppendCellField g f slot out; mask_fields g slot fields' columns' out
          else mask_fields g slot fields' columns (out ++ [255])
      | [] => mask_fields g slot fields' columns (out ++ [255])
      end
  end.

Definition GatherRowMasked (g : PaxGroup) (slot : Z) (columns : list Z) (out : bytestring) : option bytestring :=
  out ← AppendCellField g 0 slot out;
  mask_fields g slot (seq 1 (field_count (schema_ g) - 1)) columns out.

End PaxGroup.
Import PaxGroup.

(** ** The form of a row *)

(** What the client sends: one field after the other, with its length in as
    few bytes as possible and an empty field as one byte 0xFF. *)
Definition encode_row (fields : list bytestring) : bytestring := concat (map AppendField fields).

Lemma LengthPrefixBytes_spec len : 0 <= len < 2 ^ 32 ->
  0 <= LengthPrefixBytes len <= 4 ∧ len < 256 ^ LengthPrefixBytes len ∧ (0 < len -> 0 < LengthPrefixBytes len).
Proof.
  intros Hl. unfold LengthPrefixBytes. cbn [LengthPrefixBytes_loop].
  destruct (Z.ltb_spec 0 len); [|split_and!; lia].
  destruct (Z.ltb_spec 0 (len / 256)); [|split_and!; Z.to_euclidean_division_equations; lia].
  destruct (Z.ltb_spec 0 (len / 256 / 256)); [|split_and!; Z.to_euclidean_division_equations; lia].
  destruct (Z.ltb_spec 0 (len / 256 / 256 / 256)); split_and!; Z.to_euclidean_division_equations; lia.
Qed.

Lemma prefix_bytes n len : 0 <= len -> map (fun i => Z.land (Z.shiftr len (8 * i)) 255) (seqZ 0 (Z.of_nat n)) = le_bytes n len.
Proof.
  revert len. induction n as [|n IH]; intros len Hl; [done|].
  rewrite seqZ_cons by lia. cbn [map le_bytes]. f_equal.
  - rewrite Z.mul_0_r, Z.shiftr_0_r. change 255 with (Z.ones 8). rewrite Z.land_ones by lia. done.
  - rewrite <- IH by (apply Z.div_pos; lia). replace (Z.pred (Z.of_nat (S n))) with (Z.of_nat n) by lia.
    change (Z.succ 0) with (1 + 0). rewrite <- (fmap_add_seqZ 1 0 (Z.of_nat n)), map_map. apply map_ext_in. intros i Hi.
    apply list_elem_of_In, elem_of_seqZ in Hi. f_equal.
    change (len / 256) with (len / 2 ^ 8). rewrite <- (Z.shiftr_div_pow2 len 8), Z.shiftr_shiftr by lia. f_equal. lia.
Qed.

Lemma AppendField_cons b payload : zlen (b :: payload) < 2 ^ 32 ->
  AppendField (b :: payload) =
  let p := LengthPrefixBytes (zlen (b :: payload)) in p :: le_bytes (Z.to_nat p) (zlen (b :: payload)) ++ b :: payload.
Proof.
  intros Hl. unfold AppendField. pose proof (zlen_nonneg (b :: payload)). rewrite u32_small by (unfold is_u32; lia). cbv zeta.
  destruct (LengthPrefixBytes_spec (zlen (b :: payload))) as ([Hp _] & _); [lia|].
  rewrite <- prefix_bytes by lia. by rewrite Z2Nat.id.
Qed.

Lemma AppendField_length payload : zlen payload < 2 ^ 32 -> (1 <= length (AppendField payload))%nat.
Proof. destruct payload as [|b payload]; [simpl; lia|]. intros. rewrite AppendField_cons by done. simpl. lia. Qed.

(** A row in that form parses to its fields. *)
Lemma ParseRow_encode fields max : Forall (fun p => zlen p < 2 ^ 32) fields -> (length fields <= max)%nat ->
  ParseRow (encode_row fields) max = Some fields.
Proof.
  intros Hf. unfold ParseRow. assert (length (encode_row fields) <= length (encode_row fields))%nat as Hfuel by done.
  revert max Hfuel. generalize (length (encode_row fields)) at 2 3 as fuel.
  induction Hf as [|p fields Hp Hf IH]; intros fuel max Hfuel Hm; [by destruct fuel|].
  unfold encode_row in *. cbn [map concat] in *. rewrite length_app in Hfuel. pose proof (AppendField_length p Hp).
  destruct fuel as [|fuel]; [lia|]. destruct max as [|max]; [simpl in Hm; lia|].
  destruct p as [|b p].
  - cbn [AppendField app ParseRow_loop]. cbn [Z.eqb Pos.eqb]. rewrite IH by (simpl in *; lia). done.
  - rewrite AppendField_cons in * by done. cbv zeta in *. set (len := zlen (b :: p)) in *.
    assert (0 < len) by (unfold len; zl; lia). destruct (LengthPrefixBytes_spec len) as (Hr & Hlt & Hpos); [lia|].
    cbn [app ParseRow_loop]. destruct (Z.eqb_spec (LengthPrefixBytes len) 255); [lia|].
    rewrite <- app_assoc. set (lb := le_bytes _ len) in *.
    assert (zlen lb = LengthPrefixBytes len) as Hlb by (unfold lb, zlen; rewrite length_le_bytes; lia).
    destruct (Z.ltb_spec 4 (LengthPrefixBytes len)); [lia|].
    destruct (Z.ltb_spec (zlen (lb ++ (b :: p) ++ concat (map AppendField fields))) (LengthPrefixBytes len)); [zl; lia|]. cbn [orb].
    rewrite take_app_length', drop_app_length' by (unfold zlen in Hlb; lia).
    unfold lb. rewrite le_value_bytes by (rewrite Z2Nat.id by lia; lia).
    destruct (Z.ltb_spec (zlen ((b :: p) ++ concat (map AppendField fields))) len) as [Hx|Hx]; [exfalso; rewrite zlen_app in Hx; fold len in Hx; pose proof (zlen_nonneg (concat (map AppendField fields))); lia|].
    assert (Z.to_nat len = length (b :: p)) as Hll by (unfold len; apply to_nat_zlen).
    rewrite take_app_length', drop_app_length' by done. rewrite IH; [done| |simpl in Hm; lia].
    unfold encode_row. cbn [length] in Hfuel. rewrite length_app in Hfuel. cbn [length] in *. lia.
Qed.
