(* ===== verification/PaxCells.v ===== *)
(** * Cells of a row group: layout, memory and the round trip of rows

    The strips of a group do not overlap and end inside its memory, so that a
    write to a cell is seen there and nowhere else.  From this follow the
    theorems on [ScatterRow] and the gathers of PaxGroup.v. *)

From stdpp Require Import list_numbers.
From S2P Require Import Prelude PaxCodec PaxGroup.
Import FieldKind TableSchema PaxGroup.

(** ** Schemas *)

(** A width leaves room for the length in 32 bits, there is a kind for each
    field or none, and a typed field has the width of its kind. *)
Definition width_ok (w : Z) : Prop := 0 <= w ∧ 2 + w < 2 ^ 32.

Record schema_ok (s : TableSchema) : Prop := mkSchemaOk {
  ok_widths : Forall width_ok (field_max_bytes s);
  ok_count : (length (field_max_bytes s) <= kMaxFields)%nat;
  ok_kinds : field_kind s = [] ∨ length (field_kind s) = length (field_max_bytes s);
  ok_typed : forall f k, field_kind s !! f = Some k -> k <> FK_UNTYPED ->
    field_max_bytes s !! f = Some (kind_width k) ∧ 0 <= scale_of s f <= 127;
}.

(** ** Layout *)

Lemma align_up x : 0 <= x < 2 ^ 63 -> x <= Z.land (u64 (x + 63)) (2 ^ 64 - 64) <= x + 63.
Proof.
  intros Hx. rewrite u64_small by (unfold is_u64; lia).
  change (2 ^ 64 - 64) with (Z.ldiff (Z.ones 64) (Z.ones 6)).
  assert (Z.land (x + 63) (Z.ldiff (Z.ones 64) (Z.ones 6)) = Z.ldiff (x + 63) (Z.ones 6)) as ->.
  { rewrite <- (Z.mod_small (x + 63) (2 ^ 64)) at 2 by lia. rewrite <- Z.land_ones by lia.
    apply Z.bits_inj'. intros n Hn. rewrite Z.land_spec, !Z.ldiff_spec, Z.land_spec.
    destruct (Z.testbit (x + 63) n), (Z.testbit (Z.ones 64) n), (Z.testbit (Z.ones 6) n); done. }
  rewrite Z.ldiff_ones_r, Z.shiftl_mul_pow2, Z.shiftr_div_pow2 by lia.
  pose proof (Z.div_mod (x + 63) (2 ^ 6)). pose proof (Z.mod_pos_bound (x + 63) (2 ^ 6)). lia.
Qed.

Lemma layout_length widths total strides offsets size : layout widths total = (strides, offsets, size) ->
  length offsets = length widths.
Proof.
  revert total strides offsets size. induction widths as [|w l IH]; intros t a b c; cbn [layout]; [by intros [= <- <- <-]|].
  destruct (layout l _) as [[a' b'] c'] eqn:E. intros [= <- <- <-]. simpl. f_equal. by eapply IH.
Qed.

Lemma layout_spec widths total strides offsets size : Forall width_ok widths -> 0 <= total ->
  total + zlen widths * 2 ^ 46 < 2 ^ 62 -> layout widths total = (strides, offsets, size) ->
  total <= size <= total + zlen widths * 2 ^ 46 ∧
  (forall f w, widths !! f = Some w -> ∃ o, strides !! f = Some (2 + w) ∧ offsets !! f = Some o ∧
     total <= o ∧ o + (2 + w) * kRows <= size) ∧
  (forall f f' o o' w, (f < f')%nat -> offsets !! f = Some o -> offsets !! f' = Some o' -> widths !! f = Some w ->
     o + (2 + w) * kRows <= o').
Proof.
  intros Hw. revert total strides offsets size. induction Hw as [|w widths Hw Hws IH]; intros total strides offsets size Ht Hb; cbn [layout].
  { intros [= <- <- <-]. split_and!; [zl; lia..|done|done]. }
  unfold width_ok in Hw. set (o := Z.land _ _). assert (total <= o <= total + 63) as Ho by (apply align_up; zl; lia).
  assert (u32 (kCellLenBytes + w) = 2 + w) as -> by (apply u32_small; unfold is_u32, kCellLenBytes; lia).
  assert (u64 ((2 + w) * kRows) = (2 + w) * kRows) as -> by (apply u64_small; unfold is_u64, kRows; lia).
  pose proof (zlen_nonneg widths) as Hn. rewrite zlen_cons in Hb |- *.
  assert (u64 (o + (2 + w) * kRows) = o + (2 + w) * kRows) as -> by (apply u64_small; unfold is_u64, kRows; lia).
  destruct (layout widths (o + (2 + w) * kRows)) as [[strides' offsets'] size'] eqn:E. intros [= <- <- <-].
  destruct (IH (o + (2 + w) * kRows) strides' offsets' size' ltac:(unfold kRows; lia) ltac:(unfold kRows; lia) E) as (Hs & Hf & Hd). unfold kRows in *.
  split; [lia|]. split.
  - intros [|f] w' Hw'; simpl in *.
    + injection Hw' as [= <-]. exists o. split_and!; [done..|lia|lia].
    + destruct (Hf f w' Hw') as (o' & ? & ? & ? & ?). exists o'. split_and!; [done..|lia|lia].
  - intros [|f] [|f'] o1 o2 w' Hlt H1 H2 Hw'; try lia; simpl in *.
    + simplify_eq. destruct (lookup_lt_is_Some_2 widths f') as [w2 Hw2].
      { apply lookup_lt_Some in H2. by rewrite (layout_length _ _ _ _ _ E) in H2. }
      destruct (Hf f' w2 Hw2) as (o' & _ & Ho' & ? & _). simplify_eq. lia.
    + apply (Hd f f' o1 o2 w'); [lia|done..].
Qed.

(** ** Groups *)

Record group_ok (g : PaxGroup) : Prop := mkGroupOk {
  g_schema : schema_ok (schema_ g);
  g_layout : layout (field_max_bytes (schema_ g)) 0 = (stride_ g, strip_offset_ g, arena_size g);
  g_bytes : forall i b, arena_ g !! i = Some b -> is_u8 b;
  g_visible : length (visible_ g) = 128%nat ∧ Forall is_u64 (visible_ g);
}.

(** Everything but the bytes and the visibility of the slots. *)
Definition shape (g : PaxGroup) : TableSchema * list Z * list Z * Z :=
  (schema_ g, stride_ g, strip_offset_ g, arena_size g).

Lemma new_ok s : schema_ok s -> group_ok (new s).
Proof.
  intros Hs. unfold new. destruct (layout (field_max_bytes s) 0) as [[strides offsets] size] eqn:E.
  constructor; cbn [schema_ stride_ strip_offset_ arena_size arena_ visible_]; [done..| |].
  - intros i b. by rewrite lookup_empty.
  - split; [done|]. by apply Forall_replicate.
Qed.

Lemma cell_at_shape g g' f slot : shape g' = shape g -> cell_at g' f slot = cell_at g f slot.
Proof. unfold shape. intros [= E1 E2 E3 E4]. unfold cell_at. by rewrite E2, E3. Qed.

Section places.
Context (g : PaxGroup) (Hg : group_ok g).

Lemma layout_facts : 0 <= arena_size g < 2 ^ 62 ∧
  (forall f w, field_max_bytes (schema_ g) !! f = Some w -> ∃ o, stride_ g !! f = Some (2 + w) ∧
     strip_offset_ g !! f = Some o ∧ 0 <= o ∧ o + (2 + w) * kRows <= arena_size g) ∧
  (forall f f' o o' w, (f < f')%nat -> strip_offset_ g !! f = Some o -> strip_offset_ g !! f' = Some o' ->
     field_max_bytes (schema_ g) !! f = Some w -> o + (2 + w) * kRows <= o').
Proof.
  destruct Hg as [[Hw Hc _ _] Hl _ _]. unfold kMaxFields in Hc.
  destruct (layout_spec _ 0 _ _ _ Hw ltac:(lia) ltac:(unfold zlen; lia) Hl) as (H1 & H2 & H3).
  split; [unfold zlen in H1; lia|done].
Qed.

Lemma width_at f w : field_max_bytes (schema_ g) !! f = Some w -> width_ok w.
Proof. intros H. destruct Hg as [[Hw _ _ _] _ _ _]. by eapply Forall_lookup_1. Qed.

(** Where a cell is. *)
Lemma cell_place f slot w : field_max_bytes (schema_ g) !! f = Some w -> 0 <= slot < kRows ->
  ∃ o, strip_offset_ g !! f = Some o ∧ cell_at g f slot = Some (o + (2 + w) * slot) ∧ 0 <= o ∧
    o + (2 + w) * slot + 2 + w <= arena_size g.
Proof.
  intros Hw Hs. destruct layout_facts as (Hsz & Hf & _). destruct (Hf f w Hw) as (o & Hst & Ho & Hpos & Hend).
  pose proof (width_at f w Hw) as [Hw0 Hw1]. exists o. unfold cell_at. rewrite Ho, Hst. cbn [mbind option_bind]. unfold kRows in *.
  rewrite (u64_small ((2 + w) * slot)) by (unfold is_u64; nia). rewrite u64_small by (unfold is_u64; nia). split_and!; [done..|lia|nia].
Qed.

(** Two cells do not overlap. *)
Lemma cells_apart f slot w a f' slot' w' a' : field_max_bytes (schema_ g) !! f = Some w -> 0 <= slot < kRows ->
  cell_at g f slot = Some a -> field_max_bytes (schema_ g) !! f' = Some w' -> 0 <= slot' < kRows ->
  cell_at g f' slot' = Some a' -> (f, slot) <> (f', slot') -> a + 2 + w <= a' ∨ a' + 2 + w' <= a.
Proof.
  intros Hw Hs Ha Hw' Hs' Ha' Hne. destruct (cell_place f slot w Hw Hs) as (o & Ho & Ea & _).
  destruct (cell_place f' slot' w' Hw' Hs') as (o' & Ho' & Ea' & _). rewrite Ea in Ha. rewrite Ea' in Ha'. simplify_eq.
  destruct layout_facts as (_ & _ & Hd). unfold kRows in *. pose proof (width_at f w Hw) as [? _]. pose proof (width_at f' w' Hw') as [? _].
  destruct (lt_eq_lt_dec f f') as [[Hlt|Heq]|Hgt].
  - left. specialize (Hd f f' o o' w Hlt Ho Ho' Hw). nia.
  - subst f'. simplify_eq. assert (slot <> slot') by congruence. destruct (decide (slot < slot')); [left|right]; nia.
  - right. specialize (Hd f' f o' o w' Hgt Ho' Ho Hw'). nia.
Qed.

End places.

(** ** Memory *)

Lemma store_bytes_lookup m at_ b i : store_bytes m at_ b !! i =
  if decide (at_ <= i < at_ + zlen b) then b !! Z.to_nat (i - at_) else m !! i.
Proof.
  revert m at_. induction b as [|x b IH]; intros m at_; cbn [store_bytes].
  { destruct (decide _) as [H|]; [|done]. rewrite zlen_nil in H. lia. }
  rewrite IH. rewrite zlen_cons. pose proof (zlen_nonneg b). destruct (decide (at_ + 1 <= i < at_ + 1 + zlen b)).
  - rewrite decide_True by lia. replace (Z.to_nat (i - at_)) with (S (Z.to_nat (i - (at_ + 1)))) by lia. done.
  - destruct (decide (i = at_)) as [->|].
    + rewrite decide_True by lia. rewrite Z.sub_diag. by rewrite lookup_insert_eq.
    + rewrite decide_False by lia. by rewrite lookup_insert_ne.
Qed.

Lemma write_defined g at_ b : 0 <= at_ -> at_ + zlen b <= arena_size g ->
  write g at_ b = Some (set_arena g (store_bytes (arena_ g) at_ b)).
Proof. intros. unfold write. by destruct (Z.leb_spec 0 at_), (Z.leb_spec (at_ + zlen b) (arena_size g)); try lia. Qed.

Lemma read_defined g at_ n : 0 <= at_ -> at_ + n <= arena_size g -> is_Some (read g at_ n).
Proof. intros. unfold read. destruct (Z.leb_spec 0 at_), (Z.leb_spec (at_ + n) (arena_size g)); try lia. by eexists. Qed.

Lemma read_ok g at_ n b : group_ok g -> 0 <= n -> read g at_ n = Some b -> zlen b = n ∧ bytes_ok b.
Proof.
  intros Hg Hn. unfold read. destruct (_ && _); [|done]. intros [= <-]. split.
  - unfold zlen. rewrite length_map, length_seqZ. lia.
  - apply Forall_map, Forall_true. intros i. simpl. destruct (arena_ g !! i) eqn:E; simpl; [by eapply g_bytes|done].
Qed.

Lemma read_write_same g at_ b : 0 <= at_ -> at_ + zlen b <= arena_size g ->
  read (set_arena g (store_bytes (arena_ g) at_ b)) at_ (zlen b) = Some b.
Proof.
  intros H0 H1. unfold read. simpl. destruct (Z.leb_spec 0 at_), (Z.leb_spec (at_ + zlen b) (arena_size g)); try lia. cbn [andb]. f_equal.
  apply list_eq. intros i. change (map ?f ?l) with (f <$> l). rewrite list_lookup_fmap. destruct (decide (Z.of_nat i < zlen b)) as [Hi|Hi].
  - rewrite lookup_seqZ_lt by done. simpl. rewrite store_bytes_lookup, decide_True by lia.
    replace (Z.to_nat (at_ + Z.of_nat i - at_)) with i by lia.
    destruct (lookup_lt_is_Some_2 b i) as [x Hx]; [unfold zlen in Hi; lia|]. by rewrite Hx.
  - rewrite lookup_seqZ_ge by lia. symmetry. apply lookup_ge_None. unfold zlen in Hi. lia.
Qed.

Lemma read_write_other g at_ b x n : x + n <= at_ ∨ at_ + zlen b <= x ->
  read (set_arena g (store_bytes (arena_ g) at_ b)) x n = read g x n.
Proof.
  intros H. unfold read. simpl. destruct (_ && _); [|done]. f_equal. apply map_ext_in. intros i Hi.
  apply list_elem_of_In, elem_of_seqZ in Hi. rewrite store_bytes_lookup, decide_False; [done|]. lia.
Qed.

Lemma set_arena_ok g at_ b : group_ok g -> bytes_ok b -> group_ok (set_arena g (store_bytes (arena_ g) at_ b)).
Proof.
  intros [H1 H2 H3 H4] Hb. constructor; simpl; [done..| |done]. intros i x. rewrite store_bytes_lookup. destruct (decide _); [|apply H3].
  intros Hx. by eapply Forall_lookup_1 in Hx.
Qed.

(** ** Writing a cell *)

(** The bytes of a cell are the same in two groups. *)
Definition cell_same (g g' : PaxGroup) (f : nat) (slot : Z) : Prop :=
  forall a w x n, field_max_bytes (schema_ g) !! f = Some w -> cell_at g f slot = Some a ->
    a <= x -> x + n <= a + 2 + w -> read g' x n = read g x n.

(** A cell holds a payload. *)
Definition cell_holds (g : PaxGroup) (f : nat) (slot : Z) (b : bytestring) : Prop :=
  ∃ a, cell_at g f slot = Some a ∧ read g a 2 = Some (le_bytes 2 (zlen b)) ∧ read g (a + 2) (zlen b) = Some b.

(** What validation has found out about a field: what its cell will hold. *)
Definition cell_of (s : TableSchema) (f : nat) (payload : bytestring) (bin : Z) (b : bytestring) : Prop :=
  ∃ k w, kind_at s f = Some k ∧ field_max_bytes s !! f = Some w ∧
    ((k = FK_UNTYPED ∨ payload = []) ∧ b = payload ∧ zlen payload <= w ∧ zlen payload <= 65535 ∨
     k <> FK_UNTYPED ∧ payload <> [] ∧ b = take (Z.to_nat (kind_width k)) (le_bytes 8 bin)).

Lemma kind_at_lookup s f k : kind_at s f = Some k -> k <> FK_UNTYPED -> field_kind s !! f = Some k.
Proof. unfold kind_at. destruct (field_kind s); [|done]. by intros [= <-]. Qed.

Lemma kind_width_cases k : kind_width k = 4 ∨ kind_width k = 8.
Proof. unfold kind_width. destruct (_ || _); auto. Qed.

Lemma cell_of_length s f payload bin b w : schema_ok s -> cell_of s f payload bin b ->
  field_max_bytes s !! f = Some w -> zlen b <= w ∧ zlen b <= 65535.
Proof.
  intros Hs (k & w' & Hk & Hw' & [(_ & -> & ? & ?)|(Hne & _ & ->)]) Hw; simplify_eq; [done|].
  destruct (ok_typed s Hs f k (kind_at_lookup _ _ _ Hk Hne) Hne) as [Hw _]. simplify_eq.
  destruct (kind_width_cases k) as [-> | ->]; done.
Qed.

(** Two writes at the start of a cell, of the length and of the payload. *)
Lemma write_two g a b n : group_ok g -> bytes_ok b -> 0 <= a -> a + 2 + zlen b <= arena_size g -> 0 <= n ->
  let g1 := set_arena g (store_bytes (arena_ g) a (le_bytes 2 n)) in
  let g2 := set_arena g1 (store_bytes (arena_ g1) (a + 2) b) in
  write g a (le_bytes 2 n) = Some g1 ∧ write g1 (a + 2) b = Some g2 ∧ group_ok g2 ∧ group_ok g1 ∧
  read g2 a 2 = Some (le_bytes 2 n) ∧ read g1 a 2 = Some (le_bytes 2 n) ∧ read g2 (a + 2) (zlen b) = Some b ∧
  (forall x m, x + m <= a ∨ a + 2 + zlen b <= x -> read g2 x m = read g x m ∧ read g1 x m = read g x m).
Proof.
  intros Hg Hb Ha Hend Hn g1 g2. pose proof (zlen_nonneg b). assert (zlen (le_bytes 2 n) = 2) as Hl2 by done.
  assert (group_ok g1) as Hg1 by (apply set_arena_ok; [done|apply le_bytes_ok]).
  assert (read g1 a 2 = Some (le_bytes 2 n)) as Hr1 by (apply (read_write_same g a (le_bytes 2 n)); [done|rewrite Hl2; lia]).
  split_and!; try done.
  - apply write_defined; [done|rewrite Hl2; lia].
  - apply write_defined; simpl; lia.
  - by apply set_arena_ok.
  - unfold g2. rewrite read_write_other by lia. done.
  - apply (read_write_same g1); simpl; lia.
  - intros x m Hx. assert (read g1 x m = read g x m) as E by (apply read_write_other; rewrite Hl2; lia).
    split; [|done]. unfold g2. rewrite read_write_other by lia. done.
Qed.

Lemma bytes_ok_take n b : bytes_ok b -> bytes_ok (take n b).
Proof. apply Forall_take. Qed.

Lemma write_cell_spec g slot f payload bin b : group_ok g -> 0 <= slot < kRows -> bytes_ok payload ->
  cell_of (schema_ g) f payload bin b ->
  ∃ g', write_cell g slot f payload bin = Some g' ∧ group_ok g' ∧ shape g' = shape g ∧ visible_ g' = visible_ g ∧
    cell_holds g' f slot b ∧
    (forall f' slot', (f', slot') <> (f, slot) -> 0 <= slot' < kRows -> cell_same g g' f' slot').
Proof.
  intros Hg Hs Hp Hc. pose proof Hc as (k & w & Hk & Hw & Hcase).
  destruct (cell_place g Hg f slot w Hw Hs) as (o & _ & Ha & Ho & Hend). set (a := o + (2 + w) * slot) in *.
  pose proof (width_at g Hg f w Hw) as [Hw0 _]. destruct (cell_of_length _ f payload bin b w (g_schema g Hg) Hc Hw) as [Hl1 Hl2].
  assert (0 <= a) by (unfold kRows in *; nia).
  assert (bytes_ok b) as Hb.
  { destruct Hcase as [(_ & -> & _)|(_ & _ & ->)]; [done|apply bytes_ok_take, le_bytes_ok]. }
  destruct (write_two g a b (zlen b) Hg Hb ltac:(done) ltac:(lia) (zlen_nonneg b)) as (W1 & W2 & Hg2 & Hg1 & R1 & R1' & R2 & Hfr).
  set (g1 := set_arena g (store_bytes (arena_ g) a (le_bytes 2 (zlen b)))) in *.
  set (g2 := set_arena g1 (store_bytes (arena_ g1) (a + 2) b)) in *.
  assert (forall g', read g' a 2 = Some (le_bytes 2 (zlen b)) -> (forall x m, x + m <= a ∨ a + 2 + zlen b <= x -> read g' x m = read g x m) ->
    forall f' slot', (f', slot') <> (f, slot) -> 0 <= slot' < kRows -> cell_same g g' f' slot') as Hother.
  { intros g' _ Hg' f' slot' Hne Hs' a' w' x n Hw' Ha' Hx Hn. apply Hg'.
    destruct (cells_apart g Hg f' slot' w' a' f slot w a Hw' Hs' Ha' Hw Hs Ha Hne); [left|right]; lia. }
  assert (write_cell g slot f payload bin = Some g2 ∨ b = [] ∧ write_cell g slot f payload bin = Some g1) as Hwc.
  { unfold write_cell. rewrite Ha, Hk. cbn [mbind option_bind]. destruct Hcase as [(Hu & -> & ? & ?)|(Hne & Hpne & Hbb)].
    - assert (negb (k =? FK_UNTYPED) && negb (zlen payload =? 0) = false) as -> by (destruct Hu as [-> | ->]; [done|by destruct (negb _)]).
      assert (u16 (zlen payload) = zlen payload) as -> by (apply Z.mod_small; pose proof (zlen_nonneg payload); lia).
      rewrite W1. cbn [mbind option_bind]. destruct (Z.ltb_spec 0 (zlen payload)).
      + left. unfold kCellLenBytes. rewrite to_nat_zlen, firstn_all. done.
      + right. split; [|done]. destruct payload; [done|]. rewrite zlen_cons in *. pose proof (zlen_nonneg payload). lia.
    - left. assert (negb (k =? FK_UNTYPED) && negb (zlen payload =? 0) = true) as ->.
      { destruct (Z.eqb_spec k FK_UNTYPED); [done|]. destruct payload; [done|]. rewrite zlen_cons. pose proof (zlen_nonneg payload). lia. }
      destruct (ok_typed _ (g_schema g Hg) f k (kind_at_lookup _ _ _ Hk Hne) Hne) as [Hw' _]. rewrite Hw' in Hw |- *. injection Hw as [= <-]. cbn [mbind option_bind].
      assert (u16 (kind_width k) = zlen b ∧ bytes_of_u64 bin (zlen b) = Some b) as [-> E].
      { rewrite Hbb. unfold bytes_of_u64. destruct (kind_width_cases k) as [-> | ->]; done. }
      rewrite W1. cbn [mbind option_bind]. rewrite E. done. }
  destruct Hwc as [E|[-> E]].
  - exists g2. split_and!; try done; [exists a|]; [split_and!; try done|]. apply Hother; [done|]. intros. by apply Hfr.
  - exists g1. split_and!; try done.
    + exists a. split_and!; [done|done|]. rewrite zlen_nil. unfold read. cbn [arena_size g1 set_arena].
      destruct (Z.leb_spec 0 (a + 2)), (Z.leb_spec (a + 2 + 0) (arena_size g)); try lia. done.
    + apply Hother; [done|]. intros. by apply Hfr.
Qed.

(** ** Writing the cells of a row *)

Fixpoint cells_of (s : TableSchema) (f : nat) (refs : list bytestring) (bins : list Z) (bs : list bytestring) : Prop :=
  match refs, bins, bs with
  | [], [], [] => True
  | p :: refs', n :: bins', b :: bs' => cell_of s f p n b ∧ cells_of s (S f) refs' bins' bs'
  | _, _, _ => False
  end.

Lemma cell_holds_same g g' f slot b w : shape g' = shape g -> cell_same g g' f slot -> cell_holds g f slot b ->
  field_max_bytes (schema_ g) !! f = Some w -> zlen b <= w -> cell_holds g' f slot b.
Proof.
  intros Hsh Hsame (a & Ha & R1 & R2) Hw Hl. exists a. pose proof (zlen_nonneg b). rewrite (cell_at_shape g g') by done.
  rewrite (Hsame a w a 2), (Hsame a w (a + 2) (zlen b)) by (done || lia). done.
Qed.

Lemma cell_same_trans g g1 g2 f slot : shape g1 = shape g -> cell_same g g1 f slot -> cell_same g1 g2 f slot -> cell_same g g2 f slot.
Proof.
  intros Hsh H1 H2 a w x n Hw Ha Hx Hn. rewrite <- (H1 a w x n) by done. apply (H2 a w); try done.
  - by injection Hsh as [= -> _ _ _].
  - by rewrite (cell_at_shape g g1).
Qed.

Lemma write_cells_spec g slot f refs bins bs : group_ok g -> 0 <= slot < kRows -> Forall bytes_ok refs ->
  cells_of (schema_ g) f refs bins bs ->
  ∃ g', write_cells g slot f refs bins = Some g' ∧ group_ok g' ∧ shape g' = shape g ∧ visible_ g' = visible_ g ∧
    (forall i b, bs !! i = Some b -> cell_holds g' (f + i) slot b) ∧
    (forall f' slot', slot' <> slot ∨ (f' < f)%nat -> 0 <= slot' < kRows -> cell_same g g' f' slot').
Proof.
  intros Hg Hs Hrefs. revert g f bins bs Hg. induction Hrefs as [|p refs Hp Hrefs IH]; intros g f [|bin bins] [|b bs] Hg; cbn [cells_of]; try done.
  { intros _. exists g. split_and!; try done. }
  intros [Hc Hcs]. destruct (write_cell_spec g slot f p bin b Hg Hs Hp Hc) as (g1 & E1 & Hg1 & Hsh1 & Hv1 & Hh1 & Hfr1).
  assert (schema_ g1 = schema_ g) as Es by (by injection Hsh1).
  destruct (IH g1 (S f) bins bs Hg1) as (g2 & E2 & Hg2 & Hsh2 & Hv2 & Hh2 & Hfr2); [by rewrite Es|].
  exists g2. cbn [write_cells]. rewrite E1. cbn [mbind option_bind]. split_and!; [done|done|congruence|congruence| |].
  - intros [|i] b' Hb'; simpl in Hb'.
    + injection Hb' as [= <-]. rewrite Nat.add_0_r. pose proof Hc as (k & w & _ & Hw & _).
      eapply (cell_holds_same g1); [done|apply Hfr2; [right; lia|done]|done|by rewrite Es|].
      by eapply (cell_of_length (schema_ g)); [apply g_schema|done|].
    + rewrite <- Nat.add_succ_comm. by apply Hh2.
  - intros f' slot' Hne Hs'. eapply cell_same_trans; [done|apply Hfr1; [|done]|apply Hfr2; [|done]].
    + intros [= -> ->]. destruct Hne; [done|lia].
    + destruct Hne; [by left|right; lia].
Qed.

(** Validated fields have cells. *)
Lemma validate_fields_cells s f refs bins : schema_ok s -> validate_fields s f refs = Some (Some bins) ->
  ∃ bs, cells_of s f refs bins bs.
Proof.
  intros Hs H. revert f bins H. induction refs as [|p refs IH]; intros f bins; cbn [validate_fields].
  { intros [= <-]. by exists []. }
  destruct (kind_at s f) as [k|] eqn:Ek; [|done]. destruct (field_max_bytes s !! f) as [w|] eqn:Ew; [|done]. cbn [mbind option_bind].
  destruct (Z.eqb_spec k FK_UNTYPED) as [->|Hk].
  - destruct (Z.ltb_spec w (zlen p)), (Z.ltb_spec 65535 (zlen p)); cbn [orb mbind option_bind]; try done.
    destruct (validate_fields s (S f) refs) as [[bins'|]|] eqn:E; cbn; try done. intros [= <-].
    destruct (IH _ _ E) as [bs Hbs]. exists (p :: bs). split; [|done]. exists FK_UNTYPED, w. split_and!; [done..|]. left. auto.
  - destruct p as [|c p].
    + cbn. destruct (validate_fields s (S f) refs) as [[bins'|]|] eqn:E; cbn; try done. intros [= <-].
      destruct (IH _ _ E) as [bs Hbs]. exists ([] :: bs). split; [|done]. exists k, w. split_and!; [done..|]. left.
      destruct (Forall_lookup_1 _ _ _ _ (ok_widths s Hs) Ew) as [? _]. rewrite (@zlen_nil Z). split_and!; auto; lia.
    + destruct (ParseTyped k (scale_of s f) (c :: p)) as [[n|]|]; cbn [mbind option_bind]; try done.
      destruct (validate_fields s (S f) refs) as [[bins'|]|] eqn:E; cbn; try done. intros [= <-].
      destruct (IH _ _ E) as [bs Hbs]. exists (take (Z.to_nat (kind_width k)) (le_bytes 8 n) :: bs). split; [|done].
      exists k, w. split_and!; [done..|]. right. done.
Qed.

(** A row whose decimals are short enough is validated without overflow. *)
Definition decimals_short (s : TableSchema) (f : nat) (refs : list bytestring) : Prop :=
  forall i p, refs !! i = Some p -> kind_at s (f + i) = Some FK_DEC64 -> zlen p + Z.max 0 (scale_of s (f + i)) <= 38.

Lemma kind_at_defined s f : schema_ok s -> (f < field_count s)%nat -> is_Some (kind_at s f).
Proof.
  intros Hs Hf. unfold kind_at. destruct (ok_kinds s Hs) as [-> |Hl]; [by eexists|].
  destruct (field_kind s) as [|k ks] eqn:E; [by eexists|]. apply lookup_lt_is_Some. unfold field_count in Hf. lia.
Qed.

Lemma validate_fields_defined s f refs : schema_ok s -> (f + length refs <= field_count s)%nat -> decimals_short s f refs ->
  is_Some (validate_fields s f refs).
Proof.
  intros Hs. revert f. induction refs as [|p refs IH]; intros f Hl Hd; cbn [validate_fields]; [by eexists|]. simpl in Hl.
  destruct (kind_at_defined s f Hs ltac:(lia)) as [k Hk]. destruct (lookup_lt_is_Some_2 (field_max_bytes s) f) as [w Hw]; [unfold field_count in Hl; lia|].
  rewrite Hk, Hw. cbn [mbind option_bind].
  assert (is_Some (validate_fields s (S f) refs)) as [r Hr].
  { apply IH; [lia|]. intros i q Hq Hkq. rewrite Nat.add_succ_comm in *. by apply (Hd (S i) q). }
  assert (is_Some (if k =? FK_UNTYPED then Some (if (w <? zlen p) || (65535 <? zlen p) then None else Some 0)
    else match p with [] => Some (Some 0) | _ => ParseTyped k (scale_of s f) p end)) as [bin ->].
  { destruct (k =? FK_UNTYPED); [by eexists|]. destruct p as [|c p]; [by eexists|]. apply ParseTyped_defined. intros ->.
    specialize (Hd 0%nat (c :: p) eq_refl). rewrite Nat.add_0_r in Hd. by apply Hd. }
  cbn [mbind option_bind]. destruct bin; [|by eexists]. rewrite Hr. by eexists.
Qed.

(** ** What a cell shows *)

(** The text of a field as both [GatherRow] and [AppendCellField] find it. *)
Definition cell_shows (g : PaxGroup) (f : nat) (slot : Z) (t : bytestring) : Prop :=
  ∃ a len, cell_at g f slot = Some a ∧ cell_length g f slot = Some len ∧
    (len = 0 ∧ t = [] ∨
     0 < len ∧ t <> [] ∧ ∃ k b, kind_at (schema_ g) f = Some k ∧ read g (a + 2) len = Some b ∧
       (k = FK_UNTYPED ∧ t = b ∨ k <> FK_UNTYPED ∧ cell_text g k f slot len = Some t)).

(** A field that the client sends: it fits an untyped cell, or it is a text
    its type is printed as. *)
Definition field_fits (s : TableSchema) (f : nat) (payload : bytestring) : Prop :=
  bytes_ok payload ∧ zlen payload < 2 ^ 32 ∧
  ∃ k w, kind_at s f = Some k ∧ field_max_bytes s !! f = Some w ∧
    (k = FK_UNTYPED ∧ zlen payload <= w ∧ zlen payload <= 65535 ∨
     k <> FK_UNTYPED ∧ (payload = [] ∨ canonical_text k (scale_of s f) payload)).

Lemma le_value_two n : 0 <= n <= 65535 -> le_value (le_bytes 2 n) = n.
Proof. intros. apply le_value_bytes. simpl. lia. Qed.

Lemma cell_length_holds g f slot b w : cell_holds g f slot b -> field_max_bytes (schema_ g) !! f = Some w ->
  zlen b <= w -> zlen b <= 65535 -> cell_length g f slot = Some (zlen b).
Proof.
  intros (a & Ha & R1 & _) Hw H1 H2. unfold cell_length. rewrite Ha. cbn [mbind option_bind]. rewrite R1, Hw. cbn [mbind option_bind].
  pose proof (zlen_nonneg b). rewrite le_value_two by lia. by destruct (Z.ltb_spec w (zlen b)); [lia|].
Qed.

Lemma kind_at_of s f k : kind_at s f = Some k -> kind_of s f = k.
Proof. unfold kind_at, kind_of. destruct (field_kind s); [by intros [= <-]|]. by intros ->. Qed.

(** A canonical text is not empty. *)
Lemma canonical_nonempty k scale p : canonical_text k scale p -> p <> [].
Proof.
  intros [[_ H]|[[_ H]|[[_ H]|[_ H]]]] ->.
  1, 2: destruct H as (neg & ds & E & (_ & Hne & _) & _); destruct neg, ds; done.
  - destruct H as (y & m & d & E & _). destruct y; done.
  - destruct H as (neg & ip & fp & E & (_ & Hne & _) & _). destruct neg, ip; done.
Qed.

(** The cell of a field the client sends shows the field. *)
Lemma cell_of_fits s f payload : schema_ok s -> field_fits s f payload ->
  ∃ bin b, cell_of s f payload bin b ∧
    (if kind_of s f =? FK_UNTYPED then zlen payload <= default 0 (field_max_bytes s !! f) ∧ zlen payload <= 65535
     else payload = [] ∨ ParseTyped (kind_of s f) (scale_of s f) payload = Some (Some bin)) ∧
    (forall g slot, schema_ g = s -> cell_holds g f slot b -> cell_shows g f slot payload).
Proof.
  intros Hs (Hb & Hl & k & w & Hk & Hw & [(-> & Hl1 & Hl2)|(Hne & Hcan)]).
  - exists 0, payload. rewrite (kind_at_of _ _ _ Hk), Hw. cbn [Z.eqb FK_UNTYPED default].
    assert (cell_of s f payload 0 payload) as Hc by (exists FK_UNTYPED, w; split_and!; [done..|left; auto]).
    split; [done|]. split; [done|]. intros g slot Hg Hh. pose proof (cell_length_holds g f slot payload w Hh ltac:(by rewrite Hg) Hl1 Hl2).
    destruct Hh as (a & Ha & _ & R2). exists a, (zlen payload). split_and!; [done..|]. pose proof (zlen_nonneg payload).
    destruct payload as [|c p]; [by left|]. right. split; [rewrite zlen_cons in *; pose proof (zlen_nonneg p); lia|]. split; [done|].
    exists FK_UNTYPED, (c :: p). rewrite Hg. split_and!; [done..|]. by left.
  - rewrite (kind_at_of _ _ _ Hk). assert ((k =? FK_UNTYPED) = false) as -> by (by apply Z.eqb_neq).
    destruct (ok_typed s Hs f k (kind_at_lookup _ _ _ Hk Hne) Hne) as [Hw' Hsc]. simplify_eq.
    destruct Hcan as [-> |Hcan].
    { exists 0, []. split; [exists k, (kind_width k); split_and!; [done..|left]; split_and!; [by right|done|destruct (kind_width_cases k) as [-> | ->]; done|done]|].
      split; [by left|]. intros g slot Hg Hh. pose proof (cell_length_holds g f slot [] (kind_width k) Hh ltac:(by rewrite Hg)) as H.
      destruct Hh as (a & Ha & _). exists a, 0. split_and!; [done| |by left]. apply H; [destruct (kind_width_cases k) as [-> | ->]; done|done]. }
    destruct (typed_text_roundtrip k (scale_of s f) payload Hsc Hcan) as (bin & Hp & Hf).
    set (b := take (Z.to_nat (kind_width k)) (le_bytes 8 bin)). assert (zlen b = kind_width k) as Hlb by (unfold b; destruct (kind_width_cases k) as [-> | ->]; done).
    exists bin, b. split; [exists k, (kind_width k); split_and!; [done..|]; right; split_and!; [done|by eapply canonical_nonempty|done]|].
    split; [by right|]. intros g slot Hg Hh. pose proof Hh as (a & Ha & _ & R2). rewrite Hlb in R2.
    exists a, (kind_width k). split; [done|]. split.
    { rewrite <- Hlb. apply (cell_length_holds _ _ _ _ (kind_width k)); [done|by rewrite Hg|..]; rewrite Hlb; [done|destruct (kind_width_cases k) as [-> | ->]; done]. }
    right. split; [destruct (kind_width_cases k) as [-> | ->]; done|]. split; [by eapply canonical_nonempty|]. exists k, b. rewrite Hg. split_and!; [done..|]. right. split; [done|].
    unfold cell_text. rewrite Ha. cbn [mbind option_bind]. assert ((k =? FK_UNTYPED) = false) as -> by (by apply Z.eqb_neq). cbn [negb]. rewrite Hg.
    apply Hf. done.
Qed.

Lemma validate_fits s f refs : schema_ok s -> (forall i p, refs !! i = Some p -> field_fits s (f + i) p) ->
  ∃ bins bs, validate_fields s f refs = Some (Some bins) ∧ cells_of s f refs bins bs ∧
    forall i p b, refs !! i = Some p -> bs !! i = Some b -> forall g slot, schema_ g = s ->
      cell_holds g (f + i) slot b -> cell_shows g (f + i) slot p.
Proof.
  intros Hs. revert f. induction refs as [|p refs IH]; intros f Hf; [by exists [], []|].
  destruct (IH (S f)) as (bins & bs & Hv & Hc & Hsh); [intros i q Hq; rewrite Nat.add_succ_comm; by apply Hf|].
  pose proof (Hf 0%nat p eq_refl) as Hp. rewrite Nat.add_0_r in Hp.
  destruct (cell_of_fits s f p Hs Hp) as (bin & b & Hcell & Hval & Hb). destruct Hp as (_ & _ & k & w & Hk & Hw & _).
  assert ((if k =? FK_UNTYPED then Some (if (w <? zlen p) || (65535 <? zlen p) then None else Some 0)
    else match p with [] => Some (Some 0) | _ => ParseTyped k (scale_of s f) p end) = Some (Some (if k =? FK_UNTYPED then 0 else match p with [] => 0 | _ => bin end))) as E.
  { rewrite (kind_at_of _ _ _ Hk), Hw in Hval. destruct (k =? FK_UNTYPED).
    - cbn in Hval. by destruct (Z.ltb_spec w (zlen p)), (Z.ltb_spec 65535 (zlen p)); try lia.
    - destruct p; [done|]. by destruct Hval. }
  exists ((if k =? FK_UNTYPED then 0 else match p with [] => 0 | _ => bin end) :: bins), (b :: bs). cbn [validate_fields cells_of].
  rewrite Hk, Hw. cbn [mbind option_bind]. rewrite E. cbn [mbind option_bind]. rewrite Hv. split; [done|]. split.
  - split; [|done]. destruct Hcell as (k' & w' & Hk' & Hw' & Hcase). rewrite Hk in Hk'. rewrite Hw in Hw'. injection Hk' as [= <-]. injection Hw' as [= <-].
    exists k, w. split_and!; [done..|].
    destruct Hcase as [H|(Hne & Hpne & ->)]; [by left|]. right. assert ((k =? FK_UNTYPED) = false) as -> by (by apply Z.eqb_neq). by destruct p.
  - intros [|i] q b' Hq Hb'; simpl in Hq, Hb'; simplify_eq.
    + rewrite Nat.add_0_r. done.
    + rewrite <- Nat.add_succ_comm. by apply Hsh.
Qed.

(** ** Gathering *)

Lemma gather_shows g slot ts n f dst : (forall i t, ts !! i = Some t -> cell_shows g (f + i) slot t ∧ zlen t < 2 ^ 32) ->
  zlen dst + zlen (encode_row ts) <= n -> gather_fields g slot n (length ts) f dst = Some (dst ++ encode_row ts).
Proof.
  revert f dst. induction ts as [|t ts IH]; intros f dst Ht Hn; cbn [gather_fields length].
  { unfold encode_row. by rewrite app_nil_r. }
  destruct (Ht 0%nat t eq_refl) as [Hsh Hl]. rewrite Nat.add_0_r in *. pose proof Hsh as (a & len & Ha & Hlen & Hcase).
  rewrite Hlen. cbn [mbind option_bind]. unfold encode_row in *. cbn [map concat] in *. rewrite zlen_app in Hn.
  pose proof (zlen_nonneg (concat (map AppendField ts))) as Hnn.
  assert (forall i t', ts !! i = Some t' -> cell_shows g (S f + i) slot t' ∧ zlen t' < 2 ^ 32) as Ht'.
  { intros i t' Hi. rewrite Nat.add_succ_comm. by apply (Ht (S i)). }
  destruct Hcase as [[-> ->]|(Hpos & Htne & k & b & Hk & Hr & Hc)].
  - cbn [Z.eqb]. change (AppendField []) with [255] in *. change (zlen [255]) with 1 in Hn. destruct (Z.ltb_spec n (zlen dst + 1)); [lia|].
    rewrite IH; [by rewrite <- app_assoc|done|]. rewrite zlen_app. change (zlen [255]) with 1. lia.
  - destruct (Z.eqb_spec len 0); [lia|]. rewrite Hk. cbn [mbind option_bind].
    assert (cell_text g k f slot len = Some t) as ->.
    { destruct Hc as [[-> ->]|[_ Hx]]; [|done]. unfold cell_text. rewrite Ha. done. }
    destruct t as [|c t]; [done|].
    cbn [mbind option_bind]. set (src := c :: t) in *. pose proof (zlen_nonneg src).
    assert (AppendField src = LengthPrefixBytes (u32 (zlen src)) ::
      map (fun i => Z.land (Z.shiftr (u32 (zlen src)) (8 * i)) 255) (seqZ 0 (LengthPrefixBytes (u32 (zlen src)))) ++ src) as EA by done.
    rewrite <- EA. assert (zlen (AppendField src) = 1 + LengthPrefixBytes (u32 (zlen src)) + u32 (zlen src)) as EL.
    { rewrite EA, zlen_cons, zlen_app. unfold zlen at 1. rewrite length_map, length_seqZ. rewrite u32_small by (unfold is_u32; lia).
      destruct (LengthPrefixBytes_spec (zlen src)) as ([? _] & _); [lia|]. lia. }
    destruct (Z.ltb_spec n (zlen dst + 1 + LengthPrefixBytes (u32 (zlen src)) + u32 (zlen src))); [lia|].
    rewrite IH; [by rewrite <- app_assoc|done|]. rewrite zlen_app. lia.
Qed.

(** ** Visibility *)

Lemma visible_bits g slot : group_ok g -> 0 <= slot < kRows ->
  ∃ w, visible_ g !! visible_word slot = Some w ∧ is_u64 w ∧ IsVisible g slot = Some (Z.testbit w (Z.land slot 63)).
Proof.
  intros Hg Hs. destruct (g_visible g Hg) as [Hl Hu]. unfold kRows in Hs.
  assert (Z.shiftr slot 6 < 128) by (rewrite Z.shiftr_div_pow2 by lia; apply Z.div_lt_upper_bound; lia).
  destruct (lookup_lt_is_Some_2 (visible_ g) (visible_word slot)) as [w Hw]; [unfold visible_word; lia|].
  exists w. split; [done|]. split; [by eapply Forall_lookup_1|]. unfold IsVisible. rewrite Hw. cbn [mbind option_bind]. f_equal.
  rewrite Z.testbit_odd. change 1 with (Z.ones 1) at 1. rewrite Z.land_ones by lia. change (2 ^ 1) with 2.
  rewrite Zmod_odd. by destruct (Z.odd _).
Qed.

(** Changing the bit of one slot. *)
Lemma change_bit g slot w w' v : group_ok g -> 0 <= slot < kRows -> visible_ g !! visible_word slot = Some w -> is_u64 w' ->
  Z.testbit w' (Z.land slot 63) = v ->
  (forall j, 0 <= j < 64 -> j <> Z.land slot 63 -> Z.testbit w' j = Z.testbit w j) ->
  let g' := set_visible g (<[visible_word slot := w']> (visible_ g)) in
  group_ok g' ∧ IsVisible g' slot = Some v ∧
  (forall slot', 0 <= slot' < kRows -> slot' <> slot -> IsVisible g' slot' = IsVisible g slot').
Proof.
  intros Hg Hs Hw Hw' Hv Hj g'. assert (group_ok g') as Hg'.
  { destruct Hg as [H1 H2 H3 [H4 H5]]. constructor; simpl; [done..|]. split; [by rewrite length_insert|]. by apply Forall_insert. }
  split; [done|]. pose proof (lookup_lt_Some _ _ _ Hw) as Hlt. split.
  - destruct (visible_bits g' slot Hg' Hs) as (x & Hx & _ & ->). simpl in Hx. rewrite list_lookup_insert_eq in Hx by done.
    injection Hx as [= <-]. by f_equal.
  - intros slot' Hs' Hne. destruct (visible_bits g' slot' Hg' Hs') as (x & Hx & _ & ->).
    destruct (visible_bits g slot' Hg Hs') as (y & Hy & _ & ->). f_equal. simpl in Hx.
    destruct (decide (visible_word slot' = visible_word slot)) as [E|E].
    + rewrite E in Hx, Hy. rewrite list_lookup_insert_eq in Hx by done. simplify_eq. apply Hj.
      * change 63 with (Z.ones 6). rewrite Z.land_ones by lia. apply Z.mod_pos_bound. done.
      * intros El. apply Hne. unfold visible_word in E. revert El. change 63 with (Z.ones 6). rewrite !Z.land_ones by lia. intros El.
        rewrite !Z.shiftr_div_pow2 in E by lia. apply Z2Nat.inj in E; [|apply Z.div_pos; lia..].
        rewrite (Z.div_mod slot (2 ^ 6)), (Z.div_mod slot' (2 ^ 6)) by lia. congruence.
    + rewrite list_lookup_insert_ne in Hx by done. congruence.
Qed.

Lemma testbit_visible_bit slot j : 0 <= j -> Z.testbit (visible_bit slot) j = (j =? Z.land slot 63).
Proof.
  intros Hj. unfold visible_bit. rewrite Z.shiftl_1_l. destruct (Z.eqb_spec j (Z.land slot 63)) as [->|Hne].
  - apply Z.pow2_bits_true. apply Z.land_nonneg. lia.
  - apply Z.pow2_bits_false. done.
Qed.

Lemma land63 slot : 0 <= Z.land slot 63 < 64.
Proof. change 63 with (Z.ones 6). rewrite Z.land_ones by lia. apply Z.mod_pos_bound. done. Qed.

Lemma is_u64_high w j : is_u64 w -> 64 <= j -> Z.testbit w j = false.
Proof. intros Hw Hj. rewrite <- (Z.mod_small w (2 ^ 64)) by apply Hw. apply Z.mod_pow2_bits_high. lia. Qed.

Lemma is_u64_bits w : (forall j, 64 <= j -> Z.testbit w j = false) -> is_u64 w.
Proof.
  intros Hj. assert (w = w mod 2 ^ 64) as ->; [|apply Z.mod_pos_bound; done]. apply Z.bits_inj'. intros j Hj0.
  destruct (decide (j < 64)); [by rewrite Z.mod_pow2_bits_low|]. rewrite Z.mod_pow2_bits_high by lia. apply Hj. lia.
Qed.

Lemma publish_slot_spec g slot : group_ok g -> 0 <= slot < kRows ->
  ∃ v, publish_slot g slot = Some (set_visible g v) ∧ group_ok (set_visible g v) ∧ IsVisible (set_visible g v) slot = Some true ∧
    (forall slot', 0 <= slot' < kRows -> slot' <> slot -> IsVisible (set_visible g v) slot' = IsVisible g slot').
Proof.
  intros Hg Hs. destruct (visible_bits g slot Hg Hs) as (w & Hw & Hu & _). unfold publish_slot. rewrite Hw. cbn [mbind option_bind].
  eexists. split; [done|]. eapply (change_bit g slot w _ true Hg Hs Hw).
  - apply is_u64_bits. intros j Hj. rewrite Z.lor_spec, testbit_visible_bit, (is_u64_high w j) by (done || lia).
    pose proof (land63 slot). destruct (Z.eqb_spec j (Z.land slot 63)); [lia|done].
  - rewrite Z.lor_spec, testbit_visible_bit, Z.eqb_refl by apply land63. by rewrite orb_true_r.
  - intros j Hj Hne. rewrite Z.lor_spec, testbit_visible_bit by lia. destruct (Z.eqb_spec j (Z.land slot 63)); [done|]. by rewrite orb_false_r.
Qed.

Lemma RetireSlot_spec g slot : group_ok g -> 0 <= slot < kRows ->
  ∃ v, RetireSlot g slot = Some (set_visible g v) ∧ group_ok (set_visible g v) ∧ IsVisible (set_visible g v) slot = Some false ∧
    (forall slot', 0 <= slot' < kRows -> slot' <> slot -> IsVisible (set_visible g v) slot' = IsVisible g slot').
Proof.
  intros Hg Hs. destruct (visible_bits g slot Hg Hs) as (w & Hw & Hu & _). unfold RetireSlot. rewrite Hw. cbn [mbind option_bind].
  assert (2 ^ 64 - 1 - visible_bit slot = Z.ldiff (Z.ones 64) (visible_bit slot)) as ->.
  { change (2 ^ 64 - 1) with (Z.ones 64). rewrite Z.sub_nocarry_ldiff; [done|]. apply Z.bits_inj'. intros j Hj.
    rewrite Z.ldiff_spec, testbit_visible_bit, Z.bits_0 by done. destruct (Z.eqb_spec j (Z.land slot 63)) as [->|]; [|done].
    rewrite Z.ones_spec_low by apply land63. done. }
  eexists. split; [done|]. eapply (change_bit g slot w _ false Hg Hs Hw).
  - apply is_u64_bits. intros j Hj. by rewrite Z.land_spec, (is_u64_high w j).
  - rewrite Z.land_spec, Z.ldiff_spec, testbit_visible_bit, Z.eqb_refl by apply land63. by rewrite !andb_false_r.
  - intros j Hj Hne. rewrite Z.land_spec, Z.ldiff_spec, testbit_visible_bit, Z.ones_spec_low by lia.
    destruct (Z.eqb_spec j (Z.land slot 63)); [done|]. by rewrite andb_true_r.
Qed.

(** ** Scattering a row *)

Lemma ParseRow_bytes row max refs : bytes_ok row -> ParseRow row max = Some refs -> Forall bytes_ok refs.
Proof.
  unfold ParseRow. generalize (length row) as fuel. intros fuel. revert row max refs.
  induction fuel as [|fuel IH]; intros [|b row] [|max] refs Hrow; cbn [ParseRow_loop]; try done; try (by intros [= <-]).
  apply Forall_cons in Hrow as [Hb Hrow]. destruct (b =? 255).
  { destruct (ParseRow_loop fuel row max) eqn:E; cbn; [|done]. intros [= <-]. constructor; [by constructor|]. by eapply IH. }
  destruct (_ || _); [done|]. destruct (_ <? _); [done|].
  destruct (ParseRow_loop fuel (drop _ (drop _ row)) max) eqn:E; cbn; [|done]. intros [= <-].
  constructor; [by apply Forall_take, Forall_drop|]. eapply IH; [|done]. by apply Forall_drop, Forall_drop.
Qed.

(** The decimals of a row do not overflow the 128 bits of the parser. *)
Definition row_decimals_short (s : TableSchema) (row : bytestring) : Prop :=
  forall refs, ParseRow row (field_count s) = Some refs -> decimals_short s 0 refs.

Lemma ScatterRow_validated g slot row r g' : ScatterRow g slot row = Some (r, g') -> schema_ok (schema_ g) ->
  forall refs, ParseRow row (field_count (schema_ g)) = Some refs -> length refs = field_count (schema_ g) ->
  is_Some (validate_fields (schema_ g) 0 refs).
Proof.
  intros E Hs refs Hp Hl. unfold ScatterRow in E. pose proof (ok_count _ Hs).
  destruct (Nat.ltb_spec kMaxFields (field_count (schema_ g))) as [Hlt|Hle]; [unfold field_count in Hlt; lia|].
  rewrite Hp, Hl, Nat.eqb_refl in E. simpl in E. by destruct (validate_fields _ _ _).
Qed.

(** [ScatterRow] either refuses the row and changes nothing, or writes the
    cells of the slot and no others, and makes the slot visible. *)
Lemma ScatterRow_cases g slot row : group_ok g -> 0 <= slot < kRows -> bytes_ok row ->
  (forall refs, ParseRow row (field_count (schema_ g)) = Some refs -> length refs = field_count (schema_ g) ->
     is_Some (validate_fields (schema_ g) 0 refs)) ->
  ScatterRow g slot row = Some (false, g) ∨
  ∃ refs bins bs g', ParseRow row (field_count (schema_ g)) = Some refs ∧ length refs = field_count (schema_ g) ∧
    validate_fields (schema_ g) 0 refs = Some (Some bins) ∧
    (forall bs', cells_of (schema_ g) 0 refs bins bs' -> bs' = bs) ∧ ScatterRow g slot row = Some (true, g') ∧
    group_ok g' ∧ shape g' = shape g ∧ IsVisible g' slot = Some true ∧
    (forall i b, bs !! i = Some b -> cell_holds g' i slot b) ∧
    (forall slot', slot' <> slot -> 0 <= slot' < kRows -> IsVisible g' slot' = IsVisible g slot' ∧ forall f, cell_same g g' f slot').
Proof.
  intros Hg Hs Hrow Hdec. pose proof (g_schema g Hg) as Hsok. unfold ScatterRow.
  destruct (Nat.ltb_spec kMaxFields (field_count (schema_ g))) as [Hlt|Hle]; [by left|].
  destruct (ParseRow row (field_count (schema_ g))) as [refs|] eqn:Ep; [|by left].
  destruct (Nat.eqb_spec (length refs) (field_count (schema_ g))) as [Hl|Hl]; [|by left]. cbn [negb].
  destruct (Hdec refs eq_refl Hl) as [r Hr]. rewrite Hr. cbn [mbind option_bind].
  destruct r as [bins|]; [|by left]. right. destruct (validate_fields_cells _ _ _ _ Hsok Hr) as [bs Hbs].
  destruct (write_cells_spec g slot 0 refs bins bs Hg Hs (ParseRow_bytes _ _ _ Hrow Ep) Hbs) as (g1 & E1 & Hg1 & Hsh & Hv & Hh & Hfr).
  destruct (publish_slot_spec g1 slot Hg1 Hs) as (v & Epub & Hg2 & Hvis & Hother).
  exists refs, bins, bs, (set_visible g1 v). rewrite E1. cbn [mbind option_bind]. rewrite Epub. cbn [mbind option_bind].
  split_and!; try done.
  - intros bs' Hbs'. clear -Hbs Hbs'. revert Hbs Hbs'. generalize 0%nat. revert bins bs bs'.
    induction refs as [|p refs IH]; intros [|n bins] [|b bs] [|b' bs'] f; cbn [cells_of]; try done.
    intros [(k & w & Hk & Hw & Hc) H1] [(k' & w' & Hk' & Hw' & Hc') H2]. simplify_eq. f_equal; [|by eapply IH].
    destruct Hc as [(Hx & -> & _)|(Hx & Hy & ->)], Hc' as [(Hx' & -> & _)|(Hx' & Hy' & ->)]; try done; naive_solver.
  - intros slot' Hne Hs'. split.
    + rewrite Hother by done. unfold IsVisible. by rewrite Hv.
    + intros f a w x n Hw Ha Hx Hn. eapply (Hfr f slot'); [by left|done..].
Qed.

(** ** Cells that are the same show the same *)

Lemma FormatTyped_ext k scale c c' : c (kind_width k) = c' (kind_width k) -> FormatTyped k scale c = FormatTyped k scale c'.
Proof.
  intros E. unfold FormatTyped. destruct (Z.eqb_spec k FK_INT32) as [->|]; [by change (kind_width FK_INT32) with 4 in E; rewrite E|].
  destruct (Z.eqb_spec k FK_INT64) as [->|]; [by change (kind_width FK_INT64) with 8 in E; rewrite E|].
  destruct (Z.eqb_spec k FK_DATE) as [->|]; [by change (kind_width FK_DATE) with 4 in E; rewrite E|].
  destruct (Z.eqb_spec k FK_DEC64) as [->|]; [by change (kind_width FK_DEC64) with 8 in E; rewrite E|done].
Qed.

Section same.
Context (g g' : PaxGroup) (slot : Z) (Hg : group_ok g) (Hsh : shape g' = shape g) (Hs : 0 <= slot < kRows).
Context (Hsame : forall f, cell_same g g' f slot).

Lemma cell_length_same f : cell_length g' f slot = cell_length g f slot.
Proof.
  unfold cell_length. rewrite (cell_at_shape g g') by done. destruct (cell_at g f slot) as [a|] eqn:Ha; [|done]. cbn [mbind option_bind].
  assert (schema_ g' = schema_ g) as -> by (by injection Hsh).
  destruct (field_max_bytes (schema_ g) !! f) as [w|] eqn:Hw.
  - pose proof (width_at g Hg f w Hw) as [? _]. by rewrite (Hsame f a w a 2) by (done || lia).
  - by destruct (read g' a 2), (read g a 2).
Qed.

Lemma cell_text_same k f len w : kind_at (schema_ g) f = Some k -> field_max_bytes (schema_ g) !! f = Some w -> len <= w ->
  cell_text g' k f slot len = cell_text g k f slot len.
Proof.
  intros Hk Hw Hl. unfold cell_text. rewrite (cell_at_shape g g') by done. destruct (cell_at g f slot) as [a|] eqn:Ha; [|done].
  cbn [mbind option_bind]. assert (schema_ g' = schema_ g) as -> by (by injection Hsh). unfold kCellLenBytes.
  destruct (Z.eqb_spec k FK_UNTYPED) as [->|Hne]; cbn [negb]; [apply (Hsame f a w); (done || lia)|].
  destruct (ok_typed _ (g_schema g Hg) f k (kind_at_lookup _ _ _ Hk Hne) Hne) as [Hw' _]. simplify_eq.
  apply FormatTyped_ext. apply (Hsame f a (kind_width k)); (done || lia).
Qed.

Lemma cell_length_bound f len : cell_length g f slot = Some len -> ∃ w, field_max_bytes (schema_ g) !! f = Some w ∧ len <= w.
Proof.
  unfold cell_length. destruct (cell_at g f slot); [|done]. cbn [mbind option_bind]. destruct (read g _ 2) as [b|]; [|done]. cbn [mbind option_bind].
  destruct (field_max_bytes (schema_ g) !! f) as [w|] eqn:Hw; [|done]. cbn [mbind option_bind]. intros [= <-]. exists w. split; [done|].
  pose proof (width_at g Hg f w Hw) as [? _]. destruct (Z.ltb_spec w (le_value b)); lia.
Qed.

Lemma gather_fields_same n fields f dst : gather_fields g' slot n fields f dst = gather_fields g slot n fields f dst.
Proof.
  revert f dst. induction fields as [|fields IH]; intros f dst; [done|]. cbn [gather_fields]. rewrite cell_length_same.
  destruct (cell_length g f slot) as [len|] eqn:El; [|done]. cbn [mbind option_bind]. destruct (len =? 0).
  { destruct (_ <? _); [done|]. apply IH. }
  assert (schema_ g' = schema_ g) as -> by (by injection Hsh). destruct (kind_at (schema_ g) f) as [k|] eqn:Hk; [|done]. cbn [mbind option_bind].
  destruct (cell_length_bound f len El) as (w & Hw & Hle). rewrite (cell_text_same k f len w) by done.
  destruct (cell_text g k f slot len); [|done]. cbn [mbind option_bind]. destruct (_ <? _); [done|]. apply IH.
Qed.

Lemma GatherRow_same n : GatherRow g' slot n = GatherRow g slot n.
Proof. unfold GatherRow. assert (schema_ g' = schema_ g) as -> by (by injection Hsh). apply gather_fields_same. Qed.

End same.

Lemma AppendField_bytes p : bytes_ok p -> zlen p < 2 ^ 32 -> bytes_ok (AppendField p).
Proof.
  intros Hp Hl. destruct p as [|b p]; [by constructor|]. rewrite AppendField_cons by done. cbv zeta. pose proof (zlen_nonneg (b :: p)).
  destruct (LengthPrefixBytes_spec (zlen (b :: p))) as (Hr & _); [lia|]. constructor; [unfold is_u8; lia|].
  apply Forall_app. split; [apply le_bytes_ok|done].
Qed.

Lemma encode_row_bytes fields : Forall (fun p => bytes_ok p ∧ zlen p < 2 ^ 32) fields -> bytes_ok (encode_row fields).
Proof.
  induction 1 as [|p fields [Hp Hl] _ IH]; [constructor|]. apply Forall_app. split; [by apply AppendField_bytes|done].
Qed.

Lemma cells_of_length s f refs bins bs : cells_of s f refs bins bs -> length bs = length refs.
Proof.
  revert f bins bs. induction refs as [|p refs IH]; intros f [|n bins] [|b bs]; cbn [cells_of]; try done.
  intros [_ H]. simpl. f_equal. by eapply IH.
Qed.

(** A row the client sends is scattered, and its cells show its fields. *)
Lemma scatter_fits g slot fields : group_ok g -> 0 <= slot < kRows ->
  length fields = field_count (schema_ g) -> (forall f p, fields !! f = Some p -> field_fits (schema_ g) f p) ->
  ∃ g', ScatterRow g slot (encode_row fields) = Some (true, g') ∧ group_ok g' ∧ shape g' = shape g ∧
    IsVisible g' slot = Some true ∧ (forall f p, fields !! f = Some p -> cell_shows g' f slot p ∧ zlen p < 2 ^ 32) ∧
    (forall slot', slot' <> slot -> 0 <= slot' < kRows -> IsVisible g' slot' = IsVisible g slot' ∧ forall f, cell_same g g' f slot').
Proof.
  intros Hg Hs Hl Hfits. set (row := encode_row fields). pose proof (g_schema g Hg) as Hsok.
  assert (Forall (fun p => zlen p < 2 ^ 32) fields) as Hshort.
  { apply Forall_lookup. intros f p Hp. by destruct (Hfits f p Hp) as (_ & ? & _). }
  assert (bytes_ok row) as Hrow by (apply encode_row_bytes, Forall_lookup; intros f p Hp; by destruct (Hfits f p Hp) as (? & ? & _)).
  pose proof (ParseRow_encode fields (field_count (schema_ g)) Hshort ltac:(lia)) as Hparse. fold row in Hparse.
  destruct (validate_fits (schema_ g) 0 fields Hsok Hfits) as (bins & bs & Hv & Hc & Hshows).
  destruct (ScatterRow_cases g slot row Hg Hs Hrow) as [E|(refs & bins' & bs' & g' & Hp' & Hl' & Hv' & Huniq & E & Hg' & Hsh & Hvis & Hh & Hother)].
  { intros refs Hr _. rewrite Hparse in Hr. injection Hr as [= <-]. by rewrite Hv. }
  { exfalso. revert E. unfold ScatterRow. rewrite Hparse, Hv, Hl, Nat.eqb_refl.
    destruct (Nat.ltb_spec kMaxFields (field_count (schema_ g))) as [Hlt|_].
    { pose proof (ok_count _ Hsok). unfold field_count in Hlt. lia. }
    cbn [negb mbind option_bind]. destruct (write_cells g slot 0 fields bins); cbn; [|done]. by destruct (publish_slot p slot). }
  rewrite Hparse in Hp'. injection Hp' as [= <-]. rewrite Hv in Hv'. injection Hv' as [= <-].
  specialize (Huniq bs Hc) as <-. assert (schema_ g' = schema_ g) as Es by (by injection Hsh).
  exists g'. split_and!; try done. intros i t Ht. assert (is_Some (bs !! i)) as [b Hb].
  { apply lookup_lt_is_Some. apply lookup_lt_Some in Ht. by rewrite (cells_of_length _ _ _ _ _ Hc). }
  split; [apply (Hshows i t b Ht Hb g' slot Es), Hh, Hb|]. by destruct (Hfits i t Ht) as (_ & Hlt & _).
Qed.

(** ** Reading some fields *)

Lemma read_nothing g at_ : 0 <= at_ <= arena_size g -> read g at_ 0 = Some [].
Proof. intros H. unfold read. by destruct (Z.leb_spec 0 at_), (Z.leb_spec (at_ + 0) (arena_size g)); try lia. Qed.

Lemma AppendCellField_shows g f slot t out : group_ok g -> 0 <= slot < kRows -> (f < field_count (schema_ g))%nat ->
  cell_shows g f slot t -> AppendCellField g f slot out = Some (out ++ AppendField t).
Proof.
  intros Hg Hs Hf (a & len & Ha & Hlen & Hc). unfold AppendCellField, cell. rewrite Ha. cbn [mbind option_bind]. rewrite Hlen. cbn [mbind option_bind].
  unfold kCellLenBytes. destruct Hc as [[-> ->]|(Hpos & Hne & k & b & Hk & Hr & Hc)].
  - destruct (lookup_lt_is_Some_2 (field_max_bytes (schema_ g)) f Hf) as [w Hw].
    destruct (cell_place g Hg f slot w Hw Hs) as (o & _ & Ha' & Ho & Hend). pose proof (width_at g Hg f w Hw) as [? _].
    rewrite Ha' in Ha. injection Ha as [= <-]. rewrite read_nothing; [done|]. unfold kRows in *. nia.
  - rewrite Hr. cbn [mbind option_bind]. destruct (read_ok g (a + 2) len b Hg ltac:(lia) Hr) as [Hl _]. destruct b as [|c b]; [rewrite zlen_nil in Hl; lia|].
    rewrite (kind_at_of _ _ _ Hk). destruct Hc as [[-> ->]|[Hkn Ht]]; [done|].
    assert ((k =? FK_UNTYPED) = false) as -> by (by apply Z.eqb_neq). by rewrite Hl, Ht.
Qed.

(** The row with the columns that are not listed empty; the first field holds
    the null flags and is kept. *)
Fixpoint mask_columns (f : Z) (fields : list bytestring) (columns : list Z) : list bytestring :=
  match fields with
  | [] => []
  | p :: fields' =>
      (if bool_decide (f = 0 ∨ f - 1 ∈ columns) then p else []) :: mask_columns (f + 1) fields' columns
  end.

Lemma mask_columns_length f fields columns : length (mask_columns f fields columns) = length fields.
Proof. revert f. induction fields as [|p fields IH]; intros f; simpl; [done|]. by rewrite IH. Qed.

Lemma mask_columns_lookup f fields columns i q : mask_columns f fields columns !! i = Some q ->
  ∃ p, fields !! i = Some p ∧ (q = p ∨ q = []).
Proof.
  revert f i. induction fields as [|p fields IH]; intros f [|i]; cbn [mask_columns]; try done; simpl.
  - intros [= <-]. exists p. split; [done|]. destruct (bool_decide _); auto.
  - apply IH.
Qed.

Lemma encode_row_cons p fields : encode_row (p :: fields) = AppendField p ++ encode_row fields.
Proof. done. Qed.

Lemma mask_columns_irrelevant f fields c columns : c + 1 < f -> mask_columns f fields (c :: columns) = mask_columns f fields columns.
Proof.
  revert f. induction fields as [|p fields IH]; intros f Hc; [done|]. cbn [mask_columns]. rewrite IH by lia. f_equal.
  assert (bool_decide (f = 0 ∨ f - 1 ∈ c :: columns) = bool_decide (f = 0 ∨ f - 1 ∈ columns)) as ->; [|done].
  apply bool_decide_ext. rewrite elem_of_cons. split; [intros [|[|]]; [by left|lia|by right]|intros [|]; [by left|by do 2 right]].
Qed.

Lemma mask_fields_shows g slot columns fields f out : group_ok g -> 0 <= slot < kRows -> (1 <= f)%nat ->
  StronglySorted Z.lt columns -> Forall (fun c => Z.of_nat f <= c + 1) columns ->
  (forall i p, fields !! i = Some p -> cell_shows g (f + i) slot p ∧ (f + i < field_count (schema_ g))%nat) ->
  mask_fields g slot (seq f (length fields)) columns out = Some (out ++ encode_row (mask_columns (Z.of_nat f) fields columns)).
Proof.
  intros Hg Hs. revert f columns out. induction fields as [|p fields IH]; intros f columns out Hf Hsort Hge Hsh; cbn [length seq mask_fields mask_columns].
  { by rewrite app_nil_r. }
  destruct (Hsh 0%nat p eq_refl) as [Hp Hlt]. rewrite Nat.add_0_r in *.
  assert (forall i q, fields !! i = Some q -> cell_shows g (S f + i) slot q ∧ (S f + i < field_count (schema_ g))%nat) as Hsh'.
  { intros i q Hq. rewrite Nat.add_succ_comm. by apply (Hsh (S i)). }
  replace (Z.of_nat f + 1) with (Z.of_nat (S f)) by lia. rewrite encode_row_cons.
  destruct columns as [|c columns].
  { rewrite bool_decide_eq_false_2 by (rewrite elem_of_nil; lia). rewrite IH by (done || lia || constructor). by rewrite <- app_assoc. }
  apply StronglySorted_inv in Hsort as [Hsort Hc]. apply Forall_cons in Hge as [Hge Hges].
  destruct (Z.eqb_spec (c + 1) (Z.of_nat f)) as [Hcf|Hcf].
  - rewrite bool_decide_eq_true_2 by (right; rewrite elem_of_cons; left; lia).
    rewrite (AppendCellField_shows g f slot p out) by done. cbn [mbind option_bind].
    rewrite IH; [|lia|done| |done]; [rewrite (mask_columns_irrelevant _ _ c) by lia; by rewrite <- app_assoc|].
    eapply Forall_impl; [exact Hc|]. simpl. lia.
  - assert (forall x, x ∈ c :: columns -> Z.of_nat (S f) <= x + 1) as Hall.
    { intros x [-> |Hx]%elem_of_cons; [lia|]. rewrite Forall_forall in Hc. specialize (Hc x Hx). lia. }
    rewrite bool_decide_eq_false_2 by (intros [|Hx]; [lia|]; apply Hall in Hx; lia).
    rewrite IH; [by rewrite <- app_assoc|lia|by constructor|by apply Forall_forall|done].
Qed.

(** ** Every access is defined *)

Section defined.
Context (g : PaxGroup) (slot : Z) (Hg : group_ok g) (Hs : 0 <= slot < kRows).

Lemma cell_defined f : (f < field_count (schema_ g))%nat ->
  ∃ a w len, cell_at g f slot = Some a ∧ field_max_bytes (schema_ g) !! f = Some w ∧ cell_length g f slot = Some len ∧
    0 <= len <= w ∧ 0 <= a ∧ a + 2 + w <= arena_size g.
Proof.
  intros Hf. destruct (lookup_lt_is_Some_2 (field_max_bytes (schema_ g)) f Hf) as [w Hw].
  destruct (cell_place g Hg f slot w Hw Hs) as (o & _ & Ha & Ho & Hend). pose proof (width_at g Hg f w Hw) as [? _].
  assert (0 <= o + (2 + w) * slot) as H0 by (unfold kRows in *; nia).
  destruct (read_defined g (o + (2 + w) * slot) 2 H0 ltac:(lia)) as [b Hb]. destruct (read_ok g _ 2 b Hg ltac:(lia) Hb) as [Hl Hbo].
  pose proof (le_value_bound b Hbo). exists (o + (2 + w) * slot), w, (if w <? le_value b then 0 else le_value b).
  unfold cell_length. rewrite Ha. cbn [mbind option_bind]. rewrite Hb, Hw. cbn [mbind option_bind].
  split_and!; try done; destruct (Z.ltb_spec w (le_value b)); lia.
Qed.

Lemma cell_text_defined f k len : (f < field_count (schema_ g))%nat -> kind_at (schema_ g) f = Some k -> cell_length g f slot = Some len ->
  is_Some (cell_text g k f slot len).
Proof.
  intros Hf Hk Hlen. destruct (cell_defined f Hf) as (a & w & len' & Ha & Hw & Hlen' & Hr & H0 & Hend). rewrite Hlen in Hlen'. injection Hlen' as [= <-].
  unfold cell_text. rewrite Ha. cbn [mbind option_bind]. unfold kCellLenBytes.
  destruct (Z.eqb_spec k FK_UNTYPED) as [->|Hne]; cbn [negb]; [apply read_defined; lia|].
  destruct (ok_typed _ (g_schema g Hg) f k (kind_at_lookup _ _ _ Hk Hne) Hne) as [Hw' Hsc]. simplify_eq.
  destruct (read_defined g (a + 2) (kind_width k) ltac:(lia) ltac:(lia)) as [b Hb].
  destruct (read_ok g (a + 2) (kind_width k) b Hg ltac:(lia) Hb) as [Hl Hbo].
  apply (FormatTyped_defined k _ _ b); [lia|done..].
Qed.

Lemma gather_fields_defined n fields f dst : (f + fields <= field_count (schema_ g))%nat -> is_Some (gather_fields g slot n fields f dst).
Proof.
  revert f dst. induction fields as [|fields IH]; intros f dst Hf; cbn [gather_fields]; [by eexists|].
  destruct (cell_defined f ltac:(lia)) as (a & w & len & _ & _ & Hlen & _). rewrite Hlen. cbn [mbind option_bind]. destruct (len =? 0).
  { destruct (_ <? _); [by eexists|]. apply IH. lia. }
  destruct (kind_at_defined (schema_ g) f (g_schema g Hg) ltac:(lia)) as [k Hk]. rewrite Hk. cbn [mbind option_bind].
  destruct (cell_text_defined f k len ltac:(lia) Hk Hlen) as [t ->]. cbn [mbind option_bind]. destruct (_ <? _); [by eexists|]. apply IH. lia.
Qed.

Lemma AppendCellField_defined f out : (f < field_count (schema_ g))%nat -> is_Some (AppendCellField g f slot out).
Proof.
  intros Hf. destruct (cell_defined f Hf) as (a & w & len & Ha & Hw & Hlen & Hr & H0 & Hend). unfold AppendCellField, cell. rewrite Ha. cbn [mbind option_bind].
  rewrite Hlen. cbn [mbind option_bind]. destruct (read_defined g (a + kCellLenBytes) len) as [b Hb]; [unfold kCellLenBytes; lia..|]. rewrite Hb. cbn [mbind option_bind].
  destruct (read_ok g _ len b Hg ltac:(lia) Hb) as [Hl _]. destruct b as [|c b]; [by eexists|]. destruct (_ =? _); [by eexists|].
  destruct (kind_at_defined (schema_ g) f (g_schema g Hg) Hf) as [k Hk]. rewrite (kind_at_of _ _ _ Hk), Hl.
  destruct (cell_text_defined f k len Hf Hk Hlen) as [t ->]. by eexists.
Qed.

Lemma mask_fields_defined fs columns out : Forall (fun f => f < field_count (schema_ g))%nat fs -> is_Some (mask_fields g slot fs columns out).
Proof.
  intros Hfs. revert columns out. induction Hfs as [|f fs Hf Hfs IH]; intros columns out; cbn [mask_fields]; [by eexists|].
  destruct columns as [|c columns]; [apply IH|]. destruct (_ =? _); [|apply IH].
  destruct (AppendCellField_defined f out Hf) as [out' ->]. apply IH.
Qed.

Lemma project_columns_defined columns out : is_Some (project_columns g slot columns out).
Proof.
  revert out. induction columns as [|c columns IH]; intros out; cbn [project_columns]; [by eexists|].
  destruct (Nat.leb_spec (field_count (schema_ g)) (Z.to_nat (c + 1))); [by eexists|].
  destruct (AppendCellField_defined (Z.to_nat (c + 1)) out) as [out' ->]; [done|]. apply IH.
Qed.

End defined.

(** ** Theorems *)

(** C20. A group of a well-formed schema starts well formed and stays so under
    ScatterRow of any bytes and RetireSlot: the strips keep their layout, the
    bytes and the visibility words their widths; a refused row changes
    nothing, an accepted one makes its slot visible, and a retired slot is
    invisible with its bytes in place. *)
Theorem pax_group_wellformed s : schema_ok s ->
  group_ok (new s) ∧ schema_ (new s) = s ∧
  forall g slot, group_ok g -> schema_ g = s -> 0 <= slot < kRows ->
    (forall row r g', bytes_ok row -> ScatterRow g slot row = Some (r, g') ->
       group_ok g' ∧ schema_ g' = s ∧ IsVisible g' slot = (if r then Some true else IsVisible g slot) ∧ (r = false -> g' = g)) ∧
    (forall g', RetireSlot g slot = Some g' ->
       group_ok g' ∧ schema_ g' = s ∧ arena_ g' = arena_ g ∧ IsVisible g' slot = Some false).
Proof.
  intros Hs. split; [by apply new_ok|]. split; [unfold new; by destruct (layout _ _) as [[]]|].
  intros g slot Hg Es Hslot. split.
  - intros row r g' Hrow E.
    destruct (ScatterRow_cases g slot row Hg Hslot Hrow) as [E'|(refs & bins & bs & g1 & _ & _ & _ & _ & E' & Hg' & Hsh & Hvis & _)].
    + by apply (ScatterRow_validated g slot row r g'), g_schema.
    + rewrite E' in E. by simplify_eq.
    + rewrite E' in E. simplify_eq. by split_and!.
  - intros g' E. destruct (RetireSlot_spec g slot Hg Hslot) as (v & E' & Hg' & Hvis & _). rewrite E' in E. by simplify_eq.
Qed.


(** The masked gather of a scattered row, for columns in ascending order,
    is the row in which the other columns are empty, so that the fields keep
    their positions. *)
Theorem pax_masked_gather g slot fields columns g' : group_ok g -> 0 <= slot < kRows ->
  length fields = field_count (schema_ g) -> (0 < length fields)%nat ->
  (forall f p, fields !! f = Some p -> field_fits (schema_ g) f p) ->
  ScatterRow g slot (encode_row fields) = Some (true, g') ->
  StronglySorted Z.lt columns -> Forall (fun c => 0 <= c) columns ->
  GatherRowMasked g' slot columns [] = Some (encode_row (mask_columns 0 fields columns)) ∧
  ParseRow (encode_row (mask_columns 0 fields columns)) (field_count (schema_ g)) = Some (mask_columns 0 fields columns).
Proof.
  intros Hg Hs Hl Hpos Hfits Hscat Hsort Hcols.
  destruct (scatter_fits g slot fields Hg Hs Hl Hfits) as (g1 & E & Hg' & Hsh & _ & Hshows & _). rewrite E in Hscat. injection Hscat as [= <-].
  assert (schema_ g1 = schema_ g) as Es by (by injection Hsh). destruct fields as [|p fields]; [simpl in Hpos; lia|].
  split.
  - unfold GatherRowMasked. rewrite (AppendCellField_shows g1 0 slot p []); [|done|done|rewrite Es; lia|by apply Hshows].
    cbn [mbind option_bind mask_columns]. rewrite bool_decide_eq_true_2 by (by left). rewrite Es, <- Hl. cbn [length]. rewrite Nat.sub_succ, Nat.sub_0_r.
    rewrite encode_row_cons, app_nil_l. apply (mask_fields_shows g1 slot columns fields 1); try done; try lia.
    + eapply Forall_impl; [exact Hcols|]. simpl. lia.
    + intros i q Hq. destruct (Hshows (S i) q Hq) as [Hx _]. split; [done|]. rewrite Es, <- Hl. apply lookup_lt_Some in Hq. simpl. lia.
  - apply ParseRow_encode; [|by rewrite <- Hl, mask_columns_length]. apply Forall_lookup. intros i q Hq.
    destruct (mask_columns_lookup _ _ _ _ _ Hq) as (q' & Hq' & [-> | ->]); [by apply (Hshows i)|done].
Qed.

