(* ===== verification/PaxBuffer.v ===== *)
(** * Rows in PAX storage (src/include/lineairdb/pax_store.h,
    src/src/pax/pax_store.cpp, version_store.hpp, version_store.cpp,
    src/src/types/data_buffer.hpp)

    A table's store hands out slots of its groups.  A data buffer in PAX mode
    refers to a slot instead of owning bytes; a row that does not fit its cells
    sends the buffer to the heap for good.  While a columnar read view is
    active, every install publishes the row it replaces in the version store.

    The theorem: under a schema whose typed columns have the widths of their
    kinds, whatever rows are put into the buffers of a table that have the form
    the cells give back or that [ScatterRow] refuses ([sendable]), every buffer
    returns the row that was put into it last.  A row that [ScatterRow] accepts
    in another form, such as a decimal with fewer digits than its scale, comes
    back changed ([PaxDemo.pax_rows_rewritten]).

    The log lines about fallbacks are not modelled. *)

From stdpp Require Import list_numbers.
From S2P Require Import Prelude PackedKeys Types DataItem PaxCodec PaxGroup PaxCells.
Import FieldKind TableSchema PaxGroup.

(** ** The slots of a table *)

Record PaxStore := mkStore {
  store_schema : TableSchema;
  dir_ : gmap Z PaxGroup;
  next_slot_ : Z;
  overflow_count_ : Z;
}.

Module PaxStore.

Definition kMaxGroups : Z := Z.shiftl 1 18.

Definition new (schema : TableSchema) : PaxStore := mkStore schema ∅ 0 0.

(** The [fetch_add], then the group, which is created under [grow_mutex_] when
    it is missing. *)
Definition AllocateSlot (st : PaxStore) : option (Z * Z) * PaxStore :=
  let idx := next_slot_ st in
  let next := u64 (idx + 1) in
  let group_idx := idx / kRows in
  if kMaxGroups <=? group_idx
  then (None, mkStore (store_schema st) (dir_ st) next (overflow_count_ st))
  else
    let dir := match dir_ st !! group_idx with
               | None => <[group_idx := PaxGroup.new (store_schema st)]> (dir_ st)
               | Some _ => dir_ st
               end in
    (Some (group_idx, idx mod kRows), mkStore (store_schema st) dir next (overflow_count_ st)).

Definition group_count (st : PaxStore) : Z := u64 (next_slot_ st + kRows - 1) / kRows.

Definition RecordHeapFallback (st : PaxStore) : PaxStore :=
  mkStore (store_schema st) (dir_ st) (next_slot_ st) (u64 (overflow_count_ st + 1)).

Definition set_group (st : PaxStore) (i : Z) (g : PaxGroup) : PaxStore :=
  mkStore (store_schema st) (<[i := g]> (dir_ st)) (next_slot_ st) (overflow_count_ st).

End PaxStore.
Import PaxStore.

(** ** Schemas of tables *)

(** [Table::InstallPaxSchema]. *)
Definition Table_InstallPaxSchema (pax_store : option PaxStore) (schema : TableSchema) : bool * option PaxStore :=
  match pax_store with
  | Some _ => (false, pax_store)
  | None => (true, Some (PaxStore.new schema))
  end.

(** [Database::Impl::InstallPaxSchema], over the tables by name. *)
Definition InstallPaxSchema (enable_pax_storage masstree : bool) (tables : gmap bytestring (option PaxStore))
    (name : bytestring) (widths kinds scales : list Z) : bool * gmap bytestring (option PaxStore) :=
  if negb enable_pax_storage then (false, tables)
  else match widths with
  | [] => (false, tables)
  | _ =>
      if negb masstree then (false, tables)
      else match tables !! name with
      | None => (false, tables)
      | Some pax_store =>
          let '(ok, pax_store) := Table_InstallPaxSchema pax_store (requested_schema name widths kinds scales) in
          (ok, <[name := pax_store]> tables)
      end
  end.
Definition GetPaxStore (tables : gmap bytestring (option PaxStore)) (name : bytestring) : option PaxStore :=
  default None (tables !! name).

(** The requests that lead to a well-formed schema: every width leaves room for
    the length of a cell and each typed field has the width of its type. *)
Record request_ok (widths kinds scales : list Z) : Prop := mkRequestOk {
  rq_widths : Forall width_ok widths;
  rq_count : (0 < length widths <= kMaxFields)%nat;
  rq_typed : length kinds = length widths -> forall f k, kinds !! f = Some k -> k <> FK_UNTYPED ->
    widths !! f = Some (kind_width k) ∧ (length scales = length widths -> forall sc, scales !! f = Some sc -> 0 <= sc <= 127);
}.

Lemma requested_schema_ok name widths kinds scales : request_ok widths kinds scales -> schema_ok (requested_schema name widths kinds scales).
Proof.
  intros [Hw Hc Ht]. unfold requested_schema. case_bool_decide as Hk; constructor; simpl; try done; try lia; auto.
  intros f k Hf Hne. destruct (Ht Hk f k Hf Hne) as [Hwf Hs]. split; [done|]. unfold scale_of. simpl. case_bool_decide as Hsc.
  - destruct (scales !! f) as [sc|] eqn:E; [by apply (Hs Hsc)|]. simpl. lia.
  - destruct (replicate _ _ !! f) as [z|] eqn:E; simpl; [|lia]. apply lookup_replicate in E as [-> _]. lia.
Qed.

(** A schema is installed once: on a table without one, with PAX storage and
    the Masstree index, a request gives the table an empty store with the
    requested schema, which is well formed when the request is; every other
    request is refused and no table changes. *)
Theorem InstallPaxSchema_once enable masstree tables name widths kinds scales :
  request_ok widths kinds scales ->
  let schema := requested_schema name widths kinds scales in
  let possible := enable && masstree && match tables !! name with Some None => true | _ => false end in
  let '(ok, tables') := InstallPaxSchema enable masstree tables name widths kinds scales in
  schema_ok schema ∧ ok = possible ∧
  (ok = true -> GetPaxStore tables' name = Some (PaxStore.new schema)) ∧
  (forall name', name' <> name ∨ ok = false -> tables' !! name' = tables !! name') ∧
  (ok = true -> fst (InstallPaxSchema enable masstree tables' name widths kinds scales) = false).
Proof.
  intros Hr schema possible. unfold possible, InstallPaxSchema. pose proof (requested_schema_ok name _ _ _ Hr) as Hs.
  destruct Hr as [_ Hc _]. destruct widths as [|w widths]; [simpl in Hc; lia|].
  destruct enable, masstree; cbn [negb andb]; try (split_and!; by auto).
  destruct (tables !! name) as [[st|]|] eqn:E; simpl.
  - split_and!; try done. intros name' [Hn|_]; [by rewrite lookup_insert_ne|]. destruct (decide (name' = name)) as [->|];
      [by rewrite lookup_insert_eq|by rewrite lookup_insert_ne].
  - split_and!; try done.
    + intros _. unfold GetPaxStore. by rewrite lookup_insert_eq.
    + intros name' [Hn|Hf]; [by rewrite lookup_insert_ne|done].
    + intros _. by rewrite lookup_insert_eq.
  - split_and!; done.
Qed.

(** ** Before-images *)

Record UndoEntry := mkUndo { writer_epoch : Z; was_visible : bool; old_row : bytestring }.

Record GroupUndo := mkGroupUndo { capture_count : Z; entries : gmap Z (list UndoEntry) }.

Record VersionStore := mkVersions {
  capture_active_ : Z;
  captured_bytes_ : Z;
  poisoned_ : bool;
  groups_ : gmap Z GroupUndo;
  next_view_id_ : Z;
  byte_budget_ : Z;
}.

Module VersionStore.
Section ops.
(** [sizeof(Entry)]. *)
Context (sizeof_Entry : Z).

Definition new (byte_budget : Z) : VersionStore := mkVersions 0 0 false ∅ 1 byte_budget.

Definition CaptureActive (vs : VersionStore) : bool := 0 <? capture_active_ vs.

Definition GetOrCreateGroupUndo (vs : VersionStore) (group : Z) : GroupUndo :=
  default (mkGroupUndo 0 ∅) (groups_ vs !! group).

Definition Capture (vs : VersionStore) (group slot epoch : Z) (visible : bool) (row : bytestring) : VersionStore :=
  if capture_active_ vs =? 0 then vs
  else
    let added := u64 (zlen row + sizeof_Entry) in
    let captured := u64 (captured_bytes_ vs + added) in
    if byte_budget_ vs <? captured
    then mkVersions (capture_active_ vs) captured true (groups_ vs) (next_view_id_ vs) (byte_budget_ vs)
    else
      let undo := GetOrCreateGroupUndo vs group in
      let slot_entries := default [] (entries undo !! slot) ++ [mkUndo epoch visible row] in
      let undo := mkGroupUndo (u64 (capture_count undo + 1)) (<[slot := slot_entries]> (entries undo)) in
      mkVersions (capture_active_ vs) captured (poisoned_ vs) (<[group := undo]> (groups_ vs)) (next_view_id_ vs)
        (byte_budget_ vs).

(** The token's id when it is valid. *)
Definition BeginCapture (vs : VersionStore) : option Z * VersionStore :=
  if (0 <? capture_active_ vs) && poisoned_ vs then (None, vs)
  else (Some (next_view_id_ vs),
        mkVersions (u64 (capture_active_ vs + 1)) (captured_bytes_ vs) (poisoned_ vs) (groups_ vs)
          (u64 (next_view_id_ vs + 1)) (byte_budget_ vs)).

Definition ClearAllLocked (vs : VersionStore) : VersionStore :=
  mkVersions (capture_active_ vs) 0 false ((fun _ => mkGroupUndo 0 ∅) <$> groups_ vs) (next_view_id_ vs) (byte_budget_ vs).

(** [EndCapture] of a valid token. *)
Definition EndCapture (vs : VersionStore) : VersionStore :=
  let remaining := u64 (capture_active_ vs - 1) in
  let vs := mkVersions remaining (captured_bytes_ vs) (poisoned_ vs) (groups_ vs) (next_view_id_ vs) (byte_budget_ vs) in
  if remaining =? 0 then ClearAllLocked vs else vs.

Definition Poisoned (vs : VersionStore) : bool := poisoned_ vs.

Definition PoisonActiveGeneration (vs : VersionStore) : VersionStore :=
  mkVersions (capture_active_ vs) (captured_bytes_ vs) true (groups_ vs) (next_view_id_ vs) (byte_budget_ vs).

Definition GroupCaptureCount (vs : VersionStore) (group : Z) : Z :=
  match groups_ vs !! group with None => 0 | Some undo => capture_count undo end.

Definition EntriesFor (vs : VersionStore) (group slot : Z) : list UndoEntry :=
  match groups_ vs !! group with None => [] | Some undo => default [] (entries undo !! slot) end.

Definition GroupEntries (vs : VersionStore) (group : Z) : gmap Z (list UndoEntry) :=
  match groups_ vs !! group with None => ∅ | Some undo => entries undo end.

End ops.
End VersionStore.

(** [EpochAfterCut]. *)
Definition EpochAfterCut (epoch cut : Z) : bool := cut <? epoch.

(** ** Buffers *)

(** A buffer owns bytes, or refers to the table's store and, once a slot has
    been allocated, to its group and slot; [size] is the length of the row. *)
Inductive RowBuffer : Type :=
  | OnHeap (b : DataBuffer.t)
  | InPax (place : option (Z * Z)) (size : Z).

Module RowBuffer.
Section ops.
Context (sizeof_Entry : Z).

(** [DataBuffer::InitPaxBlank]. *)
Definition InitPaxBlank : RowBuffer := InPax None 0.

(** The bytes that [GatherInto] writes into a buffer of zeroes. *)
Definition gathered (st : PaxStore) (g slot size : Z) : option bytestring :=
  group ← dir_ st !! g;
  b ← GatherRow group slot size;
  Some (b ++ replicate (Z.to_nat (size - zlen b)) 0).

Definition toString (st : PaxStore) (b : RowBuffer) : option bytestring :=
  match b with
  | OnHeap h => Some (DataBuffer.toString h)
  | InPax place size =>
      if size =? 0 then Some []
      else '(g, slot) ← place; gathered st g slot size
  end.

Definition CaptureBeforeImageForReadView (epoch : Z) (st : PaxStore) (vs : VersionStore) (g slot size : Z)
    : option VersionStore :=
  if negb (VersionStore.CaptureActive vs) then Some vs
  else if epoch =? 0 then Some (VersionStore.PoisonActiveGeneration vs)
  else
    let visible := negb (size =? 0) in
    row ← (if visible then toString st (InPax (Some (g, slot)) size) else Some []);
    Some (VersionStore.Capture sizeof_Entry vs g slot epoch visible row).

Definition RetireIn (st : PaxStore) (g slot : Z) : option PaxStore :=
  group ← dir_ st !! g;
  group ← RetireSlot group slot;
  Some (set_group st g group).

(** The install of a row that is not empty into an allocated slot. *)
Definition scatter_into (epoch : Z) (st : PaxStore) (vs : VersionStore) (g slot size : Z) (row : bytestring)
    : option (RowBuffer * PaxStore * VersionStore) :=
  vs ← CaptureBeforeImageForReadView epoch st vs g slot size;
  group ← dir_ st !! g;
  '(ok, group) ← ScatterRow group slot row;
  let st := set_group st g group in
  if ok : bool then Some (InPax (Some (g, slot)) (zlen row), st, vs)
  else
    st ← RetireIn (RecordHeapFallback st) g slot;
    Some (OnHeap (DataBuffer.Reset DataBuffer.empty (Some row)), st, vs).

Definition ResetPax (epoch : Z) (st : PaxStore) (vs : VersionStore) (place : option (Z * Z)) (size : Z)
    (v : option bytestring) : option (RowBuffer * PaxStore * VersionStore) :=
  match v with
  | None | Some [] =>
      match place with
      | Some (g, slot) =>
          if size =? 0 then Some (InPax place 0, st, vs)
          else
            vs ← CaptureBeforeImageForReadView epoch st vs g slot size;
            st ← RetireIn st g slot;
            Some (InPax place 0, st, vs)
      | None => Some (InPax place 0, st, vs)
      end
  | Some row =>
      match place with
      | Some (g, slot) => scatter_into epoch st vs g slot size row
      | None =>
          match AllocateSlot st with
          | (None, st) => Some (OnHeap (DataBuffer.Reset DataBuffer.empty (Some row)), RecordHeapFallback st, vs)
          | (Some (g, slot), st) => scatter_into epoch st vs g slot size row
          end
      end
  end.

Definition Reset (epoch : Z) (st : PaxStore) (vs : VersionStore) (b : RowBuffer) (v : option bytestring)
    : option (RowBuffer * PaxStore * VersionStore) :=
  match b with
  | InPax place size => ResetPax epoch st vs place size v
  | OnHeap h => Some (OnHeap (DataBuffer.Reset h v), st, vs)
  end.

(** [Reset(const DataBuffer& rhs)]; [tmp] is what the thread's temporary vector
    held before.  Bytes of a new allocation past the size are never read. *)
Definition ResetFrom (epoch : Z) (st : PaxStore) (vs : VersionStore) (tmp : bytestring) (b rhs : RowBuffer)
    : option (RowBuffer * PaxStore * VersionStore) :=
  match rhs with
  | OnHeap h => Reset epoch st vs b (match DataBuffer.value h with None => None | Some _ => Some (DataBuffer.payload h) end)
  | InPax place size =>
      if size =? 0 then Reset epoch st vs b None
      else
        '(g, slot) ← place;
        group ← dir_ st !! g;
        row ← GatherRow group slot size;
        match b with
        | InPax _ _ =>
            let resized := take (Z.to_nat size) (tmp ++ replicate (Z.to_nat size) 0) in
            Reset epoch st vs b (Some (row ++ drop (length row) resized))
        | OnHeap h =>
            let '(old, capacity) := if DataBuffer.capacity h <? size then (replicate (Z.to_nat size) 0, size)
                                    else (default [] (DataBuffer.value h), DataBuffer.capacity h) in
            Some (OnHeap (DataBuffer.mk (Some (row ++ drop (length row) old)) (zlen row) capacity), st, vs)
        end
  end.

End ops.
End RowBuffer.
Import RowBuffer.

(** ** Tables of buffers *)

(** A row the client sends: it has the client's form and fits, or its shape or
    a field makes [ScatterRow] refuse it. *)
Definition row_fits (s : TableSchema) (row : bytestring) : Prop :=
  ∃ fields, row = encode_row fields ∧ length fields = field_count s ∧ forall f p, fields !! f = Some p -> field_fits s f p.
Definition row_refused (s : TableSchema) (row : bytestring) : Prop :=
  forall refs, ParseRow row (field_count s) = Some refs -> length refs = field_count s -> validate_fields s 0 refs = Some None.
Definition sendable (s : TableSchema) (row : bytestring) : Prop := row_fits s row ∨ row_refused s row.

Lemma scatter_sendable g slot row : group_ok g -> 0 <= slot < kRows -> sendable (schema_ g) row ->
  ScatterRow g slot row = Some (false, g) ∨
  ∃ g', ScatterRow g slot row = Some (true, g') ∧ group_ok g' ∧ schema_ g' = schema_ g ∧
    GatherRow g' slot (zlen row) = Some row ∧
    (forall slot' n, 0 <= slot' < kRows -> slot' <> slot -> GatherRow g' slot' n = GatherRow g slot' n).
Proof.
  intros Hg Hs [(fields & -> & Hl & Hfits)|Href].
  - right. destruct (scatter_fits g slot fields Hg Hs Hl Hfits) as (g' & E & Hg' & Hsh & _ & Hshows & Hother).
    assert (schema_ g' = schema_ g) as Es by (by injection Hsh). exists g'. split_and!; try done.
    + unfold GatherRow. rewrite Es, <- Hl. apply (gather_shows g' slot fields _ 0 []); [done|rewrite zlen_nil; lia].
    + intros slot' n Hs' Hne. destruct (Hother slot' Hne Hs') as [_ Hsame]. by apply GatherRow_same.
  - left. unfold ScatterRow. destruct (_ <? _)%nat; [done|]. destruct (ParseRow row (field_count (schema_ g))) as [refs|] eqn:Ep; [|done].
    destruct (Nat.eqb_spec (length refs) (field_count (schema_ g))) as [Hl|]; [|done]. cbn [negb]. by rewrite (Href refs Ep Hl).
Qed.

Section tables.
Context (sizeof_Entry : Z).

Record Table := mkTable { buffers : gmap Z RowBuffer; pax_store_ : PaxStore; version_store : VersionStore }.

Definition buffer_of (t : Table) (id : Z) : RowBuffer := default InitPaxBlank (buffers t !! id).

(** The install of [v] (nothing for a deletion) into a row, in a commit epoch. *)
Definition put (t : Table) (id : Z) (v : option bytestring) (epoch : Z) : option Table :=
  '(b, st, vs) ← Reset sizeof_Entry epoch (pax_store_ t) (version_store t) (buffer_of t id) v;
  Some (mkTable (<[id := b]> (buffers t)) st vs).

Fixpoint puts (t : Table) (ops : list (Z * option bytestring * Z)) : option Table :=
  match ops with
  | [] => Some t
  | (id, v, epoch) :: ops' => t ← put t id v epoch; puts t ops'
  end.

(** What a map would hold. *)
Definition last_put (ops : list (Z * option bytestring * Z)) (rows : gmap Z bytestring) : gmap Z bytestring :=
  fold_left (fun m op => <[op.1.1 := default [] op.1.2]> m) ops rows.

(** What a buffer with a slot holds. *)
Definition slot_holds (st : PaxStore) (g slot size : Z) (row : bytestring) : Prop :=
  0 <= g ∧ 0 <= slot < kRows ∧ g * kRows + slot < next_slot_ st ∧
  ∃ group, dir_ st !! g = Some group ∧ size = zlen row ∧ (size = 0 ∨ GatherRow group slot size = Some row).

Definition buffer_holds (st : PaxStore) (b : RowBuffer) (row : bytestring) : Prop :=
  match b with
  | OnHeap h => DataBuffer.payload h = row
  | InPax None size => size = 0 ∧ row = []
  | InPax (Some (g, slot)) size => slot_holds st g slot size row
  end.

Record store_ok (st : PaxStore) : Prop := mkStoreOk {
  s_schema : schema_ok (store_schema st);
  s_next : 0 <= next_slot_ st;
  s_groups : forall i g, dir_ st !! i = Some g -> group_ok g ∧ schema_ g = store_schema st;
}.

(** No two buffers refer to the same slot. *)
Definition slots_apart (bufs : gmap Z RowBuffer) : Prop :=
  forall i j p n m, bufs !! i = Some (InPax (Some p) n) -> bufs !! j = Some (InPax (Some p) m) -> i = j.

Record table_inv (t : Table) (rows : gmap Z bytestring) : Prop := mkTableInv {
  t_store : store_ok (pax_store_ t);
  t_holds : forall id, buffer_holds (pax_store_ t) (buffer_of t id) (default [] (rows !! id));
  t_apart : slots_apart (buffers t);
}.

Lemma buffer_holds_toString st b row : buffer_holds st b row -> toString st b = Some row.
Proof.
  destruct b as [h|[[g slot]|] size]; simpl.
  - by intros <-.
  - intros (_ & _ & _ & grp & Hg & -> & Hr). destruct (Z.eqb_spec (zlen row) 0) as [E|Hne].
    + destruct row; [done|]. rewrite zlen_cons in E. pose proof (zlen_nonneg row). lia.
    + destruct Hr as [Hr|Hr]; [done|]. simpl. unfold gathered. rewrite Hg. cbn [mbind option_bind]. rewrite Hr. cbn [mbind option_bind].
      rewrite Z.sub_diag. by rewrite app_nil_r.
  - intros [-> ->]. done.
Qed.

(** Capturing a before-image is defined and leaves the store alone. *)
Lemma capture_defined epoch st vs g slot size row : slot_holds st g slot size row ->
  is_Some (CaptureBeforeImageForReadView sizeof_Entry epoch st vs g slot size).
Proof.
  intros H. unfold CaptureBeforeImageForReadView. destruct (negb _); [by eexists|]. destruct (epoch =? 0); [by eexists|].
  destruct (negb (size =? 0)); [|by eexists]. rewrite (buffer_holds_toString st (InPax (Some (g, slot)) size) row H). by eexists.
Qed.

(** A change of one group that leaves its other slots alone keeps every buffer
    that does not refer to the slot. *)
Lemma other_buffers st g slot grp grp' b row : store_ok st -> dir_ st !! g = Some grp ->
  (forall slot' n, 0 <= slot' < kRows -> slot' <> slot -> GatherRow grp' slot' n = GatherRow grp slot' n) ->
  (forall n, b <> InPax (Some (g, slot)) n) -> buffer_holds st b row -> buffer_holds (set_group st g grp') b row.
Proof.
  intros Hst Hg Hsame Hne. destruct b as [h|[[g' slot']|] size]; simpl; [done| |done].
  intros (H1 & H2 & H3 & grp0 & Hg0 & Hsz & Hr). do 3 (split; [done|]). destruct (decide (g' = g)) as [->|].
  - rewrite Hg in Hg0. injection Hg0 as [= <-]. exists grp'. simpl. rewrite lookup_insert_eq. do 2 (split; [done|]).
    destruct Hr as [?|Hr]; [by left|right]. rewrite Hsame; [done..|]. intros ->. by apply (Hne size).
  - exists grp0. simpl. by rewrite lookup_insert_ne.
Qed.

Lemma set_group_ok st g grp grp' : store_ok st -> dir_ st !! g = Some grp -> group_ok grp' -> schema_ grp' = schema_ grp ->
  store_ok (set_group st g grp').
Proof.
  intros [H1 H2 H3] Hg Hok Hs. constructor; simpl; [done..|]. intros i x. rewrite lookup_insert_Some. intros [[<- <-]|[_ Hx]]; [|by eapply H3].
  split; [done|]. rewrite Hs. by destruct (H3 _ _ Hg).
Qed.

Lemma retire_slot st g slot size row : store_ok st -> slot_holds st g slot size row ->
  ∃ st', RetireIn st g slot = Some st' ∧ store_ok st' ∧ store_schema st' = store_schema st ∧ next_slot_ st' = next_slot_ st ∧
    slot_holds st' g slot 0 [] ∧
    (forall b row', (forall n, b <> InPax (Some (g, slot)) n) -> buffer_holds st b row' -> buffer_holds st' b row').
Proof.
  intros Hst (H1 & H2 & H3 & grp & Hg & _). destruct (s_groups st Hst g grp Hg) as [Hok _].
  destruct (RetireSlot_spec grp slot Hok H2) as (v & Ev & Hok' & _). unfold RetireIn. rewrite Hg. cbn [mbind option_bind]. rewrite Ev.
  cbn [mbind option_bind]. eexists. split; [done|]. split; [by eapply set_group_ok|]. split; [done|]. split; [done|]. split.
  - do 3 (split; [done|]). eexists. simpl. rewrite lookup_insert_eq. split; [done|]. split; [done|]. by left.
  - intros b row' Hne. apply (other_buffers st g slot grp); [done|done| |done]. intros slot' n Hs' _. by apply GatherRow_same.
Qed.

Lemma scatter_into_spec epoch st vs g slot size old row : store_ok st -> slot_holds st g slot size old -> row <> [] ->
  sendable (store_schema st) row ->
  ∃ b st' vs', scatter_into sizeof_Entry epoch st vs g slot size row = Some (b, st', vs') ∧ store_ok st' ∧
    store_schema st' = store_schema st ∧ next_slot_ st' = next_slot_ st ∧ buffer_holds st' b row ∧
    (forall p n, b = InPax (Some p) n -> p = (g, slot)) ∧
    (forall b' row', (forall n, b' <> InPax (Some (g, slot)) n) -> buffer_holds st b' row' -> buffer_holds st' b' row').
Proof.
  intros Hst Hold Hne Hsend. pose proof Hold as (H1 & H2 & H3 & grp & Hg & _). destruct (s_groups st Hst g grp Hg) as [Hok Hsch].
  destruct (capture_defined epoch st vs g slot size old Hold) as [vs' Evs]. unfold scatter_into. rewrite Evs. cbn [mbind option_bind].
  rewrite Hg. cbn [mbind option_bind]. rewrite <- Hsch in Hsend. destruct (scatter_sendable grp slot row Hok H2 Hsend) as [E|(grp' & E & Hok' & Hs' & Hgather & Hsame)];
    rewrite E; cbn [mbind option_bind].
  - assert (store_ok (RecordHeapFallback (set_group st g grp))) as Hst1 by (apply (set_group_ok st g grp grp) in Hst; try done; by destruct Hst).
    assert (slot_holds (RecordHeapFallback (set_group st g grp)) g slot 0 []) as Hold1.
    { do 3 (split; [done|]). exists grp. simpl. rewrite lookup_insert_eq. split; [done|]. split; [done|]. by left. }
    destruct (retire_slot _ g slot 0 [] Hst1 Hold1) as (st' & -> & Hst' & Hsc & Hnx & _ & Hother). cbn [mbind option_bind].
    eexists _, st', vs'. split; [done|]. split; [done|]. split; [done|]. split; [done|].
    split; [cbn [buffer_holds]; by rewrite payload_Reset|]. split; [done|]. intros b' row' Hb' Hh. apply Hother; [done|].
    pose proof (other_buffers st g slot grp grp b' row' Hst Hg ltac:(done) Hb' Hh) as Hx. by destruct b' as [|[[]|]].
  - eexists _, _, vs'. split; [done|]. split; [by eapply set_group_ok|]. split; [done|]. split; [done|]. split.
    + do 3 (split; [done|]). exists grp'. simpl. rewrite lookup_insert_eq. split; [done|]. split; [done|]. by right.
    + split; [by intros p n [= <- _]|]. intros b' row'. by apply (other_buffers st g slot grp).
Qed.

(** A freshly allocated slot. *)
Lemma allocate_slot st g slot st' : store_ok st -> next_slot_ st < 2 ^ 62 -> AllocateSlot st = (Some (g, slot), st') ->
  store_ok st' ∧ store_schema st' = store_schema st ∧ next_slot_ st' = next_slot_ st + 1 ∧ slot_holds st' g slot 0 [] ∧
  g * kRows + slot = next_slot_ st ∧ (forall b row, buffer_holds st b row -> buffer_holds st' b row).
Proof.
  intros [Hsch Hn Hgs] Hlt. unfold AllocateSlot. rewrite u64_small by (unfold is_u64; lia). destruct (kMaxGroups <=? _); [done|]. intros [= <- <- <-].
  set (idx := next_slot_ st) in *. set (dir := match dir_ st !! _ with None => _ | Some _ => _ end).
  assert (dir_ st ⊆ dir) as Hsub.
  { unfold dir. destruct (dir_ st !! (idx / kRows)) eqn:E; [done|]. by apply insert_subseteq. }
  assert (is_Some (dir !! (idx / kRows))) as [grp Hgrp].
  { unfold dir. destruct (dir_ st !! (idx / kRows)) eqn:E; [by rewrite E|]. rewrite lookup_insert_eq. by eexists. }
  pose proof (Z.div_mod idx kRows) as Hdm. pose proof (Z.mod_pos_bound idx kRows) as Hmod. assert (0 <= idx / kRows) by (apply Z.div_pos; done).
  assert (kRows = 8192) as HR by done. split_and!; try done; simpl.
  - constructor; simpl; [done|lia|]. intros i x. unfold dir. destruct (dir_ st !! (idx / kRows)) eqn:E; [apply Hgs|].
    rewrite lookup_insert_Some. intros [[<- <-]|[_ Hx]]; [|by eapply Hgs]. split; [by apply new_ok|]. unfold PaxGroup.new.
    by destruct (layout (field_max_bytes (store_schema st)) 0) as [[]].
  - do 2 (split; [lia|]). split; [simpl; lia|]. exists grp. split; [done|]. split; [done|]. by left.
  - lia.
  - intros b row. destruct b as [h|[[g' s']|] size]; simpl; [done| |done]. intros (A & B & C & gr & D & E).
    do 2 (split; [done|]). split; [simpl; lia|]. exists gr. split; [|done]. by eapply lookup_weaken.
Qed.

(** Replacing one buffer of a table. *)
Lemma replace_buffer t rows id b st vs row : table_inv t rows -> store_ok st -> buffer_holds st b row ->
  (forall j b', j <> id -> buffers t !! j = Some b' -> (forall p n m, b = InPax (Some p) n -> b' <> InPax (Some p) m) ->
     buffer_holds (pax_store_ t) b' (default [] (rows !! j)) -> buffer_holds st b' (default [] (rows !! j))) ->
  (forall j p n m, j <> id -> b = InPax (Some p) n -> buffers t !! j <> Some (InPax (Some p) m)) ->
  table_inv (mkTable (<[id := b]> (buffers t)) st vs) (<[id := row]> rows).
Proof.
  intros [Hs Hh Ha] Hst Hb Hkeep Hfresh. constructor; simpl; [done| |].
  - intros j. unfold buffer_of. simpl. destruct (decide (j = id)) as [->|Hj]; [by rewrite !lookup_insert_eq|].
    rewrite !lookup_insert_ne by done. specialize (Hh j). unfold buffer_of in Hh. destruct (buffers t !! j) as [b'|] eqn:E; simpl in *; [|done].
    eapply Hkeep; try done. intros p n m Hp Hb'. by apply (Hfresh j p n m Hj Hp); rewrite E, Hb'.
  - intros i j p n m. rewrite !lookup_insert_Some. intros [[<- H1]|[Hi H1]] [[<- H2]|[Hj H2]]; [done| | |by eapply Ha].
    + by destruct (Hfresh j p n m ltac:(done) H1).
    + by destruct (Hfresh i p m n ltac:(done) H2).
Qed.

(** A buffer that holds a row does not refer to a slot not yet allocated. *)
Lemma holds_old_slot st b row g slot n : buffer_holds st b row -> g * kRows + slot = next_slot_ st -> b <> InPax (Some (g, slot)) n.
Proof. intros H E ->. destruct H as (_ & _ & H & _). lia. Qed.

Lemma ResetPax_spec epoch st vs place size old v : store_ok st -> next_slot_ st < 2 ^ 62 -> buffer_holds st (InPax place size) old ->
  (forall row, v = Some row -> row <> [] -> sendable (store_schema st) row) ->
  ∃ b st' vs', ResetPax sizeof_Entry epoch st vs place size v = Some (b, st', vs') ∧ store_ok st' ∧
    store_schema st' = store_schema st ∧ next_slot_ st' <= next_slot_ st + 1 ∧ buffer_holds st' b (default [] v) ∧
    (forall p n, b = InPax (Some p) n -> place = Some p ∨ p.1 * kRows + p.2 = next_slot_ st) ∧
    (forall b' row', (forall p m, place = Some p -> b' <> InPax (Some p) m) -> buffer_holds st b' row' -> buffer_holds st' b' row').
Proof.
  intros Hst Hn Hold Hsend.
  assert (default [] v = [] -> ∃ b st' vs', ResetPax sizeof_Entry epoch st vs place size v = Some (b, st', vs') ∧ store_ok st' ∧
    store_schema st' = store_schema st ∧ next_slot_ st' <= next_slot_ st + 1 ∧ buffer_holds st' b [] ∧
    (forall p n, b = InPax (Some p) n -> place = Some p ∨ p.1 * kRows + p.2 = next_slot_ st) ∧
    (forall b' row', (forall p m, place = Some p -> b' <> InPax (Some p) m) -> buffer_holds st b' row' -> buffer_holds st' b' row')) as Hempty.
  { intros Hv. unfold ResetPax. assert (v = None ∨ v = Some []) as Hv' by (destruct v; simpl in Hv; naive_solver).
    destruct place as [[g slot]|]; [destruct (Z.eqb_spec size 0) as [Hz|Hz]|].
    - eexists _, st, vs. split; [by destruct Hv' as [-> | ->]|]. split_and!; try done; [lia| |by intros p n [= <- _]; left].
      destruct Hold as (A & B & C & grp & D & _). do 3 (split; [done|]). exists grp. split; [done|]. split; [done|]. by left.
    - destruct (capture_defined epoch st vs g slot size old Hold) as [vs' Evs].
      destruct (retire_slot st g slot size old Hst Hold) as (st' & Est & Hst' & Hsc & Hnx & Hh & Hother).
      eexists _, st', vs'. split; [destruct Hv' as [-> | ->]; by rewrite Evs; cbn [mbind option_bind]; rewrite Est|].
      split_and!; try done; [lia|by intros p n [= <- _]; left|]. intros b' row' Hne. apply Hother. intros n. by apply Hne.
    - eexists _, st, vs. split; [by destruct Hv' as [-> | ->]|]. split_and!; try done. lia. }
  destruct v as [[|c row]|]; try (by apply Hempty). clear Hempty. cbn [ResetPax default]. specialize (Hsend (c :: row) eq_refl ltac:(done)).
  destruct place as [[g slot]|].
  - destruct (scatter_into_spec epoch st vs g slot size old (c :: row) Hst Hold ltac:(done) Hsend) as (b & st' & vs' & E & Hst' & Hsc & Hnx & Hb & Hp & Hother).
    exists b, st', vs'. split_and!; try done; [lia|intros p n Hbp; left; by rewrite (Hp p n Hbp)|]. intros b' row' Hne. apply Hother. intros n. by apply Hne.
  - destruct Hold as [-> ->]. destruct (AllocateSlot st) as [[[g slot]|] st1] eqn:Ea.
    + destruct (allocate_slot st g slot st1 Hst Hn Ea) as (Hst1 & Hsc1 & Hnx1 & Hh1 & Hpos & Hkeep). rewrite <- Hsc1 in Hsend.
      destruct (scatter_into_spec epoch st1 vs g slot 0 [] (c :: row) Hst1 Hh1 ltac:(done) Hsend) as (b & st' & vs' & E & Hst' & Hsc & Hnx & Hb & Hp & Hother).
      exists b, st', vs'. split_and!; try done; [congruence|lia|intros p n Hbp; right; by rewrite (Hp p n Hbp)|].
      intros b' row' _ Hb'. apply Hother; [|by apply Hkeep]. intros n. by eapply holds_old_slot.
    + assert (store_ok st1 ∧ store_schema st1 = store_schema st ∧ next_slot_ st1 = next_slot_ st + 1 ∧ dir_ st1 = dir_ st) as (Hst1 & Hsc1 & Hnx1 & Hd1).
      { unfold AllocateSlot in Ea. pose proof Hst as [H1 H2 H3]. rewrite u64_small in Ea by (unfold is_u64; lia).
        destruct (kMaxGroups <=? _); [|done]. injection Ea as [= <-]. split_and!; try done. constructor; simpl; [done|lia|done]. }
      eexists _, (RecordHeapFallback st1), vs. split; [done|]. split; [by destruct Hst1|]. split; [done|]. split; [simpl; lia|].
      split; [cbn [buffer_holds]; by rewrite payload_Reset|]. split; [done|].
      intros b' row' _. destruct b' as [h|[[g s]|] n]; simpl; [done| |done]. intros (A & B & C & grp & D & E).
      do 2 (split; [done|]). split; [simpl; lia|]. exists grp. simpl. by rewrite Hd1.
Qed.

Lemma table_put_inv t rows id v epoch : table_inv t rows -> next_slot_ (pax_store_ t) < 2 ^ 62 ->
  (forall row, v = Some row -> row <> [] -> sendable (store_schema (pax_store_ t)) row) ->
  ∃ t', put t id v epoch = Some t' ∧ table_inv t' (<[id := default [] v]> rows) ∧
    store_schema (pax_store_ t') = store_schema (pax_store_ t) ∧ next_slot_ (pax_store_ t') <= next_slot_ (pax_store_ t) + 1.
Proof.
  intros Ht Hn Hsend. pose proof Ht as [Hs Hh Ha]. specialize (Hh id) as Hid. unfold put, Reset.
  destruct (buffer_of t id) as [h|place size] eqn:Eb.
  { eexists. split; [done|]. split; [|simpl; split; [done|lia]]. apply replace_buffer; try done. cbn [buffer_holds]. by rewrite payload_Reset. }
  assert (forall p j m, place = Some p -> j <> id -> buffers t !! j <> Some (InPax (Some p) m)) as Hapart.
  { intros p j m -> Hj Hbj. apply Hj. unfold buffer_of in Eb. destruct (buffers t !! id) as [b|] eqn:E; simpl in Eb; [|done]. subst b. by eapply Ha. }
  destruct (ResetPax_spec epoch _ (version_store t) place size _ v Hs Hn Hid Hsend) as (b & st & vs & E & Hst & Hsc & Hnx & Hb & Hp & Hkeep).
  rewrite E. eexists. split; [done|]. split; [|done]. apply replace_buffer; try done.
  - intros j b' Hj Hbj _. apply Hkeep. intros p m Hpl ->. by apply (Hapart p j m).
  - intros j [g slot] n m Hj Hbp Hbj. destruct (Hp _ _ Hbp) as [Hpl|Hnew]; [by apply (Hapart (g, slot) j m)|].
    specialize (Hh j). unfold buffer_of in Hh. rewrite Hbj in Hh.
    by apply (holds_old_slot _ _ _ g slot m Hh Hnew).
Qed.

(** A copy of a buffer is an install of its row. *)
Lemma ResetFrom_install epoch st vs tmp b rhs row : buffer_holds st rhs row ->
  (forall h, rhs = OnHeap h -> DataBuffer.value h = None -> DataBuffer.payload h = []) ->
  ResetFrom sizeof_Entry epoch st vs tmp b rhs = Reset sizeof_Entry epoch st vs b (Some row).
Proof.
  assert (Reset sizeof_Entry epoch st vs b (Some []) = Reset sizeof_Entry epoch st vs b None) as Hnil by (by destruct b).
  intros Hr Hnull. destruct rhs as [h|[[g slot]|] size]; simpl in *.
  - subst row. destruct (DataBuffer.value h) eqn:E; [done|]. by rewrite (Hnull h eq_refl E).
  - destruct Hr as (_ & _ & _ & grp & Hg & -> & Hrow). destruct (Z.eqb_spec (zlen row) 0) as [E|Hne].
    { destruct row as [|x row]; [done|]. rewrite zlen_cons in E. pose proof (zlen_nonneg row). lia. }
    destruct Hrow as [|Hrow]; [done|]. rewrite Hg. cbn [mbind option_bind]. rewrite Hrow. cbn [mbind option_bind].
    destruct b as [h|]; [|by rewrite drop_ge, app_nil_r by (rewrite length_take, length_app, length_replicate; unfold zlen; lia)].
    simpl. unfold DataBuffer.Reset. destruct row as [|x row]; [done|]. set (r := x :: row). destruct (_ <? _); simpl.
    + rewrite !drop_ge; [done|unfold zlen; lia|rewrite length_replicate; unfold zlen, r; simpl; lia].
    + unfold zlen. by rewrite Nat2Z.id.
  - destruct Hr as [-> ->]. by rewrite Hnil.
Qed.


End tables.
