(* ===== verification/PaxView.v ===== *)
(** * Columnar read views (src/src/database_impl.h, AcquirePaxReadView;
    src/src/pax/version_store.cpp; src/src/types/data_buffer.hpp)

    A columnar reader arms the capture of before-images, takes the global epoch
    as its cut and waits until the epoch is two past it.  From then on it finds
    the row of a slot as of the cut: the before-image of the oldest entry that
    was published after the cut or, if there is none, the strips themselves.

    The system interleaves any number of committing threads and readers with
    the epoch framework of Epoch.v.  A committer locks its rows one by one,
    leaves the epoch and joins it again, installs each row (a look at the
    capture flag, the capture, the change of the strips, during which they may
    hold anything) and releases its locks.  The theorem: an open view that is
    not poisoned is a snapshot.  A reader is outside the library: it is to read
    the strips and then look for an entry again; [view_row] takes both at one
    moment.

    [installed] records the installs of each slot and [captured] whether an
    install has published its before-image in the current generation; the
    program does not read them. *)

From S2P Require Import Prelude PackedKeys Types DataItem PaxCodec PaxGroup PaxCells PaxBuffer Epoch.
Import EpochFramework.

Abbreviation Slot := (Z * Z)%type.

(** The row of a slot; [None] when the slot has no visible row. *)
Abbreviation Row := (option bytestring).

(** ** Threads *)

Inductive InstallPc : Type :=
  | Locking (held : list Slot)
  | Rejoining (held : list Slot)
  | Installing (epoch : Z) (held : list Slot) (todo : list (Slot * Row))
  | Checked (epoch : Z) (held : list Slot) (slot : Slot) (v : Row) (todo : list (Slot * Row)) (active : bool)
  | Mutating (epoch : Z) (held : list Slot) (slot : Slot) (v : Row) (todo : list (Slot * Row)) (captured : bool).

Inductive ViewPc : Type :=
  | NoView
  | Armed
  | Waiting (cut : Z)
  | Reading (cut : Z).

Record Sys := mkSys {
  epochs : EpochFramework.State;
  versions : VersionStore;
  strips : gmap Slot bytestring;
  installers : list InstallPc;
  views : list ViewPc;
  installed : gmap Slot (list (Z * Row));
}.

Definition held_by (pc : InstallPc) : list Slot :=
  match pc with
  | Locking held | Rejoining held | Installing _ held _ | Checked _ held _ _ _ _ | Mutating _ held _ _ _ _ => held
  end.

(** The epoch of a thread that is installing. *)
Definition install_epoch (pc : InstallPc) : option Z :=
  match pc with
  | Locking _ | Rejoining _ => None
  | Installing e _ _ | Checked e _ _ _ _ _ | Mutating e _ _ _ _ _ => Some e
  end.

(** The generation has ended: what was captured in it is gone. *)
Definition uncapture (pc : InstallPc) : InstallPc :=
  match pc with Mutating e held s v todo _ => Mutating e held s v todo false | _ => pc end.

Definition set_strip (m : gmap Slot bytestring) (s : Slot) (v : Row) : gmap Slot bytestring :=
  match v with Some row => <[s := row]> m | None => delete s m end.

Definition history (sys : Sys) (s : Slot) : list (Z * Row) := default [] (installed sys !! s).

Section system.
Context (sizeof_Entry : Z).

Definition with_installer (sys : Sys) (i : nat) (pc : InstallPc) : Sys :=
  mkSys (epochs sys) (versions sys) (strips sys) (<[i := pc]> (installers sys)) (views sys) (installed sys).
Definition with_view (sys : Sys) (j : nat) (v : ViewPc) : Sys :=
  mkSys (epochs sys) (versions sys) (strips sys) (installers sys) (<[j := v]> (views sys)) (installed sys).
Definition with_versions (sys : Sys) (vs : VersionStore) : Sys :=
  mkSys (epochs sys) vs (strips sys) (installers sys) (views sys) (installed sys).
Definition with_strips (sys : Sys) (m : gmap Slot bytestring) : Sys :=
  mkSys (epochs sys) (versions sys) m (installers sys) (views sys) (installed sys).
Definition with_epochs (sys : Sys) (e : EpochFramework.State) : Sys :=
  mkSys e (versions sys) (strips sys) (installers sys) (views sys) (installed sys).
Definition record_install (sys : Sys) (s : Slot) (e : Z) (v : Row) : Sys :=
  mkSys (epochs sys) (versions sys) (strips sys) (installers sys) (views sys)
    (<[s := history sys s ++ [(e, v)]]> (installed sys)).

(** [EndCapture], which clears the generation with the last view. *)
Definition end_view (sys : Sys) (j : nat) : Sys :=
  let vs := VersionStore.EndCapture (versions sys) in
  mkSys (epochs sys) vs (strips sys)
    (if capture_active_ vs =? 0 then map uncapture (installers sys) else installers sys)
    (<[j := NoView]> (views sys)) (installed sys).

(** The before-image that [CaptureBeforeImageForReadView] publishes. *)
Definition capture (sys : Sys) (s : Slot) (e : Z) : VersionStore :=
  let old := strips sys !! s in
  VersionStore.Capture sizeof_Entry (versions sys) s.1 s.2 e (bool_decide (is_Some old)) (default [] old).

Inductive step (sys : Sys) : Sys -> Prop :=
  (** The epoch framework; an installing thread stays online. *)
  | step_epochs e' :
      EpochFramework.step (epochs sys) e' ->
      (forall i pc e, installers sys !! i = Some pc -> install_epoch pc = Some e -> pcs e' !! i = Some (Online e)) ->
      step sys (with_epochs sys e')
  (** Commits. *)
  | step_lock i held s :
      installers sys !! i = Some (Locking held) ->
      (forall j pc, installers sys !! j = Some pc -> s ∉ held_by pc) ->
      step sys (with_installer sys i (Locking (s :: held)))
  | step_leave i held :
      installers sys !! i = Some (Locking held) -> pcs (epochs sys) !! i = Some Offline ->
      step sys (with_installer sys i (Rejoining held))
  | step_abort i pc :
      installers sys !! i = Some pc -> install_epoch pc = None -> step sys (with_installer sys i (Locking []))
  | step_begin i held e todo :
      installers sys !! i = Some (Rejoining held) -> pcs (epochs sys) !! i = Some (Online e) ->
      (forall sv, sv ∈ todo -> sv.1 ∈ held) ->
      step sys (with_installer sys i (Installing e held todo))
  | step_check i e held s v todo :
      installers sys !! i = Some (Installing e held ((s, v) :: todo)) ->
      step sys (with_installer sys i (Checked e held s v todo (VersionStore.CaptureActive (versions sys))))
  | step_skip i e held s v todo :
      installers sys !! i = Some (Checked e held s v todo false) ->
      step sys (with_installer sys i (Mutating e held s v todo false))
  | step_capture i e held s v todo :
      installers sys !! i = Some (Checked e held s v todo true) ->
      step sys (with_installer (with_versions sys (capture sys s e)) i
                  (Mutating e held s v todo (negb (capture_active_ (versions sys) =? 0))))
  | step_tear i e held s v todo captured torn :
      installers sys !! i = Some (Mutating e held s v todo captured) ->
      step sys (with_strips sys (set_strip (strips sys) s torn))
  | step_finish i e held s v todo captured :
      installers sys !! i = Some (Mutating e held s v todo captured) ->
      step sys (with_installer (record_install (with_strips sys (set_strip (strips sys) s v)) s e v) i
                  (Installing e held todo))
  | step_release i e held :
      installers sys !! i = Some (Installing e held []) -> step sys (with_installer sys i (Locking []))
  (** [AcquirePaxReadView] and [ReleasePaxReadView]. *)
  | step_arm j id vs :
      views sys !! j = Some NoView -> VersionStore.BeginCapture (versions sys) = (Some id, vs) ->
      step sys (with_view (with_versions sys vs) j Armed)
  | step_cut j :
      views sys !! j = Some Armed -> global_epoch_ (epochs sys) < kEpochHighWater - 2 ->
      step sys (with_view sys j (Waiting (global_epoch_ (epochs sys))))
  | step_refuse j :
      views sys !! j = Some Armed -> kEpochHighWater - 2 <= global_epoch_ (epochs sys) -> step sys (end_view sys j)
  | step_fence j cut :
      views sys !! j = Some (Waiting cut) -> cut + 2 <= global_epoch_ (epochs sys) ->
      VersionStore.Poisoned (versions sys) = false -> step sys (with_view sys j (Reading cut))
  | step_fail j cut :
      views sys !! j = Some (Waiting cut) -> step sys (end_view sys j)
  | step_close j cut :
      views sys !! j = Some (Reading cut) -> step sys (end_view sys j).

Definition start (threads readers : nat) (rows : gmap Slot bytestring) (budget : Z) : Sys :=
  mkSys (EpochFramework.init threads) (VersionStore.new budget) rows (replicate threads (Locking []))
    (replicate readers NoView) ∅.

End system.

(** ** What a view reads *)

(** The row a history leaves, as of a cut. *)
Definition row_after (initial : Row) (h : list (Z * Row)) : Row := default initial (snd <$> last h).
Definition row_at (initial : Row) (h : list (Z * Row)) (cut : Z) : Row :=
  row_after initial (List.filter (fun ev => negb (EpochAfterCut ev.1 cut)) h).

Definition image (u : UndoEntry) : Row := if was_visible u then Some (old_row u) else None.

(** The oldest entry published after the cut. *)
Definition resolve (us : list UndoEntry) (cut : Z) : option UndoEntry :=
  List.find (fun u => EpochAfterCut (writer_epoch u) cut) us.

(** A view that is too old is refused like a poisoned one. *)
Definition kPaxReadViewEpochLifetime : Z := Z.shiftl 1 19.
Definition PaxReadViewPoisoned (sys : Sys) (cut : Z) : bool :=
  if kPaxReadViewEpochLifetime <=? u32 (global_epoch_ (epochs sys) - cut) then true
  else VersionStore.Poisoned (versions sys).

Definition entries_at (sys : Sys) (s : Slot) : list UndoEntry := VersionStore.EntriesFor (versions sys) s.1 s.2.

Definition mutating (sys : Sys) (s : Slot) : Prop :=
  ∃ i e held v todo captured, installers sys !! i = Some (Mutating e held s v todo captured).

(** ** Chains of before-images *)

Definition undo_of (e : Z) (v : Row) : UndoEntry := mkUndo e (bool_decide (is_Some v)) (default [] v).

Lemma image_undo_of e v : image (undo_of e v) = v.
Proof. by destruct v. Qed.

(** The entries of a slot: from the row [v] on, one for each install of [h] and
    one for an install that is still changing the strips. *)
Fixpoint chain (v : Row) (h : list (Z * Row)) (pending : option Z) (us : list UndoEntry) : Prop :=
  match h with
  | [] => us = match pending with None => [] | Some e => [undo_of e v] end
  | (e, v') :: h' => match us with [] => False | u :: us' => u = undo_of e v ∧ chain v' h' pending us' end
  end.

Lemma row_after_cons v e v' h : row_after v ((e, v') :: h) = row_after v' h.
Proof. unfold row_after. destruct h as [|x h]; [done|]. rewrite last_cons_cons. by destruct (last (x :: h)) eqn:E; [|apply last_None in E]. Qed.

Lemma row_after_app v h k : row_after v (h ++ k) = row_after (row_after v h) k.
Proof.
  revert v. induction h as [|[e v'] h IH]; intros v; [done|]. rewrite <- app_comm_cons, !row_after_cons. apply IH.
Qed.

Lemma chain_capture v h us e : chain v h None us -> chain v h (Some e) (us ++ [undo_of e (row_after v h)]).
Proof.
  revert v us. induction h as [|[e' v'] h IH]; intros v us; simpl.
  - by intros ->.
  - destruct us as [|u us]; [done|]. intros [-> H]. simpl. split; [done|]. rewrite row_after_cons. by apply IH.
Qed.

Lemma chain_finish v h us e v' : chain v h (Some e) us -> chain v (h ++ [(e, v')]) None us.
Proof.
  revert v us. induction h as [|[e' w] h IH]; intros v us; simpl.
  - intros ->. done.
  - destruct us as [|u us]; [done|]. intros [-> H]. split; [done|]. by apply IH.
Qed.

Lemma chain_nil v h p : chain v h p [] -> h = [] ∧ p = None.
Proof. destruct h as [|[]]; simpl; [|done]. destruct p; [done|]. done. Qed.

Lemma row_at_later v h cut : Forall (fun ev => cut < ev.1) h -> row_at v h cut = v.
Proof.
  intros H. unfold row_at. assert (List.filter (fun ev => negb (EpochAfterCut ev.1 cut)) h = []) as ->; [|done].
  induction H as [|[e w] h He _ IH]; [done|]. simpl in *. unfold EpochAfterCut at 1. by destruct (Z.ltb_spec cut e); [|lia].
Qed.

Lemma row_at_cons_old v e v' h cut : e <= cut -> row_at v ((e, v') :: h) cut = row_at v' h cut.
Proof.
  intros He. unfold row_at. simpl. unfold EpochAfterCut at 1. destruct (Z.ltb_spec cut e); [lia|]. simpl. apply row_after_cons.
Qed.

Lemma row_at_app_old v h k cut : Forall (fun ev => ev.1 <= cut) h -> row_at v (h ++ k) cut = row_at (row_after v h) k cut.
Proof.
  intros H. revert v. induction H as [|[e w] h He _ IH]; intros v; [done|]. rewrite <- app_comm_cons, row_at_cons_old by done.
  by rewrite row_after_cons, IH.
Qed.

(** Resolving a slot of an ordered chain at a cut. *)
Lemma chain_resolve v h p us cut : chain v h p us -> StronglySorted Z.le (map fst h) ->
  (forall e ev, p = Some e -> ev ∈ h -> ev.1 <= e) ->
  match resolve us cut with
  | Some u => image u = row_at v h cut
  | None => row_after v h = row_at v h cut ∧ forall e, p = Some e -> e <= cut
  end.
Proof.
  revert v us. induction h as [|[e v'] h IH]; intros v us; simpl.
  - intros -> _ _. destruct p as [e|]; [|done]. simpl. unfold EpochAfterCut. destruct (Z.ltb_spec cut e); [apply image_undo_of|].
    split; [done|]. intros ? [= <-]. done.
  - destruct us as [|u us]; [done|]. intros [-> Hc] Hs Hp. apply StronglySorted_inv in Hs as [Hs He]. simpl.
    unfold EpochAfterCut at 1. destruct (Z.ltb_spec cut e).
    + rewrite image_undo_of. symmetry. apply row_at_later. constructor; [done|]. rewrite Forall_forall in He. apply Forall_forall.
      intros ev Hev. specialize (He ev.1). simpl in *. apply (list_elem_of_fmap_2 fst) in Hev. specialize (He Hev). lia.
    + rewrite row_at_cons_old, row_after_cons by done. apply IH; [done..|]. intros e' ev Hpe Hev. apply (Hp e' ev Hpe). by right.
Qed.

(** ** The epoch framework *)

Definition joined_past (E : EpochFramework.State) (i : nat) (x : Z) : Prop :=
  match pcs E !! i with
  | Some (Storing p) | Some (Reloading p) | Some (Online p) => x <= p
  | _ => True
  end.

Lemma set_thread_pcs E i slot pc k : pcs (set_thread E i slot pc) !! k =
  if decide (k = i) then (if decide (k < length (pcs E))%nat then Some pc else None) else pcs E !! k.
Proof.
  simpl. destruct (decide (k = i)) as [->|]; [|by rewrite list_lookup_insert_ne].
  destruct (decide _); [by rewrite list_lookup_insert_eq|]. rewrite lookup_ge_None. rewrite length_insert. lia.
Qed.

Lemma joined_past_step E E' i x : EpochFramework.step E E' -> x <= global_epoch_ E -> joined_past E i x -> joined_past E' i x.
Proof.
  intros Hstep Hx. destruct Hstep as [s k Hi|s k p Hi|s k p Hi|s k e Hi|s|s|s Ha]; unfold joined_past.
  1-4: rewrite set_thread_pcs; destruct (decide (i = k)) as [->|]; [|done]; destruct (decide _); [|done]; rewrite Hi.
  - done.
  - done.
  - unfold Reload. destruct (Z.eqb_spec (global_epoch_ s) p); simpl; intros; lia.
  - done.
  - unfold RequestEpochAdvance. by destruct (_ <=? _).
  - done.
  - unfold writer_step. by destruct (writer s).
Qed.

(** ** The invariant *)

(** The slots a thread will still change, and the slot it changes now, with
    the epoch of the install when its before-image was captured or missed. *)
Definition targets (pc : InstallPc) : list Slot :=
  match pc with
  | Locking _ | Rejoining _ => []
  | Installing _ _ todo => map fst todo
  | Checked _ _ s _ todo _ | Mutating _ _ s _ todo _ => s :: map fst todo
  end.
Definition mutated (pc : InstallPc) : option Slot :=
  match pc with Mutating _ _ s _ _ _ => Some s | _ => None end.
Definition captured_at (pc : InstallPc) : option (Z * Slot) :=
  match pc with Mutating e _ s _ _ true => Some (e, s) | _ => None end.
Definition missed_at (pc : InstallPc) : option (Z * Slot) :=
  match pc with Checked e _ s _ _ false | Mutating e _ s _ _ false => Some (e, s) | _ => None end.

Definition cut_of (v : ViewPc) : option Z :=
  match v with NoView | Armed => None | Waiting cut | Reading cut => Some cut end.
Definition is_view (v : ViewPc) : bool := match v with NoView => false | _ => true end.
Definition open_views (vs : list ViewPc) : Z := zlen (List.filter is_view vs).

(** A thread that holds a slot installs in an epoch no smaller than those of
    the installs before it. *)
Definition order_ok (sys : Sys) (i : nat) (pc : InstallPc) (x : Z) : Prop :=
  match pc with
  | Locking _ => True
  | Rejoining _ => joined_past (epochs sys) i x
  | Installing e _ _ | Checked e _ _ _ _ _ | Mutating e _ _ _ _ _ => x <= e
  end.

Definition pending_is (pcs : list InstallPc) (s : Slot) (p : option Z) : Prop :=
  forall e, p = Some e <-> ∃ i pc, pcs !! i = Some pc ∧ captured_at pc = Some (e, s).

Definition cuts_above (views : list ViewPc) (x : Z) : Prop := forall j v cut, views !! j = Some v -> cut_of v = Some cut -> x <= cut.

Definition slot_chained (sys : Sys) (initial : Row) (s : Slot) : Prop :=
  ∃ h0 h1 p, history sys s = h0 ++ h1 ∧ pending_is (installers sys) s p ∧
    chain (row_after initial h0) h1 p (entries_at sys s) ∧ Forall (fun ev => cuts_above (views sys) ev.1) h0.

(** Locks, epochs and histories. *)
Record install_inv (initial : Slot -> Row) (sys : Sys) : Prop := mkInstallInv {
  ii_epochs : epoch_inv (epochs sys);
  ii_online : forall i pc e, installers sys !! i = Some pc -> install_epoch pc = Some e -> pcs (epochs sys) !! i = Some (Online e);
  ii_apart : forall i j pc pc' s, installers sys !! i = Some pc -> installers sys !! j = Some pc' ->
    s ∈ held_by pc -> s ∈ held_by pc' -> i = j;
  ii_targets : forall i pc s, installers sys !! i = Some pc -> s ∈ targets pc -> s ∈ held_by pc;
  ii_sorted : forall s, StronglySorted Z.le (map fst (history sys s));
  ii_past : forall s ev, ev ∈ history sys s -> ev.1 <= global_epoch_ (epochs sys);
  ii_order : forall i pc s ev, installers sys !! i = Some pc -> s ∈ held_by pc -> ev ∈ history sys s -> order_ok sys i pc ev.1;
  ii_strips : forall s, (forall i pc, installers sys !! i = Some pc -> mutated pc <> Some s) ->
    strips sys !! s = row_after (initial s) (history sys s);
}.

(** Views and captures. *)
Record view_inv (initial : Slot -> Row) (sys : Sys) : Prop := mkViewInv {
  vi_active : capture_active_ (versions sys) = open_views (views sys) ∧ zlen (views sys) < 2 ^ 63;
  vi_idle : capture_active_ (versions sys) = 0 ->
    (forall s, entries_at sys s = []) ∧ forall i pc, installers sys !! i = Some pc -> captured_at pc = None;
  vi_chained : capture_active_ (versions sys) <> 0 -> poisoned_ (versions sys) = false -> forall s, slot_chained sys (initial s) s;
  vi_missed : forall i pc e s, poisoned_ (versions sys) = false -> installers sys !! i = Some pc -> missed_at pc = Some (e, s) ->
    entries_at sys s = [] ∧ cuts_above (views sys) e;
  vi_waiting : forall j cut, views sys !! j = Some (Waiting cut) -> cut <= global_epoch_ (epochs sys);
  vi_reading : forall j cut, views sys !! j = Some (Reading cut) -> cut + 2 <= global_epoch_ (epochs sys);
}.

Definition inv (initial : Slot -> Row) (sys : Sys) : Prop := install_inv initial sys ∧ view_inv initial sys.

Lemma mutating_iff sys s : mutating sys s <-> ∃ i pc, installers sys !! i = Some pc ∧ mutated pc = Some s.
Proof.
  split.
  - intros (i & e & held & v & todo & c & Hi). by eexists i, _.
  - intros (i & pc & Hi & Hm). destruct pc; try done. injection Hm as ->. by repeat eexists.
Qed.

Lemma mutated_target pc s : mutated pc = Some s -> s ∈ targets pc.
Proof. destruct pc; try done. intros [= ->]. by left. Qed.
Lemma captured_mutated pc e s : captured_at pc = Some (e, s) -> mutated pc = Some s ∧ install_epoch pc = Some e.
Proof. destruct pc as [| | | |? ? ? ? ? []]; try done. by intros [= -> ->]. Qed.
Lemma missed_target pc e s : missed_at pc = Some (e, s) -> s ∈ targets pc ∧ install_epoch pc = Some e.
Proof. destruct pc as [| | |? ? ? ? ? []|? ? ? ? ? []]; try done; intros [= -> ->]; (split; [by left|done]). Qed.

(** An installing thread is at most one epoch behind. *)
Lemma installing_epoch initial sys i pc e : install_inv initial sys -> installers sys !! i = Some pc -> install_epoch pc = Some e ->
  e <= global_epoch_ (epochs sys) <= e + 1.
Proof.
  intros HI Hi He. pose proof (ii_online _ _ HI _ _ _ Hi He) as Hon. destruct (ii_epochs _ _ HI) as (_ & _ & Hth & _).
  specialize (Hth _ _ Hon). destruct Hth as (_ & ? & [|[]]); lia.
Qed.

(** A slot is changed by its holder only. *)
Lemma one_target initial sys i j pc pc' s : install_inv initial sys -> installers sys !! i = Some pc -> installers sys !! j = Some pc' ->
  s ∈ targets pc -> s ∈ targets pc' -> i = j.
Proof. intros HI Hi Hj H1%(ii_targets _ _ HI _ _ _ Hi) H2%(ii_targets _ _ HI _ _ _ Hj). exact (ii_apart _ _ HI _ _ _ _ _ Hi Hj H1 H2). Qed.

(** ** Steps of one thread *)

Lemma change_pc initial sys i pc pc' : install_inv initial sys -> installers sys !! i = Some pc ->
  (forall e, install_epoch pc' = Some e -> pcs (epochs sys) !! i = Some (Online e)) ->
  (forall s, s ∈ held_by pc' -> s ∈ held_by pc ∨ forall j q, installers sys !! j = Some q -> s ∉ held_by q) ->
  (forall s, s ∈ targets pc' -> s ∈ held_by pc') ->
  (forall s ev, s ∈ held_by pc' -> ev ∈ history sys s -> order_ok sys i pc' ev.1) ->
  mutated pc = None ∨ mutated pc' = mutated pc ->
  install_inv initial (with_installer sys i pc').
Proof.
  intros [He Hon Hap Ht Hso Hpa Hor Hst] Hi Hon' Hheld Ht' Hor' Hm. constructor; simpl; try done.
  - intros j q e [(<- & <- & _)|(Hne & Hj)]%list_lookup_insert_Some; eauto.
  - intros j k q q' s [(<- & <- & _)|(Hne & Hj)]%list_lookup_insert_Some [(<- & <- & _)|(Hne' & Hk)]%list_lookup_insert_Some H1 H2; eauto.
    + destruct (Hheld s H1) as [H|H]; [by eapply Hap|]. by destruct (H _ _ Hk).
    + destruct (Hheld s H2) as [H|H]; [by eapply Hap|]. by destruct (H _ _ Hj).
  - intros j q s [(<- & <- & _)|(Hne & Hj)]%list_lookup_insert_Some; eauto.
  - intros j q s ev [(<- & <- & _)|(Hne & Hj)]%list_lookup_insert_Some Hs Hev; [by eapply Hor'|]. by apply (Hor j q s ev).
  - intros s Hno. apply Hst. intros j q Hj Hq. destruct (decide (i = j)) as [<-|Hne].
    + assert (q = pc) as -> by congruence. destruct Hm as [Hm|Hm]; [congruence|]. apply (Hno i pc'); [|congruence].
      apply list_lookup_insert_eq. by eapply lookup_lt_Some.
    + apply (Hno j q); [|done]. by rewrite list_lookup_insert_ne.
Qed.

Lemma change_pc_view initial sys i pc pc' : view_inv initial sys -> installers sys !! i = Some pc ->
  captured_at pc' = captured_at pc ->
  (forall e s, missed_at pc' = Some (e, s) -> poisoned_ (versions sys) = false -> entries_at sys s = [] ∧ cuts_above (views sys) e) ->
  view_inv initial (with_installer sys i pc').
Proof.
  intros [Hac Hid Hch Hmi Hwa Hre] Hi Hcap Hmiss. constructor; try done.
  - intros H0. destruct (Hid H0) as [He Hc]. split; [done|].
    intros j q [(<- & <- & _)|(Hne & Hj)]%list_lookup_insert_Some; [rewrite Hcap|]; eauto.
  - intros H0 Hp s. destruct (Hch H0 Hp s) as (h0 & h1 & p & Hh & Hpe & H). exists h0, h1, p. split; [done|]. split; [|done].
    intros e. rewrite (Hpe e). simpl. split.
    + intros (j & q & Hj & Hq). destruct (decide (i = j)) as [<-|Hne].
      * exists i, pc'. split; [apply list_lookup_insert_eq; by eapply lookup_lt_Some|]. congruence.
      * exists j, q. by rewrite list_lookup_insert_ne.
    + intros (j & q & [(<- & <- & _)|(Hne & Hj)]%list_lookup_insert_Some & Hq); [|eauto]. exists i, pc. split; congruence.
  - intros j q e s Hp [(<- & <- & _)|(Hne & Hj)]%list_lookup_insert_Some Hq; eauto.
Qed.

Lemma change_pc_inv initial sys i pc pc' : inv initial sys -> installers sys !! i = Some pc ->
  (forall e, install_epoch pc' = Some e -> pcs (epochs sys) !! i = Some (Online e)) ->
  (forall s, s ∈ held_by pc' -> s ∈ held_by pc ∨ forall j q, installers sys !! j = Some q -> s ∉ held_by q) ->
  (forall s, s ∈ targets pc' -> s ∈ held_by pc') ->
  (forall s ev, s ∈ held_by pc' -> ev ∈ history sys s -> order_ok sys i pc' ev.1) ->
  mutated pc = None ∨ mutated pc' = mutated pc ->
  captured_at pc' = captured_at pc ->
  (forall e s, missed_at pc' = Some (e, s) -> poisoned_ (versions sys) = false -> entries_at sys s = [] ∧ cuts_above (views sys) e) ->
  inv initial (with_installer sys i pc').
Proof. intros [HI HV] **. split; [by eapply change_pc|by eapply change_pc_view]. Qed.

Lemma open_views_inactive vs j v : open_views vs = 0 -> vs !! j = Some v -> v = NoView.
Proof.
  intros H0 Hj. destruct (is_view v) eqn:Ev; [|by destruct v]. exfalso. unfold open_views in H0.
  destruct (List.filter is_view vs) eqn:E; [|zl]. assert (v ∈ List.filter is_view vs) as Hin.
  { apply list_elem_of_In, filter_In. split; [|done]. apply list_elem_of_In. by eapply list_elem_of_lookup_2. }
  rewrite E in Hin. by apply not_elem_of_nil in Hin.
Qed.

Lemma inactive_cuts vs x : open_views vs = 0 -> cuts_above vs x.
Proof. intros H0 j v cut Hj Hc. apply (open_views_inactive _ _ _ H0) in Hj as ->. done. Qed.

(** The state when the install of a row is complete. *)
Abbreviation finished sys i e held s v todo :=
  (with_installer (record_install (with_strips sys (set_strip (strips sys) s v)) s e v) i (Installing e held todo)).

Section preservation.
Context (sizeof_Entry : Z) (initial : Slot -> Row).

Lemma view_lock_inv sys i held s : inv initial sys -> installers sys !! i = Some (Locking held) ->
  (forall j pc, installers sys !! j = Some pc -> s ∉ held_by pc) -> inv initial (with_installer sys i (Locking (s :: held))).
Proof.
  intros H Hi Hfree. eapply (change_pc_inv _ _ _ _ _ H Hi); simpl; try done; [|set_solver|by left].
  intros s' [->|]%elem_of_cons; auto.
Qed.

Lemma view_leave_inv sys i held : inv initial sys -> installers sys !! i = Some (Locking held) -> pcs (epochs sys) !! i = Some Offline ->
  inv initial (with_installer sys i (Rejoining held)).
Proof.
  intros H Hi Hoff. eapply (change_pc_inv _ _ _ _ _ H Hi); simpl; try done; [by auto|set_solver| |by left].
  intros s ev _ _. unfold joined_past. by rewrite Hoff.
Qed.

Lemma unlock_inv sys i pc : inv initial sys -> installers sys !! i = Some pc -> mutated pc = None ->
  inv initial (with_installer sys i (Locking [])).
Proof.
  intros H Hi Hm. eapply (change_pc_inv _ _ _ _ _ H Hi); simpl; try done; [set_solver..|by left|]. by destruct pc.
Qed.

Lemma begin_inv sys i held e todo : inv initial sys -> installers sys !! i = Some (Rejoining held) ->
  pcs (epochs sys) !! i = Some (Online e) -> (forall sv, sv ∈ todo -> sv.1 ∈ held) ->
  inv initial (with_installer sys i (Installing e held todo)).
Proof.
  intros H Hi Hon Htodo. eapply (change_pc_inv _ _ _ _ _ H Hi); simpl; try done; [by intros ? [= ->]|by auto| | |by left].
  - intros s (sv & -> & Hsv)%list_elem_of_fmap. auto.
  - intros s ev Hs Hev. pose proof (ii_order _ _ (proj1 H) _ _ _ _ Hi Hs Hev) as Ho. simpl in Ho. unfold joined_past in Ho. by rewrite Hon in Ho.
Qed.

Lemma check_inv sys i e held s v todo : inv initial sys -> installers sys !! i = Some (Installing e held ((s, v) :: todo)) ->
  inv initial (with_installer sys i (Checked e held s v todo (VersionStore.CaptureActive (versions sys)))).
Proof.
  intros H Hi. pose proof H as [HI HV].
  eapply (change_pc_inv _ _ _ _ _ H Hi); simpl; try done; [|by auto| | |by left|].
  - intros e' [= <-]. by apply (ii_online _ _ HI _ _ _ Hi).
  - intros s' Hs'. apply (ii_targets _ _ HI _ _ _ Hi). done.
  - intros s' ev Hs' Hev. apply (ii_order _ _ HI _ _ _ _ Hi Hs' Hev).
  - unfold VersionStore.CaptureActive. destruct (Z.ltb_spec 0 (capture_active_ (versions sys))) as [|Hz]; [done|].
    destruct (vi_active _ _ HV) as [Hac _]. assert (capture_active_ (versions sys) = 0) as Hz' by (unfold open_views in Hac; zl).
    intros e' s' [= <- <-] _. split; [by apply (vi_idle _ _ HV)|]. apply inactive_cuts. lia.
Qed.

Lemma skip_inv sys i e held s v todo : inv initial sys -> installers sys !! i = Some (Checked e held s v todo false) ->
  inv initial (with_installer sys i (Mutating e held s v todo false)).
Proof.
  intros H Hi. pose proof H as [HI HV].
  eapply (change_pc_inv _ _ _ _ _ H Hi); simpl; try done; [|by auto| | |by left|].
  - intros e' [= <-]. by apply (ii_online _ _ HI _ _ _ Hi).
  - intros s' Hs'. apply (ii_targets _ _ HI _ _ _ Hi). done.
  - intros s' ev Hs' Hev. apply (ii_order _ _ HI _ _ _ _ Hi Hs' Hev).
  - intros e' s' [= <- <-] Hp. by apply (vi_missed _ _ HV i _ e s Hp Hi).
Qed.

Lemma epochs_inv sys e' : inv initial sys -> EpochFramework.step (epochs sys) e' ->
  (forall i pc e, installers sys !! i = Some pc -> install_epoch pc = Some e -> pcs e' !! i = Some (Online e)) ->
  inv initial (with_epochs sys e').
Proof.
  intros [[He Hon Hap Ht Hso Hpa Hor Hst] [Hac Hid Hch Hmi Hwa Hre]] Hstep Hon'. pose proof (epoch_step_mono _ _ Hstep He) as Hm.
  split; constructor; simpl; try done.
  - by eapply epoch_step_inv.
  - intros s ev Hev. specialize (Hpa _ _ Hev). lia.
  - intros i pc s ev Hi Hs Hev. specialize (Hor _ _ _ _ Hi Hs Hev). destruct pc; try done.
    by apply (joined_past_step _ _ _ _ Hstep (Hpa _ _ Hev)).
  - intros j cut Hj. specialize (Hwa _ _ Hj). lia.
  - intros j cut Hj. specialize (Hre _ _ Hj). lia.
Qed.

(** *** The change of a row *)

Lemma set_strip_lookup m s v t : set_strip m s v !! t = if decide (t = s) then v else m !! t.
Proof. destruct v; simpl; destruct (decide (t = s)) as [->|]; by simplify_map_eq. Qed.

Lemma tear_inv sys i e held s v todo captured torn : inv initial sys ->
  installers sys !! i = Some (Mutating e held s v todo captured) -> inv initial (with_strips sys (set_strip (strips sys) s torn)).
Proof.
  intros [[He Hon Hap Ht Hso Hpa Hor Hst] [Hac Hid Hch Hmi Hwa Hre]] Hi. split; constructor; try done. simpl.
  intros t Hno. rewrite set_strip_lookup. destruct (decide (t = s)) as [->|]; [|by apply Hst]. by destruct (Hno _ _ Hi).
Qed.

Lemma StronglySorted_snoc (l : list Z) x : StronglySorted Z.le l -> Forall (fun y => y <= x) l -> StronglySorted Z.le (l ++ [x]).
Proof.
  induction 1 as [|y l Hl IH Hy]; intros Hx; simpl; [repeat constructor|]. apply Forall_cons in Hx as [Hyx Hx].
  constructor; [by apply IH|]. apply Forall_app. split; [done|]. by repeat constructor.
Qed.

Lemma history_finished sys i e held s v todo t :
  history (finished sys i e held s v todo) t = history sys t ++ (if decide (t = s) then [(e, v)] else []).
Proof.
  unfold history. simpl. destruct (decide (t = s)) as [->|]; [by rewrite lookup_insert_eq|].
  rewrite lookup_insert_ne by done. by rewrite app_nil_r.
Qed.

Lemma StronglySorted_suffix (l k : list Z) : StronglySorted Z.le (l ++ k) -> StronglySorted Z.le k.
Proof. induction l as [|x l IH]; [done|]. simpl. intros [H _]%StronglySorted_inv. auto. Qed.

Lemma finish_install sys i e held s v todo captured : install_inv initial sys ->
  installers sys !! i = Some (Mutating e held s v todo captured) -> install_inv initial (finished sys i e held s v todo).
Proof.
  intros HI Hi. pose proof HI as [He Hon Hap Ht Hso Hpa Hor Hst].
  assert (s ∈ held) as Hs by (apply (Ht _ _ _ Hi); by left).
  assert (forall ev, ev ∈ history sys s -> ev.1 <= e) as Hpast by (intros ev Hev; exact (Hor _ _ _ _ Hi Hs Hev)).
  constructor; try done.
  - intros j q e' [(<- & <- & _)|(Hne & Hj)]%list_lookup_insert_Some; [|by apply Hon]. simpl. intros [= <-]. by apply (Hon _ _ _ Hi).
  - intros j k q q' t [(<- & <- & _)|(Hne & Hj)]%list_lookup_insert_Some [(<- & <- & _)|(Hne' & Hk)]%list_lookup_insert_Some H1 H2;
      [done|by apply (Hap _ _ _ _ t Hi Hk)|by apply (Hap _ _ _ _ t Hj Hi)|by apply (Hap _ _ _ _ t Hj Hk)].
  - intros j q t [(<- & <- & _)|(Hne & Hj)]%list_lookup_insert_Some; [|by apply (Ht j)]. simpl. intros Hin. apply (Ht _ _ _ Hi). by right.
  - intros t. rewrite history_finished, map_app. destruct (decide (t = s)) as [->|]; [|by rewrite app_nil_r].
    apply StronglySorted_snoc; [done|]. apply Forall_forall. intros x (ev & -> & Hev)%list_elem_of_fmap. auto.
  - intros t ev. rewrite history_finished. destruct (decide (t = s)) as [->|]; [|rewrite app_nil_r; by apply Hpa].
    intros [Hev| ->%list_elem_of_singleton]%elem_of_app; [by apply (Hpa s)|]. simpl.
    pose proof (installing_epoch _ _ _ _ e HI Hi eq_refl). lia.
  - intros j q t ev Hj Ht' Hev. rewrite history_finished in Hev. destruct (decide (t = s)) as [->|].
    + assert (j = i) as ->.
      { apply list_lookup_insert_Some in Hj as [(<- & _)|(_ & Hj)]; [done|]. exact (Hap _ _ _ _ s Hj Hi Ht' Hs). }
      simpl in Hj. rewrite list_lookup_insert_eq in Hj by (by eapply lookup_lt_Some). injection Hj as <-. simpl.
      apply elem_of_app in Hev as [Hev| ->%list_elem_of_singleton]; [auto|done].
    + rewrite app_nil_r in Hev. apply list_lookup_insert_Some in Hj as [(<- & <- & _)|(_ & Hj)]; [exact (Hor _ _ _ _ Hi Ht' Hev)|].
      by apply (Hor j q t ev).
  - intros t Hno. rewrite history_finished. simpl. rewrite set_strip_lookup. destruct (decide (t = s)) as [->|Hts].
    { rewrite row_after_app. done. }
    rewrite app_nil_r. apply Hst. intros j q Hj Hq. destruct (decide (i = j)) as [<-|Hne].
    + rewrite Hi in Hj. injection Hj as <-. injection Hq as <-. done.
    + apply (Hno j q); [|done]. simpl. by rewrite list_lookup_insert_ne.
Qed.

(** The captured install completes its chain; the missed one is older than
    every cut. *)
Lemma finish_view sys i e held s v todo captured : inv initial sys ->
  installers sys !! i = Some (Mutating e held s v todo captured) -> view_inv initial (finished sys i e held s v todo).
Proof.
  intros [HI HV] Hi. pose proof HV as [Hac Hid Hch Hmi Hwa Hre].
  assert (forall j q, installers sys !! j = Some q -> s ∈ targets q -> j = i) as Hone.
  { intros j q Hj Hq. apply (one_target initial sys j i q _ s HI Hj Hi Hq). by left. }
  constructor; try done.
  - intros H0. destruct (Hid H0) as [He Hc]. split; [done|].
    intros j q [(<- & <- & _)|(Hne & Hj)]%list_lookup_insert_Some; [done|]. by apply (Hc j).
  - intros H0 Hp t. destruct (Hch H0 Hp t) as (h0 & h1 & p & Hh & Hpe & Hcn & Hcut).
    assert (pending_is (installers (finished sys i e held s v todo)) t (if decide (t = s) then None else p)) as Hpe'.
    { intros e'. simpl. destruct (decide (t = s)) as [->|Hts].
      - split; [done|]. intros (j & q & [(<- & <- & _)|(Hne & Hj)]%list_lookup_insert_Some & Hq); [done|].
        apply captured_mutated in Hq as [Hq%mutated_target _]. by rewrite (Hone _ _ Hj Hq) in Hne.
      - rewrite (Hpe e'). split; intros (j & q & Hj & Hq).
        + exists j, q. split; [|done]. rewrite list_lookup_insert_ne; [done|]. intros <-. rewrite Hi in Hj. injection Hj as <-.
          apply captured_mutated in Hq as [[= ->] _]. done.
        + apply list_lookup_insert_Some in Hj as [(<- & <- & _)|(_ & Hj)]; [done|]. eauto. }
    unfold slot_chained. rewrite history_finished. change (entries_at (finished _ _ _ _ _ _ _) t) with (entries_at sys t). simpl views.
    destruct (decide (t = s)) as [->|]; [|exists h0, h1, p; by rewrite app_nil_r].
    rewrite Hh, <- app_assoc. destruct captured.
    + exists h0, (h1 ++ [(e, v)]), None. split_and!; [done..| |done]. apply chain_finish.
      assert (p = Some e) as <-; [|done]. apply Hpe. by exists i, (Mutating e held s v todo true).
    + destruct (Hmi i _ e s Hp Hi eq_refl) as [Hnil Hcuts]. rewrite Hnil in Hcn |- *. apply chain_nil in Hcn as [-> ->].
      exists (h0 ++ [(e, v)]), []. eexists. rewrite app_nil_r. split_and!; [done..|]. apply Forall_app. by repeat constructor.
  - intros j q e' t Hp [(<- & <- & _)|(Hne & Hj)]%list_lookup_insert_Some Hq; [done|]. by apply (Hmi j q).
Qed.

(** *** Captures *)

Lemma Capture_cases vs g sl e vis row :
  let vs' := VersionStore.Capture sizeof_Entry vs g sl e vis row in
  capture_active_ vs' = capture_active_ vs ∧
  (capture_active_ vs = 0 ∧ vs' = vs ∨
   capture_active_ vs <> 0 ∧ poisoned_ vs' = true ∨
   capture_active_ vs <> 0 ∧ poisoned_ vs' = poisoned_ vs ∧
   forall g' sl', VersionStore.EntriesFor vs' g' sl' =
     VersionStore.EntriesFor vs g' sl' ++ if decide ((g', sl') = (g, sl)) then [mkUndo e vis row] else []).
Proof.
  unfold VersionStore.Capture. destruct (Z.eqb_spec (capture_active_ vs) 0) as [H0|H0]; [by split; [|left]|].
  destruct (_ <? _); simpl; (split; [done|]); [by right; left|]. right; right. split; [done|]. split; [done|].
  intros g' sl'. unfold VersionStore.EntriesFor, VersionStore.GetOrCreateGroupUndo. simpl.
  destruct (decide (g' = g)) as [->|Hg].
  - rewrite lookup_insert_eq. simpl. destruct (decide (sl' = sl)) as [->|Hs].
    + rewrite lookup_insert_eq. rewrite decide_True by done. simpl. by destruct (groups_ vs !! g).
    + rewrite lookup_insert_ne by done. rewrite decide_False by congruence. rewrite app_nil_r. by destruct (groups_ vs !! g).
  - rewrite lookup_insert_ne by done. rewrite decide_False by congruence. by rewrite app_nil_r.
Qed.

Abbreviation captured_sys sys i e held s v todo :=
  (with_installer (with_versions sys (capture sizeof_Entry sys s e)) i
     (Mutating e held s v todo (negb (capture_active_ (versions sys) =? 0)))).

Lemma capture_install sys i e held s v todo : install_inv initial sys ->
  installers sys !! i = Some (Checked e held s v todo true) -> install_inv initial (captured_sys sys i e held s v todo).
Proof.
  intros HI Hi.
  assert (install_inv initial (with_versions sys (capture sizeof_Entry sys s e))) as HI' by (by destruct HI).
  eapply (change_pc _ _ _ _ _ HI' Hi); simpl; [|by auto| | |by left].
  - intros e' [= <-]. by apply (ii_online _ _ HI _ _ _ Hi).
  - intros s' Hs'. apply (ii_targets _ _ HI _ _ _ Hi). done.
  - intros s' ev Hs' Hev. apply (ii_order _ _ HI _ _ _ _ Hi Hs' Hev).
Qed.

(** A published before-image extends the chain of its slot. *)
Lemma capture_chained sys i e held s v todo t : install_inv initial sys ->
  installers sys !! i = Some (Checked e held s v todo true) -> capture_active_ (versions sys) <> 0 ->
  entries_at (captured_sys sys i e held s v todo) t =
    entries_at sys t ++ (if decide (t = s) then [undo_of e (strips sys !! s)] else []) ->
  slot_chained sys (initial t) t -> slot_chained (captured_sys sys i e held s v todo) (initial t) t.
Proof.
  intros HI Hi H0 Hen (h0 & h1 & p & Hh & Hpe & Hcn & Hcut).
  assert (forall j q, installers sys !! j = Some q -> mutated q <> Some s) as Hone.
  { intros j q Hj Hq. assert (j = i) as ->; [|rewrite Hi in Hj; by injection Hj as <-]. apply (one_target initial sys j i q _ s HI Hj Hi); [by apply mutated_target|by left]. }
  unfold slot_chained. rewrite Hen. destruct (decide (t = s)) as [->|Hts].
  - exists h0, h1, (Some e). split; [done|]. split; [|split; [|done]].
    + intros e'. simpl. apply Z.eqb_neq in H0. rewrite H0. split.
      * intros [= <-]. eexists i, _. split; [apply list_lookup_insert_eq; by eapply lookup_lt_Some|]. done.
      * intros (j & q & [(<- & <- & _)|(Hne & Hj)]%list_lookup_insert_Some & Hq); [by injection Hq as ->|].
        apply captured_mutated in Hq as [Hq _]. by destruct (Hone _ _ Hj).
    + rewrite (ii_strips _ _ HI s Hone), Hh, row_after_app. apply chain_capture.
      assert (p = None) as <-; [|done]. destruct p as [e'|]; [|done]. destruct (proj1 (Hpe e') eq_refl) as (j & q & Hj & Hq).
      apply captured_mutated in Hq as [Hq _]. by destruct (Hone _ _ Hj).
  - exists h0, h1, p. rewrite app_nil_r. split; [done|]. split; [|done]. intros e'. rewrite (Hpe e'). simpl. split; intros (j & q & Hj & Hq).
    + exists j, q. split; [|done]. rewrite list_lookup_insert_ne; [done|]. intros <-. rewrite Hi in Hj. by injection Hj as <-.
    + apply list_lookup_insert_Some in Hj as [(<- & <- & _)|(_ & Hj)]; [|by eauto].
      apply captured_mutated in Hq as [[= ->] _]. done.
Qed.

Lemma capture_view sys i e held s v todo : inv initial sys ->
  installers sys !! i = Some (Checked e held s v todo true) -> view_inv initial (captured_sys sys i e held s v todo).
Proof.
  intros [HI HV] Hi. pose proof HV as [Hac Hid Hch Hmi Hwa Hre].
  destruct (Capture_cases (versions sys) s.1 s.2 e (bool_decide (is_Some (strips sys !! s))) (default [] (strips sys !! s)))
    as [Ha Hcase]. fold (capture sizeof_Entry sys s e) in Ha, Hcase.
  destruct Hcase as [[H0 Hvs]|[[H0 Hp']|(H0 & Hp' & Hen)]].
  - rewrite H0, Hvs. assert (with_versions sys (versions sys) = sys) as -> by (by destruct sys).
    eapply (change_pc_view _ _ _ _ _ HV Hi); [done|]. intros e' s' [= <- <-] _. split; [by apply Hid|]. apply inactive_cuts. lia.
  - constructor; simpl; rewrite ?Ha, ?Hp'; done.
  - assert (forall t, entries_at (captured_sys sys i e held s v todo) t =
      entries_at sys t ++ (if decide (t = s) then [undo_of e (strips sys !! s)] else [])) as Hen'.
    { intros t. unfold entries_at. simpl. rewrite Hen. destruct t, s. by repeat destruct (decide _). }
    constructor; try done.
    + simpl. by rewrite Ha.
    + simpl. by rewrite Ha.
    + simpl. rewrite Hp'. intros _ Hp t. apply capture_chained; auto.
    + intros j q e' t. simpl. rewrite Hp'. intros Hp [(<- & <- & _)|(Hne & Hj)]%list_lookup_insert_Some Hq.
      { simpl in Hq. apply Z.eqb_neq in H0. by rewrite H0 in Hq. }
      assert (t <> s) as Hts.
      { intros ->. apply Hne. apply missed_target in Hq as [Hq _]. apply (one_target initial sys i j _ q s HI Hi Hj); [by left|done]. }
      rewrite Hen'. rewrite decide_False by done. rewrite app_nil_r. by apply (Hmi j q).
Qed.

(** *** Views *)

Lemma lookup_set_view (vs : list ViewPc) j v k w : <[j := v]> vs !! k = Some w -> w = v ∨ vs !! k = Some w.
Proof. intros [(<- & <- & _)|(_ & Hk)]%list_lookup_insert_Some; auto. Qed.

Lemma open_views_insert vs j v w : vs !! j = Some v ->
  open_views (<[j := w]> vs) = open_views vs - (if is_view v then 1 else 0) + (if is_view w then 1 else 0).
Proof.
  unfold open_views. revert j. induction vs as [|x vs IH]; intros [|j]; try done; simpl.
  - intros [= ->]. destruct (is_view v), (is_view w); zl.
  - intros Hj. specialize (IH _ Hj). destruct (is_view x); zl.
Qed.

Lemma open_views_bound vs : 0 <= open_views vs <= zlen vs.
Proof. unfold open_views. pose proof (filter_length_le is_view vs). unfold zlen. lia. Qed.

Lemma slot_chained_cuts sys sys' t : history sys' t = history sys t -> installers sys' = installers sys ->
  entries_at sys' t = entries_at sys t ->
  (forall ev, ev ∈ history sys t -> cuts_above (views sys) ev.1 -> cuts_above (views sys') ev.1) ->
  slot_chained sys (initial t) t -> slot_chained sys' (initial t) t.
Proof.
  intros Hh Hi He Hc (h0 & h1 & p & Hh' & Hpe & Hcn & Hcut). exists h0, h1, p. rewrite Hh, Hi, He. split_and!; [done..|].
  apply Forall_forall. intros ev Hev. rewrite Forall_forall in Hcut. apply Hc; [|by apply Hcut]. rewrite Hh'. set_solver.
Qed.

(** A view takes its cut or opens. *)
Lemma set_view_inv sys j v w : inv initial sys -> views sys !! j = Some v -> is_view v = true -> is_view w = true ->
  (forall cut, cut_of w = Some cut -> cut_of v = Some cut ∨ cut = global_epoch_ (epochs sys)) ->
  (forall cut, w = Waiting cut -> cut <= global_epoch_ (epochs sys)) ->
  (forall cut, w = Reading cut -> cut + 2 <= global_epoch_ (epochs sys)) -> inv initial (with_view sys j w).
Proof.
  intros [HI HV] Hj Hv Hw Hcut Hwait Hread. pose proof HV as [Hac Hid Hch Hmi Hwa Hre].
  assert (forall x, x <= global_epoch_ (epochs sys) -> cuts_above (views sys) x -> cuts_above (<[j := w]> (views sys)) x) as Hcuts.
  { intros x Hx Hc k u cut [-> |Hk]%lookup_set_view Hu; [|by eapply Hc]. destruct (Hcut _ Hu) as [H| ->]; [by eapply Hc|done]. }
  split; [by destruct HI|]. constructor; simpl.
  - rewrite (open_views_insert _ _ _ _ Hj), Hv, Hw. unfold zlen. rewrite length_insert. fold (zlen (views sys)). split; [lia|apply Hac].
  - done.
  - intros H0 Hp t. apply (slot_chained_cuts sys); try done; [|by apply Hch]. intros ev Hev. by apply Hcuts, (ii_past _ _ HI t).
  - intros i pc e s Hp Hi Hm. destruct (Hmi i pc e s Hp Hi Hm) as [He Hc]. split; [done|]. apply Hcuts; [|done].
    apply missed_target in Hm as [_ Hm]. pose proof (installing_epoch _ _ _ _ _ HI Hi Hm). lia.
  - intros k cut [Hw'|Hk]%lookup_set_view; [by apply Hwait|by eapply Hwa].
  - intros k cut [Hw'|Hk]%lookup_set_view; [by apply Hread|by eapply Hre].
Qed.

Lemma arm_inv sys j id vs : inv initial sys -> views sys !! j = Some NoView ->
  VersionStore.BeginCapture (versions sys) = (Some id, vs) -> inv initial (with_view (with_versions sys vs) j Armed).
Proof.
  intros [HI HV] Hj Hb. pose proof HV as [[Hac Hlen] Hid Hch Hmi Hwa Hre].
  assert (vs = mkVersions (u64 (capture_active_ (versions sys) + 1)) (captured_bytes_ (versions sys)) (poisoned_ (versions sys))
            (groups_ (versions sys)) (u64 (next_view_id_ (versions sys) + 1)) (byte_budget_ (versions sys))) as ->.
  { unfold VersionStore.BeginCapture in Hb. destruct (_ && _); by simplify_eq. }
  pose proof (open_views_bound (views sys)) as Hbound.
  assert (u64 (capture_active_ (versions sys) + 1) = capture_active_ (versions sys) + 1) as Hu by (apply u64_small; unfold is_u64; lia).
  assert (forall x, cuts_above (views sys) x -> cuts_above (<[j := Armed]> (views sys)) x) as Hcuts.
  { intros x Hc k u cut [-> |Hk]%lookup_set_view Hu'; [done|by eapply Hc]. }
  split; [by destruct HI|]. constructor; simpl.
  - rewrite Hu, (open_views_insert _ _ _ _ Hj). simpl. unfold zlen. rewrite length_insert. fold (zlen (views sys)). lia.
  - rewrite Hu. lia.
  - intros _ Hp t. destruct (Z.eq_dec (capture_active_ (versions sys)) 0) as [H0|H0].
    + destruct (Hid H0) as [He Hc]. exists (history sys t), [], None. rewrite app_nil_r. split; [done|]. split; [|split; [by apply He|]].
      * intros e. split; [done|]. intros (i & pc & Hi & Hpc). specialize (Hc _ _ Hi). congruence.
      * apply Forall_forall. intros ev _. apply Hcuts, inactive_cuts. lia.
    + apply (slot_chained_cuts sys); [done..|by auto|by apply Hch].
  - intros i pc e s Hp Hi Hm. destruct (Hmi i pc e s Hp Hi Hm). auto.
  - intros k cut [|Hk]%lookup_set_view; [done|by eapply Hwa].
  - intros k cut [|Hk]%lookup_set_view; [done|by eapply Hre].
Qed.

Lemma uncapture_same pc : held_by (uncapture pc) = held_by pc ∧ install_epoch (uncapture pc) = install_epoch pc ∧
  targets (uncapture pc) = targets pc ∧ mutated (uncapture pc) = mutated pc ∧ captured_at (uncapture pc) = None.
Proof. by destruct pc. Qed.

Lemma lookup_uncapture (l : list InstallPc) i pc : map uncapture l !! i = Some pc -> ∃ q, l !! i = Some q ∧ pc = uncapture q.
Proof. intros H. apply list_lookup_fmap_Some in H as (q & -> & Hq). by exists q. Qed.

Lemma uncapture_install sys vs vw : install_inv initial sys ->
  install_inv initial (mkSys (epochs sys) vs (strips sys) (map uncapture (installers sys)) vw (installed sys)).
Proof.
  intros [He Hon Hap Ht Hso Hpa Hor Hst]. constructor; simpl; try done.
  - intros i pc e (q & Hq & ->)%lookup_uncapture. destruct (uncapture_same q) as (_ & -> & _). by apply Hon.
  - intros i k pc pc' s (q & Hq & ->)%lookup_uncapture (q' & Hq' & ->)%lookup_uncapture.
    destruct (uncapture_same q) as (-> & _), (uncapture_same q') as (-> & _). by apply Hap.
  - intros i pc s (q & Hq & ->)%lookup_uncapture. destruct (uncapture_same q) as (-> & _ & -> & _). by apply (Ht i).
  - intros i pc s ev (q & Hq & ->)%lookup_uncapture. destruct (uncapture_same q) as (-> & _). intros Hs Hev.
    specialize (Hor _ _ _ _ Hq Hs Hev). by destruct q.
  - intros s Hno. apply Hst. intros i q Hq. destruct (uncapture_same q) as (_ & _ & _ & <- & _). apply (Hno i).
    by rewrite list_lookup_fmap, Hq.
Qed.

Lemma end_view_inv sys j v : inv initial sys -> views sys !! j = Some v -> is_view v = true -> inv initial (end_view sys j).
Proof.
  intros [HI HV] Hj Hv. pose proof HV as [[Hac Hlen] Hid Hch Hmi Hwa Hre].
  pose proof (open_views_insert _ _ _ NoView Hj) as Hopen. rewrite Hv in Hopen. simpl in Hopen.
  pose proof (open_views_bound (views sys)) as Hb. pose proof (open_views_bound (<[j := NoView]> (views sys))) as Hb'.
  assert (u64 (capture_active_ (versions sys) - 1) = capture_active_ (versions sys) - 1) as Hu by (apply u64_small; unfold is_u64; lia).
  assert (forall x, cuts_above (views sys) x -> cuts_above (<[j := NoView]> (views sys)) x) as Hcuts.
  { intros x Hc k u cut [-> |Hk]%lookup_set_view Hu'; [done|by eapply Hc]. }
  assert (zlen (<[j := NoView]> (views sys)) < 2 ^ 63) as Hlen' by (unfold zlen; by rewrite length_insert).
  unfold end_view, VersionStore.EndCapture. rewrite Hu. destruct (Z.eqb_spec (capture_active_ (versions sys) - 1) 0) as [H0|H0].
  - replace (capture_active_ (VersionStore.ClearAllLocked _)) with 0 by (simpl; lia). simpl.
    split; [by apply uncapture_install|]. constructor; simpl.
    + split; [lia|done].
    + intros _. split.
      * intros s. unfold entries_at, VersionStore.EntriesFor. simpl. rewrite lookup_fmap. by destruct (groups_ (versions sys) !! s.1).
      * intros i pc (q & Hq & ->)%lookup_uncapture. apply uncapture_same.
    + lia.
    + intros i pc e s _ _ _. split; [|apply inactive_cuts; lia]. unfold entries_at, VersionStore.EntriesFor. simpl.
      rewrite lookup_fmap. by destruct (groups_ (versions sys) !! s.1).
    + intros k cut [|Hk]%lookup_set_view; [done|by eapply Hwa].
    + intros k cut [|Hk]%lookup_set_view; [done|by eapply Hre].
  - simpl. apply Z.eqb_neq in H0 as H0'. rewrite H0'. split; [by destruct HI|]. constructor; simpl.
    + split; [lia|done].
    + lia.
    + intros _ Hp t. apply (slot_chained_cuts sys); [done..|by auto|]. apply Hch; [lia|done].
    + intros i pc e s Hp Hi Hm. destruct (Hmi i pc e s Hp Hi Hm). auto.
    + intros k cut [|Hk]%lookup_set_view; [done|by eapply Hwa].
    + intros k cut [|Hk]%lookup_set_view; [done|by eapply Hre].
Qed.

Lemma view_step_inv sys sys' : step sizeof_Entry sys sys' -> inv initial sys -> inv initial sys'.
Proof.
  intros Hstep H. destruct Hstep.
  - by apply epochs_inv.
  - by apply view_lock_inv.
  - by apply view_leave_inv.
  - eapply unlock_inv; [done..|]. by destruct pc.
  - by apply begin_inv.
  - by apply check_inv.
  - by apply skip_inv.
  - split; [apply capture_install; [apply H|done]|by apply capture_view].
  - by eapply tear_inv.
  - split; [eapply finish_install; [apply H|done]|by eapply finish_view].
  - by eapply unlock_inv.
  - by eapply arm_inv.
  - eapply set_view_inv; try done; simpl; [intros cut [= <-]; by right|]. intros cut [= <-]. done.
  - by eapply end_view_inv.
  - eapply set_view_inv; try done; simpl; [intros ? [= <-]; by left|]. intros ? [= <-]. done.
  - by eapply end_view_inv.
  - by eapply end_view_inv.
Qed.

Lemma start_inv threads readers rows budget : Z.of_nat readers < 2 ^ 63 -> (forall s, initial s = rows !! s) ->
  inv initial (start threads readers rows budget).
Proof.
  intros Hr Hinit. split.
  - constructor; simpl; try done; try (intros ? ? ? [-> _]%lookup_replicate; simpl; done).
    + apply epoch_init_inv.
    + intros i k pc pc' s [-> _]%lookup_replicate _ H. by apply not_elem_of_nil in H.
    + intros s. constructor.
    + intros s ev H. by apply not_elem_of_nil in H.
    + intros i pc s ev [-> _]%lookup_replicate H. by apply not_elem_of_nil in H.
    + intros s _. by rewrite Hinit.
  - assert (open_views (replicate readers NoView) = 0) as H0.
    { unfold open_views. clear. induction readers; [done|]. done. }
    constructor; simpl; try done.
    + unfold zlen. rewrite length_replicate. by rewrite H0.
    + intros _. split; [done|]. by intros i pc [-> _]%lookup_replicate.
    + by intros i pc e s _ [-> _]%lookup_replicate.
    + by intros j cut [? _]%lookup_replicate.
    + by intros j cut [? _]%lookup_replicate.
Qed.

Lemma reachable_inv sys sys' : rtc (step sizeof_Entry) sys sys' -> inv initial sys -> inv initial sys'.
Proof. induction 1; eauto using view_step_inv. Qed.

End preservation.

Definition view_row (sys : Sys) (s : Slot) (cut : Z) : Row :=
  match resolve (entries_at sys s) cut with Some u => image u | None => strips sys !! s end.

(** An install of a later epoch does not change the rows of a cut. *)
Lemma row_at_finish v h e w cut : cut < e -> row_at v (h ++ [(e, w)]) cut = row_at v h cut.
Proof.
  intros He. unfold row_at. rewrite List.filter_app. simpl. unfold EpochAfterCut at 2. destruct (Z.ltb_spec cut e); [|lia].
  simpl. by rewrite app_nil_r.
Qed.

Lemma open_view_step sizeof_Entry initial sys sys' j cut s v : inv initial sys -> views sys !! j = Some (Reading cut) ->
  step sizeof_Entry sys sys' -> row_at v (history sys' s) cut = row_at v (history sys s) cut.
Proof.
  intros [HI HV] Hj Hstep. pose proof (vi_reading _ _ HV _ _ Hj) as Hcut. destruct Hstep as [| | | | | | | | |i e held t w todo c Hi| | | | | | |]; try done.
  rewrite history_finished. destruct (decide (s = t)) as [->|]; [|by rewrite app_nil_r].
  apply row_at_finish. pose proof (installing_epoch _ _ _ _ e HI Hi eq_refl). lia.
Qed.

Lemma open_view_rows initial sys j cut s : inv initial sys -> views sys !! j = Some (Reading cut) ->
  poisoned_ (versions sys) = false ->
  view_row sys s cut = row_at (initial s) (history sys s) cut ∧ (resolve (entries_at sys s) cut = None -> ~ mutating sys s).
Proof.
  intros [HI HV] Hj Hp. pose proof (vi_reading _ _ HV _ _ Hj) as Hcut. destruct (vi_active _ _ HV) as [Hac _].
  destruct (vi_chained _ _ HV) with s as (h0 & h1 & p & Hh & Hpe & Hcn & Hold); [|done|].
  { intros H0. rewrite H0 in Hac. symmetry in Hac. by apply (open_views_inactive _ _ _ Hac) in Hj. }
  assert (forall e, p = Some e -> forall ev, ev ∈ history sys s -> ev.1 <= e) as Hlast.
  { intros e (i & pc & Hi & Hpc)%Hpe ev Hev. apply captured_mutated in Hpc as [Hm He].
    pose proof (ii_order _ _ HI _ _ _ _ Hi (ii_targets _ _ HI _ _ _ Hi (mutated_target _ _ Hm)) Hev) as Ho. destruct pc; simplify_eq/=. done. }
  pose proof (ii_sorted _ _ HI s) as Hsort. rewrite Hh, map_app in Hsort. apply StronglySorted_suffix in Hsort.
  pose proof (chain_resolve _ _ _ _ cut Hcn Hsort) as Hres. rewrite Hh, row_at_app_old; cycle 1.
  { eapply Forall_impl; [exact Hold|]. intros ev Hev. exact (Hev _ _ _ Hj eq_refl). }
  specialize (Hres ltac:(intros e ev Hpend Hin; apply (Hlast e Hpend ev); rewrite Hh; set_solver)).
  unfold view_row. destruct (resolve (entries_at sys s) cut) as [u|]; [by split|]. destruct Hres as [Hrow Hpend].
  assert (forall i pc, installers sys !! i = Some pc -> mutated pc <> Some s) as Hno.
  { intros i pc Hi Hm. assert (∃ e, install_epoch pc = Some e ∧ e <= cut) as (e & He & Hle).
    { destruct pc as [| | | |e held t w todo c]; try done. injection Hm as ->. exists e. split; [done|]. destruct c.
      - apply Hpend, Hpe. by exists i, (Mutating e held s w todo true).
      - by apply (proj2 (vi_missed _ _ HV i _ e s Hp Hi eq_refl) j (Reading cut)). }
    pose proof (installing_epoch _ _ _ _ e HI Hi He). lia. }
  split; [|by intros _ (i & pc & Hi & Hm)%mutating_iff; apply (Hno i pc)].
  rewrite (ii_strips _ _ HI s Hno), Hh, row_after_app. done.
Qed.

(** C9. A columnar read view is a snapshot: in every interleaving of
    committing threads, readers and the epoch framework, an open view that is
    neither poisoned nor expired resolves each slot, through the published
    before-images or the strips, to the row left by the installs of epochs up
    to its cut; a slot it reads in place is not being changed, and no later
    step changes what it reads. *)
Theorem read_view_is_snapshot sizeof_Entry threads readers rows budget sys j cut :
  Z.of_nat readers < 2 ^ 63 ->
  rtc (step sizeof_Entry) (start threads readers rows budget) sys ->
  views sys !! j = Some (Reading cut) -> PaxReadViewPoisoned sys cut = false ->
  forall s,
    view_row sys s cut = row_at (rows !! s) (history sys s) cut ∧
    (resolve (entries_at sys s) cut = None -> ~ mutating sys s) ∧
    forall sys', step sizeof_Entry sys sys' -> row_at (rows !! s) (history sys' s) cut = row_at (rows !! s) (history sys s) cut.
Proof.
  intros Hr Hsteps Hj Hp s.
  assert (inv (fun s => rows !! s) sys) as Hinv by (eapply reachable_inv; [exact Hsteps|by apply start_inv]).
  assert (poisoned_ (versions sys) = false) as Hp' by (unfold PaxReadViewPoisoned in Hp; by destruct (_ <=? _)).
  destruct (open_view_rows _ _ _ _ s Hinv Hj Hp') as [H1 H2]. split; [done|]. split; [done|].
  intros sys' Hs. by eapply open_view_step.
Qed.

Module Demo.

(** A view with cut 1 is open while a commit of epoch 3 replaces the row. *)
Definition slot : Slot := (0, 0).
Definition s0 : Sys := start 1 1 {[slot := [1]]} 1000.
Definition s1 : Sys := with_view (with_versions s0 (snd (VersionStore.BeginCapture (versions s0)))) 0 Armed.
Definition s2 : Sys := with_view s1 0 (Waiting 1).
Definition s3 : Sys := with_installer s2 0 (Locking [slot]).
Definition s4 : Sys := with_installer s3 0 (Rejoining [slot]).
Definition s5 : Sys := with_epochs s4 Epoch.Demo.joined.
Definition s6 : Sys := with_view s5 0 (Reading 1).
Definition s7 : Sys := with_installer s6 0 (Installing 3 [slot] [(slot, Some [2; 3])]).
Definition s8 : Sys := with_installer s7 0 (Checked 3 [slot] slot (Some [2; 3]) [] true).
Definition s9 : Sys := with_installer (with_versions s8 (capture 48 s8 slot 3)) 0 (Mutating 3 [slot] slot (Some [2; 3]) [] true).
Definition s10 : Sys := finished s9 0 3 [slot] slot (Some [2; 3]) [].

(** The epoch framework runs while nobody installs. *)
Lemma epochs_run sys E : rtc EpochFramework.step (epochs sys) E ->
  (forall i pc, installers sys !! i = Some pc -> install_epoch pc = None) -> rtc (step 48) sys (with_epochs sys E).
Proof.
  intros Hrun Hnone. remember (epochs sys) as E0 eqn:HE. revert sys HE Hnone. induction Hrun as [E|E0 E1 E2 Hs _ IH]; intros sys -> Hnone.
  - assert (with_epochs sys (epochs sys) = sys) as -> by (by destruct sys). apply rtc_refl.
  - eapply rtc_l; [apply (step_epochs 48 sys E1 Hs)|].
    + intros i pc e Hi He. rewrite (Hnone _ _ Hi) in He. done.
    + exact (IH (with_epochs sys E1) eq_refl Hnone).
Defined.

Lemma view_opened : rtc (step 48) s0 s6.
Proof.
  apply (rtc_r _ s5); [|exact (step_fence 48 s5 0 1 eq_refl ltac:(vm_compute; discriminate) eq_refl)].
  transitivity s4; [|apply epochs_run; [exact Epoch.Demo.joined_reachable|by intros [|i] pc [= <-]]].
  apply (rtc_r _ s3); [|exact (step_leave 48 s3 0 [slot] eq_refl eq_refl)].
  apply (rtc_r _ s2); [|apply (step_lock 48 s2 0 [] slot eq_refl); intros [|j] pc [= <-]; apply not_elem_of_nil].
  apply (rtc_r _ s1); [|exact (step_cut 48 s1 0 eq_refl eq_refl)].
  apply (rtc_r _ s0); [apply rtc_refl|]. by apply (step_arm 48 s0 0 1).
Defined.

Lemma row_replaced : rtc (step 48) s0 s10.
Proof.
  apply (rtc_r _ s9); [|exact (step_finish 48 s9 0 3 [slot] slot (Some [2; 3]) [] true eq_refl)].
  apply (rtc_r _ s8); [|exact (step_capture 48 s8 0 3 [slot] slot (Some [2; 3]) [] eq_refl)].
  apply (rtc_r _ s7); [|exact (step_check 48 s7 0 3 [slot] slot (Some [2; 3]) [] eq_refl)].
  apply (rtc_r _ s6); [exact view_opened|]. apply (step_begin 48 s6 0 [slot] 3 [(slot, Some [2; 3])] eq_refl eq_refl).
  intros sv ->%list_elem_of_singleton. by left.
Defined.

Lemma read_view_is_snapshot_witness :
  strips s10 !! slot = Some [2; 3] ∧ view_row s10 slot 1 = Some [1] ∧
  view_row s10 slot 1 = row_at (Some [1]) (history s10 slot) 1.
Proof.
  exact (conj eq_refl (conj eq_refl
    (proj1 (read_view_is_snapshot 48 1 1 {[slot := [1]]} 1000 s10 0 1 eq_refl row_replaced eq_refl eq_refl slot)))).
Defined.

End Demo.
