(* ===== verification/PaxDemo.v ===== *)
(** * A table with typed and untyped columns

    The theorems of PaxCells.v and PaxBuffer.v on a table with an integer, a
    decimal, a date and a text column, and rows that a group takes without
    keeping their bytes. *)

From S2P Require Import Prelude PackedKeys Types DataItem PaxCodec PaxGroup PaxCells PaxBuffer.
Import FieldKind PaxGroup TableSchema.

Definition schema : TableSchema :=
  mkSchema [116] [8; 8; 4; 3] [FK_INT64; FK_DEC64; FK_DATE; FK_UNTYPED] [0; 2; 0; 0].

Definition int_text : bytestring := [45; 52; 50].
Definition dec_text : bytestring := [49; 46; 53; 48].
Definition date_text : bytestring := [50; 48; 50; 52; 45; 48; 50; 45; 50; 57].
Definition fields : list bytestring := [int_text; dec_text; date_text; [97; 98]].
Definition row : bytestring := encode_row fields.
Definition group : PaxGroup := PaxGroup.new schema.

Lemma schema_wellformed : schema_ok schema.
Proof.
  constructor; simpl.
  - repeat constructor; unfold width_ok; lia.
  - unfold kMaxFields. lia.
  - by right.
  - intros [|[|[|[|f]]]] k Hk Hne; simplify_eq/=; (split; [done|]); unfold scale_of; simpl; lia.
Defined.

Ltac fields_eval := first [done | by repeat constructor | by left | by vm_compute].

Lemma fields_fit f p : fields !! f = Some p -> field_fits schema f p.
Proof.
  intros Hp. destruct f as [|[|[|[|f]]]]; simplify_eq/=; (split; [bytes_eval|]); (split; [done|]).
  - exists FK_INT64, 8. split; [done|]. split; [done|]. right. split; [done|]. right. right; left. split; [done|].
    exists true, [52; 50]. repeat split; fields_eval.
  - exists FK_DEC64, 8. split; [done|]. split; [done|]. right. split; [done|]. right. right; right; right. split; [done|].
    exists false, [49], [53; 48]. repeat split; fields_eval.
  - exists FK_DATE, 4. split; [done|]. split; [done|]. right. split; [done|]. right. right; right; left. split; [done|].
    exists [50; 48; 50; 52], [48; 50], [50; 57]. repeat split; fields_eval.
  - exists FK_UNTYPED, 3. split; [done|]. split; [done|]. by left.
Defined.

(** ** The theorems *)


Definition scattered : PaxGroup := match ScatterRow group 5 row with Some (_, g) => g | None => group end.

Lemma row_scattered : ScatterRow group 5 row = Some (true, scattered).
Proof. vm_compute. reflexivity. Defined.

Lemma pax_masked_gather_witness : GatherRowMasked scattered 5 [0; 2] [] = Some (encode_row [int_text; dec_text; []; [97; 98]]).
Proof.
  refine (proj1 (pax_masked_gather group 5 fields [0; 2] scattered (new_ok schema schema_wellformed) _ eq_refl _ fields_fit row_scattered _ _)).
  - unfold kRows. lia.
  - simpl. lia.
  - repeat constructor.
  - repeat constructor; lia.
Defined.


Lemma pax_group_wellformed_witness : ∃ g', RetireSlot group 5 = Some g' ∧ group_ok g' ∧ IsVisible g' 5 = Some false.
Proof.
  destruct (pax_group_wellformed schema schema_wellformed) as (Hok & Hs & H).
  destruct (H group 5 Hok Hs ltac:(unfold kRows; lia)) as [_ Hret].
  set (g' := match RetireSlot group 5 with Some g => g | None => group end).
  assert (RetireSlot group 5 = Some g') as E by (vm_compute; reflexivity).
  destruct (Hret g' E) as (H1 & _ & _ & H2). exact (ex_intro _ g' (conj E (conj H1 H2))).
Defined.

Definition tables : gmap bytestring (option PaxStore) := {[ [116] := None ]}.

Lemma InstallPaxSchema_once_witness :
  GetPaxStore (snd (InstallPaxSchema true true tables [116] (field_max_bytes schema) (field_kind schema) (field_scale schema))) [116] =
  Some (PaxStore.new schema).
Proof.
  pose proof (InstallPaxSchema_once true true tables [116] (field_max_bytes schema) (field_kind schema) (field_scale schema)) as H.
  assert (request_ok (field_max_bytes schema) (field_kind schema) (field_scale schema)) as Hr.
  { constructor; simpl.
    - repeat constructor; unfold width_ok; lia.
    - unfold kMaxFields. lia.
    - intros _ [|[|[|[|f]]]] k Hk Hne; simplify_eq/=; (split; [done|]); intros _ sc Hsc; simplify_eq/=; lia. }
  exact (proj1 (proj2 (proj2 (H Hr))) eq_refl).
Defined.

(** A row is put, replaced by one that does not fit, and another is deleted. *)
Definition long_row : bytestring := encode_row [[49]; [49; 46; 48; 48]; []; [97; 98; 99; 100]].
Definition ops : list (Z * option bytestring * Z) := [(1, Some row, 2); (2, Some row, 2); (1, Some long_row, 3); (2, None, 4)].


(** ** Rows in another form *)

Definition plain_schema : TableSchema := mkSchema [116] [8; 8; 2] [FK_INT64; FK_DEC64; FK_UNTYPED] [0; 2; 0].
Definition kept (r : bytestring) : option bytestring :=
  '(ok, g) ← ScatterRow (PaxGroup.new plain_schema) 0 r;
  if (ok : bool) then GatherRow g 0 (zlen r) else None.

(** The check before a scatter accepts rows whose bytes the cells do not
    keep: leading zeros, minus zero, a plus sign and long length prefixes come
    back in another form, and a decimal with fewer digits than the scale makes
    the gathered row lose its last field. *)
Theorem pax_rows_rewritten :
  kept (encode_row [[48; 48; 55]; []; []]) = Some (encode_row [[55]; []; []]) ∧
  kept (encode_row [[45; 48]; []; []]) = Some (encode_row [[48]; []; []]) ∧
  kept (encode_row [[]; [43; 49; 46; 53; 48]; []]) = Some (encode_row [[]; [49; 46; 53; 48]; []]) ∧
  kept (encode_row [[]; [49; 46; 53]; []]) = Some (encode_row [[]; [49; 46; 53; 48]]) ∧
  kept ([255; 255] ++ [2; 1; 0; 97]) = Some (encode_row [[]; []; [97]]).
Proof. vm_compute. repeat split. Qed.
