(* ===== verification/Statistics.v ===== *)
(** * Index statistics (src/src/database_impl.h, ComputeIndexNdvInt and
    ComputeIndexHistogram)

    The optimizer of the client asks for the number of distinct key prefixes of
    an index and for a histogram of its leading key part.  Both walk the index
    in key order, skip the entries that are not live and look at each live key
    once: the first compares it with the key before it, the second adds up rows
    and closes a bucket whenever another stride of rows has gone by.

    An entry comes with the words and flags that the loads of its version and
    contents return, so that a stable read is the loop of the source; [None] is
    a loop that has not returned yet.  The theorems: the counts are exactly the
    numbers of distinct prefixes; the bounds of the histogram ascend, its counts
    are those of the rows up to the bound and end with all of them, no bucket
    is deeper than a stride and an entry, and all loops end. *)

From stdpp Require Import list_numbers.
From S2P Require Import Prelude PackedKeys Types.
Import PackedPrimaryKeys PackedPrimaryKeysView.

(** ** Stable reads *)

(** What the loop of a stable read loads: the version, the contents, the
    version again. *)
Abbreviation Loads A := (list (TransactionId.t * A * TransactionId.t)).

Fixpoint stable {A} (loads : Loads A) : option A :=
  match loads with
  | [] => None
  | (tid, x, again) :: rest =>
      if negb (Z.land (TransactionId.tid tid) 1 =? 0) then stable rest
      else if TransactionId.eqb again tid then Some x else stable rest
  end.

Fixpoint any_live (base : bytestring -> option (Loads bool)) (keys : list bytestring) : option bool :=
  match keys with
  | [] => Some false
  | k :: keys' =>
      match base k with
      | None => any_live base keys'
      | Some loads => live ← stable loads; if (live : bool) then Some true else any_live base keys'
      end
  end.

(** [stable_live_secondary]. *)
Definition stable_live_secondary (loads : Loads Ptr) (base : bytestring -> option (Loads bool)) : option bool :=
  snapshot ← stable loads;
  any_live base (primary_keys_vector (if size snapshot =? 0 then None else snapshot)).

(** [stable_pk_count]. *)
Definition stable_pk_count (loads : Loads Ptr) : option Z := size <$> stable loads.

(** What a walk of an index meets, in key order; [completed] is whether the scan
    returned a count. *)
Inductive IndexWalk : Type :=
  | NoSuchIndex
  | PrimaryWalk (visits : list (bytestring * Loads bool)) (completed : bool)
  | SecondaryWalk (visits : list (bytestring * option (Loads Ptr * (bytestring -> option (Loads bool))))) (completed : bool).

(** A scan with a callback that may stop it. *)
Fixpoint scan {E S} (f : E -> S -> option (S * bool)) (visits : list E) (st : S) : option S :=
  match visits with
  | [] => Some st
  | v :: visits' => '(st, stop) ← f v st; if (stop : bool) then Some st else scan f visits' st
  end.

Definition byte_at (key : bytestring) (i : Z) : Z := nth (Z.to_nat i) key 0.

(** ** Numbers of distinct prefixes *)

(** The ends of the key parts: [marker][type][2-byte length][payload]. *)
Fixpoint split_parts (num_parts : nat) (key : bytestring) (offset : Z) : option (list Z) :=
  match num_parts with
  | O => Some []
  | S n =>
      if zlen key <? offset + 4 then None
      else if negb (byte_at key offset =? 0) || negb (byte_at key (offset + 1) =? 16) then None
      else
        let len := Z.lor (Z.shiftl (byte_at key (offset + 2)) 8) (byte_at key (offset + 3)) in
        let offset := offset + 4 + len in
        if zlen key <? offset then None
        else cons offset <$> split_parts n key offset
  end.

Record NdvState := mkNdv { ok : bool; first : bool; prev_key : bytestring; prev_part_ends : list Z; out_ndv : list Z }.

Fixpoint count_new (key prev : bytestring) (ends prev_ends ndv : list Z) : list Z :=
  match ends, prev_ends, ndv with
  | e :: ends', p :: prev_ends', n :: ndv' =>
      (if negb (e =? p) || negb (str_eqb (take (Z.to_nat e) key) (take (Z.to_nat p) prev)) then u64 (n + 1) else n)
      :: count_new key prev ends' prev_ends' ndv'
  | _, _, _ => ndv
  end.

(** The lambda [count_key]; [true] stops the scan. *)
Definition count_key (num_parts : nat) (key : bytestring) (st : NdvState) : NdvState * bool :=
  match split_parts num_parts key 0 with
  | None => (mkNdv false (first st) (prev_key st) (prev_part_ends st) (out_ndv st), true)
  | Some part_ends =>
      let ndv := if first st then replicate num_parts 1
                 else count_new key (prev_key st) part_ends (prev_part_ends st) (out_ndv st) in
      (mkNdv (ok st) false key part_ends ndv, false)
  end.

Definition ndv_primary (num_parts : nat) (visit : bytestring * Loads bool) (st : NdvState) : option (NdvState * bool) :=
  live ← stable visit.2;
  Some (if (live : bool) then count_key num_parts visit.1 st else (st, false)).

Definition ndv_secondary (num_parts : nat) (visit : bytestring * option (Loads Ptr * (bytestring -> option (Loads bool))))
    (st : NdvState) : option (NdvState * bool) :=
  match visit.2 with
  | None => Some (st, false)
  | Some (loads, base) =>
      live ← stable_live_secondary loads base;
      Some (if (live : bool) then count_key num_parts visit.1 st else (st, false))
  end.

(** The result and [out_ndv]. *)
Definition ComputeIndexNdvInt (has_table : bool) (index : IndexWalk) (num_parts : nat) : option (bool * list Z) :=
  let zeros := replicate num_parts 0 in
  match num_parts with
  | O => Some (false, zeros)
  | S _ =>
      if negb has_table then Some (false, zeros)
      else
        let start := mkNdv true true [] zeros zeros in
        let finish (st : NdvState) (completed : bool) :=
          if ok st && completed then (true, out_ndv st) else (false, zeros) in
        match index with
        | NoSuchIndex => Some (false, zeros)
        | PrimaryWalk visits completed =>
            st ← scan (ndv_primary num_parts) visits start; Some (finish st completed)
        | SecondaryWalk visits completed =>
            st ← scan (ndv_secondary num_parts) visits start; Some (finish st completed)
        end
  end.

(** ** Histograms *)

Definition leading_end (key : bytestring) : Z :=
  if zlen key <? 4 then 0
  else if negb (byte_at key 0 =? 0) then 0
  else if negb (byte_at key 1 =? 16) && negb (byte_at key 1 =? 48) then 0
  else
    let end_ := 4 + Z.lor (Z.shiftl (byte_at key 2) 8) (byte_at key 3) in
    if end_ <=? zlen key then end_ else 0.

(** The lambda [walk]: each live key with its rows; a missing secondary index is
    [None] inside. *)
Definition walk_primary {S} (f : bytestring -> Z -> S -> option (S * bool)) (visit : bytestring * Loads bool) (st : S)
    : option (S * bool) :=
  live ← stable visit.2;
  if (live : bool) then f visit.1 1 st else Some (st, false).
Definition walk_secondary {S} (f : bytestring -> Z -> S -> option (S * bool))
    (visit : bytestring * option (Loads Ptr * (bytestring -> option (Loads bool)))) (st : S) : option (S * bool) :=
  match visit.2 with
  | None => Some (st, false)
  | Some (loads, _) =>
      w ← stable_pk_count loads;
      if w =? 0 then Some (st, false) else f visit.1 w st
  end.
Definition walk {S} (index : IndexWalk) (f : bytestring -> Z -> S -> option (S * bool)) (st : S) : option (option S) :=
  match index with
  | NoSuchIndex => Some None
  | PrimaryWalk visits _ => Some <$> scan (walk_primary f) visits st
  | SecondaryWalk visits _ => Some <$> scan (walk_secondary f) visits st
  end.

(** Pass 1: [malformed] and [total]. *)
Definition count_rows (key : bytestring) (w : Z) (st : bool * Z) : option ((bool * Z) * bool) :=
  if leading_end key =? 0 then Some ((true, st.2), true)
  else Some ((st.1, u64 (st.2 + w)), false).

Record HistState := mkHist {
  malformed : bool;
  seen : Z;
  next : Z;
  last_key : bytestring;
  out_bounds : list bytestring;
  out_cum : list Z;
}.

(** [while (seen >= next) next += stride]. *)
Fixpoint advance (fuel : nat) (seen next stride : Z) : option Z :=
  if seen <? next then Some next
  else match fuel with O => None | S n => advance n seen (u64 (next + stride)) stride end.

(** Pass 2.  The loop moves [next] by at least one row each time. *)
Definition close_bucket (stride : Z) (key : bytestring) (w : Z) (st : HistState) : option (HistState * bool) :=
  let end_ := leading_end key in
  if end_ =? 0
  then Some (mkHist true (seen st) (next st) (last_key st) (out_bounds st) (out_cum st), true)
  else
    let prefix := take (Z.to_nat end_) key in
    let seen := u64 (seen st + w) in
    if next st <=? seen
    then
      next ← advance (Z.to_nat seen) seen (next st) stride;
      Some (mkHist (malformed st) seen next prefix (out_bounds st ++ [prefix]) (out_cum st ++ [seen]), false)
    else Some (mkHist (malformed st) seen (next st) prefix (out_bounds st) (out_cum st), false).

(** The result with [out_bounds] and [out_cum]; the two passes walk the index
    one after the other. *)
Definition ComputeIndexHistogram (has_table : bool) (pass1 pass2 : IndexWalk) (buckets : Z)
    : option (bool * list bytestring * list Z) :=
  if buckets =? 0 then Some (false, [], [])
  else if negb has_table then Some (false, [], [])
  else
    counted ← walk pass1 count_rows (false, 0);
    match counted with
    | None => Some (false, [], [])
    | Some (bad, total) =>
        if bad || (total =? 0) then Some (false, [], [])
        else
          let stride := Z.max 1 (total / buckets) in
          closed ← walk pass2 (close_bucket stride) (mkHist false 0 stride [] [] []);
          match closed with
          | None => Some (false, [], [])
          | Some st =>
              if malformed st then Some (false, [], [])
              else
                let '(bounds, cum) :=
                  if bool_decide (last (out_cum st) = Some total) then (out_bounds st, out_cum st)
                  else (out_bounds st ++ [last_key st], out_cum st ++ [total]) in
                Some (negb (bool_decide (bounds = [])), bounds, cum)
          end
    end.

(** ** Live entries *)

(** What both statistics are about: the live keys of a walk, and the live keys
    with their rows. *)
Definition live_primary (visit : bytestring * Loads bool) : option (option bytestring) :=
  live ← stable visit.2; Some (if (live : bool) then Some visit.1 else None).
Definition live_secondary (visit : bytestring * option (Loads Ptr * (bytestring -> option (Loads bool))))
    : option (option bytestring) :=
  match visit.2 with
  | None => Some None
  | Some (loads, base) => live ← stable_live_secondary loads base; Some (if (live : bool) then Some visit.1 else None)
  end.
Definition live_keys (index : IndexWalk) : option (list bytestring) :=
  match index with
  | NoSuchIndex => None
  | PrimaryWalk visits _ => option_map (omap id) (mapM live_primary visits)
  | SecondaryWalk visits _ => option_map (omap id) (mapM live_secondary visits)
  end.

Definition rows_primary (visit : bytestring * Loads bool) : option (option (bytestring * Z)) :=
  live ← stable visit.2; Some (if (live : bool) then Some (visit.1, 1) else None).
Definition rows_secondary (visit : bytestring * option (Loads Ptr * (bytestring -> option (Loads bool))))
    : option (option (bytestring * Z)) :=
  match visit.2 with
  | None => Some None
  | Some (loads, _) => w ← stable_pk_count loads; Some (if w =? 0 then None else Some (visit.1, w))
  end.
Definition live_rows (index : IndexWalk) : option (list (bytestring * Z)) :=
  match index with
  | NoSuchIndex => None
  | PrimaryWalk visits _ => option_map (omap id) (mapM rows_primary visits)
  | SecondaryWalk visits _ => option_map (omap id) (mapM rows_secondary visits)
  end.

Definition completed (index : IndexWalk) : bool :=
  match index with NoSuchIndex => false | PrimaryWalk _ c | SecondaryWalk _ c => c end.

(** A scan that skips the entries that are not live is a scan of the live ones. *)
Lemma scan_live {E S X} (f : E -> S -> option (S * bool)) (g : X -> S -> option (S * bool)) (live : E -> option (option X)) :
  (forall v s, f v s = (x ← live v; match x with None => Some (s, false) | Some x => g x s end)) ->
  forall visits l st, mapM live visits = Some l -> scan f visits st = scan g (omap id l) st.
Proof.
  intros Hf. induction visits as [|v visits IH]; intros l st Hl; simpl in *; [by injection Hl as <-|].
  destruct (live v) as [x|] eqn:Hv; [|done]. simpl in Hl. destruct (mapM live visits) as [l'|]; [|done]. injection Hl as <-.
  rewrite Hf, Hv. cbn [mbind option_bind]. destruct x as [x|]; simpl; [|by apply IH].
  destruct (g x st) as [[st' []]|]; simpl; [done|by apply IH|done].
Qed.

(** ** Encoded keys *)

(** Prefixes of sorted strings: the strings with a common prefix are contiguous. *)
Definition str_le (a b : bytestring) : Prop := str_ltb b a = false.

Lemma str_le_lt_eq a b : str_le a b <-> str_lt a b ∨ a = b.
Proof.
  unfold str_le. split.
  - intros H. destruct (decide (a = b)) as [->|Hne]; [by right|]. left. by apply str_ltb_total; [|congruence].
  - intros [H| ->]; [by apply str_lt_asym|apply str_ltb_irrefl].
Qed.

Lemma prefix_between q a b c : q `prefix_of` a -> q `prefix_of` c -> str_le a b -> str_le b c -> q `prefix_of` b.
Proof.
  revert a b c. induction q as [|x q IH]; intros a b c Ha Hc Hab Hbc; [apply prefix_nil|].
  destruct Ha as [a' ->], Hc as [c' ->]. simpl in *. unfold str_le in *. destruct b as [|y b]; [done|]. simpl in *.
  destruct (Z.ltb_spec y x); [done|]. destruct (Z.ltb_spec x y); [done|]. assert (y = x) as -> by lia.
  apply prefix_cons. by apply (IH (q ++ a') b (q ++ c')); [apply prefix_app_r..| |].
Qed.

(** A prefix that is not shared decides the order. *)
Lemma str_le_prefix a b p q : p `prefix_of` a -> q `prefix_of` b -> str_le a b ->
  (p `prefix_of` q -> p = q) -> (q `prefix_of` p -> q = p) -> str_le p q.
Proof.
  revert a b q. induction p as [|x p IH]; intros a b q Ha Hb Hab Hp Hq.
  - rewrite <- Hp by apply prefix_nil. apply str_ltb_irrefl.
  - destruct q as [|y q]; [discriminate Hq; apply prefix_nil|]. destruct Ha as [a' ->], Hb as [b' ->]. unfold str_le in *. simpl in *.
    destruct (Z.ltb_spec y x); [done|]. destruct (Z.ltb_spec x y); [done|]. assert (y = x) as -> by lia.
    apply (IH (p ++ a') (q ++ b') q); [by apply prefix_app_r..|done| |].
    + intros H1. assert (x :: p = x :: q) as E by (apply Hp; by apply prefix_cons). by injection E.
    + intros H1. assert (x :: q = x :: p) as E by (apply Hq; by apply prefix_cons). by injection E.
Qed.

Definition key_prefix (num_parts part : nat) (key : bytestring) : bytestring :=
  match split_parts num_parts key 0 with
  | None => []
  | Some ends => take (Z.to_nat (default 0 (ends !! part))) key
  end.

Lemma byte_at_ok key i : bytes_ok key -> 0 <= byte_at key i < 256.
Proof.
  intros H. unfold byte_at. destruct (nth_in_or_default (Z.to_nat i) key 0) as [Hin| ->]; [|lia].
  unfold bytes_ok in H. rewrite List.Forall_forall in H. exact (H _ Hin).
Qed.

Lemma byte_at_app a b i : 0 <= i < zlen a -> byte_at (a ++ b) i = byte_at a i.
Proof. intros Hi. unfold byte_at, zlen in *. apply app_nth1. lia. Qed.

(** The bytes of a key up to an end are those of any key with that prefix. *)
Lemma byte_at_shared k k' e i : e <= zlen k -> take (Z.to_nat e) k `prefix_of` k' -> 0 <= i < e -> byte_at k' i = byte_at k i.
Proof.
  intros He [r ->] Hi. assert (zlen (take (Z.to_nat e) k) = e) as Hl by (unfold zlen in *; rewrite length_take; lia).
  rewrite byte_at_app by lia. rewrite <- (take_drop (Z.to_nat e) k) at 2. symmetry. apply byte_at_app. lia.
Qed.

Lemma split_step n key off ends : split_parts (S n) key off = Some ends ->
  let next := off + 4 + Z.lor (Z.shiftl (byte_at key (off + 2)) 8) (byte_at key (off + 3)) in
  next <= zlen key ∧ ∃ ends', ends = next :: ends' ∧ split_parts n key next = Some ends'.
Proof.
  simpl. destruct (_ <? _); [done|]. destruct (_ || _); [done|]. destruct (Z.ltb_spec (zlen key) (off + 4 +
    Z.lor (Z.shiftl (byte_at key (off + 2)) 8) (byte_at key (off + 3)))); [done|].
  destruct (split_parts n key _) as [es|]; [|done]. intros [= <-]. split; [done|]. by exists es.
Qed.

Lemma length_word_nonneg key i : bytes_ok key -> 0 <= Z.lor (Z.shiftl (byte_at key i) 8) (byte_at key (i + 1)).
Proof.
  intros Hk. pose proof (byte_at_ok key i Hk). pose proof (byte_at_ok key (i + 1) Hk).
  apply Z.lor_nonneg. split; [apply Z.shiftl_nonneg; lia|lia].
Qed.

Lemma split_bounds n key off ends : bytes_ok key -> split_parts n key off = Some ends ->
  length ends = n ∧ forall p e, ends !! p = Some e -> off + 4 <= e <= zlen key.
Proof.
  intros Hk. revert off ends. induction n as [|n IH]; intros off ends; [by intros [= <-]|].
  intros (Hle & ends' & -> & E)%split_step. pose proof (length_word_nonneg key (off + 2) Hk) as Hlen.
  replace (off + 2 + 1) with (off + 3) in Hlen by lia. destruct (IH _ _ E) as [Hl Hb].
  simpl. split; [lia|]. intros [|p] e He; simpl in He; [injection He as <-; lia|]. specialize (Hb _ _ He). lia.
Qed.

(** The parts of a key delimit themselves. *)
Lemma split_shared n k k' off ends ends' p e : bytes_ok k -> bytes_ok k' -> 0 <= off ->
  split_parts n k off = Some ends -> split_parts n k' off = Some ends' -> ends !! p = Some e ->
  take (Z.to_nat e) k `prefix_of` k' -> ends' !! p = Some e.
Proof.
  intros Hk Hk'. revert off ends ends' p. induction n as [|n IH]; intros off ends ends' p Hoff Hs Hs' He Hpre.
  { simpl in Hs. injection Hs as <-. done. }
  pose proof (split_bounds _ _ _ _ Hk Hs) as [_ Hb]. specialize (Hb _ _ He).
  assert (forall i, 0 <= i < e -> byte_at k' i = byte_at k i) as Hbytes by (intros i Hi; apply (byte_at_shared k k' e); [lia|done|done]).
  apply split_step in Hs as (_ & es & -> & E), Hs' as (_ & es' & -> & E'). rewrite (Hbytes (off + 2)), (Hbytes (off + 3)) in E' |- * by lia.
  destruct p as [|p]; [done|]. simpl in *. refine (IH _ _ _ _ _ E E' He Hpre).
  pose proof (length_word_nonneg k (off + 2) Hk) as Hlen. replace (off + 2 + 1) with (off + 3) in Hlen by lia. lia.
Qed.

Lemma key_prefix_prefix n p key : key_prefix n p key `prefix_of` key.
Proof.
  unfold key_prefix. destruct (split_parts n key 0); [|apply prefix_nil]. eexists. symmetry. apply take_drop.
Qed.

Lemma key_prefix_shared n p k k' : bytes_ok k -> bytes_ok k' -> (p < n)%nat ->
  is_Some (split_parts n k 0) -> is_Some (split_parts n k' 0) ->
  key_prefix n p k `prefix_of` k' -> key_prefix n p k' = key_prefix n p k.
Proof.
  intros Hk Hk' Hp [ends Hs] [ends' Hs']. unfold key_prefix. rewrite Hs, Hs'.
  destruct (split_bounds _ _ _ _ Hk Hs) as [Hl Hb]. destruct (lookup_lt_is_Some_2 ends p) as [e He]; [lia|]. rewrite He. simpl.
  intros Hpre. rewrite (split_shared n k k' 0 ends ends' p e Hk Hk' ltac:(lia) Hs Hs' He Hpre). simpl.
  destruct Hpre as [r Hr]. specialize (Hb _ _ He). rewrite Hr, take_app_le; [by rewrite take_take, Nat.min_id|].
  rewrite length_take. unfold zlen in Hb. lia.
Qed.

(** ** Distinct prefixes *)

Definition distinct (l : list bytestring) : Z := Z.of_nat (base.size (list_to_set l : gset bytestring)).
Definition ndv_of (num_parts : nat) (keys : list bytestring) : list Z :=
  map (fun part => distinct (map (key_prefix num_parts part) keys)) (seq 0 num_parts).

Lemma distinct_snoc l x : distinct (l ++ [x]) = if decide (x ∈ l) then distinct l else distinct l + 1.
Proof.
  unfold distinct. rewrite list_to_set_app_L. simpl. rewrite union_empty_r_L. destruct (decide (x ∈ l)) as [Hx|Hx].
  - f_equal. f_equal. set_solver.
  - rewrite size_union by set_solver. rewrite size_singleton. lia.
Qed.

Lemma distinct_bound l : 0 <= distinct l <= zlen l.
Proof.
  unfold distinct. split; [lia|]. induction l as [|x l IH]; [done|]. rewrite zlen_cons. simpl.
  pose proof (size_union_alt ({[x]} : gset bytestring) (list_to_set l)) as ->. rewrite size_singleton.
  pose proof (subseteq_size (list_to_set l ∖ {[x]} : gset bytestring) (list_to_set l) ltac:(set_solver)). lia.
Qed.

Lemma sorted_app_lt (l k : list bytestring) x y : StronglySorted str_lt (l ++ k) -> x ∈ l -> y ∈ k -> str_lt x y.
Proof.
  induction l as [|z l IH]; intros Hs Hx Hy; [by apply not_elem_of_nil in Hx|]. simpl in Hs. apply StronglySorted_inv in Hs as [Hs Hz].
  apply elem_of_cons in Hx as [->|Hx]; [|by apply IH]. rewrite Forall_forall in Hz. apply Hz. set_solver.
Qed.

Lemma map_seq_const {A} (f : nat -> A) c a m : (forall i, f i = c) -> map f (seq a m) = replicate m c.
Proof. intros Hf. revert a. induction m as [|m IH]; intros a; [done|]. simpl. by rewrite Hf, IH. Qed.

Section prefixes.
Context (n : nat).

Definition splits (key : bytestring) : Prop := bytes_ok key ∧ is_Some (split_parts n key 0).

(** A prefix that has occurred and is not the one of the last key cannot occur
    again. *)
Lemma prefix_seen_is_last keys last_ key part : StronglySorted str_lt (keys ++ [last_; key]) ->
  Forall splits (keys ++ [last_; key]) -> (part < n)%nat ->
  key_prefix n part key ∈ map (key_prefix n part) (keys ++ [last_]) -> key_prefix n part key = key_prefix n part last_.
Proof.
  intros Hsort Hall Hp (k & Hk & Hin)%list_elem_of_fmap. apply elem_of_app in Hin as [Hin|Hin]; [|set_solver].
  rewrite Forall_app, !Forall_cons in Hall. destruct Hall as (Hks & [Hl Hls] & [Hb Hs] & _).
  rewrite Forall_forall in Hks. destruct (Hks k Hin) as [Hkb Hksp].
  assert (str_lt k last_ ∧ str_lt last_ key) as [H1 H2].
  { split; [apply (sorted_app_lt keys [last_; key]); set_solver|].
    apply (sorted_app_lt (keys ++ [last_]) [key]); [by rewrite <- app_assoc|set_solver..]. }
  symmetry. rewrite Hk. apply key_prefix_shared; try done.
  apply (prefix_between _ k last_ key); [apply key_prefix_prefix|rewrite <- Hk; apply key_prefix_prefix|by apply str_le_lt_eq; left..].
Qed.

(** The state after the keys of a list. *)
Record counted (keys : list bytestring) (st : NdvState) : Prop := mkCounted {
  ct_ok : ok st = true;
  ct_first : first st = false;
  ct_last : last keys = Some (prev_key st);
  ct_ends : split_parts n (prev_key st) 0 = Some (prev_part_ends st);
  ct_ndv : out_ndv st = ndv_of n keys;
}.

Lemma count_new_lookup key prev : forall ends prev_ends ndv p, length ends = length ndv -> length prev_ends = length ndv ->
  count_new key prev ends prev_ends ndv !! p =
  (e ← ends !! p; e' ← prev_ends !! p; v ← ndv !! p;
   Some (if negb (e =? e') || negb (str_eqb (take (Z.to_nat e) key) (take (Z.to_nat e') prev)) then u64 (v + 1) else v)).
Proof.
  induction ends as [|e ends IH]; intros [|e' pe] [|v ndv] p H1 H2; simpl in *; try done.
  destruct p as [|p]; [done|]. simpl. apply IH; lia.
Qed.

Lemma counted_step keys st key : counted keys st -> keys <> [] -> StronglySorted str_lt (keys ++ [key]) ->
  Forall splits (keys ++ [key]) -> zlen keys + 1 < 2 ^ 64 ->
  ∃ st', count_key n key st = (st', false) ∧ counted (keys ++ [key]) st'.
Proof.
  intros [Hok Hf Hlast Hends Hndv] Hne Hsort Hall Hlen. apply last_Some in Hlast as [keys' ->].
  rewrite <- app_assoc in *. simpl in *. pose proof Hall as Hall'. rewrite Forall_app, !Forall_cons in Hall'.
  destruct Hall' as (Hks & [Hl _] & [Hb [ends Hs]] & _). unfold count_key. rewrite Hs, Hf. eexists. split; [done|].
  change [prev_key st; key] with ([prev_key st] ++ [key]). rewrite app_assoc.
  constructor; simpl; try done; [by rewrite last_snoc|].
  destruct (split_bounds _ _ _ _ Hb Hs) as [Hel Heb]. destruct (split_bounds _ _ _ _ Hl Hends) as [Hpl Hpb].
  apply list_eq. intros p. rewrite Hndv. unfold ndv_of. rewrite count_new_lookup by (rewrite length_map, length_seq; lia).
  rewrite !list_lookup_fmap. destruct (decide (p < n)%nat) as [Hp|Hp]; cycle 1.
  { rewrite lookup_seq_ge by lia. rewrite (lookup_ge_None_2 ends) by lia. done. }
  rewrite lookup_seq_lt by done. destruct (lookup_lt_is_Some_2 ends p) as [e He]; [lia|].
  destruct (lookup_lt_is_Some_2 (prev_part_ends st) p) as [e' He']; [lia|]. rewrite He, He'. cbn [mbind option_bind fmap option_fmap option_map].
  assert (key_prefix n p key = take (Z.to_nat e) key) as Hkp by (unfold key_prefix; by rewrite Hs, He).
  assert (key_prefix n p (prev_key st) = take (Z.to_nat e') (prev_key st)) as Hpp by (unfold key_prefix; by rewrite Hends, He').
  rewrite Nat.add_0_l, (map_app (key_prefix n p) (keys' ++ [prev_key st]) [key]). cbn [map]. f_equal. rewrite distinct_snoc, <- Hkp, <- Hpp.
  pose proof (distinct_bound (map (key_prefix n p) (keys' ++ [prev_key st]))) as Hd. unfold zlen in Hd, Hlen. rewrite length_map in Hd.
  destruct (decide (key_prefix n p key = key_prefix n p (prev_key st))) as [E|E].
  - rewrite E. rewrite str_eqb_refl. assert (e = e') as ->.
    { rewrite Hkp, Hpp in E. apply (f_equal length) in E. rewrite !length_take in E. specialize (Heb _ _ He). specialize (Hpb _ _ He'). unfold zlen in *. lia. }
    rewrite Z.eqb_refl. simpl. rewrite decide_True; [done|]. rewrite map_app. set_solver.
  - assert (str_eqb (key_prefix n p key) (key_prefix n p (prev_key st)) = false) as -> by (by apply str_eqb_neq).
    rewrite orb_true_r. rewrite decide_False; [apply u64_small; unfold is_u64; lia|]. intros Hin. apply E. by apply (prefix_seen_is_last keys').
Qed.

Abbreviation counting := (fun key st => Some (count_key n key st)).

Lemma counted_first key st : splits key -> first st = true -> ok st = true ->
  ∃ st', count_key n key st = (st', false) ∧ counted [key] st'.
Proof.
  intros [Hb [ends Hs]] Hf Hok. unfold count_key. rewrite Hs, Hf. eexists. split; [done|]. constructor; simpl; try done.
  unfold ndv_of. symmetry. apply map_seq_const. intros i. exact (distinct_snoc [] (key_prefix n i key)).
Qed.

Lemma scan_counted rest : forall done st, counted done st -> done <> [] -> StronglySorted str_lt (done ++ rest) ->
  Forall splits (done ++ rest) -> zlen (done ++ rest) < 2 ^ 64 ->
  ∃ st', scan counting rest st = Some st' ∧ counted (done ++ rest) st'.
Proof.
  induction rest as [|key rest IH]; intros done st Hc Hne Hsort Hall Hlen; [exists st; by rewrite app_nil_r|].
  change (key :: rest) with ([key] ++ rest) in *. rewrite app_assoc in *. pose proof Hall as Hall'. apply Forall_app in Hall' as [Hall' _].
  destruct (counted_step done st key) as (st' & E & Hc'); try done.
  { clear -Hsort. induction (done ++ [key]) as [|x l IHl]; [constructor|]. simpl in Hsort. apply StronglySorted_inv in Hsort as [Hs Hx].
    constructor; [by apply IHl|]. by apply Forall_app in Hx as [? _]. }
  { unfold zlen in *. rewrite !length_app in Hlen. simpl in Hlen. lia. }
  simpl. rewrite E. apply (IH (done ++ [key]) st'); try done. by destruct done.
Qed.

Lemma scan_malformed keys : forall st, Exists (fun key => split_parts n key 0 = None) keys ->
  ∃ st', scan counting keys st = Some st' ∧ ok st' = false.
Proof.
  induction keys as [|key keys IH]; intros st Hex; [by apply Exists_nil in Hex|]. simpl. unfold count_key at 1.
  destruct (split_parts n key 0) as [ends|] eqn:E; simpl; [|by eexists]. apply IH. apply Exists_cons in Hex as [Hk|]; [congruence|done].
Qed.

Lemma scan_counts keys : StronglySorted str_lt keys -> Forall bytes_ok keys -> zlen keys < 2 ^ 64 ->
  ∃ st, scan counting keys (mkNdv true true [] (replicate n 0) (replicate n 0)) = Some st ∧
    if bool_decide (Forall (fun key => is_Some (split_parts n key 0)) keys) then ok st = true ∧ out_ndv st = ndv_of n keys else ok st = false.
Proof.
  intros Hsort Hb Hlen. case_bool_decide as Hall; cycle 1.
  { apply not_Forall_Exists in Hall; [|solve_decision]. apply scan_malformed. eapply Exists_impl; [exact Hall|]. intros k. apply eq_None_not_Some. }
  assert (Forall splits keys) as Hs by (apply Forall_forall; intros k Hk; rewrite Forall_forall in Hb, Hall; split; auto).
  destruct keys as [|key keys].
  - eexists. split; [done|]. split; [done|]. simpl. symmetry. by apply map_seq_const.
  - pose proof (proj1 (Forall_cons _ _ _) Hs) as [Hk _].
    destruct (counted_first key (mkNdv true true [] (replicate n 0) (replicate n 0)) Hk eq_refl eq_refl) as (st & E & Hc).
    simpl. rewrite E. destruct (scan_counted keys [key] st Hc) as (st' & E' & [Hok _ _ _ Hndv]); [done..|]. by exists st'.
Qed.

End prefixes.

(** The call counts the live keys. *)
Lemma ndv_live index n keys : live_keys index = Some keys ->
  ComputeIndexNdvInt true index (S n) =
  (st ← scan (fun key st => Some (count_key (S n) key st)) keys (mkNdv true true [] (replicate (S n) 0) (replicate (S n) 0));
   Some (if ok st && completed index then (true, out_ndv st) else (false, replicate (S n) 0))).
Proof.
  intros Hlive. unfold ComputeIndexNdvInt. simpl negb. destruct index as [|visits c|visits c]; simpl in Hlive; [done|..].
  - destruct (mapM live_primary visits) as [l|] eqn:El; [|done]. injection Hlive as <-.
    rewrite (scan_live _ (fun key st => Some (count_key (S n) key st)) live_primary) with (l := l); [done| |done].
    intros [k loads] s. unfold ndv_primary, live_primary. simpl. by destruct (stable loads) as [[]|].
  - destruct (mapM live_secondary visits) as [l|] eqn:El; [|done]. injection Hlive as <-.
    rewrite (scan_live _ (fun key st => Some (count_key (S n) key st)) live_secondary) with (l := l); [done| |done].
    intros [k o] s. unfold ndv_secondary, live_secondary. simpl. destruct o as [[loads base]|]; [|done].
    by destruct (stable_live_secondary loads base) as [[]|].
Qed.

(** C22. ComputeIndexNdvInt is exact: one pass over the live keys in order,
    which compares each key with the one before it, gives for each depth the
    number of distinct prefixes of that many key parts; if a live key is not
    made of integer parts the call fails and reports zeros. *)
Theorem index_ndv_exact index n keys : (0 < n)%nat -> live_keys index = Some keys -> completed index = true ->
  StronglySorted str_lt keys -> Forall bytes_ok keys -> zlen keys < 2 ^ 64 ->
  ComputeIndexNdvInt true index n =
  Some (if bool_decide (Forall (fun key => is_Some (split_parts n key 0)) keys)
        then (true, ndv_of n keys) else (false, replicate n 0)).
Proof.
  intros Hn Hlive Hcomp Hsort Hb Hlen. destruct (scan_counts n keys Hsort Hb Hlen) as (st & E & Hst).
  destruct n as [|n]; [lia|]. rewrite (ndv_live index n keys Hlive), E, Hcomp. cbn [mbind option_bind]. rewrite andb_true_r.
  destruct (bool_decide _); [by destruct Hst as [-> ->]|by rewrite Hst].
Qed.

(** ** Buckets *)

Definition lead (key : bytestring) : bytestring := take (Z.to_nat (leading_end key)) key.
Fixpoint total_rows (rows : list (bytestring * Z)) : Z :=
  match rows with [] => 0 | (_, w) :: rows' => w + total_rows rows' end.
Fixpoint steps_below (d from : Z) (cum : list Z) : Prop :=
  match cum with [] => True | c :: cum' => c < from + d ∧ steps_below d c cum' end.

(** A histogram of rows: each bound is the leading part of a key and its count
    that of the rows up to this key; the counts grow to the number of all rows,
    the bounds ascend, and no bucket has more than a stride of rows and those
    of one key. *)
Record histogram_of (rows : list (bytestring * Z)) (stride : Z) (bounds : list bytestring) (cum : list Z) : Prop := mkHistogramOf {
  h_length : length bounds = length cum;
  h_rows : forall i b c, bounds !! i = Some b -> cum !! i = Some c ->
    ∃ p k w, rows !! p = Some (k, w) ∧ b = lead k ∧ c = total_rows (take (S p) rows);
  h_last : last cum = Some (total_rows rows);
  h_cum : StronglySorted Z.lt cum;
  h_bounds : StronglySorted str_le bounds;
  h_depth : forall most, (forall k w, (k, w) ∈ rows -> w <= most) -> steps_below (stride + most) 0 cum;
}.

Lemma leading_end_spec key : leading_end key <> 0 ->
  leading_end key = 4 + Z.lor (Z.shiftl (byte_at key 2) 8) (byte_at key 3) ∧ leading_end key <= zlen key.
Proof.
  unfold leading_end. destruct (_ <? _); [done|]. destruct (negb _); [done|]. destruct (_ && _); [done|].
  destruct (Z.leb_spec (4 + Z.lor (Z.shiftl (byte_at key 2) 8) (byte_at key 3)) (zlen key)); [|done]. done.
Qed.

Lemma lead_shared k k' : bytes_ok k -> bytes_ok k' -> leading_end k <> 0 -> leading_end k' <> 0 ->
  lead k `prefix_of` k' -> lead k' = lead k.
Proof.
  intros Hb Hb' Hk Hk' Hpre. destruct (leading_end_spec k Hk) as [E Hle], (leading_end_spec k' Hk') as [E' Hle'].
  pose proof (length_word_nonneg k 2 Hb) as Hlen. change (2 + 1) with 3 in Hlen.
  assert (leading_end k' = leading_end k) as Eq.
  { rewrite E', E. unfold lead in Hpre. by rewrite !(byte_at_shared k k' (leading_end k)) by (done || lia). }
  unfold lead in *. rewrite Eq. destruct Hpre as [r ->]. rewrite take_app_le, take_take, Nat.min_id; [done|].
  rewrite length_take. unfold zlen in Hle. lia.
Qed.

Lemma lead_prefix k : lead k `prefix_of` k.
Proof. eexists. symmetry. apply take_drop. Qed.

Lemma lead_le k k' : bytes_ok k -> bytes_ok k' -> leading_end k <> 0 -> leading_end k' <> 0 -> str_lt k k' -> str_le (lead k) (lead k').
Proof.
  intros Hb Hb' Hk Hk' Hlt. apply (str_le_prefix k k'); [apply lead_prefix..|by apply str_le_lt_eq; left| |]; intros Hp.
  - symmetry. apply lead_shared; try done. transitivity (lead k'); [done|apply lead_prefix].
  - symmetry. apply lead_shared; try done. transitivity (lead k); [done|apply lead_prefix].
Qed.

(** The loop ends at the first bound past the rows seen. *)
Lemma advance_spec fuel seen next stride : 1 <= stride -> 0 <= next -> 0 <= seen -> seen + stride < 2 ^ 64 ->
  seen - next < Z.of_nat fuel -> ∃ next', advance fuel seen next stride = Some next' ∧ seen < next' <= Z.max next (seen + stride).
Proof.
  intros Hs. revert next. induction fuel as [|fuel IH]; intros next Hn Hseen Hmax Hf; simpl; (destruct (Z.ltb_spec seen next); [exists next; split; [done|lia]|]).
  { lia. }
  rewrite u64_small by (unfold is_u64; lia). destruct (IH (next + stride)) as (next' & -> & Hb); [lia..|].
  exists next'. split; [done|]. lia.
Qed.

Lemma sorted_snoc {A} (R : relation A) l x : StronglySorted R l -> Forall (fun y => R y x) l -> StronglySorted R (l ++ [x]).
Proof.
  induction 1 as [|y l Hl IH Hy]; intros Hx; simpl; [repeat constructor|]. apply Forall_cons in Hx as [Hyx Hx].
  constructor; [by apply IH|]. apply Forall_app. split; [done|]. by repeat constructor.
Qed.

Lemma total_rows_nonneg rows : (forall k w, (k, w) ∈ rows -> 1 <= w) -> zlen rows <= total_rows rows.
Proof.
  induction rows as [|[k w] rows IH]; intros Hw; simpl; [done|]. rewrite zlen_cons. pose proof (Hw k w ltac:(by left)).
  specialize (IH ltac:(intros; eapply Hw; by right)). lia.
Qed.

(** Pass 1 adds the rows up, unless a key has no leading part. *)
Lemma count_rows_spec rows : forall total, (forall k w, (k, w) ∈ rows -> 1 <= w) -> 0 <= total -> total + total_rows rows < 2 ^ 64 ->
  ∃ bad total', scan (fun e => count_rows e.1 e.2) rows (false, total) = Some (bad, total') ∧
    if bool_decide (Forall (fun e => leading_end e.1 <> 0) rows) then bad = false ∧ total' = total + total_rows rows else bad = true.
Proof.
  induction rows as [|[k w] rows IH]; intros total Hw H0 Hmax; cbn [scan].
  - exists false, total. split; [done|]. rewrite bool_decide_eq_true_2 by constructor. split; [done|simpl; lia].
  - cbn [fst snd total_rows] in *.
    assert (count_rows k w (false, total) = if leading_end k =? 0 then Some ((true, total), true) else Some ((false, u64 (total + w)), false)) as -> by done.
    pose proof (Hw k w ltac:(by left)) as Hkw.
    assert (forall k w, (k, w) ∈ rows -> 1 <= w) as Hw' by (intros; eapply Hw; by right).
    pose proof (total_rows_nonneg rows Hw'). pose proof (zlen_nonneg rows). destruct (Z.eqb_spec (leading_end k) 0) as [Hk|Hk]; cbn [mbind option_bind fst snd].
    + exists true, total. split; [done|]. rewrite bool_decide_eq_false_2; [done|]. intros Hall. apply Forall_cons in Hall as [Hall _]. done.
    + rewrite u64_small by (unfold is_u64; lia). destruct (IH (total + w) Hw') as (bad & total' & E & Hb); [lia..|].
      exists bad, total'. split; [done|]. destruct (decide (Forall (fun e => leading_end e.1 <> 0) rows)) as [Ha|Ha].
      * rewrite bool_decide_eq_true_2 in Hb by done. rewrite bool_decide_eq_true_2 by (by constructor). destruct Hb. split; [done|lia].
      * rewrite bool_decide_eq_false_2 in Hb by done. rewrite bool_decide_eq_false_2; [done|]. intros Hall. by apply Forall_cons in Hall as [_ ?].
Qed.

Section buckets.
Context (stride : Z) (Hstride : 1 <= stride).

(** Between entries: [base] rows are in closed buckets. *)
Record open_bucket (st : HistState) (base : Z) : Prop := mkOpenBucket {
  ob_fine : malformed st = false;
  ob_seen : 0 <= base <= seen st;
  ob_next : seen st < next st <= base + stride;
}.

Lemma close_step st base k w : open_bucket st base -> leading_end k <> 0 -> 1 <= w -> seen st + w + stride < 2 ^ 64 ->
  ∃ st', close_bucket stride k w st = Some (st', false) ∧ seen st' = seen st + w ∧ last_key st' = lead k ∧
    (out_bounds st' = out_bounds st ++ [lead k] ∧ out_cum st' = out_cum st ++ [seen st'] ∧ open_bucket st' (seen st') ∨
     out_bounds st' = out_bounds st ∧ out_cum st' = out_cum st ∧ open_bucket st' base).
Proof.
  intros [Hf Hs Hn] Hk Hw Hmax. unfold close_bucket. rewrite (proj2 (Z.eqb_neq _ _) Hk). rewrite u64_small by (unfold is_u64; lia).
  destruct (Z.leb_spec (next st) (seen st + w)) as [Hle|Hlt].
  - destruct (advance_spec (Z.to_nat (seen st + w)) (seen st + w) (next st) stride) as (next' & -> & Hb); [lia..|].
    eexists. split; [done|]. split; [done|]. split; [done|]. left. split; [done|]. split; [done|]. constructor; simpl; [done|lia..].
  - eexists. split; [done|]. split; [done|]. split; [done|]. right. split; [done|]. split; [done|]. constructor; simpl; [done|lia..].
Qed.

(** The buckets that entries close, after [from] rows. *)
Record closes (from base : Z) (rows : list (bytestring * Z)) (bounds : list bytestring) (cum : list Z) : Prop := mkCloses {
  cl_length : length bounds = length cum;
  cl_rows : forall i b c, bounds !! i = Some b -> cum !! i = Some c ->
    ∃ p k w, rows !! p = Some (k, w) ∧ b = lead k ∧ c = from + total_rows (take (S p) rows);
  cl_range : Forall (fun c => from < c <= from + total_rows rows) cum;
  cl_cum : StronglySorted Z.lt cum;
  cl_bounds : StronglySorted str_le bounds;
  cl_depth : forall most, (forall k w, (k, w) ∈ rows -> w <= most) -> steps_below (stride + most) base cum;
}.

Definition rows_ok (rows : list (bytestring * Z)) : Prop :=
  StronglySorted str_lt (map fst rows) ∧ Forall (fun e => bytes_ok e.1 ∧ leading_end e.1 <> 0 ∧ 1 <= e.2) rows.

Lemma rows_ok_cons e rows : rows_ok (e :: rows) ->
  rows_ok rows ∧ (bytes_ok e.1 ∧ leading_end e.1 <> 0 ∧ 1 <= e.2) ∧ forall k w, (k, w) ∈ rows -> str_le (lead e.1) (lead k).
Proof.
  intros [Hs Ha]. simpl in Hs. apply StronglySorted_inv in Hs as [Hs He]. apply Forall_cons in Ha as [Hea Ha]. split; [done|]. split; [done|].
  intros k w Hin. rewrite Forall_forall in He. rewrite Forall_forall in Ha. destruct (Ha _ Hin) as (H1 & H2 & _). destruct Hea as (H3 & H4 & _).
  apply lead_le; try done. apply He. apply (list_elem_of_fmap_2 fst) in Hin. done.
Qed.

Lemma closes_skip from base k w rows bounds cum : from + w < base + stride -> 1 <= w -> 0 <= total_rows rows ->
  closes (from + w) base rows bounds cum -> closes from base ((k, w) :: rows) bounds cum.
Proof.
  intros Hlt Hw Ht [Hl Hr Hg Hc Hb Hd]. constructor; try done.
  - intros i b c Hi Hj. destruct (Hr i b c Hi Hj) as (p & k' & w' & Hp & -> & ->). exists (S p), k', w'. split; [done|]. split; [done|]. simpl. lia.
  - eapply Forall_impl; [exact Hg|]. simpl. lia.
  - intros most Hm. apply Hd. intros. eapply Hm. by right.
Qed.

Lemma closes_close from base k w rows bounds cum : rows_ok ((k, w) :: rows) -> from < base + stride -> 0 <= total_rows rows ->
  closes (from + w) (from + w) rows bounds cum -> closes from base ((k, w) :: rows) (lead k :: bounds) ((from + w) :: cum).
Proof.
  intros Hok Hlt Ht [Hl Hr Hg Hc Hb Hd]. apply rows_ok_cons in Hok as (_ & (_ & _ & Hw) & Hle). simpl in *. constructor; simpl.
  - lia.
  - intros [|i] b c Hi Hj; simpl in *.
    + simplify_eq. exists 0%nat, k, w. split; [done|]. split; [done|]. simpl. lia.
    + destruct (Hr i b c Hi Hj) as (p & k' & w' & Hp & -> & ->). exists (S p), k', w'. split; [done|]. split; [done|]. simpl. lia.
  - constructor; [lia|]. eapply Forall_impl; [exact Hg|]. simpl. lia.
  - constructor; [done|]. eapply Forall_impl; [exact Hg|]. simpl. lia.
  - constructor; [done|]. apply Forall_forall. intros b (i & Hi)%list_elem_of_lookup.
    destruct (lookup_lt_is_Some_2 cum i) as [c Hj]; [rewrite <- Hl; by eapply lookup_lt_Some|].
    destruct (Hr i b c Hi Hj) as (p & k' & w' & Hp & -> & _). apply (Hle k' w'). by eapply list_elem_of_lookup_2.
  - intros most Hm. pose proof (Hm k w ltac:(by left)). split; [lia|]. apply Hd. intros. eapply Hm. by right.
Qed.

Lemma close_all rows : forall st base, open_bucket st base -> rows_ok rows -> seen st + total_rows rows + stride < 2 ^ 64 ->
  ∃ st' bounds cum, scan (fun e => close_bucket stride e.1 e.2) rows st = Some st' ∧ seen st' = seen st + total_rows rows ∧
    out_bounds st' = out_bounds st ++ bounds ∧ out_cum st' = out_cum st ++ cum ∧
    (forall k w, last rows = Some (k, w) -> last_key st' = lead k) ∧ open_bucket st' (default base (last cum)) ∧
    closes (seen st) base rows bounds cum.
Proof.
  induction rows as [|[k w] rows IH]; intros st base Hob Hok Hmax.
  - exists st, [], []. simpl. rewrite !app_nil_r. split_and!; try done; [lia|]. constructor; try done; try constructor.
  - pose proof (rows_ok_cons _ _ Hok) as (Hok' & (_ & Hk & Hw) & _). simpl in Hk, Hw.
    assert (0 <= total_rows rows) as Ht.
    { pose proof (total_rows_nonneg rows). pose proof (zlen_nonneg rows). assert (zlen rows <= total_rows rows); [|lia].
      apply H. intros k' w' Hin. destruct Hok' as [_ Ha]. rewrite Forall_forall in Ha. by apply (Ha (k', w')). }
    cbn [scan fst snd total_rows] in *. destruct (close_step st base k w Hob Hk Hw) as (st1 & -> & Hseen & Hlast & Hcase); [lia|].
    cbn [mbind option_bind]. destruct Hob as [_ Hs Hn].
    destruct Hcase as [(Hb1 & Hc1 & Hob1)|(Hb1 & Hc1 & Hob1)];
      (destruct (IH st1 _ Hob1 Hok') as (st' & bounds & cum & E & Hs' & Hb' & Hc' & Hl' & Hob' & Hcl); [lia|]); rewrite Hseen in *.
    + exists st', (lead k :: bounds), ((seen st + w) :: cum). split; [done|]. split; [lia|]. rewrite Hb', Hc', Hb1, Hc1, <- !app_assoc.
      split; [done|]. split; [done|]. split; [|split; [|by apply closes_close; [done|lia..|]]].
      * intros k' w'. destruct rows as [|e rows]; [|rewrite last_cons_cons; apply Hl']. intros [= <- <-]. simpl in E. injection E as <-. done.
      * destruct cum as [|c cum]; [done|]. rewrite last_cons_cons. destruct (last (c :: cum)) eqn:El; [done|]. by apply last_None in El.
    + exists st', bounds, cum. rewrite Hb', Hc', Hb1, Hc1. split; [done|]. split; [lia|]. split; [done|]. split; [done|]. split; [|split; [done|]].
      * intros k' w'. destruct rows as [|e rows]; [|rewrite last_cons_cons; apply Hl']. intros [= <- <-]. simpl in E. injection E as <-. done.
      * apply closes_skip; try done. destruct Hob1 as [_ ? ?]. lia.
Qed.

End buckets.

(** ** The two passes *)

Lemma walk_rows {S} index rows (f : bytestring -> Z -> S -> option (S * bool)) st : live_rows index = Some rows ->
  walk index f st = Some <$> scan (fun e => f e.1 e.2) rows st.
Proof.
  intros Hlive. destruct index as [|visits c|visits c]; simpl in Hlive; [done|..]; unfold walk.
  - destruct (mapM rows_primary visits) as [l|] eqn:El; [|done]. injection Hlive as <-.
    rewrite (scan_live _ (fun e => f e.1 e.2) rows_primary) with (l := l); [done| |done].
    intros [k loads] s. unfold walk_primary, rows_primary. simpl. by destruct (stable loads) as [[]|].
  - destruct (mapM rows_secondary visits) as [l|] eqn:El; [|done]. injection Hlive as <-.
    rewrite (scan_live _ (fun e => f e.1 e.2) rows_secondary) with (l := l); [done| |done].
    intros [k [[loads base]|]] s; unfold walk_secondary, rows_secondary; simpl; [|done].
    destruct (stable_pk_count loads) as [w|]; simpl; [|done]. by destruct (w =? 0).
Qed.

Lemma stride_bound total buckets : 0 < buckets -> 0 <= total -> 1 <= Z.max 1 (total / buckets) <= Z.max 1 total.
Proof. intros Hb Ht. pose proof (Z.div_le_upper_bound total buckets total Hb). nia. Qed.

Lemma start_bucket stride : 1 <= stride -> open_bucket stride (mkHist false 0 stride [] [] []) 0.
Proof. intros. constructor; simpl; [done|lia..]. Qed.

Lemma last_cons_default (x from : Z) cum : default from (last (x :: cum)) = default x (last cum).
Proof. destruct cum as [|y cum]; [done|]. rewrite last_cons_cons. destruct (last (y :: cum)) eqn:E; [done|]. by apply last_None in E. Qed.

Lemma steps_below_snoc d from cum c : steps_below d from cum -> c < default from (last cum) + d -> steps_below d from (cum ++ [c]).
Proof.
  revert from. induction cum as [|x cum IH]; intros from; [done|]. cbn [app steps_below]. intros [Hx H] Hc. split; [done|].
  apply IH; [done|]. by rewrite last_cons_default in Hc.
Qed.

Lemma lead_last rows' rows k w p k' w' : rows = rows' ++ [(k, w)] -> rows_ok rows -> rows !! p = Some (k', w') -> str_le (lead k') (lead k).
Proof.
  intros -> Hok Hp. revert p Hp. induction rows' as [|e rows' IH]; intros p Hp; simpl in *.
  - apply list_lookup_singleton_Some in Hp as [_ [= -> ->]]. apply str_le_lt_eq. by right.
  - apply rows_ok_cons in Hok as (Hok & _ & Hle). destruct p as [|p]; simpl in Hp; [|by apply (IH Hok p)].
    injection Hp as ->. apply (Hle k w). set_solver.
Qed.

Lemma counts_below cum total : Forall (fun c => 0 < c <= 0 + total) cum -> StronglySorted Z.lt cum -> last cum <> Some total ->
  Forall (fun c => c < total) cum.
Proof.
  induction cum as [|c cum IH]; intros Hg Hc Hlast; [constructor|]. apply Forall_cons in Hg as [Hgc Hg].
  apply StronglySorted_inv in Hc as [Hc Hcl]. destruct cum as [|c' cum].
  - constructor; [|constructor]. simpl in Hlast. assert (c <> total) by congruence. lia.
  - rewrite last_cons_cons in Hlast. specialize (IH Hg Hc Hlast). constructor; [|done]. apply Forall_cons in Hcl as [? _].
    apply Forall_cons in IH as [? _]. lia.
Qed.

(** A closed histogram, with the last bucket at the last key. *)
Lemma closed_histogram stride rows st bounds cum : closes stride 0 0 rows bounds cum -> 1 <= stride -> rows <> [] -> rows_ok rows ->
  out_bounds st = bounds -> out_cum st = cum -> seen st = total_rows rows ->
  (forall k w, last rows = Some (k, w) -> last_key st = lead k) -> open_bucket stride st (default 0 (last cum)) ->
  let final := if bool_decide (last cum = Some (total_rows rows)) then (bounds, cum)
               else (bounds ++ [last_key st], cum ++ [total_rows rows]) in
  final.1 <> [] ∧ histogram_of rows stride final.1 final.2.
Proof.
  intros [Hl Hr Hg Hc Hb Hd] Hstride Hne Hok <- <- Hseen Hlast Hob. case_bool_decide as Htot; simpl.
  { split; [|by constructor]. intros E. rewrite E in Hl. destruct (out_cum st); [done|]. done. }
  split; [by destruct (out_bounds st)|]. destruct (last rows) as [[k w]|] eqn:El; [|by apply last_None in El].
  specialize (Hlast k w eq_refl). apply last_Some in El as [rows' Erows].
  pose proof (counts_below _ _ Hg Hc Htot) as Hbelow.
  constructor.
  - rewrite !length_app. simpl. lia.
  - intros i b c [Hi|[Hge Hi]]%lookup_app_Some [Hj|[Hge' Hj]]%lookup_app_Some.
    + by apply (Hr i).
    + apply lookup_lt_Some in Hi. lia.
    + apply lookup_lt_Some in Hj. lia.
    + apply list_lookup_singleton_Some in Hi as [_ <-], Hj as [_ <-]. exists (length rows'), k, w. rewrite Erows at 1.
      rewrite lookup_app_r, Nat.sub_diag by lia. split; [done|]. split; [done|]. rewrite take_ge; [done|]. rewrite Erows, length_app. simpl. lia.
  - by rewrite last_snoc.
  - by apply sorted_snoc.
  - apply sorted_snoc; [done|]. apply Forall_forall. intros b (i & Hi)%list_elem_of_lookup. rewrite Hlast.
    destruct (lookup_lt_is_Some_2 (out_cum st) i) as [c Hj]; [rewrite <- Hl; by eapply lookup_lt_Some|].
    destruct (Hr i b c Hi Hj) as (p & k' & w' & Hp & -> & _). by apply (lead_last rows' rows k w p k' w').
  - intros most Hm. apply steps_below_snoc; [by apply Hd|]. destruct Hob as [_ _ Hn]. pose proof (Hm k w ltac:(rewrite Erows; set_solver)).
    destruct Hok as [_ Ha]. rewrite Erows in Ha. apply Forall_app in Ha as [_ Ha]. apply Forall_cons in Ha as [(_ & _ & Hw) _]. simpl in Hw. lia.
Qed.

(** On an index that does not change between its passes,
    ComputeIndexHistogram succeeds exactly if there are rows and every live
    key has a leading part, and then the bounds ascend, each count is that of
    the rows up to the key that closed the bucket, the counts grow to the
    number of all rows, and no bucket holds more than a stride of rows and
    those of one key. *)
Theorem index_histogram_exact index rows buckets : 0 < buckets -> live_rows index = Some rows ->
  StronglySorted str_lt (map fst rows) -> Forall (fun e => bytes_ok e.1 ∧ 1 <= e.2) rows -> total_rows rows < 2 ^ 63 ->
  if bool_decide (rows <> [] ∧ Forall (fun e => leading_end e.1 <> 0) rows) then
    ∃ bounds cum, ComputeIndexHistogram true index index buckets = Some (true, bounds, cum) ∧
      histogram_of rows (Z.max 1 (total_rows rows / buckets)) bounds cum
  else ComputeIndexHistogram true index index buckets = Some (false, [], []).
Proof.
  intros Hb Hlive Hsort Hrows Hmax. unfold ComputeIndexHistogram. rewrite (proj2 (Z.eqb_neq buckets 0)) by lia. simpl negb.
  assert (forall k w, (k, w) ∈ rows -> 1 <= w) as Hw by (intros k w Hin; rewrite Forall_forall in Hrows; by apply (Hrows (k, w))).
  pose proof (total_rows_nonneg rows Hw) as Hlen. pose proof (zlen_nonneg rows).
  destruct (count_rows_spec rows 0 Hw) as (bad & total & E & Hbad); [lia..|].
  rewrite (walk_rows index rows _ _ Hlive), E. cbn [fmap option_fmap option_map mbind option_bind].
  destruct (decide (Forall (fun e => leading_end e.1 <> 0) rows)) as [Hall|Hall]; cycle 1.
  { rewrite bool_decide_eq_false_2 in Hbad by done. subst bad. rewrite bool_decide_eq_false_2; [done|]. by intros [_ ?]. }
  rewrite bool_decide_eq_true_2 in Hbad by done. destruct Hbad as [-> ->]. rewrite Z.add_0_l. simpl orb.
  destruct (decide (rows = [])) as [->|Hne]; [rewrite bool_decide_eq_false_2; [done|]; by intros [? _]|].
  rewrite bool_decide_eq_true_2 by done. assert (0 < total_rows rows) as Hpos by (destruct rows; [done|]; rewrite zlen_cons in Hlen; pose proof (zlen_nonneg rows); lia).
  rewrite (proj2 (Z.eqb_neq _ 0)) by lia. pose proof (stride_bound (total_rows rows) buckets Hb ltac:(lia)) as Hst.
  set (stride := Z.max 1 (total_rows rows / buckets)) in *.
  assert (rows_ok rows) as Hok.
  { split; [done|]. apply Forall_forall. intros e He. rewrite Forall_forall in Hrows. rewrite Forall_forall in Hall. destruct (Hrows e He). auto. }
  destruct (close_all stride ltac:(lia) rows _ 0 (start_bucket stride ltac:(lia)) Hok) as (st & bounds & cum & E2 & Hs & Ho & Hc & Hl & Hob & Hcl); [simpl; lia|].
  rewrite (walk_rows index rows _ _ Hlive), E2. cbn [fmap option_fmap option_map mbind option_bind]. rewrite (ob_fine _ _ _ Hob). simpl in Hs, Ho, Hc.
  destruct (closed_histogram stride rows st bounds cum Hcl ltac:(lia) Hne Hok Ho Hc Hs Hl Hob) as [Hnil Hhist]. rewrite Ho, Hc.
  destruct (bool_decide (last cum = Some (total_rows rows))); simpl in Hnil, Hhist.
  - exists bounds, cum. by rewrite bool_decide_eq_false_2.
  - eexists _, _. split; [|exact Hhist]. by rewrite bool_decide_eq_false_2.
Qed.

(** ** Termination *)

(** Every stable read of a walk has met an unlocked version that did not change. *)
Definition settled (index : IndexWalk) (rows : list (bytestring * Z)) : Prop :=
  match index with NoSuchIndex => rows = [] | _ => live_rows index = Some rows end.
Definition keys_settled (index : IndexWalk) : Prop := match index with NoSuchIndex => True | _ => is_Some (live_keys index) end.

Lemma walk_settled {S} index rows (f : bytestring -> Z -> S -> option (S * bool)) st : settled index rows ->
  walk index f st = Some None ∨ walk index f st = Some <$> scan (fun e => f e.1 e.2) rows st.
Proof. destruct index; intros H; [by left|right; by apply walk_rows..]. Qed.

Lemma scan_total {E S} (f : E -> S -> S * bool) l st : is_Some (scan (fun e s => Some (f e s)) l st).
Proof. revert st. induction l as [|e l IH]; intros st; simpl; [by eexists|]. destruct (f e st) as [s []]; [by eexists|apply IH]. Qed.

Lemma close_bucket_defined stride st base k w : 1 <= stride -> open_bucket stride st base -> 1 <= w -> seen st + w + stride < 2 ^ 64 ->
  ∃ st' stop, close_bucket stride k w st = Some (st', stop) ∧
    (stop = false -> seen st' = seen st + w ∧ ∃ base', open_bucket stride st' base').
Proof.
  intros Hstr Hob Hw Hmax. destruct (decide (leading_end k = 0)) as [Hk|Hk].
  - unfold close_bucket. rewrite Hk. simpl. by eexists _, true.
  - destruct (close_step stride Hstr st base k w Hob Hk Hw Hmax) as (st' & E & Hs & _ & [(_ & _ & Hob')|(_ & _ & Hob')]);
      exists st', false; split; eauto.
Qed.

Lemma close_defined stride rows : forall st base, 1 <= stride -> open_bucket stride st base -> (forall k w, (k, w) ∈ rows -> 1 <= w) ->
  seen st + total_rows rows + stride < 2 ^ 64 -> is_Some (scan (fun e => close_bucket stride e.1 e.2) rows st).
Proof.
  induction rows as [|[k w] rows IH]; intros st base Hstr Hob Hw Hmax; [by eexists|]. cbn [scan fst snd total_rows] in *.
  assert (forall k w, (k, w) ∈ rows -> 1 <= w) as Hw' by (intros; eapply Hw; by right).
  pose proof (total_rows_nonneg rows Hw'). pose proof (zlen_nonneg rows). pose proof (Hw k w ltac:(by left)).
  destruct (close_bucket_defined stride st base k w) as (st' & stop & -> & Hgo); [done..|lia|]. cbn [mbind option_bind].
  destruct stop; [by eexists|]. destruct (Hgo eq_refl) as (Hs & base' & Hob'). apply (IH st' base'); [done..|lia].
Qed.

(** Both index statistics return, whatever the index holds and however it
    changes between the passes, once their stable reads have met an unlocked
    version that did not change: the loop that moves the next bound of the
    histogram ends. *)
Theorem statistics_return has_table pass1 pass2 rows1 rows2 buckets n : 0 <= buckets ->
  settled pass1 rows1 -> settled pass2 rows2 -> keys_settled pass1 ->
  (forall k w, (k, w) ∈ rows1 ++ rows2 -> 1 <= w) -> total_rows rows1 < 2 ^ 63 -> total_rows rows2 < 2 ^ 62 ->
  is_Some (ComputeIndexHistogram has_table pass1 pass2 buckets) ∧ is_Some (ComputeIndexNdvInt has_table pass1 n).
Proof.
  intros Hb Hs1 Hs2 Hkeys Hw Ht1 Ht2. split.
  - unfold ComputeIndexHistogram. destruct (Z.eqb_spec buckets 0) as [|Hb0]; [by eexists|]. destruct has_table; simpl; [|by eexists].
    assert (forall k w, (k, w) ∈ rows1 -> 1 <= w) as Hw1 by (intros k w Hin; apply (Hw k w), elem_of_app; by left).
    assert (forall k w, (k, w) ∈ rows2 -> 1 <= w) as Hw2 by (intros k w Hin; apply (Hw k w), elem_of_app; by right).
    pose proof (total_rows_nonneg rows1 Hw1). pose proof (zlen_nonneg rows1).
    destruct (walk_settled pass1 rows1 count_rows (false, 0) Hs1) as [-> | ->]; [by eexists|].
    destruct (count_rows_spec rows1 0 Hw1) as (bad & total & -> & Htot); [lia..|]. cbn [fmap option_fmap option_map mbind option_bind].
    destruct bad; [by eexists|]. destruct (bool_decide _); [|done]. destruct Htot as [_ ->]. simpl orb. destruct (_ =? 0); [by eexists|].
    rewrite Z.add_0_l. pose proof (stride_bound (total_rows rows1) buckets ltac:(lia) ltac:(lia)) as Hst. set (stride := Z.max 1 _) in *.
    destruct (walk_settled pass2 rows2 (close_bucket stride) (mkHist false 0 stride [] [] []) Hs2) as [-> | ->]; [by eexists|].
    destruct (close_defined stride rows2 _ 0 ltac:(lia) (start_bucket stride ltac:(lia)) Hw2) as [st ->]; [simpl; lia|].
    cbn [fmap option_fmap option_map mbind option_bind]. destruct (malformed st); [by eexists|]. destruct (bool_decide (last _ = _)); by eexists.
  - destruct n as [|n]; [by eexists|]. destruct has_table; [|by eexists]. destruct pass1 as [|visits c|visits c]; [by eexists|..];
      destruct Hkeys as [keys Hk]; rewrite (ndv_live _ _ _ Hk);
      destruct (scan_total (count_key (S n)) keys (mkNdv true true [] (replicate (S n) 0) (replicate (S n) 0))) as [st ->]; by eexists.
Qed.

Module Demo.

(** Keys of two integer parts of one byte each: (1, 1), (1, 2), (2, 1). *)
Definition part (v : Z) : bytestring := [0; 16; 0; 1; v].
Definition still (live : bool) : Loads bool := [(TransactionId.mk 1 2, live, TransactionId.mk 1 2)].
Definition settling : Loads bool :=
  [(TransactionId.mk 1 3, false, TransactionId.mk 1 3); (TransactionId.mk 1 4, false, TransactionId.mk 1 5); (TransactionId.mk 1 6, true, TransactionId.mk 1 6)].
Definition visits : list (bytestring * Loads bool) :=
  [(part 1 ++ part 1, still true); (part 1 ++ part 2, settling); (part 1 ++ part 3, still false); (part 2 ++ part 1, still true)].
Definition keys : list bytestring := [part 1 ++ part 1; part 1 ++ part 2; part 2 ++ part 1].

Lemma keys_sorted : StronglySorted str_lt keys.
Proof. repeat constructor. Defined.

Lemma keys_bytes : Forall bytes_ok keys.
Proof. repeat (constructor; [bytes_eval|]). constructor. Defined.

Lemma index_ndv_exact_witness : ComputeIndexNdvInt true (PrimaryWalk visits true) 2 = Some (true, [2; 3]).
Proof.
  exact (index_ndv_exact (PrimaryWalk visits true) 2 keys ltac:(lia) eq_refl eq_refl keys_sorted keys_bytes eq_refl).
Defined.

Lemma index_histogram_exact_witness :
  ∃ bounds cum, ComputeIndexHistogram true (PrimaryWalk visits true) (PrimaryWalk visits true) 2 = Some (true, bounds, cum) ∧
    histogram_of [(part 1 ++ part 1, 1); (part 1 ++ part 2, 1); (part 2 ++ part 1, 1)] 1 bounds cum.
Proof.
  refine (index_histogram_exact (PrimaryWalk visits true) [(part 1 ++ part 1, 1); (part 1 ++ part 2, 1); (part 2 ++ part 1, 1)] 2 _ eq_refl keys_sorted _ _).
  - lia.
  - repeat (constructor; [split; [bytes_eval|simpl; lia]|]). constructor.
  - reflexivity.
Defined.

Definition packed (n : Z) : Ptr := Some (mk n 0 []).
Definition posting (n : Z) : option (Loads Ptr * (bytestring -> option (Loads bool))) :=
  Some ([(TransactionId.mk 1 2, packed n, TransactionId.mk 1 2)], fun _ => None).

Lemma statistics_return_witness :
  is_Some (ComputeIndexHistogram true (PrimaryWalk visits true) (SecondaryWalk [(part 1, posting 7)] true) 4) ∧
  is_Some (ComputeIndexNdvInt true (PrimaryWalk visits true) 2).
Proof.
  refine (statistics_return true (PrimaryWalk visits true) (SecondaryWalk [(part 1, posting 7)] true)
    [(part 1 ++ part 1, 1); (part 1 ++ part 2, 1); (part 2 ++ part 1, 1)] [(part 1, 7)] 4 2 _ eq_refl eq_refl _ _ eq_refl eq_refl).
  - lia.
  - by eexists.
  - intros k w Hin. cbn [app] in Hin. rewrite !elem_of_cons in Hin. destruct Hin as [E|[E|[E|[E|E]]]]; [..|by apply not_elem_of_nil in E]; simplify_eq; lia.
Defined.

End Demo.

(** The counts of a histogram need not be monotone when the index grows between
    the passes: the last count is the total of the first pass. *)
Theorem histogram_counts_may_drop :
  ComputeIndexHistogram true
    (PrimaryWalk [(Demo.part 1, Demo.still true)] true)
    (PrimaryWalk [(Demo.part 1, Demo.still true); (Demo.part 2, Demo.still true); (Demo.part 3, Demo.still true)] true) 2 =
  Some (true, [Demo.part 1; Demo.part 2; Demo.part 3; Demo.part 3], [1; 2; 3; 1]).
Proof. reflexivity. Qed.
