(* ===== verification/TwoPhaseLocking.v ===== *)
(** * Two-phase locking (src/src/concurrency_control/impl/two_phase_locking.hpp)

    The protocol locks a row before it reads or writes it, writes in place and
    keeps the old row for an undo; a lock that is not free at once aborts the
    transaction, and all locks are released at the end.  The system interleaves
    any number of transactions, which call the protocol as
    src/src/transaction_impl.cpp does: a row in the write set is written again
    there and not in place, a row in the read set or the write set is not read
    again, and a scan reads a row with [ReadDirect], which leaves no trace in
    the read set, so that the same row is locked again by a second scan or by
    a later [Read], and released once.

    [Write] finds out whether the row has been read by its key alone.  The
    theorem: if rows with the same key are the same row and no committed
    transaction has written a row twice, the committed transactions are
    serializable in the order of their commits.  With rows of two tables they
    are not, a second write of a row never reaches it, and a row that was
    scanned twice keeps a lock that nobody releases.

    [ReadDirect] returns a pointer into a local copy that is gone when it
    returns; [scanned] is what the copy held.  [scanned], [installed],
    [overwritten] and [history] record what the transactions read and wrote in
    place, whether they wrote a row twice and which ones committed; the program
    does not read them. *)

From S2P Require Import Prelude Locks.
Import ReadersWritersLock.

Module TwoPhaseLocking.

(** A row: its table and its key. *)
Abbreviation Item := (bytestring * bytestring)%type.

Record Tx := mkTx {
  read_set : list (Item * bytestring);
  write_set : list (Item * bytestring);
  read_lock_set_ : gset Item;
  undo_set_ : list (Item * bytestring);
  scanned : list (Item * bytestring);
  installed : list (Item * bytestring);
  overwritten : bool;
}.

Definition empty_tx : Tx := mkTx [] [] ∅ [] [] [] false.

Inductive Pc : Type :=
  | Idle
  | Running (tx : Tx)
  | Reading (tx : Tx) (x : Item)
  | Scanning (tx : Tx) (x : Item)
  | Writing (tx : Tx) (x : Item) (v : bytestring)
  | Undoing (tx : Tx) (todo : list (Item * bytestring))
  | Unlocking (shared exclusive : list Item).

Record State := mkState {
  words : gmap Item Z;
  mem : gmap Item bytestring;
  threads : list Pc;
  history : list Tx;
}.

Definition word (s : State) (x : Item) : Z := default UnLocked (words s !! x).
Definition row (m : gmap Item bytestring) (x : Item) : bytestring := default [] (m !! x).

(** [Write]: the row counts as read if the read set has its key. *)
Definition is_read_modify_write (tx : Tx) (x : Item) : bool :=
  existsb (fun r => str_eqb r.1.2 x.2) (read_set tx).

Definition with_lock (s : State) (x : Item) (w : Z) (i : nat) (pc : Pc) : State :=
  mkState (<[x := w]> (words s)) (mem s) (<[i := pc]> (threads s)) (history s).
Definition with_row (s : State) (x : Item) (v : bytestring) (i : nat) (pc : Pc) : State :=
  mkState (words s) (<[x := v]> (mem s)) (<[i := pc]> (threads s)) (history s).
Definition with_pc (s : State) (i : nat) (pc : Pc) : State :=
  mkState (words s) (mem s) (<[i := pc]> (threads s)) (history s).
Definition with_commit (s : State) (i : nat) (tx : Tx) (pc : Pc) : State :=
  mkState (words s) (mem s) (<[i := pc]> (threads s)) (history s ++ [tx]).

Definition lock_read (tx : Tx) (x : Item) : Tx :=
  mkTx (read_set tx) (write_set tx) ({[x]} ∪ read_lock_set_ tx) (undo_set_ tx) (scanned tx) (installed tx) (overwritten tx).
Definition record_read (tx : Tx) (x : Item) (v : bytestring) : Tx :=
  mkTx (read_set tx ++ [(x, v)]) (write_set tx) (read_lock_set_ tx) (undo_set_ tx) (scanned tx) (installed tx)
    (overwritten tx).
Definition record_scan (tx : Tx) (x : Item) (v : bytestring) : Tx :=
  mkTx (read_set tx) (write_set tx) (read_lock_set_ tx) (undo_set_ tx) (scanned tx ++ [(x, v)]) (installed tx)
    (overwritten tx).
Definition upgraded (tx : Tx) (x : Item) : Tx :=
  mkTx (read_set tx) (write_set tx) (read_lock_set_ tx ∖ {[x]}) (undo_set_ tx) (scanned tx) (installed tx) (overwritten tx).
Definition record_write (tx : Tx) (x : Item) (old v : bytestring) : Tx :=
  mkTx (read_set tx) (write_set tx ++ [(x, v)]) (read_lock_set_ tx) (undo_set_ tx ++ [(x, old)]) (scanned tx)
    (installed tx ++ [(x, v)]) (overwritten tx).
(** A second write of a row, which only changes the write set. *)
Definition overwrite (tx : Tx) (x : Item) (v : bytestring) : Tx :=
  mkTx (read_set tx) (map (fun w => if decide (w.1 = x) then (x, v) else w) (write_set tx)) (read_lock_set_ tx) (undo_set_ tx)
    (scanned tx) (installed tx) true.
(** [UnlockAll]. *)
Definition unlock_all (tx : Tx) : Pc := Unlocking (elements (read_lock_set_ tx)) (map fst (undo_set_ tx)).

Section protocol.
(** The rows that transactions use. *)
Context (used : Item -> Prop).

Inductive step (s : State) : State -> Prop :=
  | step_begin i : threads s !! i = Some Idle -> step s (with_pc s i (Running empty_tx))
  (** [Read]: the lock, then the copy. *)
  | step_read_lock i tx x w :
      threads s !! i = Some (Running tx) -> used x ->
      x ∉ map fst (read_set tx) -> x ∉ map fst (write_set tx) ->
      TryLock Shared (word s x) = (true, w) -> step s (with_lock s x w i (Reading (lock_read tx x) x))
  | step_read i tx x :
      threads s !! i = Some (Reading tx x) -> step s (with_pc s i (Running (record_read tx x (row (mem s) x))))
  (** [ReadDirect], the same without a trace in the read set. *)
  | step_direct_lock i tx x w :
      threads s !! i = Some (Running tx) -> used x ->
      x ∉ map fst (read_set tx) -> x ∉ map fst (write_set tx) ->
      TryLock Shared (word s x) = (true, w) -> step s (with_lock s x w i (Scanning (lock_read tx x) x))
  | step_direct i tx x :
      threads s !! i = Some (Scanning tx x) -> step s (with_pc s i (Running (record_scan tx x (row (mem s) x))))
  (** [Write]: the lock, then the copy for the undo and the row. *)
  | step_write_lock i tx x v w :
      threads s !! i = Some (Running tx) -> used x -> x ∉ map fst (write_set tx) ->
      is_read_modify_write tx x = false ->
      TryLock Exclusive (word s x) = (true, w) -> step s (with_lock s x w i (Writing tx x v))
  | step_upgrade i tx x v w :
      threads s !! i = Some (Running tx) -> used x -> x ∉ map fst (write_set tx) ->
      is_read_modify_write tx x = true ->
      TryLock Upgrade (word s x) = (true, w) -> step s (with_lock s x w i (Writing (upgraded tx x) x v))
  | step_write i tx x v :
      threads s !! i = Some (Writing tx x v) ->
      step s (with_row s x v i (Running (record_write tx x (row (mem s) x) v)))
  | step_overwrite i tx x v :
      threads s !! i = Some (Running tx) -> x ∈ map fst (write_set tx) -> step s (with_pc s i (Running (overwrite tx x v)))
  (** [Abort], for a lock that was not free, a failed validation or the client:
      [Undo], then the locks. *)
  | step_abort i tx :
      threads s !! i = Some (Running tx) -> step s (with_pc s i (Undoing tx (undo_set_ tx)))
  | step_undo i tx x old todo :
      threads s !! i = Some (Undoing tx ((x, old) :: todo)) -> step s (with_row s x old i (Undoing tx todo))
  | step_undone i tx :
      threads s !! i = Some (Undoing tx []) -> step s (with_pc s i (unlock_all tx))
  (** [Precommit] and [PostProcessing]. *)
  | step_commit i tx :
      threads s !! i = Some (Running tx) -> step s (with_commit s i tx (unlock_all tx))
  | step_unlock_shared i x shared exclusive :
      threads s !! i = Some (Unlocking (x :: shared) exclusive) ->
      step s (with_lock s x (UnLock (word s x)) i (Unlocking shared exclusive))
  | step_unlock_exclusive i x exclusive :
      threads s !! i = Some (Unlocking [] (x :: exclusive)) ->
      step s (with_lock s x (UnLock (word s x)) i (Unlocking [] exclusive))
  | step_end i : threads s !! i = Some (Unlocking [] []) -> step s (with_pc s i Idle).

End protocol.

Definition start (n : nat) (m : gmap Item bytestring) : State := mkState ∅ m (replicate n Idle) [].

(** ** What the commits mean *)

Definition apply_writes (m : gmap Item bytestring) (ws : list (Item * bytestring)) : gmap Item bytestring :=
  fold_left (fun m w => <[w.1 := w.2]> m) ws m.
(** The rows after the transactions [h], one after the other. *)
Definition serial (h : list Tx) (m : gmap Item bytestring) : gmap Item bytestring :=
  fold_left (fun m tx => apply_writes m (write_set tx)) h m.
(** What a transaction has read. *)
Definition reads (tx : Tx) : list (Item * bytestring) := read_set tx ++ scanned tx.

End TwoPhaseLocking.
Import TwoPhaseLocking.

(** What the commits left in the rows. *)
Definition in_place (h : list Tx) (m : gmap Item bytestring) : gmap Item bytestring :=
  fold_left (fun m tx => apply_writes m (installed tx)) h m.

(** ** Holders of locks *)

Definition tx_of (pc : Pc) : Tx :=
  match pc with Running tx | Reading tx _ | Scanning tx _ | Writing tx _ _ | Undoing tx _ => tx | Idle | Unlocking _ _ => empty_tx end.

Definition holds_shared (pc : Pc) (x : Item) : bool :=
  match pc with
  | Idle => false
  | Running tx | Reading tx _ | Scanning tx _ | Writing tx _ _ | Undoing tx _ => bool_decide (x ∈ read_lock_set_ tx)
  | Unlocking shared _ => bool_decide (x ∈ shared)
  end.
Definition holds_exclusive (pc : Pc) (x : Item) : bool :=
  match pc with
  | Idle => false
  | Running tx | Reading tx _ | Scanning tx _ | Undoing tx _ => bool_decide (x ∈ map fst (undo_set_ tx))
  | Writing tx y _ => bool_decide (x = y ∨ x ∈ map fst (undo_set_ tx))
  | Unlocking _ exclusive => bool_decide (x ∈ exclusive)
  end.

Definition share (pc : Pc) (x : Item) : Z := (if holds_shared pc x then 2 else 0) + (if holds_exclusive pc x then 1 else 0).
Definition shares (ts : list Pc) (x : Item) : Z := foldr (fun pc n => share pc x + n) 0 ts.

Lemma share_nonneg pc x : 0 <= share pc x.
Proof. unfold share. destruct (holds_shared pc x), (holds_exclusive pc x); lia. Qed.

Lemma shares_nonneg ts x : 0 <= shares ts x.
Proof. induction ts as [|pc ts IH]; simpl; [lia|]. pose proof (share_nonneg pc x). lia. Qed.

Lemma shares_insert ts i pc pc' x : ts !! i = Some pc -> shares (<[i := pc']> ts) x = shares ts x - share pc x + share pc' x.
Proof. revert i. induction ts as [|t ts IH]; intros [|i] H; try done; simpl in *; [injection H as ->; lia|]. rewrite (IH i H). lia. Qed.

Lemma share_le ts i pc x : ts !! i = Some pc -> share pc x <= shares ts x.
Proof.
  intros Hi. pose proof (shares_insert ts i pc Idle x Hi) as H. pose proof (shares_nonneg (<[i := Idle]> ts) x).
  change (share Idle x) with 0 in H. lia.
Qed.

Lemma share_two ts i j pc pc' x : i <> j -> ts !! i = Some pc -> ts !! j = Some pc' -> share pc x + share pc' x <= shares ts x.
Proof.
  intros Hij Hi Hj. pose proof (shares_insert ts i pc Idle x Hi) as H. assert (<[i := Idle]> ts !! j = Some pc') as Hj' by by rewrite list_lookup_insert_ne.
  pose proof (share_le _ j pc' x Hj'). change (share Idle x) with 0 in H. lia.
Qed.

(** If the shares of a row are odd, some thread holds it exclusively. *)
Lemma shares_odd ts x : Z.odd (shares ts x) = true -> ∃ i pc, ts !! i = Some pc ∧ holds_exclusive pc x = true.
Proof.
  induction ts as [|pc ts IH]; simpl; [done|]. rewrite Z.odd_add. unfold share. destruct (holds_exclusive pc x) eqn:E.
  - intros _. by exists 0%nat, pc.
  - replace (Z.odd _) with false by (by destruct (holds_shared pc x)). simpl. intros H. destruct (IH H) as (i & pc' & Hi & He). by exists (S i), pc'.
Qed.

(** ** The invariant *)

(** What a thread knows of the rows it holds, for the rows in memory and the
    rows the commits left. *)
Definition tx_ok (tx : Tx) : Prop :=
  NoDup (map fst (undo_set_ tx)) ∧ map fst (installed tx) = map fst (undo_set_ tx) ∧ map fst (write_set tx) = map fst (undo_set_ tx) ∧
  (overwritten tx = false -> installed tx = write_set tx).

Record active_ok (m committed : gmap Item bytestring) (tx : Tx) : Prop := mkActiveOk {
  a_tx : tx_ok tx;
  a_disjoint : forall x, x ∈ read_lock_set_ tx -> x ∈ map fst (undo_set_ tx) -> False;
  a_undo : forall x old, (x, old) ∈ undo_set_ tx -> row committed x = old;
  a_installed : forall x v, (x, v) ∈ installed tx -> row m x = v;
}.

Section serializability.
Context (used : Item -> Prop) (m0 : gmap Item bytestring).

Definition reads_ok (committed : gmap Item bytestring) (tx : Tx) (held : Item -> Prop) : Prop :=
  forall x v, (x, v) ∈ reads tx -> held x ∧ used x ∧ row committed x = v.

Definition thread_ok (m committed : gmap Item bytestring) (pc : Pc) : Prop :=
  match pc with
  | Idle => True
  | Running tx =>
      active_ok m committed tx ∧ reads_ok committed tx (fun x => x ∈ read_lock_set_ tx ∨ x ∈ map fst (undo_set_ tx))
  | Reading tx x | Scanning tx x =>
      active_ok m committed tx ∧ reads_ok committed tx (fun x => x ∈ read_lock_set_ tx ∨ x ∈ map fst (undo_set_ tx)) ∧
      x ∈ read_lock_set_ tx ∧ used x ∧ row m x = row committed x
  | Writing tx x v =>
      active_ok m committed tx ∧
      reads_ok committed tx (fun y => y ∈ read_lock_set_ tx ∨ y = x ∨ y ∈ map fst (undo_set_ tx)) ∧
      x ∉ map fst (undo_set_ tx) ∧ x ∉ read_lock_set_ tx ∧ row m x = row committed x
  | Undoing tx todo =>
      tx_ok tx ∧ (forall x, x ∈ read_lock_set_ tx -> x ∈ map fst (undo_set_ tx) -> False) ∧
      (∃ undone, undo_set_ tx = undone ++ todo ∧ forall x, x ∈ map fst undone -> row m x = row committed x) ∧
      (forall x old, (x, old) ∈ undo_set_ tx -> row committed x = old)
  | Unlocking shared exclusive =>
      NoDup shared ∧ NoDup exclusive ∧ (forall x, x ∈ shared -> x ∈ exclusive -> False) ∧
      forall x, x ∈ exclusive -> row m x = row committed x
  end.

(** The word of a row counts the shares of the threads, and the locks that were
    taken twice and released once. *)
Record inv (s : State) : Prop := mkInv {
  i_words : forall x, ∃ lost, 0 <= lost ∧ word s x = shares (threads s) x + 2 * lost ∧ word s x < 2 ^ 64;
  i_exclusive : forall i pc x, threads s !! i = Some pc -> holds_exclusive pc x = true -> word s x = ExclusivelyLocked;
  i_threads : forall i pc, threads s !! i = Some pc -> thread_ok (mem s) (in_place (history s) m0) pc;
  i_rows : forall x, word s x <> ExclusivelyLocked -> row (mem s) x = row (in_place (history s) m0) x;
  i_reads : forall pre tx post, history s = pre ++ tx :: post -> forall x v, (x, v) ∈ reads tx -> v = row (in_place pre m0) x;
  i_overwritten : forall tx, tx ∈ history s -> overwritten tx = false -> installed tx = write_set tx;
}.

Definition holds (pc : Pc) (x : Item) : Prop := holds_shared pc x = true ∨ holds_exclusive pc x = true.

Lemma in_map_fst (l : list (Item * bytestring)) x v : (x, v) ∈ l -> x ∈ map fst l.
Proof. intros H. by apply (list_elem_of_fmap_2 fst) in H. Qed.

Lemma active_frame m c m' c' tx : (forall x, x ∈ map fst (undo_set_ tx) -> row m' x = row m x ∧ row c' x = row c x) ->
  active_ok m c tx -> active_ok m' c' tx.
Proof.
  intros Hf [(Hnd & Hi & Hw) Hd Hu Hn]. constructor; try done.
  - intros x old Hx. destruct (Hf x (in_map_fst _ _ _ Hx)) as [_ ->]. by apply Hu.
  - intros x v Hx. pose proof (in_map_fst _ _ _ Hx) as Hin. rewrite Hi in Hin. destruct (Hf x Hin) as [-> _]. by apply Hn.
Qed.

Lemma reads_frame c c' tx (held : Item -> Prop) : (forall x, held x -> row c' x = row c x) -> reads_ok c tx held -> reads_ok c' tx held.
Proof. intros Hf Hr x v Hx. destruct (Hr x v Hx) as (Hh & Hu & <-). split; [done|]. split; [done|]. by apply Hf. Qed.

Lemma held_frame m c m' c' tx x :
  (forall y, bool_decide (y ∈ read_lock_set_ tx) = true ∨ bool_decide (y ∈ map fst (undo_set_ tx)) = true ->
     row m' y = row m y ∧ row c' y = row c y) ->
  active_ok m c tx ∧ reads_ok c tx (fun x => x ∈ read_lock_set_ tx ∨ x ∈ map fst (undo_set_ tx)) ∧
    x ∈ read_lock_set_ tx ∧ used x ∧ row m x = row c x ->
  active_ok m' c' tx ∧ reads_ok c' tx (fun x => x ∈ read_lock_set_ tx ∨ x ∈ map fst (undo_set_ tx)) ∧
    x ∈ read_lock_set_ tx ∧ used x ∧ row m' x = row c' x.
Proof.
  intros Hf (Ha & Hr & Hx & Hu & Heq). split; [eapply active_frame; [|exact Ha]|split; [eapply reads_frame; [|exact Hr]|]].
  - intros y Hy. apply Hf. right. by apply bool_decide_eq_true_2.
  - intros y Hy. apply Hf. by rewrite !bool_decide_eq_true.
  - destruct (Hf x) as [-> ->]; [left; by apply bool_decide_eq_true_2|]. done.
Qed.

(** What other threads do to rows that a thread does not hold does not matter
    to it. *)
Lemma thread_ok_frame m c m' c' pc : (forall x, holds pc x -> row m' x = row m x ∧ row c' x = row c x) -> thread_ok m c pc -> thread_ok m' c' pc.
Proof.
  intros Hf. unfold holds in Hf. destruct pc as [|tx|tx x|tx x|tx x v|tx todo|shared exclusive]; simpl in *; [done|..].
  - intros (Ha & Hr). split; [eapply active_frame; [|exact Ha]|eapply reads_frame; [|exact Hr]].
    + intros x Hx. apply Hf. right. by apply bool_decide_eq_true_2.
    + intros x Hx. apply Hf. by rewrite !bool_decide_eq_true.
  - intros H. by apply (held_frame m c).
  - intros H. by apply (held_frame m c).
  - intros (Ha & Hr & Hx & Hnr & Heq). split; [eapply active_frame; [|exact Ha]|split; [eapply reads_frame; [|exact Hr]|]].
    + intros y Hy. apply Hf. right. apply bool_decide_eq_true_2. by right.
    + intros y Hy. apply Hf. by rewrite !bool_decide_eq_true.
    + destruct (Hf x) as [-> ->]; [right; apply bool_decide_eq_true_2; by left|]. done.
  - intros (Ht & Hd & (undone & Hun & Hdone) & Hu). split; [done|]. split; [done|].
    assert (forall x, x ∈ map fst (undo_set_ tx) -> row m' x = row m x ∧ row c' x = row c x) as Hf'.
    { intros x Hx. apply Hf. right. by apply bool_decide_eq_true_2. }
    split.
    + exists undone. split; [done|]. intros x Hx. destruct (Hf' x) as [-> ->]; [|by apply Hdone]. rewrite Hun, map_app. set_solver.
    + intros x old Hx. destruct (Hf' x (in_map_fst _ _ _ Hx)) as [_ ->]. by apply Hu.
  - intros (H1 & H2 & H3 & Hx). split; [done|]. split; [done|]. split; [done|]. intros x Hin.
    destruct (Hf x) as [-> ->]; [right; by apply bool_decide_eq_true_2|]. by apply Hx.
Qed.

(** A step of one thread: the words follow its locks, and it changes rows that
    it holds exclusively. *)
Lemma update s s' i pc pc' : inv s -> threads s !! i = Some pc -> threads s' = <[i := pc']> (threads s) ->
  (forall x, ∃ l, 0 <= l ∧ word s' x = word s x - share pc x + share pc' x + 2 * l ∧ word s' x < 2 ^ 64) ->
  (forall x, share pc x < share pc' x ∨ word s x < word s' x -> word s x <> ExclusivelyLocked) ->
  (forall x, holds_exclusive pc' x = true -> word s' x = ExclusivelyLocked) ->
  (forall x, row (mem s') x <> row (mem s) x ∨ row (in_place (history s') m0) x <> row (in_place (history s) m0) x -> holds_exclusive pc x = true) ->
  thread_ok (mem s') (in_place (history s') m0) pc' ->
  (forall x, holds_exclusive pc x = true -> holds_exclusive pc' x = false -> row (mem s') x = row (in_place (history s') m0) x) ->
  (forall pre tx post, history s' = pre ++ tx :: post -> forall x v, (x, v) ∈ reads tx -> v = row (in_place pre m0) x) ->
  (forall tx, tx ∈ history s' -> overwritten tx = false -> installed tx = write_set tx) ->
  inv s'.
Proof.
  intros [Hw He Ht Hr Hh Ho] Hi Hts Hw' Hacq He' Hchg Hok Hrel Hh' Ho'.
  assert (forall j q x, j <> i -> threads s !! j = Some q -> holds q x -> holds_exclusive pc x = false) as Hapart.
  { intros j q x Hji Hj Hq. destruct (holds_exclusive pc x) eqn:E; [|done]. pose proof (He _ _ _ Hi E) as Hone. exfalso.
    pose proof (share_two _ i j pc q x (not_eq_sym Hji) Hi Hj) as Hs. destruct (Hw x) as (l & Hl & Hx & _). rewrite Hone in Hx.
    assert (1 <= share pc x) by (unfold share; rewrite E; destruct (holds_shared pc x); lia).
    assert (1 <= share q x) by (unfold share; destruct Hq as [-> | ->]; [destruct (holds_exclusive q x)|destruct (holds_shared q x)]; lia).
    unfold ExclusivelyLocked in Hx. lia. }
  constructor; try done.
  - intros x. rewrite Hts, (shares_insert _ _ _ _ _ Hi). destruct (Hw x) as (l & Hl & Hx & _), (Hw' x) as (l' & Hl' & Hx' & ?).
    exists (l + l'). lia.
  - intros j q x Hj Hq. rewrite Hts in Hj. apply list_lookup_insert_Some in Hj as [(<- & <- & _)|(Hne & Hj)]; [by apply He'|].
    pose proof (He _ _ _ Hj Hq) as Hone. destruct (Hw x) as (l & Hl & Hx & _), (Hw' x) as (l' & Hl' & Hx' & _).
    pose proof (share_two _ i j pc q x Hne Hi Hj) as Hs. pose proof (share_nonneg pc x). pose proof (share_nonneg pc' x).
    assert (1 <= share q x) by (unfold share; rewrite Hq; destruct (holds_shared q x); lia). unfold ExclusivelyLocked in *.
    destruct (Z.lt_ge_cases (word s x) (word s' x)) as [Hlt|]; [by destruct (Hacq x (or_intror Hlt))|]. lia.
  - intros j q Hj. rewrite Hts in Hj. apply list_lookup_insert_Some in Hj as [(<- & <- & _)|(Hne & Hj)]; [done|].
    eapply thread_ok_frame; [|by apply (Ht j)]. intros x Hx. pose proof (Hapart j q x (not_eq_sym Hne) Hj Hx) as Hno.
    split; apply dec_stable; intros Hc; rewrite (Hchg x) in Hno by auto; done.
  - intros x Hx. destruct (holds_exclusive pc x) eqn:E.
    + apply Hrel; [done|]. destruct (holds_exclusive pc' x) eqn:E'; [|done]. by destruct Hx; apply He'.
    + assert (word s x <> ExclusivelyLocked) as Hold.
      { intros Hone. destruct (Hw x) as (l & Hl & Hx1 & _), (Hw' x) as (l' & Hl' & Hx2 & _).
        destruct (Z.lt_ge_cases (word s x) (word s' x)) as [Hlt|Hge]; [by apply (Hacq x (or_intror Hlt))|].
        rewrite Hone in Hx1. unfold ExclusivelyLocked in *. destruct (shares_odd (threads s) x) as (j & q & Hj & Hq).
        { replace (shares (threads s) x) with (1 + 2 * (- l)) by lia. by rewrite Z.odd_add_mul_2. }
        destruct (decide (j = i)) as [->|Hji]; [congruence|]. pose proof (share_two _ j i q pc x Hji Hj Hi).
        assert (1 <= share q x) by (unfold share; rewrite Hq; destruct (holds_shared q x); lia). pose proof (share_nonneg pc x). pose proof (share_nonneg pc' x).
        apply Hx. lia. }
      assert (row (mem s') x = row (mem s) x) as -> by (apply dec_stable; intros Hc; rewrite (Hchg x) in E by auto; done).
      assert (row (in_place (history s') m0) x = row (in_place (history s) m0) x) as -> by (apply dec_stable; intros Hc; rewrite (Hchg x) in E by auto; done).
      by apply Hr.
Qed.

Definition same_locks (pc pc' : Pc) (x : Item) : Prop :=
  holds_shared pc' x = holds_shared pc x ∧ holds_exclusive pc' x = holds_exclusive pc x.

Lemma same_share pc pc' x : same_locks pc pc' x -> share pc' x = share pc x.
Proof. intros [H1 H2]. unfold share. by rewrite H1, H2. Qed.

Lemma pc_update s i pc pc' : inv s -> threads s !! i = Some pc -> (forall x, same_locks pc pc' x) ->
  thread_ok (mem s) (in_place (history s) m0) pc' -> inv (with_pc s i pc').
Proof.
  intros HI Hi Hsame Hok. pose proof HI as [Hw He Ht Hr Hh Ho]. eapply (update s (with_pc s i pc') i pc pc' HI Hi eq_refl); simpl; try done.
  - intros x. change (word (with_pc s i pc') x) with (word s x). rewrite (same_share _ _ _ (Hsame x)). destruct (Hw x).
    exists 0. lia.
  - intros x. change (word (with_pc s i pc') x) with (word s x). rewrite (same_share _ _ _ (Hsame x)). lia.
  - intros x Hx. destruct (Hsame x) as [_ E]. rewrite E in Hx. by apply (He i pc x).
  - intros x [Hc|Hc]; done.
  - intros x H1 H2. destruct (Hsame x). congruence.
Qed.

Lemma word_with_lock s x w i pc y : word (with_lock s x w i pc) y = if decide (y = x) then w else word s y.
Proof. unfold word. simpl. destruct (decide (y = x)) as [->|]; [by rewrite lookup_insert_eq|by rewrite lookup_insert_ne]. Qed.

Lemma lock_update s i pc pc' x w : inv s -> threads s !! i = Some pc -> (forall y, y <> x -> same_locks pc pc' y) ->
  (∃ l, 0 <= l ∧ w = word s x - share pc x + share pc' x + 2 * l ∧ w < 2 ^ 64) ->
  (share pc x < share pc' x ∨ word s x < w -> word s x <> ExclusivelyLocked) ->
  (holds_exclusive pc' x = true -> w = ExclusivelyLocked) ->
  (holds_exclusive pc x = true -> holds_exclusive pc' x = false -> row (mem s) x = row (in_place (history s) m0) x) ->
  thread_ok (mem s) (in_place (history s) m0) pc' -> inv (with_lock s x w i pc').
Proof.
  intros HI Hi Hsame Hw' Hacq Hex Hrel Hok. pose proof HI as [Hw He Ht Hr Hh Ho].
  eapply (update s (with_lock s x w i pc') i pc pc' HI Hi eq_refl); simpl; try done.
  - intros y. rewrite word_with_lock. destruct (decide (y = x)) as [->|Hy]; [done|]. rewrite (same_share _ _ _ (Hsame y Hy)). destruct (Hw y). exists 0. lia.
  - intros y. rewrite word_with_lock. destruct (decide (y = x)) as [->|Hy]; [done|]. rewrite (same_share _ _ _ (Hsame y Hy)). lia.
  - intros y Hy. rewrite word_with_lock. destruct (decide (y = x)) as [->|Hne]; [by apply Hex|].
    destruct (Hsame y Hne) as [_ E]. rewrite E in Hy. by apply (He i pc y).
  - intros y [Hc|Hc]; done.
  - intros y H1 H2. destruct (decide (y = x)) as [->|Hne]; [by apply Hrel|]. destruct (Hsame y Hne). congruence.
Qed.

Lemma row_insert m x v y : row (<[x := v]> m) y = if decide (y = x) then v else row m y.
Proof. unfold row. destruct (decide (y = x)) as [->|]; [by rewrite lookup_insert_eq|by rewrite lookup_insert_ne]. Qed.

Lemma row_update s i pc pc' x v : inv s -> threads s !! i = Some pc -> (forall y, same_locks pc pc' y) -> holds_exclusive pc x = true ->
  thread_ok (<[x := v]> (mem s)) (in_place (history s) m0) pc' -> inv (with_row s x v i pc').
Proof.
  intros HI Hi Hsame Hx Hok. pose proof HI as [Hw He Ht Hr Hh Ho]. eapply (update s (with_row s x v i pc') i pc pc' HI Hi eq_refl); simpl; try done.
  - intros y. change (word (with_row s x v i pc') y) with (word s y). rewrite (same_share _ _ _ (Hsame y)). destruct (Hw y).
    exists 0. lia.
  - intros y. change (word (with_row s x v i pc') y) with (word s y). rewrite (same_share _ _ _ (Hsame y)). lia.
  - intros y Hy. destruct (Hsame y) as [_ E]. rewrite E in Hy. by apply (He i pc y).
  - intros y [Hc|Hc]; [|done]. rewrite row_insert in Hc. destruct (decide (y = x)) as [->|]; done.
  - intros y H1 H2. destruct (Hsame y). congruence.
Qed.

(** *** Locks *)

Lemma try_shared w w' : 0 <= w < 2 ^ 64 -> TryLock Shared w = (true, w') -> w <> ExclusivelyLocked ∧ w' = w + 2 ∧ w' < 2 ^ 64.
Proof.
  intros Hw. unfold TryLock, TryLock_load, IsExclusivelyLocked, IsThereRoomForNewReaders, AddReader. change ReadersFull with (2 ^ 64 - 2). change Reader with 2.
  destruct (Z.eqb_spec w ExclusivelyLocked); [done|]. destruct (Z.ltb_spec w (2 ^ 64 - 2)); [|done]. simpl. rewrite Z.eqb_refl. intros [= <-].
  rewrite u64_small by (unfold is_u64; lia). split; [done|lia].
Qed.

Lemma try_exclusive w w' : TryLock Exclusive w = (true, w') -> w = UnLocked ∧ w' = ExclusivelyLocked.
Proof. unfold TryLock, TryLock_load. destruct (Z.eqb_spec w UnLocked); [|done]. simpl. subst. by intros [= <-]. Qed.

Lemma try_upgrade w w' : TryLock Upgrade w = (true, w') -> (w = 2 ∨ w = 3) ∧ w' = ExclusivelyLocked.
Proof.
  unfold TryLock, TryLock_load, GetNumberOfReaders. destruct (Z.eqb_spec (Z.shiftr w ExclusivelyLocked) 1) as [E|]; [|done]. rewrite Z.eqb_refl.
  intros [= <-]. split; [|done]. unfold ExclusivelyLocked in E. rewrite Z.shiftr_div_pow2 in E by lia. change (2 ^ 1) with 2 in E.
  pose proof (Z.div_mod w 2 ltac:(lia)). pose proof (Z.mod_pos_bound w 2 ltac:(lia)). lia.
Qed.

Lemma unlock_exclusive_word : UnLock ExclusivelyLocked = UnLocked.
Proof. done. Qed.

Lemma unlock_shared_word w : 2 <= w < 2 ^ 64 -> UnLock w = w - 2.
Proof.
  intros Hw. unfold UnLock, UnLock_load, IsExclusivelyLocked. destruct (Z.eqb_spec w ExclusivelyLocked) as [E|]; [unfold ExclusivelyLocked in E; lia|].
  unfold SubReader. change Reader with 2. apply u64_small. unfold is_u64. lia.
Qed.

(** *** Reads *)

Lemma share_none pc x : share pc x = 0 -> holds_shared pc x = false ∧ holds_exclusive pc x = false.
Proof. unfold share. by destruct (holds_shared pc x), (holds_exclusive pc x). Qed.

Lemma begin_ok s i : inv s -> threads s !! i = Some Idle -> inv (with_pc s i (Running empty_tx)).
Proof.
  intros HI Hi. eapply (pc_update _ _ _ _ HI Hi).
  - intros x. split; [apply bool_decide_eq_false_2; set_solver|done].
  - simpl. split; [constructor; simpl; [split; [constructor|done]|set_solver..]|]. intros x v Hx. unfold reads in Hx. simpl in Hx. set_solver.
Qed.

(** A shared lock, for [Read] or for [ReadDirect]; the row may be locked already. *)
Lemma shared_lock_ok s i tx x w pc' : pc' = Reading (lock_read tx x) x ∨ pc' = Scanning (lock_read tx x) x ->
  inv s -> threads s !! i = Some (Running tx) -> used x -> x ∉ map fst (write_set tx) ->
  TryLock Shared (word s x) = (true, w) -> inv (with_lock s x w i pc').
Proof.
  intros Hpc HI Hi Hu Hnw Htry. pose proof HI as [Hw He Ht Hr Hh Ho]. destruct (Ht _ _ Hi) as (Ha & Hrd).
  destruct (Hw x) as (l & Hl & Hwx & Hmax).
  pose proof (shares_nonneg (threads s) x). destruct (try_shared (word s x) w ltac:(lia) Htry) as (Hne & -> & Hlt).
  pose proof (a_tx _ _ _ Ha) as (_ & _ & Hws & _). assert (x ∉ map fst (undo_set_ tx)) as Hnu by (by rewrite <- Hws).
  assert (holds_exclusive pc' x = false) as Hx' by (destruct Hpc as [-> | ->]; simpl; by rewrite bool_decide_eq_false_2).
  assert (share pc' x = 2) as E1.
  { unfold share. rewrite Hx'. destruct Hpc as [-> | ->]; simpl; by rewrite bool_decide_eq_true_2 by set_solver. }
  eapply (lock_update _ _ _ _ _ _ HI Hi); try done; try congruence.
  - intros y Hy. destruct Hpc as [-> | ->]; (split; simpl; [apply bool_decide_ext; set_solver|done]).
  - rewrite E1. unfold share. simpl. rewrite (bool_decide_eq_false_2 (x ∈ map fst _)) by done.
    destruct (bool_decide (x ∈ read_lock_set_ tx)); [exists 1|exists 0]; lia.
  - simpl. by rewrite bool_decide_eq_false_2.
  - assert (active_ok (mem s) (in_place (history s) m0) (lock_read tx x) ∧
            reads_ok (in_place (history s) m0) (lock_read tx x) (fun y => y ∈ read_lock_set_ (lock_read tx x) ∨ y ∈ map fst (undo_set_ (lock_read tx x))) ∧
            x ∈ read_lock_set_ (lock_read tx x) ∧ used x ∧ row (mem s) x = row (in_place (history s) m0) x); [|by destruct Hpc as [-> | ->]].
    destruct Ha as [Htx Hd Hun Hin]. split; [constructor; simpl; try done|].
    + intros y Hy1 Hy2. destruct (decide (y = x)) as [->|]; [done|]. apply (Hd y); set_solver.
    + split; [|split; [simpl; set_solver|split; [done|by apply Hr]]].
      intros y v Hy. destruct (Hrd y v Hy) as ([Hh1|Hh1] & ? & ?); (split; [simpl; set_solver|done]).
Qed.

Lemma row_read_ok s i tx x : inv s -> threads s !! i = Some (Reading tx x) -> inv (with_pc s i (Running (record_read tx x (row (mem s) x)))).
Proof.
  intros HI Hi. destruct (i_threads _ HI _ _ Hi) as ([Htx Hd Hun Hin] & Hrd & Hx & Hu & Heq). eapply (pc_update _ _ _ _ HI Hi); [done|].
  simpl. split; [by constructor|]. intros y v Hy. unfold reads in Hy. simpl in Hy. rewrite !elem_of_app, list_elem_of_singleton in Hy.
  destruct Hy as [[Hy|[= -> ->]]|Hy]; [..|]; try (apply Hrd; unfold reads; set_solver). auto.
Qed.

Lemma row_scan_ok s i tx x : inv s -> threads s !! i = Some (Scanning tx x) -> inv (with_pc s i (Running (record_scan tx x (row (mem s) x)))).
Proof.
  intros HI Hi. destruct (i_threads _ HI _ _ Hi) as ([Htx Hd Hun Hin] & Hrd & Hx & Hu & Heq). eapply (pc_update _ _ _ _ HI Hi); [done|].
  simpl. split; [by constructor|]. intros y v Hy. unfold reads in Hy. simpl in Hy. rewrite !elem_of_app, list_elem_of_singleton in Hy.
  destruct Hy as [Hy|[Hy|[= -> ->]]]; [..|]; try (apply Hrd; unfold reads; set_solver). auto.
Qed.

(** *** Writes *)

Context (one_table : forall x y, used x -> used y -> x.2 = y.2 -> x = y).

Lemma write_lock_ok s i tx x v w : inv s -> threads s !! i = Some (Running tx) -> TryLock Exclusive (word s x) = (true, w) ->
  inv (with_lock s x w i (Writing tx x v)).
Proof.
  intros HI Hi [Hz ->]%try_exclusive. pose proof HI as [Hw He Ht Hr Hh Ho]. destruct (Ht _ _ Hi) as ([Htx Hd Hun Hin] & Hrd).
  destruct (Hw x) as (l & Hl & Hwx & _). pose proof (share_le _ _ _ x Hi). pose proof (share_nonneg (Running tx) x). unfold UnLocked in Hz.
  assert (share (Running tx) x = 0) as E0 by lia. pose proof (share_none _ _ E0) as [Hns Hne]. simpl in Hns, Hne.
  apply bool_decide_eq_false in Hns, Hne.
  assert (share (Writing tx x v) x = 1) as E1 by (unfold share; simpl; rewrite bool_decide_eq_false_2 by done; rewrite bool_decide_eq_true_2 by (by left); done).
  eapply (lock_update _ _ _ _ _ _ HI Hi); try done.
  - intros y Hy. split; simpl; [done|]. apply bool_decide_ext. split; [intros [|]; [done|done]|by right].
  - exists 0. by rewrite E0, E1, Hz.
  - rewrite Hz. unfold ExclusivelyLocked. lia.
  - simpl. intros Hx. apply bool_decide_eq_true in Hx. done.
  - simpl. split; [by constructor|]. split; [|split; [done|split; [done|]]].
    + intros y u Hy. destruct (Hrd y u Hy) as ([|] & ? & ?); auto.
    + apply Hr. rewrite Hz. unfold ExclusivelyLocked. lia.
Qed.

(** The row that is upgraded has been read, and nobody else reads it. *)
Lemma upgrade_ok s i tx x v w : inv s -> threads s !! i = Some (Running tx) -> used x -> x ∉ map fst (write_set tx) ->
  is_read_modify_write tx x = true -> TryLock Upgrade (word s x) = (true, w) -> inv (with_lock s x w i (Writing (upgraded tx x) x v)).
Proof.
  intros HI Hi Hu Hnw Hrmw [Htwo ->]%try_upgrade. pose proof HI as [Hw He Ht Hr Hh Ho]. destruct (Ht _ _ Hi) as ([Htx Hd Hun Hin] & Hrd).
  apply existsb_exists in Hrmw as ([y u] & Hry & E%str_eqb_eq). apply list_elem_of_In in Hry.
  destruct (Hrd y u ltac:(unfold reads; set_solver)) as (Hheld & Huy & Hc).
  pose proof (one_table y x Huy Hu E) as ->. pose proof Htx as (_ & _ & Hws & _). assert (x ∉ map fst (undo_set_ tx)) as Hnu by (by rewrite <- Hws).
  destruct Hheld as [Hsh|?]; [|done]. destruct (Hw x) as (l & Hl & Hwx & _).
  assert (share (Running tx) x = 2) as E0 by (unfold share; simpl; rewrite bool_decide_eq_true_2 by done; by rewrite bool_decide_eq_false_2).
  assert (share (Writing (upgraded tx x) x v) x = 1) as E1.
  { unfold share. simpl. rewrite bool_decide_eq_false_2 by set_solver. by rewrite bool_decide_eq_true_2 by (by left). }
  assert (word s x = 2) as Ew.
  { destruct Htwo as [|H3]; [done|]. destruct (shares_odd (threads s) x) as (j & q & Hj & Hq).
    { replace (shares (threads s) x) with (3 + 2 * (- l)) by lia. by rewrite Z.odd_add_mul_2. }
    rewrite (He _ _ _ Hj Hq) in H3. done. }
  eapply (lock_update _ _ _ _ _ _ HI Hi); try done.
  - intros y Hy. split; simpl; apply bool_decide_ext; [set_solver|]. split; [intros [|]; done|by right].
  - exists 0. by rewrite E0, E1, Ew.
  - rewrite E0, E1, Ew. unfold ExclusivelyLocked. lia.
  - simpl. intros Hx. apply bool_decide_eq_true in Hx. done.
  - simpl. split; [constructor; simpl; try done; intros y Hy; apply Hd; set_solver|]. split; [|split; [done|split; [set_solver|]]].
    + intros y u' Hy'. destruct (Hrd y u' Hy') as (Hh1 & ? & ?). split; [|done]. destruct (decide (y = x)) as [->|]; [by right; left|].
      destruct Hh1 as [Hh1|Hh1]; [left; set_solver|by right; right].
    + apply Hr. rewrite Ew. unfold ExclusivelyLocked. lia.
Qed.

Lemma write_ok s i tx x v : inv s -> threads s !! i = Some (Writing tx x v) ->
  inv (with_row s x v i (Running (record_write tx x (row (mem s) x) v))).
Proof.
  intros HI Hi. destruct (i_threads _ HI _ _ Hi) as ([(Hnd & Hi1 & Hw1 & Hov) Hd Hun Hin] & Hrd & Hnu & Hnl & Heq).
  eapply (row_update _ _ _ _ _ _ HI Hi).
  - intros y. split; simpl; [done|]. apply bool_decide_ext. rewrite map_app. set_solver.
  - simpl. apply bool_decide_eq_true_2. by left.
  - simpl. split.
    + constructor; simpl.
      * unfold tx_ok. simpl. rewrite !map_app, Hi1, Hw1. split; [|split; [done|split; [done|]]].
        -- apply NoDup_app. split; [done|]. split; [set_solver|apply NoDup_singleton].
        -- intros E. by rewrite (Hov E).
      * intros y Hy. rewrite map_app, elem_of_app. intros [Hu|Hu]; [by apply (Hd y)|]. set_solver.
      * intros y old [Hy|Hy]%elem_of_app; [by apply Hun|]. apply list_elem_of_singleton in Hy. by injection Hy as -> ->.
      * intros y u [Hy|Hy]%elem_of_app; rewrite row_insert.
        -- destruct (decide (y = x)) as [->|]; [|by apply Hin]. apply in_map_fst in Hy. by rewrite Hi1 in Hy.
        -- apply list_elem_of_singleton in Hy. injection Hy as -> ->. by rewrite decide_True.
    + intros y u Hy. destruct (Hrd y u Hy) as (Hh1 & ? & ?). split; [|done]. simpl. rewrite map_app. set_solver.
Qed.

Lemma overwrite_ok s i tx x v : inv s -> threads s !! i = Some (Running tx) -> inv (with_pc s i (Running (overwrite tx x v))).
Proof.
  intros HI Hi. destruct (i_threads _ HI _ _ Hi) as ([(Hnd & Hi1 & Hw1 & Hov) Hd Hun Hin] & Hrd). eapply (pc_update _ _ _ _ HI Hi); [done|].
  simpl. split; [|done]. constructor; try done. split; [done|]. split; [done|]. split; [|done]. simpl. rewrite <- Hw1. clear.
  induction (write_set tx) as [|w ws IH]; [done|]. simpl. rewrite IH. f_equal. by destruct (decide (w.1 = x)).
Qed.

(** *** Ends *)

Lemma abort_ok s i tx : inv s -> threads s !! i = Some (Running tx) -> inv (with_pc s i (Undoing tx (undo_set_ tx))).
Proof.
  intros HI Hi. destruct (i_threads _ HI _ _ Hi) as ([Htx Hd Hun Hin] & _). eapply (pc_update _ _ _ _ HI Hi); [done|].
  simpl. split; [done|]. split; [done|]. split; [|done]. exists []. split; [done|]. set_solver.
Qed.

Lemma undo_ok s i tx x old todo : inv s -> threads s !! i = Some (Undoing tx ((x, old) :: todo)) -> inv (with_row s x old i (Undoing tx todo)).
Proof.
  intros HI Hi. destruct (i_threads _ HI _ _ Hi) as (Htx & Hd & (undone & Hun & Hdone) & Hu).
  assert ((x, old) ∈ undo_set_ tx) as Hx by (rewrite Hun; set_solver). eapply (row_update _ _ _ _ _ _ HI Hi); [done| |].
  - simpl. apply bool_decide_eq_true_2. by apply in_map_fst in Hx.
  - simpl. split; [done|]. split; [done|]. split; [|done]. exists (undone ++ [(x, old)]). split; [by rewrite <- app_assoc|].
    intros y Hy. rewrite row_insert. destruct (decide (y = x)) as [->|Hne]; [by rewrite (Hu x old)|]. apply Hdone. rewrite map_app in Hy. set_solver.
Qed.

Lemma unlock_all_locks pc tx x : (forall x, holds_shared pc x = bool_decide (x ∈ read_lock_set_ tx)) ->
  (forall x, holds_exclusive pc x = bool_decide (x ∈ map fst (undo_set_ tx))) -> same_locks pc (unlock_all tx) x.
Proof. intros H1 H2. split; simpl; [|by rewrite H2]. rewrite H1. apply bool_decide_ext, elem_of_elements. Qed.

Lemma unlock_all_ok m c tx : NoDup (map fst (undo_set_ tx)) -> (forall x, x ∈ read_lock_set_ tx -> x ∈ map fst (undo_set_ tx) -> False) ->
  (forall x, x ∈ map fst (undo_set_ tx) -> row m x = row c x) -> thread_ok m c (unlock_all tx).
Proof.
  intros Hnd Hd Hrow. simpl. split; [apply NoDup_elements|]. split; [done|]. split; [|done]. intros x Hx. apply elem_of_elements in Hx. by apply Hd.
Qed.

Lemma undone_ok s i tx : inv s -> threads s !! i = Some (Undoing tx []) -> inv (with_pc s i (unlock_all tx)).
Proof.
  intros HI Hi. destruct (i_threads _ HI _ _ Hi) as ((Hnd & _) & Hd & (undone & Hun & Hdone) & Hu). rewrite app_nil_r in Hun.
  eapply (pc_update _ _ _ _ HI Hi); [intros x; by apply unlock_all_locks|]. apply unlock_all_ok; [done..|]. by rewrite Hun.
Qed.

Lemma unlock_shared_ok s i x shared exclusive : inv s -> threads s !! i = Some (Unlocking (x :: shared) exclusive) ->
  inv (with_lock s x (UnLock (word s x)) i (Unlocking shared exclusive)).
Proof.
  intros HI Hi. destruct (i_threads _ HI _ _ Hi) as (Hns & Hne & Hd & Hrow). apply NoDup_cons in Hns as [Hx Hns].
  assert (x ∉ exclusive) as Hxe by (intros Hin; apply (Hd x); [by left|done]).
  assert (share (Unlocking (x :: shared) exclusive) x = 2) as E0.
  { unfold share. simpl. rewrite bool_decide_eq_true_2 by (by left). by rewrite bool_decide_eq_false_2. }
  assert (share (Unlocking shared exclusive) x = 0) as E1 by (unfold share; simpl; by rewrite !bool_decide_eq_false_2).
  pose proof (share_le _ _ _ x Hi) as Hle. destruct (i_words _ HI x) as (l & Hl & Hwx & Hmax). rewrite E0 in Hle.
  rewrite unlock_shared_word by lia. eapply (lock_update _ _ _ _ _ _ HI Hi); try done.
  - intros y Hy. split; simpl; [apply bool_decide_ext; set_solver|done].
  - exists 0. lia.
  - lia.
  - simpl. by rewrite bool_decide_eq_false_2.
  - simpl. by rewrite bool_decide_eq_false_2.
  - simpl. split; [done|]. split; [done|]. split; [|done]. intros y Hy. apply Hd. by right.
Qed.

Lemma unlock_exclusive_ok s i x exclusive : inv s -> threads s !! i = Some (Unlocking [] (x :: exclusive)) ->
  inv (with_lock s x (UnLock (word s x)) i (Unlocking [] exclusive)).
Proof.
  intros HI Hi. destruct (i_threads _ HI _ _ Hi) as (Hns & Hne & Hd & Hrow). apply NoDup_cons in Hne as [Hx Hne].
  assert (holds_exclusive (Unlocking [] (x :: exclusive)) x = true) as Hex by (simpl; apply bool_decide_eq_true_2; by left).
  rewrite (i_exclusive _ HI _ _ _ Hi Hex), unlock_exclusive_word.
  assert (share (Unlocking [] (x :: exclusive)) x = 1) as E0 by (unfold share; by rewrite Hex).
  assert (share (Unlocking [] exclusive) x = 0) as E1 by (unfold share; simpl; by rewrite bool_decide_eq_false_2).
  eapply (lock_update _ _ _ _ _ _ HI Hi); try done.
  - intros y Hy. split; simpl; [done|]. apply bool_decide_ext. set_solver.
  - exists 0. by rewrite (i_exclusive _ HI _ _ _ Hi Hex), E0, E1.
  - rewrite E0, E1, (i_exclusive _ HI _ _ _ Hi Hex). unfold UnLocked, ExclusivelyLocked. lia.
  - simpl. rewrite bool_decide_eq_false_2 by done. done.
  - intros _ _. apply Hrow. by left.
  - simpl. split; [done|]. split; [done|]. split; [set_solver|]. intros y Hy. apply Hrow. by right.
Qed.

Lemma row_apply_other ws m x : x ∉ map fst ws -> row (apply_writes m ws) x = row m x.
Proof.
  revert m. induction ws as [|[y v] ws IH]; intros m Hx; [done|]. simpl in *. apply not_elem_of_cons in Hx as [Hne Hx].
  unfold apply_writes in *. simpl. rewrite (IH (<[y := v]> m) Hx), row_insert. by rewrite decide_False.
Qed.

Lemma row_apply ws m x v : NoDup (map fst ws) -> (x, v) ∈ ws -> row (apply_writes m ws) x = v.
Proof.
  revert m. induction ws as [|[y u] ws IH]; intros m Hnd Hin; [by apply not_elem_of_nil in Hin|]. simpl in Hnd. apply NoDup_cons in Hnd as [Hy Hnd].
  apply elem_of_cons in Hin as [E|Hin]; [|by apply IH]. injection E as -> ->. unfold apply_writes. simpl. fold (apply_writes (<[y := u]> m) ws).
  rewrite row_apply_other by done. rewrite row_insert. by rewrite decide_True.
Qed.

Lemma commit_ok s i tx : inv s -> threads s !! i = Some (Running tx) -> inv (with_commit s i tx (unlock_all tx)).
Proof.
  intros HI Hi. pose proof HI as [Hw He Ht Hr Hh Ho]. destruct (Ht _ _ Hi) as ([(Hnd & Hi1 & Hw1 & Hov) Hd Hun Hin] & Hrd).
  assert (forall x, same_locks (Running tx) (unlock_all tx) x) as Hsame by (intros x; by apply unlock_all_locks).
  assert (in_place (history s ++ [tx]) m0 = apply_writes (in_place (history s) m0) (installed tx)) as Hser by (unfold in_place; by rewrite fold_left_app).
  assert (forall x, x ∈ map fst (undo_set_ tx) -> row (mem s) x = row (in_place (history s ++ [tx]) m0) x) as Hrows.
  { intros x Hx. rewrite <- Hi1 in Hx. apply list_elem_of_fmap in Hx as ([y v] & -> & Hx). rewrite Hser, (row_apply _ _ y v); [by apply Hin|by rewrite Hi1|done]. }
  eapply (update s (with_commit s i tx (unlock_all tx)) i (Running tx) (unlock_all tx) HI Hi eq_refl).
  - intros x. change (word (with_commit s i tx (unlock_all tx)) x) with (word s x). rewrite (same_share _ _ _ (Hsame x)).
    destruct (Hw x). exists 0. lia.
  - intros x. change (word (with_commit s i tx (unlock_all tx)) x) with (word s x). rewrite (same_share _ _ _ (Hsame x)). lia.
  - intros x Hx. destruct (Hsame x) as [_ E]. rewrite E in Hx. by apply (He i (Running tx) x).
  - intros x [Hc|Hc]; [done|]. simpl in Hc |- *. apply bool_decide_eq_true_2. rewrite Hser in Hc.
    destruct (decide (x ∈ map fst (undo_set_ tx))) as [|Hx]; [done|]. destruct Hc. apply row_apply_other. by rewrite Hi1.
  - by apply unlock_all_ok.
  - intros x H1 H2. destruct (Hsame x). congruence.
  - simpl. intros pre tx' post E x v Hv. destruct post as [|t post _] using rev_ind.
    + apply app_inj_tail in E as [<- <-]. destruct (Hrd x v Hv) as (_ & _ & <-). done.
    + rewrite app_comm_cons, app_assoc in E. apply app_inj_tail in E as [E _]. by apply (Hh pre tx' post E).
  - simpl. intros tx' [Hin'|Hin']%elem_of_app; [by apply Ho|]. apply list_elem_of_singleton in Hin' as ->. done.
Qed.

Lemma protocol_step_inv s s' : step used s s' -> inv s -> inv s'.
Proof.
  intros Hstep HI. destruct Hstep.
  - by apply begin_ok.
  - eapply shared_lock_ok; eauto.
  - by apply row_read_ok.
  - eapply shared_lock_ok; eauto.
  - by apply row_scan_ok.
  - by apply write_lock_ok.
  - by apply upgrade_ok.
  - by apply write_ok.
  - by apply overwrite_ok.
  - by apply abort_ok.
  - by apply undo_ok.
  - by apply undone_ok.
  - by apply commit_ok.
  - by apply unlock_shared_ok.
  - by apply unlock_exclusive_ok.
  - eapply pc_update; [done..| |done]. done.
Qed.

Lemma protocol_reachable_inv s s' : rtc (step used) s s' -> inv s -> inv s'.
Proof. induction 1; eauto using protocol_step_inv. Qed.

Lemma protocol_start_inv n : inv (start n m0).
Proof.
  assert (forall x, shares (replicate n Idle) x = 0) as Hz by (intros x; induction n as [|n IH]; [done|]; simpl; by rewrite IH).
  constructor; simpl.
  - intros x. exists 0. rewrite Hz. done.
  - by intros i pc x [-> _]%lookup_replicate.
  - by intros i pc [-> _]%lookup_replicate.
  - done.
  - intros pre tx post E. by destruct pre.
  - by intros tx ?%not_elem_of_nil.
Qed.

End serializability.

Lemma in_place_serial h m : (forall tx, tx ∈ h -> installed tx = write_set tx) -> serial h m = in_place h m.
Proof.
  revert m. induction h as [|tx h IH]; intros m H; [done|]. unfold serial, in_place in *. simpl. rewrite H by set_solver.
  apply IH. set_solver.
Qed.


Module Demo.

Definition A : Item := ([1], [7]).
Definition B : Item := ([2], [7]).
Definition C : Item := ([1], [8]).
Definition rows0 : gmap Item bytestring := {[A := [0]; B := [0]]}.

Definition reader (x : Item) : Tx := record_read (lock_read empty_tx x) x [0].

(** ** One table: a transaction reads a row and writes another *)

Definition table1 (x : Item) : Prop := x.1 = [1].
Definition t1 : Tx := record_write (reader A) C [] [5].
Definition a1 : State := with_pc (start 1 rows0) 0 (Running empty_tx).
Definition a2 : State := with_lock a1 A 2 0 (Reading (lock_read empty_tx A) A).
Definition a3 : State := with_pc a2 0 (Running (reader A)).
Definition a4 : State := with_lock a3 C 1 0 (Writing (reader A) C [5]).
Definition a5 : State := with_row a4 C [5] 0 (Running t1).
Definition a6 : State := with_commit a5 0 t1 (unlock_all t1).

Lemma committed_run : rtc (step table1) (start 1 rows0) a6.
Proof.
  apply (rtc_r _ a5); [|exact (step_commit table1 a5 0 t1 eq_refl)].
  apply (rtc_r _ a4); [|exact (step_write table1 a4 0 (reader A) C [5] eq_refl)].
  apply (rtc_r _ a3); [|apply (step_write_lock table1 a3 0 (reader A) C [5] 1); try reflexivity; apply not_elem_of_nil].
  apply (rtc_r _ a2); [|exact (step_read table1 a2 0 (lock_read empty_tx A) A eq_refl)].
  apply (rtc_r _ a1); [|apply (step_read_lock table1 a1 0 empty_tx A 2); try reflexivity; apply not_elem_of_nil].
  apply (rtc_r _ (start 1 rows0)); [apply rtc_refl|]. exact (step_begin table1 (start 1 rows0) 0 eq_refl).
Defined.


(** ** Two tables: two transactions read a row each and write that of the other *)

Definition anything (x : Item) : Prop := True.
Definition w0 : Tx := record_write (upgraded (reader A) B) B [0] [1].
Definition w1 : Tx := record_write (upgraded (reader B) A) A [0] [1].
Definition b1 : State := with_pc (start 2 rows0) 0 (Running empty_tx).
Definition b2 : State := with_pc b1 1 (Running empty_tx).
Definition b3 : State := with_lock b2 A 2 0 (Reading (lock_read empty_tx A) A).
Definition b4 : State := with_pc b3 0 (Running (reader A)).
Definition b5 : State := with_lock b4 B 2 1 (Reading (lock_read empty_tx B) B).
Definition b6 : State := with_pc b5 1 (Running (reader B)).
Definition b7 : State := with_lock b6 B 1 0 (Writing (upgraded (reader A) B) B [1]).
Definition b8 : State := with_lock b7 A 1 1 (Writing (upgraded (reader B) A) A [1]).
Definition b9 : State := with_row b8 B [1] 0 (Running w0).
Definition b10 : State := with_row b9 A [1] 1 (Running w1).
Definition b11 : State := with_commit b10 0 w0 (unlock_all w0).
Definition b12 : State := with_commit b11 1 w1 (unlock_all w1).

Lemma skewed_run : rtc (step anything) (start 2 rows0) b12.
Proof.
  apply (rtc_r _ b11); [|exact (step_commit anything b11 1 w1 eq_refl)].
  apply (rtc_r _ b10); [|exact (step_commit anything b10 0 w0 eq_refl)].
  apply (rtc_r _ b9); [|exact (step_write anything b9 1 (upgraded (reader B) A) A [1] eq_refl)].
  apply (rtc_r _ b8); [|exact (step_write anything b8 0 (upgraded (reader A) B) B [1] eq_refl)].
  apply (rtc_r _ b7); [|apply (step_upgrade anything b7 1 (reader B) A [1] 1); try exact I; try reflexivity; apply not_elem_of_nil].
  apply (rtc_r _ b6); [|apply (step_upgrade anything b6 0 (reader A) B [1] 1); try exact I; try reflexivity; apply not_elem_of_nil].
  apply (rtc_r _ b5); [|exact (step_read anything b5 1 (lock_read empty_tx B) B eq_refl)].
  apply (rtc_r _ b4); [|apply (step_read_lock anything b4 1 empty_tx B 2); try exact I; try reflexivity; apply not_elem_of_nil].
  apply (rtc_r _ b3); [|exact (step_read anything b3 0 (lock_read empty_tx A) A eq_refl)].
  apply (rtc_r _ b2); [|apply (step_read_lock anything b2 0 empty_tx A 2); try exact I; try reflexivity; apply not_elem_of_nil].
  apply (rtc_r _ b1); [|exact (step_begin anything b1 1 eq_refl)].
  apply (rtc_r _ (start 2 rows0)); [apply rtc_refl|]. exact (step_begin anything (start 2 rows0) 0 eq_refl).
Qed.

(** ** A second write of a row *)

Definition d0 : Tx := record_write empty_tx A [0] [5].
Definition d2 : State := with_lock a1 A 1 0 (Writing empty_tx A [5]).
Definition d3 : State := with_row d2 A [5] 0 (Running d0).
Definition d4 : State := with_pc d3 0 (Running (overwrite d0 A [6])).
Definition d5 : State := with_commit d4 0 (overwrite d0 A [6]) (unlock_all (overwrite d0 A [6])).

Lemma overwritten_run : rtc (step anything) (start 1 rows0) d5.
Proof.
  apply (rtc_r _ d4); [|exact (step_commit anything d4 0 (overwrite d0 A [6]) eq_refl)].
  apply (rtc_r _ d3); [|apply (step_overwrite anything d3 0 d0 A [6] eq_refl); apply list_elem_of_here].
  apply (rtc_r _ d2); [|exact (step_write anything d2 0 empty_tx A [5] eq_refl)].
  apply (rtc_r _ a1); [|apply (step_write_lock anything a1 0 empty_tx A [5] 1); try exact I; try reflexivity; apply not_elem_of_nil].
  apply (rtc_r _ (start 1 rows0)); [apply rtc_refl|]. exact (step_begin anything (start 1 rows0) 0 eq_refl).
Qed.

(** ** A row that is scanned twice *)

Definition scan1 : Tx := record_scan (lock_read empty_tx A) A [0].
Definition scan2 : Tx := record_scan (lock_read scan1 A) A [0].
Definition e2 : State := with_lock a1 A 2 0 (Scanning (lock_read empty_tx A) A).
Definition e3 : State := with_pc e2 0 (Running scan1).
Definition e4 : State := with_lock e3 A 4 0 (Scanning (lock_read scan1 A) A).
Definition e5 : State := with_pc e4 0 (Running scan2).
Definition e6 : State := with_commit e5 0 scan2 (Unlocking [A] []).
Definition e7 : State := with_lock e6 A 2 0 (Unlocking [] []).
Definition e8 : State := with_pc e7 0 Idle.

Lemma scanned_run : rtc (step anything) (start 1 rows0) e8.
Proof.
  apply (rtc_r _ e7); [|exact (step_end anything e7 0 eq_refl)].
  apply (rtc_r _ e6); [|exact (step_unlock_shared anything e6 0 A [] [] eq_refl)].
  apply (rtc_r _ e5); [|exact (step_commit anything e5 0 scan2 eq_refl)].
  apply (rtc_r _ e4); [|exact (step_direct anything e4 0 (lock_read scan1 A) A eq_refl)].
  apply (rtc_r _ e3); [|apply (step_direct_lock anything e3 0 scan1 A 4); try exact I; try reflexivity; apply not_elem_of_nil].
  apply (rtc_r _ e2); [|exact (step_direct anything e2 0 (lock_read empty_tx A) A eq_refl)].
  apply (rtc_r _ a1); [|apply (step_direct_lock anything a1 0 empty_tx A 2); try exact I; try reflexivity; apply not_elem_of_nil].
  apply (rtc_r _ (start 1 rows0)); [apply rtc_refl|]. exact (step_begin anything (start 1 rows0) 0 eq_refl).
Qed.

End Demo.
Import Demo.

(** C37. With rows of two tables that have the same key, two-phase locking
    admits write skew: each of two transactions takes the shared lock of the
    other for its own when it upgrades it, because Write looks for a read of
    the same key only, and both commit although in neither order the second
    read what the first wrote. *)
Theorem two_phase_locking_skews :
  ∃ s tx0 tx1, rtc (step anything) (start 2 rows0) s ∧ history s = [tx0; tx1] ∧
    (A, [0]) ∈ read_set tx0 ∧ (B, [0]) ∈ read_set tx1 ∧
    row (serial [tx0] rows0) B = [1] ∧ row (serial [tx1] rows0) A = [1].
Proof.
  exists b12, w0, w1. split; [exact skewed_run|]. split; [reflexivity|]. split; [apply list_elem_of_here|]. split; [apply list_elem_of_here|].
  split; reflexivity.
Qed.

(** Under two-phase locking a transaction that writes a row twice commits
    with the second value in its write set, which is logged, and the first one
    in the row. *)
Theorem second_write_never_reaches_the_row :
  ∃ s tx, rtc (step anything) (start 1 rows0) s ∧ history s = [tx] ∧ write_set tx = [(A, [6])] ∧ row (mem s) A = [5].
Proof. exists d5, (overwrite d0 A [6]). split; [exact overwritten_run|]. split; [reflexivity|]. split; reflexivity. Qed.

(** A transaction that scans a row twice takes its shared lock twice and
    releases it once: no transaction is left, and the row cannot be locked
    exclusively. *)
Theorem scanned_twice_keeps_a_lock :
  ∃ s, rtc (step anything) (start 1 rows0) s ∧ threads s = [Idle] ∧ TryLock Exclusive (word s A) = (false, 2).
Proof. exists e8. split; [exact scanned_run|]. split; reflexivity. Qed.
