(* ===== verification/ConcurrentQueue.v ===== *)
(** * moodycamel::ConcurrentQueue, as the code uses it

    The queue of the thread pool (src/src/thread_pool/thread_pool.h) and of the
    callback manager (src/src/callback/impl/thread_local_callback_manager.h) is
    a third-party class.  It is an interface here: the outcome of a call
    depends on the timing of the threads inside the queue, which an argument
    of the call stands for, and the laws say what its documentation says of
    every outcome.  [enqueue] fails when memory cannot be allocated,
    [try_dequeue] may fail on a queue that holds something, elements of
    different producers come out in any order, and [size_approx] is an
    estimate, of which nothing is assumed.

    [fifo] is an instance: a queue that never fails, keeps the order and knows
    its length. *)

From S2P Require Import Prelude.

Class ConcurrentQueue (Q A : Type) := mkQueue {
  q_new : Q;
  enqueue : nat -> A -> Q -> bool * Q;
  try_dequeue : nat -> Q -> option A * Q;
  size_approx : nat -> Q -> nat;
  q_contents : Q -> list A;
}.

Class ConcurrentQueueLaws {Q A : Type} (CQ : ConcurrentQueue Q A) : Prop := mkQueueLaws {
  new_law : q_contents q_new = [];
  enqueue_law o x q b q' : enqueue o x q = (b, q') ->
    q_contents q' ≡ₚ if b then x :: q_contents q else q_contents q;
  dequeue_law o q r q' : try_dequeue o q = (r, q') ->
    q_contents q ≡ₚ option_list r ++ q_contents q';
}.

(** The elements of a vector of queues. *)
Definition pending {Q A} `{ConcurrentQueue Q A} (l : list Q) : list A := concat (map q_contents l).
#[global] Arguments pending {Q A _} l : simpl never.

(** Exchanging one list of a concatenation. *)
Lemma concat_map_insert {A B} (f : B -> list A) (l : list B) i q q' (add remove : list A) :
  l !! i = Some q -> add ++ f q ≡ₚ remove ++ f q' ->
  add ++ concat (map f l) ≡ₚ remove ++ concat (map f (<[i := q']> l)).
Proof.
  intros Hq Hp. rewrite <- (take_drop_middle l i q Hq) at 1.
  rewrite insert_take_drop by eauto using lookup_lt_Some.
  rewrite !map_app, !map_cons, !concat_app, !concat_cons.
  set (a := concat (map f (take i l))). set (c := concat (map f (drop (S i) l))).
  transitivity (a ++ (add ++ f q) ++ c); [solve_Permutation|].
  rewrite Hp. unfold a, c. solve_Permutation.
Qed.

(** Exchanging one summand. *)
Lemma sum_list_with_insert {A} (f : A -> nat) (l : list A) i x y :
  l !! i = Some x -> (sum_list_with f (<[i := y]> l) + f x = sum_list_with f l + f y)%nat.
Proof.
  revert i. induction l as [|a l IH]; intros [|i] H; simplify_eq/=; [lia|]. specialize (IH i H). lia.
Qed.

Section queues.
Context {Q A : Type} `{CQ : ConcurrentQueue Q A} {L : ConcurrentQueueLaws CQ}.

Lemma pending_insert (l : list Q) i q q' (add remove : list A) :
  l !! i = Some q -> add ++ q_contents q ≡ₚ remove ++ q_contents q' ->
  add ++ pending l ≡ₚ remove ++ pending (<[i := q']> l).
Proof using. apply concat_map_insert. Qed.

Lemma pending_enqueue (l : list Q) i q o x b q' :
  l !! i = Some q -> enqueue o x q = (b, q') ->
  pending (<[i := q']> l) ≡ₚ (if b then [x] else []) ++ pending l.
Proof using L.
  intros Hq He. symmetry. apply (pending_insert l i q q' _ [] Hq).
  rewrite (enqueue_law o x q b q' He). by destruct b.
Qed.

Lemma pending_dequeue (l : list Q) i q o r q' :
  l !! i = Some q -> try_dequeue o q = (r, q') ->
  pending l ≡ₚ option_list r ++ pending (<[i := q']> l).
Proof using L.
  intros Hq Hd. apply (pending_insert l i q q' [] _ Hq). by rewrite (dequeue_law o q r q' Hd).
Qed.

Lemma pending_new n : pending (replicate n (q_new : Q)) = ([] : list A).
Proof using L. unfold pending. induction n as [|n IH]; [done|]. cbn. by rewrite new_law, IH. Qed.

Lemma pending_snoc_new (l : list Q) : pending (l ++ [q_new]) = (pending l : list A).
Proof using L. unfold pending. rewrite map_app, concat_app. cbn. by rewrite new_law, !app_nil_r. Qed.

End queues.

(** *** A queue that keeps the order *)

#[export] Instance fifo (A : Type) : ConcurrentQueue (list A) A := {|
  q_new := [];
  enqueue _ x q := (true, q ++ [x]);
  try_dequeue _ q := match q with [] => (None, []) | x :: q' => (Some x, q') end;
  size_approx _ q := length q;
  q_contents q := q;
|}.

#[export] Instance fifo_laws (A : Type) : ConcurrentQueueLaws (fifo A).
Proof.
  constructor; cbn.
  - done.
  - intros _ x q b q' [= <- <-]. by rewrite Permutation_app_comm.
  - intros _ [|x q] r q' [= <- <-]; done.
Qed.
