(* ===== verification/ThreadPool.v ===== *)
(** * The thread pool (src/src/thread_pool/thread_pool.h, thread_pool.cpp)

    Workers, each with a queue of jobs that others may steal from and a queue
    that only its owner serves, and the callers of the pool.  Every access to
    a queue, to a flag or to the counter of a waiting call is one step; a step
    of the pool is named by a label, which says who moves and how the queues
    behave ([ConcurrentQueue]).

    The jobs themselves are a parameter: running one is opaque to the pool.
    The job that [WaitForQueuesToBecomeEmpty] builds is [EndsJob c], where [c]
    is the call whose locals it captures by reference.

    The theorems show that every accepted job is started exactly once, that
    every access is in range and a worker that has not left its loop can move,
    that [Dequeue] ends after one turn around the queues, and that
    [WaitForQueuesToBecomeEmpty] outlasts every job that was running when it
    was called.  It does not outlast a job that was waiting then, and the
    mutex it waits on may be gone when the last worker locks it.

    Not modelled: the binding of a worker to a processor. *)

From S2P Require Import Prelude ConcurrentQueue.

Module ThreadPool.

(** What a queue holds: a job of the pool's user, or the function that
    [WaitForQueuesToBecomeEmpty] puts into the queue of every worker. *)
Inductive Job (J : Type) : Type := UserJob (j : J) | EndsJob (c : nat).
#[global] Arguments UserJob {J} j.
#[global] Arguments EndsJob {J} c.

Inductive QueueId : Type := Work (k : nat) | NoSteal (k : nat).

#[global] Instance QueueId_eq_dec : EqDecision QueueId.
Proof. solve_decision. Defined.

(** Where a worker is: in [GetIdxByThreadId], in [Dequeue], in a job, or in the
    test at the end of the loop of its thread. *)
Inductive WorkerPc (J : Type) : Type :=
| Identify
| MyQueue
| MyNoSteal
| Steal (k : nat)
| Take (q : QueueId)
| Run (j : Job J)
| Notify (c : nat)
| Leaving
| Scan (k : nat)
| TestShutdown
| Exited.
#[global] Arguments Identify {J}.
#[global] Arguments MyQueue {J}.
#[global] Arguments MyNoSteal {J}.
#[global] Arguments Steal {J} k.
#[global] Arguments Take {J} q.
#[global] Arguments Run {J} j.
#[global] Arguments Notify {J} c.
#[global] Arguments Leaving {J}.
#[global] Arguments Scan {J} k.
#[global] Arguments TestShutdown {J}.
#[global] Arguments Exited {J}.

(** A worker, its thread-local [idx], and the jobs it has started. *)
Record Worker (J : Type) := mkWorker {
  pc : WorkerPc J;
  idx : option nat;
  started : list (Job J);
}.
#[global] Arguments mkWorker {J} _ _ _.
#[global] Arguments pc {J} _.
#[global] Arguments idx {J} _.
#[global] Arguments started {J} _.

(** A call of the pool: [Enqueue] past its test of [stop_],
    [EnqueueForAllThreads] at its k-th queue, [WaitForQueuesToBecomeEmpty]
    at its k-th queue, waiting for [ends], and after it returned; the
    destructor joining its k-th thread. *)
Inductive Call (J : Type) : Type :=
| Submit (j : J)
| Broadcast (j : J) (k : nat)
| WaitEnqueue (k : nat)
| WaitEnds
| WaitReturned
| Joining (k : nat)
| Returned (b : bool).
#[global] Arguments Submit {J} j.
#[global] Arguments Broadcast {J} j k.
#[global] Arguments WaitEnqueue {J} k.
#[global] Arguments WaitEnds {J}.
#[global] Arguments WaitReturned {J}.
#[global] Arguments Joining {J} k.
#[global] Arguments Returned {J} b.

(** The pool, its workers and its callers.  [ends] is the counter of a waiting
    call, by the number of the call; [accepted] lists every job that was put
    into a queue. *)
Record State (J Q : Type) := mkState {
  stop_ : bool;
  shutdown_ : bool;
  work_queues_ : list Q;
  no_steal_queues_ : list Q;
  thread_ids_ : list nat;
  worker_threads_ : list (Worker J);
  calls : list (Call J);
  ends : list nat;
  accepted : list (Job J);
}.
#[global] Arguments mkState {J Q} _ _ _ _ _ _ _ _ _.
#[global] Arguments stop_ {J Q} _.
#[global] Arguments shutdown_ {J Q} _.
#[global] Arguments work_queues_ {J Q} _.
#[global] Arguments no_steal_queues_ {J Q} _.
#[global] Arguments thread_ids_ {J Q} _.
#[global] Arguments worker_threads_ {J Q} _.
#[global] Arguments calls {J Q} _.
#[global] Arguments ends {J Q} _.
#[global] Arguments accepted {J Q} _.

(** Who moves: a new call, the flags, call [c] or worker [i], with the outcome
    [o] of the queue it accesses and the number [r] a caller draws. *)
Inductive Label (J : Type) : Type :=
| LEnqueue (j : J)
| LEnqueueForAllThreads (j : J)
| LWaitForQueuesToBecomeEmpty
| LDestroy
| LStopAcceptingTransactions
| LResumeAcceptingTransactions
| LShutdown
| LCall (c o r : nat)
| LWorker (i o : nat).
#[global] Arguments LEnqueue {J} j.
#[global] Arguments LEnqueueForAllThreads {J} j.
#[global] Arguments LWaitForQueuesToBecomeEmpty {J}.
#[global] Arguments LDestroy {J}.
#[global] Arguments LStopAcceptingTransactions {J}.
#[global] Arguments LResumeAcceptingTransactions {J}.
#[global] Arguments LShutdown {J}.
#[global] Arguments LCall {J} c o r.
#[global] Arguments LWorker {J} i o.

Section pool.
Context {J Q : Type} `{CQ : ConcurrentQueue Q (Job J)}.
Abbreviation state := (State J Q).

Definition init (pool_size : nat) : state :=
  mkState false false (replicate pool_size q_new) (replicate pool_size q_new) []
    (replicate pool_size (mkWorker Identify None [])) [] [] [].

Definition set_flags (s : state) (stop shutdown : bool) : state :=
  mkState stop shutdown (work_queues_ s) (no_steal_queues_ s) (thread_ids_ s) (worker_threads_ s) (calls s) (ends s)
    (accepted s).

Definition set_worker (s : state) (i : nat) (w : Worker J) : state :=
  mkState (stop_ s) (shutdown_ s) (work_queues_ s) (no_steal_queues_ s) (thread_ids_ s) (<[i := w]> (worker_threads_ s))
    (calls s) (ends s) (accepted s).

Definition set_pc (s : state) (i : nat) (w : Worker J) (p : WorkerPc J) : state :=
  set_worker s i (mkWorker p (idx w) (started w)).

Definition set_ids (s : state) (ids : list nat) : state :=
  mkState (stop_ s) (shutdown_ s) (work_queues_ s) (no_steal_queues_ s) ids (worker_threads_ s) (calls s) (ends s)
    (accepted s).

Definition queue_at (s : state) (q : QueueId) : option Q :=
  match q with Work k => work_queues_ s !! k | NoSteal k => no_steal_queues_ s !! k end.

Definition set_queue (s : state) (i : QueueId) (q : Q) : state :=
  match i with
  | Work k =>
      mkState (stop_ s) (shutdown_ s) (<[k := q]> (work_queues_ s)) (no_steal_queues_ s) (thread_ids_ s)
        (worker_threads_ s) (calls s) (ends s) (accepted s)
  | NoSteal k =>
      mkState (stop_ s) (shutdown_ s) (work_queues_ s) (<[k := q]> (no_steal_queues_ s)) (thread_ids_ s)
        (worker_threads_ s) (calls s) (ends s) (accepted s)
  end.

Definition set_call (s : state) (c : nat) (call : Call J) : state :=
  mkState (stop_ s) (shutdown_ s) (work_queues_ s) (no_steal_queues_ s) (thread_ids_ s) (worker_threads_ s)
    (<[c := call]> (calls s)) (ends s) (accepted s).

(** A call begins; [ends] of a waiting call starts at 0. *)
Definition new_call (s : state) (call : Call J) : state :=
  mkState (stop_ s) (shutdown_ s) (work_queues_ s) (no_steal_queues_ s) (thread_ids_ s) (worker_threads_ s)
    (calls s ++ [call]) (ends s ++ [O]) (accepted s).

Definition set_ends (s : state) (c n : nat) : state :=
  mkState (stop_ s) (shutdown_ s) (work_queues_ s) (no_steal_queues_ s) (thread_ids_ s) (worker_threads_ s) (calls s)
    (<[c := n]> (ends s)) (accepted s).

Definition accept (s : state) (j : Job J) : state :=
  mkState (stop_ s) (shutdown_ s) (work_queues_ s) (no_steal_queues_ s) (thread_ids_ s) (worker_threads_ s) (calls s)
    (ends s) (accepted s ++ [j]).

(** [queue.enqueue(job)]: its result, and the pool after it. *)
Definition push (s : state) (o : nat) (i : QueueId) (j : Job J) : option (bool * state) :=
  q ← queue_at s i;
  let '(b, q') := enqueue o j q in
  let s' := set_queue s i q' in
  Some (b, if b then accept s' j else s').

(** [idx++; if (work_queues_.size() <= idx) idx = 0]. *)
Definition next_idx (n k : nat) : nat := if (n <=? S k)%nat then O else S k.

(** [GetIdxByThreadId]. *)
Definition GetIdxByThreadId (s : state) (i : nat) (w : Worker J) : nat * state :=
  match idx w with
  | Some k => (k, s)
  | None => (length (thread_ids_ s), set_ids s (thread_ids_ s ++ [i]))
  end.

(** The queues in the order [IsEmpty] looks at them. *)
Definition all_queues (s : state) : list Q := work_queues_ s ++ no_steal_queues_ s.

(** [selected_queue->try_dequeue(f)], and the start of [f]. *)
Definition take_job (s : state) (o i : nat) (w : Worker J) (qi : QueueId) : option state :=
  q ← queue_at s qi;
  let '(r, q') := try_dequeue o q in
  let s' := set_queue s qi q' in
  Some (match r with
        | Some j => set_worker s' i (mkWorker (Run j) (idx w) (started w ++ [j]))
        | None => set_pc s' i w Leaving
        end).

(** The function of [WaitForQueuesToBecomeEmpty]: the increment of [ends], and
    whether its result is the target. *)
Definition run_ends (s : state) (i : nat) (w : Worker J) (c : nat) : option state :=
  e ← ends s !! c;
  Some (set_pc (set_ends s c (S e)) i w
          (if (S e =? length (worker_threads_ s))%nat then Notify c else Leaving)).

(** One access of worker [i]: the loop of its thread, with [Dequeue] and
    [IsEmpty] inlined. *)
Definition worker_step (s : state) (i o : nat) : option state :=
  w ← worker_threads_ s !! i;
  match pc w with
  | Identify =>
      let '(k, s') := GetIdxByThreadId s i w in
      Some (set_worker s' i (mkWorker MyQueue (Some k) (started w)))
  | MyQueue =>
      me ← idx w; q ← work_queues_ s !! me;
      Some (set_pc s i w (if (size_approx o q =? 0)%nat then MyNoSteal else Steal me))
  | MyNoSteal =>
      me ← idx w; q ← no_steal_queues_ s !! me;
      Some (set_pc s i w (if (size_approx o q =? 0)%nat then Steal me else Take (NoSteal me)))
  | Steal k =>
      me ← idx w; q ← work_queues_ s !! k;
      Some (set_pc s i w
              (if (size_approx o q =? 0)%nat then
                 let k' := next_idx (length (work_queues_ s)) k in
                 if (k' =? me)%nat then Leaving else Steal k'
               else Take (Work k)))
  | Take qi => take_job s o i w qi
  | Run (UserJob _) => Some (set_pc s i w Leaving)
  | Run (EndsJob c) => run_ends s i w c
  | Notify _ => Some (set_pc s i w Leaving)
  | Leaving => Some (set_pc s i w (if stop_ s then Scan 0 else Identify))
  | Scan k =>
      q ← all_queues s !! k;
      Some (set_pc s i w
              (if (size_approx o q =? 0)%nat then
                 if (S k =? length (all_queues s))%nat then TestShutdown else Scan (S k)
               else Identify))
  | TestShutdown => Some (set_pc s i w (if shutdown_ s then Exited else Identify))
  | Exited => None
  end.

(** One access of call [c]. *)
Definition call_step (s : state) (c o r : nat) : option state :=
  call ← calls s !! c;
  match call with
  | Submit j =>
      '(b, s') ← push s o (Work (r mod length (work_queues_ s))%nat) (UserJob j);
      Some (set_call s' c (Returned b))
  | Broadcast j k =>
      if (k <? length (no_steal_queues_ s))%nat then
        '(b, s') ← push s o (NoSteal k) (UserJob j);
        Some (set_call s' c (Broadcast j (if (b : bool) then S k else k)))
      else Some (set_call s c (Returned true))
  | WaitEnqueue k =>
      if (k <? length (no_steal_queues_ s))%nat then
        '(b, s') ← push s o (NoSteal k) (EndsJob c);
        Some (set_call s' c (WaitEnqueue (if (b : bool) then S k else k)))
      else Some (set_call s c WaitEnds)
  | WaitEnds =>
      e ← ends s !! c;
      if (length (worker_threads_ s) <=? e)%nat then Some (set_call s c WaitReturned) else None
  | Joining k =>
      match worker_threads_ s !! k with
      | None => Some (set_call s c (Returned true))
      | Some w => match pc w with Exited => Some (set_call s c (Joining (S k))) | _ => None end
      end
  | WaitReturned | Returned _ => None
  end.

Definition step (s : state) (l : Label J) : option state :=
  match l with
  | LEnqueue j => Some (new_call s (if stop_ s then Returned false else Submit j))
  | LEnqueueForAllThreads j => Some (new_call s (if stop_ s then Returned false else Broadcast j 0))
  | LWaitForQueuesToBecomeEmpty => Some (new_call s (WaitEnqueue 0))
  | LDestroy => Some (new_call (set_flags s true true) (Joining 0))
  | LStopAcceptingTransactions => Some (set_flags s true (shutdown_ s))
  | LResumeAcceptingTransactions => Some (set_flags s false (shutdown_ s))
  | LShutdown => Some (set_flags s (stop_ s) true)
  | LCall c o r => call_step s c o r
  | LWorker i o => worker_step s i o
  end.

(** Whether a worker is in [Dequeue], before the job it takes. *)
Definition in_dequeue (p : WorkerPc J) : bool :=
  match p with Identify | MyQueue | MyNoSteal | Steal _ | Take _ => true | _ => false end.

Fixpoint run (s : state) (ls : list (Label J)) : option state :=
  match ls with
  | [] => Some s
  | l :: ls' => s' ← step s l; run s' ls'
  end.

Definition reachable (n : nat) (s : state) : Prop := ∃ ls, run (init n) ls = Some s.

End pool.

End ThreadPool.

Import ThreadPool.

(** ** The invariant *)

Lemma sum_list_with_bounded {A} (f : A -> nat) (l : list A) :
  (∀ i x, l !! i = Some x -> f x <= 1)%nat -> (length l <= sum_list_with f l)%nat ->
  ∀ i x, l !! i = Some x -> f x = 1%nat.
Proof.
  assert (Hle : ∀ l : list A, (∀ i x, l !! i = Some x -> f x <= 1)%nat -> (sum_list_with f l <= length l)%nat).
  { clear l. intros l. induction l as [|a l IH]; intros H; cbn; [lia|].
    pose proof (H O a eq_refl). pose proof (IH (fun i => H (S i))). lia. }
  induction l as [|a l IH]; intros H Hs i x Hi; cbn in *; [done|].
  pose proof (H O a eq_refl). pose proof (Hle l (fun i => H (S i))).
  destruct i as [|i]; simplify_eq/=; [lia|]. apply (IH (fun i => H (S i)) ltac:(lia) i x Hi).
Qed.

Section invariant.
Context {J Q : Type} `{CQ : ConcurrentQueue Q (Job J)} {L : ConcurrentQueueLaws CQ}.
Abbreviation state := (State J Q).
Variable n : nat.

(** The functions of call [c] in a list of jobs. *)
Definition sentinel (c : nat) (j : Job J) : nat :=
  match j with EndsJob d => if (d =? c)%nat then 1 else 0 | UserJob _ => 0 end.
Definition sentinels (c : nat) (l : list (Job J)) : nat := sum_list_with (sentinel c) l.

(** Whether a worker is about to count its function of call [c]. *)
Definition running (c : nat) (w : Worker J) : nat := match pc w with Run j => sentinel c j | _ => O end.

Definition worker_ok (w : Worker J) : Prop :=
  (idx w = None -> started w = []) ∧
  match pc w with
  | MyQueue | MyNoSteal | Notify _ => is_Some (idx w)
  | Steal k | Take (Work k) => is_Some (idx w) ∧ (k < n)%nat
  | Take (NoSteal k) => idx w = Some k
  | Run j => is_Some (idx w) ∧ j ∈ started w
  | Scan k => (k < n + n)%nat
  | _ => True
  end.

(** [idx] of a worker is its place in [thread_ids_]. *)
Definition ids_ok (ids : list nat) (ws : list (Worker J)) : Prop :=
  (∀ k i, ids !! k = Some i -> ∃ w, ws !! i = Some w ∧ idx w = Some k) ∧
  (∀ i w k, ws !! i = Some w -> idx w = Some k -> ids !! k = Some i).

Definition wf (s : state) : Prop :=
  length (work_queues_ s) = n ∧ length (no_steal_queues_ s) = n ∧ length (worker_threads_ s) = n ∧
  length (ends s) = length (calls s) ∧ ids_ok (thread_ids_ s) (worker_threads_ s) ∧
  (∀ i w, worker_threads_ s !! i = Some w -> worker_ok w).

Definition all_started (s : state) : list (Job J) := concat (map started (worker_threads_ s)).

Definition conserved (s : state) : Prop :=
  accepted s ≡ₚ pending (work_queues_ s) ++ pending (no_steal_queues_ s) ++ all_started s.

(** How many functions of call [c] may have gone into queue [k] so far. *)
Definition sent (s : state) (c k : nat) : nat :=
  match calls s !! c with
  | None => O
  | Some (WaitEnqueue m) => if (k <? m)%nat then 1 else 0
  | Some _ => 1
  end.

Definition ran_by (s : state) (c k : nat) : nat :=
  match thread_ids_ s !! k with
  | Some i => match worker_threads_ s !! i with Some w => sentinels c (started w) | None => O end
  | None => O
  end.

Definition sentinels_ok (s : state) : Prop :=
  (∀ c, sentinels c (pending (work_queues_ s)) = O) ∧
  (∀ c k q, no_steal_queues_ s !! k = Some q -> (sentinels c (q_contents q) + ran_by s c k <= sent s c k)%nat) ∧
  (∀ c e, ends s !! c = Some e ->
     (e + sum_list_with (running c) (worker_threads_ s) =
      sum_list_with (fun w => sentinels c (started w)) (worker_threads_ s))%nat) ∧
  (∀ c e, calls s !! c = Some WaitReturned -> ends s !! c = Some e -> (n <= e)%nat).

Definition inv (s : state) : Prop := wf s ∧ conserved s ∧ sentinels_ok s.

Lemma sentinels_app c l l' : sentinels c (l ++ l') = (sentinels c l + sentinels c l')%nat.
Proof using. apply sum_list_with_app. Qed.

Lemma sentinels_perm c l l' : l ≡ₚ l' -> sentinels c l = sentinels c l'.
Proof using. unfold sentinels. by intros ->. Qed.

Lemma sentinels_elem c l : EndsJob c ∈ l -> (1 <= sentinels c l)%nat.
Proof using.
  intros (i & Hi)%list_elem_of_lookup. rewrite <- (take_drop_middle l i _ Hi), sentinels_app.
  cbn. rewrite Nat.eqb_refl. lia.
Qed.

Lemma sentinels_pos c l : (1 <= sentinels c l)%nat -> EndsJob c ∈ l.
Proof using.
  induction l as [|[j|d] l IH]; cbn; intros H; [lia| |].
  - right. by apply IH.
  - destruct (Nat.eqb_spec d c) as [-> |]; [left|]. right. by apply IH.
Qed.

(** *** Indices *)

Lemma ids_bound ids ws : ids_ok ids ws -> NoDup ids ∧ (∀ i, i ∈ ids -> i < length ws)%nat.
Proof using.
  intros [H1 H2]. split.
  - apply NoDup_alt. intros k k' i Hk Hk'.
    destruct (H1 k i Hk) as (w & Hw & E), (H1 k' i Hk') as (w' & Hw' & E'). congruence.
  - intros i (k & Hk)%list_elem_of_lookup. destruct (H1 k i Hk) as (w & Hw & _). by apply lookup_lt_Some in Hw.
Qed.

Lemma NoDup_below (l : list nat) m : NoDup l -> (∀ i, i ∈ l -> i < m)%nat -> (length l <= m)%nat.
Proof using.
  intros Hn Hb. rewrite <- (length_seq m 0). apply submseteq_length, NoDup_submseteq; [done|].
  intros i Hi. apply elem_of_seq. specialize (Hb i Hi). lia.
Qed.

Lemma idx_bound s i w k : wf s -> worker_threads_ s !! i = Some w -> idx w = Some k -> (k < n)%nat.
Proof using.
  intros (_ & _ & Hl & _ & Hids & _) Hw Hk. destruct (ids_bound _ _ Hids) as [Hn Hb].
  pose proof (NoDup_below _ _ Hn Hb). apply (proj2 Hids i w k Hw), lookup_lt_Some in Hk. lia.
Qed.

(** [thread_ids_] has room for a worker that has not been numbered. *)
Lemma new_idx_bound s i w : wf s -> worker_threads_ s !! i = Some w -> idx w = None ->
  (length (thread_ids_ s) < n)%nat ∧ i ∉ thread_ids_ s.
Proof using.
  intros (_ & _ & Hl & _ & Hids & _) Hw Hk. destruct (ids_bound _ _ Hids) as [Hn Hb].
  assert (Hi : i ∉ thread_ids_ s).
  { intros (k & E)%list_elem_of_lookup. destruct (proj1 Hids k i E) as (w' & Hw' & E'). congruence. }
  split; [|done]. pose proof (NoDup_below (i :: thread_ids_ s) n) as H. cbn in H.
  apply Nat.lt_succ_r, le_n_S, H; [by constructor|].
  intros j [-> |Hj]%elem_of_cons; [apply lookup_lt_Some in Hw; lia|]. specialize (Hb j Hj). lia.
Qed.

(** *** Steps of a worker *)

Lemma worker_sent s i w c : inv s -> worker_threads_ s !! i = Some w ->
  started w = [] ∨ ∃ k, (sentinels c (started w) <= sent s c k)%nat.
Proof using.
  intros ((Hw1 & Hw2 & Hw3 & Hw4 & Hids & Hok) & _ & _ & HB & _) Hw.
  destruct (idx w) as [k|] eqn:E; [right|left; by apply (Hok i w Hw)].
  assert (Hk : (k < n)%nat) by (eapply idx_bound; eauto; done).
  rewrite <- Hw2 in Hk. apply lookup_lt_is_Some in Hk as [q Hq].
  exists k. specialize (HB c k q Hq). unfold ran_by in HB. rewrite (proj2 Hids i w k Hw E), Hw in HB. lia.
Qed.

Lemma sent_le s c k : (sent s c k <= 1)%nat.
Proof using. unfold sent. destruct (calls s !! c) as [[]|]; try case_match; lia. Qed.

Lemma worker_sentinels_le s i w c : inv s -> worker_threads_ s !! i = Some w ->
  (sentinels c (started w) <= 1)%nat.
Proof using.
  intros Hi Hw. destruct (worker_sent s i w c Hi Hw) as [-> | (k & Hk)]; [cbn; lia|].
  pose proof (sent_le s c k). lia.
Qed.

Lemma worker_sentinels_none s i w c : inv s -> worker_threads_ s !! i = Some w -> calls s !! c = None ->
  sentinels c (started w) = O.
Proof using.
  intros Hi Hw Hc. destruct (worker_sent s i w c Hi Hw) as [-> | (k & Hk)]; [done|].
  unfold sent in Hk. rewrite Hc in Hk. lia.
Qed.

Lemma running_le w c : worker_ok w -> (running c w <= sentinels c (started w))%nat.
Proof using.
  intros [_ H]. unfold running. destruct (pc w) as [| | | | |j| | | | |]; try lia.
  destruct j as [j|d]; cbn; [lia|]. destruct (Nat.eqb_spec d c) as [-> |]; [|lia].
  apply sentinels_elem, H.
Qed.

Lemma ids_ok_same ids ws i w w' : ids_ok ids ws -> ws !! i = Some w -> idx w' = idx w ->
  ids_ok ids (<[i := w']> ws).
Proof using.
  intros [H1 H2] Hw E. split.
  - intros k m Hm. destruct (H1 k m Hm) as (v & Hv & Ev). destruct (decide (m = i)) as [-> |Hne].
    + exists w'. rewrite list_lookup_insert_eq by eauto using lookup_lt_Some. split; congruence.
    + exists v. by rewrite list_lookup_insert_ne.
  - intros m v k [(<- & <- & _) | (Hne & Hv)]%list_lookup_insert_Some Hk; eauto. apply (H2 i w); congruence.
Qed.

Lemma set_worker_wf s i w w' : wf s -> worker_threads_ s !! i = Some w -> idx w' = idx w -> worker_ok w' ->
  wf (set_worker s i w').
Proof using.
  intros (H1 & H2 & H3 & H4 & H5 & H6) Hw E Hok. split_and!; cbn; try done.
  - by rewrite length_insert.
  - by eapply ids_ok_same.
  - intros m v [(<- & <- & _) | (Hne & Hv)]%list_lookup_insert_Some; eauto.
Qed.

(** The jobs a worker has started, when only it moves. *)
Lemma ran_by_insert s s' i w w' c k :
  wf s -> worker_threads_ s !! i = Some w -> idx w' = idx w ->
  thread_ids_ s' = thread_ids_ s -> worker_threads_ s' = <[i := w']> (worker_threads_ s) ->
  (ran_by s' c k + (if decide (idx w = Some k) then sentinels c (started w) else 0) =
   ran_by s c k + (if decide (idx w = Some k) then sentinels c (started w') else 0))%nat.
Proof using.
  intros (_ & _ & _ & _ & Hids & _) Hw E E1 E2. unfold ran_by. rewrite E1, E2.
  case_decide as Hk.
  - rewrite (proj2 Hids i w k Hw Hk), Hw, list_lookup_insert_eq by eauto using lookup_lt_Some. lia.
  - destruct (thread_ids_ s !! k) as [m|] eqn:Em; [|done].
    destruct (proj1 Hids k m Em) as (v & Hv & Ev). rewrite list_lookup_insert_ne by congruence. lia.
Qed.

Lemma all_started_insert s i w w' l : worker_threads_ s !! i = Some w -> started w' ≡ₚ l ++ started w ->
  concat (map started (<[i := w']> (worker_threads_ s))) ≡ₚ l ++ all_started s.
Proof using.
  intros Hw H. symmetry. apply (concat_map_insert started _ i w w' l [] Hw). by rewrite H.
Qed.

Lemma quiet_inv s i w w' : inv s -> worker_threads_ s !! i = Some w -> idx w' = idx w -> started w' = started w ->
  (∀ c, running c w' = running c w) -> worker_ok w' -> inv (set_worker s i w').
Proof using.
  intros (Hwf & Hc & HA & HB & HC & HD) Hw E1 E2 E3 Hok. split; [by eapply set_worker_wf|]. split.
  - unfold conserved in *. cbn. rewrite Hc. apply Permutation_app_head, Permutation_app_head. symmetry.
    apply (all_started_insert s i w w' [] Hw). by rewrite E2.
  - split; [done|]. split; [|split; [|done]].
    + intros c k q Hq. specialize (HB c k q Hq).
      pose proof (ran_by_insert s (set_worker s i w') i w w' c k Hwf Hw E1 eq_refl eq_refl) as Hr.
      rewrite E2 in Hr. change (sent (set_worker s i w') c k) with (sent s c k). lia.
    + intros c e He. cbn. specialize (HC c e He).
      pose proof (sum_list_with_insert (running c) _ i w w' Hw).
      pose proof (sum_list_with_insert (fun w => sentinels c (started w)) _ i w w' Hw) as Hs.
      cbn beta in Hs. rewrite E2 in Hs. specialize (E3 c). lia.
Qed.

Definition numbered (s : state) (i : nat) : state :=
  set_worker (set_ids s (thread_ids_ s ++ [i])) i (mkWorker MyQueue (Some (length (thread_ids_ s))) []).

Lemma numbered_ids s i w : wf s -> worker_threads_ s !! i = Some w -> idx w = None ->
  ids_ok (thread_ids_ (numbered s i)) (worker_threads_ (numbered s i)).
Proof using.
  intros Hwf Hw E. destruct (new_idx_bound s i w Hwf Hw E) as [_ Hi].
  destruct Hwf as (_ & _ & _ & _ & [H1 H2] & _). cbn. split.
  - intros k m [Hm|(Hge & [Hz <-]%list_lookup_singleton_Some)]%lookup_app_Some.
    + destruct (H1 k m Hm) as (v & Hv & Ev). exists v. rewrite list_lookup_insert_ne by congruence. done.
    + rewrite list_lookup_insert_eq by eauto using lookup_lt_Some. eexists. split; [done|]. cbn. f_equal. lia.
  - intros m v k [(<- & <- & _) | (Hne & Hv)]%list_lookup_insert_Some; cbn.
    + intros [= <-]. by apply list_lookup_middle.
    + intros Hk. by apply lookup_app_l_Some, (H2 m v).
Qed.

Lemma numbered_inv s i w : inv s -> worker_threads_ s !! i = Some w -> idx w = None -> pc w = Identify ->
  inv (numbered s i).
Proof using.
  intros Hinv Hw E Hpc. pose proof Hinv as (Hwf & Hc & HA & HB & HC & HD).
  pose proof (new_idx_bound s i w Hwf Hw E) as [Hlt Hi]. pose proof (numbered_ids s i w Hwf Hw E) as Hids.
  destruct Hwf as (H1 & H2 & H3 & H4 & H5 & H6). destruct (H6 i w Hw) as [Hs _]. specialize (Hs E).
  split; [|split].
  - split_and!; try done; cbn; [by rewrite length_insert|].
    intros m v [(<- & <- & _) | (Hne & Hv)]%list_lookup_insert_Some; [|eauto]. split; cbn; [done|eauto].
  - unfold conserved in *. cbn. rewrite Hc. apply Permutation_app_head, Permutation_app_head. symmetry.
    apply (all_started_insert s i w _ [] Hw). cbn. by rewrite Hs.
  - split; [done|]. split; [|split; [|done]].
    + intros c k q Hq. specialize (HB c k q Hq). change (sent (numbered s i) c k) with (sent s c k).
      enough (ran_by (numbered s i) c k = ran_by s c k) by lia. unfold ran_by. cbn.
      destruct (thread_ids_ s !! k) as [m|] eqn:Em.
      * rewrite (lookup_app_l_Some _ _ _ _ Em), list_lookup_insert_ne; [done|]. intros ->.
        by apply Hi, list_elem_of_lookup_2 with k.
      * destruct ((thread_ids_ s ++ [i]) !! k) as [m|] eqn:Em'; [|done].
        apply lookup_app_Some in Em' as [?|(Hge & [Hz <-]%list_lookup_singleton_Some)]; [congruence|].
        by rewrite list_lookup_insert_eq by eauto using lookup_lt_Some.
    + intros c e He. specialize (HC c e He). cbn.
      pose proof (sum_list_with_insert (running c) _ i w (mkWorker MyQueue (Some (length (thread_ids_ s))) []) Hw) as Hr.
      pose proof (sum_list_with_insert (fun w => sentinels c (started w)) _ i w
                    (mkWorker MyQueue (Some (length (thread_ids_ s))) []) Hw) as Hn.
      unfold running at 2 4 in Hr. cbn in Hr, Hn. rewrite Hpc in Hr. rewrite Hs in Hn. cbn in Hn. lia.
Qed.

Lemma set_queue_wf s qi q : wf s -> wf (set_queue s qi q).
Proof using.
  intros (H1 & H2 & H3 & H4 & H5 & H6). destruct qi; split_and!; cbn; rewrite ?length_insert; done.
Qed.

Lemma set_queue_pending (s : state) qi o q r q' :
  queue_at s qi = Some q -> try_dequeue o q = (r, q') ->
  pending (work_queues_ s) ++ pending (no_steal_queues_ s) ≡ₚ
  option_list r ++ pending (work_queues_ (set_queue s qi q')) ++ pending (no_steal_queues_ (set_queue s qi q')).
Proof using L.
  intros Hq Hd. destruct qi as [k|k]; cbn in *; rewrite (pending_dequeue _ k q o r q' Hq Hd);
    solve_Permutation.
Qed.

(** What [try_dequeue] takes out of the queues. *)
Lemma dequeue_sentinels s qi o q r q' (w : Worker J) :
  sentinels_ok s -> queue_at s qi = Some q -> try_dequeue o q = (r, q') ->
  (∀ k, qi = NoSteal k -> idx w = Some k) ->
  (∀ c, sentinels c (pending (work_queues_ (set_queue s qi q'))) = O) ∧
  (∀ c k q'', no_steal_queues_ (set_queue s qi q') !! k = Some q'' ->
     (sentinels c (q_contents q'') + ran_by s c k +
      (if decide (idx w = Some k) then sentinels c (option_list r) else 0) <= sent s c k)%nat).
Proof using L.
  intros (HA & HB & _) Hq Hd Hidx. destruct qi as [m|m]; cbn in *.
  - assert (Hz : ∀ c, (sentinels c (option_list r) = 0 ∧ sentinels c (pending (<[m:=q']> (work_queues_ s))) = 0)%nat).
    { intros c. specialize (HA c). rewrite (sentinels_perm _ _ _ (pending_dequeue _ m q o r q' Hq Hd)) in HA.
      rewrite sentinels_app in HA. lia. }
    split; [intros c; apply Hz|]. intros c k q'' Hk. specialize (HB c k q'' Hk). destruct (Hz c) as [Hr _].
    case_decide; lia.
  - split; [done|]. intros c k q'' [(<- & <- & _) | (Hne & Hk)]%list_lookup_insert_Some.
    + specialize (HB c m q Hq). rewrite (sentinels_perm _ _ _ (dequeue_law o q r q' Hd)), sentinels_app in HB.
      case_decide; lia.
    + specialize (HB c k q'' Hk). rewrite decide_False; [lia|]. rewrite (Hidx m eq_refl). congruence.
Qed.

Lemma take_conserved s qi o q r q' i w w' :
  conserved s -> queue_at s qi = Some q -> try_dequeue o q = (r, q') -> worker_threads_ s !! i = Some w ->
  started w' = started w ++ option_list r -> conserved (set_worker (set_queue s qi q') i w').
Proof using L.
  intros Hc Hq Hd Hw E. unfold conserved in *.
  assert (Ha : all_started (set_worker (set_queue s qi q') i w') ≡ₚ option_list r ++ all_started s).
  { transitivity (option_list r ++ all_started (set_queue s qi q')); [|by destruct qi].
    apply (all_started_insert _ i w w'); [by destruct qi|]. rewrite E. apply Permutation_app_comm. }
  rewrite Ha. replace (accepted (set_worker (set_queue s qi q') i w')) with (accepted s) by (by destruct qi).
  rewrite Hc, app_assoc, (set_queue_pending s qi o q r q' Hq Hd). cbn. destruct qi; cbn; solve_Permutation.
Qed.

Lemma take_job_inv s o i w qi s' : inv s -> worker_threads_ s !! i = Some w -> pc w = Take qi ->
  take_job s o i w qi = Some s' -> inv s'.
Proof using L.
  intros (Hwf & Hc & HS) Hw Hpc. unfold take_job. destruct (queue_at s qi) as [q|] eqn:Hq; [|done].
  cbn [mbind option_bind]. destruct (try_dequeue o q) as [r q'] eqn:Hd.
  set (w' := mkWorker (match r with Some j => Run j | None => Leaving end) (idx w) (started w ++ option_list r)).
  assert (Hs : ∀ x, Some x = Some s' -> x = set_worker (set_queue s qi q') i w' -> inv s'); cycle 1.
  { intros H. apply (Hs _ H). unfold w', set_pc. destruct r; cbn; [done|]. by rewrite app_nil_r. }
  intros x [= ->] ->. pose proof Hwf as (_ & _ & _ & _ & _ & Hok). pose proof (Hok i w Hw) as [Hn Hp].
  rewrite Hpc in Hp. assert (Hidx : is_Some (idx w)) by (destruct qi; [apply Hp|eauto]).
  assert (Hw' : worker_threads_ (set_queue s qi q') !! i = Some w) by (by destruct qi).
  split; [|split].
  - apply (set_worker_wf _ i w); [by apply set_queue_wf|done|done|].
    split; cbn; [intros E; rewrite E in Hidx; by destruct Hidx|].
    destruct r; [|done]. split; [done|]. apply elem_of_app. right. by constructor.
  - by apply (take_conserved s qi o q r q' i w w').
  - destruct (dequeue_sentinels s qi o q r q' w HS Hq Hd) as [HA' HB'].
    { intros k ->. exact Hp. }
    destruct HS as (_ & _ & HC & HD). split; [by destruct qi|]. split; [|split; [|by destruct qi]].
    + intros c k q'' Hk. specialize (HB' c k q'' ltac:(by destruct qi)).
      replace (sent (set_worker (set_queue s qi q') i w') c k) with (sent s c k) by (by destruct qi).
      pose proof (ran_by_insert s (set_worker (set_queue s qi q') i w') i w w' c k Hwf Hw eq_refl) as Hr.
      specialize (Hr ltac:(by destruct qi) ltac:(by destruct qi)). cbn [started w'] in Hr. rewrite sentinels_app in Hr.
      case_decide; lia.
    + intros c e He. specialize (HC c e ltac:(by destruct qi)).
      replace (worker_threads_ (set_worker (set_queue s qi q') i w')) with (<[i := w']> (worker_threads_ s))
        by (by destruct qi).
      pose proof (sum_list_with_insert (running c) _ i w w' Hw) as Hr.
      pose proof (sum_list_with_insert (fun w => sentinels c (started w)) _ i w w' Hw) as Hs.
      cbn beta in Hs. cbn [started w'] in Hs. rewrite sentinels_app in Hs.
      assert (running c w = O) by (unfold running; by rewrite Hpc).
      assert (running c w' = sentinels c (option_list r)) by (destruct r; cbn; lia). lia.
Qed.

Lemma run_ends_inv s i w c s' : inv s -> worker_threads_ s !! i = Some w -> pc w = Run (EndsJob c) ->
  run_ends s i w c = Some s' -> inv s'.
Proof using.
  intros (Hwf & Hc & HA & HB & HC & HD) Hw Hpc. unfold run_ends.
  destruct (ends s !! c) as [e|] eqn:He; [|done]. cbn [mbind option_bind]. intros [= <-].
  match goal with |- inv (set_pc _ _ _ ?x) => assert (Hx : x = Notify c ∨ x = Leaving) by (case_match; auto);
    generalize dependent x end.
  intros p Hx. unfold set_pc. set (w' := mkWorker p (idx w) (started w)).
  assert (Hwf' : wf (set_ends s c (S e))).
  { destruct Hwf as (H1 & H2 & H3 & H4 & H5 & H6). split_and!; cbn; rewrite ?length_insert; done. }
  pose proof Hwf as (_ & _ & _ & _ & _ & Hok). pose proof (Hok i w Hw) as [Hn Hp]. rewrite Hpc in Hp.
  assert (Hr0 : ∀ d, running d w' = O) by (intros d; unfold w', running; cbn; by destruct Hx as [-> | ->]).
  split; [|split].
  - apply (set_worker_wf _ i w); [done|done|done|]. split; cbn; [done|]. destruct Hx as [-> | ->]; [apply Hp|done].
  - unfold conserved in *. cbn. rewrite Hc. apply Permutation_app_head, Permutation_app_head. symmetry.
    by apply (all_started_insert s i w w' [] Hw).
  - split; [done|]. split; [|split].
    + intros d k q Hq. specialize (HB d k q Hq).
      pose proof (ran_by_insert s (set_worker (set_ends s c (S e)) i w') i w w' d k Hwf Hw eq_refl eq_refl eq_refl) as Hr.
      cbn [started w'] in Hr. change (sent (set_worker (set_ends s c (S e)) i w') d k) with (sent s d k).
      lia.
    + intros d e' He'. cbn in *.
      pose proof (sum_list_with_insert (running d) _ i w w' Hw) as Hr.
      pose proof (sum_list_with_insert (fun w => sentinels d (started w)) _ i w w' Hw) as Hs.
      cbn beta in Hs. cbn [started w'] in Hs.
      rewrite Hr0 in Hr. assert (Hrw : running d w = sentinel d (@EndsJob J c)) by (unfold running; by rewrite Hpc).
      cbn in Hrw. apply list_lookup_insert_Some in He' as [(<- & <- & _) | (Hne & He')].
      * rewrite Nat.eqb_refl in Hrw. specialize (HC c e He). lia.
      * rewrite (proj2 (Nat.eqb_neq c d) Hne) in Hrw. specialize (HC d e' He'). lia.
    + cbn. intros d e' Hd [(<- & <- & _) | (Hne & He')]%list_lookup_insert_Some; [|eauto].
      specialize (HD c e Hd He). lia.
Qed.

(** A worker that moves without touching a queue. *)
Lemma set_pc_inv s i w p : inv s -> worker_threads_ s !! i = Some w ->
  (∀ c, running c (mkWorker p (idx w) (started w)) = O) -> (∀ c, running c w = O) ->
  worker_ok (mkWorker p (idx w) (started w)) -> inv (set_pc s i w p).
Proof using. intros Hi Hw H1 H2 Hok. apply (quiet_inv s i w); try done. intros c. by rewrite H1, H2. Qed.

Lemma next_idx_lt m k : (k < m)%nat -> (next_idx m k < m)%nat.
Proof using. unfold next_idx. intros H. case_match eqn:E; [lia|]. apply Nat.leb_gt in E. lia. Qed.

Lemma worker_step_inv s i o s' : inv s -> worker_step s i o = Some s' -> inv s'.
Proof using L.
  intros Hi. unfold worker_step. destruct (worker_threads_ s !! i) as [w|] eqn:Hw; [|done].
  cbn [mbind option_bind]. pose proof Hi as ((Hl1 & Hl2 & Hl3 & _ & _ & Hok) & _). pose proof (Hok i w Hw) as [Hn Hp].
  assert (Hr : (∀ j, pc w <> Run j) -> ∀ c, running c w = O).
  { intros H c. unfold running. destruct (pc w); try done. by edestruct H. }
  destruct (pc w) as [| | |k|qi|[j|c]|c| |k| |] eqn:Hpc; intros H; try discriminate H.
  - unfold GetIdxByThreadId in H. destruct (idx w) as [k|] eqn:E.
    + injection H as <-. rewrite <- E. apply set_pc_inv; try done; [by apply Hr|]. split; [cbn; congruence|]. cbn. eauto.
    + injection H as <-. rewrite Hn by done. by apply (numbered_inv s i w).
  - destruct (idx w) as [me|] eqn:E; [|done]. cbn [mbind option_bind] in H.
    destruct (work_queues_ s !! me) as [q|] eqn:Hq; [|done]. apply lookup_lt_Some in Hq. cbn [mbind option_bind] in H.
    destruct (size_approx o q =? 0)%nat; injection H as <-; (apply set_pc_inv; [done..|by apply Hr|]);
      (split; [cbn; congruence|]); cbn; rewrite E; [|split]; eauto; lia.
  - destruct (idx w) as [me|] eqn:E; [|done]. cbn [mbind option_bind] in H.
    destruct (no_steal_queues_ s !! me) as [q|] eqn:Hq; [|done]. apply lookup_lt_Some in Hq. cbn [mbind option_bind] in H.
    destruct (size_approx o q =? 0)%nat; injection H as <-; (apply set_pc_inv; [done..|by apply Hr|]);
      (split; [cbn; congruence|]); cbn; rewrite E; [split|]; eauto; lia.
  - destruct (idx w) as [me|] eqn:E; [|done]. cbn [mbind option_bind] in H.
    destruct (work_queues_ s !! k) as [q|] eqn:Hq; [|done]. apply lookup_lt_Some in Hq. cbn [mbind option_bind] in H.
    pose proof (next_idx_lt _ _ Hq).
    destruct (size_approx o q =? 0)%nat, (next_idx (length (work_queues_ s)) k =? me)%nat; injection H as <-;
      (apply set_pc_inv; [done..|by apply Hr|]); (split; [cbn; congruence|]); cbn; rewrite ?E; try done; split; eauto; lia.
  - by apply (take_job_inv s o i w qi).
  - injection H as <-. apply set_pc_inv; try done. intros c. unfold running. by rewrite Hpc.
  - by apply (run_ends_inv s i w c).
  - injection H as <-. apply set_pc_inv; try done. by apply Hr.
  - apply lookup_lt_Some in Hw as Hi'.
    destruct (stop_ s); injection H as <-; (apply set_pc_inv; [done..|by apply Hr|]); split; cbn; try done. lia.
  - destruct (all_queues s !! k) as [q|] eqn:Hq; [|done]. cbn [mbind option_bind] in H.
    apply lookup_lt_Some in Hq. unfold all_queues in Hq, H. rewrite length_app in Hq, H.
    destruct (size_approx o q =? 0)%nat, (Nat.eqb_spec (S k) (length (work_queues_ s) + length (no_steal_queues_ s)));
      injection H as <-; (apply set_pc_inv; [done..|by apply Hr|]); split; cbn; try done. lia.
  - destruct (shutdown_ s); injection H as <-; (apply set_pc_inv; [done..|by apply Hr|]); by split.
Qed.

(** *** Steps of a call *)

(** A push and the move of the call that made it. *)
Lemma push_call_inv s o qi j b s1 c call call' :
  inv s -> calls s !! c = Some call -> push s o qi j = Some (b, s1) ->
  (∀ k, qi = Work k -> ∀ d, sentinel d j = O) -> call' <> WaitReturned ->
  (∀ d k, sent s d k + (if b && bool_decide (qi = NoSteal k) then sentinel d j else 0) <=
          sent (set_call s1 c call') d k)%nat ->
  inv (set_call s1 c call').
Proof using L.
  intros (Hwf & Hc & HA & HB & HC & HD) Hcall Hpush Hu Hne Hsent. unfold push in Hpush.
  destruct (queue_at s qi) as [q|] eqn:Hq; [|done]. cbn [mbind option_bind] in Hpush.
  destruct (enqueue o j q) as [b' q'] eqn:He. injection Hpush as -> Hs1.
  assert (E : worker_threads_ s1 = worker_threads_ s ∧ thread_ids_ s1 = thread_ids_ s ∧ ends s1 = ends s ∧
              calls s1 = calls s ∧ accepted s1 = accepted s ++ (if b then [j] else []) ∧
              work_queues_ s1 = work_queues_ (set_queue s qi q') ∧
              no_steal_queues_ s1 = no_steal_queues_ (set_queue s qi q')).
  { subst s1. destruct b, qi; cbn; by rewrite ?app_nil_r. }
  clear Hs1. destruct E as (Ew & Ei & Ee & Ec & Ea & Eq1 & Eq2). split; [|split].
  - destruct (set_queue_wf s qi q' Hwf) as (H1 & H2 & _). destruct Hwf as (_ & _ & H3 & H4 & H5 & H6).
    split_and!; cbn; rewrite ?length_insert, ?Ew, ?Ei, ?Ee, ?Ec, ?Eq1, ?Eq2; done.
  - unfold conserved, all_started in *. cbn. rewrite Ew, Ea, Eq1, Eq2, Hc.
    destruct qi as [k|k]; cbn in *; rewrite (pending_enqueue _ k q o j b q' Hq He); solve_Permutation.
  - split; [|split; [|split]].
    + intros d. change (work_queues_ (set_call s1 c call')) with (work_queues_ s1). rewrite Eq1.
      destruct qi as [k|k]; cbn [set_queue work_queues_ queue_at] in *; [|apply HA].
      rewrite (sentinels_perm _ _ _ (pending_enqueue _ k q o j b q' Hq He)), sentinels_app, HA.
      destruct b; cbn; [|done]. by rewrite (Hu k).
    + intros d k q'' Hk. cbn in Hk. rewrite Eq2 in Hk. specialize (Hsent d k).
      replace (ran_by (set_call s1 c call') d k) with (ran_by s d k) by (unfold ran_by; cbn; by rewrite Ew, Ei).
      destruct qi as [m|m]; cbn in Hk, Hq; [specialize (HB d k q'' Hk); lia|].
      apply list_lookup_insert_Some in Hk as [(<- & <- & _) | (Hmk & Hk)].
      * specialize (HB d m q Hq). rewrite (sentinels_perm _ _ _ (enqueue_law o j q b q' He)).
        rewrite bool_decide_true in Hsent by done. destruct b; cbn [andb] in Hsent; [|lia].
        change (sentinels d (j :: q_contents q)) with (sentinel d j + sentinels d (q_contents q))%nat. lia.
      * specialize (HB d k q'' Hk). lia.
    + cbn. by rewrite Ee, Ew.
    + cbn. rewrite Ec, Ee. intros d e [(_ & -> & _) | (_ & Hd)]%list_lookup_insert_Some; [done|eauto].
Qed.

Lemma set_call_inv s c call call' : inv s -> calls s !! c = Some call ->
  (∀ k, sent s c k <= match call' with WaitEnqueue m => if k <? m then 1 else 0 | _ => 1 end)%nat ->
  (call' = WaitReturned -> ∀ e, ends s !! c = Some e -> (n <= e)%nat) -> inv (set_call s c call').
Proof using.
  intros ((H1 & H2 & H3 & H4 & H5 & H6) & Hc & HA & HB & HC & HD) Hcall Hs Hr. split; [|split; [done|]].
  - split_and!; cbn; rewrite ?length_insert; done.
  - split; [done|]. split; [|split; [done|]].
    + intros d k q Hq. specialize (HB d k q Hq). change (ran_by (set_call s c call') d k) with (ran_by s d k).
      etransitivity; [exact HB|]. unfold sent at 2. cbn. destruct (decide (d = c)) as [-> |Hne].
      * rewrite list_lookup_insert_eq by eauto using lookup_lt_Some. apply Hs.
      * by rewrite list_lookup_insert_ne.
    + intros d e [(-> & -> & _) | (_ & Hd)]%list_lookup_insert_Some; eauto.
Qed.

Lemma sent_set_call (s s1 : state) c call call' d k :
  calls s1 = calls s -> calls s !! c = Some call ->
  sent (set_call s1 c call') d k =
  if decide (d = c) then match call' with WaitEnqueue m => if (k <? m)%nat then 1%nat else 0%nat | _ => 1%nat end
  else sent s d k.
Proof using.
  intros E Hc. unfold sent. cbn. rewrite E. case_decide as H; [subst d|by rewrite list_lookup_insert_ne].
  by rewrite list_lookup_insert_eq by eauto using lookup_lt_Some.
Qed.

Lemma push_calls (s : state) o qi j b s1 : push s o qi j = Some (b, s1) -> calls s1 = calls s.
Proof using.
  unfold push. destruct (queue_at s qi) as [q|]; [|done]. cbn [mbind option_bind].
  destruct (enqueue o j q) as [b' q']. intros [= -> <-]. by destruct b, qi.
Qed.

Lemma push_user_inv s o qi (j : J) b s1 c call call' :
  inv s -> calls s !! c = Some call -> push s o qi (UserJob j) = Some (b, s1) ->
  match call' with WaitReturned | WaitEnqueue _ => False | _ => True end -> inv (set_call s1 c call').
Proof using L.
  intros Hi Hc Hp H. apply (push_call_inv s o qi (UserJob j) b s1 c call call' Hi Hc Hp); [done|by intros -> |].
  intros d k. rewrite (sent_set_call s s1 c call call' d k (push_calls _ _ _ _ _ _ Hp) Hc). cbn.
  pose proof (sent_le s d k). case_decide; destruct call'; try done; case_match; lia.
Qed.

Lemma call_step_inv s c o r s' : inv s -> call_step s c o r = Some s' -> inv s'.
Proof using L.
  intros Hi. pose proof Hi as ((_ & _ & H3 & _) & _). unfold call_step.
  destruct (calls s !! c) as [call|] eqn:Hc; [|done]. cbn [mbind option_bind].
  assert (H1 : ∀ call' : Call J, match call' with WaitEnqueue _ | WaitReturned => False | _ => True end ->
                 inv (set_call s c call')).
  { intros call' H. apply (set_call_inv s c call call' Hi Hc); [|by intros ->].
    intros k. pose proof (sent_le s c k). by destruct call'. }
  destruct call as [j|j k|k| | |k|b]; intros H; try discriminate H.
  - destruct (push s o _ (UserJob j)) as [[b s1]|] eqn:Hp; [|done]. injection H as <-. by eapply push_user_inv.
  - case_match; [|injection H as <-; by apply H1].
    destruct (push s o _ (UserJob j)) as [[b s1]|] eqn:Hp; [|done]. injection H as <-. by eapply push_user_inv.
  - case_match eqn:Hk; [|injection H as <-; by apply H1].
    destruct (push s o (NoSteal k) (EndsJob c)) as [[b s1]|] eqn:Hp; [|done]. injection H as <-.
    apply (push_call_inv s o _ _ b s1 c _ _ Hi Hc Hp); [done|done|]. intros d m.
    rewrite (sent_set_call s s1 c _ _ d m (push_calls _ _ _ _ _ _ Hp) Hc). cbn [sentinel].
    case_decide as Hd; [subst d; rewrite Nat.eqb_refl; unfold sent; rewrite Hc|
                        rewrite (proj2 (Nat.eqb_neq c d)) by congruence; case_match; lia].
    destruct b; cbn [andb]; [|lia]. case_bool_decide as E; simplify_eq.
    + rewrite (proj2 (Nat.ltb_ge m m)), (proj2 (Nat.ltb_lt m (S m))) by lia. lia.
    + destruct (Nat.ltb_spec m k), (Nat.ltb_spec m (S k)); lia.
  - destruct (ends s !! c) as [e|] eqn:He; [|done]. cbn [mbind option_bind] in H.
    destruct (Nat.leb_spec (length (worker_threads_ s)) e) as [Hle|]; [|done]. injection H as <-.
    apply (set_call_inv s c _ _ Hi Hc); [intros k; apply sent_le|]. intros _ e' He'. congruence || (simplify_eq; lia).
  - case_match; [|injection H as <-; by apply H1]. case_match; try done. injection H as <-. by apply H1.
Qed.

Lemma new_call_inv s call : inv s -> call <> WaitReturned -> inv (new_call s call).
Proof using.
  intros Hi Hne. pose proof Hi as ((H1 & H2 & H3 & H4 & H5 & H6) & Hc & HA & HB & HC & HD).
  split; [|split; [done|]].
  - split_and!; cbn; rewrite ?length_app; cbn; try done. by rewrite H4.
  - split; [done|]. split; [|split].
    + intros d k q Hq. specialize (HB d k q Hq). etransitivity; [exact HB|]. unfold sent. cbn.
      destruct (calls s !! d) as [x|] eqn:Hd; [by rewrite (lookup_app_l_Some _ _ _ _ Hd)|]. lia.
    + cbn. intros d e [He|(Hge & [Hz <-]%list_lookup_singleton_Some)]%lookup_app_Some; [by apply HC|].
      assert (Hn : calls s !! d = None) by (apply lookup_ge_None_2; lia).
      assert (Hz' : ∀ f : Worker J -> nat, (∀ i w, worker_threads_ s !! i = Some w -> f w = O) ->
                sum_list_with f (worker_threads_ s) = O).
      { clear. generalize (worker_threads_ s). intros l f. induction l as [|w l IH]; intros H; cbn; [done|].
        rewrite (H O w eq_refl), IH; [done|]. intros i. apply (H (S i)). }
      rewrite !Hz'; [done| |].
      * intros i w Hw. apply (worker_sentinels_none s i w d Hi Hw Hn).
      * intros i w Hw. pose proof (worker_sentinels_none s i w d Hi Hw Hn).
        pose proof (running_le w d (H6 i w Hw)). lia.
    + cbn. intros d e [Hd|(Hge & [Hz E]%list_lookup_singleton_Some)]%lookup_app_Some; [|done].
      intros He. apply (HD d e Hd). apply lookup_lt_Some in Hd. rewrite <- H4 in Hd. by rewrite lookup_app_l in He.
Qed.

Lemma pool_step_inv s l s' : inv s -> step s l = Some s' -> inv s'.
Proof using L.
  intros Hi. destruct l as [j|j| | | | | |c o r|i o]; cbn [step].
  1-2: intros [= <-]; apply new_call_inv; [done|]; by destruct (stop_ s).
  1: intros [= <-]; by apply new_call_inv.
  1: intros [= <-]; by apply new_call_inv.
  1-3: by intros [= <-].
  - apply call_step_inv, Hi.
  - apply worker_step_inv, Hi.
Qed.

Lemma init_inv : inv (init n).
Proof using L.
  split; [|split].
  - split_and!; cbn; rewrite ?length_replicate; try done.
    + split; [done|]. intros i w k [-> _]%lookup_replicate. done.
    + intros i w [-> _]%lookup_replicate. by split.
  - unfold conserved, all_started. cbn [init accepted work_queues_ no_steal_queues_ worker_threads_].
    rewrite !pending_new. cbn. by induction n.
  - split; [|split; [|split]]; try done.
    + intros c. cbn [init work_queues_]. by rewrite pending_new.
    + intros c k q [-> _]%lookup_replicate. by rewrite new_law.
Qed.

Lemma run_inv s ls s' : inv s -> run s ls = Some s' -> inv s'.
Proof using L.
  revert s. induction ls as [|l ls IH]; cbn [run]; intros s Hi; [by intros [= <-]|].
  destruct (step s l) as [s1|] eqn:E; [|done]. apply IH, (pool_step_inv s l), E. done.
Qed.

Lemma pool_reachable_inv s : reachable n s -> inv s.
Proof using L. intros (ls & H). exact (run_inv _ ls s init_inv H). Qed.

(** *** Workers go on *)

Lemma worker_ends_bound s i w c : inv s -> worker_threads_ s !! i = Some w -> EndsJob c ∈ started w ->
  is_Some (ends s !! c).
Proof using.
  intros Hi Hw Hj%sentinels_elem. apply lookup_lt_is_Some_2. destruct (calls s !! c) as [x|] eqn:Hc.
  - apply lookup_lt_Some in Hc. destruct Hi as ((_ & _ & _ & H4 & _) & _). lia.
  - rewrite (worker_sentinels_none s i w c Hi Hw Hc) in Hj. lia.
Qed.

Lemma worker_moves s i o w : inv s -> worker_threads_ s !! i = Some w -> pc w <> Exited ->
  is_Some (worker_step s i o).
Proof using.
  intros Hi Hw Hpc. unfold worker_step. rewrite Hw. cbn [mbind option_bind].
  pose proof Hi as (Hwf & _). pose proof Hwf as (Hl1 & Hl2 & _ & _ & _ & Hok). destruct (Hok i w Hw) as [_ Hp].
  assert (Hq : ∀ k, idx w = Some k -> is_Some (work_queues_ s !! k) ∧ is_Some (no_steal_queues_ s !! k)).
  { intros k Hk%(idx_bound s i w k Hwf Hw). split; apply lookup_lt_is_Some_2; lia. }
  destruct (pc w) as [| | |k|[k|k]|[j|c]|c| |k| |] eqn:E; try done.
  - destruct (GetIdxByThreadId s i w). eauto.
  - destruct Hp as [me Hme]. destruct (Hq me Hme) as [[q Hq1] _]. rewrite Hme. cbn. rewrite Hq1. cbn. eauto.
  - destruct Hp as [me Hme]. destruct (Hq me Hme) as [_ [q Hq1]]. rewrite Hme. cbn. rewrite Hq1. cbn. eauto.
  - destruct Hp as [[me Hme] Hk]. rewrite <- Hl1 in Hk. apply lookup_lt_is_Some in Hk as [q Hk].
    rewrite Hme. cbn. rewrite Hk. cbn. eauto.
  - destruct Hp as [_ Hk]. rewrite <- Hl1 in Hk. apply lookup_lt_is_Some in Hk as [q Hk].
    unfold take_job. cbn. rewrite Hk. cbn. destruct (try_dequeue o q). eauto.
  - destruct (Hq k Hp) as [_ [q Hk]]. unfold take_job. cbn. rewrite Hk. cbn. destruct (try_dequeue o q). eauto.
  - destruct Hp as [_ Hj]. unfold run_ends. destruct (worker_ends_bound s i w c Hi Hw Hj) as [e ->]. cbn. eauto.
  - assert (Hk : is_Some (all_queues s !! k)).
    { apply lookup_lt_is_Some_2. unfold all_queues. rewrite length_app. lia. }
    destruct Hk as [q ->]. cbn. eauto.
Qed.

Lemma set_queue_workers (s : state) qi q : worker_threads_ (set_queue s qi q) = worker_threads_ s.
Proof using. by destruct qi. Qed.

(** Whether a label moves worker [i]: no other label does. *)
Definition moves (i : nat) (l : Label J) : bool := match l with LWorker m _ => (m =? i)%nat | _ => false end.

Lemma step_worker (s s' : state) l i w : step s l = Some s' -> worker_threads_ s !! i = Some w ->
  moves i l = false -> worker_threads_ s' !! i = Some w.
Proof using.
  intros H Hw Hl. destruct l as [j|j| | | | | |c o r|m o]; cbn [step] in H; try (by injection H as <-).
  - unfold call_step in H. destruct (calls s !! c) as [call|]; [|done]. cbn [mbind option_bind] in H.
    assert (Hp : ∀ qi j b s1 call', push s o qi j = Some (b, s1) ->
              worker_threads_ (set_call s1 c call') !! i = Some w).
    { intros qi j b s1 call'. unfold push. destruct (queue_at s qi) as [q|]; [|done]. cbn [mbind option_bind].
      destruct (enqueue o j q) as [b' q']. intros [= -> <-]. by destruct b, qi. }
    destruct call as [j|j k|k| | |k|b]; try done.
    + destruct (push _ _ _ _) as [[b s1]|] eqn:E; [|done]. injection H as <-. by eapply Hp.
    + case_match; [|by injection H as <-].
      destruct (push _ _ _ _) as [[b s1]|] eqn:E; [|done]. injection H as <-. by eapply Hp.
    + case_match; [|by injection H as <-].
      destruct (push _ _ _ _) as [[b s1]|] eqn:E; [|done]. injection H as <-. by eapply Hp.
    + destruct (ends s !! c); [|done]. cbn [mbind option_bind] in H. case_match; [|done]. by injection H as <-.
    + case_match; [|by injection H as <-]. case_match; try done. by injection H as <-.
  - apply Nat.eqb_neq in Hl.
    unfold worker_step in H. destruct (worker_threads_ s !! m) as [v|]; [|done]. cbn [mbind option_bind] in H.
    assert (Hs : ∀ (s1 : state) p, worker_threads_ s1 = worker_threads_ s -> worker_threads_ (set_worker s1 m p) !! i = Some w).
    { intros s1 p E. cbn. rewrite E. by rewrite list_lookup_insert_ne. }
    unfold take_job, run_ends, GetIdxByThreadId, set_pc in H.
    repeat (case_match || (apply bind_Some in H as (? & ? & H))); simplify_eq; apply Hs; try done;
      apply set_queue_workers.
Qed.

(** How many accesses [Dequeue] still makes at most; 0 outside of it. *)
Definition dequeue_rank (w : Worker J) : nat :=
  match pc w with
  | Identify => n + 4
  | MyQueue => n + 3
  | MyNoSteal => n + 2
  | Steal k => match idx w with Some me => 2 + (if k <? me then me - k - 1 else me + n - k - 1) | None => 0 end
  | Take _ => 1
  | _ => 0
  end%nat.

Lemma dequeue_rank_le w : (match pc w with Steal k => k < n | _ => True end)%nat ->
  (∀ me, idx w = Some me -> me < n)%nat -> (dequeue_rank w <= n + 4)%nat.
Proof using.
  intros Hk Hm. unfold dequeue_rank. destruct (pc w); try lia. destruct (idx w) as [me|]; [|lia].
  specialize (Hm me eq_refl). destruct (Nat.ltb_spec k me); lia.
Qed.

Lemma steal_rank k me : (k < n)%nat -> (me < n)%nat -> next_idx n k <> me ->
  ((if next_idx n k <? me then me - next_idx n k - 1 else me + n - next_idx n k - 1) <
   (if k <? me then me - k - 1 else me + n - k - 1))%nat.
Proof using.
  intros Hk Hm Hne. unfold next_idx in *. destruct (Nat.leb_spec n (S k)).
  - destruct (Nat.ltb_spec 0 me), (Nat.ltb_spec k me); lia.
  - destruct (Nat.ltb_spec (S k) me), (Nat.ltb_spec k me); lia.
Qed.

Lemma worker_step_own s i o s' w : inv s -> worker_threads_ s !! i = Some w -> worker_step s i o = Some s' ->
  ∃ w', worker_threads_ s' !! i = Some w' ∧ started w `prefix_of` started w' ∧
        (dequeue_rank w <> O -> dequeue_rank w' < dequeue_rank w)%nat.
Proof using.
  intros Hi Hw. unfold worker_step. rewrite Hw. cbn [mbind option_bind].
  pose proof Hi as (Hwf & _). pose proof Hwf as (Hl1 & Hl2 & _ & _ & _ & Hok). destruct (Hok i w Hw) as [_ Hp].
  pose proof (fun me => idx_bound s i w me Hwf Hw) as Hme.
  assert (Hs : ∀ (s1 : state) w', worker_threads_ s1 = worker_threads_ s -> started w `prefix_of` started w' ->
            (dequeue_rank w <> O -> dequeue_rank w' < dequeue_rank w)%nat ->
            ∃ w'', worker_threads_ (set_worker s1 i w') !! i = Some w'' ∧ started w `prefix_of` started w'' ∧
                   (dequeue_rank w <> O -> dequeue_rank w'' < dequeue_rank w)%nat).
  { intros s1 w' E Hst Hr. exists w'. split; [|done]. cbn. rewrite E.
    apply list_lookup_insert_eq. by eapply lookup_lt_Some. }
  unfold take_job, run_ends, GetIdxByThreadId, set_pc, dequeue_rank in *.
  destruct (pc w) as [| | |k|qi|[j|c]|c| |k| |] eqn:Hpc; intros H; try discriminate H;
    repeat (apply bind_Some in H as (? & ? & H)).
  - destruct (idx w) as [k|] eqn:E; injection H as <-; (apply Hs; [done|done|]); cbn; lia.
  - injection H as <-. apply Hs; [done|done|]. specialize (Hme _ H0).
    destruct (size_approx _ _ =? 0)%nat; cbn [pc idx]; [lia|]. rewrite H0, Nat.ltb_irrefl. lia.
  - injection H as <-. apply Hs; [done|done|]. specialize (Hme _ H0).
    destruct (size_approx _ _ =? 0)%nat; cbn [pc idx]; [|lia]. rewrite H0, Nat.ltb_irrefl. lia.
  - injection H as <-. apply Hs; [done|done|]. specialize (Hme _ H0). rewrite H0 in *.
    destruct (size_approx _ _ =? 0)%nat; cbn [pc idx]; [|lia].
    destruct (Nat.eqb_spec (next_idx (length (work_queues_ s)) k) x); [lia|]. rewrite Hl1 in *.
    pose proof (steal_rank k x (proj2 Hp) Hme n0). lia.
  - destruct (try_dequeue o x) as [[j|] q']; injection H as <-; (apply Hs; [by destruct qi| |]); cbn; try done; try lia.
    by apply prefix_app_r.
  - injection H as <-. by apply Hs.
  - injection H as <-. by apply Hs.
  - injection H as <-. by apply Hs.
  - injection H as <-. by apply Hs.
  - injection H as <-. by apply Hs.
  - injection H as <-. by apply Hs.
Qed.

Lemma run_worker s ls s' i w : inv s -> run s ls = Some s' -> worker_threads_ s !! i = Some w ->
  ∃ w', worker_threads_ s' !! i = Some w' ∧ started w `prefix_of` started w'.
Proof using L.
  revert s w. induction ls as [|l ls IH]; cbn [run]; intros s w Hi H Hw; [injection H as <-; eauto|].
  destruct (step s l) as [s1|] eqn:E; [|done]. cbn [mbind option_bind] in H.
  pose proof (pool_step_inv s l s1 Hi E) as Hi1.
  assert (Hw1 : ∃ w1, worker_threads_ s1 !! i = Some w1 ∧ started w `prefix_of` started w1).
  { destruct (moves i l) eqn:Hl.
    - destruct l; try done. apply Nat.eqb_eq in Hl as ->.
      destruct (worker_step_own s i o s1 w Hi Hw E) as (w1 & ? & ? & _). eauto.
    - exists w. split; [|done]. by apply (step_worker s s1 l i w E Hw). }
  destruct Hw1 as (w1 & Hw1 & Hp1). destruct (IH s1 w1 Hi1 H Hw1) as (w' & Hw' & Hp). exists w'. split; [done|].
  by transitivity (started w1).
Qed.

(** What a step of a worker does to its jobs: it starts one, or it runs none
    that it did not run before. *)
Lemma worker_step_jobs s i o s' w : worker_threads_ s !! i = Some w -> worker_step s i o = Some s' ->
  ∃ w', worker_threads_ s' = <[i := w']> (worker_threads_ s) ∧
    (started w' = started w ∧ (∀ j, pc w' <> Run j) ∨
     ∃ j, pc w' = Run j ∧ started w' = started w ++ [j] ∧ ∀ j', pc w <> Run j').
Proof using.
  intros Hw. unfold worker_step. rewrite Hw. cbn [mbind option_bind].
  unfold take_job, run_ends, GetIdxByThreadId, set_pc.
  destruct (pc w) as [| | |k|qi|[j|c]|c| |k| |] eqn:Hpc; intros H; try discriminate H;
    repeat (apply bind_Some in H as (? & ? & H)); repeat case_match; simplify_eq;
    (eexists; split; [first [reflexivity | by destruct qi]|]);
    first [left; split; [reflexivity|]; intros ?; cbn; repeat case_match; congruence
          | right; eexists; split_and!; [reflexivity..|congruence]].
Qed.

(** A call that has returned stays so. *)
Lemma step_wait_returned (s s' : state) l c : step s l = Some s' ->
  (length (calls s) <= length (calls s'))%nat ∧ (calls s !! c = Some WaitReturned -> calls s' !! c = Some WaitReturned).
Proof using.
  assert (Hq : ∀ (s1 : state) qi q, calls (set_queue s1 qi q) = calls s1) by (by destruct qi).
  assert (Hp : ∀ o qi j b s1, push s o qi j = Some (b, s1) -> calls s1 = calls s).
  { intros o qi j b s1. unfold push. destruct (queue_at s qi) as [q|]; [|done]. cbn [mbind option_bind].
    destruct (enqueue o j q) as [b' q']. intros [= -> <-]. by destruct b, qi. }
  assert (Hn : ∀ call, (length (calls s) <= length (calls (new_call s call)))%nat ∧
                       (calls s !! c = Some WaitReturned -> calls (new_call s call) !! c = Some WaitReturned)).
  { intros call. cbn. rewrite length_app. split; [lia|]. by apply lookup_app_l_Some. }
  intros H. destruct l as [j|j| | | | | |d o r|m o]; cbn [step] in H; try (by injection H as <-);
    try (injection H as <-; apply Hn).
  - unfold call_step in H. destruct (calls s !! d) as [call|] eqn:Hd; [|done]. cbn [mbind option_bind] in H.
    assert (Hc : call <> WaitReturned ->
              ∃ (s1 : state) call', s' = set_call s1 d call' ∧ calls s1 = calls s).
    { intros Hne. destruct call; try done; repeat (case_match || (apply bind_Some in H as (? & ? & H))); simplify_eq; eauto. }
    assert (Hne : call <> WaitReturned) by (by intros ->).
    destruct (Hc Hne) as (s1 & call' & -> & E). cbn. rewrite E, length_insert. split; [done|]. intros Hr.
    rewrite list_lookup_insert_ne; congruence.
  - unfold worker_step in H. destruct (worker_threads_ s !! m) as [w|] eqn:Hw; [|done]. cbn [mbind option_bind] in H.
    assert (E : calls s' = calls s); [|by rewrite E].
    unfold take_job, run_ends, GetIdxByThreadId, set_pc in H.
    repeat (case_match || (apply bind_Some in H as (? & ? & H))); simplify_eq; cbn; try rewrite Hq; done.
Qed.

(** C25. The thread pool loses and repeats no job: in every interleaving of
    callers and workers, with work stealing, every job that was put into a
    queue is in exactly one queue or has been started, by exactly one worker
    and exactly once. *)
Theorem pool_jobs_started_once s : reachable n s ->
  accepted s ≡ₚ pending (work_queues_ s) ++ pending (no_steal_queues_ s) ++ concat (map started (worker_threads_ s)).
Proof using L. intros Hi%pool_reachable_inv. apply Hi. Qed.

(** A worker that has not left its loop can always move: every queue and every
    counter it accesses exists, whatever the queues answer. *)
Theorem pool_accesses_in_range s i w o : reachable n s -> worker_threads_ s !! i = Some w -> pc w <> Exited ->
  is_Some (worker_step s i o).
Proof using L. intros Hi%pool_reachable_inv Hw Hpc. by eapply worker_moves. Qed.

Lemma dequeue_descends s i w ls s' : inv s -> worker_threads_ s !! i = Some w -> run s ls = Some s' ->
  (dequeue_rank w < length (filter (fun l => moves i l = true) ls))%nat ->
  ∃ ls1 ls2 s1 w1, ls = ls1 ++ ls2 ∧ run s ls1 = Some s1 ∧ worker_threads_ s1 !! i = Some w1 ∧ dequeue_rank w1 = O.
Proof using L.
  intros Hi. revert s w Hi. induction ls as [|l ls IH]; cbn [run]; intros s w Hi Hw H Hlen.
  { cbn in Hlen. lia. }
  destruct (decide (dequeue_rank w = O)) as [Hz|Hz]; [by exists [], (l :: ls), s, w|].
  destruct (step s l) as [s1|] eqn:E; [|done]. cbn [mbind option_bind] in H.
  pose proof (pool_step_inv s l s1 Hi E) as Hi1.
  assert (Hw1 : ∃ w1, worker_threads_ s1 !! i = Some w1 ∧
     (dequeue_rank w1 < length (filter (fun l => moves i l = true) ls))%nat).
  { destruct (moves i l) eqn:Hl.
    - rewrite filter_cons_True in Hlen by done. destruct l; try done. apply Nat.eqb_eq in Hl as ->.
      destruct (worker_step_own s i o s1 w Hi Hw E) as (w1 & ? & _ & Hr). exists w1. split; [done|].
      specialize (Hr Hz). cbn in Hlen. lia.
    - exists w. rewrite filter_cons_False in Hlen by congruence. split; [|done].
      by apply (step_worker s s1 l i w E Hw). }
  destruct Hw1 as (w1 & Hw1 & Hl1). destruct (IH s1 w1 Hi1 Hw1 H Hl1) as (ls1 & ls2 & s2 & w2 & -> & Hr & Hw2 & Hz2).
  exists (l :: ls1), ls2, s2, w2. split_and!; try done. cbn [run]. by rewrite E.
Qed.

(** Dequeue returns or runs a job after at most n + 4 accesses of its
    worker, one turn around the n queues, whatever the other threads do and
    the queues answer. *)
Theorem Dequeue_ends s i w ls s' : reachable n s -> worker_threads_ s !! i = Some w -> run s ls = Some s' ->
  (n + 4 < length (filter (fun l => moves i l = true) ls))%nat ->
  ∃ ls1 ls2 s1 w1, ls = ls1 ++ ls2 ∧ run s ls1 = Some s1 ∧ worker_threads_ s1 !! i = Some w1 ∧
    in_dequeue (pc w1) = false.
Proof using L.
  intros Hi%pool_reachable_inv Hw Hrun Hlen. pose proof Hi as (Hwf & _). pose proof Hwf as (_ & _ & _ & _ & _ & Hok).
  destruct (dequeue_descends s i w ls s' Hi Hw Hrun) as (ls1 & ls2 & s1 & w1 & -> & Hr & Hw1 & Hz).
  { eapply Nat.le_lt_trans; [|exact Hlen]. apply dequeue_rank_le; [|intros me; by apply (idx_bound s i w)].
    destruct (Hok i w Hw) as [_ Hp]. destruct (pc w); try done. apply Hp. }
  exists ls1, ls2, s1, w1. split_and!; try done.
  destruct (run_inv s ls1 s1 Hi Hr) as ((_ & _ & _ & _ & _ & Hok1) & _). destruct (Hok1 i w1 Hw1) as [_ Hp].
  unfold dequeue_rank in Hz. destruct (pc w1); try done; try lia. destruct Hp as [[me E] _]. by rewrite E in Hz.
Qed.

Lemma wait_outlasts s s1 ls s2 i w :
  inv s -> step s LWaitForQueuesToBecomeEmpty = Some s1 -> run s1 ls = Some s2 ->
  calls s2 !! length (calls s) = Some WaitReturned -> worker_threads_ s !! i = Some w ->
  ∃ w' l, worker_threads_ s2 !! i = Some w' ∧ started w' = started w ++ l ∧ EndsJob (length (calls s)) ∈ l.
Proof using L.
  intros Hi Hs Hr Hret Hw. set (c := length (calls s)) in *.
  pose proof (pool_step_inv s _ s1 Hi Hs) as Hi1. pose proof (run_inv s1 ls s2 Hi1 Hr) as Hi2. injection Hs as <-.
  destruct (run_worker _ ls s2 i w Hi1 Hr Hw) as (w' & Hw' & l & El). exists w', l. split_and!; try done.
  pose proof Hi2 as ((_ & _ & H3 & H4 & _ & Hok) & _ & _ & _ & HC & HD).
  assert (He : is_Some (ends s2 !! c)) by (apply lookup_lt_is_Some_2; rewrite H4; by eapply lookup_lt_Some).
  destruct He as [e He]. specialize (HC c e He). specialize (HD c e Hret He).
  assert (Hone : sentinels c (started w') = 1%nat).
  { apply (sum_list_with_bounded (fun w => sentinels c (started w)) (worker_threads_ s2)) with i; [|lia|done].
    intros m v Hv. by eapply worker_sentinels_le. }
  apply sentinels_pos. rewrite El, sentinels_app in Hone.
  rewrite (worker_sentinels_none s i w c Hi Hw) in Hone; [lia|]. by apply lookup_ge_None_2.
Qed.

(** When [WaitForQueuesToBecomeEmpty] returns, every worker has started the
    function of that call, and so has finished every job it had started before
    the call. *)
Theorem wait_outlasts_started_jobs s s1 ls s2 i w :
  reachable n s -> step s LWaitForQueuesToBecomeEmpty = Some s1 -> run s1 ls = Some s2 ->
  calls s2 !! length (calls s) = Some WaitReturned -> worker_threads_ s !! i = Some w ->
  ∃ w' l, worker_threads_ s2 !! i = Some w' ∧ started w' = started w ++ l ∧ EndsJob (length (calls s)) ∈ l.
Proof using L. intros Hi%pool_reachable_inv. by apply wait_outlasts. Qed.

End invariant.

(** ** Executions *)

Module Demo.

Abbreviation label := (Label nat).
Abbreviation pool := (State nat (list (Job nat))).

(** [k] accesses of worker [i]. *)
Definition turns (k i : nat) : list label := replicate k (LWorker i 0).

(** The pool after a sequence of labels. *)
Definition after (n : nat) (ls : list label) : pool := default (init n) (run (init n) ls).

(** One worker; the wait is over when it has counted, before it notifies. *)
Definition notify_run : list label :=
  [LWaitForQueuesToBecomeEmpty; LCall 0 0 0; LCall 0 0 0] ++ turns 5 0 ++ [LCall 0 0 0].

(** The function of [WaitForQueuesToBecomeEmpty] increments [ends] before it
    locks the mutex of the call: the caller may see the last increment, return
    and destroy the mutex and the condition variable that the worker is about
    to use. *)
Theorem wait_returns_before_notify :
  ∃ (s : pool) w, reachable 1 s ∧ calls s !! 0%nat = Some WaitReturned ∧
    worker_threads_ s !! 0%nat = Some w ∧ pc w = Notify 0.
Proof.
  exists (after 1 notify_run), (mkWorker (Notify 0) (Some 0%nat) [EndsJob 0]).
  split_and!; [exists notify_run|..]; vm_compute; reflexivity.
Qed.

(** Two workers; worker 0 runs job 1, job 7 waits behind it. *)
Definition busy_run : list label :=
  [LEnqueue 1; LCall 0 0 0]%nat ++ turns 4 0 ++ [LEnqueue 7; LCall 1 0 0]%nat.

(** Both functions are sent; worker 1 runs its own, steals job 7 and starts it;
    worker 0 finishes job 1 and runs its own; the wait returns. *)
Definition steal_run : list label :=
  [LCall 2 0 0; LCall 2 0 0; LCall 2 0 0]%nat ++ turns 12 1 ++ turns 8 0 ++ [LCall 2 0 0]%nat.

(** [WaitForQueuesToBecomeEmpty] does not outlast a job that was accepted
    before it was called: a worker that has run its function steals the job
    and still runs it when the call returns. *)
Theorem wait_misses_queued_job :
  ∃ (s s1 s2 : pool) ls w, reachable 2 s ∧ UserJob 7%nat ∈ accepted s ∧
    step s LWaitForQueuesToBecomeEmpty = Some s1 ∧ run s1 ls = Some s2 ∧
    calls s2 !! length (calls s) = Some WaitReturned ∧
    worker_threads_ s2 !! 1%nat = Some w ∧ pc w = Run (UserJob 7%nat).
Proof.
  exists (after 2 busy_run), (after 2 (busy_run ++ [LWaitForQueuesToBecomeEmpty])),
    (after 2 (busy_run ++ [LWaitForQueuesToBecomeEmpty] ++ steal_run)), steal_run,
    (mkWorker (Run (UserJob 7%nat)) (Some 1%nat) [EndsJob 2; UserJob 7%nat]).
  split_and!; [exists busy_run| |..]; try (vm_compute; reflexivity). right. left.
Qed.

Lemma busy_reachable : reachable 2 (after 2 busy_run).
Proof. exists busy_run. vm_compute. reflexivity. Qed.

Lemma pool_jobs_started_once_witness :
  accepted (after 2 busy_run) ≡ₚ [UserJob 7%nat] ++ [] ++ [UserJob 1%nat].
Proof. exact (pool_jobs_started_once 2 (after 2 busy_run) busy_reachable). Defined.

Lemma pool_accesses_in_range_witness : is_Some (worker_step (after 2 busy_run) 1 0).
Proof.
  apply (pool_accesses_in_range 2 _ 1 (mkWorker Identify None []) 0 busy_reachable); [vm_compute; reflexivity|done].
Defined.

Lemma Dequeue_ends_witness :
  ∃ ls1 ls2 s1 w1, turns 7 1 = ls1 ++ ls2 ∧ run (after 2 busy_run) ls1 = Some s1 ∧
    worker_threads_ s1 !! 1%nat = Some w1 ∧ in_dequeue (pc w1) = false.
Proof.
  apply (Dequeue_ends 2 (after 2 busy_run) 1 (mkWorker Identify None []) (turns 7 1)
           (after 2 (busy_run ++ turns 7 1)) busy_reachable);
    vm_compute; [reflexivity|reflexivity|lia].
Defined.

Lemma wait_outlasts_started_jobs_witness :
  ∃ w' l, worker_threads_ (after 2 (busy_run ++ [LWaitForQueuesToBecomeEmpty] ++ steal_run)) !! 0%nat = Some w' ∧
    started w' = [UserJob 1%nat] ++ l ∧ EndsJob 2 ∈ l.
Proof.
  apply (wait_outlasts_started_jobs 2 (after 2 busy_run) (after 2 (busy_run ++ [LWaitForQueuesToBecomeEmpty])) steal_run
           (after 2 (busy_run ++ [LWaitForQueuesToBecomeEmpty] ++ steal_run)) 0
           (mkWorker (Run (UserJob 1%nat)) (Some 0%nat) [UserJob 1%nat]) busy_reachable); vm_compute; reflexivity.
Defined.

End Demo.
