(* ===== verification/Callbacks.v ===== *)
(** * Commit callbacks (src/src/callback/impl/thread_local_callback_manager.h,
    thread_local_callback_manager.cpp)

    A commit leaves its callback with the epoch it committed in.  A thread of
    the pool keeps it in a queue of its own; a thread of the client, which may
    never come back, entrusts it to a queue that others steal from.
    [ExecuteCallbacks] runs what a stable epoch covers.

    Every access to memory that threads share is one step.  The queues that are
    stolen from are [ConcurrentQueue]s; a callback is a value, and running it is
    recorded with the epoch [ExecuteCallbacks] was given.  A callback that calls
    back into the manager on the same thread is outside the model.

    The theorems show that no callback is lost or run twice, that none runs
    before its epoch, that a thread runs its own in the order of its commits,
    and that the walk over the queues never leaves the list. *)

From S2P Require Import Prelude ConcurrentQueue.

Module ThreadLocalCallbackManager.

(** An element of a queue: the epoch of the commit, and the callback. *)
Abbreviation Entry C := (Z * C)%type.

(** Where a thread is: outside, in [Enqueue] (with [GetMyWorkStealingQueue]),
    in [ExecuteCallbacks], or in [WaitForAllCallbacksToBeExecuted]. *)
Inductive Pc (C : Type) : Type :=
| Idle
| EnqueueLock (e : Entry C)
| EnqueueEmplace (e : Entry C)
| EnqueueCount (e : Entry C)
| EnqueueBack (e : Entry C)
| EnqueuePush (k : nat) (e : Entry C)
| OwnFront (stable_epoch : Z)
| OwnPop (stable_epoch : Z)
| LoadSize (stable_epoch : Z)
| StealSize (stable_epoch : Z) (queue_size checked_queue : nat)
| StealTake (stable_epoch : Z) (queue_size checked_queue : nat)
| StealRun (stable_epoch : Z) (queue_size checked_queue : nat) (e : Entry C)
| StealBack (stable_epoch : Z) (queue_size checked_queue : nat) (e : Entry C)
| WaitOwn (k : nat) (all_empty : bool)
| WaitSize
| WaitQueue (work_steal_queue_size checked : nat).
#[global] Arguments Idle {C}.
#[global] Arguments EnqueueLock {C} e.
#[global] Arguments EnqueueEmplace {C} e.
#[global] Arguments EnqueueCount {C} e.
#[global] Arguments EnqueueBack {C} e.
#[global] Arguments EnqueuePush {C} k e.
#[global] Arguments OwnFront {C} stable_epoch.
#[global] Arguments OwnPop {C} stable_epoch.
#[global] Arguments LoadSize {C} stable_epoch.
#[global] Arguments StealSize {C} stable_epoch queue_size checked_queue.
#[global] Arguments StealTake {C} stable_epoch queue_size checked_queue.
#[global] Arguments StealRun {C} stable_epoch queue_size checked_queue e.
#[global] Arguments StealBack {C} stable_epoch queue_size checked_queue e.
#[global] Arguments WaitOwn {C} k all_empty.
#[global] Arguments WaitSize {C}.
#[global] Arguments WaitQueue {C} work_steal_queue_size checked.

(** A thread with its [ThreadLocalStorageNode], the work-stealing queue it owns
    and the callbacks of its own queue that it has run, oldest first. *)
Record Thread (C : Type) := mkThread {
  pc : Pc C;
  callback_queue : list (Entry C);
  my_node : option nat;
  own_run : list (Entry C);
}.
#[global] Arguments mkThread {C} _ _ _ _.
#[global] Arguments pc {C} _.
#[global] Arguments callback_queue {C} _.
#[global] Arguments my_node {C} _.
#[global] Arguments own_run {C} _.

(** The manager.  [enqueued] lists every entry handed to [Enqueue], [executed]
    every callback that ran with the stable epoch it ran under, [dropped] the
    entries a queue had no memory for. *)
Record State (C Q : Type) := mkState {
  threads : list (Thread C);
  work_steal_queues_ : list Q;
  work_steal_queue_size_ : nat;
  list_lock_ : option nat;
  enqueued : list (Entry C);
  executed : list (Entry C * Z);
  dropped : list (Entry C);
}.
#[global] Arguments mkState {C Q} _ _ _ _ _ _ _.
#[global] Arguments threads {C Q} _.
#[global] Arguments work_steal_queues_ {C Q} _.
#[global] Arguments work_steal_queue_size_ {C Q} _.
#[global] Arguments list_lock_ {C Q} _.
#[global] Arguments enqueued {C Q} _.
#[global] Arguments executed {C Q} _.
#[global] Arguments dropped {C Q} _.

(** A call made by thread [i], or its next access with the outcome [o] of the
    queue it touches. *)
Inductive Label (C : Type) : Type :=
| LEnqueue (i : nat) (e : Entry C) (entrusting : bool)
| LExecuteCallbacks (i : nat) (stable_epoch : Z)
| LWaitForAllCallbacksToBeExecuted (i : nat)
| LThread (i o : nat).
#[global] Arguments LEnqueue {C} i e entrusting.
#[global] Arguments LExecuteCallbacks {C} i stable_epoch.
#[global] Arguments LWaitForAllCallbacksToBeExecuted {C} i.
#[global] Arguments LThread {C} i o.

Section manager.
Context {C Q : Type} `{CQ : ConcurrentQueue Q (Entry C)}.
Abbreviation state := (State C Q).

Definition init (n : nat) : state := mkState (replicate n (mkThread Idle [] None [])) [] 0 None [] [] [].

Definition set_thread (s : state) (i : nat) (t : Thread C) : state :=
  mkState (<[i := t]> (threads s)) (work_steal_queues_ s) (work_steal_queue_size_ s) (list_lock_ s) (enqueued s)
    (executed s) (dropped s).

Definition set_pc (s : state) (i : nat) (t : Thread C) (p : Pc C) : state :=
  set_thread s i (mkThread p (callback_queue t) (my_node t) (own_run t)).

Definition set_queues (s : state) (qs : list Q) (size : nat) (lock : option nat) : state :=
  mkState (threads s) qs size lock (enqueued s) (executed s) (dropped s).

Definition set_queue (s : state) (k : nat) (q : Q) : state :=
  set_queues s (<[k := q]> (work_steal_queues_ s)) (work_steal_queue_size_ s) (list_lock_ s).

Definition add_enqueued (s : state) (e : Entry C) : state :=
  mkState (threads s) (work_steal_queues_ s) (work_steal_queue_size_ s) (list_lock_ s) (enqueued s ++ [e])
    (executed s) (dropped s).

Definition add_executed (s : state) (e : Entry C) (stable_epoch : Z) : state :=
  mkState (threads s) (work_steal_queues_ s) (work_steal_queue_size_ s) (list_lock_ s) (enqueued s)
    (executed s ++ [(e, stable_epoch)]) (dropped s).

Definition add_dropped (s : state) (l : list (Entry C)) : state :=
  mkState (threads s) (work_steal_queues_ s) (work_steal_queue_size_ s) (list_lock_ s) (enqueued s) (executed s)
    (dropped s ++ l).

(** [queue.enqueue(...)], whose result the code ignores. *)
Definition push (s : state) (o k : nat) (e : Entry C) : option state :=
  q ← work_steal_queues_ s !! k;
  let '(b, q') := enqueue o e q in
  Some (add_dropped (set_queue s k q') (if (b : bool) then [] else [e])).

(** [checked_queue++; if (checked_queue == queue_size) break; itr++]. *)
Definition next_queue (stable_epoch : Z) (queue_size checked_queue : nat) : Pc C :=
  if (S checked_queue =? queue_size)%nat then Idle else StealSize stable_epoch queue_size (S checked_queue).

(** [Enqueue], up to the first access to shared memory. *)
Definition Enqueue (s : state) (i : nat) (t : Thread C) (e : Entry C) (entrusting : bool) : state :=
  let s' := add_enqueued s e in
  if entrusting then
    set_pc s' i t (match my_node t with Some k => EnqueuePush k e | None => EnqueueLock e end)
  else set_thread s' i (mkThread Idle (callback_queue t ++ [e]) (my_node t) (own_run t)).

(** [ExecuteCallbacks], up to the first access. *)
Definition ExecuteCallbacks (s : state) (i : nat) (t : Thread C) (stable_epoch : Z) : state :=
  set_pc s i t (match callback_queue t with [] => LoadSize stable_epoch | _ :: _ => OwnFront stable_epoch end).

(** The loop over the thread's own queue. *)
Definition own_front (s : state) (i : nat) (t : Thread C) (stable_epoch : Z) : state :=
  match callback_queue t with
  | [] => set_pc s i t Idle
  | e :: _ =>
      if fst e <? stable_epoch then
        set_thread (add_executed s e stable_epoch) i
          (mkThread (OwnPop stable_epoch) (callback_queue t) (my_node t) (own_run t ++ [e]))
      else set_pc s i t Idle
  end.

(** One access of thread [i]. *)
Definition thread_step (s : state) (i o : nat) : option state :=
  t ← threads s !! i;
  match pc t with
  | Idle => None
  | EnqueueLock e =>
      match list_lock_ s with
      | Some _ => None
      | None =>
          Some (set_pc (set_queues s (work_steal_queues_ s) (work_steal_queue_size_ s) (Some i)) i t (EnqueueEmplace e))
      end
  | EnqueueEmplace e =>
      Some (set_pc (set_queues s (work_steal_queues_ s ++ [q_new]) (work_steal_queue_size_ s) (list_lock_ s)) i t
              (EnqueueCount e))
  | EnqueueCount e =>
      Some (set_pc (set_queues s (work_steal_queues_ s) (S (work_steal_queue_size_ s)) (list_lock_ s)) i t
              (EnqueueBack e))
  | EnqueueBack e =>
      let k := pred (length (work_steal_queues_ s)) in
      Some (set_thread (set_queues s (work_steal_queues_ s) (work_steal_queue_size_ s) None) i
              (mkThread (EnqueuePush k e) (callback_queue t) (Some k) (own_run t)))
  | EnqueuePush k e => s' ← push s o k e; Some (set_pc s' i t Idle)
  | OwnFront stable_epoch => Some (own_front s i t stable_epoch)
  | OwnPop stable_epoch =>
      Some (set_thread s i (mkThread (OwnFront stable_epoch) (tail (callback_queue t)) (my_node t) (own_run t)))
  | LoadSize stable_epoch =>
      Some (set_pc s i t (if (work_steal_queue_size_ s =? 0)%nat then Idle
                          else StealSize stable_epoch (work_steal_queue_size_ s) 0))
  | StealSize stable_epoch n k =>
      q ← work_steal_queues_ s !! k;
      Some (set_pc s i t (if (size_approx o q =? 0)%nat then next_queue stable_epoch n k else StealTake stable_epoch n k))
  | StealTake stable_epoch n k =>
      q ← work_steal_queues_ s !! k;
      let '(r, q') := try_dequeue o q in
      Some (set_pc (set_queue s k q') i t
              (match r with
               | None => next_queue stable_epoch n k
               | Some e => if fst e <=? stable_epoch then StealRun stable_epoch n k e else StealBack stable_epoch n k e
               end))
  | StealRun stable_epoch n k e => Some (set_pc (add_executed s e stable_epoch) i t (StealSize stable_epoch n k))
  | StealBack stable_epoch n k e => s' ← push s o k e; Some (set_pc s' i t (next_queue stable_epoch n k))
  | WaitOwn k all_empty =>
      Some (set_pc s i t
              (match threads s !! k with
               | Some t' => WaitOwn (S k) (all_empty && bool_decide (callback_queue t' = []))
               | None => if all_empty then WaitSize else WaitOwn 0 true
               end))
  | WaitSize =>
      Some (set_pc s i t (if (work_steal_queue_size_ s =? 0)%nat then Idle else WaitQueue (work_steal_queue_size_ s) 0))
  | WaitQueue n k =>
      q ← work_steal_queues_ s !! k;
      Some (set_pc s i t (if (size_approx o q =? 0)%nat then
                            if (S k =? n)%nat then Idle else WaitQueue n (S k)
                          else WaitQueue n k))
  end.

(** A call begins on a thread that is outside the manager. *)
Definition step (s : state) (l : Label C) : option state :=
  match l with
  | LEnqueue i e entrusting =>
      t ← threads s !! i; match pc t with Idle => Some (Enqueue s i t e entrusting) | _ => None end
  | LExecuteCallbacks i stable_epoch =>
      t ← threads s !! i; match pc t with Idle => Some (ExecuteCallbacks s i t stable_epoch) | _ => None end
  | LWaitForAllCallbacksToBeExecuted i =>
      t ← threads s !! i; match pc t with Idle => Some (set_pc s i t (WaitOwn 0 true)) | _ => None end
  | LThread i o => thread_step s i o
  end.

Fixpoint run (s : state) (ls : list (Label C)) : option state :=
  match ls with
  | [] => Some s
  | l :: ls' => s' ← step s l; run s' ls'
  end.

Definition reachable (n : nat) (s : state) : Prop := ∃ ls, run (init n) ls = Some s.

End manager.

End ThreadLocalCallbackManager.

Import ThreadLocalCallbackManager.

(** ** The invariant *)

Section invariant.
Context {C Q : Type} `{CQ : ConcurrentQueue Q (Entry C)} {L : ConcurrentQueueLaws CQ}.
Abbreviation state := (State C Q).

(** The callbacks of a thread's own queue that have not run. *)
Definition own_pending (t : Thread C) : list (Entry C) :=
  match pc t with OwnPop _ => tail (callback_queue t) | _ => callback_queue t end.

(** The entry a thread has in its hands. *)
Definition held (t : Thread C) : list (Entry C) :=
  match pc t with
  | EnqueueLock e | EnqueueEmplace e | EnqueueCount e | EnqueueBack e | EnqueuePush _ e
  | StealRun _ _ _ e | StealBack _ _ _ e => [e]
  | _ => []
  end.

Definition bag (t : Thread C) : list (Entry C) := own_pending t ++ held t.

(** Whether a thread has made a queue that [work_steal_queue_size_] does not
    count yet. *)
Definition uncounted (t : Thread C) : nat := match pc t with EnqueueCount _ => 1 | _ => 0 end%nat.

(** What the accesses of a thread rely on, where the list of queues has [m]. *)
Definition thread_ok (m : nat) (t : Thread C) : Prop :=
  (∀ k, my_node t = Some k -> (k < m)%nat) ∧
  match pc t with
  | EnqueueCount _ | EnqueueBack _ => (0 < m)%nat
  | EnqueuePush k _ => (k < m)%nat
  | StealSize _ n k | StealTake _ n k | StealBack _ n k _ | WaitQueue n k => (k < n <= m)%nat
  | StealRun stable n k e => (k < n <= m)%nat ∧ fst e <= stable
  | OwnPop _ => callback_queue t <> []
  | _ => True
  end.

Definition conserved (s : state) : Prop :=
  enqueued s ≡ₚ map fst (executed s) ++ pending (work_steal_queues_ s) ++ concat (map bag (threads s)) ++ dropped s.

Definition inv (s : state) : Prop :=
  conserved s ∧ Forall (fun x => fst (fst x) <= snd x) (executed s) ∧
  (work_steal_queue_size_ s + sum_list_with uncounted (threads s) = length (work_steal_queues_ s))%nat ∧
  (∀ i t, threads s !! i = Some t -> thread_ok (length (work_steal_queues_ s)) t).

(** A move of one thread: [s1] is the shared memory after it. *)
Definition local_ok (s : state) (t : Thread C) (s1 : state) (t' : Thread C) : Prop :=
  threads s1 = threads s ∧
  enqueued s1 ++ map fst (executed s) ++ pending (work_steal_queues_ s) ++ bag t ++ dropped s ≡ₚ
  enqueued s ++ map fst (executed s1) ++ pending (work_steal_queues_ s1) ++ bag t' ++ dropped s1 ∧
  Forall (fun x => fst (fst x) <= snd x) (executed s1) ∧
  (work_steal_queue_size_ s1 + uncounted t' + length (work_steal_queues_ s) =
   work_steal_queue_size_ s + uncounted t + length (work_steal_queues_ s1))%nat ∧
  (length (work_steal_queues_ s) <= length (work_steal_queues_ s1))%nat ∧
  thread_ok (length (work_steal_queues_ s1)) t'.

Lemma thread_ok_mono m m' t : (m <= m')%nat -> thread_ok m t -> thread_ok m' t.
Proof using.
  intros Hm [H1 H2]. split; [intros k Hk; specialize (H1 k Hk); lia|].
  destruct (pc t); try done; lia.
Qed.

Lemma local_inv s i t s1 t' : inv s -> threads s !! i = Some t -> local_ok s t s1 t' -> inv (set_thread s1 i t').
Proof using.
  intros (Hc & Hex & Hn & Hok) Ht (Et & Hp & Hex' & Hn' & Hlen & Hok'). split_and!; cbn.
  - unfold conserved in *. cbn. rewrite Et.
    pose proof (concat_map_insert bag (threads s) i t t' (bag t') (bag t) Ht (Permutation_app_comm _ _)) as Hb.
    apply (Permutation_app_inv_l (enqueued s ++ bag t)).
    set (rest := concat (map bag (<[i:=t']> (threads s)))) in *.
    transitivity (enqueued s ++ map fst (executed s1) ++ pending (work_steal_queues_ s1) ++ (bag t ++ rest) ++ dropped s1);
      [|solve_Permutation].
    rewrite <- Hb. set (rest0 := concat (map bag (threads s))) in *.
    transitivity ((enqueued s ++ map fst (executed s1) ++ pending (work_steal_queues_ s1) ++ bag t' ++ dropped s1) ++ rest0);
      [|solve_Permutation].
    rewrite <- Hp, Hc. fold rest0. solve_Permutation.
  - done.
  - rewrite Et. pose proof (sum_list_with_insert uncounted _ i t t' Ht). lia.
  - rewrite Et. intros j u [(<- & <- & _) | (Hne & Hu)]%list_lookup_insert_Some; [done|].
    by apply (thread_ok_mono (length (work_steal_queues_ s))), (Hok j).
Qed.

(** A move that leaves shared memory alone. *)
Lemma quiet_local s i t t' : inv s -> threads s !! i = Some t -> bag t' = bag t -> uncounted t' = uncounted t ->
  thread_ok (length (work_steal_queues_ s)) t' -> local_ok s t s t'.
Proof using. intros (Hc & Hex & Hn & Hok) Ht Hb Hu Hok'. split_and!; try done; [by rewrite Hb|lia]. Qed.

Lemma push_local s i t o k e s1 t' : inv s -> threads s !! i = Some t -> push s o k e = Some s1 ->
  bag t ≡ₚ e :: bag t' -> uncounted t' = uncounted t -> thread_ok (length (work_steal_queues_ s)) t' ->
  local_ok s t s1 t'.
Proof using L.
  intros (Hc & Hex & Hn & Hok) Ht Hp Hb Hu Hok'. unfold push in Hp.
  destruct (work_steal_queues_ s !! k) as [q|] eqn:Hq; [|done]. cbn [mbind option_bind] in Hp.
  destruct (enqueue o e q) as [b q'] eqn:He. injection Hp as <-.
  split_and!; cbn [set_queue set_queues add_dropped threads enqueued executed work_steal_queues_ dropped
                   work_steal_queue_size_]; rewrite ?length_insert; try done; [|lia].
  rewrite (pending_enqueue _ k q o e b q' Hq He), Hb. destruct b; cbn [app]; solve_Permutation.
Qed.

Lemma next_queue_ok m stable n k t : (k < n <= m)%nat -> (∀ k, my_node t = Some k -> (k < m)%nat) ->
  thread_ok m (mkThread (next_queue stable n k) (callback_queue t) (my_node t) (own_run t)).
Proof using.
  intros Hk Hn. split; [done|]. cbn. unfold next_queue. destruct (Nat.eqb_spec (S k) n); [done|]. lia.
Qed.

Lemma next_queue_bag stable n k t : (∀ st, pc t <> OwnPop st) -> held t = [] ->
  bag (mkThread (next_queue stable n k) (callback_queue t) (my_node t) (own_run t)) = bag t ∧
  uncounted (mkThread (next_queue stable n k) (callback_queue t) (my_node t) (own_run t)) = O.
Proof using.
  intros Ho Hh. unfold bag. rewrite Hh. unfold own_pending, held, uncounted. cbn. unfold next_queue.
  destruct (S k =? n)%nat; cbn; (split; [|done]); destruct (pc t); try done; by edestruct Ho.
Qed.

(** Unfolds what a thread holds; [Hpc] says where it was. *)
Ltac bags Hpc := unfold bag, own_pending, held, uncounted; rewrite ?Hpc; cbn.

Lemma take_local s i t o stable n k q r q' : inv s -> threads s !! i = Some t -> pc t = StealTake stable n k ->
  work_steal_queues_ s !! k = Some q -> try_dequeue o q = (r, q') ->
  local_ok s t (set_queue s k q')
    (mkThread (match r with
               | None => next_queue stable n k
               | Some e => if fst e <=? stable then StealRun stable n k e else StealBack stable n k e
               end) (callback_queue t) (my_node t) (own_run t)).
Proof using L.
  intros (Hc & Hex & Hn & Hok) Ht Hpc Hq Hd. destruct (Hok i t Ht) as [Hm Hk]. rewrite Hpc in Hk.
  assert (Hb : bag t = callback_queue t) by (bags Hpc; apply app_nil_r).
  assert (Hu : uncounted t = O) by (by bags Hpc).
  split_and!; cbn [set_queue set_queues threads enqueued executed work_steal_queues_ dropped work_steal_queue_size_];
    rewrite ?length_insert; try done.
  - rewrite (pending_dequeue _ k q o r q' Hq Hd), Hb. destruct r as [e|]; cbn [option_list].
    + destruct (fst e <=? stable); bags Hpc; solve_Permutation.
    + destruct (next_queue_bag stable n k t) as [-> _]; [by rewrite Hpc|by bags Hpc|]. by rewrite Hb.
  - rewrite Hu. destruct r as [e|]; [by destruct (fst e <=? stable)|].
    destruct (next_queue_bag stable n k t) as [_ ->]; [by rewrite Hpc|by bags Hpc|done].
  - destruct r as [e|]; [|by apply next_queue_ok]. destruct (Z.leb_spec (fst e) stable); (split; [done|]); cbn; lia.
Qed.

Lemma own_front_local s i t stable : inv s -> threads s !! i = Some t -> pc t = OwnFront stable ->
  ∃ s1 t', own_front s i t stable = set_thread s1 i t' ∧ local_ok s t s1 t'.
Proof using.
  intros Hi Ht Hpc. pose proof Hi as (Hc & Hex & Hn & Hok). destruct (Hok i t Ht) as [Hm _]. unfold own_front.
  assert (Hidle : local_ok s t s (mkThread Idle (callback_queue t) (my_node t) (own_run t))).
  { apply (quiet_local s i); try done; by bags Hpc. }
  destruct (callback_queue t) as [|e l] eqn:El; [eexists _, _; split; [reflexivity|by rewrite El]|].
  destruct (Z.ltb_spec (fst e) stable); [|eexists _, _; split; [reflexivity|by rewrite El]].
  eexists (add_executed s e stable), _. split; [reflexivity|]. split_and!; try done; cbn.
  - rewrite map_app. bags Hpc. rewrite El. cbn. solve_Permutation.
  - apply Forall_app. split; [done|]. constructor; [|constructor]. cbn. lia.
  - by bags Hpc.
Qed.

Lemma thread_step_local s i o s' : inv s -> thread_step s i o = Some s' ->
  ∃ t s1 t', threads s !! i = Some t ∧ s' = set_thread s1 i t' ∧ local_ok s t s1 t'.
Proof using L.
  intros Hi. unfold thread_step. destruct (threads s !! i) as [t|] eqn:Ht; [|done]. cbn [mbind option_bind].
  pose proof Hi as (Hc & Hex & Hn & Hok). pose proof (Hok i t Ht) as [Hm Hk]. intros H. exists t.
  assert (Hq : ∀ p, bag (mkThread p (callback_queue t) (my_node t) (own_run t)) = bag t ->
             uncounted (mkThread p (callback_queue t) (my_node t) (own_run t)) = uncounted t ->
             thread_ok (length (work_steal_queues_ s)) (mkThread p (callback_queue t) (my_node t) (own_run t)) ->
             ∃ s1 t', Some t = Some t ∧ set_pc s i t p = set_thread s1 i t' ∧ local_ok s t s1 t').
  { intros p Hb Hu Hp. eexists s, _. split_and!; [done|reflexivity|]. by apply (quiet_local s i). }
  destruct (pc t) as [|e|e|e|e|k e|st|st|st|st n k|st n k|st n k e|st n k e|k b| |n k] eqn:Hpc.
  - done.
  - destruct (list_lock_ s); [done|]. injection H as <-. eexists _, _. split_and!; [done|reflexivity|].
    split_and!; try done; by bags Hpc.
  - injection H as <-. eexists _, _. split_and!; [done|reflexivity|].
    split_and!; try done; cbn; rewrite ?length_app; cbn; [| |lia|].
    + rewrite pending_snoc_new. by bags Hpc.
    + bags Hpc. lia.
    + split; cbn; [|lia]. intros k Hk'. specialize (Hm k Hk'). lia.
  - injection H as <-. eexists _, _. split_and!; [done|reflexivity|].
    split_and!; try done; bags Hpc; try done. lia.
  - injection H as <-. eexists _, _. split_and!; [done|reflexivity|].
    split_and!; try done; [by bags Hpc..|]. split; cbn; [intros k [= <-]|]; lia.
  - destruct (push s o k e) as [s1|] eqn:Hp; [|done]. injection H as <-. eexists _, _. split_and!; [done|reflexivity|].
    eapply (push_local s i); try done; bags Hpc; [|done]. by rewrite app_nil_r, Permutation_app_comm.
  - injection H as <-. destruct (own_front_local s i t st Hi Ht Hpc) as (s1 & t' & E & Hl). by exists s1, t'.
  - injection H as <-. eexists _, _. split_and!; [done|reflexivity|]. apply (quiet_local s i); try done; by bags Hpc.
  - injection H as <-. apply Hq; bags Hpc; destruct (Nat.eqb_spec (work_steal_queue_size_ s) 0); try done.
    all: split; [done|]; cbn; lia.
  - destruct (work_steal_queues_ s !! k) as [q|] eqn:Hk'; [|done]. injection H as <-.
    destruct (next_queue_bag st n k t) as [Hb Hu]; [by rewrite Hpc|by bags Hpc|].
    destruct (size_approx o q =? 0)%nat; [|apply Hq; bags Hpc; done].
    apply Hq; [done|rewrite Hu; by bags Hpc|]. by apply next_queue_ok.
  - destruct (work_steal_queues_ s !! k) as [q|] eqn:Hk'; [|done]. cbn [mbind option_bind] in H.
    destruct (try_dequeue o q) as [r q'] eqn:Hd. injection H as <-. eexists _, _. split_and!; [done|reflexivity|].
    by apply (take_local s i t o st n k q).
  - injection H as <-. eexists _, _. split_and!; [done|reflexivity|]. split_and!; try done; cbn.
    + rewrite map_app. bags Hpc. solve_Permutation.
    + apply Forall_app. split; [done|]. constructor; [|constructor]. apply Hk.
    + by bags Hpc.
    + split; [done|]. apply Hk.
  - destruct (push s o k e) as [s1|] eqn:Hp; [|done]. injection H as <-. eexists _, _. split_and!; [done|reflexivity|].
    assert (Hb : callback_queue t ++ [] = bag (mkThread (next_queue st n k) (callback_queue t) (my_node t) (own_run t)) ∧
                 uncounted (mkThread (next_queue st n k) (callback_queue t) (my_node t) (own_run t)) = O).
    { bags Hpc. unfold next_queue. by destruct (S k =? n)%nat. }
    destruct Hb as [Hb Hu]. eapply (push_local s i); try done; [|rewrite Hu; by bags Hpc|by apply next_queue_ok].
    rewrite <- Hb. bags Hpc. by rewrite app_nil_r, Permutation_app_comm.
  - injection H as <-. apply Hq; bags Hpc; (destruct (threads s !! k); [|destruct b]); try done.
  - injection H as <-. apply Hq; bags Hpc; destruct (Nat.eqb_spec (work_steal_queue_size_ s) 0); try done.
    all: split; [done|]; cbn; lia.
  - destruct (work_steal_queues_ s !! k) as [q|] eqn:Hk'; [|done]. cbn [mbind option_bind] in H.
    destruct (size_approx o q =? 0)%nat, (Nat.eqb_spec (S k) n); injection H as <-; apply Hq; bags Hpc; try done.
    all: split; [done|]; cbn; lia.
Qed.

Lemma step_local s l s' : inv s -> step s l = Some s' ->
  ∃ i t s1 t', threads s !! i = Some t ∧ s' = set_thread s1 i t' ∧ local_ok s t s1 t'.
Proof using L.
  intros Hi. pose proof Hi as (Hc & Hex & Hn & Hok). destruct l as [i e b|i st|i|i o]; cbn [step].
  4: intros H; exists i; by apply (thread_step_local s i o).
  all: destruct (threads s !! i) as [t|] eqn:Ht; [|done]; cbn [mbind option_bind]; pose proof (Hok i t Ht) as [Hm Hk];
    destruct (pc t) eqn:Hpc; try done; intros [= <-]; exists i, t; unfold Enqueue, ExecuteCallbacks.
  - destruct b; eexists _, _; (split_and!; [done|reflexivity|]); split_and!; try done; cbn.
    + bags Hpc. destruct (my_node t); cbn; solve_Permutation.
    + bags Hpc. by destruct (my_node t).
    + split; [done|]. cbn. destruct (my_node t); [by apply Hm|done].
    + bags Hpc. solve_Permutation.
    + by bags Hpc.
  - eexists _, _. split_and!; [done|reflexivity|].
    apply (quiet_local s i); try done; bags Hpc; by destruct (callback_queue t).
  - eexists _, _. split_and!; [done|reflexivity|]. apply (quiet_local s i); try done; by bags Hpc.
Qed.

Lemma callback_step_inv s l s' : inv s -> step s l = Some s' -> inv s'.
Proof using L. intros Hi H. destruct (step_local s l s' Hi H) as (i & t & s1 & t' & Ht & -> & Hl). by eapply local_inv. Qed.

Lemma callback_init_inv n : inv (init n).
Proof using L.
  split_and!; cbn.
  - unfold conserved. cbn. induction n; done.
  - constructor.
  - induction n; cbn; done.
  - intros i t [-> _]%lookup_replicate. by split.
Qed.

Lemma callback_run_inv s ls s' : inv s -> run s ls = Some s' -> inv s'.
Proof using L.
  revert s. induction ls as [|l ls IH]; cbn [run]; intros s Hi; [by intros [= <-]|].
  destruct (step s l) as [s1|] eqn:E; [|done]. by apply IH, (callback_step_inv s l).
Qed.

Lemma callback_reachable_inv n s : reachable n s -> inv s.
Proof using L. intros (ls & H). exact (callback_run_inv _ ls s (callback_init_inv n) H). Qed.

(** *** Order *)

(** Everything that went through a thread's own queue, oldest first. *)
Definition own_stream (t : Thread C) : list (Entry C) := own_run t ++ own_pending t.

(** Nothing leaves the stream, and what has run is a beginning of it. *)
Definition own_grows (t t' : Thread C) : Prop :=
  own_run t `prefix_of` own_run t' ∧ own_stream t `prefix_of` own_stream t'.

Definition popping (p : Pc C) : bool := match p with OwnPop _ => true | _ => false end.

Lemma own_grows_keep t p m : popping (pc t) = false -> popping p = false ->
  own_grows t (mkThread p (callback_queue t) m (own_run t)).
Proof using.
  intros H1 H2. split; [done|]. unfold own_stream, own_pending. cbn. by destruct (pc t), p.
Qed.

Lemma next_queue_popping stable n k : popping (next_queue stable n k) = false.
Proof using. unfold next_queue. by destruct (S k =? n)%nat. Qed.

Lemma push_threads (s s1 : state) o k e : push s o k e = Some s1 -> threads s1 = threads s.
Proof using.
  unfold push. destruct (work_steal_queues_ s !! k) as [q|]; [|done]. cbn [mbind option_bind].
  destruct (enqueue o e q). by intros [= <-].
Qed.

Lemma own_front_grows (s : state) i t stable : pc t = OwnFront stable ->
  ∃ s1 t', threads s1 = threads s ∧ own_front s i t stable = set_thread s1 i t' ∧ own_grows t t'.
Proof using.
  intros Hpc. unfold own_front. destruct (callback_queue t) as [|e l] eqn:El.
  - eexists s, _. split_and!; [done|reflexivity|]. apply own_grows_keep; [by rewrite Hpc|done].
  - destruct (fst e <? stable).
    + eexists (add_executed s e stable), _. split_and!; [done|reflexivity|].
      split; cbn; [by apply prefix_app_r|]. unfold own_stream, own_pending. rewrite Hpc. cbn. rewrite El. cbn.
      by rewrite <- app_assoc.
    + eexists s, _. split_and!; [done|reflexivity|]. apply own_grows_keep; [by rewrite Hpc|done].
Qed.

Lemma thread_step_grows (s s' : state) i o : thread_step s i o = Some s' ->
  ∃ t s1 t', threads s !! i = Some t ∧ threads s1 = threads s ∧ s' = set_thread s1 i t' ∧ own_grows t t'.
Proof using.
  unfold thread_step. destruct (threads s !! i) as [t|] eqn:Ht; [|done]. cbn [mbind option_bind]. intros H. exists t.
  assert (Hq : ∀ (s1 : state) p m, popping (pc t) = false -> threads s1 = threads s -> popping p = false ->
    ∃ s2 t', Some t = Some t ∧ threads s2 = threads s ∧
      set_thread s1 i (mkThread p (callback_queue t) m (own_run t)) = set_thread s2 i t' ∧ own_grows t t').
  { intros s1 p m H0 H1 H2. eexists s1, _. split_and!; [done|done|reflexivity|]. by apply own_grows_keep. }
  destruct (pc t) as [|e|e|e|e|k e|st|st|st|st n k|st n k|st n k e|st n k e|k b| |n k] eqn:Hpc; try done.
  - destruct (list_lock_ s); [done|]. injection H as <-. by apply Hq.
  - injection H as <-. by apply Hq.
  - injection H as <-. by apply Hq.
  - injection H as <-. by apply Hq.
  - apply bind_Some in H as (s1 & Hp & [= <-]). apply Hq; [done|by apply push_threads in Hp|done].
  - injection H as <-. destruct (own_front_grows s i t st Hpc) as (s1 & t' & E1 & E2 & E3). by exists s1, t'.
  - injection H as <-. eexists _, _. split_and!; [done|done|reflexivity|]. split; [done|].
    unfold own_stream, own_pending. rewrite Hpc. done.
  - injection H as <-. apply Hq; try done. by destruct (work_steal_queue_size_ s =? 0)%nat.
  - apply bind_Some in H as (q & Hk & [= <-]). apply Hq; try done. destruct (size_approx o q =? 0)%nat; [|done].
    apply next_queue_popping.
  - apply bind_Some in H as (q & Hk & H). destruct (try_dequeue o q) as [[e|] q']; injection H as <-; apply Hq; try done;
      [by destruct (fst e <=? st)|apply next_queue_popping].
  - injection H as <-. by apply Hq.
  - apply bind_Some in H as (s1 & Hp & [= <-]). apply Hq; [done|by apply push_threads in Hp|apply next_queue_popping].
  - injection H as <-. apply Hq; try done. destruct (threads s !! k); [done|by destruct b].
  - injection H as <-. apply Hq; try done. by destruct (work_steal_queue_size_ s =? 0)%nat.
  - apply bind_Some in H as (q & Hk & H). destruct (size_approx o q =? 0)%nat, (S k =? n)%nat; injection H as <-;
      by apply Hq.
Qed.

Lemma step_grows (s s' : state) l : step s l = Some s' ->
  ∃ i t s1 t', threads s !! i = Some t ∧ threads s1 = threads s ∧ s' = set_thread s1 i t' ∧ own_grows t t'.
Proof using.
  destruct l as [i e b|i st|i|i o]; cbn [step]; [..|intros H; exists i; by apply (thread_step_grows s s' i o)].
  all: destruct (threads s !! i) as [t|] eqn:Ht; [|done]; cbn [mbind option_bind]; destruct (pc t) eqn:Hpc; try done;
    intros [= <-]; exists i, t; unfold Enqueue, ExecuteCallbacks, set_pc.
  - destruct b; eexists _, _; (split_and!; [done| |reflexivity|]); try done.
    + apply own_grows_keep; [by rewrite Hpc|]. by destruct (my_node t).
    + split; [done|]. unfold own_stream, own_pending. rewrite Hpc. cbn. rewrite app_assoc. by apply prefix_app_r.
  - eexists _, _; (split_and!; [done| |reflexivity|]); try done.
    apply own_grows_keep; [by rewrite Hpc|]. by destruct (callback_queue t).
  - eexists _, _; (split_and!; [done| |reflexivity|]); try done. apply own_grows_keep; [by rewrite Hpc|done].
Qed.

Lemma step_thread_grows (s s' : state) l i t : step s l = Some s' -> threads s !! i = Some t ->
  ∃ t', threads s' !! i = Some t' ∧ own_grows t t'.
Proof using.
  intros H Ht. destruct (step_grows s s' l H) as (j & u & s1 & u' & Hu & E & -> & Hg). cbn. rewrite E.
  destruct (decide (j = i)) as [-> |Hne].
  - exists u'. rewrite list_lookup_insert_eq by eauto using lookup_lt_Some. by simplify_eq.
  - exists t. by rewrite list_lookup_insert_ne.
Qed.

(** *** Progress and termination *)

(** A thread inside a call can move, unless it waits for [list_lock_]. *)
Lemma thread_moves s i o t : inv s -> threads s !! i = Some t -> pc t <> Idle ->
  (∀ e, pc t = EnqueueLock e -> list_lock_ s = None) -> is_Some (thread_step s i o).
Proof using.
  intros (_ & _ & _ & Hok) Ht Hidle Hlock. unfold thread_step. rewrite Ht. cbn [mbind option_bind].
  destruct (Hok i t Ht) as [Hm Hk].
  assert (Hq : ∀ k, (k < length (work_steal_queues_ s))%nat -> is_Some (work_steal_queues_ s !! k)).
  { intros k. apply lookup_lt_is_Some_2. }
  assert (Hp : ∀ k e, (k < length (work_steal_queues_ s))%nat -> is_Some (push s o k e)).
  { intros k e [q E]%Hq. unfold push. rewrite E. cbn. destruct (enqueue o e q). eauto. }
  destruct (pc t) as [|e|e|e|e|k e|st|st|st|st n k|st n k|st n k e|st n k e|k b| |n k] eqn:Hpc; eauto.
  - done.
  - rewrite (Hlock e eq_refl). eauto.
  - destruct (Hp k e Hk) as [s1 ->]. cbn. eauto.
  - destruct (Hq k) as [q ->]; [lia|]. cbn. eauto.
  - destruct (Hq k) as [q ->]; [lia|]. cbn. destruct (try_dequeue o q). eauto.
  - destruct (Hp k e) as [s1 ->]; [lia|]. cbn. eauto.
  - destruct (Hq k) as [q ->]; [lia|]. cbn. eauto.
Qed.

(** How many accesses [ExecuteCallbacks] still makes at most when no other
    thread moves; [m] is what the queues hold. *)
Definition execute_rank (m : nat) (size : nat) (t : Thread C) : nat :=
  match pc t with
  | OwnFront _ => 1 + 2 * length (callback_queue t)
  | OwnPop _ => 2 * length (callback_queue t)
  | LoadSize _ => 3 + 3 * m + 4 * size
  | StealSize _ n k => 2 + 3 * m + 4 * (n - k)
  | StealTake _ n k => 1 + 3 * m + 4 * (n - k)
  | StealRun _ n k _ | StealBack _ n k _ => 3 * S m + 4 * (n - k)
  | _ => 0
  end%nat.

Definition rank (s : state) (t : Thread C) : nat :=
  execute_rank (length (pending (work_steal_queues_ s))) (work_steal_queue_size_ s) t.

(** Whether a thread is in [ExecuteCallbacks]. *)
Definition executing (p : Pc C) : bool :=
  match p with
  | OwnFront _ | OwnPop _ | LoadSize _ | StealSize _ _ _ | StealTake _ _ _ | StealRun _ _ _ _ | StealBack _ _ _ _ => true
  | _ => false
  end.

Lemma push_pending (s s1 : state) o k e : push s o k e = Some s1 ->
  (length (pending (work_steal_queues_ s1)) <= S (length (pending (work_steal_queues_ s))))%nat.
Proof using L.
  unfold push. destruct (work_steal_queues_ s !! k) as [q|] eqn:Hq; [|done]. cbn [mbind option_bind].
  destruct (enqueue o e q) as [b q'] eqn:He. intros [= <-]. cbn.
  rewrite (Permutation_length (pending_enqueue _ k q o e b q' Hq He)), length_app. destruct b; cbn; lia.
Qed.

Lemma execute_rank_next m size st n k t : (k < n)%nat ->
  (execute_rank m size (mkThread (next_queue st n k) (callback_queue t) (my_node t) (own_run t)) <=
   2 + 3 * m + 4 * (n - S k))%nat.
Proof using. intros Hk. unfold execute_rank, next_queue. cbn. destruct (S k =? n)%nat eqn:E; cbn in *; rewrite ?E; lia. Qed.

(** An access of [ExecuteCallbacks] comes closer to its return. *)
Lemma execute_step s i o s' t : inv s -> threads s !! i = Some t -> executing (pc t) = true ->
  thread_step s i o = Some s' ->
  ∃ t', threads s' !! i = Some t' ∧ (pc t' = Idle ∨ executing (pc t') = true) ∧ (rank s' t' < rank s t)%nat.
Proof using L.
  intros (_ & _ & _ & Hok) Ht Hex. unfold thread_step. rewrite Ht. cbn [mbind option_bind].
  destruct (Hok i t Ht) as [Hm Hk].
  assert (Hs : ∀ (s1 : state) t', threads s1 = threads s -> (pc t' = Idle ∨ executing (pc t') = true) ->
     (rank s1 t' < rank s t)%nat ->
     ∃ t'', threads (set_thread s1 i t') !! i = Some t'' ∧ (pc t'' = Idle ∨ executing (pc t'') = true) ∧
            (rank (set_thread s1 i t') t'' < rank s t)%nat).
  { intros s1 t' E H1 H2. exists t'. split_and!; try done. cbn. rewrite E. apply list_lookup_insert_eq.
    by eapply lookup_lt_Some. }
  assert (Hn : ∀ st n k, pc (mkThread (next_queue st n k) (callback_queue t) (my_node t) (own_run t)) = Idle ∨
                 executing (pc (mkThread (next_queue st n k) (callback_queue t) (my_node t) (own_run t))) = true).
  { intros st n k. cbn [pc]. unfold next_queue. destruct (S k =? n)%nat; auto. }
  unfold rank in Hs |- *.
  destruct (pc t) as [|e|e|e|e|k e|st|st|st|st n k|st n k|st n k e|st n k e|k b| |n k] eqn:Hpc; try done.
  - intros [= <-]. unfold own_front. destruct (callback_queue t) as [|e l] eqn:El; [|destruct (fst e <? st)];
      (apply Hs; [done|cbn; auto|]); unfold execute_rank; rewrite Hpc; cbn; rewrite El; cbn; lia.
  - intros [= <-]. apply Hs; [done|cbn; auto|]. unfold execute_rank. rewrite Hpc. cbn.
    destruct (callback_queue t); [done|]. cbn. lia.
  - intros [= <-]. apply Hs; [done|destruct (work_steal_queue_size_ s =? 0)%nat; cbn; auto|].
    unfold execute_rank. rewrite Hpc. destruct (work_steal_queue_size_ s =? 0)%nat; cbn; lia.
  - intros (q & Hq & H)%bind_Some. injection H as <-.
    assert (Hr : execute_rank (length (pending (work_steal_queues_ s))) (work_steal_queue_size_ s) t =
                 (2 + 3 * length (pending (work_steal_queues_ s)) + 4 * (n - k))%nat) by (unfold execute_rank; by rewrite Hpc).
    destruct (size_approx o q =? 0)%nat; (apply Hs; [done| |]); [apply Hn| |by right|].
    + eapply Nat.le_lt_trans; [apply execute_rank_next; lia|]. lia.
    + rewrite Hr. unfold execute_rank. cbn. lia.
  - intros (q & Hq & H)%bind_Some. destruct (try_dequeue o q) as [r q'] eqn:Hd. injection H as <-.
    pose proof (Permutation_length (pending_dequeue _ k q o r q' Hq Hd)) as Hlen. rewrite length_app in Hlen.
    assert (Hr : execute_rank (length (pending (work_steal_queues_ s))) (work_steal_queue_size_ s) t =
                 (1 + 3 * length (pending (work_steal_queues_ s)) + 4 * (n - k))%nat) by (unfold execute_rank; by rewrite Hpc).
    destruct r as [e|]; [change (length (option_list (Some e))) with 1%nat in Hlen
      |change (length (option_list None)) with 0%nat in Hlen]; (apply Hs; [done| |]);
      cbn [set_queue set_queues work_steal_queues_ work_steal_queue_size_].
    + destruct (fst e <=? st); cbn; auto.
    + rewrite Hr. destruct (fst e <=? st); unfold execute_rank; cbn [pc]; lia.
    + apply Hn.
    + eapply Nat.le_lt_trans; [apply execute_rank_next; lia|]. lia.
  - intros [= <-]. apply Hs; [done|cbn; auto|]. unfold execute_rank. rewrite Hpc. cbn. lia.
  - intros (s1 & Hp & H)%bind_Some. injection H as <-. pose proof (push_pending s s1 o k e Hp).
    apply Hs; [by apply push_threads in Hp|apply Hn|].
    eapply Nat.le_lt_trans; [apply execute_rank_next; lia|]. unfold execute_rank. rewrite Hpc. lia.
Qed.

(** *** Whose queue it is *)

Definition in_list_lock (p : Pc C) : bool :=
  match p with EnqueueEmplace _ | EnqueueCount _ | EnqueueBack _ => true | _ => false end.

(** Whether the last queue of the list is the one this thread just made. *)
Definition made_queue (p : Pc C) : bool := match p with EnqueueCount _ | EnqueueBack _ => true | _ => false end.

Definition owners_ok (s : state) : Prop :=
  (∀ i t, threads s !! i = Some t -> in_list_lock (pc t) = true -> list_lock_ s = Some i) ∧
  (∀ i j t u k, threads s !! i = Some t -> threads s !! j = Some u -> my_node t = Some k -> my_node u = Some k -> i = j) ∧
  (∀ i j t u, threads s !! i = Some t -> threads s !! j = Some u -> made_queue (pc t) = true ->
     my_node u <> Some (pred (length (work_steal_queues_ s)))).

(** A move that takes no part in making a queue. *)
Lemma owners_keep (s s1 : state) i t t' : owners_ok s -> threads s !! i = Some t -> threads s1 = threads s ->
  list_lock_ s1 = list_lock_ s -> length (work_steal_queues_ s1) = length (work_steal_queues_ s) ->
  my_node t' = my_node t -> (in_list_lock (pc t') = true -> in_list_lock (pc t) = true) ->
  (made_queue (pc t') = true -> made_queue (pc t) = true) -> owners_ok (set_thread s1 i t').
Proof using.
  intros (H1 & H2 & H3) Ht E1 E2 E3 E4 Hl Hm.
  assert (Hold : ∀ j u', threads (set_thread s1 i t') !! j = Some u' -> ∃ u, threads s !! j = Some u ∧
            my_node u' = my_node u ∧ (in_list_lock (pc u') = true -> in_list_lock (pc u) = true) ∧
            (made_queue (pc u') = true -> made_queue (pc u) = true)).
  { cbn. rewrite E1. intros j u' [(<- & <- & _) | (_ & Hu)]%list_lookup_insert_Some; eauto. }
  split_and!; cbn [set_thread list_lock_ work_steal_queues_]; rewrite ?E2, ?E3.
  - intros j u' (u & Hu & _ & Hlu & _)%Hold Hin. eauto.
  - intros j j' u u' k (v & Hv & Ev & _)%Hold (v' & Hv' & Ev' & _)%Hold Hk Hk'. eapply (H2 j j' v v' k); congruence.
  - intros j j' u u' (v & Hv & _ & _ & Hmv)%Hold (v' & Hv' & Ev' & _)%Hold Hin. rewrite Ev'. eauto.
Qed.

Lemma lock_exclusive (s : state) i j t u : owners_ok s -> threads s !! i = Some t -> threads s !! j = Some u ->
  in_list_lock (pc t) = true -> in_list_lock (pc u) = true -> i = j.
Proof using. intros (H1 & _) Ht Hu Hi Hj. pose proof (H1 i t Ht Hi). pose proof (H1 j u Hu Hj). congruence. Qed.

Lemma made_in_lock (p : Pc C) : made_queue p = true -> in_list_lock p = true.
Proof using. by destruct p. Qed.

(** The steps of [GetMyWorkStealingQueue]. *)
Lemma owners_lock (s : state) i t e : owners_ok s -> threads s !! i = Some t -> pc t = EnqueueLock e ->
  list_lock_ s = None ->
  owners_ok (set_pc (set_queues s (work_steal_queues_ s) (work_steal_queue_size_ s) (Some i)) i t (EnqueueEmplace e)).
Proof using.
  intros (H1 & H2 & H3) Ht Hpc Hlock. split_and!; cbn.
  - intros j u [(<- & <- & _) | (_ & Hu)]%list_lookup_insert_Some; [done|].
    intros Hin. pose proof (H1 j u Hu Hin). congruence.
  - intros j j' u u' k [(<- & <- & _) | (_ & Hu)]%list_lookup_insert_Some
      [(<- & <- & _) | (_ & Hu')]%list_lookup_insert_Some; cbn; eauto.
  - intros j j' u u' [(<- & <- & _) | (_ & Hu)]%list_lookup_insert_Some; [done|].
    intros _ Hm. apply made_in_lock in Hm. pose proof (H1 j u Hu Hm). congruence.
Qed.

Lemma owners_emplace (s : state) i t e : inv s -> owners_ok s -> threads s !! i = Some t -> pc t = EnqueueEmplace e ->
  owners_ok (set_pc (set_queues s (work_steal_queues_ s ++ [q_new]) (work_steal_queue_size_ s) (list_lock_ s)) i t
               (EnqueueCount e)).
Proof using.
  intros (_ & _ & _ & Hok) Ho Ht Hpc. pose proof Ho as (H1 & H2 & H3).
  assert (Hin : in_list_lock (pc t) = true) by (by rewrite Hpc).
  split_and!; cbn.
  - intros j u [(<- & <- & _) | (_ & Hu)]%list_lookup_insert_Some; [|by apply H1]. intros _. by apply (H1 i t).
  - intros j j' u u' k [(<- & <- & _) | (_ & Hu)]%list_lookup_insert_Some
      [(<- & <- & _) | (_ & Hu')]%list_lookup_insert_Some; cbn; eauto.
  - rewrite length_app, Nat.add_1_r. cbn.
    assert (Hlt : ∀ j u, threads s !! j = Some u -> my_node u <> Some (length (work_steal_queues_ s))).
    { intros j u Hu E. destruct (Hok j u Hu) as [Hm _]. specialize (Hm _ E). lia. }
    intros j j' u u' _ [(<- & <- & _) | (_ & Hu')]%list_lookup_insert_Some _; cbn; eauto.
Qed.

Lemma owners_back (s : state) i t e : owners_ok s -> threads s !! i = Some t -> pc t = EnqueueBack e ->
  let k := pred (length (work_steal_queues_ s)) in
  owners_ok (set_thread (set_queues s (work_steal_queues_ s) (work_steal_queue_size_ s) None) i
               (mkThread (EnqueuePush k e) (callback_queue t) (Some k) (own_run t))).
Proof using.
  intros Ho Ht Hpc k. pose proof Ho as (H1 & H2 & H3).
  assert (Hin : made_queue (pc t) = true) by (by rewrite Hpc). pose proof (made_in_lock _ Hin) as Hin'.
  split_and!; cbn.
  - intros j u [(<- & <- & _) | (Hne & Hu)]%list_lookup_insert_Some; [done|]. intros Hl.
    by destruct Hne; apply (lock_exclusive s i j t u).
  - intros j j' u u' k' [(<- & <- & _) | (_ & Hu)]%list_lookup_insert_Some
      [(<- & <- & _) | (_ & Hu')]%list_lookup_insert_Some; cbn; [done| | |by eauto].
    + intros [= <-] E. by destruct (H3 i j' t u' Ht Hu' Hin).
    + intros E [= <-]. by destruct (H3 i j t u Ht Hu Hin).
  - intros j j' u u' [(<- & <- & _) | (Hne & Hu)]%list_lookup_insert_Some; [done|]. intros _ Hm%made_in_lock.
    by destruct Hne; apply (lock_exclusive s i j t u).
Qed.

Lemma push_shape (s s1 : state) o k e : push s o k e = Some s1 ->
  threads s1 = threads s ∧ list_lock_ s1 = list_lock_ s ∧
  length (work_steal_queues_ s1) = length (work_steal_queues_ s).
Proof using.
  unfold push. destruct (work_steal_queues_ s !! k) as [q|]; [|done]. cbn [mbind option_bind].
  destruct (enqueue o e q). intros [= <-]. cbn. by rewrite length_insert.
Qed.

Lemma next_queue_lock st n k :
  in_list_lock (next_queue st n k) = false ∧ made_queue (next_queue st n k) = false.
Proof using. unfold next_queue. by destruct (S k =? n)%nat. Qed.

Lemma thread_step_owners s i o s' : inv s -> owners_ok s -> thread_step s i o = Some s' -> owners_ok s'.
Proof using.
  intros Hi Ho. unfold thread_step. destruct (threads s !! i) as [t|] eqn:Ht; [|done]. cbn [mbind option_bind].
  assert (Hk : ∀ (s1 : state) t', threads s1 = threads s -> list_lock_ s1 = list_lock_ s ->
     length (work_steal_queues_ s1) = length (work_steal_queues_ s) -> my_node t' = my_node t ->
     in_list_lock (pc t') = false -> made_queue (pc t') = false -> owners_ok (set_thread s1 i t')).
  { intros s1 t' E1 E2 E3 E4 E5 E6. apply (owners_keep s s1 i t t'); try done; congruence. }
  pose proof next_queue_lock as Hn.
  destruct (pc t) as [|e|e|e|e|k e|st|st|st|st n k|st n k|st n k e|st n k e|k b| |n k] eqn:Hpc; intros H; try done.
  - destruct (list_lock_ s) eqn:E; [done|]. injection H as <-. by apply owners_lock.
  - injection H as <-. by apply owners_emplace.
  - injection H as <-. apply (owners_keep s _ i t); try done; by rewrite Hpc.
  - injection H as <-. by apply owners_back.
  - apply bind_Some in H as (s1 & (E1 & E2 & E3)%push_shape & [= <-]). by apply Hk.
  - injection H as <-. unfold own_front. destruct (callback_queue t); [|case_match]; by apply Hk.
  - injection H as <-. by apply Hk.
  - injection H as <-. apply Hk; try done; cbn; by destruct (work_steal_queue_size_ s =? 0)%nat.
  - apply bind_Some in H as (q & Hq & [= <-]). apply Hk; try done; cbn; destruct (size_approx o q =? 0)%nat;
      try done; apply Hn.
  - apply bind_Some in H as (q & Hq & H). destruct (try_dequeue o q) as [[e|] q']; injection H as <-;
      (apply Hk; cbn; rewrite ?length_insert; try done; try apply Hn; by destruct (fst e <=? st)).
  - injection H as <-. by apply Hk.
  - apply bind_Some in H as (s1 & (E1 & E2 & E3)%push_shape & [= <-]). apply Hk; try done; apply Hn.
  - injection H as <-. apply Hk; try done; cbn; (destruct (threads s !! k); [done|by destruct b]).
  - injection H as <-. apply Hk; try done; cbn; by destruct (work_steal_queue_size_ s =? 0)%nat.
  - apply bind_Some in H as (q & Hq & H). destruct (size_approx o q =? 0)%nat, (S k =? n)%nat; injection H as <-;
      by apply Hk.
Qed.

Lemma step_owners s l s' : inv s -> owners_ok s -> step s l = Some s' -> owners_ok s'.
Proof using.
  intros Hi Ho. destruct l as [i e b|i st|i|i o]; cbn [step]; [..|by apply thread_step_owners].
  all: destruct (threads s !! i) as [t|] eqn:Ht; [|done]; cbn [mbind option_bind]; destruct (pc t) eqn:Hpc; try done;
    intros [= <-]; unfold Enqueue, ExecuteCallbacks, set_pc.
  - destruct b; apply (owners_keep s _ i t); try done; cbn; by destruct (my_node t).
  - apply (owners_keep s _ i t); try done; cbn; by destruct (callback_queue t).
  - by apply (owners_keep s _ i t).
Qed.

Lemma reachable_owners n s : reachable n s -> owners_ok s.
Proof using L.
  intros (ls & H). assert (Ho : owners_ok (init n : state)).
  { split_and!; cbn; intros *; [intros [-> _]%lookup_replicate; done| |].
    all: intros [-> _]%lookup_replicate [-> _]%lookup_replicate; done. }
  pose proof (callback_init_inv n) as Hi. revert Ho Hi H. generalize (init n : state) as s0. induction ls as [|l ls IH]; cbn [run].
  - by intros s0 Ho _ [= <-].
  - intros s0 Ho Hi. destruct (step s0 l) as [s1|] eqn:E; [|done].
    apply IH; [by apply (step_owners s0 l)|by apply (callback_step_inv s0 l)].
Qed.

(** C24. No commit callback is lost and none runs twice: in every interleaving
    of threads that enqueue, execute and steal callbacks, every entry handed
    to Enqueue has run, or is in exactly one queue or in the hands of one
    thread, or was dropped by a queue that had no memory. *)
Theorem callbacks_run_once n s : reachable n s ->
  enqueued s ≡ₚ map fst (executed s) ++ pending (work_steal_queues_ s) ++ concat (map bag (threads s)) ++ dropped s.
Proof using L. intros Hi%callback_reachable_inv. apply Hi. Qed.

(** No callback runs before its epoch: the stable epoch it ran under is at
    least the epoch of its commit. *)
Theorem callbacks_wait_for_epoch n s e st : reachable n s -> (e, st) ∈ executed s -> fst e <= st.
Proof using L.
  intros (_ & Hex & _)%callback_reachable_inv Hin. rewrite Forall_forall in Hex. exact (Hex _ Hin).
Qed.

(** A thread runs the callbacks of its own queue in the order of its commits:
    what it has run is always a beginning of what it has queued, and both only
    grow. *)
Theorem own_callbacks_in_order s ls s' i t : run s ls = Some s' -> threads s !! i = Some t ->
  ∃ t', threads s' !! i = Some t' ∧ own_run t `prefix_of` own_run t' ∧
    own_run t ++ own_pending t `prefix_of` own_run t' ++ own_pending t'.
Proof using.
  revert s t. induction ls as [|l ls IH]; cbn [run]; intros s t H Ht; [injection H as <-; eauto|].
  destruct (step s l) as [s1|] eqn:E; [|done]. cbn [mbind option_bind] in H.
  destruct (step_thread_grows s s1 l i t E Ht) as (t1 & Ht1 & H1 & H2).
  destruct (IH s1 t1 H Ht1) as (t' & Ht' & H3 & H4). exists t'. split_and!; [done|by transitivity (own_run t1)|].
  by transitivity (own_run t1 ++ own_pending t1).
Qed.

(** Every work-stealing queue has one owner: [GetMyWorkStealingQueue] never
    gives two threads the same queue. *)
Theorem work_steal_queue_has_one_owner n s i j t u k : reachable n s ->
  threads s !! i = Some t -> threads s !! j = Some u -> my_node t = Some k -> my_node u = Some k -> i = j.
Proof using L. intros (_ & H & _)%reachable_owners. apply H. Qed.

(** C38. ExecuteCallbacks returns when no other thread moves, from every
    reachable state inside it and whatever the queues answer: after at most as
    many accesses as its rank the thread is outside. *)
Theorem ExecuteCallbacks_returns n s i t (os : nat -> nat) : reachable n s -> threads s !! i = Some t ->
  executing (pc t) = true ->
  ∃ m s' t', (m <= rank s t)%nat ∧ run s (map (fun j => LThread i (os j)) (seq 0 m)) = Some s' ∧
    threads s' !! i = Some t' ∧ pc t' = Idle.
Proof using L.
  intros Hi%callback_reachable_inv. cut (∀ b j s t, inv s -> threads s !! i = Some t -> executing (pc t) = true ->
    (rank s t <= b)%nat ->
    ∃ m s' t', (m <= b)%nat ∧ run s (map (fun j => LThread i (os j)) (seq j m)) = Some s' ∧
      threads s' !! i = Some t' ∧ pc t' = Idle).
  { intros H Ht Hex. by apply (H (rank s t) O s t). }
  clear s t Hi. intros b. induction b as [b IH] using lt_wf_ind. intros j s t Hi Ht Hex Hr.
  destruct (thread_moves s i (os j) t Hi Ht) as [s1 E]; [by intros Hp; rewrite Hp in Hex|by intros e Hp; rewrite Hp in Hex|].
  destruct (execute_step s i (os j) s1 t Hi Ht Hex E) as (t1 & Ht1 & [Hidle|Hex1] & Hlt).
  - exists 1%nat, s1, t1. split_and!; try done; [lia|]. cbn. by rewrite E.
  - destruct (IH (rank s1 t1) ltac:(lia) (S j) s1 t1) as (m & s' & t' & Hm & Hrun & Ht' & Hp'); try done.
    { by apply (callback_step_inv s (LThread i (os j))). }
    exists (S m), s', t'. split_and!; try done; [lia|]. cbn. by rewrite E.
Qed.

(** The entries at the front of a queue that a stable epoch covers. *)
Fixpoint ready (st : Z) (l : list (Entry C)) : list (Entry C) :=
  match l with e :: l' => if fst e <? st then e :: ready st l' else [] | [] => [] end.

Lemma own_loop_runs st l s i mn r : threads s !! i = Some (mkThread (OwnFront st) l mn r) ->
  ∃ s', run s (replicate (1 + 2 * length (ready st l)) (LThread i 0)) = Some s' ∧
    threads s' = <[i := mkThread Idle (drop (length (ready st l)) l) mn (r ++ ready st l)]> (threads s) ∧
    executed s' = executed s ++ map (fun e => (e, st)) (ready st l) ∧
    work_steal_queues_ s' = work_steal_queues_ s.
Proof using.
  revert s r. induction l as [|e l IH]; intros s r Ht.
  - exists (set_thread s i (mkThread Idle [] mn r)). cbn. unfold thread_step. rewrite Ht. cbn. by rewrite !app_nil_r.
  - cbn [ready]. destruct (fst e <? st) eqn:Hlt.
    + set (s1 := set_thread (add_executed s e st) i (mkThread (OwnPop st) (e :: l) mn (r ++ [e]))).
      set (s2 := set_thread s1 i (mkThread (OwnFront st) l mn (r ++ [e]))).
      assert (Hl : (i < length (threads s))%nat) by (by eapply lookup_lt_Some).
      assert (H1 : step s (LThread i 0) = Some s1).
      { cbn. unfold thread_step. rewrite Ht. cbn. unfold own_front. cbn. by rewrite Hlt. }
      assert (H2 : step s1 (LThread i 0) = Some s2).
      { cbn [step]. unfold thread_step. cbn [s1 set_thread threads add_executed].
        by rewrite list_lookup_insert_eq by done. }
      destruct (IH s2 (r ++ [e])) as (s' & Hrun & E1 & E2 & E3).
      { cbn. rewrite list_insert_insert_eq. by apply list_lookup_insert_eq. }
      exists s'. split_and!.
      * replace (1 + 2 * length (e :: ready st l))%nat with (2 + (1 + 2 * length (ready st l)))%nat by (cbn; lia).
        rewrite <- Hrun. cbn [replicate Nat.add run]. rewrite H1. cbn [mbind option_bind]. by rewrite H2.
      * rewrite E1. cbn. rewrite !list_insert_insert_eq, <- app_assoc. done.
      * rewrite E2. cbn. by rewrite <- app_assoc.
      * by rewrite E3.
    + exists (set_thread s i (mkThread Idle (e :: l) mn r)). cbn. unfold thread_step. rewrite Ht. cbn.
      unfold own_front. cbn. rewrite Hlt. by rewrite !app_nil_r.
Qed.

(** On a thread with callbacks of its own, [ExecuteCallbacks] runs exactly the
    longest beginning of its queue whose epochs are below the stable epoch, in
    order, leaves the rest, and does not touch the other queues. *)
Theorem ExecuteCallbacks_own_queue s i t st : threads s !! i = Some t -> pc t = Idle -> callback_queue t <> [] ->
  ∃ s', run s (LExecuteCallbacks i st :: replicate (1 + 2 * length (ready st (callback_queue t))) (LThread i 0)) = Some s' ∧
    threads s' !! i = Some (mkThread Idle (drop (length (ready st (callback_queue t))) (callback_queue t)) (my_node t)
                              (own_run t ++ ready st (callback_queue t))) ∧
    executed s' = executed s ++ map (fun e => (e, st)) (ready st (callback_queue t)) ∧
    work_steal_queues_ s' = work_steal_queues_ s.
Proof using.
  intros Ht Hpc Hne. assert (Hl : (i < length (threads s))%nat) by (by eapply lookup_lt_Some).
  cbn [run step]. rewrite Ht. cbn [mbind option_bind]. rewrite Hpc. unfold ExecuteCallbacks.
  destruct (callback_queue t) as [|e l] eqn:El; [done|]. rewrite <- El in *.
  destruct (own_loop_runs st (callback_queue t) (set_pc s i t (OwnFront st)) i (my_node t) (own_run t))
    as (s' & Hrun & E1 & E2 & E3); [cbn; by apply list_lookup_insert_eq|].
  exists s'. split_and!; [exact Hrun| |done|done]. rewrite E1. cbn. rewrite list_insert_insert_eq.
  by apply list_lookup_insert_eq.
Qed.

End invariant.

(** ** An execution *)

Module Demo.

Abbreviation label := (Label nat).
Abbreviation manager := (State nat (list (Entry nat))).

(** [k] accesses of thread [i]. *)
Definition turns (k i : nat) : list label := replicate k (LThread i 0).

(** The manager after a sequence of labels. *)
Definition after (n : nat) (ls : list label) : manager := default (init n) (run (init n) ls).

(** Thread 0 commits twice in epoch 3 and once in epoch 4; thread 1, of the
    client, entrusts a callback of epoch 3 and one of epoch 5; thread 2 has none
    of its own. *)
Definition commits : list label :=
  [LEnqueue 0 (3, 10%nat) false; LEnqueue 0 (3, 11%nat) false; LEnqueue 0 (4, 12%nat) false;
   LEnqueue 1 (3, 20%nat) true] ++ turns 5 1 ++ [LEnqueue 1 (5, 21%nat) true] ++ turns 1 1.

(** Threads 0 and 2 execute what epoch 4 covers. *)
Definition executes : list label :=
  [LExecuteCallbacks 0 4] ++ turns 5 0 ++ [LExecuteCallbacks 2 4] ++ turns 1 2.

Definition end_state : manager := after 3 (commits ++ executes ++ turns 6 2).

Lemma commits_reachable : reachable 3 (after 3 (commits ++ executes)).
Proof. exists (commits ++ executes). vm_compute. reflexivity. Qed.

Lemma end_reachable : reachable 3 end_state.
Proof. exists (commits ++ executes ++ turns 6 2). vm_compute. reflexivity. Qed.

Lemma callbacks_run_once_witness :
  executed end_state = [((3, 10%nat), 4); ((3, 11%nat), 4); ((3, 20%nat), 4)] ∧
  enqueued end_state ≡ₚ map fst (executed end_state) ++ pending (work_steal_queues_ end_state) ++
                        concat (map bag (threads end_state)) ++ dropped end_state.
Proof. split; [vm_compute; reflexivity|]. exact (callbacks_run_once 3 end_state end_reachable). Defined.

Lemma callbacks_wait_for_epoch_witness : fst (3, 20%nat) <= 4.
Proof.
  apply (callbacks_wait_for_epoch 3 end_state (3, 20%nat) 4 end_reachable).
  vm_compute. right. right. left.
Defined.

Lemma own_callbacks_in_order_witness :
  ∃ t', threads (after 3 (commits ++ executes)) !! 0%nat = Some t' ∧ [] `prefix_of` own_run t' ∧
    [] ++ [(3, 10%nat); (3, 11%nat); (4, 12%nat)] `prefix_of` own_run t' ++ own_pending t'.
Proof.
  apply (own_callbacks_in_order (after 3 commits) executes (after 3 (commits ++ executes)) 0
           (mkThread Idle [(3, 10%nat); (3, 11%nat); (4, 12%nat)] None [])); vm_compute; reflexivity.
Defined.

Lemma work_steal_queue_has_one_owner_witness : 1%nat = 1%nat.
Proof.
  apply (work_steal_queue_has_one_owner 3 end_state 1 1 (mkThread Idle [] (Some 0%nat) [])
           (mkThread Idle [] (Some 0%nat) []) 0 end_reachable); vm_compute; reflexivity.
Defined.

Lemma ExecuteCallbacks_returns_witness :
  ∃ m s' t', (m <= 12)%nat ∧
    run (after 3 (commits ++ executes)) (map (fun j => LThread 2 j) (seq 0 m)) = Some s' ∧
    threads s' !! 2%nat = Some t' ∧ pc t' = Idle.
Proof.
  apply (ExecuteCallbacks_returns 3 (after 3 (commits ++ executes)) 2 (mkThread (StealSize 4 1 0) [] None [])
           (fun j => j) commits_reachable); vm_compute; reflexivity.
Defined.

Lemma ExecuteCallbacks_own_queue_witness :
  ∃ s', run (after 3 commits) (LExecuteCallbacks 0 4 :: replicate 5 (LThread 0 0)) = Some s' ∧
    threads s' !! 0%nat = Some (mkThread Idle [(4, 12%nat)] None [(3, 10%nat); (3, 11%nat)]) ∧
    executed s' = [((3, 10%nat), 4); ((3, 11%nat), 4)] ∧
    work_steal_queues_ s' = work_steal_queues_ (after 3 commits).
Proof.
  apply (ExecuteCallbacks_own_queue (after 3 commits) 0
           (mkThread Idle [(3, 10%nat); (3, 11%nat); (4, 12%nat)] None []) 4); [vm_compute; reflexivity|reflexivity|done].
Defined.

End Demo.
