(* ===== verification/Fence.v ===== *)
(** * Transactions on the pool, and Fence (src/src/database_impl.h)

    The composition of the thread pool, the callback manager and the epoch
    framework by the database: [ExecuteTransaction] hands a job to the pool;
    a worker that runs it joins an epoch, runs the procedure and leaves the
    commit callback with its epoch; every epoch change sends a job to all
    workers that executes callbacks and publishes [latest_callbacked_epoch_]
    ([EventsOnEpochIsUpdated]); [Fence] waits for all three.

    A step of the system is a step of one component together with the place of
    its thread in the database's code.  The procedure of a transaction and the
    protocol that decides on it are opaque: the job ends in either outcome.
    Logging is in Durability.v, the indexes in RangeIndex.v.

    The theorems show that, when [Fence] returns, every worker has finished
    every job it had started when the fence was called, and that [Fence] does
    not outlast a transaction that was submitted before. *)

From S2P Require Import Prelude ConcurrentQueue Epoch ThreadPool Callbacks.

Module Database.
Import ThreadPool ThreadLocalCallbackManager.

(** A transaction is a number, which also stands for its callback. *)
Abbreviation Tx := nat (only parsing).

(** The functions the database puts into the pool. *)
Inductive DbJob : Type := TransactionJob (t : Tx) | CallbacksJob (updated_epoch : Z).

(** Where a worker is in the job it runs. *)
Inductive JobPc : Type :=
| NoJob
| TxOnline (t : Tx)
| TxProcedure (t : Tx)
| TxEnqueue (t : Tx) (current_epoch : Z)
| TxOffline (t : Tx)
| CbExecute (updated_epoch : Z)
| CbStore (updated_epoch : Z)
| JobDone.

(** Where a call of [Fence] is. *)
Inductive FencePc : Type :=
| FenceEpoch
| FenceSync (current_epoch : Z) (reload_count : nat) (waiting : option Z)
| FencePool (current_epoch : Z) (c : nat)
| FenceCallbacks (current_epoch : Z)
| FenceLatest (current_epoch : Z)
| FenceTables
| FenceDone.

(** A call of [Fence] on thread [fence_thread]; [fence_wait] is the number of
    the call of [WaitForQueuesToBecomeEmpty] it has made. *)
Record FenceCall := mkFence { fence_thread : nat; fence_wait : option nat; fence_pc : FencePc }.

(** The database.  Workers are the first threads of the callback manager and of
    the epoch framework.  [publishing] is the call by which the epoch writer
    sends its jobs. *)
Record State (Qp Qc : Type) := mkDb {
  thread_pool_ : ThreadPool.State DbJob Qp;
  callback_manager_ : ThreadLocalCallbackManager.State Tx Qc;
  epoch_framework_ : EpochFramework.State;
  latest_callbacked_epoch_ : Z;
  jobs : list JobPc;
  publishing : option nat;
  fences : list FenceCall;
  (** transactions that ended, with whether they committed *)
  ended : list (Tx * bool);
  (** the jobs each worker has come to the end of *)
  finished : list (list DbJob);
}.
#[global] Arguments mkDb {Qp Qc} _ _ _ _ _ _ _ _ _.
#[global] Arguments thread_pool_ {Qp Qc} _.
#[global] Arguments callback_manager_ {Qp Qc} _.
#[global] Arguments epoch_framework_ {Qp Qc} _.
#[global] Arguments latest_callbacked_epoch_ {Qp Qc} _.
#[global] Arguments jobs {Qp Qc} _.
#[global] Arguments publishing {Qp Qc} _.
#[global] Arguments fences {Qp Qc} _.
#[global] Arguments ended {Qp Qc} _.
#[global] Arguments finished {Qp Qc} _.

(** Who moves: [ExecuteTransaction], a call of the pool, a worker outside its
    jobs, a worker in its job, the epoch writer, the callback manager on a
    thread of the client, [RequestCallbacks], [Fence]. *)
Inductive Label : Type :=
| DExecuteTransaction (t : Tx)
| DCall (c o r : nat)
| DWorker (i o : nat)
| DJob (i o : nat) (commits : bool)
| DWriter
| DEntrust (i : nat) (t : Tx) (commit_epoch : Z)
| DClient (i o : nat)
| DRequestCallbacks (i : nat)
| DFence (i : nat)
| DFenceStep (f o : nat).

Section database.
Context {Qp Qc : Type} `{CQp : ConcurrentQueue Qp (Job DbJob)} `{CQc : ConcurrentQueue Qc (Entry Tx)}.
Abbreviation state := (State Qp Qc).

(** [n] workers and [m] threads of the client. *)
Definition init (n m : nat) : state :=
  mkDb (ThreadPool.init n) (ThreadLocalCallbackManager.init (n + m)) (EpochFramework.init (n + m)) 1
    (replicate n NoJob) None [] [] (replicate n []).

Definition set_pool (s : state) (p : ThreadPool.State DbJob Qp) : state :=
  mkDb p (callback_manager_ s) (epoch_framework_ s) (latest_callbacked_epoch_ s) (jobs s) (publishing s) (fences s)
    (ended s) (finished s).
Definition set_callbacks (s : state) (c : ThreadLocalCallbackManager.State Tx Qc) : state :=
  mkDb (thread_pool_ s) c (epoch_framework_ s) (latest_callbacked_epoch_ s) (jobs s) (publishing s) (fences s) (ended s) (finished s).
Definition set_epochs (s : state) (e : EpochFramework.State) : state :=
  mkDb (thread_pool_ s) (callback_manager_ s) e (latest_callbacked_epoch_ s) (jobs s) (publishing s) (fences s) (ended s) (finished s).
Definition set_latest (s : state) (e : Z) : state :=
  mkDb (thread_pool_ s) (callback_manager_ s) (epoch_framework_ s) e (jobs s) (publishing s) (fences s) (ended s) (finished s).
Definition set_job (s : state) (i : nat) (j : JobPc) : state :=
  mkDb (thread_pool_ s) (callback_manager_ s) (epoch_framework_ s) (latest_callbacked_epoch_ s) (<[i := j]> (jobs s))
    (publishing s) (fences s) (ended s) (finished s).
Definition set_publishing (s : state) (c : option nat) : state :=
  mkDb (thread_pool_ s) (callback_manager_ s) (epoch_framework_ s) (latest_callbacked_epoch_ s) (jobs s) c (fences s)
    (ended s) (finished s).
Definition set_fences (s : state) (l : list FenceCall) : state :=
  mkDb (thread_pool_ s) (callback_manager_ s) (epoch_framework_ s) (latest_callbacked_epoch_ s) (jobs s) (publishing s)
    l (ended s) (finished s).
Definition add_ended (s : state) (t : Tx) (b : bool) : state :=
  mkDb (thread_pool_ s) (callback_manager_ s) (epoch_framework_ s) (latest_callbacked_epoch_ s) (jobs s) (publishing s)
    (fences s) (ended s ++ [(t, b)]) (finished s).
Definition add_finished (s : state) (i : nat) (j : DbJob) : state :=
  mkDb (thread_pool_ s) (callback_manager_ s) (epoch_framework_ s) (latest_callbacked_epoch_ s) (jobs s) (publishing s)
    (fences s) (ended s) (alter (fun l => l ++ [j]) i (finished s)).

Definition pool_step (s : state) (l : ThreadPool.Label DbJob) : option state :=
  p ← ThreadPool.step (thread_pool_ s) l; Some (set_pool s p).
Definition callback_step (s : state) (l : ThreadLocalCallbackManager.Label Tx) : option state :=
  c ← ThreadLocalCallbackManager.step (callback_manager_ s) l; Some (set_callbacks s c).

(** The job a worker runs, if it runs one. *)
Definition running_job (s : state) (i : nat) : option DbJob :=
  w ← worker_threads_ (thread_pool_ s) !! i;
  match ThreadPool.pc w with Run (UserJob j) => Some j | _ => None end.

(** Whether a thread is outside the callback manager. *)
Definition outside_manager (s : state) (i : nat) : bool :=
  match threads (callback_manager_ s) !! i with
  | Some t => match ThreadLocalCallbackManager.pc t with ThreadLocalCallbackManager.Idle => true | _ => false end
  | None => false
  end.

(** One access of [MakeMeOnline] by worker [i]; the job goes on once the
    thread is online. *)
Definition make_me_online (s : state) (i : nat) (t : Tx) : option state :=
  let e := epoch_framework_ s in
  p ← EpochFramework.pcs e !! i;
  Some (match p with
        | EpochFramework.Offline =>
            set_epochs s (EpochFramework.set_thread e i (EpochFramework.slot_at e i)
                            (EpochFramework.Storing (EpochFramework.global_epoch_ e)))
        | EpochFramework.Storing x => set_epochs s (EpochFramework.set_thread e i x (EpochFramework.Reloading x))
        | EpochFramework.Reloading x =>
            set_epochs s (EpochFramework.set_thread e i (EpochFramework.slot_at e i)
                            (EpochFramework.Reload x (EpochFramework.global_epoch_ e)))
        | EpochFramework.Online _ => set_job s i (TxProcedure t)
        end).

Definition MakeMeOffline (s : state) (i : nat) : state :=
  set_epochs s (EpochFramework.set_thread (epoch_framework_ s) i EpochFramework.THREAD_OFFLINE EpochFramework.Offline).

(** One access of worker [i] in the function of [ExecuteTransaction] or of
    [EventsOnEpochIsUpdated]; [commits] is what the procedure and [Precommit]
    come to. *)
Definition job_step (s : state) (i o : nat) (commits : bool) : option state :=
  j ← running_job s i;
  p ← jobs s !! i;
  match p with
  | NoJob =>
      match j with
      | TransactionJob t => Some (set_job s i (TxOnline t))
      | CallbacksJob u =>
          s' ← callback_step s (LExecuteCallbacks i u); Some (set_job s' i (CbExecute u))
      end
  | TxOnline t => make_me_online s i t
  | TxProcedure t =>
      if commits then Some (set_job s i (TxEnqueue t (EpochFramework.slot_at (epoch_framework_ s) i)))
      else Some (set_job (add_ended s t false) i (TxOffline t))
  | TxEnqueue t e =>
      s' ← callback_step s (ThreadLocalCallbackManager.LEnqueue i (e, t) false);
      Some (set_job (add_ended s' t true) i (TxOffline t))
  | TxOffline t => Some (set_job (MakeMeOffline s i) i JobDone)
  | CbExecute u =>
      if outside_manager s i then Some (set_job s i (CbStore u)) else callback_step s (LThread i o)
  | CbStore u => Some (set_job (set_latest s u) i JobDone)
  | JobDone => None
  end.

(** One access of worker [i] outside its jobs; it leaves a job that is done. *)
Definition db_worker_step (s : state) (i o : nat) : option state :=
  match running_job s i with
  | None => pool_step s (LWorker i o)
  | Some j =>
      p ← jobs s !! i;
      match p with
      | JobDone => s' ← pool_step s (LWorker i o); Some (add_finished (set_job s' i NoJob) i j)
      | _ => None
      end
  end.

(** Whether a call of the pool has returned. *)
Definition call_returned (s : state) (c : nat) : bool :=
  match calls (thread_pool_ s) !! c with
  | Some (Returned _) => true
  | _ => false
  end.

(** Whether a call of [WaitForQueuesToBecomeEmpty] has returned. *)
Definition wait_returned (s : state) (c : nat) : bool :=
  match calls (thread_pool_ s) !! c with Some WaitReturned => true | _ => false end.

(** The epoch writer: a step of its loop, followed by [publish_target_] where
    it advanced the epoch; it goes on when that call has returned. *)
Definition writer_step (s : state) : option state :=
  match publishing s with
  | Some c => if call_returned s c then Some (set_publishing s None) else None
  | None =>
      let e := epoch_framework_ s in
      match EpochFramework.writer e with
      | EpochFramework.Aborted | EpochFramework.Finished => None
      | EpochFramework.Advancing _ =>
          let e' := EpochFramework.writer_step e in
          s' ← pool_step (set_epochs s e') (LEnqueueForAllThreads (CallbacksJob (EpochFramework.global_epoch_ e')));
          Some (set_publishing s' (Some (length (calls (thread_pool_ s)))))
      | _ => Some (set_epochs s (EpochFramework.writer_step e))
      end
  end.

Definition set_fence (s : state) (f : nat) (c : FenceCall) (p : FencePc) : state :=
  set_fences s (<[f := mkFence (fence_thread c) (fence_wait c) p]> (fences s)).

(** One access of [Fence], with [Sync], [WaitForQueuesToBecomeEmpty] and
    [WaitForAllCallbacksToBeExecuted]. *)
Definition fence_step (s : state) (f o : nat) : option state :=
  c ← fences s !! f;
  let e := epoch_framework_ s in
  let g := EpochFramework.global_epoch_ e in
  match fence_pc c with
  | FenceEpoch => Some (set_fence s f c (FenceSync g 0 None))
  | FenceSync cur n None => Some (set_fence s f c (FenceSync cur n (Some g)))
  | FenceSync cur n (Some current) =>
      if EpochFramework.stop_ e || negb (g =? current) then
        if EpochFramework.stop_ e || (S n =? 2)%nat then
          s' ← pool_step s LWaitForQueuesToBecomeEmpty;
          let k := length (calls (thread_pool_ s)) in
          Some (set_fence s' f (mkFence (fence_thread c) (Some k) (FenceSync cur n (Some current))) (FencePool cur k))
        else Some (set_fence s f c (FenceSync cur (S n) None))
      else None
  | FencePool cur w =>
      if wait_returned s w then
        s' ← callback_step s (LWaitForAllCallbacksToBeExecuted (fence_thread c));
        Some (set_fence s' f c (FenceCallbacks cur))
      else None
  | FenceCallbacks cur =>
      if outside_manager s (fence_thread c) then Some (set_fence s f c (FenceLatest cur))
      else callback_step s (LThread (fence_thread c) o)
  | FenceLatest cur =>
      if cur <=? latest_callbacked_epoch_ s then Some (set_fence s f c FenceTables) else None
  | FenceTables => Some (set_fence s f c FenceDone)
  | FenceDone => None
  end.

(** Whether a thread belongs to the client. *)
Definition is_client (s : state) (i : nat) : bool := (length (worker_threads_ (thread_pool_ s)) <=? i)%nat.

Definition step (s : state) (l : Label) : option state :=
  match l with
  | DExecuteTransaction t => pool_step s (ThreadPool.LEnqueue (TransactionJob t))
  | DCall c o r => pool_step s (LCall c o r)
  | DWorker i o => db_worker_step s i o
  | DJob i o commits => job_step s i o commits
  | DWriter => writer_step s
  | DEntrust i t e => if is_client s i then callback_step s (ThreadLocalCallbackManager.LEnqueue i (e, t) true) else None
  | DClient i o => if is_client s i then callback_step s (LThread i o) else None
  | DRequestCallbacks i =>
      if is_client s i then
        callback_step s (LExecuteCallbacks i (EpochFramework.global_epoch_ (epoch_framework_ s)))
      else None
  | DFence i => if is_client s i then Some (set_fences s (fences s ++ [mkFence i None FenceEpoch])) else None
  | DFenceStep f o => fence_step s f o
  end.

Fixpoint run (s : state) (ls : list Label) : option state :=
  match ls with
  | [] => Some s
  | l :: ls' => s' ← step s l; run s' ls'
  end.

Definition reachable (n m : nat) (s : state) : Prop := ∃ ls, run (init n m) ls = Some s.

End database.

End Database.

Import ThreadPool ThreadLocalCallbackManager Database.

(** ** What a fence waits for *)

Section fences.
Context {Qp Qc : Type} `{CQp : ConcurrentQueue Qp (Job DbJob)} `{CQc : ConcurrentQueue Qc (Entry nat)}
  {Lp : ConcurrentQueueLaws CQp}.
Abbreviation state := (Database.State Qp Qc).

(** A step of the database is a step of its pool, or leaves the pool alone. *)
Definition pool_moves (p p' : ThreadPool.State DbJob Qp) : Prop := ∃ ls, ThreadPool.run p ls = Some p'.

Lemma pool_moves_refl p : pool_moves p p.
Proof using. by exists []. Qed.

Lemma pool_run_app (p : ThreadPool.State DbJob Qp) ls1 ls2 :
  ThreadPool.run p (ls1 ++ ls2) = (p' ← ThreadPool.run p ls1; ThreadPool.run p' ls2).
Proof using.
  revert p. induction ls1 as [|l ls1 IH]; intros p; [done|]. cbn. destruct (ThreadPool.step p l); [|done]. apply IH.
Qed.

Lemma pool_moves_trans p1 p2 p3 : pool_moves p1 p2 -> pool_moves p2 p3 -> pool_moves p1 p3.
Proof using.
  intros (ls1 & H1) (ls2 & H2). exists (ls1 ++ ls2). by rewrite pool_run_app, H1.
Qed.

Lemma pool_step_moves (s s' : state) l : pool_step s l = Some s' -> pool_moves (thread_pool_ s) (thread_pool_ s').
Proof using.
  unfold pool_step. destruct (ThreadPool.step (thread_pool_ s) l) as [p|] eqn:E; [|done]. intros [= <-].
  exists [l]. cbn. by rewrite E.
Qed.

Lemma callback_step_pool (s s' : state) l : callback_step s l = Some s' ->
  thread_pool_ s' = thread_pool_ s ∧ fences s' = fences s.
Proof using.
  unfold callback_step. destruct (ThreadLocalCallbackManager.step (callback_manager_ s) l); [|done]. by intros [= <-].
Qed.

Lemma pool_step_fences (s s' : state) l : pool_step s l = Some s' -> fences s' = fences s.
Proof using. unfold pool_step. destruct (ThreadPool.step (thread_pool_ s) l); [|done]. by intros [= <-]. Qed.

Lemma job_step_frame (s s' : state) i o b : job_step s i o b = Some s' ->
  thread_pool_ s' = thread_pool_ s ∧ fences s' = fences s.
Proof using.
  unfold job_step, make_me_online. intros (j & _ & (p & _ & H)%bind_Some)%bind_Some.
  destruct p as [|t|t|t e|t|u|u|]; try (by injection H as <-); try done.
  - destruct j as [t|u]; [by injection H as <-|]. apply bind_Some in H as (s1 & H1 & [= <-]).
    by apply callback_step_pool in H1.
  - apply bind_Some in H as (p & _ & [= <-]). by destruct p.
  - by destruct b; injection H as <-.
  - apply bind_Some in H as (s1 & H1 & [= <-]). by apply callback_step_pool in H1.
  - destruct (outside_manager s i); [by injection H as <-|]. by apply callback_step_pool in H.
Qed.

Lemma fence_label l : (∃ f o, l = DFenceStep f o) ∨ (∀ f o, l <> DFenceStep f o).
Proof using. destruct l; try (right; congruence). left. eauto. Qed.

(** Steps that are not steps of a fence. *)
Lemma step_frame (s s' : state) l : Database.step s l = Some s' -> (∀ f o, l <> DFenceStep f o) ->
  pool_moves (thread_pool_ s) (thread_pool_ s') ∧ fences s `prefix_of` fences s'.
Proof using.
  intros H Hl. destruct l as [t|c o r|i o|i o b| |i t e|i o|i|i|f o]; cbn [Database.step] in H.
  - pose proof (pool_step_moves _ _ _ H). by apply pool_step_fences in H as ->.
  - pose proof (pool_step_moves _ _ _ H). by apply pool_step_fences in H as ->.
  - unfold db_worker_step in H. destruct (running_job s i) as [j|].
    + apply bind_Some in H as (p & _ & H). destruct p; try done. apply bind_Some in H as (s1 & H & [= <-]). cbn.
      pose proof (pool_step_moves _ _ _ H). by apply pool_step_fences in H as ->.
    + pose proof (pool_step_moves _ _ _ H). by apply pool_step_fences in H as ->.
  - apply job_step_frame in H as [-> ->]. split; [apply pool_moves_refl|done].
  - unfold writer_step in H. destruct (publishing s) as [c|].
    + destruct (call_returned s c); [|done]. injection H as <-. split; [apply pool_moves_refl|done].
    + destruct (EpochFramework.writer (epoch_framework_ s)); try done;
        try (injection H as <-; split; [apply pool_moves_refl|done]).
      apply bind_Some in H as (s1 & H & [= <-]). cbn.
      pose proof (pool_step_moves _ _ _ H). by apply pool_step_fences in H as ->.
  - destruct (is_client s i); [|done]. apply callback_step_pool in H as [-> ->]. split; [apply pool_moves_refl|done].
  - destruct (is_client s i); [|done]. apply callback_step_pool in H as [-> ->]. split; [apply pool_moves_refl|done].
  - destruct (is_client s i); [|done]. apply callback_step_pool in H as [-> ->]. split; [apply pool_moves_refl|done].
  - destruct (is_client s i); [|done]. injection H as <-. split; [apply pool_moves_refl|]. by apply prefix_app_r.
  - by destruct (Hl f o).
Qed.

(** Every worker has run the function of waiting call [c] since. *)
Definition outlasted (p p' : ThreadPool.State DbJob Qp) (c : nat) : Prop :=
  ∀ i w, worker_threads_ p !! i = Some w ->
    ∃ w' l, worker_threads_ p' !! i = Some w' ∧ started w' = started w ++ l ∧ EndsJob c ∈ l.

Lemma outlasted_mono n p p' p'' c : ThreadPool.reachable n p' -> outlasted p p' c -> pool_moves p' p'' ->
  outlasted p p'' c.
Proof using Lp.
  intros Hi%pool_reachable_inv H (ls & Hls) i w Hw. destruct (H i w Hw) as (w' & l & Hw' & E & Hin).
  destruct (run_worker n p' ls p'' i w' Hi Hls Hw') as (w'' & Hw'' & l' & E').
  exists w'', (l ++ l'). split_and!; [done|by rewrite E', E, app_assoc|]. apply elem_of_app. by left.
Qed.

Lemma outlasted_earlier n p p' p'' c : ThreadPool.reachable n p -> pool_moves p p' -> outlasted p' p'' c ->
  outlasted p p'' c.
Proof using Lp.
  intros Hi%pool_reachable_inv (ls & Hls) H i w Hw.
  destruct (run_worker n p ls p' i w Hi Hls Hw) as (w' & Hw' & l & E).
  destruct (H i w' Hw') as (w'' & l' & Hw'' & E' & Hin). exists w'', (l ++ l').
  split_and!; [done|by rewrite E', E, app_assoc|]. apply elem_of_app. by right.
Qed.

Lemma pool_moves_reachable n p p' : ThreadPool.reachable n p -> pool_moves p p' -> ThreadPool.reachable n p'.
Proof using. intros (ls & H) (ls' & H'). exists (ls ++ ls'). by rewrite pool_run_app, H. Qed.

Lemma pool_moves_calls p p' c : pool_moves p p' ->
  (length (calls p) <= length (calls p'))%nat ∧ (calls p !! c = Some WaitReturned -> calls p' !! c = Some WaitReturned).
Proof using.
  intros (ls & H). revert p H. induction ls as [|l ls IH]; cbn [ThreadPool.run]; intros p H; [by injection H as <-|].
  destruct (ThreadPool.step p l) as [p1|] eqn:E; [|done].
  destruct (step_wait_returned p p1 l c E) as [H1 H2], (IH p1 H) as [H3 H4]. split; [lia|auto].
Qed.

(** A fence that began when the pool was [p0] has waited. *)
Definition waited (p0 p : ThreadPool.State DbJob Qp) (f : FenceCall) : Prop :=
  ∃ k, fence_wait f = Some k ∧ (length (calls p0) <= k)%nat ∧ calls p !! k = Some WaitReturned ∧ outlasted p0 p k.

(** What holds of a fence that began when the pool was [p0]. *)
Definition fence_ok (p0 p : ThreadPool.State DbJob Qp) (f : FenceCall) : Prop :=
  match fence_pc f with
  | FenceEpoch | FenceSync _ _ _ => True
  | FencePool _ c =>
      fence_wait f = Some c ∧
      ∃ q q1, pool_moves p0 q ∧ ThreadPool.step q LWaitForQueuesToBecomeEmpty = Some q1 ∧ c = length (calls q) ∧
              pool_moves q1 p
  | _ => waited p0 p f
  end.

Lemma fence_ok_mono n p0 p p' f : ThreadPool.reachable n p -> fence_ok p0 p f -> pool_moves p p' -> fence_ok p0 p' f.
Proof using Lp.
  intros Hr H Hm. unfold fence_ok in *.
  assert (Hw : waited p0 p f -> waited p0 p' f).
  { intros (k & H1 & H2 & H3 & H4). exists k. split_and!; try done; [|by eapply outlasted_mono].
    by apply (pool_moves_calls p p' k Hm). }
  destruct (fence_pc f); try done; try (by apply Hw).
  destruct H as (H0 & q & q1 & H1 & H2 & H3 & H4). split; [done|]. exists q, q1. split_and!; try done.
  by eapply pool_moves_trans.
Qed.

Lemma fence_ok_waited n p0 p f cur c : ThreadPool.reachable n p0 -> fence_pc f = FencePool cur c -> fence_ok p0 p f ->
  calls p !! c = Some WaitReturned -> waited p0 p f.
Proof using Lp.
  unfold fence_ok. intros Hr -> (H0 & q & q1 & H1 & H2 & -> & ls & H4) Hc. exists (length (calls q)).
  split_and!; [done|by apply (pool_moves_calls p0 q 0)|done|]. apply (outlasted_earlier n p0 q p _ Hr H1).
  pose proof (pool_reachable_inv n q (pool_moves_reachable n p0 q Hr H1)) as Hi. intros i w Hw.
  by destruct (wait_outlasts n q q1 ls p i w Hi H2 H4 Hc Hw) as (w' & l & Hw' & E & Hin); eauto.
Qed.

(** One step of a fence. *)
Lemma fence_step_frame (s s' : state) f o : fence_step s f o = Some s' ->
  ∃ c c', fences s !! f = Some c ∧ fences s' = <[f := c']> (fences s) ∧
    pool_moves (thread_pool_ s) (thread_pool_ s') ∧
    (∀ n p0, ThreadPool.reachable n p0 -> pool_moves p0 (thread_pool_ s) ->
       fence_ok p0 (thread_pool_ s) c -> fence_ok p0 (thread_pool_ s') c').
Proof using Lp.
  unfold fence_step. destruct (fences s !! f) as [c|] eqn:Hf; [|done]. cbn [mbind option_bind]. intros H. exists c.
  destruct (fence_pc c) as [|cur k [x|]|cur w|cur|cur| |] eqn:Hpc; try done.
  - injection H as <-. eexists. split_and!; [done|reflexivity|apply pool_moves_refl|done].
  - destruct (EpochFramework.stop_ _ || negb _); [|done]. destruct (EpochFramework.stop_ _ || _).
    + apply bind_Some in H as (s1 & H & [= <-]). eexists. split_and!; [done| | |].
      * cbn. rewrite (pool_step_fences _ _ _ H). reflexivity.
      * by apply pool_step_moves in H.
      * unfold pool_step in H. apply bind_Some in H as (p1 & H & [= <-]). intros n p0 Hr Hm _. cbn.
        split; [done|]. exists (thread_pool_ s), p1. split_and!; try done. apply pool_moves_refl.
    + injection H as <-. eexists. split_and!; [done|reflexivity|apply pool_moves_refl|done].
  - injection H as <-. eexists. split_and!; [done|reflexivity|apply pool_moves_refl|done].
  - unfold wait_returned in H. destruct (calls (thread_pool_ s) !! w) as [[]|] eqn:Hw; try done.
    apply bind_Some in H as (s1 & (E1 & E2)%callback_step_pool & [= <-]). cbn. rewrite E1, E2.
    eexists. split_and!; [done|reflexivity|apply pool_moves_refl|].
    intros n p0 Hr Hm Hok. exact (fence_ok_waited n p0 _ c cur w Hr Hpc Hok Hw).
  - destruct (outside_manager s (fence_thread c)).
    + injection H as <-. eexists. split_and!; [done|reflexivity|apply pool_moves_refl|].
      unfold fence_ok. by rewrite Hpc.
    + apply callback_step_pool in H as [-> ->]. exists c.
      split_and!; [done| |apply pool_moves_refl|done]. by rewrite list_insert_id.
  - destruct (cur <=? latest_callbacked_epoch_ s); [|done]. injection H as <-. eexists.
    split_and!; [done|reflexivity|apply pool_moves_refl|]. unfold fence_ok. by rewrite Hpc.
  - injection H as <-. eexists. split_and!; [done|reflexivity|apply pool_moves_refl|]. unfold fence_ok. by rewrite Hpc.
Qed.

(** The pool moves on and a fence keeps what it has waited for. *)
Lemma step_fence_ok n (s s' : state) l f c p0 : Database.step s l = Some s' -> fences s !! f = Some c ->
  ThreadPool.reachable n p0 -> pool_moves p0 (thread_pool_ s) -> fence_ok p0 (thread_pool_ s) c ->
  pool_moves p0 (thread_pool_ s') ∧ ∃ c', fences s' !! f = Some c' ∧ fence_ok p0 (thread_pool_ s') c'.
Proof using Lp.
  intros H Hf Hr Hm Hok. pose proof (pool_moves_reachable n p0 _ Hr Hm) as Hrs.
  destruct (fence_label l) as [(g & o & ->) | Hl].
  - destruct (fence_step_frame s s' g o H) as (d & p & Hd & E & Hm' & Hstep).
    split; [by eapply pool_moves_trans|]. rewrite E. destruct (decide (g = f)) as [-> |Hne].
    + eexists. rewrite list_lookup_insert_eq by eauto using lookup_lt_Some. split; [reflexivity|]. cbn.
      simplify_eq. by eapply Hstep.
    + exists c. rewrite list_lookup_insert_ne by done. split; [done|]. by eapply fence_ok_mono.
  - destruct (step_frame s s' l H) as [Hm' [k Hk]]; [done|].
    split; [by eapply pool_moves_trans|]. exists c. rewrite Hk. split; [by apply lookup_app_l_Some|].
    by eapply fence_ok_mono.
Qed.

Lemma run_fence_ok n (s s' : state) ls f c p0 : Database.run s ls = Some s' -> fences s !! f = Some c ->
  ThreadPool.reachable n p0 -> pool_moves p0 (thread_pool_ s) -> fence_ok p0 (thread_pool_ s) c ->
  ∃ c', fences s' !! f = Some c' ∧ fence_ok p0 (thread_pool_ s') c'.
Proof using Lp.
  revert s c. induction ls as [|l ls IH]; cbn [Database.run]; intros s c H Hf Hr Hm Hok; [injection H as <-; eauto|].
  destruct (Database.step s l) as [s1|] eqn:E; [|done]. cbn [mbind option_bind] in H.
  destruct (step_fence_ok n s s1 l f c p0 E Hf Hr Hm Hok) as (Hm1 & c1 & Hf1 & Hok1). by eapply IH.
Qed.

Lemma db_pool_reachable n m s : Database.reachable n m s -> ThreadPool.reachable n (thread_pool_ s).
Proof using Lp.
  intros (ls & H). assert (Hi : ThreadPool.reachable n (thread_pool_ (Database.init n m : state))) by (by exists []).
  revert H Hi. generalize (Database.init n m : state) as s0. induction ls as [|l ls IH]; cbn [Database.run].
  - by intros s0 [= <-].
  - intros s0 H Hi. destruct (Database.step s0 l) as [s1|] eqn:E; [|done]. apply (IH s1 H).
    apply (pool_moves_reachable n (thread_pool_ s0) _ Hi).
    destruct (fence_label l) as [(g & o & ->) | Hl].
    + by destruct (fence_step_frame s0 s1 g o E) as (_ & _ & _ & _ & Hm & _).
    + destruct (step_frame s0 s1 l E) as [Hm _]; [done|done].
Qed.

(** The jobs of the database among the functions a worker started. *)
Definition user_jobs (l : list (Job DbJob)) : list DbJob :=
  omap (fun j => match j with UserJob j => Some j | EndsJob _ => None end) l.

(** The job of the database a worker runs. *)
Definition running (w : Worker DbJob) : option DbJob :=
  match ThreadPool.pc w with Run (UserJob j) => Some j | _ => None end.

(** Where a worker is in the job it runs, and the transactions that ended. *)
Definition job_ok (r : option DbJob) (p : JobPc) (en : list (nat * bool)) : Prop :=
  match p with
  | NoJob => True
  | TxOnline t | TxProcedure t | TxEnqueue t _ => r = Some (TransactionJob t)
  | TxOffline t => r = Some (TransactionJob t) ∧ ∃ b, (t, b) ∈ en
  | CbExecute u | CbStore u => r = Some (CallbacksJob u)
  | JobDone => is_Some r ∧ ∀ t, r = Some (TransactionJob t) -> ∃ b, (t, b) ∈ en
  end.

(** A worker has finished the jobs it started but the one it runs, which is the
    last it started; its finished transactions have ended. *)
Definition worker_jobs_ok (w : Worker DbJob) (fi : list DbJob) (p : JobPc) (en : list (nat * bool)) : Prop :=
  user_jobs (started w) = fi ++ option_list (running w) ∧
  (∀ j, ThreadPool.pc w = Run j -> last (started w) = Some j) ∧
  (∀ t, TransactionJob t ∈ fi -> ∃ b, (t, b) ∈ en) ∧ job_ok (running w) p en.

Definition jobs_inv (s : state) : Prop :=
  ∀ i w, worker_threads_ (thread_pool_ s) !! i = Some w ->
    ∃ fi p, finished s !! i = Some fi ∧ jobs s !! i = Some p ∧ worker_jobs_ok w fi p (ended s).

Lemma worker_jobs_ok_ended w fi p en e : worker_jobs_ok w fi p en -> worker_jobs_ok w fi p (en ++ [e]).
Proof using.
  assert (Hw : ∀ t, (∃ b, (t, b) ∈ en) -> ∃ b, (t, b) ∈ en ++ [e])
    by (intros t [b Hb]; exists b; apply elem_of_app; by left).
  intros (H1 & H2 & H3 & H4). split_and!; try done; [auto|].
  destruct p; cbn in *; try done; naive_solver.
Qed.

(** Steps that leave jobs alone. *)
Lemma jobs_inv_frame (s s' : state) : jobs_inv s -> jobs s' = jobs s -> finished s' = finished s -> ended s' = ended s ->
  worker_threads_ (thread_pool_ s') = worker_threads_ (thread_pool_ s) -> jobs_inv s'.
Proof using. intros H E1 E2 E3 E4 i w. rewrite E1, E2, E3, E4. apply H. Qed.

Lemma pool_step_jobs (s s' : state) l : pool_step s l = Some s' ->
  jobs s' = jobs s ∧ finished s' = finished s ∧ ended s' = ended s.
Proof using. unfold pool_step. destruct (ThreadPool.step (thread_pool_ s) l); [|done]. by intros [= <-]. Qed.

Lemma callback_step_jobs (s s' : state) l : callback_step s l = Some s' ->
  jobs s' = jobs s ∧ finished s' = finished s ∧ ended s' = ended s ∧ thread_pool_ s' = thread_pool_ s.
Proof using.
  unfold callback_step. destruct (ThreadLocalCallbackManager.step (callback_manager_ s) l); [|done]. by intros [= <-].
Qed.

Lemma callback_step_jobs_inv (s s' : state) l : jobs_inv s -> callback_step s l = Some s' -> jobs_inv s'.
Proof using.
  intros H (E1 & E2 & E3 & E4)%callback_step_jobs. apply (jobs_inv_frame s s'); try done. by rewrite E4.
Qed.

Lemma pool_step_workers (s s' : state) l : pool_step s l = Some s' -> (∀ i o, l <> LWorker i o) ->
  worker_threads_ (thread_pool_ s') = worker_threads_ (thread_pool_ s).
Proof using.
  unfold pool_step. intros (p & H & [= <-])%bind_Some Hl. cbn [set_pool thread_pool_].
  revert H. generalize (thread_pool_ s) as q. intros q H.
  assert (Hp : ∀ o qi j b (q1 : ThreadPool.State DbJob Qp), ThreadPool.push q o qi j = Some (b, q1) ->
            worker_threads_ q1 = worker_threads_ q).
  { intros o qi j b q1. unfold ThreadPool.push. destruct (queue_at q qi); [|done]. cbn [mbind option_bind].
    destruct (enqueue o j _) as [b' q']. intros [= -> <-]. by destruct b, qi. }
  destruct l as [j|j| | | | | |d o r|m o]; cbn [ThreadPool.step] in H; try (by injection H as <-); [|by destruct (Hl m o)].
  unfold call_step in H. apply bind_Some in H as (call & _ & H).
  destruct call; try done; repeat (case_match || (apply bind_Some in H as (? & ? & H))); simplify_eq; cbn; eauto.
Qed.

Lemma pool_step_jobs_inv (s s' : state) l : jobs_inv s -> pool_step s l = Some s' -> (∀ i o, l <> LWorker i o) ->
  jobs_inv s'.
Proof using.
  intros H Hs Hl. pose proof (pool_step_workers s s' l Hs Hl). apply pool_step_jobs in Hs as (? & ? & ?).
  by apply (jobs_inv_frame s s').
Qed.

(** A worker that runs no job moves. *)
Lemma idle_worker_jobs (w w' : Worker DbJob) fi p en : worker_jobs_ok w fi p en -> running w = None ->
  (started w' = started w ∧ (∀ j, ThreadPool.pc w' <> Run j) ∨
   ∃ j, ThreadPool.pc w' = Run j ∧ started w' = started w ++ [j] ∧ ∀ j', ThreadPool.pc w <> Run j') ->
  worker_jobs_ok w' fi p en.
Proof using.
  intros (H1 & H2 & H3 & H4) Hr [[E Hn]|(j & E & E' & _)]; unfold worker_jobs_ok in *.
  - assert (Hr' : running w' = None).
    { unfold running. destruct (ThreadPool.pc w') as [| | | | |j| | | | |] eqn:Hp; try done. by destruct (Hn j). }
    rewrite E, Hr' in *. rewrite Hr in *. split_and!; try done. intros j Hj. by destruct (Hn j).
  - rewrite Hr in *. cbn [option_list] in H1. rewrite app_nil_r in H1. split_and!; try done.
    + rewrite E'. unfold user_jobs. rewrite omap_app. fold (user_jobs (started w)). rewrite H1. unfold running.
      rewrite E. by destruct j.
    + intros j' Hj. rewrite E' , last_snoc. congruence.
    + destruct p; cbn in *; try done; destruct H4 as [H4 _]; [done|by destruct H4].
Qed.

Lemma worker_step_jobs_inv (s s' : state) i o : jobs_inv s -> db_worker_step s i o = Some s' -> jobs_inv s'.
Proof using.
  intros H. unfold db_worker_step, running_job. unfold pool_step. cbn [ThreadPool.step].
  destruct (worker_threads_ (thread_pool_ s) !! i) as [w|] eqn:Hw.
  2:{ cbn. unfold worker_step. by rewrite Hw. }
  cbn [mbind option_bind]. change (match ThreadPool.pc w with Run (UserJob j) => Some j | _ => None end) with (running w).
  destruct (H i w Hw) as (fi & p & Hf & Hp & Hok).
  assert (Hlen : (i < length (worker_threads_ (thread_pool_ s)))%nat) by (by eapply lookup_lt_Some).
  destruct (running w) as [j|] eqn:Hr.
  - rewrite Hp. cbn [mbind option_bind]. destruct p; try done. intros (s1 & (q & Hq & [= <-])%bind_Some & [= <-])%bind_Some.
    destruct (worker_step_jobs (thread_pool_ s) i o q w Hw Hq) as (w' & E & Hj).
    destruct Hj as [[Es Hn]|(j' & _ & _ & Hn)]; [|unfold running in Hr; destruct (ThreadPool.pc w); naive_solver].
    intros k v. cbn. rewrite E. destruct (decide (k = i)) as [-> |Hne].
    + rewrite list_lookup_insert_eq by done. intros [= <-]. exists (fi ++ [j]), NoJob.
      rewrite list_lookup_alter_eq, Hf. split_and!; [done|apply list_lookup_insert_eq; by eapply lookup_lt_Some|].
      destruct Hok as (H1 & H2 & H3 & H4). rewrite Hr in *. split_and!; cbn; try done.
      * rewrite Es, H1. unfold running. destruct (ThreadPool.pc w') as [| | | | |j'| | | | |] eqn:Hp'; try (by rewrite app_nil_r).
        by destruct (Hn j').
      * intros j' Hj'. by destruct (Hn j').
      * intros t [Ht|Ht%list_elem_of_singleton]%elem_of_app; [by apply H3|]. apply H4. by f_equal.
    + rewrite !list_lookup_insert_ne, list_lookup_alter_ne by done. apply H.
  - intros (q & Hq & [= <-])%bind_Some.
    destruct (worker_step_jobs (thread_pool_ s) i o q w Hw Hq) as (w' & E & Hj).
    intros k v. cbn. rewrite E. destruct (decide (k = i)) as [-> |Hne].
    + rewrite list_lookup_insert_eq by done. intros [= <-]. exists fi, p. split_and!; try done.
      by apply (idle_worker_jobs w).
    + rewrite list_lookup_insert_ne by done. apply H.
Qed.

Lemma set_job_inv (s : state) i p' : jobs_inv s ->
  (∀ w p, worker_threads_ (thread_pool_ s) !! i = Some w -> jobs s !! i = Some p ->
     job_ok (running w) p (ended s) -> job_ok (running w) p' (ended s)) -> jobs_inv (set_job s i p').
Proof using.
  intros H Hi k w Hw. destruct (H k w Hw) as (fi & p & Hf & Hp & Hok). cbn.
  destruct (decide (k = i)) as [-> |Hne].
  - exists fi, p'. split_and!; [done|apply list_lookup_insert_eq; by eapply lookup_lt_Some|].
    destruct Hok as (H1 & H2 & H3 & H4). split_and!; try done. by apply (Hi w p).
  - exists fi, p. by rewrite list_lookup_insert_ne by done.
Qed.

Lemma add_ended_inv (s : state) t b : jobs_inv s -> jobs_inv (add_ended s t b).
Proof using.
  intros H k w Hw. destruct (H k w Hw) as (fi & p & Hf & Hp & Hok). exists fi, p.
  split_and!; try done. by apply worker_jobs_ok_ended.
Qed.

Lemma job_step_jobs_inv (s s' : state) i o b : jobs_inv s -> job_step s i o b = Some s' -> jobs_inv s'.
Proof using.
  intros Hi. unfold job_step. intros (j & Hj & (p & Hp & H)%bind_Some)%bind_Some.
  assert (Hrun : ∀ w, worker_threads_ (thread_pool_ s) !! i = Some w -> running w = Some j).
  { intros w Hw. unfold running_job in Hj. by rewrite Hw in Hj. }
  destruct p as [|t|t|t e|t|u|u|]; try done.
  - destruct j as [t|u].
    + injection H as <-. apply set_job_inv; [done|]. intros w p Hw _ _. by apply Hrun.
    + apply bind_Some in H as (s1 & H1 & [= <-]). pose proof (callback_step_jobs_inv _ _ _ Hi H1) as Hi1.
      apply callback_step_jobs in H1 as (_ & _ & _ & E). apply set_job_inv; [done|]. rewrite E. intros w p Hw _ _. by apply Hrun.
  - unfold make_me_online in H. apply bind_Some in H as (q & _ & [= <-]).
    destruct q; try (by apply (jobs_inv_frame s)). apply set_job_inv; [done|]. intros w p _ Hp' Hok. by simplify_eq.
  - destruct b; injection H as <-; (apply set_job_inv; [try apply add_ended_inv; done|]); cbn [add_ended jobs thread_pool_];
      intros w p _ Hp' Hok; simplify_eq; cbn in *; [done|]. split; [done|]. exists false. apply elem_of_app. right. by left.
  - apply bind_Some in H as (s1 & H1 & [= <-]). pose proof (callback_step_jobs_inv _ _ _ Hi H1) as Hi1.
    apply callback_step_jobs in H1 as (E1 & _ & _ & E4). apply set_job_inv; [by apply add_ended_inv|].
    cbn [add_ended jobs thread_pool_]. rewrite E1. intros w p _ Hp' Hok. simplify_eq. cbn in *.
    split; [done|]. exists true. apply elem_of_app. right. by left.
  - injection H as <-. apply set_job_inv; [by apply (jobs_inv_frame s)|]. cbn [MakeMeOffline set_epochs jobs ended].
    intros w p _ Hp' Hok. simplify_eq. destruct Hok as [-> Hb]. split; [done|]. intros t' [= <-]. done.
  - destruct (outside_manager s i); [|by eapply callback_step_jobs_inv]. injection H as <-. apply set_job_inv; [done|].
    intros w p _ Hp' Hok. by simplify_eq.
  - injection H as <-. apply set_job_inv; [by apply (jobs_inv_frame s)|]. cbn [set_latest jobs ended].
    intros w p _ Hp' Hok. simplify_eq. cbn in Hok. rewrite Hok. split; [done|]. by intros t' [=].
Qed.

Lemma fence_step_jobs_inv (s s' : state) f o : jobs_inv s -> fence_step s f o = Some s' -> jobs_inv s'.
Proof using.
  intros Hi. unfold fence_step. intros (c & _ & H)%bind_Some.
  assert (Hs : ∀ (s1 : state) d q, jobs_inv s1 -> jobs_inv (set_fence s1 f d q)) by (intros s1 d q Hs1; by apply (jobs_inv_frame s1)).
  destruct (fence_pc c) as [|cur k [x|]|cur w|cur|cur| |]; try done; try (by injection H as <-; apply Hs).
  - destruct (EpochFramework.stop_ _ || negb _); [|done].
    destruct (EpochFramework.stop_ _ || _); [|injection H as <-; by apply Hs].
    apply bind_Some in H as (s1 & H & [= <-]). apply Hs. by eapply pool_step_jobs_inv.
  - destruct (wait_returned s w); [|done]. apply bind_Some in H as (s1 & H & [= <-]). apply Hs.
    by eapply callback_step_jobs_inv.
  - destruct (outside_manager s (fence_thread c)); [injection H as <-; by apply Hs|]. by eapply callback_step_jobs_inv.
  - destruct (cur <=? latest_callbacked_epoch_ s); [|done]. injection H as <-. by apply Hs.
Qed.

Lemma writer_step_jobs_inv (s s' : state) : jobs_inv s -> writer_step s = Some s' -> jobs_inv s'.
Proof using.
  intros Hi. unfold writer_step.
  assert (He : ∀ e, jobs_inv (set_epochs s e)) by (intros e; by apply (jobs_inv_frame s)).
  destruct (publishing s) as [c|].
  - destruct (call_returned s c); [|done]. intros [= <-]. by apply (jobs_inv_frame s).
  - destruct (EpochFramework.writer (epoch_framework_ s)); try done; intros [= <-]; by apply He.
Qed.

Lemma step_jobs_inv (s s' : state) l : jobs_inv s -> Database.step s l = Some s' -> jobs_inv s'.
Proof using.
  intros Hi H. destruct l as [t|c o r|i o|i o b| |i t e|i o|i|i|f o]; cbn [Database.step] in H;
    try (destruct (is_client s i); [|done]); try (by eapply callback_step_jobs_inv); try (by eapply pool_step_jobs_inv).
  - by eapply worker_step_jobs_inv.
  - by eapply job_step_jobs_inv.
  - by eapply writer_step_jobs_inv.
  - injection H as <-. by apply (jobs_inv_frame s).
  - by eapply fence_step_jobs_inv.
Qed.

Lemma run_jobs_inv (s s' : state) ls : jobs_inv s -> Database.run s ls = Some s' -> jobs_inv s'.
Proof using.
  revert s. induction ls as [|l ls IH]; cbn [Database.run]; intros s Hi H; [by injection H as <-|].
  destruct (Database.step s l) as [s1|] eqn:E; [|done]. apply (IH s1); [by eapply step_jobs_inv|done].
Qed.

Lemma init_jobs_inv n m : jobs_inv (Database.init n m : state).
Proof using.
  intros i w Hw. cbn in Hw. apply lookup_replicate in Hw as [-> Hi]. exists [], NoJob. cbn.
  rewrite !lookup_replicate_2 by done. unfold worker_jobs_ok. split_and!; try done. by intros t Ht%not_elem_of_nil.
Qed.

(** A worker that has started another function has finished the jobs before. *)
Lemma later_start_finishes w fi p en l1 l2 c : worker_jobs_ok w fi p en -> started w = l1 ++ l2 -> EndsJob c ∈ l2 ->
  user_jobs l1 `prefix_of` fi.
Proof using.
  intros (H1 & H2 & _) E Hc. rewrite E in *. unfold user_jobs in H1. rewrite omap_app in H1.
  fold (user_jobs l1) (user_jobs l2) in H1. unfold running in H1.
  destruct (ThreadPool.pc w) as [| | | | |[j|k]| | | | |] eqn:Hp; cbn [option_list] in H1;
    try (rewrite app_nil_r in H1; subst fi; by apply prefix_app_r).
  specialize (H2 _ eq_refl). destruct l2 as [|x l2 _] using rev_ind; [by apply not_elem_of_nil in Hc|].
  rewrite app_assoc, last_snoc in H2. injection H2 as ->.
  unfold user_jobs in H1 at 2. rewrite omap_app, app_assoc in H1. apply app_inj_2 in H1 as [<- _]; [|done].
  by apply prefix_app_r.
Qed.

(** C23. When Fence returns, its own call of WaitForQueuesToBecomeEmpty (made
    after the fence was called) has returned; every worker has started the
    function of that very call since the fence was called, and has come to the
    end of every transaction and every round of callbacks it had started
    before: the jobs it had started are the first of the jobs it has finished,
    and each such transaction has committed or aborted. In every interleaving
    of clients, workers, the epoch writer and other fences. *)
Theorem Fence_outlasts_started_jobs n m s i s1 ls s2 c j w :
  Database.reachable n m s -> Database.step s (DFence i) = Some s1 -> Database.run s1 ls = Some s2 ->
  fences s2 !! length (fences s) = Some c -> fence_pc c = FenceDone ->
  worker_threads_ (thread_pool_ s) !! j = Some w ->
  ∃ k w' l fi,
    fence_wait c = Some k ∧ (length (calls (thread_pool_ s)) <= k)%nat ∧
    calls (thread_pool_ s2) !! k = Some WaitReturned ∧
    worker_threads_ (thread_pool_ s2) !! j = Some w' ∧ started w' = started w ++ l ∧ EndsJob k ∈ l ∧
    finished s2 !! j = Some fi ∧ user_jobs (started w) `prefix_of` fi ∧
    (∀ t, UserJob (TransactionJob t) ∈ started w -> ∃ b, (t, b) ∈ ended s2).
Proof using Lp.
  intros Hr H Hrun Hf Hpc Hw. pose proof Hr as (ls0 & Hr0).
  assert (Hi : jobs_inv s2).
  { apply (run_jobs_inv s1 s2 ls); [|done]. apply (step_jobs_inv s s1 (DFence i)); [|done].
    by apply (run_jobs_inv _ s ls0 (init_jobs_inv n m)). }
  cbn in H. destruct (is_client s i); [|done]. injection H as <-.
  destruct (run_fence_ok n _ s2 ls (length (fences s)) (mkFence i None FenceEpoch) (thread_pool_ s) Hrun)
    as (c' & Hc' & Hok); [cbn; by apply list_lookup_middle|by eapply db_pool_reachable|apply pool_moves_refl|done|].
  simplify_eq. unfold fence_ok in Hok. rewrite Hpc in Hok. destruct Hok as (k & H1 & H2 & H3 & H4).
  destruct (H4 j w Hw) as (w' & l & Hw' & E & Hin). destruct (Hi j w' Hw') as (fi & p & Hfi & _ & Hj).
  pose proof (later_start_finishes w' fi p _ _ _ k Hj E Hin) as Hp. exists k, w', l, fi. split_and!; try done.
  intros t Ht. destruct Hj as (_ & _ & H5 & _). apply H5. apply (elem_of_prefix (user_jobs (started w))); [|done].
  apply list_elem_of_omap. by exists (UserJob (TransactionJob t)).
Qed.

End fences.

(** ** Executions *)

Module Demo.

Abbreviation database := (Database.State (list (Job DbJob)) (list (Entry nat))).

(** The database after a sequence of labels: two workers and one thread of the
    client. *)
Definition after (ls : list Database.Label) : database := default (Database.init 2 1) (Database.run (Database.init 2 1) ls).

(** Transaction 7 is submitted to the second queue, which will be the one of
    worker 0: worker 1 is the first to ask for its number. *)
Definition submit : list Database.Label := [DExecuteTransaction 7; DCall 0 0 1].

(** The epoch advances, and call [c] sends the callback jobs. *)
Definition advance (c : nat) : list Database.Label :=
  replicate 6 DWriter ++ replicate 3 (DCall c 0 0) ++ [DWriter].

(** Worker [i] takes a round of callbacks from its own queue and finishes it. *)
Definition callbacks (i : nat) : list Database.Label :=
  replicate 4 (DWorker i 0) ++ replicate 4 (DJob i 0 true) ++ replicate 2 (DWorker i 0).

(** The fence outlasts two epochs and sends its functions; worker 1 runs its
    callbacks and its function, steals the transaction and starts it. *)
Definition fence_waits : list Database.Label :=
  replicate 2 (DFenceStep 0 0) ++ advance 1 ++ replicate 2 (DFenceStep 0 0) ++ advance 2 ++
  [DFenceStep 0 0] ++ replicate 3 (DCall 3 0 0) ++
  callbacks 1 ++ callbacks 1 ++ replicate 12 (DWorker 1 0) ++ replicate 5 (DJob 1 0 true).

(** Worker 0 finds its queue empty and runs its callbacks and its function; the
    fence returns. *)
Definition fence_returns : list Database.Label :=
  callbacks 0 ++ callbacks 0 ++ replicate 5 (DWorker 0 0) ++ [DCall 3 0 0] ++ replicate 9 (DFenceStep 0 0).

(** C39. Fence does not wait for a transaction that was submitted before it:
    in some interleaving the transaction waits in a queue while the epochs
    pass, is stolen by a worker that has already run the function of the wait,
    and still runs when the fence returns. *)
Theorem Fence_misses_submitted_transaction :
  ∃ (s s1 s2 : database) ls,
    Database.reachable 2 1 s ∧ UserJob (TransactionJob 7) ∈ accepted (thread_pool_ s) ∧
    Database.step s (DFence 2) = Some s1 ∧ Database.run s1 ls = Some s2 ∧
    fences s2 !! length (fences s) = Some (mkFence 2 (Some 3%nat) FenceDone) ∧ jobs s2 !! 1%nat = Some (TxProcedure 7).
Proof.
  exists (after submit), (after (submit ++ [DFence 2])), (after (submit ++ [DFence 2] ++ fence_waits ++ fence_returns)),
    (fence_waits ++ fence_returns).
  split_and!; [exists submit| |..]; try (vm_compute; reflexivity). vm_compute. left.
Qed.

(** Transaction 7 is in the queue of worker 0, which has started it. *)
Definition starts : list Database.Label := [DExecuteTransaction 7; DCall 0 0 0] ++ replicate 4 (DWorker 0 0).

(** The fence is called; worker 0 ends the transaction, two epochs pass, both
    workers run their callbacks and the function of the fence, which returns. *)
Definition fence_outlasts : list Database.Label :=
  replicate 7 (DJob 0 0 false) ++ replicate 2 (DWorker 0 0) ++
  replicate 2 (DFenceStep 0 0) ++ advance 1 ++ replicate 2 (DFenceStep 0 0) ++ advance 2 ++
  [DFenceStep 0 0] ++ replicate 3 (DCall 3 0 0) ++
  callbacks 0 ++ callbacks 0 ++ replicate 5 (DWorker 0 0) ++ callbacks 1 ++ callbacks 1 ++ replicate 5 (DWorker 1 0) ++
  [DCall 3 0 0] ++ replicate 9 (DFenceStep 0 0).

Lemma Fence_outlasts_started_jobs_witness :
  ∃ k w' l fi,
    Some 3%nat = Some k ∧ (1 <= k)%nat ∧
    calls (thread_pool_ (after (starts ++ [DFence 2] ++ fence_outlasts))) !! k = Some WaitReturned ∧
    worker_threads_ (thread_pool_ (after (starts ++ [DFence 2] ++ fence_outlasts))) !! 0%nat = Some w' ∧
    started w' = [UserJob (TransactionJob 7)] ++ l ∧ EndsJob k ∈ l ∧
    finished (after (starts ++ [DFence 2] ++ fence_outlasts)) !! 0%nat = Some fi ∧
    [TransactionJob 7] `prefix_of` fi ∧
    (∀ t, UserJob (TransactionJob t) ∈ [UserJob (TransactionJob 7)] ->
       ∃ b, (t, b) ∈ ended (after (starts ++ [DFence 2] ++ fence_outlasts))).
Proof.
  apply (Fence_outlasts_started_jobs 2 1 (after starts) 2 (after (starts ++ [DFence 2])) fence_outlasts
           (after (starts ++ [DFence 2] ++ fence_outlasts)) (mkFence 2 (Some 3%nat) FenceDone) 0
           (mkWorker (Run (UserJob (TransactionJob 7))) (Some 0%nat) [UserJob (TransactionJob 7)]));
    [exists starts|..]; vm_compute; reflexivity.
Defined.

End Demo.
