(* ===== verification/HashIndex.v ===== *)
(** * The index of a point and a range part
    (src/src/index/precision_locking_index/index.hpp,
    src/src/index/impl/pl_index.hpp)

    [HashTableWithPrecisionLockingIndex] keeps every key twice: in the hash
    table, which finds the item of a key, and in the range index, which orders
    the keys.  The hash table is a map whose calls are atomic, as
    PointIndex.v proves of the code; the calls of the range index are those of
    RangeIndex.v, which hold its locks; the epochs are those of Epoch.v.

    Every call of a part is one step, so that the calls of the index
    interleave between their parts, with the round of the manager thread, with
    the epoch writer and with transactions that initialize or delete the items
    they have found.  A thread calls the index while it is online.  The
    shutdown of the epoch framework is not among the steps.

    The theorems show that a scan that looks up the item of every key it
    visits finds one, although [Put] files a key in the range index first; that
    the item of a key never changes; and what [Insert] does in every state of
    an entry.  The state that [Insert] asserts away is an ordinary one: every
    [Insert] of a key whose first transaction has committed since the last
    round of the manager runs into it. *)

From S2P Require Import Prelude StdMap Epoch RangeIndex.

Module HashTableWithPrecisionLockingIndex.

(** [EntryState]. *)
Inductive EntryState : Type := EXISTS | NOT_EXISTS | DELETED | INCONSISTENT.

(** The decision of [GetEntryState]. *)
Definition entry_state (in_range in_point initialized : bool) : EntryState :=
  let deleted := in_point && negb initialized in
  if in_range && in_point && negb deleted then EXISTS
  else if negb in_range && negb in_point then NOT_EXISTS
  else if deleted then DELETED
  else INCONSISTENT.

(** A call of the index.  [cancel] is what the callback of a scan returns. *)
Inductive Call : Type :=
| CInsert (k : bytestring)
| CPut (k : bytestring) (initialized : bool)
| CForcePutBlankEntry (k : bytestring)
| CEnsureVisibleForSecondaryWrite (k : bytestring)
| CDelete (k : bytestring)
| CScan (reverse_ : bool) (begin : bytestring) (end_ : option bytestring) (cancel : bytestring -> bool).

Inductive Result : Type := RBool (b : bool) | RScan (hit : option Z).

(** Where a thread is in a call; [p] is the item that [Get] returned and
    [r] what [Contains] did. *)
Inductive Pc : Type :=
| Out
| InsertGet (k : bytestring)
| InsertContains (k : bytestring) (p : option nat)
| InsertState (k : bytestring) (p : option nat) (r : bool)
| InsertPut (k : bytestring)
| InsertRange (k : bytestring)
| PutRange (k : bytestring) (initialized : bool)
| PutPoint (k : bytestring) (initialized : bool)
| ForcePoint (k : bytestring)
| ForceRange (k : bytestring)
| EnsureGet (k : bytestring)
| EnsureContains (k : bytestring) (p : option nat)
| EnsurePut (k : bytestring) (r : bool)
| EnsureGetAgain (k : bytestring) (r : bool)
| EnsureInitialized (k : bytestring) (p : nat) (r : bool)
| EnsureRange (k : bytestring)
| DeleteRange (k : bytestring)
| ScanRange (reverse_ : bool) (begin : bytestring) (end_ : option bytestring) (cancel : bytestring -> bool)
| Return_ (res : Result)
| AssertFailed
| NullDereference.

(** A thread and its transaction context. *)
Record Thread := mkThread { pc : Pc; context : option Z }.

(** The manager thread of the range index: in [Sync], before it reads the
    global epoch, and before its round. *)
Inductive ManagerPc : Type :=
| ManagerSync (reload_count : nat) (waiting : option Z)
| ManagerLoad
| ManagerRound (global : Z).

(** The index, with the items that exist by number and whether they are
    initialized. *)
Record State := mkIndex {
  epochs : EpochFramework.State;
  point_index_ : gmap bytestring nat;
  initialized_ : list bool;
  range_index_ : PrecisionLockingIndex.State;
  threads : list Thread;
  manager : ManagerPc;
}.

Inductive Label : Type :=
| LMakeMeOnline (i : nat)
| LMakeMeOffline (i : nat)
| LEpochWriter
| LManager
| LSetInitialized (p : nat) (b : bool)
| LCall (i : nat) (tx : option Z) (c : Call)
| LThread (i : nat).

Definition init (n : nat) : State :=
  mkIndex (EpochFramework.init n) ∅ [] PrecisionLockingIndex.init (replicate n (mkThread Out None)) (ManagerSync 0 None).

Definition set_epochs (s : State) (e : EpochFramework.State) : State :=
  mkIndex e (point_index_ s) (initialized_ s) (range_index_ s) (threads s) (manager s).
Definition set_range (s : State) (r : PrecisionLockingIndex.State) : State :=
  mkIndex (epochs s) (point_index_ s) (initialized_ s) r (threads s) (manager s).
Definition set_manager (s : State) (m : ManagerPc) : State :=
  mkIndex (epochs s) (point_index_ s) (initialized_ s) (range_index_ s) (threads s) m.
Definition set_initialized (s : State) (l : list bool) : State :=
  mkIndex (epochs s) (point_index_ s) l (range_index_ s) (threads s) (manager s).
Definition set_pc (s : State) (i : nat) (t : Thread) (p : Pc) : State :=
  mkIndex (epochs s) (point_index_ s) (initialized_ s) (range_index_ s) (<[i := mkThread p (context t)]> (threads s))
    (manager s).

(** [point_index_.Put(key, new T(...))]: the item is freed again where the key
    is present. *)
Definition point_put (s : State) (k : bytestring) (initialized : bool) : bool * State :=
  match point_index_ s !! k with
  | Some _ => (false, s)
  | None =>
      (true, mkIndex (epochs s) (<[k := length (initialized_ s)]> (point_index_ s)) (initialized_ s ++ [initialized])
               (range_index_ s) (threads s) (manager s))
  end.

Definition start (c : Call) : Pc :=
  match c with
  | CInsert k => InsertGet k
  | CPut k b => PutRange k b
  | CForcePutBlankEntry k => ForcePoint k
  | CEnsureVisibleForSecondaryWrite k => EnsureGet k
  | CDelete k => DeleteRange k
  | CScan v b e f => ScanRange v b e f
  end.

(** The callback of a scan with values: [Get] and the use of what it
    returned, [None] where that was null. *)
Definition visit (point : gmap bytestring nat) (cancel : bytestring -> bool) (st : option (list nat)) (k : bytestring)
    : option (list nat) * bool :=
  match st, point !! k with
  | Some l, Some p => (Some (l ++ [p]), cancel k)
  | _, _ => (None, true)
  end.

(** [is_initialized] of an item. *)
Definition is_initialized (s : State) (p : option nat) : bool :=
  match p with Some p => default false (initialized_ s !! p) | None => false end.

(** One step of thread [i], online in epoch [e]. *)
Definition thread_step (s : State) (i : nat) (t : Thread) (e : Z) : option State :=
  let ret b := set_pc s i t (Return_ (RBool b)) in
  let range_insert k := let '(b, r) := PrecisionLockingIndex.Insert (context t) e k (range_index_ s) in
                        set_pc (set_range s r) i t (Return_ (RBool b)) in
  match pc t with
  | Out | Return_ _ | AssertFailed | NullDereference => None
  | InsertGet k => Some (set_pc s i t (InsertContains k (point_index_ s !! k)))
  | InsertContains k p => Some (set_pc s i t (InsertState k p (PrecisionLockingIndex.Contains k (range_index_ s))))
  | InsertState k p r =>
      Some (match entry_state r (match p with Some _ => true | None => false end) (is_initialized s p) with
            | EXISTS => ret false
            | NOT_EXISTS => set_pc s i t (InsertPut k)
            | DELETED => set_pc s i t (InsertRange k)
            | INCONSISTENT => set_pc s i t AssertFailed
            end)
  | InsertPut k =>
      let '(b, s') := point_put s k false in
      Some (set_pc s' i t (if (b : bool) then InsertRange k else Return_ (RBool false)))
  | InsertRange k => Some (range_insert k)
  | PutRange k b =>
      let '(ok, r) := PrecisionLockingIndex.Insert (context t) e k (range_index_ s) in
      Some (set_pc (set_range s r) i t (if (ok : bool) then PutPoint k b else Return_ (RBool false)))
  | PutPoint k b => let '(_, s') := point_put s k b in Some (set_pc s' i t (Return_ (RBool true)))
  | ForcePoint k => let '(_, s') := point_put s k false in Some (set_pc s' i t (ForceRange k))
  | ForceRange k =>
      Some (set_pc (set_range s (PrecisionLockingIndex.ForceInsert (context t) e k (range_index_ s))) i t
              (Return_ (RBool true)))
  | EnsureGet k => Some (set_pc s i t (EnsureContains k (point_index_ s !! k)))
  | EnsureContains k p =>
      let r := PrecisionLockingIndex.Contains k (range_index_ s) in
      Some (set_pc s i t (match p with Some q => EnsureInitialized k q r | None => EnsurePut k r end))
  | EnsurePut k r =>
      let '(b, s') := point_put s k false in
      Some (set_pc s' i t (if (b : bool) then if r then Return_ (RBool true) else EnsureRange k else EnsureGetAgain k r))
  | EnsureGetAgain k r =>
      Some (set_pc s i t (match point_index_ s !! k with
                          | None => Return_ (RBool false)
                          | Some _ => if (r : bool) then Return_ (RBool true) else EnsureRange k
                          end))
  | EnsureInitialized k p r =>
      Some (set_pc s i t (if negb (is_initialized s (Some p)) then EnsureRange k
                          else if negb r then EnsureRange k else Return_ (RBool true)))
  | EnsureRange k => Some (range_insert k)
  | DeleteRange k =>
      let '(b, r) := PrecisionLockingIndex.Delete (context t) e k (range_index_ s) in
      Some (set_pc (set_range s r) i t (Return_ (RBool b)))
  | ScanRange v b e' f =>
      let scan := if v then PrecisionLockingIndex.ScanReverse else PrecisionLockingIndex.Scan in
      let '(hit, st, r) := scan (context t) e b e' (visit (point_index_ s) f) (Some []) (range_index_ s) in
      Some (set_pc (set_range s r) i t (match st with Some _ => Return_ (RScan hit) | None => NullDereference end))
  end.

(** [GetEntryState], where no other thread moves. *)
Definition GetEntryState (s : State) (k : bytestring) : EntryState :=
  entry_state (PrecisionLockingIndex.Contains k (range_index_ s))
    (match point_index_ s !! k with Some _ => true | None => false end) (is_initialized s (point_index_ s !! k)).

(** One access of the manager thread. *)
Definition manager_step (s : State) : option State :=
  let g := EpochFramework.global_epoch_ (epochs s) in
  match manager s with
  | ManagerSync n None => Some (set_manager s (ManagerSync n (Some g)))
  | ManagerSync n (Some current) =>
      if g =? current then None
      else Some (set_manager s (if (S n =? 2)%nat then ManagerLoad else ManagerSync (S n) None))
  | ManagerLoad => Some (set_manager s (ManagerRound g))
  | ManagerRound global =>
      Some (set_manager (set_range s (PrecisionLockingIndex.Manage global (range_index_ s))) (ManagerSync 0 None))
  end.

(** One access of [MakeMeOnline]. *)
Definition online_step (e : EpochFramework.State) (i : nat) : option EpochFramework.State :=
  p ← EpochFramework.pcs e !! i;
  match p with
  | EpochFramework.Offline =>
      Some (EpochFramework.set_thread e i (EpochFramework.slot_at e i)
              (EpochFramework.Storing (EpochFramework.global_epoch_ e)))
  | EpochFramework.Storing x => Some (EpochFramework.set_thread e i x (EpochFramework.Reloading x))
  | EpochFramework.Reloading x =>
      Some (EpochFramework.set_thread e i (EpochFramework.slot_at e i)
              (EpochFramework.Reload x (EpochFramework.global_epoch_ e)))
  | EpochFramework.Online _ => None
  end.

(** The epoch a thread is online in, [GetMyThreadLocalEpoch]. *)
Definition online_epoch (s : State) (i : nat) : option Z :=
  p ← EpochFramework.pcs (epochs s) !! i;
  match p with EpochFramework.Online e => Some e | _ => None end.

(** A thread between two calls. *)
Definition between_calls (p : Pc) : bool := match p with Out | Return_ _ => true | _ => false end.

Definition step (s : State) (l : Label) : option State :=
  match l with
  | LMakeMeOnline i => e ← online_step (epochs s) i; Some (set_epochs s e)
  | LMakeMeOffline i =>
      t ← threads s !! i; _ ← online_epoch s i;
      if between_calls (pc t) then
        Some (set_epochs s (EpochFramework.set_thread (epochs s) i EpochFramework.THREAD_OFFLINE EpochFramework.Offline))
      else None
  | LEpochWriter =>
      match EpochFramework.writer (epochs s) with
      | EpochFramework.Aborted => None
      | _ => Some (set_epochs s (EpochFramework.writer_step (epochs s)))
      end
  | LManager => manager_step s
  | LSetInitialized p b => _ ← initialized_ s !! p; Some (set_initialized s (<[p := b]> (initialized_ s)))
  | LCall i tx c =>
      t ← threads s !! i; _ ← online_epoch s i;
      if between_calls (pc t) then
        Some (mkIndex (epochs s) (point_index_ s) (initialized_ s) (range_index_ s)
                (<[i := mkThread (start c) tx]> (threads s)) (manager s))
      else None
  | LThread i => t ← threads s !! i; e ← online_epoch s i; thread_step s i t e
  end.

Fixpoint run (s : State) (ls : list Label) : option State :=
  match ls with
  | [] => Some s
  | l :: ls' => s' ← step s l; run s' ls'
  end.

Definition reachable (n : nat) (s : State) : Prop := ∃ ls, run (init n) ls = Some s.

End HashTableWithPrecisionLockingIndex.

Import HashTableWithPrecisionLockingIndex.

(** ** The invariant *)

(** A key filed for insertion has an item, or the thread that filed it is about
    to make one and still online in the epoch it filed it under. *)
Definition event_ok (s : State) (ep : Z) (ev : PrecisionLockingIndex.InsertOrDeleteEvent) : Prop :=
  PrecisionLockingIndex.is_delete_event ev = false ->
  is_Some (point_index_ s !! PrecisionLockingIndex.key ev) ∨
  ∃ i t b, threads s !! i = Some t ∧ pc t = PutPoint (PrecisionLockingIndex.key ev) b ∧ online_epoch s i = Some ep.

Definition pc_ok (point : gmap bytestring nat) (p : Pc) : Prop :=
  match p with
  | InsertContains k q | InsertState k q _ | EnsureContains k q => ∀ x, q = Some x -> point !! k = Some x
  | EnsureInitialized k q _ => point !! k = Some q
  | InsertRange k | ForceRange k | EnsureRange k => is_Some (point !! k)
  | NullDereference => False
  | _ => True
  end.

Definition thread_ok (s : State) (i : nat) (t : Thread) : Prop :=
  pc_ok (point_index_ s) (pc t) ∧ (between_calls (pc t) = false -> is_Some (online_epoch s i)).

Definition manager_ok (g : Z) (m : ManagerPc) : Prop :=
  match m with
  | ManagerSync n None => (n < 2)%nat ∧ Z.of_nat n + 1 <= g
  | ManagerSync n (Some c) => (n < 2)%nat ∧ Z.of_nat n + 1 <= c <= g
  | ManagerLoad => 3 <= g
  | ManagerRound x => 3 <= x <= g
  end.

(** Every item belongs to one key. *)
Definition items_ok (s : State) : Prop :=
  (∀ k p, point_index_ s !! k = Some p -> (p < length (initialized_ s))%nat) ∧
  (∀ k k' p, point_index_ s !! k = Some p -> point_index_ s !! k' = Some p -> k = k').

Definition inv (s : State) : Prop :=
  epoch_inv (epochs s) ∧ RangeIndex.wf (range_index_ s) ∧
  (∀ ep ev, (ep, ev) ∈ RangeIndex.pending (range_index_ s) -> event_ok s ep ev) ∧
  (∀ k, StdMap.find str_ltb k (PrecisionLockingIndex.container_ (range_index_ s)) = Some false ->
     is_Some (point_index_ s !! k)) ∧
  (∀ i t, threads s !! i = Some t -> thread_ok s i t) ∧
  manager_ok (EpochFramework.global_epoch_ (epochs s)) (manager s) ∧ items_ok s.

Lemma hash_pc_ok_mono (m m' : gmap bytestring nat) p : m ⊆ m' -> pc_ok m p -> pc_ok m' p.
Proof.
  intros Hm. destruct p; cbn; try done; try (intros [x Hx]; exists x); eauto using lookup_weaken.
Qed.

Lemma manager_ok_mono g g' m : g <= g' -> manager_ok g m -> manager_ok g' m.
Proof. intros Hg. destruct m as [n [c|]| |x]; cbn; lia. Qed.

(** *** Epoch steps *)

(** A step of the epoch framework that leaves the online threads inside a call
    online. *)
Lemma set_epochs_inv s e : inv s -> EpochFramework.step (epochs s) e ->
  (∀ i t x, threads s !! i = Some t -> between_calls (pc t) = false -> online_epoch s i = Some x ->
     online_epoch (set_epochs s e) i = Some x) ->
  inv (set_epochs s e).
Proof.
  intros (He & Hw & Hev & Hc & Ht & Hm & Hi) Hs Hon. split_and!; try done.
  - by apply (epoch_step_inv (epochs s)).
  - intros ep ev Hin Hd. destruct (Hev ep ev Hin Hd) as [H|(i & t & b & Hi' & Hpc & Ho)]; [by left|right].
    exists i, t, b. split_and!; try done. apply (Hon i t ep Hi'); [by rewrite Hpc|done].
  - intros i t Hi'. destruct (Ht i t Hi') as [H1 H2]. split; [done|]. intros Hb. destruct (H2 Hb) as [x Hx]. eauto.
  - cbn. eapply manager_ok_mono; [|done]. by eapply epoch_step_mono.
Qed.

Lemma online_epoch_set e i slot p j : (i < length (EpochFramework.pcs e))%nat ->
  EpochFramework.pcs (EpochFramework.set_thread e i slot p) !! j =
  if decide (j = i) then Some p else EpochFramework.pcs e !! j.
Proof.
  intros Hi. cbn. case_decide as H; [subst; by rewrite list_lookup_insert_eq|by rewrite list_lookup_insert_ne].
Qed.

Lemma online_step_inv s i e : inv s -> online_step (epochs s) i = Some e -> inv (set_epochs s e).
Proof.
  intros Hi H. unfold online_step in H. apply bind_Some in H as (p & Hp & H).
  assert (Hoff : (∀ x, p <> EpochFramework.Online x) -> ∀ slot q,
     e = EpochFramework.set_thread (epochs s) i slot q ->
     ∀ j t x, threads s !! j = Some t -> between_calls (pc t) = false -> online_epoch s j = Some x ->
       online_epoch (set_epochs s e) j = Some x).
  { intros Hne slot q -> j t x _ _. unfold online_epoch. cbn [set_epochs epochs].
    rewrite online_epoch_set by eauto using lookup_lt_Some. case_decide as E; [subst j|done].
    rewrite Hp. cbn. by destruct p. }
  destruct p as [|x|x|x]; simplify_eq; (apply set_epochs_inv; [done| |by eapply Hoff]); by constructor.
Qed.

Lemma offline_inv s i t e : inv s -> threads s !! i = Some t -> online_epoch s i = Some e -> between_calls (pc t) = true ->
  inv (set_epochs s (EpochFramework.set_thread (epochs s) i EpochFramework.THREAD_OFFLINE EpochFramework.Offline)).
Proof.
  intros Hi Ht He Hb. unfold online_epoch in He. apply bind_Some in He as (p & Hp & He). destruct p; simplify_eq.
  apply set_epochs_inv; [done|by eapply EpochFramework.step_offline|]. intros j u x Hu Hub Hx.
  unfold online_epoch in *. cbn [set_epochs epochs]. rewrite online_epoch_set by eauto using lookup_lt_Some.
  case_decide as E; [subst j|done]. simplify_eq. congruence.
Qed.

Lemma writer_inv s : inv s -> EpochFramework.writer (epochs s) <> EpochFramework.Aborted ->
  inv (set_epochs s (EpochFramework.writer_step (epochs s))).
Proof.
  intros Hi Ha. apply set_epochs_inv; [done|by constructor|]. intros j u x _ _. unfold online_epoch. cbn.
  unfold EpochFramework.writer_step. by destruct (EpochFramework.writer (epochs s)).
Qed.

(** *** Steps of a call *)

Lemma online_epoch_pc s i t p j : online_epoch (set_pc s i t p) j = online_epoch s j.
Proof. done. Qed.

(** A thread moves on; the key it was about to give an item has one. *)
Lemma hash_set_pc_inv s i t p : inv s -> threads s !! i = Some t -> pc_ok (point_index_ s) p ->
  is_Some (online_epoch s i) -> (∀ k b, pc t = PutPoint k b -> is_Some (point_index_ s !! k)) -> inv (set_pc s i t p).
Proof.
  intros (He & Hw & Hev & Hc & Hth & Hm & Hi) Ht Hp Ho Hput. split_and!; try done.
  - intros ep ev Hin Hd. destruct (Hev ep ev Hin Hd) as [H|(j & u & b & Hj & Hpc & Hon)]; [by left|].
    destruct (decide (j = i)) as [-> |Hne]; [left; simplify_eq; by eapply Hput|right].
    exists j, u, b. split_and!; try done. cbn. by rewrite list_lookup_insert_ne.
  - cbn. intros j u [(<- & <- & _) | (Hne & Hu)]%list_lookup_insert_Some; [by split|]. by apply Hth.
Qed.

Lemma point_put_spec s k b r s' : point_put s k b = (r, s') ->
  epochs s' = epochs s ∧ range_index_ s' = range_index_ s ∧ threads s' = threads s ∧ manager s' = manager s ∧
  point_index_ s ⊆ point_index_ s' ∧ is_Some (point_index_ s' !! k).
Proof.
  unfold point_put. destruct (point_index_ s !! k) as [p|] eqn:E; intros [= <- <-]; cbn.
  - split_and!; try done.
  - split_and!; try done; [by apply insert_subseteq|]. rewrite lookup_insert_eq. eauto.
Qed.

Lemma point_put_inv s k b r s' : inv s -> point_put s k b = (r, s') -> inv s'.
Proof.
  intros (He & Hw & Hev & Hc & Hth & Hm & Hi) H. pose proof (point_put_spec s k b r s' H) as (E1 & E2 & E3 & E4 & Hsub & _).
  assert (Hon : ∀ j, online_epoch s' j = online_epoch s j) by (intros j; unfold online_epoch; by rewrite E1).
  assert (Hs : ∀ k', is_Some (point_index_ s !! k') -> is_Some (point_index_ s' !! k')).
  { intros k' [x Hx]. exists x. by eapply lookup_weaken. }
  unfold inv. rewrite E1, E2, E3, E4. split_and!; try done.
  - intros ep ev Hin Hd. destruct (Hev ep ev Hin Hd) as [H1|(j & u & b' & Hj & Hpc & Ho)]; [left; auto|right].
    exists j, u, b'. rewrite E3, Hon. done.
  - eauto.
  - intros j u Hu. destruct (Hth j u Hu) as [H1 H2]. split; [by eapply hash_pc_ok_mono|]. by rewrite Hon.
  - destruct Hi as [Hi1 Hi2]. unfold point_put in H. destruct (point_index_ s !! k) as [p|] eqn:E; injection H as <- <-; [done|].
    split; cbn.
    + intros k' p [(<- & <-)|(Hne & Hp)]%lookup_insert_Some; rewrite length_app; cbn; [lia|]. specialize (Hi1 k' p Hp). lia.
    + intros k1 k2 p [(<- & <-)|(Hn1 & Hp1)]%lookup_insert_Some [(<- & E')|(Hn2 & Hp2)]%lookup_insert_Some; try done.
      * apply Hi1 in Hp2. lia.
      * subst p. apply Hi1 in Hp1. lia.
      * by eapply Hi2.
Qed.

(** Filing an insertion or a deletion. *)
Lemma add_event_inv s e ev : inv s -> event_ok s e ev ->
  inv (set_range s (PrecisionLockingIndex.add_event e ev (range_index_ s))).
Proof.
  intros (He & (Hw1 & Hw2 & Hw3) & Hev & Hc & Hth & Hm & Hi) Hok. split_and!; try done.
  - split_and!; try done. by apply push_sorted.
  - cbn. intros ep ev' [Hin|Heq]%elem_of_items_push; [by apply Hev|]. by injection Heq as -> ->.
Qed.

Lemma range_insert_inv s tx e k b r : inv s -> PrecisionLockingIndex.Insert tx e k (range_index_ s) = (b, r) ->
  is_Some (point_index_ s !! k) -> inv (set_range s r).
Proof.
  intros Hi H Hk. unfold PrecisionLockingIndex.Insert in H. destruct (PrecisionLockingIndex.IsInPredicateSet _ _ _);
    injection H as <- <-; [by destruct s|]. apply add_event_inv; [done|]. intros _. by left.
Qed.

Lemma range_delete_inv s tx e k b r : inv s -> PrecisionLockingIndex.Delete tx e k (range_index_ s) = (b, r) ->
  inv (set_range s r).
Proof.
  intros Hi H. unfold PrecisionLockingIndex.Delete in H. destruct (PrecisionLockingIndex.IsInPredicateSet _ _ _);
    injection H as <- <-; [by destruct s|]. by apply add_event_inv.
Qed.

Lemma add_predicate_inv s e p : inv s -> inv (set_range s (PrecisionLockingIndex.add_predicate e p (range_index_ s))).
Proof.
  intros (He & (Hw1 & Hw2 & Hw3) & Hev & Hc & Hth & Hm & Hi). split_and!; try done.
  split_and!; try done. by apply push_sorted.
Qed.

(** [Put] files the key first: the thread stands for the item to come. *)
Lemma put_range_inv s i t k b e r ok : inv s -> threads s !! i = Some t -> pc t = PutRange k b ->
  online_epoch s i = Some e -> PrecisionLockingIndex.Insert (context t) e k (range_index_ s) = (ok, r) ->
  inv (set_pc (set_range s r) i t (if ok then PutPoint k b else Return_ (RBool false))).
Proof.
  intros Hi Ht Hpc Ho H. unfold PrecisionLockingIndex.Insert in H.
  destruct (PrecisionLockingIndex.IsInPredicateSet _ _ _); injection H as <- <-.
  - replace (set_range s (range_index_ s)) with s by (by destruct s).
    apply hash_set_pc_inv; first [done|by rewrite Ho|by rewrite Hpc].
  - set (s1 := set_pc s i t (PutPoint k b)).
    assert (Hi1 : inv s1) by (apply hash_set_pc_inv; first [done|by rewrite Ho|by rewrite Hpc]).
    apply (add_event_inv s1 e (PrecisionLockingIndex.mkEvent k false (context t)) Hi1). intros _. right.
    exists i, (mkThread (PutPoint k b) (context t)), b. split_and!; try done. cbn.
    apply list_lookup_insert_eq. by eapply lookup_lt_Some.
Qed.

(** Scans. *)
Lemma Scan_loop_visit point f l acc hit :
  (∀ k, (k, false) ∈ l -> is_Some (point !! k)) ->
  ∃ ids, (PrecisionLockingIndex.Scan_loop (visit point f) l (Some acc) hit).1 = Some ids.
Proof.
  revert acc hit. induction l as [|[k d] l IH]; intros acc hit H; cbn; [eauto|].
  destruct d; [apply IH; intros k' Hk'; apply H; by right|].
  destruct (H k) as [p Hp]; [by left|]. rewrite Hp. destruct (f k); cbn; [eauto|].
  apply IH. intros k' Hk'. apply H. by right.
Qed.

Lemma between_live s b e k : inv s ->
  (k, false) ∈ PrecisionLockingIndex.between b e (PrecisionLockingIndex.container_ (range_index_ s)) ->
  is_Some (point_index_ s !! k).
Proof.
  intros (_ & (_ & _ & Hs) & _ & Hc & _) H. rewrite (between_filter _ _ _ Hs) in H.
  apply list_elem_of_filter in H as [_ H]. apply Hc. by apply (find_elem (ltb := str_ltb)).
Qed.

Lemma scan_range_inv s i t v b e' f e hit st r : inv s -> threads s !! i = Some t -> pc t = ScanRange v b e' f ->
  online_epoch s i = Some e ->
  (if v then PrecisionLockingIndex.ScanReverse else PrecisionLockingIndex.Scan) (context t) e b e'
    (visit (point_index_ s) f) (Some []) (range_index_ s) = (hit, st, r) ->
  inv (set_pc (set_range s r) i t (match st with Some _ => Return_ (RScan hit) | None => NullDereference end)).
Proof.
  intros Hi Ht Hpc Ho H.
  assert (Hw : ∃ ids, st = Some ids ∧ inv (set_range s r)); cycle 1.
  { destruct Hw as (ids & -> & Hw). apply (hash_set_pc_inv (set_range s r)); first [done|by rewrite Hpc]. }
  assert (Hsame : inv (set_range s (range_index_ s))) by (by destruct s).
  pose proof (fun l => Scan_loop_visit (point_index_ s) f l [] 0) as Hv.
  assert (Hrev : ∀ l : list (bytestring * bool), (∀ k, (k, false) ∈ l -> is_Some (point_index_ s !! k)) ->
            ∀ k, (k, false) ∈ reverse l -> is_Some (point_index_ s !! k)).
  { intros l H' k Hk. apply H'. by rewrite elem_of_reverse in Hk. }
  destruct v; unfold PrecisionLockingIndex.Scan, PrecisionLockingIndex.ScanReverse, PrecisionLockingIndex.ScanWith in H;
    destruct (match e' with Some _ => _ | None => _ end); simplify_eq; eauto;
    destruct (PrecisionLockingIndex.IsOverlapWithInsertOrDelete _ _ _ _); simplify_eq; eauto.
  - destruct (Hv _ (Hrev _ (fun k => between_live s b e' k Hi))) as [ids Hids].
    destruct (PrecisionLockingIndex.Scan_loop _ _ _ _) as [st' n]. simplify_eq/=. eexists. split; [done|].
    by apply add_predicate_inv.
  - destruct (Hv _ (fun k => between_live s b e' k Hi)) as [ids Hids].
    destruct (PrecisionLockingIndex.Scan_loop _ _ _ _) as [st' n]. simplify_eq/=. eexists. split; [done|].
    by apply add_predicate_inv.
Qed.

(** *** The manager *)

Lemma apply_events_live evs c k : StdMap.sorted str_ltb c ->
  StdMap.find str_ltb k (fold_left PrecisionLockingIndex.apply_event evs c) = Some false ->
  StdMap.find str_ltb k c = Some false ∨
  ∃ ev, ev ∈ evs ∧ PrecisionLockingIndex.key ev = k ∧ PrecisionLockingIndex.is_delete_event ev = false.
Proof.
  revert c. induction evs as [|ev evs IH]; intros c Hs H; cbn in *; [by left|].
  apply IH in H as [H|(ev' & Hin & Hev)]; [|right; exists ev'; split; [by right|done]|by apply alter_sorted].
  unfold PrecisionLockingIndex.apply_event in H. rewrite (find_alter (ltb := str_ltb)) in H by done.
  destruct (str_ltb (PrecisionLockingIndex.key ev) k) eqn:E1; [by left|].
  destruct (str_ltb k (PrecisionLockingIndex.key ev)) eqn:E2; [by left|].
  right. exists ev. split; [by left|]. split; [|by injection H]. by apply (ltb_total (ltb := str_ltb)).
Qed.

Lemma manage_inv s g : inv s -> 3 <= g <= EpochFramework.global_epoch_ (epochs s) ->
  inv (set_range s (PrecisionLockingIndex.Manage g (range_index_ s))).
Proof.
  intros (He & (Hw1 & Hw2 & Hw3) & Hev & Hc & Hth & Hm & Hi) Hg.
  destruct (closed_items (u32 (g - 2)) _ Hw2) as [Hcl Hop].
  split_and!; try done.
  - split_and!; cbn; [by apply skip_while_sorted|by apply skip_while_sorted|by apply apply_events_sorted].
  - intros ep ev. unfold RangeIndex.pending, PrecisionLockingIndex.Manage.
    cbn [set_range range_index_ PrecisionLockingIndex.insert_or_delete_key_set_]. rewrite Hop. intros [_ Hin]%list_elem_of_filter. by apply Hev.
  - intros k Hk. unfold PrecisionLockingIndex.Manage in Hk.
    cbn [set_range range_index_ PrecisionLockingIndex.container_] in Hk. apply apply_events_live in Hk as [Hk|(ev & Hin & <- & Hd)]; [by apply Hc| |done].
    apply list_elem_of_fmap in Hin as ([ep ev'] & -> & Hin). rewrite Hcl in Hin.
    apply list_elem_of_filter in Hin as [Hle Hin]. cbn in Hle, Hd. apply Z.leb_le in Hle.
    destruct (Hev ep ev' Hin Hd) as [H|(i & t & b & _ & _ & Ho)]; [done|exfalso].
    destruct He as (Hgl & _ & Hon & _). unfold online_epoch in Ho. apply bind_Some in Ho as (p & Hp & Ho).
    destruct p; simplify_eq. destruct (Hon i _ Hp) as (_ & Hpos & Hgb). pose proof kEpochHighWater_value.
    rewrite u32_small in Hle by (unfold is_u32; lia). destruct Hgb as [?|[? _]]; lia.
Qed.

Lemma set_manager_inv s m : inv s -> manager_ok (EpochFramework.global_epoch_ (epochs s)) m -> inv (set_manager s m).
Proof. intros (He & Hw & Hev & Hc & Hth & _ & Hi) Hm. by split_and!. Qed.

Lemma manager_step_inv s s' : inv s -> manager_step s = Some s' -> inv s'.
Proof.
  intros Hi H. pose proof Hi as (_ & _ & _ & _ & _ & Hm & _). unfold manager_step in H.
  destruct (manager s) as [n [c|]| |x] eqn:E; cbn in Hm.
  - destruct (Z.eqb_spec (EpochFramework.global_epoch_ (epochs s)) c); [done|].
    destruct (Nat.eqb_spec (S n) 2); injection H as <-; (apply set_manager_inv; [done|]); unfold manager_ok; lia.
  - injection H as <-. apply set_manager_inv; [done|]. cbn. lia.
  - injection H as <-. apply set_manager_inv; [done|]. cbn. lia.
  - injection H as <-. apply set_manager_inv; [by apply manage_inv|]. cbn.
    pose proof Hi as ((Hg & _) & _). lia.
Qed.

(** *** All steps *)

Lemma thread_step_inv s i t e s' : inv s -> threads s !! i = Some t -> online_epoch s i = Some e ->
  thread_step s i t e = Some s' -> inv s'.
Proof.
  intros Hi Ht Ho H. pose proof Hi as (_ & _ & _ & _ & Hth & _). destruct (Hth i t Ht) as [Hok _].
  assert (Hmove : ∀ p, (∀ k b, pc t <> PutPoint k b) -> pc_ok (point_index_ s) p -> inv (set_pc s i t p)).
  { intros p Hne Hp. apply hash_set_pc_inv; first [done|by exists e|intros k b E; by destruct (Hne k b)]. }
  assert (Hput : ∀ k b r s1 p, point_put s k b = (r, s1) -> (∀ k' b', pc t = PutPoint k' b' -> k' = k) ->
            (is_Some (point_index_ s1 !! k) -> pc_ok (point_index_ s1) p) -> inv (set_pc s1 i t p)).
  { intros k b r s1 p Hp Hk Hpc. pose proof (point_put_spec s k b r s1 Hp) as (E1 & _ & E3 & _ & _ & Hs).
    apply hash_set_pc_inv; [by eapply point_put_inv|by rewrite E3|by apply Hpc| |].
    - unfold online_epoch in *. rewrite E1. by rewrite Ho.
    - intros k' b' E. by rewrite (Hk k' b' E). }
  assert (Hrange : ∀ r p, inv (set_range s r) -> (∀ k b, pc t <> PutPoint k b) -> pc_ok (point_index_ s) p ->
            inv (set_pc (set_range s r) i t p)).
  { intros r p Hr Hne Hp. apply hash_set_pc_inv; first [done|by exists e|intros k b E; by destruct (Hne k b)]. }
  unfold thread_step in H. destruct (pc t) as [|k|k p|k p r|k|k|k b|k b|k|k|k|k p|k r|k r|k p r|k|k|v b e' f|res| |] eqn:Hpc;
    try done; cbn in Hok.
  - injection H as <-. apply Hmove; [done|]. cbn. done.
  - injection H as <-. by apply Hmove.
  - injection H as <-. destruct p as [q|].
    + destruct (entry_state r true (is_initialized s (Some q))); apply Hmove; try done. cbn. rewrite (Hok q eq_refl). eauto.
    + unfold entry_state. cbn. destruct r; cbn; by apply Hmove.
  - destruct (point_put s k false) as [b s1] eqn:E. injection H as <-. apply (Hput k false b s1); [done|done|].
    intros Hs. by destruct b.
  - destruct (PrecisionLockingIndex.Insert _ _ _ _) as [b r] eqn:E. injection H as <-.
    apply Hrange; [by eapply range_insert_inv|done|done].
  - destruct (PrecisionLockingIndex.Insert _ _ _ _) as [ok r] eqn:E. injection H as <-. by eapply put_range_inv.
  - destruct (point_put s k b) as [b' s1] eqn:E. injection H as <-. apply (Hput k b b' s1); [done|congruence|done].
  - destruct (point_put s k false) as [b s1] eqn:E. injection H as <-. by apply (Hput k false b s1).
  - injection H as <-. apply Hrange; [|done|done]. apply add_event_inv; [done|]. intros _. by left.
  - injection H as <-. apply Hmove; [done|]. cbn. done.
  - injection H as <-. apply Hmove; [done|]. destruct p as [q|]; cbn; auto.
  - destruct (point_put s k false) as [b s1] eqn:E. injection H as <-. apply (Hput k false b s1); [done|done|].
    intros Hs. by destruct b, r.
  - injection H as <-. apply Hmove; [done|]. destruct (point_index_ s !! k) eqn:E; [|done]. destruct r; [done|]. cbn.
    rewrite E. eauto.
  - destruct (is_initialized s (Some p)), r; injection H as <-; (apply Hmove; [done|]); cbn; rewrite ?Hok; eauto.
  - destruct (PrecisionLockingIndex.Insert _ _ _ _) as [b r] eqn:E. injection H as <-.
    apply Hrange; [by eapply range_insert_inv|done|done].
  - destruct (PrecisionLockingIndex.Delete _ _ _ _) as [b r] eqn:E. injection H as <-.
    apply Hrange; [by eapply range_delete_inv|done|done].
  - destruct ((if v then _ else _) _ _ _ _ _ _ _) as [[hit st] r] eqn:E. injection H as <-. by eapply scan_range_inv.
Qed.

Lemma hash_step_inv s l s' : inv s -> step s l = Some s' -> inv s'.
Proof.
  intros Hi H. destruct l as [i|i| | |p b|i tx c|i]; cbn [step] in H.
  - apply bind_Some in H as (e & He & [= <-]). by eapply online_step_inv.
  - apply bind_Some in H as (t & Ht & (e & He & H)%bind_Some). destruct (between_calls (pc t)) eqn:Hb; [|done].
    injection H as <-. by eapply offline_inv.
  - destruct (EpochFramework.writer (epochs s)) eqn:E; simplify_eq; (apply writer_inv; [done|congruence]).
  - by eapply manager_step_inv.
  - apply bind_Some in H as (x & Hx & [= <-]). destruct Hi as (He & Hw & Hev & Hc & Hth & Hm & Hi1 & Hi2).
    split_and!; try done. split; [|done]. cbn. by rewrite length_insert.
  - apply bind_Some in H as (t & Ht & (e & He & H)%bind_Some). destruct (between_calls (pc t)) eqn:Hb; [|done].
    injection H as <-. destruct Hi as (Hie & Hw & Hev & Hc & Hth & Hm & Hi).
    assert (Hi' : inv (set_pc s i (mkThread Out tx) (start c))).
    { split_and!; try done.
      - intros ep ev Hin Hd. destruct (Hev ep ev Hin Hd) as [H|(j & u & b & Hj & Hpc & Hon)]; [by left|right].
        exists j, u, b. split_and!; try done. cbn. rewrite list_lookup_insert_ne; [done|]. intros ->.
        simplify_eq. by rewrite Hpc in Hb.
      - cbn. intros j u [(<- & <- & _) | (Hne & Hu)]%list_lookup_insert_Some; [|by apply Hth].
        split; [by destruct c|]. intros _. exists e. done. }
    exact Hi'.
  - apply bind_Some in H as (t & Ht & (e & He & H)%bind_Some). by eapply thread_step_inv.
Qed.

Lemma hash_init_inv n : inv (init n).
Proof.
  split_and!; try done.
  - apply epoch_init_inv.
  - apply RangeIndex.init_wf.
  - intros ep ev Hin. by apply elem_of_nil in Hin.
  - intros i t [-> _]%lookup_replicate. by split.
  - cbn. lia.
Qed.

Lemma hash_run_inv s ls s' : inv s -> run s ls = Some s' -> inv s'.
Proof.
  revert s. induction ls as [|l ls IH]; cbn [run]; intros s Hi; [by intros [= <-]|].
  destruct (step s l) as [s1|] eqn:E; [|done]. by apply IH, (hash_step_inv s l).
Qed.

Lemma hash_reachable_inv n s : reachable n s -> inv s.
Proof. intros (ls & H). exact (hash_run_inv _ ls s (hash_init_inv n) H). Qed.

(** *** Permanence of items *)

Lemma thread_step_point s i t e s' : thread_step s i t e = Some s' -> point_index_ s ⊆ point_index_ s'.
Proof.
  assert (Hput : ∀ k b r s1 p, point_put s k b = (r, s1) -> point_index_ s ⊆ point_index_ (set_pc s1 i t p)).
  { intros k b r s1 p H. by apply point_put_spec in H as (_ & _ & _ & _ & H & _). }
  unfold thread_step. destruct (pc t) as [|k|k p|k p r|k|k|k b|k b|k|k|k|k p|k r|k r|k p r|k|k|v b e' f|res| |]; try done;
    try (destruct (point_put s k _) as [r' s1] eqn:E; intros [= <-]; by eapply Hput);
    try (destruct (PrecisionLockingIndex.Insert _ _ _ _)); try (destruct (PrecisionLockingIndex.Delete _ _ _ _));
    try (by intros [= <-]).
  - intros [= <-]. by destruct (entry_state _ _ _).
  - destruct ((if v then _ else _) _ _ _ _ _ _ _) as [[hit st] r]. by intros [= <-].
Qed.

Lemma step_point s l s' : step s l = Some s' -> point_index_ s ⊆ point_index_ s'.
Proof.
  destruct l as [i|i| | |p b|i tx c|i]; cbn [step]; intros H.
  - by apply bind_Some in H as (e & _ & [= <-]).
  - apply bind_Some in H as (t & _ & (e & _ & H)%bind_Some). destruct (between_calls (pc t)); [|done]. by injection H as <-.
  - by destruct (EpochFramework.writer (epochs s)); simplify_eq.
  - unfold manager_step in H. destruct (manager s) as [n [c|]| |x]; [destruct (_ =? c)|..]; by simplify_eq.
  - by apply bind_Some in H as (x & _ & [= <-]).
  - apply bind_Some in H as (t & _ & (e & _ & H)%bind_Some). destruct (between_calls (pc t)); [|done]. by injection H as <-.
  - apply bind_Some in H as (t & _ & (e & _ & H)%bind_Some). by eapply thread_step_point.
Qed.

(** ** Theorems *)

(** C26. A scan of the hash index never dereferences a null item: in every
    interleaving of Put, Insert, Delete, scans and the manager thread, every
    live key of the range index has an item in the hash table when a scan
    looks it up. *)
Theorem scans_find_every_item n s i t : reachable n s -> threads s !! i = Some t -> pc t <> NullDereference.
Proof.
  intros (_ & _ & _ & _ & Hth & _)%hash_reachable_inv Ht E. destruct (Hth i t Ht) as [H _]. by rewrite E in H.
Qed.

(** The item of a key never changes, and no two keys share one: a pointer that
    [Get] returned stays the item of its key. *)
Theorem items_are_permanent n s ls s' k p : reachable n s -> run s ls = Some s' -> point_index_ s !! k = Some p ->
  point_index_ s' !! k = Some p ∧ ∀ k', point_index_ s' !! k' = Some p -> k' = k.
Proof.
  intros Hi%hash_reachable_inv Hrun Hk.
  assert (Hsub : point_index_ s ⊆ point_index_ s').
  { clear Hi Hk. revert s Hrun. induction ls as [|l ls IH]; cbn [run]; intros s H; [by injection H as <-|].
    destruct (step s l) as [s1|] eqn:E; [|done]. transitivity (point_index_ s1); [by eapply step_point|by apply IH]. }
  assert (Hk' : point_index_ s' !! k = Some p) by (by eapply lookup_weaken). split; [done|].
  intros k' H. destruct (hash_run_inv s ls s' Hi Hrun) as (_ & _ & _ & _ & _ & _ & _ & Hinj). by eapply Hinj.
Qed.

(** What [Insert] comes to in every state of an entry. *)
Definition insert_outcome (s : State) (tx : option Z) (e : Z) (k : bytestring) : State * Pc :=
  let filed s := let '(b, r) := PrecisionLockingIndex.Insert tx e k (range_index_ s) in
                 (set_range s r, Return_ (RBool b)) in
  match GetEntryState s k with
  | EXISTS => (s, Return_ (RBool false))
  | NOT_EXISTS => filed (point_put s k false).2
  | DELETED => filed s
  | INCONSISTENT => (s, AssertFailed)
  end.

Definition insert_steps (s : State) (k : bytestring) : nat :=
  match GetEntryState s k with EXISTS | INCONSISTENT => 3 | NOT_EXISTS => 5 | DELETED => 4 end.

Lemma thread_step_at s i t e p : threads s !! i = Some t -> online_epoch s i = Some e -> pc t = p ->
  step s (LThread i) = thread_step s i t e.
Proof. intros Ht He Hp. cbn. rewrite Ht. cbn. by rewrite He. Qed.

(** One step of a thread that has just been moved. *)
Lemma run_moved s i t p e m :
  (i < length (threads s))%nat -> online_epoch s i = Some e ->
  run (set_pc s i t p) (replicate (S m) (LThread i)) =
  (s' ← thread_step (set_pc s i t p) i (mkThread p (context t)) e; run s' (replicate m (LThread i))).
Proof.
  intros Hi He. cbn [replicate run step]. cbn [set_pc threads]. rewrite list_lookup_insert_eq by done. cbn [mbind option_bind].
  change (online_epoch _ i) with (online_epoch s i). by rewrite He.
Qed.

Lemma set_pc_twice s i t p p' : set_pc (set_pc s i t p) i (mkThread p (context t)) p' = set_pc s i t p'.
Proof. unfold set_pc. cbn. by rewrite list_insert_insert_eq. Qed.

Lemma not_exists_absent s k : GetEntryState s k = NOT_EXISTS -> point_index_ s !! k = None.
Proof.
  unfold GetEntryState, entry_state. destruct (point_index_ s !! k); [|done].
  destruct (PrecisionLockingIndex.Contains _ _), (is_initialized s _); done.
Qed.

(** [Insert] on an index that no other thread uses does what the table of entry
    states says: it fails on an entry that exists, makes an item and files the
    key for one that does not, only files the key of a deleted one, and runs
    into its assertion otherwise. *)
Theorem Insert_follows_entry_state s i t tx e k :
  threads s !! i = Some t -> online_epoch s i = Some e -> between_calls (pc t) = true ->
  run s (LCall i tx (CInsert k) :: replicate (insert_steps s k) (LThread i)) =
  Some (set_pc (insert_outcome s tx e k).1 i (mkThread Out tx) (insert_outcome s tx e k).2).
Proof.
  intros Ht He Hb. assert (Hi : (i < length (threads s))%nat) by (by eapply lookup_lt_Some).
  cbn [run step]. rewrite Ht. cbn [mbind option_bind]. rewrite He. cbn [mbind option_bind]. rewrite Hb.
  change (mkIndex _ _ _ _ _ _) with (set_pc s i (mkThread Out tx) (InsertGet k)).
  cbn [mbind option_bind]. unfold insert_outcome, insert_steps.
  assert (H3 : ∀ m, run (set_pc s i (mkThread Out tx) (InsertGet k)) (replicate (S (S (S m))) (LThread i)) =
     run (match GetEntryState s k with
          | EXISTS => set_pc s i (mkThread Out tx) (Return_ (RBool false))
          | NOT_EXISTS => set_pc s i (mkThread Out tx) (InsertPut k)
          | DELETED => set_pc s i (mkThread Out tx) (InsertRange k)
          | INCONSISTENT => set_pc s i (mkThread Out tx) AssertFailed
          end) (replicate m (LThread i))).
  { intros m. rewrite (run_moved _ _ _ _ e) by done. cbn [thread_step pc mbind option_bind]. rewrite set_pc_twice.
    rewrite (run_moved _ _ _ _ e) by done. cbn [thread_step pc mbind option_bind]. rewrite set_pc_twice.
    rewrite (run_moved _ _ _ _ e) by done. cbn [thread_step pc mbind option_bind].
    unfold GetEntryState. change (is_initialized (set_pc s i _ _)) with (is_initialized s).
    cbn [set_pc point_index_ range_index_]. destruct (entry_state _ _ _); f_equal; apply set_pc_twice. }
  destruct (GetEntryState s k) eqn:E.
  - rewrite (H3 O). done.
  - rewrite (H3 2%nat), (run_moved _ _ _ _ e) by done. cbn [thread_step pc].
    destruct (point_put (set_pc s i _ _) k false) as [b s1] eqn:Ep. unfold point_put in Ep |- *.
    cbn [set_pc point_index_] in Ep. rewrite (not_exists_absent s k E) in Ep |- *. injection Ep as <- <-.
    cbn [mbind option_bind].
    match goal with |- run (set_pc ?x _ _ _) _ = _ => set (s1 := x) end.
    rewrite (run_moved s1 i _ _ e); [|cbn; by rewrite length_insert|done]. cbn [thread_step pc mbind option_bind].
    cbn [set_pc range_index_ s1 context snd]. destruct (PrecisionLockingIndex.Insert tx e k (range_index_ s)) as [b r].
    unfold set_pc. cbn. by rewrite !list_insert_insert_eq.
  - rewrite (H3 1%nat), (run_moved _ _ _ _ e) by done. cbn [thread_step pc mbind option_bind].
    cbn [set_pc range_index_ context snd]. destruct (PrecisionLockingIndex.Insert tx e k (range_index_ s)) as [b r].
    unfold set_pc. cbn. by rewrite !list_insert_insert_eq.
  - rewrite (H3 O). done.
Qed.

(** ** A key between its commit and the round of the manager *)

(** Steps other than those of the manager and a reset of item [p]. *)
Definition unmerged (p : nat) (l : Label) : Prop :=
  match l with LManager => False | LSetInitialized q b => q = p -> b = true | _ => True end.

(** A key with an initialized item that the range index does not contain. *)
Definition committed_unmerged (s : State) (k : bytestring) (p : nat) : Prop :=
  point_index_ s !! k = Some p ∧ initialized_ s !! p = Some true ∧
  PrecisionLockingIndex.Contains k (range_index_ s) = false.

Lemma contains_container k r r' : PrecisionLockingIndex.container_ r' = PrecisionLockingIndex.container_ r ->
  PrecisionLockingIndex.Contains k r' = PrecisionLockingIndex.Contains k r.
Proof. intros E. unfold PrecisionLockingIndex.Contains. by rewrite E. Qed.

Lemma range_insert_container tx e k r : PrecisionLockingIndex.container_ (PrecisionLockingIndex.Insert tx e k r).2 =
  PrecisionLockingIndex.container_ r.
Proof. unfold PrecisionLockingIndex.Insert. by destruct (PrecisionLockingIndex.IsInPredicateSet _ _ _). Qed.

Lemma range_delete_container tx e k r : PrecisionLockingIndex.container_ (PrecisionLockingIndex.Delete tx e k r).2 =
  PrecisionLockingIndex.container_ r.
Proof. unfold PrecisionLockingIndex.Delete. by destruct (PrecisionLockingIndex.IsInPredicateSet _ _ _). Qed.

Lemma range_scan_container {S} walk tx e b e' op (st : S) r :
  PrecisionLockingIndex.container_ (PrecisionLockingIndex.ScanWith walk tx e b e' op st r).2 = PrecisionLockingIndex.container_ r.
Proof.
  unfold PrecisionLockingIndex.ScanWith. destruct (match e' with Some _ => _ | None => _ end); [done|].
  destruct (PrecisionLockingIndex.IsOverlapWithInsertOrDelete _ _ _ _); [done|].
  by destruct (PrecisionLockingIndex.Scan_loop _ _ _ _).
Qed.

Lemma point_put_frame s k b : range_index_ (point_put s k b).2 = range_index_ s ∧
  initialized_ s `prefix_of` initialized_ (point_put s k b).2.
Proof. unfold point_put. destruct (point_index_ s !! k); [done|]. split; [done|]. by apply prefix_app_r. Qed.

(** A thread leaves the keys of the range index and the items there are alone. *)
Lemma thread_step_frame s i t e s' : thread_step s i t e = Some s' ->
  PrecisionLockingIndex.container_ (range_index_ s') = PrecisionLockingIndex.container_ (range_index_ s) ∧
  initialized_ s `prefix_of` initialized_ s'.
Proof.
  unfold thread_step. intros H.
  pose proof (fun k => range_insert_container (context t) e k (range_index_ s)) as Hi.
  pose proof (fun k => range_delete_container (context t) e k (range_index_ s)) as Hd.
  pose proof (point_put_frame s) as Hp.
  destruct (pc t) as [|k|k p|k p r|k|k|k b|k b|k|k|k|k p|k r|k r|k p r|k|k|v b e' f|res| |]; try done;
    try (by injection H as <-).
  - injection H as <-. by destruct (entry_state _ _ _).
  - specialize (Hp k false). destruct (point_put s k false) as [b s1]. injection H as <-. cbn in *. by destruct Hp as [-> ?].
  - specialize (Hi k). destruct (PrecisionLockingIndex.Insert _ _ _ _). by injection H as <-.
  - specialize (Hi k). destruct (PrecisionLockingIndex.Insert _ _ _ _). by injection H as <-.
  - specialize (Hp k b). destruct (point_put s k b) as [b' s1]. injection H as <-. cbn in *. by destruct Hp as [-> ?].
  - specialize (Hp k false). destruct (point_put s k false) as [b s1]. injection H as <-. cbn in *. by destruct Hp as [-> ?].
  - specialize (Hp k false). destruct (point_put s k false) as [b s1]. injection H as <-. cbn in *. by destruct Hp as [-> ?].
  - specialize (Hi k). destruct (PrecisionLockingIndex.Insert _ _ _ _). by injection H as <-.
  - specialize (Hd k). destruct (PrecisionLockingIndex.Delete _ _ _ _). by injection H as <-.
  - assert (Hs : ∀ walk, PrecisionLockingIndex.container_ (PrecisionLockingIndex.ScanWith walk (context t) e b e'
              (visit (point_index_ s) f) (Some []) (range_index_ s)).2 = PrecisionLockingIndex.container_ (range_index_ s))
      by (intros walk; apply range_scan_container).
    destruct v; unfold PrecisionLockingIndex.Scan, PrecisionLockingIndex.ScanReverse in H;
      match type of H with context [PrecisionLockingIndex.ScanWith ?w _ _ _ _ _ _ _] => specialize (Hs w) end;
      destruct (PrecisionLockingIndex.ScanWith _ _ _ _ _ _ _ _) as [[hit st] r]; by injection H as <-.
Qed.

Lemma committed_unmerged_step s l s' k p : step s l = Some s' -> unmerged p l -> committed_unmerged s k p ->
  committed_unmerged s' k p.
Proof.
  intros H Hl (H1 & H2 & H3). pose proof (lookup_weaken _ _ _ _ H1 (step_point s l s' H)) as H1'.
  split; [done|]. destruct l as [i|i| | |q b|i tx c|i]; cbn [step unmerged] in *; try done.
  - apply bind_Some in H as (e & _ & [= <-]). done.
  - apply bind_Some in H as (t & _ & (e & _ & H)%bind_Some). destruct (between_calls _); [|done]. by injection H as <-.
  - destruct (EpochFramework.writer _); by simplify_eq.
  - apply bind_Some in H as (b0 & Hb & [= <-]). split; [|done]. cbn. destruct (decide (q = p)) as [->|Hne].
    + rewrite (Hl eq_refl). apply list_lookup_insert_eq. by eapply lookup_lt_Some.
    + by rewrite list_lookup_insert_ne.
  - apply bind_Some in H as (t & _ & (e & _ & H)%bind_Some). destruct (between_calls _); [|done]. by injection H as <-.
  - apply bind_Some in H as (t & _ & (e & _ & H)%bind_Some). destruct (thread_step_frame _ _ _ _ _ H) as [Hc Hp].
    split; [by eapply prefix_lookup_Some|by rewrite (contains_container k (range_index_ s))].
Qed.

Lemma committed_unmerged_run s ls s' k p : run s ls = Some s' -> Forall (unmerged p) ls -> committed_unmerged s k p ->
  committed_unmerged s' k p.
Proof.
  intros H Hls. revert s H. induction Hls as [|l ls Hl _ IH]; cbn [run]; intros s H Hc; [by injection H as <-|].
  destruct (step s l) as [s1|] eqn:E; [|done]. apply (IH s1 H). by eapply committed_unmerged_step.
Qed.

Lemma hash_run_app s ls1 ls2 : run s (ls1 ++ ls2) = (s' ← run s ls1; run s' ls2).
Proof. revert s. induction ls1 as [|l ls1 IH]; intros s; [done|]. cbn. destruct (step s l); [apply IH|done]. Qed.

(** The state after the first insertion and its commit. *)
Lemma inserted_unmerged s i t tx e k s1 : threads s !! i = Some t -> online_epoch s i = Some e ->
  between_calls (pc t) = true -> GetEntryState s k = NOT_EXISTS ->
  run s (LCall i tx (CInsert k) :: replicate 5 (LThread i) ++ [LSetInitialized (length (initialized_ s)) true]) = Some s1 ->
  committed_unmerged s1 k (length (initialized_ s)).
Proof.
  intros Ht He Hb Hn H. pose proof (Insert_follows_entry_state s i t tx e k Ht He Hb) as Hins.
  unfold insert_steps, insert_outcome in Hins. rewrite Hn in Hins. rewrite app_comm_cons, hash_run_app, Hins in H.
  pose proof (not_exists_absent s k Hn) as Hk. unfold point_put in H. rewrite Hk in H. cbn [snd range_index_] in H.
  pose proof (range_insert_container tx e k (range_index_ s)) as Hc.
  destruct (PrecisionLockingIndex.Insert tx e k (range_index_ s)) as [b r]. cbn in H, Hc.
  rewrite lookup_app_r, Nat.sub_diag in H by lia. cbn in H. injection H as <-. unfold committed_unmerged. cbn.
  rewrite lookup_insert_eq. split; [done|]. split; [apply list_lookup_insert_eq; rewrite length_app; cbn; lia|].
  rewrite (contains_container k (range_index_ s)) by done. unfold GetEntryState, entry_state in Hn. rewrite Hk in Hn.
  by destruct (PrecisionLockingIndex.Contains k (range_index_ s)).
Qed.

(** C40. The entry state that Insert asserts never to see is an ordinary one:
    from every state in which a key is in neither index, after a thread has
    inserted the key and its transaction has initialized the item, whatever
    all threads do until the next round of the manager thread (short of
    deleting the item again), every thread that then inserts the key runs into
    the assertion, because the key is in the hash table, initialized, and not
    yet in the range index. *)
Theorem second_insert_trips_assertion s i t tx e k ls s' j t' tx' e' :
  threads s !! i = Some t -> online_epoch s i = Some e -> between_calls (pc t) = true ->
  GetEntryState s k = NOT_EXISTS ->
  run s ((LCall i tx (CInsert k) :: replicate 5 (LThread i) ++ [LSetInitialized (length (initialized_ s)) true]) ++ ls) = Some s' ->
  Forall (unmerged (length (initialized_ s))) ls ->
  threads s' !! j = Some t' -> online_epoch s' j = Some e' -> between_calls (pc t') = true ->
  ∃ s'', run s' (LCall j tx' (CInsert k) :: replicate 3 (LThread j)) = Some s'' ∧
         threads s'' !! j = Some (mkThread AssertFailed tx').
Proof.
  intros Ht He Hb Hn H Hls Ht' He' Hb'. rewrite hash_run_app in H. apply bind_Some in H as (s1 & H1 & H).
  destruct (committed_unmerged_run s1 ls s' k _ H Hls (inserted_unmerged _ _ _ _ _ _ _ Ht He Hb Hn H1)) as (Hp & Hi & Hc).
  assert (Hst : GetEntryState s' k = INCONSISTENT) by (unfold GetEntryState, is_initialized; by rewrite Hp, Hi, Hc).
  pose proof (Insert_follows_entry_state s' j t' tx' e' k Ht' He' Hb') as Hins.
  unfold insert_steps, insert_outcome in Hins. rewrite Hst in Hins. eexists. split; [exact Hins|]. cbn.
  apply list_lookup_insert_eq. by eapply lookup_lt_Some.
Qed.

(** ** Executions *)

Module Demo.

Definition k : bytestring := [107].

(** Two threads join epoch 1. *)
Definition joined : list Label := replicate 3 (LMakeMeOnline 0) ++ replicate 3 (LMakeMeOnline 1).

(** Thread 0 inserts a key and its transaction commits, which initializes the
    item. *)
Definition first_insert : list Label :=
  joined ++ [LCall 0 (Some 1) (CInsert k)] ++ replicate 5 (LThread 0) ++ [LSetInitialized 0 true].

Definition after (ls : list Label) : State := default (init 2) (run (init 2) ls).

(** Thread 0 leaves its epoch; thread 1 inserts the same key. *)
Lemma second_insert_trips_assertion_witness :
  ∃ s'', run (after (first_insert ++ [LMakeMeOffline 0])) (LCall 1 (Some 2) (CInsert k) :: replicate 3 (LThread 1)) = Some s'' ∧
         threads s'' !! 1%nat = Some (mkThread AssertFailed (Some 2)).
Proof.
  apply (second_insert_trips_assertion (after joined) 0 (mkThread Out None) (Some 1) 1 k [LMakeMeOffline 0]
           (after (first_insert ++ [LMakeMeOffline 0])) 1 (mkThread Out None) (Some 2) 1);
    lazymatch goal with |- Forall _ _ => repeat constructor | |- _ => vm_compute; reflexivity end.
Defined.

(** Thread 1 scans while thread 0 is between the two parts of [Put]. *)
Definition put_and_scan : list Label :=
  first_insert ++ [LCall 0 (Some 1) (CPut [108] true); LThread 0; LCall 1 (Some 2) (CScan false [109] None (fun _ => false));
                   LThread 1].

Lemma first_reachable : reachable 2 (after first_insert).
Proof. exists first_insert. vm_compute. reflexivity. Qed.

Lemma put_and_scan_reachable : reachable 2 (after put_and_scan).
Proof. exists put_and_scan. vm_compute. reflexivity. Qed.

Lemma scans_find_every_item_witness : Return_ (RScan (Some 0)) <> NullDereference.
Proof.
  apply (scans_find_every_item 2 (after put_and_scan) 1 (mkThread (Return_ (RScan (Some 0))) (Some 2))
           put_and_scan_reachable). vm_compute. reflexivity.
Defined.

Lemma items_are_permanent_witness :
  point_index_ (after put_and_scan) !! k = Some 0%nat ∧
  ∀ k', point_index_ (after put_and_scan) !! k' = Some 0%nat -> k' = k.
Proof.
  apply (items_are_permanent 2 (after first_insert) (drop (length first_insert) put_and_scan) (after put_and_scan) k 0
           first_reachable); vm_compute; reflexivity.
Defined.

Lemma Insert_follows_entry_state_witness :
  run (after first_insert) (LCall 1 (Some 2) (CInsert [104]) :: replicate 5 (LThread 1)) =
  Some (set_pc (insert_outcome (after first_insert) (Some 2) 1 [104]).1 1 (mkThread Out (Some 2))
          (Return_ (RBool true))).
Proof.
  apply (Insert_follows_entry_state (after first_insert) 1 (mkThread Out None) (Some 2) 1 [104]); vm_compute; reflexivity.
Defined.

End Demo.
