(* ===== verification/ThreadKeyStorage.v ===== *)
(** * Thread-local storage that can be walked (src/src/util/thread_key_storage.h)

    [ThreadKeyStorage] gives every thread an object of its own, under a key of
    the POSIX threads library, and links the objects into a list that any
    thread can walk; the epoch framework, the loggers and the callback manager
    keep their per-thread state in it.  A node is linked with a compare and
    exchange that may also fail without a reason.

    The state is the heap of nodes, the head of the list, and of every thread
    its value of the key and where it is in a call.  Every access to [head_node_]
    or to a [prev] field is one step.  Addresses are positions in the heap, and
    memory never runs out except where the code looks at the outcome, which is
    an argument of the call of [Get].

    The theorems show that a thread always gets the same node and never that of
    another; that a walk visits every node of a thread that had returned from
    its first [Get] when the walk began, and no node twice, whatever is linked
    meanwhile; and that a walk ends. *)

From S2P Require Import Prelude.

Module ThreadKeyStorage.

Section storage.
Context {T : Type}.

(** [TlsNode]. *)
Record TlsNode := mkNode { prev : option nat; payload : T }.

(** What [pthread_setspecific] returned. *)
Inductive SetSpecific : Type := SetOk | SetENOMEM | SetEINVAL.

Inductive Result : Type := RNode (k : nat) | RVisited (visited : list nat).

(** Where a thread is; [f] is what the function of a walk returns for a node. *)
Inductive Pc : Type :=
| Out
| PushLoad (new_obj : nat)
| PushLink (new_obj : nat) (old : option nat)
| PushExchange (new_obj : nat) (old : option nat)
| WalkHead (f : nat -> bool)
| Walk (f : nat -> bool) (ptr : option nat) (visited : list nat)
| Returned (r : Result).

(** A thread and its value of [key_]. *)
Record Thread := mkThread { specific : option nat; pc : Pc }.

Record State := mkStorage {
  heap : list TlsNode;
  head_node_ : option nat;
  threads : list Thread;
  exited : bool;
  (** the linked nodes, newest first *)
  linked : list nat;
}.

(** A call, or the next access of a thread; [spurious] makes a compare and
    exchange fail. *)
Inductive Label : Type :=
| LGet (i : nat) (func : T) (err : SetSpecific)
| LForEach (i : nat)
| LEvery (i : nat) (f : nat -> bool)
| LThread (i : nat) (spurious : bool).

Definition set_thread (s : State) (i : nat) (t : Thread) : State :=
  mkStorage (heap s) (head_node_ s) (<[i := t]> (threads s)) (exited s) (linked s).
Definition set_pc (s : State) (i : nat) (t : Thread) (p : Pc) : State := set_thread s i (mkThread (specific t) p).

Definition between_calls (p : Pc) : bool := match p with Out | Returned _ => true | _ => false end.

(** [ThreadKeyStorage::ThreadKeyStorage], for [n] threads. *)
Definition init (n : nat) : State := mkStorage [] None (replicate n (mkThread None Out)) false [].

(** [Get] up to its first shared access: the node is made and becomes the
    thread's value of the key. *)
Definition Get (s : State) (i : nat) (t : Thread) (func : T) (err : SetSpecific) : State :=
  match specific t with
  | Some k => set_pc s i t (Returned (RNode k))
  | None =>
      let new_obj := length (heap s) in
      let s' := mkStorage (heap s ++ [mkNode None func]) (head_node_ s) (threads s) (exited s) (linked s) in
      match err with
      | SetOk => set_thread s' i (mkThread (Some new_obj) (PushLoad new_obj))
      | _ => mkStorage (heap s') (head_node_ s') (threads s') true (linked s')
      end
  end.

(** One access of a thread inside a call. *)
Definition thread_step (s : State) (i : nat) (t : Thread) (spurious : bool) : option State :=
  match pc t with
  | Out | Returned _ => None
  | PushLoad k => Some (set_pc s i t (PushLink k (head_node_ s)))
  | PushLink k old =>
      n ← heap s !! k;
      Some (set_pc (mkStorage (<[k := mkNode old (payload n)]> (heap s)) (head_node_ s) (threads s) (exited s) (linked s))
              i t (PushExchange k old))
  | PushExchange k old =>
      Some (if negb spurious && bool_decide (head_node_ s = old) then
              set_pc (mkStorage (heap s) (Some k) (threads s) (exited s) (k :: linked s)) i t (Returned (RNode k))
            else set_pc s i t (PushLoad k))
  | WalkHead f => Some (set_pc s i t (Walk f (head_node_ s) []))
  | Walk f None visited => Some (set_pc s i t (Returned (RVisited visited)))
  | Walk f (Some k) visited =>
      n ← heap s !! k;
      Some (set_pc s i t (if f k then Walk f (prev n) (visited ++ [k]) else Returned (RVisited (visited ++ [k]))))
  end.

(** The call of a thread that is outside the storage. *)
Definition call (s : State) (i : nat) (f : Thread -> State) : option State :=
  t ← threads s !! i; if between_calls (pc t) then Some (f t) else None.

Definition step (s : State) (l : Label) : option State :=
  if exited s then None else
  match l with
  | LGet i func err => call s i (fun t => Get s i t func err)
  | LForEach i => call s i (fun t => set_pc s i t (WalkHead (fun _ => true)))
  | LEvery i f => call s i (fun t => set_pc s i t (WalkHead f))
  | LThread i spurious => t ← threads s !! i; thread_step s i t spurious
  end.

Fixpoint run (s : State) (ls : list Label) : option State :=
  match ls with
  | [] => Some s
  | l :: ls' => s' ← step s l; run s' ls'
  end.

Definition reachable (n : nat) (s : State) : Prop := ∃ ls, run (init n) ls = Some s.

(** The nodes that the destructor deletes, one after the other. *)
Fixpoint destroyed (fuel : nat) (h : list TlsNode) (ptr : option nat) : option (list nat) :=
  match ptr, fuel with
  | None, _ => Some []
  | Some _, O => None
  | Some k, S fuel' => n ← h !! k; l ← destroyed fuel' h (prev n); Some (k :: l)
  end.

End storage.
#[global] Arguments TlsNode : clear implicits.
#[global] Arguments State : clear implicits.
#[global] Arguments Label : clear implicits.
End ThreadKeyStorage.
Import ThreadKeyStorage.

(** ** The invariant *)

Section storage.
Context {T : Type}.
Implicit Types (s : State T) (t : Thread) (h : list (TlsNode T)).

(** The nodes of a list that starts at [ptr]. *)
Fixpoint chained h (ptr : option nat) (l : list nat) : Prop :=
  match l with
  | [] => ptr = None
  | k :: l' => ptr = Some k ∧ ∃ n, h !! k = Some n ∧ chained h (prev n) l'
  end.

(** The node a thread has made and not linked yet. *)
Definition pushing (p : Pc) : option nat :=
  match p with PushLoad k | PushLink k _ | PushExchange k _ => Some k | _ => None end.

Definition pc_ok h (link : list nat) (p : Pc) : Prop :=
  match p with
  | PushExchange k old => ∃ n, h !! k = Some n ∧ prev n = old
  | Walk f ptr visited => ∃ newer rest, link = newer ++ visited ++ rest ∧ chained h ptr rest
  | Returned (RVisited visited) => ∃ newer rest, link = newer ++ visited ++ rest
  | Returned (RNode k) => k ∈ link
  | _ => True
  end.

Definition thread_ok h (link : list nat) t : Prop :=
  pc_ok h link (pc t) ∧
  (∀ k, specific t = Some k -> (k < length h)%nat ∧ (k ∈ link <-> pushing (pc t) = None)) ∧
  (∀ k, pushing (pc t) = Some k ∨ pc t = Returned (RNode k) -> specific t = Some k).

Record inv s : Prop := {
  inv_chain : chained (heap s) (head_node_ s) (linked s);
  inv_nodup : NoDup (linked s);
  inv_threads : ∀ i t, threads s !! i = Some t -> thread_ok (heap s) (linked s) t;
  inv_private : ∀ i j t u k, threads s !! i = Some t -> threads s !! j = Some u ->
    specific t = Some k -> specific u = Some k -> i = j;
}.

Lemma chained_app h n ptr l : chained h ptr l -> chained (h ++ [n]) ptr l.
Proof.
  revert ptr. induction l as [|k l IH]; intros ptr; [done|]. intros (-> & m & Hm & Hc). split; [done|].
  exists m. split; [by apply lookup_app_l_Some|by apply IH].
Qed.

Lemma chained_insert h k n ptr l : k ∉ l -> chained h ptr l -> chained (<[k := n]> h) ptr l.
Proof.
  revert ptr. induction l as [|x l IH]; intros ptr; [done|]. intros [Hne Hk]%not_elem_of_cons (-> & m & Hm & Hc).
  split; [done|]. exists m. split; [by rewrite list_lookup_insert_ne|by apply IH].
Qed.

(** The chain of a suffix does not go through a node that is not linked. *)
Lemma pc_ok_insert h k n link p : k ∉ link -> pushing p <> Some k -> pc_ok h link p -> pc_ok (<[k := n]> h) link p.
Proof.
  intros Hk Hp. destruct p as [| | |x old|f|f ptr visited|r]; try done; cbn [pc_ok].
  - intros (m & Hm & E). exists m. split; [|done]. rewrite list_lookup_insert_ne; [done|]. intros ->. by destruct Hp.
  - intros (newer & rest & E & Hc). exists newer, rest. split; [done|]. apply chained_insert; [|done].
    intros Hr. apply Hk. rewrite E, !elem_of_app. auto.
Qed.

Lemma pc_ok_app h n link p : pc_ok h link p -> pc_ok (h ++ [n]) link p.
Proof.
  destruct p as [| | |x old|f|f ptr visited|r]; try done; cbn [pc_ok].
  - intros (m & Hm & E). exists m. split; [by apply lookup_app_l_Some|done].
  - intros (newer & rest & E & Hc). exists newer, rest. split; [done|by apply chained_app].
Qed.

Lemma pc_ok_cons h k link p : pc_ok h link p -> pc_ok h (k :: link) p.
Proof.
  destruct p as [| | |x old|f|f ptr visited|[x|v]]; try done; cbn [pc_ok].
  - intros (newer & rest & -> & Hc). by exists (k :: newer), rest.
  - intros Hx. by apply list_elem_of_further.
  - intros (newer & rest & ->). by exists (k :: newer), rest.
Qed.

(** A thread moves to another point without changing what is shared. *)
Lemma storage_set_pc_inv s i t p : inv s -> threads s !! i = Some t -> pc_ok (heap s) (linked s) p ->
  pushing p = pushing (pc t) -> (∀ k, p = Returned (RNode k) -> specific t = Some k) -> inv (set_pc s i t p).
Proof.
  intros [Hc Hn Ht Hp] Hi Hok Hpush Hret. destruct (Ht i t Hi) as (_ & Hs & Hk). split; try done; cbn.
  - intros j u [(-> & <- & _)|[_ Hj]]%list_lookup_insert_Some; [|by apply Ht with j]. split_and!; cbn; [done| |].
    + rewrite Hpush. exact Hs.
    + intros k [E|E]; [apply Hk; left; congruence|by apply Hret].
  - assert (Hold : ∀ j u, <[i := mkThread (specific t) p]> (threads s) !! j = Some u ->
      ∃ u', threads s !! j = Some u' ∧ specific u' = specific u).
    { intros j u [(-> & <- & _)|[_ Hj]]%list_lookup_insert_Some; eauto. }
    intros a b u v k Ha Hb Hu Hv. destruct (Hold a u Ha) as (u' & Ha' & Eu), (Hold b v Hb) as (v' & Hb' & Ev).
    apply (Hp a b u' v' k); congruence.
Qed.

(** A node that a thread is pushing belongs to nobody else. *)
Lemma pushing_unlinked s i t k : inv s -> threads s !! i = Some t -> pushing (pc t) = Some k ->
  specific t = Some k ∧ k ∉ linked s ∧ (k < length (heap s))%nat ∧
  ∀ j u, threads s !! j = Some u -> specific u = Some k ∨ pushing (pc u) = Some k -> j = i.
Proof.
  intros H Hi Hk. destruct (inv_threads s H i t Hi) as (_ & Hs & Hr).
  assert (E : specific t = Some k) by (apply Hr; auto). destruct (Hs k E) as [Hl Hin]. split_and!; try done.
  - intros Hx%Hin. congruence.
  - intros j u Hj Hu. apply (inv_private s H j i u t k Hj Hi); [|done].
    destruct Hu as [Hu|Hu]; [done|]. destruct (inv_threads s H j u Hj) as (_ & _ & Hru). apply Hru. auto.
Qed.

Lemma link_inv s i t k old n : inv s -> threads s !! i = Some t -> pc t = PushLink k old -> heap s !! k = Some n ->
  inv (set_pc (mkStorage (<[k := mkNode old (payload n)]> (heap s)) (head_node_ s) (threads s) (exited s) (linked s))
         i t (PushExchange k old)).
Proof.
  intros H Hi Hpc Hn. destruct (pushing_unlinked s i t k H Hi ltac:(by rewrite Hpc)) as (Hsp & Hk & Hlt & Hother).
  cut (inv (mkStorage (<[k := mkNode old (payload n)]> (heap s)) (head_node_ s) (threads s) (exited s) (linked s))).
  { intros H'. apply storage_set_pc_inv; [done|done| |by rewrite Hpc|done].
    cbn. rewrite list_lookup_insert_eq by done. eauto. }
  pose proof H as [Hc Hnd Ht Hp]. split; cbn; [by apply chained_insert|done| |done].
  intros j u Hj. destruct (Ht j u Hj) as (Hok & Hs & Hr). unfold thread_ok. rewrite length_insert. split_and!; [|done|done].
  destruct (decide (j = i)) as [->|Hne]; [simplify_eq; by rewrite Hpc|].
  apply pc_ok_insert; [done| |done]. intros E. apply Hne, (Hother j u Hj). auto.
Qed.

Lemma exchange_inv s i t k old : inv s -> threads s !! i = Some t -> pc t = PushExchange k old -> head_node_ s = old ->
  inv (set_pc (mkStorage (heap s) (Some k) (threads s) (exited s) (k :: linked s)) i t (Returned (RNode k))).
Proof.
  intros H Hi Hpc Hh. destruct (pushing_unlinked s i t k H Hi ltac:(by rewrite Hpc)) as (Hsp & Hk & Hlt & Hother).
  pose proof H as [Hc Hnd Ht Hp]. destruct (Ht i t Hi) as (Hok & Hs & Hr). rewrite Hpc in Hok. destruct Hok as (n & Hn & Hold).
  split; cbn.
  - split; [done|]. exists n. split; [done|]. by rewrite Hold, <- Hh.
  - by apply NoDup_cons.
  - intros j u [(-> & <- & _)|[Hne Hj]]%list_lookup_insert_Some.
    + split_and!; cbn; [apply list_elem_of_here| |].
      * intros k' E. simplify_eq. split; [done|]. split; [done|]. intros _. apply list_elem_of_here.
      * by intros k' [?|[= <-]].
    + destruct (Ht j u Hj) as (Hok & Hsu & Hru). split_and!; [by apply pc_ok_cons| |done].
      intros k' Hk'. destruct (Hsu k' Hk') as [Hl Hin]. split; [done|]. rewrite elem_of_cons, <- Hin.
      split; [|auto]. intros [->|?]; [|done]. destruct Hne. symmetry. apply (Hother j u Hj). auto.
  - assert (Hsame : ∀ j u, <[i := mkThread (specific t) (Returned (RNode k))]> (threads s) !! j = Some u ->
      ∃ u', threads s !! j = Some u' ∧ specific u' = specific u).
    { intros j u [(-> & <- & _)|[_ Hj]]%list_lookup_insert_Some; eauto. }
    intros a b u v k' Ha Hb Hu Hv. destruct (Hsame a u Ha) as (u' & Ha' & Eu), (Hsame b v Hb) as (v' & Hb' & Ev).
    apply (Hp a b u' v' k'); congruence.
Qed.

Lemma chained_lookup h k l : chained h (Some k) l -> ∃ n l', h !! k = Some n ∧ l = k :: l' ∧ chained h (prev n) l'.
Proof. destruct l as [|x l]; [done|]. intros ([= ->] & n & Hn & Hc). eauto. Qed.

Lemma storage_thread_step_inv s i t b s' : inv s -> threads s !! i = Some t -> thread_step s i t b = Some s' -> inv s'.
Proof.
  intros H Hi. destruct (inv_threads s H i t Hi) as (Hok & Hs & Hr). unfold thread_step.
  destruct (pc t) as [|k|k old|k old|f|f [k|] visited|r] eqn:Hpc; try done; cbn [pc_ok] in Hok.
  - intros [= <-]. apply storage_set_pc_inv; try done. by rewrite Hpc.
  - intros (n & Hn & [= <-])%bind_Some. by apply link_inv.
  - destruct (negb b && bool_decide (head_node_ s = old)) eqn:E; intros [= <-].
    + apply andb_prop in E as [_ E%bool_decide_eq_true]. by eapply exchange_inv.
    + apply storage_set_pc_inv; try done. by rewrite Hpc.
  - intros [= <-]. apply storage_set_pc_inv; try done; [|by rewrite Hpc]. cbn. exists [], (linked s).
    split; [done|]. apply H.
  - intros (n & Hn & [= <-])%bind_Some. destruct Hok as (newer & rest & E & Hc).
    apply chained_lookup in Hc as (n' & l' & Hn' & -> & Hc). simplify_eq.
    assert (E' : linked s = newer ++ (visited ++ [k]) ++ l') by (rewrite E, <- !app_assoc; done).
    destruct (f k); apply storage_set_pc_inv; try done; try (by rewrite Hpc); cbn; eauto.
  - intros [= <-]. destruct Hok as (newer & rest & E & Hc). apply storage_set_pc_inv; try done; [|by rewrite Hpc]. cbn. eauto.
Qed.

Lemma Get_inv s i t func err : inv s -> threads s !! i = Some t -> between_calls (pc t) = true -> inv (Get s i t func err).
Proof.
  intros H Hi Hb. pose proof H as [Hc Hnd Ht Hp]. destruct (Ht i t Hi) as (Hok & Hs & Hr). unfold Get.
  assert (Hnp : pushing (pc t) = None) by (by destruct (pc t)).
  destruct (specific t) as [k|] eqn:Esp.
  { apply storage_set_pc_inv; try done; [|by intros k' [= <-]]. cbn. by apply (Hs k). }
  set (s' := mkStorage (heap s ++ [mkNode None func]) (head_node_ s) (threads s) (exited s) (linked s)).
  assert (H' : inv s').
  { split; cbn; [by apply chained_app|done| |done]. intros j u Hj. destruct (Ht j u Hj) as (Hok' & Hs' & Hr').
    split_and!; [by apply pc_ok_app| |done]. intros k Hk. rewrite length_app. destruct (Hs' k Hk). split; [lia|done]. }
  assert (Hfresh : ∀ j u, threads s !! j = Some u -> specific u <> Some (length (heap s))).
  { intros j u Hj E. destruct (Ht j u Hj) as (_ & Hs' & _). destruct (Hs' _ E). lia. }
  assert (Hnew : length (heap s) ∉ linked s).
  { clear -Hc. revert Hc. generalize (head_node_ s). induction (linked s) as [|x l IH]; intros ptr; [by intros _ ?%elem_of_nil|].
    intros (-> & n & Hn & Hc) [E|Hin]%elem_of_cons; [apply lookup_lt_Some in Hn; lia|by eapply IH]. }
  destruct err; [|by destruct H'|by destruct H']. destruct H' as [Hc' Hnd' Ht' Hp']. split; try done; cbn.
  - intros j u [(-> & <- & _)|[_ Hj]]%list_lookup_insert_Some; [|by apply (Ht' j)]. split_and!; cbn; [done| |naive_solver].
    intros k [= <-]. rewrite length_app. cbn. split; [lia|]. split; [done|]. done.
  - intros a b u v k [(<- & <- & _)|[Hna Ha]]%list_lookup_insert_Some [(<- & <- & _)|[Hnb Hb']]%list_lookup_insert_Some; cbn.
    + done.
    + intros [= <-] E. by destruct (Hfresh b v Hb').
    + intros E [= <-]. by destruct (Hfresh a u Ha).
    + by apply Hp.
Qed.

Lemma storage_step_inv s l s' : inv s -> step s l = Some s' -> inv s'.
Proof.
  intros H. unfold step. destruct (exited s); [done|].
  assert (Hcall : ∀ i f, (∀ t, threads s !! i = Some t -> between_calls (pc t) = true -> inv (f t)) ->
    call s i f = Some s' -> inv s').
  { intros i f Hf (t & Hi & E)%bind_Some. destruct (between_calls (pc t)) eqn:Eb; [|done]. injection E as <-. by apply Hf. }
  assert (Hwalk : ∀ i f t, threads s !! i = Some t -> between_calls (pc t) = true -> inv (set_pc s i t (WalkHead f))).
  { intros i f t Hi Hb. apply storage_set_pc_inv; try done. by destruct (pc t). }
  destruct l as [i func err|i|i f|i b].
  - apply Hcall. intros t Hi Hb. by apply Get_inv.
  - apply Hcall. auto.
  - apply Hcall. auto.
  - intros (t & Hi & E)%bind_Some. by eapply storage_thread_step_inv.
Qed.

Lemma storage_init_inv n : inv (init n).
Proof.
  split; try done; cbn; [constructor| |].
  - intros i t [-> _]%lookup_replicate. split_and!; cbn; try done. by intros k [?|?].
  - by intros i j t u k [-> _]%lookup_replicate.
Qed.

Lemma storage_run_inv s ls s' : inv s -> run s ls = Some s' -> inv s'.
Proof.
  revert s. induction ls as [|l ls IH]; cbn [run]; intros s H E; [by injection E as <-|].
  apply bind_Some in E as (s1 & E1 & E2). eapply IH; [|done]. by eapply storage_step_inv.
Qed.

Lemma storage_reachable_inv n s : reachable n s -> inv s.
Proof. intros [ls E]. eapply storage_run_inv; [apply storage_init_inv|done]. Qed.

(** ** What a step leaves alone *)

Definition mover (l : Label T) : nat := match l with LGet i _ _ | LForEach i | LEvery i _ | LThread i _ => i end.

(** What a step of the thread [i] leaves of the list and of the threads. *)
Definition framed s (i : nat) s' : Prop :=
  (∃ new, linked s' = new ++ linked s) ∧
  (∀ ptr newer rest, linked s = newer ++ rest -> chained (heap s) ptr rest -> chained (heap s') ptr rest) ∧
  (∀ j, j <> i -> threads s' !! j = threads s !! j) ∧
  (∀ t, threads s !! i = Some t ->
     ∃ t', threads s' !! i = Some t' ∧ (∀ k, specific t = Some k -> specific t' = Some k)).

Lemma framed_set s s1 i t p : (∃ new, linked s1 = new ++ linked s) -> threads s1 = threads s -> threads s !! i = Some t ->
  (∀ ptr newer rest, linked s = newer ++ rest -> chained (heap s) ptr rest -> chained (heap s1) ptr rest) ->
  (∀ k, specific t = Some k -> specific p = Some k) -> framed s i (set_thread s1 i p).
Proof.
  intros El Et Hi Hc Hp. split_and!; cbn; try done.
  - intros j Hj. rewrite Et. by apply list_lookup_insert_ne.
  - intros t0 Ht0. simplify_eq. exists p. split; [|done]. rewrite Et. apply list_lookup_insert_eq. by eapply lookup_lt_Some.
Qed.

Lemma framed_pc s i t p : threads s !! i = Some t -> framed s i (set_pc s i t p).
Proof. intros Hi. by apply (framed_set s s i t); [exists []|..]. Qed.

Lemma call_Some s i f s' : call s i f = Some s' ->
  ∃ t, threads s !! i = Some t ∧ between_calls (pc t) = true ∧ s' = f t.
Proof. intros (t & Hi & E)%bind_Some. destruct (between_calls (pc t)) eqn:Eb; [|done]. injection E as <-. eauto. Qed.

Lemma storage_step_frame s l s' : inv s -> step s l = Some s' -> framed s (mover l) s'.
Proof.
  intros H. unfold step. destruct (exited s); [done|]. destruct l as [i func err|i|i f|i b]; cbn [mover].
  - intros (t & Hi & Hb & ->)%call_Some. unfold Get. destruct (specific t) as [k|] eqn:Es; [by apply framed_pc|].
    destruct err; [eapply framed_set; [by exists []|done|done|intros; by apply chained_app|congruence]|..];
      (split_and!; cbn; [by exists []|intros; by apply chained_app|done|eauto]).
  - intros (t & Hi & Hb & ->)%call_Some. by apply framed_pc.
  - intros (t & Hi & Hb & ->)%call_Some. by apply framed_pc.
  - intros (t & Hi & E)%bind_Some. unfold thread_step in E.
    destruct (pc t) as [|k|k old|k old|f|f [k|] visited|r] eqn:Hpc; try done.
    + injection E as <-. by apply framed_pc.
    + apply bind_Some in E as (n & Hn & [= <-]). apply (framed_set _ _ i t); [by exists []|done|done| |done].
      intros ptr newer rest El Hc. apply chained_insert; [|done]. intros Hin.
      destruct (pushing_unlinked s i t k H Hi ltac:(by rewrite Hpc)) as (_ & Hk & _). apply Hk. rewrite El, elem_of_app. auto.
    + injection E as <-. destruct (negb b && _); [|by apply framed_pc].
      apply (framed_set _ _ i t); [by exists [k]|done|done|done|done].
    + injection E as <-. by apply framed_pc.
    + apply bind_Some in E as (n & Hn & [= <-]). by apply framed_pc.
    + injection E as <-. by apply framed_pc.
Qed.

Lemma run_linked s ls s' : inv s -> run s ls = Some s' -> ∃ new, linked s' = new ++ linked s.
Proof.
  revert s. induction ls as [|l ls IH]; cbn [run]; intros s H E; [injection E as <-; by exists []|].
  apply bind_Some in E as (s1 & E1 & E2). destruct (storage_step_frame s l s1 H E1) as ([a Ha] & _).
  destruct (IH s1 (storage_step_inv s l s1 H E1) E2) as [b ->]. exists (b ++ a). by rewrite Ha, app_assoc.
Qed.

Lemma run_specific s ls s' i t k : inv s -> run s ls = Some s' -> threads s !! i = Some t -> specific t = Some k ->
  ∃ t', threads s' !! i = Some t' ∧ specific t' = Some k.
Proof.
  revert s t. induction ls as [|l ls IH]; cbn [run]; intros s t H E Hi Hk; [injection E as <-; eauto|].
  apply bind_Some in E as (s1 & E1 & E2). destruct (storage_step_frame s l s1 H E1) as (_ & _ & Hoth & Hown).
  pose proof (storage_step_inv s l s1 H E1) as H1. destruct (decide (i = mover l)) as [->|Hne].
  - destruct (Hown t Hi) as (t1 & Ht1 & Hs). by apply (IH s1 t1); [| | |apply Hs].
  - apply (IH s1 t); try done. by rewrite Hoth.
Qed.

(** ** Walks *)

(** A walk of the thread [i] that began when [base] was linked. *)
Definition walking (base : list nat) (i : nat) s : Prop :=
  ∃ t, threads s !! i = Some t ∧
    match pc t with
    | WalkHead f => base `suffix_of` linked s ∧ ∀ k, f k = true
    | Walk f ptr visited =>
        (∃ newer rest, linked s = newer ++ visited ++ rest ∧ chained (heap s) ptr rest ∧ base `suffix_of` visited ++ rest) ∧
        ∀ k, f k = true
    | Returned (RVisited v) => v `suffix_of` linked s ∧ base `suffix_of` v
    | _ => False
    end.

(** The labels with which the thread [i] starts a call. *)
Definition starts (i : nat) (l : Label T) : bool :=
  match l with LThread _ _ => false | _ => bool_decide (mover l = i) end.

Lemma walking_step base i s l s' : inv s -> step s l = Some s' -> starts i l = false -> walking base i s -> walking base i s'.
Proof.
  intros H E Hl (t & Hi & Hw). destruct (storage_step_frame s l s' H E) as ([new En] & Hch & Hoth & _).
  destruct (decide (i = mover l)) as [->|Hne].
  - destruct l as [j ? ?|j|j ?|j b]; cbn in Hl; try (by rewrite bool_decide_true in Hl). clear Hl. cbn [mover] in *.
    unfold step in E. destruct (exited s); [done|]. rewrite Hi in E. cbn [mbind option_bind] in E.
    assert (Hset : ∀ p, threads (set_pc s j t p) !! j = Some (mkThread (specific t) p)).
    { intros p. apply list_lookup_insert_eq. by eapply lookup_lt_Some. }
    unfold thread_step in E. destruct (pc t) as [|k|k old|k old|f|f [k|] visited|[|v]] eqn:Hpc; try done.
    + injection E as <-. destruct Hw as [Hb Hf]. eexists. split; [apply Hset|]. cbn. split; [|done].
      exists [], (linked s). split_and!; [done|apply H|done].
    + apply bind_Some in E as (n & Hn & [= <-]). destruct Hw as ((newer & rest & E & Hc & Hb) & Hf). rewrite Hf.
      apply chained_lookup in Hc as (n' & l' & Hn' & -> & Hc). simplify_eq.
      eexists. split; [apply Hset|]. cbn. split; [|done]. exists newer, l'. rewrite <- !app_assoc. done.
    + injection E as <-. destruct Hw as ((newer & rest & E & Hc & Hb) & Hf). eexists. split; [apply Hset|]. cbn.
      destruct rest; [|by destruct Hc]. rewrite app_nil_r in *. split; [by exists newer|done].
  - exists t. rewrite Hoth by done. split; [done|]. rewrite En. destruct (pc t) as [| | | |f|f ptr visited|[|v]]; try done.
    + destruct Hw as [Hb ?]. split; [by apply suffix_app_r|done].
    + destruct Hw as ((newer & rest & E' & Hc & Hb) & Hf). split; [|done]. exists (new ++ newer), rest.
      rewrite E', app_assoc. split_and!; [done| |done]. eapply (Hch _ (newer ++ visited)); [|done]. by rewrite E', app_assoc.
    + destruct Hw as [Hv ?]. split; [by apply suffix_app_r|done].
Qed.

Lemma walking_run base i s ls s' : inv s -> run s ls = Some s' -> Forall (fun l => starts i l = false) ls ->
  walking base i s -> walking base i s'.
Proof.
  revert s. induction ls as [|l ls IH]; cbn [run]; intros s H E Hl Hw; [by injection E as <-|].
  apply Forall_cons in Hl as [Hl Hls]. apply bind_Some in E as (s1 & E1 & E2).
  apply (IH s1); [by eapply storage_step_inv|done|done|by eapply walking_step].
Qed.

(** A thread always gets the same node, and two threads never the same. *)
Theorem Get_returns_my_node n s ls s' i j t u k k' : reachable n s -> run s ls = Some s' ->
  threads s !! i = Some t -> pc t = Returned (RNode k) -> threads s' !! j = Some u -> pc u = Returned (RNode k') ->
  k = k' <-> i = j.
Proof.
  intros H%storage_reachable_inv E Hi Ht Hj Hu. pose proof (storage_run_inv s ls s' H E) as H'.
  destruct (inv_threads s H i t Hi) as (_ & _ & Hr), (inv_threads s' H' j u Hj) as (_ & _ & Hr').
  destruct (run_specific s ls s' i t k H E Hi) as (t' & Hi' & Hs); [apply Hr; auto|].
  assert (Hu' : specific u = Some k') by (apply Hr'; auto). split; [intros ->; by apply (inv_private s' H' i j t' u k')|].
  intros ->. simplify_eq. done.
Qed.

(** [ForEach] visits no node twice, every node of a thread that was outside
    [Get] when it was called, and no node that is not linked, whatever is
    linked meanwhile. *)
Theorem ForEach_visits_every_thread n s i s1 ls s2 t v : reachable n s -> step s (LForEach i) = Some s1 ->
  run s1 ls = Some s2 -> Forall (fun l => starts i l = false) ls ->
  threads s2 !! i = Some t -> pc t = Returned (RVisited v) ->
  NoDup v ∧ (∀ j u k, threads s !! j = Some u -> specific u = Some k -> pushing (pc u) = None -> k ∈ v) ∧
  v `suffix_of` linked s2.
Proof.
  intros H%storage_reachable_inv E1 E2 Hls Ht Hpc. pose proof (storage_step_inv s _ s1 H E1) as H1.
  assert (Hw : walking (linked s) i s1).
  { unfold step in E1. destruct (exited s); [done|]. apply bind_Some in E1 as (t0 & Hi & E1).
    destruct (between_calls (pc t0)); [|done]. injection E1 as <-.
    eexists. split; [cbn; apply list_lookup_insert_eq; by eapply lookup_lt_Some|]. cbn. split; [by exists []|done]. }
  destruct (walking_run (linked s) i s1 ls s2 H1 E2 Hls Hw) as (t' & Ht' & Hv). simplify_eq. rewrite Hpc in Hv.
  destruct Hv as [Hv [l Hl]]. pose proof (storage_run_inv s1 ls s2 H1 E2) as H2. split_and!; [| |done].
  - destruct Hv as [l' Hl']. pose proof (inv_nodup s2 H2) as Hnd. rewrite Hl' in Hnd. by apply NoDup_app in Hnd as (_ & _ & ?).
  - intros j u k Hj Hk Hp. destruct (inv_threads s H j u Hj) as (_ & Hs & _). rewrite Hl. apply elem_of_app. right. by apply (Hs k).
Qed.

Lemma walk_descends s i t f ptr visited rest ls s' : inv s -> threads s !! i = Some t -> pc t = Walk f ptr visited ->
  (∃ newer, linked s = newer ++ rest) -> chained (heap s) ptr rest -> run s ls = Some s' ->
  (length rest < length (filter (fun l => mover l = i) ls))%nat ->
  ∃ ls1 ls2 s1 t1 v, ls = ls1 ++ ls2 ∧ run s ls1 = Some s1 ∧ threads s1 !! i = Some t1 ∧ pc t1 = Returned (RVisited v).
Proof.
  revert s t ptr visited rest. induction ls as [|l ls IH]; cbn [run]; intros s t ptr visited rest H Hi Hpc [newer El] Hc E Hlen.
  { cbn in Hlen. lia. }
  apply bind_Some in E as (s1 & E1 & E2). destruct (storage_step_frame s l s1 H E1) as ([new En] & Hch & Hoth & _).
  pose proof (storage_step_inv s l s1 H E1) as H1.
  assert (Hcont : ∀ t1 ptr1 visited1 rest1, threads s1 !! i = Some t1 -> pc t1 = Walk f ptr1 visited1 ->
    (∃ newer, linked s1 = newer ++ rest1) -> chained (heap s1) ptr1 rest1 ->
    (length rest1 < length (filter (fun l => mover l = i) ls))%nat ->
    ∃ ls1 ls2 s2 t2 v, l :: ls = ls1 ++ ls2 ∧ run s ls1 = Some s2 ∧ threads s2 !! i = Some t2 ∧ pc t2 = Returned (RVisited v)).
  { intros t1 ptr1 visited1 rest1 Hi1 Hpc1 Hl1 Hc1 Hn1.
    destruct (IH s1 t1 ptr1 visited1 rest1 H1 Hi1 Hpc1 Hl1 Hc1 E2 Hn1) as (ls1 & ls2 & s2 & t2 & v & -> & Hr & Ht2 & Hv).
    exists (l :: ls1), ls2, s2, t2, v. split_and!; try done. cbn [run]. by rewrite E1. }
  destruct (decide (mover l = i)) as [Hm|Hm].
  - rewrite filter_cons_True in Hlen by done. cbn in Hlen.
    assert (Hnow : ∀ v, threads s1 !! i = Some (mkThread (specific t) (Returned (RVisited v))) ->
      ∃ ls1 ls2 s2 t2 v, l :: ls = ls1 ++ ls2 ∧ run s ls1 = Some s2 ∧ threads s2 !! i = Some t2 ∧ pc t2 = Returned (RVisited v)).
    { intros v Hv. exists [l], ls. do 2 eexists. exists v. split_and!; [done|cbn; by rewrite E1|done|done]. }
    unfold step in E1. destruct (exited s); [done|].
    destruct l as [j ? ?|j|j ?|j b]; cbn in Hm; subst j; unfold call in E1; rewrite Hi in E1; cbn [mbind option_bind] in E1;
      try (by rewrite Hpc in E1).
    assert (Hset : ∀ p, threads (set_pc s i t p) !! i = Some (mkThread (specific t) p)).
    { intros p. apply list_lookup_insert_eq. by eapply lookup_lt_Some. }
    unfold thread_step in E1. rewrite Hpc in E1. destruct ptr as [k|]; [|injection E1 as <-; by eapply Hnow].
    apply bind_Some in E1 as (nd & Hn & [= <-]). apply chained_lookup in Hc as (n' & l' & Hn' & -> & Hc). simplify_eq.
    destruct (f k); [|by eapply Hnow].
    eapply (Hcont _ _ _ l'); [apply Hset|done| |done|cbn in Hlen; lia]. exists (newer ++ [k]). cbn. by rewrite El, <- app_assoc.
  - rewrite filter_cons_False in Hlen by done. apply (Hcont t ptr visited rest); try done; [by rewrite Hoth| |by eapply Hch].
    exists (new ++ newer). by rewrite En, El, app_assoc.
Qed.

(** A walk that has loaded the head returns after at most one access for every
    node that is linked then, and one more, whatever the other threads do. *)
Theorem ForEach_ends n s i t f ptr visited ls s' : reachable n s -> threads s !! i = Some t -> pc t = Walk f ptr visited ->
  run s ls = Some s' -> (length (linked s) < length (filter (fun l => mover l = i) ls))%nat ->
  ∃ ls1 ls2 s1 t1 v, ls = ls1 ++ ls2 ∧ run s ls1 = Some s1 ∧ threads s1 !! i = Some t1 ∧ pc t1 = Returned (RVisited v).
Proof.
  intros H%storage_reachable_inv Hi Hpc E Hlen. destruct (inv_threads s H i t Hi) as (Hok & _). rewrite Hpc in Hok.
  destruct Hok as (newer & rest & El & Hc). eapply (walk_descends s i t f ptr visited rest); try done.
  - exists (newer ++ visited). by rewrite El, app_assoc.
  - rewrite El, !length_app in Hlen. lia.
Qed.

Lemma chained_bound h ptr l k : chained h ptr l -> k ∈ l -> (k < length h)%nat.
Proof.
  revert ptr. induction l as [|x l IH]; intros ptr; [by intros _ ?%elem_of_nil|].
  intros (_ & n & Hn & Hc) [->|Hk]%elem_of_cons; [by eapply lookup_lt_Some|by eapply IH].
Qed.

Lemma destroyed_chained h ptr l fuel : chained h ptr l -> (length l <= fuel)%nat -> destroyed fuel h ptr = Some l.
Proof.
  revert ptr fuel. induction l as [|k l IH]; intros ptr fuel; cbn [chained]; [by intros -> _; destruct fuel|].
  intros (-> & n & Hn & Hc) Hl. destruct fuel as [|fuel]; cbn in Hl; [lia|]. cbn. rewrite Hn. cbn.
  rewrite (IH (prev n) fuel); [done|done|lia].
Qed.

(** The destructor ends and deletes every linked node exactly once, those of
    all threads that are outside [Get] among them. *)
Theorem destructor_deletes_every_node n s : reachable n s ->
  destroyed (length (heap s)) (heap s) (head_node_ s) = Some (linked s) ∧ NoDup (linked s) ∧
  ∀ j u k, threads s !! j = Some u -> specific u = Some k -> pushing (pc u) = None -> k ∈ linked s.
Proof.
  intros H%storage_reachable_inv. pose proof H as [Hc Hnd Ht _]. split_and!; [|done|].
  - apply destroyed_chained; [done|]. rewrite <- (length_seq (length (heap s)) 0).
    apply submseteq_length, NoDup_submseteq; [done|]. intros k Hk. apply elem_of_seq.
    pose proof (chained_bound _ _ _ k Hc Hk). lia.
  - intros j u k Hj Hk Hp. destruct (Ht j u Hj) as (_ & Hs & _). by apply (Hs k).
Qed.

End storage.

(** ** Executions *)

Module Demo.

Definition after (ls : list (Label nat)) : State nat := default (init 3) (run (init 3) ls).

(** Threads 0 and 1 race to link their nodes; thread 1 is first. *)
Definition race : list (Label nat) :=
  [LGet 0 5%nat SetOk; LGet 1 6%nat SetOk; LThread 0 false; LThread 1 false; LThread 0 false; LThread 1 false; LThread 1 false].

(** Thread 0 fails, tries again and links its node while thread 2 walks. *)
Definition retry : list (Label nat) := replicate 4 (LThread 0 false).
Definition walk : list (Label nat) := [LThread 2 false] ++ retry ++ replicate 2 (LThread 2 false).

Lemma race_reachable : reachable 3 (after race).
Proof. exists race. vm_compute. reflexivity. Qed.

Lemma ForEach_visits_every_thread_witness :
  NoDup [1%nat] ∧
  (∀ j u k, threads (after race) !! j = Some u -> specific u = Some k -> pushing (pc u) = None -> k ∈ [1%nat]) ∧
  [1%nat] `suffix_of` linked (after (race ++ [LForEach 2] ++ walk)).
Proof.
  apply (ForEach_visits_every_thread 3 (after race) 2 (after (race ++ [LForEach 2])) walk
           (after (race ++ [LForEach 2] ++ walk)) (mkThread None (Returned (RVisited [1%nat]))) [1%nat]).
  - exact race_reachable.
  - vm_compute. reflexivity.
  - vm_compute. reflexivity.
  - repeat constructor.
  - vm_compute. reflexivity.
  - reflexivity.
Defined.

Lemma Get_returns_my_node_witness : 1%nat = 0%nat <-> 1%nat = 0%nat.
Proof.
  apply (Get_returns_my_node 3 (after race) retry (after (race ++ retry)) 1 0
           (mkThread (Some 1%nat) (Returned (RNode 1))) (mkThread (Some 0%nat) (Returned (RNode 0)))).
  - exact race_reachable.
  - vm_compute. reflexivity.
  - vm_compute. reflexivity.
  - reflexivity.
  - vm_compute. reflexivity.
  - reflexivity.
Defined.

Definition loaded : list (Label nat) := race ++ [LForEach 2; LThread 2 false].

Lemma ForEach_ends_witness :
  ∃ ls1 ls2 s1 t1 v, retry ++ replicate 2 (LThread 2 false) = ls1 ++ ls2 ∧ run (after loaded) ls1 = Some s1 ∧
    threads s1 !! 2%nat = Some t1 ∧ pc t1 = Returned (RVisited v).
Proof.
  apply (ForEach_ends 3 (after loaded) 2 (mkThread None (Walk (fun _ => true) (Some 1%nat) [])) (fun _ => true) (Some 1%nat) []
           (retry ++ replicate 2 (LThread 2 false)) (after (loaded ++ retry ++ replicate 2 (LThread 2 false)))).
  - exists loaded. vm_compute. reflexivity.
  - vm_compute. reflexivity.
  - reflexivity.
  - vm_compute. reflexivity.
  - vm_compute. lia.
Defined.

Lemma destructor_deletes_every_node_witness : destroyed 2 (heap (after (race ++ retry))) (Some 0%nat) = Some [0%nat; 1%nat].
Proof.
  apply (destructor_deletes_every_node 3 (after (race ++ retry))). exists (race ++ retry). vm_compute. reflexivity.
Defined.

End Demo.
